(* ===== verification/_CoqProject ===== *)
-Q . S2P
Prelude.v
Cbor.v
CborSkip.v
CborRoundtrip.v
CborPrefix.v
Envelope.v
EraSchedule.v
Timing.v
Extension.v
Leader.v
Kes.v
ChainDep.v
Header.v
HeaderFacts.v
ForkChoice.v
Mux.v
NetCodec.v
Spelling.v
Handshake.v
Session.v
SessionFacts.v
SessionLife.v
BTree.v
ChainDb.v
WireCodec.v
ChainSync.v
ChainSyncServer.v
BlockFetch.v
Served.v
MiniProtocols.v
Decoder.v
Wal.v
WalReplay.v
WalFile.v
Portable.v
BlockCodec.v
BlockFacts.v
BlockValidity.v
BlockBinding.v
ToyBlocks.v
Receive.v
ReceiveStores.v
StoredChain.v
ForwardSync.v
Spine.v
SpineFacts.v
SpineExamples.v
Candidates.v
ForkSwitch.v
SwitchFacts.v
SwitchExamples.v
ServedBlocks.v
NativeScript.v
LedgerValue.v
Utxo.v
LedgerMaps.v
ConwayCert.v
Delegation.v
DelegationFacts.v
Governance.v
GovernanceFacts.v
ConwayTx.v
Witness.v
ConwayRules.v
Rational.v
UtxoEffect.v
ConwaySpans.v
ConwayFacts.v
TxSigners.v
ScriptClosure.v
PhaseTwo.v
TxValidity.v
Mempool.v
Ratification.v
EpochBoundary.v
BoundaryFacts.v
BlockEffect.v
LedgerExamples.v
TxExamples.v
EpochExamples.v
