(* ===== verification/Prelude.v ===== *)
(** * Ade: a verification of the consensus, network and storage core

    Ade ([src/crates/]) is a Cardano block-producing node in Rust.  This library models the part
    of it that decides which chain the node is on: how bytes become blocks and messages, which
    headers and blocks are admitted, which of two chains is preferred, how the node stores, logs,
    rolls back and switches chains, and what it serves to its peers.

    ** How the program hangs together

    A peer's bytes enter through the multiplexer and the session ([ade_network]); a handshake fixes
    the protocol version; the mini-protocol codecs and state machines turn payloads into messages.
    A received block is decoded ([ade_codec]), its header validated against the chain-dependent
    state, the era schedule and the stake snapshot ([ade_core/src/consensus]), its body hashed and
    judged by the ledger rules ([ade_ledger]).  An admitted block is stored in the chain database,
    appended to the write-ahead log and applied to the receive state ([ade_runtime/forward_sync],
    [ade_ledger/receive]).  Competing headers are gathered into candidates, fork choice decides,
    and the node switches: it fetches and proves the branch, rolls back to the common ancestor,
    rolls forward, and keeps the abandoned blocks for a while ([ade_node]).  The chain database is
    what the chain-sync and block-fetch servers read.

    ** Files, and what they model

    Foundations.
    - [Prelude]: results, machine integers, decoders that thread an offset, tactics, hints.
    - [Cbor], [CborSkip], [CborRoundtrip], [CborPrefix], [Portable], [Spelling], [Decoder]:
      [ade_codec/src/cbor/mod.rs] and reasoning about readers and writers.  [Dec] is a reader with
      its [&mut usize] offset; [NDec] and [PDec] are readers with an error type of their own.
    - [Envelope]: [cbor/envelope.rs], [cbor/tag24.rs] and [ade_types/src/era.rs].
    - [BTree]: Rust's [BTreeMap] as its ascending list of entries.

    Consensus ([ade_core/src/consensus/]).
    - [EraSchedule], [Timing], [Extension]: [era_schedule.rs], its calendar, its extension and the
      timing authority bound to a bootstrap.
    - [Leader]: [vrf_cert.rs], [ledger_view.rs], the leader threshold in 128-bit
      fixed point.
    - [ChainDep]: [praos_state.rs], [nonce.rs], [op_cert.rs].
    - [Kes]: [ade_crypto/src/kes.rs] and [kes_sum/].
    - [Header], [HeaderFacts]: [header_summary.rs], [kes_check.rs], [header_validate.rs],
      [opcert_validate.rs], [leader_schedule.rs], [leader_check.rs].
    - [ForkChoice]: [events.rs], [candidate.rs], [fork_choice.rs], [rollback.rs].

    Network ([ade_network/src/]).
    - [Mux], [Session], [SessionFacts], [SessionLife]: frames, the frame buffer, the session reducer,
      and the handshake driver of [session/handshake_driver.rs] with its blocking transport.
    - [NetCodec], [WireCodec], [Handshake], [ChainSync], [ChainSyncServer], [BlockFetch],
      [MiniProtocols]: codecs, state machines and servers.

    Storage.
    - [ChainDb]: [ade_runtime/src/chaindb/] (the trait and the in-memory store); [StoredChain].
    - [Wal], [WalReplay], [WalFile]: [ade_ledger/src/wal/] and the file-backed log.
    - [Served], [ServedBlocks]: the served-chain projection, over any block decoder and over the
      node's own.

    Blocks.
    - [BlockCodec], [BlockFacts]: the post-Byron block codec.
    - [BlockValidity], [BlockBinding], [ToyBlocks]: [ade_ledger/src/block_validity/].

    The node.
    - [Receive], [ReceiveStores]: [ade_ledger/src/receive/], [ade_ledger/src/rollback/],
      [ade_runtime/src/receive/], [ade_runtime/src/rollback/].
    - [ForwardSync], [Spine], [SpineFacts], [SpineExamples]:
      [ade_runtime/src/forward_sync/] and [apply_chain_event] of [ade_node/src/node_lifecycle.rs].
    - [Candidates], [ForkSwitch], [SwitchFacts], [SwitchExamples]: [ade_node]'s and [ade_runtime]'s modules of those names, and
      the fork-switch and participant code of [node_sync.rs] and [node_lifecycle.rs].

    The Conway ledger ([ade_ledger/src/], [ade_codec/src/conway/]).
    - [LedgerValue], [LedgerMaps]: [value.rs], [error.rs]; sets, keyed sums and sums over maps.
    - [Utxo]: [utxo.rs], [utxo_overlay.rs], [fingerprint.rs] (its UTxO part) and
      [ade_crypto/src/utxo_set_commitment.rs].
    - [ConwayCert], [Governance], [GovernanceFacts], [ConwayTx]: the codecs of
      certificates, withdrawals, governance proposals, outputs and transaction bodies.
    - [Delegation], [DelegationFacts]: [delegation.rs], [gov_cert.rs], [cert_classify.rs].
    - [ConwayRules], [ConwayFacts]: [conway.rs], [late_era_validation.rs], [alonzo.rs],
      [pre_resolve.rs]: what makes a transaction valid, and what applying it does to the ledger.
    - [UtxoEffect], [ConwaySpans], [BlockEffect]: the walks of [rules.rs] over the bodies of a block
      ([track_utxo], [process_block_certificates]) and [plutus_eval.rs]'s reading of the failed
      transactions.
    - [NativeScript]: [scripts.rs] and the script types and decoder it judges.
    - [Witness], [TxSigners], [ScriptClosure]: [witness.rs] and [tx_validity/]'s [witness.rs],
      [required_signers.rs] and [script_witnesses.rs]: who must sign, and which scripts must be there.
    - [PhaseTwo]: [plutus_eval.rs] and [ade_plutus/src/tx_eval.rs] around the UPLC evaluator.
    - [TxValidity]: [tx_validity/]'s [utxo_free.rs], [phase1.rs], [transition.rs], [verdict.rs].
    - [Mempool]: [mempool/].
    - [Rational]: [rational.rs], the fractions of parameters, shares and thresholds.
    - [Ratification]: [governance.rs] and [governance/frozen.rs]: the votes, the decision frozen at the
      start of an epoch, and its application at the end.
    - [EpochBoundary], [BoundaryFacts]: the epoch boundary of [rules.rs] with the snapshots of
      [epoch.rs], the mark of [epoch_accumulator.rs] and the base stake of [reduced_utxo.rs] and
      [stake_ref.rs].
    - [LedgerExamples], [TxExamples], [EpochExamples]: a concrete ledger, transactions, a block and an
      epoch boundary.

    ** Conventions

    Machine integers are [Z] with their width written out; checked, saturating and wrapping
    operations are the source's.  Bytes are [list Z].  [Result] is [result]; a function on [&mut]
    state returns its result with the state it leaves behind, on the error paths too.  Where the
    source would panic, the result is [Panicked].  Traits are classes with a class of laws beside
    them: clients are proved against the laws, implementations give the instances ([ChainDb] and
    [ChainDbLaws], [WalStore], [ServedHeaderLookup], [ServedRangeLookup], [KesLaws], [WireCodec],
    [MiniProtocol], [SnapshotCodec], [Transport] and [TransportLaws]).

    Third-party code is a parameter: [blake2b], the VRF verifier ([Crypto]), Ed25519 ([Ed25519]),
    UTF-8 validation.  Its laws are hypotheses ([HashLaws]: the length of a digest; unforgeability
    is never assumed: theorems say "or a collision is exhibited").  So are the ledger rules
    ([LedgerRules] of [BlockValidity]: a deterministic function with a fingerprint) and the
    snapshot encoding ([SnapshotCodec]: decoding inverts encoding).

    ** Fuel

    Loops that are not structural run on fuel that is proved to be enough: [skip_item] on the
    length of its input ([CborSkip]: it never runs out), the indefinite-list loops and the session
    on the bytes left, one turn per byte and one more, the walk to the last common ancestor on
    [k + 1] turns, which the depth check makes enough on every cache, cyclic ones too ([Candidates]),
    the native-script decoder and the walk over a parameter update on a turn per byte ([NativeScript],
    [Ratification]), and the closure over descendants on a turn per proposal and one more, each of
    which but the last removes one ([Ratification]).

    ** What the theorems show

    - Codecs: what is written is read back and only what is written is accepted; [skip_item] takes
      exactly the data items of RFC 8949, written on byte strings, and three named liberties; growing
      buffers are handled.
    - Consensus: a header is accepted exactly when a specification of its own, with the leader
      threshold in exact arithmetic, admits it; accepted chains are monotone and replay to the same
      state; fork choice is a strict preference and independent of arrival order; KES keys sign
      every period and only theirs; leadership is monotone in the stake.
    - Network: chunking does not matter, bytes are delivered once, the two handshake drivers settle on
      the highest common version or both refuse, a conversation is a run of the protocol; servers
      answer as the client's machine expects, and send exactly the chain and exactly the ranges asked for.
    - Storage: the database is a map, the log replays to the chain it recorded, a crash that spares a
      frame's length loses at most the frame being written.
    - The Conway ledger: an accepted transaction whose certificates touch each deposit once and refund
      what is on record neither creates nor destroys ADA; a block's walk over its raw bytes is the
      transaction-by-transaction settlement of the bodies it decodes to, for the UTxO and for the
      certificates, failed scripts included; the walk that slices the outputs agrees with the
      decoder; the overlay store is a map; entering an epoch retires the due pools, forgets
      their delegators and changes nothing else.
    - Transaction validity: native scripts mean their tree; the script closure is the ledger
      specification's; an accepted transaction is signed by everyone who must sign, carries exactly
      the scripts it needs, and changes the UTxO by its spend only; the mempool holds exactly the
      offers that were valid in turn.
    - The epoch boundary: on a sound ledger ([ledger_ok]) no ADA is created or destroyed; the mark is
      the stake of the moment; votes are compared as exact ratios, a ratification enacts, prunes and
      expires what they say and returns every deposit; rational arithmetic is exact.
    - The node: after any run of blocks, fork-choice events, switches and snapshots in which stores and
      log do not fail and no rollback leaves a snapshot above its target, the database, the log,
      the ledger and the chain-dependent state agree ([spine_exact], [participation_exact]) and
      rollbacks rebuild the state; a switch whose branch is not proven moves nothing, a proven one
      is adopted whole unless the log fails; the decision is the selection; a follower is sent
      what was validated.

    The places where the code does not do what it or its comments intend are proved too, in
    [SpineExamples], [SwitchExamples], [LedgerExamples], [TxExamples] and [EpochExamples] and next to the
    definitions they are about.

    ** Not modelled, and why

    - The other ledger rules: the eras before Conway, the composition of a block's ledger transition
      and the accumulation of its fees, votes and proposals into the epoch.  To block validity the
      ledger is an interface, see above; the Conway part stands beside it.
    - The UPLC evaluator, third-party code: a parameter of [PhaseTwo].
    - The redb-backed stores, sockets, async drivers, the command line, operator evidence, imports
      from snapshots: input and output.  Lock poisoning and allocation failure other than capacity
      overflow.  Erasing secrets has no observable result.
    - Byron block bodies, the node-to-client handshake, the canonical encodings of the consensus
      state, the forge's own loop. *)

(** ** This file: the shared vocabulary

    Machine integers are kept as [Z] with their width written out
    ([u8_max] ... [u64_max], checked / saturating / wrapping operations), a
    [Vec<u8>] or [&[u8]] is a [list Z] whose elements lie in [0, 256), a Rust
    [Result<A, E>] is [result A E], and a decoder that threads [&mut usize] is
    a value of [Dec A] : it returns the result and the final offset, on the
    error paths too, because the callers of the code can observe both. *)

From Stdlib Require Export ZArith Lia List Bool.
From stdpp Require Export base tactics list gmap strings.

#[global] Open Scope Z_scope.

(** * Results *)

Inductive result (A E : Type) : Type :=
| Ok (a : A)
| Err (e : E).
Arguments Ok {A E} a.
Arguments Err {A E} e.

Definition rbind {A B E} (m : result A E) (k : A -> result B E) : result B E :=
  match m with Ok a => k a | Err e => Err e end.

Definition map_err {A E F} (f : E -> F) (m : result A E) : result A F :=
  match m with Ok a => Ok a | Err e => Err (f e) end.

Definition ok_or {A E} (o : option A) (e : E) : result A E :=
  match o with Some a => Ok a | None => Err e end.

Definition is_ok {A E} (m : result A E) : bool :=
  match m with Ok _ => true | Err _ => false end.

Declare Scope ade_scope.
Delimit Scope ade_scope with ade.

Notation "'let?' x ':=' m 'in' k" := (rbind m (fun x => k))
  (at level 10, x pattern, m at level 100, k at level 200) : ade_scope.
Notation "'guard!' b 'else' e 'in' k" := (if b then k else Err e)
  (at level 10, b at level 100, e at level 100, k at level 200) : ade_scope.
#[global] Open Scope ade_scope.

Lemma rbind_ok_inv {A B E} (m : result A E) (k : A -> result B E) b :
  rbind m k = Ok b -> exists a, m = Ok a /\ k a = Ok b.
Proof. destruct m as [a|e]; cbn; [eauto | discriminate]. Qed.

Lemma map_err_ok {A E F} (f : E -> F) (m : result A E) a :
  map_err f m = Ok a <-> m = Ok a.
Proof. destruct m; cbn; split; congruence. Qed.

Lemma ok_or_ok {A E} (o : option A) (e : E) a : ok_or o e = Ok a <-> o = Some a.
Proof. destruct o; cbn; split; congruence. Qed.

#[global] Instance result_eq_dec {A E} `{EqDecision A, EqDecision E} :
  EqDecision (result A E).
Proof. solve_decision. Defined.

(** * Machine integers *)

Definition u8_max : Z := 255.
Definition u16_max : Z := 65535.
Definition u32_max : Z := 4294967295.
Definition u64_max : Z := 18446744073709551615.
Definition u128_max : Z := 340282366920938463463374607431768211455.

Definition is_u8 (v : Z) : Prop := 0 <= v <= u8_max.
Definition is_u16 (v : Z) : Prop := 0 <= v <= u16_max.
Definition is_u32 (v : Z) : Prop := 0 <= v <= u32_max.
Definition is_u64 (v : Z) : Prop := 0 <= v <= u64_max.
Definition is_u128 (v : Z) : Prop := 0 <= v <= u128_max.

(** [u64::checked_add], [checked_sub], [checked_mul]. *)
Definition checked_add (a b : Z) : option Z :=
  if a + b <=? u64_max then Some (a + b) else None.
Definition checked_sub (a b : Z) : option Z :=
  if b <=? a then Some (a - b) else None.
Definition checked_mul (a b : Z) : option Z :=
  if a * b <=? u64_max then Some (a * b) else None.

(** [u64::saturating_add], [saturating_sub], [saturating_mul]. *)
Definition saturating_add (a b : Z) : Z := Z.min (a + b) u64_max.
Definition saturating_sub (a b : Z) : Z := Z.max (a - b) 0.
Definition saturating_mul (a b : Z) : Z := Z.min (a * b) u64_max.

(** [v as u8], [v as u16], [v as u32], [v as u64] (truncation). *)
Definition as_u8 (v : Z) : Z := v mod 256.
Definition as_u16 (v : Z) : Z := v mod 65536.
Definition as_u32 (v : Z) : Z := v mod 4294967296.
Definition as_u64 (v : Z) : Z := v mod 18446744073709551616.

Lemma checked_add_some a b c :
  checked_add a b = Some c <-> c = a + b /\ a + b <= u64_max.
Proof. unfold checked_add. destruct (Z.leb_spec (a + b) u64_max); split; intros; intuition (congruence || lia). Qed.
Lemma checked_sub_some a b c :
  checked_sub a b = Some c <-> c = a - b /\ b <= a.
Proof. unfold checked_sub. destruct (Z.leb_spec b a); split; intros; intuition (congruence || lia). Qed.
Lemma checked_mul_some a b c :
  checked_mul a b = Some c <-> c = a * b /\ a * b <= u64_max.
Proof. unfold checked_mul. destruct (Z.leb_spec (a * b) u64_max); split; intros; intuition (congruence || lia). Qed.

Lemma checked_add_fits a b : a + b <= u64_max -> checked_add a b = Some (a + b).
Proof. intros. by apply checked_add_some. Qed.
Lemma checked_sub_fits a b : b <= a -> checked_sub a b = Some (a - b).
Proof. intros. by apply checked_sub_some. Qed.
Lemma checked_mul_fits a b : a * b <= u64_max -> checked_mul a b = Some (a * b).
Proof. intros. by apply checked_mul_some. Qed.

Create HintDb ade.
Create Rewrite HintDb ade.
#[export] Hint Rewrite checked_add_fits checked_sub_fits checked_mul_fits using lia : ade.
#[export] Hint Unfold is_u8 is_u16 is_u32 is_u64 is_u128
  u8_max u16_max u32_max u64_max u128_max : ade.

(** [width] exposes the bounds of the machine integers to [lia]. *)
Ltac width := unfold is_u8, is_u16, is_u32, is_u64, is_u128,
  u8_max, u16_max, u32_max, u64_max, u128_max in *.

(** [binv H] takes a successful chain of [let?] apart, one bind at a time. *)
Ltac binv H :=
  repeat match type of H with
  | rbind ?m _ = Ok _ =>
      let a := fresh "a" in let Ha := fresh "Hb" in
      apply rbind_ok_inv in H as (a & Ha & H)
  | (if ?b then _ else Err _) = Ok _ =>
      let E := fresh "Eb" in destruct b eqn:E; [|discriminate H]
  | (if ?b then Err _ else _) = Ok _ =>
      let E := fresh "Eb" in destruct b eqn:E; [discriminate H|]
  end.

(** [ok_inv] reduces every hypothesis that says a partial operation succeeded
    to the arithmetic it stands for. *)
Ltac ok_inv :=
  repeat match goal with
  | H : Ok _ = Ok _ |- _ => injection H as H
  | H : Ok _ = Err _ |- _ => discriminate H
  | H : Err _ = Ok _ |- _ => discriminate H
  | H : Err _ = Err _ |- _ => injection H as H
  | H : map_err _ _ = Ok _ |- _ => apply map_err_ok in H
  | H : ok_or _ _ = Ok _ |- _ => apply ok_or_ok in H
  | H : checked_add _ _ = Some _ |- _ => apply checked_add_some in H as [? ?]
  | H : checked_sub _ _ = Some _ |- _ => apply checked_sub_some in H as [? ?]
  | H : checked_mul _ _ = Some _ |- _ => apply checked_mul_some in H as [? ?]
  end.

(** [bcase] splits on the first boolean comparison it finds and gives [lia] the fact. *)
Ltac bcase :=
  match goal with
  | |- context [?a <=? ?b] => destruct (Z.leb_spec a b)
  | |- context [?a <? ?b] => destruct (Z.ltb_spec a b)
  | |- context [?a =? ?b] => destruct (Z.eqb_spec a b)
  end.

(** * Bits *)

Lemma lor_add_disjoint x n y :
  0 <= n -> 0 <= y < 2 ^ n -> Z.lor (x * 2 ^ n) y = x * 2 ^ n + y.
Proof.
  intros Hn Hy.
  assert (Hz : Z.land (x * 2 ^ n) y = 0).
  { apply Z.bits_inj'. intros i Hi. rewrite Z.land_spec, Z.bits_0.
    destruct (Z.lt_ge_cases i n).
    - by rewrite Z.mul_pow2_bits_low by lia.
    - rewrite <- (Z.mod_small y (2 ^ n)) by lia.
      rewrite (Z.mod_pow2_bits_high y n i) by lia. apply andb_false_r. }
  rewrite <- Z.lxor_lor by done. symmetry. by apply Z.add_nocarry_lxor.
Qed.

Lemma land_ones_mod v n : 0 <= n -> Z.land v (2 ^ n - 1) = v mod 2 ^ n.
Proof. intros. rewrite <- Z.land_ones by done. f_equal. rewrite Z.ones_equiv. lia. Qed.

(** * Byte strings *)

Definition bytes_ok (l : list Z) : Prop := Forall is_u8 l.

Lemma bytes_ok_app l k : bytes_ok (l ++ k) <-> bytes_ok l /\ bytes_ok k.
Proof. apply Forall_app. Qed.

(** [data.len()] as a [usize]. *)
Definition blen {A} (l : list A) : Z := Z.of_nat (length l).

(** [data.get(offset)]. *)
Definition byte_at (data : list Z) (offset : Z) : option Z :=
  if (0 <=? offset) && (offset <? blen data)
  then data !! Z.to_nat offset else None.

(** [data[from..to]] for [from <= to <= data.len()]. *)
Definition slice (data : list Z) (from to : Z) : list Z :=
  take (Z.to_nat (to - from)) (drop (Z.to_nat from) data).

(** [to_be_bytes] of an [n]-byte integer, and [from_be_bytes]. *)
Fixpoint to_be (n : nat) (v : Z) : list Z :=
  match n with
  | O => []
  | S m => Z.shiftr v (8 * Z.of_nat m) mod 256 :: to_be m v
  end.

Definition from_be (l : list Z) : Z := fold_left (fun acc b => acc * 256 + b) l 0.

Lemma blen_nonneg {A} (l : list A) : 0 <= blen l.
Proof. unfold blen. lia. Qed.
Lemma blen_app {A} (l k : list A) : blen (l ++ k) = blen l + blen k.
Proof. unfold blen. rewrite length_app. lia. Qed.
Lemma blen_cons {A} (x : A) (l : list A) : blen (x :: l) = 1 + blen l.
Proof. unfold blen. cbn [length]. lia. Qed.
Lemma blen_map {A B} (f : A -> B) l : blen (map f l) = blen l.
Proof. unfold blen. by rewrite length_map. Qed.
Lemma blen_zero {A} (l : list A) : blen l = 0 -> l = [].
Proof. destruct l; [done|]. rewrite blen_cons. pose proof (blen_nonneg l). lia. Qed.
Lemma blen_nil {A} : blen (@nil A) = 0.
Proof. done. Qed.
#[export] Hint Rewrite @blen_app @blen_cons @blen_nil : ade.

Lemma byte_at_bound data off b : byte_at data off = Some b -> 0 <= off < blen data.
Proof. unfold byte_at. destruct (Z.leb_spec 0 off), (Z.ltb_spec off (blen data)); cbn; try done; lia. Qed.

Lemma byte_at_ok data off b : bytes_ok data -> byte_at data off = Some b -> is_u8 b.
Proof.
  unfold byte_at. intros Hd. destruct (_ && _); [|done].
  intros H. by eapply Forall_lookup_1.
Qed.

Lemma byte_at_none data off : 0 <= off -> byte_at data off = None <-> blen data <= off.
Proof.
  intros Ho. unfold byte_at. destruct (Z.leb_spec 0 off); [|lia].
  destruct (Z.ltb_spec off (blen data)); cbn; split; intros; try lia; try done.
  apply lookup_ge_None in H1. unfold blen in *. lia.
Qed.

Lemma byte_at_app_r (pre : list Z) k i :
  0 <= i -> byte_at (pre ++ k) (blen pre + i) = byte_at k i.
Proof.
  intros Hi. unfold byte_at. rewrite blen_app. pose proof (blen_nonneg pre).
  destruct (Z.leb_spec 0 (blen pre + i)), (Z.leb_spec 0 i); try lia.
  destruct (Z.ltb_spec (blen pre + i) (blen pre + blen k)), (Z.ltb_spec i (blen k)); try lia; [|done].
  cbn. rewrite lookup_app_r by (unfold blen; lia). f_equal. unfold blen. lia.
Qed.

Lemma byte_at_here (pre : list Z) b k : byte_at (pre ++ b :: k) (blen pre) = Some b.
Proof.
  rewrite <- (Z.add_0_r (blen pre)), byte_at_app_r by lia.
  unfold byte_at. rewrite blen_cons. pose proof (blen_nonneg k).
  destruct (Z.ltb_spec 0 (1 + blen k)); [done|lia].
Qed.

Lemma slice_app (pre mid post : list Z) :
  slice (pre ++ mid ++ post) (blen pre) (blen pre + blen mid) = mid.
Proof.
  unfold slice. replace (Z.to_nat (blen pre)) with (length pre) by (unfold blen; lia).
  rewrite drop_app_length.
  replace (Z.to_nat _) with (length mid) by (unfold blen; lia).
  by rewrite take_app_length.
Qed.

Lemma length_to_be n v : length (to_be n v) = n.
Proof. induction n; cbn; congruence. Qed.
Lemma blen_to_be n v : blen (to_be n v) = Z.of_nat n.
Proof. unfold blen. by rewrite length_to_be. Qed.
#[export] Hint Rewrite blen_to_be length_to_be : ade.

Lemma to_be_ok n v : bytes_ok (to_be n v).
Proof.
  induction n; cbn; constructor; [|done].
  pose proof (Z.mod_pos_bound (Z.shiftr v (8 * Z.of_nat n)) 256). unfold is_u8, u8_max. lia.
Qed.

Lemma fold_be_acc l acc :
  fold_left (fun acc b => acc * 256 + b) l acc = acc * 256 ^ blen l + from_be l.
Proof.
  unfold from_be. revert acc. induction l as [|b l IH]; intros acc.
  - unfold blen. cbn. lia.
  - cbn [fold_left]. rewrite IH, (IH (0 * 256 + b)), blen_cons.
    rewrite Z.pow_add_r by (pose proof (blen_nonneg l); lia). lia.
Qed.

Lemma from_be_cons b l : from_be (b :: l) = b * 256 ^ blen l + from_be l.
Proof. unfold from_be at 1. cbn [fold_left]. rewrite fold_be_acc. lia. Qed.

(** Encoding then decoding an integer keeps its low [8 * n] bits. *)
Lemma from_to_be n v : from_be (to_be n v) = v mod 256 ^ Z.of_nat n.
Proof.
  induction n as [|n IH]; [cbn; by rewrite Z.mod_1_r|].
  cbn [to_be]. rewrite from_be_cons, blen_to_be, IH.
  rewrite Z.shiftr_div_pow2 by lia.
  replace (2 ^ (8 * Z.of_nat n)) with (256 ^ Z.of_nat n)
    by (rewrite Z.pow_mul_r by lia; done).
  replace (256 ^ Z.of_nat (S n)) with (256 ^ Z.of_nat n * 256)
    by (rewrite Nat2Z.inj_succ, Z.pow_succ_r by lia; lia).
  rewrite Z.rem_mul_r by (try apply Z.pow_nonzero; lia). lia.
Qed.

Lemma from_to_be_fits n v : 0 <= v < 256 ^ Z.of_nat n -> from_be (to_be n v) = v.
Proof. intros. rewrite from_to_be. by apply Z.mod_small. Qed.

Lemma from_to_be_u16 v : is_u16 v -> from_be (to_be 2 v) = v.
Proof. intros [? ?]. apply from_to_be_fits. change (256 ^ Z.of_nat 2) with 65536. unfold u16_max in *. lia. Qed.
Lemma from_to_be_u32 v : is_u32 v -> from_be (to_be 4 v) = v.
Proof. intros [? ?]. apply from_to_be_fits. change (256 ^ Z.of_nat 4) with 4294967296. unfold u32_max in *. lia. Qed.
#[export] Hint Rewrite from_to_be_u16 from_to_be_u32 using (width; lia) : ade.

Lemma from_be_bound l : bytes_ok l -> 0 <= from_be l < 256 ^ blen l.
Proof.
  induction 1 as [|b l Hb _ IH]; [split; vm_compute; congruence|].
  rewrite from_be_cons, blen_cons, Z.pow_add_r by (pose proof (blen_nonneg l); lia).
  change (256 ^ 1) with 256. width. nia.
Qed.

Lemma to_be_mod n v : to_be n (v mod 256 ^ Z.of_nat n) = to_be n v.
Proof.
  assert (Haux : forall k m, (m <= k)%nat -> to_be m (v mod 256 ^ Z.of_nat k) = to_be m v).
  { intros k. induction m as [|m IH]; intros Hm; [done|].
    cbn [to_be]. rewrite IH by lia. f_equal.
    change 256 with (2 ^ 8). rewrite <- Z.pow_mul_r by lia.
    rewrite <- !Z.land_ones by lia. rewrite Z.shiftr_land, <- Z.land_assoc. f_equal.
    rewrite Z.shiftr_div_pow2, !Z.ones_equiv by lia.
    apply Z.bits_inj'. intros i Hi. rewrite Z.land_spec, <- !Z.sub_1_r.
    rewrite <- Z.shiftr_div_pow2 by lia. rewrite Z.shiftr_spec by lia.
    rewrite !Z.sub_1_r, <- !Z.ones_equiv.
    destruct (Z.ltb_spec i 8).
    - rewrite !Z.ones_spec_low by lia. done.
    - rewrite (Z.ones_spec_high 8) by lia. by rewrite andb_false_r. }
  by apply Haux.
Qed.

Lemma to_from_be l : bytes_ok l -> to_be (length l) (from_be l) = l.
Proof.
  induction 1 as [|b l Hb Hl IH]; [done|].
  pose proof (from_be_bound l Hl) as Hfb. unfold blen in Hfb.
  rewrite from_be_cons. cbn [length to_be].
  assert (Hp : 0 < 256 ^ Z.of_nat (length l)) by (apply Z.pow_pos_nonneg; lia).
  f_equal.
  - rewrite Z.shiftr_div_pow2 by lia.
    replace (2 ^ (8 * Z.of_nat (length l))) with (256 ^ Z.of_nat (length l))
      by (rewrite Z.pow_mul_r by lia; done).
    unfold blen. rewrite Z.div_add_l, Z.div_small, Z.add_0_r by lia.
    unfold is_u8, u8_max in Hb. apply Z.mod_small. lia.
  - rewrite <- to_be_mod. unfold blen.
    rewrite (Z.add_comm (b * _)), Z.mod_add, Z.mod_small by lia. exact IH.
Qed.

(** Lexicographic comparison of byte arrays ([<[u8; N] as Ord>::cmp]). *)
Fixpoint bytes_cmp (a b : list Z) : comparison :=
  match a, b with
  | [], [] => Eq
  | [], _ :: _ => Lt
  | _ :: _, [] => Gt
  | x :: a', y :: b' =>
      match Z.compare x y with Eq => bytes_cmp a' b' | c => c end
  end.

Lemma bytes_cmp_eq a b : bytes_cmp a b = Eq <-> a = b.
Proof.
  revert b. induction a as [|x a IH]; intros [|y b]; cbn; try done.
  destruct (Z.compare_spec x y); subst.
  - rewrite IH. split; congruence.
  - split; [done|]. intros [=]; lia.
  - split; [done|]. intros [=]; lia.
Qed.

Lemma bytes_cmp_antisym a b : bytes_cmp b a = CompOpp (bytes_cmp a b).
Proof.
  revert b. induction a as [|x a IH]; intros [|y b]; cbn; try done.
  rewrite (Z.compare_antisym x y). destruct (Z.compare x y); cbn; auto.
Qed.

Lemma bytes_cmp_lt_trans a b c :
  bytes_cmp a b = Lt -> bytes_cmp b c = Lt -> bytes_cmp a c = Lt.
Proof.
  revert b c. induction a as [|x a IH]; intros [|y b] [|z c]; cbn; try done.
  destruct (Z.compare_spec x y), (Z.compare_spec y z), (Z.compare_spec x z);
    subst; intros; try done; try lia; eauto.
Qed.
