(* ===== verification/Cbor.v ===== *)
(** The CBOR primitives of [crates/ade_codec/src/cbor/mod.rs]: the reading and
    writing functions over a byte slice and an offset, and the iterative item
    skipper with the recursive formulation it replaced
    ([cbor/skip_differential_tests.rs]).

    A reader [fn f(data: &[u8], offset: &mut usize) -> Result<A, CodecError>]
    is a [Dec A]; a writer that pushes onto [buf] is a function that returns
    the extended buffer. *)

From S2P Require Import Prelude.




(** * Errors ([error.rs]) *)

Inductive CodecError : Type :=
| UnknownEraTag (tag : Z)
| UnknownCertTag (tag offset : Z)
| UnexpectedEof (offset needed : Z)
| InvalidCborStructure (offset : Z) (detail : string)
| TrailingBytes (consumed total : Z)
| UnexpectedCborType (offset : Z) (expected : string) (actual : Z)
| InvalidLength (offset : Z) (detail : string)
| DuplicateMapKey (offset : Z).

#[global] Instance CodecError_eq_dec : EqDecision CodecError.
Proof. solve_decision. Defined.

(** * Decoders: [(data, &mut offset) -> Result<A, CodecError>] *)

Definition Dec (A : Type) : Type := list Z -> Z -> result A CodecError * Z.

Definition dret {A} (a : A) : Dec A := fun _ off => (Ok a, off).
Definition fail {A} (e : CodecError) : Dec A := fun _ off => (Err e, off).
Definition here : Dec Z := fun _ off => (Ok off, off).
Definition dbind {A B} (m : Dec A) (k : A -> Dec B) : Dec B :=
  fun data off =>
    match m data off with
    | (Ok a, off') => k a data off'
    | (Err e, off') => (Err e, off')
    end.

Notation "'do!' x ':=' m 'in' k" := (dbind m (fun x => k))
  (at level 10, x pattern, m at level 100, k at level 200) : ade_scope.

(** * Constants *)

Definition MAJOR_UNSIGNED : Z := 0.
Definition MAJOR_NEGATIVE : Z := 1.
Definition MAJOR_BYTES : Z := 2.
Definition MAJOR_TEXT : Z := 3.
Definition MAJOR_ARRAY : Z := 4.
Definition MAJOR_MAP : Z := 5.
Definition MAJOR_TAG : Z := 6.
Definition MAJOR_SIMPLE : Z := 7.

Definition AI_ONE_BYTE : Z := 24.
Definition AI_TWO_BYTES : Z := 25.
Definition AI_FOUR_BYTES : Z := 26.
Definition AI_EIGHT_BYTES : Z := 27.
Definition AI_INDEFINITE : Z := 31.

Definition BREAK_BYTE : Z := 255.

Inductive IntWidth : Type := Inline | I8 | I16 | I32 | I64.

Inductive ContainerEncoding : Type :=
| Definite (count : Z) (width : IntWidth)
| Indefinite.

#[global] Instance IntWidth_eq_dec : EqDecision IntWidth.
Proof. solve_decision. Defined.
#[global] Instance ContainerEncoding_eq_dec : EqDecision ContainerEncoding.
Proof. solve_decision. Defined.

(** * Reading primitives *)

Definition peek_byte (data : list Z) (offset : Z) : result Z CodecError :=
  ok_or (byte_at data offset) (UnexpectedEof offset 1).

Definition read_byte : Dec Z := fun data off =>
  match peek_byte data off with
  | Ok b => (Ok b, off + 1)
  | Err e => (Err e, off)
  end.

Definition decode_initial : Dec (Z * Z) :=
  do! b := read_byte in
  dret (Z.shiftr b 5, Z.land b 31).

(** The guard [*offset + n > data.len()] followed by the read of [n] bytes and
    [*offset += n], for the fixed sizes 2, 4 and 8. *)
Definition read_fixed (n : Z) : Dec (list Z) := fun data off =>
  if blen data <? off + n then (Err (UnexpectedEof off n), off)
  else (Ok (slice data off (off + n)), off + n).

Definition decode_argument (ai start_offset : Z) : Dec (Z * IntWidth) :=
  if ai <=? 23 then dret (ai, Inline)
  else if ai =? AI_ONE_BYTE then do! b := read_byte in dret (b, I8)
  else if ai =? AI_TWO_BYTES then do! l := read_fixed 2 in dret (from_be l, I16)
  else if ai =? AI_FOUR_BYTES then do! l := read_fixed 4 in dret (from_be l, I32)
  else if ai =? AI_EIGHT_BYTES then do! l := read_fixed 8 in dret (from_be l, I64)
  else fail (InvalidCborStructure start_offset
               "reserved additional info value (28-30)").

Definition peek_major (data : list Z) (offset : Z) : result Z CodecError :=
  let? b := peek_byte data offset in Ok (Z.shiftr b 5).

Definition read_uint : Dec (Z * IntWidth) :=
  do! start := here in
  do! (major, ai) := decode_initial in
  if negb (major =? MAJOR_UNSIGNED)
  then fail (UnexpectedCborType start "unsigned integer" major)
  else decode_argument ai start.

(** The length-prefixed payload: [checked_add] guards the end of the range,
    then the bytes are copied and the offset moved past them. *)
Definition read_payload (len : Z) : Dec (list Z) := fun data off =>
  match checked_add off len with
  | Some e =>
      if blen data <? e then (Err (UnexpectedEof off len), off)
      else (Ok (slice data off (off + len)), off + len)
  | None => (Err (UnexpectedEof off len), off)
  end.

Definition read_bytes : Dec (list Z * IntWidth) :=
  do! start := here in
  do! (major, ai) := decode_initial in
  if negb (major =? MAJOR_BYTES)
  then fail (UnexpectedCborType start "byte string" major)
  else if ai =? AI_INDEFINITE
  then fail (InvalidCborStructure start "indefinite-length byte string not supported")
  else
    do! (len, width) := decode_argument ai start in
    do! bytes := read_payload len in
    dret (bytes, width).

(** [read_text] : [String::from_utf8] is the standard library's validation; the
    text is kept as its bytes and the validation is the argument [utf8_valid]. *)
Definition read_text (utf8_valid : list Z -> bool) : Dec (list Z * IntWidth) :=
  do! start := here in
  do! (major, ai) := decode_initial in
  if negb (major =? MAJOR_TEXT)
  then fail (UnexpectedCborType start "text string" major)
  else if ai =? AI_INDEFINITE
  then fail (InvalidCborStructure start "indefinite-length text string not supported")
  else
    do! (len, width) := decode_argument ai start in
    do! raw := read_payload len in
    if utf8_valid raw then dret (raw, width)
    else fail (InvalidCborStructure start "invalid UTF-8 in text string").

Definition read_bool : Dec bool :=
  do! start := here in
  do! b := read_byte in
  if b =? 244 then dret false
  else if b =? 245 then dret true
  else fail (InvalidCborStructure start "expected CBOR boolean (0xf4/0xf5)").

Definition read_array_header : Dec ContainerEncoding :=
  do! start := here in
  do! (major, ai) := decode_initial in
  if negb (major =? MAJOR_ARRAY) then fail (UnexpectedCborType start "array" major)
  else if ai =? AI_INDEFINITE then dret Indefinite
  else do! (count, width) := decode_argument ai start in dret (Definite count width).

Definition read_map_header : Dec ContainerEncoding :=
  do! start := here in
  do! (major, ai) := decode_initial in
  if negb (major =? MAJOR_MAP) then fail (UnexpectedCborType start "map" major)
  else if ai =? AI_INDEFINITE then dret Indefinite
  else do! (count, width) := decode_argument ai start in dret (Definite count width).

Definition read_tag : Dec (Z * IntWidth) :=
  do! start := here in
  do! (major, ai) := decode_initial in
  if negb (major =? MAJOR_TAG) then fail (UnexpectedCborType start "tag" major)
  else decode_argument ai start.

Definition read_any_int : Dec (Z * bool * IntWidth) :=
  do! start := here in
  do! (major, ai) := decode_initial in
  if major =? MAJOR_UNSIGNED
  then do! (val, width) := decode_argument ai start in dret (val, false, width)
  else if major =? MAJOR_NEGATIVE
  then do! (val, width) := decode_argument ai start in dret (val, true, width)
  else fail (UnexpectedCborType start "integer" major).

(** * Skipping an item *)

(** The major-type-7 branch, the same text in the iterative and in the
    recursive formulation. *)
Definition skip_simple (start ai : Z) : Dec unit :=
  if ai <=? 23 then dret tt
  else if ai =? AI_ONE_BYTE then do! _ := read_byte in dret tt
  else if ai =? AI_TWO_BYTES then do! _ := read_fixed 2 in dret tt
  else if ai =? AI_FOUR_BYTES then do! _ := read_fixed 4 in dret tt
  else if ai =? AI_EIGHT_BYTES then do! _ := read_fixed 8 in dret tt
  else if ai =? AI_INDEFINITE
  then fail (InvalidCborStructure start "unexpected break code outside indefinite container")
  else fail (InvalidCborStructure start "reserved additional info in simple/float").

(** [owed] is the stack of items still owed by the open containers; the head of
    the list is the innermost one (the last element of the code's [Vec]). *)
Definition skip_head (owed : list (option Z)) : Dec (list (option Z)) :=
  do! start := here in
  do! (major, ai) := decode_initial in
  if (major =? MAJOR_UNSIGNED) || (major =? MAJOR_NEGATIVE) then
    if ai <? AI_ONE_BYTE then dret owed
    else do! _ := decode_argument ai start in dret owed
  else if (major =? MAJOR_BYTES) || (major =? MAJOR_TEXT) then
    if ai =? AI_INDEFINITE then dret (None :: owed)
    else
      do! (len, _) := decode_argument ai start in
      do! _ := read_payload len in
      dret owed
  else if major =? MAJOR_ARRAY then
    if ai =? AI_INDEFINITE then dret (None :: owed)
    else do! (count, _) := decode_argument ai start in dret (Some count :: owed)
  else if major =? MAJOR_MAP then
    if ai =? AI_INDEFINITE then dret (None :: owed)
    else do! (count, _) := decode_argument ai start in dret (Some (count * 2) :: owed)
  else if major =? MAJOR_TAG then
    do! _ := decode_argument ai start in dret (Some 1 :: owed)
  else
    do! _ := skip_simple start ai in dret owed.

(** The inner [loop] of [skip_item]: close the containers that owe nothing more. *)
Inductive Drained : Type :=
| Finished (offset : Z)
| Owes (offset : Z) (owed : list (option Z))
| Starved (e : CodecError) (offset : Z).

Fixpoint drain (data : list Z) (offset : Z) (owed : list (option Z)) : Drained :=
  match owed with
  | [] => Finished offset
  | Some n :: rest =>
      if n =? 0 then drain data offset rest else Owes offset (Some (n - 1) :: rest)
  | None :: rest =>
      match peek_byte data offset with
      | Err e => Starved e offset
      | Ok b =>
          if b =? BREAK_BYTE then drain data (offset + 1) rest
          else Owes offset (None :: rest)
      end
  end.

(** The outer [loop]; [None] is "out of fuel", which [skip_item] never reaches. *)
Fixpoint skip_loop (fuel : nat) (data : list Z) (start offset : Z)
    (owed : list (option Z)) : option (result (Z * Z) CodecError * Z) :=
  match fuel with
  | O => None
  | S fuel =>
      match skip_head owed data offset with
      | (Err e, off) => Some (Err e, off)
      | (Ok owed', off) =>
          match drain data off owed' with
          | Finished off' => Some (Ok (start, off'), off')
          | Owes off' owed'' => skip_loop fuel data start off' owed''
          | Starved e off' => Some (Err e, off')
          end
      end
  end.

(** One unit of fuel per byte and one more: every turn reads at least a byte. *)
Definition skip_item : Dec (Z * Z) := fun data offset =>
  match skip_loop (S (length data)) data offset offset [] with
  | Some r => r
  | None => (Err (UnexpectedEof offset 0), offset)
  end.

(** * The recursive formulation kept as the reference *)

Definition RefRun : Type := option (result unit CodecError * Z).

Section Reference.
Variable data : list Z.

(** [for _ in 0..count { body }] *)
Fixpoint ref_for (body : Z -> RefRun) (fuel : nat) (count offset : Z) : RefRun :=
  if count <=? 0 then Some (Ok tt, offset) else
  match fuel with
  | O => None
  | S fuel =>
      match body offset with
      | Some (Ok _, off) => ref_for body fuel (count - 1) off
      | r => r
      end
  end.

(** [loop { if peek == BREAK { offset += 1; break } body }] *)
Fixpoint ref_until_break (body : Z -> RefRun) (fuel : nat) (offset : Z) : RefRun :=
  match fuel with
  | O => None
  | S fuel =>
      match peek_byte data offset with
      | Err e => Some (Err e, offset)
      | Ok b =>
          if b =? BREAK_BYTE then Some (Ok tt, offset + 1) else
          match body offset with
          | Some (Ok _, off) => ref_until_break body fuel off
          | r => r
          end
      end
  end.

(** The body of a map loop: a key, then its value. *)
Definition ref_pair (body : Z -> RefRun) (offset : Z) : RefRun :=
  match body offset with
  | Some (Ok _, off) => body off
  | r => r
  end.

Definition ref_run {A} (m : Dec A) (offset : Z) (k : A -> Z -> RefRun) : RefRun :=
  match m data offset with
  | (Ok a, off) => k a off
  | (Err e, off) => Some (Err e, off)
  end.

Definition ref_done : Z -> RefRun := fun off => Some (Ok tt, off).

Fixpoint skip_ref (fuel : nat) (offset : Z) : RefRun :=
  match fuel with
  | O => None
  | S fuel =>
      let item := skip_ref fuel in
      let start := offset in
      ref_run decode_initial offset (fun '(major, ai) off =>
      if (major =? MAJOR_UNSIGNED) || (major =? MAJOR_NEGATIVE) then
        if ai <? AI_ONE_BYTE then ref_done off
        else ref_run (decode_argument ai start) off (fun _ => ref_done)
      else if (major =? MAJOR_BYTES) || (major =? MAJOR_TEXT) then
        if ai =? AI_INDEFINITE then ref_until_break item fuel off
        else
          ref_run (decode_argument ai start) off (fun '(len, _) off =>
          ref_run (read_payload len) off (fun _ => ref_done))
      else if major =? MAJOR_ARRAY then
        if ai =? AI_INDEFINITE then ref_until_break item fuel off
        else
          ref_run (decode_argument ai start) off (fun '(count, _) off =>
          ref_for item fuel count off)
      else if major =? MAJOR_MAP then
        if ai =? AI_INDEFINITE then ref_until_break (ref_pair item) fuel off
        else
          ref_run (decode_argument ai start) off (fun '(count, _) off =>
          ref_for (ref_pair item) fuel count off)
      else if major =? MAJOR_TAG then
        ref_run (decode_argument ai start) off (fun _ off => item off)
      else
        ref_run (skip_simple start ai) off (fun _ => ref_done))
  end.

Definition skip_item_recursive_reference (offset : Z) :
    option (result (Z * Z) CodecError * Z) :=
  match skip_ref (S (length data)) offset with
  | Some (Ok _, off) => Some (Ok (offset, off), off)
  | Some (Err e, off) => Some (Err e, off)
  | None => None
  end.
End Reference.

(** * Writing primitives *)

Definition canonical_width (value : Z) : IntWidth :=
  if value <=? 23 then Inline
  else if value <=? 255 then I8
  else if value <=? 65535 then I16
  else if value <=? 4294967295 then I32
  else I64.

Definition write_argument (buf : list Z) (major value : Z) (width : IntWidth) : list Z :=
  let m := as_u8 (Z.shiftl major 5) in
  match width with
  | Inline => buf ++ [Z.lor m (as_u8 value)]
  | I8 => buf ++ [Z.lor m AI_ONE_BYTE; as_u8 value]
  | I16 => buf ++ [Z.lor m AI_TWO_BYTES] ++ to_be 2 (as_u16 value)
  | I32 => buf ++ [Z.lor m AI_FOUR_BYTES] ++ to_be 4 (as_u32 value)
  | I64 => buf ++ [Z.lor m AI_EIGHT_BYTES] ++ to_be 8 value
  end.

Definition write_uint_canonical (buf : list Z) (value : Z) : list Z :=
  write_argument buf MAJOR_UNSIGNED value (canonical_width value).
Definition write_uint (buf : list Z) (value : Z) (width : IntWidth) : list Z :=
  write_argument buf MAJOR_UNSIGNED value width.
Definition write_bytes_canonical (buf bytes : list Z) : list Z :=
  write_argument buf MAJOR_BYTES (blen bytes) (canonical_width (blen bytes)) ++ bytes.
Definition write_bytes (buf bytes : list Z) (width : IntWidth) : list Z :=
  write_argument buf MAJOR_BYTES (blen bytes) width ++ bytes.
Definition write_text_canonical (buf text : list Z) : list Z :=
  write_argument buf MAJOR_TEXT (blen text) (canonical_width (blen text)) ++ text.
Definition write_bool (buf : list Z) (b : bool) : list Z :=
  buf ++ [if b then 245 else 244].
Definition write_array_header (buf : list Z) (encoding : ContainerEncoding) : list Z :=
  match encoding with
  | Definite count width => write_argument buf MAJOR_ARRAY count width
  | Indefinite => buf ++ [Z.lor (as_u8 (Z.shiftl MAJOR_ARRAY 5)) AI_INDEFINITE]
  end.
Definition write_map_header (buf : list Z) (encoding : ContainerEncoding) : list Z :=
  match encoding with
  | Definite count width => write_argument buf MAJOR_MAP count width
  | Indefinite => buf ++ [Z.lor (as_u8 (Z.shiftl MAJOR_MAP 5)) AI_INDEFINITE]
  end.
Definition write_tag (buf : list Z) (value : Z) (width : IntWidth) : list Z :=
  write_argument buf MAJOR_TAG value width.
Definition write_break (buf : list Z) : list Z := buf ++ [BREAK_BYTE].

Definition is_break (data : list Z) (offset : Z) : result bool CodecError :=
  let? b := peek_byte data offset in Ok (b =? BREAK_BYTE).


(** The code's own test cases. *)
Example read_uint_two_bytes : read_uint [0x19; 1; 0] 0 = (Ok (256, I16), 3).
Proof. reflexivity. Qed.
Example read_uint_wrong_type_returns_error :
  read_uint [0x41; 0] 0 = (Err (UnexpectedCborType 0 "unsigned integer" MAJOR_BYTES), 1).
Proof. reflexivity. Qed.
Example skip_item_nested : skip_item [0x82; 0x81; 0; 3] 0 = (Ok (0, 4), 4).
Proof. reflexivity. Qed.

(** * Basic facts about the readers *)

Lemma dbind_ok_inv {A B} (m : Dec A) (k : A -> Dec B) data off b off' :
  dbind m k data off = (Ok b, off') ->
  exists a o, m data off = (Ok a, o) /\ k a data o = (Ok b, off').
Proof. unfold dbind. destruct (m data off) as [[a|e] o]; [eauto | discriminate]. Qed.

Lemma dbind_step {A B} (m : Dec A) (k : A -> Dec B) data off a o :
  m data off = (Ok a, o) -> dbind m k data off = k a data o.
Proof. unfold dbind. by intros ->. Qed.

(** [dinv H] takes a successful decoder run apart. *)
Ltac dinv H :=
  repeat match type of H with
  | dbind _ _ _ _ = (Ok _, _) =>
      let a := fresh "a" in let o := fresh "o" in let Hd := fresh "Hd" in
      apply dbind_ok_inv in H as (a & o & Hd & H); cbn beta iota in H
  | (let '(_, _) := ?p in _) _ _ = _ => destruct p
  | (if ?b then _ else _) _ _ = (Ok _, _) =>
      let E := fresh "E" in destruct b eqn:E; [first [discriminate H|idtac] | first [discriminate H|idtac]]
  | fail _ _ _ = (Ok _, _) => discriminate H
  end.

Lemma read_byte_ok data off b off' :
  read_byte data off = (Ok b, off') -> byte_at data off = Some b /\ off' = off + 1.
Proof.
  unfold read_byte, peek_byte. destruct (byte_at data off); cbn; intros [=]; by subst.
Qed.

Lemma decode_initial_ok data off major ai off' :
  decode_initial data off = (Ok (major, ai), off') ->
  exists b, byte_at data off = Some b /\ off' = off + 1 /\
    major = Z.shiftr b 5 /\ ai = Z.land b 31.
Proof.
  unfold decode_initial. intros H. apply dbind_ok_inv in H as (b & o & Hb & H).
  apply read_byte_ok in Hb as [? ->]. cbv in H. injection H as <- <- <-. eauto.
Qed.

Lemma read_fixed_ok n data off l off' :
  read_fixed n data off = (Ok l, off') ->
  l = slice data off (off + n) /\ off' = off + n /\ off' <= blen data.
Proof.
  unfold read_fixed. destruct (Z.ltb_spec (blen data) (off + n)); intros [=]; subst. split_and!; [done|done|lia].
Qed.

Lemma read_payload_ok len data off l off' :
  read_payload len data off = (Ok l, off') ->
  l = slice data off (off + len) /\ off' = off + len /\ off' <= blen data.
Proof.
  unfold read_payload. destruct (checked_add off len) as [e|] eqn:He; [|discriminate].
  apply checked_add_some in He as [-> _].
  destruct (Z.ltb_spec (blen data) (off + len)); intros [=]; subst. split_and!; [done|done|lia].
Qed.

Lemma slice_ok data from to : bytes_ok data -> bytes_ok (slice data from to).
Proof. intros. unfold slice. by apply Forall_take, Forall_drop. Qed.

Lemma blen_slice data from to :
  0 <= from <= to -> to <= blen data -> blen (slice data from to) = to - from.
Proof. unfold slice, blen. intros. rewrite length_take, length_drop. lia. Qed.

Lemma land_31_bound b : 0 <= Z.land b 31 <= 31.
Proof.
  pose proof (Z.land_ones b 5) as Hl. change (Z.ones 5) with 31 in Hl.
  rewrite Hl by lia. change (2 ^ 5) with 32. pose proof (Z.mod_pos_bound b 32). lia.
Qed.

(** A decoded argument is a [u64] and the offset never moves back. *)
Lemma decode_argument_ok ai start data off v w off' :
  bytes_ok data -> 0 <= off -> 0 <= ai ->
  decode_argument ai start data off = (Ok (v, w), off') ->
  is_u64 v /\ off <= off' /\ (off <= blen data -> off' <= blen data).
Proof.
  intros Hd Ho Hai. unfold decode_argument.
  assert (Hfix : forall n w', 0 <= n <= 8 ->
    (do! l := read_fixed n in dret (from_be l, w')) data off = (Ok (v, w), off') ->
    is_u64 v /\ off <= off' /\ (off <= blen data -> off' <= blen data)).
  { intros n w' Hn H. dinv H. injection H as <- <- <-.
    apply read_fixed_ok in Hd0 as (-> & -> & Hle).
    pose proof (from_be_bound _ (slice_ok data off (off + n) Hd)) as Hb.
    rewrite blen_slice in Hb by lia. replace (off + n - off) with n in Hb by lia.
    pose proof (Z.pow_le_mono_r 256 n 8). change (256 ^ 8) with 18446744073709551616 in *.
    width. lia. }
  intros H.
  destruct (Z.leb_spec ai 23).
  { injection H as <- <- <-. width. lia. }
  destruct (ai =? AI_ONE_BYTE).
  { dinv H. injection H as <- <- <-. apply read_byte_ok in Hd0 as [Hb ->].
    pose proof (byte_at_bound _ _ _ Hb). pose proof (byte_at_ok _ _ _ Hd Hb). width. lia. }
  destruct (ai =? AI_TWO_BYTES); [eapply (Hfix 2); eauto; lia|].
  destruct (ai =? AI_FOUR_BYTES); [eapply (Hfix 4); eauto; lia|].
  destruct (ai =? AI_EIGHT_BYTES); [eapply (Hfix 8); eauto; lia|].
  discriminate H.
Qed.
