(* ===== verification/CborSkip.v ===== *)
(** [skip_item] of [ade_codec/src/cbor/mod.rs]: termination, the items it follows by
    offset, and its relation to the recursive formulation it replaced.

    [read_head] is the part both formulations share (an item's head and inline
    payload); [push] is what the iterative one does with a head.  The relation
    [evals] abstracts the fuel of the outer loop away, so that each simulation
    lemma speaks of loop states only. *)

From S2P Require Import Prelude Cbor.

(** * Heads *)

Inductive Head : Type :=
| HLeaf
| HTag
| HItems (n : Z)
| HPairs (n : Z)
| HUntil
| HUntilPairs.

Definition read_head : Dec Head :=
  do! start := here in
  do! (major, ai) := decode_initial in
  if (major =? MAJOR_UNSIGNED) || (major =? MAJOR_NEGATIVE) then
    if ai <? AI_ONE_BYTE then dret HLeaf
    else do! _ := decode_argument ai start in dret HLeaf
  else if (major =? MAJOR_BYTES) || (major =? MAJOR_TEXT) then
    if ai =? AI_INDEFINITE then dret HUntil
    else
      do! (len, _) := decode_argument ai start in
      do! _ := read_payload len in
      dret HLeaf
  else if major =? MAJOR_ARRAY then
    if ai =? AI_INDEFINITE then dret HUntil
    else do! (count, _) := decode_argument ai start in dret (HItems count)
  else if major =? MAJOR_MAP then
    if ai =? AI_INDEFINITE then dret HUntilPairs
    else do! (count, _) := decode_argument ai start in dret (HPairs count)
  else if major =? MAJOR_TAG then
    do! _ := decode_argument ai start in dret HTag
  else
    do! _ := skip_simple start ai in dret HLeaf.

Definition push (h : Head) (owed : list (option Z)) : list (option Z) :=
  match h with
  | HLeaf => owed
  | HTag => Some 1 :: owed
  | HItems n => Some n :: owed
  | HPairs n => Some (n * 2) :: owed
  | HUntil | HUntilPairs => None :: owed
  end.

(** [split_dec] runs through the branches two decoders have in common. *)
Ltac split_dec :=
  repeat first
  [ reflexivity
  | match goal with
    | |- context [if ?b then _ else _] => destruct b
    | |- context [decode_argument ?a ?b ?c ?d] =>
        destruct (decode_argument a b c d) as [[[? ?]|?] ?]
    | |- context [read_payload ?a ?b ?c] => destruct (read_payload a b c) as [[?|?] ?]
    | |- context [skip_simple ?a ?b ?c ?d] => destruct (skip_simple a b c d) as [[?|?] ?]
    end ].

Lemma skip_head_read_head owed data off :
  skip_head owed data off =
  match read_head data off with
  | (Ok h, o) => (Ok (push h owed), o)
  | (Err e, o) => (Err e, o)
  end.
Proof.
  unfold skip_head, read_head, dbind, here, dret.
  destruct (decode_initial data off) as [[[major ai]|e] o]; [|done].
  split_dec.
Qed.

Lemma skip_ref_S data fuel off :
  skip_ref data (S fuel) off =
  ref_run data read_head off (fun h o =>
    match h with
    | HLeaf => ref_done o
    | HTag => skip_ref data fuel o
    | HItems n => ref_for (skip_ref data fuel) fuel n o
    | HPairs n => ref_for (ref_pair (skip_ref data fuel)) fuel n o
    | HUntil => ref_until_break data (skip_ref data fuel) fuel o
    | HUntilPairs => ref_until_break data (ref_pair (skip_ref data fuel)) fuel o
    end).
Proof.
  cbn [skip_ref]. unfold ref_run, read_head, dbind, here, dret.
  destruct (decode_initial data off) as [[[major ai]|e] o]; [|done].
  split_dec.
Qed.

(** * A head advances, and reads no break byte *)

Definition head_count_ok (h : Head) : Prop :=
  match h with HItems n | HPairs n => 0 <= n | _ => True end.

Lemma skip_simple_ok start ai data off u off' :
  0 <= off -> skip_simple start ai data off = (Ok u, off') ->
  off <= off' /\ (off <= blen data -> off' <= blen data) /\ ai <> AI_INDEFINITE.
Proof.
  intros Ho H. unfold skip_simple in H.
  dinv H; try (injection H as H; subst);
    repeat match goal with
    | H : read_byte _ _ = (Ok _, _) |- _ =>
        apply read_byte_ok in H as [H%byte_at_bound ->]
    | H : read_fixed _ _ _ = (Ok _, _) |- _ => apply read_fixed_ok in H as (_ & -> & ?)
    | H : (_ <=? _) = true |- _ => apply Z.leb_le in H
    | H : (_ =? _) = true |- _ => apply Z.eqb_eq in H
    end; unfold AI_INDEFINITE, AI_ONE_BYTE, AI_TWO_BYTES, AI_FOUR_BYTES, AI_EIGHT_BYTES in *;
    lia.
Qed.

Lemma read_head_ok data off h off' :
  bytes_ok data -> 0 <= off -> read_head data off = (Ok h, off') ->
  off < off' <= blen data /\ head_count_ok h /\
  exists b, byte_at data off = Some b /\ b <> BREAK_BYTE.
Proof.
  intros Hd Ho H. unfold read_head in H.
  apply dbind_ok_inv in H as (start & o & [= <- <-] & H).
  apply dbind_ok_inv in H as ([major ai] & o & Hi & H).
  apply decode_initial_ok in Hi as (b & Hb & -> & -> & ->).
  pose proof (byte_at_bound _ _ _ Hb) as Hin. pose proof (land_31_bound b).
  assert (Hbreak : b = BREAK_BYTE -> Z.shiftr b 5 = 7 /\ Z.land b 31 = 31)
    by (intros ->; done).
  cut ((off < off' <= blen data /\ head_count_ok h) /\ b <> BREAK_BYTE).
  { intros [[? ?] ?]. eauto. }
  cbn beta iota in H.
  dinv H; try (injection H as H; subst);
    repeat match goal with
    | Hr : decode_argument _ _ _ _ = (Ok ?p, _) |- _ =>
        try (is_var p; destruct p as [? ?]);
        apply decode_argument_ok in Hr as (? & ? & ?); [|done|lia|lia]
    | Hr : read_payload _ _ _ = (Ok _, _) |- _ => apply read_payload_ok in Hr as (_ & -> & ?)
    | Hr : skip_simple _ _ _ _ = (Ok _, _) |- _ =>
        apply skip_simple_ok in Hr as (? & ? & ?); [|lia]
    | Hr : (_ || _) = true |- _ => apply orb_true_iff in Hr as [Hr|Hr]
    | Hr : (_ <? _) = true |- _ => apply Z.ltb_lt in Hr
    | Hr : (_ =? _) = true |- _ => apply Z.eqb_eq in Hr
    | Hr : (_ =? _) = false |- _ => apply Z.eqb_neq in Hr
    end; width; unfold MAJOR_UNSIGNED, MAJOR_NEGATIVE, MAJOR_BYTES, MAJOR_TEXT,
      MAJOR_ARRAY, MAJOR_MAP, MAJOR_TAG, AI_INDEFINITE in *;
    (split; [split; [lia | cbn; try lia; done] | intros Heq; destruct (Hbreak Heq); lia]).
Qed.

Lemma read_head_bound data off h off' :
  bytes_ok data -> 0 <= off -> read_head data off = (Ok h, off') -> off < off' <= blen data.
Proof. intros. by eapply read_head_ok. Qed.

Lemma read_head_inside data off h off' :
  read_head data off = (Ok h, off') -> 0 <= off < blen data.
Proof.
  intros H. unfold read_head in H.
  apply dbind_ok_inv in H as (start & o & [= <- <-] & H).
  apply dbind_ok_inv in H as ([major ai] & o & Hi & H).
  apply decode_initial_ok in Hi as (b & Hb & _). by eapply byte_at_bound.
Qed.

(** * Termination of the outer loop *)

Lemma drain_owes_le data off owed off' owed' :
  drain data off owed = Owes off' owed' -> off <= off'.
Proof.
  revert off. induction owed as [|[n|] owed IH]; intros off; cbn; [done|..].
  - destruct (n =? 0); [apply IH|]. intros [=]; lia.
  - destruct (peek_byte data off) as [b|e]; [|done].
    destruct (b =? BREAK_BYTE); [intros H%IH; lia|]. intros [=]; lia.
Qed.

Lemma skip_loop_total data start fuel off owed :
  bytes_ok data -> 0 <= off ->
  Z.max 0 (blen data - off) < Z.of_nat fuel ->
  exists r, skip_loop fuel data start off owed = Some r.
Proof.
  intros Hd. revert off owed. induction fuel as [|fuel IH]; intros off owed Ho Hf; [lia|].
  cbn [skip_loop]. rewrite skip_head_read_head.
  destruct (read_head data off) as [[h|e] o] eqn:Hh; [|eauto].
  pose proof (read_head_bound _ _ _ _ Hd Ho Hh) as Hadv.
  destruct (drain data o (push h owed)) eqn:Hdr; eauto.
  apply drain_owes_le in Hdr. apply IH; lia.
Qed.

Lemma skip_loop_mono data start fuel fuel' off owed r :
  skip_loop fuel data start off owed = Some r -> (fuel <= fuel')%nat ->
  skip_loop fuel' data start off owed = Some r.
Proof.
  revert fuel' off owed. induction fuel as [|fuel IH]; intros [|fuel'] off owed H Hle;
    try done; try lia. cbn [skip_loop] in *.
  destruct (skip_head owed data off) as [[ow|e] o]; [|done].
  destruct (drain data o ow); try done. apply IH; [done|lia].
Qed.

(** * The loop as a relation, its fuel abstracted *)

Section Evals.
Variables (data : list Z) (start : Z).

Definition Outcome : Type := result (Z * Z) CodecError * Z.

Definition evals (off : Z) (owed : list (option Z)) (r : Outcome) : Prop :=
  exists fuel, skip_loop fuel data start off owed = Some r.

(** Where the loop stands between two turns. *)
Definition resumes (off : Z) (owed : list (option Z)) (r : Outcome) : Prop :=
  match drain data off owed with
  | Finished o => r = (Ok (start, o), o)
  | Starved e o => r = (Err e, o)
  | Owes o owed' => evals o owed' r
  end.

Lemma evals_head off owed h o r :
  read_head data off = (Ok h, o) -> resumes o (push h owed) r -> evals off owed r.
Proof.
  unfold resumes. intros Hh. destruct (drain data o (push h owed)) eqn:Hdr; intros Hr.
  - exists 1%nat. cbn [skip_loop]. by rewrite skip_head_read_head, Hh, Hdr, Hr.
  - destruct Hr as [fuel Hr]. exists (S fuel). cbn [skip_loop].
    by rewrite skip_head_read_head, Hh, Hdr.
  - exists 1%nat. cbn [skip_loop]. by rewrite skip_head_read_head, Hh, Hdr, Hr.
Qed.

Lemma evals_err off owed e o :
  read_head data off = (Err e, o) -> evals off owed (Err e, o).
Proof. intros Hh. exists 1%nat. cbn [skip_loop]. by rewrite skip_head_read_head, Hh. Qed.

Lemma evals_det off owed r r' : evals off owed r -> evals off owed r' -> r = r'.
Proof.
  intros [f Hf] [g Hg].
  apply (skip_loop_mono _ _ _ (f `max` g)) in Hf; [|lia].
  apply (skip_loop_mono _ _ _ (f `max` g)) in Hg; [|lia]. congruence.
Qed.

Lemma resumes_nil off : resumes off [] (Ok (start, off), off).
Proof. done. Qed.
Lemma resumes_zero off owed r : resumes off owed r -> resumes off (Some 0 :: owed) r.
Proof. done. Qed.
Lemma resumes_more off n owed r :
  n <> 0 -> evals off (Some (n - 1) :: owed) r -> resumes off (Some n :: owed) r.
Proof. intros Hn H. unfold resumes. cbn. by destruct (Z.eqb_spec n 0). Qed.
Lemma resumes_break off owed r :
  byte_at data off = Some BREAK_BYTE -> resumes (off + 1) owed r ->
  resumes off (None :: owed) r.
Proof. intros Hb H. unfold resumes, peek_byte in *. cbn. unfold peek_byte. by rewrite Hb. Qed.
Lemma resumes_next off owed b r :
  byte_at data off = Some b -> b <> BREAK_BYTE -> evals off (None :: owed) r ->
  resumes off (None :: owed) r.
Proof.
  intros Hb Hn H. unfold resumes. cbn. unfold peek_byte. rewrite Hb. cbn.
  by destruct (Z.eqb_spec b BREAK_BYTE).
Qed.
Lemma resumes_starved off owed :
  byte_at data off = None -> resumes off (None :: owed) (Err (UnexpectedEof off 1), off).
Proof. intros Hb. unfold resumes. cbn. unfold peek_byte. by rewrite Hb. Qed.
End Evals.

Create HintDb skip.
#[export] Hint Resolve evals_head evals_err resumes_nil resumes_zero resumes_more
  resumes_break resumes_next resumes_starved : skip.

(** The fuel [skip_item] passes is enough: its result is the loop's. *)
Lemma skip_item_evals data off r :
  bytes_ok data -> 0 <= off ->
  skip_item data off = r <-> evals data off off [] r.
Proof.
  intros Hd Ho. unfold skip_item.
  destruct (skip_loop_total data off (S (length data)) off [] Hd Ho) as [r' Hr'].
  { unfold blen. lia. }
  rewrite Hr'. split.
  - intros <-. by exists (S (length data)).
  - intros H. apply (evals_det data off off [] _ _ ltac:(by exists (S (length data))) H).
Qed.

(** * The grammar [skip_item] accepts *)

Section Grammar.
Variable data : list Z.

(** [item o o'] : one well-formed item occupies the bytes [o, o'). *)
Inductive item : Z -> Z -> Prop :=
| item_intro o h o1 o2 :
    read_head data o = (Ok h, o1) -> contents h o1 o2 -> item o o2
with contents : Head -> Z -> Z -> Prop :=
| contents_leaf o : contents HLeaf o o
| contents_tag o o' : items 1 o o' -> contents HTag o o'
| contents_items n o o' : items n o o' -> contents (HItems n) o o'
| contents_pairs n o o' : items (n * 2) o o' -> contents (HPairs n) o o'
| contents_until o o' : until_break o o' -> contents HUntil o o'
| contents_until_pairs o o' : until_break o o' -> contents HUntilPairs o o'
with items : Z -> Z -> Z -> Prop :=
| items_nil o : items 0 o o
| items_cons n o o1 o2 : n <> 0 -> item o o1 -> items (n - 1) o1 o2 -> items n o o2
with until_break : Z -> Z -> Prop :=
| until_stop o : byte_at data o = Some BREAK_BYTE -> until_break o (o + 1)
| until_more o b o1 o2 :
    byte_at data o = Some b -> b <> BREAK_BYTE -> item o o1 ->
    until_break o1 o2 -> until_break o o2.

(** The containers of the stack are closed between [o] and [o']. *)
Inductive closes : Z -> list (option Z) -> Z -> Prop :=
| closes_nil o : closes o [] o
| closes_count n owed o o1 o2 :
    items n o o1 -> closes o1 owed o2 -> closes o (Some n :: owed) o2
| closes_break owed o o1 o2 :
    until_break o o1 -> closes o1 owed o2 -> closes o (None :: owed) o2.
End Grammar.

Scheme item_mut := Induction for item Sort Prop
with contents_mut := Induction for contents Sort Prop
with items_mut := Induction for items Sort Prop
with until_break_mut := Induction for until_break Sort Prop.

Combined Scheme grammar_ind from item_mut, contents_mut, items_mut, until_break_mut.

Create HintDb grammar.
#[export] Hint Constructors item contents items until_break closes : grammar.

Lemma closes_push data h owed o e :
  closes data o (push h owed) e ->
  exists mid, contents data h o mid /\ closes data mid owed e.
Proof. destruct h; cbn; intros H; [eauto with grammar | inversion H; subst; eauto with grammar..]. Qed.

Lemma drain_closes data owed o :
  match drain data o owed with
  | Finished e => closes data o owed e
  | Owes o' owed' => forall mid e,
      item data o' mid -> closes data mid owed' e -> closes data o owed e
  | Starved _ _ => True
  end.
Proof.
  revert o. induction owed as [|[n|] owed IH]; intros o; cbn; [eauto with grammar|..].
  - destruct (Z.eqb_spec n 0) as [->|Hn].
    + specialize (IH o). destruct (drain data o owed); eauto with grammar.
    + intros mid e Hi Hc. inversion Hc; subst. eauto with grammar.
  - unfold peek_byte. destruct (byte_at data o) as [b|] eqn:Hb; cbn; [|done].
    destruct (Z.eqb_spec b BREAK_BYTE) as [->|Hn].
    + specialize (IH (o + 1)). destruct (drain data (o + 1) owed); eauto with grammar.
    + intros mid e Hi Hc. inversion Hc; subst. eauto with grammar.
Qed.

Lemma skip_loop_sound data start fuel off owed s e o :
  skip_loop fuel data start off owed = Some (Ok (s, e), o) ->
  s = start /\ e = o /\ exists mid, item data off mid /\ closes data mid owed e.
Proof.
  revert off owed. induction fuel as [|fuel IH]; intros off owed H; [done|].
  cbn [skip_loop] in H. rewrite skip_head_read_head in H.
  destruct (read_head data off) as [[h|er] o1] eqn:Hh; [|done].
  pose proof (drain_closes data (push h owed) o1) as Hd.
  destruct (drain data o1 (push h owed)) as [o2|o2 owed2|]; [|apply IH in H|done].
  - injection H as <- <- <-. apply closes_push in Hd as (mid & ? & ?). eauto 6 with grammar.
  - destruct H as (-> & -> & mid & Hi & Hc). specialize (Hd _ _ Hi Hc).
    apply closes_push in Hd as (mid' & ? & ?). eauto 6 with grammar.
Qed.

(** Whatever follows an item in the loop follows the grammar's item. *)
Lemma grammar_evals data :
  (forall o o', item data o o' -> forall start owed r,
    resumes data start o' owed r -> evals data start o owed r) /\
  (forall h o o', contents data h o o' -> forall start owed r,
    resumes data start o' owed r -> resumes data start o (push h owed) r) /\
  (forall n o o', items data n o o' -> forall start owed r,
    resumes data start o' owed r -> resumes data start o (Some n :: owed) r) /\
  (forall o o', until_break data o o' -> forall start owed r,
    resumes data start o' owed r -> resumes data start o (None :: owed) r).
Proof.
  apply (grammar_ind data
    (fun o o' _ => forall start owed r,
      resumes data start o' owed r -> evals data start o owed r)
    (fun h o o' _ => forall start owed r,
      resumes data start o' owed r -> resumes data start o (push h owed) r)
    (fun n o o' _ => forall start owed r,
      resumes data start o' owed r -> resumes data start o (Some n :: owed) r)
    (fun o o' _ => forall start owed r,
      resumes data start o' owed r -> resumes data start o (None :: owed) r));
    cbn [push]; eauto with skip.
Qed.

Lemma item_evals data o o' start owed r :
  item data o o' -> resumes data start o' owed r -> evals data start o owed r.
Proof. intros. by eapply (proj1 (grammar_evals data)). Qed.

Lemma item_skip data off e :
  bytes_ok data -> 0 <= off -> item data off e ->
  skip_item data off = (Ok (off, e), e).
Proof.
  intros Hd Ho Hi. apply skip_item_evals; [done..|].
  eapply item_evals; [done | apply resumes_nil].
Qed.

Lemma skip_item_spec data off s e o :
  bytes_ok data -> 0 <= off ->
  skip_item data off = (Ok (s, e), o) <-> s = off /\ e = o /\ item data off o.
Proof.
  intros Hd Ho. split.
  - rewrite (skip_item_evals _ _ _ Hd Ho). intros [fuel H].
    apply skip_loop_sound in H as (-> & -> & mid & Hi & Hc). inversion Hc; subst. done.
  - intros (-> & -> & Hi). by apply item_skip.
Qed.

(** * The recursive formulation *)

Definition body_ok (data : list Z) (body : Z -> RefRun) : Prop :=
  forall o o', 0 <= o -> body o = Some (Ok tt, o') -> o < o' /\ item data o o'.

Lemma ref_for_ok data body :
  body_ok data body -> forall fuel n o o',
  0 <= o -> 0 <= n -> ref_for body fuel n o = Some (Ok tt, o') ->
  o <= o' /\ items data n o o'.
Proof.
  intros Hb. induction fuel as [|fuel IH]; intros n o o' Ho Hn H; cbn in H;
    (destruct (Z.leb_spec n 0); [injection H as <-; replace n with 0 by lia; split; [lia|constructor]|]);
    [done|].
  destruct (body o) as [[[[]|e] o1]|] eqn:Hbo; try done.
  apply Hb in Hbo as [? ?]; [|lia]. apply IH in H as [? ?]; [|lia..].
  split; [lia|]. apply items_cons with o1; auto; lia.
Qed.

Lemma ref_for_pair_ok data body :
  body_ok data body -> forall fuel n o o',
  0 <= o -> 0 <= n -> ref_for (ref_pair body) fuel n o = Some (Ok tt, o') ->
  o <= o' /\ items data (n * 2) o o'.
Proof.
  intros Hb. induction fuel as [|fuel IH]; intros n o o' Ho Hn H; cbn in H;
    (destruct (Z.leb_spec n 0); [injection H as <-; replace n with 0 by lia; split; [lia|constructor]|]);
    [done|].
  unfold ref_pair in H at 1. destruct (body o) as [[[[]|e] o1]|] eqn:H1; try done.
  destruct (body o1) as [[[[]|e] o2]|] eqn:H2; try done.
  apply Hb in H1 as [? ?]; [|lia]. apply Hb in H2 as [? ?]; [|lia].
  apply IH in H as [? ?]; [|lia..].
  split; [lia|]. apply items_cons with o1; [lia|done|].
  apply items_cons with o2; [lia|done|]. by replace (n * 2 - 1 - 1) with ((n - 1) * 2) by lia.
Qed.

Lemma ref_until_ok data body :
  body_ok data body -> forall fuel o o', 0 <= o ->
  ref_until_break data body fuel o = Some (Ok tt, o') -> o <= o' /\ until_break data o o'.
Proof.
  intros Hb. induction fuel as [|fuel IH]; intros o o' Ho H; cbn in H; [done|].
  unfold peek_byte in H. destruct (byte_at data o) as [b|] eqn:Hbo; [|done]. cbn in H.
  destruct (Z.eqb_spec b BREAK_BYTE) as [->|Hn].
  { injection H as <-. split; [lia|]. by constructor. }
  destruct (body o) as [[[[]|e] o1]|] eqn:H1; try done.
  apply Hb in H1 as [? ?]; [|lia]. apply IH in H as [? ?]; [|lia].
  split; [lia|]. by eapply until_more.
Qed.

Lemma item_head_byte data o o' :
  bytes_ok data -> 0 <= o -> item data o o' ->
  exists b, byte_at data o = Some b /\ b <> BREAK_BYTE.
Proof. intros Hd Ho Hi. inversion Hi; subst. by eapply read_head_ok. Qed.

Lemma ref_until_pair_ok data body :
  bytes_ok data -> body_ok data body -> forall fuel o o', 0 <= o ->
  ref_until_break data (ref_pair body) fuel o = Some (Ok tt, o') ->
  o <= o' /\ until_break data o o'.
Proof.
  intros Hd Hb. induction fuel as [|fuel IH]; intros o o' Ho H; cbn in H; [done|].
  unfold peek_byte in H. destruct (byte_at data o) as [b|] eqn:Hbo; [|done]. cbn in H.
  destruct (Z.eqb_spec b BREAK_BYTE) as [->|Hn].
  { injection H as <-. split; [lia|]. by constructor. }
  unfold ref_pair in H at 1. destruct (body o) as [[[[]|e] o1]|] eqn:H1; try done.
  destruct (body o1) as [[[[]|e] o2]|] eqn:H2; try done.
  apply Hb in H1 as [? ?]; [|lia]. apply Hb in H2 as [? Hi2]; [|lia].
  assert (0 <= o1) as Ho1 by lia.
  destruct (item_head_byte _ _ _ Hd Ho1 Hi2) as (b2 & ? & ?).
  apply IH in H as [? ?]; [|lia].
  split; [lia|]. eapply until_more; [done..|]. by eapply until_more.
Qed.

Lemma skip_ref_ok data fuel : bytes_ok data -> body_ok data (skip_ref data fuel).
Proof.
  intros Hd. induction fuel as [|fuel IH]; intros o o' Ho H; [done|].
  rewrite skip_ref_S in H. unfold ref_run in H.
  destruct (read_head data o) as [[h|e] o1] eqn:Hh; [|done].
  pose proof (read_head_ok _ _ _ _ Hd Ho Hh) as (Hadv & Hcnt & _).
  destruct h as [| |n|n| |]; cbn in Hcnt.
  - injection H as <-. split; [lia|]. eauto with grammar.
  - apply IH in H as [? ?]; [|lia]. split; [lia|].
    eapply item_intro; [done|]. constructor. eapply items_cons; [done|done|]. constructor.
  - eapply ref_for_ok in H as [? ?]; [|done|lia..]. split; [lia|]. eauto with grammar.
  - eapply ref_for_pair_ok in H as [? ?]; [|done|lia..]. split; [lia|]. eauto with grammar.
  - eapply ref_until_ok in H as [? ?]; [|done|lia]. split; [lia|]. eauto with grammar.
  - eapply ref_until_pair_ok in H as [? ?]; [|done|done|lia]. split; [lia|]. eauto with grammar.
Qed.

(** The one error the recursive formulation raises where the iterative one may not. *)
Definition break_error (e : CodecError) : Prop :=
  exists off, e = InvalidCborStructure off "unexpected break code outside indefinite container".

(** A body's error is the loop's error, or is the break error. *)
Definition body_err (data : list Z) (body : Z -> RefRun) : Prop :=
  forall o e o', 0 <= o -> body o = Some (Err e, o') ->
  break_error e \/ forall start owed, evals data start o owed (Err e, o').

Lemma ref_for_err data body :
  body_ok data body -> body_err data body -> forall fuel n o e o',
  0 <= o -> 0 <= n -> ref_for body fuel n o = Some (Err e, o') ->
  break_error e \/ forall start owed, resumes data start o (Some n :: owed) (Err e, o').
Proof.
  intros Hb He. induction fuel as [|fuel IH]; intros n o e o' Ho Hn H; cbn in H;
    (destruct (Z.leb_spec n 0); [done|]); [done|].
  destruct (body o) as [[[[]|er] o1]|] eqn:Hbo; [| |done].
  - apply Hb in Hbo as [? Hi]; [|lia]. apply IH in H as [?|H]; [by left| |lia..].
    right. intros. apply resumes_more; [lia|]. by eapply item_evals.
  - injection H as -> ->. apply He in Hbo as [?|Hbo]; [by left| |lia].
    right. intros. apply resumes_more; [lia|]. done.
Qed.

Lemma ref_for_pair_err data body :
  body_ok data body -> body_err data body -> forall fuel n o e o',
  0 <= o -> 0 <= n -> ref_for (ref_pair body) fuel n o = Some (Err e, o') ->
  break_error e \/ forall start owed, resumes data start o (Some (n * 2) :: owed) (Err e, o').
Proof.
  intros Hb He. induction fuel as [|fuel IH]; intros n o e o' Ho Hn H; cbn in H;
    (destruct (Z.leb_spec n 0); [done|]); [done|].
  unfold ref_pair in H at 1. destruct (body o) as [[[[]|er] o1]|] eqn:H1; [| |done].
  - apply Hb in H1 as [? Hi]; [|lia].
    destruct (body o1) as [[[[]|er] o2]|] eqn:H2; [| |done].
    + apply Hb in H2 as [? Hi2]; [|lia]. apply IH in H as [?|H]; [by left| |lia..].
      right. intros. apply resumes_more; [lia|]. eapply item_evals; [done|].
      apply resumes_more; [lia|]. eapply item_evals; [done|].
      by replace (n * 2 - 1 - 1) with ((n - 1) * 2) by lia.
    + injection H as -> ->. apply He in H2 as [?|H2]; [by left| |lia].
      right. intros. apply resumes_more; [lia|]. eapply item_evals; [done|].
      apply resumes_more; [lia|]. done.
  - injection H as -> ->. apply He in H1 as [?|H1]; [by left| |lia].
    right. intros. apply resumes_more; [lia|]. done.
Qed.

Lemma ref_until_err data body :
  body_ok data body -> body_err data body -> forall fuel o e o', 0 <= o ->
  ref_until_break data body fuel o = Some (Err e, o') ->
  break_error e \/ forall start owed, resumes data start o (None :: owed) (Err e, o').
Proof.
  intros Hb He. induction fuel as [|fuel IH]; intros o e o' Ho H; cbn in H; [done|].
  unfold peek_byte in H. destruct (byte_at data o) as [b|] eqn:Hbo; cbn in H.
  2: { injection H as <- <-. right. intros. by apply resumes_starved. }
  destruct (Z.eqb_spec b BREAK_BYTE) as [->|Hn]; [done|].
  destruct (body o) as [[[[]|er] o1]|] eqn:H1; [| |done].
  - apply Hb in H1 as [? Hi]; [|lia]. apply IH in H as [?|H]; [by left| |lia].
    right. intros. eapply resumes_next; [done..|]. by eapply item_evals.
  - injection H as -> ->. apply He in H1 as [?|H1]; [by left| |lia].
    right. intros. by eapply resumes_next.
Qed.

(** In a map the iterative loop looks for a break before the value too; a break
    there is the break error of the recursive formulation. *)
Lemma ref_until_pair_err data body :
  body_ok data body -> body_err data body ->
  (forall o r, byte_at data o = Some BREAK_BYTE -> body o = Some r ->
     exists e o', r = (Err e, o') /\ break_error e) ->
  (forall o r, byte_at data o = None -> body o = Some r -> r = (Err (UnexpectedEof o 1), o)) ->
  forall fuel o e o', 0 <= o ->
  ref_until_break data (ref_pair body) fuel o = Some (Err e, o') ->
  break_error e \/ forall start owed, resumes data start o (None :: owed) (Err e, o').
Proof.
  intros Hb He Hbr Heof. induction fuel as [|fuel IH]; intros o e o' Ho H; cbn in H; [done|].
  unfold peek_byte in H. destruct (byte_at data o) as [b|] eqn:Hbo; cbn in H.
  2: { injection H as <- <-. right. intros. by apply resumes_starved. }
  destruct (Z.eqb_spec b BREAK_BYTE) as [->|Hn]; [done|].
  unfold ref_pair in H at 1. destruct (body o) as [[[[]|er] o1]|] eqn:H1; [| |done].
  2: { injection H as -> ->. apply He in H1 as [?|H1]; [by left| |lia].
       right. intros. by eapply resumes_next. }
  apply Hb in H1 as [? Hi]; [|lia].
  destruct (body o1) as [r2|] eqn:H2; [|done].
  destruct (byte_at data o1) as [b1|] eqn:Hbo1.
  2: { pose proof (Heof _ _ Hbo1 H2) as ->. injection H as <- <-. right. intros.
       eapply resumes_next; [done..|]. eapply item_evals; [done|]. by apply resumes_starved. }
  destruct (Z.eq_dec b1 BREAK_BYTE) as [->|Hn1].
  { destruct (Hbr _ _ Hbo1 H2) as (e2 & o2 & -> & ?). injection H as -> ->. by left. }
  destruct r2 as [[[]|er] o2].
  - apply Hb in H2 as [? Hi2]; [|lia]. apply IH in H as [?|H]; [by left| |lia].
    right. intros. eapply resumes_next; [done..|]. eapply item_evals; [done|].
    eapply resumes_next; [done..|]. by eapply item_evals.
  - injection H as -> ->. apply He in H2 as [?|H2]; [by left| |lia].
    right. intros. eapply resumes_next; [done..|]. eapply item_evals; [done|].
    by eapply resumes_next.
Qed.

Lemma read_head_break data o :
  byte_at data o = Some BREAK_BYTE ->
  read_head data o =
    (Err (InvalidCborStructure o "unexpected break code outside indefinite container"), o + 1).
Proof.
  intros Hb. unfold read_head, dbind, here, decode_initial, dbind, read_byte, peek_byte, dret.
  by rewrite Hb.
Qed.

Lemma read_head_eof data o :
  byte_at data o = None -> read_head data o = (Err (UnexpectedEof o 1), o).
Proof.
  intros Hb. unfold read_head, dbind, here, decode_initial, dbind, read_byte, peek_byte, dret.
  by rewrite Hb.
Qed.

Lemma skip_ref_break data fuel o r :
  byte_at data o = Some BREAK_BYTE -> skip_ref data fuel o = Some r ->
  exists e o', r = (Err e, o') /\ break_error e.
Proof.
  intros Hb H. destruct fuel as [|fuel]; [done|].
  rewrite skip_ref_S in H. unfold ref_run in H. rewrite (read_head_break _ _ Hb) in H.
  injection H as <-. eexists _, _. split; [done|]. by eexists.
Qed.

Lemma skip_ref_eof data fuel o r :
  byte_at data o = None -> skip_ref data fuel o = Some r -> r = (Err (UnexpectedEof o 1), o).
Proof.
  intros Hb H. destruct fuel as [|fuel]; [done|].
  rewrite skip_ref_S in H. unfold ref_run in H. rewrite (read_head_eof _ _ Hb) in H.
  by injection H as <-.
Qed.

Lemma skip_ref_err data fuel : bytes_ok data -> body_err data (skip_ref data fuel).
Proof.
  intros Hd. induction fuel as [|fuel IH]; intros o e o' Ho H; [done|].
  rewrite skip_ref_S in H. unfold ref_run in H.
  pose proof (skip_ref_ok data fuel Hd) as Hok.
  destruct (read_head data o) as [[h|er] o1] eqn:Hh.
  2: { injection H as -> ->. right. intros. by apply evals_err. }
  pose proof (read_head_ok _ _ _ _ Hd Ho Hh) as (Hadv & Hcnt & _).
  assert (Hpush : break_error e \/
    forall start owed, resumes data start o1 (push h owed) (Err e, o')).
  { destruct h as [| |n|n| |]; cbn in Hcnt |- *.
    - done.
    - apply IH in H as [?|H]; [by left| |lia]. right. intros.
      apply (resumes_more _ _ _ 1); [lia | apply H].
    - eapply ref_for_err in H; [done..|lia|lia].
    - eapply ref_for_pair_err in H; [done..|lia|lia].
    - eapply ref_until_err in H; [done..|lia].
    - eapply ref_until_pair_err in H; [done|done|done| | |lia].
      + intros. by eapply skip_ref_break.
      + intros. by eapply skip_ref_eof. }
  destruct Hpush as [?|Hpush]; [by left|]. right. intros. by eapply evals_head.
Qed.

(** ** The recursive formulation terminates *)

Definition body_advances (data : list Z) (body : Z -> RefRun) : Prop :=
  forall o o', 0 <= o -> body o = Some (Ok tt, o') -> o < o' /\ o < blen data.

Definition left_ (data : list Z) (o : Z) : Z := Z.max 0 (blen data - o).

Definition body_total (data : list Z) (limit : Z) (body : Z -> RefRun) : Prop :=
  forall o, 0 <= o -> left_ data o < limit -> is_Some (body o).

Lemma skip_ref_advances data fuel : bytes_ok data -> body_advances data (skip_ref data fuel).
Proof.
  intros Hd o o' Ho H. apply skip_ref_ok in H as [? Hi]; [|done|done].
  split; [done|]. inversion Hi; subst.
  match goal with Hh : read_head _ _ = _ |- _ => apply read_head_inside in Hh end. lia.
Qed.

Lemma ref_pair_advances data body :
  body_advances data body -> body_advances data (ref_pair body).
Proof.
  intros Hb o o' Ho H. unfold ref_pair in H.
  destruct (body o) as [[[[]|e] o1]|] eqn:H1; try done.
  apply Hb in H1 as [? ?]; [|done]. apply Hb in H as [? ?]; [|lia]. lia.
Qed.

Lemma ref_pair_total data limit body :
  body_advances data body -> body_total data limit body ->
  body_total data limit (ref_pair body).
Proof.
  intros Ha Hb o Ho Hl. unfold ref_pair. destruct (Hb o Ho Hl) as [[[[]|e] o1] H1]; rewrite H1.
  - apply Ha in H1 as [? ?]; [|done]. apply Hb; unfold left_ in *; lia.
  - by eexists.
Qed.

Lemma ref_for_total data limit body :
  body_advances data body -> body_total data limit body -> forall fuel n o,
  0 <= o -> left_ data o < limit -> left_ data o < Z.of_nat fuel ->
  is_Some (ref_for body fuel n o).
Proof.
  intros Ha Hb. induction fuel as [|fuel IH]; intros n o Ho Hl Hf; cbn;
    (destruct (Z.leb_spec n 0); [by eexists|]); [unfold left_ in *; lia|].
  destruct (Hb o Ho Hl) as [[[[]|e] o1] H1]; rewrite H1; [|by eexists].
  apply Ha in H1 as [? ?]; [|done]. apply IH; unfold left_ in *; lia.
Qed.

Lemma ref_until_total data limit body :
  body_advances data body -> body_total data limit body -> forall fuel o,
  0 <= o -> left_ data o < limit -> left_ data o < Z.of_nat fuel ->
  is_Some (ref_until_break data body fuel o).
Proof.
  intros Ha Hb. induction fuel as [|fuel IH]; intros o Ho Hl Hf; cbn; [unfold left_ in *; lia|].
  destruct (peek_byte data o) as [b|e]; [|by eexists].
  destruct (b =? BREAK_BYTE); [by eexists|].
  destruct (Hb o Ho Hl) as [[[[]|e] o1] H1]; rewrite H1; [|by eexists].
  apply Ha in H1 as [? ?]; [|done]. apply IH; unfold left_ in *; lia.
Qed.

Lemma skip_ref_total data fuel :
  bytes_ok data -> body_total data (Z.of_nat fuel) (skip_ref data fuel).
Proof.
  intros Hd. induction fuel as [|fuel IH]; intros o Ho Hl; [unfold left_ in *; lia|].
  rewrite skip_ref_S. unfold ref_run.
  destruct (read_head data o) as [[h|e] o1] eqn:Hh; [|by eexists].
  pose proof (read_head_ok _ _ _ _ Hd Ho Hh) as (Hadv & _).
  assert (0 <= o1) as Ho1 by lia.
  assert (left_ data o1 < Z.of_nat fuel) as Hl1 by (unfold left_ in *; lia).
  pose proof (skip_ref_advances data fuel Hd) as Ha.
  pose proof (ref_pair_advances _ _ Ha) as Ha2.
  pose proof (ref_pair_total _ _ _ Ha IH) as IH2.
  destruct h as [| |n|n| |].
  - by eexists.
  - by apply IH.
  - by eapply ref_for_total.
  - by eapply ref_for_total.
  - by eapply ref_until_total.
  - by eapply ref_until_total.
Qed.

(** * Theorems *)

(** The iterative [skip_item] against the recursive formulation kept as its
    reference: both terminate, and they return the same result and leave the
    same final offset, errors included, unless the recursive one reports a
    break byte where an item should start. *)
Theorem skip_item_matches_reference (data : list Z) (off : Z) :
  bytes_ok data -> 0 <= off ->
  exists r, skip_item_recursive_reference data off = Some r /\
    (skip_item data off = r \/ exists e o, r = (Err e, o) /\ break_error e).
Proof.
  intros Hd Ho. unfold skip_item_recursive_reference.
  destruct (skip_ref_total data (S (length data)) Hd off Ho) as [[[[]|e] o] Hr].
  { unfold left_, blen. lia. }
  - rewrite Hr. eexists. split; [done|]. left.
    apply item_skip; [done..|]. by eapply skip_ref_ok.
  - rewrite Hr. eexists. split; [done|].
    apply skip_ref_err in Hr as [?|Hr]; [eauto | | done | done].
    left. by apply skip_item_evals.
Qed.

Lemma skip_item_matches_reference_witness :
  exists r, skip_item_recursive_reference [0x9f; 0x01; 0x41; 0xff; 0xff] 0 = Some r /\
    (skip_item [0x9f; 0x01; 0x41; 0xff; 0xff] 0 = r \/
     exists e o, r = (Err e, o) /\ break_error e).
Proof. apply skip_item_matches_reference; [repeat constructor; vm_compute; congruence|lia]. Defined.

(** The exception to that agreement is real: an indefinite map closed after a key is one
    item for the iterative skipper and an error for the recursive one. *)
Theorem skip_item_indefinite_map_divergence :
  skip_item [0xbf; 0x01; 0xff] 0 = (Ok (0, 3), 3) /\
  skip_item_recursive_reference [0xbf; 0x01; 0xff] 0 =
    Some (Err (InvalidCborStructure 2 "unexpected break code outside indefinite container"), 3).
Proof. split; reflexivity. Qed.
