(* ===== verification/CborRoundtrip.v ===== *)
(** Writing then reading, and reading then writing, with the CBOR primitives of
    [ade_codec/src/cbor/mod.rs].  Every reader starts with one initial byte and
    an argument, so the two directions are proved once for [write_argument]
    against [decode_initial]/[decode_argument] and instantiated per reader. *)

From S2P Require Import Prelude Cbor CborSkip.

(** * Exhaustive checks over a byte *)

Definition below (n : nat) : list Z := map Z.of_nat (seq 0 n).

Lemma below_forall (n : nat) (f : Z -> bool) x :
  forallb f (below n) = true -> 0 <= x < Z.of_nat n -> f x = true.
Proof.
  rewrite forallb_forall. intros Hf Hx. apply Hf. unfold below.
  apply in_map_iff. exists (Z.to_nat x). split; [lia|]. apply in_seq. lia.
Qed.

Lemma initial_split m x :
  0 <= m < 8 -> 0 <= x < 32 ->
  Z.shiftr (Z.lor (as_u8 (Z.shiftl m 5)) x) 5 = m /\
  Z.land (Z.lor (as_u8 (Z.shiftl m 5)) x) 31 = x.
Proof.
  intros Hm Hx.
  pose (f x m := (Z.shiftr (Z.lor (as_u8 (Z.shiftl m 5)) x) 5 =? m)
              && (Z.land (Z.lor (as_u8 (Z.shiftl m 5)) x) 31 =? x)).
  assert (forallb (fun x => forallb (f x) (below 8)) (below 32) = true) as Hall by reflexivity.
  pose proof (below_forall _ _ x Hall Hx) as Hall'. cbn beta in Hall'.
  pose proof (below_forall _ _ m Hall' Hm) as Hf. unfold f in Hf.
  apply andb_true_iff in Hf as [H1 H2]. lia.
Qed.

Lemma initial_join b :
  is_u8 b -> Z.lor (as_u8 (Z.shiftl (Z.shiftr b 5) 5)) (Z.land b 31) = b /\
  0 <= Z.shiftr b 5 < 8.
Proof.
  intros Hb. pose (f b := (Z.lor (as_u8 (Z.shiftl (Z.shiftr b 5) 5)) (Z.land b 31) =? b)
    && (0 <=? Z.shiftr b 5) && (Z.shiftr b 5 <? 8)).
  assert (forallb f (below 256) = true) as Hall by reflexivity.
  assert (f b = true) as Hf. { eapply below_forall; [done|]. width. lia. }
  unfold f in Hf. lia.
Qed.

Lemma initial_byte_ok m x :
  0 <= m < 8 -> 0 <= x < 32 -> is_u8 (Z.lor (as_u8 (Z.shiftl m 5)) x).
Proof.
  intros Hm Hx.
  pose (f x m := (0 <=? Z.lor (as_u8 (Z.shiftl m 5)) x) && (Z.lor (as_u8 (Z.shiftl m 5)) x <=? 255)).
  assert (forallb (fun x => forallb (f x) (below 8)) (below 32) = true) as Hall by reflexivity.
  pose proof (below_forall _ _ x Hall Hx) as Hall'. cbn beta in Hall'.
  pose proof (below_forall _ _ m Hall' Hm) as Hf. unfold f in Hf.
  width. lia.
Qed.

(** * Widths *)

(** The values a width can carry. *)
Definition width_fits (v : Z) (w : IntWidth) : Prop :=
  match w with
  | Inline => 0 <= v <= 23
  | I8 => is_u8 v
  | I16 => is_u16 v
  | I32 => is_u32 v
  | I64 => is_u64 v
  end.

Definition width_ai (v : Z) (w : IntWidth) : Z :=
  match w with
  | Inline => v
  | I8 => AI_ONE_BYTE
  | I16 => AI_TWO_BYTES
  | I32 => AI_FOUR_BYTES
  | I64 => AI_EIGHT_BYTES
  end.

(** Bytes that follow the initial one. *)
Definition width_len (w : IntWidth) : nat :=
  match w with Inline => 0 | I8 => 1 | I16 => 2 | I32 => 4 | I64 => 8 end.

Lemma write_argument_bytes buf m v w :
  width_fits v w ->
  write_argument buf m v w =
    buf ++ Z.lor (as_u8 (Z.shiftl m 5)) (width_ai v w) :: to_be (width_len w) v.
Proof.
  destruct w; cbn [write_argument width_fits width_len width_ai]; intros Hv; width.
  - unfold as_u8 at 2. by rewrite Z.mod_small by lia.
  - cbn [to_be]. rewrite Z.mul_0_r, Z.shiftr_0_r. done.
  - unfold as_u16. by rewrite Z.mod_small by lia.
  - unfold as_u32. by rewrite Z.mod_small by lia.
  - done.
Qed.

Lemma width_ai_bound v w : width_fits v w -> 0 <= width_ai v w < 32 /\ width_ai v w <> AI_INDEFINITE.
Proof. destruct w; cbn; width; unfold AI_ONE_BYTE, AI_TWO_BYTES, AI_FOUR_BYTES, AI_EIGHT_BYTES, AI_INDEFINITE; lia. Qed.

Lemma slice_at (pre mid post : list Z) o e :
  o = blen pre -> e = blen pre + blen mid -> slice (pre ++ mid ++ post) o e = mid.
Proof. intros -> ->. apply slice_app. Qed.

Lemma read_fixed_at (pre mid post : list Z) n :
  n = blen mid ->
  read_fixed n (pre ++ mid ++ post) (blen pre) = (Ok mid, blen pre + n).
Proof.
  intros ->. unfold read_fixed. rewrite !blen_app. pose proof (blen_nonneg post).
  destruct (Z.ltb_spec (blen pre + (blen mid + blen post)) (blen pre + blen mid)); [lia|].
  by rewrite slice_app.
Qed.

Lemma read_byte_at (pre post : list Z) b :
  read_byte (pre ++ b :: post) (blen pre) = (Ok b, blen pre + 1).
Proof. unfold read_byte, peek_byte. by rewrite byte_at_here. Qed.

Lemma decode_initial_at (pre post : list Z) m x :
  0 <= m < 8 -> 0 <= x < 32 ->
  decode_initial (pre ++ Z.lor (as_u8 (Z.shiftl m 5)) x :: post) (blen pre) =
    (Ok (m, x), blen pre + 1).
Proof.
  intros Hm Hx. unfold decode_initial, dbind, dret. rewrite read_byte_at.
  by destruct (initial_split m x Hm Hx) as [-> ->].
Qed.

Lemma decode_argument_at (pre post : list Z) start v w :
  width_fits v w ->
  decode_argument (width_ai v w) start (pre ++ to_be (width_len w) v ++ post) (blen pre) =
    (Ok (v, w), blen pre + Z.of_nat (width_len w)).
Proof.
  intros Hv. destruct w; cbn [width_ai width_len width_fits] in *; unfold decode_argument.
  - destruct (Z.leb_spec v 23); [|lia]. unfold dret. by rewrite Z.add_0_r.
  - change (AI_ONE_BYTE <=? 23) with false. change (AI_ONE_BYTE =? AI_ONE_BYTE) with true.
    cbv beta iota. unfold dbind. cbn [to_be app]. rewrite read_byte_at.
    rewrite Z.mul_0_r, Z.shiftr_0_r. width. by rewrite Z.mod_small by lia.
  - change (AI_TWO_BYTES <=? 23) with false. change (AI_TWO_BYTES =? AI_ONE_BYTE) with false.
    change (AI_TWO_BYTES =? AI_TWO_BYTES) with true. cbv beta iota. unfold dbind.
    rewrite read_fixed_at by (by rewrite blen_to_be). unfold dret.
    rewrite from_to_be_fits by (width; change (256 ^ Z.of_nat 2) with 65536; lia). done.
  - change (AI_FOUR_BYTES <=? 23) with false. change (AI_FOUR_BYTES =? AI_ONE_BYTE) with false.
    change (AI_FOUR_BYTES =? AI_TWO_BYTES) with false.
    change (AI_FOUR_BYTES =? AI_FOUR_BYTES) with true. cbv beta iota. unfold dbind.
    rewrite read_fixed_at by (by rewrite blen_to_be). unfold dret.
    rewrite from_to_be_fits by (width; change (256 ^ Z.of_nat 4) with 4294967296; lia). done.
  - change (AI_EIGHT_BYTES <=? 23) with false. change (AI_EIGHT_BYTES =? AI_ONE_BYTE) with false.
    change (AI_EIGHT_BYTES =? AI_TWO_BYTES) with false.
    change (AI_EIGHT_BYTES =? AI_FOUR_BYTES) with false.
    change (AI_EIGHT_BYTES =? AI_EIGHT_BYTES) with true. cbv beta iota. unfold dbind.
    rewrite read_fixed_at by (by rewrite blen_to_be). unfold dret.
    rewrite from_to_be_fits by (width; change (256 ^ Z.of_nat 8) with 18446744073709551616; lia).
    done.
Qed.

(** What every reader sees at the start of what [write_argument] wrote. *)
Lemma read_written buf m v w post start :
  0 <= m < 8 -> width_fits v w ->
  let data := write_argument buf m v w ++ post in
  decode_initial data (blen buf) = (Ok (m, width_ai v w), blen buf + 1) /\
  decode_argument (width_ai v w) start data (blen buf + 1) =
    (Ok (v, w), blen (write_argument buf m v w)).
Proof.
  intros Hm Hv data. subst data. rewrite write_argument_bytes by done.
  destruct (width_ai_bound v w Hv) as [Hai _]. split.
  - rewrite <- app_assoc. by apply decode_initial_at.
  - rewrite <- app_assoc. cbn [app].
    pose (pre := buf ++ [Z.lor (as_u8 (Z.shiftl m 5)) (width_ai v w)]).
    assert (blen buf + 1 = blen pre) as -> by (unfold pre; by rewrite blen_app).
    replace (buf ++ Z.lor (as_u8 (Z.shiftl m 5)) (width_ai v w) :: to_be (width_len w) v ++ post)
      with (pre ++ to_be (width_len w) v ++ post) by (unfold pre; by rewrite <- app_assoc).
    rewrite decode_argument_at by done. f_equal. unfold pre.
    autorewrite with ade. lia.
Qed.

(** * Reading what was written *)

Lemma read_payload_at (pre mid post : list Z) :
  blen pre + blen mid <= u64_max ->
  read_payload (blen mid) (pre ++ mid ++ post) (blen pre) = (Ok mid, blen pre + blen mid).
Proof.
  intros Hfit. unfold read_payload. rewrite checked_add_fits by done.
  rewrite !blen_app. pose proof (blen_nonneg post).
  destruct (Z.ltb_spec (blen pre + (blen mid + blen post)) (blen pre + blen mid)); [lia|].
  by rewrite slice_app.
Qed.


Lemma read_uint_written buf v w post :
  width_fits v w ->
  read_uint (write_uint buf v w ++ post) (blen buf) = (Ok (v, w), blen (write_uint buf v w)).
Proof.
  intros Hv. unfold write_uint. unfold read_uint, dbind, here.
  destruct (read_written buf MAJOR_UNSIGNED v w post (blen buf)) as [Hi Ha]; [done|done|].
  by rewrite Hi, <- Ha.
Qed.

Lemma read_tag_written buf v w post :
  width_fits v w ->
  read_tag (write_tag buf v w ++ post) (blen buf) = (Ok (v, w), blen (write_tag buf v w)).
Proof.
  intros Hv. unfold write_tag. unfold read_tag, dbind, here.
  destruct (read_written buf MAJOR_TAG v w post (blen buf)) as [Hi Ha]; [done|done|].
  by rewrite Hi, <- Ha.
Qed.

Definition encoding_fits (e : ContainerEncoding) : Prop :=
  match e with Definite n w => width_fits n w | Indefinite => True end.

Lemma read_array_header_written buf e post :
  encoding_fits e ->
  read_array_header (write_array_header buf e ++ post) (blen buf) =
    (Ok e, blen (write_array_header buf e)).
Proof.
  intros He. destruct e as [n w|]; cbn [write_array_header encoding_fits] in *;
    unfold read_array_header, dbind, here.
  - destruct (read_written buf MAJOR_ARRAY n w post (blen buf)) as [Hi Ha]; [done|done|].
    rewrite Hi. destruct (width_ai_bound n w He) as [_ Hne]. change (negb (MAJOR_ARRAY =? MAJOR_ARRAY)) with false.
    destruct (Z.eqb_spec (width_ai n w) AI_INDEFINITE); [done|]. cbv beta iota. by rewrite Ha.
  - rewrite <- app_assoc. cbn [app].
    rewrite (decode_initial_at buf post MAJOR_ARRAY AI_INDEFINITE) by done.
    by rewrite blen_app.
Qed.

Lemma read_map_header_written buf e post :
  encoding_fits e ->
  read_map_header (write_map_header buf e ++ post) (blen buf) =
    (Ok e, blen (write_map_header buf e)).
Proof.
  intros He. destruct e as [n w|]; cbn [write_map_header encoding_fits] in *;
    unfold read_map_header, dbind, here.
  - destruct (read_written buf MAJOR_MAP n w post (blen buf)) as [Hi Ha]; [done|done|].
    rewrite Hi. destruct (width_ai_bound n w He) as [_ Hne]. change (negb (MAJOR_MAP =? MAJOR_MAP)) with false.
    destruct (Z.eqb_spec (width_ai n w) AI_INDEFINITE); [done|]. cbv beta iota. by rewrite Ha.
  - rewrite <- app_assoc. cbn [app].
    rewrite (decode_initial_at buf post MAJOR_MAP AI_INDEFINITE) by done.
    by rewrite blen_app.
Qed.

Lemma read_bytes_written buf bs w post :
  width_fits (blen bs) w -> blen (write_bytes buf bs w) <= u64_max ->
  read_bytes (write_bytes buf bs w ++ post) (blen buf) =
    (Ok (bs, w), blen (write_bytes buf bs w)).
Proof.
  intros Hw Hfit. unfold write_bytes in *. rewrite blen_app in Hfit.
  rewrite <- app_assoc. unfold read_bytes, dbind, here.
  destruct (read_written buf MAJOR_BYTES (blen bs) w (bs ++ post) (blen buf)) as [Hi Ha];
    [done|done|].
  rewrite Hi. destruct (width_ai_bound _ w Hw) as [_ Hne]. change (negb (MAJOR_BYTES =? MAJOR_BYTES)) with false.
  destruct (Z.eqb_spec (width_ai (blen bs) w) AI_INDEFINITE); [done|]. cbv beta iota.
  rewrite Ha, read_payload_at by done. unfold dret. by rewrite blen_app.
Qed.

Lemma canonical_width_fits v : is_u64 v -> width_fits v (canonical_width v).
Proof.
  intros Hv. unfold canonical_width. width.
  destruct (Z.leb_spec v 23); [cbn; lia|].
  destruct (Z.leb_spec v 255); [cbn; width; lia|].
  destruct (Z.leb_spec v 65535); [cbn; width; lia|].
  destruct (Z.leb_spec v 4294967295); cbn; width; lia.
Qed.

Lemma canonical_width_minimal v w :
  width_fits v w -> (width_len (canonical_width v) <= width_len w)%nat.
Proof.
  intros Hv. unfold canonical_width.
  destruct w; cbn in Hv; width;
    destruct (Z.leb_spec v 23); cbn; try lia;
    destruct (Z.leb_spec v 255); cbn; try lia;
    destruct (Z.leb_spec v 65535); cbn; try lia;
    destruct (Z.leb_spec v 4294967295); cbn; lia.
Qed.

(** * Re-encoding what was read *)

Lemma slice_cons data o b e :
  byte_at data o = Some b -> o + 1 <= e -> slice data o e = b :: slice data (o + 1) e.
Proof.
  intros Hb He. pose proof (byte_at_bound _ _ _ Hb) as Ho. unfold byte_at in Hb.
  destruct (_ && _); [|done]. unfold slice.
  replace (Z.to_nat (o + 1)) with (S (Z.to_nat o)) by lia.
  replace (Z.to_nat (e - o)) with (S (Z.to_nat (e - (o + 1)))) by lia.
  by rewrite (drop_S data b) by done.
Qed.

Lemma slice_nil data o : slice data o o = [].
Proof. unfold slice. by rewrite Z.sub_diag. Qed.

Lemma fixed_reencode data o n w v o' :
  bytes_ok data -> 0 <= o -> n = Z.of_nat (width_len w) ->
  (do! l := read_fixed n in dret (from_be l, w)) data o = (Ok (v, w), o') ->
  slice data o o' = to_be (width_len w) v /\ 0 <= v < 256 ^ n.
Proof.
  intros Hd Ho Hn H. apply dbind_ok_inv in H as (l & o1 & Hl & H).
  injection H as <- <-. apply read_fixed_ok in Hl as (Heq & -> & Hle).
  assert (blen l = n) as Hlen by (subst l; rewrite blen_slice; lia).
  assert (bytes_ok l) as Hok by (subst l; by apply slice_ok).
  pose proof (from_be_bound l Hok) as Hb. rewrite Hlen in Hb. split; [|done].
  rewrite <- Heq. rewrite <- (to_from_be l Hok) at 1. f_equal. unfold blen in Hlen. lia.
Qed.

Lemma arg_reencode data off m ai s v w off' :
  bytes_ok data -> 0 <= off ->
  decode_initial data off = (Ok (m, ai), off + 1) ->
  decode_argument ai s data (off + 1) = (Ok (v, w), off') ->
  width_fits v w /\ slice data off off' = write_argument [] m v w.
Proof.
  intros Hd Ho Hi Ha.
  apply decode_initial_ok in Hi as (b & Hb & _ & -> & ->).
  pose proof (byte_at_ok _ _ _ Hd Hb) as Hb8.
  destruct (initial_join b Hb8) as [Hj _]. pose proof (land_31_bound b) as Hai.
  assert (0 <= off + 1) as Ho1 by lia.
  cut (width_fits v w /\ Z.land b 31 = width_ai v w /\
       slice data (off + 1) off' = to_be (width_len w) v /\ off + 1 <= off').
  { intros (Hf & He & Hs & Hle). split; [done|].
    rewrite write_argument_bytes by done. cbn [app].
    rewrite (slice_cons _ _ _ _ Hb Hle), Hs, <- He. by rewrite Hj. }
  pose proof (decode_argument_ok _ _ _ _ _ _ _ Hd Ho1 (proj1 Hai) Ha) as (_ & Hle & _).
  unfold decode_argument in Ha.
  destruct (Z.leb_spec (Z.land b 31) 23).
  { injection Ha as <- <- <-. rewrite slice_nil. cbn. split_and!; (done || lia). }
  destruct (Z.eqb_spec (Z.land b 31) AI_ONE_BYTE) as [->|].
  { apply dbind_ok_inv in Ha as (c & o & Hc & Ha). injection Ha as <- <- <-.
    apply read_byte_ok in Hc as [Hc ->]. pose proof (byte_at_ok _ _ _ Hd Hc) as Hc8.
    rewrite (slice_cons _ _ _ _ Hc), slice_nil by lia. cbn [width_fits width_ai width_len to_be].
    rewrite Z.mul_0_r, Z.shiftr_0_r. width. rewrite Z.mod_small by lia.
    split_and!; (done || lia). }
  destruct (Z.eqb_spec (Z.land b 31) AI_TWO_BYTES) as [->|].
  { assert (w = I16) as ->.
    { apply dbind_ok_inv in Ha as (? & ? & _ & Ha). by injection Ha as _ <- _. }
    apply (fixed_reencode _ _ _ I16) in Ha as [? Hv]; [|done..].
    change (256 ^ 2) with 65536 in Hv. cbn. width. split_and!; (done || lia). }
  destruct (Z.eqb_spec (Z.land b 31) AI_FOUR_BYTES) as [->|].
  { assert (w = I32) as ->.
    { apply dbind_ok_inv in Ha as (? & ? & _ & Ha). by injection Ha as _ <- _. }
    apply (fixed_reencode _ _ _ I32) in Ha as [? Hv]; [|done..].
    change (256 ^ 4) with 4294967296 in Hv. cbn. width. split_and!; (done || lia). }
  destruct (Z.eqb_spec (Z.land b 31) AI_EIGHT_BYTES) as [->|]; [|discriminate Ha].
  assert (w = I64) as ->.
  { apply dbind_ok_inv in Ha as (? & ? & _ & Ha). by injection Ha as _ <- _. }
  apply (fixed_reencode _ _ _ I64) in Ha as [? Hv]; [|done..].
  change (256 ^ 8) with 18446744073709551616 in Hv. cbn. width. split_and!; (done || lia).
Qed.

Lemma decode_initial_step data off p o :
  decode_initial data off = (Ok p, o) -> o = off + 1.
Proof. destruct p. intros H. by apply decode_initial_ok in H as (? & ? & ? & _). Qed.

Lemma read_uint_reencode data off v w off' :
  bytes_ok data -> 0 <= off -> read_uint data off = (Ok (v, w), off') ->
  width_fits v w /\ write_uint [] v w = slice data off off'.
Proof.
  intros Hd Ho H. unfold read_uint in H.
  apply dbind_ok_inv in H as (st & o & [= <- <-] & H).
  apply dbind_ok_inv in H as ([m ai] & o & Hi & H).
  pose proof (decode_initial_step _ _ _ _ Hi) as ->. cbn beta iota in H.
  destruct (Z.eqb_spec m MAJOR_UNSIGNED) as [->|]; [|discriminate H]. cbn [negb] in H.
  destruct (arg_reencode _ _ _ _ _ _ _ _ Hd Ho Hi H) as [? ->]. done.
Qed.

(** Integers keep their wire form: for every value a width can carry,
    [read_uint] reads back exactly the value and the width [write_uint] wrote and
    stops at the end of it; conversely, re-encoding what [read_uint] accepted
    gives exactly the bytes it consumed. *)
Theorem uint_roundtrip (buf post data : list Z) (v : Z) (w : IntWidth) (off off' : Z) :
  bytes_ok data -> 0 <= off ->
  (width_fits v w ->
    read_uint (write_uint buf v w ++ post) (blen buf) =
      (Ok (v, w), blen (write_uint buf v w))) /\
  (read_uint data off = (Ok (v, w), off') ->
    width_fits v w /\ write_uint [] v w = slice data off off').
Proof. intros Hd Ho. split; [apply read_uint_written | by apply read_uint_reencode]. Qed.

Lemma uint_roundtrip_witness :
  bytes_ok [0x19; 0x01; 0x00] /\ 0 <= 0 /\
  read_uint (write_uint [7] 256 I16 ++ [9]) 1 = (Ok (256, I16), 4) /\
  write_uint [] 256 I16 = [0x19; 0x01; 0x00].
Proof.
  assert (bytes_ok [0x19; 0x01; 0x00]) as Hd by (repeat constructor; width; lia).
  split; [done|]. split; [lia|].
  destruct (uint_roundtrip [7] [9] [0x19; 0x01; 0x00] 256 I16 0 3 Hd ltac:(lia)) as [H1 H2].
  split.
  - apply H1. cbn. width. lia.
  - apply H2. reflexivity.
Defined.

(** * Readers do not look outside the item *)

(** [m'] accepts wherever [m] does, when the buffer is extended at both ends. *)
Definition local_in {A} (m m' : Dec A) : Prop :=
  forall pre data post off a off',
    0 <= off -> blen (pre ++ data ++ post) <= u64_max ->
    m data off = (Ok a, off') ->
    m' (pre ++ data ++ post) (blen pre + off) = (Ok a, blen pre + off') /\ 0 <= off'.

Lemma byte_at_extend pre data post off b :
  byte_at data off = Some b -> byte_at (pre ++ data ++ post) (blen pre + off) = Some b.
Proof.
  intros H. pose proof (byte_at_bound _ _ _ H) as Ho.
  rewrite byte_at_app_r by lia. unfold byte_at in *. rewrite blen_app.
  pose proof (blen_nonneg post).
  destruct (Z.leb_spec 0 off), (Z.ltb_spec off (blen data)); try lia.
  destruct (Z.ltb_spec off (blen data + blen post)); [|lia]. cbn in *.
  by apply lookup_app_l_Some.
Qed.

Lemma slice_extend pre data post from to :
  0 <= from <= to -> to <= blen data ->
  slice (pre ++ data ++ post) (blen pre + from) (blen pre + to) = slice data from to.
Proof.
  intros Hf Ht. unfold slice, blen in *.
  replace (Z.to_nat (Z.of_nat (length pre) + from)) with (length pre + Z.to_nat from)%nat by lia.
  rewrite drop_app_add. rewrite drop_app_le by lia.
  replace (Z.to_nat (Z.of_nat (length pre) + to - _)) with (Z.to_nat (to - from)) by lia.
  rewrite take_app_le; [done|]. rewrite length_drop. lia.
Qed.

Lemma local_ret {A} (a : A) : local_in (dret a) (dret a).
Proof. intros pre data post off b off' Ho Hl [= <- <-]. done. Qed.

Lemma local_fail {A} e (m : Dec A) : local_in (fail e) m.
Proof. intros pre data post off b off' Ho Hl [=]. Qed.

Lemma local_bind {A B} (m m' : Dec A) (k k' : A -> Dec B) :
  local_in m m' -> (forall a, local_in (k a) (k' a)) -> local_in (dbind m k) (dbind m' k').
Proof.
  intros Hm Hk pre data post off b off' Ho Hl H.
  apply dbind_ok_inv in H as (a & o & Ha & H).
  destruct (Hm pre data post _ _ _ Ho Hl Ha) as [Ha' Ho'].
  destruct (Hk a pre data post _ _ _ Ho' Hl H) as [H' Ho''].
  unfold dbind. by rewrite Ha'.
Qed.

(** A start offset that is only reported in errors does not matter. *)
Lemma local_here {B} (k k' : Z -> Dec B) :
  (forall s s', local_in (k s) (k' s')) -> local_in (dbind here k) (dbind here k').
Proof. intros Hk pre data post off b off' Ho Hl H. unfold dbind, here in *. by eapply Hk. Qed.

Lemma local_if {A} (b : bool) (m n m' n' : Dec A) :
  local_in m m' -> local_in n n' -> local_in (if b then m else n) (if b then m' else n').
Proof. by destruct b. Qed.

Lemma local_byte : local_in read_byte read_byte.
Proof.
  intros pre data post off b off' Ho Hl H. apply read_byte_ok in H as [H ->].
  unfold read_byte, peek_byte. rewrite (byte_at_extend _ _ _ _ _ H). cbn.
  split; [f_equal; lia | lia].
Qed.

Lemma local_fixed n : 0 <= n -> local_in (read_fixed n) (read_fixed n).
Proof.
  intros Hn pre data post off l off' Ho Hl H. apply read_fixed_ok in H as (-> & -> & Hle).
  unfold read_fixed. rewrite !blen_app. pose proof (blen_nonneg post).
  destruct (Z.ltb_spec (blen pre + (blen data + blen post)) (blen pre + off + n)); [lia|].
  split; [|lia]. rewrite <- (slice_extend pre data post off (off + n)) by lia.
  by rewrite !Z.add_assoc.
Qed.

Lemma local_payload n : 0 <= n -> local_in (read_payload n) (read_payload n).
Proof.
  intros Hn pre data post off l off' Ho Hl H. apply read_payload_ok in H as (-> & -> & Hle).
  unfold read_payload. rewrite !blen_app in *. pose proof (blen_nonneg post).
  rewrite checked_add_fits by lia.
  destruct (Z.ltb_spec (blen pre + (blen data + blen post)) (blen pre + off + n)); [lia|].
  split; [|lia]. rewrite <- (slice_extend pre data post off (off + n)) by lia.
  by rewrite !Z.add_assoc.
Qed.

Create HintDb local.
#[export] Hint Resolve local_ret local_fail local_bind local_here local_if local_byte : local.
#[export] Hint Extern 1 (local_in (read_fixed _) _) => apply local_fixed; lia : local.
#[export] Hint Extern 2 (local_in (let '(_, _) := ?p in _) _) => destruct p : local.

Lemma local_argument ai s s' : local_in (decode_argument ai s) (decode_argument ai s').
Proof. unfold decode_argument. auto 20 with local. Qed.
Lemma local_initial : local_in decode_initial decode_initial.
Proof. unfold decode_initial. auto with local. Qed.
Lemma local_simple s s' ai : local_in (skip_simple s ai) (skip_simple s' ai).
Proof. unfold skip_simple. auto 20 with local. Qed.
#[export] Hint Resolve local_argument local_initial local_simple : local.

(** A length decoded from bytes is not negative, so the payload guard is the
    same in the extended buffer. *)
Lemma read_head_extend pre data post off h off' :
  bytes_ok data -> 0 <= off -> blen (pre ++ data ++ post) <= u64_max ->
  read_head data off = (Ok h, off') ->
  read_head (pre ++ data ++ post) (blen pre + off) = (Ok h, blen pre + off').
Proof.
  intros Hd Ho Hl H. unfold read_head in *.
  apply dbind_ok_inv in H as (st & o & [= <- <-] & H).
  apply dbind_ok_inv in H as ([major ai] & o & Hi & H).
  pose proof (decode_initial_ok _ _ _ _ _ Hi) as (b & Hb & -> & -> & ->).
  pose proof (land_31_bound b) as Hai.
  destruct (local_initial pre data post _ _ _ Ho Hl Hi) as [Hi' Ho1].
  unfold dbind at 1, here. cbv beta iota. unfold dbind at 1. rewrite Hi'. cbv beta iota.
  cbn beta iota in H. set (d := pre ++ data ++ post) in *.
  assert (Hrest : forall m m' : Dec Head, local_in m m' -> m data (off + 1) = (Ok h, off') ->
    m' d (blen pre + (off + 1)) = (Ok h, blen pre + off')).
  { intros m m' Hm Hr. exact (proj1 (Hm pre data post _ _ _ Ho1 Hl Hr)). }
  destruct (_ || _); [|destruct (_ || _)]; revert H.
  - apply Hrest. auto 20 with local.
  - destruct (_ =? _); [apply Hrest; auto with local|]. intros H.
    apply dbind_ok_inv in H as ([len w] & o & Ha & H).
    pose proof (decode_argument_ok _ _ _ _ _ _ _ Hd Ho1 (proj1 Hai) Ha) as (Hlen & _).
    destruct (local_argument _ off (blen pre + off) pre data post _ _ _ Ho1 Hl Ha) as [Ha' Ho2].
    assert (0 <= len) as Hlen0 by (width; lia).
    unfold dbind at 1. fold d in Ha'. rewrite Ha'. cbv beta iota. cbn beta iota in H.
    exact (proj1 (local_bind _ _ _ _ (local_payload _ Hlen0) (fun _ => local_ret HLeaf)
      pre data post _ _ _ Ho2 Hl H)).
  - apply Hrest. auto 20 with local.
Qed.

Lemma grammar_extend pre data post :
  bytes_ok data -> blen (pre ++ data ++ post) <= u64_max ->
  let d := pre ++ data ++ post in let p := blen pre in
  (forall o o', item data o o' -> 0 <= o -> 0 <= o' /\ item d (p + o) (p + o')) /\
  (forall h o o', contents data h o o' -> 0 <= o -> 0 <= o' /\ contents d h (p + o) (p + o')) /\
  (forall n o o', items data n o o' -> 0 <= o -> 0 <= o' /\ items d n (p + o) (p + o')) /\
  (forall o o', until_break data o o' -> 0 <= o -> 0 <= o' /\ until_break d (p + o) (p + o')).
Proof.
  intros Hd Hl d p.
  apply (grammar_ind data
    (fun o o' _ => 0 <= o -> 0 <= o' /\ item d (p + o) (p + o'))
    (fun h o o' _ => 0 <= o -> 0 <= o' /\ contents d h (p + o) (p + o'))
    (fun n o o' _ => 0 <= o -> 0 <= o' /\ items d n (p + o) (p + o'))
    (fun o o' _ => 0 <= o -> 0 <= o' /\ until_break d (p + o) (p + o'))).
  - intros o h o1 o2 Hh _ IH Ho. pose proof (read_head_bound _ _ _ _ Hd Ho Hh).
    destruct IH as [? ?]; [lia|]. split; [done|].
    eapply item_intro; [by eapply read_head_extend|done].
  - eauto with grammar.
  - intros o o' _ IH Ho. destruct (IH Ho). eauto with grammar.
  - intros n o o' _ IH Ho. destruct (IH Ho). eauto with grammar.
  - intros n o o' _ IH Ho. destruct (IH Ho). eauto with grammar.
  - intros o o' _ IH Ho. destruct (IH Ho). eauto with grammar.
  - intros o o' _ IH Ho. destruct (IH Ho). eauto with grammar.
  - eauto with grammar.
  - intros n o o1 o2 Hn _ IH1 _ IH2 Ho. destruct (IH1 Ho) as [Ho1 ?]. destruct (IH2 Ho1).
    eauto with grammar.
  - intros o Hb Ho. split; [lia|]. rewrite Z.add_assoc. constructor. by apply byte_at_extend.
  - intros o b o1 o2 Hb Hn _ IH1 _ IH2 Ho. destruct (IH1 Ho) as [Ho1 ?]. destruct (IH2 Ho1).
    split; [done|]. eapply until_more; eauto. by apply byte_at_extend.
Qed.

Lemma item_extend pre data post o o' :
  bytes_ok data -> blen (pre ++ data ++ post) <= u64_max -> 0 <= o ->
  item data o o' -> item (pre ++ data ++ post) (blen pre + o) (blen pre + o').
Proof.
  intros Hd Hl Ho Hi.
  exact (proj2 (proj1 (grammar_extend pre data post Hd Hl) o o' Hi Ho)).
Qed.

(** ** More re-encoding *)

Lemma slice_join data a b c :
  0 <= a <= b -> b <= c -> c <= blen data -> slice data a b ++ slice data b c = slice data a c.
Proof.
  intros Ha Hb Hc. unfold slice, blen in *.
  replace (Z.to_nat (c - a)) with (Z.to_nat (b - a) + Z.to_nat (c - b))%nat by lia.
  rewrite <- (take_take_drop _ (Z.to_nat (b - a)) (Z.to_nat (c - b))), drop_drop.
  by replace (Z.to_nat a + Z.to_nat (b - a))%nat with (Z.to_nat b) by lia.
Qed.

Lemma slice_all data : slice data 0 (blen data) = data.
Proof.
  unfold slice, blen. replace (Z.to_nat (Z.of_nat (length data) - 0)) with (length data) by lia.
  cbn [Z.to_nat drop]. apply take_ge. lia.
Qed.

Lemma write_argument_app buf m v w :
  width_fits v w -> write_argument buf m v w = buf ++ write_argument [] m v w.
Proof. intros Hv. by rewrite !write_argument_bytes. Qed.

Lemma read_array_header_reencode data off n w off' :
  bytes_ok data -> 0 <= off -> read_array_header data off = (Ok (Definite n w), off') ->
  width_fits n w /\ slice data off off' = write_array_header [] (Definite n w).
Proof.
  intros Hd Ho H. unfold read_array_header in H.
  apply dbind_ok_inv in H as (st & o & [= <- <-] & H).
  apply dbind_ok_inv in H as ([m ai] & o & Hi & H).
  pose proof (decode_initial_step _ _ _ _ Hi) as ->. cbn beta iota in H.
  destruct (Z.eqb_spec m MAJOR_ARRAY) as [->|]; [|discriminate H]. cbn [negb] in H.
  destruct (ai =? AI_INDEFINITE); [discriminate H|].
  apply dbind_ok_inv in H as ([c w'] & o & Ha & H). injection H as -> -> ->.
  by eapply arg_reencode.
Qed.

Lemma read_bytes_reencode data off l w off' :
  bytes_ok data -> 0 <= off -> off <= blen data -> read_bytes data off = (Ok (l, w), off') ->
  width_fits (blen l) w /\ slice data off off' = write_bytes [] l w /\
  off + 1 <= off' - blen l /\ off' <= blen data /\ slice data (off' - blen l) off' = l.
Proof.
  intros Hd Ho Hle H. unfold read_bytes in H.
  apply dbind_ok_inv in H as (st & o & [= <- <-] & H).
  apply dbind_ok_inv in H as ([m ai] & o & Hi & H).
  pose proof (decode_initial_step _ _ _ _ Hi) as ->. cbn beta iota in H.
  destruct (Z.eqb_spec m MAJOR_BYTES) as [->|]; [|discriminate H]. cbn [negb] in H.
  destruct (ai =? AI_INDEFINITE); [discriminate H|].
  apply dbind_ok_inv in H as ([len w'] & o & Ha & H). cbn beta iota in H.
  apply dbind_ok_inv in H as (bs & o' & Hp & H). injection H as -> -> ->.
  pose proof (decode_initial_ok _ _ _ _ _ Hi) as (b & Hb & _ & _ & ->).
  pose proof (byte_at_bound _ _ _ Hb) as Hin.
  pose proof (land_31_bound b) as Hai.
  pose proof (decode_argument_ok _ _ _ _ _ _ _ Hd (ltac:(lia) : 0 <= off + 1) (proj1 Hai) Ha)
    as (Hlen & Hoo & _).
  destruct (arg_reencode _ _ _ _ _ _ _ _ Hd Ho Hi Ha) as [Hf Hs].
  apply read_payload_ok in Hp as (Hl & -> & Hend). width.
  assert (blen l = len) as Hll by (subst l; rewrite blen_slice; lia).
  rewrite Hll. split_and!; [done| |lia|lia|].
  - rewrite <- (slice_join data off o) by lia. unfold write_bytes. by rewrite Hll, Hs, <- Hl.
  - replace (o + len - len) with o by lia. done.
Qed.

(** ** Accepted offsets only move forward, inside the buffer *)

Lemma read_array_header_bound data off n w off' :
  bytes_ok data -> 0 <= off -> read_array_header data off = (Ok (Definite n w), off') ->
  off < off' <= blen data.
Proof.
  intros Hd Ho H. unfold read_array_header in H.
  apply dbind_ok_inv in H as (? & ? & [= <- <-] & H).
  apply dbind_ok_inv in H as ([m ai] & o & Hi & H). cbn beta iota in H.
  apply decode_initial_ok in Hi as (b & Hb & -> & -> & ->).
  pose proof (byte_at_bound _ _ _ Hb). pose proof (land_31_bound b) as [? _].
  destruct (negb _); [discriminate H|]. destruct (_ =? AI_INDEFINITE); [discriminate H|].
  apply dbind_ok_inv in H as ([c w'] & o & Ha & H). injection H as -> -> ->.
  apply decode_argument_ok in Ha as (_ & ? & ?); [lia|done|lia|lia].
Qed.

Lemma read_uint_bound data off v w off' :
  bytes_ok data -> 0 <= off -> read_uint data off = (Ok (v, w), off') ->
  off < off' <= blen data /\ is_u64 v.
Proof.
  intros Hd Ho H. unfold read_uint in H.
  apply dbind_ok_inv in H as (? & ? & [= <- <-] & H).
  apply dbind_ok_inv in H as ([m ai] & o & Hi & H). cbn beta iota in H.
  apply decode_initial_ok in Hi as (b & Hb & -> & -> & ->).
  pose proof (byte_at_bound _ _ _ Hb). pose proof (land_31_bound b) as [? _].
  destruct (negb _); [discriminate H|].
  apply decode_argument_ok in H as (? & ? & ?); [split; [lia|done]|done|lia|lia].
Qed.

Lemma item_inside data o o' :
  bytes_ok data -> 0 <= o -> item data o o' -> o < blen data.
Proof.
  intros Hd Ho Hi. inversion Hi as [? ? ? ? Hh]; subst.
  by apply read_head_inside in Hh as [_ ?].
Qed.
