(* ===== verification/CborPrefix.v ===== *)
(** [skip_item] on a growing buffer: an error other than end-of-input is final, and a
    buffer that holds only a proper prefix of an item is reported as end-of-input.  A
    caller that waits for more bytes exactly on end-of-input therefore never gives up on
    an item that is still arriving, and never waits for one that is already malformed.

    The last part writes the data items of RFC 8949 as a grammar on byte strings
    ([well_formed], heads by their values, no reader in it) and shows that [skip_item]
    accepts exactly those items and three named liberties. *)

From S2P Require Import Prelude Cbor CborSkip CborRoundtrip.

Definition eof (e : CodecError) : Prop := exists off needed, e = UnexpectedEof off needed.

Lemma eof_intro off needed : eof (UnexpectedEof off needed).
Proof. by exists off, needed. Qed.
#[export] Hint Resolve eof_intro : local.

(** An error of [m] other than end-of-input does not depend on what follows the input. *)
Definition err_local {A} (m : Dec A) : Prop :=
  forall data post off e o, 0 <= off -> blen (data ++ post) <= u64_max ->
    m data off = (Err e, o) -> eof e \/ m (data ++ post) off = (Err e, o).

Lemma local_ok {A} (m : Dec A) data post off a o :
  local_in m m -> 0 <= off -> blen (data ++ post) <= u64_max ->
  m data off = (Ok a, o) -> m (data ++ post) off = (Ok a, o) /\ 0 <= o.
Proof. intros Hm Ho Hl H. exact (Hm [] data post off a o Ho Hl H). Qed.

Lemma err_ret {A} (a : A) : err_local (dret a).
Proof. intros data post off e o _ _ [=]. Qed.
Lemma err_fail {A} e : err_local (@fail A e).
Proof. intros data post off e' o _ _ [= <- <-]. by right. Qed.
Lemma err_bind {A B} (m : Dec A) (k : A -> Dec B) :
  local_in m m -> err_local m -> (forall a, err_local (k a)) -> err_local (dbind m k).
Proof.
  intros Hl Hm Hk data post off e o Ho Hfit. unfold dbind.
  destruct (m data off) as [[a|e'] o'] eqn:Hd.
  - destruct (local_ok m data post off a o' Hl Ho Hfit Hd) as [-> Ho']. by apply Hk.
  - intros [= <- <-]. destruct (Hm data post off e' o' Ho Hfit Hd) as [?| ->]; auto.
Qed.
Lemma err_bind_ret {A B} (m : Dec A) (f : A -> B) : err_local m -> err_local (dbind m (fun a => dret (f a))).
Proof.
  intros Hm data post off e o Ho Hl. unfold dbind, dret.
  destruct (m data off) as [[a|e'] o'] eqn:Hd; [done|]. intros [= <- <-].
  destruct (Hm data post off e' o' Ho Hl Hd) as [?| ->]; auto.
Qed.
Lemma err_here {B} (k : Z -> Dec B) : (forall s, err_local (k s)) -> err_local (dbind here k).
Proof. intros Hk data post off e o. unfold dbind, here. apply Hk. Qed.
Lemma err_if {A} (b : bool) (m n : Dec A) : err_local m -> err_local n -> err_local (if b then m else n).
Proof. by destruct b. Qed.
Lemma err_byte : err_local read_byte.
Proof.
  intros data post off e o _ _. unfold read_byte, peek_byte.
  destruct (byte_at data off); cbn; intros [=]; subst. left. auto with local.
Qed.
Lemma err_fixed n : err_local (read_fixed n).
Proof.
  intros data post off e o _ _. unfold read_fixed. destruct (_ <? _); intros [=]; subst.
  left. auto with local.
Qed.
Lemma err_payload n : err_local (read_payload n).
Proof.
  intros data post off e o _ _. unfold read_payload.
  destruct (checked_add off n); [destruct (_ <? _)|]; intros [=]; subst; left; auto with local.
Qed.
#[export] Hint Resolve err_bind_ret | 0 : local.
#[export] Hint Resolve err_ret err_fail err_bind err_here err_if err_byte err_fixed err_payload : local.
#[export] Hint Extern 2 (err_local (let '(_, _) := ?p in _)) => destruct p : local.

Lemma err_initial : err_local decode_initial.
Proof. unfold decode_initial. auto with local. Qed.
Lemma err_argument ai s : err_local (decode_argument ai s).
Proof. unfold decode_argument. auto 20 with local. Qed.
Lemma err_simple s ai : err_local (skip_simple s ai).
Proof. unfold skip_simple. auto 20 with local. Qed.
#[export] Hint Resolve err_initial err_argument err_simple : local.

Lemma err_head : err_local read_head.
Proof. unfold read_head. auto 20 with local. Qed.

(** The bookkeeping between two heads. *)
Lemma drain_extend data post owed : forall off,
  match drain data off owed with
  | Finished o => drain (data ++ post) off owed = Finished o
  | Owes o owed' => drain (data ++ post) off owed = Owes o owed'
  | Starved e _ => eof e
  end.
Proof.
  induction owed as [|[n|] owed IH]; intros off; cbn [drain]; [done|..].
  - destruct (n =? 0); [apply IH|done].
  - unfold peek_byte. destruct (byte_at data off) as [b|] eqn:Hb; cbn [ok_or]; [|auto with local].
    assert (Hb' : byte_at (data ++ post) off = Some b) by exact (byte_at_extend [] data post off b Hb).
    rewrite Hb'. cbn [ok_or].
    destruct (b =? BREAK_BYTE); [apply IH|done].
Qed.

Lemma skip_loop_extend data post start fuel : forall off owed r,
  bytes_ok data -> 0 <= off -> blen (data ++ post) <= u64_max ->
  skip_loop fuel data start off owed = Some r ->
  (exists e o, r = (Err e, o) /\ eof e) \/ skip_loop fuel (data ++ post) start off owed = Some r.
Proof.
  induction fuel as [|fuel IH]; intros off owed r Hok Ho Hl H; [done|].
  cbn [skip_loop] in *. rewrite skip_head_read_head in *.
  destruct (read_head data off) as [[h|e] o] eqn:Hh.
  - assert (Hh' : read_head (data ++ post) off = (Ok h, o))
      by exact (read_head_extend [] data post off h o Hok Ho Hl Hh).
    rewrite Hh'.
    pose proof (read_head_bound _ _ _ _ Hok Ho Hh).
    pose proof (drain_extend data post (push h owed) o) as Hdr.
    destruct (drain data o (push h owed)) as [o'|o' owed'|e o'] eqn:Hd.
    + rewrite Hdr. by right.
    + rewrite Hdr. apply drain_owes_le in Hd. apply IH; [done|lia|done..].
    + injection H as <-. left. eauto.
  - destruct (err_head data post off e o Ho Hl Hh) as [?| ->]; [|by right].
    injection H as <-. left. eauto.
Qed.

Lemma skip_item_extend data post off r :
  bytes_ok (data ++ post) -> 0 <= off -> blen (data ++ post) <= u64_max ->
  skip_item data off = r -> (exists e o, r = (Err e, o) /\ eof e) \/ skip_item (data ++ post) off = r.
Proof.
  intros Hok Ho Hl H. pose proof (proj1 (proj1 (bytes_ok_app _ _) Hok)) as Hd.
  apply skip_item_evals in H as [fuel H]; [|done..].
  apply skip_loop_extend with (post := post) in H as [?|H]; [by left| |done..].
  right. apply skip_item_evals; [done..|]. by exists fuel.
Qed.

Lemma grammar_end data :
  bytes_ok data ->
  (forall o o', item data o o' -> 0 <= o -> o < o' <= blen data) /\
  (forall h o o', contents data h o o' -> 0 <= o <= blen data -> o <= o' <= blen data) /\
  (forall n o o', items data n o o' -> 0 <= o <= blen data -> o <= o' <= blen data) /\
  (forall o o', until_break data o o' -> 0 <= o <= blen data -> o <= o' <= blen data).
Proof.
  intros Hd. apply grammar_ind; try (intros; lia).
  - intros o h o1 o2 Hh _ IH Ho. pose proof (read_head_bound _ _ _ _ Hd Ho Hh). lia.
  - intros o Hb Ho. apply byte_at_bound in Hb. lia.
Qed.

Lemma item_end data o o' : bytes_ok data -> 0 <= o -> item data o o' -> o < o' <= blen data.
Proof. intros Hd Ho Hi. by apply (proj1 (grammar_end data Hd)). Qed.

Lemma item_det data o e e' : bytes_ok data -> 0 <= o -> item data o e -> item data o e' -> e = e'.
Proof.
  intros Hd Ho H H'. pose proof (item_skip data o e Hd Ho H) as E.
  rewrite (item_skip data o e' Hd Ho H') in E. congruence.
Qed.

(** * An item needs only its own bytes *)

(** [m] reads the same off a buffer cut anywhere after the bytes it consumes. *)
Definition tight {A} (m : Dec A) : Prop :=
  forall data post off a o, 0 <= off ->
    m (data ++ post) off = (Ok a, o) -> o <= blen data -> m data off = (Ok a, o).
Definition mono {A} (m : Dec A) : Prop :=
  forall data off a o, m data off = (Ok a, o) -> off <= o.

Lemma byte_at_restrict data post off b :
  byte_at (data ++ post) off = Some b -> off < blen data -> byte_at data off = Some b.
Proof.
  intros H Hlt. pose proof (byte_at_bound _ _ _ H). unfold byte_at in *.
  rewrite blen_app in *. destruct (Z.leb_spec 0 off), (Z.ltb_spec off (blen data)); try lia.
  destruct (_ && _); [|done]. cbn. rewrite lookup_app_l in H; [done|]. unfold blen in *. lia.
Qed.

Lemma slice_restrict data post a b :
  0 <= a <= b -> b <= blen data -> slice (data ++ post) a b = slice data a b.
Proof. intros Ha Hb. exact (slice_extend [] data post a b Ha Hb). Qed.

Lemma mono_ret {A} (a : A) : mono (dret a).
Proof. intros data off b o [= <- <-]. lia. Qed.
Lemma mono_fail {A} e : mono (@fail A e).
Proof. intros data off b o [=]. Qed.
Lemma mono_bind {A B} (m : Dec A) (k : A -> Dec B) :
  mono m -> (forall a, mono (k a)) -> mono (dbind m k).
Proof.
  intros Hm Hk data off b o H. apply dbind_ok_inv in H as (a & o1 & Ha & Hb).
  apply Hm in Ha. apply Hk in Hb. lia.
Qed.
Lemma mono_if {A} (b : bool) (m n : Dec A) : mono m -> mono n -> mono (if b then m else n).
Proof. by destruct b. Qed.
Lemma mono_byte : mono read_byte.
Proof. intros data off b o H. apply read_byte_ok in H as [_ ->]. lia. Qed.
Lemma mono_fixed n : 0 <= n -> mono (read_fixed n).
Proof. intros Hn data off b o H. apply read_fixed_ok in H as (_ & -> & _). lia. Qed.
Lemma mono_payload n : 0 <= n -> mono (read_payload n).
Proof. intros Hn data off b o H. apply read_payload_ok in H as (_ & -> & _). lia. Qed.

Lemma tight_ret {A} (a : A) : tight (dret a).
Proof. intros data post off b o _ [= <- <-] _. done. Qed.
Lemma tight_fail {A} e : tight (@fail A e).
Proof. intros data post off b o _ [=]. Qed.
Lemma tight_bind {A B} (m : Dec A) (k : A -> Dec B) :
  mono m -> tight m -> (forall a, tight (k a)) -> (forall a, mono (k a)) -> tight (dbind m k).
Proof.
  intros Hm Ht Hk Hkm data post off b o Ho H Hle. apply dbind_ok_inv in H as (a & o1 & Ha & Hb).
  pose proof (Hm _ _ _ _ Ha). pose proof (Hkm _ _ _ _ _ Hb).
  rewrite (dbind_step _ _ _ _ a o1) by (apply (Ht data post); (done || lia)).
  apply (Hk a data post); (done || lia).
Qed.
Lemma tight_if {A} (b : bool) (m n : Dec A) : tight m -> tight n -> tight (if b then m else n).
Proof. by destruct b. Qed.
Lemma tight_byte : tight read_byte.
Proof.
  intros data post off b o Ho H Hle. apply read_byte_ok in H as [H ->].
  unfold read_byte, peek_byte. by rewrite (byte_at_restrict data post off b H) by lia.
Qed.
Lemma tight_fixed n : 0 <= n -> tight (read_fixed n).
Proof.
  intros Hn data post off b o Ho H Hle. apply read_fixed_ok in H as (-> & -> & _).
  unfold read_fixed. destruct (Z.ltb_spec (blen data) (off + n)); [lia|].
  by rewrite slice_restrict by lia.
Qed.
Lemma tight_payload n : 0 <= n -> tight (read_payload n).
Proof.
  intros Hn data post off b o Ho H Hle. pose proof (read_payload_ok _ _ _ _ _ H) as (-> & -> & _).
  unfold read_payload in *. destruct (checked_add off n) as [e|] eqn:Hc; [|done].
  apply checked_add_some in Hc as [-> _]. destruct (Z.ltb_spec (blen data) (off + n)); [lia|].
  by rewrite slice_restrict by lia.
Qed.
#[export] Hint Resolve mono_ret mono_fail mono_bind mono_if mono_byte
  tight_ret tight_fail tight_bind tight_if tight_byte : local.
#[export] Hint Extern 1 (mono (read_fixed _)) => apply mono_fixed; lia : local.
#[export] Hint Extern 1 (tight (read_fixed _)) => apply tight_fixed; lia : local.
#[export] Hint Extern 2 (mono (let '(_, _) := ?p in _)) => destruct p : local.
#[export] Hint Extern 2 (tight (let '(_, _) := ?p in _)) => destruct p : local.

Lemma mono_argument ai s : mono (decode_argument ai s).
Proof. unfold decode_argument. auto 20 with local. Qed.
Lemma tight_argument ai s : tight (decode_argument ai s).
Proof. unfold decode_argument. auto 20 with local. Qed.
Lemma mono_simple s ai : mono (skip_simple s ai).
Proof. unfold skip_simple. auto 20 with local. Qed.
Lemma tight_simple s ai : tight (skip_simple s ai).
Proof. unfold skip_simple. auto 20 with local. Qed.
Lemma tight_initial : tight decode_initial.
Proof. unfold decode_initial. auto with local. Qed.
#[export] Hint Resolve mono_argument tight_argument mono_simple tight_simple : local.

Lemma read_head_restrict data post off h o :
  bytes_ok (data ++ post) -> 0 <= off -> o <= blen data ->
  read_head (data ++ post) off = (Ok h, o) -> read_head data off = (Ok h, o).
Proof.
  intros Hok Ho Hle H. pose proof (read_head_bound _ _ _ _ Hok Ho H) as Hadv.
  unfold read_head in *. apply dbind_ok_inv in H as (st & o0 & [= <- <-] & H).
  rewrite (dbind_step here _ _ _ off off) by done.
  apply dbind_ok_inv in H as ([major ai] & o1 & Hi & H).
  pose proof (decode_initial_step _ _ _ _ Hi) as ->.
  pose proof (decode_initial_ok _ _ _ _ _ Hi) as (b & _ & _ & _ & Hai).
  pose proof (land_31_bound b).
  rewrite (dbind_step _ _ _ _ (major, ai) (off + 1)) by (apply (tight_initial data post); (done || lia)).
  cbn beta iota in *.
  assert (Hrest : forall m : Dec Head, tight m -> m (data ++ post) (off + 1) = (Ok h, o) ->
            m data (off + 1) = (Ok h, o)) by (intros m Hm Hr; apply (Hm data post); (done || lia)).
  destruct (_ || _); [|destruct (_ || _)]; revert H.
  - apply Hrest. auto 20 with local.
  - destruct (_ =? _); [apply Hrest; auto with local|]. intros H.
    apply dbind_ok_inv in H as ([len w] & o2 & Ha & H). cbn beta iota in H.
    pose proof (decode_argument_ok ai off (data ++ post) (off + 1) len w o2 Hok ltac:(lia) ltac:(lia) Ha) as (Hlen & ? & ?).
    assert (0 <= len) as Hlen0 by (width; lia).
    assert (o2 <= o).
    { eapply (mono_bind _ _ (mono_payload len Hlen0) (fun _ => mono_ret HLeaf)). exact H. }
    rewrite (dbind_step _ _ _ _ (len, w) o2) by (apply (tight_argument ai off data post); (done || lia)).
    cbn beta iota.
    apply (tight_bind _ _ (mono_payload len Hlen0) (tight_payload len Hlen0)
             (fun _ => tight_ret HLeaf) (fun _ => mono_ret HLeaf) data post); (done || lia).
  - apply Hrest. auto 20 with local.
Qed.

Lemma grammar_restrict data post :
  bytes_ok (data ++ post) ->
  (forall o o', item (data ++ post) o o' -> 0 <= o -> o' <= blen data -> item data o o') /\
  (forall h o o', contents (data ++ post) h o o' -> 0 <= o <= blen (data ++ post) -> o' <= blen data -> contents data h o o') /\
  (forall n o o', items (data ++ post) n o o' -> 0 <= o <= blen (data ++ post) -> o' <= blen data -> items data n o o') /\
  (forall o o', until_break (data ++ post) o o' -> 0 <= o <= blen (data ++ post) -> o' <= blen data -> until_break data o o').
Proof.
  intros Hok. destruct (grammar_end (data ++ post) Hok) as (Ei & Ec & En & Eu).
  apply (grammar_ind (data ++ post)
    (fun o o' _ => 0 <= o -> o' <= blen data -> item data o o')
    (fun h o o' _ => 0 <= o <= blen (data ++ post) -> o' <= blen data -> contents data h o o')
    (fun n o o' _ => 0 <= o <= blen (data ++ post) -> o' <= blen data -> items data n o o')
    (fun o o' _ => 0 <= o <= blen (data ++ post) -> o' <= blen data -> until_break data o o'));
    try (eauto 4 with grammar; fail).
  - intros o h o1 o2 Hh Hc IH Ho Hle. pose proof (read_head_bound _ _ _ _ Hok Ho Hh).
    specialize (Ec _ _ _ Hc ltac:(lia)).
    apply (item_intro _ _ h o1); [apply (read_head_restrict data post); (done || lia)|apply IH; lia].
  - intros n o o1 o2 Hn Hi IH1 Hr IH2 Ho Hle. specialize (Ei _ _ Hi ltac:(lia)).
    specialize (En _ _ _ Hr ltac:(lia)). apply (items_cons _ n o o1); [done|apply IH1; lia|apply IH2; lia].
  - intros o Hb Ho Hle. constructor. apply (byte_at_restrict _ post); [done|lia].
  - intros o b o1 o2 Hb Hn Hi IH1 Hr IH2 Ho Hle. specialize (Ei _ _ Hi ltac:(lia)).
    specialize (Eu _ _ Hr ltac:(lia)).
    apply (until_more _ o b o1); [apply (byte_at_restrict _ post); [done|lia]|done|apply IH1; lia|apply IH2; lia].
Qed.

Lemma item_restrict data post o o' :
  bytes_ok (data ++ post) -> 0 <= o -> o' <= blen data -> item (data ++ post) o o' -> item data o o'.
Proof. intros Hok Ho Hle Hi. by apply (proj1 (grammar_restrict data post Hok)). Qed.

Lemma skip_prefix_eof data rest :
  bytes_ok (data ++ rest) -> blen (data ++ rest) <= u64_max ->
  item (data ++ rest) 0 (blen (data ++ rest)) -> rest <> [] ->
  exists e o, skip_item data 0 = (Err e, o) /\ eof e.
Proof.
  intros Hok Hl Hi Hne.
  assert (Hrest : 0 < blen rest) by (destruct rest; [done|rewrite blen_cons; pose proof (blen_nonneg rest); lia]).
  pose proof (proj1 (proj1 (bytes_ok_app _ _) Hok)) as Hd.
  destruct (skip_item_extend data rest 0 _ Hok ltac:(lia) Hl eq_refl) as [(e & o & -> & He)|E]; [eauto|].
  rewrite (item_skip _ 0 _ Hok (Z.le_refl 0) Hi) in E. symmetry in E.
  apply skip_item_spec in E as (_ & _ & Hi'); [|done|lia].
  apply item_end in Hi'; [|done|lia]. rewrite blen_app in Hi'. lia.
Qed.

(** Reading items off a stream that is still arriving: with any part of an item missing at
    its end [skip_item] reports end-of-input, and any other error it reports on a buffer
    it also reports, at the same offset, on every longer one. *)
Theorem skip_item_streaming data rest
    (Hok : bytes_ok (data ++ rest)) (Hl : blen (data ++ rest) <= u64_max) :
  (item (data ++ rest) 0 (blen (data ++ rest)) -> rest <> [] ->
     exists off needed o, skip_item data 0 = (Err (UnexpectedEof off needed), o)) /\
  (forall e o, skip_item data 0 = (Err e, o) ->
     (exists off needed, e = UnexpectedEof off needed) \/
     skip_item (data ++ rest) 0 = (Err e, o)) /\
  (forall s e o, skip_item data 0 = (Ok (s, e), o) -> skip_item (data ++ rest) 0 = (Ok (s, e), o)).
Proof.
  split_and!.
  - intros Hi Hne. destruct (skip_prefix_eof data rest Hok Hl Hi Hne) as (e & o & H & a & b & ->). eauto.
  - intros e o H. destruct (skip_item_extend data rest 0 _ Hok ltac:(lia) Hl H) as [(e' & o' & [= <- <-] & He)|E]; auto.
  - intros s e o H. destruct (skip_item_extend data rest 0 _ Hok ltac:(lia) Hl H) as [(e' & o' & [=] & _)|E]; done.
Qed.

Lemma skip_item_streaming_witness :
  exists off needed o, skip_item [0x82; 0x01; 0x43; 7] 0 = (Err (UnexpectedEof off needed), o).
Proof.
  apply (proj1 (skip_item_streaming [0x82; 0x01; 0x43; 7] [8; 9]
    ltac:(repeat constructor; vm_compute; congruence) ltac:(vm_compute; congruence))); [|done].
  apply (proj1 (skip_item_spec [0x82; 0x01; 0x43; 7; 8; 9] 0 0 6 6
    ltac:(repeat constructor; vm_compute; congruence) ltac:(lia))). reflexivity.
Defined.

(** * The items of RFC 8949, on byte strings *)

(** A head of major type [major] whose argument is [n]: the value itself below 24, or one
    of 24 to 27 and then the value in 1, 2, 4 or 8 bytes, most significant first. *)
Inductive announces (major n : Z) : list Z -> Prop :=
| announces_inline : 0 <= n < 24 -> announces major n [32 * major + n]
| announces_longer ai k :
    In (ai, k) [(24, 1%nat); (25, 2%nat); (26, 4%nat); (27, 8%nat)] ->
    0 <= n < 256 ^ Z.of_nat k -> announces major n (32 * major + ai :: to_be k n).

(** Definite strings of one major type, one after the other. *)
Inductive chunks (major : Z) : list Z -> Prop :=
| chunks_nil : chunks major []
| chunks_cons h s rest :
    announces major (blen s) h -> chunks major rest -> chunks major (h ++ s ++ rest).

(** [well_formed lenient w]: the bytes [w] are one data item.  With [lenient = false] this
    is well-formedness in RFC 8949, section 3.  [lenient = true] adds the three liberties
    the skipper takes: any items as the chunks of an indefinite string, a key without a
    value at the end of an indefinite map, and a one-byte simple value below 32. *)
Section WellFormed.
Variable lenient : bool.

Inductive well_formed : list Z -> Prop :=
| wf_int major n h : major = 0 \/ major = 1 -> announces major n h -> well_formed h
| wf_string major s h :
    major = 2 \/ major = 3 -> announces major (blen s) h -> well_formed (h ++ s)
| wf_array n h body : announces 4 n h -> items_of n body -> well_formed (h ++ body)
| wf_map n h body : announces 5 n h -> items_of (2 * n) body -> well_formed (h ++ body)
| wf_tag n h body : announces 6 n h -> items_of 1 body -> well_formed (h ++ body)
| wf_simple n h :
    announces 7 n h -> lenient = true \/ (forall x, h = [248; x] -> 32 <= x) -> well_formed h
| wf_chunks major body :
    major = 2 \/ major = 3 -> chunks major body ->
    well_formed (32 * major + 31 :: body ++ [255])
| wf_any_chunks major n body :
    lenient = true -> major = 2 \/ major = 3 -> items_of n body ->
    well_formed (32 * major + 31 :: body ++ [255])
| wf_open_array n body : items_of n body -> well_formed (32 * 4 + 31 :: body ++ [255])
| wf_open_map n body :
    items_of n body -> lenient = true \/ Z.Even n -> well_formed (32 * 5 + 31 :: body ++ [255])
with items_of : Z -> list Z -> Prop :=
| items_of_nil : items_of 0 []
| items_of_cons n w rest : well_formed w -> items_of n rest -> items_of (1 + n) (w ++ rest).
End WellFormed.

Scheme well_formed_mut := Induction for well_formed Sort Prop
with items_of_mut := Induction for items_of Sort Prop.
Combined Scheme well_formed_both from well_formed_mut, items_of_mut.

#[export] Hint Constructors announces well_formed items_of chunks : grammar.

(** ** Heads *)

Lemma initial_sum m x : 0 <= m < 8 -> 0 <= x < 32 -> Z.lor (as_u8 (Z.shiftl m 5)) x = 32 * m + x.
Proof.
  intros Hm Hx. pose (f x m := Z.lor (as_u8 (Z.shiftl m 5)) x =? 32 * m + x).
  assert (forallb (fun x => forallb (f x) (below 8)) (below 32) = true) as Hall by reflexivity.
  pose proof (below_forall _ _ x Hall Hx) as Hall'. cbn beta in Hall'.
  pose proof (below_forall _ _ m Hall' Hm) as Hf. unfold f in Hf. lia.
Qed.

Lemma announces_written major n h :
  0 <= major < 8 ->
  announces major n h <-> exists w, width_fits n w /\ h = write_argument [] major n w.
Proof.
  intros Hm. split.
  - intros [Hn|ai k Hin Hn].
    + exists Inline. split; [cbn; lia|]. rewrite write_argument_bytes by (cbn; lia).
      cbn. by rewrite initial_sum by lia.
    + cbn in Hin.
      destruct Hin as [[= <- <-]|[[= <- <-]|[[= <- <-]|[[= <- <-]|[]]]]];
        [exists I8|exists I16|exists I32|exists I64];
        (split; [cbn; width; cbn in Hn; lia|]); rewrite write_argument_bytes by (cbn; width; cbn in Hn; lia);
        cbn [width_ai width_len app]; by rewrite initial_sum by (unfold AI_ONE_BYTE, AI_TWO_BYTES, AI_FOUR_BYTES, AI_EIGHT_BYTES; lia).
  - intros (w & Hw & ->). rewrite write_argument_bytes by done.
    destruct (width_ai_bound n w Hw) as [Hai _]. rewrite initial_sum by done.
    destruct w; cbn [width_ai width_len app] in *; cbn in Hw; [apply announces_inline; lia|..];
      (apply announces_longer; [cbn; tauto|revert Hw; width; cbn; lia]).
Qed.

(** The head and, for a leaf, all that belongs to it. *)
Inductive opens : Head -> list Z -> Prop :=
| opens_int major n h : major = 0 \/ major = 1 -> announces major n h -> opens HLeaf h
| opens_string major s h :
    major = 2 \/ major = 3 -> announces major (blen s) h -> opens HLeaf (h ++ s)
| opens_simple n h : announces 7 n h -> opens HLeaf h
| opens_tag n h : announces 6 n h -> opens HTag h
| opens_items n h : announces 4 n h -> opens (HItems n) h
| opens_pairs n h : announces 5 n h -> opens (HPairs n) h
| opens_chunks major : major = 2 \/ major = 3 -> opens HUntil [32 * major + 31]
| opens_array : opens HUntil [32 * 4 + 31]
| opens_map : opens HUntilPairs [32 * 5 + 31].
#[export] Hint Constructors opens : grammar.

(** The simple values carry an argument like every other head. *)
Lemma skip_simple_argument start ai data off o :
  skip_simple start ai data off = (Ok tt, o) <->
  exists v w, decode_argument ai start data off = (Ok (v, w), o).
Proof.
  unfold skip_simple, decode_argument, dbind.
  repeat match goal with |- context [if ?b then _ else _] => destruct b end;
    unfold dret, fail; try (destruct (read_byte data off) as [[?|?] ?]);
    repeat match goal with |- context [read_fixed ?n data off] => destruct (read_fixed n data off) as [[?|?] ?] end;
    split; try (intros [=]; subst; eauto; fail); intros (? & ? & [=]); by subst.
Qed.

Lemma argument_announces data off major ai s v w o :
  bytes_ok data -> 0 <= off ->
  decode_initial data off = (Ok (major, ai), off + 1) ->
  decode_argument ai s data (off + 1) = (Ok (v, w), o) ->
  announces major v (slice data off o) /\ off + 1 <= o <= blen data /\ is_u64 v.
Proof.
  intros Hd Ho Hi Ha. destruct (arg_reencode _ _ _ _ _ _ _ _ Hd Ho Hi Ha) as [Hw Hs].
  apply decode_initial_ok in Hi as (b & Hb & _ & -> & ->).
  pose proof (byte_at_bound _ _ _ Hb) as Hin.
  pose proof (land_31_bound b). destruct (initial_join b (byte_at_ok _ _ _ Hd Hb)) as [_ Hm].
  apply decode_argument_ok in Ha as (Hv & ? & ?); [|done|lia|lia].
  split_and!; [apply announces_written; eauto|lia|lia|done].
Qed.

Lemma indefinite_byte data off major :
  bytes_ok data -> decode_initial data off = (Ok (major, AI_INDEFINITE), off + 1) ->
  slice data off (off + 1) = [32 * major + 31] /\ off + 1 <= blen data.
Proof.
  intros Hd Hi. apply decode_initial_ok in Hi as (b & Hb & _ & -> & Hai).
  pose proof (byte_at_bound _ _ _ Hb). rewrite (slice_cons _ _ _ _ Hb), slice_nil by lia.
  destruct (initial_join b (byte_at_ok _ _ _ Hd Hb)) as [Hj Hm]. split; [|lia]. f_equal.
  rewrite <- Hj at 1. rewrite <- Hai. by rewrite initial_sum by (unfold AI_INDEFINITE; lia).
Qed.

(** ** Reading a head, in both directions *)

(** An integer below 24 has no argument bytes to read. *)
Lemma int_argument ai s data off h o :
  (if ai <? AI_ONE_BYTE then dret HLeaf
   else do! _ := decode_argument ai s in dret HLeaf) data off = (Ok h, o) <->
  h = HLeaf /\ exists v w, decode_argument ai s data off = (Ok (v, w), o).
Proof.
  destruct (Z.ltb_spec ai AI_ONE_BYTE) as [Hs|Hs]; unfold dret, dbind.
  - unfold decode_argument, AI_ONE_BYTE in *. destruct (Z.leb_spec ai 23); [|lia]. unfold dret.
    split; [intros [=]; subst; eauto|]. intros (-> & ? & ? & [=]); by subst.
  - destruct (decode_argument ai s data off) as [[[v w]|e] o'].
    + split; [intros [=]; subst; eauto|]. intros (-> & ? & ? & [=]); by subst.
    + split; [done|]. by intros (_ & ? & ? & ?).
Qed.

Section HeadRead.
Variables (data : list Z) (off major ai : Z).
Hypothesis Hd : bytes_ok data.
Hypothesis Ho : 0 <= off.
Hypothesis Hi : decode_initial data off = (Ok (major, ai), off + 1).

Lemma string_opens h o :
  major = 2 \/ major = 3 ->
  (if ai =? AI_INDEFINITE then dret HUntil
   else do! (len, _) := decode_argument ai off in do! _ := read_payload len in dret HLeaf)
    data (off + 1) = (Ok h, o) -> opens h (slice data off o).
Proof.
  intros Hm H. destruct (Z.eqb_spec ai AI_INDEFINITE) as [E|_].
  - injection H as <- <-. rewrite E in Hi.
    rewrite (proj1 (indefinite_byte _ _ _ Hd Hi)). by constructor.
  - apply dbind_ok_inv in H as ([len w] & o2 & Ha & H). cbn beta iota in H.
    apply dbind_ok_inv in H as (s & o3 & Hp & [= <- <-]).
    destruct (argument_announces _ _ _ _ _ _ _ _ Hd Ho Hi Ha) as (Hann & ? & Hl).
    apply read_payload_ok in Hp as (-> & -> & ?). unfold is_u64 in Hl.
    rewrite <- (slice_join data off o2 (o2 + len)) by lia. apply (opens_string major); [done|].
    rewrite blen_slice by lia. by replace (o2 + len - o2) with len by lia.
Qed.

Lemma container_opens h (f : Z -> Head) u o :
  (forall n w, announces major n w -> opens (f n) w) -> opens u [32 * major + 31] ->
  (if ai =? AI_INDEFINITE then dret u
   else do! (count, _) := decode_argument ai off in dret (f count)) data (off + 1) = (Ok h, o) ->
  opens h (slice data off o).
Proof.
  intros Hf Hu H. destruct (Z.eqb_spec ai AI_INDEFINITE) as [E|_].
  - injection H as <- <-. rewrite E in Hi. by rewrite (proj1 (indefinite_byte _ _ _ Hd Hi)).
  - apply dbind_ok_inv in H as ([n w] & o2 & Ha & [= <- <-]). apply Hf.
    apply (argument_announces _ _ _ _ _ _ _ _ Hd Ho Hi Ha).
Qed.
End HeadRead.

Lemma read_head_opens data off h o :
  bytes_ok data -> 0 <= off -> read_head data off = (Ok h, o) -> opens h (slice data off o).
Proof.
  intros Hd Ho H. unfold read_head in H.
  apply dbind_ok_inv in H as (start & o0 & [= <- <-] & H).
  apply dbind_ok_inv in H as ([major ai] & o1 & Hi & H). cbn beta iota in H.
  pose proof (decode_initial_step _ _ _ _ Hi) as ->.
  pose proof (decode_initial_ok _ _ _ _ _ Hi) as (b & Hb & _ & Hmaj & _).
  destruct (initial_join b (byte_at_ok _ _ _ Hd Hb)) as [_ Hm]. rewrite <- Hmaj in Hm. clear b Hb Hmaj.
  assert (Hann : forall v w o', decode_argument ai off data (off + 1) = (Ok (v, w), o') ->
    announces major v (slice data off o')) by (intros; by eapply argument_announces).
  unfold MAJOR_UNSIGNED, MAJOR_NEGATIVE, MAJOR_BYTES, MAJOR_TEXT, MAJOR_ARRAY, MAJOR_MAP, MAJOR_TAG in H.
  assert (Hcases : major = 0 \/ major = 1 \/ major = 2 \/ major = 3 \/ major = 4 \/ major = 5 \/ major = 6 \/ major = 7) by lia.
  destruct Hcases as [-> |[-> |[-> |[-> |[-> |[-> |[-> | ->]]]]]]]; cbn [Z.eqb Pos.eqb orb] in H.
  - apply int_argument in H as (-> & v & w & Ha). eauto with grammar.
  - apply int_argument in H as (-> & v & w & Ha). eauto with grammar.
  - by apply (string_opens _ _ _ _ Hd Ho Hi); auto.
  - by apply (string_opens _ _ _ _ Hd Ho Hi); auto.
  - eapply (container_opens _ _ _ _ Hd Ho Hi) in H; eauto with grammar.
  - eapply (container_opens _ _ _ _ Hd Ho Hi) in H; eauto with grammar.
  - apply dbind_ok_inv in H as ([n w] & o2 & Ha & [= <- <-]). eauto with grammar.
  - apply dbind_ok_inv in H as ([] & o2 & Ha & [= <- <-]).
    apply skip_simple_argument in Ha as (v & w & Ha). eauto with grammar.
Qed.

(** The two steps every head with an argument starts with. *)
Lemma announced_steps pre post major n h start :
  0 <= major < 8 -> announces major n h ->
  exists ai w, ai <> AI_INDEFINITE /\
    decode_initial (pre ++ h ++ post) (blen pre) = (Ok (major, ai), blen pre + 1) /\
    decode_argument ai start (pre ++ h ++ post) (blen pre + 1) = (Ok (n, w), blen pre + blen h).
Proof.
  intros Hm Ha. apply announces_written in Ha as (w & Hw & ->); [|done].
  destruct (read_written pre major n w post start Hm Hw) as [Hi Harg].
  rewrite (write_argument_app pre), <- app_assoc in Hi, Harg by done.
  exists (width_ai n w), w. rewrite Harg, blen_app. split_and!; [|done..]. by apply width_ai_bound.
Qed.

Lemma open_step pre post major :
  0 <= major < 8 ->
  decode_initial (pre ++ (32 * major + 31) :: post) (blen pre) =
    (Ok (major, AI_INDEFINITE), blen pre + 1).
Proof. intros Hm. rewrite <- (initial_sum major 31) by lia. apply decode_initial_at; [done|]. unfold AI_INDEFINITE. lia. Qed.

Lemma opens_read_head pre post h w :
  opens h w -> blen (pre ++ w ++ post) <= u64_max ->
  read_head (pre ++ w ++ post) (blen pre) = (Ok h, blen pre + blen w).
Proof.
  intros Hop Hl. unfold read_head. unfold dbind at 1, here. unfold dbind at 1.
  unfold MAJOR_UNSIGNED, MAJOR_NEGATIVE, MAJOR_BYTES, MAJOR_TEXT, MAJOR_ARRAY, MAJOR_MAP, MAJOR_TAG.
  destruct Hop as [major n h Hm Ha|major s h Hm Ha|n h Ha|n h Ha|n h Ha|n h Ha|major Hm| |].
  - destruct (announced_steps pre post major n h (blen pre) ltac:(lia) Ha) as (ai & w & _ & -> & Harg).
    destruct Hm as [-> | ->]; cbn [Z.eqb Pos.eqb orb]; apply int_argument; eauto.
  - rewrite <- app_assoc in *.
    destruct (announced_steps pre (s ++ post) major (blen s) h (blen pre) ltac:(lia) Ha)
      as (ai & w & Hne & -> & Harg).
    assert (Hp : read_payload (blen s) (pre ++ h ++ s ++ post) (blen pre + blen h) =
      (Ok s, blen pre + blen (h ++ s))).
    { rewrite app_assoc in *. rewrite <- blen_app, read_payload_at; rewrite !blen_app in *;
        [by rewrite Z.add_assoc|pose proof (blen_nonneg post); lia]. }
    destruct Hm as [-> | ->]; cbn [Z.eqb Pos.eqb orb];
      (destruct (Z.eqb_spec ai AI_INDEFINITE); [done|]); unfold dbind; by rewrite Harg, Hp.
  - destruct (announced_steps pre post 7 n h (blen pre) ltac:(lia) Ha) as (ai & w & _ & -> & Harg).
    cbn [Z.eqb Pos.eqb orb]. unfold dbind. by rewrite (proj2 (skip_simple_argument _ _ _ _ _)) by eauto.
  - destruct (announced_steps pre post 6 n h (blen pre) ltac:(lia) Ha) as (ai & w & _ & -> & Harg).
    cbn [Z.eqb Pos.eqb orb]. unfold dbind. by rewrite Harg.
  - destruct (announced_steps pre post 4 n h (blen pre) ltac:(lia) Ha) as (ai & w & Hne & -> & Harg).
    cbn [Z.eqb Pos.eqb orb]. destruct (Z.eqb_spec ai AI_INDEFINITE); [done|]. unfold dbind. by rewrite Harg.
  - destruct (announced_steps pre post 5 n h (blen pre) ltac:(lia) Ha) as (ai & w & Hne & -> & Harg).
    cbn [Z.eqb Pos.eqb orb]. destruct (Z.eqb_spec ai AI_INDEFINITE); [done|]. unfold dbind. by rewrite Harg.
  - cbn [app] in *. rewrite open_step by lia. by destruct Hm as [-> | ->].
  - cbn [app] in *. by rewrite (open_step pre post 4) by lia.
  - cbn [app] in *. by rewrite (open_step pre post 5) by lia.
Qed.

(** ** From byte strings to what the skipper follows *)

Lemma items_nonneg {data} n o o' : items data n o o' -> 0 <= n.
Proof. induction 1; lia. Qed.

(** Everything well formed in RFC 8949 is well formed for the skipper. *)
Lemma strict_lenient w : well_formed false w -> well_formed true w.
Proof.
  apply (well_formed_mut false (fun w _ => well_formed true w) (fun n b _ => items_of true n b));
    eauto with grammar.
Qed.

Lemma items_until data n o e :
  bytes_ok data -> 0 <= o -> items data n o e -> byte_at data e = Some BREAK_BYTE ->
  until_break data o (e + 1).
Proof.
  intros Hd Ho Hi Hb. induction Hi as [o|n o o1 o2 Hn Hi Hr IH]; [by constructor|].
  pose proof (item_end _ _ _ Hd Ho Hi). destruct (item_head_byte _ _ _ Hd Ho Hi) as (b & Hbo & Hne).
  eapply until_more; [done..|]. apply IH; [lia|done].
Qed.

(** Wherever the bytes [w] stand, they span [P]. *)
Definition in_context (P : list Z -> Z -> Z -> Prop) (w : list Z) : Prop :=
  forall pre post, bytes_ok (pre ++ w ++ post) -> blen (pre ++ w ++ post) <= u64_max ->
    P (pre ++ w ++ post) (blen pre) (blen pre + blen w).
Abbreviation items_here n := (in_context (fun data => items data n)).

Lemma nil_here (P : list Z -> Z -> Z -> Prop) : (forall data o, P data o o) -> in_context P [].
Proof. intros HP pre post _ _. change (blen []) with 0. rewrite Z.add_0_r. apply HP. Qed.

Lemma cons_here n w rest : in_context item w -> items_here n rest -> items_here (1 + n) (w ++ rest).
Proof.
  intros Hw Hr pre post Hok Hl. rewrite <- app_assoc in *.
  specialize (Hw pre (rest ++ post) Hok Hl). specialize (Hr (pre ++ w) post).
  rewrite <- !app_assoc, !blen_app, <- !Z.add_assoc in Hr. rewrite blen_app.
  specialize (Hr Hok). rewrite !blen_app in *. specialize (Hr ltac:(lia)).
  pose proof (items_nonneg _ _ _ Hr). eapply items_cons; [lia|exact Hw|].
  by replace (1 + n - 1) with n by lia.
Qed.

(** A head, then its contents. *)
Lemma head_here hd h body :
  opens hd h -> in_context (fun data => contents data hd) body -> in_context item (h ++ body).
Proof.
  intros Hop Hc pre post Hok Hl. rewrite <- app_assoc in *.
  eapply item_intro; [by apply opens_read_head|].
  rewrite app_assoc in *. rewrite blen_app, Z.add_assoc, <- blen_app. by apply Hc.
Qed.

Lemma leaf_here h : opens HLeaf h -> in_context item h.
Proof.
  intros Hop. rewrite <- (app_nil_r h). apply (head_here HLeaf); [done|].
  apply nil_here. intros. constructor.
Qed.

(** Items, then the break that closes the container. *)
Lemma open_here hd major n body :
  opens hd [32 * major + 31] ->
  (forall data o e, until_break data o e -> contents data hd o e) ->
  items_here n body -> in_context item (32 * major + 31 :: body ++ [255]).
Proof.
  intros Hop Hu Hi. apply (head_here hd [32 * major + 31]); [done|].
  intros pre post Hok Hl. apply Hu. rewrite <- app_assoc in *. rewrite blen_app, Z.add_assoc.
  apply (items_until _ n); [done|apply blen_nonneg|by apply Hi|].
  rewrite <- blen_app, app_assoc. apply byte_at_here.
Qed.

Lemma chunks_here major body :
  major = 2 \/ major = 3 -> chunks major body -> exists n, items_here n body.
Proof.
  intros Hm. induction 1 as [|h s rest Ha _ [n IH]].
  - exists 0. apply nil_here. intros. constructor.
  - exists (1 + n). rewrite app_assoc. apply cons_here; [|done]. apply leaf_here. eauto with grammar.
Qed.

Lemma well_formed_here w : well_formed true w -> in_context item w.
Proof.
  apply (well_formed_mut true (fun w _ => in_context item w) (fun n b _ => items_here n b));
    try (intros; apply leaf_here; eauto with grammar; fail).
  - intros n h body Ha _ IH. apply (head_here (HItems n)); [by constructor|].
    intros pre post Hok Hl. constructor. by apply IH.
  - intros n h body Ha _ IH. apply (head_here (HPairs n)); [by constructor|].
    intros pre post Hok Hl. constructor. rewrite Z.mul_comm. by apply IH.
  - intros n h body Ha _ IH. apply (head_here HTag); [by eapply opens_tag|].
    intros pre post Hok Hl. constructor. by apply IH.
  - intros major body Hm Hc. destruct (chunks_here major body Hm Hc) as [n Hn].
    apply (open_here HUntil _ n); eauto with grammar.
  - intros major n body _ Hm _ IH. apply (open_here HUntil _ n); eauto with grammar.
  - intros n body _ IH. apply (open_here HUntil _ n); eauto with grammar.
  - intros n body _ IH _. apply (open_here HUntilPairs _ n); eauto with grammar.
  - apply nil_here. intros. constructor.
  - intros n u rest _ Hu _ Hr. by apply cons_here.
Qed.

(** ** And back *)

(** What stands after a head, in bytes. *)
Definition filled (hd : Head) (rest : list Z) : Prop :=
  match hd with
  | HLeaf => rest = []
  | HTag => items_of true 1 rest
  | HItems n => items_of true n rest
  | HPairs n => items_of true (2 * n) rest
  | HUntil | HUntilPairs => exists n body, items_of true n body /\ rest = body ++ [255]
  end.

Lemma opened_filled hd h rest : opens hd h -> filled hd rest -> well_formed true (h ++ rest).
Proof.
  intros Hop Hf. destruct Hop; cbn [filled] in Hf;
    first [ subst rest; rewrite app_nil_r | destruct Hf as (n' & body & Hf & ->); cbn [app] | idtac ];
    eauto with grammar.
Qed.

Lemma skipped_well_formed data :
  bytes_ok data ->
  (forall o e, item data o e -> 0 <= o -> well_formed true (slice data o e)) /\
  (forall h o e, contents data h o e -> 0 <= o <= blen data -> filled h (slice data o e)) /\
  (forall n o e, items data n o e -> 0 <= o <= blen data -> items_of true n (slice data o e)) /\
  (forall o e, until_break data o e -> 0 <= o <= blen data ->
     exists n body, items_of true n body /\ slice data o e = body ++ [255]).
Proof.
  intros Hd. destruct (grammar_end data Hd) as (Ei & Ec & En & Eu).
  apply (grammar_ind data
    (fun o e _ => 0 <= o -> well_formed true (slice data o e))
    (fun h o e _ => 0 <= o <= blen data -> filled h (slice data o e))
    (fun n o e _ => 0 <= o <= blen data -> items_of true n (slice data o e))
    (fun o e _ => 0 <= o <= blen data ->
     exists n body, items_of true n body /\ slice data o e = body ++ [255]));
    try (intros; cbn [filled]; auto; fail).
  - intros o h o1 o2 Hh Hc IH Ho. pose proof (read_head_bound _ _ _ _ Hd Ho Hh).
    specialize (Ec _ _ _ Hc ltac:(lia)). rewrite <- (slice_join data o o1 o2) by lia.
    apply (opened_filled h); [by apply read_head_opens|apply IH; lia].
  - intros o _. apply slice_nil.
  - intros n o e Hi IH Ho. cbn [filled]. rewrite Z.mul_comm. by apply IH.
  - intros o _. rewrite slice_nil. constructor.
  - intros n o o1 o2 Hn Hi IH1 Hr IH2 Ho. specialize (Ei _ _ Hi ltac:(lia)).
    specialize (En _ _ _ Hr ltac:(lia)). rewrite <- (slice_join data o o1 o2) by lia.
    replace n with (1 + (n - 1)) by lia. constructor; [apply IH1|apply IH2]; lia.
  - intros o Hb _. exists 0, []. split; [constructor|].
    rewrite (slice_cons _ _ _ _ Hb), slice_nil by lia. done.
  - intros o b o1 o2 Hb Hne Hi IH1 Hu IH2 Ho. specialize (Ei _ _ Hi ltac:(lia)).
    specialize (Eu _ _ Hu ltac:(lia)). destruct (IH2 ltac:(lia)) as (n & body & Hn & E).
    exists (1 + n), (slice data o o1 ++ body). split; [constructor; [apply IH1; lia|done]|].
    by rewrite <- (slice_join data o o1 o2), E, app_assoc by lia.
Qed.

Lemma item_well_formed data off o :
  bytes_ok data -> blen data <= u64_max -> 0 <= off ->
  item data off o <->
  exists pre w post, data = pre ++ w ++ post /\ off = blen pre /\ o = off + blen w /\ well_formed true w.
Proof.
  intros Hd Hl Ho. split.
  - intros Hi. pose proof (item_end _ _ _ Hd Ho Hi).
    exists (slice data 0 off), (slice data off o), (slice data o (blen data)).
    rewrite !blen_slice, !slice_join, slice_all by lia. split_and!; [done|lia..|].
    by apply (proj1 (skipped_well_formed data Hd)).
  - intros (pre & w & post & -> & -> & -> & Hw). by apply well_formed_here.
Qed.


(** A map with one pair, between other bytes. *)
Definition toy_map : list Z := [0xa1; 0x01; 0x82; 0x18; 0x64; 0xf6].

Lemma toy_map_well_formed : well_formed false toy_map.
Proof.
  apply (wf_map false 1 [0xa1] [0x01; 0x82; 0x18; 0x64; 0xf6]); [by apply announces_inline|].
  apply (items_of_cons false 1 [0x01] [0x82; 0x18; 0x64; 0xf6]).
  { apply (wf_int false 0 1); [by left|by apply announces_inline]. }
  apply (items_of_cons false 0 [0x82; 0x18; 0x64; 0xf6] []); [|constructor].
  apply (wf_array false 2 [0x82] [0x18; 0x64; 0xf6]); [by apply announces_inline|].
  apply (items_of_cons false 1 [0x18; 0x64] [0xf6]).
  { apply (wf_int false 0 100); [by left|]. apply (announces_longer 0 100 24 1); [by left|done]. }
  apply (items_of_cons false 0 [0xf6] []); [|constructor].
  apply (wf_simple false 22); [by apply announces_inline|]. right. by intros x [=].
Qed.

