(* ===== verification/Envelope.v ===== *)
(** The two byte envelopes every block passes through: the HardForkCombinator
    envelope [[era, block]] of [ade_codec/src/cbor/envelope.rs] with the era
    discriminants of [ade_types/src/era.rs], and the tag-24 CBOR-in-CBOR wrap
    of [ade_codec/src/cbor/tag24.rs]. *)

From S2P Require Import Prelude Cbor CborSkip CborRoundtrip.

(** * Eras *)

Inductive CardanoEra : Type :=
| ByronEbb | ByronRegular | Shelley | Allegra | Mary | Alonzo | Babbage | Conway.

#[global] Instance CardanoEra_eq_dec : EqDecision CardanoEra.
Proof. solve_decision. Defined.

Definition ALL : list CardanoEra :=
  [ByronEbb; ByronRegular; Shelley; Allegra; Mary; Alonzo; Babbage; Conway].

Definition as_u8_era (era : CardanoEra) : Z :=
  match era with
  | ByronEbb => 0 | ByronRegular => 1 | Shelley => 2 | Allegra => 3
  | Mary => 4 | Alonzo => 5 | Babbage => 6 | Conway => 7
  end.

Definition as_str (era : CardanoEra) : string :=
  match era with
  | ByronEbb => "byron_ebb"
  | ByronRegular => "byron_regular"
  | Shelley => "shelley"
  | Allegra => "allegra"
  | Mary => "mary"
  | Alonzo => "alonzo"
  | Babbage => "babbage"
  | Conway => "conway"
  end.

Definition is_byron (era : CardanoEra) : bool :=
  match era with ByronEbb | ByronRegular => true | _ => false end.

Definition is_praos (era : CardanoEra) : bool :=
  match era with Babbage | Conway => true | _ => false end.

(** [TryFrom<u8>]: the error carries the offending tag. *)
Definition era_try_from (tag : Z) : result CardanoEra Z :=
  if tag =? 0 then Ok ByronEbb
  else if tag =? 1 then Ok ByronRegular
  else if tag =? 2 then Ok Shelley
  else if tag =? 3 then Ok Allegra
  else if tag =? 4 then Ok Mary
  else if tag =? 5 then Ok Alonzo
  else if tag =? 6 then Ok Babbage
  else if tag =? 7 then Ok Conway
  else Err tag.

Lemma era_try_from_as_u8 era : era_try_from (as_u8_era era) = Ok era.
Proof. by destruct era. Qed.

Lemma era_try_from_ok tag era : era_try_from tag = Ok era -> tag = as_u8_era era.
Proof.
  unfold era_try_from.
  repeat match goal with |- context [?a =? ?b] => destruct (Z.eqb_spec a b) as [->|_] end;
    intros [=]; by subst.
Qed.

(** * The block envelope *)

Record BlockEnvelope : Type := mk_BlockEnvelope {
  era : CardanoEra;
  block_start : Z;
  block_end : Z;
}.

Definition decode_block_envelope (data : list Z) : result BlockEnvelope CodecError :=
  if blen data =? 0 then Err (UnexpectedEof 0 1) else
  fst ((
    do! encoding := read_array_header in
    do! _ :=
      match encoding with
      | Definite n _ =>
          if n =? 2 then dret tt
          else fail (InvalidCborStructure 0
                 (if n <? 2 then "block envelope array has fewer than 2 elements"
                  else "block envelope array has more than 2 elements"))
      | Indefinite =>
          fail (InvalidCborStructure 0 "block envelope must be definite-length array")
      end in
    do! (tag_value, _) := read_uint in
    if 255 <? tag_value then fail (UnknownEraTag 255) else
    match era_try_from (as_u8 tag_value) with
    | Err tag => fail (UnknownEraTag tag)
    | Ok era =>
        do! block_start := here in
        do! (_, block_end) := skip_item in
        do! offset := here in
        if negb (offset =? blen data) then fail (TrailingBytes offset (blen data))
        else dret (mk_BlockEnvelope era block_start block_end)
    end) data 0).

Definition encode_block_envelope (era : CardanoEra) (block_bytes : list Z) : list Z :=
  let out := write_array_header [] (Definite 2 Inline) in
  let out := write_uint_canonical out (as_u8_era era) in
  out ++ block_bytes.

(** * The tag-24 envelope *)

Definition TAG24_FIRST : Z := 216.
Definition TAG24_SECOND : Z := 24.

Module Tag24.
Inductive TagEnvelopeError : Type :=
| NotTag24 (first_byte : option Z)
| NotByteString (offset : Z)
| Truncated (offset needed : Z)
| TrailingBytes (consumed total : Z).
End Tag24.

Definition wrap_tag24 (inner : list Z) : list Z :=
  let buf := write_tag [] 24 I8 in
  write_bytes_canonical buf inner.

(** The zero-copy reborrow of the code returns the same bytes [read_bytes] read. *)
Definition unwrap_tag24 (wire : list Z) : result (list Z) Tag24.TagEnvelopeError :=
  let not_tag24 := Tag24.NotTag24 (byte_at wire 0) in
  if (blen wire <? 2)
     || negb (bool_decide (byte_at wire 0 = Some TAG24_FIRST))
     || negb (bool_decide (byte_at wire 1 = Some TAG24_SECOND))
  then Err not_tag24 else
  match read_tag wire 0 with
  | (Err _, _) => Err not_tag24
  | (Ok (tag, _), offset) =>
      if negb (tag =? 24) then Err not_tag24 else
      let bytes_start := offset in
      match read_bytes wire offset with
      | (Err (UnexpectedEof o needed), _) => Err (Tag24.Truncated o needed)
      | (Err _, _) => Err (Tag24.NotByteString bytes_start)
      | (Ok (inner, _), offset) =>
          if negb (offset =? blen wire) then Err (Tag24.TrailingBytes offset (blen wire))
          else Ok (slice wire (offset - blen inner) offset)
      end
  end.

Example conway_envelope_head_is_82_07 :
  take 2 (encode_block_envelope Conway [0x80]) = [0x82; 0x07].
Proof. reflexivity. Qed.
Example unwrap_wrap : unwrap_tag24 (wrap_tag24 [1; 2; 3]) = Ok [1; 2; 3].
Proof. reflexivity. Qed.

(** * Theorems *)

Lemma era_width era : width_fits (as_u8_era era) Inline /\ canonical_width (as_u8_era era) = Inline.
Proof. split; by destruct era. Qed.

Lemma encode_block_envelope_bytes era block :
  encode_block_envelope era block =
  write_uint (write_array_header [] (Definite 2 Inline)) (as_u8_era era) Inline ++ block.
Proof. unfold encode_block_envelope, write_uint_canonical, write_uint. by rewrite (proj2 (era_width era)). Qed.

Lemma envelope_head_len era :
  blen (write_uint (write_array_header [] (Definite 2 Inline)) (as_u8_era era) Inline) = 2.
Proof. by destruct era. Qed.

Lemma envelope_head_ok era :
  bytes_ok (write_uint (write_array_header [] (Definite 2 Inline)) (as_u8_era era) Inline).
Proof. destruct era; repeat constructor; vm_compute; congruence. Qed.

(** What the producer forges, the validator decodes: for every era and every
    block that is one CBOR item, decoding the encoded envelope gives that era
    and the byte range that holds exactly the block. *)
Theorem block_envelope_roundtrip (era : CardanoEra) (block : list Z) :
  bytes_ok block -> 2 + blen block <= u64_max ->
  skip_item block 0 = (Ok (0, blen block), blen block) ->
  decode_block_envelope (encode_block_envelope era block) =
    Ok (mk_BlockEnvelope era 2 (2 + blen block)) /\
  slice (encode_block_envelope era block) 2 (2 + blen block) = block.
Proof.
  intros Hok Hfit Hskip. rewrite encode_block_envelope_bytes.
  set (hdr := write_array_header [] (Definite 2 Inline)).
  set (pre := write_uint hdr (as_u8_era era) Inline).
  pose proof (envelope_head_len era) as Hpre. fold hdr in Hpre. fold pre in Hpre.
  pose proof (envelope_head_ok era) as Hpok. fold hdr in Hpok. fold pre in Hpok.
  pose proof (blen_nonneg block) as Hbl.
  split; [|pose proof (slice_app pre block []) as Hs; by rewrite app_nil_r, Hpre in Hs].
  unfold decode_block_envelope. rewrite blen_app, Hpre.
  destruct (Z.eqb_spec (2 + blen block) 0); [lia|].
  assert (pre = hdr ++ write_uint [] (as_u8_era era) Inline) as Hsplit.
  { apply write_argument_app, era_width. }
  assert (read_array_header (pre ++ block) 0 = (Ok (Definite 2 Inline), 1)) as Hhdr.
  { rewrite Hsplit, <- app_assoc.
    apply (read_array_header_written [] (Definite 2 Inline)). cbn. lia. }
  assert (read_uint (pre ++ block) 1 = (Ok (as_u8_era era, Inline), 2)) as Huint.
  { pose proof (read_uint_written hdr _ _ block (proj1 (era_width era))) as Hu.
    fold pre in Hu. by rewrite Hpre in Hu. }
  assert (skip_item (pre ++ block) 2 = (Ok (2, 2 + blen block), 2 + blen block)) as Hitem.
  { apply skip_item_spec in Hskip as (_ & _ & Hi); [|done|lia].
    pose proof (item_extend pre block [] 0 (blen block) Hok) as Hx.
    rewrite app_nil_r, blen_app, Hpre, Z.add_0_r in Hx.
    apply item_skip; [by apply Forall_app | lia | by apply Hx]. }
  rewrite (dbind_step _ _ _ _ _ _ Hhdr). cbv beta iota. rewrite Z.eqb_refl.
  rewrite (dbind_step (dret tt) _ _ _ tt 1) by done. rewrite (dbind_step _ _ _ _ _ _ Huint).
  cbv beta iota. replace (255 <? as_u8_era era) with false by (by destruct era).
  replace (as_u8 (as_u8_era era)) with (as_u8_era era) by (by destruct era).
  rewrite era_try_from_as_u8. rewrite (dbind_step here _ _ _ 2 2) by done.
  rewrite (dbind_step _ _ _ _ _ _ Hitem). cbv beta iota.
  rewrite (dbind_step here _ _ _ (2 + blen block) (2 + blen block)) by done.
  rewrite Z.eqb_refl. done.
Qed.

Lemma block_envelope_roundtrip_witness :
  decode_block_envelope (encode_block_envelope Conway [0x83; 1; 2; 3]) =
    Ok (mk_BlockEnvelope Conway 2 6) /\
  slice (encode_block_envelope Conway [0x83; 1; 2; 3]) 2 6 = [0x83; 1; 2; 3].
Proof.
  apply (block_envelope_roundtrip Conway [0x83; 1; 2; 3]).
  - repeat constructor; vm_compute; congruence.
  - vm_compute. congruence.
  - reflexivity.
Defined.

(** The decoder fails closed: whatever it accepts is a definite array of two,
    the tag of the era it returns, and then one whole item that ends where the
    input ends; nothing is skipped and nothing trails. *)
Theorem decode_block_envelope_sound (data : list Z) (env : BlockEnvelope) :
  bytes_ok data -> decode_block_envelope data = Ok env ->
  exists w1 w2,
    width_fits 2 w1 /\ width_fits (as_u8_era (era env)) w2 /\
    data = write_array_header [] (Definite 2 w1)
           ++ write_uint [] (as_u8_era (era env)) w2
           ++ slice data (block_start env) (block_end env) /\
    block_end env = blen data /\
    item data (block_start env) (block_end env).
Proof.
  intros Hd H. unfold decode_block_envelope in H.
  destruct (blen data =? 0); [done|].
  match type of H with fst ?x = _ => destruct x as [r o] eqn:Hr end. cbn in H. subst r.
  apply dbind_ok_inv in Hr as (enc & o1 & Hhdr & Hr).
  apply dbind_ok_inv in Hr as (u & o2 & Henc & Hr).
  destruct enc as [n w1|]; [|discriminate Henc].
  destruct (Z.eqb_spec n 2) as [->|]; [|discriminate Henc]. injection Henc as <- <-.
  apply dbind_ok_inv in Hr as ([tag w2] & o3 & Htag & Hr). cbn beta iota in Hr.
  destruct (Z.ltb_spec 255 tag); [discriminate Hr|].
  destruct (era_try_from (as_u8 tag)) as [e|] eqn:He; [|discriminate Hr].
  apply dbind_ok_inv in Hr as (bs & o4 & [= <- <-] & Hr).
  apply dbind_ok_inv in Hr as ([s be] & o5 & Hskip & Hr).
  apply dbind_ok_inv in Hr as (off & o6 & [= <- <-] & Hr).
  destruct (Z.eqb_spec o5 (blen data)) as [->|]; [|discriminate Hr]. injection Hr as <- <-.
  cbn [era block_start block_end].
  destruct (read_array_header_reencode _ _ _ _ _ Hd (ltac:(lia) : 0 <= 0) Hhdr) as [Hf1 Hs1].
  pose proof (read_array_header_bound _ _ _ _ _ Hd (ltac:(lia) : 0 <= 0) Hhdr) as Ho1.
  assert (0 <= o1) as Ho1' by lia.
  destruct (read_uint_reencode _ _ _ _ _ Hd Ho1' Htag) as [Hf2 Hs2].
  destruct (read_uint_bound _ _ _ _ _ Hd Ho1' Htag) as [Ho3 _].
  apply skip_item_spec in Hskip as (-> & -> & Hi); [|done|lia].
  assert (o3 < blen data) as Hlt.
  { eapply item_inside; [done|lia|done]. }
  assert (tag = as_u8_era e) as Het.
  { apply era_try_from_ok in He. unfold as_u8 in He. rewrite Z.mod_small in He; [done|].
    destruct w2; cbn in Hf2; width; lia. }
  subst tag. exists w1, w2. split_and!; try done.
  rewrite <- Hs1, Hs2, slice_join, slice_join by lia. by rewrite slice_all.
Qed.

Lemma decode_block_envelope_sound_witness :
  exists w1 w2,
    width_fits 2 w1 /\ width_fits 7 w2 /\
    [0x82; 0x07; 0x80] =
      write_array_header [] (Definite 2 w1) ++ write_uint [] 7 w2 ++ slice [0x82; 0x07; 0x80] 2 3 /\
    3 = blen [0x82; 0x07; 0x80] /\ item [0x82; 0x07; 0x80] 2 3.
Proof.
  apply (decode_block_envelope_sound [0x82; 0x07; 0x80] (mk_BlockEnvelope Conway 2 3)).
  - repeat constructor; vm_compute; congruence.
  - reflexivity.
Defined.

(** [write_bytes] extends the buffer it is given. *)
Lemma write_bytes_width_app buf l w :
  width_fits (blen l) w -> write_bytes buf l w = buf ++ write_bytes [] l w.
Proof.
  intros Hw. unfold write_bytes. rewrite (write_argument_app buf) by done. by rewrite <- app_assoc.
Qed.

(** The tag-24 authority accepts exactly the envelopes: [unwrap_tag24] returns
    [inner] when and only when the wire is the marker 0xd8 0x18, a definite byte
    string header that declares the length of [inner], and [inner] itself, with
    nothing after it. *)
Theorem unwrap_tag24_exact (wire inner : list Z) :
  bytes_ok wire -> blen wire <= u64_max ->
  unwrap_tag24 wire = Ok inner <->
  exists w, width_fits (blen inner) w /\ wire = write_bytes (write_tag [] 24 I8) inner w.
Proof.
  intros Hd Hfit. split.
  - intros H. unfold unwrap_tag24 in H.
    destruct (_ || _) eqn:Hm; [discriminate H|].
    apply orb_false_iff in Hm as [Hm H1]. apply orb_false_iff in Hm as [Hlen H0].
    apply negb_false_iff, bool_decide_eq_true in H0, H1. apply Z.ltb_ge in Hlen.
    assert (wire = write_tag [] 24 I8 ++ slice wire 2 (blen wire)) as Hsplit.
    { rewrite <- (slice_all wire) at 1. rewrite <- (slice_join wire 0 2) by lia. f_equal.
      rewrite (slice_cons _ _ _ _ H0), (slice_cons _ _ _ _ H1), slice_nil by lia. done. }
    assert (read_tag wire 0 = (Ok (24, I8), 2)) as Htag.
    { rewrite Hsplit. apply (read_tag_written [] 24 I8). cbn. width. lia. }
    rewrite Htag in H. change (negb (24 =? 24)) with false in H. cbv beta iota zeta in H.
    destruct (read_bytes wire 2) as [[[l w]|e] off] eqn:Hb; [|by destruct e].
    destruct (Z.eqb_spec off (blen wire)) as [->|]; [|discriminate H]. injection H as H.
    apply read_bytes_reencode in Hb as (Hf & Hs & _ & _ & Hl); [|done|lia|lia].
    rewrite Hl in H. subst l. exists w. split; [done|].
    rewrite write_bytes_width_app by done. rewrite <- Hs. exact Hsplit.
  - intros (w & Hw & ->). unfold unwrap_tag24.
    pose proof (write_bytes_width_app (write_tag [] 24 I8) inner w Hw) as Happ.
    pose proof (read_bytes_written (write_tag [] 24 I8) inner w [] Hw Hfit) as Hrb.
    rewrite app_nil_r in Hrb.
    assert (read_tag (write_bytes (write_tag [] 24 I8) inner w) 0 = (Ok (24, I8), 2)) as Hrt.
    { rewrite Happ. apply (read_tag_written [] 24 I8). cbn. width. lia. }
    pose proof (read_bytes_reencode _ _ _ _ _ Hd (ltac:(done) : 0 <= blen (write_tag [] 24 I8))
      ltac:(rewrite Happ, blen_app; pose proof (blen_nonneg (write_bytes [] inner w)); lia) Hrb)
      as (_ & _ & _ & _ & Hs).
    rewrite Hrt. change (24 =? 24) with true. cbn [negb].
    change (blen (write_tag [] 24 I8)) with 2 in Hrb. rewrite Hrb, Z.eqb_refl. cbn [negb].
    rewrite Hs, Happ, blen_app. pose proof (blen_nonneg (write_bytes [] inner w)).
    destruct (Z.ltb_spec (blen (write_tag [] 24 I8) + blen (write_bytes [] inner w)) 2).
    { change (blen (write_tag [] 24 I8)) with 2 in *. lia. }
    change (write_tag [] 24 I8) with [TAG24_FIRST; TAG24_SECOND].
    pose proof (byte_at_here [] TAG24_FIRST (TAG24_SECOND :: write_bytes [] inner w)) as Hb0.
    pose proof (byte_at_here [TAG24_FIRST] TAG24_SECOND (write_bytes [] inner w)) as Hb1.
    cbn [app] in *. change (blen (@nil Z)) with 0 in Hb0. change (blen [TAG24_FIRST]) with 1 in Hb1.
    rewrite !bool_decide_true by done. done.
Qed.

Lemma unwrap_tag24_exact_witness :
  unwrap_tag24 [0xd8; 0x18; 0x42; 5; 6] = Ok [5; 6] <->
  exists w, width_fits 2 w /\ [0xd8; 0x18; 0x42; 5; 6] = write_bytes (write_tag [] 24 I8) [5; 6] w.
Proof.
  apply (unwrap_tag24_exact [0xd8; 0x18; 0x42; 5; 6] [5; 6]).
  - repeat constructor; vm_compute; congruence.
  - vm_compute. congruence.
Defined.

(** The canonical wrap is such an envelope, so it always unwraps to its content. *)
Lemma unwrap_wrap_tag24 inner :
  bytes_ok inner -> blen (wrap_tag24 inner) <= u64_max -> unwrap_tag24 (wrap_tag24 inner) = Ok inner.
Proof.
  intros Hok Hfit. unfold wrap_tag24 in *. pose proof (blen_nonneg inner).
  assert (is_u64 (blen inner)) as Hu.
  { unfold write_bytes_canonical in Hfit. rewrite blen_app in Hfit.
    pose proof (blen_nonneg (write_argument (write_tag [] 24 I8) MAJOR_BYTES (blen inner)
      (canonical_width (blen inner)))). width. lia. }
  pose proof (canonical_width_fits _ Hu) as Hw.
  apply unwrap_tag24_exact; [|done|by exists (canonical_width (blen inner))].
  unfold write_bytes_canonical. rewrite write_argument_bytes by done.
  rewrite <- app_assoc. apply Forall_app. split; [repeat constructor; vm_compute; congruence|].
  apply Forall_app. split; [|done]. constructor; [|apply to_be_ok].
  apply initial_byte_ok; [done|]. by apply width_ai_bound.
Qed.
