(* ===== verification/EraSchedule.v ===== *)
(** The era schedule of [ade_core/src/consensus/era_schedule.rs]: the
    wall-clock-to-slot conversion and its inverse, slot location, forecast
    horizon, schedule extension, the derived timing anchor and the
    bootstrap-bound timing authority.

    [SlotNo], [EpochNo] and the lengths are kept as [Z] with the checked, saturating
    and wrapping operations the code uses.  [blake2b_256] is third-party code and
    is a variable of the sections that commit to a schedule. *)

From S2P Require Import Prelude Envelope.

(** * Data and errors ([era_schedule.rs], [errors.rs]) *)

Definition Hash32 : Type := list Z.

Inductive HFCError : Type :=
| EmptyEraList
| NonMonotonicEras (prev_start next_start : Z)
| ZeroSlotLength (era_index : Z)
| ZeroEpochLength (era_index : Z)
| SlotBeforeSystemStart (slot first_era_start : Z)
| SlotAfterLastEra (slot last_era_end : Z).

Inductive SlotTimeError : Type :=
| OutOfRange (slot : Z)
| SlotTime_HFC (e : HFCError)
| SlotTime_Overflow.

Record OutsideForecastRange : Type := mk_OutsideForecastRange {
  requested : Z;
  horizon : Z;
}.

Record EraSummary : Type := mk_EraSummary {
  es_era : CardanoEra;
  es_start_slot : Z;
  es_start_epoch : Z;
  es_slot_length_ms : Z;
  es_epoch_length_slots : Z;
  es_safe_zone_slots : Z;
  es_randomness_stabilisation_window_slots : option Z;
}.

Record EraSchedule : Type := mk_EraSchedule {
  anchor : Hash32;
  system_start_unix_ms : Z;
  eras : list EraSummary;
}.

Record EraLocation : Type := mk_EraLocation {
  loc_era_index : Z;
  loc_era : CardanoEra;
  loc_epoch : Z;
  loc_relative_slot_in_epoch : Z;
}.

Module SlotDerivation.
Inductive SlotDerivationError : Type :=
| BeforeSystemStart (captured_ms system_start_ms : Z)
| EmptySchedule
| ScheduleDoesNotCoverSystemStart (first_era_start_slot : Z)
| ZeroSlotLength (era_index : Z)
| Overflow.
End SlotDerivation.
Import SlotDerivation(SlotDerivationError).

Module TimingAnchor.
Inductive TimingAnchorError : Type :=
| DomainStartNotDerivable (e : SlotDerivationError)
| BeforeDomainStart (captured_ms domain_start_ms : Z)
| MalformedSegments
| Overflow.
End TimingAnchor.
Import TimingAnchor(TimingAnchorError).

(** [RSW = ceil(4k / f)]; [u64::div_ceil] and [u32::try_from]. *)
Definition div_ceil (a b : Z) : Z := (a + b - 1) / b.

Definition praos_rsw_slots (security_param asc_numer asc_denom : Z) : option Z :=
  if asc_numer =? 0 then None else
  match checked_mul security_param 4 with
  | None => None
  | Some n =>
      match checked_mul n asc_denom with
      | None => None
      | Some num =>
          let w := div_ceil num asc_numer in
          if w <=? u32_max then Some w else None
      end
  end.

(** * Construction *)

Fixpoint check_era_params (idx : Z) (l : list EraSummary) : result unit HFCError :=
  match l with
  | [] => Ok tt
  | e :: rest =>
      if es_slot_length_ms e =? 0 then Err (ZeroSlotLength (as_u8 idx))
      else if es_epoch_length_slots e =? 0 then Err (ZeroEpochLength (as_u8 idx))
      else check_era_params (idx + 1) rest
  end.

Fixpoint check_monotonic (l : list EraSummary) : result unit HFCError :=
  match l with
  | prev :: ((next :: _) as rest) =>
      if es_start_slot next <=? es_start_slot prev
      then Err (NonMonotonicEras (es_start_slot prev) (es_start_slot next))
      else check_monotonic rest
  | _ => Ok tt
  end.

Definition new (anchor : Hash32) (system_start : Z) (l : list EraSummary) :
    result EraSchedule HFCError :=
  match l with
  | [] => Err EmptyEraList
  | _ =>
      let? _ := check_era_params 0 l in
      let? _ := check_monotonic l in
      Ok (mk_EraSchedule anchor system_start l)
  end.

(** * Wall clock to slot *)

(** The start time of the segment after [era], if there is one. *)
Definition next_segment_start {E} (overflow : E) (seg_start_ms : Z) (era : EraSummary)
    (rest : list EraSummary) : result (option Z) E :=
  match rest with
  | [] => Ok None
  | next :: _ =>
      let? span_slots := ok_or (checked_sub (es_start_slot next) (es_start_slot era)) overflow in
      let? span_ms := ok_or (checked_mul span_slots (es_slot_length_ms era)) overflow in
      let? t := ok_or (checked_add seg_start_ms span_ms) overflow in
      Ok (Some t)
  end.

Fixpoint slot_at_walk (captured_ms i seg_start_ms : Z) (l : list EraSummary) :
    result Z SlotDerivationError :=
  match l with
  | [] => Err SlotDerivation.EmptySchedule
  | era :: rest =>
      if es_slot_length_ms era =? 0 then Err (SlotDerivation.ZeroSlotLength (as_u8 i)) else
      let? next_start_ms := next_segment_start SlotDerivation.Overflow seg_start_ms era rest in
      if match next_start_ms with None => true | Some next_ms => captured_ms <? next_ms end
      then
        let? elapsed_ms := ok_or (checked_sub captured_ms seg_start_ms) SlotDerivation.Overflow in
        ok_or (checked_add (es_start_slot era) (elapsed_ms / es_slot_length_ms era))
          SlotDerivation.Overflow
      else
        let? t := ok_or next_start_ms SlotDerivation.Overflow in
        slot_at_walk captured_ms (i + 1) t rest
  end.

Definition slot_at (schedule : EraSchedule) (captured_ms : Z) : result Z SlotDerivationError :=
  match eras schedule with
  | [] => Err SlotDerivation.EmptySchedule
  | first :: _ =>
      if negb (es_start_slot first =? 0)
      then Err (SlotDerivation.ScheduleDoesNotCoverSystemStart (es_start_slot first)) else
      let system_start := system_start_unix_ms schedule in
      if captured_ms <? system_start
      then Err (SlotDerivation.BeforeSystemStart captured_ms system_start)
      else slot_at_walk captured_ms 0 system_start (eras schedule)
  end.

Fixpoint slot_start_walk (slot i seg_start_ms : Z) (l : list EraSummary) :
    result Z SlotDerivationError :=
  match l with
  | [] => Err SlotDerivation.EmptySchedule
  | era :: rest =>
      if es_slot_length_ms era =? 0 then Err (SlotDerivation.ZeroSlotLength (as_u8 i)) else
      let ends_at := match rest with [] => None | n :: _ => Some (es_start_slot n) end in
      if match ends_at with None => true | Some e => slot <? e end
      then
        let? offset := ok_or (checked_sub slot (es_start_slot era)) SlotDerivation.Overflow in
        let? ms := ok_or (checked_mul offset (es_slot_length_ms era)) SlotDerivation.Overflow in
        ok_or (checked_add seg_start_ms ms) SlotDerivation.Overflow
      else
        let? e := ok_or ends_at SlotDerivation.Overflow in
        let? span := ok_or (checked_sub e (es_start_slot era)) SlotDerivation.Overflow in
        let? ms := ok_or (checked_mul span (es_slot_length_ms era)) SlotDerivation.Overflow in
        let? t := ok_or (checked_add seg_start_ms ms) SlotDerivation.Overflow in
        slot_start_walk slot (i + 1) t rest
  end.

Definition slot_start_time_ms (schedule : EraSchedule) (slot : Z) :
    result Z SlotDerivationError :=
  match eras schedule with
  | [] => Err SlotDerivation.EmptySchedule
  | first :: _ =>
      if negb (es_start_slot first =? 0)
      then Err (SlotDerivation.ScheduleDoesNotCoverSystemStart (es_start_slot first))
      else slot_start_walk slot 0 (system_start_unix_ms schedule) (eras schedule)
  end.

(** * Location, horizon, time *)

(** The scan over [eras.windows(2)]: the first pair that brackets [slot]. *)
Fixpoint find_window (slot : Z) (idx : nat) (l : list EraSummary) : option nat :=
  match l with
  | curr :: ((next :: _) as rest) =>
      if (es_start_slot curr <=? slot) && (slot <? es_start_slot next)
      then Some idx else find_window slot (S idx) rest
  | _ => None
  end.

Definition chosen_idx (slot : Z) (l : list EraSummary) : nat :=
  match find_window slot 0 l with Some i => i | None => (length l - 1)%nat end.

(** [&eras[i]] *)
Definition era_at (l : list EraSummary) (i : nat) (default : EraSummary) : EraSummary :=
  match l !! i with Some e => e | None => default end.

Definition locate (schedule : EraSchedule) (slot : Z) : result EraLocation HFCError :=
  match eras schedule with
  | [] => Err EmptyEraList
  | first :: _ =>
      if slot <? es_start_slot first
      then Err (SlotBeforeSystemStart slot (es_start_slot first)) else
      let idx := chosen_idx slot (eras schedule) in
      let curr := era_at (eras schedule) idx first in
      let slots_into_era := slot - es_start_slot curr in
      let epoch_len := es_epoch_length_slots curr in
      let era_epoch_offset := slots_into_era / epoch_len in
      let relative := slots_into_era mod epoch_len in
      let? epoch_value := ok_or (checked_add (es_start_epoch curr) era_epoch_offset)
                            (SlotAfterLastEra slot u64_max) in
      Ok (mk_EraLocation (as_u8 (Z.of_nat idx)) (es_era curr) epoch_value (as_u32 relative))
  end.

Definition epoch_length_slots (schedule : EraSchedule) (slot : Z) : result Z HFCError :=
  match eras schedule with
  | [] => Err EmptyEraList
  | first :: _ =>
      if slot <? es_start_slot first
      then Err (SlotBeforeSystemStart slot (es_start_slot first))
      else Ok (es_epoch_length_slots (era_at (eras schedule) (chosen_idx slot (eras schedule)) first))
  end.

(** The loop [for idx in 0..era_index] of [slot_to_time_ms], over the eras still
    ahead; it hands over the era it stops at. *)
Fixpoint accumulate_ms (n : nat) (acc_ms : Z) (l : list EraSummary) :
    result (Z * option EraSummary) SlotTimeError :=
  match n, l with
  | S n, prior :: ((next :: _) as rest) =>
      let? span := ok_or (checked_sub (es_start_slot next) (es_start_slot prior)) SlotTime_Overflow in
      let? prior_ms := ok_or (checked_mul span (es_slot_length_ms prior)) SlotTime_Overflow in
      let? acc := ok_or (checked_add acc_ms prior_ms) SlotTime_Overflow in
      accumulate_ms n acc rest
  | _, l => Ok (acc_ms, head l)
  end.

Definition slot_to_time_ms (schedule : EraSchedule) (slot : Z) : result Z SlotTimeError :=
  let? location := map_err SlotTime_HFC (locate schedule slot) in
  let era_index := Z.to_nat (loc_era_index location) in
  let? (acc_ms, curr) := accumulate_ms era_index (system_start_unix_ms schedule) (eras schedule) in
  let? curr := ok_or curr SlotTime_Overflow in
  let? slots_into_era := ok_or (checked_sub slot (es_start_slot curr)) SlotTime_Overflow in
  let? era_ms := ok_or (checked_mul slots_into_era (es_slot_length_ms curr)) SlotTime_Overflow in
  ok_or (checked_add acc_ms era_ms) SlotTime_Overflow.

Definition check_forecast_horizon (schedule : EraSchedule) (slot : Z) :
    result unit OutsideForecastRange :=
  match last (eras schedule) with
  | None => Err (mk_OutsideForecastRange slot 0)
  | Some e =>
      let horizon := saturating_add (es_start_slot e) (es_safe_zone_slots e) in
      if horizon <? slot then Err (mk_OutsideForecastRange slot horizon) else Ok tt
  end.

(** * Extension *)

(** [last_epoch + 1 ..= target], one summary cloned from the seed per epoch; the
    start slot is unchecked [u64] arithmetic, which wraps in a release build. *)
Definition extension_era (seed : EraSummary) (e : Z) : EraSummary :=
  let offset := as_u64 (e - es_start_epoch seed) in
  mk_EraSummary (es_era seed)
    (as_u64 (es_start_slot seed + as_u64 (offset * es_epoch_length_slots seed)))
    e (es_slot_length_ms seed) (es_epoch_length_slots seed)
    (es_epoch_length_slots seed)
    (es_randomness_stabilisation_window_slots seed).

Definition extend_to_epoch (schedule : EraSchedule) (target : Z) : EraSchedule :=
  match eras schedule, last (eras schedule) with
  | seed :: _, Some l =>
      let last_epoch := es_start_epoch l in
      if target <=? last_epoch then schedule else
      let new_eras := eras schedule
        ++ map (extension_era seed) (seqZ (last_epoch + 1) (target - last_epoch)) in
      match new (anchor schedule) (system_start_unix_ms schedule) new_eras with
      | Ok extended => extended
      | Err _ => schedule
      end
  | _, _ => schedule
  end.

Definition extend_to_slot (schedule : EraSchedule) (slot : Z) : EraSchedule :=
  match eras schedule with
  | [] => schedule
  | seed :: _ =>
      let epoch_len := es_epoch_length_slots seed in
      if (epoch_len =? 0) || (slot <? es_start_slot seed) then schedule
      else extend_to_epoch schedule
             (as_u64 (es_start_epoch seed + (slot - es_start_slot seed) / epoch_len))
  end.

(** * The derived timing anchor *)

Definition Segment : Type := Z * Z * Z. (* start_slot, slot_length_ms, segment_start_ms *)

Record DerivedTimingAnchor : Type := mk_DerivedTimingAnchor {
  domain_start_ms : Z;
  domain_start_slot : Z;
  segments : list Segment;
  source_schedule_commitment : Hash32;
}.

(** The single walk of [derive] over the full history. *)
Fixpoint timing_table (seg_ms : Z) (l : list EraSummary) :
    result (list Segment) TimingAnchorError :=
  match l with
  | [] => Ok []
  | e :: rest =>
      if es_slot_length_ms e =? 0 then Err TimingAnchor.MalformedSegments else
      let entry := (es_start_slot e, es_slot_length_ms e, seg_ms) in
      match rest with
      | [] => Ok [entry]
      | next :: _ =>
          let? span := ok_or (checked_sub (es_start_slot next) (es_start_slot e))
                         TimingAnchor.MalformedSegments in
          let? ms := ok_or (checked_mul span (es_slot_length_ms e)) TimingAnchor.Overflow in
          let? t := ok_or (checked_add seg_ms ms) TimingAnchor.Overflow in
          let? tail := timing_table t rest in
          Ok (entry :: tail)
      end
  end.

(** [all.iter().rposition(start <= slot)] and [all[first_idx..]]: the suffix that
    begins at the last segment starting at or before [slot]. *)
Fixpoint suffix_from (slot : Z) (all : list Segment) : option (list Segment) :=
  match all with
  | [] => None
  | (start, len, ms) :: rest =>
      match suffix_from slot rest with
      | Some s => Some s
      | None => if start <=? slot then Some all else None
      end
  end.

Fixpoint anchor_walk (captured_ms : Z) (segs : list Segment) : result Z TimingAnchorError :=
  match segs with
  | [] => Err TimingAnchor.MalformedSegments
  | (seg_slot, slot_len, seg_ms) :: rest =>
      if match rest with [] => true | (_, _, next_ms) :: _ => captured_ms <? next_ms end
      then
        let? elapsed := ok_or (checked_sub captured_ms seg_ms) TimingAnchor.Overflow in
        ok_or (checked_add seg_slot (elapsed / slot_len)) TimingAnchor.Overflow
      else anchor_walk captured_ms rest
  end.

Definition anchor_slot_at (a : DerivedTimingAnchor) (captured_ms : Z) :
    result Z TimingAnchorError :=
  if captured_ms <? domain_start_ms a
  then Err (TimingAnchor.BeforeDomainStart captured_ms (domain_start_ms a))
  else anchor_walk captured_ms (segments a).

Definition domain_slot_length_ms (a : DerivedTimingAnchor) : Z :=
  match segments a with (_, l, _) :: _ => l | [] => 1 end.

Section Commitment.
Variable blake2b_256 : list Z -> Hash32.

(** b"ade.live2c.timing-schedule.v1" *)
Definition timing_domain : list Z :=
  [97; 100; 101; 46; 108; 105; 118; 101; 50; 99; 46; 116; 105; 109; 105; 110; 103; 45;
   115; 99; 104; 101; 100; 117; 108; 101; 46; 118; 49].

Definition schedule_timing_commitment (schedule : EraSchedule) : Hash32 :=
  blake2b_256 (timing_domain
    ++ to_be 8 (system_start_unix_ms schedule)
    ++ to_be 8 (blen (eras schedule))
    ++ flat_map (fun e => to_be 8 (es_start_slot e) ++ to_be 8 (es_slot_length_ms e))
         (eras schedule)).

Definition is_derived_from (a : DerivedTimingAnchor) (schedule : EraSchedule) : bool :=
  bool_decide (source_schedule_commitment a = schedule_timing_commitment schedule).

Definition derive (schedule : EraSchedule) (domain_start : Z) :
    result DerivedTimingAnchor TimingAnchorError :=
  let? start_slot := map_err TimingAnchor.DomainStartNotDerivable
                       (slot_at schedule domain_start) in
  let? all := timing_table (system_start_unix_ms schedule) (eras schedule) in
  let? segs := ok_or (suffix_from start_slot all) TimingAnchor.MalformedSegments in
  match segs with
  | [] => Err TimingAnchor.MalformedSegments
  | _ => Ok (mk_DerivedTimingAnchor domain_start start_slot segs
               (schedule_timing_commitment schedule))
  end.

Definition derive_for_bootstrap_anchor (schedule : EraSchedule) (bootstrap_anchor_slot : Z) :
    result DerivedTimingAnchor TimingAnchorError :=
  let? start_ms := map_err TimingAnchor.DomainStartNotDerivable
                     (slot_start_time_ms schedule bootstrap_anchor_slot) in
  let? a := derive schedule start_ms in
  if negb (domain_start_slot a =? bootstrap_anchor_slot)
  then Err TimingAnchor.MalformedSegments else Ok a.
End Commitment.

(** * The bootstrap-bound timing authority *)

Record VenueTimingSegment : Type := mk_VenueTimingSegment {
  vs_start_slot : Z;
  vs_start_epoch : Z;
  vs_slot_length_ms : Z;
  vs_epoch_length_slots : Z;
}.

Record VenueTimingHistory : Type := mk_VenueTimingHistory {
  vh_system_start_unix_ms : Z;
  vh_segments : list VenueTimingSegment;
}.

Definition to_summary (s : VenueTimingSegment) : EraSummary :=
  mk_EraSummary Conway (vs_start_slot s) (vs_start_epoch s) (vs_slot_length_ms s)
    (vs_epoch_length_slots s) (vs_epoch_length_slots s) None.

Definition to_schedule (h : VenueTimingHistory) : result EraSchedule HFCError :=
  new (repeat 0 32) (vh_system_start_unix_ms h) (map to_summary (vh_segments h)).

(** [segments.iter().rev().find(|s| s.start_epoch <= epoch)] *)
Fixpoint last_segment_from (epoch : Z) (l : list VenueTimingSegment) :
    option VenueTimingSegment :=
  match l with
  | [] => None
  | s :: rest =>
      match last_segment_from epoch rest with
      | Some t => Some t
      | None => if vs_start_epoch s <=? epoch then Some s else None
      end
  end.

Definition epoch_geometry (h : VenueTimingHistory) (epoch : Z) : option (Z * Z) :=
  match last_segment_from epoch (vh_segments h) with
  | None => None
  | Some seg =>
      match checked_sub epoch (vs_start_epoch seg) with
      | None => None
      | Some offset =>
          match checked_mul offset (vs_epoch_length_slots seg) with
          | None => None
          | Some slots =>
              match checked_add (vs_start_slot seg) slots with
              | None => None
              | Some start => Some (start, vs_epoch_length_slots seg)
              end
          end
      end
  end.

Record BootstrapTimingBinding : Type := mk_BootstrapTimingBinding {
  bt_anchor_slot : Z;
  bt_epoch : Z;
  bt_epoch_start_slot : Z;
  bt_epoch_length_slots : Z;
}.

Module TimingAuthority.
Inductive TimingAuthorityError : Type :=
| MalformedHistory (e : HFCError)
| NonAlignedSegmentTransition (segment_index declared_start_slot implied_start_slot : Z)
| EpochNotCovered (epoch : Z)
| EpochStartSlotMismatch (epoch durable reconstructed : Z)
| EpochLengthMismatch (epoch durable reconstructed : Z)
| AnchorSlotOutsideBootstrapEpoch (anchor_slot epoch_start_slot epoch_end_slot : Z)
| AnchorError (e : TimingAnchorError)
| LineageMismatch.
End TimingAuthority.
Import TimingAuthority(TimingAuthorityError).

Record BootstrapBoundTimingAuthority : Type := mk_BootstrapBoundTimingAuthority {
  bb_anchor : DerivedTimingAnchor;
  bb_binding : BootstrapTimingBinding;
  bb_slot_cadence_ms : Z;
}.

(** The start slot the previous segment implies for the next one. *)
Definition implied_start (prev next : VenueTimingSegment) : option Z :=
  match checked_sub (vs_start_epoch next) (vs_start_epoch prev) with
  | None => None
  | Some epochs =>
      Some (match checked_add (vs_start_slot prev)
                    (saturating_mul epochs (vs_epoch_length_slots prev)) with
            | Some x => x
            | None => u64_max
            end)
  end.

(** The loop over [segments.windows(2)] of [establish]. *)
Fixpoint check_alignment (i : Z) (l : list VenueTimingSegment) :
    result unit TimingAuthorityError :=
  match l with
  | prev :: ((next :: _) as rest) =>
      match implied_start prev next with
      | None => Err (TimingAuthority.NonAlignedSegmentTransition (as_u8 (i + 1))
                       (vs_start_slot next) (vs_start_slot prev))
      | Some implied =>
          if negb (implied =? vs_start_slot next)
          then Err (TimingAuthority.NonAlignedSegmentTransition (as_u8 (i + 1))
                      (vs_start_slot next) implied)
          else check_alignment (i + 1) rest
      end
  | _ => Ok tt
  end.

(** The comparison of the reconstructed epoch with the durable bootstrap facts. *)
Definition check_binding (h : VenueTimingHistory) (b : BootstrapTimingBinding) :
    result unit TimingAuthorityError :=
  let? (start, len) := ok_or (epoch_geometry h (bt_epoch b))
                         (TimingAuthority.EpochNotCovered (bt_epoch b)) in
  guard! start =? bt_epoch_start_slot b
    else TimingAuthority.EpochStartSlotMismatch (bt_epoch b) (bt_epoch_start_slot b) start in
  guard! len =? bt_epoch_length_slots b
    else TimingAuthority.EpochLengthMismatch (bt_epoch b) (bt_epoch_length_slots b) len in
  let epoch_end := saturating_add (bt_epoch_start_slot b) (bt_epoch_length_slots b) in
  guard! negb ((bt_anchor_slot b <? bt_epoch_start_slot b) || (epoch_end <=? bt_anchor_slot b))
    else TimingAuthority.AnchorSlotOutsideBootstrapEpoch (bt_anchor_slot b)
           (bt_epoch_start_slot b) epoch_end in
  Ok tt.

Section Authority.
Variable blake2b_256 : list Z -> Hash32.

Definition establish (h : VenueTimingHistory) (b : BootstrapTimingBinding) :
    result BootstrapBoundTimingAuthority TimingAuthorityError :=
  let? _ := check_alignment 0 (vh_segments h) in
  let? schedule := map_err TimingAuthority.MalformedHistory (to_schedule h) in
  let? _ := check_binding h b in
  let? a := map_err TimingAuthority.AnchorError
              (derive_for_bootstrap_anchor blake2b_256 schedule (bt_anchor_slot b)) in
  guard! is_derived_from blake2b_256 a schedule else TimingAuthority.LineageMismatch in
  Ok (mk_BootstrapBoundTimingAuthority a b (domain_slot_length_ms a)).
End Authority.

Definition authority_slot_at (a : BootstrapBoundTimingAuthority) (captured_ms : Z) :
    result Z TimingAnchorError :=
  anchor_slot_at (bb_anchor a) captured_ms.
