(* ===== verification/Timing.v ===== *)
(** Theorems on the era schedule and the timing authority of [EraSchedule].

    The well-formed schedules are those [new] accepts ([new_ok_iff]).  On them the
    clock and the slot calendar are inverse to each other, a derived anchor answers
    as the full schedule does on its whole domain, an established authority agrees
    with the calendar it was bound to, and extending a schedule changes no epoch. *)

From S2P Require Import Prelude Envelope EraSchedule.

(** * Well-formed and typed schedules *)

Definition typed_era (e : EraSummary) : Prop :=
  is_u64 (es_start_slot e) /\ is_u64 (es_start_epoch e) /\ is_u32 (es_slot_length_ms e) /\
  is_u32 (es_epoch_length_slots e) /\ is_u32 (es_safe_zone_slots e).

(** The fields of the record hold values of their Rust types. *)
Definition typed (s : EraSchedule) : Prop :=
  is_u64 (system_start_unix_ms s) /\ Forall typed_era (eras s).

Definition nonzero (e : EraSummary) : Prop :=
  es_slot_length_ms e <> 0 /\ es_epoch_length_slots e <> 0.

Fixpoint increasing (l : list EraSummary) : Prop :=
  match l with
  | a :: ((b :: _) as rest) => es_start_slot a < es_start_slot b /\ increasing rest
  | _ => True
  end.

Definition wf_eras (l : list EraSummary) : Prop :=
  l <> [] /\ Forall nonzero l /\ increasing l.

Lemma check_era_params_ok i l : check_era_params i l = Ok tt <-> Forall nonzero l.
Proof.
  revert i. induction l as [|e l IH]; intros i; cbn [check_era_params].
  { split; auto. }
  rewrite Forall_cons. unfold nonzero at 1.
  repeat bcase; rewrite ?IH; intuition (congruence || auto).
Qed.

Lemma check_monotonic_ok l : check_monotonic l = Ok tt <-> increasing l.
Proof.
  induction l as [|a l IH]; [done|]. destruct l as [|b l]; [done|].
  change (check_monotonic (a :: b :: l)) with
    (if es_start_slot b <=? es_start_slot a
     then Err (NonMonotonicEras (es_start_slot a) (es_start_slot b)) else check_monotonic (b :: l)).
  change (increasing (a :: b :: l)) with (es_start_slot a < es_start_slot b /\ increasing (b :: l)).
  bcase; rewrite ?IH; intuition (congruence || lia).
Qed.

Lemma increasing_tail e l : increasing (e :: l) -> increasing l.
Proof. destruct l; [done|]. by intros [_ H]. Qed.

Lemma increasing_head e n l : increasing (e :: n :: l) -> es_start_slot e < es_start_slot n.
Proof. by intros [H _]. Qed.

(** A schedule as the walks below need it: what [new] guarantees on typed data. *)
Definition walkable (l : list EraSummary) : Prop :=
  Forall typed_era l /\ Forall nonzero l /\ increasing l.

Lemma walkable_tail e l : walkable (e :: l) -> walkable l.
Proof.
  intros (H1 & H2 & H3). apply Forall_cons in H1 as [_ H1], H2 as [_ H2].
  split; [done|split; [done|by eapply increasing_tail]].
Qed.

Lemma walkable_cons e l :
  walkable (e :: l) ->
  0 <= es_start_slot e <= u64_max /\ 0 <= es_start_epoch e <= u64_max /\
  1 <= es_slot_length_ms e <= u32_max /\ 1 <= es_epoch_length_slots e <= u32_max.
Proof.
  intros (H1 & H2 & _). apply Forall_cons in H1 as [H1 _], H2 as [H2 _].
  destruct H1 as (? & ? & ? & ? & ?), H2. width. lia.
Qed.

Lemma wf_new a t l s : new a t l = Ok s -> s = mk_EraSchedule a t l /\ wf_eras l.
Proof.
  unfold new. destruct l as [|e l]; [done|]. intros H. binv H. ok_inv.
  repeat match goal with x : () |- _ => destruct x end.
  apply check_era_params_ok in Hb. apply check_monotonic_ok in Hb0.
  repeat split; auto.
Qed.

Lemma new_wf a t l : wf_eras l -> new a t l = Ok (mk_EraSchedule a t l).
Proof.
  intros (Hne & Hz & Hi). unfold new. destruct l as [|e l]; [done|].
  rewrite (proj2 (check_era_params_ok 0 (e :: l)) Hz); cbn [rbind].
  by rewrite (proj2 (check_monotonic_ok (e :: l)) Hi).
Qed.

(** [EraSchedule::new] accepts exactly the era lists that are non-empty, have
    non-zero slot and epoch lengths and strictly increasing start slots, and it
    keeps its arguments as they are. *)
Theorem new_ok_iff a t l s :
  new a t l = Ok s <-> s = mk_EraSchedule a t l /\ wf_eras l.
Proof. split; [apply wf_new|]. intros [-> Hw]. by apply new_wf. Qed.

(** * The era that covers a slot *)

Fixpoint covering (slot : Z) (l : list EraSummary) : option EraSummary :=
  match l with
  | [] => None
  | e :: rest =>
      match rest with
      | [] => Some e
      | n :: _ => if slot <? es_start_slot n then Some e else covering slot rest
      end
  end.

Lemma find_window_shift s i l : find_window s (S i) l = option_map S (find_window s i l).
Proof.
  revert i. induction l as [|e l IH]; intros i; [done|]. destruct l as [|n l]; [done|].
  change (find_window s (S i) (e :: n :: l)) with
    (if (es_start_slot e <=? s) && (s <? es_start_slot n) then Some (S i)
     else find_window s (S (S i)) (n :: l)).
  change (find_window s i (e :: n :: l)) with
    (if (es_start_slot e <=? s) && (s <? es_start_slot n) then Some i
     else find_window s (S i) (n :: l)).
  destruct (_ && _); [done|apply IH].
Qed.

Lemma chosen_cons s e n l :
  es_start_slot e <= s ->
  chosen_idx s (e :: n :: l) =
    if s <? es_start_slot n then 0%nat else S (chosen_idx s (n :: l)).
Proof.
  intros He. unfold chosen_idx at 1.
  change (find_window s 0 (e :: n :: l)) with
    (if (es_start_slot e <=? s) && (s <? es_start_slot n) then Some 0%nat
     else find_window s 1 (n :: l)).
  destruct (Z.leb_spec (es_start_slot e) s); [|lia]. cbn [andb].
  destruct (s <? es_start_slot n); [done|].
  rewrite find_window_shift. unfold chosen_idx.
  destruct (find_window s 0 (n :: l)); cbn [option_map length]; lia.
Qed.

Lemma chosen_covering s l first :
  head l = Some first -> es_start_slot first <= s -> l !! chosen_idx s l = covering s l.
Proof.
  revert first. induction l as [|e l IH]; intros first [= ->] He.
  destruct l as [|n l]; [done|]. rewrite chosen_cons by done.
  cbn [covering]. bcase; [done|]. by apply (IH n).
Qed.

Lemma covering_spec s l e :
  increasing l -> covering s l = Some e ->
  e ∈ l /\ ((exists first, head l = Some first /\ es_start_slot first <= s) -> es_start_slot e <= s).
Proof.
  induction l as [|a l IH]; [done|]. intros Hi. cbn [covering].
  destruct l as [|n l].
  { intros [= ->]. split; [apply elem_of_cons; auto|]. by intros (? & [= ->] & ?). }
  bcase; intros H'.
  - injection H' as ->. split; [apply elem_of_cons; auto|]. by intros (? & [= ->] & ?).
  - destruct (IH (increasing_tail _ _ Hi) H') as [Hin Hle]. split; [apply elem_of_cons; auto|].
    intros _. apply Hle. eauto.
Qed.

Lemma covering_some s l : l <> [] -> exists e, covering s l = Some e.
Proof.
  induction l as [|e l IH]; [done|]. intros _. cbn [covering].
  destruct l as [|n l]; [eauto|]. bcase; [eauto|]. by apply IH.
Qed.

Lemma era_at_covering s l first e :
  head l = Some first -> es_start_slot first <= s -> covering s l = Some e ->
  era_at l (chosen_idx s l) first = e.
Proof. intros Hh Hs Hc. unfold era_at. by rewrite (chosen_covering s l first), Hc. Qed.

(** * The two walks, against each other *)

(** Both walks take the same step: past the first segment when the target lies at
    or after the next one. *)
Lemma next_start_none {E} (o : E) ms e : next_segment_start o ms e [] = Ok None.
Proof. done. Qed.

Lemma next_start_ok {E} (o : E) ms e n l r :
  next_segment_start o ms e (n :: l) = Ok r ->
  r = Some (ms + (es_start_slot n - es_start_slot e) * es_slot_length_ms e) /\
  ms + (es_start_slot n - es_start_slot e) * es_slot_length_ms e <= u64_max.
Proof.
  unfold next_segment_start. intros H. binv H. ok_inv. subst. auto.
Qed.

Lemma slot_start_walk_last s i ms e m :
  slot_start_walk s i ms [e] = Ok m <->
  es_slot_length_ms e <> 0 /\ es_start_slot e <= s /\
  m = ms + (s - es_start_slot e) * es_slot_length_ms e /\
  (s - es_start_slot e) * es_slot_length_ms e <= u64_max /\ m <= u64_max.
Proof.
  cbn [slot_start_walk]. split.
  - intros H. binv H. ok_inv. subst. apply Z.eqb_neq in Eb. auto.
  - intros (Hz & Hs & -> & H1 & H2). apply Z.eqb_neq in Hz. rewrite Hz.
    by rewrite checked_sub_fits; cbn; rewrite ?checked_mul_fits; cbn; rewrite ?checked_add_fits.
Qed.

Lemma slot_start_walk_cons s i ms e n l m :
  es_start_slot e < es_start_slot n -> es_slot_length_ms e <> 0 ->
  slot_start_walk s i ms (e :: n :: l) = Ok m <->
  (s < es_start_slot n /\ es_start_slot e <= s /\
    m = ms + (s - es_start_slot e) * es_slot_length_ms e /\
    (s - es_start_slot e) * es_slot_length_ms e <= u64_max /\ m <= u64_max) \/
  (es_start_slot n <= s /\
    (es_start_slot n - es_start_slot e) * es_slot_length_ms e <= u64_max /\
    ms + (es_start_slot n - es_start_slot e) * es_slot_length_ms e <= u64_max /\
    slot_start_walk s (i + 1)
      (ms + (es_start_slot n - es_start_slot e) * es_slot_length_ms e) (n :: l) = Ok m).
Proof.
  intros Hlt Hz%Z.eqb_neq. cbn [slot_start_walk]. rewrite Hz. bcase.
  - split.
    + intros H'. binv H'. ok_inv. subst. left. auto.
    + intros [(_ & Hs & -> & H1 & H2)|(? & _)]; [|lia].
      by rewrite checked_sub_fits; cbn; rewrite ?checked_mul_fits; cbn; rewrite ?checked_add_fits.
  - cbn [ok_or rbind]. rewrite checked_sub_fits by lia. cbn [ok_or rbind]. split.
    + intros H'. binv H'. ok_inv. subst. right. auto.
    + intros [(? & _)|(_ & H1 & H2 & H3)]; [lia|].
      rewrite checked_mul_fits by done. cbn [ok_or rbind].
      rewrite checked_add_fits by done. exact H3.
Qed.

Lemma slot_at_walk_last t i ms e s :
  es_slot_length_ms e <> 0 ->
  slot_at_walk t i ms [e] = Ok s <->
  ms <= t /\ s = es_start_slot e + (t - ms) / es_slot_length_ms e /\ s <= u64_max.
Proof.
  intros Hz%Z.eqb_neq. cbn [slot_at_walk]. rewrite Hz. cbn [next_segment_start rbind]. split.
  - intros H. binv H. ok_inv. subst. auto.
  - intros (H1 & -> & H2). rewrite checked_sub_fits by done. cbn. by rewrite checked_add_fits.
Qed.

Lemma slot_at_walk_cons t i ms e n l s :
  es_start_slot e < es_start_slot n -> es_slot_length_ms e <> 0 ->
  let next := ms + (es_start_slot n - es_start_slot e) * es_slot_length_ms e in
  slot_at_walk t i ms (e :: n :: l) = Ok s <->
  (es_start_slot n - es_start_slot e) * es_slot_length_ms e <= u64_max /\ next <= u64_max /\
  ((t < next /\ ms <= t /\ s = es_start_slot e + (t - ms) / es_slot_length_ms e /\ s <= u64_max) \/
   (next <= t /\ slot_at_walk t (i + 1) next (n :: l) = Ok s)).
Proof.
  intros Hlt Hz%Z.eqb_neq next. cbn [slot_at_walk]. rewrite Hz. unfold next_segment_start.
  rewrite checked_sub_fits by lia. cbn [ok_or rbind].
  destruct (Z.le_gt_cases ((es_start_slot n - es_start_slot e) * es_slot_length_ms e) u64_max).
  2: { unfold checked_mul. destruct (Z.leb_spec ((es_start_slot n - es_start_slot e) * es_slot_length_ms e) u64_max);
       [lia|]. cbn. split; [done|]. intros (? & _). lia. }
  rewrite checked_mul_fits by done. cbn [ok_or rbind].
  destruct (Z.le_gt_cases next u64_max).
  2: { unfold checked_add. fold next. destruct (Z.leb_spec next u64_max); [lia|].
       cbn. split; [done|]. intros (_ & ? & _). lia. }
  rewrite checked_add_fits by done. cbn [ok_or rbind]. fold next. bcase.
  - split.
    + intros H'. binv H'. ok_inv. subst s. split; [done|split; [done|]]. left. subst. auto.
    + intros (_ & _ & [(_ & H2 & -> & H3)|(? & _)]); [|lia].
      rewrite checked_sub_fits by done. cbn. by rewrite checked_add_fits.
  - cbn [ok_or rbind]. split; [auto|]. intros (_ & _ & [(? & _)|(_ & ?)]); [lia|done].
Qed.

Lemma slot_start_walk_ge s i ms l m :
  walkable l -> slot_start_walk s i ms l = Ok m ->
  (forall e, head l = Some e -> es_start_slot e <= s) -> ms <= m.
Proof.
  revert i ms. induction l as [|e l IH]; [done|]. intros i ms Hw H Hs.
  specialize (Hs e eq_refl). pose proof (walkable_cons _ _ Hw) as (? & ? & ? & ?).
  destruct l as [|n l].
  { apply slot_start_walk_last in H as (? & ? & -> & ? & ?). nia. }
  pose proof (increasing_head e n l (proj2 (proj2 Hw))).
  apply slot_start_walk_cons in H as [(? & ? & -> & _)|(Hn & ? & ? & H)]; [nia| |lia|lia].
  apply IH in H; [nia|by eapply walkable_tail|by intros ? [= <-]].
Qed.

(** A slot's start time lies in that slot, and no later slot has started by then. *)
Lemma slot_at_walk_bracket t l : is_u64 t -> forall i ms s,
  walkable l -> slot_at_walk t i ms l = Ok s -> ms <= t -> 0 <= ms ->
  (forall e, head l = Some e -> es_start_slot e <= s) /\
  exists m e, slot_start_walk s i ms l = Ok m /\ covering s l = Some e /\
    m <= t < m + es_slot_length_ms e.
Proof.
  intros Ht. induction l as [|e l IH]; [done|]. intros i ms s Hw H Hms Hms0.
  pose proof (walkable_cons _ _ Hw) as (? & ? & ? & ?).
  assert (Hin : forall x, 0 <= x ->
    x / es_slot_length_ms e * es_slot_length_ms e <= x <
    x / es_slot_length_ms e * es_slot_length_ms e + es_slot_length_ms e /\
    0 <= x / es_slot_length_ms e).
  { intros x Hx. pose proof (Z.div_mod x (es_slot_length_ms e)).
    pose proof (Z.mod_pos_bound x (es_slot_length_ms e)).
    pose proof (Z.div_pos x (es_slot_length_ms e)). lia. }
  specialize (Hin (t - ms) ltac:(lia)) as [Hin Hpos].
  destruct l as [|n l].
  - apply slot_at_walk_last in H as (? & -> & ?); [|lia]. split; [intros ? [= <-]; lia|].
    exists (ms + (t - ms) / es_slot_length_ms e * es_slot_length_ms e), e.
    split; [|split; [done|lia]]. apply slot_start_walk_last. rewrite Z.add_simpl_l. width. lia.
  - pose proof (increasing_head e n l (proj2 (proj2 Hw))) as Hlt.
    apply slot_at_walk_cons in H as (Hm & Hnext & [(Hin' & ? & -> & ?)|(Hn & H)]); [| |lia|lia].
    + assert ((t - ms) / es_slot_length_ms e < es_start_slot n - es_start_slot e)
        by (apply Z.div_lt_upper_bound; lia).
      split; [intros ? [= <-]; lia|].
      exists (ms + (t - ms) / es_slot_length_ms e * es_slot_length_ms e), e.
      split; [|split; [|lia]].
      * apply slot_start_walk_cons; [lia|lia|]. left. rewrite Z.add_simpl_l. width. lia.
      * cbn [covering]. bcase; [done|lia].
    + apply IH in H as (Hh & m & f & Hs1 & Hs2 & Hs3); [|by eapply walkable_tail|lia|nia].
      specialize (Hh n eq_refl). split; [intros ? [= <-]; lia|].
      exists m, f. split; [|split; [|done]].
      * apply slot_start_walk_cons; [lia|lia|]. right. auto.
      * cbn [covering]. bcase; [lia|done].
Qed.

(** * The timing table *)

Lemma timing_table_cons ms e n l tbl :
  es_start_slot e < es_start_slot n -> es_slot_length_ms e <> 0 ->
  let next := ms + (es_start_slot n - es_start_slot e) * es_slot_length_ms e in
  timing_table ms (e :: n :: l) = Ok tbl <->
  (es_start_slot n - es_start_slot e) * es_slot_length_ms e <= u64_max /\ next <= u64_max /\
  exists rest, timing_table next (n :: l) = Ok rest /\
    tbl = (es_start_slot e, es_slot_length_ms e, ms) :: rest.
Proof.
  intros Hlt Hz%Z.eqb_neq next.
  change (timing_table ms (e :: n :: l)) with
    (if es_slot_length_ms e =? 0 then Err TimingAnchor.MalformedSegments else
     let? span := ok_or (checked_sub (es_start_slot n) (es_start_slot e))
                    TimingAnchor.MalformedSegments in
     let? ms' := ok_or (checked_mul span (es_slot_length_ms e)) TimingAnchor.Overflow in
     let? t := ok_or (checked_add ms ms') TimingAnchor.Overflow in
     let? tail := timing_table t (n :: l) in
     Ok ((es_start_slot e, es_slot_length_ms e, ms) :: tail)).
  rewrite Hz, checked_sub_fits by lia. cbn [ok_or rbind]. split.
  - intros H. binv H. ok_inv. subst. eauto.
  - intros (H1 & H2 & rest & H3 & ->). rewrite checked_mul_fits by done. cbn [ok_or rbind].
    rewrite checked_add_fits by done. cbn [ok_or rbind]. fold next. by rewrite H3.
Qed.

Lemma timing_table_head ms e l tbl :
  timing_table ms (e :: l) = Ok tbl ->
  exists rest, tbl = (es_start_slot e, es_slot_length_ms e, ms) :: rest.
Proof.
  destruct l as [|n l]; cbn [timing_table]; intros H; binv H; ok_inv; subst; eauto.
Qed.

(** The table as the anchor reads it: each segment starts where the one before ends. *)
Fixpoint chain (tbl : list Segment) : Prop :=
  match tbl with
  | (s, len, ms) :: rest =>
      1 <= len /\
      match rest with
      | (s', _, ms') :: _ => s < s' /\ ms' = ms + (s' - s) * len /\ chain rest
      | [] => True
      end
  | [] => True
  end.

Lemma timing_table_chain ms l tbl : walkable l -> timing_table ms l = Ok tbl -> chain tbl.
Proof.
  revert ms tbl. induction l as [|e l IH]; intros ms tbl Hw H; [by injection H as <-|].
  pose proof (walkable_cons _ _ Hw) as (? & ? & ? & ?).
  destruct l as [|n l].
  { cbn [timing_table] in H. binv H. ok_inv. subst. cbn. lia. }
  pose proof (increasing_head e n l (proj2 (proj2 Hw))).
  apply timing_table_cons in H as (_ & _ & rest & Hr & ->); [|lia|lia].
  pose proof (IH _ _ (walkable_tail _ _ Hw) Hr) as Hc.
  apply timing_table_head in Hr as [rest' ->]. cbn [chain]. split; [lia|]. auto.
Qed.

Lemma slot_at_walk_table t l : forall i ms tbl,
  walkable l -> l <> [] -> timing_table ms l = Ok tbl -> ms <= t ->
  anchor_walk t tbl = map_err (fun _ => TimingAnchor.Overflow) (slot_at_walk t i ms l).
Proof.
  induction l as [|e l IH]; [done|]. intros i ms tbl Hw _ H Hms.
  pose proof (walkable_cons _ _ Hw) as (? & ? & Hlen & ?).
  assert (Hz : (es_slot_length_ms e =? 0) = false) by (apply Z.eqb_neq; lia).
  destruct l as [|n l].
  - cbn [timing_table slot_at_walk next_segment_start rbind] in *. rewrite Hz in *.
    injection H as <-. cbn [anchor_walk]. rewrite checked_sub_fits by done. cbn [ok_or rbind].
    by destruct (checked_add _ _).
  - pose proof (increasing_head e n l (proj2 (proj2 Hw))) as Hlt.
    apply timing_table_cons in H as (Hf1 & Hf2 & rest & Hr & ->); [|lia|lia].
    cbn [slot_at_walk]. rewrite Hz. unfold next_segment_start.
    rewrite checked_sub_fits by lia. cbn [ok_or rbind].
    rewrite checked_mul_fits by done. cbn [ok_or rbind].
    rewrite checked_add_fits by done. cbn [ok_or rbind].
    destruct (timing_table_head _ _ _ _ Hr) as [rest' ->]. cbn [anchor_walk]. bcase.
    + rewrite checked_sub_fits by done. cbn [ok_or rbind]. by destruct (checked_add _ _).
    + cbn [ok_or rbind].
      apply (IH (i + 1)) in Hr; [exact Hr|by eapply walkable_tail|done|done].
Qed.

(** Instants at which a slot starts are mapped back to that slot. *)
Lemma slot_start_walk_inverse s l : forall i ms tbl m,
  is_u64 s -> walkable l -> timing_table ms l = Ok tbl -> slot_start_walk s i ms l = Ok m ->
  (forall e, head l = Some e -> es_start_slot e <= s) ->
  slot_at_walk m i ms l = Ok s.
Proof.
  induction l as [|e l IH]; [done|]. intros i ms tbl m Hs Hw Ht H He.
  specialize (He e eq_refl). pose proof (walkable_cons _ _ Hw) as (? & ? & ? & ?).
  assert (Hdiv : forall x, (ms + x * es_slot_length_ms e - ms) / es_slot_length_ms e = x)
    by (intros; rewrite Z.add_simpl_l; apply Z.div_mul; lia).
  destruct l as [|n l].
  - apply slot_start_walk_last in H as (? & ? & -> & ? & ?).
    apply slot_at_walk_last; [lia|]. rewrite Hdiv. width. split; [nia|lia].
  - pose proof (increasing_head e n l (proj2 (proj2 Hw))) as Hlt.
    apply timing_table_cons in Ht as (H1' & H2' & rest & Hr & ->); [|lia|lia].
    apply slot_at_walk_cons; [lia|lia|]. split; [done|split; [done|]].
    apply slot_start_walk_cons in H as [(Hlt' & ? & -> & ?)|(Hn & ? & ? & H)]; [| |lia|lia].
    + left. rewrite Hdiv. width. split; [nia|]. split; [nia|lia].
    + assert (forall e, head (n :: l) = Some e -> es_start_slot e <= s)
        by (by intros ? [= <-]).
      right. split; [by eapply slot_start_walk_ge; [eapply walkable_tail|..]|].
      eapply IH; eauto using walkable_tail.
Qed.

(** * The suffix an anchor keeps *)

Lemma suffix_from_cons x s len ms rest :
  suffix_from x ((s, len, ms) :: rest) =
    match suffix_from x rest with
    | Some k => Some k
    | None => if s <=? x then Some ((s, len, ms) :: rest) else None
    end.
Proof. done. Qed.

Lemma suffix_from_head x tbl segs :
  chain tbl -> suffix_from x tbl = Some segs ->
  segs <> [] /\ exists s len ms rest, tbl = (s, len, ms) :: rest /\ s <= x.
Proof.
  revert segs. induction tbl as [|[[s len] ms] rest IH]; [done|]. intros segs Hc H.
  rewrite suffix_from_cons in H. destruct (suffix_from x rest) as [k|] eqn:E.
  - injection H as ->. destruct rest as [|[[s' l'] m'] rest']; [done|].
    destruct Hc as (_ & Hlt & _ & Hc). destruct (IH _ Hc eq_refl) as (Hne & a & b & c & d & [= <- <- <- <-] & ?).
    split; [done|]. repeat eexists. lia.
  - destruct (Z.leb_spec s x); [|done]. injection H as <-. split; [done|]. by repeat eexists.
Qed.

Lemma suffix_from_some x s len ms rest : s <= x -> exists k, suffix_from x ((s, len, ms) :: rest) = Some k.
Proof.
  intros Hx. rewrite suffix_from_cons. destruct (suffix_from x rest); [eauto|].
  destruct (Z.leb_spec s x); [eauto|lia].
Qed.

Lemma anchor_walk_suffix d t x tbl segs :
  chain tbl -> anchor_walk d tbl = Ok x -> suffix_from x tbl = Some segs -> d <= t ->
  anchor_walk t segs = anchor_walk t tbl.
Proof.
  intros Hc Hd Hs Hdt. revert Hc Hd Hs. induction tbl as [|[[s len] ms] rest IH]; [done|].
  intros Hc Hd Hs. rewrite suffix_from_cons in Hs.
  destruct (suffix_from x rest) as [k|] eqn:E.
  2: { destruct (s <=? x); [|done]. by injection Hs as <-. }
  injection Hs as ->. destruct rest as [|[[s' l'] m'] rest']; [done|].
  destruct Hc as (Hlen & Hlt & -> & Hc).
  destruct (suffix_from_head _ _ _ Hc E) as (_ & a & b & c & r & [= <- <- <- <-] & Hx).
  cbn [anchor_walk] in Hd |- *. destruct (Z.ltb_spec d (ms + (s' - s) * len)).
  - exfalso. binv Hd. ok_inv. subst.
    assert ((d - ms) / len < s' - s) by (apply Z.div_lt_upper_bound; lia). lia.
  - destruct (Z.ltb_spec t (ms + (s' - s) * len)); [lia|]. by apply IH.
Qed.

(** * Schedules *)

(** A complete schedule: well typed, accepted by [new], beginning at slot 0. *)
Record complete (s : EraSchedule) : Prop := {
  complete_typed : typed s;
  complete_wf : wf_eras (eras s);
  complete_from_zero : option_map es_start_slot (head (eras s)) = Some 0;
}.

(** Every segment of the schedule begins at a representable instant. *)
Definition representable (s : EraSchedule) : Prop :=
  exists tbl, timing_table (system_start_unix_ms s) (eras s) = Ok tbl.

Lemma complete_walkable s : complete s -> walkable (eras s).
Proof. intros [[_ Ht] (_ & Hn & Hi) _]. done. Qed.

Lemma complete_cons s :
  complete s -> exists first rest, eras s = first :: rest /\ es_start_slot first = 0.
Proof. intros [_ _ H]. destruct (eras s) as [|f r]; [done|]. injection H as H. eauto. Qed.

Lemma slot_at_eq s t :
  complete s -> system_start_unix_ms s <= t ->
  slot_at s t = slot_at_walk t 0 (system_start_unix_ms s) (eras s).
Proof.
  intros Hc Ht. destruct (complete_cons s Hc) as (f & r & E & Hf).
  unfold slot_at. rewrite E, Hf. cbn [negb Z.eqb]. bcase; [lia|done].
Qed.

Lemma slot_at_after_start s t x : slot_at s t = Ok x -> system_start_unix_ms s <= t.
Proof.
  unfold slot_at. destruct (eras s); [done|]. destruct (negb _); [done|]. bcase; [done|lia].
Qed.

Lemma slot_start_eq s x :
  complete s ->
  slot_start_time_ms s x = slot_start_walk x 0 (system_start_unix_ms s) (eras s).
Proof.
  intros Hc. destruct (complete_cons s Hc) as (f & r & E & Hf).
  unfold slot_start_time_ms. by rewrite E, Hf.
Qed.

Lemma complete_start s : complete s -> 0 <= system_start_unix_ms s <= u64_max.
Proof. intros [[H _] _ _]. exact H. Qed.

Lemma slot_at_start_inverse s x m :
  complete s -> representable s -> is_u64 x -> slot_start_time_ms s x = Ok m ->
  slot_at s m = Ok x.
Proof.
  intros Hc [tbl Ht] Hx H. rewrite slot_start_eq in H by done.
  pose proof (complete_walkable s Hc) as Hw.
  assert (Hh : forall e, head (eras s) = Some e -> es_start_slot e <= x).
  { destruct (complete_cons s Hc) as (f & r & -> & Hf). intros ? [= <-]. width. lia. }
  rewrite slot_at_eq; [|done|by eapply slot_start_walk_ge].
  by eapply slot_start_walk_inverse.
Qed.

(** The inverse of the clock: on a complete schedule whose segment boundaries are
    representable, the start time of a slot is an instant at which [slot_at] gives
    back that slot. *)
Theorem slot_start_then_slot_at s x m
    (Hc : complete s) (Hr : representable s) (Hx : is_u64 x)
    (H : slot_start_time_ms s x = Ok m) : slot_at s m = Ok x.
Proof. by eapply slot_at_start_inverse. Qed.

(** [slot_at] brackets the captured instant: the slot it returns has started, and
    its own era's slot length has not elapsed since. *)
Theorem slot_at_bracket s t x
    (Hc : complete s) (Ht : is_u64 t) (H : slot_at s t = Ok x) :
  exists m e, slot_start_time_ms s x = Ok m /\ covering x (eras s) = Some e /\
    m <= t < m + es_slot_length_ms e.
Proof.
  pose proof (slot_at_after_start _ _ _ H) as Hs.
  rewrite slot_at_eq in H by done. rewrite slot_start_eq by done.
  pose proof (complete_start s Hc).
  by eapply slot_at_walk_bracket in H as (_ & ?);
    [|exact Ht|apply complete_walkable|exact Hs|lia].
Qed.

Section Derived.
Variable blake2b_256 : list Z -> Hash32.

Lemma derive_agrees s d x :
  complete s -> representable s -> slot_at s d = Ok x -> is_u64 x ->
  exists a, derive blake2b_256 s d = Ok a /\
    domain_start_ms a = d /\ domain_start_slot a = x /\ is_derived_from blake2b_256 a s = true /\
    (forall t, t < d -> anchor_slot_at a t = Err (TimingAnchor.BeforeDomainStart t d)) /\
    (forall t, d <= t ->
       anchor_slot_at a t = map_err (fun _ => TimingAnchor.Overflow) (slot_at s t)).
Proof.
  intros Hc [tbl Ht] Hd Hx. pose proof (slot_at_after_start _ _ _ Hd) as Hsd.
  pose proof (complete_walkable s Hc) as Hw.
  pose proof (timing_table_chain _ _ _ Hw Ht) as Hch.
  assert (Hne : eras s <> []) by (by destruct (complete_wf s Hc)).
  assert (Hwalk : forall t, system_start_unix_ms s <= t ->
    anchor_walk t tbl = map_err (fun _ => TimingAnchor.Overflow) (slot_at s t)).
  { intros t Hst. rewrite slot_at_eq by done. by apply slot_at_walk_table. }
  destruct (complete_cons s Hc) as (f & r & E & Hf).
  destruct (timing_table_head (system_start_unix_ms s) f r tbl) as [rest Etbl]; [by rewrite <- E|].
  destruct (suffix_from_some x (es_start_slot f) (es_slot_length_ms f) (system_start_unix_ms s) rest)
    as [segs Hsegs]; [width; lia|]. rewrite <- Etbl in Hsegs.
  destruct (suffix_from_head _ _ _ Hch Hsegs) as [Hsne _].
  assert (Hdw : anchor_walk d tbl = Ok x) by (by rewrite Hwalk, Hd).
  exists (mk_DerivedTimingAnchor d x segs (schedule_timing_commitment blake2b_256 s)).
  split; [|split; [done|split; [done|split; [|split]]]].
  - unfold derive. rewrite Hd. cbn [map_err rbind]. rewrite Ht. cbn [rbind].
    rewrite Hsegs. cbn [ok_or rbind]. by destruct segs.
  - unfold is_derived_from. cbn. by apply bool_decide_eq_true.
  - intros t Hlt. unfold anchor_slot_at. cbn. bcase; [done|lia].
  - intros t Hlt. unfold anchor_slot_at. cbn [domain_start_ms segments]. bcase; [lia|].
    rewrite <- Hwalk by lia. by eapply anchor_walk_suffix.
Qed.

(** A derived anchor is a projection of its schedule: where the schedule can
    say which slot the domain starts in, [derive] succeeds, the anchor refuses
    every earlier instant, and at every later one it answers exactly as the full
    schedule does. *)
Theorem derive_projection s d x
    (Hc : complete s) (Hr : representable s) (Hd : slot_at s d = Ok x) (Hx : is_u64 x) :
  exists a, derive blake2b_256 s d = Ok a /\
    domain_start_ms a = d /\ domain_start_slot a = x /\ is_derived_from blake2b_256 a s = true /\
    (forall t, t < d -> anchor_slot_at a t = Err (TimingAnchor.BeforeDomainStart t d)) /\
    (forall t, d <= t ->
       anchor_slot_at a t = map_err (fun _ => TimingAnchor.Overflow) (slot_at s t)).
Proof. by apply derive_agrees. Qed.

Lemma derive_for_anchor_agrees s x m :
  complete s -> representable s -> is_u64 x -> slot_start_time_ms s x = Ok m ->
  exists a, derive_for_bootstrap_anchor blake2b_256 s x = Ok a /\
    domain_start_ms a = m /\ domain_start_slot a = x /\ is_derived_from blake2b_256 a s = true /\
    (forall t, t < m -> anchor_slot_at a t = Err (TimingAnchor.BeforeDomainStart t m)) /\
    (forall t, m <= t ->
       anchor_slot_at a t = map_err (fun _ => TimingAnchor.Overflow) (slot_at s t)).
Proof.
  intros Hc Hr Hx Hm. pose proof (slot_at_start_inverse _ _ _ Hc Hr Hx Hm) as Hs.
  destruct (derive_agrees s m x) as (a & Ha & H1 & H2 & H3); try done.
  exists a. split; [|done]. unfold derive_for_bootstrap_anchor.
  rewrite Hm. cbn [map_err rbind]. rewrite Ha. cbn [rbind]. rewrite H2, Z.eqb_refl. done.
Qed.
End Derived.

(** * Location and time *)

Lemma chosen_idx_length s l : l <> [] -> (chosen_idx s l < length l)%nat.
Proof.
  intros Hne. unfold chosen_idx.
  assert (H : forall k i, find_window s k l = Some i -> (i < k + length l)%nat).
  { induction l as [|e l IH]; [done|]. intros k i. destruct l as [|n l]; [done|].
    change (find_window s k (e :: n :: l)) with
      (if (es_start_slot e <=? s) && (s <? es_start_slot n) then Some k
       else find_window s (S k) (n :: l)).
    destruct (_ && _); [intros [= ->]; cbn; lia|].
    intros H%IH; [|done]. cbn [length] in *. lia. }
  destruct (find_window s 0 l) as [i|] eqn:E; [by apply (H 0%nat)|].
  destruct l; [done|]. cbn [length]. lia.
Qed.

Lemma as_u8_small n : (n < 256)%nat -> as_u8 (Z.of_nat n) = Z.of_nat n.
Proof. intros. unfold as_u8. apply Z.mod_small. lia. Qed.

(** What [locate] computes at or after the first era's start. *)
Lemma locate_eq_from s x f e :
  walkable (eras s) -> head (eras s) = Some f -> es_start_slot f <= x ->
  covering x (eras s) = Some e ->
  es_start_slot e <= x /\
  locate s x =
    let? epoch := ok_or (checked_add (es_start_epoch e)
                     ((x - es_start_slot e) / es_epoch_length_slots e))
                     (SlotAfterLastEra x u64_max) in
    Ok (mk_EraLocation (as_u8 (Z.of_nat (chosen_idx x (eras s)))) (es_era e) epoch
          ((x - es_start_slot e) mod es_epoch_length_slots e)).
Proof.
  intros Hw E Hfx He.
  destruct (covering_spec _ _ _ (proj2 (proj2 Hw)) He) as [Hin Hle].
  split; [apply Hle; eauto|].
  unfold locate. destruct (eras s) as [|f' r]; [done|]. injection E as ->. bcase; [lia|].
  rewrite (era_at_covering x (f :: r) f e) by done.
  destruct (checked_add _ _); [|done]. cbn [ok_or rbind]. do 2 f_equal.
  destruct Hw as (Ht & Hz & _).
  rewrite Forall_forall in Ht, Hz. specialize (Ht _ Hin) as (_ & _ & _ & ? & _).
  specialize (Hz _ Hin) as [_ ?].
  pose proof (Z.mod_pos_bound (x - es_start_slot e) (es_epoch_length_slots e)).
  unfold as_u32. apply Z.mod_small. width. lia.
Qed.

Lemma locate_eq s x e :
  complete s -> is_u64 x -> covering x (eras s) = Some e ->
  es_start_slot e <= x /\
  locate s x =
    let? epoch := ok_or (checked_add (es_start_epoch e)
                     ((x - es_start_slot e) / es_epoch_length_slots e))
                     (SlotAfterLastEra x u64_max) in
    Ok (mk_EraLocation (as_u8 (Z.of_nat (chosen_idx x (eras s)))) (es_era e) epoch
          ((x - es_start_slot e) mod es_epoch_length_slots e)).
Proof.
  intros Hc Hx He. destruct (complete_cons s Hc) as (f & r & E & Hf).
  apply (locate_eq_from s x f); [by apply complete_walkable|by rewrite E|width; lia|done].
Qed.

(** [locate] names the era whose window holds the slot, and the epoch and
    relative slot it returns reconstruct the slot: for at most 256 eras (the range of
    the [u8] index) the era index points at that era. *)
Theorem locate_correct s x loc
    (Hc : complete s) (Hlen : (length (eras s) <= 256)%nat) (Hx : is_u64 x)
    (H : locate s x = Ok loc) :
  exists e, eras s !! Z.to_nat (loc_era_index loc) = Some e /\ covering x (eras s) = Some e /\
    loc_era loc = es_era e /\ es_start_slot e <= x /\
    0 <= loc_relative_slot_in_epoch loc < es_epoch_length_slots e /\
    x = es_start_slot e + (loc_epoch loc - es_start_epoch e) * es_epoch_length_slots e
        + loc_relative_slot_in_epoch loc.
Proof.
  assert (Hne : eras s <> []) by (by destruct (complete_wf s Hc)).
  destruct (covering_some x (eras s) Hne) as [e He]. exists e.
  destruct (locate_eq s x e Hc Hx He) as [Hle Heq]. rewrite Heq in H.
  binv H. ok_inv. subst. cbn [loc_era_index loc_era loc_epoch loc_relative_slot_in_epoch].
  pose proof (chosen_idx_length x (eras s) Hne).
  rewrite as_u8_small, Nat2Z.id by lia.
  destruct (complete_cons s Hc) as (f & r & E & Hf).
  pose proof (complete_walkable s Hc) as (Ht & Hz & Hi).
  destruct (covering_spec _ _ _ Hi He) as [Hin _].
  rewrite Forall_forall in Ht, Hz. specialize (Ht _ Hin) as (_ & _ & _ & ? & _).
  specialize (Hz _ Hin) as [_ ?].
  pose proof (Z.mod_pos_bound (x - es_start_slot e) (es_epoch_length_slots e)).
  pose proof (Z.div_mod (x - es_start_slot e) (es_epoch_length_slots e)).
  split; [|split; [done|split; [done|split; [done|width; lia]]]].
  rewrite <- He. apply (chosen_covering x (eras s) f); [by rewrite E|width; lia].
Qed.

Lemma accumulate_ms_walk x l : forall i ms m,
  walkable l -> (forall e, head l = Some e -> es_start_slot e <= x) ->
  (let? (acc_ms, curr) := accumulate_ms (chosen_idx x l) ms l in
   let? curr := ok_or curr SlotTime_Overflow in
   let? o := ok_or (checked_sub x (es_start_slot curr)) SlotTime_Overflow in
   let? era_ms := ok_or (checked_mul o (es_slot_length_ms curr)) SlotTime_Overflow in
   ok_or (checked_add acc_ms era_ms) SlotTime_Overflow) = Ok m <->
  slot_start_walk x i ms l = Ok m.
Proof.
  assert (Hdone : forall e ms m, es_start_slot e <= x ->
    (let? o := ok_or (checked_sub x (es_start_slot e)) SlotTime_Overflow in
     let? era_ms := ok_or (checked_mul o (es_slot_length_ms e)) SlotTime_Overflow in
     ok_or (checked_add ms era_ms) SlotTime_Overflow) = Ok m <->
    m = ms + (x - es_start_slot e) * es_slot_length_ms e /\
    (x - es_start_slot e) * es_slot_length_ms e <= u64_max /\ m <= u64_max).
  { intros e ms m He. split.
    - intros H. binv H. ok_inv. subst. auto.
    - intros (-> & H1 & H2). rewrite checked_sub_fits by done. cbn [ok_or rbind].
      rewrite checked_mul_fits by done. cbn [ok_or rbind]. by rewrite checked_add_fits. }
  induction l as [|e l IH]; [done|]. intros i ms m Hw Hs.
  specialize (Hs e eq_refl). pose proof (walkable_cons _ _ Hw) as (? & ? & ? & ?).
  destruct l as [|n l].
  { rewrite slot_start_walk_last. cbn [chosen_idx find_window length Nat.sub accumulate_ms rbind head ok_or].
    rewrite Hdone by done. intuition lia. }
  pose proof (increasing_head e n l (proj2 (proj2 Hw))) as Hlt.
  rewrite slot_start_walk_cons by lia. rewrite chosen_cons by done. bcase.
  - cbn [accumulate_ms rbind head ok_or]. rewrite Hdone by done. intuition lia.
  - cbn [accumulate_ms]. rewrite checked_sub_fits by lia. cbn [ok_or rbind].
    rewrite <- (IH (i + 1)); [|by eapply walkable_tail|by intros ? [= <-]].
    destruct (Z.le_gt_cases ((es_start_slot n - es_start_slot e) * es_slot_length_ms e) u64_max).
    + rewrite checked_mul_fits by done. cbn [ok_or rbind].
      destruct (Z.le_gt_cases (ms + (es_start_slot n - es_start_slot e) * es_slot_length_ms e) u64_max).
      * rewrite checked_add_fits by done. cbn [ok_or rbind]. intuition lia.
      * unfold checked_add at 1. destruct (Z.leb_spec (ms + (es_start_slot n - es_start_slot e) * es_slot_length_ms e) u64_max); [lia|].
        cbn. intuition (discriminate || lia).
    + unfold checked_mul at 1. destruct (Z.leb_spec ((es_start_slot n - es_start_slot e) * es_slot_length_ms e) u64_max); [lia|].
      cbn. intuition (discriminate || lia).
Qed.

(** The two slot-to-time conversions of the code are one: where [locate]
    answers, [slot_to_time_ms] (the forge's) and [slot_start_time_ms] (the timing
    anchor's) succeed on the same slots with the same instant. *)
Theorem slot_to_time_is_slot_start s x loc m
    (Hc : complete s) (Hlen : (length (eras s) <= 256)%nat) (Hx : is_u64 x)
    (H : locate s x = Ok loc) :
  slot_to_time_ms s x = Ok m <-> slot_start_time_ms s x = Ok m.
Proof.
  assert (Hne : eras s <> []) by (by destruct (complete_wf s Hc)).
  destruct (covering_some x (eras s) Hne) as [e He].
  destruct (locate_eq s x e Hc Hx He) as [_ Heq].
  rewrite slot_start_eq by done. unfold slot_to_time_ms. rewrite H.
  rewrite Heq in H. binv H. ok_inv. subst.
  cbn [map_err rbind loc_era_index].
  pose proof (chosen_idx_length x (eras s) Hne).
  rewrite as_u8_small, Nat2Z.id by lia.
  apply accumulate_ms_walk; [by apply complete_walkable|].
  destruct (complete_cons s Hc) as (f & r & -> & Hf). intros ? [= <-]. width. lia.
Qed.

(** * Concrete schedules *)

(** The preprod calendar: 20 s Byron slots for four 21600-slot epochs, then 1 s slots. *)
Definition preprod_eras : list EraSummary :=
  [ mk_EraSummary Conway 0 0 20000 21600 21600 None;
    mk_EraSummary Conway 86400 4 1000 432000 432000 None ].
Definition preprod : EraSchedule := mk_EraSchedule (repeat 0 32) 1654041600000 preprod_eras.

Ltac solve_typed :=
  split; [cbn; width; lia | repeat constructor; cbn; width; lia].
Ltac solve_complete :=
  constructor; [solve_typed | split; [done | split; [repeat constructor; done | cbn; lia]] | done].

Lemma preprod_complete : complete preprod.
Proof. solve_complete. Defined.

Lemma preprod_representable : representable preprod.
Proof. eexists. vm_compute. reflexivity. Defined.

Lemma slot_start_then_slot_at_witness :
  slot_start_time_ms preprod 129686400 = Ok 1785369600000 /\
  slot_at preprod 1785369600000 = Ok 129686400.
Proof.
  split; [vm_compute; reflexivity|].
  apply slot_start_then_slot_at; [exact preprod_complete|exact preprod_representable|width; lia|].
  vm_compute; reflexivity.
Defined.

Lemma slot_at_bracket_witness :
  exists m e, slot_start_time_ms preprod 7 = Ok m /\ covering 7 (eras preprod) = Some e /\
    m <= 1654041759999 < m + es_slot_length_ms e.
Proof.
  apply slot_at_bracket; [exact preprod_complete|width; lia|vm_compute; reflexivity].
Defined.

Lemma derive_projection_witness :
  exists a, derive (fun _ => repeat 0 32) preprod 1785369600000 = Ok a /\
    domain_start_ms a = 1785369600000 /\ domain_start_slot a = 129686400 /\
    is_derived_from (fun _ => repeat 0 32) a preprod = true /\
    (forall t, t < 1785369600000 ->
      anchor_slot_at a t = Err (TimingAnchor.BeforeDomainStart t 1785369600000)) /\
    (forall t, 1785369600000 <= t ->
      anchor_slot_at a t = map_err (fun _ => TimingAnchor.Overflow) (slot_at preprod t)).
Proof.
  apply derive_projection;
    [exact preprod_complete|exact preprod_representable|vm_compute; reflexivity|width; lia].
Defined.

Lemma locate_correct_witness :
  exists e, eras preprod !! Z.to_nat 1 = Some e /\ covering 129686401 (eras preprod) = Some e /\
    Conway = es_era e /\ es_start_slot e <= 129686401 /\
    0 <= 1 < es_epoch_length_slots e /\
    129686401 = es_start_slot e + (304 - es_start_epoch e) * es_epoch_length_slots e + 1.
Proof.
  apply (locate_correct preprod 129686401 (mk_EraLocation 1 Conway 304 1));
    [exact preprod_complete|cbn; lia|width; lia|vm_compute; reflexivity].
Defined.

Lemma slot_to_time_is_slot_start_witness :
  slot_to_time_ms preprod 129686400 = Ok 1785369600000 <->
  slot_start_time_ms preprod 129686400 = Ok 1785369600000.
Proof.
  apply (slot_to_time_is_slot_start preprod 129686400 (mk_EraLocation 1 Conway 304 0));
    [exact preprod_complete|cbn; lia|width; lia|vm_compute; reflexivity].
Defined.
