(* ===== verification/Extension.v ===== *)
(** Schedule extension and the bootstrap-bound timing authority of [EraSchedule].

    A node starts from a one-era schedule and extends it by one summary per epoch;
    the schedules it reaches that way are [uniform].  On a uniform schedule the answer
    of [locate] depends on the seed alone, so a live follow and a warm-start replay,
    which extend at different moments, locate every slot alike. *)

From S2P Require Import Prelude Envelope EraSchedule Timing.

(** Every era continues the seed's own epoch grid. *)
Definition on_grid (seed e : EraSummary) : Prop :=
  es_start_epoch seed <= es_start_epoch e /\
  es_start_slot e = es_start_slot seed
    + (es_start_epoch e - es_start_epoch seed) * es_epoch_length_slots seed /\
  es_epoch_length_slots e = es_epoch_length_slots seed /\
  es_slot_length_ms e = es_slot_length_ms seed /\
  es_era e = es_era seed /\
  es_randomness_stabilisation_window_slots e = es_randomness_stabilisation_window_slots seed /\
  es_epoch_length_slots seed <= es_safe_zone_slots e.

Record uniform (seed : EraSummary) (s : EraSchedule) : Prop := {
  uniform_head : head (eras s) = Some seed;
  uniform_typed : typed s;
  uniform_wf : wf_eras (eras s);
  uniform_grid : Forall (on_grid seed) (eras s);
}.

Lemma seed_bounds seed s : uniform seed s ->
  is_u64 (es_start_slot seed) /\ is_u64 (es_start_epoch seed) /\
  1 <= es_epoch_length_slots seed <= u32_max /\ 1 <= es_slot_length_ms seed.
Proof.
  intros [Hh [_ Ht] (_ & Hz & _) _]. destruct (eras s) as [|e l]; [done|]. injection Hh as ->.
  apply Forall_cons in Ht as [(? & ? & ? & ? & ?) _], Hz as [[? ?] _]. width. lia.
Qed.

Lemma last_grid seed s e : uniform seed s -> last (eras s) = Some e -> on_grid seed e.
Proof.
  intros Hu Hl. pose proof (uniform_grid _ _ Hu) as Hg. rewrite Forall_forall in Hg.
  apply Hg. by apply last_Some_elem_of.
Qed.

Lemma covering_grid seed s x e : uniform seed s -> covering x (eras s) = Some e -> on_grid seed e.
Proof.
  intros Hu He. pose proof (uniform_grid _ _ Hu) as Hg. rewrite Forall_forall in Hg.
  apply Hg. destruct (uniform_wf _ _ Hu) as (_ & _ & Hi).
  by destruct (covering_spec _ _ _ Hi He).
Qed.

(** The epoch of a slot on the seed's grid. *)
Definition grid_epoch (seed : EraSummary) (slot : Z) : Z :=
  es_start_epoch seed + (slot - es_start_slot seed) / es_epoch_length_slots seed.

Lemma grid_div seed e x :
  on_grid seed e -> 1 <= es_epoch_length_slots seed ->
  es_start_epoch e + (x - es_start_slot e) / es_epoch_length_slots e = grid_epoch seed x /\
  (x - es_start_slot e) mod es_epoch_length_slots e
    = (x - es_start_slot seed) mod es_epoch_length_slots seed.
Proof.
  intros (_ & Hs & HL & _) H1. unfold grid_epoch. rewrite Hs, HL.
  set (d := es_start_epoch e - es_start_epoch seed).
  set (L := es_epoch_length_slots seed) in *.
  replace (x - (es_start_slot seed + d * L)) with (x - es_start_slot seed + (- d) * L) by lia.
  rewrite Z.div_add, Z.mod_add by lia. lia.
Qed.

Lemma uniform_walkable seed s : uniform seed s -> walkable (eras s).
Proof. intros [_ [_ Ht] (_ & Hz & Hi) _]. done. Qed.

Lemma uniform_locate seed s x :
  uniform seed s -> es_start_slot seed <= x ->
  locate s x =
    let? epoch := ok_or (if grid_epoch seed x <=? u64_max then Some (grid_epoch seed x) else None)
                    (SlotAfterLastEra x u64_max) in
    Ok (mk_EraLocation (as_u8 (Z.of_nat (chosen_idx x (eras s)))) (es_era seed) epoch
          ((x - es_start_slot seed) mod es_epoch_length_slots seed)).
Proof.
  intros Hu Hx. destruct (uniform_wf _ _ Hu) as (Hne & _).
  destruct (covering_some x (eras s) Hne) as [e He].
  pose proof (covering_grid _ _ _ _ Hu He) as Hg.
  destruct (locate_eq_from s x seed e (uniform_walkable _ _ Hu) (uniform_head _ _ Hu) Hx He)
    as [_ ->].
  destruct (seed_bounds _ _ Hu) as (_ & _ & HL & _).
  destruct (grid_div seed e x Hg) as [Hep Hrel]; [lia|].
  unfold checked_add. rewrite Hep, Hrel. by destruct Hg as (_ & _ & _ & _ & -> & _).
Qed.

(** Locating a slot does not depend on how far the schedule was extended: any
    two schedules grown from the same seed give it the same era, epoch and relative
    slot, or both refuse it. *)
Theorem locate_extension_independent seed s s' x
    (Hs : uniform seed s) (Hs' : uniform seed s') (Hx : es_start_slot seed <= x) :
  match locate s x, locate s' x with
  | Ok l, Ok l' => loc_era l = loc_era l' /\ loc_epoch l = loc_epoch l' /\
      loc_relative_slot_in_epoch l = loc_relative_slot_in_epoch l'
  | Err e, Err e' => e = e'
  | _, _ => False
  end.
Proof.
  rewrite (uniform_locate seed s x Hs Hx), (uniform_locate seed s' x Hs' Hx).
  by destruct (grid_epoch seed x <=? u64_max).
Qed.

(** * Extension *)

Lemma extend_to_epoch_eq s target seed l :
  head (eras s) = Some seed -> last (eras s) = Some l ->
  extend_to_epoch s target =
    if target <=? es_start_epoch l then s else
    match new (anchor s) (system_start_unix_ms s)
            (eras s ++ map (extension_era seed)
               (seqZ (es_start_epoch l + 1) (target - es_start_epoch l))) with
    | Ok x => x
    | Err _ => s
    end.
Proof.
  unfold extend_to_epoch. destruct (eras s) as [|h r]; [done|]. intros [= ->] ->. done.
Qed.

(** On the grid, below the top of [u64], [extension_era] does not wrap. *)
Lemma extension_era_grid seed s e :
  uniform seed s -> is_u64 e -> es_start_epoch seed <= e ->
  es_start_slot seed + (e - es_start_epoch seed) * es_epoch_length_slots seed <= u64_max ->
  es_start_epoch (extension_era seed e) = e /\ typed_era (extension_era seed e) /\
  nonzero (extension_era seed e) /\ on_grid seed (extension_era seed e).
Proof.
  intros Hu He Hge Hmax. destruct (seed_bounds _ _ Hu) as (Hs & Hp & HL & Hm).
  set (d := e - es_start_epoch seed) in *.
  assert (0 <= d * es_epoch_length_slots seed) by (unfold d; nia).
  assert (H1 : as_u64 d = d) by (apply Z.mod_small; unfold d; width; lia).
  assert (H2 : as_u64 (as_u64 d * es_epoch_length_slots seed) = d * es_epoch_length_slots seed)
    by (rewrite H1; apply Z.mod_small; width; lia).
  assert (H3 : as_u64 (es_start_slot seed + as_u64 (as_u64 d * es_epoch_length_slots seed))
    = es_start_slot seed + d * es_epoch_length_slots seed)
    by (rewrite H2; apply Z.mod_small; width; lia).
  pose proof (uniform_head _ _ Hu) as Hh. destruct (uniform_typed _ _ Hu) as [_ Ht].
  destruct (eras s) as [|h r]; [done|]. injection Hh as ->.
  apply Forall_cons in Ht as [(_ & _ & ? & ? & _) _].
  unfold extension_era, typed_era, nonzero, on_grid. cbn -[as_u64 Z.mul Z.sub].
  fold d. rewrite H3. split; [done|split; [width; lia|split; [lia|]]]. repeat split; lia.
Qed.

Lemma increasing_app l k a b :
  increasing l -> increasing (b :: k) -> last l = Some a -> es_start_slot a < es_start_slot b ->
  increasing (l ++ b :: k).
Proof.
  induction l as [|x l IH]; [done|]. intros Hl Hk Ha Hab. destruct l as [|y l].
  - injection Ha as ->. cbn. auto.
  - destruct Hl as [Hxy Hl]. split; [exact Hxy|]. by apply IH.
Qed.

Lemma extension_increasing seed s from n :
  uniform seed s -> es_start_epoch seed <= from ->
  (forall e, from <= e < from + Z.of_nat n -> is_u64 e /\
     es_start_slot seed + (e - es_start_epoch seed) * es_epoch_length_slots seed <= u64_max) ->
  increasing (map (extension_era seed) (seqZ from (Z.of_nat n))).
Proof.
  intros Hu. revert from. induction n as [|n IH]; intros from Hfrom Hb; [done|].
  rewrite seqZ_cons by lia. replace (Z.pred (Z.of_nat (S n))) with (Z.of_nat n) by lia.
  specialize (IH (Z.succ from)).
  assert (Hb' : forall e, Z.succ from <= e < Z.succ from + Z.of_nat n -> is_u64 e /\
     es_start_slot seed + (e - es_start_epoch seed) * es_epoch_length_slots seed <= u64_max)
    by (intros; apply Hb; lia).
  specialize (IH ltac:(lia) Hb'). destruct n as [|n]; [done|].
  rewrite seqZ_cons in IH |- * by lia. cbn [map increasing] in IH |- *. split; [|exact IH].
  destruct (Hb from ltac:(lia)) as [H1 H2], (Hb (Z.succ from) ltac:(lia)) as [H3 H4].
  destruct (extension_era_grid seed s from) as (E1 & _ & _ & _ & G1 & _); [done..|].
  destruct (extension_era_grid seed s (Z.succ from)) as (E2 & _ & _ & _ & G2 & _); [done|done|lia|done|].
  destruct (seed_bounds _ _ Hu) as (_ & _ & ? & _). rewrite G1, G2, E1, E2. nia.
Qed.

Lemma extension_forall seed s from n :
  uniform seed s -> es_start_epoch seed <= from ->
  (forall e, from <= e < from + Z.of_nat n -> is_u64 e /\
     es_start_slot seed + (e - es_start_epoch seed) * es_epoch_length_slots seed <= u64_max) ->
  Forall (fun x => typed_era x /\ nonzero x /\ on_grid seed x)
    (map (extension_era seed) (seqZ from (Z.of_nat n))).
Proof.
  intros Hu Hfrom Hb. apply Forall_forall. intros x Hx.
  apply list_elem_of_In, in_map_iff in Hx as (e & <- & He%list_elem_of_In%elem_of_seqZ).
  destruct (Hb e ltac:(lia)) as [H1 H2].
  by destruct (extension_era_grid seed s e) as (_ & ?); [done|done|lia|done|].
Qed.

Lemma last_exists {A} (l : list A) : l <> [] -> exists x, last l = Some x.
Proof. intros Hne. destruct (last l) as [x|] eqn:E; [eauto|]. by apply last_None in E. Qed.

(** What extending to a reachable epoch does: the old eras stay where they are, the
    schedule stays on the grid, and its last era is the target epoch's or a later one. *)
Lemma extend_to_epoch_spec seed s target :
  uniform seed s -> is_u64 target ->
  es_start_slot seed + (target - es_start_epoch seed) * es_epoch_length_slots seed <= u64_max ->
  exists l, uniform seed (extend_to_epoch s target) /\
    eras s `prefix_of` eras (extend_to_epoch s target) /\
    last (eras (extend_to_epoch s target)) = Some l /\
    (target <= es_start_epoch l) /\
    (extend_to_epoch s target = s \/ es_start_epoch l = target).
Proof.
  intros Hu Ht Hmax. destruct (last_exists (eras s)) as [l Hl]; [by destruct (uniform_wf _ _ Hu)|].
  rewrite (extend_to_epoch_eq s target seed l); [|by apply uniform_head|done].
  pose proof (last_grid _ _ _ Hu Hl) as Hg. destruct (seed_bounds _ _ Hu) as (? & ? & ? & ?).
  bcase; [by exists l; auto 10|].
  set (n := Z.to_nat (target - es_start_epoch l)).
  replace (target - es_start_epoch l) with (Z.of_nat n) by lia.
  set (ext := map _ _).
  assert (Hle : es_start_epoch seed <= es_start_epoch l) by apply Hg.
  assert (Hb : forall e, es_start_epoch l + 1 <= e < es_start_epoch l + 1 + Z.of_nat n ->
    is_u64 e /\ es_start_slot seed + (e - es_start_epoch seed) * es_epoch_length_slots seed <= u64_max).
  { intros e He. assert (e <= target) by lia. split; [width; lia|].
    transitivity (es_start_slot seed
      + (target - es_start_epoch seed) * es_epoch_length_slots seed); [|done].
    apply Z.add_le_mono_l, Z.mul_le_mono_nonneg_r; lia. }
  pose proof (extension_forall seed s (es_start_epoch l + 1) n Hu ltac:(lia) Hb) as Hall. fold ext in Hall.
  pose proof (extension_increasing seed s (es_start_epoch l + 1) n Hu ltac:(lia) Hb) as Hinc. fold ext in Hinc.
  destruct (uniform_wf _ _ Hu) as (Hne & Hz & Hi). destruct (uniform_typed _ _ Hu) as [Hsys Hty].
  assert (Hlast : exists k, last (eras s ++ ext) = Some k /\ es_start_epoch k = target).
  { exists (extension_era seed target). split; cycle 1.
    { by destruct (extension_era_grid seed s target) as (? & _); [done|done|lia|done|]. }
    unfold ext. destruct n as [|m] eqn:En; [lia|].
    rewrite seqZ_S, map_app, app_assoc. cbn [map]. rewrite last_snoc. do 2 f_equal. lia. }
  assert (Hwf : wf_eras (eras s ++ ext)).
  { split; [by destruct (eras s)|]. split.
    - apply Forall_app. split; [done|]. eapply Forall_impl; [exact Hall|]. tauto.
    - destruct ext as [|x k] eqn:Ex; [by rewrite app_nil_r|].
      apply (increasing_app _ _ l); [done|done|done|].
      unfold ext in Ex. destruct n as [|m] eqn:En; [lia|]. rewrite seqZ_cons in Ex by lia.
      injection Ex as <- _.
      destruct (extension_era_grid seed s (es_start_epoch l + 1)) as (E1 & _ & _ & _ & G1 & _);
        [done|width; lia|lia|apply Hb; lia|].
      destruct Hg as (_ & G2 & _). rewrite G1, G2, E1. nia. }
  rewrite (new_wf _ _ _ Hwf).
  destruct Hlast as (k & Hk & Hkt). exists k.
  split; [|cbn; split; [by eexists|split; [done|split; [lia|by right]]]].
  constructor; cbn; [|split; [done|]|done|].
  - pose proof (uniform_head _ _ Hu). by destruct (eras s).
  - apply Forall_app. split; [done|]. eapply Forall_impl; [exact Hall|]. tauto.
  - apply Forall_app. split; [apply Hu|]. eapply Forall_impl; [exact Hall|]. tauto.
Qed.

(** Extending a schedule to a reachable epoch keeps every era it already had as a
    prefix, stays on the seed's epoch grid (so no locate answer changes), and reaches
    the target: its last era is the target epoch's, or the schedule was already past
    the target and is returned as it was. *)
Theorem extend_to_epoch_reaches seed s target
    (Hu : uniform seed s) (Ht : is_u64 target)
    (Hmax : es_start_slot seed
            + (target - es_start_epoch seed) * es_epoch_length_slots seed <= u64_max) :
  exists l, uniform seed (extend_to_epoch s target) /\
    eras s `prefix_of` eras (extend_to_epoch s target) /\
    last (eras (extend_to_epoch s target)) = Some l /\
    (target <= es_start_epoch l) /\
    (extend_to_epoch s target = s \/ es_start_epoch l = target).
Proof. by apply extend_to_epoch_spec. Qed.

Lemma extend_below seed s target l :
  head (eras s) = Some seed -> last (eras s) = Some l -> target <= es_start_epoch l ->
  extend_to_epoch s target = s.
Proof. intros Hh Hl Ht. rewrite (extend_to_epoch_eq s target seed l) by done. bcase; [done|lia]. Qed.

(** Extension is idempotent, on every schedule and every target: the refusals of
    [new] included, extending again to the same epoch changes nothing. *)
Theorem extend_to_epoch_idempotent s target :
  extend_to_epoch (extend_to_epoch s target) target = extend_to_epoch s target.
Proof.
  destruct (eras s) as [|seed r] eqn:E.
  { assert (H : extend_to_epoch s target = s) by (unfold extend_to_epoch; by rewrite E).
    by rewrite !H. }
  destruct (last_exists (eras s)) as [l Hl]; [by rewrite E|].
  assert (Hh : head (eras s) = Some seed) by (by rewrite E).
  pose proof (extend_to_epoch_eq s target seed l Hh Hl) as Heq. revert Heq. bcase.
  { intros Heq. by rewrite !Heq. }
  destruct (new _ _ _) as [x|] eqn:En; intros Heq; [|by rewrite !Heq].
  rewrite Heq. apply wf_new in En as [-> _].
  apply (extend_below seed _ target (extension_era seed target)); cbn; [by rewrite E| |lia].
  set (n := Z.to_nat (target - es_start_epoch l)).
  replace (target - es_start_epoch l) with (Z.of_nat n) by lia.
  destruct n as [|m] eqn:En; [lia|].
  rewrite seqZ_S, map_app, app_assoc. cbn [map]. rewrite last_snoc. do 2 f_equal. lia.
Qed.

Lemma extend_to_slot_epoch seed s slot : uniform seed s -> is_u64 slot -> es_start_slot seed <= slot ->
  grid_epoch seed slot <= u64_max -> extend_to_slot s slot = extend_to_epoch s (grid_epoch seed slot).
Proof.
  intros Hu Hslot Hle Hep. destruct (seed_bounds _ _ Hu) as (Hs0 & He0 & HL & _).
  pose proof (Z.div_pos (slot - es_start_slot seed) (es_epoch_length_slots seed)) as Hdiv.
  unfold extend_to_slot. pose proof (uniform_head _ _ Hu) as Hh.
  destruct (eras s) as [|h r]; [done|]. injection Hh as ->.
  destruct (Z.eqb_spec (es_epoch_length_slots seed) 0); [lia|].
  destruct (Z.ltb_spec slot (es_start_slot seed)); [lia|]. cbn [orb]. fold (grid_epoch seed slot).
  f_equal. apply Z.mod_small. unfold grid_epoch in *. width. lia.
Qed.

Lemma extend_to_slot_uniform seed s slot : uniform seed s -> is_u64 slot -> es_start_slot seed <= slot ->
  grid_epoch seed slot <= u64_max -> uniform seed (extend_to_slot s slot).
Proof.
  intros Hu Hslot Hle Hep. rewrite (extend_to_slot_epoch seed) by done.
  destruct (seed_bounds _ _ Hu) as (Hs0 & He0 & HL & _).
  pose proof (Z.div_pos (slot - es_start_slot seed) (es_epoch_length_slots seed)) as Hdiv.
  pose proof (Z.div_mod (slot - es_start_slot seed) (es_epoch_length_slots seed)) as Hdm.
  pose proof (Z.mod_pos_bound (slot - es_start_slot seed) (es_epoch_length_slots seed)) as Hmb.
  unfold grid_epoch in *.
  destruct (extend_to_epoch_spec seed s (es_start_epoch seed
      + (slot - es_start_slot seed) / es_epoch_length_slots seed) Hu) as (l & Hu' & _); [width; lia| |done].
  rewrite Z.add_simpl_l. width. lia.
Qed.

(** Extending to a slot does what it is for: the slot is inside the extended
    schedule's forecast horizon, and is located in its epoch on the seed's grid. *)
Theorem extend_to_slot_covers seed s slot
    (Hu : uniform seed s) (Hslot : is_u64 slot) (Hle : es_start_slot seed <= slot)
    (Hep : grid_epoch seed slot <= u64_max) :
  check_forecast_horizon (extend_to_slot s slot) slot = Ok tt /\
  exists loc, locate (extend_to_slot s slot) slot = Ok loc /\
    loc_epoch loc = grid_epoch seed slot /\ loc_era loc = es_era seed /\
    loc_relative_slot_in_epoch loc = (slot - es_start_slot seed) mod es_epoch_length_slots seed.
Proof.
  destruct (seed_bounds _ _ Hu) as (Hs0 & He0 & HL & _).
  pose proof (Z.div_pos (slot - es_start_slot seed) (es_epoch_length_slots seed)) as Hdiv.
  pose proof (Z.div_mod (slot - es_start_slot seed) (es_epoch_length_slots seed)) as Hdm.
  pose proof (Z.mod_pos_bound (slot - es_start_slot seed) (es_epoch_length_slots seed)) as Hmb.
  pose proof (extend_to_slot_epoch seed s slot Hu Hslot Hle Hep) as Heq.
  rewrite Heq. unfold grid_epoch in *.
  destruct (extend_to_epoch_spec seed s (es_start_epoch seed
      + (slot - es_start_slot seed) / es_epoch_length_slots seed) Hu) as (l & Hu' & _ & Hl & Hle' & _).
  { width; lia. }
  { rewrite Z.add_simpl_l. width. lia. }
  split.
  - unfold check_forecast_horizon. rewrite Hl.
    destruct (last_grid _ _ _ Hu' Hl) as (Hge & Hst & _ & _ & _ & _ & Hsz).
    assert (slot < es_start_slot l + es_epoch_length_slots seed).
    { rewrite Hst. nia. }
    unfold saturating_add. width. bcase; [lia|done].
  - rewrite (uniform_locate seed _ slot Hu' Hle). unfold grid_epoch. bcase; [|lia].
    cbn [ok_or rbind]. by eexists.
Qed.

(** The preview calendar: one era from slot 0. *)
Definition preview : EraSchedule :=
  mk_EraSchedule (repeat 0 32) 1666656000000 [mk_EraSummary Conway 0 0 1000 86400 86400 None].

(** The era index of [locate] is a [u8]: on a schedule extended past its 256th
    era the index wraps and names the first era, though the epoch is right. *)

Theorem locate_era_index_wraps :
  let s := extend_to_epoch preview 256 in
  locate s (256 * 86400) = Ok (mk_EraLocation 0 Conway 256 0) /\
  chosen_idx (256 * 86400) (eras s) = 256%nat.
Proof. vm_compute. auto. Qed.

(** * The timing authority *)

Definition typed_history (h : VenueTimingHistory) : Prop :=
  is_u64 (vh_system_start_unix_ms h) /\
  Forall (fun s => is_u64 (vs_start_slot s) /\ is_u64 (vs_start_epoch s) /\
                   is_u32 (vs_slot_length_ms s) /\ is_u32 (vs_epoch_length_slots s)) (vh_segments h).

Lemma to_schedule_ok h s :
  typed_history h -> to_schedule h = Ok s ->
  typed s /\ wf_eras (eras s) /\ system_start_unix_ms s = vh_system_start_unix_ms h /\
  eras s = map to_summary (vh_segments h).
Proof.
  intros [Hs Hf] H. unfold to_schedule in H. apply wf_new in H as [-> Hwf].
  split; [|split; [exact Hwf|split; reflexivity]]. split; [exact Hs|]. cbn. clear Hwf.
  induction Hf as [|x l (? & ? & ? & ?) _ IH]; cbn; constructor; [|done].
  unfold typed_era. cbn. tauto.
Qed.

Lemma slot_at_from_zero s t x :
  slot_at s t = Ok x -> option_map es_start_slot (head (eras s)) = Some 0.
Proof.
  unfold slot_at. destruct (eras s) as [|f r]; [done|]. cbn.
  destruct (Z.eqb_spec (es_start_slot f) 0) as [->|]; done.
Qed.

Lemma check_binding_ok h b :
  check_binding h b = Ok tt <->
  epoch_geometry h (bt_epoch b) = Some (bt_epoch_start_slot b, bt_epoch_length_slots b) /\
  bt_epoch_start_slot b <= bt_anchor_slot b
    < saturating_add (bt_epoch_start_slot b) (bt_epoch_length_slots b).
Proof.
  unfold check_binding. destruct (epoch_geometry _ _) as [[st len]|]; cbn [ok_or rbind].
  2: { split; [done|]. by intros [? _]. }
  destruct (Z.eqb_spec st (bt_epoch_start_slot b)) as [->|];
    [|split; [done|intros [[=] _]; done]].
  destruct (Z.eqb_spec len (bt_epoch_length_slots b)) as [->|];
    [|split; [done|intros [[=] _]; done]].
  destruct (Z.ltb_spec (bt_anchor_slot b) (bt_epoch_start_slot b)); cbn [orb negb];
    [split; [done|intros [_ ?]; lia]|].
  destruct (Z.leb_spec (saturating_add (bt_epoch_start_slot b) (bt_epoch_length_slots b))
              (bt_anchor_slot b)); cbn [negb];
    [split; [done|intros [_ ?]; lia]|]. split; [|done]. intros _. split; [done|lia].
Qed.

Section Established.
Variable blake2b_256 : list Z -> Hash32.

Lemma establish_parts h b auth :
  establish blake2b_256 h b = Ok auth ->
  exists s, check_alignment 0 (vh_segments h) = Ok tt /\ to_schedule h = Ok s /\
    check_binding h b = Ok tt /\
    derive_for_bootstrap_anchor blake2b_256 s (bt_anchor_slot b) = Ok (bb_anchor auth) /\
    bb_binding auth = b /\ bb_slot_cadence_ms auth = domain_slot_length_ms (bb_anchor auth).
Proof.
  unfold establish. intros H. binv H. ok_inv. subst.
  repeat match goal with x : () |- _ => destruct x end. eauto 10.
Qed.

Lemma derive_parts s x a :
  derive_for_bootstrap_anchor blake2b_256 s x = Ok a ->
  exists m, slot_start_time_ms s x = Ok m /\ representable s /\
    (exists y, slot_at s m = Ok y).
Proof.
  unfold derive_for_bootstrap_anchor, representable. intros H.
  apply rbind_ok_inv in H as (m & Hm & H). apply rbind_ok_inv in H as (d & Hd & _).
  unfold derive in Hd. apply rbind_ok_inv in Hd as (y & Hy & Hd).
  apply rbind_ok_inv in Hd as (tbl & Ht & _). ok_inv. eauto 10.
Qed.

(** An established authority is the calendar it was bound to: the calendar
    reproduces the durable epoch start and length and holds the anchor slot inside
    that epoch; the authority starts at the anchor slot's own start time, refuses
    every earlier instant, and from then on answers as the whole calendar does. *)
Theorem establish_sound h b auth
    (Hh : typed_history h) (Hb : is_u64 (bt_anchor_slot b))
    (H : establish blake2b_256 h b = Ok auth) :
  exists s m, to_schedule h = Ok s /\ slot_start_time_ms s (bt_anchor_slot b) = Ok m /\
    epoch_geometry h (bt_epoch b) = Some (bt_epoch_start_slot b, bt_epoch_length_slots b) /\
    bt_epoch_start_slot b <= bt_anchor_slot b
      < saturating_add (bt_epoch_start_slot b) (bt_epoch_length_slots b) /\
    authority_slot_at auth m = Ok (bt_anchor_slot b) /\
    (forall t, t < m -> authority_slot_at auth t = Err (TimingAnchor.BeforeDomainStart t m)) /\
    (forall t, m <= t ->
      authority_slot_at auth t = map_err (fun _ => TimingAnchor.Overflow) (slot_at s t)).
Proof.
  apply establish_parts in H as (s & _ & Hs & Hbind & Hd & _ & _).
  apply check_binding_ok in Hbind as [Hg Hin].
  destruct (to_schedule_ok h s Hh Hs) as (Ht & Hw & _ & _).
  destruct (derive_parts _ _ _ Hd) as (m & Hm & Hr & y & Hy).
  assert (Hc : complete s) by (constructor; [done|done|by eapply slot_at_from_zero]).
  destruct (derive_for_anchor_agrees blake2b_256 s _ m Hc Hr Hb Hm) as
    (a & Ha & _ & _ & _ & H1 & H2).
  rewrite Ha in Hd. injection Hd as ->. exists s, m.
  repeat (split; [done|]). split; [|done].
  unfold authority_slot_at. rewrite H2 by done.
  by rewrite (slot_at_start_inverse s (bt_anchor_slot b) m).
Qed.

(** Nothing else is refused: an aligned calendar from slot 0 that agrees with
    the durable facts and whose segment boundaries and anchor start are
    representable instants establishes an authority. *)
Theorem establish_complete h b s m
    (Hh : typed_history h) (Hb : is_u64 (bt_anchor_slot b))
    (Ha : check_alignment 0 (vh_segments h) = Ok tt) (Hs : to_schedule h = Ok s)
    (Hbind : check_binding h b = Ok tt) (Hr : representable s)
    (Hm : slot_start_time_ms s (bt_anchor_slot b) = Ok m) :
  exists auth, establish blake2b_256 h b = Ok auth /\ bb_binding auth = b /\
    domain_start_ms (bb_anchor auth) = m.
Proof.
  destruct (to_schedule_ok h s Hh Hs) as (Ht & Hw & _ & _).
  assert (Hc : complete s).
  { constructor; [done|done|]. unfold slot_start_time_ms in Hm.
    destruct (eras s) as [|f r]; [done|]. cbn.
    destruct (Z.eqb_spec (es_start_slot f) 0) as [->|]; done. }
  destruct (derive_for_anchor_agrees blake2b_256 s _ m Hc Hr Hb Hm) as
    (a & Hd & H1 & H2 & H3 & _).
  exists (mk_BootstrapBoundTimingAuthority a b (domain_slot_length_ms a)).
  split; [|done]. unfold establish. rewrite Ha. cbn [rbind]. rewrite Hs. cbn [map_err rbind].
  rewrite Hbind. cbn [rbind]. rewrite Hd. cbn [map_err rbind]. by rewrite H3.
Qed.
End Established.

(** * Concrete schedules *)

Definition preview_seed : EraSummary := mk_EraSummary Conway 0 0 1000 86400 86400 None.

Lemma preview_uniform : uniform preview_seed preview.
Proof.
  constructor; [done|solve_typed|split; [done|split; [repeat constructor; done|done]]|].
  repeat constructor; cbn; lia.
Defined.

Lemma preview_uniform_3 : uniform preview_seed (extend_to_epoch preview 3).
Proof.
  replace (extend_to_epoch preview 3) with
    (mk_EraSchedule (repeat 0 32) 1666656000000
       (map (fun e => mk_EraSummary Conway (e * 86400) e 1000 86400 86400 None) [0; 1; 2; 3]))
    by (vm_compute; reflexivity).
  constructor; [done|solve_typed|split; [done|split; [repeat constructor; done|cbn; lia]]|].
  repeat constructor; cbn; lia.
Defined.

Lemma locate_extension_independent_witness :
  match locate preview 172801, locate (extend_to_epoch preview 3) 172801 with
  | Ok l, Ok l' => loc_era l = loc_era l' /\ loc_epoch l = loc_epoch l' /\
      loc_relative_slot_in_epoch l = loc_relative_slot_in_epoch l'
  | Err e, Err e' => e = e'
  | _, _ => False
  end.
Proof.
  apply (locate_extension_independent preview_seed);
    [exact preview_uniform|exact preview_uniform_3|cbn; lia].
Defined.

Lemma extend_to_epoch_reaches_witness :
  exists l, uniform preview_seed (extend_to_epoch preview 3) /\
    eras preview `prefix_of` eras (extend_to_epoch preview 3) /\
    last (eras (extend_to_epoch preview 3)) = Some l /\
    (3 <= es_start_epoch l) /\
    (extend_to_epoch preview 3 = preview \/ es_start_epoch l = 3).
Proof.
  apply extend_to_epoch_reaches; [exact preview_uniform|width; lia|vm_compute; congruence].
Defined.

Lemma extend_to_slot_covers_witness :
  check_forecast_horizon (extend_to_slot preview 300000) 300000 = Ok tt /\
  exists loc, locate (extend_to_slot preview 300000) 300000 = Ok loc /\
    loc_epoch loc = grid_epoch preview_seed 300000 /\ loc_era loc = es_era preview_seed /\
    loc_relative_slot_in_epoch loc = (300000 - es_start_slot preview_seed) mod 86400.
Proof.
  apply (extend_to_slot_covers preview_seed);
    [exact preview_uniform|width; lia|cbn; lia|vm_compute; congruence].
Defined.

(** The preprod calendar and the durable facts of its epoch 304. *)
Definition preprod_history : VenueTimingHistory :=
  mk_VenueTimingHistory 1654041600000
    [mk_VenueTimingSegment 0 0 20000 21600; mk_VenueTimingSegment 86400 4 1000 432000].
Definition preprod_binding : BootstrapTimingBinding :=
  mk_BootstrapTimingBinding 129700000 304 129686400 432000.
Definition no_hash : list Z -> Hash32 := fun _ => repeat 0 32.

Lemma preprod_history_typed : typed_history preprod_history.
Proof. split; [cbn; width; lia|]. repeat constructor; cbn; width; lia. Defined.

Lemma establish_complete_witness :
  exists auth, establish no_hash preprod_history preprod_binding = Ok auth /\
    bb_binding auth = preprod_binding /\ domain_start_ms (bb_anchor auth) = 1785383200000.
Proof.
  apply (establish_complete no_hash preprod_history preprod_binding preprod);
    [exact preprod_history_typed|cbn; width; lia|vm_compute; reflexivity..
    |exact preprod_representable|vm_compute; reflexivity].
Defined.

Definition preprod_authority : BootstrapBoundTimingAuthority :=
  mk_BootstrapBoundTimingAuthority
    (mk_DerivedTimingAnchor 1785383200000 129700000
       [(86400, 1000, 1655769600000)] (repeat 0 32)) preprod_binding 1000.

Lemma establish_sound_witness :
  exists s m, to_schedule preprod_history = Ok s /\ slot_start_time_ms s 129700000 = Ok m /\
    epoch_geometry preprod_history 304 = Some (129686400, 432000) /\
    129686400 <= 129700000 < saturating_add 129686400 432000 /\
    authority_slot_at preprod_authority m = Ok 129700000 /\
    (forall t, t < m ->
      authority_slot_at preprod_authority t = Err (TimingAnchor.BeforeDomainStart t m)) /\
    (forall t, m <= t ->
      authority_slot_at preprod_authority t
        = map_err (fun _ => TimingAnchor.Overflow) (slot_at s t)).
Proof.
  apply (establish_sound no_hash preprod_history preprod_binding preprod_authority);
    [exact preprod_history_typed|cbn; width; lia|vm_compute; reflexivity].
Defined.
