(* ===== verification/Leader.v ===== *)
(** VRF inputs and leader eligibility: [ade_core/src/consensus/vrf_cert.rs] and
    [ledger_view.rs].  The leader schedule and the forge's check are in [Header.v].

    A [u128] is a [Z] whose overflowing operations wrap ([as_u128]); a Q.123
    fixed-point number is such a [u128].  The VRF verifier and [blake2b_256] are
    third-party code: they are the fields of the class [Crypto].  The stake
    snapshot is the class [LedgerView], as the trait of the source.

    The theorems: the 256-bit multiplication and division under the Q.123 arithmetic are exact (the
    division up to [2^127]), hence the leader threshold is monotone in stake. *)

From S2P Require Import Prelude Envelope EraSchedule.

(** * Data *)

Definition Hash28 : Type := list Z.
Definition Nonce : Type := list Z.
Definition VrfOutput : Type := list Z.
Definition VrfProof : Type := list Z.
Definition VrfVerificationKey : Type := list Z.

Inductive VrfCertError : Type :=
| MalformedKey
| MalformedProof
| VerificationFailed
| LeaderValueAboveThreshold (value threshold : list Z).

Inductive LeaderScheduleError : Type :=
| UnknownPool
| Schedule_OutsideForecastRange (e : OutsideForecastRange)
| Schedule_HFC (e : HFCError).

(** [verify_vrf] as the source wraps it: the third-party verifier answers with the
    64-byte output or with nothing, which becomes [VerificationFailed]. *)
Class Crypto : Type := {
  blake2b_256 : list Z -> Hash32;
  vrf_draft03_verify : VrfVerificationKey -> VrfProof -> list Z -> option VrfOutput;
}.

Inductive CryptoError : Type :=
| Crypto_InvalidInputLength (expected actual : Z) (context : string)
| Crypto_VerificationFailed (algorithm : string)
| Crypto_MalformedKey (algorithm detail : string)
| Crypto_MalformedSignature (algorithm detail : string)
| Crypto_MalformedProof (detail : string)
| Crypto_VrfOutputExtractionFailed (detail : string)
| Crypto_KesExpiredPeriod (current max : Z)
| Crypto_KesMalformedPath (depth : Z) (detail : string)
| Crypto_UnsupportedAlgorithm (algorithm : string).

Definition verify_vrf `{Crypto} (vk : VrfVerificationKey) (proof : VrfProof) (alpha : list Z) :
    result VrfOutput CryptoError :=
  match vrf_draft03_verify vk proof alpha with
  | Some output => Ok output
  | None => Err (Crypto_VerificationFailed "vrf_ecvrf")
  end.

Inductive VrfRole : Type :=
| NonceContribution
| LeaderEligibilityRole.

Definition tag_byte (r : VrfRole) : Z :=
  match r with NonceContribution => 0x4E | LeaderEligibilityRole => 0x4C end.

Record VerifiedVrf : Type := mk_VerifiedVrf {
  vv_role : VrfRole;
  vv_slot : Z;
  vv_output : VrfOutput;
}.

Inductive ExpectedVrfInput : Type :=
| Input_Praos (a : list Z)
| Input_Tpraos (a : list Z).

#[global] Instance ExpectedVrfInput_eq_dec : EqDecision ExpectedVrfInput.
Proof. solve_decision. Defined.

Record StakeFraction : Type := mk_StakeFraction { sf_numer : Z; sf_denom : Z }.
Record ActiveSlotsCoeff : Type := mk_ActiveSlotsCoeff { asc_numer : Z; asc_denom : Z }.

(** The trait [LedgerView]. *)
Class LedgerView : Type := {
  total_active_stake : Z -> option Z;
  pool_active_stake : Z -> Hash28 -> option Z;
  pool_vrf_keyhash : Z -> Hash28 -> option Hash32;
  active_slots_coeff : Z -> option ActiveSlotsCoeff;
}.

(** * VRF inputs and certificates *)

(** 8-byte slot, 32-byte nonce, role tag. *)
Definition vrf_input (slot : Z) (epoch_nonce : Nonce) (role : VrfRole) : list Z :=
  to_be 8 slot ++ epoch_nonce ++ [tag_byte role].

Definition map_crypto_error (e : CryptoError) : VrfCertError :=
  match e with
  | Crypto_MalformedKey _ _ => MalformedKey
  | Crypto_MalformedProof _ => MalformedProof
  | Crypto_VerificationFailed _ => VerificationFailed
  | _ => VerificationFailed
  end.

Definition PRAOS_LEADER_TAG : Z := 0x4C.
Definition PRAOS_NONCE_TAG : Z := 0x4E.

(** [out[0..32] = h], the low half zero. *)
Definition in_high_half (h : list Z) : VrfOutput := h ++ repeat 0 32.

Section Vrf.
Context `{Crypto}.

Definition verify_vrf_cert (vk : VrfVerificationKey) (proof : VrfProof) (slot : Z)
    (epoch_nonce : Nonce) (role : VrfRole) : result VerifiedVrf VrfCertError :=
  match verify_vrf vk proof (vrf_input slot epoch_nonce role) with
  | Ok output => Ok (mk_VerifiedVrf role slot output)
  | Err e => Err (map_crypto_error e)
  end.

Definition praos_vrf_input (slot : Z) (epoch_nonce : Nonce) : list Z :=
  blake2b_256 (to_be 8 slot ++ epoch_nonce).

Definition verify_praos_vrf (vk : VrfVerificationKey) (proof : VrfProof) (slot : Z)
    (epoch_nonce : Nonce) : result VrfOutput VrfCertError :=
  map_err map_crypto_error (verify_vrf vk proof (praos_vrf_input slot epoch_nonce)).

Definition praos_leader_value (output : VrfOutput) : VrfOutput :=
  in_high_half (blake2b_256 (PRAOS_LEADER_TAG :: output)).

Definition praos_nonce_value (output : VrfOutput) : Nonce :=
  blake2b_256 (blake2b_256 (PRAOS_NONCE_TAG :: output)).

Definition leader_vrf_input (era : CardanoEra) (slot : Z) (epoch_nonce : Nonce) :
    ExpectedVrfInput :=
  if is_praos era then Input_Praos (praos_vrf_input slot epoch_nonce)
  else Input_Tpraos (vrf_input slot epoch_nonce LeaderEligibilityRole).

Definition leader_value_for (input : ExpectedVrfInput) (output : VrfOutput) : VrfOutput :=
  match input with
  | Input_Praos _ => praos_leader_value output
  | Input_Tpraos _ => output
  end.
End Vrf.

Definition alpha_bytes (i : ExpectedVrfInput) : list Z :=
  match i with Input_Praos a => a | Input_Tpraos a => a end.

(** * Q.123 fixed point *)

Definition two128 : Z := 2 ^ 128.
Definition as_u128 (v : Z) : Z := v mod two128.

Definition FP_BITS : Z := 123.
Definition ONE_Q : Z := 2 ^ FP_BITS.
Definition MASK64 : Z := 0xFFFFFFFFFFFFFFFF.

(** [u128 * u128] on 64-bit halves, as [(hi, lo)]. *)
Definition mul_u128_full (a b : Z) : Z * Z :=
  let a_lo := as_u64 a in
  let a_hi := Z.shiftr a 64 in
  let b_lo := as_u64 b in
  let b_hi := Z.shiftr b 64 in
  let ll := as_u128 (a_lo * b_lo) in
  let lh := as_u128 (a_lo * b_hi) in
  let hl := as_u128 (a_hi * b_lo) in
  let hh := as_u128 (a_hi * b_hi) in
  let mid := as_u128 (as_u128 (Z.shiftr ll 64 + Z.land lh MASK64) + Z.land hl MASK64) in
  let lo := Z.lor (as_u128 (Z.shiftl mid 64)) (Z.land ll MASK64) in
  let hi := as_u128 (as_u128 (as_u128 (hh + Z.shiftr lh 64) + Z.shiftr hl 64) + Z.shiftr mid 64) in
  (hi, lo).

Definition shr_u256 (hi lo shift : Z) : Z :=
  if shift =? 0 then lo
  else if shift <? 128 then Z.lor (Z.shiftr lo shift) (as_u128 (Z.shiftl hi (128 - shift)))
  else if shift =? 128 then hi
  else Z.shiftr hi (shift - 128).

Definition mul_q (a b : Z) : Z :=
  let (hi, lo) := mul_u128_full a b in
  if Z.shiftl 1 FP_BITS <=? hi then u128_max else shr_u256 hi lo FP_BITS.

(** The 128 rounds of the restoring division. *)
Fixpoint div_rounds (n : nat) (hi lo divisor quotient : Z) : Z :=
  match n with
  | O => quotient
  | S n =>
      let new_hi := Z.lor (as_u128 (Z.shiftl hi 1)) (Z.shiftr lo 127) in
      let new_lo := as_u128 (Z.shiftl lo 1) in
      let quotient := as_u128 (Z.shiftl quotient 1) in
      if divisor <=? new_hi
      then div_rounds n (new_hi - divisor) new_lo divisor (Z.lor quotient 1)
      else div_rounds n new_hi new_lo divisor quotient
  end.

Definition div_u256_by_u128 (hi lo divisor : Z) : Z :=
  if divisor =? 0 then u128_max
  else if divisor <=? hi then u128_max
  else div_rounds 128 hi lo divisor 0.

Definition div_q (a b : Z) : Z :=
  if b =? 0 then u128_max
  else div_u256_by_u128 (Z.shiftr a (128 - FP_BITS)) (as_u128 (Z.shiftl a FP_BITS)) b.

Definition rational_to_q (num den : Z) : Z :=
  if den =? 0 then u128_max
  else let (hi, lo) := mul_u128_full num ONE_Q in div_u256_by_u128 hi lo den.

Definition q_to_high_be8 (q : Z) : list Z :=
  let clamped := if ONE_Q <=? q then ONE_Q - 1 else q in
  to_be 8 (as_u64 (Z.shiftr clamped (FP_BITS - 64))).

Definition leader_value_q (output : VrfOutput) : Z :=
  Z.shiftl (from_be (take 8 output)) (FP_BITS - 64).

Definition saturating_add_u128 (a b : Z) : Z := Z.min (a + b) u128_max.

(** [while n <= 18], from [n = 1]: 18 rounds. *)
Fixpoint ln_rounds (k : nat) (n term sum f_q : Z) : Z :=
  match k with
  | O => sum
  | S k => ln_rounds k (n + 1) (mul_q term f_q) (saturating_add_u128 sum (term / n)) f_q
  end.

Definition abs_ln_one_minus_f (asc : ActiveSlotsCoeff) : Z :=
  let f_q := rational_to_q (asc_numer asc) (asc_denom asc) in
  ln_rounds 18 1 f_q 0 f_q.

Fixpoint exp_rounds (k : nat) (n term sum x : Z) : Z :=
  match k with
  | O => sum
  | S k =>
      let term := mul_q term x / n in
      exp_rounds k (n + 1) term (saturating_add_u128 sum term) x
  end.

Definition exp_pos_q (x : Z) : Z := exp_rounds 18 1 ONE_Q ONE_Q x.

Definition exp_neg_q (y : Z) : Z :=
  let e := exp_pos_q y in
  if e =? 0 then 0 else div_q ONE_Q e.

Definition one_minus_one_minus_f_pow_sigma (asc : ActiveSlotsCoeff) (sigma : StakeFraction) : Z :=
  let abs_ln := abs_ln_one_minus_f asc in
  let sigma_q := rational_to_q (sf_numer sigma) (sf_denom sigma) in
  let pow := exp_neg_q (mul_q sigma_q abs_ln) in
  Z.max (ONE_Q - pow) 0.

Definition is_leader (output : VrfOutput) (sigma : StakeFraction) (asc : ActiveSlotsCoeff) : bool :=
  if (sf_numer sigma =? 0) || (sf_denom sigma =? 0) then false
  else if asc_denom asc =? 0 then false
  else if asc_denom asc <=? asc_numer asc then true
  else if asc_numer asc =? 0 then false
  else leader_value_q output <? one_minus_one_minus_f_pow_sigma asc sigma.

Definition check_leader_claim (output : VrfOutput) (sigma : StakeFraction)
    (asc : ActiveSlotsCoeff) : result unit VrfCertError :=
  if is_leader output sigma asc then Ok tt
  else Err (LeaderValueAboveThreshold (take 8 output)
              (q_to_high_be8 (one_minus_one_minus_f_pow_sigma asc sigma))).

Example leader_half : is_leader (repeat 0 64) (mk_StakeFraction 1 2) (mk_ActiveSlotsCoeff 1 20) = true.
Proof. vm_compute. reflexivity. Qed.
Example leader_high : is_leader (repeat 255 64) (mk_StakeFraction 1 2) (mk_ActiveSlotsCoeff 1 20) = false.
Proof. vm_compute. reflexivity. Qed.

(** * 128-bit multiplication *)

Lemma as_u128_small v : 0 <= v < two128 -> as_u128 v = v.
Proof. apply Z.mod_small. Qed.

Lemma two128_eq : two128 = 2 ^ 64 * 2 ^ 64.
Proof. reflexivity. Qed.

Lemma u128_halves a : is_u128 a ->
  a = Z.shiftr a 64 * 2 ^ 64 + as_u64 a /\ 0 <= as_u64 a < 2 ^ 64 /\ 0 <= Z.shiftr a 64 < 2 ^ 64.
Proof.
  intros Ha. unfold as_u64. rewrite Z.shiftr_div_pow2 by lia.
  change 18446744073709551616 with (2 ^ 64). width.
  pose proof (Z.div_mod a (2 ^ 64)). pose proof (Z.mod_pos_bound a (2 ^ 64)).
  split; [lia|split; [lia|]]. split; [apply Z.div_pos; lia|apply Z.div_lt_upper_bound; lia].
Qed.

Lemma mul_halves x y : 0 <= x < 2 ^ 64 -> 0 <= y < 2 ^ 64 ->
  as_u128 (x * y) = x * y /\ 0 <= x * y <= (2 ^ 64 - 1) * (2 ^ 64 - 1).
Proof.
  intros Hx Hy. assert (0 <= x * y <= (2 ^ 64 - 1) * (2 ^ 64 - 1)) by nia.
  split; [|done]. apply as_u128_small. rewrite two128_eq. lia.
Qed.

(** The schoolbook product loses nothing. *)
Lemma mul_u128_full_spec a b hi lo :
  is_u128 a -> is_u128 b -> mul_u128_full a b = (hi, lo) ->
  hi * two128 + lo = a * b /\ 0 <= lo < two128 /\ 0 <= hi < two128.
Proof.
  intros Ha Hb. destruct (u128_halves a Ha) as (Ea & Hal & Hah), (u128_halves b Hb) as (Eb & Hbl & Hbh).
  unfold mul_u128_full. set (al := as_u64 a) in *. set (ah := Z.shiftr a 64) in *.
  set (bl := as_u64 b) in *. set (bh := Z.shiftr b 64) in *.
  destruct (mul_halves al bl) as [-> Hll]; [done..|]. destruct (mul_halves al bh) as [-> Hlh]; [done..|].
  destruct (mul_halves ah bl) as [-> Hhl]; [done..|]. destruct (mul_halves ah bh) as [-> Hhh]; [done..|].
  set (ll := al * bl) in *. set (lh := al * bh) in *. set (hl := ah * bl) in *. set (hh := ah * bh) in *.
  change MASK64 with (2 ^ 64 - 1). rewrite !land_ones_mod, !Z.shiftr_div_pow2, Z.shiftl_mul_pow2 by lia.
  assert (Hq : forall x, 0 <= x -> x = x / 2 ^ 64 * 2 ^ 64 + x mod 2 ^ 64 /\
    0 <= x mod 2 ^ 64 < 2 ^ 64 /\ 0 <= x / 2 ^ 64).
  { intros x Hx. pose proof (Z.div_mod x (2 ^ 64)). pose proof (Z.mod_pos_bound x (2 ^ 64)).
    pose proof (Z.div_pos x (2 ^ 64)). lia. }
  destruct (Hq ll) as (Ell & Bll & Pll); [lia|]. destruct (Hq lh) as (Elh & Blh & Plh); [lia|].
  destruct (Hq hl) as (Ehl & Bhl & Phl); [lia|].
  rewrite two128_eq in *.
  assert (Hmid : as_u128 (as_u128 (ll / 2 ^ 64 + lh mod 2 ^ 64) + hl mod 2 ^ 64)
    = ll / 2 ^ 64 + lh mod 2 ^ 64 + hl mod 2 ^ 64).
  { rewrite (as_u128_small (ll / 2 ^ 64 + lh mod 2 ^ 64)) by (rewrite two128_eq; lia).
    apply as_u128_small. rewrite two128_eq. lia. }
  rewrite Hmid. set (mid := ll / 2 ^ 64 + lh mod 2 ^ 64 + hl mod 2 ^ 64) in *.
  destruct (Hq mid) as (Emid & Bmid & Pmid); [lia|].
  assert (Hlo : as_u128 (mid * 2 ^ 64) = mid mod 2 ^ 64 * 2 ^ 64).
  { unfold as_u128. rewrite two128_eq, Z.mul_mod_distr_r by lia. done. }
  rewrite Hlo, lor_add_disjoint by lia.
  assert (Habs : hh + lh / 2 ^ 64 + hl / 2 ^ 64 + mid / 2 ^ 64 < 2 ^ 64 * 2 ^ 64 /\
    (hh + lh / 2 ^ 64 + hl / 2 ^ 64 + mid / 2 ^ 64) * (2 ^ 64 * 2 ^ 64)
      + (mid mod 2 ^ 64 * 2 ^ 64 + ll mod 2 ^ 64) = a * b).
  { assert (a * b = hh * (2 ^ 64 * 2 ^ 64) + (lh + hl) * 2 ^ 64 + ll).
    { rewrite Ea, Eb. unfold hh, lh, hl, ll. ring. }
    split; [|unfold mid in *; lia].
    assert (a * b < 2 ^ 64 * 2 ^ 64 * (2 ^ 64 * 2 ^ 64)) by (width; nia).
    unfold mid in *. lia. }
  destruct Habs as [Habs Hval].
  rewrite (as_u128_small (hh + lh / 2 ^ 64)) by (rewrite two128_eq; lia).
  rewrite (as_u128_small (hh + lh / 2 ^ 64 + hl / 2 ^ 64)) by (rewrite two128_eq; lia).
  rewrite as_u128_small by (rewrite two128_eq; lia).
  intros [= <- <-]. lia.
Qed.

Lemma shr_123 hi lo :
  0 <= hi < 2 ^ 123 -> 0 <= lo < two128 -> shr_u256 hi lo FP_BITS = (hi * two128 + lo) / 2 ^ 123.
Proof.
  intros Hhi Hlo. unfold shr_u256, FP_BITS. cbn [Z.eqb Z.ltb Z.compare Pos.compare Pos.compare_cont].
  change (128 - 123) with 5. rewrite Z.shiftr_div_pow2, Z.shiftl_mul_pow2 by lia.
  unfold two128 in *. rewrite as_u128_small by (unfold two128; lia).
  rewrite Z.lor_comm, lor_add_disjoint.
  - replace (hi * 2 ^ 128 + lo) with (hi * 2 ^ 5 * 2 ^ 123 + lo) by lia.
    by rewrite Z.div_add_l by lia.
  - lia.
  - split; [apply Z.div_pos; lia|apply Z.div_lt_upper_bound; lia].
Qed.

(** Q.123 multiplication is exact up to truncation and saturates at [u128::MAX]. *)
Lemma mul_q_spec a b :
  is_u128 a -> is_u128 b -> mul_q a b = Z.min (a * b / 2 ^ 123) u128_max.
Proof.
  intros Ha Hb. unfold mul_q. destruct (mul_u128_full a b) as [hi lo] eqn:E.
  destruct (mul_u128_full_spec a b hi lo Ha Hb E) as (Hv & Hlo & Hhi).
  change (Z.shiftl 1 FP_BITS) with (2 ^ 123). rewrite <- Hv. unfold u128_max, two128 in *.
  destruct (Z.leb_spec (2 ^ 123) hi).
  - rewrite Z.min_r; [done|]. apply Z.div_le_lower_bound; lia.
  - rewrite shr_123 by (unfold two128; lia). unfold two128. rewrite Z.min_l; [done|].
    enough ((hi * 2 ^ 128 + lo) / 2 ^ 123 < 2 ^ 128) by lia.
    apply Z.div_lt_upper_bound; lia.
Qed.

(** * 256-bit division *)

Lemma div_rounds_spec d n : 0 < d <= 2 ^ 127 -> Z.of_nat n <= 128 ->
  forall hi lo q, 0 <= hi < d -> 0 <= lo < two128 -> 0 <= q < 2 ^ (128 - Z.of_nat n) ->
  div_rounds n hi lo d q
    = q * 2 ^ Z.of_nat n + (hi * 2 ^ Z.of_nat n + lo / 2 ^ (128 - Z.of_nat n)) / d.
Proof.
  intros Hd. induction n as [|n IH]; intros Hn hi lo q Hhi Hlo Hq.
  { cbn [div_rounds]. change (Z.of_nat 0) with 0. unfold two128 in *.
    rewrite (Z.div_small lo) by lia. rewrite Z.pow_0_r, Z.div_small by lia. lia. }
  rewrite Nat2Z.inj_succ in *. set (k := Z.of_nat n) in *.
  assert (Hk : 0 <= k <= 127) by lia. specialize (IH ltac:(lia)).
  cbn [div_rounds]. rewrite !Z.shiftl_mul_pow2, Z.shiftr_div_pow2 by lia.
  change (2 ^ 1) with 2. unfold two128 in *.
  rewrite (as_u128_small (hi * 2)) by (unfold two128; lia).
  assert (Hbit : 0 <= lo / 2 ^ 127 < 2)
    by (split; [apply Z.div_pos; lia|apply Z.div_lt_upper_bound; lia]).
  replace (Z.lor (hi * 2) (lo / 2 ^ 127)) with (hi * 2 + lo / 2 ^ 127)
    by (symmetry; apply (lor_add_disjoint hi 1); lia).
  set (bit := lo / 2 ^ 127) in *.
  assert (Hlo' : as_u128 (lo * 2) = (lo mod 2 ^ 127) * 2).
  { unfold as_u128, two128. change (2 ^ 128) with (2 ^ 127 * 2). apply Z.mul_mod_distr_r; lia. }
  assert (Hq2 : 2 ^ (128 - Z.succ k) * 2 <= 2 ^ 128).
  { replace (2 ^ 128) with (2 ^ (128 - Z.succ k) * 2 ^ Z.succ k)
      by (rewrite <- Z.pow_add_r by lia; f_equal; lia).
    apply Z.mul_le_mono_nonneg_l; [apply Z.pow_nonneg; lia|].
    change 2 with (2 ^ 1) at 1. apply Z.pow_le_mono_r; lia. }
  rewrite (as_u128_small (q * 2)) by (unfold two128; lia). rewrite Hlo'.
  replace (Z.lor (q * 2) 1) with (q * 2 + 1) by (symmetry; apply (lor_add_disjoint q 1); lia).
  pose proof (Z.mod_pos_bound lo (2 ^ 127) ltac:(lia)) as Hm.
  assert (Hp : 2 ^ (128 - k) = 2 ^ (127 - k) * 2).
  { replace (128 - k) with (Z.succ (127 - k)) by lia. rewrite Z.pow_succ_r by lia. lia. }
  assert (Hpk : 2 ^ Z.succ k = 2 * 2 ^ k) by (rewrite Z.pow_succ_r by lia; lia).
  assert (Hpos : 0 < 2 ^ (127 - k)) by (apply Z.pow_pos_nonneg; lia).
  assert (Hsplit : lo / 2 ^ (127 - k) = bit * 2 ^ k + lo mod 2 ^ 127 * 2 / 2 ^ (128 - k)).
  { rewrite Hp, Z.div_mul_cancel_r by lia.
    rewrite (Z.div_mod lo (2 ^ 127)) at 1 by lia. fold bit.
    replace (2 ^ 127 * bit) with (bit * 2 ^ k * 2 ^ (127 - k)).
    - by rewrite Z.div_add_l by lia.
    - rewrite <- Z.mul_assoc, <- Z.pow_add_r by lia. replace (k + (127 - k)) with 127 by lia. lia. }
  replace (128 - Z.succ k) with (127 - k) in * by lia. rewrite Hsplit, Hpk.
  set (x := lo mod 2 ^ 127 * 2 / 2 ^ (128 - k)) in *.
  destruct (Z.leb_spec d (hi * 2 + bit)); rewrite IH by (lia || unfold two128; lia).
  - fold x. rewrite (Z.add_assoc (hi * (2 * 2 ^ k))).
    replace (hi * (2 * 2 ^ k) + bit * 2 ^ k + x)
      with (2 ^ k * d + ((hi * 2 + bit - d) * 2 ^ k + x)) by ring.
    rewrite Z.div_add_l by lia. ring.
  - fold x. replace (hi * (2 * 2 ^ k) + (bit * 2 ^ k + x)) with ((hi * 2 + bit) * 2 ^ k + x) by ring.
    ring.
Qed.

(** The division is exact for divisors up to [2^127]. *)
Lemma div_u256_spec hi lo d :
  0 < d <= 2 ^ 127 -> 0 <= hi < two128 -> 0 <= lo < two128 ->
  div_u256_by_u128 hi lo d = Z.min ((hi * two128 + lo) / d) u128_max.
Proof.
  intros Hd Hhi Hlo. unfold div_u256_by_u128.
  destruct (Z.eqb_spec d 0); [lia|]. destruct (Z.leb_spec d hi).
  - rewrite Z.min_r; [done|]. unfold u128_max, two128 in *. apply Z.div_le_lower_bound; [lia|]. nia.
  - rewrite (div_rounds_spec d 128) by (unfold two128 in *; cbn; lia).
    change (Z.of_nat 128) with 128. change (128 - 128) with 0. rewrite Z.pow_0_r, Z.div_1_r.
    fold two128. rewrite Z.min_l; [lia|]. unfold u128_max, two128 in *.
    enough ((hi * 2 ^ 128 + lo) / d < 2 ^ 128) by lia. apply Z.div_lt_upper_bound; nia.
Qed.

Lemma rational_to_q_spec num den :
  is_u128 num -> 0 < den <= 2 ^ 127 ->
  rational_to_q num den = Z.min (num * 2 ^ 123 / den) u128_max.
Proof.
  intros Hn Hd. unfold rational_to_q. destruct (Z.eqb_spec den 0); [lia|].
  destruct (mul_u128_full num ONE_Q) as [hi lo] eqn:E.
  assert (is_u128 ONE_Q) by (unfold ONE_Q, FP_BITS; width; lia).
  destruct (mul_u128_full_spec _ _ _ _ Hn H E) as (Hv & Hlo & Hhi).
  rewrite div_u256_spec by done. by rewrite Hv.
Qed.

Lemma div_q_spec a b :
  is_u128 a -> 0 < b <= 2 ^ 127 -> div_q a b = Z.min (a * 2 ^ 123 / b) u128_max.
Proof.
  intros Ha Hb. unfold div_q, FP_BITS. destruct (Z.eqb_spec b 0); [lia|].
  change (128 - 123) with 5. rewrite Z.shiftr_div_pow2, Z.shiftl_mul_pow2 by lia.
  assert (Hs : a / 2 ^ 5 * two128 + as_u128 (a * 2 ^ 123) = a * 2 ^ 123).
  { unfold as_u128, two128. change (2 ^ 128) with (2 ^ 5 * 2 ^ 123).
    rewrite Z.mul_mod_distr_r by lia. pose proof (Z.div_mod a (2 ^ 5)). lia. }
  rewrite div_u256_spec; [by rewrite Hs|done| |apply Z.mod_pos_bound; unfold two128; lia].
  width. unfold two128. split; [apply Z.div_pos; lia|apply Z.div_lt_upper_bound; lia].
Qed.

(** * Monotonicity of the threshold *)

Lemma mul_q_u128 a b : is_u128 a -> is_u128 b -> is_u128 (mul_q a b).
Proof.
  intros Ha Hb. rewrite mul_q_spec by done. width.
  assert (0 <= a * b / 2 ^ 123) by (apply Z.div_pos; nia). lia.
Qed.

Lemma mul_q_mono a a' b b' :
  is_u128 a' -> is_u128 b' -> 0 <= a <= a' -> 0 <= b <= b' -> mul_q a b <= mul_q a' b'.
Proof.
  intros Ha Hb Haa Hbb. rewrite !mul_q_spec by (width; lia).
  apply Z.min_le_compat_r, Z.div_le_mono; [lia|nia].
Qed.

(** Multiplying by a number at most one half, or at most one. *)
Lemma mul_q_half a b : is_u128 a -> 0 <= b <= 2 ^ 122 -> 2 * mul_q a b <= a.
Proof.
  intros Ha Hb. rewrite mul_q_spec by (done || width; lia).
  assert (a * b / 2 ^ 123 <= a * 2 ^ 122 / 2 ^ 123) by (apply Z.div_le_mono; [|width]; nia).
  change (2 ^ 123) with (2 ^ 122 * 2) in *. rewrite (Z.mul_comm (2 ^ 122) 2) in *.
  rewrite Z.div_mul_cancel_r in * by lia.
  pose proof (Z.mul_div_le a 2 ltac:(lia)). lia.
Qed.

Lemma mul_q_one a b : is_u128 a -> 0 <= b <= ONE_Q -> mul_q a b <= a.
Proof.
  unfold ONE_Q, FP_BITS. intros Ha Hb. rewrite mul_q_spec by (done || width; lia).
  assert (a * b / 2 ^ 123 <= a * 2 ^ 123 / 2 ^ 123) by (apply Z.div_le_mono; [|width]; nia).
  rewrite Z.div_mul in * by lia. lia.
Qed.

Lemma div_le_self a n : 0 <= a -> 1 <= n -> 0 <= a / n <= a.
Proof. intros. split; [apply Z.div_pos; lia|]. apply Z.div_le_upper_bound; nia. Qed.

Lemma saturating_u128 a b : is_u128 a -> 0 <= b ->
  is_u128 (saturating_add_u128 a b) /\ a <= saturating_add_u128 a b <= a + b.
Proof. unfold saturating_add_u128. width. lia. Qed.

Lemma ln_rounds_bound k : forall n term sum f,
  1 <= n -> is_u128 term -> is_u128 sum -> 0 <= f <= 2 ^ 122 ->
  is_u128 (ln_rounds k n term sum f) /\ ln_rounds k n term sum f <= sum + 2 * term.
Proof.
  induction k as [|k IH]; intros n term sum f Hn Ht Hs Hf; cbn [ln_rounds]; [width; lia|].
  assert (is_u128 f) by (width; lia).
  pose proof (mul_q_u128 term f Ht H) as Hm. pose proof (mul_q_half term f Ht Hf).
  pose proof (div_le_self term n). destruct (saturating_u128 sum (term / n)) as [Hs' ?]; [done|width; lia|].
  specialize (IH (n + 1) (mul_q term f) _ f ltac:(lia) Hm Hs' Hf). width. lia.
Qed.

Lemma exp_rounds_ge k : forall n term sum x,
  1 <= n -> is_u128 term -> is_u128 sum -> is_u128 x ->
  is_u128 (exp_rounds k n term sum x) /\ sum <= exp_rounds k n term sum x.
Proof.
  induction k as [|k IH]; intros n term sum x Hn Ht Hs Hx; cbn [exp_rounds]; [width; lia|].
  pose proof (mul_q_u128 term x Ht Hx) as Hm.
  pose proof (div_le_self (mul_q term x) n ltac:(width; lia) Hn) as Hd.
  assert (is_u128 (mul_q term x / n)) by (width; lia).
  destruct (saturating_u128 sum (mul_q term x / n)) as [Hs' ?]; [done|lia|].
  specialize (IH (n + 1) _ _ x ltac:(lia) H Hs' Hx). width. lia.
Qed.

Lemma exp_rounds_bound k : forall n term sum x,
  2 <= n -> is_u128 term -> is_u128 sum -> 0 <= x <= ONE_Q ->
  exp_rounds k n term sum x <= sum + term.
Proof.
  induction k as [|k IH]; intros n term sum x Hn Ht Hs Hx; cbn [exp_rounds]; [width; lia|].
  assert (is_u128 x) by (unfold ONE_Q, FP_BITS in *; width; lia).
  pose proof (mul_q_u128 term x Ht H) as Hm. pose proof (mul_q_one term x Ht Hx).
  assert (2 * (mul_q term x / n) <= mul_q term x).
  { pose proof (Z.mul_div_le (mul_q term x) n ltac:(lia)).
    pose proof (Z.div_pos (mul_q term x) n ltac:(width; lia)). nia. }
  pose proof (div_le_self (mul_q term x) n ltac:(width; lia) ltac:(lia)).
  assert (Hm' : is_u128 (mul_q term x / n)) by (width; lia).
  destruct (saturating_u128 sum (mul_q term x / n)) as [Hs' ?]; [done|width; lia|].
  specialize (IH (n + 1) _ _ x ltac:(lia) Hm' Hs' Hx). lia.
Qed.

Lemma exp_rounds_S k n term sum x :
  exp_rounds (S k) n term sum x =
    exp_rounds k (n + 1) (mul_q term x / n) (saturating_add_u128 sum (mul_q term x / n)) x.
Proof. reflexivity. Qed.

Lemma exp_pos_bounds x : 0 <= x <= ONE_Q -> ONE_Q <= exp_pos_q x <= 3 * ONE_Q.
Proof.
  intros Hx. assert (Ho : is_u128 ONE_Q) by (unfold ONE_Q, FP_BITS; width; lia).
  assert (Hux : is_u128 x) by (unfold ONE_Q, FP_BITS in *; width; lia).
  unfold exp_pos_q. split; [by apply exp_rounds_ge|].
  rewrite exp_rounds_S, Z.div_1_r. change (1 + 1) with 2. pose proof (mul_q_one ONE_Q x Ho Hx). pose proof (mul_q_u128 ONE_Q x Ho Hux).
  destruct (saturating_u128 ONE_Q (mul_q ONE_Q x)) as [Hs ?]; [done|width; lia|].
  pose proof (exp_rounds_bound 17 2 (mul_q ONE_Q x) _ x ltac:(lia) H0 Hs Hx). lia.
Qed.

Lemma exp_rounds_mono k : forall n term term' sum sum' x x',
  1 <= n -> is_u128 term' -> is_u128 sum' -> is_u128 x' ->
  0 <= term <= term' -> 0 <= sum <= sum' -> 0 <= x <= x' ->
  exp_rounds k n term sum x <= exp_rounds k n term' sum' x'.
Proof.
  induction k as [|k IH]; intros n term term' sum sum' x x' Hn Ht Hs Hx Htt Hss Hxx;
    cbn [exp_rounds]; [lia|].
  assert (Hm : is_u128 (mul_q term' x')) by (by apply mul_q_u128).
  assert (Hm0 : is_u128 (mul_q term x)) by (apply mul_q_u128; width; lia).
  assert (Hle : mul_q term x / n <= mul_q term' x' / n)
    by (apply Z.div_le_mono; [lia|by apply mul_q_mono]).
  pose proof (div_le_self (mul_q term x) n ltac:(width; lia) Hn).
  pose proof (div_le_self (mul_q term' x') n ltac:(width; lia) Hn).
  apply IH; try lia; try (width; lia).
  - apply saturating_u128; [done|lia].
  - unfold saturating_add_u128. width. lia.
Qed.

Lemma exp_neg_antitone y y' :
  0 <= y <= y' -> y' <= ONE_Q -> exp_neg_q y' <= exp_neg_q y <= ONE_Q.
Proof.
  intros Hy Hy'. assert (Ho : is_u128 ONE_Q) by (unfold ONE_Q, FP_BITS; width; lia).
  destruct (exp_pos_bounds y) as [H1 H2]; [lia|]. destruct (exp_pos_bounds y') as [H3 H4]; [lia|].
  assert (Hm : exp_pos_q y <= exp_pos_q y').
  { apply exp_rounds_mono; try lia; try done; unfold ONE_Q, FP_BITS in *; width; lia. }
  unfold exp_neg_q. unfold ONE_Q, FP_BITS in *.
  destruct (Z.eqb_spec (exp_pos_q y) 0); [lia|]. destruct (Z.eqb_spec (exp_pos_q y') 0); [lia|].
  rewrite !div_q_spec by (done || lia). split.
  - apply Z.min_le_compat_r, Z.div_le_compat_l; lia.
  - transitivity (2 ^ 123 * 2 ^ 123 / exp_pos_q y); [lia|].
    apply Z.div_le_upper_bound; nia.
Qed.

(** The stakes and coefficients the bounds hold for: [f <= 1/2], [sigma <= 1]. *)
Definition moderate (asc : ActiveSlotsCoeff) : Prop :=
  0 <= asc_numer asc /\ 0 < asc_denom asc <= u32_max /\ 2 * asc_numer asc <= asc_denom asc.

Definition valid_stake (s : StakeFraction) : Prop :=
  0 <= sf_numer s <= sf_denom s /\ 0 < sf_denom s <= u64_max.

Lemma fraction_q num den :
  0 <= num <= den -> 0 < den <= u64_max -> rational_to_q num den = num * 2 ^ 123 / den /\
  0 <= rational_to_q num den <= ONE_Q.
Proof.
  intros Hn Hd. assert (0 <= num * 2 ^ 123 / den <= 2 ^ 123).
  { split; [apply Z.div_pos; lia|]. apply Z.div_le_upper_bound; nia. }
  rewrite rational_to_q_spec by (width; lia). unfold ONE_Q, FP_BITS. width. lia.
Qed.

Lemma abs_ln_bound asc : moderate asc ->
  is_u128 (abs_ln_one_minus_f asc) /\ abs_ln_one_minus_f asc <= ONE_Q.
Proof.
  intros (Hn & Hd & Hh). unfold abs_ln_one_minus_f.
  destruct (fraction_q (asc_numer asc) (asc_denom asc)) as [Heq Hb]; [lia|width; lia|].
  assert (Hf : rational_to_q (asc_numer asc) (asc_denom asc) <= 2 ^ 122).
  { rewrite Heq. apply Z.div_le_upper_bound; nia. }
  set (f := rational_to_q _ _) in *. unfold ONE_Q, FP_BITS in *.
  destruct (ln_rounds_bound 18 1 f 0 f) as [H1 H2]; [lia|width; lia|width; lia|lia|].
  split; [done|]. lia.
Qed.

Lemma threshold_mono asc s s' :
  moderate asc -> valid_stake s -> valid_stake s' ->
  sf_denom s = sf_denom s' -> sf_numer s <= sf_numer s' ->
  one_minus_one_minus_f_pow_sigma asc s <= one_minus_one_minus_f_pow_sigma asc s'.
Proof.
  intros Ha [Hn Hd] [Hn' Hd'] Hden Hnum. destruct (abs_ln_bound asc Ha) as [Hlu Hl].
  unfold one_minus_one_minus_f_pow_sigma.
  destruct (fraction_q (sf_numer s) (sf_denom s) Hn Hd) as [E B].
  destruct (fraction_q (sf_numer s') (sf_denom s') Hn' Hd') as [E' B'].
  assert (Hle : rational_to_q (sf_numer s) (sf_denom s) <= rational_to_q (sf_numer s') (sf_denom s')).
  { rewrite E, E', Hden. apply Z.div_le_mono; lia. }
  set (q := rational_to_q (sf_numer s) _) in *. set (q' := rational_to_q (sf_numer s') _) in *.
  set (l := abs_ln_one_minus_f asc) in *. clearbody q q' l.
  assert (Hu : is_u128 q /\ is_u128 q') by (unfold ONE_Q, FP_BITS in *; width; lia).
  destruct Hu as [Hu Hu'].
  pose proof (mul_q_mono q q' l l Hu' Hlu ltac:(lia) ltac:(width; lia)).
  pose proof (mul_q_u128 q l Hu Hlu). pose proof (mul_q_u128 q' l Hu' Hlu).
  assert (mul_q q' l <= ONE_Q).
  { transitivity (mul_q ONE_Q l);
      [apply mul_q_mono; unfold ONE_Q, FP_BITS in *; width; lia|].
    apply mul_q_one; unfold ONE_Q, FP_BITS in *; width; lia. }
  destruct (exp_neg_antitone (mul_q q l) (mul_q q' l)); [width; lia|done|]. lia.
Qed.

(** * The threshold in exact arithmetic *)

(** [1 - (1-f)^sigma] scaled by [2^123], with nothing but integer division: the first 18
    terms of the logarithm's series and the first 19 of the exponential's. *)
Fixpoint log_terms (k : nat) (n power f : Z) : Z :=
  match k with
  | O => 0
  | S k => power / n + log_terms k (n + 1) (power * f / 2 ^ 123) f
  end.

Fixpoint exp_terms (k : nat) (n term x : Z) : Z :=
  match k with
  | O => 0
  | S k => let next := term * x / 2 ^ 123 / n in next + exp_terms k (n + 1) next x
  end.

Definition exact_threshold (f_numer f_denom stake total : Z) : Z :=
  let f := f_numer * 2 ^ 123 / f_denom in
  let x := stake * 2 ^ 123 / total * log_terms 18 1 f f / 2 ^ 123 in
  2 ^ 123 - 2 ^ 123 * 2 ^ 123 / (2 ^ 123 + exp_terms 18 1 (2 ^ 123) x).

(** A product with a factor of at most one neither saturates nor grows. *)
Lemma mul_q_exact a b : is_u128 a -> 0 <= b <= ONE_Q -> mul_q a b = a * b / 2 ^ 123.
Proof.
  intros Ha Hb. assert (Hub : is_u128 b) by (unfold ONE_Q, FP_BITS in *; width; lia).
  pose proof (mul_q_one a b Ha Hb). rewrite mul_q_spec in * by done.
  assert (a * b / 2 ^ 123 <= a * 2 ^ 123 / 2 ^ 123)
    by (apply Z.div_le_mono; [|unfold ONE_Q, FP_BITS in *; width]; nia).
  rewrite Z.div_mul in * by lia. width. lia.
Qed.

Lemma ln_rounds_exact k : forall n term sum f,
  1 <= n -> is_u128 term -> 0 <= sum -> sum + 2 * term <= u128_max -> 0 <= f <= 2 ^ 122 ->
  ln_rounds k n term sum f = sum + log_terms k n term f.
Proof.
  induction k as [|k IH]; intros n term sum f Hn Ht Hs Hb Hf; cbn [ln_rounds log_terms]; [lia|].
  assert (Hm : mul_q term f = term * f / 2 ^ 123)
    by (apply mul_q_exact; [done|unfold ONE_Q, FP_BITS; lia]).
  assert (Hu : is_u128 f) by (width; lia).
  pose proof (mul_q_half term f Ht Hf). pose proof (mul_q_u128 term f Ht Hu).
  pose proof (div_le_self term n ltac:(width; lia) Hn).
  unfold saturating_add_u128. rewrite Z.min_l by (width; lia).
  rewrite IH; rewrite <- ?Hm; [lia|lia|done|width; lia|lia|done].
Qed.

Lemma exp_rounds_exact k : forall n term sum x,
  2 <= n -> is_u128 term -> 0 <= sum -> sum + term <= u128_max -> 0 <= x <= ONE_Q ->
  exp_rounds k n term sum x = sum + exp_terms k n term x.
Proof.
  induction k as [|k IH]; intros n term sum x Hn Ht Hs Hb Hx; cbn [exp_rounds exp_terms]; [lia|].
  assert (Hm : mul_q term x = term * x / 2 ^ 123) by (by apply mul_q_exact).
  pose proof (mul_q_one term x Ht Hx).
  assert (Hp : is_u128 (mul_q term x))
    by (apply mul_q_u128; [done|unfold ONE_Q, FP_BITS in *; width; lia]).
  assert (2 * (mul_q term x / n) <= mul_q term x).
  { pose proof (Z.mul_div_le (mul_q term x) n ltac:(lia)).
    pose proof (Z.div_pos (mul_q term x) n ltac:(width; lia)). nia. }
  pose proof (div_le_self (mul_q term x) n ltac:(width; lia) ltac:(lia)).
  rewrite <- Hm. unfold saturating_add_u128. rewrite Z.min_l by lia.
  rewrite IH; [lia|lia|width; lia|lia|lia|done].
Qed.

Lemma exp_pos_exact x : 0 <= x <= ONE_Q -> exp_pos_q x = 2 ^ 123 + exp_terms 18 1 (2 ^ 123) x.
Proof.
  intros Hx. assert (Ho : is_u128 ONE_Q) by (unfold ONE_Q, FP_BITS; width; lia).
  unfold exp_pos_q. rewrite exp_rounds_S, Z.div_1_r. change (1 + 1) with 2.
  assert (Hm : mul_q ONE_Q x = x).
  { rewrite mul_q_exact by done. unfold ONE_Q, FP_BITS.
    by rewrite (Z.mul_comm (2 ^ 123)), Z.div_mul by lia. }
  unfold ONE_Q, FP_BITS in *. rewrite Hm. unfold saturating_add_u128. rewrite Z.min_l by (width; lia).
  rewrite exp_rounds_exact by (unfold ONE_Q, FP_BITS; width; lia).
  change (exp_terms 18 1 (2 ^ 123) x) with
    (let next := 2 ^ 123 * x / 2 ^ 123 / 1 in next + exp_terms 17 2 next x).
  cbv zeta. rewrite Z.div_1_r, (Z.mul_comm (2 ^ 123)), Z.div_mul by lia. lia.
Qed.

(** The 128-bit fixed-point threshold is the exact one: nothing wraps and nothing
    saturates for a coefficient of at most one half and a stake within the total. *)
Lemma threshold_exact asc s : moderate asc -> valid_stake s ->
  one_minus_one_minus_f_pow_sigma asc s =
    exact_threshold (asc_numer asc) (asc_denom asc) (sf_numer s) (sf_denom s).
Proof.
  intros Ha [Hsn Hsd]. destruct (abs_ln_bound asc Ha) as [Hlu Hl]. destruct Ha as (Hn & Hd & Hh).
  destruct (fraction_q (asc_numer asc) (asc_denom asc)) as [Ef Bf]; [lia|width; lia|].
  destruct (fraction_q (sf_numer s) (sf_denom s) Hsn Hsd) as [Es Bs].
  unfold one_minus_one_minus_f_pow_sigma, exact_threshold.
  assert (El : abs_ln_one_minus_f asc =
    log_terms 18 1 (asc_numer asc * 2 ^ 123 / asc_denom asc) (asc_numer asc * 2 ^ 123 / asc_denom asc)).
  { assert (Hf : asc_numer asc * 2 ^ 123 / asc_denom asc <= 2 ^ 122)
      by (apply Z.div_le_upper_bound; nia).
    unfold abs_ln_one_minus_f. rewrite Ef in *. rewrite ln_rounds_exact by (width; lia). done. }
  rewrite <- El, <- Es. set (l := abs_ln_one_minus_f asc) in *. set (q := rational_to_q (sf_numer s) _) in *.
  clearbody l q. assert (Hq : is_u128 q) by (unfold ONE_Q, FP_BITS in *; width; lia).
  assert (Hx : 0 <= mul_q q l <= ONE_Q).
  { pose proof (mul_q_u128 q l Hq Hlu). pose proof (mul_q_one q l Hq ltac:(width; lia)). width. lia. }
  rewrite <- (mul_q_exact q l Hq ltac:(width; lia)).
  destruct (exp_pos_bounds _ Hx) as [H1 H2]. destruct (exp_neg_antitone 0 (mul_q q l)) as [_ _]; [lia..|].
  unfold exp_neg_q. rewrite <- (exp_pos_exact _ Hx). set (e := exp_pos_q _) in *. clearbody e.
  unfold ONE_Q, FP_BITS in *. destruct (Z.eqb_spec e 0); [lia|].
  rewrite div_q_spec by (width; lia).
  assert (0 <= 2 ^ 123 * 2 ^ 123 / e <= 2 ^ 123)
    by (split; [apply Z.div_pos; lia|apply Z.div_le_upper_bound; nia]).
  rewrite Z.min_l by (width; lia). lia.
Qed.

(** * Theorems *)

(** The 256-bit division under the fixed-point arithmetic is exact: for a divisor
    of at most [2^127] the 128 shift-and-subtract rounds give the quotient of the whole
    dividend, and [u128::MAX] when it does not fit. *)
Theorem div_u256_exact hi lo d
    (Hd : 0 < d <= 2 ^ 127) (Hhi : is_u128 hi) (Hlo : is_u128 lo) :
  div_u256_by_u128 hi lo d = Z.min ((hi * two128 + lo) / d) u128_max.
Proof. apply div_u256_spec; [done|unfold two128; width; lia..]. Qed.

Lemma div_u256_exact_witness :
  div_u256_by_u128 5 7 (2 ^ 127) = Z.min ((5 * two128 + 7) / 2 ^ 127) u128_max.
Proof. apply div_u256_exact; width; lia. Defined.

(** The bound on the divisor is needed: above [2^127] the partial remainder loses its
    top bit and the quotient is wrong (here 0 instead of [2^128 - 2]). *)
Theorem div_u256_large_divisor :
  div_u256_by_u128 (2 ^ 128 - 2) 0 (2 ^ 128 - 1) = 0 /\
  (2 ^ 128 - 2) * two128 / (2 ^ 128 - 1) = 2 ^ 128 - 2.
Proof. split; vm_compute; reflexivity. Qed.

(** The consequence for leadership: with [f = 99/100] the reciprocal divides by more
    than [2^127] and the threshold of a sole pool becomes exactly 1. *)
Theorem threshold_saturates_for_large_f :
  one_minus_one_minus_f_pow_sigma (mk_ActiveSlotsCoeff 99 100) (mk_StakeFraction 1 1) = ONE_Q.
Proof. vm_compute. reflexivity. Qed.

(** C13. Leadership is monotone: for an active-slots coefficient of at most one half
    (mainnet's is 1/20) and stakes that are [u64]s within a positive total, a pool that
    leads with some stake still leads with more stake of the same total and with a
    smaller leader value (the first eight bytes of the VRF output); truncation,
    saturation and the two 18-term series never reverse the answer. *)
Theorem is_leader_monotone out out' s s' asc
    (Ha : moderate asc) (Hs : valid_stake s) (Hs' : valid_stake s')
    (Hden : sf_denom s = sf_denom s') (Hnum : sf_numer s <= sf_numer s')
    (Hout : from_be (take 8 out') <= from_be (take 8 out)) :
  is_leader out s asc = true -> is_leader out' s' asc = true.
Proof.
  pose proof (threshold_mono asc s s' Ha Hs Hs' Hden Hnum) as Ht.
  destruct Ha as (Hn & Hd & Hh), Hs as [Hsn Hsd], Hs' as [Hsn' Hsd'].
  unfold is_leader.
  destruct (Z.eqb_spec (sf_numer s) 0), (Z.eqb_spec (sf_numer s') 0),
    (Z.eqb_spec (sf_denom s) 0), (Z.eqb_spec (sf_denom s') 0); cbn [orb]; try done; try lia.
  destruct (asc_denom asc =? 0); [done|]. destruct (asc_denom asc <=? asc_numer asc); [done|].
  destruct (asc_numer asc =? 0); [done|]. rewrite !Z.ltb_lt.
  assert (leader_value_q out' <= leader_value_q out); [|lia].
  unfold leader_value_q, FP_BITS. rewrite !Z.shiftl_mul_pow2 by lia. lia.
Qed.

Lemma is_leader_monotone_witness :
  is_leader (repeat 0 64) (mk_StakeFraction 2 2) (mk_ActiveSlotsCoeff 1 20) = true.
Proof.
  apply (is_leader_monotone (0 :: repeat 9 63) (repeat 0 64) (mk_StakeFraction 1 2));
    [split; cbn; width; lia|split; cbn; width; lia..|done|cbn; lia| |].
  - vm_compute. congruence.
  - vm_compute. reflexivity.
Defined.
