(* ===== verification/Kes.v ===== *)
(** The Sum_n key-evolving signature scheme of [ade_crypto/src/kes_sum] and its
    wrapper [kes.rs].

    The trait [KesAlgorithm] is a record of operations; [Sum0Kes] (one Ed25519 key,
    one period) and [SumKes D] (a binary tree over [D]) are its two implementations,
    and [Sum6Kes] the six-level tree of Cardano.  [ed25519_dalek] and the hash are
    third-party code: the classes [Ed25519] and [Crypto].  A fixed-size array is a
    list; dropping and overwriting secrets has no observable result and is left out.

    [KesLaws D] states what a key-evolving scheme promises to a client: keys generated
    from a seed evolve through every period and no further, sign in each of them under
    one verification key, report their period, and survive serialization; and a
    signature accepted for a period carries an Ed25519 signature of that period's leaf
    key, unless it exhibits a hash collision.  [Sum0Kes] satisfies it, [SumKes D] does
    when [D] does, and [Sum6Kes] follows by instance resolution. *)

From S2P Require Import Prelude Envelope EraSchedule Leader.

(** * Errors *)

Inductive KesError : Type :=
| InvalidSeedLength (expected actual : Z)
| PeriodOutOfRange (period max_period : Z)
| Kes_VerificationFailed
| KeyExpired
| Kes_Ed25519 (detail : string).

Inductive KesParseError : Type :=
| WrongPayloadSize (actual : Z)
| LeafSignKeyAllZero
| InconsistentSubtreeVkLeft (level : Z)
| InconsistentSubtreeVkRight (level : Z)
| LevelOutOfRange (level : Z)
| InvalidEd25519SignatureLength (actual : Z).

(** [ed25519_dalek]: the public key of a seed, signing, and verification, which has no
    answer when the key is not a curve point. *)
Class Ed25519 : Type := {
  ed_public : list Z -> list Z;
  ed_sign : list Z -> list Z -> list Z;
  ed_verify : list Z -> list Z -> list Z -> option bool;
}.

(** * The trait *)

Record KesAlgorithm : Type := mk_KesAlgorithm {
  SigningKey : Type;
  Signature : Type;
  LEVEL : Z;
  SEED_SIZE : Z;
  SIGNING_KEY_SIZE : Z;
  SIGNATURE_SIZE : Z;
  total_periods : Z;
  gen_key_kes_from_seed_bytes : list Z -> result SigningKey KesError;
  derive_verification_key : SigningKey -> list Z;
  update_kes : SigningKey -> Z -> result (option SigningKey) KesError;
  sign_kes : SigningKey -> Z -> list Z -> result Signature KesError;
  verify_kes : list Z -> Z -> list Z -> Signature -> result unit KesError;
  raw_serialize_signing_key_kes : SigningKey -> list Z;
  raw_deserialize_signing_key_kes : list Z -> result SigningKey KesParseError;
  raw_serialize_signature_kes : Signature -> list Z;
  raw_deserialize_signature_kes : list Z -> result Signature KesParseError;
  current_period_of_signing_key : SigningKey -> Z;
}.

(** [bytes.iter().all(|&b| b == 0)] *)
Definition all_zero (bytes : list Z) : bool := forallb (fun b => b =? 0) bytes.

Section Sum0.
Context `{Crypto, Ed25519}.

(** [left = Blake2b256(0x01 ‖ seed)], [right = Blake2b256(0x02 ‖ seed)]. *)
Definition expand_seed (seed : list Z) : list Z * list Z :=
  (blake2b_256 (0x01 :: seed), blake2b_256 (0x02 :: seed)).

Definition hash_concat_vk (vk_left vk_right : list Z) : list Z :=
  blake2b_256 (vk_left ++ vk_right).

(** * Sum0: a single Ed25519 key *)

(** [Sum0SigningKey::from_seed] *)
Definition sum0_from_seed (seed : list Z) : result (list Z) KesError :=
  if negb (blen seed =? 32) then Err (InvalidSeedLength 32 (blen seed)) else Ok seed.

Definition sum0_derive (sk : list Z) : list Z := ed_public sk.

Definition sum0_sign (sk : list Z) (period : Z) (msg : list Z) : result (list Z) KesError :=
  if negb (period =? 0) then Err (PeriodOutOfRange period 0) else Ok (ed_sign sk msg).

Definition sum0_verify (vk : list Z) (period : Z) (msg sig : list Z) : result unit KesError :=
  if negb (period =? 0) then Err (PeriodOutOfRange period 0) else
  match ed_verify vk msg sig with
  | None => Err (Kes_Ed25519 "invalid verification key point")
  | Some true => Ok tt
  | Some false => Err Kes_VerificationFailed
  end.

Definition sum0_update (sk : list Z) (period : Z) : result (option (list Z)) KesError :=
  if 1 <=? period then Err (PeriodOutOfRange period 0) else Ok None.

Definition sum0_deserialize_sk (bytes : list Z) : result (list Z) KesParseError :=
  if negb (blen bytes =? 32) then Err (WrongPayloadSize (blen bytes))
  else if all_zero bytes then Err LeafSignKeyAllZero else Ok bytes.

Definition sum0_deserialize_sig (bytes : list Z) : result (list Z) KesParseError :=
  if negb (blen bytes =? 64) then Err (InvalidEd25519SignatureLength (blen bytes)) else Ok bytes.

Definition Sum0Kes : KesAlgorithm :=
  mk_KesAlgorithm (list Z) (list Z) 0 32 32 64 1
    sum0_from_seed sum0_derive sum0_update sum0_sign sum0_verify
    (fun sk => sk) sum0_deserialize_sk (fun sig => sig) sum0_deserialize_sig (fun _ => 0).
End Sum0.

(** * Sum_n: a tree over [D] *)

Record SumSigningKey (D : KesAlgorithm) : Type := mk_SumSigningKey {
  sk_child : SigningKey D;
  r1_seed : option (list Z);
  sk_vk0 : list Z;
  sk_vk1 : list Z;
}.
Arguments mk_SumSigningKey {D}.
Arguments sk_child {D}.
Arguments r1_seed {D}.
Arguments sk_vk0 {D}.
Arguments sk_vk1 {D}.

Record SumSignature (D : KesAlgorithm) : Type := mk_SumSignature {
  sigma : Signature D;
  sig_vk0 : list Z;
  sig_vk1 : list Z;
}.
Arguments mk_SumSignature {D}.
Arguments sigma {D}.
Arguments sig_vk0 {D}.
Arguments sig_vk1 {D}.

Section SumN.
Context `{Crypto, Ed25519} (D : KesAlgorithm).

Definition sum_level : Z := LEVEL D + 1.
Definition sum_sk_size : Z := SIGNING_KEY_SIZE D + 96.
Definition sum_sig_size : Z := SIGNATURE_SIZE D + 64.
Definition sum_total_periods : Z := 2 * total_periods D.

Definition sum_gen_key (seed : list Z) : result (SumSigningKey D) KesError :=
  if negb (blen seed =? SEED_SIZE D)
  then Err (InvalidSeedLength (SEED_SIZE D) (blen seed)) else
  let (left_seed, right_seed) := expand_seed seed in
  let? sk_left := gen_key_kes_from_seed_bytes D left_seed in
  let vk_left := derive_verification_key D sk_left in
  let? sk_right_tmp := gen_key_kes_from_seed_bytes D right_seed in
  let vk_right := derive_verification_key D sk_right_tmp in
  Ok (mk_SumSigningKey sk_left (Some right_seed) vk_left vk_right).

Definition sum_derive (sk : SumSigningKey D) : list Z :=
  hash_concat_vk (sk_vk0 sk) (sk_vk1 sk).

Definition sum_sign (sk : SumSigningKey D) (period : Z) (msg : list Z) :
    result (SumSignature D) KesError :=
  let t_half := total_periods D in
  let total := 2 * t_half in
  if total <=? period then Err (PeriodOutOfRange period (total - 1)) else
  let child_period := if period <? t_half then period else period - t_half in
  let? s := sign_kes D (sk_child sk) child_period msg in
  Ok (mk_SumSignature s (sk_vk0 sk) (sk_vk1 sk)).

Definition sum_verify (vk : list Z) (period : Z) (msg : list Z) (sig : SumSignature D) :
    result unit KesError :=
  let t_half := total_periods D in
  let total := 2 * t_half in
  if total <=? period then Err (PeriodOutOfRange period (total - 1)) else
  if negb (bool_decide (hash_concat_vk (sig_vk0 sig) (sig_vk1 sig) = vk))
  then Err Kes_VerificationFailed else
  let (child_vk, child_period) :=
    if period <? t_half then (sig_vk0 sig, period) else (sig_vk1 sig, period - t_half) in
  verify_kes D child_vk child_period msg (sigma sig).

Definition sum_update (sk : SumSigningKey D) (period : Z) :
    result (option (SumSigningKey D)) KesError :=
  let t_half := total_periods D in
  let total := 2 * t_half in
  if total <=? period then Err (PeriodOutOfRange period (total - 1)) else
  let next_period := period + 1 in
  if next_period =? total then Ok None else
  if next_period =? t_half then
    let? seed := ok_or (r1_seed sk) KeyExpired in
    let? sk_right := gen_key_kes_from_seed_bytes D seed in
    Ok (Some (mk_SumSigningKey sk_right None (sk_vk0 sk) (sk_vk1 sk)))
  else if next_period <? t_half then
    let? updated := update_kes D (sk_child sk) period in
    Ok (option_map (fun u => mk_SumSigningKey u (r1_seed sk) (sk_vk0 sk) (sk_vk1 sk)) updated)
  else
    let? updated := update_kes D (sk_child sk) (period - t_half) in
    Ok (option_map (fun u => mk_SumSigningKey u None (sk_vk0 sk) (sk_vk1 sk)) updated).

Definition sum_serialize_sk (sk : SumSigningKey D) : list Z :=
  raw_serialize_signing_key_kes D (sk_child sk)
    ++ (match r1_seed sk with Some seed => seed | None => repeat 0 32 end)
    ++ sk_vk0 sk ++ sk_vk1 sk.

Definition sum_deserialize_sk (bytes : list Z) : result (SumSigningKey D) KesParseError :=
  if negb (blen bytes =? sum_sk_size) then Err (WrongPayloadSize (blen bytes)) else
  let child_end := SIGNING_KEY_SIZE D in
  let? child := raw_deserialize_signing_key_kes D (slice bytes 0 child_end) in
  let seed_n := slice bytes child_end (child_end + 32) in
  let vk_left := slice bytes (child_end + 32) (child_end + 64) in
  let vk_right := slice bytes (child_end + 64) (child_end + 96) in
  let computed := derive_verification_key D child in
  if negb (all_zero seed_n) then
    if negb (bool_decide (computed = vk_left)) then Err (InconsistentSubtreeVkLeft sum_level) else
    let? right_check := map_err (fun _ => InconsistentSubtreeVkRight sum_level)
                          (gen_key_kes_from_seed_bytes D seed_n) in
    if negb (bool_decide (derive_verification_key D right_check = vk_right))
    then Err (InconsistentSubtreeVkRight sum_level)
    else Ok (mk_SumSigningKey child (Some seed_n) vk_left vk_right)
  else
    if negb (bool_decide (computed = vk_right)) then Err (InconsistentSubtreeVkRight sum_level)
    else Ok (mk_SumSigningKey child None vk_left vk_right).

Definition sum_serialize_sig (sig : SumSignature D) : list Z :=
  raw_serialize_signature_kes D (sigma sig) ++ sig_vk0 sig ++ sig_vk1 sig.

Definition sum_deserialize_sig (bytes : list Z) : result (SumSignature D) KesParseError :=
  if negb (blen bytes =? sum_sig_size) then Err (WrongPayloadSize (blen bytes)) else
  let sigma_end := SIGNATURE_SIZE D in
  let? s := raw_deserialize_signature_kes D (slice bytes 0 sigma_end) in
  Ok (mk_SumSignature s (slice bytes sigma_end (sigma_end + 32))
        (slice bytes (sigma_end + 32) (sigma_end + 64))).

Definition sum_current_period (sk : SumSigningKey D) : Z :=
  let child_period := current_period_of_signing_key D (sk_child sk) in
  match r1_seed sk with
  | Some _ => child_period
  | None => total_periods D + child_period
  end.

Definition SumKes : KesAlgorithm :=
  mk_KesAlgorithm (SumSigningKey D) (SumSignature D) sum_level (SEED_SIZE D)
    sum_sk_size sum_sig_size sum_total_periods
    sum_gen_key sum_derive sum_update sum_sign sum_verify
    sum_serialize_sk sum_deserialize_sk sum_serialize_sig sum_deserialize_sig sum_current_period.
End SumN.

Section Sum6.
Context `{Crypto, Ed25519}.

Definition Sum6Kes : KesAlgorithm :=
  SumKes (SumKes (SumKes (SumKes (SumKes (SumKes Sum0Kes))))).
End Sum6.

(** * Period inference from a 608-byte payload ([period.rs]) *)

Definition period_from_zeroed_sum6_tree_shape (bytes : list Z) : result Z KesParseError :=
  let bit (from to contribution : Z) := if all_zero (slice bytes from to) then contribution else 0 in
  if all_zero (slice bytes 0 32) then Err LeafSignKeyAllZero
  else Ok (bit 512 544 32 + bit 416 448 16 + bit 320 352 8
           + bit 224 256 4 + bit 128 160 2 + bit 32 64 1).

(** * The wrapper [kes.rs] *)

Definition SUM6_MAX_PERIOD : Z := 63.
Definition SUM6_SIGNATURE_SIZE : Z := 448.

(** [KesPeriod::new] *)
Definition KesPeriod_new (period : Z) : result Z CryptoError :=
  if SUM6_MAX_PERIOD <? period then Err (Crypto_KesExpiredPeriod period SUM6_MAX_PERIOD)
  else Ok period.

Record OperationalCertData : Type := mk_OperationalCertData {
  hot_vkey : list Z;
  sequence_number : Z;
  kes_period : Z;
  cold_signature : list Z;
}.

Definition build_opcert_signable (o : OperationalCertData) : list Z :=
  hot_vkey o ++ to_be 8 (sequence_number o) ++ to_be 8 (kes_period o).

Section Wrapper.
Context `{Crypto, Ed25519}.

(** [ade_crypto::kes::verify_kes] *)
Definition verify_kes_sum6 (vk : list Z) (period : Z) (sig_bytes msg : list Z) :
    result bool CryptoError :=
  if negb (blen sig_bytes =? SUM6_SIGNATURE_SIZE)
  then Err (Crypto_MalformedSignature "kes_sum6" "wrong signature length") else
  let? signature :=
    map_err (fun _ => Crypto_MalformedSignature "kes_sum6" "failed to deserialize KES signature")
      (raw_deserialize_signature_kes Sum6Kes sig_bytes) in
  match verify_kes Sum6Kes vk period msg signature with
  | Ok _ => Ok true
  | Err _ => Ok false
  end.

Definition verify_ed25519 (vk msg sig : list Z) : result bool CryptoError :=
  match ed_verify vk msg sig with
  | None => Err (Crypto_MalformedKey "ed25519" "invalid point encoding")
  | Some b => Ok b
  end.

Definition verify_opcert (cold_vk : list Z) (o : OperationalCertData) : result bool CryptoError :=
  verify_ed25519 cold_vk (build_opcert_signable o) (cold_signature o).
End Wrapper.

(** * What the third-party code is relied on for *)

Class HashLaws `{Crypto} : Prop := {
  hash_len : forall x, length (blake2b_256 x) = 32%nat;
}.

Class Ed25519Laws `{Ed25519} : Prop := {
  public_len : forall seed, length (ed_public seed) = 32%nat;
  sign_len : forall seed msg, length (ed_sign seed msg) = 64%nat;
  sign_verifies : forall seed msg, ed_verify (ed_public seed) msg (ed_sign seed msg) = Some true;
}.

Definition collision `{Crypto} : Prop :=
  exists x y, x <> y /\ blake2b_256 x = blake2b_256 y.

(** * The specification *)

(** [reached D seed t sk]: [sk] is the key generated from [seed] after [t] updates. *)
Inductive reached (D : KesAlgorithm) (seed : list Z) : Z -> SigningKey D -> Prop :=
| reached_0 sk : gen_key_kes_from_seed_bytes D seed = Ok sk -> reached D seed 0 sk
| reached_S t sk sk' : reached D seed t sk -> update_kes D sk t = Ok (Some sk') ->
    reached D seed (t + 1) sk'.

(** The verification key a seed is published under. *)
Definition vk_of (D : KesAlgorithm) (seed : list Z) : list Z :=
  match gen_key_kes_from_seed_bytes D seed with
  | Ok sk => derive_verification_key D sk
  | Err _ => []
  end.

(** The Ed25519 seed of each period, the Ed25519 signature inside a signature, the
    arrays of a signature at their sizes, and the seeds that are stored being non-zero
    (zero marks a seed that was erased). *)
Class KesSpec (D : KesAlgorithm) : Type := {
  leaf_seed : list Z -> Z -> list Z;
  leaf_sig : Signature D -> list Z;
  typed_sig : Signature D -> Prop;
  live : list Z -> Prop;
}.
Arguments leaf_seed D {_}.
Arguments leaf_sig D {_}.
Arguments typed_sig D {_}.
Arguments live D {_}.

Class KesLaws `{Crypto, Ed25519} (D : KesAlgorithm) `{!KesSpec D} : Prop := {
  kl_seed_size : SEED_SIZE D = 32;
  kl_total : 0 < total_periods D;
  kl_sizes : 0 <= SIGNING_KEY_SIZE D /\ 0 <= SIGNATURE_SIZE D;
  kl_gen seed : length seed = 32%nat -> exists sk, gen_key_kes_from_seed_bytes D seed = Ok sk;
  kl_vk_len seed : length seed = 32%nat -> length (vk_of D seed) = 32%nat;
  kl_bound seed t sk : length seed = 32%nat -> reached D seed t sk -> 0 <= t < total_periods D;
  kl_vk seed t sk : length seed = 32%nat -> reached D seed t sk ->
    derive_verification_key D sk = vk_of D seed;
  kl_period seed t sk : length seed = 32%nat -> reached D seed t sk ->
    current_period_of_signing_key D sk = t;
  kl_update seed t sk : length seed = 32%nat -> reached D seed t sk ->
    if t + 1 =? total_periods D then update_kes D sk t = Ok None
    else exists sk', update_kes D sk t = Ok (Some sk');
  kl_sign seed t sk msg : length seed = 32%nat -> reached D seed t sk ->
    exists sig, sign_kes D sk t msg = Ok sig /\ typed_sig D sig /\
      verify_kes D (vk_of D seed) t msg sig = Ok tt /\
      leaf_sig D sig = ed_sign (leaf_seed D seed t) msg;
  kl_sound seed t msg sig : length seed = 32%nat -> typed_sig D sig ->
    0 <= t ->
    verify_kes D (vk_of D seed) t msg sig = Ok tt ->
    (t < total_periods D /\
     ed_verify (ed_public (leaf_seed D seed t)) msg (leaf_sig D sig) = Some true) \/ collision;
  kl_key_roundtrip seed t sk : length seed = 32%nat -> live D seed -> reached D seed t sk ->
    raw_deserialize_signing_key_kes D (raw_serialize_signing_key_kes D sk) = Ok sk /\
    blen (raw_serialize_signing_key_kes D sk) = SIGNING_KEY_SIZE D;
  kl_sig_roundtrip sig : typed_sig D sig ->
    raw_deserialize_signature_kes D (raw_serialize_signature_kes D sig) = Ok sig /\
    blen (raw_serialize_signature_kes D sig) = SIGNATURE_SIZE D;
  kl_sig_typed bytes sig : raw_deserialize_signature_kes D bytes = Ok sig -> typed_sig D sig;
}.

Lemma vk_of_gen D seed sk :
  gen_key_kes_from_seed_bytes D seed = Ok sk -> vk_of D seed = derive_verification_key D sk.
Proof. unfold vk_of. by intros ->. Qed.

Lemma blen_32 (l : list Z) : length l = 32%nat <-> blen l = 32.
Proof. unfold blen. lia. Qed.

(** * The leaf *)

Section Leaf.
Context `{Crypto, Ed25519}.

#[export] Instance sum0_spec : KesSpec Sum0Kes :=
  Build_KesSpec Sum0Kes
    (fun seed _ => seed)
    (fun sig : list Z => sig)
    (fun sig : list Z => length sig = 64%nat)
    (fun seed => all_zero seed = false).

Lemma sum0_gen seed : length seed = 32%nat -> sum0_from_seed seed = Ok seed.
Proof. intros Hs%blen_32. unfold sum0_from_seed. by rewrite Hs. Qed.

Lemma sum0_reached seed t sk :
  length seed = 32%nat -> reached Sum0Kes seed t sk -> t = 0 /\ sk = seed.
Proof.
  intros Hs. induction 1 as [sk Hg|t sk sk' _ IH Hu].
  - cbn in Hg. rewrite sum0_gen in Hg by done. split; congruence.
  - destruct IH as [-> _]. done.
Qed.

#[export] Instance sum0_laws `{!Ed25519Laws} : KesLaws Sum0Kes.
Proof.
  assert (Hr : forall seed t sk, length seed = 32%nat -> reached Sum0Kes seed t sk -> t = 0 /\ sk = seed)
    by apply sum0_reached.
  assert (Hvk : forall seed, length seed = 32%nat -> vk_of Sum0Kes seed = ed_public seed)
    by (intros seed Hs; unfold vk_of; cbn; by rewrite sum0_gen).
  constructor; try done.
  - intros seed Hs. exists seed. by apply sum0_gen.
  - intros seed Hs. rewrite Hvk by done. apply public_len.
  - intros seed t sk Hs [-> _]%Hr; [|done]. done.
  - intros seed t sk Hs [-> ->]%Hr; [|done]. by rewrite Hvk.
  - intros seed t sk Hs [-> _]%Hr; [|done]. done.
  - intros seed t sk Hs [-> _]%Hr; [|done]. done.
  - intros seed t sk msg Hs [-> ->]%Hr; [|done]. exists (ed_sign seed msg).
    split; [done|split; [apply sign_len|split; [|done]]].
    rewrite Hvk by done. cbn. by rewrite sign_verifies.
  - intros seed t msg sig Hs _ Ht. rewrite Hvk by done. cbn. unfold sum0_verify.
    destruct (Z.eqb_spec t 0) as [->|]; cbn; [|done]. intros Hv. left. split; [lia|].
    by destruct (ed_verify _ _ _) as [[|]|].
  - intros seed t sk Hs Hl [-> ->]%Hr; [|done]. cbn in *. apply blen_32 in Hs.
    unfold sum0_deserialize_sk. by rewrite Hs, Hl.
  - intros sig Hs. cbn in *. unfold sum0_deserialize_sig, blen. by rewrite Hs.
  - intros bytes sig. cbn. unfold sum0_deserialize_sig.
    destruct (Z.eqb_spec (blen bytes) 64) as [Hb|]; cbn; [|done]. intros [= <-].
    unfold blen in Hb. lia.
Qed.
End Leaf.

Lemma length_slice bytes a b :
  0 <= a <= b -> b <= blen bytes -> length (slice bytes a b) = Z.to_nat (b - a).
Proof. unfold blen, slice. intros. rewrite length_take, length_drop. lia. Qed.

(** * One level up *)

Section Node.
Context `{Crypto, Ed25519} (D : KesAlgorithm) `{!KesSpec D}.

#[export] Instance sum_spec : KesSpec (SumKes D) :=
  Build_KesSpec (SumKes D)
    (fun seed t => let (l, r) := expand_seed seed in
       if t <? total_periods D then leaf_seed D l t else leaf_seed D r (t - total_periods D))
    (fun sig : SumSignature D => leaf_sig D (sigma sig))
    (fun sig : SumSignature D => typed_sig D (sigma sig) /\
       length (sig_vk0 sig) = 32%nat /\ length (sig_vk1 sig) = 32%nat)
    (fun seed => let (l, r) := expand_seed seed in
       live D l /\ live D r /\ all_zero r = false).

Context `{!HashLaws, !Ed25519Laws, !KesLaws D}.

Lemma expand_len seed l r :
  expand_seed seed = (l, r) -> length l = 32%nat /\ length r = 32%nat.
Proof. intros [= <- <-]. split; apply hash_len. Qed.

Lemma sum_gen_eq seed l r :
  length seed = 32%nat -> expand_seed seed = (l, r) ->
  exists sk, gen_key_kes_from_seed_bytes D l = Ok sk /\
    sum_gen_key D seed = Ok (mk_SumSigningKey sk (Some r) (vk_of D l) (vk_of D r)).
Proof.
  intros Hs He. destruct (expand_len _ _ _ He) as [Hl Hr].
  destruct (kl_gen l Hl) as [skl Hgl], (kl_gen r Hr) as [skr Hgr].
  exists skl. split; [done|]. unfold sum_gen_key. rewrite kl_seed_size.
  apply blen_32 in Hs. rewrite Hs. cbn [Z.eqb negb Pos.eqb]. rewrite He, Hgl. cbn [rbind].
  rewrite Hgr. cbn [rbind]. by rewrite (vk_of_gen _ _ _ Hgl), (vk_of_gen _ _ _ Hgr).
Qed.

Lemma sum_vk_of seed l r :
  length seed = 32%nat -> expand_seed seed = (l, r) ->
  vk_of (SumKes D) seed = hash_concat_vk (vk_of D l) (vk_of D r).
Proof.
  intros Hs He. destruct (sum_gen_eq seed l r Hs He) as (sk & _ & Hg).
  unfold vk_of at 1. cbn. by rewrite Hg.
Qed.

(** The shape of an evolved key: the left child evolving, then the right one, the
    seed of the right one kept exactly until then. *)
Definition sum_shape (l r : list Z) (t : Z) (sk : SumSigningKey D) : Prop :=
  sk_vk0 sk = vk_of D l /\ sk_vk1 sk = vk_of D r /\
  ((t < total_periods D /\ r1_seed sk = Some r /\ reached D l t (sk_child sk)) \/
   (total_periods D <= t /\ r1_seed sk = None /\
    reached D r (t - total_periods D) (sk_child sk))).

Lemma sum_update_shape l r t sk sk' :
  length l = 32%nat -> length r = 32%nat ->
  sum_shape l r t sk -> sum_update D sk t = Ok (Some sk') -> sum_shape l r (t + 1) sk'.
Proof.
  intros Hl Hr (E0 & E1 & Hc). unfold sum_update.
  destruct (Z.leb_spec (2 * total_periods D) t); [done|].
  destruct (Z.eqb_spec (t + 1) (2 * total_periods D)); [done|].
  destruct (Z.eqb_spec (t + 1) (total_periods D)) as [Heq|Hne].
  - intros Hb. binv Hb. injection Hb as <-. apply ok_or_ok in Hb0.
    destruct Hc as [(Ht & Hseed & Hch)|(Ht & _)]; [|lia]. rewrite Hseed in Hb0. injection Hb0 as ->.
    split; [done|split; [done|]]. right. split; [lia|split; [done|]].
    replace (t + 1 - total_periods D) with 0 by lia. by constructor.
  - destruct (Z.ltb_spec (t + 1) (total_periods D)).
    + intros Hb. binv Hb. destruct a as [u|]; [|done]. injection Hb as <-.
      destruct Hc as [(Ht & Hseed & Hch)|(Ht & _)]; [|lia].
      split; [done|split; [done|]]. left. split; [lia|split; [done|]]. by econstructor.
    + intros Hb. binv Hb. destruct a as [u|]; [|done]. injection Hb as <-.
      destruct Hc as [(Ht & _)|(Ht & Hseed & Hch)]; [lia|].
      split; [done|split; [done|]]. right. split; [lia|split; [done|]].
      replace (t + 1 - total_periods D) with (t - total_periods D + 1) by lia. by econstructor.
Qed.

Lemma sum_reached seed l r t sk :
  length seed = 32%nat -> expand_seed seed = (l, r) ->
  reached (SumKes D) seed t sk -> sum_shape l r t sk.
Proof.
  intros Hs He. destruct (expand_len _ _ _ He) as [Hl Hr].
  induction 1 as [sk Hg|t sk sk' _ IH Hu].
  - destruct (sum_gen_eq seed l r Hs He) as (skl & Hgl & Hg'). cbn in Hg. rewrite Hg' in Hg.
    injection Hg as <-. split; [done|split; [done|]]. left. split; [apply kl_total|].
    split; [done|]. by constructor.
  - by eapply sum_update_shape.
Qed.

Lemma sum_update_total l r t sk :
  length l = 32%nat -> length r = 32%nat -> sum_shape l r t sk ->
  if t + 1 =? sum_total_periods D then sum_update D sk t = Ok None
  else exists sk', sum_update D sk t = Ok (Some sk').
Proof.
  intros Hl Hr (_ & _ & Hc). unfold sum_total_periods, sum_update. pose proof kl_total as Hpos.
  assert (Hb : t < 2 * total_periods D).
  { destruct Hc as [(? & _)|(_ & _ & Hch)]; [lia|]. apply kl_bound in Hch; [lia|done]. }
  destruct (Z.leb_spec (2 * total_periods D) t); [lia|].
  destruct (Z.eqb_spec (t + 1) (2 * total_periods D)); [done|].
  destruct (Z.eqb_spec (t + 1) (total_periods D)) as [Heq|Hne].
  - destruct Hc as [(Ht & -> & _)|(Ht & _)]; [|lia]. cbn [ok_or rbind].
    destruct (kl_gen r Hr) as [skr ->]. cbn [rbind]. eauto.
  - destruct (Z.ltb_spec (t + 1) (total_periods D)).
    + destruct Hc as [(Ht & _ & Hch)|(Ht & _)]; [|lia]. pose proof (kl_update l t _ Hl Hch) as Hu.
      destruct (Z.eqb_spec (t + 1) (total_periods D)); [lia|]. destruct Hu as [u ->].
      cbn [rbind option_map]. eauto.
    + destruct Hc as [(Ht & _)|(Ht & _ & Hch)]; [lia|]. pose proof (kl_update r _ _ Hr Hch) as Hu.
      destruct (Z.eqb_spec (t - total_periods D + 1) (total_periods D)); [lia|].
      destruct Hu as [u ->]. cbn [rbind option_map]. eauto.
Qed.

Lemma sum_bound l r t sk :
  length l = 32%nat -> length r = 32%nat -> sum_shape l r t sk -> 0 <= t < sum_total_periods D.
Proof.
  intros Hl Hr (_ & _ & [(Ht & _ & Hch)|(Ht & _ & Hch)]); unfold sum_total_periods;
    apply kl_bound in Hch; [lia|done|pose proof kl_total; lia|done].
Qed.

(** Signing, and verification of what was signed, go down the same side. *)
Lemma sum_signs seed l r t sk msg :
  length seed = 32%nat -> expand_seed seed = (l, r) -> sum_shape l r t sk ->
  exists sig, sum_sign D sk t msg = Ok sig /\ typed_sig (SumKes D) sig /\
    sum_verify D (vk_of (SumKes D) seed) t msg sig = Ok tt /\
    leaf_sig (SumKes D) sig = ed_sign (leaf_seed (SumKes D) seed t) msg.
Proof.
  intros Hs He Hsh. destruct (expand_len _ _ _ He) as [Hl Hr].
  pose proof (sum_bound l r t sk Hl Hr Hsh) as Hb. unfold sum_total_periods in Hb.
  rewrite (sum_vk_of seed l r) by done. destruct Hsh as (E0 & E1 & Hc).
  unfold sum_sign, sum_verify. cbn [leaf_seed sum_spec]. rewrite He.
  destruct (Z.leb_spec (2 * total_periods D) t); [lia|].
  destruct (Z.ltb_spec t (total_periods D)).
  - destruct Hc as [(_ & _ & Hch)|(? & _)]; [|lia].
    destruct (kl_sign l t _ msg Hl Hch) as (s & Hsg & Hty & Hv & Hlf). rewrite Hsg. cbn [rbind].
    eexists. split; [done|]. cbn [sig_vk0 sig_vk1 sigma]. rewrite E0, E1.
    split; [split; [done|split; by apply kl_vk_len]|].
    by rewrite bool_decide_eq_true_2.
  - destruct Hc as [(? & _)|(_ & _ & Hch)]; [lia|].
    destruct (kl_sign r _ _ msg Hr Hch) as (s & Hsg & Hty & Hv & Hlf). rewrite Hsg. cbn [rbind].
    eexists. split; [done|]. cbn [sig_vk0 sig_vk1 sigma]. rewrite E0, E1.
    split; [split; [done|split; by apply kl_vk_len]|].
    by rewrite bool_decide_eq_true_2.
Qed.

(** An accepted signature authenticates its period's leaf key, up to a collision. *)
Lemma sum_sound seed l r t msg (sig : SumSignature D) :
  length seed = 32%nat -> expand_seed seed = (l, r) ->
  typed_sig (SumKes D) sig -> 0 <= t ->
  sum_verify D (vk_of (SumKes D) seed) t msg sig = Ok tt ->
  (t < sum_total_periods D /\
   ed_verify (ed_public (leaf_seed (SumKes D) seed t)) msg (leaf_sig (SumKes D) sig) = Some true)
  \/ collision.
Proof.
  intros Hs He (Hty & Hl0 & Hl1) Ht0. destruct (expand_len _ _ _ He) as [Hl Hr].
  rewrite (sum_vk_of seed l r) by done. unfold sum_verify, hash_concat_vk.
  destruct (Z.leb_spec (2 * total_periods D) t); [done|].
  destruct (bool_decide _) eqn:Eh; [|done]. apply bool_decide_eq_true in Eh. cbn [negb].
  destruct (decide (sig_vk0 sig ++ sig_vk1 sig = vk_of D l ++ vk_of D r)) as [Eq|Hne].
  2: { intros _. right. by exists (sig_vk0 sig ++ sig_vk1 sig), (vk_of D l ++ vk_of D r). }
  apply app_inj_1 in Eq as [-> ->]; [|by rewrite Hl0, kl_vk_len].
  cbn [leaf_seed leaf_sig sum_spec]. rewrite He. unfold sum_total_periods.
  destruct (Z.ltb_spec t (total_periods D)); intros Hv;
    (eapply kl_sound in Hv as [[? Hv]|]; [left|right|..]); done || lia || idtac.
Qed.

(** * Serialization *)

Lemma slice_of (pre mid post : list Z) a b :
  blen pre = a -> b = a + blen mid -> slice (pre ++ mid ++ post) a b = mid.
Proof. intros <- ->. apply slice_app. Qed.

Lemma sum_key_roundtrip l r t (sk : SumSigningKey D) :
  length l = 32%nat -> length r = 32%nat -> live D l -> live D r -> all_zero r = false ->
  sum_shape l r t sk ->
  sum_deserialize_sk D (sum_serialize_sk D sk) = Ok sk /\
  blen (sum_serialize_sk D sk) = sum_sk_size D.
Proof.
  intros Hl Hr Ll Lr Hz (E0 & E1 & Hc). destruct sk as [ch r1 v0 v1].
  cbn [sk_vk0 sk_vk1 r1_seed sk_child] in *. subst v0 v1.
  assert (Hch : raw_deserialize_signing_key_kes D (raw_serialize_signing_key_kes D ch) = Ok ch /\
    blen (raw_serialize_signing_key_kes D ch) = SIGNING_KEY_SIZE D)
    by (destruct Hc as [(_ & _ & Hch)|(_ & _ & Hch)];
        [by apply (kl_key_roundtrip l t)|by apply (kl_key_roundtrip r (t - total_periods D))]).
  destruct Hch as [Hde Hsz]. unfold sum_serialize_sk, sum_deserialize_sk, sum_sk_size.
  cbn [sk_child r1_seed sk_vk0 sk_vk1].
  set (c := raw_serialize_signing_key_kes D ch) in *.
  set (sd := match r1 with Some s => s | None => repeat 0 32 end).
  assert (Hsd : blen sd = 32).
  { destruct Hc as [(_ & -> & _)|(_ & -> & _)]; [by apply blen_32|done]. }
  pose proof (proj1 (blen_32 _) (kl_vk_len l Hl)) as H0'. pose proof (proj1 (blen_32 _) (kl_vk_len r Hr)) as H1'.
  assert (Hlen : blen (c ++ sd ++ vk_of D l ++ vk_of D r) = SIGNING_KEY_SIZE D + 96)
    by (rewrite !blen_app; lia).
  split; [|done]. rewrite Hlen, Z.eqb_refl. cbn [negb].
  replace (slice (c ++ sd ++ vk_of D l ++ vk_of D r) 0 (SIGNING_KEY_SIZE D)) with c
    by (symmetry; apply (slice_of []); [done|lia]).
  rewrite Hde. cbn [rbind].
  rewrite (slice_of c sd) by (done || lia).
  replace (slice (c ++ sd ++ vk_of D l ++ vk_of D r) (SIGNING_KEY_SIZE D + 32) (SIGNING_KEY_SIZE D + 64))
    with (vk_of D l)
    by (symmetry; rewrite app_assoc; apply slice_of; rewrite ?blen_app; lia).
  replace (slice (c ++ sd ++ vk_of D l ++ vk_of D r) (SIGNING_KEY_SIZE D + 64) (SIGNING_KEY_SIZE D + 96))
    with (vk_of D r)
    by (symmetry; rewrite <- (app_nil_r (vk_of D r)) at 1; rewrite !app_assoc, <- (app_assoc _ _ []);
        apply slice_of; rewrite ?blen_app; lia).
  destruct Hc as [(Ht & -> & Hch)|(Ht & -> & Hch)]; subst sd.
  - rewrite Hz. cbn [negb]. rewrite (kl_vk l t ch Hl Hch), bool_decide_eq_true_2 by done. cbn [negb].
    destruct (kl_gen r Hr) as [skr Hg]. rewrite Hg. cbn [map_err rbind].
    rewrite (vk_of_gen _ _ _ Hg), bool_decide_eq_true_2 by done. done.
  - cbn [all_zero repeat forallb Z.eqb negb andb].
    rewrite (kl_vk r _ ch Hr Hch), bool_decide_eq_true_2 by done. done.
Qed.

Lemma sum_sig_roundtrip (sig : SumSignature D) :
  typed_sig (SumKes D) sig ->
  sum_deserialize_sig D (sum_serialize_sig D sig) = Ok sig /\
  blen (sum_serialize_sig D sig) = sum_sig_size D.
Proof.
  intros (Hty & Hl0%blen_32 & Hl1%blen_32). destruct sig as [s v0 v1]. cbn [sigma sig_vk0 sig_vk1] in *.
  destruct (kl_sig_roundtrip s Hty) as [Hde Hsz].
  unfold sum_serialize_sig, sum_deserialize_sig, sum_sig_size. cbn [sigma sig_vk0 sig_vk1].
  set (c := raw_serialize_signature_kes D s) in *.
  assert (Hlen : blen (c ++ v0 ++ v1) = SIGNATURE_SIZE D + 64) by (rewrite !blen_app; lia).
  split; [|done]. rewrite Hlen, Z.eqb_refl. cbn [negb].
  replace (slice (c ++ v0 ++ v1) 0 (SIGNATURE_SIZE D)) with c
    by (symmetry; apply (slice_of []); [done|lia]).
  rewrite Hde. cbn [rbind].
  rewrite (slice_of c v0) by (done || lia).
  replace (slice (c ++ v0 ++ v1) (SIGNATURE_SIZE D + 32) (SIGNATURE_SIZE D + 64)) with v1
    by (symmetry; rewrite <- (app_nil_r v1) at 1; rewrite app_assoc;
        apply slice_of; rewrite ?blen_app; lia).
  done.
Qed.

#[export] Instance sum_laws : KesLaws (SumKes D).
Proof.
  assert (Hx : forall seed, exists l r, expand_seed seed = (l, r) /\
    length l = 32%nat /\ length r = 32%nat).
  { intros seed. destruct (expand_seed seed) as [l r] eqn:E. exists l, r.
    split; [done|]. by eapply expand_len. }
  assert (Hsh : forall seed l r t sk, length seed = 32%nat -> expand_seed seed = (l, r) ->
    reached (SumKes D) seed t sk -> sum_shape l r t sk) by (intros; by eapply sum_reached).
  constructor.
  - exact (kl_seed_size (D := D)).
  - cbn. unfold sum_total_periods. pose proof (kl_total (D := D)). lia.
  - cbn. unfold sum_sk_size, sum_sig_size. pose proof (kl_sizes (D := D)). lia.
  - intros seed Hs. destruct (Hx seed) as (l & r & He & Hl & Hr).
    destruct (sum_gen_eq seed l r Hs He) as (sk & _ & Hg). eexists. exact Hg.
  - intros seed Hs. destruct (Hx seed) as (l & r & He & Hl & Hr).
    rewrite (sum_vk_of seed l r) by done. apply hash_len.
  - intros seed t sk Hs Hre. destruct (Hx seed) as (l & r & He & Hl & Hr).
    eapply sum_bound; [exact Hl|exact Hr|]. exact (Hsh seed l r t sk Hs He Hre).
  - intros seed t sk Hs Hre. destruct (Hx seed) as (l & r & He & Hl & Hr).
    rewrite (sum_vk_of seed l r) by done. destruct (Hsh _ _ _ _ _ Hs He Hre) as (E0 & E1 & _).
    cbn. unfold sum_derive. by rewrite E0, E1.
  - intros seed t sk Hs Hre. destruct (Hx seed) as (l & r & He & Hl & Hr).
    destruct (Hsh _ _ _ _ _ Hs He Hre) as (_ & _ & [(_ & E & Hc)|(_ & E & Hc)]);
      cbn; unfold sum_current_period; rewrite E; apply kl_period in Hc; rewrite ?Hc; done || lia.
  - intros seed t sk Hs Hre. destruct (Hx seed) as (l & r & He & Hl & Hr).
    eapply sum_update_total; [exact Hl|exact Hr|]. exact (Hsh seed l r t sk Hs He Hre).
  - intros seed t sk msg Hs Hre. destruct (Hx seed) as (l & r & He & Hl & Hr).
    eapply sum_signs; [exact Hs|exact He|]. exact (Hsh seed l r t sk Hs He Hre).
  - intros seed t msg sig Hs Hty Ht Hv. destruct (Hx seed) as (l & r & He & Hl & Hr).
    exact (sum_sound seed l r t msg sig Hs He Hty Ht Hv).
  - intros seed t sk Hs Hlive Hre. destruct (Hx seed) as (l & r & He & Hl & Hr).
    cbn [live sum_spec] in Hlive. rewrite He in Hlive. destruct Hlive as (Ll & Lr & Hz).
    eapply (sum_key_roundtrip l r t); try done. exact (Hsh seed l r t sk Hs He Hre).
  - intros sig Hty. by apply sum_sig_roundtrip.
  - intros bytes sig. cbn. unfold sum_deserialize_sig, sum_sig_size.
    destruct (Z.eqb_spec (blen bytes) (SIGNATURE_SIZE D + 64)) as [Hb|]; cbn; [|done].
    intros H'. binv H'. injection H' as <-. pose proof (kl_sizes (D := D)) as [_ Hz].
    split; [by eapply kl_sig_typed|]. cbn. split; rewrite length_slice; lia.
Qed.

(** One level of a serialized key: the seed field tells the active side, the child's
    bytes come first. *)
Lemma sum_descend n m h seed t (sk : SigningKey (SumKes D)) :
  SIGNING_KEY_SIZE D = n -> m = n + 32 -> total_periods D = h ->
  length seed = 32%nat -> live (SumKes D) seed -> reached (SumKes D) seed t sk ->
  exists seed' t' ch, length seed' = 32%nat /\ live D seed' /\ reached D seed' t' ch /\
    t = t' + (if all_zero (slice (raw_serialize_signing_key_kes (SumKes D) sk) n m) then h else 0) /\
    forall a b, 0 <= a <= b -> b <= n ->
      slice (raw_serialize_signing_key_kes (SumKes D) sk) a b
        = slice (raw_serialize_signing_key_kes D ch) a b.
Proof.
  intros <- -> <- Hs Hlive Hre. destruct (expand_seed seed) as [l r] eqn:He.
  destruct (expand_len _ _ _ He) as [Hl Hr].
  cbn [live sum_spec] in Hlive. rewrite He in Hlive. destruct Hlive as (Ll & Lr & Hz).
  destruct (sum_reached seed l r t sk Hs He Hre) as (E0 & E1 & Hc).
  assert (Hsl : forall ch, blen (raw_serialize_signing_key_kes D ch) = SIGNING_KEY_SIZE D ->
    forall k a b, 0 <= a <= b -> b <= SIGNING_KEY_SIZE D ->
      slice (raw_serialize_signing_key_kes D ch ++ k) a b
        = slice (raw_serialize_signing_key_kes D ch) a b).
  { intros ch Hch k a b Hab Hb. unfold blen in Hch. unfold slice.
    rewrite drop_app_le, take_app_le; [done|rewrite length_drop; lia|lia]. }
  change (raw_serialize_signing_key_kes (SumKes D) sk) with (sum_serialize_sk D sk).
  unfold sum_serialize_sk. destruct Hc as [(Ht & Hr1 & Hch)|(Ht & Hr1 & Hch)]; rewrite Hr1.
  - destruct (kl_key_roundtrip l _ _ Hl Ll Hch) as [_ Hsz].
    exists l, t, (sk_child sk). rewrite (slice_of _ r);
      [|done|apply blen_32 in Hr; lia].
    rewrite Hz. split; [done|split; [done|split; [done|split; [lia|]]]]. by apply Hsl.
  - destruct (kl_key_roundtrip r _ _ Hr Lr Hch) as [_ Hsz].
    exists r, (t - total_periods D), (sk_child sk).
    rewrite (slice_of _ (repeat 0 32)); [|done|done].
    split; [done|split; [done|split; [done|split; [change (all_zero (repeat 0 32)) with true; cbv iota; lia|]]]].
    by apply Hsl.
Qed.
End Node.

(** * Sum6 *)

Section Sum6.
Context `{Crypto, Ed25519, !HashLaws, !Ed25519Laws}.

(** C3. Every signature the evolving key makes is accepted: after [t] updates of the
    key generated from a seed, signing succeeds, [t] is a period [KesPeriod::new]
    accepts, and [verify_kes] accepts the serialized signature for period [t] under the
    verification key the seed was published under, which the updates never change. *)
Theorem kes_signs_every_period seed t sk msg
    (Hs : length seed = 32%nat) (Hr : reached Sum6Kes seed t sk) :
  derive_verification_key Sum6Kes sk = vk_of Sum6Kes seed /\
  KesPeriod_new t = Ok t /\
  exists sig, sign_kes Sum6Kes sk t msg = Ok sig /\
    verify_kes_sum6 (vk_of Sum6Kes seed) t (raw_serialize_signature_kes Sum6Kes sig) msg = Ok true.
Proof.
  split; [by apply (kl_vk (D := Sum6Kes) seed t)|].
  split.
  { pose proof (kl_bound (D := Sum6Kes) seed t sk Hs Hr) as Hb.
    change (total_periods Sum6Kes) with 64 in Hb.
    unfold KesPeriod_new, SUM6_MAX_PERIOD. bcase; [lia|done]. }
  destruct (kl_sign (D := Sum6Kes) seed t sk msg Hs Hr) as (sig & Hsg & Hty & Hv & _).
  exists sig. split; [done|].
  destruct (kl_sig_roundtrip (D := Sum6Kes) sig Hty) as [Hde Hsz].
  change (SIGNATURE_SIZE Sum6Kes) with SUM6_SIGNATURE_SIZE in Hsz.
  unfold verify_kes_sum6. rewrite Hsz, Z.eqb_refl. cbn [negb].
  rewrite Hde. cbn [map_err rbind]. by rewrite Hv.
Qed.

Lemma reach_all seed n : length seed = 32%nat -> (n < 64)%nat ->
  exists sk, reached Sum6Kes seed (Z.of_nat n) sk.
Proof.
  intros Hs. induction n as [|n IH]; intros Hn.
  - destruct (kl_gen (D := Sum6Kes) seed Hs) as [sk Hg]. exists sk. by constructor.
  - destruct IH as [sk Hr]; [lia|].
    pose proof (kl_update (D := Sum6Kes) seed _ sk Hs Hr) as Hu.
    change (total_periods Sum6Kes) with 64 in Hu.
    destruct (Z.eqb_spec (Z.of_nat n + 1) 64); [lia|]. destruct Hu as [sk' Hu].
    exists sk'. replace (Z.of_nat (S n)) with (Z.of_nat n + 1) by lia. by econstructor.
Qed.

(** The key evolves through all 64 periods and then stops: each of the periods
    0 to 63 is reached by updates from the generated key, and exactly the key of period
    63 is refused a further update. *)
Theorem kes_evolves_64_periods seed (Hs : length seed = 32%nat) :
  (forall t, 0 <= t <= 63 -> exists sk, reached Sum6Kes seed t sk) /\
  (forall t sk, reached Sum6Kes seed t sk ->
    0 <= t <= 63 /\ current_period_of_signing_key Sum6Kes sk = t /\
    (update_kes Sum6Kes sk t = Ok None <-> t = 63)).
Proof.
  split.
  - intros t Ht. destruct (reach_all seed (Z.to_nat t) Hs) as [sk Hr]; [lia|].
    exists sk. by rewrite Z2Nat.id in Hr by lia.
  - intros t sk Hr. pose proof (kl_bound (D := Sum6Kes) seed t sk Hs Hr) as Hb.
    pose proof (kl_update (D := Sum6Kes) seed t sk Hs Hr) as Hu.
    change (total_periods Sum6Kes) with 64 in *. split; [lia|].
    split; [by apply (kl_period (D := Sum6Kes) seed)|].
    destruct (Z.eqb_spec (t + 1) 64); [split; [lia|done]|].
    destruct Hu as [sk' Hu]. split; [congruence|lia].
Qed.

(** C25. What an accepted signature proves: 448 bytes that [verify_kes] accepts for
    period [t] under a seed's verification key contain an Ed25519 signature of the
    message by the leaf key of that very period, or they exhibit a collision of the
    hash. *)
Theorem kes_accepts_only_the_period_key seed t bytes msg
    (Hs : length seed = 32%nat) (Ht : 0 <= t)
    (Hv : verify_kes_sum6 (vk_of Sum6Kes seed) t bytes msg = Ok true) :
  (exists sig, raw_deserialize_signature_kes Sum6Kes bytes = Ok sig /\ t < 64 /\
    ed_verify (ed_public (leaf_seed Sum6Kes seed t)) msg (leaf_sig Sum6Kes sig) = Some true)
  \/ collision.
Proof.
  unfold verify_kes_sum6 in Hv. destruct (negb _); [done|].
  apply rbind_ok_inv in Hv as (sig & Hde & Hv). apply map_err_ok in Hde.
  destruct (verify_kes Sum6Kes _ t msg sig) as [[]|] eqn:E; [|done].
  apply (kl_sound (D := Sum6Kes)) in E as [[Hb E]|];
    [left; exists sig; by split|by right|done|by eapply kl_sig_typed|done].
Qed.

(** Read the slices of a serialized key out of its child's bytes, where they lie there. *)
Ltac push_slices H :=
  repeat match goal with |- context [slice _ ?a ?b] => rewrite (H a b) by lia end.

(** A signing key survives its file format: the 608 bytes of an evolved key parse
    back to that key, every consistency check included, and the period read off the
    erased seeds is the period of the key. *)
Theorem kes_key_file_roundtrip seed t sk
    (Hs : length seed = 32%nat) (Hl : live Sum6Kes seed) (Hr : reached Sum6Kes seed t sk) :
  let bytes := raw_serialize_signing_key_kes Sum6Kes sk in
  blen bytes = 608 /\
  raw_deserialize_signing_key_kes Sum6Kes bytes = Ok sk /\
  period_from_zeroed_sum6_tree_shape bytes = Ok t.
Proof.
  intros bytes. destruct (kl_key_roundtrip (D := Sum6Kes) seed t sk Hs Hl Hr) as [Hde Hsz].
  split; [exact Hsz|split; [exact Hde|]]. clear Hde Hsz.
  unfold period_from_zeroed_sum6_tree_shape, bytes. clear bytes.
  destruct (sum_descend _ 512 544 32 seed t sk eq_refl eq_refl eq_refl Hs Hl Hr)
    as (s5 & t5 & k5 & Hs5 & Hl5 & Hr5 & E6 & S6).
  destruct (sum_descend _ 416 448 16 s5 t5 k5 eq_refl eq_refl eq_refl Hs5 Hl5 Hr5)
    as (s4 & t4 & k4 & Hs4 & Hl4 & Hr4 & E5 & S5).
  destruct (sum_descend _ 320 352 8 s4 t4 k4 eq_refl eq_refl eq_refl Hs4 Hl4 Hr4)
    as (s3 & t3 & k3 & Hs3 & Hl3 & Hr3 & E4 & S4).
  destruct (sum_descend _ 224 256 4 s3 t3 k3 eq_refl eq_refl eq_refl Hs3 Hl3 Hr3)
    as (s2 & t2 & k2 & Hs2 & Hl2 & Hr2 & E3 & S3).
  destruct (sum_descend _ 128 160 2 s2 t2 k2 eq_refl eq_refl eq_refl Hs2 Hl2 Hr2)
    as (s1 & t1 & k1 & Hs1 & Hl1 & Hr1 & E2 & S2).
  destruct (sum_descend _ 32 64 1 s1 t1 k1 eq_refl eq_refl eq_refl Hs1 Hl1 Hr1)
    as (s0 & t0 & k0 & Hs0 & Hl0 & Hr0 & E1 & S1).
  destruct (sum0_reached s0 t0 k0 Hs0 Hr0) as [-> ->].
  change (raw_serialize_signing_key_kes Sum0Kes s0) with s0 in S1.
  unfold Sum6Kes. cbv zeta beta.
  push_slices S6. push_slices S5. push_slices S4. push_slices S3. push_slices S2. push_slices S1.
  replace (slice s0 0 32) with s0.
  2: { apply blen_32 in Hs0. symmetry. rewrite <- (app_nil_r s0) at 1.
       apply (slice_of []); [done|lia]. }
  cbn [live sum0_spec] in Hl0. rewrite Hl0. f_equal. lia.
Qed.
End Sum6.

(** * A concrete instance *)

(** A stand-in for the hash and for Ed25519 with the laws above, for the witnesses. *)
Module Toy.
#[export] Instance crypto : Crypto := {|
  blake2b_256 := fun x => 1 :: repeat 0 27 ++ to_be 4 (fold_left (fun a b => (a * 31 + b + 1) mod 65521) x 0);
  vrf_draft03_verify := fun vk proof alpha => Some (take 64 (proof ++ repeat 0 64));
|}.

#[export] Instance ed25519 : Ed25519 := {|
  ed_public := fun seed => to_be 32 (from_be seed + 1);
  ed_sign := fun seed msg => to_be 64 (from_be (to_be 32 (from_be seed + 1)) + 3 * from_be msg);
  ed_verify := fun vk msg sig => Some (bool_decide (sig = to_be 64 (from_be vk + 3 * from_be msg)));
|}.

#[export] Instance hash_laws : HashLaws.
Proof. constructor. intros x. cbn [blake2b_256 crypto length]. by rewrite length_app, length_to_be. Qed.

#[export] Instance ed25519_laws : Ed25519Laws.
Proof.
  constructor; intros; cbn [ed_public ed_sign ed_verify ed25519].
  - apply length_to_be.
  - apply length_to_be.
  - by rewrite bool_decide_eq_true_2.
Qed.
End Toy.
Import Toy.

Definition toy_seed : list Z := repeat 7 32.

(** The key after [n] updates, by evaluation. *)
Fixpoint evolve (D : KesAlgorithm) (n : nat) (t : Z) (sk : SigningKey D) : option (SigningKey D) :=
  match n with
  | O => Some sk
  | S n => match update_kes D sk t with
           | Ok (Some sk') => evolve D n (t + 1) sk'
           | _ => None
           end
  end.

Lemma evolve_reached D seed n : forall t sk sk',
  reached D seed t sk -> evolve D n t sk = Some sk' -> reached D seed (t + Z.of_nat n) sk'.
Proof.
  induction n as [|n IH]; intros t sk sk' Hr; cbn [evolve].
  - intros [= <-]. by replace (t + Z.of_nat 0) with t by lia.
  - destruct (update_kes D sk t) as [[sk1|]|] eqn:E; [|done..]. intros He.
    replace (t + Z.of_nat (S n)) with (t + 1 + Z.of_nat n) by lia.
    eapply IH; [by econstructor|done].
Qed.

Definition toy_sum6 : KesAlgorithm := @Sum6Kes Toy.crypto Toy.ed25519.

Definition toy_key (n : nat) : option (SigningKey toy_sum6) :=
  match gen_key_kes_from_seed_bytes toy_sum6 toy_seed with
  | Ok sk => evolve toy_sum6 n 0 sk
  | Err _ => None
  end.

Lemma toy_reached n sk : toy_key n = Some sk -> reached toy_sum6 toy_seed (Z.of_nat n) sk.
Proof.
  unfold toy_key. destruct (gen_key_kes_from_seed_bytes _ _) as [sk0|] eqn:E; [|done].
  intros He. apply (evolve_reached _ _ n 0 sk0); [by constructor|done].
Qed.

Lemma toy_key_some : exists sk, toy_key 37 = Some sk.
Proof.
  assert (H : match toy_key 37 with Some _ => true | None => false end = true) by (vm_compute; reflexivity).
  destruct (toy_key 37) as [sk|]; [eauto|discriminate H].
Qed.

Lemma kes_signs_every_period_witness :
  exists sk, toy_key 37 = Some sk /\
    derive_verification_key toy_sum6 sk = vk_of toy_sum6 toy_seed /\
    KesPeriod_new 37 = Ok 37 /\
    exists sig, sign_kes toy_sum6 sk 37 [1; 2; 3] = Ok sig /\
      @verify_kes_sum6 Toy.crypto Toy.ed25519 (vk_of toy_sum6 toy_seed) 37
        (raw_serialize_signature_kes toy_sum6 sig) [1; 2; 3] = Ok true.
Proof.
  destruct toy_key_some as [sk E]. exists sk. split; [exact E|].
  apply (kes_signs_every_period toy_seed 37 sk [1; 2; 3]); [reflexivity|].
  exact (toy_reached 37 sk E).
Defined.

Lemma kes_evolves_64_periods_witness :
  (forall t, 0 <= t <= 63 -> exists sk, reached toy_sum6 toy_seed t sk) /\
  (forall t sk, reached toy_sum6 toy_seed t sk ->
    0 <= t <= 63 /\ current_period_of_signing_key toy_sum6 sk = t /\
    (update_kes toy_sum6 sk t = Ok None <-> t = 63)).
Proof. apply (kes_evolves_64_periods toy_seed). reflexivity. Defined.

(** A signature made at period 5, as bytes. *)
Definition toy_sig : list Z :=
  match toy_key 5 with
  | Some sk => match sign_kes toy_sum6 sk 5 [9] with
               | Ok sig => raw_serialize_signature_kes toy_sum6 sig
               | Err _ => []
               end
  | None => []
  end.

Lemma kes_accepts_only_the_period_key_witness :
  (exists sig, raw_deserialize_signature_kes toy_sum6 toy_sig = Ok sig /\ 5 < 64 /\
    ed_verify (ed_public (leaf_seed toy_sum6 toy_seed 5)) [9] (leaf_sig toy_sum6 sig) = Some true)
  \/ collision.
Proof.
  apply (kes_accepts_only_the_period_key toy_seed 5 toy_sig [9]);
    [reflexivity|lia|vm_compute; reflexivity].
Defined.

Lemma kes_key_file_roundtrip_witness :
  exists sk, toy_key 37 = Some sk /\
    blen (raw_serialize_signing_key_kes toy_sum6 sk) = 608 /\
    raw_deserialize_signing_key_kes toy_sum6 (raw_serialize_signing_key_kes toy_sum6 sk) = Ok sk /\
    period_from_zeroed_sum6_tree_shape (raw_serialize_signing_key_kes toy_sum6 sk) = Ok 37.
Proof.
  destruct toy_key_some as [sk E]. exists sk. split; [exact E|].
  apply (kes_key_file_roundtrip toy_seed 37 sk);
    [reflexivity|vm_compute; intuition reflexivity|exact (toy_reached 37 sk E)].
Defined.
