(* ===== verification/ChainDep.v ===== *)
(** The Praos chain-dependent state and its two transitions:
    [ade_core/src/consensus/praos_state.rs], [nonce.rs] and [op_cert.rs].

    The op-cert counters are a finite map from (pool, KES period) to the highest
    counter, as the [BTreeMap] of the source; a nonce is its 32 bytes. *)

From S2P Require Import Prelude Envelope EraSchedule Leader.

(** * State *)

Inductive OpCertCounterError : Type :=
| Regression (existing attempted : Z).

Inductive NonceEvolutionError : Type :=
| SlotBeforeLast (last attempted : Z)
| UninitialisedEpochNonce
| MissingLastEpochBlockNonce.

Definition nonce_ZERO : Nonce := repeat 0 32.

Abbreviation OpCertCounterMap := (gmap (Hash28 * Z) Z).

Definition counter_get (m : OpCertCounterMap) (pool : Hash28) (kes_period : Z) : option Z :=
  m !! (pool, kes_period).

(** A lower counter is refused, an equal one changes nothing. *)
Definition upsert_strict (m : OpCertCounterMap) (pool : Hash28) (kes_period counter : Z) :
    result OpCertCounterMap OpCertCounterError :=
  match m !! (pool, kes_period) with
  | Some existing =>
      if counter <? existing then Err (Regression existing counter)
      else if counter =? existing then Ok m
      else Ok (<[(pool, kes_period) := counter]> m)
  | None => Ok (<[(pool, kes_period) := counter]> m)
  end.

Definition insert_unchecked (m : OpCertCounterMap) (pool : Hash28) (kes_period counter : Z) :
    OpCertCounterMap := <[(pool, kes_period) := counter]> m.

Record PraosChainDepState : Type := mk_PraosChainDepState {
  evolving_nonce : Nonce;
  candidate_nonce : Nonce;
  epoch_nonce : Nonce;
  previous_epoch_nonce : Nonce;
  lab_nonce : Nonce;
  last_epoch_block : option Z;
  last_epoch_block_nonce : option Nonce;
  last_slot : option Z;
  last_block_no : option Z;
  op_cert_counters : OpCertCounterMap;
}.

Definition genesis (n : Nonce) : PraosChainDepState :=
  mk_PraosChainDepState n n n n n None None None None ∅.

Definition empty : PraosChainDepState := genesis nonce_ZERO.

Definition overlay_recovered_eta0 (s : PraosChainDepState) (eta0 : Nonce) : PraosChainDepState :=
  if negb (bool_decide (epoch_nonce s = nonce_ZERO)) then s else
  mk_PraosChainDepState eta0 (candidate_nonce s) eta0 (previous_epoch_nonce s) (lab_nonce s)
    (last_epoch_block s) (last_epoch_block_nonce s) (last_slot s) (last_block_no s)
    (op_cert_counters s).

Definition with_counters (s : PraosChainDepState) (m : OpCertCounterMap) : PraosChainDepState :=
  mk_PraosChainDepState (evolving_nonce s) (candidate_nonce s) (epoch_nonce s)
    (previous_epoch_nonce s) (lab_nonce s) (last_epoch_block s) (last_epoch_block_nonce s)
    (last_slot s) (last_block_no s) m.

(** * Op-cert observations *)

Record OpCertObservation : Type := mk_OpCertObservation {
  obs_pool : Hash28;
  obs_kes_period : Z;
  obs_counter : Z;
}.

Definition apply_op_cert (s : PraosChainDepState) (o : OpCertObservation) :
    result PraosChainDepState OpCertCounterError :=
  let? m := upsert_strict (op_cert_counters s) (obs_pool o) (obs_kes_period o) (obs_counter o) in
  Ok (with_counters s m).

(** * Nonces *)

Inductive NonceInput : Type :=
| HeaderContribution (slot : Z) (prev_block_hash : Hash32) (vrf_nonce_output : VrfOutput)
    (freeze_boundary : Z)
| EpochBoundary (new_epoch : Z).

Definition nonce_value (vrf_nonce_output : VrfOutput) : Nonce := take 32 vrf_nonce_output.

Section Nonces.
Context `{Crypto}.

Definition combine (a b : Nonce) : Nonce := blake2b_256 (a ++ b).

Definition apply_header_contribution (s : PraosChainDepState) (slot : Z)
    (prev_block_hash : Hash32) (vrf_nonce_output : VrfOutput) (freeze_boundary : Z) :
    result PraosChainDepState NonceEvolutionError :=
  let? _ := match last_slot s with
            | Some l => if slot <=? l then Err (SlotBeforeLast l slot) else Ok tt
            | None => Ok tt
            end in
  let evolving_next := combine (evolving_nonce s) (nonce_value vrf_nonce_output) in
  let lab_next := prev_block_hash in
  let candidate_next := if slot <? freeze_boundary then evolving_next else candidate_nonce s in
  Ok (mk_PraosChainDepState evolving_next candidate_next (epoch_nonce s)
        (previous_epoch_nonce s) lab_next (last_epoch_block s)
        (last_epoch_block_nonce s) (Some slot) (last_block_no s) (op_cert_counters s)).

Definition apply_epoch_boundary (s : PraosChainDepState) (new_epoch : Z) :
    result PraosChainDepState NonceEvolutionError :=
  if bool_decide (epoch_nonce s = nonce_ZERO) && bool_decide (candidate_nonce s = nonce_ZERO)
  then Err UninitialisedEpochNonce else
  let? operand := ok_or (last_epoch_block_nonce s) MissingLastEpochBlockNonce in
  Ok (mk_PraosChainDepState (evolving_nonce s) (candidate_nonce s)
        (combine (candidate_nonce s) operand) (epoch_nonce s) (lab_nonce s)
        (Some (saturating_sub new_epoch 1)) (Some (lab_nonce s))
        (last_slot s) (last_block_no s) (op_cert_counters s)).

Definition apply_nonce_input (s : PraosChainDepState) (input : NonceInput) :
    result PraosChainDepState NonceEvolutionError :=
  match input with
  | HeaderContribution slot prev_block_hash vrf_nonce_output freeze_boundary =>
      apply_header_contribution s slot prev_block_hash vrf_nonce_output freeze_boundary
  | EpochBoundary new_epoch => apply_epoch_boundary s new_epoch
  end.
End Nonces.

(** * Op-cert counters only grow *)

Lemma upsert_ok m pool p c m' :
  upsert_strict m pool p c = Ok m' ->
  counter_get m' pool p = Some c /\
  (forall e, counter_get m pool p = Some e -> e <= c) /\
  (forall pool' p', (pool', p') <> (pool, p) -> counter_get m' pool' p' = counter_get m pool' p').
Proof.
  unfold upsert_strict, counter_get. destruct (m !! (pool, p)) as [e|] eqn:E.
  - destruct (Z.ltb_spec c e); [done|]. destruct (Z.eqb_spec c e) as [->|Hne]; intros [= <-].
    + split; [done|split; [intros ? [= <-]; lia|done]].
    + rewrite lookup_insert_eq. split; [done|split; [intros ? [= <-]; lia|]].
      intros pool' p' Hd. by rewrite lookup_insert_ne.
  - intros [= <-]. rewrite lookup_insert_eq. split; [done|split; [done|]].
    intros pool' p' Hd. by rewrite lookup_insert_ne.
Qed.

(** Every counter of the old map is in the new one, at the same value or higher. *)
Definition counters_le (m m' : OpCertCounterMap) : Prop :=
  forall pool p e, counter_get m pool p = Some e ->
    exists e', counter_get m' pool p = Some e' /\ e <= e'.

#[export] Instance counters_le_preorder : PreOrder counters_le.
Proof.
  split; [intros m pool p e ->; eauto with lia|].
  intros m1 m2 m3 H12 H23 pool p e (e2 & H2 & ?)%H12. apply H23 in H2 as (e3 & ? & ?).
  exists e3. split; [done|lia].
Qed.

Lemma upsert_le m pool p c m' : upsert_strict m pool p c = Ok m' -> counters_le m m'.
Proof.
  intros (Hget & Hle & Hother)%upsert_ok pool' p' e He.
  destruct (decide ((pool', p') = (pool, p))) as [[= -> ->]|Hd].
  - exists c. split; [done|by apply Hle].
  - exists e. rewrite Hother by done. split; [done|lia].
Qed.

(** An op-cert observation is refused exactly when its counter is lower than the
    one recorded for its pool and KES period; otherwise it is recorded, no other
    counter and nothing else of the state changes, and the same observation again is a
    no-op. *)
Theorem apply_op_cert_correct s o :
  match apply_op_cert s o with
  | Err (Regression existing attempted) =>
      counter_get (op_cert_counters s) (obs_pool o) (obs_kes_period o) = Some existing /\
      attempted = obs_counter o /\ obs_counter o < existing
  | Ok s' =>
      (forall e, counter_get (op_cert_counters s) (obs_pool o) (obs_kes_period o) = Some e ->
         e <= obs_counter o) /\
      counter_get (op_cert_counters s') (obs_pool o) (obs_kes_period o) = Some (obs_counter o) /\
      (forall pool p, (pool, p) <> (obs_pool o, obs_kes_period o) ->
         counter_get (op_cert_counters s') pool p = counter_get (op_cert_counters s) pool p) /\
      s' = with_counters s (op_cert_counters s') /\
      apply_op_cert s' o = Ok s'
  end.
Proof.
  unfold apply_op_cert. destruct o as [pool p c]. cbn [obs_pool obs_kes_period obs_counter].
  destruct (upsert_strict (op_cert_counters s) pool p c) as [m'|[e a]] eqn:E; cbn [rbind].
  - destruct (upsert_ok _ _ _ _ _ E) as (Hget & Hle & Hother). cbn [op_cert_counters with_counters].
    split; [done|split; [done|split; [done|split; [done|]]]].
    unfold upsert_strict. unfold counter_get in Hget. rewrite Hget.
    destruct (Z.ltb_spec c c); [lia|]. by rewrite Z.eqb_refl.
  - revert E. unfold upsert_strict, counter_get. destruct (_ !! _) as [x|]; [|done].
    destruct (Z.ltb_spec c x).
    + by intros [= <- <-].
    + by destruct (c =? x).
Qed.

(** * Nonces over an epoch *)

(** A followed header, as far as the nonces are concerned. *)
Record Contribution : Type := mk_Contribution {
  ct_slot : Z;
  ct_prev : Hash32;
  ct_vrf : VrfOutput;
}.

Definition ct_input (freeze_boundary : Z) (c : Contribution) : NonceInput :=
  HeaderContribution (ct_slot c) (ct_prev c) (ct_vrf c) freeze_boundary.

Section Epoch.
Context `{Crypto}.

Fixpoint apply_nonce_inputs (s : PraosChainDepState) (l : list NonceInput) :
    result PraosChainDepState NonceEvolutionError :=
  match l with
  | [] => Ok s
  | i :: l => let? s' := apply_nonce_input s i in apply_nonce_inputs s' l
  end.

(** The evolving nonce after the given headers. *)
Definition evolve_over (n : Nonce) (l : list Contribution) : Nonce :=
  fold_left (fun n c => combine n (nonce_value (ct_vrf c))) l n.

Definition before (boundary : Z) (l : list Contribution) : list Contribution :=
  List.filter (fun c => ct_slot c <? boundary) l.

(** The candidate nonce the code reaches, said at once. *)
Definition candidate_after (s : PraosChainDepState) (l : list Contribution) : Nonce :=
  match l with [] => candidate_nonce s | _ => evolve_over (evolving_nonce s) l end.

Lemma header_contribution_ok s slot prev vrf fb s' :
  apply_header_contribution s slot prev vrf fb = Ok s' ->
  (forall l, last_slot s = Some l -> l < slot) /\
  s' = mk_PraosChainDepState (combine (evolving_nonce s) (nonce_value vrf))
         (if slot <? fb then combine (evolving_nonce s) (nonce_value vrf) else candidate_nonce s)
         (epoch_nonce s) (previous_epoch_nonce s) prev (last_epoch_block s)
         (last_epoch_block_nonce s) (Some slot) (last_block_no s) (op_cert_counters s).
Proof.
  unfold apply_header_contribution. intros Hb.
  apply rbind_ok_inv in Hb as (u & Hu & Hb). injection Hb as <-. split; [|done].
  intros l Hl. rewrite Hl in Hu. destruct (Z.leb_spec slot l); [done|lia].
Qed.

Lemma slots_after s fb l s' :
  apply_nonce_inputs s (map (ct_input fb) l) = Ok s' ->
  forall x, last_slot s = Some x -> Forall (fun c => x < ct_slot c) l.
Proof.
  revert s. induction l as [|c l IH]; intros s Hr x Hx; [by constructor|].
  cbn [map apply_nonce_inputs ct_input apply_nonce_input] in Hr.
  apply rbind_ok_inv in Hr as (s1 & H1 & Hr). apply header_contribution_ok in H1 as [Hlt ->].
  specialize (Hlt x Hx). constructor; [done|].
  eapply Forall_impl; [eapply (IH _ Hr); cbn; reflexivity|]. intros ? ?. cbn in *. lia.
Qed.

Lemma before_none boundary l :
  Forall (fun c => boundary <= ct_slot c) l -> before boundary l = [].
Proof.
  induction 1 as [|c l Hc _ IH]; [done|]. unfold before. cbn [List.filter].
  by destruct (Z.ltb_spec (ct_slot c) boundary); [lia|].
Qed.

Lemma before_cons boundary c l :
  before boundary (c :: l) = if ct_slot c <? boundary then c :: before boundary l else before boundary l.
Proof. done. Qed.

Lemma nonce_run s fb l s' :
  apply_nonce_inputs s (map (ct_input fb) l) = Ok s' ->
  evolving_nonce s' = evolve_over (evolving_nonce s) l /\
  candidate_nonce s' = candidate_after s (before fb l) /\
  epoch_nonce s' = epoch_nonce s /\
  last_epoch_block_nonce s' = last_epoch_block_nonce s /\
  lab_nonce s' = match last l with Some c => ct_prev c | None => lab_nonce s end /\
  op_cert_counters s' = op_cert_counters s.
Proof.
  revert s. induction l as [|c l IH]; intros s Hr.
  { injection Hr as <-. done. }
  cbn [map apply_nonce_inputs ct_input apply_nonce_input] in Hr.
  apply rbind_ok_inv in Hr as (s1 & H1 & Hr). apply header_contribution_ok in H1 as [Hlt ->].
  pose proof (slots_after _ fb l s' Hr (ct_slot c) eq_refl) as Hafter.
  apply IH in Hr as (E1 & E2 & E3 & E4 & E5 & E6).
  cbn [evolving_nonce candidate_nonce epoch_nonce last_epoch_block_nonce lab_nonce
       op_cert_counters] in *.
  split; [done|]. split.
  - rewrite E2, before_cons. destruct (Z.ltb_spec (ct_slot c) fb).
    + by destruct (before fb l).
    + rewrite before_none; [done|]. eapply Forall_impl; [exact Hafter|]. intros ? ?. cbn in *. lia.
  - split; [done|split; [done|split; [|done]]]. rewrite E5.
    destruct l as [|c2 l]; [done|]. change (last (c :: c2 :: l)) with (last (c2 :: l)).
    destruct (last (c2 :: l)) eqn:El; [done|]. by apply last_None in El.
Qed.

(** The next epoch's nonce, in closed form: after the headers of an epoch and the
    boundary tick, it combines the evolving nonce over exactly the headers before the
    stabilisation boundary with the operand the previous boundary left; headers at or
    after the boundary move the evolving nonce, but no choice of them changes it. *)
Theorem epoch_nonce_closed_form s fb l s1 new_epoch s2
    (Hl : apply_nonce_inputs s (map (ct_input fb) l) = Ok s1)
    (Hb : apply_nonce_input s1 (EpochBoundary new_epoch) = Ok s2) :
  exists operand, last_epoch_block_nonce s = Some operand /\
    epoch_nonce s2 = combine (candidate_after s (before fb l)) operand /\
    previous_epoch_nonce s2 = epoch_nonce s /\
    evolving_nonce s2 = evolve_over (evolving_nonce s) l /\
    last_epoch_block_nonce s2
      = Some (match last l with Some c => ct_prev c | None => lab_nonce s end).
Proof.
  apply nonce_run in Hl as (E1 & E2 & E3 & E4 & E5 & _).
  cbn [apply_nonce_input] in Hb. unfold apply_epoch_boundary in Hb.
  destruct (_ && _); [done|]. apply rbind_ok_inv in Hb as (operand & Ho & Hb).
  apply ok_or_ok in Ho. injection Hb as <-. exists operand.
  rewrite E4 in Ho. cbn [epoch_nonce previous_epoch_nonce evolving_nonce last_epoch_block_nonce].
  rewrite E1, E2, E3, E5. by split.
Qed.
End Epoch.

(** * Concrete inputs *)

(** A stand-in hash for the witnesses. *)
Definition sum_hash : list Z -> Hash32 :=
  fun x => repeat 0 28 ++ to_be 4 (fold_left (fun a b => (a * 31 + b + 1) mod 65521) x 0).

Definition toy_crypto : Crypto := {|
  blake2b_256 := sum_hash;
  vrf_draft03_verify := fun _ proof _ => Some (take 64 proof);
|}.

Definition epoch_start : PraosChainDepState :=
  mk_PraosChainDepState (repeat 1 32) (repeat 1 32) (repeat 1 32) (repeat 1 32) (repeat 2 32)
    None (Some (repeat 3 32)) (Some 10) (Some 4) ∅.

Definition two_headers : list Contribution :=
  [mk_Contribution 11 (repeat 4 32) (repeat 5 64); mk_Contribution 99 (repeat 6 32) (repeat 7 64)].

Lemma epoch_nonce_closed_form_witness :
  exists s1 s2, apply_nonce_inputs (H := toy_crypto) epoch_start (map (ct_input 50) two_headers) = Ok s1 /\
    apply_nonce_input (H := toy_crypto) s1 (EpochBoundary 1) = Ok s2 /\
    exists operand, last_epoch_block_nonce epoch_start = Some operand /\
      epoch_nonce s2 = combine (H := toy_crypto)
        (candidate_after (H := toy_crypto) epoch_start (before 50 two_headers)) operand /\
      previous_epoch_nonce s2 = epoch_nonce epoch_start /\
      evolving_nonce s2
        = evolve_over (H := toy_crypto) (evolving_nonce epoch_start) two_headers /\
      last_epoch_block_nonce s2 = Some (repeat 6 32).
Proof.
  eexists _, _. split; [vm_compute; reflexivity|]. split; [vm_compute; reflexivity|].
  eapply (epoch_nonce_closed_form (H := toy_crypto) epoch_start 50 two_headers _ 1);
    vm_compute; reflexivity.
Defined.
