(* ===== verification/Header.v ===== *)
(** Header validation: [ade_core/src/consensus/header_summary.rs], [kes_check.rs],
    [header_validate.rs] and [opcert_validate.rs].

    [validate_and_apply_header] is the single point of header admission.  Its ten
    steps are the definitions below, composed in the order of the source. *)

From S2P Require Import Prelude Envelope EraSchedule Leader Kes ChainDep.

(** * Data and errors *)

Inductive HeaderVrf : Type :=
| Tpraos (nonce_proof leader_proof : VrfProof)
| Praos (proof : VrfProof) (output : VrfOutput).

Record HeaderKes : Type := mk_HeaderKes {
  issuer_vkey : list Z;
  kes_vkey : list Z;
  kes_signature : list Z;
  op_cert_signature : list Z;
  header_body_bytes : list Z;
}.

Record HeaderInput : Type := mk_HeaderInput {
  hi_slot : Z;
  hi_block_no : Z;
  prev_hash : Hash32;
  body_hash : Hash32;
  issuer_pool : Hash28;
  op_cert_kes_period : Z;
  op_cert_counter : Z;
  vrf_vk : VrfVerificationKey;
  hi_vrf : HeaderVrf;
  hi_kes : option HeaderKes;
}.

Record ValidatedHeaderSummary : Type := mk_ValidatedHeaderSummary {
  vs_slot : Z;
  vs_block_no : Z;
  vs_body_hash : Hash32;
  vs_issuer_pool : Hash28;
  vs_op_cert_counter : Z;
  vs_vrf_leader_output : VrfOutput;
}.

Inductive FieldKind : Type :=
| VrfVkey | VrfProofField | VrfOutputField | KesVkey | KesSignature | OpCertSignature | IssuerVkey.

Record FieldError : Type := mk_FieldError {
  fe_field : FieldKind;
  fe_expected : Z;
  fe_actual : Z;
}.

Inductive HeaderValidationError : Type :=
| VrfCert (e : VrfCertError)
| OpCertCounter (e : OpCertCounterError)
| NonceError (e : NonceEvolutionError)
| SlotBeforeLastApplied (last attempted : Z)
| BlockNoOutOfOrder (last attempted : Z)
| BodyHashMismatch (expected actual : Hash32)
| EraMismatch (schedule_era header_era : Z)
| HFC (e : HFCError)
| HeaderOutsideForecastRange (e : OutsideForecastRange)
| MalformedField (e : FieldError)
| VrfKeyhashMismatch (expected actual : Hash32)
| KesInvalid
| OpCertInvalid.

Record HeaderApplied : Type := mk_HeaderApplied {
  ha_new_state : PraosChainDepState;
  ha_summary : ValidatedHeaderSummary;
}.

Inductive LeaderEligibility : Type :=
| Enforce
| TrustDurable.

(** * KES and operational certificate *)

Definition SLOTS_PER_KES_PERIOD : Z := 129600.

Definition expect_size (kind : FieldKind) (actual expected : Z) : result unit FieldError :=
  if actual =? expected then Ok tt else Err (mk_FieldError kind expected actual).

(** The evolution count: periods since the certificate's own, as a [u32]. *)
Definition kes_evolution (slot kes_period : Z) : Z :=
  as_u32 (saturating_sub (slot / SLOTS_PER_KES_PERIOD) kes_period).

Section Validate.
Context `{Crypto, Ed25519}.

Definition verify_header_kes (kes : HeaderKes) (slot counter kes_period : Z) :
    result unit HeaderValidationError :=
  let? _ := map_err MalformedField (expect_size IssuerVkey (blen (issuer_vkey kes)) 32) in
  let? _ := map_err MalformedField (expect_size KesVkey (blen (kes_vkey kes)) 32) in
  let? _ := map_err MalformedField (expect_size KesSignature (blen (kes_signature kes)) 448) in
  let? _ := map_err MalformedField (expect_size OpCertSignature (blen (op_cert_signature kes)) 64) in
  let opcert := mk_OperationalCertData (kes_vkey kes) counter kes_period (op_cert_signature kes) in
  match verify_opcert (issuer_vkey kes) opcert with
  | Ok true =>
      match KesPeriod_new (kes_evolution slot kes_period) with
      | Err _ => Err KesInvalid
      | Ok period =>
          match verify_kes_sum6 (kes_vkey kes) period (kes_signature kes) (header_body_bytes kes) with
          | Ok true => Ok tt
          | Ok false => Err KesInvalid
          | Err _ => Err KesInvalid
          end
      end
  | Ok false => Err OpCertInvalid
  | Err _ => Err OpCertInvalid
  end.

(** * The steps *)

(** Steps 1 to 4: horizon, slot, block number, op-cert counter. *)
Definition check_slot (s : PraosChainDepState) (h : HeaderInput) : result unit HeaderValidationError :=
  match last_slot s with
  | Some l => if hi_slot h <=? l then Err (SlotBeforeLastApplied l (hi_slot h)) else Ok tt
  | None => Ok tt
  end.

Definition check_block_no (s : PraosChainDepState) (h : HeaderInput) :
    result unit HeaderValidationError :=
  match last_block_no s with
  | Some l => if hi_block_no h <=? l then Err (BlockNoOutOfOrder l (hi_block_no h)) else Ok tt
  | None => Ok tt
  end.

Definition check_counter (s : PraosChainDepState) (h : HeaderInput) :
    result unit HeaderValidationError :=
  match counter_get (op_cert_counters s) (issuer_pool h) (op_cert_kes_period h) with
  | Some existing =>
      if op_cert_counter h <? existing
      then Err (OpCertCounter (Regression existing (op_cert_counter h))) else Ok tt
  | None => Ok tt
  end.

(** Step 5: the key of the header is the one the snapshot registered. *)
Definition check_keyhash `{LedgerView} (epoch : Z) (h : HeaderInput) :
    result unit HeaderValidationError :=
  match pool_vrf_keyhash epoch (issuer_pool h) with
  | Some expected =>
      let actual := blake2b_256 (vrf_vk h) in
      if negb (bool_decide (actual = expected)) then Err (VrfKeyhashMismatch expected actual)
      else Ok tt
  | None => Ok tt
  end.

(** Step 6: the leader value and the nonce output. *)
Definition verify_vrfs (s : PraosChainDepState) (h : HeaderInput) :
    result (VrfOutput * VrfOutput) HeaderValidationError :=
  match hi_vrf h with
  | Tpraos nonce_proof leader_proof =>
      let? verified_nonce := map_err VrfCert
        (verify_vrf_cert (vrf_vk h) nonce_proof (hi_slot h) (epoch_nonce s) NonceContribution) in
      let? verified_leader := map_err VrfCert
        (verify_vrf_cert (vrf_vk h) leader_proof (hi_slot h) (epoch_nonce s) LeaderEligibilityRole) in
      Ok (vv_output verified_leader, vv_output verified_nonce)
  | Praos proof output =>
      let? recomputed := map_err VrfCert
        (verify_praos_vrf (vrf_vk h) proof (hi_slot h) (epoch_nonce s)) in
      if negb (bool_decide (recomputed = output)) then Err (VrfCert VerificationFailed) else
      Ok (praos_leader_value recomputed, in_high_half (praos_nonce_value recomputed))
  end.

(** Step 7: the stake threshold. *)
Definition check_threshold `{LedgerView} (epoch : Z) (h : HeaderInput) (leader_value : VrfOutput) :
    result unit HeaderValidationError :=
  let? pool_stake := ok_or (pool_active_stake epoch (issuer_pool h)) (VrfCert VerificationFailed) in
  let? total_stake := ok_or (total_active_stake epoch) (VrfCert VerificationFailed) in
  if total_stake =? 0 then Err (VrfCert VerificationFailed) else
  let? asc := ok_or (active_slots_coeff epoch) (VrfCert VerificationFailed) in
  map_err VrfCert (check_leader_claim leader_value (mk_StakeFraction pool_stake total_stake) asc).

Definition check_leadership `{LedgerView} (mode : LeaderEligibility) (epoch : Z) (h : HeaderInput)
    (leader_value : VrfOutput) : result unit HeaderValidationError :=
  match mode with
  | Enforce => check_threshold epoch h leader_value
  | TrustDurable => Ok tt
  end.

(** Step 7b: KES and operational certificate, for the headers that carry them. *)
Definition check_kes (h : HeaderInput) : result unit HeaderValidationError :=
  match hi_kes h with
  | Some kes => verify_header_kes kes (hi_slot h) (op_cert_counter h) (op_cert_kes_period h)
  | None => Ok tt
  end.

(** The stabilisation boundary of step 9. *)
Definition freeze_boundary (sched : EraSchedule) (loc : EraLocation) (slot : Z) : Z :=
  match eras sched !! Z.to_nat (loc_era_index loc) with
  | Some era =>
      match es_randomness_stabilisation_window_slots era with
      | Some rsw =>
          let epoch_start := saturating_sub slot (loc_relative_slot_in_epoch loc) in
          let first_slot_next_epoch := saturating_add epoch_start (es_epoch_length_slots era) in
          saturating_sub first_slot_next_epoch rsw
      | None => u64_max
      end
  | None => u64_max
  end.

(** Step 10. *)
Definition with_block_no (s : PraosChainDepState) (n : Z) : PraosChainDepState :=
  mk_PraosChainDepState (evolving_nonce s) (candidate_nonce s) (epoch_nonce s)
    (previous_epoch_nonce s) (lab_nonce s) (last_epoch_block s) (last_epoch_block_nonce s)
    (last_slot s) (Some n) (op_cert_counters s).

Definition validate_and_apply_header `{LedgerView} (s : PraosChainDepState) (h : HeaderInput)
    (sched : EraSchedule) (mode : LeaderEligibility) : result HeaderApplied HeaderValidationError :=
  let? _ := map_err HeaderOutsideForecastRange (check_forecast_horizon sched (hi_slot h)) in
  let? _ := check_slot s h in
  let? _ := check_block_no s h in
  let? _ := check_counter s h in
  let? location := map_err HFC (locate sched (hi_slot h)) in
  let epoch := loc_epoch location in
  let? _ := check_keyhash epoch h in
  let? (leader_value_output, nonce_output) := verify_vrfs s h in
  let? _ := check_leadership mode epoch h leader_value_output in
  let? _ := check_kes h in
  let? after_op_cert := map_err OpCertCounter
    (apply_op_cert s (mk_OpCertObservation (issuer_pool h) (op_cert_kes_period h) (op_cert_counter h))) in
  let? after_nonce := map_err NonceError
    (apply_nonce_input after_op_cert
       (HeaderContribution (hi_slot h) (prev_hash h) nonce_output
          (freeze_boundary sched location (hi_slot h)))) in
  Ok (mk_HeaderApplied (with_block_no after_nonce (hi_block_no h))
        (mk_ValidatedHeaderSummary (hi_slot h) (hi_block_no h) (body_hash h) (issuer_pool h)
           (op_cert_counter h) leader_value_output)).
End Validate.

(** * Operational certificates at the forge *)

Module OpCert.
Inductive OpCertError : Type :=
| BadColdSignature
| PeriodMismatch (found expected : Z)
| CounterRepeat (counter : Z)
| CounterRegression (found prev : Z)
| BadHotVkeyLength (found : Z)
| BadSigmaLength (found : Z)
| MalformedColdVk.
End OpCert.

Record OperationalCert : Type := mk_OperationalCert {
  oc_hot_vkey : list Z;
  oc_sequence_number : Z;
  oc_kes_period : Z;
  oc_sigma : list Z;
}.

Definition opcert_validate `{Ed25519} (o : OperationalCert) (cold_vk : list Z)
    (expected_period : Z) (prev_counter : option Z) : result unit OpCert.OpCertError :=
  if negb (blen (oc_hot_vkey o) =? 32) then Err (OpCert.BadHotVkeyLength (blen (oc_hot_vkey o))) else
  if negb (blen (oc_sigma o) =? 64) then Err (OpCert.BadSigmaLength (blen (oc_sigma o))) else
  match verify_opcert cold_vk (mk_OperationalCertData (oc_hot_vkey o) (oc_sequence_number o)
                                 (oc_kes_period o) (oc_sigma o)) with
  | Ok false => Err OpCert.BadColdSignature
  | Err _ => Err OpCert.MalformedColdVk
  | Ok true =>
      if negb (oc_kes_period o =? expected_period)
      then Err (OpCert.PeriodMismatch (oc_kes_period o) expected_period) else
      match prev_counter with
      | Some prev =>
          if oc_sequence_number o =? prev then Err (OpCert.CounterRepeat prev)
          else if oc_sequence_number o <? prev
          then Err (OpCert.CounterRegression (oc_sequence_number o) prev) else Ok tt
      | None => Ok tt
      end
  end.

Record LeaderScheduleQuery : Type := mk_LeaderScheduleQuery {
  q_slot : Z;
  q_pool : Hash28;
}.

Record LeaderScheduleAnswer : Type := mk_LeaderScheduleAnswer {
  ans_slot : Z;
  ans_pool : Hash28;
  ans_epoch : Z;
  expected_vrf_input : ExpectedVrfInput;
  stake_fraction : Z * Z;
  ans_asc : ActiveSlotsCoeff;
}.

Inductive LeaderCheckVerdict : Type :=
| Eligible (slot : Z) (vrf_output : VrfOutput) (leader_proof : list Z)
| NotEligible (slot : Z) (vrf_output_fingerprint : list Z).

Inductive LeaderCheckError : Type :=
| VrfInputMismatch (expected_first_8 answer_first_8 : list Z)
| AnswerSlotMismatch (function_slot answer_slot : Z)
| VrfVerificationFailed
| ZeroStakeDenominator.

(** [VrfOutputFingerprint::of], [LeaderProofFingerprint::of] *)
Definition fingerprint (output : VrfOutput) : list Z := take 8 output.

Section LeaderCheck.
Context `{Crypto}.

Definition query_leader_schedule `{LedgerView} (q : LeaderScheduleQuery) (sched : EraSchedule)
    (s : PraosChainDepState) : result LeaderScheduleAnswer LeaderScheduleError :=
  let? _ := map_err Schedule_OutsideForecastRange (check_forecast_horizon sched (q_slot q)) in
  let? location := map_err Schedule_HFC (locate sched (q_slot q)) in
  let epoch := loc_epoch location in
  match pool_vrf_keyhash epoch (q_pool q) with
  | None => Err UnknownPool
  | Some _ =>
      let? pool_stake := ok_or (pool_active_stake epoch (q_pool q)) UnknownPool in
      let? total_stake := ok_or (total_active_stake epoch) UnknownPool in
      if total_stake =? 0 then Err UnknownPool else
      let? asc := ok_or (active_slots_coeff epoch) UnknownPool in
      let alpha := leader_vrf_input (loc_era location) (q_slot q) (epoch_nonce s) in
      Ok (mk_LeaderScheduleAnswer (q_slot q) (q_pool q) epoch alpha (pool_stake, total_stake) asc)
  end.

Definition is_leader_for_vrf_output (answer : LeaderScheduleAnswer) (output : VrfOutput) : bool :=
  let sigma := mk_StakeFraction (fst (stake_fraction answer)) (snd (stake_fraction answer)) in
  let leader_value := leader_value_for (expected_vrf_input answer) output in
  is_leader leader_value sigma (ans_asc answer).

Definition verify_and_evaluate_leader (era : CardanoEra) (slot : Z) (eta0 : Nonce)
    (vrf_vk : VrfVerificationKey) (vrf_proof : VrfProof) (answer : LeaderScheduleAnswer) :
    result LeaderCheckVerdict LeaderCheckError :=
  if negb (ans_slot answer =? slot) then Err (AnswerSlotMismatch slot (ans_slot answer)) else
  let expected := leader_vrf_input era slot eta0 in
  if negb (bool_decide (expected = expected_vrf_input answer))
  then Err (VrfInputMismatch (take 8 (alpha_bytes expected))
              (take 8 (alpha_bytes (expected_vrf_input answer)))) else
  if snd (stake_fraction answer) =? 0 then Err ZeroStakeDenominator else
  let? vrf_output := map_err (fun _ => VrfVerificationFailed)
                       (verify_vrf vrf_vk vrf_proof (alpha_bytes expected)) in
  if is_leader_for_vrf_output answer vrf_output
  then Ok (Eligible slot vrf_output (fingerprint vrf_output))
  else Ok (NotEligible slot (fingerprint vrf_output)).
End LeaderCheck.
