(* ===== verification/HeaderFacts.v ===== *)
(** Theorems on header validation and the leader check: what an accepted header
    guarantees, chains of accepted headers, replay of durable headers, and that a forge
    which the leader check finds eligible passes the validators' own leader steps. *)

From Stdlib Require Import Sorted.
From S2P Require Import Prelude Envelope EraSchedule Timing Extension Leader.
From S2P Require Import Kes ChainDep Header.

Section Facts.
Context `{Crypto, Ed25519}.

(** * What an accepted header went through *)

Definition header_op_cert (h : HeaderInput) : OpCertObservation :=
  mk_OpCertObservation (issuer_pool h) (op_cert_kes_period h) (op_cert_counter h).

(** The state an accepted header leads to. *)
Definition applied_state (s : PraosChainDepState) (h : HeaderInput) (nonce_output : VrfOutput)
    (boundary : Z) (m : OpCertCounterMap) : PraosChainDepState :=
  let evolving := combine (evolving_nonce s) (nonce_value nonce_output) in
  mk_PraosChainDepState evolving
    (if hi_slot h <? boundary then evolving else candidate_nonce s)
    (epoch_nonce s) (previous_epoch_nonce s) (prev_hash h) (last_epoch_block s)
    (last_epoch_block_nonce s) (Some (hi_slot h)) (Some (hi_block_no h)) m.

Definition summary_of (h : HeaderInput) (leader_value : VrfOutput) : ValidatedHeaderSummary :=
  mk_ValidatedHeaderSummary (hi_slot h) (hi_block_no h) (body_hash h) (issuer_pool h)
    (op_cert_counter h) leader_value.

(** Every check of the pipeline, and its result. *)
Definition accepts `{LedgerView} (s : PraosChainDepState) (h : HeaderInput) (sched : EraSchedule)
    (mode : LeaderEligibility) (a : HeaderApplied) : Prop :=
  exists loc leader_value nonce_output m,
    check_forecast_horizon sched (hi_slot h) = Ok tt /\
    (forall l, last_slot s = Some l -> l < hi_slot h) /\
    (forall l, last_block_no s = Some l -> l < hi_block_no h) /\
    locate sched (hi_slot h) = Ok loc /\
    check_keyhash (loc_epoch loc) h = Ok tt /\
    verify_vrfs s h = Ok (leader_value, nonce_output) /\
    check_leadership mode (loc_epoch loc) h leader_value = Ok tt /\
    check_kes h = Ok tt /\
    upsert_strict (op_cert_counters s) (issuer_pool h) (op_cert_kes_period h) (op_cert_counter h) = Ok m /\
    a = mk_HeaderApplied
          (applied_state s h nonce_output (freeze_boundary sched loc (hi_slot h)) m)
          (summary_of h leader_value).

Lemma check_slot_ok s h :
  check_slot s h = Ok tt <-> forall l, last_slot s = Some l -> l < hi_slot h.
Proof.
  unfold check_slot. destruct (last_slot s) as [l|]; [|by split].
  destruct (Z.leb_spec (hi_slot h) l); split; try done.
  - intros Hl. specialize (Hl l eq_refl). lia.
  - by intros _ ? [= <-].
Qed.

Lemma check_block_no_ok s h :
  check_block_no s h = Ok tt <-> forall l, last_block_no s = Some l -> l < hi_block_no h.
Proof.
  unfold check_block_no. destruct (last_block_no s) as [l|]; [|by split].
  destruct (Z.leb_spec (hi_block_no h) l); split; try done.
  - intros Hl. specialize (Hl l eq_refl). lia.
  - by intros _ ? [= <-].
Qed.

(** The early counter check is the later upsert's. *)
Lemma check_counter_ok s h :
  check_counter s h = Ok tt <->
  exists m, upsert_strict (op_cert_counters s) (issuer_pool h) (op_cert_kes_period h)
              (op_cert_counter h) = Ok m.
Proof.
  unfold check_counter, upsert_strict, counter_get. destruct (_ !! _) as [e|]; [|split; eauto].
  destruct (op_cert_counter h <? e); [split; [done|by intros [m Hm]]|].
  destruct (op_cert_counter h =? e); split; eauto.
Qed.

Lemma unit_ok {E} (r : result unit E) u : r = Ok u -> r = Ok tt.
Proof. by destruct u. Qed.

Lemma validate_iff `{LedgerView} s h sched mode a :
  validate_and_apply_header s h sched mode = Ok a <-> accepts s h sched mode a.
Proof.
  unfold validate_and_apply_header, accepts, apply_op_cert. split.
  - intros Hv. apply rbind_ok_inv in Hv as (u1 & P1 & Hv). apply rbind_ok_inv in Hv as (u2 & P2 & Hv).
    apply rbind_ok_inv in Hv as (u3 & P3 & Hv). apply rbind_ok_inv in Hv as (u4 & P4 & Hv).
    apply rbind_ok_inv in Hv as (loc & P5 & Hv). apply rbind_ok_inv in Hv as (u6 & P6 & Hv).
    apply rbind_ok_inv in Hv as ([lv no] & P7 & Hv). apply rbind_ok_inv in Hv as (u8 & P8 & Hv).
    apply rbind_ok_inv in Hv as (u9 & P9 & Hv). apply rbind_ok_inv in Hv as (s1 & P10 & Hv).
    apply rbind_ok_inv in Hv as (s2 & P11 & Hv). injection Hv as <-.
    apply map_err_ok in P1, P5, P10, P11. apply rbind_ok_inv in P10 as (m & Hm & P10).
    injection P10 as <-. cbn [apply_nonce_input] in P11.
    apply header_contribution_ok in P11 as [_ ->].
    apply unit_ok in P1, P2, P3, P6, P8, P9. rewrite check_slot_ok in P2. rewrite check_block_no_ok in P3.
    exists loc, lv, no, m. repeat (split; [assumption|]). done.
  - intros (loc & lv & no & m & P1 & P2 & P3 & P5 & P6 & P7 & P8 & P9 & Hm & ->).
    pose proof (proj2 (check_slot_ok s h) P2) as P2'. rewrite <- check_block_no_ok in P3.
    assert (P4 : check_counter s h = Ok tt) by (apply check_counter_ok; eauto).
    rewrite P1. cbn [map_err rbind]. rewrite P2'. cbn [rbind]. rewrite P3. cbn [rbind].
    rewrite P4. cbn [rbind]. rewrite P5. cbn [map_err rbind]. rewrite P6. cbn [rbind].
    rewrite P7. cbn [rbind]. rewrite P8. cbn [rbind]. rewrite P9. cbn [rbind].
    cbn [obs_pool obs_kes_period obs_counter]. rewrite Hm. cbn [rbind map_err].
    cbn [apply_nonce_input]. unfold apply_header_contribution.
    change (last_slot (with_counters s m)) with (last_slot s).
    destruct (last_slot s) as [l|] eqn:El; [|done].
    specialize (P2 l eq_refl). destruct (Z.leb_spec (hi_slot h) l); [lia|done].
Qed.

(** * Admissible headers *)

(** The era of a slot: the last one begun by then. *)
Definition era_of (sched : EraSchedule) (slot : Z) (e : EraSummary) : Prop :=
  e ∈ eras sched /\ es_start_slot e <= slot /\
  forall e', e' ∈ eras sched -> es_start_slot e' <= slot -> es_start_slot e' <= es_start_slot e.

(** The epochs of [e] are counted from its first slot. *)
Definition epochs_into (e : EraSummary) (slot : Z) : Z :=
  (slot - es_start_slot e) / es_epoch_length_slots e.

(** The first slot whose header no longer moves the candidate nonce: one stabilisation
    window before the next epoch. *)
Definition freeze_slot (e : EraSummary) (slot : Z) : Z :=
  match es_randomness_stabilisation_window_slots e with
  | Some window =>
      let next_epoch := es_start_slot e + (epochs_into e slot + 1) * es_epoch_length_slots e in
      Z.max 0 (Z.min next_epoch u64_max - window)
  | None => u64_max
  end.

(** The era index is one byte wide: it names the right era among 256, or among any number
    of eras with the same epochs. *)
Definition index_safe (sched : EraSchedule) : Prop :=
  (length (eras sched) <= 256)%nat \/
  forall e e', e ∈ eras sched -> e' ∈ eras sched ->
    es_epoch_length_slots e = es_epoch_length_slots e' /\
    es_randomness_stabilisation_window_slots e = es_randomness_stabilisation_window_slots e'.

(** The stakes and coefficients of a snapshot fit their types; a pool's stake is part of
    the total and [f] is at most one half. *)
Definition sane_view (v : LedgerView) : Prop :=
  (forall epoch f, @active_slots_coeff v epoch = Some f -> moderate f) /\
  forall epoch pool stake total,
    @pool_active_stake v epoch pool = Some stake -> @total_active_stake v epoch = Some total ->
    0 <= stake <= total /\ total <= u64_max.

(** The VRF proofs of a header are proofs for its slot under the epoch nonce; the first
    output decides the leader, the second feeds the nonce. *)
Definition vrf_proves (s : PraosChainDepState) (h : HeaderInput)
    (leader_value nonce_output : VrfOutput) : Prop :=
  match hi_vrf h with
  | Tpraos nonce_proof leader_proof =>
      vrf_draft03_verify (vrf_vk h) nonce_proof (to_be 8 (hi_slot h) ++ epoch_nonce s ++ [0x4E])
        = Some nonce_output /\
      vrf_draft03_verify (vrf_vk h) leader_proof (to_be 8 (hi_slot h) ++ epoch_nonce s ++ [0x4C])
        = Some leader_value
  | Praos proof output =>
      vrf_draft03_verify (vrf_vk h) proof (blake2b_256 (to_be 8 (hi_slot h) ++ epoch_nonce s))
        = Some output /\
      leader_value = blake2b_256 (0x4C :: output) ++ repeat 0 32 /\
      nonce_output = blake2b_256 (blake2b_256 (0x4E :: output)) ++ repeat 0 32
  end.

(** The first 64 bits of the leader value lie below [1 - (1-f)^sigma]. *)
Definition leads `{LedgerView} (epoch : Z) (pool : Hash28) (leader_value : VrfOutput) : Prop :=
  exists stake total f,
    pool_active_stake epoch pool = Some stake /\ total_active_stake epoch = Some total /\
    active_slots_coeff epoch = Some f /\ 0 < stake /\ 0 < asc_numer f /\
    from_be (take 8 leader_value) * 2 ^ 59
      < exact_threshold (asc_numer f) (asc_denom f) stake total.

(** The cold key certified the hot key for the counter and the period of the header, and
    the hot key, evolved to the header's slot, signed its body. *)
Definition kes_signed (h : HeaderInput) (k : HeaderKes) : Prop :=
  length (issuer_vkey k) = 32%nat /\ length (kes_vkey k) = 32%nat /\
  length (kes_signature k) = 448%nat /\ length (op_cert_signature k) = 64%nat /\
  ed_verify (issuer_vkey k)
    (kes_vkey k ++ to_be 8 (op_cert_counter h) ++ to_be 8 (op_cert_kes_period h))
    (op_cert_signature k) = Some true /\
  let evolution := Z.max 0 (hi_slot h / 129600 - op_cert_kes_period h) mod 2 ^ 32 in
  evolution < 64 /\
  verify_kes_sum6 (kes_vkey k) evolution (kes_signature k) (header_body_bytes k) = Ok true.

(** The state after a header: slot, block number and counter recorded, the nonce output
    hashed into the evolving nonce, which the candidate follows until the freeze. *)
Definition state_after (s : PraosChainDepState) (h : HeaderInput) (nonce_output : VrfOutput)
    (freeze : Z) : PraosChainDepState :=
  let evolving := blake2b_256 (evolving_nonce s ++ take 32 nonce_output) in
  mk_PraosChainDepState evolving
    (if decide (hi_slot h < freeze) then evolving else candidate_nonce s)
    (epoch_nonce s) (previous_epoch_nonce s) (prev_hash h) (last_epoch_block s)
    (last_epoch_block_nonce s) (Some (hi_slot h)) (Some (hi_block_no h))
    (<[(issuer_pool h, op_cert_kes_period h) := op_cert_counter h]> (op_cert_counters s)).

Definition admissible `{LedgerView} (s : PraosChainDepState) (h : HeaderInput)
    (sched : EraSchedule) (mode : LeaderEligibility) (a : HeaderApplied) : Prop :=
  exists e leader_value nonce_output,
    let epoch := es_start_epoch e + epochs_into e (hi_slot h) in
    (exists l, last (eras sched) = Some l /\
       hi_slot h <= Z.min (es_start_slot l + es_safe_zone_slots l) u64_max) /\
    (forall l, last_slot s = Some l -> l < hi_slot h) /\
    (forall l, last_block_no s = Some l -> l < hi_block_no h) /\
    (forall c, op_cert_counters s !! (issuer_pool h, op_cert_kes_period h) = Some c ->
       c <= op_cert_counter h) /\
    era_of sched (hi_slot h) e /\ epoch <= u64_max /\
    (forall kh, pool_vrf_keyhash epoch (issuer_pool h) = Some kh -> blake2b_256 (vrf_vk h) = kh) /\
    vrf_proves s h leader_value nonce_output /\
    (mode = Enforce -> leads epoch (issuer_pool h) leader_value) /\
    (forall k, hi_kes h = Some k -> kes_signed h k) /\
    a = mk_HeaderApplied
          (state_after s h nonce_output (freeze_slot e (hi_slot h)))
          (mk_ValidatedHeaderSummary (hi_slot h) (hi_block_no h) (body_hash h) (issuer_pool h)
             (op_cert_counter h) leader_value).

(** ** The schedule *)

Lemma increasing_starts e l : increasing (e :: l) ->
  Forall (fun e' => es_start_slot e < es_start_slot e') l.
Proof.
  revert e. induction l as [|n l IH]; intros e Hi; [by constructor|].
  destruct Hi as [Hen Hi]. constructor; [done|].
  eapply Forall_impl; [by apply IH|]. cbn. intros; lia.
Qed.

Lemma covering_last slot l e :
  increasing l -> covering slot l = Some e ->
  forall e', e' ∈ l -> es_start_slot e' <= slot -> es_start_slot e' <= es_start_slot e.
Proof.
  induction l as [|a l IH]; [done|]. intros Hi. cbn [covering]. destruct l as [|n l].
  { intros [= ->] e' ->%list_elem_of_singleton. lia. }
  pose proof (increasing_starts _ _ Hi) as Ha. bcase; intros Hc e' Hin Hle.
  - injection Hc as ->. apply elem_of_cons in Hin as [->|Hin]; [lia|].
    apply increasing_tail, increasing_starts in Hi.
    apply elem_of_cons in Hin as [->|Hin]; [lia|]. rewrite Forall_forall in Hi.
    specialize (Hi _ Hin). lia.
  - specialize (IH (increasing_tail _ _ Hi) Hc).
    apply elem_of_cons in Hin as [->|Hin]; [|by apply IH].
    specialize (IH n (list_elem_of_here _ _) ltac:(lia)).
    rewrite Forall_cons in Ha. lia.
Qed.

Lemma increasing_inj l e e' : increasing l -> e ∈ l -> e' ∈ l ->
  es_start_slot e = es_start_slot e' -> e = e'.
Proof.
  induction l as [|a l IH]; intros Hi He He' Heq; [by apply not_elem_of_nil in He|].
  pose proof (increasing_starts _ _ Hi) as Ha. rewrite Forall_forall in Ha.
  apply elem_of_cons in He as [->|He]; apply elem_of_cons in He' as [->|He'].
  - done.
  - specialize (Ha _ He'). lia.
  - specialize (Ha _ He). lia.
  - apply IH; [by eapply increasing_tail|done..].
Qed.

Lemma era_of_unique sched slot e e' : increasing (eras sched) ->
  era_of sched slot e' -> era_of sched slot e -> e' = e.
Proof.
  intros Hi (Hin' & Hle' & Hmax') (Hin & Hle & Hmax).
  apply (increasing_inj (eras sched)); [done..|].
  specialize (Hmax _ Hin' Hle'). specialize (Hmax' _ Hin Hle). lia.
Qed.

Lemma era_of_covering sched slot e : increasing (eras sched) ->
  era_of sched slot e <->
  exists f, head (eras sched) = Some f /\ es_start_slot f <= slot /\ covering slot (eras sched) = Some e.
Proof.
  intros Hi.
  assert (Hof : forall f e', head (eras sched) = Some f -> es_start_slot f <= slot ->
    covering slot (eras sched) = Some e' -> era_of sched slot e').
  { intros f e' Hf Hfs Hc. destruct (covering_spec _ _ _ Hi Hc) as [Hin Hle].
    split; [done|split; [by apply Hle; eauto|by apply covering_last]]. }
  split; [|intros (f & ? & ? & ?); eauto].
  intros He. pose proof He as (Hin & Hle & _).
  destruct (covering_some slot (eras sched)) as [e' Hc]; [by intros E; rewrite E in Hin; apply not_elem_of_nil in Hin|].
  assert (Hhead : exists f, head (eras sched) = Some f /\ es_start_slot f <= slot).
  { destruct (eras sched) as [|f r]; [by apply not_elem_of_nil in Hin|]. exists f. split; [done|].
    apply elem_of_cons in Hin as [->|Hin]; [done|]. apply increasing_starts in Hi.
    rewrite Forall_forall in Hi. specialize (Hi _ Hin). lia. }
  destruct Hhead as (f & Hf & Hfs). exists f. split; [done|split; [done|]].
  rewrite Hc. f_equal. apply (era_of_unique sched slot); [done|by eapply Hof|done].
Qed.

Lemma era_of_chosen sched slot e : increasing (eras sched) -> era_of sched slot e ->
  eras sched !! chosen_idx slot (eras sched) = Some e.
Proof.
  intros Hi He. apply era_of_covering in He as (f & Hf & Hfs & Hc); [|done].
  rewrite <- Hc. by apply (chosen_covering slot (eras sched) f).
Qed.

(** [locate] answers with the era of the slot, for the slots that have one. *)
Lemma locate_iff sched slot loc : walkable (eras sched) ->
  locate sched slot = Ok loc <->
  exists e, era_of sched slot e /\ es_start_epoch e + epochs_into e slot <= u64_max /\
    loc = mk_EraLocation (as_u8 (Z.of_nat (chosen_idx slot (eras sched)))) (es_era e)
            (es_start_epoch e + epochs_into e slot)
            ((slot - es_start_slot e) mod es_epoch_length_slots e).
Proof.
  intros Hw. pose proof (proj2 (proj2 Hw)) as Hi. split.
  - intros Hl. destruct (head (eras sched)) as [f|] eqn:Ef.
    2: { unfold locate in Hl. by destruct (eras sched). }
    assert (Hfs : es_start_slot f <= slot).
    { unfold locate in Hl. destruct (eras sched); [done|]. injection Ef as ->.
      destruct (Z.ltb_spec slot (es_start_slot f)); [done|lia]. }
    destruct (covering_some slot (eras sched)) as [e Hc]; [by intros E; rewrite E in Ef|].
    destruct (locate_eq_from sched slot f e Hw Ef Hfs Hc) as [_ E]. rewrite E in Hl.
    exists e. split; [apply era_of_covering; [done|eauto]|].
    unfold checked_add in Hl. revert Hl. unfold epochs_into. bcase; [|done]. by intros [= <-].
  - intros (e & (f & Hf & Hfs & Hc)%era_of_covering & Hep & ->); [|done].
    destruct (locate_eq_from sched slot f e Hw Hf Hfs Hc) as [_ ->].
    unfold checked_add, epochs_into in *. bcase; [done|lia].
Qed.

Lemma freeze_boundary_slot sched slot e era epoch :
  walkable (eras sched) -> index_safe sched -> era_of sched slot e ->
  freeze_boundary sched
    (mk_EraLocation (as_u8 (Z.of_nat (chosen_idx slot (eras sched)))) era epoch
       ((slot - es_start_slot e) mod es_epoch_length_slots e)) slot = freeze_slot e slot.
Proof.
  intros (Ht & Hz & Hinc) Hsafe He. pose proof (era_of_chosen _ _ _ Hinc He) as Hix.
  pose proof He as (_ & Hle & _). set (i := chosen_idx slot (eras sched)) in *.
  pose proof (lookup_lt_Some _ _ _ Hix) as Hlt.
  apply list_elem_of_lookup_2 in Hix as Hin.
  rewrite Forall_forall in Ht, Hz. specialize (Ht _ Hin) as (Hs0 & _ & _ & Hl32 & _). specialize (Hz _ Hin) as [_ Hl].
  assert (Hi : (Z.to_nat (as_u8 (Z.of_nat i)) <= i)%nat).
  { unfold as_u8. pose proof (Z.mod_le (Z.of_nat i) 256). lia. }
  destruct (lookup_lt_is_Some_2 (eras sched) (Z.to_nat (as_u8 (Z.of_nat i)))) as [e' He']; [lia|].
  assert (Hsame : es_epoch_length_slots e' = es_epoch_length_slots e /\
    es_randomness_stabilisation_window_slots e' = es_randomness_stabilisation_window_slots e).
  { destruct Hsafe as [Hlen|Hall]; [|apply Hall; [by eapply list_elem_of_lookup_2|done]].
    rewrite as_u8_small, Nat2Z.id, Hix in He' by lia. by injection He' as ->. }
  unfold freeze_boundary, freeze_slot, epochs_into. cbn [loc_era_index loc_relative_slot_in_epoch].
  rewrite He'. destruct Hsame as [-> ->].
  destruct (es_randomness_stabilisation_window_slots e) as [w|]; [|done].
  pose proof (Z.div_mod (slot - es_start_slot e) (es_epoch_length_slots e) ltac:(done)).
  set (len := es_epoch_length_slots e) in *. set (d := (slot - es_start_slot e) / len) in *.
  set (r := (slot - es_start_slot e) mod len) in *.
  assert (0 <= slot - r).
  { assert (0 <= d) by (apply Z.div_pos; [lia|width; lia]). width. nia. }
  unfold saturating_sub, saturating_add.
  replace (Z.max (slot - r) 0) with (es_start_slot e + d * len) by lia.
  replace (es_start_slot e + (d + 1) * len) with (es_start_slot e + d * len + len) by ring. lia.
Qed.

(** ** The steps *)

Lemma keyhash_iff `{LedgerView} epoch h :
  check_keyhash epoch h = Ok tt <->
  forall kh, pool_vrf_keyhash epoch (issuer_pool h) = Some kh -> blake2b_256 (vrf_vk h) = kh.
Proof.
  unfold check_keyhash. destruct (pool_vrf_keyhash _ _) as [kh|]; [|by split].
  destruct (decide (blake2b_256 (vrf_vk h) = kh)) as [E|E].
  - rewrite bool_decide_eq_true_2 by done. split; [by intros _ ? [= <-]|done].
  - rewrite bool_decide_eq_false_2 by done. split; [done|]. intros Hk. by specialize (Hk _ eq_refl).
Qed.

Lemma verify_vrf_iff vk proof alpha out :
  verify_vrf vk proof alpha = Ok out <-> vrf_draft03_verify vk proof alpha = Some out.
Proof. unfold verify_vrf. destruct (vrf_draft03_verify _ _ _); split; by intros [= ->]. Qed.

Lemma vrf_cert_iff vk proof slot nonce role v :
  map_err VrfCert (verify_vrf_cert vk proof slot nonce role) = Ok v <->
  exists out, vrf_draft03_verify vk proof (to_be 8 slot ++ nonce ++ [tag_byte role]) = Some out /\
    v = mk_VerifiedVrf role slot out.
Proof.
  unfold verify_vrf_cert. change (vrf_input slot nonce role) with (to_be 8 slot ++ nonce ++ [tag_byte role]).
  destruct (verify_vrf _ _ _) as [o|e] eqn:E; cbn [map_err].
  - apply verify_vrf_iff in E. rewrite E. split; [intros [= <-]; eauto|by intros (? & [= <-] & ->)].
  - split; [done|]. intros (o & Ho & _). apply verify_vrf_iff in Ho. congruence.
Qed.

Lemma vrfs_iff s h lv no : verify_vrfs s h = Ok (lv, no) <-> vrf_proves s h lv no.
Proof.
  unfold verify_vrfs, vrf_proves. destruct (hi_vrf h) as [np lp|proof output].
  - split.
    + intros (v & Hv & Hr)%rbind_ok_inv. apply rbind_ok_inv in Hr as (w & Hw & Hr).
      apply vrf_cert_iff in Hv as (? & ? & ->), Hw as (? & ? & ->). by injection Hr as <- <-.
    + intros [Hn Hl].
      rewrite (proj2 (vrf_cert_iff _ _ _ _ NonceContribution _)) by (eexists; split; [exact Hn|done]).
      rewrite (proj2 (vrf_cert_iff _ _ _ _ LeaderEligibilityRole _)) by (eexists; split; [exact Hl|done]).
      done.
  - unfold verify_praos_vrf. change (praos_vrf_input (hi_slot h) (epoch_nonce s))
      with (blake2b_256 (to_be 8 (hi_slot h) ++ epoch_nonce s)).
    destruct (verify_vrf _ _ _) as [o|e] eqn:E; cbn [map_err rbind].
    + apply verify_vrf_iff in E. rewrite E. destruct (decide (o = output)) as [->|Hne].
      * rewrite bool_decide_eq_true_2 by done. split; [by intros [= <- <-]|by intros (_ & -> & ->)].
      * rewrite bool_decide_eq_false_2 by done. split; [done|]. by intros ([= ->] & _).
    + split; [done|]. intros (Ho & _). apply verify_vrf_iff in Ho. congruence.
Qed.

Lemma leadership_iff (v : LedgerView) mode epoch h lv : sane_view v ->
  check_leadership mode epoch h lv = Ok tt <->
  (mode = Enforce -> leads epoch (issuer_pool h) lv).
Proof.
  intros [Hf Hs]. destruct mode; [|by split]. cbn [check_leadership].
  unfold check_threshold, leads, check_leader_claim, is_leader.
  destruct (pool_active_stake _ _) as [st|] eqn:Est; [|split; [done|by intros (? & ? & ? & ? & _)]].
  destruct (total_active_stake _) as [tot|] eqn:Etot; [|split; [done|by intros (? & ? & ? & _ & ? & _)]].
  cbn [ok_or rbind]. destruct (Hs _ _ _ _ Est Etot) as [Hst Htot].
  destruct (active_slots_coeff epoch) as [f|] eqn:Ef;
    [|split; [by case_match|by intros (? & ? & ? & _ & _ & ? & _)]].
  cbn [ok_or rbind sf_numer sf_denom].
  destruct (Hf _ _ Ef) as (Hn & Hd & Hh).
  assert (Hiff : (exists stake total f0, Some st = Some stake /\ Some tot = Some total /\
      Some f = Some f0 /\ 0 < stake /\ 0 < asc_numer f0 /\
      from_be (take 8 lv) * 2 ^ 59 < exact_threshold (asc_numer f0) (asc_denom f0) stake total)
    <-> 0 < st /\ 0 < asc_numer f /\
        from_be (take 8 lv) * 2 ^ 59 < exact_threshold (asc_numer f) (asc_denom f) st tot).
  { split; [by intros (? & ? & ? & [= <-] & [= <-] & [= <-] & ?)|by eauto 10]. }
  transitivity (0 < st /\ 0 < asc_numer f /\
    from_be (take 8 lv) * 2 ^ 59 < exact_threshold (asc_numer f) (asc_denom f) st tot);
    [|rewrite <- Hiff; by split; [intros ? _|intros X; apply X]].
  destruct (Z.eqb_spec tot 0); [split; [done|lia]|].
  destruct (Z.eqb_spec st 0); [split; [done|lia]|]. cbn [orb].
  destruct (Z.eqb_spec (asc_denom f) 0); [lia|].
  destruct (Z.leb_spec (asc_denom f) (asc_numer f)); [lia|].
  destruct (Z.eqb_spec (asc_numer f) 0); [split; [done|lia]|].
  rewrite threshold_exact by (split; cbn; lia || done). cbn [sf_numer sf_denom].
  unfold leader_value_q. rewrite Z.shiftl_mul_pow2 by done. change (FP_BITS - 64) with 59.
  destruct (Z.ltb_spec (from_be (take 8 lv) * 2 ^ 59)
    (exact_threshold (asc_numer f) (asc_denom f) st tot)); split; done || lia.
Qed.

Lemma expect_size_ok k (l : list Z) n :
  map_err MalformedField (expect_size k (blen l) (Z.of_nat n)) = Ok tt <-> length l = n.
Proof. unfold expect_size, blen. destruct (Z.eqb_spec (Z.of_nat (length l)) (Z.of_nat n)); split; done || lia. Qed.

Lemma kes_iff h : check_kes h = Ok tt <-> forall k, hi_kes h = Some k -> kes_signed h k.
Proof.
  unfold check_kes. destruct (hi_kes h) as [k|]; [|by split].
  transitivity (kes_signed h k); [|split; [by intros ? ? [= <-]|by eauto]].
  unfold verify_header_kes, kes_signed.
  rewrite <- !(expect_size_ok IssuerVkey (issuer_vkey k)), <- !(expect_size_ok KesVkey (kes_vkey k)),
    <- !(expect_size_ok KesSignature (kes_signature k)),
    <- !(expect_size_ok OpCertSignature (op_cert_signature k)).
  change (Z.of_nat 32) with 32. change (Z.of_nat 64) with 64. change (Z.of_nat 448) with 448.
  do 4 (destruct (map_err MalformedField (expect_size _ _ _)) as [[]|];
    [cbn [rbind]|split; [done|intuition congruence]]).
  unfold verify_opcert, build_opcert_signable, verify_ed25519, KesPeriod_new, kes_evolution, as_u32,
    saturating_sub, SLOTS_PER_KES_PERIOD, SUM6_MAX_PERIOD.
  cbn [hot_vkey sequence_number kes_period cold_signature]. rewrite Z.max_comm.
  change 4294967296 with (2 ^ 32). set (t := Z.max 0 _ mod 2 ^ 32).
  destruct (ed_verify _ _ _) as [[]|]; [|split; [done|intuition congruence]..].
  destruct (Z.ltb_spec 63 t); [split; [done|]; cbv zeta; intuition lia|].
  destruct (verify_kes_sum6 _ _ _ _) as [[]|];
    (split; [intros ?; cbv zeta; repeat (split; [done|]); done || (split; [lia|done])|]);
    cbv zeta; intuition congruence.
Qed.

Lemma counters_iff m pool period c m' :
  upsert_strict m pool period c = Ok m' <->
  (forall e, m !! (pool, period) = Some e -> e <= c) /\ m' = <[(pool, period) := c]> m.
Proof.
  unfold upsert_strict. destruct (m !! (pool, period)) as [e|] eqn:E.
  - destruct (Z.ltb_spec c e).
    { split; [done|]. intros [Hc _]. specialize (Hc e eq_refl). lia. }
    destruct (Z.eqb_spec c e) as [->|Hne].
    + rewrite insert_id by done. split; [by intros [= ->]; split; [intros ? [= <-]|]|by intros [_ ->]].
    + split; [intros [= <-]; split; [by intros ? [= <-]|done]|by intros [_ ->]].
  - split; [by intros [= <-]|by intros [_ ->]].
Qed.

Lemma horizon_iff sched slot :
  check_forecast_horizon sched slot = Ok tt <->
  exists l, last (eras sched) = Some l /\
    slot <= Z.min (es_start_slot l + es_safe_zone_slots l) u64_max.
Proof.
  unfold check_forecast_horizon, saturating_add.
  destruct (last (eras sched)) as [l|]; [|split; [done|by intros (? & ? & _)]].
  destruct (Z.ltb_spec (Z.min (es_start_slot l + es_safe_zone_slots l) u64_max) slot).
  - split; [done|]. intros (? & [= <-] & ?). lia.
  - split; [by eauto|done].
Qed.

Lemma accepts_admissible (v : LedgerView) s h sched mode a :
  walkable (eras sched) -> index_safe sched -> sane_view v ->
  accepts s h sched mode a <-> admissible s h sched mode a.
Proof.
  intros Hw Hsafe Hv. unfold accepts, admissible. split.
  - intros (loc & lv & no & m & P1 & P2 & P3 & P4 & P5 & P6 & P7 & P8 & Hm & ->).
    apply (locate_iff _ _ _ Hw) in P4 as (e & He & Hep & ->). cbn [loc_epoch] in *.
    apply horizon_iff in P1. rewrite keyhash_iff in P5. apply vrfs_iff in P6.
    rewrite (leadership_iff _ _ _ _ _ Hv) in P7. rewrite kes_iff in P8.
    apply counters_iff in Hm as [Hc ->]. exists e, lv, no. cbv zeta.
    repeat (split; [assumption|]). rewrite freeze_boundary_slot by done.
    unfold applied_state, state_after, combine, nonce_value, summary_of.
    by destruct (Z.ltb_spec (hi_slot h) (freeze_slot e (hi_slot h))); case_decide; try lia.
  - intros (e & lv & no & P1 & P2 & P3 & P4 & P5 & P6 & P7 & P8 & P9 & P10 & ->).
    eexists _, lv, no, (<[(issuer_pool h, op_cert_kes_period h) := op_cert_counter h]> (op_cert_counters s)).
    split; [by apply horizon_iff|]. split; [done|]. split; [done|].
    split; [apply (locate_iff _ _ _ Hw); by eauto|]. cbn [loc_epoch]. split; [by apply keyhash_iff|]. split; [by apply vrfs_iff|].
    split; [by apply (leadership_iff _ _ _ _ _ Hv)|]. split; [by apply kes_iff|].
    split; [by apply counters_iff|].
    rewrite freeze_boundary_slot by done.
    unfold applied_state, state_after, combine, nonce_value, summary_of.
    by destruct (Z.ltb_spec (hi_slot h) (freeze_slot e (hi_slot h))); case_decide; try lia.
Qed.


(** * Chains of headers *)

Fixpoint follow `{LedgerView} (sched : EraSchedule) (mode : LeaderEligibility)
    (s : PraosChainDepState) (hs : list HeaderInput) :
    result PraosChainDepState HeaderValidationError :=
  match hs with
  | [] => Ok s
  | h :: hs =>
      let? a := validate_and_apply_header s h sched mode in
      follow sched mode (ha_new_state a) hs
  end.

(** Later headers have later slots and higher block numbers. *)
Definition header_before (h h' : HeaderInput) : Prop :=
  hi_slot h < hi_slot h' /\ hi_block_no h < hi_block_no h'.

Definition after_state (s : PraosChainDepState) (h : HeaderInput) : Prop :=
  (forall l, last_slot s = Some l -> l < hi_slot h) /\
  (forall l, last_block_no s = Some l -> l < hi_block_no h).

Definition counter_recorded (m : OpCertCounterMap) (h : HeaderInput) : Prop :=
  exists c, counter_get m (issuer_pool h) (op_cert_kes_period h) = Some c /\ op_cert_counter h <= c.

Lemma counter_recorded_le m m' h :
  counter_recorded m h -> counters_le m m' -> counter_recorded m' h.
Proof. intros (c & Hc & ?) Hle. destruct (Hle _ _ _ Hc) as (c' & ? & ?). exists c'. split; [done|lia]. Qed.

Lemma follow_invariant `{LedgerView} sched mode hs : forall s s',
  follow sched mode s hs = Ok s' ->
  Forall (after_state s) hs /\ StronglySorted header_before hs /\
  counters_le (op_cert_counters s) (op_cert_counters s') /\
  Forall (counter_recorded (op_cert_counters s')) hs /\
  epoch_nonce s' = epoch_nonce s /\ last_epoch_block_nonce s' = last_epoch_block_nonce s.
Proof.
  induction hs as [|h hs IH]; intros s s' Hf.
  { injection Hf as <-. split; [by constructor|split; [by constructor|split; [done|split; [by constructor|done]]]]. }
  cbn [follow] in Hf. apply rbind_ok_inv in Hf as (a & Ha & Hf). apply validate_iff in Ha.
  destruct Ha as (loc & lv & no & m & _ & Hs & Hb & _ & _ & _ & _ & _ & Hm & ->).
  apply IH in Hf as (Haft & Hsort & Hc & Hrec & Hn & Hl). cbn [ha_new_state] in *.
  assert (Hbef : Forall (header_before h) hs).
  { eapply Forall_impl; [exact Haft|]. intros x [Hx1 Hx2]. split; [by apply Hx1|by apply Hx2]. }
  assert (Hle : counters_le (op_cert_counters s) (op_cert_counters s'))
    by (transitivity m; [by eapply upsert_le|done]).
  split; [|split; [by constructor|split; [done|split; [|done]]]].
  - constructor; [by split|]. eapply Forall_impl; [exact Hbef|]. intros x [Hx1 Hx2].
    split; intros l Hl'; [apply Hs in Hl'|apply Hb in Hl']; lia.
  - constructor; [|done]. destruct (upsert_ok _ _ _ _ _ Hm) as (Hg & _).
    apply (counter_recorded_le m); [|done]. exists (op_cert_counter h). split; [done|lia].
Qed.

(** Along any chain of accepted headers slots and block numbers strictly increase,
    no op-cert counter ever goes down and every header's counter stays recorded at its
    value or higher, and the epoch nonce the headers' VRF proofs are checked against
    never moves between boundary ticks. *)
Theorem accepted_chain_monotone `{LedgerView} sched mode s hs s'
    (Hf : follow sched mode s hs = Ok s') :
  Forall (after_state s) hs /\ StronglySorted header_before hs /\
  counters_le (op_cert_counters s) (op_cert_counters s') /\
  Forall (counter_recorded (op_cert_counters s')) hs /\
  epoch_nonce s' = epoch_nonce s /\ last_epoch_block_nonce s' = last_epoch_block_nonce s.
Proof. by eapply follow_invariant. Qed.
(** * Replay of durable headers *)

(** On schedules grown from one seed the stabilisation boundary depends on the seed
    alone: even a wrapped era index points at an era with the seed's window. *)
Definition grid_freeze (seed : EraSummary) (slot : Z) : Z :=
  match es_randomness_stabilisation_window_slots seed with
  | Some rsw =>
      saturating_sub
        (saturating_add
           (saturating_sub slot ((slot - es_start_slot seed) mod es_epoch_length_slots seed))
           (es_epoch_length_slots seed)) rsw
  | None => u64_max
  end.

Lemma located_era seed sched slot :
  uniform seed sched ->
  exists e, eras sched !! Z.to_nat (as_u8 (Z.of_nat (chosen_idx slot (eras sched)))) = Some e /\
    on_grid seed e.
Proof.
  intros Hu. destruct (uniform_wf _ _ Hu) as (Hne & _).
  pose proof (chosen_idx_length slot (eras sched) Hne) as Hlt.
  assert (Hle : (Z.to_nat (as_u8 (Z.of_nat (chosen_idx slot (eras sched))))
    <= chosen_idx slot (eras sched))%nat).
  { unfold as_u8. pose proof (Z.mod_le (Z.of_nat (chosen_idx slot (eras sched))) 256). lia. }
  destruct (lookup_lt_is_Some_2 (eras sched)
    (Z.to_nat (as_u8 (Z.of_nat (chosen_idx slot (eras sched)))))) as [e He]; [lia|].
  exists e. split; [done|]. pose proof (uniform_grid _ _ Hu) as Hg.
  by eapply Forall_lookup_1 in Hg.
Qed.

Lemma uniform_freeze seed sched slot loc :
  uniform seed sched -> es_start_slot seed <= slot -> locate sched slot = Ok loc ->
  freeze_boundary sched loc slot = grid_freeze seed slot.
Proof.
  intros Hu Hs Hl. rewrite (uniform_locate seed sched slot Hu Hs) in Hl. binv Hl. ok_inv. subst loc.
  unfold freeze_boundary, grid_freeze. cbn [loc_era_index loc_relative_slot_in_epoch].
  destruct (located_era seed sched slot Hu) as (e & -> & Hg).
  destruct Hg as (_ & _ & -> & _ & _ & -> & _). done.
Qed.

(** Locating a slot the schedule covers under another schedule of the same seed. *)
Lemma uniform_relocate seed sched sched' slot loc :
  uniform seed sched -> uniform seed sched' -> locate sched slot = Ok loc ->
  exists loc', locate sched' slot = Ok loc' /\ loc_epoch loc' = loc_epoch loc /\
    freeze_boundary sched' loc' slot = freeze_boundary sched loc slot.
Proof.
  intros Hu Hu' Hl.
  assert (Hs : es_start_slot seed <= slot).
  { pose proof (uniform_head _ _ Hu) as Hh. unfold locate in Hl. destruct (eras sched) as [|f r]; [done|].
    injection Hh as ->. destruct (Z.ltb_spec slot (es_start_slot seed)); [done|lia]. }
  pose proof Hl as Hl0. rewrite (uniform_locate seed sched slot Hu Hs) in Hl.
  destruct (grid_epoch seed slot <=? u64_max) eqn:E; [|done]. cbn [ok_or rbind] in Hl.
  eexists. split; [rewrite (uniform_locate seed sched' slot Hu' Hs), E; cbn [ok_or rbind]; reflexivity|].
  injection Hl as <-. split; [done|].
  rewrite (uniform_freeze seed sched slot _ Hu Hs Hl0).
  apply (uniform_freeze seed sched' slot); [done|done|].
  by rewrite (uniform_locate seed sched' slot Hu' Hs), E.
Qed.

(** What a replay knows of the snapshot: possibly nothing of a pool, never another key. *)
Definition keyhash_compatible (live replay : LedgerView) : Prop :=
  forall e p, @pool_vrf_keyhash replay e p = None \/
              @pool_vrf_keyhash replay e p = @pool_vrf_keyhash live e p.

Lemma compatible_keyhash (live replay : LedgerView) ep h :
  keyhash_compatible live replay ->
  @check_keyhash _ live ep h = Ok tt -> @check_keyhash _ replay ep h = Ok tt.
Proof. intros Hk. unfold check_keyhash. by destruct (Hk ep (issuer_pool h)) as [-> | ->]. Qed.

(** A header accepted live is accepted by a replay whose key-hash check passes when the live
    checks of the leader pass. *)
Lemma replay_header seed sched sched' (live replay : LedgerView) s h a :
  uniform seed sched -> uniform seed sched' ->
  (forall ep lv, @check_keyhash _ live ep h = Ok tt -> @check_leadership live Enforce ep h lv = Ok tt ->
     @check_keyhash _ replay ep h = Ok tt) ->
  check_forecast_horizon sched' (hi_slot h) = Ok tt ->
  validate_and_apply_header (H1 := live) s h sched Enforce = Ok a ->
  validate_and_apply_header (H1 := replay) s h sched' TrustDurable = Ok a.
Proof.
  intros Hu Hu' Hk Hhor Hv. apply validate_iff in Hv. apply validate_iff.
  destruct Hv as (loc & lv & no & m & _ & Hs & Hb & Hl & Hkey & Hvrf & Hlead & Hkes & Hm & ->).
  destruct (uniform_relocate seed sched sched' _ _ Hu Hu' Hl) as (loc' & Hl' & Hep & Hfr).
  exists loc', lv, no, m. rewrite Hfr, Hep. repeat (split; [assumption|]).
  split; [by eapply Hk|by repeat (split; [done|])].
Qed.

(** C4. Replay equivalence: a chain of headers that live validation accepted, leader
    threshold enforced, is accepted again by a replay that trusts the durable leader
    claims, knows no stake, and extended the schedule to a different epoch; and the
    reconstructed state is the live one, nonces and counters included. *)
Theorem replay_reconstructs_state seed sched sched' (live replay : LedgerView) hs : forall s s'
    (Hu : uniform seed sched) (Hu' : uniform seed sched') (Hk : keyhash_compatible live replay)
    (Hhor : Forall (fun h => check_forecast_horizon sched' (hi_slot h) = Ok tt) hs)
    (Hf : follow (H1 := live) sched Enforce s hs = Ok s'),
  follow (H1 := replay) sched' TrustDurable s hs = Ok s'.
Proof.
  induction hs as [|h hs IH]; intros s s' Hu Hu' Hk Hhor Hf; [done|].
  apply Forall_cons in Hhor as [Hh Hhs]. cbn [follow] in *.
  apply rbind_ok_inv in Hf as (a & Ha & Hf).
  rewrite (replay_header seed sched sched' live replay s h a); [|done|done| |done|done].
  - cbn [rbind]. by apply IH.
  - intros ep lv Hc _. by apply (compatible_keyhash live).
Qed.

(** * The forge and the validators *)

(** A forge that the leader check finds eligible is accepted by the validators'
    leader steps: for a Praos era, a header that carries the proof and the output the
    check verified, for the pool and slot the schedule answered for, passes the VRF
    verification and, under the same snapshot, the enforced stake threshold. *)
Theorem eligible_forge_passes_validation `{LedgerView} q sched s loc answer proof h out fp
    (Hloc : locate sched (q_slot q) = Ok loc)
    (Hpraos : is_praos (loc_era loc) = true)
    (Hq : query_leader_schedule q sched s = Ok answer)
    (Hc : verify_and_evaluate_leader (loc_era loc) (q_slot q) (epoch_nonce s) (vrf_vk h) proof answer
          = Ok (Eligible (q_slot q) out fp))
    (Hslot : hi_slot h = q_slot q) (Hpool : issuer_pool h = q_pool q)
    (Hvrf : hi_vrf h = Praos proof out) :
  verify_vrfs s h = Ok (praos_leader_value out, in_high_half (praos_nonce_value out)) /\
  check_leadership Enforce (loc_epoch loc) h (praos_leader_value out) = Ok tt.
Proof.
  unfold query_leader_schedule in Hq. apply rbind_ok_inv in Hq as (u & _ & Hq).
  rewrite Hloc in Hq. cbn [map_err rbind] in Hq.
  destruct (pool_vrf_keyhash _ _); [|done].
  apply rbind_ok_inv in Hq as (pool & Hp & Hq). apply rbind_ok_inv in Hq as (total & Ht & Hq).
  destruct (Z.eqb_spec total 0) as [|Hz]; [done|]. apply rbind_ok_inv in Hq as (asc & Hasc & Hq).
  injection Hq as <-. apply ok_or_ok in Hp, Ht, Hasc.
  unfold verify_and_evaluate_leader in Hc. cbn [ans_slot expected_vrf_input stake_fraction snd] in Hc.
  rewrite Z.eqb_refl, bool_decide_eq_true_2 in Hc by done. cbn [negb] in Hc.
  apply Z.eqb_neq in Hz as Hz'. rewrite Hz' in Hc.
  apply rbind_ok_inv in Hc as (o & Ho & Hc). apply map_err_ok in Ho.
  destruct (is_leader_for_vrf_output _ o) eqn:El; [|done]. injection Hc as -> _.
  unfold leader_vrf_input in Ho. rewrite Hpraos in Ho. cbn [alpha_bytes] in Ho.
  unfold is_leader_for_vrf_output in El. cbn [stake_fraction fst snd expected_vrf_input ans_asc] in El.
  unfold leader_vrf_input in El. rewrite Hpraos in El. cbn [leader_value_for] in El.
  split.
  - unfold verify_vrfs, verify_praos_vrf. rewrite Hvrf, Hslot, Ho. cbn [map_err rbind].
    by rewrite bool_decide_eq_true_2.
  - cbn [check_leadership]. unfold check_threshold. rewrite Hpool, Hp, Ht. cbn [ok_or rbind].
    rewrite Hz', Hasc. cbn [ok_or rbind]. unfold check_leader_claim. by rewrite El.
Qed.

(** The forge accepts an operational certificate exactly when its fields have their
    sizes, the cold key signed it, it is for the expected period and its number is above
    the last one accepted. *)
Theorem opcert_validate_correct o cold_vk expected prev :
  opcert_validate o cold_vk expected prev = Ok tt <->
  blen (oc_hot_vkey o) = 32 /\ blen (oc_sigma o) = 64 /\
  ed_verify cold_vk (oc_hot_vkey o ++ to_be 8 (oc_sequence_number o) ++ to_be 8 (oc_kes_period o))
    (oc_sigma o) = Some true /\
  oc_kes_period o = expected /\
  (forall p, prev = Some p -> p < oc_sequence_number o).
Proof.
  unfold opcert_validate, verify_opcert, build_opcert_signable, verify_ed25519.
  cbn [hot_vkey sequence_number kes_period cold_signature].
  destruct (Z.eqb_spec (blen (oc_hot_vkey o)) 32); cbn [negb]; [|split; [done|intuition congruence]].
  destruct (Z.eqb_spec (blen (oc_sigma o)) 64); cbn [negb]; [|split; [done|intuition congruence]].
  destruct (ed_verify _ _ _) as [[|]|]; [|split; [done|intuition congruence]..].
  destruct (Z.eqb_spec (oc_kes_period o) expected); cbn [negb]; [|split; [done|intuition congruence]].
  destruct prev as [p|]; [|by split].
  destruct (Z.eqb_spec (oc_sequence_number o) p).
  { split; [done|]. intros (_ & _ & _ & _ & Hp). specialize (Hp p eq_refl). lia. }
  destruct (Z.ltb_spec (oc_sequence_number o) p); split; try done.
  - intros (_ & _ & _ & _ & Hp). specialize (Hp p eq_refl). lia.
  - intros _. repeat (split; [done|]). intros ? [= <-]. lia.
Qed.

(** What the KES check does not refuse: a certificate whose period has not begun is
    checked as period 0, and the elapsed periods are taken modulo [2^32]. *)
Theorem kes_evolution_not_refused :
  (forall slot period, 0 <= slot -> slot / SLOTS_PER_KES_PERIOD <= period ->
     kes_evolution slot period = 0) /\
  kes_evolution (129600 * 2 ^ 32) 0 = 0.
Proof.
  split; [|vm_compute; reflexivity]. intros slot period Hs Hp. unfold kes_evolution, saturating_sub.
  rewrite Z.max_r by lia. done.
Qed.
(** Signing and checking agree end to end: a header whose certificate the cold key
    signed for the key generated from a seed, and whose body that key signed after
    evolving to the header's own KES period, passes the KES step of validation. *)
Theorem signed_header_passes_kes `{!HashLaws, !Ed25519Laws} seed cold slot counter period sk body sig
    (Hs : length seed = 32%nat) (Hslot : 0 <= slot) (Hper : 0 <= period)
    (Hr : reached Sum6Kes seed (slot / SLOTS_PER_KES_PERIOD - period) sk)
    (Hsig : sign_kes Sum6Kes sk (slot / SLOTS_PER_KES_PERIOD - period) body = Ok sig) :
  let vk := vk_of Sum6Kes seed in
  verify_header_kes
    (mk_HeaderKes (ed_public cold) vk (raw_serialize_signature_kes Sum6Kes sig)
       (ed_sign cold (vk ++ to_be 8 counter ++ to_be 8 period)) body)
    slot counter period = Ok tt.
Proof.
  intros vk. pose proof (kl_bound (D := Sum6Kes) seed _ sk Hs Hr) as Hb.
  change (total_periods Sum6Kes) with 64 in Hb.
  destruct (kl_sign (D := Sum6Kes) seed _ sk body Hs Hr) as (sig' & Hsg & Hty & Hv & _).
  rewrite Hsg in Hsig. injection Hsig as ->.
  destruct (kl_sig_roundtrip (D := Sum6Kes) sig Hty) as [Hde Hsz].
  change (SIGNATURE_SIZE Sum6Kes) with 448 in Hsz.
  assert (Hvk : blen vk = 32) by (apply blen_32; by apply (kl_vk_len (D := Sum6Kes))).
  fold vk in Hv. unfold verify_header_kes. cbn [issuer_vkey kes_vkey kes_signature op_cert_signature header_body_bytes].
  rewrite (proj1 (blen_32 _) (public_len cold)), Hvk, Hsz.
  replace (blen (ed_sign cold _)) with 64 by (unfold blen; by rewrite sign_len).
  cbn [expect_size Z.eqb Pos.eqb map_err rbind].
  unfold verify_opcert, build_opcert_signable, verify_ed25519.
  cbn [hot_vkey sequence_number kes_period cold_signature]. rewrite sign_verifies.
  set (t := slot / SLOTS_PER_KES_PERIOD) in *.
  assert (He : kes_evolution slot period = t - period).
  { unfold kes_evolution, saturating_sub. fold t. rewrite Z.max_l by lia. apply Z.mod_small. lia. }
  rewrite He. unfold KesPeriod_new, SUM6_MAX_PERIOD. bcase; [lia|].
  unfold verify_kes_sum6, SUM6_SIGNATURE_SIZE. rewrite Hsz. cbn [Z.eqb Pos.eqb negb].
  rewrite Hde. cbn [map_err rbind]. by rewrite Hv.
Qed.
End Facts.

(** * Concrete headers *)

Import Toy.

Definition toy_pool : Hash28 := repeat 8 28.
Definition toy_vk : VrfVerificationKey := repeat 5 32.

(** A snapshot that knows one pool with half of the stake, and one that knows nothing. *)
Definition toy_view : LedgerView := {|
  total_active_stake := fun _ => Some 2;
  pool_active_stake := fun _ _ => Some 1;
  pool_vrf_keyhash := fun _ p => if bool_decide (p = toy_pool) then Some (blake2b_256 toy_vk) else None;
  active_slots_coeff := fun _ => Some (mk_ActiveSlotsCoeff 1 20);
|}.

Definition empty_view : LedgerView := {|
  total_active_stake := fun _ => None;
  pool_active_stake := fun _ _ => None;
  pool_vrf_keyhash := fun _ _ => None;
  active_slots_coeff := fun _ => None;
|}.

Definition toy_header (slot block_no : Z) : HeaderInput :=
  mk_HeaderInput slot block_no (repeat 6 32) (repeat 7 32) toy_pool 0 3 toy_vk
    (Praos (repeat 3 80) (repeat 3 64)) None.

Definition toy_chain : list HeaderInput := [toy_header 20 5; toy_header 21 6].

Definition toy_end : PraosChainDepState :=
  match follow (H1 := toy_view) preview Enforce epoch_start toy_chain with
  | Ok s => s
  | Err _ => empty
  end.

Lemma toy_view_sane : sane_view toy_view.
Proof.
  split; [intros e f [= <-]; split; [done|split; done]|].
  intros e p st tot [= <-] [= <-]. done.
Qed.

Definition toy_applied : HeaderApplied :=
  mk_HeaderApplied (state_after epoch_start (toy_header 20 5)
    (in_high_half (praos_nonce_value (repeat 3 64))) (freeze_slot preview_seed 20))
    (mk_ValidatedHeaderSummary 20 5 (repeat 7 32) toy_pool 3 (praos_leader_value (repeat 3 64))).


Lemma accepted_chain_monotone_witness :
  Forall (after_state epoch_start) toy_chain /\ StronglySorted header_before toy_chain /\
  counters_le (op_cert_counters epoch_start) (op_cert_counters toy_end) /\
  Forall (counter_recorded (op_cert_counters toy_end)) toy_chain /\
  epoch_nonce toy_end = epoch_nonce epoch_start /\
  last_epoch_block_nonce toy_end = last_epoch_block_nonce epoch_start.
Proof. apply (accepted_chain_monotone (H1 := toy_view) preview Enforce). vm_compute. reflexivity. Defined.

Lemma replay_reconstructs_state_witness :
  follow (H1 := empty_view) (extend_to_epoch preview 3) TrustDurable epoch_start toy_chain = Ok toy_end.
Proof.
  apply (replay_reconstructs_state preview_seed preview (extend_to_epoch preview 3) toy_view empty_view);
    [exact preview_uniform|exact preview_uniform_3|intros e p; left; reflexivity
    |repeat constructor; vm_compute; reflexivity|vm_compute; reflexivity].
Defined.

Definition toy_query : LeaderScheduleQuery := mk_LeaderScheduleQuery 20 toy_pool.

Definition toy_answer : LeaderScheduleAnswer :=
  mk_LeaderScheduleAnswer 20 toy_pool 0 (Input_Praos (praos_vrf_input 20 (repeat 1 32)))
    (1, 2) (mk_ActiveSlotsCoeff 1 20).

Lemma eligible_forge_passes_validation_witness :
  verify_vrfs epoch_start (toy_header 20 5)
    = Ok (praos_leader_value (repeat 3 64), in_high_half (praos_nonce_value (repeat 3 64))) /\
  check_leadership (H1 := toy_view) Enforce (loc_epoch (mk_EraLocation 0 Conway 0 20))
    (toy_header 20 5) (praos_leader_value (repeat 3 64)) = Ok tt.
Proof.
  apply (eligible_forge_passes_validation (H1 := toy_view) toy_query preview epoch_start
           (mk_EraLocation 0 Conway 0 20) toy_answer (repeat 3 80) (toy_header 20 5)
           (repeat 3 64) (repeat 3 8)); vm_compute; reflexivity.
Defined.

Lemma signed_header_passes_kes_witness :
  exists sk sig, toy_key 37 = Some sk /\ sign_kes toy_sum6 sk 37 [1; 2; 3] = Ok sig /\
    verify_header_kes
      (mk_HeaderKes (ed_public (repeat 4 32)) (vk_of toy_sum6 toy_seed)
         (raw_serialize_signature_kes toy_sum6 sig)
         (ed_sign (repeat 4 32) (vk_of toy_sum6 toy_seed ++ to_be 8 2 ++ to_be 8 100)) [1; 2; 3])
      (137 * 129600) 2 100 = Ok tt.
Proof.
  destruct toy_key_some as [sk E].
  destruct (kl_sign (D := toy_sum6) toy_seed 37 sk [1; 2; 3] eq_refl (toy_reached 37 sk E)) as (sig & Hs & _).
  exists sk, sig. split; [exact E|split; [exact Hs|]].
  apply (signed_header_passes_kes toy_seed (repeat 4 32) (137 * 129600) 2 100 sk [1; 2; 3] sig);
    [reflexivity|lia|lia|exact (toy_reached 37 sk E)|exact Hs].
Defined.
