(* ===== verification/ForkChoice.v ===== *)
(** Fork choice and rollback: [ade_core/src/consensus/events.rs], [candidate.rs],
    [fork_choice.rs] and [rollback.rs].

    [compare_select_view] returns [Lt] when its first argument is preferred, as
    [Ordering::Less] in the source.  The theorems show that it is a strict total
    preference, that [select_best_chain] always ends on the best of the current tip and
    the eligible candidates whatever their order of arrival, and that neither it nor a
    rollback ever crosses the immutable tip or the security parameter. *)

From Stdlib Require Import Permutation.
From S2P Require Import Prelude Envelope EraSchedule Leader ChainDep Header.

(** * Data *)

Record Point : Type := mk_Point {
  pt_slot : Z;
  pt_hash : Hash32;
}.

Inductive ChainSelectionReject : Type :=
| ForkBeforeImmutableTip (immutable_tip candidate_intersection : Point)
    (rollback_depth security_param : Z)
| ExceededRollback (requested max : Z)
| HeaderInvalid (at_point : Point) (reason : HeaderValidationError)
| TiebreakerLossKeepCurrent (current_tip candidate_tip : Point).

Inductive ChainEvent : Type :=
| ChainExtended (new_tip : Point) (block_no : Z)
| RolledBack (to_point : Point) (depth : Z)
| RolledForward (from to : Point)
| ChainSelected (new_tip : Point) (replaced_tip : option Point)
| Rejected (reason : ChainSelectionReject).

Record TiebreakerView : Type := mk_TiebreakerView {
  tb_slot : Z;
  issuer_hash : Hash28;
  tb_op_cert_counter : Z;
  leader_vrf_output_first_8 : list Z;
}.

Record CandidateFragment : Type := mk_CandidateFragment {
  cf_anchor : Point;
  anchor_block_no : Z;
  headers : list ValidatedHeaderSummary;
  select_view : TiebreakerView;
  rollback_depth : Z;
}.

Record ChainSelectorState : Type := mk_ChainSelectorState {
  current_tip : Point;
  current_tip_block_no : Z;
  current_tiebreaker : TiebreakerView;
  immutable_tip : Point;
  immutable_tip_block_no : Z;
  security_param : Z;
}.

Inductive ForkChoiceError : Type :=
| NoCandidates.

Record EligibleCandidate : Type := mk_EligibleCandidate {
  tip_block_no : Z;
  tip_tiebreaker : TiebreakerView;
  tip_point : Point;
}.

(** * The preference *)

Definition tiebreaker_prefer (a b : TiebreakerView) : comparison :=
  match Z.compare (tb_slot a) (tb_slot b) with
  | Eq =>
      match bytes_cmp (issuer_hash a) (issuer_hash b) with
      | Eq =>
          match Z.compare (tb_op_cert_counter b) (tb_op_cert_counter a) with
          | Eq => bytes_cmp (leader_vrf_output_first_8 a) (leader_vrf_output_first_8 b)
          | non_eq => non_eq
          end
      | non_eq => non_eq
      end
  | non_eq => non_eq
  end.

Definition compare_select_view (lhs_block_no : Z) (lhs_tb : TiebreakerView)
    (rhs_block_no : Z) (rhs_tb : TiebreakerView) : comparison :=
  match Z.compare rhs_block_no lhs_block_no with
  | Eq => tiebreaker_prefer lhs_tb rhs_tb
  | non_eq => non_eq
  end.

(** * Selection *)

Definition candidate_tip_block_no (c : CandidateFragment) : Z :=
  saturating_add (anchor_block_no c) (blen (headers c)).

Definition candidate_tip_point (c : CandidateFragment) : Point :=
  match last (headers c) with
  | Some l => mk_Point (vs_slot l) (vs_body_hash l)
  | None => cf_anchor c
  end.

(** Why a candidate is not eligible, if it is not. *)
Definition ineligible_reason (s : ChainSelectorState) (c : CandidateFragment) :
    option ChainSelectionReject :=
  if pt_slot (cf_anchor c) <? pt_slot (immutable_tip s)
  then Some (ForkBeforeImmutableTip (immutable_tip s) (cf_anchor c) (rollback_depth c)
               (security_param s))
  else if security_param s <? rollback_depth c
  then Some (ExceededRollback (rollback_depth c) (security_param s))
  else None.

Definition project (c : CandidateFragment) : EligibleCandidate :=
  mk_EligibleCandidate (candidate_tip_block_no c) (select_view c) (candidate_tip_point c).

(** The partition loop, in order. *)
Fixpoint partition (s : ChainSelectorState) (l : list CandidateFragment) :
    list EligibleCandidate * list (Z * ChainSelectionReject) :=
  match l with
  | [] => ([], [])
  | c :: l =>
      let (el, inel) := partition s l in
      match ineligible_reason s c with
      | Some reason => (el, (candidate_tip_block_no c, reason) :: inel)
      | None => (project c :: el, inel)
      end
  end.

(** The loops that carry the index of the best element so far. *)
Fixpoint best_ineligible (best : Z * ChainSelectionReject) (l : list (Z * ChainSelectionReject)) :
    Z * ChainSelectionReject :=
  match l with
  | [] => best
  | x :: l => best_ineligible (if fst best <? fst x then x else best) l
  end.

Fixpoint best_eligible (best : EligibleCandidate) (l : list EligibleCandidate) :
    EligibleCandidate :=
  match l with
  | [] => best
  | x :: l =>
      best_eligible
        (match compare_select_view (tip_block_no x) (tip_tiebreaker x)
                 (tip_block_no best) (tip_tiebreaker best) with
         | Lt => x
         | _ => best
         end) l
  end.

Definition select_best_chain (s : ChainSelectorState) (candidates : list CandidateFragment) :
    result (ChainSelectorState * ChainEvent) ForkChoiceError :=
  match candidates with
  | [] => Err NoCandidates
  | _ =>
      match partition s candidates with
      | ([], first :: rest) => Ok (s, Rejected (snd (best_ineligible first rest)))
      | ([], []) => Err NoCandidates (* [ineligible[0]], unreachable *)
      | (first :: rest, _) =>
          let best := best_eligible first rest in
          match compare_select_view (tip_block_no best) (tip_tiebreaker best)
                  (current_tip_block_no s) (current_tiebreaker s) with
          | Lt =>
              Ok (mk_ChainSelectorState (tip_point best) (tip_block_no best) (tip_tiebreaker best)
                    (immutable_tip s) (immutable_tip_block_no s) (security_param s),
                  ChainSelected (tip_point best) (Some (current_tip s)))
          | _ => Ok (s, Rejected (TiebreakerLossKeepCurrent (current_tip s) (tip_point best)))
          end
      end
  end.

(** * Rollback *)

Record RollBackRequest : Type := mk_RollBackRequest {
  to_point : Point;
  to_block_no : Z;
  depth : Z;
}.

Record RollBackApplied : Type := mk_RollBackApplied {
  new_state : ChainSelectorState;
  new_chain_dep : PraosChainDepState;
  event : ChainEvent;
}.

Definition apply_rollback (s : ChainSelectorState)
    (chain_dep rolled_back_chain_dep : PraosChainDepState)
    (rolled_back_tiebreaker : TiebreakerView) (r : RollBackRequest) : RollBackApplied :=
  if to_block_no r <? immutable_tip_block_no s
  then mk_RollBackApplied s chain_dep
         (Rejected (ForkBeforeImmutableTip (immutable_tip s) (to_point r) (depth r) (security_param s)))
  else if security_param s <? depth r
  then mk_RollBackApplied s chain_dep (Rejected (ExceededRollback (depth r) (security_param s)))
  else
    mk_RollBackApplied
      (mk_ChainSelectorState (to_point r) (to_block_no r) rolled_back_tiebreaker
         (immutable_tip s) (immutable_tip_block_no s) (security_param s))
      rolled_back_chain_dep (RolledBack (to_point r) (depth r)).

(** * The preference is a strict total order *)

(** What a candidate is compared by. *)
Definition View : Type := Z * TiebreakerView.

Definition view_cmp (a b : View) : comparison :=
  compare_select_view (fst a) (snd a) (fst b) (snd b).

Definition lex (c d : comparison) : comparison := match c with Eq => d | Lt => Lt | Gt => Gt end.

Lemma view_cmp_lex a b :
  view_cmp a b =
    lex (Z.compare (fst b) (fst a))
      (lex (Z.compare (tb_slot (snd a)) (tb_slot (snd b)))
         (lex (bytes_cmp (issuer_hash (snd a)) (issuer_hash (snd b)))
            (lex (Z.compare (tb_op_cert_counter (snd b)) (tb_op_cert_counter (snd a)))
               (bytes_cmp (leader_vrf_output_first_8 (snd a)) (leader_vrf_output_first_8 (snd b)))))).
Proof. reflexivity. Qed.

Lemma lex_opp c d : CompOpp (lex c d) = lex (CompOpp c) (CompOpp d).
Proof. by destruct c. Qed.

Lemma lex_eq c d : lex c d = Eq <-> c = Eq /\ d = Eq.
Proof. destruct c; cbn; intuition congruence. Qed.

(** A comparison that can be a component of a lexicographic one: [Lt] is transitive and
    elements that compare [Eq] are interchangeable. *)
Class Component {A} (f : A -> A -> comparison) : Prop := {
  comp_trans a b c : f a b = Lt -> f b c = Lt -> f a c = Lt;
  comp_eq_l a b c : f a b = Eq -> f a c = f b c;
  comp_eq_r a b c : f b c = Eq -> f a c = f a b;
}.

#[export] Instance component_Z {A} (p : A -> Z) : Component (fun a b => Z.compare (p a) (p b)).
Proof.
  constructor; intros a b c; rewrite ?Z.compare_lt_iff, ?Z.compare_eq_iff; try lia; congruence.
Qed.

#[export] Instance component_Z_rev {A} (p : A -> Z) : Component (fun a b => Z.compare (p b) (p a)).
Proof.
  constructor; intros a b c; rewrite ?Z.compare_lt_iff, ?Z.compare_eq_iff; try lia; congruence.
Qed.

#[export] Instance component_bytes {A} (p : A -> list Z) :
  Component (fun a b => bytes_cmp (p a) (p b)).
Proof.
  constructor; intros a b c; [apply bytes_cmp_lt_trans| |]; rewrite bytes_cmp_eq; congruence.
Qed.

#[export] Instance component_lex {A} (f g : A -> A -> comparison) `{!Component f, !Component g} :
  Component (fun a b => lex (f a b) (g a b)).
Proof.
  constructor; intros a b c.
  - destruct (f a b) eqn:Eab, (f b c) eqn:Ebc; cbn; try done; intros.
    + rewrite (comp_eq_l a b c Eab), Ebc. cbn. by eapply comp_trans.
    + by rewrite (comp_eq_l a b c Eab), Ebc.
    + by rewrite (comp_eq_r a b c Ebc), Eab.
    + by rewrite (comp_trans a b c Eab Ebc).
  - intros [Ef Eg]%lex_eq. by rewrite (comp_eq_l a b c Ef), (comp_eq_l a b c Eg).
  - intros [Ef Eg]%lex_eq. by rewrite (comp_eq_r a b c Ef), (comp_eq_r a b c Eg).
Qed.

Lemma view_cmp_antisym a b : view_cmp b a = CompOpp (view_cmp a b).
Proof.
  rewrite !view_cmp_lex, !lex_opp, <- !Z.compare_antisym, <- !bytes_cmp_antisym. done.
Qed.

Lemma view_cmp_eq a b : view_cmp a b = Eq <-> a = b.
Proof.
  rewrite view_cmp_lex, !lex_eq, !Z.compare_eq_iff, !bytes_cmp_eq.
  destruct a as [n [s i c v]], b as [n' [s' i' c' v']]; cbn. split; [intuition congruence|].
  by intros [= -> -> -> -> ->].
Qed.

Lemma view_cmp_lt_trans a b c : view_cmp a b = Lt -> view_cmp b c = Lt -> view_cmp a c = Lt.
Proof.
  rewrite !view_cmp_lex.
  exact (comp_trans (f := fun a b : View => lex (Z.compare (fst b) (fst a))
    (lex (Z.compare (tb_slot (snd a)) (tb_slot (snd b)))
       (lex (bytes_cmp (issuer_hash (snd a)) (issuer_hash (snd b)))
          (lex (Z.compare (tb_op_cert_counter (snd b)) (tb_op_cert_counter (snd a)))
             (bytes_cmp (leader_vrf_output_first_8 (snd a)) (leader_vrf_output_first_8 (snd b))))))) a b c).
Qed.

(** * The selection takes the best *)

Definition state_view (s : ChainSelectorState) : View :=
  (current_tip_block_no s, current_tiebreaker s).
Definition fragment_view (c : CandidateFragment) : View :=
  (candidate_tip_block_no c, select_view c).
Definition eligible_view (e : EligibleCandidate) : View := (tip_block_no e, tip_tiebreaker e).

Definition eligible (s : ChainSelectorState) (c : CandidateFragment) : bool :=
  match ineligible_reason s c with None => true | Some _ => false end.

(** [v] is in [l] and nothing in [l] is preferred to it. *)
Definition best_of (l : list View) (v : View) : Prop :=
  v ∈ l /\ forall w, w ∈ l -> view_cmp w v <> Lt.

Lemma view_cmp_refl v : view_cmp v v = Eq.
Proof. by apply view_cmp_eq. Qed.

Lemma not_lt_trans a b c :
  view_cmp a b <> Lt -> view_cmp b c <> Lt -> view_cmp a c <> Lt.
Proof.
  intros Hab Hbc Hac. pose proof (view_cmp_antisym a b) as Ha. pose proof (view_cmp_antisym b c) as Hb.
  destruct (view_cmp a b) eqn:Eab; [|done|].
  - apply view_cmp_eq in Eab as ->. done.
  - cbn in Ha. apply Hbc. by eapply view_cmp_lt_trans.
Qed.

(** The best is unique, as a view. *)
Lemma best_unique l l' v v' :
  best_of l v -> best_of l' v' -> (forall w, w ∈ l <-> w ∈ l') -> v = v'.
Proof.
  intros [Hv Hb] [Hv' Hb'] Hll. apply view_cmp_eq.
  pose proof (Hb v' (proj2 (Hll v') Hv')) as H1. pose proof (Hb' v (proj1 (Hll v) Hv)) as H2.
  rewrite view_cmp_antisym in H1. by destruct (view_cmp v v').
Qed.

Lemma best_eligible_spec l : forall b,
  best_eligible b l ∈ b :: l /\
  forall x, x ∈ b :: l -> view_cmp (eligible_view x) (eligible_view (best_eligible b l)) <> Lt.
Proof.
  induction l as [|x l IH]; intros b; cbn [best_eligible].
  { split; [by left|]. intros x ->%list_elem_of_singleton. by rewrite view_cmp_refl. }
  change (compare_select_view (tip_block_no x) (tip_tiebreaker x) (tip_block_no b) (tip_tiebreaker b))
    with (view_cmp (eligible_view x) (eligible_view b)).
  set (b' := match view_cmp (eligible_view x) (eligible_view b) with Lt => x | _ => b end).
  destruct (IH b') as [Hin Hbest].
  assert (Hb' : b' = x \/ b' = b) by (unfold b'; destruct (view_cmp _ _); auto).
  assert (Hxb : view_cmp (eligible_view x) (eligible_view b') <> Lt /\
    view_cmp (eligible_view b) (eligible_view b') <> Lt).
  { unfold b'. destruct (view_cmp (eligible_view x) (eligible_view b)) eqn:E;
      rewrite ?view_cmp_refl, ?E; try done.
    rewrite view_cmp_antisym, E. done. }
  split.
  - apply elem_of_cons in Hin as [Heq|Hin]; [rewrite Heq; destruct Hb' as [->| ->]|];
      rewrite !elem_of_cons; auto.
  - pose proof (Hbest b' (list_elem_of_here _ _)) as Hbb.
    intros y Hy. rewrite !elem_of_cons in Hy. destruct Hy as [->|[->|Hy]].
    + eapply not_lt_trans; [apply Hxb|exact Hbb].
    + eapply not_lt_trans; [apply Hxb|exact Hbb].
    + apply Hbest. rewrite elem_of_cons. auto.
Qed.

Lemma partition_fst s l : fst (partition s l) = map project (List.filter (eligible s) l).
Proof.
  induction l as [|c l IH]; [done|]. cbn [partition List.filter]. unfold eligible at 1.
  destruct (partition s l) as [el inel]. cbn [fst] in IH. subst el.
  by destruct (ineligible_reason s c).
Qed.

Lemma partition_snd s l :
  List.filter (eligible s) l = [] -> l <> [] -> snd (partition s l) <> [].
Proof.
  destruct l as [|c l]; [done|]. cbn [partition List.filter]. unfold eligible at 1.
  destruct (partition s l) as [el inel]. by destruct (ineligible_reason s c).
Qed.

(** What the selection does, as one statement. *)
Definition keeps (s : ChainSelectorState) (cands : list CandidateFragment)
    (s' : ChainSelectorState) (ev : ChainEvent) : Prop :=
  s' = s /\ (exists reason, ev = Rejected reason) /\
  forall c, c ∈ cands -> eligible s c = true -> view_cmp (fragment_view c) (state_view s) <> Lt.

Definition adopts (s : ChainSelectorState) (cands : list CandidateFragment)
    (s' : ChainSelectorState) (ev : ChainEvent) : Prop :=
  exists c, c ∈ cands /\ eligible s c = true /\
    s' = mk_ChainSelectorState (candidate_tip_point c) (candidate_tip_block_no c) (select_view c)
           (immutable_tip s) (immutable_tip_block_no s) (security_param s) /\
    ev = ChainSelected (candidate_tip_point c) (Some (current_tip s)) /\
    view_cmp (fragment_view c) (state_view s) = Lt /\
    forall c', c' ∈ cands -> eligible s c' = true ->
      view_cmp (fragment_view c') (fragment_view c) <> Lt.

Lemma select_spec s cands :
  cands <> [] ->
  exists s' ev, select_best_chain s cands = Ok (s', ev) /\
    (keeps s cands s' ev \/ adopts s cands s' ev).
Proof.
  intros Hne. unfold select_best_chain. destruct cands as [|c0 cs]; [done|].
  set (cands := c0 :: cs) in *. clearbody cands.
  pose proof (partition_fst s cands) as Hfst. pose proof (partition_snd s cands) as Hsnd.
  destruct (partition s cands) as [el inel]. cbn [fst snd] in *. subst el.
  assert (Hel : forall c, c ∈ List.filter (eligible s) cands <-> c ∈ cands /\ eligible s c = true).
  { intros c. rewrite !list_elem_of_In. apply filter_In. }
  destruct (List.filter (eligible s) cands) as [|e es].
  - cbn [map]. destruct inel as [|i0 inel]; [by destruct (Hsnd eq_refl Hne)|].
    eexists _, _. split; [done|]. left. split; [done|split; [eauto|]].
    intros c Hc He. exfalso. eapply not_elem_of_nil. apply Hel. by split.
  - cbn [map]. set (b := best_eligible (project e) (map project es)).
    destruct (best_eligible_spec (map project es) (project e)) as [Hin Hbest]. fold b in Hin, Hbest.
    change (project e :: map project es) with (map project (e :: es)) in *.
    assert (Hb : exists c, c ∈ e :: es /\ b = project c).
    { apply list_elem_of_In, in_map_iff in Hin as (c & <- & Hc%list_elem_of_In). eauto. }
    destruct Hb as (c & Hc & Hbc).
    assert (Hbest' : forall c', c' ∈ cands -> eligible s c' = true ->
      view_cmp (fragment_view c') (fragment_view c) <> Lt).
    { intros c' Hc' He'. specialize (Hbest (project c')). rewrite Hbc in Hbest. apply Hbest.
      apply list_elem_of_In, in_map. apply list_elem_of_In, Hel. by split. }
    apply Hel in Hc as [Hc He]. rewrite Hbc. cbn [tip_block_no tip_tiebreaker tip_point project].
    change (compare_select_view (candidate_tip_block_no c) (select_view c)
      (current_tip_block_no s) (current_tiebreaker s))
      with (view_cmp (fragment_view c) (state_view s)).
    destruct (view_cmp (fragment_view c) (state_view s)) eqn:Ecmp; eexists _, _; (split; [reflexivity|]).
    + left. split; [done|split; [eauto|]]. intros c' Hc' He'.
      eapply not_lt_trans; [by apply Hbest'|]. by rewrite Ecmp.
    + right. exists c. by repeat (split; [done|]).
    + left. split; [done|split; [eauto|]]. intros c' Hc' He'.
      eapply not_lt_trans; [by apply Hbest'|]. by rewrite Ecmp.
Qed.

(** C2. [select_best_chain] always answers on a non-empty list, and its answer is the
    best: it either keeps the current tip, and then no eligible candidate is preferred
    to it, or adopts an eligible candidate (within [k] and not before the immutable
    tip) that is strictly preferred to the current tip and to which no other eligible
    candidate is preferred. *)
Theorem select_best_chain_correct s cands (Hne : cands <> []) :
  exists s' ev, select_best_chain s cands = Ok (s', ev) /\
    (keeps s cands s' ev \/ adopts s cands s' ev).
Proof. by apply select_spec. Qed.

(** * Order of arrival *)

(** The views that compete: the current tip's and the eligible candidates'. *)
Definition pool (s : ChainSelectorState) (cands : list CandidateFragment) : list View :=
  state_view s :: map fragment_view (List.filter (eligible s) cands).

Lemma elem_of_pool s cands v :
  v ∈ pool s cands <->
  v = state_view s \/ exists c, c ∈ cands /\ eligible s c = true /\ v = fragment_view c.
Proof.
  unfold pool. rewrite elem_of_cons, list_elem_of_In, in_map_iff. split.
  - intros [->|(c & <- & Hc)]; [by left|]. right. apply filter_In in Hc as [Hc He].
    exists c. by rewrite list_elem_of_In.
  - intros [->|(c & Hc & He & ->)]; [by left|]. right. exists c. split; [done|].
    apply filter_In. by rewrite <- list_elem_of_In.
Qed.

(** The limits a selection or a rollback never moves. *)
Definition same_limits (s s' : ChainSelectorState) : Prop :=
  immutable_tip s' = immutable_tip s /\
  immutable_tip_block_no s' = immutable_tip_block_no s /\
  security_param s' = security_param s.

#[export] Instance same_limits_preorder : PreOrder same_limits.
Proof. split; [by intros s|]. intros a b c. unfold same_limits. intuition congruence. Qed.

Lemma eligible_limits s s' c : same_limits s s' -> eligible s' c = eligible s c.
Proof. intros (E1 & _ & E3). unfold eligible, ineligible_reason. by rewrite E1, E3. Qed.

Lemma select_best_of s cands s' ev :
  select_best_chain s cands = Ok (s', ev) ->
  same_limits s s' /\ best_of (pool s cands) (state_view s').
Proof.
  intros Hs. destruct cands as [|c0 cs]; [done|].
  destruct (select_spec s (c0 :: cs)) as (s1 & ev1 & Hs1 & Hk); [done|].
  rewrite Hs1 in Hs. injection Hs as -> ->. set (cands := c0 :: cs) in *.
  destruct Hk as [(-> & _ & Hb)|(c & Hc & He & -> & _ & Hlt & Hb)].
  - split; [done|]. split; [by left|]. intros w [->|(c & Hc & He & ->)]%elem_of_pool.
    + by rewrite view_cmp_refl.
    + by apply Hb.
  - split; [done|]. split; [apply elem_of_pool; right; eauto|].
    intros w [->|(c' & Hc' & He' & ->)]%elem_of_pool.
    + change (view_cmp (state_view s) (fragment_view c) <> Lt).
      by rewrite view_cmp_antisym, Hlt.
    + by apply Hb.
Qed.

(** Feeding the selector batch after batch; an empty batch is an error it survives. *)
Fixpoint select_batches (s : ChainSelectorState) (batches : list (list CandidateFragment)) :
    ChainSelectorState :=
  match batches with
  | [] => s
  | b :: batches =>
      match select_best_chain s b with
      | Ok (s', _) => select_batches s' batches
      | Err _ => select_batches s batches
      end
  end.

Lemma best_of_merge s s' b rest v :
  same_limits s s' -> best_of (pool s b) (state_view s') -> best_of (pool s' rest) v ->
  best_of (pool s (b ++ rest)) v.
Proof.
  intros Hl [Hin1 Hb1] [Hin2 Hb2].
  assert (Hmono : forall w, w ∈ pool s b -> view_cmp w v <> Lt).
  { intros w Hw. eapply not_lt_trans; [by apply Hb1|]. apply Hb2. by left. }
  split.
  - apply elem_of_pool in Hin2 as [->|(c & Hc & He & ->)].
    + apply elem_of_pool in Hin1 as [->|(c & Hc & He & ->)]; apply elem_of_pool; [by left|].
      right. exists c. rewrite elem_of_app. auto.
    + apply elem_of_pool. right. exists c. rewrite elem_of_app.
      rewrite (eligible_limits s s') in He by done. auto.
  - intros w [->|(c & [Hc|Hc]%elem_of_app & He & ->)]%elem_of_pool.
    + apply Hmono. by left.
    + apply Hmono, elem_of_pool. right. eauto.
    + apply Hb2, elem_of_pool. right. exists c. by rewrite (eligible_limits s s').
Qed.

Lemma select_batches_best batches : forall s,
  same_limits s (select_batches s batches) /\
  best_of (pool s (concat batches)) (state_view (select_batches s batches)).
Proof.
  induction batches as [|b batches IH]; intros s; cbn [select_batches concat].
  { split; [done|]. split; [by left|]. intros w [->|(c & Hc & _)]%elem_of_pool.
    - by rewrite view_cmp_refl.
    - by apply elem_of_nil in Hc. }
  destruct (select_best_chain s b) as [[s' ev]|] eqn:E.
  - apply select_best_of in E as [Hl Hb]. destruct (IH s') as [Hl' Hb'].
    split; [by transitivity s'|]. by eapply best_of_merge.
  - destruct b as [|c0 cs]; [apply IH|].
    destruct (select_spec s (c0 :: cs)) as (? & ? & Hs & _); [done|]. congruence.
Qed.

(** C26. Fork choice does not depend on the order of arrival: two nodes that start from
    the same state and are fed the same candidates, in any order and in any grouping
    into calls, end on tips with the same block number and tiebreaker. *)
Theorem selection_order_independent s batches batches'
    (Hp : Permutation (concat batches) (concat batches')) :
  state_view (select_batches s batches) = state_view (select_batches s batches').
Proof.
  eapply best_unique; [apply select_batches_best|apply select_batches_best|].
  intros w. rewrite !elem_of_pool.
  assert (Hin : forall c, c ∈ concat batches <-> c ∈ concat batches').
  { intros c. rewrite !list_elem_of_In. split; apply Permutation_in; [done|by symmetry]. }
  by setoid_rewrite Hin.
Qed.

(** * Reachable states *)

Inductive step : ChainSelectorState -> ChainSelectorState -> Prop :=
| step_select s cands s' ev : select_best_chain s cands = Ok (s', ev) -> step s s'
| step_rollback s dep dep' tb r : step s (new_state (apply_rollback s dep dep' tb r)).

Definition reachable (s0 : ChainSelectorState) : ChainSelectorState -> Prop := rtc step s0.

(** A rollback is applied exactly when it stays at or above the immutable block and
    within [k] blocks; then it adopts the requested point and the supplied chain-dep
    state, and otherwise both states are returned unchanged with a rejection. *)
Theorem apply_rollback_correct s dep dep' tb r :
  let out := apply_rollback s dep dep' tb r in
  if (immutable_tip_block_no s <=? to_block_no r) && (depth r <=? security_param s)
  then current_tip (new_state out) = to_point r /\
       state_view (new_state out) = (to_block_no r, tb) /\
       same_limits s (new_state out) /\
       new_chain_dep out = dep' /\ event out = RolledBack (to_point r) (depth r)
  else new_state out = s /\ new_chain_dep out = dep /\ exists reason, event out = Rejected reason.
Proof.
  unfold apply_rollback. rewrite !Z.leb_antisym.
  destruct (to_block_no r <? immutable_tip_block_no s); cbn; [eauto|].
  destruct (security_param s <? depth r); cbn; eauto. by repeat split.
Qed.

Lemma rollback_limits s dep dep' tb r :
  same_limits s (new_state (apply_rollback s dep dep' tb r)) /\
  (immutable_tip_block_no s <= current_tip_block_no s ->
   immutable_tip_block_no s <= current_tip_block_no (new_state (apply_rollback s dep dep' tb r))).
Proof.
  unfold apply_rollback. destruct (Z.ltb_spec (to_block_no r) (immutable_tip_block_no s)); [done|].
  destruct (security_param s <? depth r); [done|]. by split.
Qed.

Lemma lt_block_no v w : view_cmp v w = Lt -> fst w <= fst v.
Proof.
  rewrite view_cmp_lex. destruct (Z.compare_spec (fst w) (fst v)); cbn; [lia|lia|done].
Qed.

Lemma step_limits s s' :
  step s s' ->
  same_limits s s' /\
  (immutable_tip_block_no s <= current_tip_block_no s ->
   immutable_tip_block_no s' <= current_tip_block_no s').
Proof.
  intros [s0 cands s1 ev Hs|s0 dep dep' tb r].
  - apply select_best_of in Hs as [Hl [_ Hb]]. split; [done|]. destruct Hl as (_ & -> & _).
    intros Hle. assert (Hc : view_cmp (state_view s0) (state_view s1) <> Lt) by (apply Hb; by left).
    assert (view_cmp (state_view s1) (state_view s0) = Lt \/ state_view s1 = state_view s0) as [Hlt|Heq].
    { rewrite view_cmp_antisym. destruct (view_cmp (state_view s0) (state_view s1)) eqn:E; auto; [|done].
      right. symmetry. by apply view_cmp_eq. }
    + apply lt_block_no in Hlt. unfold state_view in Hlt. cbn in Hlt. lia.
    + injection Heq as -> _. done.
  - destruct (rollback_limits s0 dep dep' tb r) as [Hl Hb]. split; [done|].
    destruct Hl as (_ & -> & _). done.
Qed.

(** From any state whose tip is not below its immutable block, no sequence of
    selections and rollbacks moves the immutable tip or [k], or brings the tip below
    the immutable block. *)
Theorem immutable_tip_is_immutable s0 s
    (H0 : immutable_tip_block_no s0 <= current_tip_block_no s0) (Hr : reachable s0 s) :
  same_limits s0 s /\ immutable_tip_block_no s <= current_tip_block_no s.
Proof.
  induction Hr as [s|s0 s1 s Hstep _ IH]; [done|].
  destruct (step_limits _ _ Hstep) as [Hl Hle]. destruct (IH (Hle H0)) as [Hl' Hle'].
  split; [by transitivity s1|done].
Qed.

(** * Concrete chains *)

Definition toy_view_tb (counter : Z) : TiebreakerView :=
  mk_TiebreakerView 100 (repeat 1 28) counter (repeat 2 8).

Definition toy_selector : ChainSelectorState :=
  mk_ChainSelectorState (mk_Point 100 (repeat 9 32)) 50 (toy_view_tb 3)
    (mk_Point 10 (repeat 8 32)) 5 2160.

(** Same length as the tip, with a newer and an older certificate; and too deep a fork. *)
Definition newer : CandidateFragment :=
  mk_CandidateFragment (mk_Point 90 (repeat 7 32)) 50 [] (toy_view_tb 4) 1.
Definition older : CandidateFragment :=
  mk_CandidateFragment (mk_Point 90 (repeat 6 32)) 50 [] (toy_view_tb 2) 1.
Definition too_deep : CandidateFragment :=
  mk_CandidateFragment (mk_Point 90 (repeat 5 32)) 900 [] (toy_view_tb 9) 2161.

Lemma select_best_chain_correct_witness :
  exists s' ev, select_best_chain toy_selector [older; too_deep; newer] = Ok (s', ev) /\
    (keeps toy_selector [older; too_deep; newer] s' ev \/
     adopts toy_selector [older; too_deep; newer] s' ev).
Proof. by apply select_best_chain_correct. Defined.

Lemma selection_order_independent_witness :
  state_view (select_batches toy_selector [[older; newer]; [too_deep]])
    = state_view (select_batches toy_selector [[too_deep]; []; [newer]; [older]]).
Proof.
  apply selection_order_independent. cbn.
  apply (Permutation_trans (l' := [older; too_deep; newer])).
  - apply perm_skip, perm_swap.
  - apply (Permutation_trans (l' := [too_deep; older; newer])); [apply perm_swap|].
    apply perm_skip, perm_swap.
Defined.

Lemma immutable_tip_is_immutable_witness :
  let s := new_state (apply_rollback toy_selector empty empty (toy_view_tb 1)
             (mk_RollBackRequest (mk_Point 80 (repeat 4 32)) 40 10)) in
  same_limits toy_selector s /\ immutable_tip_block_no s <= current_tip_block_no s.
Proof.
  apply (immutable_tip_is_immutable toy_selector); [vm_compute; congruence|].
  eapply rtc_l; [apply step_rollback|apply rtc_refl].
Defined.
