(* ===== verification/Mux.v ===== *)
(** The Ouroboros multiplexer: the frame codec of [ade_network/src/mux/frame.rs] and the
    frame buffer of [ade_network/src/session/demux.rs] that cuts a byte stream into
    frames.

    A [MiniProtocolId] is its [u16]; the private field and the checked constructor of the
    source are the predicate [frame_ok].  The theorems: frames and their bytes determine
    each other, and the frames pulled from a stream do not depend on how the stream was
    cut into chunks. *)

From S2P Require Import Prelude Cbor CborRoundtrip.

(** * Frames ([mux/frame.rs]) *)

Inductive MuxMode : Type := Initiator | Responder.

Inductive MuxError : Type :=
| Truncated (needed got : Z)
| PayloadTooLarge (len : Z)
| InvalidMiniProtocolId (id : Z).

Record MuxHeader : Type := mk_MuxHeader {
  mh_timestamp : Z;
  mh_mode : MuxMode;
  mh_mini_protocol_id : Z;
  mh_length : Z;
}.

Record MuxFrame : Type := mk_MuxFrame {
  mf_header : MuxHeader;
  mf_payload : list Z;
}.

#[global] Instance MuxMode_eq_dec : EqDecision MuxMode.
Proof. solve_decision. Defined.
#[global] Instance MuxError_eq_dec : EqDecision MuxError.
Proof. solve_decision. Defined.
#[global] Instance MuxHeader_eq_dec : EqDecision MuxHeader.
Proof. solve_decision. Defined.
#[global] Instance MuxFrame_eq_dec : EqDecision MuxFrame.
Proof. solve_decision. Defined.

Definition MiniProtocolId_MAX : Z := 0x7FFF.
Definition HEADER_LEN : Z := 8.
Definition MAX_PAYLOAD : Z := u16_max.
Definition MODE_BIT : Z := 0x8000.
Definition ID_MASK : Z := 0x7FFF.

Definition MiniProtocolId_new (id : Z) : result Z MuxError :=
  if MiniProtocolId_MAX <? id then Err (InvalidMiniProtocolId id) else Ok id.

Definition encode_frame (f : MuxFrame) : result (list Z) MuxError :=
  let h := mf_header f in
  if MAX_PAYLOAD <? blen (mf_payload f) then Err (PayloadTooLarge (blen (mf_payload f))) else
  if negb (mh_length h =? blen (mf_payload f))
  then Err (Truncated (mh_length h) (blen (mf_payload f))) else
  let mode_bit := match mh_mode h with Initiator => 0 | Responder => MODE_BIT end in
  let id_word := Z.lor mode_bit (Z.land (mh_mini_protocol_id h) ID_MASK) in
  Ok (to_be 4 (mh_timestamp h) ++ to_be 2 id_word ++ to_be 2 (mh_length h) ++ mf_payload f).

(** [HEADER_LEN + length] fits a 64-bit [usize], so its [checked_add] never fails; it is
    kept, as the source has it. *)
Definition decode_frame (bytes : list Z) : result (MuxFrame * list Z) MuxError :=
  if blen bytes <? HEADER_LEN then Err (Truncated HEADER_LEN (blen bytes)) else
  let timestamp := from_be (slice bytes 0 4) in
  let id_word := from_be (slice bytes 4 6) in
  let mode := if negb (Z.land id_word MODE_BIT =? 0) then Responder else Initiator in
  let mini_protocol_id := Z.land id_word ID_MASK in
  let length := from_be (slice bytes 6 8) in
  let? payload_end := ok_or (checked_add HEADER_LEN length) (PayloadTooLarge length) in
  if blen bytes <? payload_end then Err (Truncated payload_end (blen bytes)) else
  Ok (mk_MuxFrame (mk_MuxHeader timestamp mode mini_protocol_id length)
        (slice bytes HEADER_LEN payload_end),
      slice bytes payload_end (blen bytes)).

(** * The frame buffer ([session/demux.rs]) *)

(** [FrameBuffer { pending }]. *)
Definition FrameBuffer : Type := list Z.

Definition buffer_append (pending bytes : list Z) : FrameBuffer := pending ++ bytes.

(** [pull_one_frame] also returns the buffer it leaves, unchanged when no frame is taken. *)
Definition pull_one_frame (pending : FrameBuffer) :
    result (option MuxFrame) MuxError * FrameBuffer :=
  if blen pending <? HEADER_LEN then (Ok None, pending) else
  match decode_frame pending with
  | Ok (frame, _) =>
      let consumed := HEADER_LEN + blen (mf_payload frame) in
      (Ok (Some frame), slice pending consumed (blen pending))
  | Err (Truncated _ _) => (Ok None, pending)
  | Err e => (Err e, pending)
  end.

(** The loop of [pull_all_complete_frames]; [None] is "out of fuel". *)
Fixpoint pull_frames (fuel : nat) (pending : FrameBuffer) (out : list MuxFrame) :
    option (result (list MuxFrame) MuxError * FrameBuffer) :=
  match fuel with
  | O => None
  | S fuel =>
      match pull_one_frame pending with
      | (Err e, rest) => Some (Err e, rest)
      | (Ok None, rest) => Some (Ok out, rest)
      | (Ok (Some f), rest) => pull_frames fuel rest (out ++ [f])
      end
  end.

(** Every frame takes at least its header, so one turn per byte and one more is enough. *)
Definition pull_all_complete_frames (pending : FrameBuffer) :
    result (list MuxFrame) MuxError * FrameBuffer :=
  match pull_frames (S (length pending)) pending [] with
  | Some r => r
  | None => (Ok [], pending)
  end.

(** * Frames and bytes *)

(** The values of the source's types: a [u32], a 15-bit id and a payload of bytes whose
    length is the header's. *)
Record frame_ok (f : MuxFrame) : Prop := {
  fo_timestamp : is_u32 (mh_timestamp (mf_header f));
  fo_id : 0 <= mh_mini_protocol_id (mf_header f) <= MiniProtocolId_MAX;
  fo_length : mh_length (mf_header f) = blen (mf_payload f);
  fo_bound : blen (mf_payload f) <= MAX_PAYLOAD;
  fo_bytes : bytes_ok (mf_payload f);
}.

Definition mode_bit (m : MuxMode) : Z := match m with Initiator => 0 | Responder => 1 end.

Lemma id_word_split m i w :
  0 <= i <= MiniProtocolId_MAX ->
  w = Z.lor (match m with Initiator => 0 | Responder => MODE_BIT end) (Z.land i ID_MASK) ->
  w = mode_bit m * 2 ^ 15 + i /\ Z.land w ID_MASK = i /\
  (if negb (Z.land w MODE_BIT =? 0) then Responder else Initiator) = m.
Proof.
  unfold MiniProtocolId_MAX, MODE_BIT, ID_MASK. intros Hi Heq.
  assert (Hland : Z.land i 0x7FFF = i).
  { change 0x7FFF with (2 ^ 15 - 1). rewrite land_ones_mod by lia. apply Z.mod_small. lia. }
  assert (Hw : w = mode_bit m * 2 ^ 15 + i).
  { rewrite Heq, Hland. destruct m; cbn [mode_bit]; [done|].
    change 0x8000 with (1 * 2 ^ 15). rewrite lor_add_disjoint by lia. done. }
  clear Heq. subst w. split_and!; [done| |].
  - change 0x7FFF with (2 ^ 15 - 1). rewrite land_ones_mod by lia.
    rewrite Z.add_comm, Z.mod_add by lia. apply Z.mod_small. lia.
  - assert (Hbit : Z.testbit (mode_bit m * 2 ^ 15 + i) 15 = match m with Initiator => false | Responder => true end).
    { rewrite <- lor_add_disjoint by lia. rewrite Z.lor_spec, (Z.bits_above_log2 i), orb_false_r.
      - by destruct m.
      - lia.
      - destruct (Z.eq_dec i 0) as [->|]; [done|]. apply Z.log2_lt_pow2; lia. }
    destruct (Z.eqb_spec (Z.land (mode_bit m * 2 ^ 15 + i) 0x8000) 0) as [E|E]; cbn [negb].
    + assert (Hf : Z.testbit (Z.land (mode_bit m * 2 ^ 15 + i) 0x8000) 15 = false) by (by rewrite E).
      rewrite Z.land_spec, Hbit in Hf. by destruct m.
    + destruct m; [|done]. exfalso. apply E. apply Z.bits_inj'. intros n Hn.
      rewrite Z.land_spec, Z.bits_0. change 0x8000 with (2 ^ 15).
      destruct (Z.eq_dec n 15) as [->|]; [by rewrite Hbit|].
      rewrite Z.pow2_bits_false by lia. apply andb_false_r.
Qed.

(** What [decode_frame] makes of a header cut at its fields and a payload of the length
    the header gives. *)
Lemma decode_frame_parts ts iw ln p rest :
  blen ts = 4 -> blen iw = 2 -> blen ln = 2 -> from_be ln = blen p -> blen p <= MAX_PAYLOAD ->
  decode_frame (ts ++ iw ++ ln ++ p ++ rest) =
    Ok (mk_MuxFrame
          (mk_MuxHeader (from_be ts)
             (if negb (Z.land (from_be iw) MODE_BIT =? 0) then Responder else Initiator)
             (Z.land (from_be iw) ID_MASK) (blen p)) p, rest).
Proof.
  intros Ht Hi Hl Hf Hp. unfold decode_frame, MAX_PAYLOAD, u16_max, HEADER_LEN in *.
  pose proof (blen_nonneg p). pose proof (blen_nonneg rest).
  assert (Hlen : blen (ts ++ iw ++ ln ++ p ++ rest) = 8 + blen p + blen rest)
    by (rewrite !blen_app; lia).
  rewrite Hlen. destruct (Z.ltb_spec (8 + blen p + blen rest) 8); [lia|].
  set (d := ts ++ iw ++ ln ++ p ++ rest) in *.
  assert (S1 : slice d 0 4 = ts) by (apply (slice_at [] ts (iw ++ ln ++ p ++ rest)); unfold blen in *; cbn [length]; lia).
  assert (S2 : slice d 4 6 = iw) by (apply (slice_at ts iw (ln ++ p ++ rest)); lia).
  assert (S3 : slice d 6 8 = ln).
  { replace d with ((ts ++ iw) ++ ln ++ p ++ rest) by (unfold d; by rewrite <- !app_assoc).
    apply slice_at; rewrite !blen_app; lia. }
  assert (S4 : slice d 8 (8 + blen p) = p).
  { replace d with ((ts ++ iw ++ ln) ++ p ++ rest) by (unfold d; by rewrite <- !app_assoc).
    apply slice_at; rewrite !blen_app; lia. }
  assert (S5 : slice d (8 + blen p) (8 + blen p + blen rest) = rest).
  { replace d with ((ts ++ iw ++ ln ++ p) ++ rest ++ []) by (unfold d; by rewrite app_nil_r, <- !app_assoc).
    apply slice_at; rewrite !blen_app; lia. }
  rewrite S1, S2, S3, Hf, checked_add_fits by (width; lia). cbn [ok_or rbind].
  destruct (Z.ltb_spec (8 + blen p + blen rest) (8 + blen p)); [lia|]. by rewrite S4, S5.
Qed.

Lemma id_word_join w :
  is_u16 w -> exists m i, 0 <= i <= MiniProtocolId_MAX /\
    w = Z.lor (match m with Initiator => 0 | Responder => MODE_BIT end) (Z.land i ID_MASK).
Proof.
  intros Hw. exists (if w / 2 ^ 15 =? 0 then Initiator else Responder), (w mod 2 ^ 15).
  pose proof (Z.mod_pos_bound w (2 ^ 15) eq_refl) as Hm.
  assert (Hi : 0 <= w mod 2 ^ 15 <= MiniProtocolId_MAX) by (unfold MiniProtocolId_MAX; lia).
  split; [done|].
  destruct (id_word_split (if w / 2 ^ 15 =? 0 then Initiator else Responder) _ _ Hi eq_refl) as [E _].
  rewrite E. pose proof (Z.div_mod w (2 ^ 15)) as Hdm.
  assert (0 <= w / 2 ^ 15 < 2) by (split; [apply Z.div_pos|apply Z.div_lt_upper_bound]; width; lia).
  destruct (Z.eqb_spec (w / 2 ^ 15) 0); cbn [mode_bit]; lia.
Qed.

(** The bytes of a frame: its three header words and its payload. *)
Definition frame_bytes (f : MuxFrame) : list Z :=
  to_be 4 (mh_timestamp (mf_header f)) ++
  to_be 2 (mode_bit (mh_mode (mf_header f)) * 2 ^ 15 + mh_mini_protocol_id (mf_header f)) ++
  to_be 2 (blen (mf_payload f)) ++ mf_payload f.

#[global] Arguments frame_bytes : simpl never.

Lemma encode_frame_bytes f : frame_ok f -> encode_frame f = Ok (frame_bytes f).
Proof.
  intros [Ht Hi Hl Hb Hok]. unfold encode_frame, frame_bytes.
  destruct (Z.ltb_spec MAX_PAYLOAD (blen (mf_payload f))); [lia|].
  rewrite Hl, Z.eqb_refl. cbn [negb].
  by rewrite (proj1 (id_word_split _ _ _ Hi eq_refl)).
Qed.

Lemma frame_bytes_ok f : frame_ok f ->
  blen (frame_bytes f) = HEADER_LEN + blen (mf_payload f) /\ bytes_ok (frame_bytes f).
Proof.
  intros [Ht Hi Hl Hb Hok]. unfold frame_bytes, HEADER_LEN. rewrite !blen_app, !blen_to_be.
  split; [lia|]. rewrite !bytes_ok_app. auto 10 using to_be_ok.
Qed.

Lemma decode_frame_bytes f rest :
  frame_ok f -> decode_frame (frame_bytes f ++ rest) = Ok (f, rest).
Proof.
  intros [Ht Hi Hl Hb Hok]. unfold frame_bytes. rewrite <- !app_assoc.
  destruct (id_word_split (mh_mode (mf_header f)) _ _ Hi eq_refl) as (Hw & Hid & Hm).
  rewrite Hw in Hid, Hm. set (w := mode_bit _ * _ + _) in *.
  assert (Hwb : is_u16 w).
  { unfold w, MiniProtocolId_MAX in *. destruct (mh_mode (mf_header f)); cbn [mode_bit]; width; lia. }
  pose proof (blen_nonneg (mf_payload f)).
  assert (Hu : is_u16 (blen (mf_payload f))) by (unfold MAX_PAYLOAD in Hb; split; lia).
  rewrite decode_frame_parts; [|by rewrite blen_to_be..|by rewrite from_to_be_u16|done].
  rewrite from_to_be_u32, from_to_be_u16, Hid, Hm by done.
  destruct f as [[ts m i len] p]; cbn in Hl |- *. by rewrite Hl.
Qed.

Lemma bytes_ok_slice data a b : bytes_ok data -> bytes_ok (slice data a b).
Proof. intros H. unfold slice. by apply Forall_take, Forall_drop. Qed.

Lemma to_be_slice data a b :
  bytes_ok data -> 0 <= a <= b -> b <= blen data ->
  to_be (Z.to_nat (b - a)) (from_be (slice data a b)) = slice data a b.
Proof.
  intros Hok Ha Hb. rewrite <- (to_from_be (slice data a b)) at 2 by by apply bytes_ok_slice.
  f_equal. pose proof (blen_slice data a b Ha Hb) as E. unfold blen in E. lia.
Qed.

(** A decoded frame is a frame of the source's types, and its bytes and the remainder are
    the input. *)
Lemma decode_frame_inv bytes f rest :
  bytes_ok bytes -> decode_frame bytes = Ok (f, rest) ->
  frame_ok f /\ bytes = frame_bytes f ++ rest.
Proof.
  intros Hok H. unfold decode_frame in H.
  destruct (Z.ltb_spec (blen bytes) HEADER_LEN) as [|Hh]; [done|].
  set (ln := from_be (slice bytes 6 8)) in *.
  assert (Hln : 0 <= ln < 256 ^ 2).
  { pose proof (from_be_bound _ (bytes_ok_slice bytes 6 8 Hok)) as Hb.
    rewrite blen_slice in Hb by (unfold HEADER_LEN in Hh; lia). exact Hb. }
  unfold HEADER_LEN in *. rewrite checked_add_fits in H by (width; lia). cbn [ok_or rbind] in H.
  destruct (Z.ltb_spec (blen bytes) (8 + ln)) as [|Hp]; [done|]. injection H as <- <-.
  assert (Hcut : bytes = slice bytes 0 4 ++ slice bytes 4 6 ++ slice bytes 6 8
                   ++ slice bytes 8 (8 + ln) ++ slice bytes (8 + ln) (blen bytes)).
  { rewrite !slice_join by lia. by rewrite slice_all. }
  assert (Hid : is_u16 (from_be (slice bytes 4 6))).
  { pose proof (from_be_bound _ (bytes_ok_slice bytes 4 6 Hok)) as Hb.
    rewrite blen_slice in Hb by lia. change (256 ^ (6 - 4)) with 65536 in Hb. width; lia. }
  assert (Hts : is_u32 (from_be (slice bytes 0 4))).
  { pose proof (from_be_bound _ (bytes_ok_slice bytes 0 4 Hok)) as Hb.
    rewrite blen_slice in Hb by lia. change (256 ^ (4 - 0)) with 4294967296 in Hb. width; lia. }
  assert (Hpl : blen (slice bytes 8 (8 + ln)) = ln) by (rewrite blen_slice by lia; lia).
  change (256 ^ 2) with 65536 in Hln.
  destruct (id_word_join _ Hid) as (m & i & Hi & Hw).
  destruct (id_word_split m i _ Hi Hw) as (Hv & -> & ->).
  set (f := mk_MuxFrame _ _).
  assert (Hf : frame_ok f).
  { split; cbn; unfold MAX_PAYLOAD; width; [lia|done|lia|lia|by apply bytes_ok_slice]. }
  split; [done|]. rewrite Hcut at 1. rewrite !app_assoc. f_equal. unfold frame_bytes.
  subst f. cbn [mf_header mf_payload mh_timestamp mh_mode mh_mini_protocol_id mh_length].
  rewrite Hpl, <- Hv, <- !app_assoc. unfold ln.
  assert (E1 := to_be_slice bytes 0 4 Hok ltac:(lia) ltac:(lia)).
  assert (E2 := to_be_slice bytes 4 6 Hok ltac:(lia) ltac:(lia)).
  assert (E3 := to_be_slice bytes 6 8 Hok ltac:(lia) ltac:(lia)).
  change (Z.to_nat (4 - 0)) with 4%nat in E1. change (Z.to_nat (6 - 4)) with 2%nat in E2.
  change (Z.to_nat (8 - 6)) with 2%nat in E3. by rewrite E1, E2, E3.
Qed.

(** Frames and their bytes determine each other. Every frame of the source's types is
    encoded, to eight header bytes and the payload, and decoding it in front of any further
    bytes gives back the frame and those bytes; and whatever decodes is such a frame, whose
    encoding is exactly the consumed bytes. *)
Theorem frame_roundtrip f bytes rest :
  bytes_ok bytes ->
  (frame_ok f -> exists b, encode_frame f = Ok b /\ blen b = HEADER_LEN + blen (mf_payload f) /\
     decode_frame (b ++ rest) = Ok (f, rest)) /\
  (decode_frame bytes = Ok (f, rest) ->
     frame_ok f /\ exists b, encode_frame f = Ok b /\ bytes = b ++ rest).
Proof.
  intros Hok. split.
  - intros Hf. exists (frame_bytes f).
    split_and!; [by apply encode_frame_bytes | by apply frame_bytes_ok | by apply decode_frame_bytes].
  - intros H. destruct (decode_frame_inv _ _ _ Hok H) as [Hf E].
    split; [done|]. exists (frame_bytes f). auto using encode_frame_bytes.
Qed.

(** * Cutting a stream into frames *)

(** No complete frame stands at the head of the buffer. *)
Definition incomplete (pending : list Z) : Prop :=
  forall f rest, frame_ok f -> pending <> frame_bytes f ++ rest.

Lemma pull_frame_head f rest :
  frame_ok f -> pull_one_frame (frame_bytes f ++ rest) = (Ok (Some f), rest).
Proof.
  intros Hf. destruct (frame_bytes_ok f Hf) as [Hlen _].
  unfold pull_one_frame. rewrite decode_frame_bytes by done.
  pose proof (blen_nonneg (mf_payload f)). pose proof (blen_nonneg rest).
  rewrite blen_app. destruct (Z.ltb_spec (blen (frame_bytes f) + blen rest) HEADER_LEN); [lia|].
  do 2 f_equal. rewrite <- Hlen. rewrite <- (app_nil_r rest) at 1.
  apply slice_at; [done|]. lia.
Qed.

(** [pull_one_frame] takes the frame at the head when there is one, and otherwise leaves
    the buffer, which is then shorter than the largest frame; it never fails. *)
Lemma pull_one_frame_cases pending :
  bytes_ok pending ->
  (exists f rest, frame_ok f /\ pending = frame_bytes f ++ rest /\
     pull_one_frame pending = (Ok (Some f), rest)) \/
  (incomplete pending /\ blen pending < HEADER_LEN + MAX_PAYLOAD /\
     pull_one_frame pending = (Ok None, pending)).
Proof.
  intros Hok.
  destruct (decode_frame pending) as [[f rest]|e] eqn:E.
  { destruct (decode_frame_inv _ _ _ Hok E) as [Hf ->]. left. exists f, rest.
    auto using pull_frame_head. }
  right. split.
  { intros f rest Hf ->. by rewrite decode_frame_bytes in E. }
  unfold pull_one_frame. rewrite E. unfold decode_frame, HEADER_LEN, MAX_PAYLOAD in *.
  destruct (Z.ltb_spec (blen pending) 8); [width; split; [lia|done]|].
  assert (Hln : 0 <= from_be (slice pending 6 8) < 65536).
  { pose proof (from_be_bound _ (bytes_ok_slice pending 6 8 Hok)) as Hb.
    rewrite blen_slice in Hb by lia. exact Hb. }
  rewrite checked_add_fits in E by (width; lia). cbn [ok_or rbind] in E.
  destruct (Z.ltb_spec (blen pending) (8 + from_be (slice pending 6 8))); [|done].
  injection E as <-. width. split; [lia|done].
Qed.

Lemma incomplete_nil : incomplete [].
Proof.
  intros f rest Hf H. apply (f_equal blen) in H. rewrite blen_app in H.
  destruct (frame_bytes_ok f Hf) as [Hlen _]. unfold HEADER_LEN in *.
  pose proof (blen_nonneg (mf_payload f)). pose proof (blen_nonneg rest). rewrite blen_nil in H. lia.
Qed.

Lemma pull_frames_spec fuel pending out :
  bytes_ok pending -> (length pending < fuel)%nat ->
  exists fs rest, pull_frames fuel pending out = Some (Ok (out ++ fs), rest) /\
    Forall frame_ok fs /\ pending = concat (map frame_bytes fs) ++ rest /\ incomplete rest /\
    blen rest < HEADER_LEN + MAX_PAYLOAD.
Proof.
  revert pending out. induction fuel as [|fuel IH]; intros pending out Hok Hfuel; [lia|].
  cbn [pull_frames].
  destruct (pull_one_frame_cases pending Hok) as [(f & rest & Hf & -> & ->)|(Hi & Hb & ->)].
  - destruct (frame_bytes_ok f Hf) as [Hlen _]. rewrite length_app in Hfuel.
    pose proof (blen_nonneg (mf_payload f)). unfold blen, HEADER_LEN in *.
    apply bytes_ok_app in Hok as [_ Hrest].
    destruct (IH rest (out ++ [f]) Hrest) as (fs & r & -> & Hfs & -> & Hi & Hb); [lia|].
    exists (f :: fs), r. cbn. rewrite <- !app_assoc. auto.
  - exists [], pending. rewrite app_nil_r. cbn. auto.
Qed.

(** A stream has one decomposition into frames and an incomplete rest. *)
Lemma frames_unique fs : forall fs' rest rest',
  Forall frame_ok fs -> Forall frame_ok fs' -> incomplete rest -> incomplete rest' ->
  concat (map frame_bytes fs) ++ rest = concat (map frame_bytes fs') ++ rest' ->
  fs = fs' /\ rest = rest'.
Proof.
  induction fs as [|f fs IH]; intros [|f' fs'] rest rest' Hfs Hfs' Hi Hi' H; cbn in *; [done|..].
  - apply Forall_cons in Hfs' as [Hf _]. exfalso. rewrite <- app_assoc in H. exact (Hi _ _ Hf H).
  - apply Forall_cons in Hfs as [Hf _]. exfalso. rewrite <- app_assoc in H. exact (Hi' _ _ Hf (eq_sym H)).
  - apply Forall_cons in Hfs as [Hf Hfs]. apply Forall_cons in Hfs' as [Hf' Hfs'].
    rewrite <- !app_assoc in H.
    pose proof (pull_frame_head f (concat (map frame_bytes fs) ++ rest)) as E.
    rewrite H, pull_frame_head in E by done.
    injection (E ltac:(done)) as -> Hr. destruct (IH fs' rest rest') as [-> ->]; auto.
Qed.

Lemma pull_all_spec pending :
  bytes_ok pending ->
  exists fs rest, pull_all_complete_frames pending = (Ok fs, rest) /\
    Forall frame_ok fs /\ pending = concat (map frame_bytes fs) ++ rest /\ incomplete rest /\
    blen rest < HEADER_LEN + MAX_PAYLOAD.
Proof.
  intros Hok. unfold pull_all_complete_frames.
  destruct (pull_frames_spec (S (length pending)) pending [] Hok) as (fs & rest & -> & H); [lia|].
  eauto.
Qed.

(** Demultiplexing does not depend on how the stream was cut: feeding a buffer two
    chunks and pulling after each yields the frames, in order, and the rest that feeding
    it both at once yields; pulling never fails and always ends, and keeps back less than
    one largest frame. *)
Theorem frame_buffer_chunking pending a b :
  bytes_ok pending -> bytes_ok a -> bytes_ok b ->
  exists fa ra fb rb,
    pull_all_complete_frames (buffer_append pending a) = (Ok fa, ra) /\
    pull_all_complete_frames (buffer_append ra b) = (Ok fb, rb) /\
    pull_all_complete_frames (buffer_append pending (a ++ b)) = (Ok (fa ++ fb), rb) /\
    pending ++ a ++ b = concat (map frame_bytes (fa ++ fb)) ++ rb /\
    blen rb < HEADER_LEN + MAX_PAYLOAD.
Proof.
  unfold buffer_append. intros Hp Ha Hb.
  destruct (pull_all_spec (pending ++ a)) as (fa & ra & Ea & Hfa & Ca & Ia & _); [by apply bytes_ok_app|].
  assert (Hra : bytes_ok ra).
  { assert (bytes_ok (pending ++ a)) as Hpa by by apply bytes_ok_app.
    rewrite Ca in Hpa. by apply bytes_ok_app in Hpa as [_ ?]. }
  destruct (pull_all_spec (ra ++ b)) as (fb & rb & Eb & Hfb & Cb & Ib & Bb); [by apply bytes_ok_app|].
  destruct (pull_all_spec (pending ++ a ++ b)) as (fs & rest & E & Hfs & C & I & _);
    [by rewrite !bytes_ok_app|].
  assert (Hcut : pending ++ a ++ b = concat (map frame_bytes (fa ++ fb)) ++ rb).
  { rewrite app_assoc, Ca, <- app_assoc, Cb, map_app, concat_app. by rewrite app_assoc. }
  destruct (frames_unique fs (fa ++ fb) rest rb) as [-> ->]; [done|by apply Forall_app|done..|congruence|].
  exists fa, ra, fb, rb. auto.
Qed.

Definition sample_frame : MuxFrame := mk_MuxFrame (mk_MuxHeader 5 Responder 8 2) [0x81; 0].

Lemma sample_frame_ok : frame_ok sample_frame.
Proof.
  split; cbn; [width; lia|unfold MiniProtocolId_MAX; lia|reflexivity|vm_compute; congruence
    |repeat constructor; vm_compute; congruence].
Qed.

Lemma frame_roundtrip_witness :
  (exists b, encode_frame sample_frame = Ok b /\ blen b = 10 /\ decode_frame (b ++ [1; 2]) = Ok (sample_frame, [1; 2])) /\
  (exists b, encode_frame sample_frame = Ok b /\ [0; 0; 0; 5; 0x80; 8; 0; 2; 0x81; 0; 1; 2] = b ++ [1; 2]).
Proof.
  destruct (frame_roundtrip sample_frame [0; 0; 0; 5; 0x80; 8; 0; 2; 0x81; 0; 1; 2] [1; 2]
    ltac:(repeat constructor; vm_compute; congruence)) as [H1 H2].
  split; [exact (H1 sample_frame_ok)|].
  apply H2. vm_compute. reflexivity.
Defined.

Lemma frame_buffer_chunking_witness :
  exists fa ra fb rb,
    pull_all_complete_frames (buffer_append [] [0; 0; 0; 5; 0x80; 8; 0]) = (Ok fa, ra) /\
    pull_all_complete_frames (buffer_append ra [2; 0x81; 0; 1]) = (Ok fb, rb) /\
    pull_all_complete_frames (buffer_append [] ([0; 0; 0; 5; 0x80; 8; 0] ++ [2; 0x81; 0; 1])) = (Ok (fa ++ fb), rb) /\
    [0; 0; 0; 5; 0x80; 8; 0] ++ [2; 0x81; 0; 1] = concat (map frame_bytes (fa ++ fb)) ++ rb /\
    blen rb < HEADER_LEN + MAX_PAYLOAD.
Proof.
  exact (frame_buffer_chunking [] [0; 0; 0; 5; 0x80; 8; 0] [2; 0x81; 0; 1] (Forall_nil_2 _)
    ltac:(repeat constructor; vm_compute; congruence) ltac:(repeat constructor; vm_compute; congruence)).
Defined.
