(* ===== verification/NetCodec.v ===== *)
(** The decoding and encoding helpers the mini-protocol codecs share:
    [ade_network/src/codec/error.rs] and [codec/primitives.rs], over the CBOR primitives.

    A decoder of this layer is an [NDec]: it returns its result and the final offset, and
    its failures are [Failed e] for an error of the source and [Panicked] where the source
    would panic (a [Vec] capacity above [isize::MAX] bytes). [reads m bytes a] says that
    [m] reads [a] off [bytes] wherever they stand in the input; the round trips of the
    codecs are compositions of [reads]. *)

From S2P Require Import Prelude Cbor CborSkip CborRoundtrip.

(** * Errors ([codec/error.rs]) *)

Inductive ProtocolKind : Type :=
| Kind_Handshake | Kind_ChainSync | Kind_BlockFetch | Kind_TxSubmission2 | Kind_KeepAlive
| Kind_PeerSharing | Kind_N2cHandshake | Kind_LocalChainSync | Kind_LocalTxSubmission
| Kind_LocalStateQuery | Kind_LocalTxMonitor.

Inductive NetCodecError : Type :=
| Net_Truncated (needed got : Z)
| UnknownTag (protocol : ProtocolKind) (tag : Z)
| InvalidUtf8 (protocol : ProtocolKind) (field : string)
| InvalidProtocolMessage (protocol : ProtocolKind) (reason : string)
| InvalidIntegerRange (protocol : ProtocolKind) (field : string) (value : Z)
| MalformedCbor (protocol : ProtocolKind) (source : CodecError).

Inductive Fault (E : Type) : Type :=
| Failed (e : E)
| Panicked.
Arguments Failed {E} e.
Arguments Panicked {E}.

#[global] Instance ProtocolKind_eq_dec : EqDecision ProtocolKind.
Proof. solve_decision. Defined.
#[global] Instance NetCodecError_eq_dec : EqDecision NetCodecError.
Proof. solve_decision. Defined.
#[global] Instance Fault_eq_dec {E} `{EqDecision E} : EqDecision (Fault E).
Proof. solve_decision. Defined.

(** * The decoder monad of this layer *)

Definition NDec (A : Type) : Type := list Z -> Z -> result A (Fault NetCodecError) * Z.

Definition nret {A} (a : A) : NDec A := fun _ off => (Ok a, off).
Definition nfail {A} (e : NetCodecError) : NDec A := fun _ off => (Err (Failed e), off).
Definition nhere : NDec Z := fun _ off => (Ok off, off).
Definition nbind {A B} (m : NDec A) (k : A -> NDec B) : NDec B :=
  fun data off =>
    match m data off with
    | (Ok a, off') => k a data off'
    | (Err e, off') => (Err e, off')
    end.

Notation "'net!' x ':=' m 'in' k" := (nbind m (fun x => k))
  (at level 10, x pattern, m at level 100, k at level 200) : ade_scope.

(** [for _ in 0..n { body }], collecting the results. *)
Fixpoint nrepeat {A} (n : nat) (body : NDec A) : NDec (list A) :=
  match n with
  | O => nret []
  | S n => net! x := body in net! xs := nrepeat n body in nret (x :: xs)
  end.

Definition isize_max : Z := 9223372036854775807.

(** [Vec::with_capacity(n)] for elements of [size] bytes. *)
Definition with_capacity (size n : Z) : NDec unit :=
  fun _ off => if isize_max <? size * n then (Err Panicked, off) else (Ok tt, off).

(** * Decode helpers ([codec/primitives.rs]) *)

Definition lift {A} (protocol : ProtocolKind) (m : Dec A) : NDec A := fun data off =>
  match m data off with
  | (Ok a, off') => (Ok a, off')
  | (Err e, off') => (Err (Failed (MalformedCbor protocol e)), off')
  end.

Definition decode_array_header (protocol : ProtocolKind) : NDec Z :=
  net! enc := lift protocol read_array_header in
  match enc with
  | Definite count _ => nret count
  | Indefinite => nfail (InvalidProtocolMessage protocol "indefinite-length array not allowed")
  end.

Definition decode_array_of_len (protocol : ProtocolKind) (expected : Z) : NDec unit :=
  net! got := decode_array_header protocol in
  if negb (got =? expected) then nfail (InvalidProtocolMessage protocol "wrong array length")
  else nret tt.

Inductive ArrayHead : Type := Head_Definite (count : Z) | Head_Indefinite.

Definition decode_array_head_two_form (protocol : ProtocolKind) : NDec ArrayHead :=
  net! enc := lift protocol read_array_header in
  nret (match enc with Definite count _ => Head_Definite count | Indefinite => Head_Indefinite end).

Definition try_consume_break : NDec bool := fun data off =>
  if bool_decide (byte_at data off = Some 0xff) then (Ok true, off + 1) else (Ok false, off).

Definition decode_u64 (protocol : ProtocolKind) : NDec Z :=
  net! (val, _) := lift protocol read_uint in nret val.

Definition decode_u16 (protocol : ProtocolKind) (field : string) : NDec Z :=
  net! v := decode_u64 protocol in
  if u16_max <? v then nfail (InvalidIntegerRange protocol field v) else nret (as_u16 v).

Definition decode_u32 (protocol : ProtocolKind) (field : string) : NDec Z :=
  net! v := decode_u64 protocol in
  if u32_max <? v then nfail (InvalidIntegerRange protocol field v) else nret (as_u32 v).

Definition decode_bytes (protocol : ProtocolKind) : NDec (list Z) :=
  net! (bytes, _) := lift protocol read_bytes in nret bytes.

Definition decode_text (utf8_valid : list Z -> bool) (protocol : ProtocolKind) (field : string) :
    NDec (list Z) := fun data off =>
  match read_text utf8_valid data off with
  | (Ok (s, _), off') => (Ok s, off')
  | (Err (InvalidCborStructure o detail), off') =>
      if bool_decide (detail = "invalid UTF-8 in text string"%string)
      then (Err (Failed (InvalidUtf8 protocol field)), off')
      else (Err (Failed (MalformedCbor protocol (InvalidCborStructure o detail))), off')
  | (Err source, off') => (Err (Failed (MalformedCbor protocol source)), off')
  end.

Definition decode_bool (protocol : ProtocolKind) : NDec bool := lift protocol read_bool.

Definition require_consumed (protocol : ProtocolKind) : NDec unit := fun data off =>
  if negb (off =? blen data)
  then (Err (Failed (InvalidProtocolMessage protocol "trailing bytes after message")), off)
  else (Ok tt, off).

(** [skip_item] followed by [data[start..end].to_vec()], as the codecs capture an opaque
    item. *)
Definition decode_raw_item (protocol : ProtocolKind) : NDec (list Z) :=
  net! start := nhere in
  net! (_, e) := lift protocol skip_item in
  fun data off => (Ok (slice data start e), off).

(** * Encode helpers *)

Definition encode_array_header (buf : list Z) (len : Z) : list Z :=
  write_array_header buf (Definite len (canonical_width len)).
Definition encode_u64 (buf : list Z) (value : Z) : list Z := write_uint_canonical buf value.
Definition encode_bytes (buf bytes : list Z) : list Z := write_bytes_canonical buf bytes.
Definition encode_text (buf text : list Z) : list Z := write_text_canonical buf text.
Definition encode_bool (buf : list Z) (b : bool) : list Z := write_bool buf b.

(** * Reading back what was written *)

(** [m] reads [a] off [bytes], whatever stands before and after them. *)
Definition reads {A E} (m : list Z -> Z -> result A E * Z) (bytes : list Z) (a : A) : Prop :=
  forall pre post, bytes_ok (pre ++ bytes ++ post) -> blen (pre ++ bytes ++ post) <= u64_max ->
    m (pre ++ bytes ++ post) (blen pre) = (Ok a, blen pre + blen bytes).

Lemma reads_ret {A} (a : A) : reads (nret a) [] a.
Proof. intros pre post _ _. unfold nret. cbn. by rewrite Z.add_0_r. Qed.

Lemma reads_bind {A B} (m : NDec A) (k : A -> NDec B) b1 b2 a b :
  reads m b1 a -> reads (k a) b2 b -> reads (nbind m k) (b1 ++ b2) b.
Proof.
  intros Hm Hk pre post Hok Hl. unfold nbind. rewrite <- app_assoc in *.
  rewrite Hm by done. rewrite blen_app, Z.add_assoc, <- blen_app.
  rewrite app_assoc in *. by apply Hk.
Qed.

(** Binding a computation that reads nothing. *)
Lemma reads_bind_nil {A B} (m : NDec A) (k : A -> NDec B) a bytes b :
  reads m [] a -> reads (k a) bytes b -> reads (nbind m k) bytes b.
Proof. intros Hm Hk. exact (reads_bind m k [] bytes a b Hm Hk). Qed.

Lemma reads_end {A B} (m : NDec A) (k : A -> NDec B) bytes a b :
  reads m bytes a -> reads (k a) [] b -> reads (nbind m k) bytes b.
Proof. intros Hm Hk. rewrite <- (app_nil_r bytes). by eapply reads_bind. Qed.

Lemma reads_lift {A} protocol (m : Dec A) bytes a : reads m bytes a -> reads (lift protocol m) bytes a.
Proof. intros Hm pre post Hok Hl. unfold lift. by rewrite Hm. Qed.

Lemma reads_repeat {A} (body : NDec A) (bytes : A -> list Z) (l : list A) :
  Forall (fun x => reads body (bytes x) x) l ->
  reads (nrepeat (length l) body) (concat (map bytes l)) l.
Proof.
  induction 1 as [|x l Hx _ IH]; cbn [length nrepeat map concat]; [apply reads_ret|].
  eapply reads_bind; [done|]. eapply reads_end; [done|apply reads_ret].
Qed.

Lemma reads_capacity size n : size * n <= isize_max -> reads (with_capacity size n) [] tt.
Proof.
  intros H pre post _ _. unfold with_capacity. destruct (Z.ltb_spec isize_max (size * n)); [lia|].
  cbn. by rewrite Z.add_0_r.
Qed.

(** The bytes an encoder appends. *)
Definition argument_bytes (major v : Z) : list Z :=
  Z.lor (as_u8 (Z.shiftl major 5)) (width_ai v (canonical_width v))
    :: to_be (width_len (canonical_width v)) v.
#[global] Arguments argument_bytes : simpl never.

Lemma write_canonical buf major v :
  is_u64 v -> write_argument buf major v (canonical_width v) = buf ++ argument_bytes major v.
Proof. intros Hv. by rewrite write_argument_bytes by by apply canonical_width_fits. Qed.

Lemma encode_u64_bytes buf v : is_u64 v -> encode_u64 buf v = buf ++ argument_bytes MAJOR_UNSIGNED v.
Proof. apply write_canonical. Qed.
Lemma encode_array_header_bytes buf n :
  is_u64 n -> encode_array_header buf n = buf ++ argument_bytes MAJOR_ARRAY n.
Proof. apply write_canonical. Qed.
Lemma encode_text_bytes buf s :
  is_u64 (blen s) -> encode_text buf s = buf ++ argument_bytes MAJOR_TEXT (blen s) ++ s.
Proof.
  intros Hs. unfold encode_text, write_text_canonical. rewrite write_canonical by done.
  by rewrite app_assoc.
Qed.
Lemma encode_bytes_bytes buf s :
  is_u64 (blen s) -> encode_bytes buf s = buf ++ argument_bytes MAJOR_BYTES (blen s) ++ s.
Proof.
  intros Hs. unfold encode_bytes, write_bytes_canonical. rewrite write_canonical by done.
  by rewrite app_assoc.
Qed.

Lemma argument_bytes_ok major v : 0 <= major < 8 -> is_u64 v -> bytes_ok (argument_bytes major v).
Proof.
  intros Hm Hv. constructor; [|apply to_be_ok].
  apply initial_byte_ok; [done|]. by apply width_ai_bound, canonical_width_fits.
Qed.

(** A reader applied to what a writer appends, from the lemmas of [CborRoundtrip]. *)
Lemma reads_written {A} (m : Dec A) (write : list Z -> list Z) bytes a :
  (forall buf, write buf = buf ++ bytes) ->
  (forall buf post, blen (write buf ++ post) <= u64_max ->
     m (write buf ++ post) (blen buf) = (Ok a, blen (write buf))) ->
  reads m bytes a.
Proof.
  intros Hw Hm pre post _ Hl. rewrite app_assoc, <- Hw in *. rewrite Hm by done.
  by rewrite Hw, blen_app.
Qed.

Lemma reads_uint v :
  is_u64 v -> reads read_uint (argument_bytes MAJOR_UNSIGNED v) (v, canonical_width v).
Proof.
  intros Hv. apply (reads_written _ (fun buf => write_uint buf v (canonical_width v))).
  - intros buf. by apply write_canonical.
  - intros buf post _. by apply read_uint_written, canonical_width_fits.
Qed.

Lemma reads_array_header n :
  is_u64 n -> reads read_array_header (argument_bytes MAJOR_ARRAY n) (Definite n (canonical_width n)).
Proof.
  intros Hn. apply (reads_written _ (fun buf => write_array_header buf (Definite n (canonical_width n)))).
  - intros buf. by apply write_canonical.
  - intros buf post _. apply read_array_header_written. by apply canonical_width_fits.
Qed.

Lemma reads_map_header n :
  is_u64 n -> reads read_map_header (argument_bytes MAJOR_MAP n) (Definite n (canonical_width n)).
Proof.
  intros Hn. apply (reads_written _ (fun buf => write_map_header buf (Definite n (canonical_width n)))).
  - intros buf. by apply write_canonical.
  - intros buf post _. apply read_map_header_written. by apply canonical_width_fits.
Qed.

Lemma reads_decode_array_header protocol n :
  is_u64 n -> reads (decode_array_header protocol) (argument_bytes MAJOR_ARRAY n) n.
Proof.
  intros Hn. eapply reads_end; [by apply reads_lift, reads_array_header|apply reads_ret].
Qed.

Lemma reads_decode_u64 protocol v :
  is_u64 v -> reads (decode_u64 protocol) (argument_bytes MAJOR_UNSIGNED v) v.
Proof. intros Hv. eapply reads_end; [by apply reads_lift, reads_uint|apply reads_ret]. Qed.

Lemma reads_decode_u32 protocol field v :
  is_u32 v -> reads (decode_u32 protocol field) (argument_bytes MAJOR_UNSIGNED v) v.
Proof.
  intros Hv. eapply reads_end; [apply reads_decode_u64; width; lia|].
  destruct (Z.ltb_spec u32_max v); [width; lia|].
  unfold as_u32. rewrite Z.mod_small by (width; lia). apply reads_ret.
Qed.

Lemma reads_decode_u16 protocol field v :
  is_u16 v -> reads (decode_u16 protocol field) (argument_bytes MAJOR_UNSIGNED v) v.
Proof.
  intros Hv. eapply reads_end; [apply reads_decode_u64; width; lia|].
  destruct (Z.ltb_spec u16_max v); [width; lia|].
  unfold as_u16. rewrite Z.mod_small by (width; lia). apply reads_ret.
Qed.

(** An opaque item: exactly one CBOR item, as [skip_item] delimits it. *)
Definition one_item (bytes : list Z) : Prop := bytes_ok bytes /\ item bytes 0 (blen bytes).

Lemma reads_raw_item protocol bytes : one_item bytes -> reads (decode_raw_item protocol) bytes bytes.
Proof.
  intros [Hok Hi] pre post Hall Hl. unfold decode_raw_item, nbind, nhere, lift.
  apply (item_extend pre bytes post) in Hi; [|done..]. rewrite Z.add_0_r in Hi.
  rewrite (item_skip _ _ _ Hall (blen_nonneg pre) Hi). cbn. by rewrite slice_app.
Qed.

Lemma reads_text utf8_valid s :
  is_u64 (blen s) -> utf8_valid s = true ->
  reads (read_text utf8_valid) (argument_bytes MAJOR_TEXT (blen s) ++ s) (s, canonical_width (blen s)).
Proof.
  intros Hs Hu.
  apply (reads_written _ (fun buf => write_text_canonical buf s)).
  { intros buf. by apply encode_text_bytes. }
  intros buf post Hfit. unfold write_text_canonical in *.
  pose proof (canonical_width_fits _ Hs) as Hw.
  destruct (width_ai_bound _ _ Hw) as [_ Hai]. rewrite <- app_assoc in *.
  destruct (read_written buf MAJOR_TEXT (blen s) (canonical_width (blen s)) (s ++ post) (blen buf))
    as [Hi Ha]; [by split|done|].
  unfold read_text, dbind, here. rewrite Hi. cbn [negb]. rewrite Z.eqb_refl. cbn [negb].
  destruct (Z.eqb_spec (width_ai (blen s) (canonical_width (blen s))) AI_INDEFINITE); [done|].
  rewrite Ha. rewrite read_payload_at by (rewrite !blen_app in *; pose proof (blen_nonneg post); lia).
  rewrite Hu. by rewrite blen_app.
Qed.

Lemma reads_decode_text utf8_valid protocol field s :
  is_u64 (blen s) -> utf8_valid s = true ->
  reads (decode_text utf8_valid protocol field) (argument_bytes MAJOR_TEXT (blen s) ++ s) s.
Proof.
  intros Hs Hu pre post Hok Hl. unfold decode_text. by rewrite (reads_text _ _ Hs Hu).
Qed.

Lemma reads_bytes s :
  is_u64 (blen s) ->
  reads read_bytes (argument_bytes MAJOR_BYTES (blen s) ++ s) (s, canonical_width (blen s)).
Proof.
  intros Hs. apply (reads_written _ (fun buf => write_bytes buf s (canonical_width (blen s)))).
  - intros buf. by apply encode_bytes_bytes.
  - intros buf post Hfit. apply read_bytes_written; [by apply canonical_width_fits|].
    rewrite blen_app in Hfit. pose proof (blen_nonneg post). lia.
Qed.

Lemma reads_decode_bytes protocol s :
  is_u64 (blen s) -> reads (decode_bytes protocol) (argument_bytes MAJOR_BYTES (blen s) ++ s) s.
Proof. intros Hs. eapply reads_end; [by apply reads_lift, reads_bytes|apply reads_ret]. Qed.

(** The whole-message readers: [m] then [require_consumed]. *)
Lemma reads_whole {A} (m : NDec A) protocol bytes a :
  reads m bytes a -> bytes_ok bytes -> blen bytes <= u64_max ->
  (net! x := m in net! _ := require_consumed protocol in nret x) bytes 0 = (Ok a, blen bytes).
Proof.
  intros Hm Hok Hl. specialize (Hm [] []). cbn [app] in Hm. rewrite app_nil_r in Hm.
  change (blen []) with 0 in Hm. unfold nbind. rewrite Hm by done.
  unfold require_consumed. rewrite Z.add_0_l, Z.eqb_refl. done.
Qed.
