(* ===== verification/Spelling.v ===== *)
(** Writing and reading whole CBOR items and sequences of them, as every mini-protocol codec
    of [ade_network/src/codec/] does.

    [spells n bytes] says that [bytes] are [n] CBOR items one after the other; its rules
    mirror the encoders.  [nwhile] is the decoders' loop over an indefinite-length list. *)

From S2P Require Import Prelude Cbor CborSkip CborRoundtrip CborPrefix NetCodec.

(** * Spelling items *)

Section Items.
Variable data : list Z.

Lemma items_app m n o o1 o2 : items data m o o1 -> items data n o1 o2 -> items data (m + n) o o2.
Proof.
  intros Hm Hn. pose proof (items_nonneg _ _ _ Hn). revert Hn.
  induction Hm as [o|m o o' o1 Hne Hi Hm IH]; intros Hn; [done|].
  pose proof (items_nonneg _ _ _ Hm).
  apply (items_cons data _ _ o'); [lia|done|]. replace (m + n - 1) with (m - 1 + n) by lia. by apply IH.
Qed.
End Items.

Definition spells (n : Z) (bytes : list Z) : Prop :=
  bytes_ok bytes /\
  forall pre post, blen (pre ++ bytes ++ post) <= u64_max ->
    items (pre ++ bytes ++ post) n (blen pre) (blen pre + blen bytes).

Lemma spells_nil : spells 0 [].
Proof.
  split; [exact (Forall_nil_2 _)|]. intros pre post _. change (blen []) with 0. rewrite Z.add_0_r. constructor.
Qed.

Lemma spells_app m n a b : spells m a -> spells n b -> spells (m + n) (a ++ b).
Proof.
  intros [Ha Ia] [Hb Ib]. split; [by apply bytes_ok_app|]. intros pre post Hl.
  rewrite <- app_assoc in *. apply (items_app _ _ _ _ (blen pre + blen a)); [by apply Ia|].
  rewrite app_assoc in *. rewrite blen_app, Z.add_assoc, <- blen_app. by apply Ib.
Qed.

(** Any number of items is carried by the head that announces it. *)
Lemma spells_head h major v n body :
  0 <= major < 8 -> is_u64 v -> spells n body ->
  (forall pre post, blen (pre ++ argument_bytes major v ++ post) <= u64_max ->
     read_head (pre ++ argument_bytes major v ++ post) (blen pre) =
       (Ok h, blen pre + blen (argument_bytes major v))) ->
  (forall data o o', items data n o o' -> contents data h o o') ->
  spells 1 (argument_bytes major v ++ body).
Proof.
  intros Hm Hv [Hb Ib] Hh Hc. split; [apply bytes_ok_app; split; [by apply argument_bytes_ok|done]|].
  intros pre post Hl. rewrite <- app_assoc in *.
  eapply items_cons; [done| |apply items_nil].
  eapply item_intro; [by apply Hh|apply Hc].
  rewrite app_assoc in *. rewrite blen_app, Z.add_assoc, <- blen_app. by apply Ib.
Qed.

Lemma argument_width major v :
  argument_bytes major v =
    Z.lor (as_u8 (Z.shiftl major 5)) (width_ai v (canonical_width v))
      :: to_be (width_len (canonical_width v)) v.
Proof. done. Qed.

(** The two steps every head starts with. *)
Lemma head_steps pre major v post start :
  0 <= major < 8 -> is_u64 v ->
  let data := pre ++ argument_bytes major v ++ post in
  let w := canonical_width v in
  decode_initial data (blen pre) = (Ok (major, width_ai v w), blen pre + 1) /\
  decode_argument (width_ai v w) start data (blen pre + 1) =
    (Ok (v, w), blen pre + blen (argument_bytes major v)) /\ width_ai v w <> AI_INDEFINITE.
Proof.
  intros Hm Hv data w. pose proof (canonical_width_fits _ Hv) as Hw.
  destruct (read_written pre major v w post start Hm Hw) as [Hi Ha].
  rewrite write_canonical, <- app_assoc in Hi, Ha by done. subst data w.
  split_and!; [done|rewrite Ha; by rewrite blen_app|]. apply width_ai_bound. done.
Qed.

Ltac head_of Hv pre post :=
  intros pre post _; unfold read_head, dbind, here;
  match goal with |- context [argument_bytes ?major ?v] =>
    destruct (head_steps pre major v post (blen pre) ltac:(by unfold major) Hv) as (Hi & Ha & Hne) end;
  cbv zeta in *.

Lemma spells_tag v body : is_u64 v -> spells 1 body -> spells 1 (argument_bytes MAJOR_TAG v ++ body).
Proof.
  intros Hv Hb. apply (spells_head HTag _ _ 1); [by unfold MAJOR_TAG|done|done| |].
  - head_of Hv pre post. rewrite Hi. cbn [Z.eqb Pos.eqb MAJOR_TAG MAJOR_UNSIGNED MAJOR_NEGATIVE MAJOR_BYTES
      MAJOR_TEXT MAJOR_ARRAY MAJOR_MAP orb]. by rewrite Ha.
  - intros data o o' Hi. by constructor.
Qed.

Lemma spells_array n body : is_u64 n -> spells n body -> spells 1 (argument_bytes MAJOR_ARRAY n ++ body).
Proof.
  intros Hn Hb. apply (spells_head (HItems n) _ _ n); [by unfold MAJOR_ARRAY|done|done| |].
  - head_of Hn pre post. rewrite Hi. cbn.
    destruct (Z.eqb_spec (width_ai n (canonical_width n)) AI_INDEFINITE); [done|]. by rewrite Ha.
  - intros. by constructor.
Qed.

Lemma spells_uint v : is_u64 v -> spells 1 (argument_bytes MAJOR_UNSIGNED v).
Proof.
  intros Hv. rewrite <- (app_nil_r (argument_bytes _ _)).
  apply (spells_head HLeaf _ _ 0); [by unfold MAJOR_UNSIGNED|done|apply spells_nil| |].
  - head_of Hv pre post. rewrite Hi. cbn [Z.eqb MAJOR_UNSIGNED MAJOR_NEGATIVE orb].
    destruct (Z.ltb_spec (width_ai v (canonical_width v)) AI_ONE_BYTE) as [Hs|]; [|by rewrite Ha].
    unfold dret. f_equal. f_equal. rewrite argument_width. destruct (canonical_width v); [done|..];
      by vm_compute in Hs.
  - intros data o o' Hi. inversion Hi; subst; [constructor|done].
Qed.

(** A byte or text string: the payload belongs to its head. *)
Lemma spells_string major s :
  (major = MAJOR_BYTES \/ major = MAJOR_TEXT) -> is_u64 (blen s) -> bytes_ok s ->
  spells 1 (argument_bytes major (blen s) ++ s).
Proof.
  intros Hmaj Hs Hok. assert (Hm : 0 <= major < 8) by (destruct Hmaj as [-> | ->]; split; by vm_compute).
  split; [apply bytes_ok_app; split; [by apply argument_bytes_ok|done]|].
  intros pre post Hl. eapply items_cons; [done| |apply items_nil].
  refine (item_intro _ _ HLeaf _ _ _ (contents_leaf _ _)).
  rewrite <- app_assoc in *.
  destruct (head_steps pre major (blen s) (s ++ post) (blen pre) Hm Hs) as (Hi & Ha & Hne).
  unfold read_head, dbind, here. cbv zeta in *. rewrite Hi.
  assert (Hp : forall data, data = pre ++ argument_bytes major (blen s) ++ s ++ post ->
    read_payload (blen s) data (blen pre + blen (argument_bytes major (blen s))) =
      (Ok s, blen pre + blen (argument_bytes major (blen s) ++ s))).
  { intros data ->. rewrite app_assoc in *. rewrite <- blen_app, read_payload_at.
    - by rewrite !blen_app, Z.add_assoc.
    - rewrite !blen_app in *. pose proof (blen_nonneg post). lia. }
  destruct Hmaj as [-> | ->]; cbn [Z.eqb Pos.eqb MAJOR_UNSIGNED MAJOR_NEGATIVE MAJOR_BYTES MAJOR_TEXT orb];
    (destruct (Z.eqb_spec (width_ai (blen s) (canonical_width (blen s))) AI_INDEFINITE); [done|]);
    change 2 with MAJOR_BYTES in *; change 3 with MAJOR_TEXT in *; rewrite Ha; by rewrite (Hp _ eq_refl).
Qed.

Lemma spells_one_item b : one_item b -> spells 1 b.
Proof.
  intros [Hok Hi]. split; [done|]. intros pre post Hl.
  eapply items_cons; [done| |apply items_nil].
  apply (item_extend pre b post) in Hi; [|done..]. by rewrite Z.add_0_r in Hi.
Qed.

Lemma one_item_spelled b : spells 1 b -> blen b <= u64_max -> one_item b.
Proof.
  intros [Hok Hi] Hl. split; [done|]. specialize (Hi [] []). cbn [app] in Hi. rewrite app_nil_r in Hi.
  specialize (Hi Hl). change (blen []) with 0 in Hi. rewrite Z.add_0_l in Hi.
  inversion Hi as [|? ? o1 ? _ Hone Hrest]; subst. by inversion Hrest; subst; [|done].
Qed.

Lemma spells_concat {A} (f : A -> list Z) l :
  Forall (fun x => spells 1 (f x)) l -> spells (blen l) (concat (map f l)).
Proof.
  induction 1 as [|x l Hx _ IH]; [apply spells_nil|].
  cbn [map concat]. rewrite blen_cons. by apply spells_app.
Qed.


(** [true] and [false]. *)
Lemma spells_bool b : spells 1 (encode_bool [] b).
Proof.
  split; [destruct b; repeat constructor; vm_compute; congruence|]. intros pre post _.
  eapply items_cons; [done| |apply items_nil].
  refine (item_intro _ _ HLeaf _ _ _ (contents_leaf _ _)).
  unfold read_head, dbind, here.
  pose proof (decode_initial_at pre post 7 (if b then 21 else 20) ltac:(lia) ltac:(destruct b; lia)) as Hi.
  replace (pre ++ encode_bool [] b ++ post)
    with (pre ++ Z.lor (as_u8 (Z.shiftl 7 5)) (if b then 21 else 20) :: post) by by destruct b.
  rewrite Hi. by destruct b.
Qed.

(** * Lists closed by a break *)

(** A reader of any layer; [NDec] is one. *)
Abbreviation Reader E A := (list Z -> Z -> result A E * Z).

(** [loop { if head { break } body }] *)
Fixpoint nloop {E A} (fuel : nat) (head : Reader E bool) (body : Reader E A) (data : list Z) (off : Z) :
    option (result (list A) E * Z) :=
  match fuel with
  | O => None
  | S fuel =>
      match head data off with
      | (Err e, o) => Some (Err e, o)
      | (Ok true, o) => Some (Ok [], o)
      | (Ok false, o) =>
          match body data o with
          | (Err e, o) => Some (Err e, o)
          | (Ok x, o) =>
              match nloop fuel head body data o with
              | Some (Ok xs, o) => Some (Ok (x :: xs), o)
              | r => r
              end
          end
      end
  end.

(** One turn for every byte left and one more; [nloop_total] shows that this is enough for
    the loops of the codecs. *)
Definition nwhile {E A} (head : Reader E bool) (body : Reader E A) : Reader E (list A) := fun data off =>
  match nloop (S (Z.to_nat (blen data - off))) head body data off with
  | Some r => r
  | None => (Ok [], off)
  end.

(** A loop whose head stops at the end of the input and whose body only moves forward ends
    within the fuel. *)
Definition advances {E A} (m : Reader E A) : Prop := forall data off a o,
  bytes_ok data -> 0 <= off -> m data off = (Ok a, o) -> off < o.
Definition stops_at_end {E} (head : Reader E bool) : Prop := forall data off o,
  0 <= off -> head data off = (Ok false, o) -> o = off /\ off < blen data.

Lemma nloop_total {E A} (head : Reader E bool) (body : Reader E A) data fuel : forall off,
  bytes_ok data -> stops_at_end head -> advances body ->
  0 <= off -> blen data - off < Z.of_nat fuel -> 0 < Z.of_nat fuel ->
  is_Some (nloop fuel head body data off).
Proof.
  induction fuel as [|fuel IH]; intros off Hok Hh Hb Ho Hf Hp; cbn [nloop]; [lia|].
  destruct (head data off) as [[[]|e] o] eqn:Eh; [by eexists| |by eexists].
  apply Hh in Eh as [-> Hlt]; [|done].
  destruct (body data off) as [[x|e] o'] eqn:Eb; [|by eexists].
  apply Hb in Eb; [|done..].
  destruct (IH o') as [[[xs|e] o2] ->]; [done..|lia|lia|lia|by eexists|by eexists].
Qed.

(** Reading such a list back: [head] stops at the break byte and passes over no other. *)
Definition break_head {E} (head : Reader E bool) : Prop := forall data off b,
  byte_at data off = Some b -> head data off = (Ok (b =? BREAK_BYTE), if b =? BREAK_BYTE then off + 1 else off).

Lemma spells_first bytes : spells 1 bytes -> blen bytes <= u64_max ->
  exists b rest, bytes = b :: rest /\ b <> BREAK_BYTE.
Proof.
  intros [Hok Hi] Hl. specialize (Hi [] []). cbn [app] in Hi. rewrite app_nil_r in Hi.
  specialize (Hi Hl). inversion Hi as [|? ? ? ? Hn Hone]; subst.
  apply item_head_byte in Hone as (b & Hb & Hne); [|done|by vm_compute].
  destruct bytes as [|x rest]; [done|]. pose proof (byte_at_here [] x rest) as Hx. cbn [app] in Hx.
  rewrite Hx in Hb. injection Hb as ->. by exists b, rest.
Qed.

Lemma blen_mid (pre mid post : list Z) n : blen (pre ++ mid ++ post) <= n -> blen mid <= n.
Proof. rewrite !blen_app. pose proof (blen_nonneg pre). pose proof (blen_nonneg post). lia. Qed.

Lemma reads_nloop {E A} (head : Reader E bool) (body : Reader E A) (f : A -> list Z) l :
  break_head head -> Forall (fun x => reads body (f x) x /\ spells 1 (f x)) l ->
  forall fuel pre post, (length l < fuel)%nat ->
  let data := pre ++ (concat (map f l) ++ [BREAK_BYTE]) ++ post in
  bytes_ok data -> blen data <= u64_max ->
  nloop fuel head body data (blen pre) = Some (Ok l, blen pre + blen (concat (map f l) ++ [BREAK_BYTE])).
Proof.
  intros Hh Hl. induction Hl as [|x l [Hx Sx] _ IH]; intros [|fuel] pre post Hf data Hok Hlen;
    cbn [length] in Hf; try lia; cbn [map concat] in *.
  - cbn [nloop]. subst data. cbn [app]. rewrite (Hh _ _ BREAK_BYTE) by apply byte_at_here.
    by rewrite Z.eqb_refl.
  - cbn [nloop]. subst data. rewrite <- !app_assoc in *.
    destruct (spells_first _ Sx ltac:(eapply blen_mid; exact Hlen)) as (b & rest & Ef & Hne).
    rewrite (Hh _ _ b) by (rewrite Ef; apply byte_at_here). destruct (Z.eqb_spec b BREAK_BYTE); [done|].
    rewrite Hx by done. specialize (IH fuel (pre ++ f x) post ltac:(lia)). cbv zeta in IH.
    rewrite <- !app_assoc in IH. rewrite <- blen_app, IH by done. do 2 f_equal. rewrite !blen_app. lia.
Qed.

Lemma spells_length {A} (f : A -> list Z) l :
  Forall (fun x => spells 1 (f x)) l -> (Z.of_nat (length l) <= blen (concat (map f l))).
Proof.
  induction 1 as [|x l [Hok Hx] Hl IH]; [done|]. cbn [map concat length]. rewrite blen_app.
  destruct (f x) as [|b bs] eqn:E; [|rewrite blen_cons; pose proof (blen_nonneg bs); lia].
  destruct (spells_first [] (conj Hok Hx)) as (? & ? & ? & _); [by vm_compute|done].
Qed.

Lemma reads_nwhile {E A} (head : Reader E bool) (body : Reader E A) (f : A -> list Z) l :
  break_head head -> Forall (fun x => reads body (f x) x /\ spells 1 (f x)) l ->
  reads (nwhile head body) (concat (map f l) ++ [BREAK_BYTE]) l.
Proof.
  intros Hh Hl pre post Hok Hlen. unfold nwhile.
  assert (Hs : Forall (fun x => spells 1 (f x)) l) by (eapply Forall_impl; [exact Hl|]; by intros x [_ ?]).
  apply spells_length in Hs. rewrite (reads_nloop head body f l); [done|done|done| |done|done].
  rewrite !blen_app. pose proof (blen_nonneg post). pose proof (blen_nonneg [BREAK_BYTE]). lia.
Qed.

(** The indefinite-length list is one item. *)
Definition indefinite_head : list Z := [0x9f].

Lemma write_indefinite_array buf : write_array_header buf Indefinite = buf ++ indefinite_head.
Proof. done. Qed.

Lemma reads_indefinite_array : reads read_array_header indefinite_head Indefinite.
Proof.
  apply (reads_written _ (fun buf => write_array_header buf Indefinite)); [done|].
  intros buf post _. by apply read_array_header_written.
Qed.

Lemma spells_until {A} (f : A -> list Z) l :
  Forall (fun x => spells 1 (f x)) l -> spells 1 (indefinite_head ++ concat (map f l) ++ [BREAK_BYTE]).
Proof.
  intros Hl. split.
  { apply bytes_ok_app; split; [repeat constructor; vm_compute; congruence|].
    apply bytes_ok_app; split; [|repeat constructor; vm_compute; congruence].
    apply Forall_concat, Forall_map. eapply Forall_impl; [exact Hl|]. by intros x [? _]. }
  intros pre post Hlen. eapply items_cons; [done| |apply items_nil].
  apply (item_intro _ _ HUntil (blen pre + 1)).
  { pose proof (decode_initial_at pre ((concat (map f l) ++ [BREAK_BYTE]) ++ post) 4 31 ltac:(lia) ltac:(lia)) as Hi.
    unfold read_head, dbind, here. cbn [indefinite_head app]. 
    change (Z.lor (as_u8 (Z.shiftl 4 5)) 31) with 0x9f in Hi. by rewrite Hi. }
  constructor. cbn [app indefinite_head] in *. rewrite blen_cons.
  replace (pre ++ 0x9f :: (concat (map f l) ++ [BREAK_BYTE]) ++ post)
    with ((pre ++ [0x9f]) ++ (concat (map f l) ++ [BREAK_BYTE]) ++ post) in * by by rewrite <- app_assoc.
  replace (blen pre + 1) with (blen (pre ++ [0x9f])) by (rewrite blen_app; done).
  replace (blen pre + (1 + blen (concat (map f l) ++ [BREAK_BYTE])))
    with (blen (pre ++ [0x9f]) + blen (concat (map f l) ++ [BREAK_BYTE]))
    by (rewrite blen_app; change (blen [0x9f]) with 1; lia).
  revert Hlen. generalize (pre ++ [0x9f]). clear pre.
  induction Hl as [|x l [Hok Hx] _ IH]; intros pre Hlen; cbn [map concat app] in *.
  { apply until_stop. apply byte_at_here. }
  rewrite <- !app_assoc in *.
  destruct (spells_first _ (conj Hok Hx) ltac:(eapply blen_mid; exact Hlen)) as (b & rest & E & Hne).
  specialize (Hx pre (concat (map f l) ++ [BREAK_BYTE] ++ post) Hlen).
  inversion Hx as [|? ? o1 ? _ Hone Hrest]; subst. inversion Hrest; subst; [|done].
  eapply until_more; [|exact Hne|exact Hone|]; [rewrite E; apply byte_at_here|].
  specialize (IH (pre ++ f x)). rewrite <- !app_assoc, !blen_app in IH. rewrite !blen_app, Z.add_assoc.
  rewrite Z.add_assoc in IH. apply IH. rewrite !blen_app in Hlen. lia.
Qed.

(** * The whole message, and automation for the codecs *)

(** The frame every decoder has: a non-empty input, the body, nothing after it. *)
Definition decode_message {M} (protocol : ProtocolKind) (body : NDec M) (bytes : list Z) :
    result M (Fault NetCodecError) :=
  match bytes with
  | [] => Err (Failed (Net_Truncated 1 0))
  | _ => fst ((net! msg := body in net! _ := require_consumed protocol in nret msg) bytes 0)
  end.

Lemma decode_message_reads {M} protocol (body : NDec M) bytes m :
  reads body bytes m -> spells 1 bytes -> blen bytes <= u64_max ->
  decode_message protocol body bytes = Ok m.
Proof.
  intros Hr Hs Hl. destruct (spells_first _ Hs Hl) as (b & rest & E & _).
  unfold decode_message. rewrite (reads_whole body protocol bytes m) by (done || apply Hs). by rewrite E.
Qed.

(** A byte string with its head. *)
Definition string_bytes (s : list Z) : list Z := argument_bytes MAJOR_BYTES (blen s) ++ s.
Definition uint_bytes (v : Z) : list Z := argument_bytes MAJOR_UNSIGNED v.
Definition array_bytes (n : Z) (body : list Z) : list Z := argument_bytes MAJOR_ARRAY n ++ body.

Lemma spells_more m a b : spells 1 a -> spells m b -> spells (1 + m) (a ++ b).
Proof. apply spells_app. Qed.

Lemma spells_array_of n body : is_u64 n -> spells n body -> spells 1 (array_bytes n body).
Proof. apply spells_array. Qed.
Lemma spells_bytes s : is_u64 (blen s) -> bytes_ok s -> spells 1 (string_bytes s).
Proof. intros. apply spells_string; auto. Qed.
Lemma spells_u v : is_u64 v -> spells 1 (uint_bytes v).
Proof. apply spells_uint. Qed.

Lemma reads_uint_of protocol v : is_u64 v -> reads (decode_u64 protocol) (uint_bytes v) v.
Proof. apply reads_decode_u64. Qed.
Lemma reads_string_of protocol s : is_u64 (blen s) -> reads (decode_bytes protocol) (string_bytes s) s.
Proof. apply reads_decode_bytes. Qed.
Lemma reads_u16_of protocol field v : is_u16 v -> reads (decode_u16 protocol field) (uint_bytes v) v.
Proof. apply reads_decode_u16. Qed.
Lemma reads_u32_of protocol field v : is_u32 v -> reads (decode_u32 protocol field) (uint_bytes v) v.
Proof. apply reads_decode_u32. Qed.

(** An array head binds to the rest of the body. *)
Lemma reads_array_of {B} protocol n (k : Z -> NDec B) body b :
  is_u64 n -> reads (k n) body b ->
  reads (nbind (decode_array_header protocol) k) (array_bytes n body) b.
Proof. intros Hn Hk. eapply reads_bind; [by apply reads_decode_array_header|done]. Qed.

(** The bool decoder. *)
Lemma reads_bool protocol b : reads (decode_bool protocol) (encode_bool [] b) b.
Proof.
  intros pre post _ _. unfold decode_bool, lift, read_bool, dbind, here.
  replace (pre ++ encode_bool [] b ++ post) with (pre ++ (if b then 245 else 244) :: post) by by destruct b.
  rewrite read_byte_at. by destruct b.
Qed.

Ltac small := first [done | unfold isize_max in *; width; lia].

Create HintDb wire.
#[export] Hint Resolve reads_uint_of reads_string_of reads_u16_of reads_u32_of reads_raw_item
  reads_bool spells_u spells_bytes spells_bool spells_one_item spells_nil : wire.
#[export] Hint Extern 3 (is_u64 _) => small : wire.
#[export] Hint Extern 3 (is_u32 _) => small : wire.
#[export] Hint Extern 3 (is_u16 _) => small : wire.

Ltac count_down n := let m := eval vm_compute in (n - 1) in change n with (1 + m).

(** [spelling] takes an encoding apart into its items, [reading] a decoder along them. *)
Ltac spelling :=
  repeat first
  [ solve [eauto with wire]
  | match goal with
    | |- spells 1 (array_bytes _ _) => apply spells_array_of; [small|]
    | |- spells ?n (_ ++ _) => count_down n; apply spells_more
    end ].

Ltac reading :=
  repeat first
  [ apply reads_ret
  | solve [eauto with wire]
  | (apply reads_array_of; [small|];
     cbn [Z.ltb Z.compare Pos.compare Pos.compare_cont Z.eqb Pos.eqb andb negb])
  | (first [ eapply reads_bind; [solve [eauto with wire]|] | eapply reads_end; [solve [eauto with wire]|] ];
     cbn [Z.ltb Z.compare Pos.compare Pos.compare_cont Z.eqb Pos.eqb andb negb]) ].

(** The encoders append. *)
Lemma encode_u64_app buf v : is_u64 v -> encode_u64 buf v = buf ++ uint_bytes v.
Proof. apply encode_u64_bytes. Qed.
Lemma encode_bytes_app buf s : is_u64 (blen s) -> encode_bytes buf s = buf ++ string_bytes s.
Proof. apply encode_bytes_bytes. Qed.
Lemma encode_array_app buf n : is_u64 n -> encode_array_header buf n = buf ++ argument_bytes MAJOR_ARRAY n.
Proof. apply encode_array_header_bytes. Qed.

(** * Side conditions by evaluation *)

Definition all_bytes (l : list Z) : bool := forallb (fun b => (0 <=? b) && (b <=? 255)) l.

Lemma all_bytes_ok l : all_bytes l = true -> bytes_ok l.
Proof.
  intros E. apply Forall_forall. intros b Hb. unfold all_bytes in E. rewrite forallb_forall in E.
  specialize (E b). rewrite <- list_elem_of_In in E. specialize (E Hb). width. lia.
Qed.

Definition is_item (b : list Z) : bool :=
  all_bytes b && bool_decide (skip_item b 0 = (Ok (0, blen b), blen b)).

Lemma is_item_ok b : is_item b = true -> one_item b.
Proof.
  intros [Hb Hs]%andb_true_iff. apply all_bytes_ok in Hb. apply bool_decide_eq_true in Hs.
  apply skip_item_spec in Hs as (_ & _ & Hi); [by split|done|lia].
Qed.

Definition vector (n : Z) (s : list Z) : bool := all_bytes s && (blen s =? n).
Lemma vector_ok n s : vector n s = true -> bytes_ok s /\ blen s = n.
Proof. intros [Hb Hn]%andb_true_iff. split; [by apply all_bytes_ok|lia]. Qed.
