(* ===== verification/Handshake.v ===== *)
(** The node-to-node handshake: the message codec [ade_network/src/codec/handshake.rs],
    the version selection [handshake/selection.rs] and the transition
    [handshake/transition.rs] with its types [handshake/state.rs] and its version tables
    [handshake/version_table.rs].

    A version is its [u16]; a text is its bytes, validated by the parameter [utf8_valid].
    A [Vec<(N2NVersion, VersionParams)>] element is 32 bytes wide.  The theorems: messages
    survive their encoding, and the selected version is the highest common one. *)

From S2P Require Import Prelude Cbor CborSkip CborRoundtrip NetCodec.

(** * Messages ([codec/handshake.rs]) *)

(** [VersionTable(Vec<(N2NVersion, VersionParams)>)], the parameters as raw CBOR bytes. *)
Definition VersionTable : Type := list (Z * list Z).

Inductive RefuseReason : Type :=
| Refuse_VersionMismatch (versions : list Z)
| HandshakeDecodeError (version : Z) (reason : list Z)
| Refuse_Refused (version : Z) (reason : list Z).

Inductive HandshakeMessage : Type :=
| ProposeVersions (table : VersionTable)
| AcceptVersion (version : Z) (params : list Z)
| Refuse (reason : RefuseReason)
| QueryReply (table : VersionTable).

#[global] Instance RefuseReason_eq_dec : EqDecision RefuseReason.
Proof. solve_decision. Defined.
#[global] Instance HandshakeMessage_eq_dec : EqDecision HandshakeMessage.
Proof. solve_decision. Defined.

Definition encode_version_table (buf : list Z) (table : VersionTable) : list Z :=
  let len := blen table in
  let buf := write_map_header buf (Definite len (canonical_width len)) in
  fold_left (fun buf '(ver, params) => encode_u64 buf ver ++ params) table buf.

Definition encode_refuse_reason (buf : list Z) (reason : RefuseReason) : list Z :=
  match reason with
  | Refuse_VersionMismatch vs =>
      let buf := encode_array_header buf 2 in
      let buf := encode_u64 buf 0 in
      let buf := encode_array_header buf (blen vs) in
      fold_left (fun buf v => encode_u64 buf v) vs buf
  | HandshakeDecodeError version reason =>
      let buf := encode_array_header buf 3 in
      let buf := encode_u64 buf 1 in
      let buf := encode_u64 buf version in
      encode_text buf reason
  | Refuse_Refused version reason =>
      let buf := encode_array_header buf 3 in
      let buf := encode_u64 buf 2 in
      let buf := encode_u64 buf version in
      encode_text buf reason
  end.

Definition encode_handshake_message (msg : HandshakeMessage) : list Z :=
  match msg with
  | ProposeVersions table =>
      encode_version_table (encode_u64 (encode_array_header [] 2) 0) table
  | AcceptVersion ver params =>
      encode_u64 (encode_u64 (encode_array_header [] 3) 1) ver ++ params
  | Refuse reason =>
      encode_refuse_reason (encode_u64 (encode_array_header [] 2) 2) reason
  | QueryReply table =>
      encode_version_table (encode_u64 (encode_array_header [] 2) 3) table
  end.

Section Decode.
Variable utf8_valid : list Z -> bool.
Let protocol := Kind_Handshake.

(** The version number guarded twice, as the decoders write it out: a [u32], then at most
    [u16::MAX]. *)
Definition decode_version : NDec Z :=
  net! v := decode_u32 protocol "version number" in
  if u16_max <? v then nfail (InvalidIntegerRange protocol "version number" v) else nret (as_u16 v).

Definition decode_version_table : NDec VersionTable :=
  net! enc := lift protocol read_map_header in
  match enc with
  | Indefinite =>
      nfail (InvalidProtocolMessage protocol "indefinite-length version table not allowed")
  | Definite len _ =>
      net! _ := with_capacity 32 len in
      nrepeat (Z.to_nat len)
        (net! v := decode_version in
         net! params := decode_raw_item protocol in
         nret (v, params))
  end.

(** The version list of a refusal is allocated for [min(n, data.len())] entries, which an
    input slice never lets overflow. *)
Definition decode_refuse_reason : NDec RefuseReason :=
  net! arr_len := decode_array_header protocol in
  if arr_len <? 1
  then nfail (InvalidProtocolMessage protocol "refuse reason has zero-length array") else
  net! tag := decode_u64 protocol in
  if (tag =? 0) && (arr_len =? 2) then
    net! n := decode_array_header protocol in
    net! vs := nrepeat (Z.to_nat n) decode_version in
    nret (Refuse_VersionMismatch vs)
  else if (tag =? 1) && (arr_len =? 3) then
    net! v := decode_version in
    net! reason := decode_text utf8_valid protocol "handshake decode error reason" in
    nret (HandshakeDecodeError v reason)
  else if (tag =? 2) && (arr_len =? 3) then
    net! v := decode_version in
    net! reason := decode_text utf8_valid protocol "refused reason" in
    nret (Refuse_Refused v reason)
  else nfail (UnknownTag protocol tag).

Definition decode_handshake_body : NDec HandshakeMessage :=
  net! arr_len := decode_array_header protocol in
  if arr_len <? 1 then nfail (InvalidProtocolMessage protocol "empty outer array") else
  net! tag := decode_u64 protocol in
  if (tag =? 0) && (arr_len =? 2) then
    net! table := decode_version_table in nret (ProposeVersions table)
  else if (tag =? 1) && (arr_len =? 3) then
    net! v := decode_version in
    net! params := decode_raw_item protocol in
    nret (AcceptVersion v params)
  else if (tag =? 2) && (arr_len =? 2) then
    net! reason := decode_refuse_reason in nret (Refuse reason)
  else if (tag =? 3) && (arr_len =? 2) then
    net! table := decode_version_table in nret (QueryReply table)
  else nfail (UnknownTag protocol tag).

Definition decode_handshake_message (bytes : list Z) :
    result HandshakeMessage (Fault NetCodecError) :=
  match bytes with
  | [] => Err (Failed (Net_Truncated 1 0))
  | _ => fst ((net! msg := decode_handshake_body in
               net! _ := require_consumed protocol in nret msg) bytes 0)
  end.
End Decode.

(** * State, tables and selection *)

Inductive PeerSharingFlag : Type := NoPeerSharing | PeerSharingPublic.

Record VersionData : Type := mk_VersionData {
  network_magic : Z;
  initiator_only_diffusion : bool;
  peer_sharing : PeerSharingFlag;
  query : bool;
  peras_support : bool;
}.

Inductive HandshakeAgency : Type := ClientHasAgency | ServerHasAgency | NobodyHasAgency.
Inductive HandshakeState : Type := HS_Idle | HS_Proposed | HS_Done | HS_Refused.

Inductive N2nHandshakeOutput : Type :=
| HO_Reply (m : HandshakeMessage)
| HO_Selected (version : Z) (data : VersionData)
| HO_Refused (reason : RefuseReason)
| HO_Done.

Inductive HandshakeError : Type :=
| HE_IllegalTransition (state : HandshakeState) (message_tag agency : string)
| HE_UnknownVersion (version : Z)
| HE_VersionMismatch (proposed_set supported_set : list Z)
| HE_MalformedMessage (reason : string).

#[global] Instance PeerSharingFlag_eq_dec : EqDecision PeerSharingFlag.
Proof. solve_decision. Defined.
#[global] Instance VersionData_eq_dec : EqDecision VersionData.
Proof. solve_decision. Defined.
#[global] Instance HandshakeState_eq_dec : EqDecision HandshakeState.
Proof. solve_decision. Defined.
#[global] Instance HandshakeError_eq_dec : EqDecision HandshakeError.
Proof. solve_decision. Defined.

Definition MAINNET_NETWORK_MAGIC : Z := 764824073.
Definition n2n (version_magic : Z) : VersionData :=
  mk_VersionData version_magic false NoPeerSharing false false.
Definition N2N_SUPPORTED : list (Z * VersionData) :=
  map (fun v => (v, n2n MAINNET_NETWORK_MAGIC)) [11; 12; 13; 14; 15; 16].
Definition n2n_supported_for_magic (magic : Z) : list (Z * VersionData) :=
  map (fun '(version, _) => (version, n2n magic)) N2N_SUPPORTED.

Definition encode_n2n_version_params (version magic : Z) : list Z :=
  let field_count := if 16 <=? version then 5 else 4 in
  let buf := encode_array_header [] field_count in
  let buf := encode_u64 buf magic in
  let buf := encode_bool buf true in
  let buf := encode_u64 buf 0 in
  let buf := encode_bool buf false in
  if 16 <=? version then encode_bool buf false else buf.

Inductive SelectionOutcome : Type :=
| Selected (version : Z) (data : VersionData)
| Mismatch (supported : list Z).

(** [best.map(|(b, _)| pv > b).unwrap_or(true)] *)
Definition improves (best : option (Z * VersionData)) (pv : Z) : bool :=
  match best with Some (b, _) => b <? pv | None => true end.

Definition best_among (supported : list (Z * VersionData)) (best : option (Z * VersionData))
    (pv : Z) : option (Z * VersionData) :=
  fold_left (fun best '(v_local, data_local) =>
    if (v_local =? pv) && improves best pv then Some (pv, data_local) else best) supported best.

Definition select_n2n_version (proposed : VersionTable) (supported : list (Z * VersionData)) :
    SelectionOutcome :=
  match fold_left (fun best '(v_peer, _) => best_among supported best v_peer) proposed None with
  | Some (v, d) => Selected v d
  | None => Mismatch (map fst supported)
  end.

Definition proposed_n2n_versions (proposed : VersionTable) : list Z := map fst proposed.
Definition supported_n2n_versions (supported : list (Z * VersionData)) : list Z := map fst supported.

(** * The transition ([handshake/transition.rs]) *)

Definition n2n_message_tag (m : HandshakeMessage) : string :=
  match m with
  | ProposeVersions _ => "ProposeVersions"
  | AcceptVersion _ _ => "AcceptVersion"
  | Refuse _ => "Refuse"
  | QueryReply _ => "QueryReply"
  end.

Definition handshake_agency_tag (a : HandshakeAgency) : string :=
  match a with
  | ClientHasAgency => "ClientHasAgency"
  | ServerHasAgency => "ServerHasAgency"
  | NobodyHasAgency => "NobodyHasAgency"
  end.

(** The client's lookup loop: the first entry of the accepted version. *)
Fixpoint local_data (supported : list (Z * VersionData)) (pv : Z) : option VersionData :=
  match supported with
  | [] => None
  | (v_local, data_local) :: rest => if v_local =? pv then Some data_local else local_data rest pv
  end.

Definition n2n_transition (state : HandshakeState) (agency : HandshakeAgency)
    (supported : list (Z * VersionData)) (msg : HandshakeMessage) :
    result (HandshakeState * N2nHandshakeOutput) HandshakeError :=
  match state, msg, agency with
  | HS_Idle, ProposeVersions table, ClientHasAgency =>
      match table with
      | [] => Err (HE_MalformedMessage "ProposeVersions carried an empty version table")
      | _ =>
          match select_n2n_version table supported with
          | Selected v data => Ok (HS_Done, HO_Selected v data)
          | Mismatch _ =>
              Err (HE_VersionMismatch (proposed_n2n_versions table) (supported_n2n_versions supported))
          end
      end
  | HS_Proposed, AcceptVersion ver _, ServerHasAgency =>
      match local_data supported ver with
      | Some data => Ok (HS_Done, HO_Selected ver data)
      | None => Err (HE_UnknownVersion ver)
      end
  | HS_Proposed, Refuse reason, ServerHasAgency => Ok (HS_Refused, HO_Refused reason)
  | HS_Proposed, QueryReply _, ServerHasAgency =>
      Ok (HS_Refused, HO_Refused (Refuse_VersionMismatch []))
  | _, _, _ =>
      Err (HE_IllegalTransition state (n2n_message_tag msg) (handshake_agency_tag agency))
  end.

(** * Encoding then decoding a message *)

Definition version_bytes (v : Z) : list Z := argument_bytes MAJOR_UNSIGNED v.
Definition entry_bytes (e : Z * list Z) : list Z := version_bytes (fst e) ++ snd e.
Definition table_bytes (t : VersionTable) : list Z :=
  argument_bytes MAJOR_MAP (blen t) ++ concat (map entry_bytes t).
Definition text_bytes (s : list Z) : list Z := argument_bytes MAJOR_TEXT (blen s) ++ s.
Definition refuse_bytes (r : RefuseReason) : list Z :=
  match r with
  | Refuse_VersionMismatch vs =>
      argument_bytes MAJOR_ARRAY 2 ++ version_bytes 0
        ++ argument_bytes MAJOR_ARRAY (blen vs) ++ concat (map version_bytes vs)
  | HandshakeDecodeError v s =>
      argument_bytes MAJOR_ARRAY 3 ++ version_bytes 1 ++ version_bytes v ++ text_bytes s
  | Refuse_Refused v s =>
      argument_bytes MAJOR_ARRAY 3 ++ version_bytes 2 ++ version_bytes v ++ text_bytes s
  end.
Definition message_bytes (m : HandshakeMessage) : list Z :=
  match m with
  | ProposeVersions t => argument_bytes MAJOR_ARRAY 2 ++ version_bytes 0 ++ table_bytes t
  | AcceptVersion v p => argument_bytes MAJOR_ARRAY 3 ++ version_bytes 1 ++ version_bytes v ++ p
  | Refuse r => argument_bytes MAJOR_ARRAY 2 ++ version_bytes 2 ++ refuse_bytes r
  | QueryReply t => argument_bytes MAJOR_ARRAY 2 ++ version_bytes 3 ++ table_bytes t
  end.

Section RoundTrip.
Variable utf8_valid : list Z -> bool.

(** The values of the source's types: [u16] versions, one CBOR item per parameter, valid
    texts, and tables no larger than a [Vec] can be. *)
Definition table_ok (t : VersionTable) : Prop :=
  Forall (fun e => is_u16 (fst e) /\ one_item (snd e)) t /\ 32 * blen t <= isize_max.
Definition text_ok (s : list Z) : Prop :=
  utf8_valid s = true /\ bytes_ok s /\ blen s <= isize_max.
Definition refuse_ok (r : RefuseReason) : Prop :=
  match r with
  | Refuse_VersionMismatch vs => Forall is_u16 vs /\ 2 * blen vs <= isize_max
  | HandshakeDecodeError v s | Refuse_Refused v s => is_u16 v /\ text_ok s
  end.
Definition handshake_ok (m : HandshakeMessage) : Prop :=
  match m with
  | ProposeVersions t | QueryReply t => table_ok t
  | AcceptVersion v p => is_u16 v /\ one_item p
  | Refuse r => refuse_ok r
  end.

Lemma encode_version_table_bytes buf t :
  table_ok t -> encode_version_table buf t = buf ++ table_bytes t.
Proof.
  intros [Ht Hlen]. unfold encode_version_table, table_bytes, write_map_header.
  rewrite write_canonical by (unfold isize_max in *; pose proof (blen_nonneg t); width; lia).
  rewrite app_assoc. generalize (buf ++ argument_bytes MAJOR_MAP (blen t)). clear Hlen.
  induction Ht as [|[v p] t [Hv _] _ IH]; intros b; cbn [fold_left map concat]; [by rewrite app_nil_r|].
  rewrite IH, encode_u64_bytes by (cbn in Hv; width; lia). unfold entry_bytes, version_bytes. cbn.
  by rewrite <- !app_assoc.
Qed.

Lemma encode_versions_bytes vs : forall buf,
  Forall is_u16 vs ->
  fold_left (fun buf v => encode_u64 buf v) vs buf = buf ++ concat (map version_bytes vs).
Proof.
  induction vs as [|v vs IH]; intros buf Hvs; cbn [fold_left map concat]; [by rewrite app_nil_r|].
  apply Forall_cons in Hvs as [Hv Hvs]. rewrite IH, encode_u64_bytes by (done || (width; lia)).
  by rewrite <- app_assoc.
Qed.

Ltac small := first [done | unfold isize_max in *; width; lia].

Lemma encode_refuse_bytes buf r : refuse_ok r -> encode_refuse_reason buf r = buf ++ refuse_bytes r.
Proof.
  destruct r as [vs|v s|v s]; cbn [refuse_ok encode_refuse_reason refuse_bytes].
  - intros [Hvs Hl]. pose proof (blen_nonneg vs).
    rewrite encode_versions_bytes, !encode_array_header_bytes, encode_u64_bytes by small.
    by rewrite <- !app_assoc.
  - intros (Hv & _ & _ & Hl). pose proof (blen_nonneg s).
    rewrite encode_text_bytes, !encode_u64_bytes, encode_array_header_bytes by small.
    by rewrite <- !app_assoc.
  - intros (Hv & _ & _ & Hl). pose proof (blen_nonneg s).
    rewrite encode_text_bytes, !encode_u64_bytes, encode_array_header_bytes by small.
    by rewrite <- !app_assoc.
Qed.

Lemma encode_handshake_bytes m : handshake_ok m -> encode_handshake_message m = message_bytes m.
Proof.
  destruct m as [t|v p|r|t]; cbn [handshake_ok encode_handshake_message message_bytes].
  - intros Ht. by rewrite encode_version_table_bytes, encode_u64_bytes, encode_array_header_bytes,
      <- !app_assoc by small.
  - intros [Hv _]. by rewrite !encode_u64_bytes, encode_array_header_bytes, <- !app_assoc by small.
  - intros Hr. by rewrite encode_refuse_bytes, encode_u64_bytes, encode_array_header_bytes,
      <- !app_assoc by small.
  - intros Ht. by rewrite encode_version_table_bytes, encode_u64_bytes, encode_array_header_bytes,
      <- !app_assoc by small.
Qed.

Lemma concat_ok {A} (f : A -> list Z) l : Forall (fun x => bytes_ok (f x)) l -> bytes_ok (concat (map f l)).
Proof. induction 1; cbn; [constructor|]. by apply bytes_ok_app. Qed.

Lemma version_bytes_ok v : is_u16 v -> bytes_ok (version_bytes v).
Proof. intros Hv. apply argument_bytes_ok; [by unfold MAJOR_UNSIGNED|]. small. Qed.

Ltac bytes :=
  repeat first [ match goal with |- bytes_ok (_ ++ _) => apply bytes_ok_app; split end | assumption
    | apply version_bytes_ok; small | apply argument_bytes_ok; [done|small] | apply concat_ok ].

Lemma table_bytes_ok t : table_ok t -> bytes_ok (table_bytes t).
Proof.
  intros [Ht Hl]. pose proof (blen_nonneg t). unfold table_bytes. bytes.
  eapply Forall_impl; [exact Ht|]. intros [v p] [Hv [Hp _]]. unfold entry_bytes. cbn in *. bytes.
Qed.

Lemma refuse_bytes_ok r : refuse_ok r -> bytes_ok (refuse_bytes r).
Proof.
  destruct r as [vs|v s|v s]; cbn [refuse_ok refuse_bytes]; unfold text_bytes.
  - intros [Hvs Hl]. pose proof (blen_nonneg vs). bytes.
    eapply Forall_impl; [exact Hvs|]. intros v Hv. by apply version_bytes_ok.
  - intros (Hv & _ & Hs & Hl). pose proof (blen_nonneg s). bytes.
  - intros (Hv & _ & Hs & Hl). pose proof (blen_nonneg s). bytes.
Qed.

Lemma message_bytes_ok m : handshake_ok m -> bytes_ok (message_bytes m).
Proof.
  destruct m as [t|v p|r|t]; cbn [handshake_ok message_bytes].
  - intros Ht. bytes. by apply table_bytes_ok.
  - intros [Hv [Hp _]]. bytes.
  - intros Hr. bytes. by apply refuse_bytes_ok.
  - intros Ht. bytes. by apply table_bytes_ok.
Qed.

Lemma reads_version v : is_u16 v -> reads decode_version (version_bytes v) v.
Proof.
  intros Hv. eapply reads_end; [apply reads_decode_u32; small|].
  destruct (Z.ltb_spec u16_max v); [width; lia|].
  unfold as_u16. rewrite Z.mod_small by small. apply reads_ret.
Qed.

Lemma reads_version_table t : table_ok t -> reads decode_version_table (table_bytes t) t.
Proof.
  intros [Ht Hl]. pose proof (blen_nonneg t).
  eapply reads_bind; [apply reads_lift, reads_map_header; small|].
  eapply reads_bind_nil; [by apply reads_capacity|].
  replace (Z.to_nat (blen t)) with (length t) by (unfold blen; lia).
  apply reads_repeat. eapply Forall_impl; [exact Ht|]. intros [v p] [Hv Hp]. cbn in Hv, Hp.
  eapply reads_bind; [by apply reads_version|]. eapply reads_end; [by apply reads_raw_item|].
  apply reads_ret.
Qed.

Lemma reads_refuse_reason r : refuse_ok r -> reads (decode_refuse_reason utf8_valid) (refuse_bytes r) r.
Proof.
  destruct r as [vs|v s|v s]; cbn [refuse_ok refuse_bytes]; unfold decode_refuse_reason.
  - intros [Hvs Hl]. pose proof (blen_nonneg vs).
    eapply reads_bind; [apply reads_decode_array_header; small|]. cbn [Z.ltb Z.compare Pos.compare Pos.compare_cont].
    eapply reads_bind; [apply reads_decode_u64; small|]. cbn [Z.eqb Pos.eqb andb].
    eapply reads_bind; [apply reads_decode_array_header; small|].
    replace (Z.to_nat (blen vs)) with (length vs) by (unfold blen; lia).
    eapply reads_end; [|apply reads_ret]. apply reads_repeat.
    eapply Forall_impl; [exact Hvs|]. intros v Hv. by apply reads_version.
  - intros (Hv & Hu & _ & Hl). pose proof (blen_nonneg s).
    eapply reads_bind; [apply reads_decode_array_header; small|]. cbn [Z.ltb Z.compare Pos.compare Pos.compare_cont].
    eapply reads_bind; [apply reads_decode_u64; small|]. cbn [Z.eqb Pos.eqb andb].
    eapply reads_bind; [by apply reads_version|].
    eapply reads_end; [apply reads_decode_text; [small|done]|apply reads_ret].
  - intros (Hv & Hu & _ & Hl). pose proof (blen_nonneg s).
    eapply reads_bind; [apply reads_decode_array_header; small|]. cbn [Z.ltb Z.compare Pos.compare Pos.compare_cont].
    eapply reads_bind; [apply reads_decode_u64; small|]. cbn [Z.eqb Pos.eqb andb].
    eapply reads_bind; [by apply reads_version|].
    eapply reads_end; [apply reads_decode_text; [small|done]|apply reads_ret].
Qed.

Lemma reads_handshake_body m :
  handshake_ok m -> reads (decode_handshake_body utf8_valid) (message_bytes m) m.
Proof.
  intros Hm. destruct m as [t|v p|r|t]; cbn [handshake_ok message_bytes] in *; unfold decode_handshake_body;
    (eapply reads_bind; [apply reads_decode_array_header; small|]);
    cbn [Z.ltb Z.compare Pos.compare Pos.compare_cont];
    (eapply reads_bind; [apply reads_decode_u64; small|]); cbn [Z.eqb Pos.eqb andb].
  - eapply reads_end; [by apply reads_version_table|apply reads_ret].
  - destruct Hm as [Hv Hp]. eapply reads_bind; [by apply reads_version|].
    eapply reads_end; [by apply reads_raw_item|apply reads_ret].
  - eapply reads_end; [by apply reads_refuse_reason|apply reads_ret].
  - eapply reads_end; [by apply reads_version_table|apply reads_ret].
Qed.

Lemma handshake_decode_encode m :
  handshake_ok m -> blen (encode_handshake_message m) <= isize_max ->
  decode_handshake_message utf8_valid (encode_handshake_message m) = Ok m.
Proof.
  intros Hm. rewrite encode_handshake_bytes by done. intros Hl.
  unfold decode_handshake_message.
  rewrite reads_whole with (bytes := message_bytes m) (a := m);
    [|by apply reads_handshake_body|by apply message_bytes_ok|small].
  by destruct m.
Qed.
End RoundTrip.

(** A handshake message survives its encoding: for every message of the source's types,
    whose texts are valid and whose parameters are one CBOR item each, decoding the encoded
    bytes gives the message back, with nothing left over. *)
Theorem handshake_message_roundtrip utf8_valid m
    (Hm : handshake_ok utf8_valid m) (Hl : blen (encode_handshake_message m) <= isize_max) :
  decode_handshake_message utf8_valid (encode_handshake_message m) = Ok m.
Proof. by apply handshake_decode_encode. Qed.

(** A ten-byte message makes the decoder allocate for the entry count it declares: the
    capacity overflows and the decoder panics instead of reporting truncated input. *)
Theorem version_table_capacity_panic utf8_valid :
  decode_handshake_message utf8_valid (0x82 :: 0x00 :: 0xbb :: repeat 0xff 8) = Err Panicked.
Proof. reflexivity. Qed.

(** * Version selection *)

(** The candidate a pass over the proposal keeps: the highest common version so far. *)
Definition common (seen : list Z) (supported : list (Z * VersionData)) (v : Z) : Prop :=
  v ∈ seen /\ v ∈ map fst supported.

Definition keeps_best (seen : list Z) (supported : list (Z * VersionData))
    (best : option (Z * VersionData)) : Prop :=
  match best with
  | None => forall v, ~ common seen supported v
  | Some (b, d) => b ∈ seen /\ (b, d) ∈ supported /\ forall v, common seen supported v -> v <= b
  end.

Lemma best_among_spec supported pv : forall best,
  best_among supported best pv =
    if bool_decide (pv ∈ map fst supported) && improves best pv
    then match local_data supported pv with Some d => Some (pv, d) | None => best end
    else best.
Proof.
  unfold best_among. induction supported as [|[v d] supported IH]; intros best; cbn; [done|].
  rewrite IH. destruct (Z.eqb_spec v pv) as [->|Hne]; cbn.
  - assert (Hin : pv ∈ pv :: map fst supported) by by left.
    rewrite (bool_decide_eq_true_2 _ Hin). cbn.
    destruct (improves best pv) eqn:Hi; cbn.
    + cbn [improves]. by rewrite Z.ltb_irrefl, andb_false_r.
    + rewrite Hi. by destruct (bool_decide _).
  - destruct (bool_decide (pv ∈ map fst supported)) eqn:Hb.
    + apply bool_decide_eq_true in Hb. by rewrite (bool_decide_eq_true_2 (pv ∈ v :: _)) by (by right).
    + apply bool_decide_eq_false in Hb. rewrite (bool_decide_eq_false_2 (pv ∈ v :: _)); [done|].
      intros H. apply elem_of_cons in H as [->|]; done.
Qed.

Lemma local_data_some supported pv : pv ∈ map fst supported -> exists d, local_data supported pv = Some d.
Proof.
  induction supported as [|[v d] supported IH]; cbn; intros H; [by apply not_elem_of_nil in H|].
  destruct (Z.eqb_spec v pv); [eauto|]. apply IH. apply elem_of_cons in H as [->|]; done.
Qed.

Lemma local_data_elem supported pv d : local_data supported pv = Some d -> (pv, d) ∈ supported.
Proof.
  induction supported as [|[v d'] supported IH]; cbn; [done|].
  destruct (Z.eqb_spec v pv) as [->|]; [intros [= ->]; by left|]. intros. right. auto.
Qed.

Lemma elem_fst (supported : list (Z * VersionData)) v d : (v, d) ∈ supported -> v ∈ map fst supported.
Proof. intros H. apply list_elem_of_In. apply list_elem_of_In in H. by apply (in_map fst) in H. Qed.

Lemma keeps_best_step seen supported best pv :
  keeps_best seen supported best ->
  keeps_best (seen ++ [pv]) supported (best_among supported best pv).
Proof.
  intros Hk. rewrite best_among_spec.
  assert (Hold : forall v, common (seen ++ [pv]) supported v <->
            common seen supported v \/ (v = pv /\ pv ∈ map fst supported)).
  { intros v. unfold common. rewrite elem_of_app, list_elem_of_singleton.
    split; [intros [[?| ->] ?]; auto | intros [[? ?]|[-> ?]]; auto]. }
  destruct (bool_decide (pv ∈ map fst supported)) eqn:Hin; cbn.
  2:{ apply bool_decide_eq_false in Hin. destruct best as [[b d]|]; cbn in *.
      - destruct Hk as (Hb & Hd & Hmax). split_and!; [apply elem_of_app; by left|done|].
        intros v Hv. apply Hold in Hv as [Hv|[_ ?]]; [by apply Hmax|done].
      - intros v Hv. apply Hold in Hv as [Hv|[_ ?]]; [by apply (Hk v)|done]. }
  apply bool_decide_eq_true in Hin. destruct (local_data_some supported pv Hin) as [d0 Hd0].
  rewrite Hd0. apply local_data_elem in Hd0.
  assert (Hself : pv ∈ seen ++ [pv]) by (apply elem_of_app; right; by apply list_elem_of_singleton).
  destruct best as [[b d]|]; cbn in *.
  - destruct Hk as (Hb & Hd & Hmax). destruct (Z.ltb_spec b pv); cbn.
    + split_and!; [done|done|]. intros v Hv. apply Hold in Hv as [Hv|[-> _]]; [|lia].
      pose proof (Hmax v Hv). lia.
    + split_and!; [apply elem_of_app; by left|done|].
      intros v Hv. apply Hold in Hv as [Hv|[-> _]]; [by apply Hmax|lia].
  - split_and!; [done|done|]. intros v Hv. apply Hold in Hv as [Hv|[-> _]]; [|lia].
    by destruct (Hk v).
Qed.

Lemma keeps_best_fold supported proposed : forall seen best,
  keeps_best seen supported best ->
  keeps_best (seen ++ proposed_n2n_versions proposed) supported
    (fold_left (fun best '(v_peer, _) => best_among supported best v_peer) proposed best).
Proof.
  induction proposed as [|[v p] proposed IH]; intros seen best Hk; cbn [fold_left proposed_n2n_versions map fst];
    [by rewrite app_nil_r|].
  fold (proposed_n2n_versions proposed).
  replace (seen ++ v :: proposed_n2n_versions proposed)
    with ((seen ++ [v]) ++ proposed_n2n_versions proposed) by by rewrite <- app_assoc.
  apply IH. by apply keeps_best_step.
Qed.

Lemma select_version_spec proposed supported :
  match select_n2n_version proposed supported with
  | Selected v d =>
      v ∈ proposed_n2n_versions proposed /\ (v, d) ∈ supported /\
      forall v', common (proposed_n2n_versions proposed) supported v' -> v' <= v
  | Mismatch vs =>
      vs = supported_n2n_versions supported /\
      forall v', ~ common (proposed_n2n_versions proposed) supported v'
  end.
Proof.
  unfold select_n2n_version.
  pose proof (keeps_best_fold supported proposed [] None) as Hk. cbn [app] in Hk.
  destruct (fold_left _ proposed None) as [[v d]|]; cbn in Hk.
  - apply Hk. intros v' [H _]. by apply not_elem_of_nil in H.
  - split; [done|]. apply Hk. intros v' [H _]. by apply not_elem_of_nil in H.
Qed.

(** What a responder does with a proposal: it selects the highest version both sides know,
    with its own data for it, and terminates; it reports a mismatch exactly when there is
    no common version, and a malformed message exactly when the proposal is empty. *)
Theorem responder_selects_highest_common table supported :
  match n2n_transition HS_Idle ClientHasAgency supported (ProposeVersions table) with
  | Ok (st, HO_Selected v d) =>
      st = HS_Done /\ v ∈ proposed_n2n_versions table /\ (v, d) ∈ supported /\
      forall v', v' ∈ proposed_n2n_versions table -> v' ∈ supported_n2n_versions supported -> v' <= v
  | Ok _ => False
  | Err (HE_VersionMismatch p s) =>
      table <> [] /\ p = proposed_n2n_versions table /\ s = supported_n2n_versions supported /\
      forall v', v' ∈ p -> v' ∈ s -> False
  | Err (HE_MalformedMessage _) => table = []
  | Err _ => False
  end.
Proof.
  cbn [n2n_transition]. destruct table as [|e table]; [done|].
  pose proof (select_version_spec (e :: table) supported) as Hs.
  destruct (select_n2n_version (e :: table) supported) as [v d|vs].
  - destruct Hs as (Hv & Hd & Hmax). split_and!; [done..|]. intros v' Hp Hl. apply Hmax. by split.
  - destruct Hs as [-> Hno]. split_and!; [done..|]. intros v' Hp Hl. by apply (Hno v').
Qed.

Lemma handshake_message_roundtrip_witness :
  decode_handshake_message (fun _ => true)
    (encode_handshake_message (Refuse (HandshakeDecodeError 15 [110; 111]))) =
  Ok (Refuse (HandshakeDecodeError 15 [110; 111])).
Proof.
  apply (handshake_message_roundtrip (fun _ => true)).
  - split; [width; lia|]. split; [reflexivity|].
    split; [repeat constructor; vm_compute; congruence|vm_compute; congruence].
  - vm_compute. congruence.
Defined.
