(* ===== verification/Session.v ===== *)
(** The peer session: [ade_network/src/session/event.rs], [state.rs] and the reducer
    [core.rs], over the multiplexer and the handshake.

    [step] takes a state and an event to a result and the state the [&mut] argument is
    left in, on the error paths too.  Errors are [Failed]; [Panicked] is a panic of the
    handshake decoder.  The loops run on fuel, one turn per buffered byte and one more,
    which is always enough. *)

From S2P Require Import Prelude Cbor Mux NetCodec Handshake.

(** * Registry, events, effects and errors ([event.rs]) *)

Inductive AcceptedMiniProtocol : Type :=
| MP_Handshake | MP_ChainSync | MP_BlockFetch | MP_TxSubmission | MP_LocalChainSync
| MP_LocalTxSubmission | MP_LocalStateQuery | MP_KeepAlive | MP_LocalTxMonitor | MP_PeerSharing.

#[global] Instance AcceptedMiniProtocol_eq_dec : EqDecision AcceptedMiniProtocol.
Proof. solve_decision. Defined.

Definition HANDSHAKE_ID : Z := 0.

Definition mp_id (p : AcceptedMiniProtocol) : Z :=
  match p with
  | MP_Handshake => HANDSHAKE_ID
  | MP_ChainSync => 2
  | MP_BlockFetch => 3
  | MP_TxSubmission => 4
  | MP_LocalChainSync => 5
  | MP_LocalTxSubmission => 6
  | MP_LocalStateQuery => 7
  | MP_KeepAlive => 8
  | MP_LocalTxMonitor => 9
  | MP_PeerSharing => 10
  end.

Definition mp_from_id (id : Z) : option AcceptedMiniProtocol :=
  if id =? 0 then Some MP_Handshake
  else if id =? 2 then Some MP_ChainSync
  else if id =? 3 then Some MP_BlockFetch
  else if id =? 4 then Some MP_TxSubmission
  else if id =? 5 then Some MP_LocalChainSync
  else if id =? 6 then Some MP_LocalTxSubmission
  else if id =? 7 then Some MP_LocalStateQuery
  else if id =? 8 then Some MP_KeepAlive
  else if id =? 9 then Some MP_LocalTxMonitor
  else if id =? 10 then Some MP_PeerSharing
  else None.

Inductive ByteChunkIn : Type :=
| Inbound (bytes : list Z)
| OutboundFrame (mini_protocol : AcceptedMiniProtocol) (payload : list Z) (mode : MuxMode)
    (timestamp : Z)
| HandshakeStartInitiator (proposal : HandshakeMessage).

Inductive SessionEffect : Type :=
| SendBytes (bytes : list Z)
| DeliverPeerFrame (mini_protocol : AcceptedMiniProtocol) (payload : list Z)
| HandshakeComplete (version : Z) (params : VersionData).

Inductive SessionError : Type :=
| UnknownMiniProtocolId (id : Z)
| PreHandshakeMiniProtocolFrame (id : Z)
| PostHandshakeHandshakeFrame
| SE_Mux (e : MuxError)
| SE_Handshake (e : HandshakeError)
| OutboundPayloadTooLarge (len : Z)
| ProtocolPayloadMalformed (protocol : Z) (detail : string)
| ReassemblyBufferOverflow (protocol len cap : Z).

Inductive HandshakeRole : Type := Role_Initiator | Role_Responder.

#[global] Instance SessionEffect_eq_dec : EqDecision SessionEffect.
Proof. solve_decision. Defined.
#[global] Instance SessionError_eq_dec : EqDecision SessionError.
Proof. solve_decision. Defined.
#[global] Instance HandshakeRole_eq_dec : EqDecision HandshakeRole.
Proof. solve_decision. Defined.

(** * State ([state.rs]) *)

Record HandshakeProgress : Type := mk_HandshakeProgress {
  hp_role : HandshakeRole;
  hp_inner : HandshakeState;
  hp_buffer : FrameBuffer;
  hp_proposal_sent : bool;
}.

Record ProtoBuffers : Type := mk_ProtoBuffers {
  pb_handshake : list Z;
  pb_chain_sync : list Z;
  pb_block_fetch : list Z;
  pb_tx_submission : list Z;
  pb_local_chain_sync : list Z;
  pb_local_tx_submission : list Z;
  pb_local_state_query : list Z;
  pb_keep_alive : list Z;
  pb_local_tx_monitor : list Z;
  pb_peer_sharing : list Z;
}.

Record ConnectedState : Type := mk_ConnectedState {
  negotiated_version : Z;
  negotiated_params : VersionData;
  cs_buffer : FrameBuffer;
  next_outbound_seq : Z;
  proto_buffers : ProtoBuffers;
}.

Inductive SessionState : Type :=
| Handshaking (p : HandshakeProgress)
| Connected (c : ConnectedState).

Definition new_initiator : SessionState :=
  Handshaking (mk_HandshakeProgress Role_Initiator HS_Idle [] false).
Definition new_responder : SessionState :=
  Handshaking (mk_HandshakeProgress Role_Responder HS_Idle [] false).

Definition is_connected (s : SessionState) : bool :=
  match s with Connected _ => true | Handshaking _ => false end.

Definition no_buffers : ProtoBuffers := mk_ProtoBuffers [] [] [] [] [] [] [] [] [] [].

Definition connected_new (version : Z) (params : VersionData) : ConnectedState :=
  mk_ConnectedState version params [] 0 no_buffers.

(** [get_mut], read and written. *)
Definition get_buffer (b : ProtoBuffers) (p : AcceptedMiniProtocol) : list Z :=
  match p with
  | MP_Handshake => pb_handshake b
  | MP_ChainSync => pb_chain_sync b
  | MP_BlockFetch => pb_block_fetch b
  | MP_TxSubmission => pb_tx_submission b
  | MP_LocalChainSync => pb_local_chain_sync b
  | MP_LocalTxSubmission => pb_local_tx_submission b
  | MP_LocalStateQuery => pb_local_state_query b
  | MP_KeepAlive => pb_keep_alive b
  | MP_LocalTxMonitor => pb_local_tx_monitor b
  | MP_PeerSharing => pb_peer_sharing b
  end.

Definition set_buffer (b : ProtoBuffers) (p : AcceptedMiniProtocol) (v : list Z) : ProtoBuffers :=
  let pick q old := if decide (p = q) then v else old in
  mk_ProtoBuffers (pick MP_Handshake (pb_handshake b)) (pick MP_ChainSync (pb_chain_sync b))
    (pick MP_BlockFetch (pb_block_fetch b)) (pick MP_TxSubmission (pb_tx_submission b))
    (pick MP_LocalChainSync (pb_local_chain_sync b))
    (pick MP_LocalTxSubmission (pb_local_tx_submission b))
    (pick MP_LocalStateQuery (pb_local_state_query b)) (pick MP_KeepAlive (pb_keep_alive b))
    (pick MP_LocalTxMonitor (pb_local_tx_monitor b)) (pick MP_PeerSharing (pb_peer_sharing b)).

Definition with_pending (c : ConnectedState) (pending : FrameBuffer) : ConnectedState :=
  mk_ConnectedState (negotiated_version c) (negotiated_params c) pending (next_outbound_seq c)
    (proto_buffers c).
Definition with_proto_buffer (c : ConnectedState) (p : AcceptedMiniProtocol) (v : list Z) :
    ConnectedState :=
  mk_ConnectedState (negotiated_version c) (negotiated_params c) (cs_buffer c) (next_outbound_seq c)
    (set_buffer (proto_buffers c) p v).
Definition with_hs_buffer (p : HandshakeProgress) (pending : FrameBuffer) : HandshakeProgress :=
  mk_HandshakeProgress (hp_role p) (hp_inner p) pending (hp_proposal_sent p).
Definition with_inner (p : HandshakeProgress) (st : HandshakeState) : HandshakeProgress :=
  mk_HandshakeProgress (hp_role p) st (hp_buffer p) (hp_proposal_sent p).

(** * Connected sessions *)

Definition MAX_REASSEMBLY_TAIL_BYTES : Z := 16 * 1024 * 1024.
Definition MAX_OUTBOUND_PAYLOAD_BYTES : Z := 16 * 1024 * 1024.

Definition codec_error_detail (e : CodecError) : string :=
  match e with
  | UnexpectedEof _ _ => "unexpected_eof"
  | UnknownEraTag _ => "unknown_era_tag"
  | UnknownCertTag _ _ => "unknown_cert_tag"
  | InvalidCborStructure _ _ => "invalid_cbor_structure"
  | TrailingBytes _ _ => "trailing_bytes"
  | UnexpectedCborType _ _ _ => "unexpected_cbor_type"
  | InvalidLength _ _ => "invalid_length"
  | DuplicateMapKey _ => "duplicate_map_key"
  end.

Definition Effects : Type := list SessionEffect.

(** [drain_protocol_items]: the buffer and the effects are [&mut] arguments. *)
Fixpoint drain_items (fuel : nat) (proto : AcceptedMiniProtocol) (buf : list Z)
    (effects : Effects) : option (result unit SessionError * list Z * Effects) :=
  match fuel with
  | O => None
  | S fuel =>
      if blen buf =? 0 then Some (Ok tt, buf, effects) else
      match skip_item buf 0 with
      | (Ok _, offset) =>
          let payload := slice buf 0 offset in
          drain_items fuel proto (slice buf offset (blen buf))
            (effects ++ [DeliverPeerFrame proto payload])
      | (Err (UnexpectedEof _ _), _) => Some (Ok tt, buf, effects)
      | (Err e, _) =>
          Some (Err (ProtocolPayloadMalformed (mp_id proto) (codec_error_detail e)), buf, effects)
      end
  end.

Definition drain_protocol_items (proto : AcceptedMiniProtocol) (buf : list Z) (effects : Effects) :
    result unit SessionError * list Z * Effects :=
  match drain_items (S (length buf)) proto buf effects with
  | Some r => r
  | None => (Ok tt, buf, effects)
  end.

(** The body of the loop of [drain_connected_frames], for a frame already pulled. *)
Definition handle_frame (c : ConnectedState) (frame : MuxFrame) (effects : Effects) :
    result Effects SessionError * ConnectedState :=
  let id := mh_mini_protocol_id (mf_header frame) in
  match mp_from_id id with
  | None => (Err (UnknownMiniProtocolId id), c)
  | Some MP_Handshake => (Err PostHandshakeHandshakeFrame, c)
  | Some proto =>
      let buf := get_buffer (proto_buffers c) proto ++ mf_payload frame in
      match drain_protocol_items proto buf effects with
      | (Err e, buf, _) => (Err e, with_proto_buffer c proto buf)
      | (Ok _, buf, effects) =>
          if MAX_REASSEMBLY_TAIL_BYTES <? blen buf
          then (Err (ReassemblyBufferOverflow (mp_id proto) (blen buf) MAX_REASSEMBLY_TAIL_BYTES),
                with_proto_buffer c proto buf)
          else (Ok effects, with_proto_buffer c proto buf)
      end
  end.

Fixpoint connected_loop (fuel : nat) (c : ConnectedState) (effects : Effects) :
    option (result Effects SessionError * ConnectedState) :=
  match fuel with
  | O => None
  | S fuel =>
      match pull_one_frame (cs_buffer c) with
      | (Err e, pending) => Some (Err (SE_Mux e), with_pending c pending)
      | (Ok None, pending) => Some (Ok effects, with_pending c pending)
      | (Ok (Some frame), pending) =>
          match handle_frame (with_pending c pending) frame effects with
          | (Ok effects, c) => connected_loop fuel c effects
          | (Err e, c) => Some (Err e, c)
          end
      end
  end.

Definition drain_connected_frames (c : ConnectedState) : result Effects SessionError * ConnectedState :=
  match connected_loop (S (length (cs_buffer c))) c [] with
  | Some r => r
  | None => (Ok [], c)
  end.

(** * Sending *)

Definition encode_inner_frame (proto : AcceptedMiniProtocol) (payload : list Z) (mode : MuxMode)
    (timestamp : Z) : result (list Z) (Fault SessionError) :=
  if MAX_PAYLOAD <? blen payload then Err (Failed (OutboundPayloadTooLarge (blen payload))) else
  let length := as_u16 (blen payload) in
  let? id := map_err (fun _ => Panicked) (MiniProtocolId_new (mp_id proto)) in
  map_err (fun e => Failed (SE_Mux e))
    (encode_frame (mk_MuxFrame (mk_MuxHeader timestamp mode id length) payload)).

(** [payload.chunks(n)]. *)
Fixpoint chunks_fuel (fuel n : nat) (l : list Z) : list (list Z) :=
  match fuel, l with
  | S fuel, _ :: _ => take n l :: chunks_fuel fuel n (drop n l)
  | _, _ => []
  end.
Definition chunks (n : Z) (l : list Z) : list (list Z) := chunks_fuel (length l) (Z.to_nat n) l.

Fixpoint encode_chunks (proto : AcceptedMiniProtocol) (mode : MuxMode) (timestamp : Z)
    (l : list (list Z)) (frames : list Z) : result (list Z) (Fault SessionError) :=
  match l with
  | [] => Ok frames
  | chunk :: l =>
      let? bytes := encode_inner_frame proto chunk mode timestamp in
      encode_chunks proto mode timestamp l (frames ++ bytes)
  end.

Definition count_outbound (s : SessionState) : SessionState :=
  match s with
  | Connected c =>
      Connected (mk_ConnectedState (negotiated_version c) (negotiated_params c) (cs_buffer c)
                   (as_u64 (next_outbound_seq c + 1)) (proto_buffers c))
  | Handshaking p => Handshaking p
  end.

Definition StepResult : Type := result Effects (Fault SessionError) * SessionState.

Definition handle_outbound (s : SessionState) (proto : AcceptedMiniProtocol) (payload : list Z)
    (mode : MuxMode) (timestamp : Z) : StepResult :=
  if MAX_OUTBOUND_PAYLOAD_BYTES <? blen payload
  then (Err (Failed (OutboundPayloadTooLarge (blen payload))), s) else
  let s := count_outbound s in
  if negb (is_connected s) && negb (bool_decide (proto = MP_Handshake))
  then (Err (Failed (PreHandshakeMiniProtocolFrame (mp_id proto))), s) else
  let frames :=
    if blen payload =? 0 then encode_inner_frame proto [] mode timestamp
    else encode_chunks proto mode timestamp (chunks MAX_PAYLOAD payload) [] in
  (let? frames := frames in Ok [SendBytes frames], s).

(** * Handshaking sessions *)

Section Handshake.
Variable utf8_valid : list Z -> bool.

Definition malformed (reason : string) : Fault SessionError :=
  Failed (SE_Handshake (HE_MalformedMessage reason)).

Definition handshake_agency (role : HandshakeRole) (st : HandshakeState) : HandshakeAgency :=
  match role, st with
  | Role_Responder, HS_Idle => ClientHasAgency
  | Role_Initiator, HS_Proposed => ServerHasAgency
  | _, _ => NobodyHasAgency
  end.

Definition handshake_decode_error (e : Fault NetCodecError) : Fault SessionError :=
  match e with
  | Failed _ => malformed "handshake frame failed decode"
  | Panicked => Panicked
  end.

Fixpoint handshake_loop (fuel : nat) (p : HandshakeProgress) (effects : Effects) :
    option StepResult :=
  match fuel with
  | O => None
  | S fuel =>
      match pull_one_frame (hp_buffer p) with
      | (Err e, pending) => Some (Err (Failed (SE_Mux e)), Handshaking (with_hs_buffer p pending))
      | (Ok None, pending) => Some (Ok effects, Handshaking (with_hs_buffer p pending))
      | (Ok (Some frame), pending) =>
          let p := with_hs_buffer p pending in
          let id := mh_mini_protocol_id (mf_header frame) in
          if negb (id =? HANDSHAKE_ID) then
            Some (Err (Failed (match mp_from_id id with
                               | None => UnknownMiniProtocolId id
                               | Some _ => PreHandshakeMiniProtocolFrame id
                               end)), Handshaking p)
          else
          match decode_handshake_message utf8_valid (mf_payload frame) with
          | Err e => Some (Err (handshake_decode_error e), Handshaking p)
          | Ok msg =>
              let agency := handshake_agency (hp_role p) (hp_inner p) in
              match n2n_transition (hp_inner p) agency N2N_SUPPORTED msg with
              | Err e => Some (Err (Failed (SE_Handshake e)), Handshaking p)
              | Ok (new_state, output) =>
                  let p := with_inner p new_state in
                  match output with
                  | HO_Reply reply =>
                      match encode_inner_frame MP_Handshake (encode_handshake_message reply)
                              Responder 0 with
                      | Err e => Some (Err e, Handshaking p)
                      | Ok bytes => handshake_loop fuel p (effects ++ [SendBytes bytes])
                      end
                  | HO_Selected version params =>
                      let accept :=
                        match hp_role p with
                        | Role_Responder =>
                            let? bytes := encode_inner_frame MP_Handshake
                              (encode_handshake_message (AcceptVersion version [0x01])) Responder 0 in
                            Ok [SendBytes bytes]
                        | Role_Initiator => Ok []
                        end in
                      match accept with
                      | Err e => Some (Err e, Handshaking p)
                      | Ok sent =>
                          Some (Ok (effects ++ sent ++ [HandshakeComplete version params]),
                                Connected (connected_new version params))
                      end
                  | HO_Refused _ | HO_Done => Some (Err (malformed "handshake refused"), Handshaking p)
                  end
              end
          end
      end
  end.

Definition drain_handshake_frames (p : HandshakeProgress) : StepResult :=
  match handshake_loop (S (length (hp_buffer p))) p [] with
  | Some r => r
  | None => (Ok [], Handshaking p)
  end.

Definition handle_inbound (s : SessionState) (bytes : list Z) : StepResult :=
  match s with
  | Handshaking p => drain_handshake_frames (with_hs_buffer p (buffer_append (hp_buffer p) bytes))
  | Connected c =>
      let (r, c) := drain_connected_frames (with_pending c (buffer_append (cs_buffer c) bytes)) in
      (map_err Failed r, Connected c)
  end.

Definition handle_handshake_start_initiator (s : SessionState) (proposal : HandshakeMessage) :
    StepResult :=
  match s with
  | Connected _ => (Err (Failed PostHandshakeHandshakeFrame), s)
  | Handshaking p =>
      if negb (bool_decide (hp_role p = Role_Initiator))
      then (Err (malformed "responder cannot start initiator handshake"), s) else
      if hp_proposal_sent p then (Err (malformed "initiator already sent proposal"), s) else
      match encode_inner_frame MP_Handshake (encode_handshake_message proposal) Initiator 0 with
      | Err e => (Err e, s)
      | Ok bytes =>
          (Ok [SendBytes bytes],
           Handshaking (mk_HandshakeProgress (hp_role p) HS_Proposed (hp_buffer p) true))
      end
  end.

Definition step (s : SessionState) (event : ByteChunkIn) : StepResult :=
  match event with
  | Inbound bytes => handle_inbound s bytes
  | OutboundFrame proto payload mode timestamp => handle_outbound s proto payload mode timestamp
  | HandshakeStartInitiator proposal => handle_handshake_start_initiator s proposal
  end.
End Handshake.
