(* ===== verification/SessionFacts.v ===== *)
(** Theorems on connected sessions: how the bytes of a stream were cut into chunks and
    frames does not matter, every payload byte is delivered exactly once and as whole CBOR
    items, and what one session segments another reassembles.

    [run_frames] is the connected loop over the frames its buffer holds; [continues]
    relates the states before and after such a run and composes. *)

From S2P Require Import Prelude Cbor CborSkip CborRoundtrip CborPrefix.
From S2P Require Import Mux NetCodec Handshake Session.

(** * A connected session as a run over frames *)

Fixpoint run_frames (c : ConnectedState) (fs : list MuxFrame) (effects : Effects) :
    result Effects SessionError * ConnectedState :=
  match fs with
  | [] => (Ok effects, c)
  | f :: fs =>
      match handle_frame c f effects with
      | (Ok effects, c) => run_frames c fs effects
      | (Err e, c) => (Err e, c)
      end
  end.

Lemma run_frames_app c fs gs effects :
  run_frames c (fs ++ gs) effects =
    match run_frames c fs effects with
    | (Ok effects, c) => run_frames c gs effects
    | (Err e, c) => (Err e, c)
    end.
Proof.
  revert c effects. induction fs as [|f fs IH]; intros c effects; cbn; [done|].
  by destruct (handle_frame c f effects) as [[?|?] ?].
Qed.

Lemma handle_frame_pending c pending f effects :
  handle_frame (with_pending c pending) f effects =
    (fst (handle_frame c f effects), with_pending (snd (handle_frame c f effects)) pending).
Proof.
  unfold handle_frame. destruct (mp_from_id _) as [p|]; [|done].
  destruct p; try done; cbn [proto_buffers with_pending];
    destruct (drain_protocol_items _ _ effects) as [[[?|?] ?] ?]; try done;
    by destruct (_ <? _).
Qed.

Lemma run_frames_pending fs : forall c pending effects,
  run_frames (with_pending c pending) fs effects =
    (fst (run_frames c fs effects), with_pending (snd (run_frames c fs effects)) pending).
Proof.
  induction fs as [|f fs IH]; intros c pending effects; cbn [run_frames]; [done|].
  rewrite handle_frame_pending. destruct (handle_frame c f effects) as [[e|e] c']; cbn; auto.
Qed.

Lemma with_pending_twice c a b : with_pending (with_pending c a) b = with_pending c b.
Proof. by destruct c. Qed.

(** The loop over the buffer is the run over the frames it holds. *)
Lemma connected_loop_run fs rest : forall fuel c effects,
  Forall frame_ok fs -> incomplete rest -> bytes_ok rest ->
  (length (concat (map frame_bytes fs) ++ rest) < fuel)%nat ->
  cs_buffer c = concat (map frame_bytes fs) ++ rest ->
  exists c', connected_loop fuel c effects = Some (fst (run_frames c fs effects), c') /\
    (is_ok (fst (run_frames c fs effects)) = true ->
     c' = with_pending (snd (run_frames c fs effects)) rest).
Proof.
  induction fs as [|f fs IH]; intros [|fuel] c effects Hfs Hi Hrest Hfuel Hc; try lia;
    cbn [connected_loop map concat app run_frames] in *.
  - rewrite Hc. destruct (pull_one_frame_cases rest Hrest) as [(f & r & Hf & Hr & _)|(_ & _ & ->)];
      [by destruct (Hi f r Hf)|].
    by exists (with_pending c rest).
  - apply Forall_cons in Hfs as [Hf Hfs]. rewrite <- app_assoc in *.
    rewrite Hc, pull_frame_head by done. rewrite handle_frame_pending.
    destruct (frame_bytes_ok f Hf) as [Hlen _].
    destruct (handle_frame c f effects) as [[ef|e] c1]; cbn [fst snd is_ok];
      [|eexists; split; [reflexivity|done]].
    destruct (IH fuel (with_pending c1 (concat (map frame_bytes fs) ++ rest)) ef) as (c' & -> & Hc'); try done.
    { rewrite !length_app in *. pose proof (blen_nonneg (mf_payload f)). unfold blen, HEADER_LEN in *. lia. }
    rewrite run_frames_pending in *. cbn [fst snd] in *. exists c'. split; [done|].
    intros Hok. rewrite (Hc' Hok). apply with_pending_twice.
Qed.

Lemma drain_connected_run c fs rest :
  Forall frame_ok fs -> incomplete rest -> bytes_ok rest ->
  cs_buffer c = concat (map frame_bytes fs) ++ rest ->
  exists c', drain_connected_frames c = (fst (run_frames c fs []), c') /\
    (is_ok (fst (run_frames c fs [])) = true -> c' = with_pending (snd (run_frames c fs [])) rest).
Proof.
  intros Hfs Hi Hr Hc. unfold drain_connected_frames.
  destruct (connected_loop_run fs rest (S (length (cs_buffer c))) c []) as (c' & -> & H); eauto.
  rewrite Hc. lia.
Qed.

(** * The effects only grow *)

Lemma drain_items_prefix proto fuel : forall buf e0 effects,
  drain_items fuel proto buf (e0 ++ effects) =
    option_map (fun '(r, b, e) => (r, b, e0 ++ e)) (drain_items fuel proto buf effects).
Proof.
  induction fuel as [|fuel IH]; intros buf e0 effects; cbn [drain_items]; [done|].
  destruct (blen buf =? 0); [done|].
  destruct (skip_item buf 0) as [[?|[]] ?]; try done. by rewrite <- app_assoc, IH.
Qed.

Lemma drain_protocol_prefix proto buf e0 :
  drain_protocol_items proto buf e0 =
    let '(r, b, e) := drain_protocol_items proto buf [] in (r, b, e0 ++ e).
Proof.
  unfold drain_protocol_items. rewrite <- (app_nil_r e0) at 1. rewrite drain_items_prefix.
  destruct (drain_items _ proto buf []) as [[[? ?] ?]|]; cbn; [done|]. by rewrite app_nil_r.
Qed.

Definition prefix_result (e0 : Effects) (r : result Effects SessionError * ConnectedState) :
    result Effects SessionError * ConnectedState :=
  match r with (Ok e, c) => (Ok (e0 ++ e), c) | (Err e, c) => (Err e, c) end.

Lemma handle_frame_prefix c f e0 : handle_frame c f e0 = prefix_result e0 (handle_frame c f []).
Proof.
  unfold handle_frame. destruct (mp_from_id _) as [p|]; [|done].
  destruct p; try done; rewrite drain_protocol_prefix;
    destruct (drain_protocol_items _ _ []) as [[[?|?] ?] ?]; try done; by destruct (_ <? _).
Qed.

Lemma run_frames_prefix fs : forall c e0, run_frames c fs e0 = prefix_result e0 (run_frames c fs []).
Proof.
  induction fs as [|f fs IH]; intros c e0; cbn [run_frames]; [by cbn; rewrite app_nil_r|].
  rewrite handle_frame_prefix. destruct (handle_frame c f []) as [[e|e] c1]; cbn [prefix_result]; [|done].
  rewrite (IH c1 (e0 ++ e)), (IH c1 e). destruct (run_frames c1 fs []) as [[?|?] ?]; cbn; [|done].
  by rewrite app_assoc.
Qed.

(** * Reassembly *)

(** What a reassembly buffer holds between two frames: nothing, or the beginning of an
    item. *)
Definition partial_item (buf : list Z) : Prop :=
  buf = [] \/ exists off needed o, skip_item buf 0 = (Err (UnexpectedEof off needed), o).

(** The payloads delivered for a protocol, and the bytes its frames carry. *)
Definition delivered (p : AcceptedMiniProtocol) (effects : Effects) : list (list Z) :=
  omap (fun e => match e with
                 | DeliverPeerFrame q payload => if decide (q = p) then Some payload else None
                 | _ => None
                 end) effects.

Definition payloads (p : AcceptedMiniProtocol) (fs : list MuxFrame) : list Z :=
  concat (map (fun f => if mh_mini_protocol_id (mf_header f) =? mp_id p then mf_payload f else []) fs).

Definition is_delivery (e : SessionEffect) : Prop :=
  match e with DeliverPeerFrame q _ => q <> MP_Handshake | _ => False end.

Record session_ok (c : ConnectedState) : Prop := {
  so_pending : bytes_ok (cs_buffer c);
  so_pending_bound : blen (cs_buffer c) < HEADER_LEN + MAX_PAYLOAD;
  so_buffer : forall p, bytes_ok (get_buffer (proto_buffers c) p);
  so_partial : forall p, partial_item (get_buffer (proto_buffers c) p);
  so_cap : forall p, blen (get_buffer (proto_buffers c) p) <= MAX_REASSEMBLY_TAIL_BYTES;
}.

Lemma get_set_buffer b p v : get_buffer (set_buffer b p v) p = v.
Proof. by destruct p. Qed.
Lemma get_set_other b p q v : p <> q -> get_buffer (set_buffer b p v) q = get_buffer b q.
Proof. by destruct p, q. Qed.

Lemma mp_from_id_some id p : mp_from_id id = Some p <-> id = mp_id p.
Proof.
  split; [|intros ->; by destruct p]. unfold mp_from_id.
  repeat (bcase; [intros [= <-]; by subst|]). done.
Qed.

Lemma delivered_app p a b : delivered p (a ++ b) = delivered p a ++ delivered p b.
Proof. apply omap_app. Qed.
Lemma delivered_same p l : delivered p (map (DeliverPeerFrame p) l) = l.
Proof. induction l as [|x l IH]; cbn; [done|]. rewrite decide_True by done. cbn. by f_equal. Qed.
Lemma delivered_other p q l : p <> q -> delivered q (map (DeliverPeerFrame p) l) = [].
Proof. intros Hne. induction l as [|x l IH]; cbn; [done|]. by rewrite decide_False by done. Qed.

Lemma item_head_one data o :
  bytes_ok data -> item data 0 o -> one_item (slice data 0 o) /\ data = slice data 0 o ++ slice data o (blen data).
Proof.
  intros Hok Hi. destruct (item_end data 0 o Hok ltac:(lia) Hi) as [Ho Hle].
  assert (Hcut : data = slice data 0 o ++ slice data o (blen data))
    by (rewrite slice_join by lia; by rewrite slice_all).
  split; [|done]. split; [by apply bytes_ok_slice|].
  rewrite blen_slice, Z.sub_0_r by lia.
  apply (item_restrict _ (slice data o (blen data))); rewrite <- ?Hcut; try done; try lia.
  rewrite blen_slice by lia. lia.
Qed.

Lemma drain_items_spec proto fuel : forall buf effects,
  bytes_ok buf -> (length buf < fuel)%nat ->
  exists items r buf',
    drain_items fuel proto buf effects = Some (r, buf', effects ++ map (DeliverPeerFrame proto) items) /\
    Forall one_item items /\ buf = concat items ++ buf' /\ (r = Ok tt -> partial_item buf').
Proof.
  induction fuel as [|fuel IH]; intros buf effects Hok Hfuel; [lia|]. cbn [drain_items].
  destruct (Z.eqb_spec (blen buf) 0) as [Hz|Hz].
  { exists [], (Ok tt), buf. cbn. rewrite app_nil_r. split_and!; [done..|].
    intros _. left. unfold blen in Hz. destruct buf; [done|cbn in Hz; lia]. }
  destruct (skip_item buf 0) as [[[s e]|e] o] eqn:Hs.
  - apply skip_item_spec in Hs as (-> & -> & Hi); [|done|lia].
    destruct (item_end buf 0 o Hok ltac:(lia) Hi) as [Ho Hle].
    destruct (item_head_one buf o Hok Hi) as [Hone Hcut].
    destruct (IH (slice buf o (blen buf)) (effects ++ [DeliverPeerFrame proto (slice buf 0 o)]))
      as (items & r & buf' & -> & Hitems & Hrest & Hp).
    + by apply bytes_ok_slice.
    + pose proof (blen_slice buf o (blen buf) ltac:(lia) ltac:(lia)) as E. unfold blen in *. lia.
    + exists (slice buf 0 o :: items), r, buf'. cbn. rewrite <- !app_assoc, <- Hrest. cbn. auto.
  - assert (Hnil : effects = effects ++ map (DeliverPeerFrame proto) []) by (cbn; by rewrite app_nil_r).
    destruct e; try (exists []; do 2 eexists; rewrite <- Hnil; split_and!; [done|constructor|done|done]).
    exists [], (Ok tt), buf. rewrite <- Hnil. split_and!; [done|constructor|done|]. intros _. right. eauto.
Qed.

Lemma drain_protocol_spec proto buf effects :
  bytes_ok buf ->
  exists items r buf',
    drain_protocol_items proto buf effects = (r, buf', effects ++ map (DeliverPeerFrame proto) items) /\
    Forall one_item items /\ buf = concat items ++ buf' /\ (r = Ok tt -> partial_item buf').
Proof.
  intros Hok. unfold drain_protocol_items.
  destruct (drain_items_spec proto (S (length buf)) buf effects Hok ltac:(lia)) as (items & r & b & -> & H).
  eauto.
Qed.

(** [c'] continues [c] over frames that carry [bytes p] for each protocol, having emitted
    [effects]. *)
Record continues (c c' : ConnectedState) (bytes : AcceptedMiniProtocol -> list Z) (effects : Effects) : Prop := {
  ct_same : negotiated_version c' = negotiated_version c /\ negotiated_params c' = negotiated_params c /\
            cs_buffer c' = cs_buffer c /\ next_outbound_seq c' = next_outbound_seq c;
  ct_kind : Forall is_delivery effects;
  ct_items : forall p, Forall one_item (delivered p effects);
  ct_bytes : forall p, get_buffer (proto_buffers c) p ++ bytes p =
               concat (delivered p effects) ++ get_buffer (proto_buffers c') p;
  ct_ok : session_ok c -> session_ok c';
}.

Lemma handle_frame_continues c f effects c' :
  frame_ok f -> (forall p, bytes_ok (get_buffer (proto_buffers c) p)) ->
  handle_frame c f [] = (Ok effects, c') ->
  continues c c' (fun p => payloads p [f]) effects.
Proof.
  intros Hf Hb H. unfold handle_frame in H.
  destruct (mp_from_id (mh_mini_protocol_id (mf_header f))) as [proto|] eqn:Hid; [|done].
  apply mp_from_id_some in Hid.
  assert (Hbuf : bytes_ok (get_buffer (proto_buffers c) proto ++ mf_payload f))
    by (apply bytes_ok_app; split; [apply Hb|apply Hf]).
  destruct (drain_protocol_spec proto _ [] Hbuf) as (items & r & buf' & E & Hitems & Hcut & Hp).
  assert (Hne : proto <> MP_Handshake) by (intros ->; done).
  assert (H' : r = Ok tt /\ blen buf' <= MAX_REASSEMBLY_TAIL_BYTES /\
             effects = map (DeliverPeerFrame proto) items /\ c' = with_proto_buffer c proto buf').
  { destruct proto; try done; rewrite E in H; cbn [app] in H; destruct r as [[]|]; try done;
      destruct (Z.ltb_spec MAX_REASSEMBLY_TAIL_BYTES (blen buf')); try done; by injection H as <- <-. }
  clear H E. destruct H' as (-> & Hcap & -> & ->).
  assert (Hok' : bytes_ok buf') by (rewrite Hcut in Hbuf; by apply bytes_ok_app in Hbuf as [_ ?]).
  split.
  - done.
  - apply Forall_forall. intros x Hx. apply list_elem_of_In, in_map_iff in Hx as (y & <- & _). done.
  - intros p. destruct (decide (proto = p)) as [->|Hp']; [by rewrite delivered_same|by rewrite delivered_other].
  - intros p. unfold payloads. cbn. rewrite app_nil_r, Hid.
    destruct (decide (proto = p)) as [->|Hp'].
    + by rewrite Z.eqb_refl, delivered_same, get_set_buffer.
    + rewrite delivered_other, get_set_other by done. destruct (Z.eqb_spec (mp_id proto) (mp_id p)) as [E|_].
      * exfalso. apply Hp'. assert (Some proto = Some p) as [= ->]; [|done].
        rewrite <- (proj2 (mp_from_id_some (mp_id proto) proto) eq_refl), E. by apply mp_from_id_some.
      * by rewrite app_nil_r.
  - intros [S1 S2 S3 S4 S5]. split; [done|done|..]; cbn [proto_buffers with_proto_buffer]; intros p;
      (destruct (decide (proto = p)) as [->|?]; [rewrite get_set_buffer; auto|rewrite get_set_other; auto]).
Qed.

Lemma continues_trans c c1 c2 b1 b2 e1 e2 :
  continues c c1 b1 e1 -> continues c1 c2 b2 e2 ->
  continues c c2 (fun p => b1 p ++ b2 p) (e1 ++ e2).
Proof.
  intros [(A1 & A2 & A3 & A4) B C D E] [(A1' & A2' & A3' & A4') B' C' D' E']. split.
  - split_and!; congruence.
  - by apply Forall_app.
  - intros p. rewrite delivered_app. apply Forall_app. auto.
  - intros p. rewrite app_assoc, D, <- app_assoc, D', delivered_app, concat_app. by rewrite app_assoc.
  - auto.
Qed.

Lemma run_frames_continues fs : forall c effects c',
  Forall frame_ok fs -> session_ok c -> run_frames c fs [] = (Ok effects, c') ->
  continues c c' (fun p => payloads p fs) effects.
Proof.
  induction fs as [|f fs IH]; intros c effects c' Hfs Hc H; cbn [run_frames] in H.
  - injection H as <- <-.
    split; [done|constructor|intros p; constructor|intros p; by rewrite app_nil_r|done].
  - apply Forall_cons in Hfs as [Hf Hfs].
    destruct (handle_frame c f []) as [[e1|e1] c1] eqn:H1; [|done].
    rewrite run_frames_prefix in H. destruct (run_frames c1 fs []) as [[e2|e2] c2] eqn:H2; [|done].
    injection H as <- <-.
    assert (Hct : continues c c1 (fun p => payloads p [f]) e1)
      by (apply handle_frame_continues; [done|apply Hc|done]).
    pose proof (IH c1 e2 c2 Hfs (ct_ok _ _ _ _ Hct Hc) H2) as Hct2.
    pose proof (continues_trans _ _ _ _ _ _ _ Hct Hct2) as [A B C D E]. split; auto.
    intros p. rewrite <- D. f_equal. unfold payloads. cbn. by rewrite app_nil_r.
Qed.

(** A byte string has one reading as whole items and the beginning of one more. *)
Lemma one_item_pos x : one_item x -> 0 < blen x.
Proof. intros [Hok Hi]. apply item_end in Hi; [lia|done|lia]. Qed.

Lemma one_item_head x rest :
  one_item x -> bytes_ok (x ++ rest) -> blen (x ++ rest) <= u64_max -> item (x ++ rest) 0 (blen x).
Proof. intros [Hok Hi] Hall Hl. exact (item_extend [] x rest 0 (blen x) Hok Hl ltac:(lia) Hi). Qed.

Lemma partial_not_item r x rest :
  partial_item r -> one_item x -> r = x ++ rest -> bytes_ok r -> blen r <= u64_max -> False.
Proof.
  intros [->|(off & n & o & Hs)] Hx Hr Hok Hl.
  - apply (f_equal blen) in Hr. rewrite blen_app in Hr. apply one_item_pos in Hx.
    pose proof (blen_nonneg rest). rewrite blen_nil in Hr. lia.
  - subst r. pose proof (one_item_head x rest Hx Hok Hl) as Hi.
    rewrite (item_skip _ 0 _ Hok (Z.le_refl 0) Hi) in Hs. done.
Qed.

Lemma items_unique l : forall l' r r',
  Forall one_item l -> Forall one_item l' -> partial_item r -> partial_item r' ->
  bytes_ok (concat l ++ r) -> blen (concat l ++ r) <= u64_max ->
  concat l ++ r = concat l' ++ r' -> l = l' /\ r = r'.
Proof.
  induction l as [|x l IH]; intros [|x' l'] r r' Hl Hl' Hr Hr' Hok Hfit E; cbn [concat app] in *; [done|..].
  - apply Forall_cons in Hl' as [Hx _]. rewrite <- app_assoc in E. by destruct (partial_not_item r x' _ Hr Hx E).
  - apply Forall_cons in Hl as [Hx _]. rewrite E in Hok, Hfit. rewrite <- app_assoc in E.
    by destruct (partial_not_item r' x _ Hr' Hx (eq_sym E)).
  - apply Forall_cons in Hl as [Hx Hl]. apply Forall_cons in Hl' as [Hx' Hl'].
    rewrite <- !app_assoc in *.
    pose proof (one_item_head x _ Hx Hok Hfit) as Hi. rewrite E in Hi, Hok, Hfit.
    pose proof (one_item_head x' _ Hx' Hok Hfit) as Hi'.
    pose proof (item_det _ _ _ _ Hok (Z.le_refl 0) Hi Hi') as Hlen.
    apply app_inj_1 in E as [-> E]; [|unfold blen in Hlen; lia].
    apply bytes_ok_app in Hok as [_ Hok]. rewrite blen_app in Hfit. pose proof (blen_nonneg x').
    rewrite <- E in Hok, Hfit. destruct (IH l' r r') as [-> ->]; (done || lia).
Qed.

(** * Segments of one payload *)

Definition segment (proto : AcceptedMiniProtocol) (mode : MuxMode) (ts : Z) (chunk : list Z) : MuxFrame :=
  mk_MuxFrame (mk_MuxHeader ts mode (mp_id proto) (blen chunk)) chunk.

Lemma mp_id_bound p : 0 <= mp_id p <= 10.
Proof. destruct p; cbn; unfold HANDSHAKE_ID; lia. Qed.

Lemma segment_ok proto mode ts chunk :
  is_u32 ts -> bytes_ok chunk -> blen chunk <= MAX_PAYLOAD -> frame_ok (segment proto mode ts chunk).
Proof.
  intros Ht Hc Hl. pose proof (mp_id_bound proto).
  split; cbn; try done. unfold MiniProtocolId_MAX. lia.
Qed.

Lemma encode_inner_segment proto mode ts chunk :
  is_u32 ts -> bytes_ok chunk -> blen chunk <= MAX_PAYLOAD ->
  encode_inner_frame proto chunk mode ts = Ok (frame_bytes (segment proto mode ts chunk)).
Proof.
  intros Ht Hc Hl. unfold encode_inner_frame. pose proof (blen_nonneg chunk).
  destruct (Z.ltb_spec MAX_PAYLOAD (blen chunk)); [lia|]. unfold MiniProtocolId_new, MiniProtocolId_MAX.
  pose proof (mp_id_bound proto). destruct (Z.ltb_spec 32767 (mp_id proto)); [lia|]. cbn [map_err rbind].
  unfold as_u16. rewrite Z.mod_small by (unfold MAX_PAYLOAD, u16_max in *; lia).
  fold (segment proto mode ts chunk). by rewrite encode_frame_bytes by by apply segment_ok.
Qed.

Lemma encode_chunks_segments proto mode ts l : forall frames,
  is_u32 ts -> Forall (fun c => bytes_ok c /\ blen c <= MAX_PAYLOAD) l ->
  encode_chunks proto mode ts l frames =
    Ok (frames ++ concat (map frame_bytes (map (segment proto mode ts) l))).
Proof.
  induction l as [|c l IH]; intros frames Ht Hl; cbn [encode_chunks map concat]; [by rewrite app_nil_r|].
  apply Forall_cons in Hl as [[Hc Hb] Hl]. rewrite encode_inner_segment by done. cbn [rbind].
  rewrite IH by done. by rewrite <- app_assoc.
Qed.

Lemma chunks_fuel_spec fuel n : forall l,
  (0 < n)%nat -> (length l <= fuel)%nat -> bytes_ok l ->
  concat (chunks_fuel fuel n l) = l /\
  Forall (fun c => c <> [] /\ bytes_ok c /\ blen c <= Z.of_nat n) (chunks_fuel fuel n l) /\
  (l <> [] -> chunks_fuel fuel n l <> []).
Proof.
  induction fuel as [|fuel IH]; intros [|x l] Hn Hl Hok; cbn [chunks_fuel concat]; try done;
    try (split_and!; [done|constructor|done]); [cbn in Hl; lia|].
  destruct (IH (drop n (x :: l))) as (C & F & _); [done| |by apply Forall_drop|].
  { rewrite length_drop. cbn in *. lia. }
  rewrite C, take_drop. split_and!; [done| |done]. constructor; [|done].
  split_and!; [destruct n; [lia|done]|by apply Forall_take|]. unfold blen. rewrite length_take. lia.
Qed.

Lemma set_buffer_id b p : set_buffer b p (get_buffer b p) = b.
Proof. destruct b, p; done. Qed.
Lemma set_buffer_twice b p v w : set_buffer (set_buffer b p v) p w = set_buffer b p w.
Proof. by destruct p. Qed.

Lemma with_proto_buffer_id c p v : get_buffer (proto_buffers c) p = v -> with_proto_buffer c p v = c.
Proof. intros <-. unfold with_proto_buffer. rewrite set_buffer_id. by destruct c. Qed.
Lemma with_proto_buffer_twice c p v w :
  with_proto_buffer (with_proto_buffer c p v) p w = with_proto_buffer c p w.
Proof. unfold with_proto_buffer. cbn. by rewrite set_buffer_twice. Qed.

Lemma drain_whole_item proto x :
  one_item x -> drain_protocol_items proto x [] = (Ok tt, [], [DeliverPeerFrame proto x]).
Proof.
  intros Hx. pose proof (one_item_pos x Hx) as Hpos. destruct Hx as [Hok Hi].
  unfold drain_protocol_items. destruct x as [|b x]; [by destruct (Z.lt_irrefl 0)|].
  set (d := b :: x) in *. change (S (length d)) with (S (S (length x))). cbn [drain_items].
  destruct (Z.eqb_spec (blen d) 0); [lia|].
  rewrite (item_skip d 0 (blen d)) by (done || lia). rewrite slice_all, slice_nil. done.
Qed.

Lemma drain_item_prefix proto d rest :
  one_item (d ++ rest) -> rest <> [] -> blen (d ++ rest) <= u64_max ->
  drain_protocol_items proto d [] = (Ok tt, d, []).
Proof.
  intros [Hok Hi] Hne Hl. unfold drain_protocol_items. cbn [drain_items].
  destruct (Z.eqb_spec (blen d) 0); [done|].
  destruct (skip_prefix_eof d rest Hok Hl Hi Hne) as (e & o & -> & a & n' & ->). done.
Qed.

Lemma handle_segment c proto mode ts chunk :
  proto <> MP_Handshake ->
  handle_frame c (segment proto mode ts chunk) [] =
    match drain_protocol_items proto (get_buffer (proto_buffers c) proto ++ chunk) [] with
    | (Err e, buf, _) => (Err e, with_proto_buffer c proto buf)
    | (Ok _, buf, effects) =>
        if MAX_REASSEMBLY_TAIL_BYTES <? blen buf
        then (Err (ReassemblyBufferOverflow (mp_id proto) (blen buf) MAX_REASSEMBLY_TAIL_BYTES),
              with_proto_buffer c proto buf)
        else (Ok effects, with_proto_buffer c proto buf)
    end.
Proof.
  intros Hp. unfold handle_frame. cbn [mf_header segment mh_mini_protocol_id mf_payload].
  rewrite (proj2 (mp_from_id_some (mp_id proto) proto) eq_refl). by destruct proto.
Qed.

(** Frames that carry the rest of one item complete it and deliver it once. *)
Lemma run_segments proto mode ts payload l : forall c,
  proto <> MP_Handshake -> one_item payload -> blen payload <= MAX_REASSEMBLY_TAIL_BYTES ->
  Forall (fun x => x <> []) l -> l <> [] ->
  get_buffer (proto_buffers c) proto ++ concat l = payload ->
  run_frames c (map (segment proto mode ts) l) [] =
    (Ok [DeliverPeerFrame proto payload], with_proto_buffer c proto []).
Proof.
  induction l as [|x l IH]; intros c Hp Hitem Hcap Hl Hne Hb; [done|].
  apply Forall_cons in Hl as [Hx Hl]. cbn [map run_frames]. rewrite handle_segment by done.
  cbn [concat] in Hb. destruct l as [|y l].
  - cbn [concat] in Hb. rewrite app_nil_r in Hb. rewrite Hb, drain_whole_item by done. done.
  - rewrite app_assoc in Hb. set (d := get_buffer (proto_buffers c) proto ++ x) in *.
    set (rest := concat (y :: l)) in *.
    assert (Hrest : rest <> []).
    { subst rest. apply Forall_cons in Hl as [Hy _]. cbn. by destruct y. }
    assert (Hle : blen d <= MAX_REASSEMBLY_TAIL_BYTES)
      by (rewrite <- Hb, blen_app in Hcap; pose proof (blen_nonneg rest); lia).
    rewrite (drain_item_prefix proto d rest);
      [|by rewrite Hb|done|rewrite Hb; unfold MAX_REASSEMBLY_TAIL_BYTES in Hcap; width; lia].
    destruct (Z.ltb_spec MAX_REASSEMBLY_TAIL_BYTES (blen d)); [lia|].
    rewrite (IH (with_proto_buffer c proto d)); try done.
    + by rewrite with_proto_buffer_twice.
    + cbn [proto_buffers with_proto_buffer]. by rewrite get_set_buffer.
Qed.

Lemma segment_frames proto mode ts l :
  is_u32 ts -> Forall (fun c => c <> [] /\ bytes_ok c /\ blen c <= MAX_PAYLOAD) l ->
  Forall frame_ok (map (segment proto mode ts) l).
Proof.
  intros Ht Hl. apply Forall_forall. intros f Hf.
  apply list_elem_of_In, in_map_iff in Hf as (c & <- & Hc). apply list_elem_of_In in Hc.
  rewrite Forall_forall in Hl. destruct (Hl c Hc) as (_ & ? & ?). by apply segment_ok.
Qed.

(** * One inbound chunk *)

Section Steps.
Variable utf8_valid : list Z -> bool.
Local Abbreviation step := (Session.step utf8_valid).

Lemma stream_frames (l : list Z) :
  bytes_ok l -> exists fs rest, Forall frame_ok fs /\ l = concat (map frame_bytes fs) ++ rest /\
    incomplete rest /\ blen rest < HEADER_LEN + MAX_PAYLOAD /\ bytes_ok rest.
Proof.
  intros Hl. destruct (pull_all_spec l Hl) as (fs & rest & _ & Hfs & C & I & B).
  exists fs, rest. split_and!; try done. rewrite C in Hl. by apply bytes_ok_app in Hl as [_ ?].
Qed.

Lemma inbound_run c bytes fs rest :
  Forall frame_ok fs -> incomplete rest -> bytes_ok rest ->
  cs_buffer c ++ bytes = concat (map frame_bytes fs) ++ rest ->
  exists s', step (Connected c) (Inbound bytes) = (map_err Failed (fst (run_frames c fs [])), s') /\
    (is_ok (fst (run_frames c fs [])) = true ->
     s' = Connected (with_pending (snd (run_frames c fs [])) rest)).
Proof.
  intros Hfs Hi Hr Hc. cbn [Session.step handle_inbound].
  destruct (drain_connected_run (with_pending c (buffer_append (cs_buffer c) bytes)) fs rest Hfs Hi Hr Hc)
    as (c' & -> & Hok). rewrite run_frames_pending in *. cbn [fst snd] in *.
  exists (Connected c'). split; [done|]. intros E. rewrite (Hok E). by rewrite with_pending_twice.
Qed.

Lemma run_pending_kept fs c effects : cs_buffer (snd (run_frames c fs effects)) = cs_buffer c.
Proof.
  revert c effects. induction fs as [|f fs IH]; intros c effects; cbn [run_frames]; [done|].
  assert (Hf : cs_buffer (snd (handle_frame c f effects)) = cs_buffer c).
  { unfold handle_frame. destruct (mp_from_id _) as [p|]; [|done].
    destruct p; try done; destruct (drain_protocol_items _ _ effects) as [[[?|?] ?] ?]; try done;
      by destruct (_ <? _). }
  destruct (handle_frame c f effects) as [[e|e] c1]; cbn in *; [|done]. by rewrite IH.
Qed.

(** A connected session does not see how its byte stream was cut: processing two chunks
    one after the other gives the effects, in order, and the state that processing them
    as one chunk gives, and it fails with the same error when either of them fails. *)
Theorem session_chunking c a b
    (Hc : bytes_ok (cs_buffer c)) (Ha : bytes_ok a) (Hb : bytes_ok b) :
  match step (Connected c) (Inbound a) with
  | (Err e, _) => fst (step (Connected c) (Inbound (a ++ b))) = Err e
  | (Ok ea, s) =>
      match step s (Inbound b) with
      | (Err e, _) => fst (step (Connected c) (Inbound (a ++ b))) = Err e
      | (Ok eb, s') => step (Connected c) (Inbound (a ++ b)) = (Ok (ea ++ eb), s')
      end
  end.
Proof.
  destruct (stream_frames (cs_buffer c ++ a)) as (fa & ra & Hfa & Ca & Ia & _ & Ra); [by apply bytes_ok_app|].
  destruct (stream_frames (ra ++ b)) as (fb & rb & Hfb & Cb & Ib & _ & Rb); [by apply bytes_ok_app|].
  assert (Cab : cs_buffer c ++ a ++ b = concat (map frame_bytes (fa ++ fb)) ++ rb).
  { rewrite app_assoc, Ca, <- app_assoc, Cb, map_app, concat_app. by rewrite app_assoc. }
  destruct (inbound_run c a fa ra Hfa Ia Ra Ca) as (s1 & -> & H1).
  destruct (inbound_run c (a ++ b) (fa ++ fb) rb) as (s3 & -> & H3); [by apply Forall_app|done..|].
  rewrite run_frames_app in *.
  destruct (run_frames c fa []) as [[ea|e] c1] eqn:E1; cbn [fst snd map_err is_ok] in *; [|done].
  rewrite (H1 eq_refl).
  destruct (inbound_run (with_pending c1 ra) b fb rb Hfb Ib Rb Cb) as (s2 & -> & H2).
  rewrite run_frames_pending in H2 |- *. cbn [fst snd] in *.
  rewrite (run_frames_prefix fb c1 ea) in *.
  destruct (run_frames c1 fb []) as [[eb|e] c2]; cbn [prefix_result fst snd map_err is_ok] in *; [|done].
  rewrite (H2 eq_refl), (H3 eq_refl). by rewrite with_pending_twice.
Qed.

(** The frames of a stream. *)
Definition stream_of (l : list Z) (fs : list MuxFrame) : Prop :=
  Forall frame_ok fs /\ exists rest, incomplete rest /\ l = concat (map frame_bytes fs) ++ rest.

Lemma inbound_reassembles c bytes fs effects s' :
  session_ok c -> bytes_ok bytes -> stream_of (cs_buffer c ++ bytes) fs ->
  step (Connected c) (Inbound bytes) = (Ok effects, s') ->
  exists c', s' = Connected c' /\ session_ok c' /\
    cs_buffer c ++ bytes = concat (map frame_bytes fs) ++ cs_buffer c' /\
    incomplete (cs_buffer c') /\ Forall is_delivery effects /\
    forall p, Forall one_item (delivered p effects) /\
      get_buffer (proto_buffers c) p ++ payloads p fs =
        concat (delivered p effects) ++ get_buffer (proto_buffers c') p.
Proof.
  intros Hc Hb (Hfs & rest & I & C) H.
  assert (Hall : bytes_ok (cs_buffer c ++ bytes)) by (apply bytes_ok_app; split; [apply Hc|done]).
  destruct (stream_frames _ Hall) as (fs' & rest' & Hfs' & C' & I' & B & R).
  destruct (frames_unique fs fs' rest rest' Hfs Hfs' I I' ltac:(congruence)) as [-> ->].
  destruct (inbound_run c bytes fs' rest' Hfs I R C) as (s1 & E & H1). rewrite E in H.
  destruct (run_frames c fs' []) as [[ef|e] c1] eqn:Hr; cbn [fst snd map_err is_ok] in *; [|done].
  injection H as -> ->. destruct (run_frames_continues fs' c effects c1 Hfs Hc Hr) as [_ K It By Ok'].
  destruct (Ok' Hc) as [S1 S2 S3 S4 S5].
  exists (with_pending c1 rest'). rewrite (H1 eq_refl).
  split_and!; [done|by split|done|done|done|by intros p].
Qed.

(** Reassembly loses, invents and reorders nothing: an accepted inbound chunk delivers,
    for each protocol, whole CBOR items whose concatenation with what stays buffered is
    what was buffered before followed by the payloads of the frames that arrived; only
    the incomplete last frame and, per protocol, the beginning of one item are kept, and
    both stay below their bounds. *)
Theorem session_reassembly c bytes effects s'
    (Hc : session_ok c) (Hb : bytes_ok bytes)
    (H : step (Connected c) (Inbound bytes) = (Ok effects, s')) :
  exists c' fs, s' = Connected c' /\ session_ok c' /\
    cs_buffer c ++ bytes = concat (map frame_bytes fs) ++ cs_buffer c' /\
    incomplete (cs_buffer c') /\ Forall is_delivery effects /\
    forall p, Forall one_item (delivered p effects) /\
      get_buffer (proto_buffers c) p ++ payloads p fs =
        concat (delivered p effects) ++ get_buffer (proto_buffers c') p.
Proof.
  assert (Hall : bytes_ok (cs_buffer c ++ bytes)) by (apply bytes_ok_app; split; [apply Hc|done]).
  destruct (stream_frames _ Hall) as (fs & rest & Hfs & C & I & _ & _).
  destruct (inbound_reassembles c bytes fs effects s' Hc Hb) as (c' & R); [by split; [|exists rest]|done|].
  by exists c', fs.
Qed.

(** What a peer makes of a stream depends on its bytes and not on its frames: two accepted
    streams whose frames carry the same bytes for a protocol, however they were split and
    interleaved with other protocols, deliver the same payloads in the same order for that
    protocol and leave the same bytes pending. *)
Theorem session_fragmentation c proto bytes bytes' fs fs' effects effects' c1 c1'
    (Hc : session_ok c) (Hb : bytes_ok bytes) (Hb' : bytes_ok bytes')
    (Hs : stream_of (cs_buffer c ++ bytes) fs) (Hs' : stream_of (cs_buffer c ++ bytes') fs')
    (H : step (Connected c) (Inbound bytes) = (Ok effects, Connected c1))
    (H' : step (Connected c) (Inbound bytes') = (Ok effects', Connected c1'))
    (Hsame : payloads proto fs = payloads proto fs')
    (Hfit : blen (get_buffer (proto_buffers c) proto ++ payloads proto fs) <= u64_max) :
  delivered proto effects = delivered proto effects' /\
  get_buffer (proto_buffers c1) proto = get_buffer (proto_buffers c1') proto.
Proof.
  destruct (inbound_reassembles _ _ _ _ _ Hc Hb Hs H) as (d & [= <-] & O & _ & _ & _ & R).
  destruct (inbound_reassembles _ _ _ _ _ Hc Hb' Hs' H') as (d' & [= <-] & O' & _ & _ & _ & R').
  destruct (R proto) as [I E]. destruct (R' proto) as [I' E']. rewrite Hsame in *. rewrite E in *.
  apply items_unique; [done|done|apply O|apply O'| |done|done].
  apply bytes_ok_app. split; [|apply O].
  clear -I. induction I as [|x l Hx _ IH]; cbn; [exact (Forall_nil_2 _)|].
  apply bytes_ok_app. split; [apply Hx|done].
Qed.

Lemma segment_delivery c0 c proto payload mode ts
    (Hp : proto <> MP_Handshake) (Hitem : one_item payload)
    (Hlen : blen payload <= MAX_OUTBOUND_PAYLOAD_BYTES) (Hts : is_u32 ts)
    (Hpend : cs_buffer c = []) (Hbuf : get_buffer (proto_buffers c) proto = []) :
  exists bytes, step (Connected c0) (OutboundFrame proto payload mode ts) =
                  (Ok [SendBytes bytes], count_outbound (Connected c0)) /\
    step (Connected c) (Inbound bytes) = (Ok [DeliverPeerFrame proto payload], Connected c).
Proof.
  cbn [Session.step]. unfold handle_outbound.
  destruct (Z.ltb_spec MAX_OUTBOUND_PAYLOAD_BYTES (blen payload)); [lia|]. cbn [count_outbound is_connected negb andb].
  pose proof (one_item_pos payload Hitem) as Hpos.
  destruct (Z.eqb_spec (blen payload) 0); [lia|].
  destruct (chunks_fuel_spec (length payload) (Z.to_nat MAX_PAYLOAD) payload) as (C & F & N);
    [unfold MAX_PAYLOAD, u16_max; lia|done|apply Hitem|].
  fold (chunks MAX_PAYLOAD payload) in C, F, N. rewrite Z2Nat.id in F by (unfold MAX_PAYLOAD, u16_max; lia).
  assert (F1 : Forall (fun c => bytes_ok c /\ blen c <= MAX_PAYLOAD) (chunks MAX_PAYLOAD payload))
    by (eapply Forall_impl; [exact F|]; intros ? (_ & ? & ?); done).
  assert (F2 : Forall (fun x => x <> []) (chunks MAX_PAYLOAD payload))
    by (eapply Forall_impl; [exact F|]; intros ? (? & _ & _); done).
  rewrite encode_chunks_segments by done. cbn [rbind app].
  eexists _. split; [reflexivity|].
  set (fs := map (segment proto mode ts) (chunks MAX_PAYLOAD payload)).
  assert (Hstream : cs_buffer c ++ concat (map frame_bytes fs) = concat (map frame_bytes fs) ++ [])
    by (rewrite Hpend, app_nil_r; done).
  destruct (inbound_run c _ fs [] (segment_frames _ _ _ _ Hts F) incomplete_nil (Forall_nil_2 _) Hstream)
    as (s' & E & Hs'). cbn [Session.step] in E. rewrite E.
  assert (Hrun : run_frames c fs [] = (Ok [DeliverPeerFrame proto payload], with_proto_buffer c proto [])).
  { apply run_segments; try done; [|by rewrite Hbuf].
    apply N. intros ->. by destruct (Z.lt_irrefl 0). }
  rewrite Hrun in *.
  cbn [fst snd map_err is_ok] in *. rewrite (Hs' eq_refl).
  rewrite with_proto_buffer_id by done. do 2 f_equal.
  rewrite <- Hpend. by destruct c.
Qed.

(** Outbound segmentation and inbound reassembly are inverse to each other: a payload of
    one CBOR item, of up to 16 MiB, that a connected session sends is accepted, and the
    bytes it sends make a connected peer with nothing of that protocol pending deliver
    exactly that payload, once, and return to the state it was in. *)
Theorem segmentation_roundtrip c0 c proto payload mode ts
    (Hp : proto <> MP_Handshake) (Hitem : one_item payload)
    (Hlen : blen payload <= MAX_OUTBOUND_PAYLOAD_BYTES) (Hts : is_u32 ts)
    (Hpend : cs_buffer c = []) (Hbuf : get_buffer (proto_buffers c) proto = []) :
  exists bytes s0', step (Connected c0) (OutboundFrame proto payload mode ts) =
                      (Ok [SendBytes bytes], s0') /\
    step (Connected c) (Inbound bytes) = (Ok [DeliverPeerFrame proto payload], Connected c).
Proof.
  destruct (segment_delivery c0 c proto payload mode ts) as (bytes & H); [done..|]. by exists bytes, (count_outbound (Connected c0)).
Qed.
End Steps.

(** * Concrete runs *)

Definition sample_session : ConnectedState := connected_new 15 (n2n MAINNET_NETWORK_MAGIC).
(** A keep-alive frame with the first two bytes of the array [0x82 1 2], and one with the
    last byte of it and the item [0]. *)
Definition sample_a : list Z := frame_bytes (segment MP_KeepAlive Responder 7 [0x82; 1]).
Definition sample_b : list Z := frame_bytes (segment MP_KeepAlive Responder 9 [2; 0]).
(** The same bytes in one frame, after a chain-sync frame. *)
Definition sample_c : list Z :=
  frame_bytes (segment MP_ChainSync Responder 7 [0x81]) ++ frame_bytes (segment MP_KeepAlive Responder 8 [0x82; 1; 2; 0]).

Ltac bytes_dec := repeat constructor; vm_compute; congruence.

Lemma session_chunking_witness :
  match step (fun _ => true) (Connected sample_session) (Inbound sample_a) with
  | (Err e, _) => False
  | (Ok ea, s) =>
      match step (fun _ => true) s (Inbound sample_b) with
      | (Err e, _) => False
      | (Ok eb, s') => step (fun _ => true) (Connected sample_session) (Inbound (sample_a ++ sample_b)) = (Ok (ea ++ eb), s')
      end
  end.
Proof.
  exact (session_chunking (fun _ => true) sample_session sample_a sample_b ltac:(bytes_dec) ltac:(bytes_dec) ltac:(bytes_dec)).
Defined.

Lemma sample_session_ok : session_ok sample_session.
Proof.
  split; [bytes_dec|vm_compute; reflexivity|intros p; destruct p; bytes_dec
    |intros p; left; by destruct p|intros p; destruct p; vm_compute; congruence].
Qed.

Lemma session_reassembly_witness :
  exists c' fs, session_ok c' /\ sample_a ++ sample_b = concat (map frame_bytes fs) ++ cs_buffer c' /\
    payloads MP_KeepAlive fs = concat [[0x82; 1; 2]; [0]] ++ get_buffer (proto_buffers c') MP_KeepAlive.
Proof.
  destruct (session_reassembly (fun _ => true) sample_session (sample_a ++ sample_b)
    [DeliverPeerFrame MP_KeepAlive [0x82; 1; 2]; DeliverPeerFrame MP_KeepAlive [0]]
    (Connected sample_session) sample_session_ok ltac:(bytes_dec) ltac:(vm_compute; reflexivity))
    as (c' & fs & _ & Hc' & E & _ & _ & Hp).
  exists c', fs. split; [exact Hc'|]. split; [exact E|]. exact (proj2 (Hp MP_KeepAlive)).
Defined.

Lemma sample_stream fs :
  Forall frame_ok fs -> stream_of (cs_buffer sample_session ++ concat (map frame_bytes fs)) fs.
Proof. intros Hfs. split; [done|]. exists []. split; [apply incomplete_nil|]. by rewrite app_nil_r. Qed.

Lemma sample_frames l :
  Forall (fun x => bytes_ok (snd x) /\ blen (snd x) <= MAX_PAYLOAD) l ->
  Forall frame_ok (map (fun x => segment (fst x) Responder 7 (snd x)) l).
Proof.
  intros Hl. apply Forall_forall. intros f Hf. apply list_elem_of_In, in_map_iff in Hf as (x & <- & Hx).
  apply list_elem_of_In in Hx. rewrite Forall_forall in Hl. destruct (Hl x Hx).
  apply segment_ok; [width; lia|done..].
Qed.

Lemma session_fragmentation_witness :
  delivered MP_KeepAlive
    [DeliverPeerFrame MP_KeepAlive [0x82; 1; 2]; DeliverPeerFrame MP_KeepAlive [0]] =
  delivered MP_KeepAlive
    [DeliverPeerFrame MP_KeepAlive [0x82; 1; 2]; DeliverPeerFrame MP_KeepAlive [0]].
Proof.
  pose (frames := map (fun x => segment (fst x) Responder 7 (snd x))).
  pose (l := [(MP_KeepAlive, [0x82; 1]); (MP_KeepAlive, [2; 0])]).
  pose (l' := [(MP_ChainSync, [0x81]); (MP_KeepAlive, [0x82; 1; 2; 0])]).
  refine (proj1 (session_fragmentation (fun _ => true) sample_session MP_KeepAlive
    (concat (map frame_bytes (frames l))) (concat (map frame_bytes (frames l')))
    (frames l) (frames l') _ _ sample_session
    (with_proto_buffer sample_session MP_ChainSync [0x81]) sample_session_ok _ _
    (sample_stream _ (sample_frames l _)) (sample_stream _ (sample_frames l' _)) _ _ _ _)).
  - bytes_dec.
  - bytes_dec.
  - repeat constructor; vm_compute; congruence.
  - repeat constructor; vm_compute; congruence.
  - vm_compute. reflexivity.
  - vm_compute. reflexivity.
  - vm_compute. reflexivity.
  - vm_compute. congruence.
Defined.

Lemma segmentation_roundtrip_witness :
  exists bytes s',
    step (fun _ => true) (Connected sample_session) (OutboundFrame MP_BlockFetch [0x82; 1; 2] Responder 3) =
      (Ok [SendBytes bytes], s') /\
    step (fun _ => true) (Connected sample_session) (Inbound bytes) =
      (Ok [DeliverPeerFrame MP_BlockFetch [0x82; 1; 2]], Connected sample_session).
Proof.
  apply (segmentation_roundtrip (fun _ => true) sample_session sample_session MP_BlockFetch [0x82; 1; 2] Responder 3).
  - discriminate.
  - split; [bytes_dec|].
    apply (proj1 (skip_item_spec [0x82; 1; 2] 0 0 3 3 ltac:(bytes_dec) ltac:(lia))). reflexivity.
  - vm_compute. congruence.
  - split; vm_compute; congruence.
  - reflexivity.
  - reflexivity.
Defined.
