(* ===== verification/SessionLife.v ===== *)
(** The life of a session, from its creation: the type-state over every sequence of
    events.  And how the node shakes hands before it creates a connected session: the driver
    of [session/handshake_driver.rs], over any transport that keeps the laws of
    [TransportLaws], and the transport of the listener and the dialer. *)

From S2P Require Import Prelude Cbor CborSkip CborRoundtrip Mux NetCodec Spelling Handshake Session SessionFacts.

Section Steps.
Variable utf8_valid : list Z -> bool.
Local Abbreviation step := (Session.step utf8_valid).

(** * The life of a session *)

Definition is_send (e : SessionEffect) : Prop := match e with SendBytes _ => True | _ => False end.
Definition event_ok (e : ByteChunkIn) : Prop :=
  match e with Inbound bytes => bytes_ok bytes | _ => True end.

Fixpoint run_session (s : SessionState) (events : list ByteChunkIn) :
    result (Effects * SessionState) (Fault SessionError) :=
  match events with
  | [] => Ok ([], s)
  | e :: events =>
      match step s e with
      | (Ok effects, s') =>
          let? (rest, s'') := run_session s' events in Ok (effects ++ rest, s'')
      | (Err e, _) => Err e
      end
  end.

(** What has been seen of a session whose effects so far are [effects]. *)
Definition session_history (effects : Effects) (s : SessionState) : Prop :=
  match s with
  | Handshaking p =>
      Forall is_send effects /\ bytes_ok (hp_buffer p) /\ blen (hp_buffer p) < HEADER_LEN + MAX_PAYLOAD
  | Connected c =>
      exists before after,
        effects = before ++ [HandshakeComplete (negotiated_version c) (negotiated_params c)] ++ after /\
        Forall is_send before /\ Forall (fun e => is_send e \/ is_delivery e) after /\
        (negotiated_version c, negotiated_params c) ∈ N2N_SUPPORTED /\ session_ok c
  end.

Lemma n2n_transition_outcome st agency supported msg st' out :
  n2n_transition st agency supported msg = Ok (st', out) ->
  (exists v d, out = HO_Selected v d /\ (v, d) ∈ supported) \/ (exists r, out = HO_Refused r).
Proof.
  unfold n2n_transition. intros H. destruct st, msg, agency; try done.
  - destruct table as [|e table]; [done|]. pose proof (select_version_spec (e :: table) supported) as Hs.
    destruct (select_n2n_version (e :: table) supported) as [v d|vs]; [|done].
    injection H as <- <-. left. exists v, d. split; [done|apply Hs].
  - destruct (local_data supported version) as [d|] eqn:Hd; [|done]. injection H as <- <-.
    left. exists version, d. eauto using local_data_elem.
  - injection H as <- <-. eauto.
  - injection H as <- <-. eauto.
Qed.

Lemma handshake_inbound p bytes effects s' :
  bytes_ok (hp_buffer p ++ bytes) ->
  step (Handshaking p) (Inbound bytes) = (Ok effects, s') ->
  (effects = [] /\ s' = Handshaking (with_hs_buffer p (hp_buffer p ++ bytes)) /\
     blen (hp_buffer p ++ bytes) < HEADER_LEN + MAX_PAYLOAD) \/
  (exists v d sent, effects = sent ++ [HandshakeComplete v d] /\ Forall is_send sent /\
     s' = Connected (connected_new v d) /\ (v, d) ∈ N2N_SUPPORTED).
Proof.
  intros Hok H. cbn [Session.step handle_inbound] in H.
  unfold drain_handshake_frames, buffer_append in H. cbn [with_hs_buffer hp_buffer] in H.
  set (d := hp_buffer p ++ bytes) in *. cbn [handshake_loop with_hs_buffer hp_buffer hp_role hp_inner] in H.
  destruct (pull_one_frame_cases d Hok) as [(f & rest & Hf & _ & Hpull)|(_ & Hb & Hpull)];
    rewrite Hpull in H; [|injection H as <- <-; by left].
  destruct (negb _); [done|].
  destruct (decode_handshake_message utf8_valid (mf_payload f)) as [msg|e]; [|done].
  destruct (n2n_transition (hp_inner p) _ N2N_SUPPORTED msg) as [[st out]|e] eqn:Ht; [|done].
  destruct (n2n_transition_outcome _ _ _ _ _ _ Ht) as [(v & dt & -> & Hin)|(r & ->)]; [|done].
  right. cbn [hp_role with_inner with_hs_buffer] in H. destruct (hp_role p); cbv beta iota in H.
  - injection H as <- <-. exists v, dt, []. auto.
  - destruct (encode_inner_frame MP_Handshake _ Responder 0) as [b|e]; [|done]. cbn [rbind] in H.
    injection H as <- <-. exists v, dt, [SendBytes b]. split_and!; [done| |done|done].
    constructor; [exact I|constructor].
Qed.

Lemma session_ok_new v d : session_ok (connected_new v d).
Proof.
  split; [exact (Forall_nil_2 _)|vm_compute; reflexivity|..]; intros p.
  - destruct p; exact (Forall_nil_2 _).
  - left. by destruct p.
  - destruct p; vm_compute; congruence.
Qed.

Lemma handle_outbound_effects s proto payload mode ts effects s' :
  handle_outbound s proto payload mode ts = (Ok effects, s') ->
  Forall is_send effects /\ s' = count_outbound s.
Proof.
  unfold handle_outbound. destruct (_ <? _); [done|]. destruct (negb _ && negb _); [done|].
  destruct (if blen payload =? 0 then _ else _) as [b|e]; [|done]. intros [= <- <-].
  split; [constructor; [exact I|constructor]|done].
Qed.

Lemma session_history_step effects s e more s' :
  session_history effects s -> event_ok e -> step s e = (Ok more, s') ->
  session_history (effects ++ more) s'.
Proof.
  intros Hs He H. destruct e as [bytes|proto payload mode ts|proposal]; cbn [event_ok] in He.
  - destruct s as [p|c].
    + destruct Hs as (Hsend & Hok & Hb).
      assert (Hd : bytes_ok (hp_buffer p ++ bytes)) by by apply bytes_ok_app.
      destruct (handshake_inbound p bytes more s' Hd H) as [(-> & -> & Hle)|(v & d & sent & -> & Hsent & -> & Hin)].
      * by rewrite app_nil_r.
      * exists (effects ++ sent), []. cbn. rewrite <- app_assoc.
        split_and!; [done|by apply Forall_app|constructor|done|apply session_ok_new].
    + destruct Hs as (before & after & -> & Hbe & Haf & Hin & Hc).
      destruct (stream_frames (cs_buffer c ++ bytes)) as (fs & rest & Hfs & C & I & B & R);
        [apply bytes_ok_app; split; [apply Hc|done]|].
      destruct (inbound_run utf8_valid c bytes fs rest Hfs I R C) as (s1 & E & H1). rewrite E in H.
      destruct (run_frames c fs []) as [[ef|er] c1] eqn:Hr; cbn [fst snd map_err is_ok] in *; [|done].
      injection H as -> ->. rewrite (H1 eq_refl).
      destruct (run_frames_continues fs c more c1 Hfs Hc Hr) as [(Ev & Ed & _ & _) K _ _ Ok'].
      destruct (Ok' Hc) as [S1 S2 S3 S4 S5].
      exists before, (after ++ more). cbn [with_pending negotiated_version negotiated_params].
      rewrite Ev, Ed, <- !app_assoc. split_and!; [done|done| |done|by split].
      apply Forall_app. split; [done|]. eapply Forall_impl; [exact K|]. auto.
  - cbn [Session.step] in H. apply handle_outbound_effects in H as [Hsend ->]. destruct s as [p|c]; cbn [count_outbound].
    + destruct Hs as (Hsent & Hok & Hb). split_and!; [by apply Forall_app|done|done].
    + destruct Hs as (before & after & -> & Hbe & Haf & Hin & [S1 S2 S3 S4 S5]).
      exists before, (after ++ more). rewrite <- !app_assoc. split_and!; [done|done| |done|by split].
      apply Forall_app. split; [done|]. eapply Forall_impl; [exact Hsend|]. auto.
  - cbn [Session.step] in H. unfold handle_handshake_start_initiator in H. destruct s as [p|c]; [|done].
    destruct (negb _); [done|]. destruct (hp_proposal_sent p); [done|].
    destruct (encode_inner_frame _ _ _ _) as [b|e]; [|done]. injection H as <- <-.
    destruct Hs as (Hsent & Hok & Hb). split_and!; [|done|done].
    apply Forall_app. split; [done|]. constructor; [exact I|constructor].
Qed.

Lemma session_history_run events : forall effects s more s',
  session_history effects s -> Forall event_ok events -> run_session s events = Ok (more, s') ->
  session_history (effects ++ more) s'.
Proof.
  induction events as [|e events IH]; intros effects s more s' Hs He H; cbn [run_session] in H.
  - injection H as <- <-. by rewrite app_nil_r.
  - apply Forall_cons in He as [He Hes]. destruct (step s e) as [[m|er] s1] eqn:E; [|done].
    apply rbind_ok_inv in H as ([rest s2] & Hr & H). injection H as <- <-.
    rewrite app_assoc. eapply IH; [|done|done]. by eapply session_history_step.
Qed.

(** C27. The type-state of a session, over every sequence of events from its creation: until
    the handshake completes it only sends; it completes once, with a version and the data
    of the supported table, which the connected state keeps; only after that are
    mini-protocol payloads delivered; and in every reachable state the frame buffer holds
    less than one largest frame and each reassembly buffer at most 16 MiB. *)
Theorem session_type_state role events effects s
    (He : Forall event_ok events)
    (H : run_session (Handshaking (mk_HandshakeProgress role HS_Idle [] false)) events = Ok (effects, s)) :
  session_history effects s.
Proof.
  apply (session_history_run events [] _ effects s) in H; [done| |done].
  split_and!; [constructor|exact (Forall_nil_2 _)|vm_compute; reflexivity].
Qed.

End Steps.

(** * What a coalesced handshake loses *)

Definition sample_table : VersionTable := [(14, [0x01]); (15, [0x01])].
Definition sample_accept : list Z :=
  frame_bytes (segment MP_Handshake Responder 0 (encode_handshake_message (AcceptVersion 15 [0x01]))).
Definition sample_ping : list Z := frame_bytes (segment MP_KeepAlive Responder 0 [0x01]).

(** The bytes that stand after the handshake frame in the same chunk are dropped with the
    handshaking buffer: a peer whose first mini-protocol frame arrives together with its
    acceptance is not heard, while the same bytes in two chunks are delivered. *)
Theorem coalesced_handshake_drops_frames :
  let started := Handshaking (mk_HandshakeProgress Role_Initiator HS_Proposed [] true) in
  let connected := connected_new 15 (n2n MAINNET_NETWORK_MAGIC) in
  step (fun _ => true) started (Inbound (sample_accept ++ sample_ping)) =
    (Ok [HandshakeComplete 15 (n2n MAINNET_NETWORK_MAGIC)], Connected connected) /\
  step (fun _ => true) started (Inbound sample_accept) =
    (Ok [HandshakeComplete 15 (n2n MAINNET_NETWORK_MAGIC)], Connected connected) /\
  step (fun _ => true) (Connected connected) (Inbound sample_ping) =
    (Ok [DeliverPeerFrame MP_KeepAlive [0x01]], Connected connected).
Proof. vm_compute. auto. Qed.

Lemma session_type_state_witness :
  session_history
    [SendBytes (frame_bytes (segment MP_Handshake Initiator 0 (encode_handshake_message (ProposeVersions sample_table))));
     HandshakeComplete 15 (n2n MAINNET_NETWORK_MAGIC); DeliverPeerFrame MP_KeepAlive [0x01]]
    (Connected (connected_new 15 (n2n MAINNET_NETWORK_MAGIC))).
Proof.
  apply (session_type_state (fun _ => true) Role_Initiator
    [HandshakeStartInitiator (ProposeVersions sample_table); Inbound sample_accept; Inbound sample_ping]).
  - repeat constructor; vm_compute; congruence.
  - vm_compute. reflexivity.
Defined.

(** * The handshake driver ([session/handshake_driver.rs])

    The blocking exchange of one proposal and one reply that the listener and the dialers
    run before a session is created in its connected state. *)

Record NegotiatedN2n : Type := mk_NegotiatedN2n { nn_version : Z; nn_params : VersionData }.

Inductive TransportError : Type :=
| TE_Io
| TE_Eof
| TE_Mux (e : MuxError)
| TE_Handshake (e : HandshakeError).

(** [trait Transport]: each call leaves the transport it was made on. *)
Class Transport (T : Type) := {
  read_exact : T -> Z -> result (list Z) TransportError * T;
  write_all : T -> list Z -> result unit TransportError * T;
}.

Section Driver.
Context {T : Type} `{Transport T}.
Variable utf8_valid : list Z -> bool.

Definition malformed_message (reason : string) : TransportError :=
  TE_Handshake (HE_MalformedMessage reason).

Definition write_handshake_frame (transport : T) (payload : list Z) (mode : MuxMode) :
    result unit TransportError * T :=
  let frame := mk_MuxFrame (mk_MuxHeader 0 mode 0 (as_u16 (blen payload))) payload in
  match encode_frame frame with
  | Err e => (Err (TE_Mux e), transport)
  | Ok bytes => write_all transport bytes
  end.

Definition read_handshake_frame (transport : T) : result MuxFrame TransportError * T :=
  match read_exact transport HEADER_LEN with
  | (Err e, transport) => (Err e, transport)
  | (Ok header, transport) =>
      let length := from_be (slice header 6 8) in
      let finish all transport :=
        match decode_frame all with
        | Err e => (Err (TE_Mux e), transport)
        | Ok (frame, _) => (Ok frame, transport)
        end in
      if 0 <? length then
        match read_exact transport length with
        | (Err e, transport) => (Err e, transport)
        | (Ok rest, transport) => finish (header ++ rest) transport
        end
      else finish header transport
  end.

(** [decode_handshake_message(..).map_err(|_| ..)]: a panic of the decoder stays one. *)
Definition decode_or (reason : string) (payload : list Z) :
    result HandshakeMessage (Fault TransportError) :=
  match decode_handshake_message utf8_valid payload with
  | Ok msg => Ok msg
  | Err (Failed _) => Err (Failed (malformed_message reason))
  | Err Panicked => Err Panicked
  end.

Definition run_n2n_handshake_initiator (transport : T) (our_versions : VersionTable) :
    result NegotiatedN2n (Fault TransportError) * T :=
  let payload := encode_handshake_message (ProposeVersions our_versions) in
  match write_handshake_frame transport payload Initiator with
  | (Err e, transport) => (Err (Failed e), transport)
  | (Ok _, transport) =>
  match read_handshake_frame transport with
  | (Err e, transport) => (Err (Failed e), transport)
  | (Ok frame, transport) =>
  match decode_or "peer reply failed handshake decode" (mf_payload frame) with
  | Err e => (Err e, transport)
  | Ok msg =>
  match n2n_transition HS_Proposed ServerHasAgency N2N_SUPPORTED msg with
  | Err e => (Err (Failed (TE_Handshake e)), transport)
  | Ok (_, HO_Selected version params) => (Ok (mk_NegotiatedN2n version params), transport)
  | Ok (_, HO_Refused _) | Ok (_, HO_Done) =>
      (Err (Failed (malformed_message "handshake refused or terminated without selection")), transport)
  | Ok (_, HO_Reply _) =>
      (Err (Failed (malformed_message "initiator received Reply where Accept/Refuse expected")), transport)
  end end end end.

(** Writing a reply, then the result it leads to. *)
Definition reply_then {A} (transport : T) (reply : HandshakeMessage)
    (r : result A (Fault TransportError)) : result A (Fault TransportError) * T :=
  match write_handshake_frame transport (encode_handshake_message reply) Responder with
  | (Err e, transport) => (Err (Failed e), transport)
  | (Ok _, transport) => (r, transport)
  end.

(** The responder's answer to a message, from the transition on. *)
Definition answer_proposal (transport : T) (our_supported : list (Z * VersionData)) (msg : HandshakeMessage) :
    result NegotiatedN2n (Fault TransportError) * T :=
  match n2n_transition HS_Idle ClientHasAgency our_supported msg with
  | Err (HE_VersionMismatch _ supported_set) =>
      reply_then transport (Refuse (Refuse_VersionMismatch supported_set))
        (Err (Failed (TE_Handshake (HE_VersionMismatch [] supported_set))))
  | Err e => (Err (Failed (TE_Handshake e)), transport)
  | Ok (_, HO_Selected version params) =>
      reply_then transport
        (AcceptVersion version (encode_n2n_version_params version (network_magic params)))
        (Ok (mk_NegotiatedN2n version params))
  | Ok (_, HO_Reply reply) =>
      reply_then transport reply
        (Err (Failed (malformed_message
           "responder selection produced Reply (refuse path) instead of Selected")))
  | Ok (_, HO_Refused _) | Ok (_, HO_Done) =>
      (Err (Failed (malformed_message "handshake refused on responder side")), transport)
  end.

Definition run_n2n_handshake_responder (transport : T) (our_supported : list (Z * VersionData)) :
    result NegotiatedN2n (Fault TransportError) * T :=
  match read_handshake_frame transport with
  | (Err e, transport) => (Err (Failed e), transport)
  | (Ok frame, transport) =>
      match decode_or "initiator proposal failed handshake decode" (mf_payload frame) with
      | Err e => (Err e, transport)
      | Ok msg => answer_proposal transport our_supported msg
      end
  end.
End Driver.

(** [BlockingTransport] of [n2n_dialer.rs] and [n2n_listener.rs]: the chunks the reader will
    still deliver before it closes its channel, the buffer, and what was sent while the
    writer takes it. *)
Record BlockingTransport : Type := mk_BlockingTransport {
  bt_inbound : list (list Z);
  bt_outbound : list (list Z);
  bt_open : bool;
  bt_inbound_buffer : list Z;
}.

(** The [while] loop of [read_exact]: the buffer once it holds [n] bytes, or all there was. *)
Fixpoint receive_until (chunks : list (list Z)) (buffer : list Z) (n : Z) : list (list Z) * list Z :=
  if n <=? blen buffer then (chunks, buffer) else
  match chunks with
  | [] => ([], buffer)
  | chunk :: chunks => receive_until chunks (buffer ++ chunk) n
  end.

Definition blocking_read_exact (t : BlockingTransport) (n : Z) :
    result (list Z) TransportError * BlockingTransport :=
  let (chunks, buffer) := receive_until (bt_inbound t) (bt_inbound_buffer t) n in
  let left buffer := mk_BlockingTransport chunks (bt_outbound t) (bt_open t) buffer in
  if n <=? blen buffer then (Ok (slice buffer 0 n), left (slice buffer n (blen buffer)))
  else (Err TE_Eof, left buffer).

Definition blocking_write_all (t : BlockingTransport) (bytes : list Z) :
    result unit TransportError * BlockingTransport :=
  if bt_open t
  then (Ok tt, mk_BlockingTransport (bt_inbound t) (bt_outbound t ++ [bytes]) true (bt_inbound_buffer t))
  else (Err TE_Io, t).

(** [into_halves]: what the session that follows the handshake is given; the buffer is dropped. *)
Definition into_halves (t : BlockingTransport) : list (list Z) * list (list Z) :=
  (bt_inbound t, bt_outbound t).

#[global] Instance Blocking_Transport : Transport BlockingTransport :=
  {| read_exact := blocking_read_exact; write_all := blocking_write_all |}.

(** ** What the driver relies on *)

(** The bytes still to come in, those already sent, and whether the peer takes more. *)
Class TransportLaws (T : Type) `{Transport T} := {
  coming : T -> list Z;
  sent : T -> list Z;
  writable : T -> Prop;
  read_exact_law : forall t a b n, coming t = a ++ b -> blen a = n ->
    exists t', read_exact t n = (Ok a, t') /\ coming t' = b /\ sent t' = sent t /\
      (writable t -> writable t');
  write_all_law : forall t bytes, writable t ->
    exists t', write_all t bytes = (Ok tt, t') /\ coming t' = coming t /\
      sent t' = sent t ++ bytes /\ writable t';
}.

Lemma receive_until_spec chunks : forall buffer n,
  match receive_until chunks buffer n with
  | (chunks', buffer') =>
      buffer' ++ concat chunks' = buffer ++ concat chunks /\
      (n <= blen (buffer ++ concat chunks) -> n <= blen buffer')
  end.
Proof.
  induction chunks as [|c chunks IH]; intros buffer n; cbn [receive_until].
  - destruct (Z.leb_spec n (blen buffer)); (split; [done|]); cbn; rewrite ?app_nil_r; lia.
  - destruct (Z.leb_spec n (blen buffer)); [split; [done|lia]|].
    specialize (IH (buffer ++ c) n). destruct (receive_until chunks (buffer ++ c) n) as [cs b].
    cbn [concat]. by rewrite <- app_assoc in IH.
Qed.

Lemma blocking_read_law t a b n :
  bt_inbound_buffer t ++ concat (bt_inbound t) = a ++ b -> blen a = n ->
  exists t', blocking_read_exact t n = (Ok a, t') /\
    bt_inbound_buffer t' ++ concat (bt_inbound t') = b /\
    bt_outbound t' = bt_outbound t /\ bt_open t' = bt_open t.
Proof.
  intros Hc Hn. unfold blocking_read_exact.
  pose proof (receive_until_spec (bt_inbound t) (bt_inbound_buffer t) n) as Hs.
  destruct (receive_until _ _ n) as [cs buf]. destruct Hs as [Hs Hle].
  rewrite Hc in Hs, Hle. rewrite blen_app in Hle. pose proof (blen_nonneg b). specialize (Hle ltac:(lia)).
  destruct (Z.leb_spec n (blen buf)); [|lia].
  assert (Hcut : exists k, buf = a ++ k).
  { exists (drop (length a) buf). apply (f_equal (take (length a))) in Hs.
    rewrite take_app_le in Hs by (unfold blen in *; lia). rewrite take_app_length in Hs.
    rewrite <- Hs at 1. by rewrite take_drop. }
  destruct Hcut as [k ->]. rewrite <- app_assoc in Hs. apply app_inv_head in Hs.
  rewrite (slice_at [] a k) by (done || (rewrite Hn; done)).
  assert (Hk : slice (a ++ k) n (blen (a ++ k)) = k).
  { rewrite <- (app_nil_r k) at 1. apply slice_at; [done|by rewrite blen_app]. }
  rewrite Hk. eexists. split; [reflexivity|]. cbn. by rewrite Hs.
Qed.

#[global] Program Instance Blocking_TransportLaws : TransportLaws BlockingTransport := {|
  coming t := bt_inbound_buffer t ++ concat (bt_inbound t);
  sent t := concat (bt_outbound t);
  writable t := bt_open t = true;
|}.
Next Obligation.
  intros t a b n Hc Hn. destruct (blocking_read_law t a b n Hc Hn) as (t' & E & Hb & Ho & Hw).
  exists t'. cbn. rewrite Ho, Hw. auto.
Qed.
Next Obligation.
  intros t bytes Hw. eexists. cbn. unfold blocking_write_all. rewrite Hw.
  split; [reflexivity|]. cbn. rewrite concat_app. cbn. by rewrite app_nil_r.
Qed.

(** ** Both ends of the exchange *)

Section Exchange.
Context {T : Type} `{TransportLaws T}.
Variable utf8_valid : list Z -> bool.

Lemma handshake_segment mode payload :
  blen payload <= MAX_PAYLOAD ->
  mk_MuxFrame (mk_MuxHeader 0 mode 0 (as_u16 (blen payload))) payload = segment MP_Handshake mode 0 payload.
Proof.
  intros Hl. pose proof (blen_nonneg payload). unfold as_u16.
  by rewrite Z.mod_small by (unfold MAX_PAYLOAD, u16_max in Hl; lia).
Qed.

Lemma handshake_segment_ok mode payload :
  bytes_ok payload -> blen payload <= MAX_PAYLOAD -> frame_ok (segment MP_Handshake mode 0 payload).
Proof. intros. apply segment_ok; [width; lia|done..]. Qed.

Lemma write_handshake_frame_sends t payload mode :
  writable t -> bytes_ok payload -> blen payload <= MAX_PAYLOAD ->
  exists t', write_handshake_frame t payload mode = (Ok tt, t') /\ coming t' = coming t /\
    sent t' = sent t ++ frame_bytes (segment MP_Handshake mode 0 payload) /\ writable t'.
Proof.
  intros Hw Hok Hl. unfold write_handshake_frame. rewrite handshake_segment by done.
  rewrite encode_frame_bytes by by apply handshake_segment_ok. by apply write_all_law.
Qed.

Lemma read_handshake_frame_takes t mode payload rest :
  coming t = frame_bytes (segment MP_Handshake mode 0 payload) ++ rest ->
  bytes_ok payload -> 0 < blen payload <= MAX_PAYLOAD ->
  exists t', read_handshake_frame t = (Ok (segment MP_Handshake mode 0 payload), t') /\
    coming t' = rest /\ sent t' = sent t /\ (writable t -> writable t').
Proof.
  intros Hc Hok Hl. set (f := segment MP_Handshake mode 0 payload) in *.
  assert (Hf : frame_ok f) by by apply handshake_segment_ok; [|lia].
  set (hd := to_be 4 (mh_timestamp (mf_header f)) ++
    to_be 2 (mode_bit (mh_mode (mf_header f)) * 2 ^ 15 + mh_mini_protocol_id (mf_header f))).
  assert (Hb : frame_bytes f = (hd ++ to_be 2 (blen payload)) ++ payload)
    by (unfold frame_bytes, hd; by rewrite <- !app_assoc).
  unfold read_handshake_frame. rewrite Hb, <- app_assoc in Hc.
  destruct (read_exact_law t _ _ HEADER_LEN Hc eq_refl) as (t1 & -> & C1 & S1 & W1).
  assert (Hn : from_be (slice (hd ++ to_be 2 (blen payload)) 6 8) = blen payload).
  { rewrite <- (app_nil_r (to_be 2 (blen payload))), (slice_at hd _ []) by done.
    apply from_to_be_u16. unfold MAX_PAYLOAD in Hl. split; lia. }
  cbv beta iota zeta. rewrite Hn. destruct (Z.ltb_spec 0 (blen payload)); [|lia].
  destruct (read_exact_law t1 _ _ _ C1 eq_refl) as (t2 & -> & C2 & S2 & W2).
  rewrite <- Hb, <- (app_nil_r (frame_bytes f)), decode_frame_bytes by done.
  exists t2. split_and!; [done|done|congruence|auto].
Qed.

Definition handshake_frame (mode : MuxMode) (m : HandshakeMessage) : list Z :=
  frame_bytes (segment MP_Handshake mode 0 (encode_handshake_message m)).

(** A handshake message that fits one frame. *)
Record sendable (m : HandshakeMessage) : Prop := {
  se_ok : handshake_ok utf8_valid m;
  se_fits : blen (encode_handshake_message m) <= MAX_PAYLOAD;
}.

Lemma sendable_bytes m : sendable m ->
  bytes_ok (encode_handshake_message m) /\ 0 < blen (encode_handshake_message m) /\
  decode_handshake_message utf8_valid (encode_handshake_message m) = Ok m.
Proof.
  intros [Hm Hl]. rewrite handshake_decode_encode by (unfold MAX_PAYLOAD, u16_max, isize_max in *; done || lia).
  rewrite (encode_handshake_bytes utf8_valid) by done.
  split_and!; [by eapply message_bytes_ok| |done].
  destruct m; cbn [message_bytes]; rewrite blen_app; unfold argument_bytes; rewrite blen_cons;
    match goal with |- context [1 + blen ?a + blen ?b] => pose proof (blen_nonneg a); pose proof (blen_nonneg b) end; lia.
Qed.

Lemma writes_message t mode m : writable t -> sendable m ->
  exists t', write_handshake_frame t (encode_handshake_message m) mode = (Ok tt, t') /\
    coming t' = coming t /\ sent t' = sent t ++ handshake_frame mode m /\ writable t'.
Proof.
  intros Hw Hm. destruct (sendable_bytes m Hm) as (? & _ & _). by apply write_handshake_frame_sends; [|done|apply Hm].
Qed.

Lemma reads_message t mode m rest reason : sendable m -> coming t = handshake_frame mode m ++ rest ->
  exists t', read_handshake_frame t = (Ok (segment MP_Handshake mode 0 (encode_handshake_message m)), t') /\
    decode_or utf8_valid reason (mf_payload (segment MP_Handshake mode 0 (encode_handshake_message m))) = Ok m /\
    coming t' = rest /\ sent t' = sent t /\ (writable t -> writable t').
Proof.
  intros Hm Hc. destruct (sendable_bytes m Hm) as (Hok & Hpos & Hdec).
  destruct (read_handshake_frame_takes t mode _ rest Hc Hok) as (t' & E & C & S & W); [split; [done|apply Hm]|].
  exists t'. split_and!; [done| |done..]. cbn [segment mf_payload]. unfold decode_or. by rewrite Hdec.
Qed.

Lemma reply_then_sends {A} t reply (r : result A (Fault TransportError)) : writable t -> sendable reply ->
  exists t', reply_then t reply r = (r, t') /\ coming t' = coming t /\
    sent t' = sent t ++ handshake_frame Responder reply.
Proof.
  intros Hw Hm. destruct (writes_message t Responder reply Hw Hm) as (t' & E & C & S & _).
  exists t'. unfold reply_then. by rewrite E.
Qed.
End Exchange.

(** The version data of the node-to-node protocol, on the wire: the network magic, initiator and
    responder, no peer sharing, no query, and from version 16 no Peras support. *)
Definition version_data_bytes (v magic : Z) : list Z :=
  if 16 <=? v then argument_bytes MAJOR_ARRAY 5 ++ argument_bytes MAJOR_UNSIGNED magic ++ [245; 0; 244; 244]
  else argument_bytes MAJOR_ARRAY 4 ++ argument_bytes MAJOR_UNSIGNED magic ++ [245; 0; 244].

Lemma encode_params_bytes v magic : is_u32 magic -> encode_n2n_version_params v magic = version_data_bytes v magic.
Proof.
  intros Hm. unfold encode_n2n_version_params, version_data_bytes.
  destruct (16 <=? v); rewrite !encode_array_header_bytes, (encode_u64_bytes _ magic) by (width; lia);
    unfold encode_bool, write_bool; rewrite (encode_u64_bytes _ 0) by (width; lia); cbn [app]; by rewrite <- ?app_assoc.
Qed.

Lemma spells_flags l : Forall (fun b => b = 245 \/ b = 0 \/ b = 244) l -> spells (blen l) l.
Proof.
  induction 1 as [|b l Hb _ IH]; [apply spells_nil|]. rewrite blen_cons.
  apply (spells_app 1 (blen l) [b] l); [|done].
  destruct Hb as [-> |[-> | ->]]; [apply (spells_bool true)|apply (spells_uint 0); width; lia|apply (spells_bool false)].
Qed.

Lemma version_array_item n magic flags :
  is_u32 magic -> Forall (fun b => b = 245 \/ b = 0 \/ b = 244) flags -> n = 1 + blen flags -> n <= 5 ->
  one_item (argument_bytes MAJOR_ARRAY n ++ argument_bytes MAJOR_UNSIGNED magic ++ flags).
Proof.
  intros Hm Hf -> Hn. pose proof (blen_nonneg flags). apply one_item_spelled.
  - apply spells_array; [width; lia|]. apply spells_app; [apply spells_uint; width; lia|by apply spells_flags].
  - rewrite !blen_app. unfold argument_bytes. rewrite !blen_cons, !blen_to_be.
    assert (Hw : forall v, Z.of_nat (width_len (canonical_width v)) <= 8) by (intros v; destruct (canonical_width v); cbn; lia).
    pose proof (Hw (1 + blen flags)). pose proof (Hw magic). width. lia.
Qed.

Lemma version_data_item v magic : is_u32 magic -> one_item (version_data_bytes v magic).
Proof.
  intros Hm. unfold version_data_bytes.
  destruct (16 <=? v); apply version_array_item; first [done | by repeat constructor; auto].
Qed.

Lemma supported_magic magic v d :
  (v, d) ∈ n2n_supported_for_magic magic -> 11 <= v <= 16 /\ d = n2n magic.
Proof.
  intros Hin. apply list_elem_of_In in Hin. cbn in Hin.
  repeat (destruct Hin as [[= <- <-]|Hin]; [split; [lia|done]|]). done.
Qed.

Lemma common_magic seen magic v :
  common seen (n2n_supported_for_magic magic) v <-> v ∈ seen /\ 11 <= v <= 16.
Proof.
  unfold common. assert (v ∈ map fst (n2n_supported_for_magic magic) <-> 11 <= v <= 16) as ->; [|done].
  change (map fst (n2n_supported_for_magic magic)) with [11; 12; 13; 14; 15; 16].
  rewrite !elem_of_cons, list_elem_of_In. cbn. lia.
Qed.

Section Agreement.
Context {T1 T2 : Type} `{TransportLaws T1, TransportLaws T2}.
Variable utf8_valid : list Z -> bool.

(** [v] is the highest version of the proposal that the node speaks. *)
Definition best_common (table : VersionTable) (v : Z) : Prop :=
  v ∈ map fst table /\ 11 <= v <= 16 /\ forall v', v' ∈ map fst table -> 11 <= v' <= 16 -> v' <= v.

(** How the exchange ends: the message the responder answers with, and the result at each end. *)
Inductive settled (table : VersionTable) (magic : Z) :
    HandshakeMessage -> result NegotiatedN2n (Fault TransportError) ->
    result NegotiatedN2n (Fault TransportError) -> Prop :=
| settled_accepted v :
    best_common table v ->
    settled table magic (AcceptVersion v (version_data_bytes v magic))
      (Ok (mk_NegotiatedN2n v (n2n magic))) (Ok (mk_NegotiatedN2n v (n2n MAINNET_NETWORK_MAGIC)))
| settled_refused :
    (forall v, v ∈ map fst table -> ~ 11 <= v <= 16) ->
    settled table magic (Refuse (Refuse_VersionMismatch [11; 12; 13; 14; 15; 16]))
      (Err (Failed (TE_Handshake (HE_VersionMismatch [] [11; 12; 13; 14; 15; 16]))))
      (Err (Failed (malformed_message "handshake refused or terminated without selection"))).

Lemma settled_reply table magic reply rr ri :
  is_u32 magic -> settled table magic reply rr ri -> sendable utf8_valid reply.
Proof.
  intros Hm [v (_ & Hv & _)|_].
  - assert (Hok : handshake_ok utf8_valid (AcceptVersion v (version_data_bytes v magic)))
      by (split; [width; lia|by apply version_data_item]).
    split; [done|]. rewrite (encode_handshake_bytes utf8_valid) by done. cbn [message_bytes].
    assert (Hlen : forall m x, blen (argument_bytes m x) <= 9).
    { intros m x. unfold argument_bytes. rewrite blen_cons, blen_to_be. destruct (canonical_width x); cbn; lia. }
    unfold version_bytes, version_data_bytes. pose proof (Hlen MAJOR_ARRAY 3). pose proof (Hlen MAJOR_UNSIGNED 1).
    pose proof (Hlen MAJOR_UNSIGNED v). pose proof (Hlen MAJOR_ARRAY 4). pose proof (Hlen MAJOR_ARRAY 5).
    pose proof (Hlen MAJOR_UNSIGNED magic). change MAX_PAYLOAD with 65535.
    destruct (16 <=? v); rewrite !blen_app; [change (blen [245; 0; 244; 244]) with 4|change (blen [245; 0; 244]) with 3]; lia.
  - split; [|vm_compute; congruence]. split; [repeat constructor; vm_compute; congruence|vm_compute; congruence].
Qed.

(** What the responder makes of the proposal. *)
Lemma selection_settled table magic :
  table <> [] -> is_u32 magic ->
  exists reply rr ri, settled table magic reply rr ri /\
    forall t : T2, answer_proposal t (n2n_supported_for_magic magic) (ProposeVersions table) = reply_then t reply rr.
Proof.
  intros Hne Hm. unfold answer_proposal. cbn [n2n_transition]. destruct table as [|e table]; [done|].
  pose proof (select_version_spec (e :: table) (n2n_supported_for_magic magic)) as Hs.
  destruct (select_n2n_version (e :: table) (n2n_supported_for_magic magic)) as [v d|vs].
  - destruct Hs as (Hin & Hd & Hmax). apply supported_magic in Hd as [Hv ->].
    eexists _, _, _. split; [apply (settled_accepted _ _ v)|intros t; cbn; by rewrite encode_params_bytes].
    split_and!; [done|lia|lia|]. intros v' Hv' Hb. apply Hmax. by apply common_magic.
  - destruct Hs as [-> Hno]. eexists _, _, _. split; [apply settled_refused|done].
    intros v Hv Hb. apply (Hno v). by apply common_magic.
Qed.

(** C28. The handshake, end to end.  An initiator and a responder that serves any network magic,
    on any two transports that deliver what is sent: whatever stands before and after the
    frames, the responder reads the proposal the initiator sends and the initiator reads
    the responder's answer, each consuming exactly one frame.  When the proposal shares a
    version with the closed set 11 to 16 both complete with the highest common one, and
    the acceptance carries the version data of that version and of the served magic;
    otherwise both refuse, the responder naming its versions.  The hypotheses: the
    proposal is not empty, its entries are [u16] versions with one CBOR item each, and
    it fits one frame.  The parameters the initiator records are those of its static
    mainnet table, whatever the magic. *)
Theorem handshake_drivers_agree table magic (tr : T2) rest
    (Hne : table <> []) (Ht : sendable utf8_valid (ProposeVersions table)) (Hm : is_u32 magic)
    (Hw : writable tr) (Hc : coming tr = handshake_frame Initiator (ProposeVersions table) ++ rest) :
  exists reply rr ri,
    settled table magic reply rr ri /\
    (exists tr', run_n2n_handshake_responder utf8_valid tr (n2n_supported_for_magic magic) = (rr, tr') /\
       coming tr' = rest /\ sent tr' = sent tr ++ handshake_frame Responder reply) /\
    (forall (ti : T1) rest', writable ti -> coming ti = handshake_frame Responder reply ++ rest' ->
       exists ti', run_n2n_handshake_initiator utf8_valid ti table = (ri, ti') /\
         coming ti' = rest' /\ sent ti' = sent ti ++ handshake_frame Initiator (ProposeVersions table)).
Proof.
  destruct (selection_settled table magic Hne Hm) as (reply & rr & ri & Hs & Hsel).
  pose proof (settled_reply _ _ _ _ _ Hm Hs) as Hr. exists reply, rr, ri. split_and!; [done| |].
  - destruct (reads_message utf8_valid tr Initiator _ rest "initiator proposal failed handshake decode" Ht Hc)
      as (t1 & E1 & D1 & C1 & S1 & W1).
    destruct (reply_then_sends utf8_valid t1 reply rr (W1 Hw) Hr) as (t2 & E2 & C2 & S2).
    exists t2. unfold run_n2n_handshake_responder. rewrite E1, D1, Hsel, E2. split_and!; congruence.
  - intros ti rest' Hwi Hci.
    destruct (writes_message utf8_valid ti Initiator _ Hwi Ht) as (t1 & E1 & C1 & S1 & _).
    rewrite <- C1 in Hci.
    destruct (reads_message utf8_valid t1 Responder _ rest' "peer reply failed handshake decode" Hr Hci)
      as (t2 & E2 & D2 & C2 & S2 & _).
    exists t2. unfold run_n2n_handshake_initiator. rewrite E1, E2, D2. split_and!; [|done|congruence].
    destruct Hs as [v (_ & Hv & _)|_]; [|done]. cbn [n2n_transition].
    assert (Hloc : local_data N2N_SUPPORTED v = Some (n2n MAINNET_NETWORK_MAGIC)); [|by rewrite Hloc].
    assert (v = 11 \/ v = 12 \/ v = 13 \/ v = 14 \/ v = 15 \/ v = 16) as Hc6 by lia.
    by destruct Hc6 as [-> |[-> |[-> |[-> |[-> | ->]]]]].
Qed.
End Agreement.

(** ** On the transport of the node *)

Definition sample_proposal : HandshakeMessage := ProposeVersions sample_table.
Definition sample_dialed : list Z := handshake_frame Initiator sample_proposal.

Lemma sample_sendable : sendable (fun _ => true) sample_proposal.
Proof.
  split; [|vm_compute; congruence]. split; [|vm_compute; congruence].
  repeat constructor; try (vm_compute; congruence);
    apply (proj1 (skip_item_spec [1] 0 0 1 1 ltac:(bytes_dec) ltac:(lia))); reflexivity.
Qed.

(** The proposal arrives in three chunks, on the preprod network. *)
Lemma handshake_drivers_agree_witness :
  let tr := mk_BlockingTransport [take 3 sample_dialed; []; drop 3 sample_dialed ++ [7]] [] true [] in
  exists reply rr ri,
    settled sample_table 1 reply rr ri /\
    (exists tr', run_n2n_handshake_responder (fun _ => true) tr (n2n_supported_for_magic 1) = (rr, tr') /\
       coming tr' = [7] /\ sent tr' = sent tr ++ handshake_frame Responder reply) /\
    (forall (ti : BlockingTransport) rest', writable ti -> coming ti = handshake_frame Responder reply ++ rest' ->
       exists ti', run_n2n_handshake_initiator (fun _ => true) ti sample_table = (ri, ti') /\
         coming ti' = rest' /\ sent ti' = sent ti ++ sample_dialed).
Proof.
  exact (handshake_drivers_agree (T1 := BlockingTransport) (fun _ => true) sample_table 1
    (mk_BlockingTransport [take 3 sample_dialed; []; drop 3 sample_dialed ++ [7]] [] true []) [7]
    ltac:(done) sample_sendable ltac:(split; vm_compute; congruence) eq_refl ltac:(vm_compute; reflexivity)).
Defined.

(** What stands behind the reply in the same chunk waits in the buffer of the transport, and
    [into_halves] drops it: the session never sees a first frame that arrives with the
    acceptance, and does see it when it arrives in a chunk of its own. *)
Theorem into_halves_drops_buffered :
  let dial chunks := let (r, t) := run_n2n_handshake_initiator (fun _ => true)
    (mk_BlockingTransport chunks [] true []) sample_table in (is_ok r, fst (into_halves t)) in
  dial [sample_accept ++ sample_ping] = (true, []) /\
  dial [sample_accept; sample_ping] = (true, [sample_ping]).
Proof. vm_compute. auto. Qed.
