(* ===== verification/BTree.v ===== *)
(** Ordered maps: Rust's [BTreeMap<K, V>] as the list of its entries in ascending key order,
    with the operations the modelled code uses.  [ordered] is the map's own invariant; every
    operation keeps it. *)

From Stdlib Require Import Sorted.
From S2P Require Import Prelude NetCodec.

(** * Total orders ([Ord]) *)

Class TotalOrder (K : Type) : Type := {
  cmp : K -> K -> comparison;
  cmp_eq a b : cmp a b = Eq <-> a = b;
  cmp_antisym a b : cmp b a = CompOpp (cmp a b);
  cmp_lt_trans a b c : cmp a b = Lt -> cmp b c = Lt -> cmp a c = Lt;
}.

Lemma Zcmp_lt_trans (a b c : Z) : (a ?= b) = Lt -> (b ?= c) = Lt -> (a ?= c) = Lt.
Proof. rewrite !Z.compare_lt_iff. lia. Qed.

#[global] Instance Z_order : TotalOrder Z := {|
  cmp := Z.compare;
  cmp_eq := Z.compare_eq_iff;
  cmp_antisym a b := Z.compare_antisym a b;
  cmp_lt_trans := Zcmp_lt_trans;
|}.

#[global] Instance bytes_order : TotalOrder (list Z) := {|
  cmp := bytes_cmp;
  cmp_eq := bytes_cmp_eq;
  cmp_antisym := bytes_cmp_antisym;
  cmp_lt_trans := bytes_cmp_lt_trans;
|}.

Section Pair.
Context {A B : Type} `{TotalOrder A} `{TotalOrder B}.

(** Pairs compare lexicographically. *)
Definition pair_cmp (x y : A * B) : comparison :=
  match cmp (fst x) (fst y) with Eq => cmp (snd x) (snd y) | c => c end.

Lemma cmp_refl {K} `{TotalOrder K} (a : K) : cmp a a = Eq.
Proof. by apply cmp_eq. Qed.

Lemma pair_cmp_eq x y : pair_cmp x y = Eq <-> x = y.
Proof.
  destruct x as [a b], y as [a' b']. unfold pair_cmp. cbn.
  destruct (cmp a a') eqn:E.
  - apply cmp_eq in E as ->. rewrite cmp_eq. split; congruence.
  - split; [done|]. intros [= -> ->]. by rewrite cmp_refl in E.
  - split; [done|]. intros [= -> ->]. by rewrite cmp_refl in E.
Qed.

Lemma pair_cmp_antisym x y : pair_cmp y x = CompOpp (pair_cmp x y).
Proof.
  unfold pair_cmp. rewrite (cmp_antisym (fst x)). destruct (cmp (fst x) (fst y)); cbn; auto. apply cmp_antisym.
Qed.

Lemma pair_cmp_lt_trans x y z : pair_cmp x y = Lt -> pair_cmp y z = Lt -> pair_cmp x z = Lt.
Proof.
  destruct x as [a b], y as [a' b'], z as [a'' b'']. unfold pair_cmp. cbn.
  destruct (cmp a a') eqn:E; try done.
  - apply cmp_eq in E as ->. destruct (cmp a' a'') eqn:E; try done.
    apply cmp_eq in E as ->. apply cmp_lt_trans.
  - intros _. destruct (cmp a' a'') eqn:E'; try done.
    + apply cmp_eq in E' as ->. by rewrite E.
    + intros _. by rewrite (cmp_lt_trans _ _ _ E E').
Qed.
End Pair.

#[global] Instance pair_order {A B} `{TotalOrder A} `{TotalOrder B} : TotalOrder (A * B) := {|
  cmp := pair_cmp;
  cmp_eq := pair_cmp_eq;
  cmp_antisym := pair_cmp_antisym;
  cmp_lt_trans := pair_cmp_lt_trans;
|}.

Definition ltb {K} `{TotalOrder K} (a b : K) : bool := match cmp a b with Lt => true | _ => false end.
Definition leb {K} `{TotalOrder K} (a b : K) : bool := match cmp a b with Gt => false | _ => true end.

Lemma ltb_lt {K} `{TotalOrder K} (a b : K) : ltb a b = true <-> cmp a b = Lt.
Proof. unfold ltb. by destruct (cmp a b). Qed.
Lemma cmp_gt {K} `{TotalOrder K} (a b : K) : cmp a b = Gt <-> cmp b a = Lt.
Proof. rewrite (cmp_antisym a b). by destruct (cmp a b). Qed.
Lemma leb_ltb {K} `{TotalOrder K} (a b : K) : leb a b = negb (ltb b a).
Proof. unfold leb, ltb. rewrite (cmp_antisym a b). by destruct (cmp a b). Qed.
Lemma ltb_irrefl {K} `{TotalOrder K} (a : K) : ltb a a = false.
Proof. unfold ltb. by rewrite cmp_refl. Qed.
Lemma ltb_trans {K} `{TotalOrder K} (a b c : K) : ltb a b = true -> ltb b c = true -> ltb a c = true.
Proof. rewrite !ltb_lt. apply cmp_lt_trans. Qed.

(** * Maps *)

Definition BTreeMap (K V : Type) : Type := list (K * V).

Section Map.
Context {K V : Type} `{TotalOrder K}.

(** [get] *)
Fixpoint bt_get (m : BTreeMap K V) (k : K) : option V :=
  match m with
  | [] => None
  | (k', v) :: m => match cmp k k' with Eq => Some v | _ => bt_get m k end
  end.

(** [insert], which replaces the value of a key already there. *)
Fixpoint bt_insert (m : BTreeMap K V) (k : K) (v : V) : BTreeMap K V :=
  match m with
  | [] => [(k, v)]
  | (k', v') :: m' =>
      match cmp k k' with
      | Lt => (k, v) :: m
      | Eq => (k, v) :: m'
      | Gt => (k', v') :: bt_insert m' k v
      end
  end.

(** [remove] *)
Definition bt_remove (m : BTreeMap K V) (k : K) : BTreeMap K V :=
  List.filter (fun '(k', _) => match cmp k k' with Eq => false | _ => true end) m.

(** [range(from..)] and [range((Excluded(from), Unbounded))] *)
Definition bt_from (m : BTreeMap K V) (from : K) : BTreeMap K V :=
  List.filter (fun '(k, _) => leb from k) m.
Definition bt_above (m : BTreeMap K V) (from : K) : BTreeMap K V :=
  List.filter (fun '(k, _) => ltb from k) m.

(** [range(from..=to)] is documented to panic when [from > to]; the implementation answers an
    empty map without looking at the bounds, so only statements about non-empty maps rely on
    the panic. *)
Definition bt_between (m : BTreeMap K V) (from to : K) : BTreeMap K V :=
  List.filter (fun '(k, _) => leb from k && leb k to) m.
Definition bt_range (m : BTreeMap K V) (from to : K) : result (BTreeMap K V) (Fault Empty_set) :=
  if ltb to from then Err Panicked else Ok (bt_between m from to).

(** [values().next_back()] with its key *)
Definition bt_last (m : BTreeMap K V) : option (K * V) := last m.

(** The keys ascend strictly. *)
Definition ordered (m : BTreeMap K V) : Prop := StronglySorted (fun x y => cmp (fst x) (fst y) = Lt) m.

Lemma ordered_cons k v m : ordered ((k, v) :: m) <-> ordered m /\ Forall (fun x => cmp k (fst x) = Lt) m.
Proof.
  split.
  - intros Ho. inversion Ho; subst. done.
  - intros [? ?]. by constructor.
Qed.

Lemma ordered_filter f m : ordered m -> ordered (List.filter f m).
Proof.
  induction m as [|[k v] m IH]; [done|]. intros [Ho Hk]%ordered_cons. cbn.
  destruct (f (k, v)); [|by apply IH]. apply ordered_cons. split; [by apply IH|].
  apply Forall_forall. intros x Hx. rewrite Forall_forall in Hk. apply Hk.
  apply list_elem_of_In in Hx. apply filter_In in Hx as [Hx _]. by apply list_elem_of_In.
Qed.

Lemma get_above m k : Forall (fun x => cmp k (fst x) = Lt) m -> bt_get m k = None.
Proof. induction 1 as [|[k' v] m Hk _ IH]; [done|]. cbn in *. by rewrite Hk. Qed.

Lemma get_elem m k v : ordered m -> bt_get m k = Some v <-> (k, v) ∈ m.
Proof.
  induction m as [|[k' v'] m IH]; [intros _; split; [done|]; by intros ?%not_elem_of_nil|].
  intros [Ho Hk]%ordered_cons. cbn. rewrite elem_of_cons. specialize (IH Ho).
  destruct (cmp k k') eqn:E.
  - apply cmp_eq in E as ->. split; [intros [= ->]; by left|]. intros [[= ->]|Hin]; [done|].
    rewrite Forall_forall in Hk. specialize (Hk _ Hin). cbn in Hk. by rewrite cmp_refl in Hk.
  - rewrite IH. split; [by right|]. intros [[= -> ->]|Hin]; [by rewrite cmp_refl in E|done].
  - rewrite IH. split; [by right|]. intros [[= -> ->]|Hin]; [by rewrite cmp_refl in E|done].
Qed.

Lemma insert_keys m k v x : x ∈ bt_insert m k v -> x = (k, v) \/ x ∈ m.
Proof.
  induction m as [|[k' v'] m IH]; cbn; [rewrite list_elem_of_singleton; by left|].
  destruct (cmp k k'); rewrite !elem_of_cons; tauto.
Qed.

Lemma insert_ordered m k v : ordered m -> ordered (bt_insert m k v).
Proof.
  induction m as [|[k' v'] m IH]; intros Ho; cbn; [by repeat constructor|].
  pose proof Ho as [Hm Hk]%ordered_cons.
  destruct (cmp k k') eqn:E.
  - apply cmp_eq in E as ->. by apply ordered_cons.
  - apply ordered_cons. split; [done|]. constructor; [done|].
    eapply Forall_impl; [exact Hk|]. intros x Hx. by eapply cmp_lt_trans.
  - apply ordered_cons. split; [by apply IH|]. apply Forall_forall. intros x Hx.
    apply insert_keys in Hx as [->|Hx]; [by apply cmp_gt|]. rewrite Forall_forall in Hk. by apply Hk.
Qed.

Lemma get_insert m k v : bt_get (bt_insert m k v) k = Some v.
Proof.
  induction m as [|[k' v'] m IH]; cbn; [by rewrite cmp_refl|].
  destruct (cmp k k') eqn:E; cbn; rewrite ?cmp_refl, ?E; done.
Qed.

Lemma get_insert_ne m k v k' : k <> k' -> bt_get (bt_insert m k v) k' = bt_get m k'.
Proof.
  intros Hne. assert (Hc : cmp k' k <> Eq) by (rewrite cmp_eq; congruence).
  induction m as [|[k1 v1] m IH]; cbn; [by destruct (cmp k' k)|].
  destruct (cmp k k1) eqn:E; cbn.
  - apply cmp_eq in E as ->. by destruct (cmp k' k1).
  - by destruct (cmp k' k).
  - by rewrite IH.
Qed.

Lemma get_remove m k : bt_get (bt_remove m k) k = None.
Proof.
  unfold bt_remove. induction m as [|[k1 v1] m IH]; [done|]. cbn.
  destruct (cmp k k1) eqn:E; cbn; by rewrite ?E.
Qed.

Lemma get_remove_ne m k k' : k <> k' -> bt_get (bt_remove m k) k' = bt_get m k'.
Proof.
  intros Hne. unfold bt_remove. induction m as [|[k1 v1] m IH]; [done|]. cbn.
  destruct (cmp k k1) eqn:E; cbn; rewrite IH; [|done..].
  apply cmp_eq in E as ->. destruct (cmp k' k1) eqn:E; [|done..]. by apply cmp_eq in E as ->.
Qed.

Lemma remove_ordered m k : ordered m -> ordered (bt_remove m k).
Proof. apply ordered_filter. Qed.

(** A key above all others goes to the end. *)
Lemma bt_insert_last m k v : Forall (fun x => cmp (fst x) k = Lt) m -> bt_insert m k v = m ++ [(k, v)].
Proof.
  induction 1 as [|[k' v'] m Hk _ IH]; [done|]. cbn in *. by rewrite (cmp_antisym k' k), Hk, IH.
Qed.

(** An ordered map is determined by its entries. *)
Lemma ordered_ext m1 : forall m2, ordered m1 -> ordered m2 -> (forall k, bt_get m1 k = bt_get m2 k) -> m1 = m2.
Proof.
  induction m1 as [|[k1 v1] m1 IH]; intros [|[k2 v2] m2] H1 H2 He; [done| | |].
  - specialize (He k2). cbn in He. by rewrite cmp_refl in He.
  - specialize (He k1). cbn in He. by rewrite cmp_refl in He.
  - apply ordered_cons in H1 as [O1 A1]. apply ordered_cons in H2 as [O2 A2].
    assert (Hk : cmp k1 k2 = Eq).
    { pose proof (He k1) as E1. pose proof (He k2) as E2. cbn in E1, E2. rewrite cmp_refl in E1, E2.
      destruct (cmp k1 k2) eqn:E; [done| |]; exfalso.
      - rewrite get_above in E1; [done|]. eapply Forall_impl; [exact A2|]. intros x Hx. by eapply cmp_lt_trans.
      - apply cmp_gt in E. rewrite E, get_above in E2; [done|].
        eapply Forall_impl; [exact A1|]. intros x Hx. by eapply cmp_lt_trans. }
    apply cmp_eq in Hk as ->.
    pose proof (He k2) as Ev. cbn in Ev. rewrite cmp_refl in Ev. injection Ev as ->. f_equal.
    apply IH; [done..|]. intros k. specialize (He k). cbn in He.
    destruct (cmp k k2) eqn:E; [|done|done]. apply cmp_eq in E as ->. by rewrite !get_above.
Qed.
End Map.

Lemma ordered_last {K V} `{TotalOrder K} (m : BTreeMap K V) k v :
  ordered m -> last m = Some (k, v) -> (k, v) ∈ m /\ forall k' v', (k', v') ∈ m -> ltb k k' = false.
Proof.
  induction m as [|[k1 v1] m IH]; [done|]. intros [Hm Hk]%ordered_cons Hl. rewrite last_cons in Hl.
  destruct (last m) as [x|] eqn:E.
  - injection Hl as ->. destruct (IH Hm eq_refl) as [Hin Hmax]. split; [by right|].
    intros k' v' [[= -> ->]|Hin']%elem_of_cons; [|by eapply Hmax].
    rewrite Forall_forall in Hk. specialize (Hk _ Hin). cbn in Hk. unfold ltb.
    rewrite (cmp_antisym k1 k). by rewrite Hk.
  - apply last_None in E as ->. injection Hl as -> ->. split; [by left|].
    intros k' v' Hin. apply list_elem_of_singleton in Hin as [= -> ->]. apply ltb_irrefl.
Qed.

(** [contains_key] *)
Definition bt_contains {K V} `{TotalOrder K} (m : BTreeMap K V) (k : K) : bool :=
  match bt_get m k with Some _ => true | None => false end.
