(* ===== verification/ChainDb.v ===== *)
(** The chain database: the trait [ChainDb] of [ade_runtime/src/chaindb/mod.rs] with its
    types [types.rs], and the in-memory implementation [in_memory.rs].

    A [BTreeMap] is an ordered map of [BTree.v].  The mutex of the implementation serialises
    the calls, so an operation is a function from state to state; lock poisoning, which needs
    a panic inside an operation, is not modelled.  Error texts are the source's, without the
    interpolated values. *)

From Stdlib Require Import Sorted.
From S2P Require Import Prelude NetCodec BTree.

(** * Types ([types.rs]) *)

Record StoredBlock : Type := mk_StoredBlock { sb_hash : list Z; sb_slot : Z; sb_bytes : list Z }.
Record ChainTip : Type := mk_ChainTip { ct_hash : list Z; ct_slot : Z }.
Record CappedSlotRange : Type := mk_CappedSlotRange { cr_blocks : list (Z * list Z); cr_truncated : bool }.

Inductive ChainDbError : Type := InvalidOperation (what : string).

#[global] Instance StoredBlock_eq_dec : EqDecision StoredBlock.
Proof. solve_decision. Defined.

(** What readers of the trait use. *)
Class ChainDb (D : Type) : Type := {
  get_block_by_hash : D -> list Z -> result (option StoredBlock) ChainDbError;
  range_bytes_capped : D -> Z -> Z -> Z -> result CappedSlotRange ChainDbError;
  last_block_bytes : D -> result (option (Z * list Z)) ChainDbError;
}.

(** * The in-memory database ([in_memory.rs]) *)

Record Inner : Type := mk_Inner {
  by_slot : BTreeMap Z StoredBlock;
  by_hash : BTreeMap (list Z) Z;
  snapshots : BTreeMap Z (list Z);
  seed_consensus_inputs : BTreeMap (list Z) (list Z);
  bootstrap_bridge : BTreeMap (list Z) (list Z);
  recovered_anchor_points : BTreeMap (list Z) (list Z);
}.

Definition inner_new : Inner := mk_Inner [] [] [] [] [] [].

Definition with_blocks (i : Inner) (s : BTreeMap Z StoredBlock) (h : BTreeMap (list Z) Z) : Inner :=
  mk_Inner s h (snapshots i) (seed_consensus_inputs i) (bootstrap_bridge i) (recovered_anchor_points i).

Definition put_block (i : Inner) (block : StoredBlock) : result unit ChainDbError * Inner :=
  match bt_get (by_slot i) (sb_slot block) with
  | Some existing =>
      if negb (bool_decide (sb_hash existing = sb_hash block))
      then (Err (InvalidOperation "slot already occupied by a different block"), i)
      else (Ok tt, i)
  | None =>
      (Ok tt, with_blocks i (bt_insert (by_slot i) (sb_slot block) block)
                (bt_insert (by_hash i) (sb_hash block) (sb_slot block)))
  end.

Definition mem_get_block_by_hash (i : Inner) (hash : list Z) : option StoredBlock :=
  match bt_get (by_hash i) hash with Some slot => bt_get (by_slot i) slot | None => None end.

Definition mem_get_block_by_slot (i : Inner) (slot : Z) : option StoredBlock := bt_get (by_slot i) slot.

Definition mem_tip (i : Inner) : option ChainTip :=
  match bt_last (by_slot i) with
  | Some (_, b) => Some (mk_ChainTip (sb_hash b) (sb_slot b))
  | None => None
  end.

Definition mem_iter_from_slot (i : Inner) (from : Z) : list StoredBlock := map snd (bt_from (by_slot i) from).

(** The loop over the range: it stops at the first block beyond the cap. *)
Fixpoint capped (blocks : BTreeMap Z StoredBlock) (max : Z) (out : list (Z * list Z)) : CappedSlotRange :=
  match blocks with
  | [] => mk_CappedSlotRange out false
  | (slot, b) :: blocks =>
      if blen out =? max then mk_CappedSlotRange out true
      else capped blocks max (out ++ [(slot, sb_bytes b)])
  end.

(** The inverted ranges on which [BTreeMap::range] would panic are answered before it is
    called. *)
Definition mem_range_bytes_capped (i : Inner) (from to max : Z) : result CappedSlotRange ChainDbError :=
  if to <? from then Ok (mk_CappedSlotRange [] false)
  else Ok (capped (bt_between (by_slot i) from to) max []).

Definition mem_last_block_bytes (i : Inner) : option (Z * list Z) :=
  match bt_last (by_slot i) with Some (_, b) => Some (sb_slot b, sb_bytes b) | None => None end.

(** One turn of the removal loop. *)
Definition remove_slot (i : Inner) (s : Z) : Inner :=
  match bt_get (by_slot i) s with
  | Some block => with_blocks i (bt_remove (by_slot i) s) (bt_remove (by_hash i) (sb_hash block))
  | None => i
  end.

Definition rollback_to_slot (i : Inner) (slot : Z) : Inner :=
  fold_left remove_slot (map fst (bt_above (by_slot i) slot)) i.

(** The write-once maps. *)
Definition put_once {K} `{TotalOrder K} (m : BTreeMap K (list Z)) (k : K) (bytes : list Z) (what : string) :
    result (BTreeMap K (list Z)) ChainDbError :=
  match bt_get m k with
  | Some existing =>
      if negb (bool_decide (existing = bytes)) then Err (InvalidOperation what) else Ok m
  | None => Ok (bt_insert m k bytes)
  end.

Definition put_snapshot (i : Inner) (slot : Z) (bytes : list Z) : result unit ChainDbError * Inner :=
  match put_once (snapshots i) slot bytes "snapshot already occupied by different bytes" with
  | Err e => (Err e, i)
  | Ok m => (Ok tt, mk_Inner (by_slot i) (by_hash i) m (seed_consensus_inputs i) (bootstrap_bridge i)
                      (recovered_anchor_points i))
  end.
Definition get_snapshot (i : Inner) (slot : Z) : option (list Z) := bt_get (snapshots i) slot.
Definition latest_snapshot (i : Inner) : option (Z * list Z) := bt_last (snapshots i).
Definition list_snapshot_slots (i : Inner) : list Z := map fst (snapshots i).
Definition delete_snapshot (i : Inner) (slot : Z) : Inner :=
  mk_Inner (by_slot i) (by_hash i) (bt_remove (snapshots i) slot) (seed_consensus_inputs i)
    (bootstrap_bridge i) (recovered_anchor_points i).

Definition put_seed_epoch_consensus_inputs (i : Inner) (fp bytes : list Z) : result unit ChainDbError * Inner :=
  match put_once (seed_consensus_inputs i) fp bytes
          "seed-epoch consensus inputs already occupied by different bytes" with
  | Err e => (Err e, i)
  | Ok m => (Ok tt, mk_Inner (by_slot i) (by_hash i) (snapshots i) m (bootstrap_bridge i)
                      (recovered_anchor_points i))
  end.
Definition get_seed_epoch_consensus_inputs (i : Inner) (fp : list Z) : option (list Z) :=
  bt_get (seed_consensus_inputs i) fp.
Definition list_seed_epoch_consensus_anchor_fps (i : Inner) : list (list Z) := map fst (seed_consensus_inputs i).

Definition put_bootstrap_next_epoch_authority (i : Inner) (fp bytes : list Z) : result unit ChainDbError * Inner :=
  match put_once (bootstrap_bridge i) fp bytes "bootstrap bridge already occupied by different bytes" with
  | Err e => (Err e, i)
  | Ok m => (Ok tt, mk_Inner (by_slot i) (by_hash i) (snapshots i) (seed_consensus_inputs i) m
                      (recovered_anchor_points i))
  end.
Definition get_bootstrap_next_epoch_authority (i : Inner) (fp : list Z) : option (list Z) :=
  bt_get (bootstrap_bridge i) fp.

Definition put_recovered_anchor_point (i : Inner) (fp bytes : list Z) : result unit ChainDbError * Inner :=
  match put_once (recovered_anchor_points i) fp bytes
          "recovered anchor point already occupied by different bytes" with
  | Err e => (Err e, i)
  | Ok m => (Ok tt, mk_Inner (by_slot i) (by_hash i) (snapshots i) (seed_consensus_inputs i)
                      (bootstrap_bridge i) m)
  end.
Definition get_recovered_anchor_point (i : Inner) (fp : list Z) : option (list Z) :=
  bt_get (recovered_anchor_points i) fp.

#[export] Instance in_memory_chain_db : ChainDb Inner := {|
  get_block_by_hash i hash := Ok (mem_get_block_by_hash i hash);
  range_bytes_capped := mem_range_bytes_capped;
  last_block_bytes i := Ok (mem_last_block_bytes i);
|}.

(** * The invariant: both maps describe the same blocks *)

Record db_ok (i : Inner) : Prop := mk_db_ok {
  ok_slots : ordered (by_slot i);
  ok_hashes : ordered (by_hash i);
  ok_indexed slot b : bt_get (by_slot i) slot = Some b ->
    sb_slot b = slot /\ is_u64 slot /\ bt_get (by_hash i) (sb_hash b) = Some slot;
  ok_points h slot : bt_get (by_hash i) h = Some slot ->
    exists b, bt_get (by_slot i) slot = Some b /\ sb_hash b = h;
}.

Lemma db_ok_new : db_ok inner_new.
Proof. split; try constructor; done. Qed.

(** A hash names one block, as a block's hash commits to its slot. *)
Definition fresh_or_same (i : Inner) (block : StoredBlock) : Prop :=
  forall slot, bt_get (by_hash i) (sb_hash block) = Some slot -> slot = sb_slot block.

Lemma put_block_ok i block :
  db_ok i -> is_u64 (sb_slot block) -> fresh_or_same i block -> db_ok (snd (put_block i block)).
Proof.
  intros [Os Oh Hs Hh] Hu Hf. unfold put_block.
  destruct (bt_get (by_slot i) (sb_slot block)) as [b|] eqn:E; [by destruct (negb _)|]. cbn [snd].
  assert (Hfresh : bt_get (by_hash i) (sb_hash block) = None).
  { destruct (bt_get (by_hash i) (sb_hash block)) as [s|] eqn:Eh; [|done].
    destruct (Hh _ _ Eh) as (b & Hb & _). apply Hf in Eh as ->. by rewrite Hb in E. }
  split; cbn [by_slot by_hash with_blocks]; [by apply insert_ordered..| |].
  - intros slot b Hb. destruct (Z.eq_dec (sb_slot block) slot) as [<-|Hne].
    + rewrite get_insert in Hb. injection Hb as <-. by rewrite get_insert.
    + rewrite get_insert_ne in Hb by done. destruct (Hs _ _ Hb) as (? & ? & Hi). split_and!; [done..|].
      rewrite get_insert_ne; [done|]. intros Heq. by rewrite Heq, Hi in Hfresh.
  - intros h slot H. destruct (decide (sb_hash block = h)) as [<-|Hne].
    + rewrite get_insert in H. injection H as <-. exists block. by rewrite get_insert.
    + rewrite get_insert_ne in H by done. destruct (Hh _ _ H) as (b & Hb & Hbh). exists b. split; [|done].
      rewrite get_insert_ne; [done|]. intros Heq. by rewrite Heq, Hb in E.
Qed.

Lemma remove_slot_ok i s : db_ok i -> db_ok (remove_slot i s).
Proof.
  intros [Os Oh Hs Hh]. unfold remove_slot. destruct (bt_get (by_slot i) s) as [block|] eqn:E; [|done].
  destruct (Hs _ _ E) as (Hsl & _ & Hidx).
  split; cbn [by_slot by_hash with_blocks]; [by apply remove_ordered..| |].
  - intros slot b Hb. destruct (Z.eq_dec s slot) as [<-|Hne]; [by rewrite get_remove in Hb|].
    rewrite get_remove_ne in Hb by done. destruct (Hs _ _ Hb) as (? & ? & Hi). split_and!; [done..|].
    rewrite get_remove_ne; [done|]. intros Heq. rewrite Heq, Hi in Hidx. by injection Hidx as ->.
  - intros h slot H. destruct (decide (sb_hash block = h)) as [<-|Hne]; [by rewrite get_remove in H|].
    rewrite get_remove_ne in H by done. destruct (Hh _ _ H) as (b & Hb & Hbh). exists b. split; [|done].
    rewrite get_remove_ne; [done|]. intros ->. rewrite E in Hb. congruence.
Qed.

(** * Rolling back *)

Lemma fold_remove_ok l : forall i, db_ok i -> db_ok (fold_left remove_slot l i).
Proof. induction l as [|s l IH]; intros i Hi; cbn; [done|]. apply IH. by apply remove_slot_ok. Qed.

Lemma remove_slot_get i s slot :
  bt_get (by_slot (remove_slot i s)) slot = if s =? slot then None else bt_get (by_slot i) slot.
Proof.
  unfold remove_slot. destruct (bt_get (by_slot i) s) as [b|] eqn:E; cbn [by_slot with_blocks].
  - destruct (Z.eqb_spec s slot) as [->|Hne]; [apply get_remove|by apply get_remove_ne].
  - by destruct (Z.eqb_spec s slot) as [->|Hne].
Qed.

Lemma fold_remove_get l : forall i slot,
  bt_get (by_slot (fold_left remove_slot l i)) slot =
    if existsb (Z.eqb slot) l then None else bt_get (by_slot i) slot.
Proof.
  induction l as [|s l IH]; intros i slot; cbn [fold_left existsb]; [done|].
  rewrite IH, remove_slot_get, (Z.eqb_sym slot s).
  by destruct (existsb (Z.eqb slot) l), (Z.eqb s slot).
Qed.

Lemma above_slots (m : BTreeMap Z StoredBlock) slot s :
  existsb (Z.eqb s) (map fst (bt_above m slot)) = true <-> slot < s /\ exists b, (s, b) ∈ m.
Proof.
  unfold bt_above. rewrite existsb_exists. split.
  - intros (x & Hx & ->%Z.eqb_eq). apply in_map_iff in Hx as ([k b] & <- & Hx).
    apply filter_In in Hx as [Hx Hl]. apply ltb_lt, Z.compare_lt_iff in Hl. split; [done|].
    exists b. by apply list_elem_of_In.
  - intros (Hl & b & Hb). exists s. split; [|apply Z.eqb_refl]. apply in_map_iff. exists (s, b). split; [done|].
    apply filter_In. split; [by apply list_elem_of_In|]. by apply ltb_lt, Z.compare_lt_iff.
Qed.

Lemma rollback_get i slot s : db_ok i ->
  mem_get_block_by_slot (rollback_to_slot i slot) s = if s <=? slot then mem_get_block_by_slot i s else None.
Proof.
  intros [Os _ _ _]. unfold mem_get_block_by_slot, rollback_to_slot. rewrite fold_remove_get.
  destruct (existsb _ _) eqn:E.
  - apply above_slots in E as [Hl _]. by destruct (Z.leb_spec s slot); [lia|].
  - destruct (Z.leb_spec s slot); [done|].
    destruct (bt_get (by_slot i) s) as [b|] eqn:Eb; [|done].
    assert (Ht : existsb (Z.eqb s) (map fst (bt_above (by_slot i) slot)) = true); [|congruence].
    apply above_slots. split; [lia|]. exists b. by apply get_elem.
Qed.

Lemma by_hash_spec i h b : db_ok i ->
  mem_get_block_by_hash i h = Some b <-> mem_get_block_by_slot i (sb_slot b) = Some b /\ sb_hash b = h.
Proof.
  intros [Os Oh Hs Hh]. unfold mem_get_block_by_hash, mem_get_block_by_slot. split.
  - destruct (bt_get (by_hash i) h) as [slot|] eqn:E; [|done]. intros Hb.
    destruct (Hh _ _ E) as (b' & Hb' & <-). rewrite Hb in Hb'. injection Hb' as <-.
    destruct (Hs _ _ Hb) as (-> & _ & _). done.
  - intros [Hb <-]. destruct (Hs _ _ Hb) as (_ & _ & ->). done.
Qed.

(** * What the implementation promises its readers *)

Lemma capped_spec blocks max out : blen out <= max ->
  capped blocks max out =
    mk_CappedSlotRange (out ++ take (Z.to_nat (max - blen out)) (map (fun e => (fst e, sb_bytes (snd e))) blocks))
      (max <? blen out + blen blocks).
Proof.
  revert out. induction blocks as [|[slot b] blocks IH]; intros out Hm; cbn [capped map].
  - rewrite take_nil, app_nil_r. change (blen []) with 0. f_equal. symmetry. apply Z.ltb_ge. lia.
  - rewrite blen_cons. destruct (Z.eqb_spec (blen out) max) as [<-|Hne].
    + rewrite Z.sub_diag. cbn [Z.to_nat take]. rewrite app_nil_r. f_equal. symmetry. apply Z.ltb_lt.
      pose proof (blen_nonneg blocks). lia.
    + rewrite IH by (rewrite blen_app; change (blen [(slot, sb_bytes b)]) with 1; lia).
      rewrite blen_app. change (blen [(slot, sb_bytes b)]) with 1.
      replace (Z.to_nat (max - blen out)) with (S (Z.to_nat (max - (blen out + 1)))) by lia.
      cbn [take]. rewrite <- app_assoc. cbn [app fst snd]. f_equal. f_equal. lia.
Qed.

Definition in_slots (from to : Z) (e : Z * StoredBlock) : bool := (from <=? fst e) && (fst e <=? to).

Lemma range_capped_spec i from to max : 0 <= max ->
  mem_range_bytes_capped i from to max =
    let inside := List.filter (in_slots from to) (by_slot i) in
    Ok (mk_CappedSlotRange (take (Z.to_nat max) (map (fun e => (fst e, sb_bytes (snd e))) inside))
          (max <? blen inside)).
Proof.
  intros Hm. unfold mem_range_bytes_capped, bt_between. destruct (Z.ltb_spec to from) as [Hlt|].
  - assert (List.filter (in_slots from to) (by_slot i) = []) as ->.
    { induction (by_slot i) as [|[s b] m IH]; [done|]. cbn. unfold in_slots at 1. cbn.
      destruct (Z.leb_spec from s), (Z.leb_spec s to); cbn; try done; lia. }
    cbn. rewrite take_nil. do 2 f_equal. symmetry. by apply Z.ltb_ge.
  - rewrite capped_spec by (by change (blen []) with 0). cbn [app]. change (blen []) with 0.
    rewrite Z.sub_0_r, Z.add_0_l. f_equal.
    assert (Hf : forall m : BTreeMap Z StoredBlock,
      List.filter (fun '(k, _) => leb from k && leb k to) m = List.filter (in_slots from to) m).
    { induction m as [|[k b] m IH]; [done|]. cbn [List.filter]. unfold in_slots at 1. cbn [fst].
      change (leb from k) with (from <=? k). change (leb k to) with (k <=? to). by rewrite IH. }
    by rewrite Hf.
Qed.

Class ChainDbLaws (D : Type) `{ChainDb D} : Type := {
  db_valid : D -> Prop;
  db_blocks : D -> list (Z * StoredBlock);
  db_ascends d : db_valid d -> ordered (db_blocks d);
  db_slots d slot b : db_valid d -> (slot, b) ∈ db_blocks d -> sb_slot b = slot /\ is_u64 slot;
  db_range d from to max : 0 <= max ->
    let inside := List.filter (in_slots from to) (db_blocks d) in
    range_bytes_capped d from to max =
      Ok (mk_CappedSlotRange (take (Z.to_nat max) (map (fun e => (fst e, sb_bytes (snd e))) inside))
            (max <? blen inside));
  db_last d : last_block_bytes d =
    Ok (match last (db_blocks d) with Some (_, b) => Some (sb_slot b, sb_bytes b) | None => None end);
  db_by_hash d h b : db_valid d -> get_block_by_hash d h = Ok (Some b) ->
    (sb_slot b, b) ∈ db_blocks d /\ sb_hash b = h;
}.

Lemma mem_by_hash i h b : db_ok i -> get_block_by_hash i h = Ok (Some b) ->
  (sb_slot b, b) ∈ by_slot i /\ sb_hash b = h.
Proof.
  intros Hi [= H]. apply by_hash_spec in H as [Hs Hh]; [|done]. split; [|done].
  apply get_elem; [apply Hi|done].
Qed.

Lemma mem_slots i slot b : db_ok i -> (slot, b) ∈ by_slot i -> sb_slot b = slot /\ is_u64 slot.
Proof. intros Hi H. apply get_elem in H; [|apply Hi]. apply (ok_indexed i Hi) in H as (? & ? & _). done. Qed.

#[export] Instance in_memory_laws : ChainDbLaws Inner := {|
  db_valid := db_ok;
  db_blocks := by_slot;
  db_ascends := ok_slots;
  db_slots := mem_slots;
  db_range := range_capped_spec;
  db_last i := eq_refl;
  db_by_hash := mem_by_hash;
|}.

(** * The database as a map from slots *)

Inductive DbOp : Type := Put (block : StoredBlock) | Rollback (slot : Z).

Definition db_apply (i : Inner) (op : DbOp) : Inner :=
  match op with Put block => snd (put_block i block) | Rollback slot => rollback_to_slot i slot end.

(** The specification: the first block put at a slot stays until it is rolled back. *)
Definition spec_apply (m : gmap Z StoredBlock) (op : DbOp) : gmap Z StoredBlock :=
  match op with
  | Put block => match m !! sb_slot block with Some _ => m | None => <[sb_slot block := block]> m end
  | Rollback slot => filter (fun e => fst e <= slot) m
  end.

(** The blocks put are blocks whose hash commits to their slot. *)
Definition commits (slot_of : list Z -> Z) (op : DbOp) : Prop :=
  match op with
  | Put block => is_u64 (sb_slot block) /\ slot_of (sb_hash block) = sb_slot block
  | Rollback _ => True
  end.

Definition agrees (slot_of : list Z -> Z) (i : Inner) (m : gmap Z StoredBlock) : Prop :=
  db_ok i /\ (forall slot, mem_get_block_by_slot i slot = m !! slot) /\
  (forall slot b, m !! slot = Some b -> slot_of (sb_hash b) = slot).

Lemma agrees_apply slot_of i m op :
  agrees slot_of i m -> commits slot_of op -> agrees slot_of (db_apply i op) (spec_apply m op).
Proof.
  intros (Hi & Hm & Hc) Hop. destruct op as [block|slot]; cbn [db_apply spec_apply commits] in *.
  - destruct Hop as [Hu Hso]. assert (Hf : fresh_or_same i block).
    { intros s Hs. destruct (ok_points i Hi _ _ Hs) as (b & Hb & Hbh).
      unfold mem_get_block_by_slot in Hm. rewrite Hm in Hb. apply Hc in Hb. congruence. }
    split; [by apply put_block_ok|]. unfold mem_get_block_by_slot in *. rewrite <- Hm.
    unfold put_block. destruct (bt_get (by_slot i) (sb_slot block)) as [b|] eqn:E.
    { destruct (negb _); cbn [snd]; done. }
    cbn [snd by_slot with_blocks]. split.
    + intros s. destruct (Z.eq_dec (sb_slot block) s) as [<-|Hne].
      * by rewrite get_insert, lookup_insert_eq.
      * by rewrite get_insert_ne, lookup_insert_ne, Hm.
    + intros s b. destruct (Z.eq_dec (sb_slot block) s) as [<-|Hne].
      * rewrite lookup_insert_eq. by intros [= <-].
      * rewrite lookup_insert_ne by done. apply Hc.
  - split; [by apply fold_remove_ok|]. split.
    + intros s. rewrite rollback_get, Hm by done. destruct (Z.leb_spec s slot).
      * destruct (m !! s) as [b|] eqn:E; symmetry; [by apply map_lookup_filter_Some|].
        apply map_lookup_filter_None. by left.
      * symmetry. apply map_lookup_filter_None. right. intros b _ Hle. cbn in Hle. lia.
    + intros s b Hb. apply map_lookup_filter_Some in Hb as [Hb _]. by apply Hc.
Qed.

Lemma agrees_history slot_of ops : forall i m,
  agrees slot_of i m -> Forall (commits slot_of) ops ->
  agrees slot_of (fold_left db_apply ops i) (fold_left spec_apply ops m).
Proof.
  induction ops as [|op ops IH]; intros i m Ha Ho; cbn; [done|].
  apply Forall_cons in Ho as [Hop Hops]. apply IH; [by apply agrees_apply|done].
Qed.

(** C32. The in-memory database is its specification: after any sequence of puts and rollbacks of
    blocks whose hash commits to their slot, a slot holds the block the specification has
    there; a hash finds exactly the block stored under it, if it is still there; and the tip
    is the block of the highest slot. *)
Theorem chain_db_refines_map slot_of ops (Hops : Forall (commits slot_of) ops) :
  let i := fold_left db_apply ops inner_new in
  let m := fold_left spec_apply ops ∅ in
  (forall slot, mem_get_block_by_slot i slot = m !! slot) /\
  (forall h b, mem_get_block_by_hash i h = Some b <-> m !! sb_slot b = Some b /\ sb_hash b = h) /\
  (forall t, mem_tip i = Some t ->
     exists b, m !! ct_slot t = Some b /\ sb_hash b = ct_hash t /\
     forall slot, is_Some (m !! slot) -> slot <= ct_slot t) /\
  (mem_tip i = None -> m = ∅).
Proof.
  intros i m.
  assert (Ha : agrees slot_of i m).
  { apply agrees_history; [|done]. split; [apply db_ok_new|]. split; [done|].
    intros slot b H. by rewrite lookup_empty in H. }
  destruct Ha as (Hi & Hm & _). split_and!; [done| | |].
  - intros h b. rewrite by_hash_spec by done. by rewrite Hm.
  - intros t Ht. unfold mem_tip, bt_last in Ht. destruct (last (by_slot i)) as [[s b]|] eqn:E; [|done].
    injection Ht as <-. apply ordered_last in E as [Hin Hmax]; [|apply Hi].
    destruct (mem_slots i s b Hi Hin) as [-> _]. cbn [ct_slot ct_hash]. exists b. split_and!; [|done|].
    + rewrite <- Hm. apply get_elem; [apply Hi|done].
    + intros slot [b' Hb']. rewrite <- Hm in Hb'. apply get_elem in Hb'; [|apply Hi].
      specialize (Hmax _ _ Hb'). change (ltb s slot) with (s <? slot) in Hmax. by apply Z.ltb_ge.
  - unfold mem_tip, bt_last. destruct (last (by_slot i)) as [[s b]|] eqn:E; [done|]. intros _.
    apply last_None in E. apply map_eq. intros slot. rewrite lookup_empty, <- Hm.
    unfold mem_get_block_by_slot. by rewrite E.
Qed.

Definition sample_block (slot : Z) : StoredBlock := mk_StoredBlock [slot; 1] slot [0x82; slot].

Lemma chain_db_refines_map_witness :
  mem_get_block_by_slot (fold_left db_apply [Put (sample_block 3); Put (sample_block 7); Rollback 5] inner_new) 3 =
  Some (sample_block 3).
Proof.
  rewrite (proj1 (chain_db_refines_map (fun h => nth 0 h 0)
    [Put (sample_block 3); Put (sample_block 7); Rollback 5]
    ltac:(repeat constructor; vm_compute; congruence))).
  reflexivity.
Defined.
