(* ===== verification/WireCodec.v ===== *)
(** What the mini-protocol codecs of [ade_network/src/codec/] and the state machines beside
    them have in common, as interfaces: [WireCodec] is what a codec promises to the session
    layer, [MiniProtocol] what a protocol's transition function promises to a conversation.
    The protocol files give the instances.  A conversation runs the messages of a protocol
    through two connected sessions and both parties' copies of the state machine. *)

From S2P Require Import Prelude Cbor Mux NetCodec Session SessionFacts Spelling.

(** * What a codec promises *)

Class WireCodec (Msg : Type) : Type := {
  wire_encode : Msg -> list Z;
  wire_decode : list Z -> result Msg (Fault NetCodecError);
  (** the values the source's message type holds *)
  wire_ok : Msg -> Prop;
  wire_spells m : wire_ok m -> spells 1 (wire_encode m);
  wire_decodes m : wire_ok m -> blen (wire_encode m) <= isize_max -> wire_decode (wire_encode m) = Ok m;
}.

(** * What a transition function promises *)

(** [ChainSyncAgency], [BlockFetchAgency], ... : the same three values in each protocol. *)
Inductive Agency : Type := Ag_Client | Ag_Server | Ag_Neither.

#[global] Instance Agency_eq_dec : EqDecision Agency.
Proof. solve_decision. Defined.

(** [ChainSyncError], [BlockFetchError], ... : the same three variants, over the protocol's
    state and its rendering of the agency. *)
Inductive TransitionError (St Ag : Type) : Type :=
| IllegalTransition (state : St) (message_tag : string) (agency : Ag)
| InvalidForVersion (version : Z) (message_tag : string)
| MalformedMessage (reason : string).
Arguments IllegalTransition {St Ag} state message_tag agency.
Arguments InvalidForVersion {St Ag} version message_tag.
Arguments MalformedMessage {St Ag} reason.

(** The highest version every protocol accepts. *)
Definition MAX_VERSION : Z := 100.

Class MiniProtocol (St Msg Out Error : Type) `{WireCodec Msg} : Type := {
  proto_id : AcceptedMiniProtocol;
  proto_initial : St;
  proto_transition : St -> Agency -> Z -> Msg -> result (St * Out) Error;
  proto_agency : St -> Agency;
  proto_not_handshake : proto_id <> MP_Handshake;
  (** only the party whose turn it is may send *)
  proto_turn st ag v m st' out :
    proto_transition st ag v m = Ok (st', out) -> ag = proto_agency st /\ ag <> Ag_Neither;
  (** no message is accepted beyond the highest version *)
  proto_version st ag v m : MAX_VERSION < v -> is_ok (proto_transition st ag v m) = false;
}.

(** * A conversation: two parties, their sessions and their copies of the state *)

Section Conversation.
Context {St Msg Out Error : Type} `{MiniProtocol St Msg Out Error}.
Variable utf8_valid : list Z -> bool.
Variables version ts : Z.

(** The messages of a conversation against one copy of the state machine. *)
Fixpoint run (st : St) (ms : list Msg) : result (St * list Out) Error :=
  match ms with
  | [] => Ok (st, [])
  | m :: ms =>
      let? (st', out) := proto_transition st (proto_agency st) version m in
      let? (st'', outs) := run st' ms in Ok (st'', out :: outs)
  end.

(** A party: its session and its copy of the state. *)
Record Party : Type := mk_Party { party_session : SessionState; party_state : St }.

(** What a party makes of the effects of its session: each payload delivered for the
    protocol is decoded and given to the transition function. *)
Fixpoint follow (st : St) (effects : list SessionEffect) : option (St * list Out) :=
  match effects with
  | [] => Some (st, [])
  | DeliverPeerFrame p payload :: effects =>
      if bool_decide (p = proto_id) then
        match wire_decode payload with
        | Ok m =>
            match proto_transition st (proto_agency st) version m with
            | Ok (st', out) =>
                match follow st' effects with
                | Some (st'', outs) => Some (st'', out :: outs)
                | None => None
                end
            | Err _ => None
            end
        | Err _ => None
        end
      else follow st effects
  | _ :: effects => follow st effects
  end.

(** One message from [p] to [q], through both sessions. *)
Definition exchange (mode : MuxMode) (p q : Party) (m : Msg) : option (Party * Party * list Out) :=
  match proto_transition (party_state p) (proto_agency (party_state p)) version m with
  | Err _ => None
  | Ok (st', _) =>
      match step utf8_valid (party_session p) (OutboundFrame proto_id (wire_encode m) mode ts) with
      | (Ok [SendBytes bytes], ps) =>
          match step utf8_valid (party_session q) (Inbound bytes) with
          | (Ok effects, qs) =>
              match follow (party_state q) effects with
              | Some (qst, outs) => Some (mk_Party ps st', mk_Party qs qst, outs)
              | None => None
              end
          | _ => None
          end
      | _ => None
      end
  end.

(** Each message is sent by the party that has the agency in its own copy of the state. *)
Fixpoint conversation (client server : Party) (ms : list Msg) : option (Party * Party * list Out) :=
  match ms with
  | [] => Some (client, server, [])
  | m :: ms =>
      let turn :=
        match proto_agency (party_state client) with
        | Ag_Server =>
            match exchange Responder server client m with
            | Some (s, c, outs) => Some (c, s, outs)
            | None => None
            end
        | _ => exchange Initiator client server m
        end in
      match turn with
      | None => None
      | Some (c, s, outs) =>
          match conversation c s ms with
          | Some (c', s', outs') => Some (c', s', outs ++ outs')
          | None => None
          end
      end
  end.

(** A connected session with nothing of this protocol pending. *)
Definition quiet (s : SessionState) : Prop :=
  exists c, s = Connected c /\ cs_buffer c = [] /\ get_buffer (proto_buffers c) proto_id = [].

Definition sendable (m : Msg) : Prop :=
  wire_ok m /\ blen (wire_encode m) <= MAX_OUTBOUND_PAYLOAD_BYTES.

Lemma exchange_delivers mode p q m st' out :
  proto_transition (party_state p) (proto_agency (party_state p)) version m = Ok (st', out) ->
  party_state p = party_state q -> quiet (party_session p) -> quiet (party_session q) ->
  sendable m -> is_u32 ts ->
  exists ps, exchange mode p q m = Some (mk_Party ps st', mk_Party (party_session q) st', [out]) /\ quiet ps.
Proof.
  intros Ht Hst (cp & Hp & Hp1 & Hp2) (cq & Hq & Hq1 & Hq2) [Hok Hlen] Hts.
  unfold exchange. rewrite Ht, Hp, Hq.
  assert (Hi : one_item (wire_encode m)).
  { apply one_item_spelled; [by apply wire_spells|]. unfold MAX_OUTBOUND_PAYLOAD_BYTES in Hlen. width. lia. }
  destruct (segment_delivery utf8_valid cp cq proto_id (wire_encode m) mode ts proto_not_handshake Hi
              Hlen Hts Hq1 Hq2) as (bytes & -> & ->).
  cbn [follow]. rewrite bool_decide_eq_true_2 by done.
  rewrite wire_decodes by (done || (unfold MAX_OUTBOUND_PAYLOAD_BYTES, isize_max in *; lia)).
  rewrite <- Hst, Ht. eexists. split; [done|]. by eexists.
Qed.

Lemma conversation_runs ms : forall client server st' outs,
  run (party_state client) ms = Ok (st', outs) ->
  party_state client = party_state server ->
  quiet (party_session client) -> quiet (party_session server) ->
  Forall sendable ms -> is_u32 ts ->
  exists c s, conversation client server ms = Some (c, s, outs) /\
    party_state c = st' /\ party_state s = st' /\ quiet (party_session c) /\ quiet (party_session s).
Proof.
  induction ms as [|m ms IH]; intros client server st' outs Hr Heq Hc Hs Hm Hts; cbn [run conversation] in *.
  { injection Hr as <- <-. by exists client, server. }
  apply Forall_cons in Hm as [Hm Hms].
  apply rbind_ok_inv in Hr as ([st1 out] & Ht & Hr). apply rbind_ok_inv in Hr as ([st2 outs'] & Hr & [= <- <-]).
  assert (Hturn : exists c s, match proto_agency (party_state client) with
      | Ag_Server => match exchange Responder server client m with
                     | Some (s, c, outs) => Some (c, s, outs) | None => None end
      | _ => exchange Initiator client server m end = Some (c, s, [out]) /\
      party_state c = st1 /\ party_state s = st1 /\ quiet (party_session c) /\ quiet (party_session s)).
  { destruct (exchange_delivers Initiator client server m st1 out Ht Heq Hc Hs Hm Hts) as (ps & E & Hps).
    rewrite Heq in Ht.
    destruct (exchange_delivers Responder server client m st1 out Ht (eq_sym Heq) Hs Hc Hm Hts) as (ps' & E' & Hps').
    destruct (proto_agency (party_state client)).
    - rewrite E. eexists _, _. by split_and!.
    - rewrite E'. eexists _, _. by split_and!.
    - rewrite E. eexists _, _. by split_and!. }
  destruct Hturn as (c & s & -> & <- & Hs1 & Qc & Qs).
  destruct (IH c s st2 outs' Hr (eq_sym Hs1) Qc Qs Hms Hts) as (c' & s' & -> & R).
  by exists c', s'.
Qed.

(** A message the state machine refuses is not sent. *)
Lemma conversation_refused ms : forall client server e,
  run (party_state client) ms = Err e ->
  party_state client = party_state server ->
  quiet (party_session client) -> quiet (party_session server) ->
  Forall sendable ms -> is_u32 ts -> conversation client server ms = None.
Proof.
  induction ms as [|m ms IH]; intros client server e Hr Heq Hc Hs Hm Hts; cbn [run conversation] in *; [done|].
  apply Forall_cons in Hm as [Hm Hms].
  destruct (proto_transition (party_state client) (proto_agency (party_state client)) version m) as [[st1 out]|e1] eqn:Ht.
  - destruct (exchange_delivers Initiator client server m st1 out Ht Heq Hc Hs Hm Hts) as (ps & E & Hps).
    pose proof Ht as Ht'. rewrite Heq in Ht'.
    destruct (exchange_delivers Responder server client m st1 out Ht' (eq_sym Heq) Hs Hc Hm Hts) as (ps' & E' & Hps').
    rewrite E, E'. cbn [rbind] in Hr.
    assert (Hr' : exists e', run st1 ms = Err e').
    { destruct (run st1 ms) as [[st2 outs]|e']; [done|]. by exists e'. }
    destruct Hr' as [e' Hr'].
    destruct (proto_agency (party_state client)); by erewrite IH by done.
  - assert (E : exchange Initiator client server m = None) by (unfold exchange; by rewrite Ht).
    assert (E' : exchange Responder server client m = None) by (unfold exchange; rewrite <- Heq; by rewrite Ht).
    rewrite E, E'. by destruct (proto_agency (party_state client)).
Qed.
End Conversation.
