(* ===== verification/ChainSync.v ===== *)
(** The node-to-node chain-sync protocol: the message codec
    [ade_network/src/codec/chain_sync.rs] and the state machine of
    [ade_network/src/chain_sync/] (state.rs, agency.rs, signal.rs, transition.rs).

    A [SlotNo] is its [u64], a [Hash32] its 32 bytes, a header one opaque CBOR item. *)

From S2P Require Import Prelude Cbor CborSkip CborRoundtrip CborPrefix NetCodec Spelling Envelope.
From S2P Require Import Session WireCodec.

(** * Messages ([codec/chain_sync.rs]) *)

Inductive Point : Type :=
| Origin
| Block (slot : Z) (hash : list Z).

Record Tip : Type := mk_Tip { tip_point : Point; block_no : Z }.

Inductive ChainSyncMessage : Type :=
| RequestNext
| AwaitReply
| RollForward (header : list Z) (tip : Tip)
| RollBackward (point : Point) (tip : Tip)
| FindIntersect (points : list Point)
| IntersectFound (point : Point) (tip : Tip)
| IntersectNotFound (tip : Tip)
| CS_Done.

#[global] Instance Point_eq_dec : EqDecision Point.
Proof. solve_decision. Defined.
#[global] Instance Tip_eq_dec : EqDecision Tip.
Proof. solve_decision. Defined.
#[global] Instance ChainSyncMessage_eq_dec : EqDecision ChainSyncMessage.
Proof. solve_decision. Defined.

Definition encode_point (buf : list Z) (p : Point) : list Z :=
  match p with
  | Origin => encode_array_header buf 0
  | Block slot hash => encode_bytes (encode_u64 (encode_array_header buf 2) slot) hash
  end.

Definition encode_tip (buf : list Z) (t : Tip) : list Z :=
  encode_u64 (encode_point (encode_array_header buf 2) (tip_point t)) (block_no t).

Definition encode_chain_sync_message (msg : ChainSyncMessage) : list Z :=
  match msg with
  | RequestNext => encode_u64 (encode_array_header [] 1) 0
  | AwaitReply => encode_u64 (encode_array_header [] 1) 1
  | RollForward header tip =>
      encode_tip (encode_u64 (encode_array_header [] 3) 2 ++ header) tip
  | RollBackward point tip =>
      encode_tip (encode_point (encode_u64 (encode_array_header [] 3) 3) point) tip
  | FindIntersect points =>
      fold_left encode_point points
        (encode_array_header (encode_u64 (encode_array_header [] 2) 4) (blen points))
  | IntersectFound point tip =>
      encode_tip (encode_point (encode_u64 (encode_array_header [] 3) 5) point) tip
  | IntersectNotFound tip => encode_tip (encode_u64 (encode_array_header [] 2) 6) tip
  | CS_Done => encode_u64 (encode_array_header [] 1) 7
  end.

(** The block-fetch codec has the same function for its own protocol kind. *)
Definition decode_point (protocol : ProtocolKind) : NDec Point :=
  net! arr_len := decode_array_header protocol in
  if arr_len =? 0 then nret Origin
  else if arr_len =? 2 then
    net! slot := decode_u64 protocol in
    net! hash_bytes := decode_bytes protocol in
    if negb (blen hash_bytes =? 32)
    then nfail (InvalidProtocolMessage protocol "point hash not 32 bytes")
    else nret (Block slot hash_bytes)
  else nfail (InvalidProtocolMessage protocol "point array must be 0 or 2 elements").

Definition decode_tip : NDec Tip :=
  net! n := decode_array_header Kind_ChainSync in
  if negb (n =? 2)
  then nfail (InvalidProtocolMessage Kind_ChainSync "tip array must be 2 elements") else
  net! point := decode_point Kind_ChainSync in
  net! block_no := decode_u64 Kind_ChainSync in
  nret (mk_Tip point block_no).

(** The head of the loop over an indefinite list: at the break it stops, at the end of the
    input it fails. *)
Definition points_head : NDec bool :=
  net! stop := try_consume_break in
  if stop then nret true else
  fun data off =>
    if blen data <=? off
    then (Err (Failed (InvalidProtocolMessage Kind_ChainSync
            "indefinite FindIntersect points list missing break")), off)
    else (Ok false, off).

Definition decode_find_intersect_points : NDec (list Point) :=
  net! head := decode_array_head_two_form Kind_ChainSync in
  match head with
  | Head_Definite n => nrepeat (Z.to_nat n) (decode_point Kind_ChainSync)
  | Head_Indefinite => nwhile points_head (decode_point Kind_ChainSync)
  end.

Definition decode_chain_sync_body : NDec ChainSyncMessage :=
  net! arr_len := decode_array_header Kind_ChainSync in
  if arr_len <? 1 then nfail (InvalidProtocolMessage Kind_ChainSync "empty outer array") else
  net! tag := decode_u64 Kind_ChainSync in
  if (tag =? 0) && (arr_len =? 1) then nret RequestNext
  else if (tag =? 1) && (arr_len =? 1) then nret AwaitReply
  else if (tag =? 2) && (arr_len =? 3) then
    net! header := decode_raw_item Kind_ChainSync in
    net! tip := decode_tip in nret (RollForward header tip)
  else if (tag =? 3) && (arr_len =? 3) then
    net! point := decode_point Kind_ChainSync in
    net! tip := decode_tip in nret (RollBackward point tip)
  else if (tag =? 4) && (arr_len =? 2) then
    net! points := decode_find_intersect_points in nret (FindIntersect points)
  else if (tag =? 5) && (arr_len =? 3) then
    net! point := decode_point Kind_ChainSync in
    net! tip := decode_tip in nret (IntersectFound point tip)
  else if (tag =? 6) && (arr_len =? 2) then
    net! tip := decode_tip in nret (IntersectNotFound tip)
  else if (tag =? 7) && (arr_len =? 1) then nret CS_Done
  else nfail (UnknownTag Kind_ChainSync tag).

Definition decode_chain_sync_message (bytes : list Z) :
    result ChainSyncMessage (Fault NetCodecError) :=
  decode_message Kind_ChainSync decode_chain_sync_body bytes.

(** * The era-tagged header of a roll forward *)

Definition chain_sync_wire_era_index (era : CardanoEra) : Z := saturating_sub (as_u8_era era) 1.

Definition compose_rollforward_header (era : CardanoEra) (header_cbor : list Z) : list Z :=
  encode_u64 (encode_array_header [] 2) (chain_sync_wire_era_index era) ++ wrap_tag24 header_cbor.

Definition rollforward_era_idx : NDec Z :=
  net! arr := decode_array_header Kind_ChainSync in
  if negb (arr =? 2)
  then nfail (InvalidProtocolMessage Kind_ChainSync
         "rollforward header must be a 2-element [era_idx, tag24] array")
  else decode_u64 Kind_ChainSync.

Definition decompose_rollforward_header (payload : list Z) :
    result (Z * list Z) (Fault NetCodecError) :=
  match rollforward_era_idx payload 0 with
  | (Err e, _) => Err e
  | (Ok era_idx, off) =>
      match unwrap_tag24 (slice payload off (blen payload)) with
      | Err _ => Err (Failed (InvalidProtocolMessage Kind_ChainSync
                   "rollforward header inner is not tag24(bytes(..))"))
      | Ok inner => Ok (as_u8 era_idx, inner)
      end
  end.

(** * The state machine ([chain_sync/]) *)

Inductive ForkChoiceSignal : Type :=
| Sig_RollForward (header_bytes : list Z) (tip : Tip)
| Sig_RollBackward (point : Point) (tip : Tip)
| Intersected (point : Point) (tip : Tip)
| NoIntersection (tip : Tip).

Inductive ChainSyncState : Type := CS_Idle | CanAwait | MustReply | Intersect | CS_Finished.

Inductive ChainSyncOutput : Type :=
| CS_Reply (msg : ChainSyncMessage)
| CS_Signal (signal : ForkChoiceSignal)
| CS_OutDone.

(** The chain-sync errors carry the tag of the agency, the other protocols the agency. *)
Definition ChainSyncError : Type := TransitionError ChainSyncState string.

#[global] Instance ChainSyncState_eq_dec : EqDecision ChainSyncState.
Proof. solve_decision. Defined.

Definition chain_sync_message_tag (msg : ChainSyncMessage) : string :=
  match msg with
  | RequestNext => "RequestNext"
  | AwaitReply => "AwaitReply"
  | RollForward _ _ => "RollForward"
  | RollBackward _ _ => "RollBackward"
  | FindIntersect _ => "FindIntersect"
  | IntersectFound _ _ => "IntersectFound"
  | IntersectNotFound _ => "IntersectNotFound"
  | CS_Done => "Done"
  end.

Definition chain_sync_agency_tag (agency : Agency) : string :=
  match agency with Ag_Client => "Client" | Ag_Server => "Server" | Ag_Neither => "Neither" end.

Definition chain_sync_transition (state : ChainSyncState) (agency : Agency) (version : Z)
    (msg : ChainSyncMessage) : result (ChainSyncState * ChainSyncOutput) ChainSyncError :=
  if MAX_VERSION <? version then Err (InvalidForVersion version (chain_sync_message_tag msg)) else
  match state, agency, msg with
  | CS_Idle, Ag_Client, RequestNext => Ok (CanAwait, CS_Reply RequestNext)
  | CS_Idle, Ag_Client, FindIntersect points =>
      match points with
      | [] => Err (MalformedMessage "FindIntersect carried an empty points list")
      | _ => Ok (Intersect, CS_Reply (FindIntersect points))
      end
  | CS_Idle, Ag_Client, CS_Done => Ok (CS_Finished, CS_OutDone)
  | CanAwait, Ag_Server, RollForward header tip => Ok (CS_Idle, CS_Signal (Sig_RollForward header tip))
  | CanAwait, Ag_Server, RollBackward point tip => Ok (CS_Idle, CS_Signal (Sig_RollBackward point tip))
  | CanAwait, Ag_Server, AwaitReply => Ok (MustReply, CS_Reply AwaitReply)
  | MustReply, Ag_Server, RollForward header tip => Ok (CS_Idle, CS_Signal (Sig_RollForward header tip))
  | MustReply, Ag_Server, RollBackward point tip => Ok (CS_Idle, CS_Signal (Sig_RollBackward point tip))
  | Intersect, Ag_Server, IntersectFound point tip => Ok (CS_Idle, CS_Signal (Intersected point tip))
  | Intersect, Ag_Server, IntersectNotFound tip => Ok (CS_Idle, CS_Signal (NoIntersection tip))
  | _, _, _ => Err (IllegalTransition state (chain_sync_message_tag msg) (chain_sync_agency_tag agency))
  end.

(** Whose turn it is in each state. *)
Definition chain_sync_turn (state : ChainSyncState) : Agency :=
  match state with
  | CS_Idle => Ag_Client
  | CanAwait | MustReply | Intersect => Ag_Server
  | CS_Finished => Ag_Neither
  end.

(** * Messages survive their encoding *)

Definition point_bytes (p : Point) : list Z :=
  match p with
  | Origin => array_bytes 0 []
  | Block slot hash => array_bytes 2 (uint_bytes slot ++ string_bytes hash)
  end.
Definition tip_bytes (t : Tip) : list Z :=
  array_bytes 2 (point_bytes (tip_point t) ++ uint_bytes (block_no t)).
Definition chain_sync_bytes (m : ChainSyncMessage) : list Z :=
  match m with
  | RequestNext => array_bytes 1 (uint_bytes 0)
  | AwaitReply => array_bytes 1 (uint_bytes 1)
  | RollForward header tip => array_bytes 3 (uint_bytes 2 ++ header ++ tip_bytes tip)
  | RollBackward point tip => array_bytes 3 (uint_bytes 3 ++ point_bytes point ++ tip_bytes tip)
  | FindIntersect points =>
      array_bytes 2 (uint_bytes 4 ++ array_bytes (blen points) (concat (map point_bytes points)))
  | IntersectFound point tip => array_bytes 3 (uint_bytes 5 ++ point_bytes point ++ tip_bytes tip)
  | IntersectNotFound tip => array_bytes 2 (uint_bytes 6 ++ tip_bytes tip)
  | CS_Done => array_bytes 1 (uint_bytes 7)
  end.

(** The values of the source's types: [u64] slots and numbers, 32-byte hashes, headers of one
    CBOR item. *)
Definition point_ok (p : Point) : Prop :=
  match p with Origin => True | Block slot hash => is_u64 slot /\ blen hash = 32 /\ bytes_ok hash end.
Definition tip_ok (t : Tip) : Prop := point_ok (tip_point t) /\ is_u64 (block_no t).
Definition chain_sync_ok (m : ChainSyncMessage) : Prop :=
  match m with
  | RequestNext | AwaitReply | CS_Done => True
  | RollForward header tip => one_item header /\ tip_ok tip
  | RollBackward point tip | IntersectFound point tip => point_ok point /\ tip_ok tip
  | FindIntersect points => Forall point_ok points /\ blen points <= isize_max
  | IntersectNotFound tip => tip_ok tip
  end.

Lemma encode_point_bytes buf p : point_ok p -> encode_point buf p = buf ++ point_bytes p.
Proof.
  destruct p as [|slot hash]; cbn [point_ok encode_point point_bytes]; unfold array_bytes.
  - intros _. by rewrite encode_array_app, app_nil_r by small.
  - intros (Hs & Hl & Ho). by rewrite encode_bytes_app, encode_u64_app, encode_array_app, <- !app_assoc by small.
Qed.

Lemma encode_tip_bytes buf t : tip_ok t -> encode_tip buf t = buf ++ tip_bytes t.
Proof.
  intros [Hp Hb]. unfold encode_tip, tip_bytes, array_bytes.
  by rewrite encode_u64_app, encode_point_bytes, encode_array_app, <- !app_assoc by small.
Qed.

Lemma encode_points_bytes ps : forall buf,
  Forall point_ok ps -> fold_left encode_point ps buf = buf ++ concat (map point_bytes ps).
Proof.
  induction ps as [|p ps IH]; intros buf Hps; cbn [fold_left map concat]; [by rewrite app_nil_r|].
  apply Forall_cons in Hps as [Hp Hps]. by rewrite IH, encode_point_bytes, <- app_assoc by done.
Qed.

Lemma encode_chain_sync_bytes m : chain_sync_ok m -> encode_chain_sync_message m = chain_sync_bytes m.
Proof.
  destruct m; cbn [chain_sync_ok encode_chain_sync_message chain_sync_bytes]; intros Hm;
    try match type of Hm with _ /\ _ => destruct Hm; try pose proof (blen_nonneg points) end;
    rewrite ?encode_points_bytes, ?encode_tip_bytes, ?encode_point_bytes by done;
    rewrite ?encode_u64_app, ?encode_array_app by small; unfold array_bytes;
    cbn [app]; rewrite <- ?app_assoc; try done;
    rewrite ?encode_u64_app, ?encode_array_app by small; by rewrite <- ?app_assoc.
Qed.

Lemma spells_point p : point_ok p -> spells 1 (point_bytes p).
Proof.
  destruct p as [|slot hash]; cbn [point_ok point_bytes]; [intros _; spelling|].
  intros (Hs & Hl & Ho). spelling.
Qed.
#[export] Hint Resolve spells_point : wire.

Lemma reads_point protocol p : point_ok p -> reads (decode_point protocol) (point_bytes p) p.
Proof.
  destruct p as [|slot hash]; cbn [point_ok point_bytes]; unfold decode_point; [intros _; reading|].
  intros (Hs & Hl & Ho). reading. rewrite Hl. reading.
Qed.
#[export] Hint Resolve reads_point : wire.

Lemma spells_tip t : tip_ok t -> spells 1 (tip_bytes t).
Proof. intros [Hp Hb]. unfold tip_bytes. spelling. Qed.
Lemma reads_tip t : tip_ok t -> reads decode_tip (tip_bytes t) t.
Proof. intros [Hp Hb]. unfold decode_tip, tip_bytes. reading. destruct t. apply reads_ret. Qed.
#[export] Hint Resolve spells_tip reads_tip : wire.

Lemma spells_chain_sync m : chain_sync_ok m -> spells 1 (chain_sync_bytes m).
Proof.
  destruct m; cbn [chain_sync_ok chain_sync_bytes]; intros Hm;
    try match type of Hm with _ /\ _ => destruct Hm; try pose proof (blen_nonneg points) end; spelling.
  apply spells_concat.
  eapply Forall_impl; [done|]. intros p Hp. spelling.
Qed.

Lemma points_head_breaks : break_head points_head.
Proof.
  intros data off b Hb. pose proof (byte_at_bound _ _ _ Hb). unfold points_head, nbind, try_consume_break.
  rewrite Hb. destruct (Z.eqb_spec b BREAK_BYTE) as [->|Hne]; [done|].
  rewrite bool_decide_eq_false_2 by (intros [=]; done). cbn.
  destruct (Z.leb_spec (blen data) off); [lia|done].
Qed.

Lemma reads_points ps :
  Forall point_ok ps -> blen ps <= isize_max ->
  reads decode_find_intersect_points (array_bytes (blen ps) (concat (map point_bytes ps))) ps.
Proof.
  intros Hps Hl. pose proof (blen_nonneg ps). unfold decode_find_intersect_points, array_bytes.
  eapply reads_bind; [|].
  { unfold decode_array_head_two_form. eapply reads_end; [apply reads_lift, reads_array_header; small|].
    apply reads_ret. }
  cbn. replace (Z.to_nat (blen ps)) with (length ps) by (unfold blen; lia).
  apply reads_repeat. eapply Forall_impl; [done|]. intros p Hp. by apply reads_point.
Qed.

(** The same list as a real peer writes it, closed by a break. *)
Lemma reads_points_indefinite ps :
  Forall point_ok ps ->
  reads decode_find_intersect_points
    (indefinite_head ++ concat (map point_bytes ps) ++ [BREAK_BYTE]) ps.
Proof.
  intros Hps. eapply reads_bind; [|].
  { unfold decode_array_head_two_form. eapply reads_end; [apply reads_lift, reads_indefinite_array|].
    apply reads_ret. }
  cbn. apply reads_nwhile; [apply points_head_breaks|].
  eapply Forall_impl; [done|]. intros p Hp. split; [by apply reads_point|by apply spells_point].
Qed.

Lemma reads_chain_sync m : chain_sync_ok m -> reads decode_chain_sync_body (chain_sync_bytes m) m.
Proof.
  destruct m; cbn [chain_sync_ok chain_sync_bytes]; unfold decode_chain_sync_body; intros Hm;
    try match type of Hm with _ /\ _ => destruct Hm end; reading.
  eapply reads_end; [by apply reads_points|apply reads_ret].
Qed.

Lemma chain_sync_decodes m :
  chain_sync_ok m -> blen (encode_chain_sync_message m) <= isize_max ->
  decode_chain_sync_message (encode_chain_sync_message m) = Ok m.
Proof.
  intros Hm. rewrite encode_chain_sync_bytes by done. intros Hl.
  apply decode_message_reads; [by apply reads_chain_sync|by apply spells_chain_sync|small].
Qed.

Lemma chain_sync_spelled m : chain_sync_ok m -> spells 1 (encode_chain_sync_message m).
Proof. intros Hm. rewrite encode_chain_sync_bytes by done. by apply spells_chain_sync. Qed.

#[export] Instance chain_sync_codec : WireCodec ChainSyncMessage := {|
  wire_encode := encode_chain_sync_message;
  wire_decode := decode_chain_sync_message;
  wire_ok := chain_sync_ok;
  wire_spells := chain_sync_spelled;
  wire_decodes := chain_sync_decodes;
|}.

Lemma chain_sync_takes_turns st ag v m st' out :
  chain_sync_transition st ag v m = Ok (st', out) -> ag = chain_sync_turn st /\ ag <> Ag_Neither.
Proof.
  unfold chain_sync_transition. destruct (MAX_VERSION <? v); [done|]. by destruct st, ag, m.
Qed.

Lemma chain_sync_gated st ag v m : MAX_VERSION < v -> is_ok (chain_sync_transition st ag v m) = false.
Proof. intros H. unfold chain_sync_transition. destruct (Z.ltb_spec MAX_VERSION v); [done|lia]. Qed.

#[export] Instance chain_sync_protocol :
  MiniProtocol ChainSyncState ChainSyncMessage ChainSyncOutput ChainSyncError := {|
  proto_id := MP_ChainSync;
  proto_initial := CS_Idle;
  proto_transition := chain_sync_transition;
  proto_agency := chain_sync_turn;
  proto_not_handshake := ltac:(done);
  proto_turn := chain_sync_takes_turns;
  proto_version := chain_sync_gated;
|}.
