(* ===== verification/ChainSyncServer.v ===== *)
(** The producer side of chain-sync: [ade_network/src/chain_sync/server.rs], over the served
    chain it sees through the trait [ServedHeaderLookup].

    The trait is a class, so the theorems hold for every served chain; [ServedHeaderLaws]
    states what its documentation promises.  The implementations are in [Served.v]. *)

From Stdlib Require Import Sorted.
From S2P Require Import Prelude NetCodec Envelope WireCodec ChainSync BTree.

(** * Replies and state *)

(** [ServerReply] wraps a private [ServerVariant]: only the server's messages. *)
Inductive ServerReply : Type :=
| roll_forward (header : list Z) (tip : Tip)
| roll_backward (point : Point) (tip : Tip)
| await_reply
| intersect_found (point : Point) (tip : Tip)
| intersect_not_found (tip : Tip).

Definition into_message (r : ServerReply) : ChainSyncMessage :=
  match r with
  | roll_forward header tip => RollForward header tip
  | roll_backward point tip => RollBackward point tip
  | await_reply => AwaitReply
  | intersect_found point tip => IntersectFound point tip
  | intersect_not_found tip => IntersectNotFound tip
  end.

(** A key of the served chain: slot and hash. *)
Abbreviation Key := (Z * list Z)%type.

Record HeaderProjection : Type := mk_HeaderProjection {
  hp_slot : Z;
  hp_hash : list Z;
  hp_block_no : Z;
  hp_era : CardanoEra;
  hp_header_bytes : list Z;
}.
Definition hp_key (p : HeaderProjection) : Key := (hp_slot p, hp_hash p).

Class ServedHeaderLookup (S : Type) : Type := {
  next_after : S -> option Key -> option HeaderProjection;
  intersect : S -> list Point -> option Key;
  served_tip : S -> option (Key * Z);
}.

Record ProducerChainSyncServerState : Type := mk_ServerState {
  ps_state : ChainSyncState;
  last_announced : option Key;
}.
Definition server_new : ProducerChainSyncServerState := mk_ServerState CS_Idle None.

Inductive ProducerServerError : Type := Grammar (e : ChainSyncError).

Inductive ServerStep : Type := Step_Done | Step_Reply (r : ServerReply).

(** * The reducers *)

Section Server.
Context {S : Type} `{ServedHeaderLookup S}.

Definition tip_from_lookup (served : S) : Tip :=
  match served_tip served with
  | Some ((slot, hash), block_no) => mk_Tip (Block slot hash) block_no
  | None => mk_Tip Origin 0
  end.

(** The first point of the client's list that is on the served chain; [Origin] always is. *)
Fixpoint find_intersect (served : S) (points : list Point) : option Point :=
  match points with
  | [] => None
  | Origin :: _ => Some Origin
  | Block slot hash :: points =>
      match intersect served [Block slot hash] with
      | Some (s, h) => Some (Block s h)
      | None => find_intersect served points
      end
  end.

Definition producer_chain_sync_serve (state : ProducerChainSyncServerState) (in_msg : ChainSyncMessage)
    (served : S) (version : Z) :
    result (ProducerChainSyncServerState * ServerStep) ProducerServerError :=
  let? (new_state, _) := map_err Grammar (chain_sync_transition (ps_state state) Ag_Client version in_msg) in
  let state := mk_ServerState new_state (last_announced state) in
  match in_msg with
  | RequestNext =>
      match next_after served (last_announced state) with
      | Some proj =>
          let tip := tip_from_lookup served in
          let header := compose_rollforward_header (hp_era proj) (hp_header_bytes proj) in
          Ok (mk_ServerState CS_Idle (Some (hp_slot proj, hp_hash proj)), Step_Reply (roll_forward header tip))
      | None => Ok (mk_ServerState MustReply (last_announced state), Step_Reply await_reply)
      end
  | FindIntersect points =>
      let tip := tip_from_lookup served in
      match find_intersect served points with
      | Some point =>
          let announced := match point with Block slot hash => Some (slot, hash) | Origin => None end in
          Ok (mk_ServerState CS_Idle announced, Step_Reply (intersect_found point tip))
      | None => Ok (mk_ServerState CS_Idle (last_announced state), Step_Reply (intersect_not_found tip))
      end
  | CS_Done => Ok (state, Step_Done)
  | RollForward _ _ | RollBackward _ _ | AwaitReply | IntersectFound _ _ | IntersectNotFound _ =>
      Err (Grammar (IllegalTransition (ps_state state) "server-originated message arrived as Client" "Client"))
  end.

Definition producer_chain_sync_advance_tip (state : ProducerChainSyncServerState) (served : S) :
    result (ProducerChainSyncServerState * option ServerReply) ProducerServerError :=
  match ps_state state with
  | CanAwait | MustReply =>
      match next_after served (last_announced state) with
      | Some proj =>
          let tip := tip_from_lookup served in
          let header := compose_rollforward_header (hp_era proj) (hp_header_bytes proj) in
          Ok (mk_ServerState CS_Idle (Some (hp_slot proj, hp_hash proj)), Some (roll_forward header tip))
      | None => Ok (state, None)
      end
  | CS_Idle | Intersect | CS_Finished => Ok (state, None)
  end.
End Server.

(** * What a served chain promises *)

Definition after (cursor : option Key) (k : Key) : bool :=
  match cursor with None => true | Some c => ltb c k end.

(** The served chain is a list of headers in ascending key order: [next_after] is its first
    key past the cursor, and [intersect] answers one offered block with that block. *)
Class ServedHeaderLaws (S : Type) `{ServedHeaderLookup S} : Type := {
  served_ok : S -> Prop;
  served_list : S -> list HeaderProjection;
  served_ascends s : served_ok s -> StronglySorted (fun p q => cmp (hp_key p) (hp_key q) = Lt) (served_list s);
  next_after_first s c : served_ok s ->
    next_after s c = List.find (fun p => after c (hp_key p)) (served_list s);
  intersect_offered s slot hash k : intersect s [Block slot hash] = Some k -> k = (slot, hash);
}.

(** * The server and its client never disagree *)

Section Agreement.
Context {S : Type} `{ServedHeaderLookup S}.

Lemma chain_sync_server_outcome state msg (served : S) version :
  match producer_chain_sync_serve state msg served version with
  | Ok (state', Step_Done) =>
      chain_sync_transition (ps_state state) Ag_Client version msg = Ok (CS_Finished, CS_OutDone) /\
      ps_state state' = CS_Finished
  | Ok (state', Step_Reply r) =>
      exists waiting asked answered,
        chain_sync_transition (ps_state state) Ag_Client version msg = Ok (waiting, asked) /\
        chain_sync_transition waiting Ag_Server version (into_message r) = Ok (ps_state state', answered) /\
        (ps_state state' = CS_Idle \/ ps_state state' = MustReply /\ r = await_reply)
  | Err (Grammar e) => chain_sync_transition (ps_state state) Ag_Client version msg = Err e
  end.
Proof.
  unfold producer_chain_sync_serve, chain_sync_transition.
  destruct (MAX_VERSION <? version) eqn:Hv; [done|].
  destruct (ps_state state), msg as [| |? ?|? ?|[|p points]|? ?|?|]; cbn [map_err rbind ps_state last_announced]; try done.
  - destruct (next_after served (last_announced state)) as [proj|]; cbn [into_message ps_state]; eauto 10.
  - destruct (find_intersect served (p :: points)) as [q|]; cbn [into_message ps_state]; eauto 10.
Qed.

Lemma chain_sync_poll_outcome state (served : S) version : version <= MAX_VERSION ->
  match producer_chain_sync_advance_tip state served with
  | Ok (state', Some r) =>
      exists answered,
        chain_sync_transition (ps_state state) Ag_Server version (into_message r) = Ok (ps_state state', answered) /\
        ps_state state' = CS_Idle
  | Ok (state', None) => state' = state
  | Err _ => False
  end.
Proof.
  intros Hv. unfold producer_chain_sync_advance_tip, chain_sync_transition.
  destruct (Z.ltb_spec MAX_VERSION version); [lia|].
  destruct (ps_state state); try done; destruct (next_after served (last_announced state)); try done; cbn; eauto.
Qed.
End Agreement.

(** * Serving the successors of a point *)

Section Serving.
Context {S : Type} `{ServedHeaderLaws S}.
Variable version : Z.
Hypothesis Hversion : version <= MAX_VERSION.

Definition successors (s : S) (c : option Key) : list HeaderProjection :=
  List.filter (fun p => after c (hp_key p)) (served_list s).

Definition rolled (s : S) (p : HeaderProjection) : ServerStep :=
  Step_Reply (roll_forward (compose_rollforward_header (hp_era p) (hp_header_bytes p)) (tip_from_lookup s)).

(** [n] requests in a row against one served chain. *)
Fixpoint request_n (n : nat) (state : ProducerChainSyncServerState) (s : S) :
    result (ProducerChainSyncServerState * list ServerStep) ProducerServerError :=
  match n with
  | O => Ok (state, [])
  | Datatypes.S n =>
      let? (state1, r) := producer_chain_sync_serve state RequestNext s version in
      let? (state2, rs) := request_n n state1 s in Ok (state2, r :: rs)
  end.

Lemma after_trans c k k' : after c k = true -> ltb k k' = true -> after c k' = true.
Proof. destruct c as [c|]; [|done]. cbn. apply ltb_trans. Qed.

Lemma successors_step (l : list HeaderProjection) c p rest :
  StronglySorted (fun p q => cmp (hp_key p) (hp_key q) = Lt) l ->
  List.filter (fun p => after c (hp_key p)) l = p :: rest ->
  List.find (fun p => after c (hp_key p)) l = Some p /\
  List.filter (fun q => after (Some (hp_key p)) (hp_key q)) l = rest.
Proof.
  induction l as [|x l IH]; [done|]. intros Hs Hf. inversion Hs as [|? ? Hl Hx]; subst. cbn in *.
  assert (Hall : forall k, (k = hp_key x \/ ltb k (hp_key x) = true) -> List.filter (fun q => ltb k (hp_key q)) l = l).
  { intros k Hk. clear -Hx Hk. induction Hx as [|y l Hy _ IHl]; [done|]. cbn.
    assert (ltb k (hp_key y) = true) as -> by (destruct Hk as [-> |Hk]; [by apply ltb_lt|];
      eapply ltb_trans; [exact Hk|by apply ltb_lt]). by rewrite IHl. }
  destruct (after c (hp_key x)) eqn:Hc.
  - injection Hf as <- <-. split; [done|]. rewrite ltb_irrefl, Hall by auto.
    destruct c as [c|]; cbn in Hc |- *; [symmetry; apply Hall; by right|].
    clear. induction l as [|y l IHl]; cbn; congruence.
  - destruct (IH Hl Hf) as [-> E]. split; [done|]. rewrite E.
    destruct (ltb (hp_key p) (hp_key x)) eqn:Hpx; [|done].
    assert (Hp : after c (hp_key p) = true).
    { assert (Hin : In p (List.filter (fun p => after c (hp_key p)) l)) by (rewrite Hf; by left).
      by apply filter_In in Hin as [_ ?]. }
    by rewrite (after_trans _ _ _ Hp Hpx) in Hc.
Qed.

Lemma successors_none (l : list HeaderProjection) c :
  List.filter (fun p => after c (hp_key p)) l = [] -> List.find (fun p => after c (hp_key p)) l = None.
Proof. induction l as [|x l IH]; [done|]. cbn. by destruct (after c (hp_key x)). Qed.

Definition cursor_at (c : option Key) (l : list HeaderProjection) : option Key :=
  match last l with Some p => Some (hp_key p) | None => c end.

Lemma serves_successors (s : S) (Hs : served_ok s) l : forall c, successors s c = l ->
  request_n (length l) (mk_ServerState CS_Idle c) s =
    Ok (mk_ServerState CS_Idle (cursor_at c l), map (rolled s) l) /\
  producer_chain_sync_serve (mk_ServerState CS_Idle (cursor_at c l)) RequestNext s version =
    Ok (mk_ServerState MustReply (cursor_at c l), Step_Reply await_reply).
Proof.
  pose proof (served_ascends s Hs) as Ha. assert (Hg : (MAX_VERSION <? version) = false) by (apply Z.ltb_ge; lia).
  induction l as [|p l IH]; intros c Hc; cbn [length request_n map].
  - unfold cursor_at, producer_chain_sync_serve, chain_sync_transition. cbn [last ps_state last_announced].
    rewrite Hg. cbn [map_err rbind last_announced]. split; [done|].
    by rewrite next_after_first, successors_none by done.
  - destruct (successors_step _ _ _ _ Ha Hc) as [Hf Hr].
    unfold producer_chain_sync_serve at 1. unfold chain_sync_transition. cbn [ps_state last_announced].
    rewrite Hg. cbn [map_err rbind last_announced]. rewrite next_after_first, Hf by done. cbn [rbind].
    destruct (IH (Some (hp_key p)) Hr) as [E1 E2].
    assert (Hcur : cursor_at c (p :: l) = cursor_at (Some (hp_key p)) l)
      by (unfold cursor_at; destruct l as [|q l']; [done|]; rewrite (last_cons_cons p q l');
          destruct (last (q :: l')) eqn:El; [done|by apply last_None in El]).
    rewrite Hcur. change (hp_slot p, hp_hash p) with (hp_key p).
    by rewrite E1.
Qed.
End Serving.
