(* ===== verification/BlockFetch.v ===== *)
(** The node-to-node block-fetch protocol: the message codec
    [ade_network/src/codec/block_fetch.rs], the state machine of
    [ade_network/src/block_fetch/] and its producer side [block_fetch/server.rs] over the
    trait [ServedRangeLookup].

    The codec declares [Point] again, as the chain-sync codec does; the model has one. *)

From Stdlib Require Import Sorted.
From S2P Require Import Prelude Cbor CborSkip CborRoundtrip CborPrefix NetCodec Spelling Envelope.
From S2P Require Import Session WireCodec ChainSync BTree.

(** * Messages ([codec/block_fetch.rs]) *)

Record Range : Type := mk_Range { range_from : Point; range_to : Point }.

Inductive BlockFetchMessage : Type :=
| RequestRange (range : Range)
| ClientDone
| StartBatch
| NoBlocks
| BF_Block (bytes : list Z)
| BatchDone.

#[global] Instance Range_eq_dec : EqDecision Range.
Proof. solve_decision. Defined.
#[global] Instance BlockFetchMessage_eq_dec : EqDecision BlockFetchMessage.
Proof. solve_decision. Defined.

Definition encode_block_fetch_message (msg : BlockFetchMessage) : list Z :=
  match msg with
  | RequestRange r =>
      encode_point (encode_point (encode_u64 (encode_array_header [] 3) 0) (range_from r)) (range_to r)
  | ClientDone => encode_u64 (encode_array_header [] 1) 1
  | StartBatch => encode_u64 (encode_array_header [] 1) 2
  | NoBlocks => encode_u64 (encode_array_header [] 1) 3
  | BF_Block bytes => encode_u64 (encode_array_header [] 2) 4 ++ bytes
  | BatchDone => encode_u64 (encode_array_header [] 1) 5
  end.

Definition decode_block_fetch_body : NDec BlockFetchMessage :=
  net! arr_len := decode_array_header Kind_BlockFetch in
  if arr_len <? 1 then nfail (InvalidProtocolMessage Kind_BlockFetch "empty outer array") else
  net! tag := decode_u64 Kind_BlockFetch in
  if (tag =? 0) && (arr_len =? 3) then
    net! from := decode_point Kind_BlockFetch in
    net! to := decode_point Kind_BlockFetch in nret (RequestRange (mk_Range from to))
  else if (tag =? 1) && (arr_len =? 1) then nret ClientDone
  else if (tag =? 2) && (arr_len =? 1) then nret StartBatch
  else if (tag =? 3) && (arr_len =? 1) then nret NoBlocks
  else if (tag =? 4) && (arr_len =? 2) then
    net! body := decode_raw_item Kind_BlockFetch in nret (BF_Block body)
  else if (tag =? 5) && (arr_len =? 1) then nret BatchDone
  else nfail (UnknownTag Kind_BlockFetch tag).

Definition decode_block_fetch_message (bytes : list Z) : result BlockFetchMessage (Fault NetCodecError) :=
  decode_message Kind_BlockFetch decode_block_fetch_body bytes.

Definition compose_blockfetch_block (storage_block : list Z) : list Z := wrap_tag24 storage_block.
Definition decompose_blockfetch_block (payload : list Z) : result (list Z) Tag24.TagEnvelopeError :=
  unwrap_tag24 payload.

(** * The state machine ([block_fetch/]) *)

Inductive BlockFetchState : Type := BF_Idle | BF_Busy | Streaming | BF_Finished.

Inductive BatchDeliveryEvent : Type :=
| BatchStarted
| BlockDelivered (block_bytes : list Z)
| Ev_NoBlocks
| BatchCompleted.

Inductive BlockFetchOutput : Type :=
| BF_Reply (msg : BlockFetchMessage)
| BF_Event (event : BatchDeliveryEvent)
| BF_OutDone.

Definition BlockFetchError : Type := TransitionError BlockFetchState Agency.

Definition block_fetch_message_tag (msg : BlockFetchMessage) : string :=
  match msg with
  | RequestRange _ => "RequestRange"
  | ClientDone => "ClientDone"
  | StartBatch => "StartBatch"
  | NoBlocks => "NoBlocks"
  | BF_Block _ => "Block"
  | BatchDone => "BatchDone"
  end.

(** The slots of a range given by two blocks, inverted. *)
Definition inverted_range (range : Range) : bool :=
  match range_from range, range_to range with
  | Block s_from _, Block s_to _ => s_to <? s_from
  | _, _ => false
  end.

Definition block_fetch_transition (state : BlockFetchState) (agency : Agency) (version : Z)
    (msg : BlockFetchMessage) : result (BlockFetchState * BlockFetchOutput) BlockFetchError :=
  if MAX_VERSION <? version then Err (InvalidForVersion version (block_fetch_message_tag msg)) else
  match state, agency, msg with
  | BF_Idle, Ag_Client, RequestRange range =>
      if inverted_range range then Err (MalformedMessage "BlockFetch range is inverted (from > to)")
      else Ok (BF_Busy, BF_Reply (RequestRange range))
  | BF_Idle, Ag_Client, ClientDone => Ok (BF_Finished, BF_OutDone)
  | BF_Busy, Ag_Server, StartBatch => Ok (Streaming, BF_Event BatchStarted)
  | BF_Busy, Ag_Server, NoBlocks => Ok (BF_Idle, BF_Event Ev_NoBlocks)
  | Streaming, Ag_Server, BF_Block bytes => Ok (Streaming, BF_Event (BlockDelivered bytes))
  | Streaming, Ag_Server, BatchDone => Ok (BF_Idle, BF_Event BatchCompleted)
  | _, _, _ => Err (IllegalTransition state (block_fetch_message_tag msg) agency)
  end.

Definition block_fetch_turn (state : BlockFetchState) : Agency :=
  match state with
  | BF_Idle => Ag_Client
  | BF_Busy | Streaming => Ag_Server
  | BF_Finished => Ag_Neither
  end.

(** * The producer side ([block_fetch/server.rs]) *)

Inductive BlockServerReply : Type :=
| start_batch
| no_blocks
| block_reply (bytes : list Z)
| batch_done.

Definition block_into_message (r : BlockServerReply) : BlockFetchMessage :=
  match r with
  | start_batch => StartBatch
  | no_blocks => NoBlocks
  | block_reply bytes => BF_Block bytes
  | batch_done => BatchDone
  end.

(** The lookup may panic, as one implementation does. *)
Class ServedRangeLookup (S : Type) : Type :=
  range_bytes : S -> Z * list Z -> Z * list Z -> result (list (Z * list Z * list Z)) (Fault Empty_set).

Inductive ProducerBlockFetchServerError : Type := BF_Grammar (e : BlockFetchError).

Inductive BlockFetchServerStep : Type :=
| BF_Step_Done
| Replies (replies : list BlockServerReply).

Section Server.
Context {S : Type} `{ServedRangeLookup S}.

(** The whole reply to a range: both endpoints must be present. *)
Definition range_replies (from to : Z * list Z) (entries : list (Z * list Z * list Z)) : list BlockServerReply :=
  match entries, last entries with
  | (first, _) :: _, Some (last, _) =>
      if negb (bool_decide (first = from)) || negb (bool_decide (last = to)) then [no_blocks]
      else [start_batch] ++ map (fun e => block_reply (compose_blockfetch_block (snd e))) entries ++ [batch_done]
  | _, _ => [no_blocks]
  end.

Definition producer_block_fetch_serve (state : BlockFetchState) (in_msg : BlockFetchMessage)
    (served : S) (version : Z) :
    result (BlockFetchState * BlockFetchServerStep) (Fault ProducerBlockFetchServerError) :=
  let? (new_state, _) :=
    map_err (fun e => Failed (BF_Grammar e)) (block_fetch_transition state Ag_Client version in_msg) in
  match in_msg with
  | RequestRange range =>
      match range_from range, range_to range with
      | Origin, _ | _, Origin => Ok (BF_Idle, Replies [no_blocks])
      | Block sf hf, Block st ht =>
          match range_bytes served (sf, hf) (st, ht) with
          | Err _ => Err Panicked
          | Ok entries => Ok (BF_Idle, Replies (range_replies (sf, hf) (st, ht) entries))
          end
      end
  | ClientDone => Ok (new_state, BF_Step_Done)
  | StartBatch | NoBlocks | BF_Block _ | BatchDone =>
      Err (Failed (BF_Grammar
        (IllegalTransition new_state "server-originated message arrived as Client" Ag_Client)))
  end.
End Server.

(** What a served chain promises about ranges: it is an ordered list of blocks, and a lookup
    answers with the blocks of the range or with none; it can panic only on an inverted one. *)
Definition in_range {V} (from to : Z * list Z) (e : (Z * list Z) * V) : bool :=
  leb from (fst e) && leb (fst e) to.

Class ServedRangeLaws (S : Type) `{ServedRangeLookup S} : Type := {
  ranges_ok : S -> Prop;
  range_list : S -> BTreeMap (Z * list Z) (list Z);
  range_ascends s : ranges_ok s -> ordered (range_list s);
  range_sized s : ranges_ok s -> Forall (fun e => bytes_ok (snd e) /\ blen (snd e) <= isize_max) (range_list s);
  range_exact s from to : ranges_ok s ->
    match range_bytes s from to with
    | Ok l => l = [] \/ l = List.filter (in_range from to) (range_list s)
    | Err _ => ltb to from = true
    end;
}.

(** * Messages survive their encoding *)

Definition block_fetch_bytes (m : BlockFetchMessage) : list Z :=
  match m with
  | RequestRange r => array_bytes 3 (uint_bytes 0 ++ point_bytes (range_from r) ++ point_bytes (range_to r))
  | ClientDone => array_bytes 1 (uint_bytes 1)
  | StartBatch => array_bytes 1 (uint_bytes 2)
  | NoBlocks => array_bytes 1 (uint_bytes 3)
  | BF_Block bytes => array_bytes 2 (uint_bytes 4 ++ bytes)
  | BatchDone => array_bytes 1 (uint_bytes 5)
  end.

Definition block_fetch_ok (m : BlockFetchMessage) : Prop :=
  match m with
  | RequestRange r => point_ok (range_from r) /\ point_ok (range_to r)
  | BF_Block bytes => one_item bytes
  | _ => True
  end.

Lemma encode_block_fetch_bytes m : block_fetch_ok m -> encode_block_fetch_message m = block_fetch_bytes m.
Proof.
  destruct m; cbn [block_fetch_ok encode_block_fetch_message block_fetch_bytes]; intros Hm;
    try match type of Hm with _ /\ _ => destruct Hm end;
    rewrite ?encode_point_bytes by done;
    rewrite ?encode_u64_app, ?encode_array_app by small; unfold array_bytes; cbn [app]; by rewrite <- ?app_assoc.
Qed.

Lemma spells_block_fetch m : block_fetch_ok m -> spells 1 (encode_block_fetch_message m).
Proof.
  intros Hm. rewrite encode_block_fetch_bytes by done.
  destruct m; cbn [block_fetch_ok block_fetch_bytes] in *;
    try match type of Hm with _ /\ _ => destruct Hm end; spelling.
Qed.

Lemma reads_block_fetch m : block_fetch_ok m -> reads decode_block_fetch_body (block_fetch_bytes m) m.
Proof.
  destruct m as [[]| | | | |]; cbn [block_fetch_ok block_fetch_bytes range_from range_to];
    unfold decode_block_fetch_body; intros Hm; try match type of Hm with _ /\ _ => destruct Hm end; reading.
Qed.

Lemma block_fetch_decodes m :
  block_fetch_ok m -> blen (encode_block_fetch_message m) <= isize_max ->
  decode_block_fetch_message (encode_block_fetch_message m) = Ok m.
Proof.
  intros Hm Hl. pose proof (spells_block_fetch m Hm) as Hs. rewrite encode_block_fetch_bytes in * by done.
  apply decode_message_reads; [by apply reads_block_fetch|done|small].
Qed.

#[export] Instance block_fetch_codec : WireCodec BlockFetchMessage := {|
  wire_encode := encode_block_fetch_message;
  wire_decode := decode_block_fetch_message;
  wire_ok := block_fetch_ok;
  wire_spells := spells_block_fetch;
  wire_decodes := block_fetch_decodes;
|}.

Lemma block_fetch_takes_turns st ag v m st' out :
  block_fetch_transition st ag v m = Ok (st', out) -> ag = block_fetch_turn st /\ ag <> Ag_Neither.
Proof.
  unfold block_fetch_transition. destruct (MAX_VERSION <? v); [done|]. by destruct st, ag, m.
Qed.

Lemma block_fetch_gated st ag v m : MAX_VERSION < v -> is_ok (block_fetch_transition st ag v m) = false.
Proof. intros Hv. unfold block_fetch_transition. destruct (Z.ltb_spec MAX_VERSION v); [done|lia]. Qed.

#[export] Instance block_fetch_protocol :
  MiniProtocol BlockFetchState BlockFetchMessage BlockFetchOutput BlockFetchError := {|
  proto_id := MP_BlockFetch;
  proto_initial := BF_Idle;
  proto_transition := block_fetch_transition;
  proto_agency := block_fetch_turn;
  proto_not_handshake := ltac:(done);
  proto_turn := block_fetch_takes_turns;
  proto_version := block_fetch_gated;
|}.

(** * What a range request delivers *)

Section Delivery.
Variable version : Z.
Hypothesis Hversion : version <= MAX_VERSION.

Lemma not_gated : (MAX_VERSION <? version) = false.
Proof. apply Z.ltb_ge. lia. Qed.

Lemma run_blocks payloads tail :
  run version Streaming (map BF_Block payloads ++ tail) =
    let? (st, outs) := run version Streaming tail in
    Ok (st, map (fun p => BF_Event (BlockDelivered p)) payloads ++ outs).
Proof.
  induction payloads as [|p payloads IH]; cbn [map app].
  - by destruct (run version Streaming tail) as [[? ?]|?].
  - cbn [run proto_transition block_fetch_protocol proto_agency block_fetch_turn].
    unfold block_fetch_transition. rewrite not_gated. cbn [rbind]. rewrite IH.
    by destruct (run version Streaming tail) as [[? ?]|?].
Qed.

Definition delivery_outs (payloads : list (list Z)) : list BlockFetchOutput :=
  [BF_Event BatchStarted] ++ map (fun p => BF_Event (BlockDelivered p)) payloads ++ [BF_Event BatchCompleted].

Lemma run_batch payloads :
  run version BF_Busy ([StartBatch] ++ map BF_Block payloads ++ [BatchDone]) =
    Ok (BF_Idle, delivery_outs payloads).
Proof.
  cbn [app run proto_transition block_fetch_protocol proto_agency block_fetch_turn].
  unfold block_fetch_transition at 1. rewrite not_gated. cbn [rbind]. rewrite run_blocks.
  cbn [run proto_transition block_fetch_protocol proto_agency block_fetch_turn].
  unfold block_fetch_transition at 1. rewrite not_gated. done.
Qed.

Lemma run_no_blocks : run version BF_Busy [NoBlocks] = Ok (BF_Idle, [BF_Event Ev_NoBlocks]).
Proof.
  cbn [run proto_transition block_fetch_protocol proto_agency block_fetch_turn].
  unfold block_fetch_transition. by rewrite not_gated.
Qed.

Lemma compose_fits b : bytes_ok b -> blen b <= isize_max -> decompose_blockfetch_block (compose_blockfetch_block b) = Ok b.
Proof.
  intros Hb Hl. apply unwrap_wrap_tag24; [done|]. unfold wrap_tag24, write_bytes_canonical.
  rewrite write_canonical by (pose proof (blen_nonneg b); small). rewrite !blen_app.
  change (blen (write_tag [] 24 I8)) with 2.
  assert (blen (argument_bytes MAJOR_BYTES (blen b)) <= 9); [|unfold isize_max in *; width; lia].
  unfold argument_bytes. rewrite blen_cons, blen_to_be. destruct (canonical_width (blen b)); vm_compute; congruence.
Qed.

Lemma range_first {V} (l : BTreeMap (Z * list Z) V) from to v : ordered l -> (from, v) ∈ l ->
  leb from to = true -> exists rest, List.filter (in_range from to) l = (from, v) :: rest.
Proof.
  intros Ho Hin Hle. induction l as [|[k w] l IH]; [by apply not_elem_of_nil in Hin|].
  apply ordered_cons in Ho as [Ho Hk]. cbn [List.filter]. unfold in_range at 1. cbn [fst].
  apply elem_of_cons in Hin as [[= <- <-]|Hin].
  - rewrite leb_ltb, ltb_irrefl. cbn [negb andb]. rewrite Hle. eauto.
  - rewrite Forall_forall in Hk. specialize (Hk _ Hin). cbn [fst] in Hk.
    assert (leb from k = false) as -> by (rewrite leb_ltb; apply ltb_lt in Hk; by rewrite Hk).
    cbn [andb]. by apply IH.
Qed.

Lemma range_last {V} (l : BTreeMap (Z * list Z) V) from to v : ordered l -> (to, v) ∈ l ->
  leb from to = true -> exists w, last (List.filter (in_range from to) l) = Some (to, w).
Proof.
  intros Ho Hin Hle. assert (Hf : (to, v) ∈ List.filter (in_range from to) l).
  { apply list_elem_of_In, filter_In. split; [by apply list_elem_of_In|]. unfold in_range. cbn [fst].
    rewrite Hle. by rewrite leb_ltb, ltb_irrefl. }
  destruct (last _) as [[k w]|] eqn:E; [|apply last_None in E; rewrite E in Hf; by apply not_elem_of_nil in Hf].
  destruct (ordered_last _ _ _ (ordered_filter (in_range from to) l Ho) E) as [Hin' Hmax].
  specialize (Hmax _ _ Hf). apply list_elem_of_In, filter_In in Hin' as [_ Hr]. unfold in_range in Hr. cbn [fst] in Hr.
  apply andb_true_iff in Hr as [_ Hr]. rewrite leb_ltb in Hr. apply negb_true_iff in Hr.
  exists w. f_equal. f_equal. apply cmp_eq. unfold ltb in Hmax, Hr. rewrite (cmp_antisym k to) in *.
  by destruct (cmp k to).
Qed.

Lemma range_replies_cases (from to : Z * list Z) entries :
  Forall (fun e => bytes_ok (snd e) /\ blen (snd e) <= isize_max) entries ->
  let rs := range_replies from to entries in
  (rs = [no_blocks] /\
     ~ (exists v rest w, entries = (from, v) :: rest /\ last entries = Some (to, w))) \/
  (exists v w payloads, (from, v) ∈ entries /\ (to, w) ∈ entries /\
     map block_into_message rs = [StartBatch] ++ map BF_Block payloads ++ [BatchDone] /\
     map decompose_blockfetch_block payloads = map Ok (map snd entries)).
Proof.
  intros Hs. unfold range_replies. destruct entries as [|[first v] rest] eqn:Ee.
  { left. split; [done|]. by intros (? & ? & ? & ? & ?). }
  destruct (last ((first, v) :: rest)) as [[lst w]|] eqn:El; [|by apply last_None in El].
  destruct (negb _ || negb _) eqn:Hne.
  - left. split; [done|]. intros (v' & rest' & w' & [= -> -> ->] & [= ->]).
    by rewrite !bool_decide_eq_true_2 in Hne.
  - right. apply orb_false_iff in Hne as [H1 H2]. apply negb_false_iff, bool_decide_eq_true in H1, H2. subst first lst.
    exists v, w, (map (fun e => compose_blockfetch_block (snd e)) ((from, v) :: rest)).
    split_and!; [by left|by apply last_Some_elem_of in El| |].
    + rewrite !map_app, !map_map. done.
    + rewrite !map_map. apply map_ext_Forall. eapply Forall_impl; [exact Hs|]. intros [k b] [Hb Hl]. by apply compose_fits.
Qed.
End Delivery.
