(* ===== verification/Served.v ===== *)
(** The served chain: [ade_runtime/src/network/served_chain_projection.rs] over the chain
    database, and the accepted-block index [ade_ledger/src/producer/served_chain.rs] with its
    adapter [ade_runtime/src/producer/served_chain_lookups.rs].

    The servers use the block decoder and the header projection of
    [ade_ledger/src/block_validity/] through an interface ([BlockDecode]), and the theorems hold
    for every decoder; [ServedBlocks.v] instantiates it with the decoder of [BlockValidity.v]. *)

From Stdlib Require Import Sorted.
From S2P Require Import Prelude NetCodec Envelope WireCodec ChainSync ChainSyncServer BlockFetch BTree ChainDb.

(** What the served chain reads of a [DecodedBlock]. *)
Record DecodedBlock : Type := mk_DecodedBlock {
  db_era : CardanoEra;
  db_slot : Z;
  db_block_no : Z;
  db_hash : list Z;
  db_prev_hash : option (list Z);
}.

(** [decode_block] and [block_header_bytes]; the callers drop the errors. *)
Class BlockDecode : Type := {
  decode_block : list Z -> option DecodedBlock;
  block_header_bytes : list Z -> option (list Z);
}.

Definition to_result {A} (o : option A) : result A unit :=
  match o with Some a => Ok a | None => Err tt end.

(** * The durable chain ([served_chain_projection.rs]) *)

Definition MAX_SERVE_RANGE_BLOCKS : Z := 256.

Inductive ServeRangeOutcome : Type :=
| Served (blocks : list (Z * list Z * list Z))
| Empty
| CapExceeded
| ReadError.

(** [ChainDbServedSource] wraps the database. *)
Record ChainDbServedSource (D : Type) : Type := mk_ServedSource { chaindb : D }.
Arguments mk_ServedSource {D} chaindb.
Arguments chaindb {D} _.

Section Projection.
Context {D : Type} `{ChainDb D} `{BlockDecode}.

(** The loop over the blocks read: [None] is the early return on an undecodable block. *)
Fixpoint collect_range (from to : Key) (blocks : list (Z * list Z)) (out : list (Key * list Z)) :
    option (list (Key * list Z)) :=
  match blocks with
  | [] => Some out
  | (slot, bytes) :: blocks =>
      match decode_block bytes with
      | None => None
      | Some d =>
          let key := (slot, db_hash d) in
          collect_range from to blocks (if leb from key && leb key to then out ++ [(key, bytes)] else out)
      end
  end.

Definition serve_range (s : ChainDbServedSource D) (from to : Key) : ServeRangeOutcome :=
  match range_bytes_capped (chaindb s) (fst from) (fst to) MAX_SERVE_RANGE_BLOCKS with
  | Err _ => ReadError
  | Ok capped =>
      if cr_truncated capped then CapExceeded else
      match collect_range from to (cr_blocks capped) [] with
      | None => ReadError
      | Some [] => Empty
      | Some out => Served out
      end
  end.

Definition earliest_servable_block_prev_hash (s : ChainDbServedSource D) : option (list Z) :=
  match range_bytes_capped (chaindb s) 0 u64_max 1 with
  | Ok (mk_CappedSlotRange ((_, bytes) :: _) _) =>
      match decode_block bytes with Some d => db_prev_hash d | None => None end
  | _ => None
  end.

(** The first decoded block past the cursor; an undecodable one ends the search. *)
Fixpoint first_after (cursor : option Key) (blocks : list (Z * list Z)) : option HeaderProjection :=
  match blocks with
  | [] => None
  | (slot, bytes) :: blocks =>
      match decode_block bytes with
      | None => None
      | Some d =>
          if negb (after cursor (slot, db_hash d)) then first_after cursor blocks else
          match block_header_bytes bytes with
          | None => None
          | Some header => Some (mk_HeaderProjection slot (db_hash d) (db_block_no d) (db_era d) header)
          end
      end
  end.

Definition source_next_after (s : ChainDbServedSource D) (cursor : option Key) : option HeaderProjection :=
  let from := match cursor with Some (slot, _) => slot | None => 0 end in
  match range_bytes_capped (chaindb s) from u64_max 2 with
  | Ok capped => first_after cursor (cr_blocks capped)
  | Err _ => None
  end.

(** The first offered block that is stored at the offered slot. *)
Fixpoint stored_point (s : ChainDbServedSource D) (points : list Point) : option Key :=
  match points with
  | [] => None
  | Origin :: points => stored_point s points
  | Block slot hash :: points =>
      match get_block_by_hash (chaindb s) hash with
      | Ok (Some stored) =>
          if sb_slot stored =? slot then Some (slot, hash) else stored_point s points
      | _ => stored_point s points
      end
  end.

(** The first offered point whose hash is the parent of the earliest block. *)
Fixpoint parent_point (parent : list Z) (points : list Point) : option Key :=
  match points with
  | [] => None
  | Origin :: points => parent_point parent points
  | Block slot hash :: points =>
      if bool_decide (hash = parent) then Some (slot, hash) else parent_point parent points
  end.

Definition source_intersect (s : ChainDbServedSource D) (points : list Point) : option Key :=
  match stored_point s points with
  | Some k => Some k
  | None =>
      match earliest_servable_block_prev_hash s with
      | Some parent => parent_point parent points
      | None => None
      end
  end.

Definition source_tip (s : ChainDbServedSource D) : option (Key * Z) :=
  match last_block_bytes (chaindb s) with
  | Ok (Some (slot, bytes)) =>
      match decode_block bytes with Some d => Some ((slot, db_hash d), db_block_no d) | None => None end
  | _ => None
  end.

Definition source_range_bytes (s : ChainDbServedSource D) (from to : Key) :
    result (list (Key * list Z)) (Fault Empty_set) :=
  Ok (match serve_range s from to with Served v => v | Empty | CapExceeded | ReadError => [] end).
End Projection.

#[export] Instance source_headers {D} `{ChainDb D} `{BlockDecode} : ServedHeaderLookup (ChainDbServedSource D) := {|
  next_after := source_next_after;
  intersect := source_intersect;
  served_tip := source_tip;
|}.

#[export] Instance source_ranges {D} `{ChainDb D} `{BlockDecode} : ServedRangeLookup (ChainDbServedSource D) :=
  source_range_bytes.

(** * The durable chain keeps its promises to the servers *)

Section SourceLaws.
Context {D : Type} `{ChainDbLaws D} `{BlockDecode}.

(** A stored block decodes, to the hash it is stored under, and has a header. *)
Definition servable (e : Z * StoredBlock) : Prop := exists d header,
  decode_block (sb_bytes (snd e)) = Some d /\ db_hash d = sb_hash (snd e) /\
  block_header_bytes (sb_bytes (snd e)) = Some header /\
  bytes_ok (sb_bytes (snd e)) /\ blen (sb_bytes (snd e)) <= isize_max.

Definition project (e : Z * StoredBlock) : option HeaderProjection :=
  match decode_block (sb_bytes (snd e)), block_header_bytes (sb_bytes (snd e)) with
  | Some d, Some header =>
      Some (mk_HeaderProjection (fst e) (db_hash d) (db_block_no d) (db_era d) header)
  | _, _ => None
  end.

Definition source_ok (s : ChainDbServedSource D) : Prop :=
  db_valid (chaindb s) /\ Forall servable (db_blocks (chaindb s)).
Definition source_list (s : ChainDbServedSource D) : list HeaderProjection := omap project (db_blocks (chaindb s)).

Lemma project_servable e : servable e -> exists p, project e = Some p /\ hp_key p = (fst e, sb_hash (snd e)).
Proof. intros (d & header & E & Hh & Eh & _). unfold project. rewrite E, Eh. eexists. split; [done|]. unfold hp_key. cbn. by rewrite Hh. Qed.

Definition read_of (e : Z * StoredBlock) : Z * list Z := (fst e, sb_bytes (snd e)).

Lemma first_after_find c (l : list (Z * StoredBlock)) : Forall servable l ->
  first_after c (map read_of l) = List.find (fun p => after c (hp_key p)) (omap project l).
Proof.
  induction 1 as [|e l (d & header & E & Hh & Eh & _) _ IH]; [done|].
  cbn [map first_after omap list_omap read_of]. unfold project at 1. rewrite E, Eh. cbn.
  unfold hp_key at 1. cbn. destruct (after c (fst e, db_hash d)); cbn; [done|apply IH].
Qed.

Lemma ltb_pair (s s' : Z) (h h' : list Z) : s < s' -> ltb (s, h) (s', h') = true.
Proof. intros Hs. unfold ltb, cmp, pair_order, pair_cmp. cbn. by apply Z.compare_lt_iff in Hs as ->. Qed.
Lemma ltb_pair_not (s s' : Z) (h h' : list Z) : s' < s -> ltb (s, h) (s', h') = false.
Proof. intros Hs. unfold ltb, cmp, pair_order, pair_cmp. cbn. by apply Z.compare_gt_iff in Hs as ->. Qed.

Lemma find_app {A} (f : A -> bool) l k :
  List.find f (l ++ k) = match List.find f l with Some x => Some x | None => List.find f k end.
Proof. induction l as [|x l IH]; cbn; [done|]. by destruct (f x). Qed.

(** The two blocks read from the cursor's slot hold the first block past the cursor. *)
Lemma window_enough c (l : list (Z * StoredBlock)) :
  ordered l -> Forall servable l -> Forall (fun e => is_u64 (fst e)) l ->
  let from := match c with Some (slot, _) => slot | None => 0 end in
  List.find (fun p => after c (hp_key p)) (omap project (take 2 (List.filter (in_slots from u64_max) l))) =
  List.find (fun p => after c (hp_key p)) (omap project l).
Proof.
  intros Ho Hs Hu from. induction l as [|[s b] l IH]; [done|].
  apply ordered_cons in Ho as [Ho Hk]. apply Forall_cons in Hs as [Hb Hs]. apply Forall_cons in Hu as [Hsu Hu].
  specialize (IH Ho Hs Hu). destruct (project_servable _ Hb) as (p & Hp & Hkey). cbn [fst snd] in *.
  cbn [List.filter]. unfold in_slots at 1. cbn [fst].
  replace (s <=? u64_max) with true by (symmetry; apply Z.leb_le; width; lia). rewrite andb_true_r.
  destruct (Z.leb_spec from s) as [Hf|Hf].
  - cbn [take omap list_omap]. rewrite Hp. cbn [List.find]. rewrite Hkey.
    destruct (after c (s, sb_hash b)) eqn:Hc; [done|].
    destruct l as [|[s' b'] l]; [done|]. apply Forall_cons in Hk as [Hss _]. apply (proj1 (Z.compare_lt_iff _ _)) in Hss. cbn [fst] in Hss.
    apply Forall_cons in Hs as [Hb' _]. apply Forall_cons in Hu as [Hsu' _]. cbn [fst] in Hsu'.
    destruct (project_servable _ Hb') as (p' & Hp' & Hkey'). cbn [fst snd] in *.
    cbn [List.filter]. unfold in_slots at 1. cbn [fst].
    replace (from <=? s') with true by (symmetry; apply Z.leb_le; lia).
    replace (s' <=? u64_max) with true by (symmetry; apply Z.leb_le; width; lia). cbn [andb].
    cbn [take omap list_omap]. rewrite Hp'. cbn [List.find]. rewrite Hkey'.
    assert (after c (s', sb_hash b') = true) as ->; [|done].
    destruct c as [[sc hc]|]; [|done]. cbn in *. apply ltb_pair. lia.
  - cbn [omap list_omap]. rewrite Hp. cbn [List.find]. rewrite Hkey.
    destruct c as [[sc hc]|]; [|exfalso; subst from; width; lia]. cbn [after]. subst from.
    rewrite ltb_pair_not by lia. done.
Qed.

Lemma omap_ascends (l : list (Z * StoredBlock)) : ordered l -> Forall servable l ->
  StronglySorted (fun p q => cmp (hp_key p) (hp_key q) = Lt) (omap project l).
Proof.
  induction l as [|[s b] l IH]; [constructor|]. intros [Ho Hk]%ordered_cons [Hb Hs]%Forall_cons.
  destruct (project_servable _ Hb) as (p & Hp & Hkey). cbn [omap list_omap]. rewrite Hp.
  constructor; [by apply IH|]. rewrite Hkey. cbn [fst snd].
  clear IH Ho Hb Hp Hkey. induction Hs as [|[s' b'] l Hb' _ IH]; [constructor|].
  apply Forall_cons in Hk as [Hss Hk]. destruct (project_servable _ Hb') as (q & Hq & Hkey').
  cbn [omap list_omap]. rewrite Hq. constructor; [|by apply IH].
  rewrite Hkey'. cbn [fst snd] in *. by apply ltb_lt, ltb_pair, Z.compare_lt_iff.
Qed.

Lemma source_ascends s : source_ok s ->
  StronglySorted (fun p q => cmp (hp_key p) (hp_key q) = Lt) (source_list s).
Proof. intros [Hv Hs]. apply omap_ascends; [by apply db_ascends|done]. Qed.

Lemma blocks_u64 d : db_valid d -> Forall (fun e => is_u64 (fst e)) (db_blocks d).
Proof. intros Hv. apply Forall_forall. intros [s b] Hin. by apply db_slots in Hin as [_ ?]. Qed.

Lemma Forall_filter_take {A} (P : A -> Prop) f n l : Forall P l -> Forall P (take n (List.filter f l)).
Proof.
  intros Hl. apply Forall_take. induction Hl as [|x l Hx _ IH]; cbn; [done|]. destruct (f x); [by constructor|done].
Qed.

Lemma source_next_first s c : source_ok s ->
  source_next_after s c = List.find (fun p => after c (hp_key p)) (source_list s).
Proof.
  intros [Hv Hs]. unfold source_next_after, source_list.
  rewrite db_range by lia. cbn [cr_blocks]. rewrite firstn_map.
  change (fun e : Z * StoredBlock => (fst e, sb_bytes (snd e))) with read_of. rewrite first_after_find by by apply Forall_filter_take.
  apply window_enough; [by apply db_ascends|done|by apply blocks_u64].
Qed.

Lemma source_offered s slot hash k : source_intersect s [Block slot hash] = Some k -> k = (slot, hash).
Proof.
  unfold source_intersect. cbn [stored_point parent_point].
  destruct (get_block_by_hash (chaindb s) hash) as [[stored|]|]; [destruct (_ =? slot); [by intros [= <-]|]|..];
    (destruct (earliest_servable_block_prev_hash s); [|done]); case_bool_decide; by intros [= <-].
Qed.

#[export] Instance source_header_laws : ServedHeaderLaws (ChainDbServedSource D) := {|
  served_ok := source_ok;
  served_list := source_list;
  served_ascends := source_ascends;
  next_after_first := source_next_first;
  intersect_offered := source_offered;
|}.

(** ** Ranges *)

Definition keyed (e : Z * StoredBlock) : Key * list Z := ((fst e, sb_hash (snd e)), sb_bytes (snd e)).
Definition source_blocks (s : ChainDbServedSource D) : BTreeMap Key (list Z) := map keyed (db_blocks (chaindb s)).

Lemma collect_range_spec from to l : forall out, Forall servable l ->
  collect_range from to (map read_of l) out = Some (out ++ List.filter (in_range from to) (map keyed l)).
Proof.
  induction l as [|e l IH]; intros out Hl; cbn [map collect_range List.filter]; [by rewrite app_nil_r|].
  apply Forall_cons in Hl as [(d & header & E & Hh & _) Hl]. unfold read_of at 1. rewrite E. cbn zeta. rewrite Hh.
  unfold in_range at 1. cbn [keyed fst]. rewrite IH by done.
  destruct (leb from _ && leb _ to); [by rewrite <- app_assoc|done].
Qed.

Lemma leb_pair_slot (a b : Key) : leb a b = true -> fst a <= fst b.
Proof.
  unfold leb, cmp, pair_order, pair_cmp. cbn. destruct (Z.compare_spec (fst a) (fst b)); intros; try lia; done.
Qed.

Lemma in_slots_range from to l :
  List.filter (in_range from to) (map keyed (List.filter (in_slots (fst from) (fst to)) l)) =
  List.filter (in_range from to) (map keyed l).
Proof.
  induction l as [|e l IH]; [done|]. cbn [map List.filter].
  destruct (in_slots (fst from) (fst to) e) eqn:Es; cbn [map List.filter]; rewrite IH; [done|].
  destruct (in_range from to (keyed e)) eqn:Er; [|done]. unfold in_range, keyed in Er. cbn [fst] in Er.
  apply andb_true_iff in Er as [E1 E2]. apply leb_pair_slot in E1, E2. cbn [fst] in E1, E2.
  unfold in_slots in Es. apply andb_false_iff in Es as [Es|Es]; apply Z.leb_gt in Es; lia.
Qed.

Lemma source_range_exact s from to : source_ok s ->
  match source_range_bytes s from to with
  | Ok l => l = [] \/ l = List.filter (in_range from to) (source_blocks s)
  | Err _ => ltb to from = true
  end.
Proof.
  intros [Hv Hs]. unfold source_range_bytes, serve_range. rewrite db_range by (by vm_compute).
  cbn [cr_truncated cr_blocks]. set (inside := List.filter _ _).
  destruct (Z.ltb_spec MAX_SERVE_RANGE_BLOCKS (blen inside)); [by left|].
  rewrite take_ge by (rewrite length_map; unfold blen in *; lia).
  change (fun e : Z * StoredBlock => (fst e, sb_bytes (snd e))) with read_of.
  assert (Hi : Forall servable inside).
  { pose proof (Forall_filter_take servable (in_slots (fst from) (fst to)) (length inside) _ Hs) as Hi.
    by rewrite take_ge in Hi. }
  rewrite collect_range_spec by done. cbn [app]. subst inside. rewrite in_slots_range.
  fold (source_blocks s). generalize (List.filter (in_range from to) (source_blocks s)). intros [|e l]; cbn iota; [by left|by right].
Qed.

Lemma keyed_ordered l : ordered l -> ordered (map keyed l).
Proof.
  induction l as [|[s b] l IH]; [constructor|]. intros [Ho Hk]%ordered_cons. cbn [map].
  apply ordered_cons. split; [by apply IH|]. apply Forall_map. eapply Forall_impl; [exact Hk|].
  intros [s' b'] Hss. cbn [fst snd keyed] in *. by apply ltb_lt, ltb_pair, Z.compare_lt_iff.
Qed.

Lemma source_sized s : source_ok s ->
  Forall (fun e => bytes_ok (snd e) /\ blen (snd e) <= isize_max) (source_blocks s).
Proof.
  intros [_ Hs]. apply Forall_map. eapply Forall_impl; [exact Hs|]. by intros e (d & header & _ & _ & _ & ? & ?).
Qed.

Lemma source_blocks_ascend s : source_ok s -> ordered (source_blocks s).
Proof. intros [Hv _]. by apply keyed_ordered, db_ascends. Qed.

#[export] Instance source_range_laws : ServedRangeLaws (ChainDbServedSource D) := {|
  ranges_ok := source_ok;
  range_list := source_blocks;
  range_ascends := source_blocks_ascend;
  range_sized := source_sized;
  range_exact := source_range_exact;
|}.
End SourceLaws.

(** * The accepted-block index ([served_chain.rs]) and its adapter ([served_chain_lookups.rs]) *)

(** An [AcceptedBlock] is its bytes. *)
Definition ServedChainSnapshot : Type := BTreeMap Key (list Z).

Inductive ServedChainAdmitError : Type :=
| Decode
| KeyByteConflict (slot : Z) (hash : list Z).

Section Snapshot.
Context `{BlockDecode}.

Definition served_chain_admit (served : ServedChainSnapshot) (block : list Z) :
    result ServedChainSnapshot ServedChainAdmitError :=
  match decode_block block with
  | None => Err Decode
  | Some decoded =>
      let key := (db_slot decoded, db_hash decoded) in
      match bt_get served key with
      | Some existing =>
          if negb (bool_decide (existing = block)) then Err (KeyByteConflict (fst key) (snd key)) else Ok served
      | None => Ok (bt_insert served key block)
      end
  end.

Definition snapshot_block_bytes (served : ServedChainSnapshot) (slot : Z) (hash : list Z) : option (list Z) :=
  bt_get served (slot, hash).

(** [BTreeMap::range] is called on whatever range the peer asked for. *)
Definition snapshot_range_bytes (served : ServedChainSnapshot) (from to : Key) :
    result (list (Key * list Z)) (Fault Empty_set) := bt_range served from to.

Fixpoint snapshot_intersect (served : ServedChainSnapshot) (points : list Point) : option Key :=
  match points with
  | [] => None
  | Origin :: points => snapshot_intersect served points
  | Block slot hash :: points =>
      match bt_get served (slot, hash) with Some _ => Some (slot, hash) | None => snapshot_intersect served points end
  end.
End Snapshot.

#[export] Instance snapshot_ranges : ServedRangeLookup ServedChainSnapshot := snapshot_range_bytes.


(** * What the servers deliver *)

(** The chain-sync server and its client stay in the same state.  Whatever message arrives,
    in whatever state and over whatever chain: if the client's machine refuses it the server
    reports that error; otherwise the server answers, the client's machine accepts the answer
    and ends in the server's state, and the server never waits in a state that owes a reply
    except after [AwaitReply]. *)
Theorem chain_sync_server_refines_client {S} `{ServedHeaderLookup S} state msg (served : S) version :
  match producer_chain_sync_serve state msg served version with
  | Ok (state', Step_Done) =>
      chain_sync_transition (ps_state state) Ag_Client version msg = Ok (CS_Finished, CS_OutDone) /\
      ps_state state' = CS_Finished
  | Ok (state', Step_Reply r) =>
      exists waiting asked answered,
        chain_sync_transition (ps_state state) Ag_Client version msg = Ok (waiting, asked) /\
        chain_sync_transition waiting Ag_Server version (into_message r) = Ok (ps_state state', answered) /\
        (ps_state state' = CS_Idle \/ ps_state state' = MustReply /\ r = await_reply)
  | Err (Grammar e) => chain_sync_transition (ps_state state) Ag_Client version msg = Err e
  end.
Proof. apply chain_sync_server_outcome. Qed.

Definition point_key (p : Point) : option Key :=
  match p with Origin => None | Block slot hash => Some (slot, hash) end.

(** A client that finds an intersection and keeps asking is sent exactly the blocks after it,
    once each and in ascending order; then it is told to wait; and as soon as the chain has
    another block past the last one sent, the next poll sends that block. *)
Theorem chain_sync_serves_the_chain {S} `{ServedHeaderLaws S} version (s s' : S) state points p next rest
    (Hv : version <= MAX_VERSION) (Hs : served_ok s) (Hs' : served_ok s')
    (Hidle : ps_state state = CS_Idle) (Hp : find_intersect s points = Some p)
    (Hnext : successors s' (cursor_at (point_key p) (successors s (point_key p))) = next :: rest) :
  exists st1 st2 st3 st4,
    producer_chain_sync_serve state (FindIntersect points) s version =
      Ok (st1, Step_Reply (intersect_found p (tip_from_lookup s))) /\
    request_n version (length (successors s (point_key p))) st1 s =
      Ok (st2, map (rolled s) (successors s (point_key p))) /\
    producer_chain_sync_serve st2 RequestNext s version = Ok (st3, Step_Reply await_reply) /\
    producer_chain_sync_advance_tip st3 s' =
      Ok (st4, Some (roll_forward (compose_rollforward_header (hp_era next) (hp_header_bytes next))
                       (tip_from_lookup s'))) /\
    last_announced st4 = Some (hp_key next).
Proof.
  destruct (serves_successors version Hv s Hs _ (point_key p) eq_refl) as [E1 E2].
  eexists _, _, _, _. split_and!; [|exact E1|exact E2| |].
  - unfold producer_chain_sync_serve, chain_sync_transition. rewrite Hidle.
    destruct (Z.ltb_spec MAX_VERSION version); [lia|]. destruct points as [|q points]; [done|].
    cbn [map_err rbind last_announced]. rewrite Hp. by destruct p.
  - unfold producer_chain_sync_advance_tip. cbn [ps_state last_announced].
    destruct (successors_step _ _ _ _ (served_ascends s' Hs') Hnext) as [Hf _].
    rewrite next_after_first, Hf by done. done.
  - done.
Qed.

(** A block range, over any served chain: the replies to a legal range request take the client's machine from
    [Busy] back to [Idle].  Either they deliver, in order and byte for byte, all the blocks of
    the range, both endpoints among them; or they say that there are none, which happens only
    when the lookup was refused or an endpoint is not on the served chain.  The server panics
    only where the lookup does, on an inverted range. *)
Theorem range_request_answered {S} `{ServedRangeLaws S} version (s : S) from to
    (Hv : version <= MAX_VERSION) (Hs : ranges_ok s) (Hslots : fst from <= fst to) :
  let range := mk_Range (Block (fst from) (snd from)) (Block (fst to) (snd to)) in
  let inside := List.filter (in_range from to) (range_list s) in
  match producer_block_fetch_serve BF_Idle (RequestRange range) s version with
  | Ok (st, Replies rs) =>
      st = BF_Idle /\
      ((rs = [no_blocks] /\ run version BF_Busy (map block_into_message rs) = Ok (BF_Idle, [BF_Event Ev_NoBlocks]) /\
        (range_bytes s from to = Ok [] \/
         ltb to from = true \/ ~ ((exists v, (from, v) ∈ range_list s) /\ (exists w, (to, w) ∈ range_list s)))) \/
       (exists payloads,
          run version BF_Busy (map block_into_message rs) = Ok (BF_Idle, delivery_outs payloads) /\
          map decompose_blockfetch_block payloads = map Ok (map snd inside) /\
          (exists v, (from, v) ∈ inside) /\ (exists w, (to, w) ∈ inside)))
  | Ok (_, BF_Step_Done) => False
  | Err Panicked => ltb to from = true
  | Err (Failed _) => False
  end.
Proof.
  intros range inside. subst range. unfold producer_block_fetch_serve, block_fetch_transition.
  destruct (Z.ltb_spec MAX_VERSION version); [lia|]. unfold inverted_range. cbn [range_from range_to]. destruct (Z.ltb_spec (fst to) (fst from)); [lia|].
  cbn [map_err rbind range_from range_to]. rewrite <- !surjective_pairing.
  pose proof (range_exact s from to Hs) as He. destruct (range_bytes s from to) as [entries|e]; [|exact He].
  split; [done|].
  assert (Hsz : Forall (fun e => bytes_ok (snd e) /\ blen (snd e) <= isize_max) entries).
  { destruct He as [->| ->]; [constructor|]. pose proof (Forall_filter_take _ (in_range from to)
      (length (List.filter (in_range from to) (range_list s))) _ (range_sized s Hs)) as Hf. by rewrite take_ge in Hf. }
  destruct (range_replies_cases from to entries Hsz) as [[-> Hno]|(v & w & payloads & Hf & Ht & Hm & Hd)].
  - left. split; [done|]. split; [by apply run_no_blocks|].
    destruct He as [->| ->]; [by left|]. right. destruct (ltb to from) eqn:Hlt; [by left|]. right.
    intros [[v Hfrom] [w Hto]]. apply Hno.
    assert (Hle : leb from to = true) by (by rewrite leb_ltb, Hlt).
    destruct (range_first (range_list s) from to v) as [rest Er]; [by apply range_ascends|done..|].
    destruct (range_last (range_list s) from to w) as [w' El]; [by apply range_ascends|done..|].
    by exists v, rest, w'.
  - right. destruct He as [->| ->]; [by apply not_elem_of_nil in Hf|]. exists payloads.
    rewrite Hm, Hd. split_and!; [by apply run_batch|done|by exists v|by exists w].
Qed.

(** ** Ranges of the durable chain *)

Section DurableRanges.
Context {D : Type} `{ChainDbLaws D} `{BlockDecode}.

(** The point is that of a stored block. *)
Definition stored_at (s : ChainDbServedSource D) (k : Key) : Prop :=
  exists b, (fst k, b) ∈ db_blocks (chaindb s) /\ sb_hash b = snd k.

Definition slots_inverted (r : Range) : Prop :=
  match range_from r, range_to r with Block sf _, Block st _ => st < sf | _, _ => False end.

(** What a range asks for, when the node has it: two stored points, and all the blocks stored
    from the slot of the first to the slot of the second, at most 256 of them. *)
Definition asks_for (s : ChainDbServedSource D) (r : Range) (blocks : list (Z * StoredBlock)) : Prop :=
  match range_from r, range_to r with
  | Block sf hf, Block st ht =>
      stored_at s (sf, hf) /\ stored_at s (st, ht) /\
      blocks = List.filter (in_slots sf st) (db_blocks (chaindb s)) /\ blen blocks <= 256
  | _, _ => False
  end.

Lemma stored_at_unique s (k k' : Key) :
  source_ok s -> stored_at s k -> stored_at s k' -> fst k = fst k' -> k = k'.
Proof.
  intros [Hv _] (b & Hb & Eb) (b' & Hb' & Eb') Hs. destruct k as [sl h], k' as [sl' h']; cbn in *. subst sl'.
  pose proof (db_ascends _ Hv) as Ho. apply get_elem in Hb, Hb'; [|done..].
  rewrite Hb in Hb'. injection Hb' as <-. congruence.
Qed.

Lemma stored_leb s (a b : Key) :
  source_ok s -> stored_at s a -> stored_at s b -> leb a b = (fst a <=? fst b).
Proof.
  intros Hs Ha Hb. destruct (Z.leb_spec (fst a) (fst b)) as [Hle|Hlt].
  - destruct (Z.eq_dec (fst a) (fst b)) as [E|Hne].
    + rewrite (stored_at_unique s a b) by done. by rewrite leb_ltb, ltb_irrefl.
    + destruct a as [sa ha], b as [sb hb]; cbn in *. rewrite leb_ltb, ltb_pair_not by lia. done.
  - destruct a as [sa ha], b as [sb hb]; cbn in *. by rewrite leb_ltb, ltb_pair.
Qed.

(** Between two stored points, the order of the keys is that of the slots. *)
Lemma stored_points_range s from to :
  source_ok s -> stored_at s from -> stored_at s to ->
  List.filter (in_range from to) (source_blocks s) =
  map keyed (List.filter (in_slots (fst from) (fst to)) (db_blocks (chaindb s))).
Proof.
  intros Hs Hf Ht. unfold source_blocks. rewrite <- in_slots_range.
  assert (Hall : forall l, (forall e, e ∈ l -> in_slots (fst from) (fst to) e = true /\ e ∈ db_blocks (chaindb s)) ->
    List.filter (in_range from to) (map keyed l) = map keyed l).
  { induction l as [|e l IH]; intros Hl; [done|]. cbn [map List.filter].
    destruct (Hl e) as [He Hin]; [by left|].
    assert (Hk : stored_at s (fst (keyed e))).
    { destruct e as [sl b]. exists b. split; [exact Hin|done]. }
    unfold in_range. rewrite !(stored_leb s) by done. unfold in_slots in He. cbn [keyed fst] in *. rewrite He.
    f_equal. apply IH. intros e' He'. apply Hl. by right. }
  apply Hall. intros e He. apply list_elem_of_In, filter_In in He as [He ?]. split; [done|by apply list_elem_of_In].
Qed.

Lemma source_range_cases s from to : source_ok s -> fst from <= fst to ->
  let between := List.filter (in_slots (fst from) (fst to)) (db_blocks (chaindb s)) in
  source_range_bytes s from to =
    Ok (if blen between <=? MAX_SERVE_RANGE_BLOCKS then List.filter (in_range from to) (source_blocks s) else []).
Proof.
  intros [Hv Hs] Hle between. unfold source_range_bytes, serve_range. rewrite db_range by (by vm_compute).
  cbn [cr_truncated cr_blocks]. fold between. rewrite Z.ltb_antisym.
  destruct (Z.leb_spec (blen between) MAX_SERVE_RANGE_BLOCKS); cbn [negb]; [|done].
  rewrite take_ge by (rewrite length_map; unfold blen in *; lia).
  change (fun e : Z * StoredBlock => (fst e, sb_bytes (snd e))) with read_of.
  assert (Hi : Forall servable between).
  { pose proof (Forall_filter_take servable (in_slots (fst from) (fst to)) (length between) _ Hs) as Hi.
    by rewrite take_ge in Hi. }
  rewrite collect_range_spec by done. cbn [app]. subst between. rewrite in_slots_range.
  unfold source_blocks. by destruct (List.filter (in_range from to) _).
Qed.

(** The endpoints of the replies are stored points. *)
Lemma in_range_stored s from to k v :
  (k, v) ∈ List.filter (in_range from to) (source_blocks s) -> stored_at s k.
Proof.
  intros Hin. apply list_elem_of_In, filter_In in Hin as [Hin _].
  apply in_map_iff in Hin as ([sl b] & [= <- <-] & Hin). exists b. by rewrite list_elem_of_In.
Qed.

(** C31. What block-fetch serves off the durable chain, exactly.  A request whose slots are inverted
    is refused by the state machine.  Otherwise, when both points are those of stored blocks
    and at most 256 blocks are stored from the one slot to the other, the replies take the
    client's machine from [Busy] back to [Idle] and deliver exactly those blocks, in order and
    byte for byte.  In every other case (a point the node has not stored, the origin, or more
    than 256 blocks) the reply is [NoBlocks].  The server never panics.  The hypotheses: the database keeps its
    laws, its reads among them, and every stored block decodes to its hash ([source_ok]). *)
Theorem block_fetch_serves_range version (s : ChainDbServedSource D) (r : Range)
    (Hv : version <= MAX_VERSION) (Hs : source_ok s) :
  match producer_block_fetch_serve BF_Idle (RequestRange r) s version with
  | Err (Failed (BF_Grammar e)) =>
      slots_inverted r /\ e = MalformedMessage "BlockFetch range is inverted (from > to)"
  | Err Panicked | Ok (_, BF_Step_Done) => False
  | Ok (st, Replies rs) =>
      ~ slots_inverted r /\ st = BF_Idle /\
      ((exists blocks payloads, asks_for s r blocks /\
          run version BF_Busy (map block_into_message rs) = Ok (BF_Idle, delivery_outs payloads) /\
          map decompose_blockfetch_block payloads = map (fun e => Ok (sb_bytes (snd e))) blocks) \/
       ((forall blocks, ~ asks_for s r blocks) /\ rs = [no_blocks] /\
          run version BF_Busy (map block_into_message rs) = Ok (BF_Idle, [BF_Event Ev_NoBlocks])))
  end.
Proof.
  unfold producer_block_fetch_serve, block_fetch_transition, asks_for, slots_inverted, inverted_range.
  destruct (Z.ltb_spec MAX_VERSION version); [lia|].
  destruct r as [[|sf hf] [|st ht]]; cbn [range_from range_to]; cbv iota zeta;
    try (cbn [map_err rbind]; split_and!; [tauto|done|right; split_and!; [tauto|done|by apply run_no_blocks]]).
  destruct (Z.ltb_spec st sf) as [Hlt|Hle]; [done|]. cbn [map_err rbind].
  pose proof (source_range_cases s (sf, hf) (st, ht) Hs Hle) as E. cbn [fst] in E.
  unfold range_bytes, source_ranges. rewrite E. clear E. split; [lia|]. split; [done|].
  set (between := List.filter (in_slots sf st) (db_blocks (chaindb s))).
  set (inside := List.filter (in_range (sf, hf) (st, ht)) (source_blocks s)).
  assert (Hsz : Forall (fun e => bytes_ok (snd e) /\ blen (snd e) <= isize_max)
    (if blen between <=? MAX_SERVE_RANGE_BLOCKS then inside else [])).
  { destruct (_ <=? _); [|constructor]. apply Forall_forall. intros e He.
    apply list_elem_of_In, filter_In in He as [He _]. apply list_elem_of_In in He.
    pose proof (source_sized s Hs) as Hz. rewrite Forall_forall in Hz. by apply Hz. }
  destruct (range_replies_cases (sf, hf) (st, ht) _ Hsz) as [[-> Hno]|(v & w & payloads & Hf & Ht & Hm & Hd)].
  - right. split_and!; [|done|by apply run_no_blocks]. intros blocks (Hf & Ht & -> & Hcap). apply Hno.
    destruct (Z.leb_spec (blen between) MAX_SERVE_RANGE_BLOCKS) as [_|Hc]; [|unfold MAX_SERVE_RANGE_BLOCKS in Hc; fold between in Hcap; lia].
    assert (Hkey : forall k, stored_at s k -> exists v, (k, v) ∈ source_blocks s).
    { intros [sl h] (b & Hb & Eb). cbn in *. exists (sb_bytes b). apply list_elem_of_In, in_map_iff.
      exists (sl, b). unfold keyed. cbn. rewrite Eb. split; [done|by apply list_elem_of_In]. }
    destruct (Hkey _ Hf) as [v Hv']. destruct (Hkey _ Ht) as [w Hw].
    assert (Hleb : leb (sf, hf) (st, ht) = true) by (rewrite (stored_leb s) by done; by apply Z.leb_le).
    destruct (range_first _ _ _ v (source_blocks_ascend s Hs) Hv' Hleb) as [rest Er].
    destruct (range_last _ _ _ w (source_blocks_ascend s Hs) Hw Hleb) as [w' El]. by exists v, rest, w'.
  - left. destruct (Z.leb_spec (blen between) MAX_SERVE_RANGE_BLOCKS) as [Hc|]; [|by apply not_elem_of_nil in Hf].
    apply in_range_stored in Hf, Ht. exists between, payloads. split_and!; [done|done|done|done| |].
    + rewrite Hm. by apply run_batch.
    + rewrite Hd. unfold inside. rewrite stored_points_range by done. fold between. by rewrite !map_map.
Qed.
End DurableRanges.

(** The accepted-block index has no guard of its own: a peer that asks for a range within one
    slot whose hashes are inverted passes the state machine's check, which compares slots
    only, and makes the lookup of a non-empty index panic. *)
Theorem snapshot_range_panics version (served : ServedChainSnapshot) slot
    (Hv : version <= MAX_VERSION) (Hblocks : served <> []) :
  producer_block_fetch_serve BF_Idle
    (RequestRange (mk_Range (Block slot (repeat 2 32)) (Block slot (repeat 1 32)))) served version =
  Err Panicked.
Proof.
  unfold producer_block_fetch_serve, block_fetch_transition.
  destruct (Z.ltb_spec MAX_VERSION version); [lia|]. unfold inverted_range. cbn [range_from range_to].
  rewrite Z.ltb_irrefl. cbn [map_err rbind]. unfold range_bytes, snapshot_ranges, snapshot_range_bytes, bt_range.
  assert (ltb (slot, repeat 1 32) (slot, repeat 2 32) = true) as ->; [|done].
  unfold ltb, cmp, pair_order, pair_cmp. cbn. by rewrite Z.compare_refl.
Qed.

(** * A concrete served chain *)

(** A block [[0x82; s]] of slot [s], hash [[s; 1]] and header [[s]]. *)
#[local] Instance toy_decode : BlockDecode := {|
  decode_block bytes :=
    match bytes with [_; s] => Some (mk_DecodedBlock Conway s s [s; 1] None) | _ => None end;
  block_header_bytes bytes := match bytes with [_; s] => Some [s] | _ => None end;
|}.

Definition toy_chain (slots : list Z) : ChainDbServedSource Inner :=
  mk_ServedSource (fold_left db_apply (map (fun s => Put (sample_block s)) slots) inner_new).

Lemma toy_valid slots : Forall is_u64 slots -> db_valid (chaindb (toy_chain slots)).
Proof.
  intros Hs. apply (agrees_history (fun h => nth 0 h 0) (map (fun s => Put (sample_block s)) slots) inner_new ∅).
  - split; [apply db_ok_new|]. split; [done|]. intros slot b H. by rewrite lookup_empty in H.
  - apply Forall_map. eapply Forall_impl; [exact Hs|]. intros s Hu. by split.
Qed.

Ltac servable_dec :=
  eexists _, _; split_and!; [reflexivity|reflexivity|reflexivity|repeat constructor; vm_compute; congruence
    |vm_compute; congruence].

Lemma toy_ok : source_ok (toy_chain [3; 7]) /\ source_ok (toy_chain [3; 7; 9]).
Proof.
  split; (split; [apply toy_valid; repeat constructor; vm_compute; congruence|]).
  - change (db_blocks _) with [(3, sample_block 3); (7, sample_block 7)]. repeat constructor; servable_dec.
  - change (db_blocks _) with [(3, sample_block 3); (7, sample_block 7); (9, sample_block 9)].
    repeat constructor; servable_dec.
Qed.

Lemma chain_sync_serves_the_chain_witness :
  exists st1 st2 st3 st4,
    producer_chain_sync_serve server_new (FindIntersect [Block 5 [5; 1]; Block 3 [3; 1]]) (toy_chain [3; 7]) 15 =
      Ok (st1, Step_Reply (intersect_found (Block 3 [3; 1]) (mk_Tip (Block 7 [7; 1]) 7))) /\
    request_n 15 1 st1 (toy_chain [3; 7]) =
      Ok (st2, [Step_Reply (roll_forward (compose_rollforward_header Conway [7]) (mk_Tip (Block 7 [7; 1]) 7))]) /\
    producer_chain_sync_serve st2 RequestNext (toy_chain [3; 7]) 15 = Ok (st3, Step_Reply await_reply) /\
    producer_chain_sync_advance_tip st3 (toy_chain [3; 7; 9]) =
      Ok (st4, Some (roll_forward (compose_rollforward_header Conway [9]) (mk_Tip (Block 9 [9; 1]) 9))) /\
    last_announced st4 = Some (9, [9; 1]).
Proof.
  exact (chain_sync_serves_the_chain 15 (toy_chain [3; 7]) (toy_chain [3; 7; 9]) server_new
    [Block 5 [5; 1]; Block 3 [3; 1]] (Block 3 [3; 1]) (mk_HeaderProjection 9 [9; 1] 9 Conway [9]) []
    ltac:(vm_compute; congruence) (proj1 toy_ok) (proj2 toy_ok) eq_refl eq_refl eq_refl).
Defined.

Lemma range_request_answered_witness :
  producer_block_fetch_serve BF_Idle (RequestRange (mk_Range (Block 3 [3; 1]) (Block 7 [7; 1]))) (toy_chain [3; 7; 9]) 15 =
    Ok (BF_Idle, Replies [start_batch; block_reply (compose_blockfetch_block [0x82; 3]);
                          block_reply (compose_blockfetch_block [0x82; 7]); batch_done]) /\
  exists payloads, map decompose_blockfetch_block payloads = map Ok [[0x82; 3]; [0x82; 7]].
Proof.
  split; [reflexivity|].
  pose proof (range_request_answered 15 (toy_chain [3; 7; 9]) (3, [3; 1]) (7, [7; 1])
    ltac:(vm_compute; congruence) (proj2 toy_ok) ltac:(vm_compute; congruence)) as H.
  destruct H as [_ [[H _]|(payloads & _ & H & _)]]; [discriminate H|].
  exists payloads. exact H.
Defined.

Lemma snapshot_range_panics_witness :
  producer_block_fetch_serve BF_Idle
    (RequestRange (mk_Range (Block 5 (repeat 2 32)) (Block 5 (repeat 1 32))))
    ([((9, [9]), [0x80])] : ServedChainSnapshot) 15 = Err Panicked.
Proof. apply (snapshot_range_panics 15 [((9, [9]), [0x80])] 5); [|done]. vm_compute. congruence. Defined.

Lemma block_fetch_serves_range_witness :
  exists blocks payloads,
    asks_for (toy_chain [3; 7; 9]) (mk_Range (Block 3 [3; 1]) (Block 7 [7; 1])) blocks /\
    map fst blocks = [3; 7] /\
    map decompose_blockfetch_block payloads = map Ok [[0x82; 3]; [0x82; 7]].
Proof.
  pose proof (block_fetch_serves_range 15 (toy_chain [3; 7; 9]) (mk_Range (Block 3 [3; 1]) (Block 7 [7; 1]))
    ltac:(vm_compute; congruence) (proj2 toy_ok)) as H.
  destruct H as (_ & _ & [(blocks & payloads & Hask & _ & Hp)|(_ & Hr & _)]); [|discriminate Hr].
  exists blocks, payloads. split; [exact Hask|]. destruct Hask as (_ & _ & -> & _). split; [reflexivity|exact Hp].
Defined.
