(* ===== verification/MiniProtocols.v ===== *)
(** Three small node-to-node protocols, codec and state machine each:
    keep-alive ([codec/keep_alive.rs], [keep_alive/]), peer-sharing ([codec/peer_sharing.rs],
    [peer_sharing/]) and tx-submission2 ([codec/tx_submission.rs], [tx_submission/]), all of
    [ade_network/src/].

    A transaction id is its 32 bytes, an IPv6 address its 16 bytes, a transaction one opaque
    CBOR item. *)

From S2P Require Import Prelude Cbor CborSkip CborRoundtrip CborPrefix Envelope Mux NetCodec Handshake Session.
From S2P Require Import SessionFacts Spelling WireCodec ChainSync BlockFetch.

(** The agency tests of the three machines, in one tactic. *)
Ltac takes_turns unfold_transition :=
  unfold_transition; destruct (MAX_VERSION <? _); [done|];
  repeat match goal with |- context [match ?x with _ => _ end] => destruct x; try done end.

(** * Keep-alive *)

Inductive KeepAliveMessage : Type :=
| KeepAlive (cookie : Z)
| ResponseKeepAlive (cookie : Z)
| KA_Done.

Definition encode_keep_alive_message (msg : KeepAliveMessage) : list Z :=
  match msg with
  | KeepAlive c => encode_u64 (encode_u64 (encode_array_header [] 2) 0) c
  | ResponseKeepAlive c => encode_u64 (encode_u64 (encode_array_header [] 2) 1) c
  | KA_Done => encode_u64 (encode_array_header [] 1) 2
  end.

Definition decode_keep_alive_body : NDec KeepAliveMessage :=
  net! arr_len := decode_array_header Kind_KeepAlive in
  if arr_len <? 1 then nfail (InvalidProtocolMessage Kind_KeepAlive "empty outer array") else
  net! tag := decode_u64 Kind_KeepAlive in
  if (tag =? 0) && (arr_len =? 2) then
    net! c := decode_u16 Kind_KeepAlive "cookie" in nret (KeepAlive c)
  else if (tag =? 1) && (arr_len =? 2) then
    net! c := decode_u16 Kind_KeepAlive "cookie" in nret (ResponseKeepAlive c)
  else if (tag =? 2) && (arr_len =? 1) then nret KA_Done
  else nfail (UnknownTag Kind_KeepAlive tag).

Definition decode_keep_alive_message (bytes : list Z) : result KeepAliveMessage (Fault NetCodecError) :=
  decode_message Kind_KeepAlive decode_keep_alive_body bytes.

Inductive KeepAliveState : Type := ClientIdle | KA_ServerHasAgency (cookie : Z) | KA_Finished.
Inductive KeepAliveEvent : Type := PingSent (cookie : Z) | PongReceived (cookie : Z).
Inductive KeepAliveOutput : Type := KA_Event (event : KeepAliveEvent) | KA_OutDone.
Definition KeepAliveError : Type := TransitionError KeepAliveState Agency.

Definition keep_alive_message_tag (msg : KeepAliveMessage) : string :=
  match msg with
  | KeepAlive _ => "KeepAlive" | ResponseKeepAlive _ => "ResponseKeepAlive" | KA_Done => "Done"
  end.

Definition keep_alive_transition (state : KeepAliveState) (agency : Agency) (version : Z)
    (msg : KeepAliveMessage) : result (KeepAliveState * KeepAliveOutput) KeepAliveError :=
  if MAX_VERSION <? version then Err (InvalidForVersion version (keep_alive_message_tag msg)) else
  match state, agency, msg with
  | ClientIdle, Ag_Client, KeepAlive cookie => Ok (KA_ServerHasAgency cookie, KA_Event (PingSent cookie))
  | KA_ServerHasAgency cookie, Ag_Server, ResponseKeepAlive resp_cookie =>
      if negb (cookie =? resp_cookie)
      then Err (MalformedMessage "ResponseKeepAlive cookie does not match request")
      else Ok (ClientIdle, KA_Event (PongReceived cookie))
  | ClientIdle, Ag_Client, KA_Done => Ok (KA_Finished, KA_OutDone)
  | _, _, _ => Err (IllegalTransition state (keep_alive_message_tag msg) agency)
  end.

Definition keep_alive_turn (state : KeepAliveState) : Agency :=
  match state with ClientIdle => Ag_Client | KA_ServerHasAgency _ => Ag_Server | KA_Finished => Ag_Neither end.

Definition keep_alive_bytes (m : KeepAliveMessage) : list Z :=
  match m with
  | KeepAlive c => array_bytes 2 (uint_bytes 0 ++ uint_bytes c)
  | ResponseKeepAlive c => array_bytes 2 (uint_bytes 1 ++ uint_bytes c)
  | KA_Done => array_bytes 1 (uint_bytes 2)
  end.

Definition keep_alive_ok (m : KeepAliveMessage) : Prop :=
  match m with KeepAlive c | ResponseKeepAlive c => is_u16 c | KA_Done => True end.

Lemma encode_keep_alive_bytes m : keep_alive_ok m -> encode_keep_alive_message m = keep_alive_bytes m.
Proof.
  destruct m; cbn [keep_alive_ok encode_keep_alive_message keep_alive_bytes]; intros Hm;
    rewrite ?encode_u64_app, ?encode_array_app by small; unfold array_bytes; by rewrite <- ?app_assoc.
Qed.

Lemma spells_keep_alive m : keep_alive_ok m -> spells 1 (encode_keep_alive_message m).
Proof.
  intros Hm. rewrite encode_keep_alive_bytes by done.
  destruct m; cbn [keep_alive_ok keep_alive_bytes] in *; spelling.
Qed.

Lemma keep_alive_decodes m :
  keep_alive_ok m -> blen (encode_keep_alive_message m) <= isize_max ->
  decode_keep_alive_message (encode_keep_alive_message m) = Ok m.
Proof.
  intros Hm Hl. pose proof (spells_keep_alive m Hm) as Hs. rewrite encode_keep_alive_bytes in * by done.
  apply decode_message_reads; [|done|small]. unfold decode_keep_alive_body.
  destruct m; cbn [keep_alive_ok keep_alive_bytes] in *; reading.
Qed.

#[export] Instance keep_alive_codec : WireCodec KeepAliveMessage := {|
  wire_encode := encode_keep_alive_message;
  wire_decode := decode_keep_alive_message;
  wire_ok := keep_alive_ok;
  wire_spells := spells_keep_alive;
  wire_decodes := keep_alive_decodes;
|}.

Lemma keep_alive_takes_turns st ag v m st' out :
  keep_alive_transition st ag v m = Ok (st', out) -> ag = keep_alive_turn st /\ ag <> Ag_Neither.
Proof. takes_turns ltac:(unfold keep_alive_transition). Qed.

Lemma keep_alive_gated st ag v m : MAX_VERSION < v -> is_ok (keep_alive_transition st ag v m) = false.
Proof. intros H. unfold keep_alive_transition. destruct (Z.ltb_spec MAX_VERSION v); [done|lia]. Qed.

#[export] Instance keep_alive_protocol :
  MiniProtocol KeepAliveState KeepAliveMessage KeepAliveOutput KeepAliveError := {|
  proto_id := MP_KeepAlive;
  proto_initial := ClientIdle;
  proto_transition := keep_alive_transition;
  proto_agency := keep_alive_turn;
  proto_not_handshake := ltac:(done);
  proto_turn := keep_alive_takes_turns;
  proto_version := keep_alive_gated;
|}.

(** * Peer sharing *)

Inductive PeerAddress : Type :=
| V4 (addr port : Z)
| V6 (addr6 : list Z) (port flowinfo scope : Z).

Inductive PeerSharingMessage : Type :=
| ShareRequest (amount : Z)
| SharePeers (peers : list PeerAddress)
| PS_Done.

Definition encode_peer_address (buf : list Z) (p : PeerAddress) : list Z :=
  match p with
  | V4 addr port => encode_u64 (encode_u64 (encode_u64 (encode_array_header buf 3) 0) addr) port
  | V6 addr port flowinfo scope =>
      encode_u64 (encode_u64 (encode_u64
        (encode_bytes (encode_u64 (encode_array_header buf 5) 1) addr) port) flowinfo) scope
  end.

Definition decode_peer_address : NDec PeerAddress :=
  net! arr_len := decode_array_header Kind_PeerSharing in
  if arr_len <? 1 then nfail (InvalidProtocolMessage Kind_PeerSharing "empty peer address array") else
  net! tag := decode_u64 Kind_PeerSharing in
  if (tag =? 0) && (arr_len =? 3) then
    net! addr := decode_u32 Kind_PeerSharing "ipv4 address" in
    net! port := decode_u16 Kind_PeerSharing "port" in
    nret (V4 addr port)
  else if (tag =? 1) && (arr_len =? 5) then
    net! raw := decode_bytes Kind_PeerSharing in
    if negb (blen raw =? 16)
    then nfail (InvalidProtocolMessage Kind_PeerSharing "ipv6 address not 16 bytes") else
    net! port := decode_u16 Kind_PeerSharing "port" in
    net! flowinfo := decode_u32 Kind_PeerSharing "flowinfo" in
    net! scope := decode_u32 Kind_PeerSharing "scope" in
    nret (V6 raw port flowinfo scope)
  else nfail (UnknownTag Kind_PeerSharing tag).

Definition encode_peer_sharing_message (msg : PeerSharingMessage) : list Z :=
  match msg with
  | ShareRequest amount => encode_u64 (encode_u64 (encode_array_header [] 2) 0) amount
  | SharePeers peers =>
      fold_left encode_peer_address peers
        (encode_array_header (encode_u64 (encode_array_header [] 2) 1) (blen peers))
  | PS_Done => encode_u64 (encode_array_header [] 1) 2
  end.

Definition decode_peer_sharing_body : NDec PeerSharingMessage :=
  net! arr_len := decode_array_header Kind_PeerSharing in
  if arr_len <? 1 then nfail (InvalidProtocolMessage Kind_PeerSharing "empty outer array") else
  net! tag := decode_u64 Kind_PeerSharing in
  if (tag =? 0) && (arr_len =? 2) then
    net! amount_v := decode_u64 Kind_PeerSharing in
    if u8_max <? amount_v then nfail (InvalidIntegerRange Kind_PeerSharing "amount" amount_v)
    else nret (ShareRequest (as_u8 amount_v))
  else if (tag =? 1) && (arr_len =? 2) then
    net! n := decode_array_header Kind_PeerSharing in
    net! peers := nrepeat (Z.to_nat n) decode_peer_address in
    nret (SharePeers peers)
  else if (tag =? 2) && (arr_len =? 1) then nret PS_Done
  else nfail (UnknownTag Kind_PeerSharing tag).

Definition decode_peer_sharing_message (bytes : list Z) : result PeerSharingMessage (Fault NetCodecError) :=
  decode_message Kind_PeerSharing decode_peer_sharing_body bytes.

Inductive PeerSharingState : Type := PS_Idle | PS_Busy (amount : Z) | PS_Finished.
Inductive PeerSharingEvent : Type := SharingRequested (amount : Z) | PeersShared (peers : list PeerAddress).
Inductive PeerSharingOutput : Type := PS_Event (event : PeerSharingEvent) | PS_OutDone.
Definition PeerSharingError : Type := TransitionError PeerSharingState Agency.

Definition peer_sharing_message_tag (msg : PeerSharingMessage) : string :=
  match msg with
  | ShareRequest _ => "ShareRequest" | SharePeers _ => "SharePeers" | PS_Done => "Done"
  end.

Definition peer_sharing_transition (state : PeerSharingState) (agency : Agency) (version : Z)
    (msg : PeerSharingMessage) : result (PeerSharingState * PeerSharingOutput) PeerSharingError :=
  if MAX_VERSION <? version then Err (InvalidForVersion version (peer_sharing_message_tag msg)) else
  match state, agency, msg with
  | PS_Idle, Ag_Client, ShareRequest amount => Ok (PS_Busy amount, PS_Event (SharingRequested amount))
  | PS_Busy amount, Ag_Server, SharePeers peers =>
      if amount <? blen peers
      then Err (MalformedMessage "SharePeers count exceeds requested amount")
      else Ok (PS_Idle, PS_Event (PeersShared peers))
  | PS_Idle, Ag_Client, PS_Done => Ok (PS_Finished, PS_OutDone)
  | _, _, _ => Err (IllegalTransition state (peer_sharing_message_tag msg) agency)
  end.

Definition peer_sharing_turn (state : PeerSharingState) : Agency :=
  match state with PS_Idle => Ag_Client | PS_Busy _ => Ag_Server | PS_Finished => Ag_Neither end.

Definition peer_address_bytes (p : PeerAddress) : list Z :=
  match p with
  | V4 addr port => array_bytes 3 (uint_bytes 0 ++ uint_bytes addr ++ uint_bytes port)
  | V6 addr port flowinfo scope =>
      array_bytes 5 (uint_bytes 1 ++ string_bytes addr ++ uint_bytes port ++ uint_bytes flowinfo ++ uint_bytes scope)
  end.
Definition peer_sharing_bytes (m : PeerSharingMessage) : list Z :=
  match m with
  | ShareRequest amount => array_bytes 2 (uint_bytes 0 ++ uint_bytes amount)
  | SharePeers peers =>
      array_bytes 2 (uint_bytes 1 ++ array_bytes (blen peers) (concat (map peer_address_bytes peers)))
  | PS_Done => array_bytes 1 (uint_bytes 2)
  end.

Definition peer_address_ok (p : PeerAddress) : Prop :=
  match p with
  | V4 addr port => is_u32 addr /\ is_u16 port
  | V6 addr port flowinfo scope =>
      blen addr = 16 /\ bytes_ok addr /\ is_u16 port /\ is_u32 flowinfo /\ is_u32 scope
  end.
Definition peer_sharing_ok (m : PeerSharingMessage) : Prop :=
  match m with
  | ShareRequest amount => is_u8 amount
  | SharePeers peers => Forall peer_address_ok peers /\ blen peers <= isize_max
  | PS_Done => True
  end.

Lemma encode_peer_address_bytes buf p : peer_address_ok p -> encode_peer_address buf p = buf ++ peer_address_bytes p.
Proof.
  destruct p as [addr port|addr port flowinfo scope]; cbn [peer_address_ok encode_peer_address peer_address_bytes].
  - intros [Ha Hp]. rewrite !encode_u64_app, encode_array_app by small. unfold array_bytes. by rewrite <- !app_assoc.
  - intros (Hl & Ho & Hp & Hf & Hs).
    rewrite !encode_u64_app, encode_bytes_app, encode_array_app by small.
    unfold array_bytes. by rewrite <- !app_assoc.
Qed.

Lemma encode_peer_addresses_bytes ps : forall buf, Forall peer_address_ok ps ->
  fold_left encode_peer_address ps buf = buf ++ concat (map peer_address_bytes ps).
Proof.
  induction ps as [|p ps IH]; intros buf Hps; cbn [fold_left map concat]; [by rewrite app_nil_r|].
  apply Forall_cons in Hps as [Hp Hps]. by rewrite IH, encode_peer_address_bytes, <- app_assoc by done.
Qed.

Lemma encode_peer_sharing_bytes m : peer_sharing_ok m -> encode_peer_sharing_message m = peer_sharing_bytes m.
Proof.
  destruct m as [amount|peers|]; cbn [peer_sharing_ok encode_peer_sharing_message peer_sharing_bytes]; intros Hm.
  - rewrite !encode_u64_app, encode_array_app by small. unfold array_bytes. by rewrite <- app_assoc.
  - destruct Hm as [Hp Hl]. pose proof (blen_nonneg peers).
    rewrite encode_peer_addresses_bytes, encode_array_app, encode_u64_app, encode_array_app by small.
    unfold array_bytes. cbn [app]. by rewrite <- !app_assoc.
  - by rewrite encode_u64_app, encode_array_app by small.
Qed.

Lemma spells_peer_address p : peer_address_ok p -> spells 1 (peer_address_bytes p).
Proof.
  destruct p as [addr port|addr port flowinfo scope]; cbn [peer_address_ok peer_address_bytes].
  - intros [Ha Hp]. spelling.
  - intros (Hl & Ho & Hp & Hf & Hs). spelling.
Qed.

Lemma reads_peer_address p : peer_address_ok p -> reads decode_peer_address (peer_address_bytes p) p.
Proof.
  destruct p as [addr port|addr port flowinfo scope]; cbn [peer_address_ok peer_address_bytes];
    unfold decode_peer_address.
  - intros [Ha Hp]. reading.
  - intros (Hl & Ho & Hp & Hf & Hs). reading. rewrite Hl. reading.
Qed.

Lemma spells_peer_sharing m : peer_sharing_ok m -> spells 1 (encode_peer_sharing_message m).
Proof.
  intros Hm. rewrite encode_peer_sharing_bytes by done.
  destruct m as [amount|peers|]; cbn [peer_sharing_ok peer_sharing_bytes] in *; try spelling.
  destruct Hm as [Hp Hl]. pose proof (blen_nonneg peers). spelling. apply spells_concat.
  eapply Forall_impl; [exact Hp|]. apply spells_peer_address.
Qed.

Lemma peer_sharing_decodes m :
  peer_sharing_ok m -> blen (encode_peer_sharing_message m) <= isize_max ->
  decode_peer_sharing_message (encode_peer_sharing_message m) = Ok m.
Proof.
  intros Hm Hlen. pose proof (spells_peer_sharing m Hm) as Hs. rewrite encode_peer_sharing_bytes in * by done.
  apply decode_message_reads; [|done|small]. unfold decode_peer_sharing_body.
  destruct m as [amount|peers|]; cbn [peer_sharing_ok peer_sharing_bytes] in *; [reading| |reading].
  - destruct (Z.ltb_spec u8_max amount); [width; lia|].
    unfold as_u8. rewrite Z.mod_small by (width; lia). reading.
  - destruct Hm as [Hp Hl]. pose proof (blen_nonneg peers). reading.
    replace (Z.to_nat (blen peers)) with (length peers) by (unfold blen; lia).
    eapply reads_end; [|apply reads_ret]. apply reads_repeat.
    eapply Forall_impl; [exact Hp|]. apply reads_peer_address.
Qed.

#[export] Instance peer_sharing_codec : WireCodec PeerSharingMessage := {|
  wire_encode := encode_peer_sharing_message;
  wire_decode := decode_peer_sharing_message;
  wire_ok := peer_sharing_ok;
  wire_spells := spells_peer_sharing;
  wire_decodes := peer_sharing_decodes;
|}.

Lemma peer_sharing_takes_turns st ag v m st' out :
  peer_sharing_transition st ag v m = Ok (st', out) -> ag = peer_sharing_turn st /\ ag <> Ag_Neither.
Proof. takes_turns ltac:(unfold peer_sharing_transition). Qed.

Lemma peer_sharing_gated st ag v m : MAX_VERSION < v -> is_ok (peer_sharing_transition st ag v m) = false.
Proof. intros H. unfold peer_sharing_transition. destruct (Z.ltb_spec MAX_VERSION v); [done|lia]. Qed.

#[export] Instance peer_sharing_protocol :
  MiniProtocol PeerSharingState PeerSharingMessage PeerSharingOutput PeerSharingError := {|
  proto_id := MP_PeerSharing;
  proto_initial := PS_Idle;
  proto_transition := peer_sharing_transition;
  proto_agency := peer_sharing_turn;
  proto_not_handshake := ltac:(done);
  proto_turn := peer_sharing_takes_turns;
  proto_version := peer_sharing_gated;
|}.

(** * Transaction submission *)

Record TxSubmissionTxId : Type := mk_TxSubmissionTxId { txid_era : Z; txid_id : list Z }.
Record TxIdAndSize : Type := mk_TxIdAndSize { tx_id : TxSubmissionTxId; tx_size : Z }.

Inductive TxSubmission2Message : Type :=
| TS_Init
| RequestTxIds (blocking : bool) (ack req : Z)
| ReplyTxIds (entries : list TxIdAndSize)
| RequestTxs (ids : list TxSubmissionTxId)
| ReplyTxs (txs : list (list Z))
| TS_Done.

Definition encode_tx_submission_txid (buf : list Z) (id : TxSubmissionTxId) : list Z :=
  encode_bytes (encode_u64 (encode_array_header buf 2) (txid_era id)) (txid_id id).

Definition decode_tx_submission_txid : NDec TxSubmissionTxId :=
  net! arr := decode_array_header Kind_TxSubmission2 in
  if negb (arr =? 2)
  then nfail (InvalidProtocolMessage Kind_TxSubmission2 "tx-submission2 txid must be [eraIndex, hash]") else
  net! era := decode_u64 Kind_TxSubmission2 in
  net! bytes := decode_bytes Kind_TxSubmission2 in
  if negb (blen bytes =? 32)
  then nfail (InvalidProtocolMessage Kind_TxSubmission2 "tx-submission2 txid hash not 32 bytes")
  else nret (mk_TxSubmissionTxId era bytes).

Definition write_seq_header (buf : list Z) : list Z := write_array_header buf Indefinite.
Definition write_seq_footer (buf : list Z) : list Z := write_break buf.

(** The head of the loop over an indefinite sequence. *)
Definition seq_head : NDec bool := fun data off =>
  match byte_at data off with
  | Some b => if b =? 0xff then (Ok true, off + 1) else (Ok false, off)
  | None => (Err (Failed (Net_Truncated (off + 1) (blen data))), off)
  end.

Definition decode_seq {T} (decode_item : NDec T) : NDec (list T) :=
  net! enc := lift Kind_TxSubmission2 read_array_header in
  match enc with
  | Definite n _ => nrepeat (Z.to_nat n) decode_item
  | Indefinite => nwhile seq_head decode_item
  end.

Definition encode_txid_and_size (buf : list Z) (e : TxIdAndSize) : list Z :=
  encode_u64 (encode_tx_submission_txid (encode_array_header buf 2) (tx_id e)) (tx_size e).

Definition encode_tx_submission_message (msg : TxSubmission2Message) : list Z :=
  match msg with
  | TS_Init => encode_u64 (encode_array_header [] 1) 6
  | RequestTxIds blocking ack req =>
      encode_u64 (encode_u64 (encode_bool (encode_u64 (encode_array_header [] 4) 0) blocking) ack) req
  | ReplyTxIds entries =>
      write_seq_footer (fold_left encode_txid_and_size entries
        (write_seq_header (encode_u64 (encode_array_header [] 2) 1)))
  | RequestTxs ids =>
      write_seq_footer (fold_left encode_tx_submission_txid ids
        (write_seq_header (encode_u64 (encode_array_header [] 2) 2)))
  | ReplyTxs txs =>
      write_seq_footer (fold_left (fun buf tx => buf ++ tx) txs
        (write_seq_header (encode_u64 (encode_array_header [] 2) 3)))
  | TS_Done => encode_u64 (encode_array_header [] 1) 4
  end.

Definition decode_txid_and_size : NDec TxIdAndSize :=
  net! pair_len := decode_array_header Kind_TxSubmission2 in
  if negb (pair_len =? 2)
  then nfail (InvalidProtocolMessage Kind_TxSubmission2 "txid/size pair must be 2 elements") else
  net! id := decode_tx_submission_txid in
  net! size := decode_u32 Kind_TxSubmission2 "tx size" in
  nret (mk_TxIdAndSize id size).

Definition decode_tx_submission_body : NDec TxSubmission2Message :=
  net! arr_len := decode_array_header Kind_TxSubmission2 in
  if arr_len <? 1 then nfail (InvalidProtocolMessage Kind_TxSubmission2 "empty outer array") else
  net! tag := decode_u64 Kind_TxSubmission2 in
  if (tag =? 6) && (arr_len =? 1) then nret TS_Init
  else if (tag =? 0) && (arr_len =? 4) then
    net! blocking := decode_bool Kind_TxSubmission2 in
    net! ack := decode_u16 Kind_TxSubmission2 "ack" in
    net! req := decode_u16 Kind_TxSubmission2 "req" in
    nret (RequestTxIds blocking ack req)
  else if (tag =? 1) && (arr_len =? 2) then
    net! entries := decode_seq decode_txid_and_size in nret (ReplyTxIds entries)
  else if (tag =? 2) && (arr_len =? 2) then
    net! ids := decode_seq decode_tx_submission_txid in nret (RequestTxs ids)
  else if (tag =? 3) && (arr_len =? 2) then
    net! txs := decode_seq (decode_raw_item Kind_TxSubmission2) in nret (ReplyTxs txs)
  else if (tag =? 4) && (arr_len =? 1) then nret TS_Done
  else nfail (UnknownTag Kind_TxSubmission2 tag).

Definition decode_tx_submission_message (bytes : list Z) : result TxSubmission2Message (Fault NetCodecError) :=
  decode_message Kind_TxSubmission2 decode_tx_submission_body bytes.

Inductive TxSubmission2State : Type :=
| TS_Start | TS_Idle | TxIdsBlocking (req : Z) | TxIdsNonBlocking (req : Z) | TS_TxsRequested (req_count : Z) | TS_Finished.

Inductive InventoryEvent : Type :=
| ServerOpened
| IdsRequested (blocking : bool) (ack req : Z)
| IdsDelivered (entries : list TxIdAndSize)
| TxsRequested (ids : list TxSubmissionTxId)
| TxsDelivered (tx_bytes : list (list Z)).
Inductive TxSubmission2Output : Type := TS_Event (event : InventoryEvent) | TS_OutDone.
Definition TxSubmission2Error : Type := TransitionError TxSubmission2State Agency.

Definition tx_submission_message_tag (msg : TxSubmission2Message) : string :=
  match msg with
  | TS_Init => "Init" | RequestTxIds _ _ _ => "RequestTxIds" | ReplyTxIds _ => "ReplyTxIds"
  | RequestTxs _ => "RequestTxs" | ReplyTxs _ => "ReplyTxs" | TS_Done => "Done"
  end.

Definition tx_submission2_transition (state : TxSubmission2State) (agency : Agency) (version : Z)
    (msg : TxSubmission2Message) : result (TxSubmission2State * TxSubmission2Output) TxSubmission2Error :=
  if MAX_VERSION <? version then Err (InvalidForVersion version (tx_submission_message_tag msg)) else
  match state, agency, msg with
  | TS_Start, Ag_Client, TS_Init => Ok (TS_Idle, TS_Event ServerOpened)
  | TS_Idle, Ag_Server, RequestTxIds blocking ack req =>
      Ok (if blocking then TxIdsBlocking req else TxIdsNonBlocking req, TS_Event (IdsRequested blocking ack req))
  | TxIdsBlocking req, Ag_Client, ReplyTxIds entries =>
      if blen entries =? 0 then Err (MalformedMessage "blocking ReplyTxIds must be non-empty")
      else if req <? blen entries then Err (MalformedMessage "ReplyTxIds count exceeds requested req")
      else Ok (TS_Idle, TS_Event (IdsDelivered entries))
  | TxIdsNonBlocking req, Ag_Client, ReplyTxIds entries =>
      if req <? blen entries then Err (MalformedMessage "ReplyTxIds count exceeds requested req")
      else Ok (TS_Idle, TS_Event (IdsDelivered entries))
  | TS_Idle, Ag_Server, RequestTxs ids =>
      if blen ids =? 0 then Err (MalformedMessage "RequestTxs must request at least one tx")
      else Ok (TS_TxsRequested (blen ids), TS_Event (TxsRequested ids))
  | TS_TxsRequested req_count, Ag_Client, ReplyTxs tx_bytes =>
      if req_count <? blen tx_bytes then Err (MalformedMessage "ReplyTxs count exceeds requested req_count")
      else Ok (TS_Idle, TS_Event (TxsDelivered tx_bytes))
  | TS_Idle, Ag_Server, TS_Done => Ok (TS_Finished, TS_OutDone)
  | _, _, _ => Err (IllegalTransition state (tx_submission_message_tag msg) agency)
  end.

Definition tx_submission_turn (state : TxSubmission2State) : Agency :=
  match state with
  | TS_Start | TxIdsBlocking _ | TxIdsNonBlocking _ | TS_TxsRequested _ => Ag_Client
  | TS_Idle => Ag_Server
  | TS_Finished => Ag_Neither
  end.

Definition txid_bytes (id : TxSubmissionTxId) : list Z :=
  array_bytes 2 (uint_bytes (txid_era id) ++ string_bytes (txid_id id)).
Definition entry_item (e : TxIdAndSize) : list Z := array_bytes 2 (txid_bytes (tx_id e) ++ uint_bytes (tx_size e)).
Definition seq_bytes {T} (f : T -> list Z) (l : list T) : list Z :=
  indefinite_head ++ concat (map f l) ++ [BREAK_BYTE].
Definition tx_submission_bytes (m : TxSubmission2Message) : list Z :=
  match m with
  | TS_Init => array_bytes 1 (uint_bytes 6)
  | RequestTxIds blocking ack req =>
      array_bytes 4 (uint_bytes 0 ++ encode_bool [] blocking ++ uint_bytes ack ++ uint_bytes req)
  | ReplyTxIds entries => array_bytes 2 (uint_bytes 1 ++ seq_bytes entry_item entries)
  | RequestTxs ids => array_bytes 2 (uint_bytes 2 ++ seq_bytes txid_bytes ids)
  | ReplyTxs txs => array_bytes 2 (uint_bytes 3 ++ seq_bytes (fun tx => tx) txs)
  | TS_Done => array_bytes 1 (uint_bytes 4)
  end.

Definition txid_ok (id : TxSubmissionTxId) : Prop :=
  is_u64 (txid_era id) /\ blen (txid_id id) = 32 /\ bytes_ok (txid_id id).
Definition entry_ok (e : TxIdAndSize) : Prop := txid_ok (tx_id e) /\ is_u32 (tx_size e).
Definition tx_submission_ok (m : TxSubmission2Message) : Prop :=
  match m with
  | TS_Init | TS_Done => True
  | RequestTxIds _ ack req => is_u16 ack /\ is_u16 req
  | ReplyTxIds entries => Forall entry_ok entries
  | RequestTxs ids => Forall txid_ok ids
  | ReplyTxs txs => Forall one_item txs
  end.

Lemma encode_bool_app buf b : encode_bool buf b = buf ++ encode_bool [] b.
Proof. done. Qed.

Lemma encode_txid_bytes buf id : txid_ok id -> encode_tx_submission_txid buf id = buf ++ txid_bytes id.
Proof.
  intros (He & Hl & Ho). unfold encode_tx_submission_txid, txid_bytes, array_bytes.
  by rewrite encode_bytes_app, encode_u64_app, encode_array_app, <- !app_assoc by small.
Qed.

Lemma encode_entry_bytes buf e : entry_ok e -> encode_txid_and_size buf e = buf ++ entry_item e.
Proof.
  intros [Hi Hs]. unfold encode_txid_and_size, entry_item, array_bytes.
  by rewrite encode_u64_app, encode_txid_bytes, encode_array_app, <- !app_assoc by small.
Qed.

(** A sequence, from how its elements are written. *)
Lemma encode_seq_bytes {T} (enc : list Z -> T -> list Z) (f : T -> list Z) (P : T -> Prop) l buf :
  (forall buf x, P x -> enc buf x = buf ++ f x) -> Forall P l ->
  write_seq_footer (fold_left enc l (write_seq_header buf)) = buf ++ seq_bytes f l.
Proof.
  intros He Hl. unfold write_seq_footer, write_seq_header, write_break, seq_bytes.
  rewrite write_indefinite_array, !app_assoc. f_equal.
  generalize (buf ++ indefinite_head). clear buf. induction Hl as [|x l Hx _ IH]; intros buf; cbn [fold_left map concat].
  - by rewrite app_nil_r.
  - by rewrite IH, He, <- app_assoc by done.
Qed.

Lemma encode_tx_submission_bytes m : tx_submission_ok m -> encode_tx_submission_message m = tx_submission_bytes m.
Proof.
  destruct m as [|blocking ack req|entries|ids|txs|];
    cbn [tx_submission_ok encode_tx_submission_message tx_submission_bytes]; intros Hm; unfold array_bytes.
  - by rewrite encode_u64_app, encode_array_app by small.
  - destruct Hm as [Ha Hr]. rewrite (encode_u64_app _ req), (encode_u64_app _ ack) by small.
    rewrite (encode_bool_app (encode_u64 _ _)), encode_u64_app, encode_array_app by small. by rewrite <- !app_assoc.
  - rewrite (encode_seq_bytes _ entry_item entry_ok) by (apply encode_entry_bytes || done).
    by rewrite encode_u64_app, encode_array_app, <- app_assoc by small.
  - rewrite (encode_seq_bytes _ txid_bytes txid_ok) by (apply encode_txid_bytes || done).
    by rewrite encode_u64_app, encode_array_app, <- app_assoc by small.
  - rewrite (encode_seq_bytes (fun buf tx => buf ++ tx) (fun tx => tx) one_item) by done.
    by rewrite encode_u64_app, encode_array_app, <- app_assoc by small.
  - by rewrite encode_u64_app, encode_array_app by small.
Qed.

Lemma spells_txid id : txid_ok id -> spells 1 (txid_bytes id).
Proof. intros (He & Hl & Ho). unfold txid_bytes. spelling. Qed.
Lemma reads_txid id : txid_ok id -> reads decode_tx_submission_txid (txid_bytes id) id.
Proof.
  intros (He & Hl & Ho). unfold decode_tx_submission_txid, txid_bytes. reading. rewrite Hl. cbn [Z.eqb Pos.eqb negb].
  destruct id. apply reads_ret.
Qed.
#[export] Hint Resolve spells_txid reads_txid : wire.

Lemma spells_entry e : entry_ok e -> spells 1 (entry_item e).
Proof. intros [Hi Hs]. unfold entry_item. spelling. Qed.
Lemma reads_entry e : entry_ok e -> reads decode_txid_and_size (entry_item e) e.
Proof. intros [Hi Hs]. unfold decode_txid_and_size, entry_item. reading. destruct e. apply reads_ret. Qed.

Lemma seq_head_breaks : break_head seq_head.
Proof. intros data off b Hb. unfold seq_head. rewrite Hb. change BREAK_BYTE with 0xff. by destruct (b =? 0xff). Qed.

Lemma reads_seq {T} (item : NDec T) (f : T -> list Z) (P : T -> Prop) l :
  (forall x, P x -> reads item (f x) x) -> (forall x, P x -> spells 1 (f x)) -> Forall P l ->
  reads (decode_seq item) (seq_bytes f l) l.
Proof.
  intros Hr Hs Hl. eapply reads_bind; [apply reads_lift, reads_indefinite_array|].
  apply reads_nwhile; [apply seq_head_breaks|]. eapply Forall_impl; [exact Hl|]. auto.
Qed.

Lemma spells_seq {T} (f : T -> list Z) (P : T -> Prop) l :
  (forall x, P x -> spells 1 (f x)) -> Forall P l -> spells 1 (seq_bytes f l).
Proof. intros Hs Hl. apply spells_until. by eapply Forall_impl. Qed.

Lemma spells_tx_submission m : tx_submission_ok m -> spells 1 (encode_tx_submission_message m).
Proof.
  intros Hm. rewrite encode_tx_submission_bytes by done.
  destruct m; cbn [tx_submission_ok tx_submission_bytes] in *;
    try match type of Hm with _ /\ _ => destruct Hm end; spelling.
  - by eapply spells_seq; [apply spells_entry|].
  - by eapply spells_seq; [apply spells_txid|].
  - by eapply spells_seq; [apply spells_one_item|].
Qed.

Lemma tx_submission_decodes m :
  tx_submission_ok m -> blen (encode_tx_submission_message m) <= isize_max ->
  decode_tx_submission_message (encode_tx_submission_message m) = Ok m.
Proof.
  intros Hm Hlen. pose proof (spells_tx_submission m Hm) as Hs. rewrite encode_tx_submission_bytes in * by done.
  apply decode_message_reads; [|done|small]. unfold decode_tx_submission_body.
  destruct m; cbn [tx_submission_ok tx_submission_bytes] in *;
    try match type of Hm with _ /\ _ => destruct Hm end; reading.
  - eapply reads_end; [|apply reads_ret]. by eapply reads_seq; [apply reads_entry|apply spells_entry|].
  - eapply reads_end; [|apply reads_ret]. by eapply reads_seq; [apply reads_txid|apply spells_txid|].
  - eapply reads_end; [|apply reads_ret]. by eapply reads_seq; [apply reads_raw_item|apply spells_one_item|].
Qed.

#[export] Instance tx_submission_codec : WireCodec TxSubmission2Message := {|
  wire_encode := encode_tx_submission_message;
  wire_decode := decode_tx_submission_message;
  wire_ok := tx_submission_ok;
  wire_spells := spells_tx_submission;
  wire_decodes := tx_submission_decodes;
|}.

Lemma tx_submission_takes_turns st ag v m st' out :
  tx_submission2_transition st ag v m = Ok (st', out) -> ag = tx_submission_turn st /\ ag <> Ag_Neither.
Proof. takes_turns ltac:(unfold tx_submission2_transition). Qed.

Lemma tx_submission_gated st ag v m : MAX_VERSION < v -> is_ok (tx_submission2_transition st ag v m) = false.
Proof. intros H. unfold tx_submission2_transition. destruct (Z.ltb_spec MAX_VERSION v); [done|lia]. Qed.

#[export] Instance tx_submission_protocol :
  MiniProtocol TxSubmission2State TxSubmission2Message TxSubmission2Output TxSubmission2Error := {|
  proto_id := MP_TxSubmission;
  proto_initial := TS_Start;
  proto_transition := tx_submission2_transition;
  proto_agency := tx_submission_turn;
  proto_not_handshake := ltac:(done);
  proto_turn := tx_submission_takes_turns;
  proto_version := tx_submission_gated;
|}.

(** * Requests and answers of tx-submission *)

(** The event whose answer is owed in a state. *)
Definition owes (st : TxSubmission2State) (pending : option InventoryEvent) : Prop :=
  match st with
  | TS_Start | TS_Idle | TS_Finished => pending = None
  | TxIdsBlocking req => exists ack, pending = Some (IdsRequested true ack req)
  | TxIdsNonBlocking req => exists ack, pending = Some (IdsRequested false ack req)
  | TS_TxsRequested n => exists ids, pending = Some (TxsRequested ids) /\ n = blen ids
  end.

(** Every delivery answers the request just before it, within its bound; a request is made
    only when nothing is owed; after the end nothing happens. *)
Fixpoint well_answered (pending : option InventoryEvent) (outs : list TxSubmission2Output) : Prop :=
  match outs with
  | [] => True
  | TS_Event (IdsDelivered entries) :: outs =>
      (exists blocking ack req, pending = Some (IdsRequested blocking ack req) /\
         blen entries <= req /\ (blocking = true -> entries <> [])) /\ well_answered None outs
  | TS_Event (TxsDelivered txs) :: outs =>
      (exists ids, pending = Some (TxsRequested ids) /\ ids <> [] /\ blen txs <= blen ids) /\ well_answered None outs
  | TS_Event ServerOpened :: outs => pending = None /\ well_answered None outs
  | TS_Event e :: outs => pending = None /\ well_answered (Some e) outs
  | TS_OutDone :: outs => pending = None /\ outs = []
  end.


Lemma run_answered v ms : forall st pending st' outs,
  owes st pending -> (forall ids, pending = Some (TxsRequested ids) -> ids <> []) ->
  run v st ms = Ok (st', outs) -> well_answered pending outs.
Proof.
  induction ms as [|m ms IH]; intros st pending st' outs Ho Hp Hr; cbn [run] in Hr; [by injection Hr as <- <-|].
  apply rbind_ok_inv in Hr as ([st1 out] & Ht & Hr). apply rbind_ok_inv in Hr as ([st2 outs'] & Hr & [= <- <-]).
  cbn [proto_transition tx_submission_protocol proto_agency] in Ht. unfold tx_submission2_transition in Ht.
  destruct (MAX_VERSION <? v) eqn:Hv; [done|].
  destruct st; cbn [tx_submission_turn owes] in *; destruct m as [|blocking ack rq|entries|ids|txs|]; try discriminate Ht.
  - injection Ht as <- <-. cbn. split; [done|]. by eapply IH; [| |exact Hr].
  - injection Ht as <- <-. cbn. split; [done|]. eapply IH; [| |exact Hr]; [|done].
    destruct blocking; cbn; by exists ack.
  - destruct (Z.eqb_spec (blen ids) 0) as [|Hne]; [done|]. injection Ht as <- <-. cbn. split; [done|].
    eapply IH; [| |exact Hr]; [by exists ids|]. intros ids' [= <-] ->. done.
  - injection Ht as <- <-. cbn. split; [done|]. destruct ms as [|m ms]; cbn [run] in Hr; [by injection Hr|].
    apply rbind_ok_inv in Hr as ([? ?] & Ht & _). cbn [proto_transition tx_submission_protocol proto_agency] in Ht.
    unfold tx_submission2_transition in Ht. rewrite Hv in Ht. by destruct m.
  - destruct Ho as [ack ->]. destruct (Z.eqb_spec (blen entries) 0) as [|Hne]; [done|].
    destruct (Z.ltb_spec req (blen entries)); [done|]. injection Ht as <- <-. cbn. split.
    + exists true, ack, req. split_and!; [done|done|]. intros _ ->. done.
    + by eapply IH; [| |exact Hr].
  - destruct Ho as [ack ->]. destruct (Z.ltb_spec req (blen entries)); [done|]. injection Ht as <- <-. cbn. split.
    + by exists false, ack, req.
    + by eapply IH; [| |exact Hr].
  - destruct Ho as (ids & -> & ->). destruct (Z.ltb_spec (blen ids) (blen txs)); [done|]. injection Ht as <- <-. cbn. split.
    + exists ids. split_and!; [done|by apply Hp|done].
    + by eapply IH; [| |exact Hr].
Qed.

(** Over any accepted run of tx-submission from its start, every delivery of ids or of
    transactions answers the request that immediately precedes it and stays within the count
    asked for, a blocking request is never answered with nothing, a request is made only when
    none is outstanding, and nothing follows the end. *)
Theorem inventory_answers_requests v ms st outs (Hr : run v TS_Start ms = Ok (st, outs)) :
  well_answered None outs.
Proof. by eapply run_answered; [| |exact Hr]. Qed.

Definition sample_txid : TxSubmissionTxId := mk_TxSubmissionTxId 6 (repeat 7 32).

Lemma inventory_answers_requests_witness :
  well_answered None
    [TS_Event ServerOpened; TS_Event (IdsRequested true 0 3); TS_Event (IdsDelivered [mk_TxIdAndSize sample_txid 200]);
     TS_Event (TxsRequested [sample_txid]); TS_Event (TxsDelivered []); TS_OutDone].
Proof.
  apply (inventory_answers_requests 15
    [TS_Init; RequestTxIds true 0 3; ReplyTxIds [mk_TxIdAndSize sample_txid 200]; RequestTxs [sample_txid];
     ReplyTxs []; TS_Done] TS_Finished). reflexivity.
Defined.

(** * The forms a peer may choose *)

(** [FindIntersect] with its points in the indefinite form a cardano-node peer writes. *)
Definition find_intersect_indefinite (points : list Point) : list Z :=
  array_bytes 2 (uint_bytes 4 ++ indefinite_head ++ concat (map point_bytes points) ++ [BREAK_BYTE]).

Lemma find_intersect_indefinite_decodes points :
  Forall point_ok points -> blen (find_intersect_indefinite points) <= isize_max ->
  decode_chain_sync_message (find_intersect_indefinite points) = Ok (FindIntersect points).
Proof.
  intros Hp Hl. unfold find_intersect_indefinite in *.
  apply decode_message_reads; [| |small].
  - unfold decode_chain_sync_body. reading.
    eapply reads_end; [by apply reads_points_indefinite|apply reads_ret].
  - unfold find_intersect_indefinite in *. apply spells_array_of; [small|]. apply (spells_more 1); [spelling|].
    apply spells_until. eapply Forall_impl; [exact Hp|]. intros p Hq. by apply spells_point.
Qed.

(** The era index and the header of a roll forward. *)
Lemma compose_rollforward_parts era header :
  compose_rollforward_header era header =
  array_bytes 2 (uint_bytes (chain_sync_wire_era_index era) ++ wrap_tag24 header).
Proof.
  unfold compose_rollforward_header, array_bytes.
  rewrite encode_u64_app, encode_array_app by (destruct era; small). by rewrite <- !app_assoc.
Qed.

Lemma wrap_tag24_bytes inner :
  is_u64 (blen inner) -> wrap_tag24 inner = argument_bytes MAJOR_TAG 24 ++ string_bytes inner.
Proof. intros Hi. unfold wrap_tag24. by rewrite <- (encode_bytes_app (argument_bytes MAJOR_TAG 24)). Qed.

(** A composed roll-forward header is one CBOR item, as the message that carries it needs. *)
Lemma compose_rollforward_item era header :
  bytes_ok header -> is_u64 (blen header) -> blen (compose_rollforward_header era header) <= u64_max ->
  one_item (compose_rollforward_header era header).
Proof.
  intros Hok Hu Hl. apply one_item_spelled; [|done]. rewrite compose_rollforward_parts, wrap_tag24_bytes by done.
  assert (is_u64 (chain_sync_wire_era_index era)) by (destruct era; small).
  assert (spells 1 (argument_bytes MAJOR_TAG 24 ++ string_bytes header)).
  { apply spells_tag; [small|]. by apply spells_bytes. }
  spelling.
Qed.

Lemma composed_header_length era header :
  blen (compose_rollforward_header era header) <= u64_max -> is_u64 (blen header).
Proof.
  intros Hl. pose proof (blen_nonneg header). unfold compose_rollforward_header, wrap_tag24 in Hl.
  unfold write_bytes_canonical in Hl. rewrite !blen_app in Hl.
  pose proof (blen_nonneg (encode_u64 (encode_array_header [] 2) (chain_sync_wire_era_index era))).
  pose proof (blen_nonneg (write_argument (write_tag [] 24 I8) MAJOR_BYTES (blen header)
    (canonical_width (blen header)))). width. lia.
Qed.

Lemma rollforward_header_roundtrip era header :
  bytes_ok header -> blen (compose_rollforward_header era header) <= u64_max ->
  decompose_rollforward_header (compose_rollforward_header era header) =
    Ok (chain_sync_wire_era_index era, header).
Proof.
  intros Hok Hl.
  pose proof (composed_header_length era header Hl) as Hu.
  pose proof (compose_rollforward_item era header Hok Hu Hl) as [Hb _].
  rewrite compose_rollforward_parts in *. unfold array_bytes in *.
  set (head := argument_bytes MAJOR_ARRAY 2) in *.
  set (idx := uint_bytes (chain_sync_wire_era_index era)) in *.
  assert (Hr : reads rollforward_era_idx (head ++ idx) (chain_sync_wire_era_index era)).
  { unfold rollforward_era_idx. apply reads_array_of; [small|]. cbn. destruct era; reading. }
  unfold decompose_rollforward_header. rewrite app_assoc in *.
  specialize (Hr [] (wrap_tag24 header) Hb Hl). cbn [app] in Hr. change (blen []) with 0 in Hr.
  rewrite Hr, Z.add_0_l.
  rewrite <- (app_nil_r (wrap_tag24 header)).
  rewrite (slice_at (head ++ idx) (wrap_tag24 header) []) by (rewrite ?app_nil_r, ?blen_app; lia).
  rewrite blen_app in Hl. pose proof (blen_nonneg (head ++ idx)).
  rewrite unwrap_wrap_tag24 by (done || lia). by destruct era.
Qed.

(** * The codecs *)

(** C33. Every message of the five node-to-node protocols survives its encoding; the chain-sync
    decoder also reads the list of intersection points in the indefinite form a real peer
    writes; and a header composed for a roll forward is one CBOR item that comes apart into
    its era index and itself. *)
Theorem mini_protocol_codecs_roundtrip :
  (forall m, chain_sync_ok m -> blen (encode_chain_sync_message m) <= isize_max ->
     decode_chain_sync_message (encode_chain_sync_message m) = Ok m) /\
  (forall m, block_fetch_ok m -> blen (encode_block_fetch_message m) <= isize_max ->
     decode_block_fetch_message (encode_block_fetch_message m) = Ok m) /\
  (forall m, keep_alive_ok m -> blen (encode_keep_alive_message m) <= isize_max ->
     decode_keep_alive_message (encode_keep_alive_message m) = Ok m) /\
  (forall m, peer_sharing_ok m -> blen (encode_peer_sharing_message m) <= isize_max ->
     decode_peer_sharing_message (encode_peer_sharing_message m) = Ok m) /\
  (forall m, tx_submission_ok m -> blen (encode_tx_submission_message m) <= isize_max ->
     decode_tx_submission_message (encode_tx_submission_message m) = Ok m) /\
  (forall points, Forall point_ok points -> blen (find_intersect_indefinite points) <= isize_max ->
     decode_chain_sync_message (find_intersect_indefinite points) = Ok (FindIntersect points)) /\
  (forall era header, bytes_ok header -> blen (compose_rollforward_header era header) <= u64_max ->
     one_item (compose_rollforward_header era header) /\
     decompose_rollforward_header (compose_rollforward_header era header) =
       Ok (chain_sync_wire_era_index era, header)).
Proof.
  split_and!; [apply chain_sync_decodes|apply block_fetch_decodes|apply keep_alive_decodes
    |apply peer_sharing_decodes|apply tx_submission_decodes|apply find_intersect_indefinite_decodes|].
  intros era header Hok Hl. split; [|by apply rollforward_header_roundtrip].
  apply compose_rollforward_item; [done| |done]. by eapply composed_header_length.
Qed.

Lemma mini_protocol_codecs_roundtrip_witness :
  decode_chain_sync_message (encode_chain_sync_message (FindIntersect [Block 7 (repeat 1 32); Origin])) =
    Ok (FindIntersect [Block 7 (repeat 1 32); Origin]) /\
  decode_chain_sync_message (find_intersect_indefinite [Block 7 (repeat 1 32); Origin]) =
    Ok (FindIntersect [Block 7 (repeat 1 32); Origin]) /\
  decompose_rollforward_header (compose_rollforward_header Conway [0x80]) = Ok (6, [0x80]).
Proof.
  split_and!.
  - apply (proj1 mini_protocol_codecs_roundtrip); [|by vm_compute].
    split; [|by vm_compute]. repeat constructor; by vm_compute.
  - apply mini_protocol_codecs_roundtrip; [|by vm_compute]. repeat constructor; by vm_compute.
  - apply mini_protocol_codecs_roundtrip; [repeat constructor|]; by vm_compute.
Defined.

(** * Conversations *)

(** C29. For every protocol: the messages of a conversation, each sent through its sender's session,
    cut into frames, reassembled by the receiver's session, decoded and given to the receiver's
    state machine, are accepted exactly when one copy of the state machine accepts them in this
    order; then both copies end in that copy's state, the outputs are that copy's outputs, and
    the sessions are ready for the next message. *)
Theorem conversation_refines_protocol {St Msg Out Error : Type} `{MiniProtocol St Msg Out Error}
    (utf8_valid : list Z -> bool) (version ts : Z) (client server : Party) (ms : list Msg)
    (Hstate : party_state client = party_state server)
    (Hclient : quiet (Msg := Msg) (party_session client)) (Hserver : quiet (Msg := Msg) (party_session server))
    (Hsend : Forall sendable ms) (Hts : is_u32 ts) :
  match run version (party_state client) ms with
  | Ok (st', outs) =>
      exists c s, conversation utf8_valid version ts client server ms = Some (c, s, outs) /\
        party_state c = st' /\ party_state s = st' /\
        quiet (Msg := Msg) (party_session c) /\ quiet (Msg := Msg) (party_session s)
  | Err _ => conversation utf8_valid version ts client server ms = None
  end.
Proof.
  destruct (run version (party_state client) ms) as [[st' outs]|e] eqn:Hr.
  - by apply conversation_runs.
  - by eapply conversation_refused.
Qed.

Definition sample_party : Party := mk_Party (Connected sample_session) CS_Idle.

Lemma conversation_refines_protocol_witness :
  exists c s, conversation (fun _ => true) 15 7 sample_party sample_party
      [FindIntersect [Origin]; IntersectFound Origin (mk_Tip Origin 0); RequestNext; AwaitReply] =
    Some (c, s, [CS_Reply (FindIntersect [Origin]); CS_Signal (Intersected Origin (mk_Tip Origin 0));
                 CS_Reply RequestNext; CS_Reply AwaitReply]) /\
    party_state c = MustReply /\ party_state s = MustReply /\
    quiet (Msg := ChainSyncMessage) (party_session c) /\ quiet (Msg := ChainSyncMessage) (party_session s).
Proof.
  assert (Hq : quiet (Msg := ChainSyncMessage) (party_session sample_party)).
  { by exists sample_session. }
  assert (Hs : Forall sendable [FindIntersect [Origin]; IntersectFound Origin (mk_Tip Origin 0); RequestNext; AwaitReply]).
  { repeat constructor; by vm_compute. }
  exact (conversation_refines_protocol (fun _ => true) 15 7 sample_party sample_party
    [FindIntersect [Origin]; IntersectFound Origin (mk_Tip Origin 0); RequestNext; AwaitReply]
    eq_refl Hq Hq Hs ltac:(by vm_compute)).
Defined.
