(* ===== verification/Decoder.v ===== *)
(** Decoding with an error type of one's own: what the ledger's canonical encodings
    (write-ahead log, checkpoints) share.  A reader of the CBOR library is lifted into the
    caller's error type, as the code does with [map_err]; [reads] (NetCodec.v) relates a
    reader to the bytes it takes, whatever its error type. *)

From S2P Require Import Prelude Cbor CborRoundtrip NetCodec Spelling.

Definition PDec (E A : Type) : Type := list Z -> Z -> result A E * Z.

Definition pret {E A} (a : A) : PDec E A := fun _ off => (Ok a, off).
Definition pfail {E A} (e : E) : PDec E A := fun _ off => (Err e, off).
Definition pbind {E A B} (m : PDec E A) (k : A -> PDec E B) : PDec E B :=
  fun data off =>
    match m data off with
    | (Ok a, off') => k a data off'
    | (Err e, off') => (Err e, off')
    end.

Notation "'dec!' x ':=' m 'in' k" := (pbind m (fun x => k))
  (at level 10, x pattern, m at level 100, k at level 200) : ade_scope.

(** [reader(bytes, &mut o).map_err(f)?] *)
Definition plift {E A} (f : CodecError -> E) (m : Dec A) : PDec E A := fun data off =>
  match m data off with
  | (Ok a, off') => (Ok a, off')
  | (Err e, off') => (Err (f e), off')
  end.

(** [option.ok_or(e)?] *)
Definition por {E A} (o : option A) (e : E) : PDec E A :=
  match o with Some a => pret a | None => pfail e end.

Section Reads.
Context {E : Type}.

Lemma reads_pret {A} (a : A) : reads (pret (E := E) a) [] a.
Proof. intros pre post _ _. unfold pret. cbn. by rewrite Z.add_0_r. Qed.

Lemma reads_pbind {A B} (m : PDec E A) (k : A -> PDec E B) b1 b2 a b :
  reads m b1 a -> reads (k a) b2 b -> reads (pbind m k) (b1 ++ b2) b.
Proof.
  intros Hm Hk pre post Hok Hl. unfold pbind. rewrite <- app_assoc in *.
  rewrite Hm by done. rewrite blen_app, Z.add_assoc, <- blen_app.
  rewrite app_assoc in *. by apply Hk.
Qed.

Lemma reads_pend {A B} (m : PDec E A) (k : A -> PDec E B) bytes a b :
  reads m bytes a -> reads (k a) [] b -> reads (pbind m k) bytes b.
Proof. intros Hm Hk. rewrite <- (app_nil_r bytes). by eapply reads_pbind. Qed.

Lemma reads_pnil {A B} (m : PDec E A) (k : A -> PDec E B) a bytes b :
  reads m [] a -> reads (k a) bytes b -> reads (pbind m k) bytes b.
Proof. intros Hm Hk. exact (reads_pbind m k [] bytes a b Hm Hk). Qed.

Lemma reads_plift {A} (f : CodecError -> E) (m : Dec A) bytes a :
  reads m bytes a -> reads (plift f m) bytes a.
Proof. intros Hm pre post Hok Hl. unfold plift. by rewrite Hm. Qed.

Lemma reads_por {A} (o : option A) (e : E) a : o = Some a -> reads (por o e) [] a.
Proof. intros ->. apply reads_pret. Qed.

(** A reader at the start of its own bytes. *)
Lemma reads_whole_at {A} (m : PDec E A) bytes a :
  reads m bytes a -> bytes_ok bytes -> blen bytes <= u64_max -> m bytes 0 = (Ok a, blen bytes).
Proof.
  intros Hm Hok Hl. specialize (Hm [] []). cbn [app] in Hm. rewrite app_nil_r in Hm. by apply Hm.
Qed.
End Reads.

(** The canonical writers append. *)
Lemma write_uint_app buf v : is_u64 v -> write_uint_canonical buf v = buf ++ uint_bytes v.
Proof. apply encode_u64_bytes. Qed.
Lemma write_bytes_app buf s : is_u64 (blen s) -> write_bytes_canonical buf s = buf ++ string_bytes s.
Proof. apply encode_bytes_bytes. Qed.
Lemma write_array_app buf n :
  is_u64 n -> write_array_header buf (Definite n (canonical_width n)) = buf ++ argument_bytes MAJOR_ARRAY n.
Proof. apply encode_array_header_bytes. Qed.

(** [(value, _) = read_uint(..)?] and [(bytes, _) = read_bytes(..)?] *)
Definition read_value {E} (f : CodecError -> E) : PDec E Z :=
  dec! (v, _) := plift f read_uint in pret v.
Definition read_string {E} (f : CodecError -> E) : PDec E (list Z) :=
  dec! (s, _) := plift f read_bytes in pret s.

Lemma reads_value {E} (f : CodecError -> E) v : is_u64 v -> reads (read_value f) (uint_bytes v) v.
Proof. intros Hv. eapply reads_pend; [by apply reads_plift, reads_uint|apply reads_pret]. Qed.
Lemma reads_string {E} (f : CodecError -> E) s :
  is_u64 (blen s) -> reads (read_string f) (string_bytes s) s.
Proof. intros Hs. eapply reads_pend; [by apply reads_plift, reads_bytes|apply reads_pret]. Qed.
#[export] Hint Resolve reads_value reads_string : wire.

(** [decoding] follows a reader along the bytes it was written from. *)
Ltac decoding :=
  repeat first
  [ apply reads_pret
  | solve [eauto with wire]
  | (first [ eapply reads_pbind; [solve [eauto with wire]|] | eapply reads_pend; [solve [eauto with wire]|]
           | eapply reads_pnil; [apply reads_por; solve [eauto with wire]|] ];
     cbn [Z.ltb Z.compare Pos.compare Pos.compare_cont Z.eqb Pos.eqb andb negb]) ].
