(* ===== verification/Wal.v ===== *)
(** The write-ahead log of [ade_ledger/src/wal/]: its entries and their canonical encoding
    ([event.rs]), the replay that rebuilds the chain fingerprint from an anchor ([replay.rs])
    and the verification walk of [WalStore] ([store_trait.rs]).  A [Hash32] is the list of
    its bytes. *)

From S2P Require Import Prelude Cbor CborRoundtrip Envelope EraSchedule NetCodec Spelling Decoder.

(** * Entries ([event.rs]) *)

Inductive SnapshotPhase : Type := Mark | Set_ | Go.
Inductive RollbackReason : Type := ForkChoiceWin | PeerRollBackward.
Inductive BlockVerdictTag : Type := Valid | Invalid.

Record RollbackPoint : Type := mk_RollbackPoint { rp_slot : Z; rp_hash : Hash32; rp_block_no : Z }.

Record Activation : Type := mk_Activation {
  target_epoch : Z;
  network_magic : Z;
  av_era : CardanoEra;
  transition_slot : Z;
  transition_hash : Hash32;
  source_checkpoint_commitment : Hash32;
  snapshot_phase : SnapshotPhase;
  nonce_commitment : Hash32;
  stake_view_canonical_hash : Hash32;
  view_canonical_hash : Hash32;
}.

Inductive WalEntry : Type :=
| AdmitBlock (prior_fp block_hash : Hash32) (slot : Z) (verdict : BlockVerdictTag) (post_fp : Hash32)
| SeedEpochConsensusInputsImported (anchor_fp sidecar_hash : Hash32) (epoch_no : Z)
| RollBack (to_point : RollbackPoint) (reason : RollbackReason) (prior_tip selected_tip : RollbackPoint)
| EpochConsensusViewActivated (activation : Activation).

#[global] Instance SnapshotPhase_eq_dec : EqDecision SnapshotPhase.
Proof. solve_decision. Defined.
#[global] Instance RollbackReason_eq_dec : EqDecision RollbackReason.
Proof. solve_decision. Defined.
#[global] Instance BlockVerdictTag_eq_dec : EqDecision BlockVerdictTag.
Proof. solve_decision. Defined.
#[global] Instance RollbackPoint_eq_dec : EqDecision RollbackPoint.
Proof. solve_decision. Defined.
#[global] Instance Activation_eq_dec : EqDecision Activation.
Proof. solve_decision. Defined.
#[global] Instance WalEntry_eq_dec : EqDecision WalEntry.
Proof. solve_decision. Defined.

(** [std::io::ErrorKind], the one kind the walk of a file meets. *)
Inductive IoKind : Type := Io_UnexpectedEof.

Inductive WalError : Type :=
| Wal_Io (kind : IoKind)
| Wal_Decode (e : CodecError)
| Structural (reason : string)
| ChainBreak (entry_index : Z) (expected_prior_fp actual_prior_fp : Hash32)
| BlockBytesMissing (block_hash : Hash32)
| CorruptCrc (file : Z)
| DuplicateProvenance
| ProvenanceAnchorMismatch (expected actual : Hash32)
| RollbackTargetNotInChain (entry_index to_slot : Z).

(** * Wire codes *)

Definition TAG_ADMIT_BLOCK : Z := 0.
Definition TAG_ROLLBACK : Z := 1.
Definition TAG_SEED_EPOCH_CONSENSUS_INPUTS_IMPORTED : Z := 3.
Definition TAG_EPOCH_CONSENSUS_VIEW_ACTIVATED : Z := 4.

Definition snapshot_phase_wire (p : SnapshotPhase) : Z :=
  match p with Mark => 0 | Set_ => 1 | Go => 2 end.
Definition snapshot_phase_from_wire (code : Z) : option SnapshotPhase :=
  match code with 0 => Some Mark | 1 => Some Set_ | 2 => Some Go | _ => None end.

Definition reason_wire_code (r : RollbackReason) : Z :=
  match r with ForkChoiceWin => 0 | PeerRollBackward => 1 end.
Definition reason_from_wire_code (code : Z) : option RollbackReason :=
  match code with 0 => Some ForkChoiceWin | 1 => Some PeerRollBackward | _ => None end.

Definition verdict_wire_code (v : BlockVerdictTag) : Z := match v with Valid => 0 | Invalid => 1 end.
Definition verdict_from_wire_code (code : Z) : option BlockVerdictTag :=
  match code with 0 => Some Valid | 1 => Some Invalid | _ => None end.

(** [CardanoEra::ALL.into_iter().find(|e| *e as u64 == era_code)] *)
Definition era_of_code (code : Z) : option CardanoEra :=
  List.find (fun e => as_u8_era e =? code) ALL.

Inductive ActivationReplayOutcome : Type := Idempotent | Conflict.

Definition activation_replay_outcome (existing new : WalEntry) : option ActivationReplayOutcome :=
  match existing, new with
  | EpochConsensusViewActivated a1, EpochConsensusViewActivated a2 =>
      if target_epoch a1 =? target_epoch a2
      then Some (if bool_decide (existing = new) then Idempotent else Conflict)
      else None
  | _, _ => None
  end.

(** * Encoding *)

Definition write_rollback_point (buf : list Z) (p : RollbackPoint) : list Z :=
  let buf := write_uint_canonical buf (rp_slot p) in
  let buf := write_bytes_canonical buf (rp_hash p) in
  write_uint_canonical buf (rp_block_no p).

Definition write_array (buf : list Z) (n : Z) : list Z :=
  write_array_header buf (Definite n (canonical_width n)).

Definition encode_wal_entry (entry : WalEntry) : list Z :=
  let buf := write_array [] 2 in
  match entry with
  | AdmitBlock prior_fp block_hash slot verdict post_fp =>
      let buf := write_uint_canonical buf TAG_ADMIT_BLOCK in
      let buf := write_array buf 5 in
      let buf := write_bytes_canonical buf prior_fp in
      let buf := write_bytes_canonical buf block_hash in
      let buf := write_uint_canonical buf slot in
      let buf := write_uint_canonical buf (verdict_wire_code verdict) in
      write_bytes_canonical buf post_fp
  | SeedEpochConsensusInputsImported anchor_fp sidecar_hash epoch_no =>
      let buf := write_uint_canonical buf TAG_SEED_EPOCH_CONSENSUS_INPUTS_IMPORTED in
      let buf := write_array buf 3 in
      let buf := write_bytes_canonical buf anchor_fp in
      let buf := write_bytes_canonical buf sidecar_hash in
      write_uint_canonical buf epoch_no
  | RollBack to_point reason prior_tip selected_tip =>
      let buf := write_uint_canonical buf TAG_ROLLBACK in
      let buf := write_array buf 10 in
      let buf := write_rollback_point buf to_point in
      let buf := write_uint_canonical buf (reason_wire_code reason) in
      let buf := write_rollback_point buf prior_tip in
      write_rollback_point buf selected_tip
  | EpochConsensusViewActivated a =>
      let buf := write_uint_canonical buf TAG_EPOCH_CONSENSUS_VIEW_ACTIVATED in
      let buf := write_array buf 10 in
      let buf := write_uint_canonical buf (target_epoch a) in
      let buf := write_uint_canonical buf (network_magic a) in
      let buf := write_uint_canonical buf (as_u8_era (av_era a)) in
      let buf := write_uint_canonical buf (transition_slot a) in
      let buf := write_bytes_canonical buf (transition_hash a) in
      let buf := write_bytes_canonical buf (source_checkpoint_commitment a) in
      let buf := write_uint_canonical buf (snapshot_phase_wire (snapshot_phase a)) in
      let buf := write_bytes_canonical buf (nonce_commitment a) in
      let buf := write_bytes_canonical buf (stake_view_canonical_hash a) in
      write_bytes_canonical buf (view_canonical_hash a)
  end.

(** * Decoding *)

Abbreviation WDec := (PDec WalError).

Definition expect_definite_array (expected_len : Z) (label : string) : WDec unit :=
  dec! enc := plift Wal_Decode read_array_header in
  match enc with
  | Definite n _ =>
      if n =? expected_len then pret tt
      else pfail (Structural
        (if bool_decide (label = "entry wrapper"%string) then "entry wrapper had wrong array length"
         else if bool_decide (label = "AdmitBlock payload"%string)
         then "AdmitBlock payload had wrong array length" else "unknown array shape"))
  | Indefinite => pfail (Structural "indefinite-length array not allowed in WAL")
  end.

Definition read_u64 : WDec Z := read_value Wal_Decode.

Definition read_hash32 : WDec Hash32 :=
  dec! h := read_string Wal_Decode in
  if negb (blen h =? 32) then pfail (Structural "expected 32-byte hash") else pret h.

Definition read_rollback_point : WDec RollbackPoint :=
  dec! slot := read_u64 in
  dec! hash := read_hash32 in
  dec! block_no := read_u64 in
  pret (mk_RollbackPoint slot hash block_no).

Definition decode_admit_block : WDec WalEntry :=
  dec! _ := expect_definite_array 5 "AdmitBlock payload" in
  dec! prior_fp := read_hash32 in
  dec! block_hash := read_hash32 in
  dec! slot := read_u64 in
  dec! verdict_code := read_u64 in
  dec! verdict := por (verdict_from_wire_code verdict_code) (Structural "unknown verdict code") in
  dec! post_fp := read_hash32 in
  pret (AdmitBlock prior_fp block_hash slot verdict post_fp).

Definition decode_inputs_imported : WDec WalEntry :=
  dec! _ := expect_definite_array 3 "SeedEpochConsensusInputsImported payload" in
  dec! anchor_fp := read_hash32 in
  dec! sidecar_hash := read_hash32 in
  dec! epoch_no := read_u64 in
  pret (SeedEpochConsensusInputsImported anchor_fp sidecar_hash epoch_no).

Definition decode_rollback : WDec WalEntry :=
  dec! _ := expect_definite_array 10 "RollBack payload" in
  dec! to_point := read_rollback_point in
  dec! reason_code := read_u64 in
  dec! reason := por (reason_from_wire_code reason_code) (Structural "unknown rollback reason code") in
  dec! prior_tip := read_rollback_point in
  dec! selected_tip := read_rollback_point in
  pret (RollBack to_point reason prior_tip selected_tip).

Definition decode_activation : WDec WalEntry :=
  dec! _ := expect_definite_array 10 "EpochConsensusViewActivated payload" in
  dec! target_epoch := read_u64 in
  dec! network_magic := read_u64 in
  if u32_max <? network_magic then pfail (Structural "network_magic out of u32 range") else
  dec! era_code := read_u64 in
  dec! era := por (era_of_code era_code) (Structural "unknown era code") in
  dec! slot := read_u64 in
  dec! transition_hash := read_hash32 in
  dec! source_checkpoint_commitment := read_hash32 in
  dec! phase_code := read_u64 in
  dec! snapshot_phase := por (snapshot_phase_from_wire phase_code) (Structural "unknown snapshot phase code") in
  dec! nonce_commitment := read_hash32 in
  dec! stake_view_canonical_hash := read_hash32 in
  dec! view_canonical_hash := read_hash32 in
  pret (EpochConsensusViewActivated
    (mk_Activation target_epoch (as_u32 network_magic) era slot transition_hash source_checkpoint_commitment
       snapshot_phase nonce_commitment stake_view_canonical_hash view_canonical_hash)).

Definition decode_wal_entry_body : WDec WalEntry :=
  dec! _ := expect_definite_array 2 "entry wrapper" in
  dec! tag := read_u64 in
  if tag =? TAG_ADMIT_BLOCK then decode_admit_block
  else if tag =? TAG_SEED_EPOCH_CONSENSUS_INPUTS_IMPORTED then decode_inputs_imported
  else if tag =? TAG_ROLLBACK then decode_rollback
  else if tag =? TAG_EPOCH_CONSENSUS_VIEW_ACTIVATED then decode_activation
  else pfail (Structural "unknown wal entry tag").

(** The entry and the number of bytes it took. *)
Definition decode_wal_entry (bytes : list Z) : result (WalEntry * Z) WalError :=
  match decode_wal_entry_body bytes 0 with
  | (Ok entry, o) => Ok (entry, o)
  | (Err e, _) => Err e
  end.

(** * Entries survive their encoding *)

Definition hash_ok (h : Hash32) : Prop := bytes_ok h /\ blen h = 32.
Definition point_fits (p : RollbackPoint) : Prop := is_u64 (rp_slot p) /\ hash_ok (rp_hash p) /\ is_u64 (rp_block_no p).

(** The values of the source's types. *)
Definition entry_fits (e : WalEntry) : Prop :=
  match e with
  | AdmitBlock prior_fp block_hash slot _ post_fp =>
      hash_ok prior_fp /\ hash_ok block_hash /\ is_u64 slot /\ hash_ok post_fp
  | SeedEpochConsensusInputsImported anchor_fp sidecar_hash epoch_no =>
      hash_ok anchor_fp /\ hash_ok sidecar_hash /\ is_u64 epoch_no
  | RollBack to_point _ prior_tip selected_tip =>
      point_fits to_point /\ point_fits prior_tip /\ point_fits selected_tip
  | EpochConsensusViewActivated a =>
      (is_u64 (target_epoch a) /\ is_u32 (network_magic a) /\ is_u64 (transition_slot a)) /\
      hash_ok (transition_hash a) /\ hash_ok (source_checkpoint_commitment a) /\
      hash_ok (nonce_commitment a) /\ hash_ok (stake_view_canonical_hash a) /\ hash_ok (view_canonical_hash a)
  end.

Definition rollback_point_bytes (p : RollbackPoint) : list Z :=
  uint_bytes (rp_slot p) ++ string_bytes (rp_hash p) ++ uint_bytes (rp_block_no p).

Definition payload_bytes (e : WalEntry) : list Z :=
  match e with
  | AdmitBlock prior_fp block_hash slot verdict post_fp =>
      uint_bytes 0 ++ argument_bytes MAJOR_ARRAY 5 ++ string_bytes prior_fp ++ string_bytes block_hash ++
      uint_bytes slot ++ uint_bytes (verdict_wire_code verdict) ++ string_bytes post_fp
  | SeedEpochConsensusInputsImported anchor_fp sidecar_hash epoch_no =>
      uint_bytes 3 ++ argument_bytes MAJOR_ARRAY 3 ++ string_bytes anchor_fp ++ string_bytes sidecar_hash ++
      uint_bytes epoch_no
  | RollBack to_point reason prior_tip selected_tip =>
      uint_bytes 1 ++ argument_bytes MAJOR_ARRAY 10 ++ rollback_point_bytes to_point ++
      uint_bytes (reason_wire_code reason) ++ rollback_point_bytes prior_tip ++ rollback_point_bytes selected_tip
  | EpochConsensusViewActivated a =>
      uint_bytes 4 ++ argument_bytes MAJOR_ARRAY 10 ++ uint_bytes (target_epoch a) ++
      uint_bytes (network_magic a) ++ uint_bytes (as_u8_era (av_era a)) ++ uint_bytes (transition_slot a) ++
      string_bytes (transition_hash a) ++ string_bytes (source_checkpoint_commitment a) ++
      uint_bytes (snapshot_phase_wire (snapshot_phase a)) ++ string_bytes (nonce_commitment a) ++
      string_bytes (stake_view_canonical_hash a) ++ string_bytes (view_canonical_hash a)
  end.

Lemma hash_length h : hash_ok h -> is_u64 (blen h).
Proof. intros [_ ->]. by vm_compute. Qed.
#[export] Hint Resolve hash_length : wire.

Lemma era_of_code_of e : era_of_code (as_u8_era e) = Some e.
Proof. by destruct e. Qed.
Lemma phase_of_code p : snapshot_phase_from_wire (snapshot_phase_wire p) = Some p.
Proof. by destruct p. Qed.
Lemma reason_of_code r : reason_from_wire_code (reason_wire_code r) = Some r.
Proof. by destruct r. Qed.
Lemma verdict_of_code v : verdict_from_wire_code (verdict_wire_code v) = Some v.
Proof. by destruct v. Qed.
Lemma era_code_u64 e : is_u64 (as_u8_era e).
Proof. destruct e; small. Qed.
Lemma phase_code_u64 p : is_u64 (snapshot_phase_wire p).
Proof. destruct p; small. Qed.
Lemma reason_code_u64 r : is_u64 (reason_wire_code r).
Proof. destruct r; small. Qed.
Lemma verdict_code_u64 v : is_u64 (verdict_wire_code v).
Proof. destruct v; small. Qed.
#[export] Hint Resolve era_of_code_of phase_of_code reason_of_code verdict_of_code : wire.
#[export] Hint Resolve era_code_u64 phase_code_u64 reason_code_u64 verdict_code_u64 : wire.

Lemma write_rollback_point_bytes buf p :
  point_fits p -> write_rollback_point buf p = buf ++ rollback_point_bytes p.
Proof.
  intros (Hs & Hh & Hb). unfold write_rollback_point, rollback_point_bytes.
  by rewrite !write_uint_app, write_bytes_app, <- !app_assoc by eauto with wire.
Qed.

Lemma encode_wal_entry_bytes e :
  entry_fits e -> encode_wal_entry e = argument_bytes MAJOR_ARRAY 2 ++ payload_bytes e.
Proof.
  destruct e as [prior bh slot v post|anchor side ep|tp r pt st|a]; cbn [entry_fits payload_bytes];
    unfold encode_wal_entry, write_array; intros H; destruct_and?;
    rewrite ?write_rollback_point_bytes by done;
    rewrite ?write_uint_app, ?write_bytes_app, ?write_array_app by eauto with wire;
    cbn [app]; by rewrite <- ?app_assoc.
Qed.

Lemma reads_hash32 h : hash_ok h -> reads read_hash32 (string_bytes h) h.
Proof.
  intros Hh. unfold read_hash32. eapply reads_pend; [eauto with wire|]. destruct Hh as [_ ->]. apply reads_pret.
Qed.
#[export] Hint Resolve reads_hash32 : wire.

Lemma reads_rollback_point p : point_fits p -> reads read_rollback_point (rollback_point_bytes p) p.
Proof.
  intros (Hs & Hh & Hb). unfold read_rollback_point, rollback_point_bytes, read_u64. decoding.
  destruct p. apply reads_pret.
Qed.
#[export] Hint Resolve reads_rollback_point : wire.

Lemma reads_expected_array n label :
  is_u64 n -> reads (expect_definite_array n label) (argument_bytes MAJOR_ARRAY n) tt.
Proof.
  intros Hn. unfold expect_definite_array. eapply reads_pend; [by apply reads_plift, reads_array_header|].
  cbn beta iota. rewrite Z.eqb_refl. apply reads_pret.
Qed.
#[export] Hint Resolve reads_expected_array : wire.

Lemma reads_wal_entry e :
  entry_fits e -> reads decode_wal_entry_body (argument_bytes MAJOR_ARRAY 2 ++ payload_bytes e) e.
Proof.
  intros H. unfold decode_wal_entry_body. eapply reads_pbind; [eauto with wire|].
  destruct e as [prior bh slot v post|anchor side ep|tp r pt st|a]; cbn [entry_fits payload_bytes] in *;
    (eapply reads_pbind; [apply reads_value; small|]); cbn [Z.eqb Pos.eqb TAG_ADMIT_BLOCK TAG_ROLLBACK
      TAG_SEED_EPOCH_CONSENSUS_INPUTS_IMPORTED TAG_EPOCH_CONSENSUS_VIEW_ACTIVATED].
  - destruct H as (Hp & Hb & Hs & Hq). unfold decode_admit_block, read_u64. decoding.
  - destruct H as (Ha & Hs & He). unfold decode_inputs_imported, read_u64. decoding.
  - destruct H as (Ht & Hp & Hs). unfold decode_rollback, read_u64. decoding.
  - destruct H as ((He & Hm & Hs) & Ht & Hc & Hn & Hk & Hv). unfold decode_activation, read_u64.
    destruct a as [te nm era ts th sc ph nc sv vc]; cbn [target_epoch network_magic av_era transition_slot transition_hash
      source_checkpoint_commitment snapshot_phase nonce_commitment stake_view_canonical_hash view_canonical_hash] in *.
    do 3 (eapply reads_pbind; [eauto with wire|]; cbn beta).
    destruct (Z.ltb_spec u32_max nm); [width; lia|].
    unfold as_u32. rewrite Z.mod_small by (width; lia). decoding.
Qed.

(** An encoding is a short string of bytes. *)
Definition sized (n : Z) (b : list Z) : Prop := bytes_ok b /\ blen b <= n.

Lemma sized_app m n a b : sized m a -> sized n b -> sized (m + n) (a ++ b).
Proof. intros [Ha Hm] [Hb Hn]. split; [by apply bytes_ok_app|]. rewrite blen_app. lia. Qed.
Lemma sized_uint v : is_u64 v -> sized 9 (uint_bytes v).
Proof.
  intros Hv. split; [by apply argument_bytes_ok|]. unfold uint_bytes, argument_bytes.
  rewrite blen_cons, blen_to_be. by destruct (canonical_width v).
Qed.
Lemma sized_array n : is_u64 n -> sized 9 (argument_bytes MAJOR_ARRAY n).
Proof.
  intros Hv. split; [by apply argument_bytes_ok|]. unfold argument_bytes.
  rewrite blen_cons, blen_to_be. by destruct (canonical_width n).
Qed.
Lemma sized_hash h : hash_ok h -> sized 41 (string_bytes h).
Proof.
  intros [Hok Hl]. assert (Hu : is_u64 (blen h)) by (rewrite Hl; small).
  unfold string_bytes. change 41 with (9 + 32). apply sized_app; [|by split; [|rewrite Hl]].
  split; [by apply argument_bytes_ok|]. unfold argument_bytes. rewrite blen_cons, blen_to_be.
  by destruct (canonical_width (blen h)).
Qed.
Lemma sized_point p : point_fits p -> sized 59 (rollback_point_bytes p).
Proof.
  intros (Hs & Hh & Hb). change 59 with (9 + (41 + 9)).
  repeat first [apply sized_app | by apply sized_uint | by apply sized_hash].
Qed.

Definition MAX_ENTRY_BYTES : Z := 400.

Lemma encode_wal_entry_sized e : entry_fits e -> sized MAX_ENTRY_BYTES (encode_wal_entry e).
Proof.
  intros H. rewrite encode_wal_entry_bytes by done.
  assert (Hp : sized 391 (payload_bytes e)).
  { assert (Hw : forall m n b, sized m b -> m <= n -> sized n b) by (intros m n b [? ?] ?; split; [done|lia]).
    destruct e as [prior bh slot v post|anchor side ep|tp r pt st|a]; cbn [entry_fits payload_bytes] in *;
      destruct_and?;
      (eapply Hw; [repeat first [ apply sized_uint; solve [eauto with wire]
        | apply sized_array; small | by apply sized_hash | by apply sized_point
        | eapply sized_app ]|lia]). }
  change MAX_ENTRY_BYTES with (9 + 391). apply sized_app; [apply sized_array; small|done].
Qed.

Lemma wal_entry_decodes e :
  entry_fits e -> decode_wal_entry (encode_wal_entry e) = Ok (e, blen (encode_wal_entry e)).
Proof.
  intros H. pose proof (encode_wal_entry_sized e H) as [Hok Hl].
  rewrite encode_wal_entry_bytes in * by done. unfold decode_wal_entry.
  by rewrite (reads_whole_at _ _ e) by (first [by apply reads_wal_entry | done | unfold MAX_ENTRY_BYTES in Hl; width; lia]).
Qed.
