(* ===== verification/WalReplay.v ===== *)
(** Replaying the write-ahead log ([ade_ledger/src/wal/replay.rs] and the verification walk of
    [store_trait.rs]).  The reference is [history]: an interpreter that follows the log the
    way the node wrote it, one entry at a time, and knows only the chain it is on. *)

From Stdlib Require Import Sorting.Sorted.
From S2P Require Import Prelude Cbor EraSchedule Decoder Wal.

(** * The pre-pass *)

(** [while let Some(&(idx, s)) = active.last()]: the blocks above the target are abandoned. *)
Fixpoint unwind (active : list (nat * Z)) (to_slot : Z) (superseded : list bool) :
    list (nat * Z) * list bool :=
  match active with
  | (idx, s) :: rest =>
      if to_slot <? s then unwind rest to_slot (<[idx := true]> superseded) else (active, superseded)
  | [] => ([], superseded)
  end.

Fixpoint superseded_loop (i : nat) (entries : list WalEntry) (active : list (nat * Z))
    (superseded : list bool) : result (list bool) WalError :=
  match entries with
  | [] => Ok superseded
  | entry :: entries =>
      match entry with
      | AdmitBlock _ _ slot _ _ => superseded_loop (S i) entries ((i, slot) :: active) superseded
      | RollBack to_point _ _ _ =>
          let '(active, superseded) := unwind active (rp_slot to_point) superseded in
          match active with
          | (_, s) :: _ =>
              if s =? rp_slot to_point then superseded_loop (S i) entries active superseded
              else Err (RollbackTargetNotInChain (Z.of_nat i) (rp_slot to_point))
          | [] => Err (RollbackTargetNotInChain (Z.of_nat i) (rp_slot to_point))
          end
      | SeedEpochConsensusInputsImported _ _ _ | EpochConsensusViewActivated _ =>
          superseded_loop (S i) entries active superseded
      end
  end.

Definition compute_superseded (entries : list WalEntry) : result (list bool) WalError :=
  superseded_loop 0 entries [] (replicate (length entries) false).

(** * The replay *)

Record RecoveredBootstrapProvenance : Type := mk_Provenance {
  prov_anchor_fp : Hash32;
  prov_sidecar_hash : Hash32;
  prov_epoch_no : Z;
}.

Record ReplayOutcome : Type := mk_ReplayOutcome {
  tail_fp : Hash32;
  provenance : option RecoveredBootstrapProvenance;
  admit_count : Z;
}.

(** [BTreeMap<(u64, [u8; 32]), Hash32>] and [BTreeMap<Hash32, Vec<u8>>], read and inserted
    into only. *)
Abbreviation PointMap := (gmap (Z * Hash32) Hash32).
Abbreviation BlockBytes := (gmap Hash32 (list Z)).

Section Replay.
Variable anchor : Hash32.

(** [superseded[index]]: the vector has an element for every entry. *)
Definition is_superseded (superseded : list bool) (i : nat) : bool := default false (superseded !! i).

Fixpoint replay_loop (block_bytes : BlockBytes) (superseded : list bool) (i : nat) (entries : list WalEntry)
    (prev_post_fp : Hash32) (prov : option RecoveredBootstrapProvenance) (count : Z) (point_fp : PointMap) :
    result ReplayOutcome WalError :=
  match entries with
  | [] => Ok (mk_ReplayOutcome prev_post_fp prov count)
  | entry :: entries =>
      match entry with
      | AdmitBlock prior_fp block_hash slot _ post_fp =>
          if is_superseded superseded i
          then replay_loop block_bytes superseded (S i) entries prev_post_fp prov count point_fp
          else if negb (bool_decide (prior_fp = prev_post_fp))
          then Err (ChainBreak (Z.of_nat i) prev_post_fp prior_fp)
          else
            match block_bytes !! block_hash with
            | None => Err (BlockBytesMissing block_hash)
            | Some _ =>
                replay_loop block_bytes superseded (S i) entries post_fp prov (count + 1)
                  (<[(slot, block_hash) := post_fp]> point_fp)
            end
      | RollBack to_point _ _ _ =>
          match point_fp !! (rp_slot to_point, rp_hash to_point) with
          | Some fp => replay_loop block_bytes superseded (S i) entries fp prov count point_fp
          | None => Err (RollbackTargetNotInChain (Z.of_nat i) (rp_slot to_point))
          end
      | SeedEpochConsensusInputsImported anchor_fp sidecar_hash epoch_no =>
          match prov with
          | Some _ => Err DuplicateProvenance
          | None =>
              if negb (bool_decide (anchor_fp = anchor)) then Err (ProvenanceAnchorMismatch anchor anchor_fp)
              else replay_loop block_bytes superseded (S i) entries prev_post_fp
                     (Some (mk_Provenance anchor_fp sidecar_hash epoch_no)) count point_fp
          end
      | EpochConsensusViewActivated _ =>
          replay_loop block_bytes superseded (S i) entries prev_post_fp prov count point_fp
      end
  end.

Definition replay_from_anchor (entries : list WalEntry) (block_bytes : BlockBytes) :
    result ReplayOutcome WalError :=
  let? superseded := compute_superseded entries in
  replay_loop block_bytes superseded 0 entries anchor None 0 ∅.

(** [WalStore::verify_chain] *)
Fixpoint verify_loop (superseded : list bool) (i : nat) (entries : list WalEntry) (prev_post_fp : Hash32)
    (point_fp : PointMap) : result unit WalError :=
  match entries with
  | [] => Ok tt
  | entry :: entries =>
      match entry with
      | AdmitBlock prior_fp block_hash slot _ post_fp =>
          if is_superseded superseded i then verify_loop superseded (S i) entries prev_post_fp point_fp
          else if negb (bool_decide (prior_fp = prev_post_fp))
          then Err (ChainBreak (Z.of_nat i) prev_post_fp prior_fp)
          else verify_loop superseded (S i) entries post_fp (<[(slot, block_hash) := post_fp]> point_fp)
      | RollBack to_point _ _ _ =>
          match point_fp !! (rp_slot to_point, rp_hash to_point) with
          | Some fp => verify_loop superseded (S i) entries fp point_fp
          | None => Err (RollbackTargetNotInChain (Z.of_nat i) (rp_slot to_point))
          end
      | SeedEpochConsensusInputsImported _ _ _ | EpochConsensusViewActivated _ =>
          verify_loop superseded (S i) entries prev_post_fp point_fp
      end
  end.

Definition verify_chain (entries : list WalEntry) : result unit WalError :=
  let? superseded := compute_superseded entries in
  verify_loop superseded 0 entries anchor ∅.
End Replay.

(** * The reference: the chain as the node was on it *)

(** A block of the chain: the entry that admitted it, where it stands, the fingerprint after it. *)
Record Link : Type := mk_Link { lk_index : nat; lk_slot : Z; lk_hash : Hash32; lk_fp : Hash32 }.

Section History.
Variable anchor : Hash32.

(** A chain, newest block first. *)
Definition tip_fp (c : list Link) : Hash32 := match c with k :: _ => lk_fp k | [] => anchor end.
Definition extends (c : list Link) (slot : Z) : bool :=
  match c with k :: _ => lk_slot k <? slot | [] => true end.

Fixpoint rewind (c : list Link) (slot : Z) (hash : Hash32) : list Link :=
  match c with
  | k :: rest => if bool_decide (lk_slot k = slot /\ lk_hash k = hash) then c else rewind rest slot hash
  | [] => []
  end.

(** The chain at the end of the log, and the entries of the blocks its rollbacks went back
    to; [None] when an admitted block does not extend the chain or a rollback leaves it. *)
Fixpoint history (i : nat) (c : list Link) (entries : list WalEntry) : option (list Link * list nat) :=
  match entries with
  | [] => Some (c, [])
  | entry :: entries =>
      match entry with
      | AdmitBlock prior_fp block_hash slot _ post_fp =>
          if bool_decide (prior_fp = tip_fp c) && extends c slot
          then history (S i) (mk_Link i slot block_hash post_fp :: c) entries else None
      | RollBack to_point _ _ _ =>
          match rewind c (rp_slot to_point) (rp_hash to_point) with
          | [] => None
          | k :: rest =>
              match history (S i) (k :: rest) entries with
              | Some (cF, targets) => Some (cF, lk_index k :: targets)
              | None => None
              end
          end
      | SeedEpochConsensusInputsImported _ _ _ | EpochConsensusViewActivated _ => history (S i) c entries
      end
  end.
End History.

(** A log is told piecewise. *)
Lemma history_app anchor es1 : forall i c es2,
  history anchor i c (es1 ++ es2) =
    match history anchor i c es1 with
    | Some (c1, t1) =>
        match history anchor (i + length es1) c1 es2 with
        | Some (c2, t2) => Some (c2, t1 ++ t2)
        | None => None
        end
    | None => None
    end.
Proof.
  induction es1 as [|e es1 IH]; intros i c es2.
  { cbn. rewrite Nat.add_0_r. by destruct (history anchor i c es2) as [[? ?]|]. }
  cbn [app history length]. rewrite Nat.add_succ_r, <- Nat.add_succ_l.
  destruct e as [prior bh slot v post|a s n|tp r pt st|act].
  - destruct (_ && _); [apply IH|done].
  - apply IH.
  - destruct (rewind c _ _) as [|k rest]; [done|]. rewrite IH.
    destruct (history anchor (S i) (k :: rest) es1) as [[c1 t1]|]; [|done].
    by destruct (history anchor _ c1 es2) as [[c2 t2]|].
  - apply IH.
Qed.

Lemma history_admitted anchor es ks ts prior hash slot v post :
  history anchor 0 [] es = Some (ks, ts) -> prior = tip_fp anchor ks -> extends ks slot = true ->
  history anchor 0 [] (es ++ [AdmitBlock prior hash slot v post]) = Some (mk_Link (length es) slot hash post :: ks, ts).
Proof.
  intros Hh -> He. rewrite history_app, Hh. cbn [history]. rewrite bool_decide_eq_true_2, He by done.
  cbn. by rewrite app_nil_r.
Qed.

Lemma history_rolled_back anchor es ks ts k rest to reason prior sel :
  history anchor 0 [] es = Some (ks, ts) -> rewind ks (rp_slot to) (rp_hash to) = k :: rest ->
  history anchor 0 [] (es ++ [RollBack to reason prior sel]) = Some (k :: rest, ts ++ [lk_index k]).
Proof. intros Hh Hr. rewrite history_app, Hh. cbn [history]. by rewrite Hr. Qed.

(** The imports the log records. *)
Definition imported (entries : list WalEntry) : list RecoveredBootstrapProvenance :=
  omap (fun e => match e with
                 | SeedEpochConsensusInputsImported a s n => Some (mk_Provenance a s n)
                 | _ => None
                 end) entries.

(** * The replay against the reference *)

Definition indices (c : list Link) : list nat := map lk_index c.

(** Chains go up: slots and entry numbers fall strictly from the newest block to the oldest. *)
Definition newer (a b : Link) : Prop := lk_slot b < lk_slot a /\ (lk_index b < lk_index a)%nat.
Definition chain_ok (i : nat) (c : list Link) : Prop :=
  StronglySorted newer c /\ Forall (fun k => (lk_index k < i)%nat) c.

(** The blocks of a chain that were admitted before entry [i]. *)
Definition older (i : nat) (c : list Link) : list Link :=
  List.filter (fun k => Nat.ltb (lk_index k) i) c.

Lemma elem_of_older i c k : k ∈ older i c <-> k ∈ c /\ (lk_index k < i)%nat.
Proof. unfold older. rewrite !list_elem_of_In, filter_In, Nat.ltb_lt. done. Qed.

Lemma older_all i c : Forall (fun k => (lk_index k < i)%nat) c -> older i c = c.
Proof.
  unfold older. induction 1 as [|k c Hk _ IH]; [done|]. cbn [List.filter].
  destruct (Nat.ltb_spec (lk_index k) i); [by rewrite IH|lia].
Qed.

Lemma older_older i c : older i (older (S i) c) = older i c.
Proof.
  unfold older. induction c as [|k c IH]; [done|]. cbn [List.filter].
  destruct (Nat.ltb (lk_index k) i) eqn:E.
  - assert (Nat.ltb (lk_index k) (S i) = true) as -> by (apply Nat.ltb_lt in E; apply Nat.ltb_lt; lia).
    cbn [List.filter]. by rewrite E, IH.
  - destruct (Nat.ltb (lk_index k) (S i)); [|done]. cbn [List.filter]. by rewrite E.
Qed.

Lemma older_same i c : (forall k, k ∈ c -> lk_index k <> i) -> older (S i) c = older i c.
Proof.
  unfold older. induction c as [|k c IH]; intros H; [done|]. cbn [List.filter].
  pose proof (H k ltac:(by apply list_elem_of_here)).
  rewrite IH by (intros k' Hk'; apply H; by apply list_elem_of_further).
  destruct (Nat.ltb_spec (lk_index k) (S i)), (Nat.ltb_spec (lk_index k) i); try lia; done.
Qed.

Lemma chain_ok_app i u c : chain_ok i (u ++ c) -> chain_ok i c.
Proof.
  intros [Hs Hi]. apply Forall_app in Hi as [_ Hi]. split; [|done].
  induction u as [|k u IH]; [done|]. cbn in Hs. apply StronglySorted_inv in Hs as [Hs _]. by apply IH.
Qed.

Lemma chain_ok_weaken i j c : (i <= j)%nat -> chain_ok i c -> chain_ok j c.
Proof. intros H [Hs Hi]. split; [done|]. eapply Forall_impl; [exact Hi|]. intros k Hk. cbn in Hk. lia. Qed.

Lemma chain_ok_push i c slot hash fp :
  chain_ok i c -> extends c slot = true -> chain_ok (S i) (mk_Link i slot hash fp :: c).
Proof.
  intros [Hs Hi] He. split.
  - constructor; [done|]. destruct c as [|k c]; [constructor|]. cbn in He. apply Z.ltb_lt in He.
    apply StronglySorted_inv in Hs as [_ Hk]. apply Forall_cons in Hi as [Hi Hr].
    constructor; [split; cbn; lia|]. rewrite Forall_forall in *. intros k' Hk'.
    specialize (Hk k' Hk') as [? ?]. specialize (Hr k' Hk'). split; cbn; lia.
  - constructor; [cbn; lia|]. eapply Forall_impl; [exact Hi|]. intros k Hk. cbn in Hk. lia.
Qed.

(** Two parts of a chain share neither an entry nor a slot. *)
Lemma chain_parts i u c k k' :
  chain_ok i (u ++ c) -> k ∈ u -> k' ∈ c -> lk_slot k' < lk_slot k /\ (lk_index k' < lk_index k)%nat.
Proof.
  intros [Hs _]. induction u as [|x u IH]; [by intros ?%not_elem_of_nil|].
  cbn in Hs. apply StronglySorted_inv in Hs as [Hs Hx]. intros [->|Hk]%elem_of_cons Hk'; [|by apply IH].
  rewrite Forall_forall in Hx. apply Hx. apply elem_of_app. by right.
Qed.

Lemma rewind_suffix c slot hash k rest :
  rewind c slot hash = k :: rest ->
  lk_slot k = slot /\ lk_hash k = hash /\ exists u, c = u ++ k :: rest.
Proof.
  induction c as [|x c IH]; [done|]. cbn [rewind].
  case_bool_decide as E.
  - intros [= <- <-]. destruct E as [E1 E2]. split_and!; [done..|]. by exists [].
  - intros H. destruct (IH H) as (H1 & H2 & u & ->). split_and!; [done..|]. by exists (x :: u).
Qed.

Section Facts.
Variable anchor : Hash32.

(** What survives of the chain at entry [i] is what the final chain has from before [i], and
    it is the bottom of the chain. *)
Lemma history_suffix es : forall i c cF ts,
  chain_ok i c -> history anchor i c es = Some (cF, ts) ->
  StronglySorted newer cF /\ exists d, c = d ++ older i cF.
Proof.
  induction es as [|e es IH]; intros i c cF ts Hc Hh; cbn [history] in Hh.
  { injection Hh as <- <-. split; [apply Hc|]. exists []. by rewrite older_all by apply Hc. }
  assert (Hkeep : forall ts', history anchor (S i) c es = Some (cF, ts') ->
    StronglySorted newer cF /\ exists d, c = d ++ older i cF).
  { intros ts' Hk. destruct (IH _ _ _ _ (chain_ok_weaken i (S i) c ltac:(lia) Hc) Hk) as [Hs [d Hd]].
    split; [done|]. exists d. rewrite <- older_older.
    rewrite (older_all i (older (S i) cF)); [done|]. destruct Hc as [_ Hi]. rewrite Hd, Forall_app in Hi. apply Hi. }
  destruct e as [prior bh slot v post|a s n|tp r pt st|act]; [|by eapply Hkeep| |by eapply Hkeep].
  - destruct (bool_decide _ && extends c slot) eqn:E; [|done]. apply andb_true_iff in E as [_ He].
    destruct (IH _ _ _ _ (chain_ok_push i c slot bh post Hc He) Hh) as [Hs [d Hd]]. split; [done|].
    destruct Hc as [_ Hi].
    destruct d as [|x d]; cbn in Hd.
    + exists []. rewrite <- older_older, <- Hd. unfold older. cbn [List.filter lk_index].
      rewrite Nat.ltb_irrefl. cbn. symmetry. by apply older_all.
    + injection Hd as <- Hd. exists d. rewrite <- older_older.
      rewrite (older_all i (older (S i) cF)); [done|]. rewrite Hd, Forall_app in Hi. apply Hi.
  - destruct (rewind c (rp_slot tp) (rp_hash tp)) as [|k rest] eqn:Er; [done|].
    destruct (history anchor (S i) (k :: rest) es) as [[cF' ts']|] eqn:Eh; [|done]. injection Hh as <- <-.
    apply rewind_suffix in Er as (_ & _ & u & ->).
    destruct (IH _ _ _ _ (chain_ok_weaken i (S i) _ ltac:(lia) (chain_ok_app _ _ _ Hc)) Eh) as [Hs [d Hd]].
    split; [done|]. exists (u ++ d). rewrite <- app_assoc. f_equal. rewrite <- older_older.
    rewrite (older_all i (older (S i) cF')); [done|]. destruct Hc as [_ Hi].
    apply Forall_app in Hi as [_ Hi]. rewrite Hd, Forall_app in Hi. apply Hi.
Qed.

(** A block of the chain that is not among the survivors is not on the final chain. *)
Lemma abandoned i d cF k :
  chain_ok i (d ++ older i cF) -> k ∈ d -> lk_index k ∉ indices cF.
Proof.
  intros Hc Hk Hin. unfold indices in Hin. apply list_elem_of_fmap in Hin as (k' & E & Hk').
  assert (Hi : (lk_index k < i)%nat).
  { destruct Hc as [_ Hi]. apply Forall_app in Hi as [Hi _]. rewrite Forall_forall in Hi. by apply Hi. }
  destruct (chain_parts i d (older i cF) k k' Hc Hk) as [_ ?]; [|lia].
  apply elem_of_older. split; [done|lia].
Qed.

(** ** The pre-pass *)

Definition mark_all (js : list nat) (sup : list bool) : list bool :=
  fold_left (fun sup j => <[j := true]> sup) js sup.

Lemma length_mark_all js : forall sup, length (mark_all js sup) = length sup.
Proof. induction js as [|j js IH]; intros sup; [done|]. cbn. rewrite IH. apply length_insert. Qed.

Lemma mark_all_other js : forall sup j, j ∉ js -> mark_all js sup !! j = sup !! j.
Proof.
  induction js as [|j' js IH]; intros sup j Hj; [done|]. apply not_elem_of_cons in Hj as [? Hj]. cbn.
  rewrite IH by done. by apply list_lookup_insert_ne.
Qed.

Lemma mark_all_in js : forall sup j, j ∈ js -> (j < length sup)%nat -> mark_all js sup !! j = Some true.
Proof.
  induction js as [|j' js IH]; intros sup j Hj Hl; [by apply not_elem_of_nil in Hj|]. cbn.
  destruct (decide (j ∈ js)) as [Hin|Hout]; [apply IH; [done|by rewrite length_insert]|].
  apply elem_of_cons in Hj as [->|]; [|done]. rewrite mark_all_other by done. by apply list_lookup_insert_eq.
Qed.

Definition stack (c : list Link) : list (nat * Z) := map (fun k => (lk_index k, lk_slot k)) c.

Lemma unwind_spec slot k rest u : forall sup,
  lk_slot k = slot -> Forall (fun k' => slot < lk_slot k') u ->
  unwind (stack (u ++ k :: rest)) slot sup = (stack (k :: rest), mark_all (indices u) sup).
Proof.
  induction u as [|x u IH]; intros sup Hk Hu; cbn.
  - rewrite Hk, Z.ltb_irrefl. done.
  - apply Forall_cons in Hu as [Hx Hu]. destruct (Z.ltb_spec slot (lk_slot x)); [|lia]. by apply IH.
Qed.

Definition is_admit (e : WalEntry) : bool := match e with AdmitBlock _ _ _ _ _ => true | _ => false end.

(** The vector before entry [i]: nothing on the chain or still to come is marked. *)
Definition fresh (i : nat) (c : list Link) (n : nat) (sup : list bool) : Prop :=
  length sup = (i + n)%nat /\
  (forall k, k ∈ c -> sup !! lk_index k = Some false) /\
  (forall j, (i <= j < i + n)%nat -> sup !! j = Some false).

(** The vector at the end: of the chain at entry [i] and of the blocks admitted since, what
    is not on the final chain is marked; nothing else has changed. *)
Definition marked (i : nat) (c : list Link) (es : list WalEntry) (cF : list Link) (sup v : list bool) : Prop :=
  (forall k, k ∈ c -> v !! lk_index k = Some (bool_decide (lk_index k ∉ indices cF))) /\
  (forall j e, es !! j = Some e -> is_admit e = true ->
     v !! (i + j)%nat = Some (bool_decide ((i + j)%nat ∉ indices cF))) /\
  (forall j, (j < i)%nat -> j ∉ indices c -> v !! j = sup !! j).

Lemma fresh_step i c n sup : fresh i c (S n) sup -> fresh (S i) c n sup.
Proof. intros (Hl & Hc & Hn). split_and!; [lia|done|intros; apply Hn; lia]. Qed.

Lemma fresh_push i c n sup x : lk_index x = i -> fresh i c (S n) sup -> fresh (S i) (x :: c) n sup.
Proof.
  intros Hx (Hl & Hc & Hn). split_and!; [lia| |intros; apply Hn; lia].
  intros k [->|Hk]%elem_of_cons; [apply Hn; lia|by apply Hc].
Qed.

Lemma marked_step i c e es cF sup v :
  is_admit e = false -> marked (S i) c es cF sup v -> marked i c (e :: es) cF sup v.
Proof.
  intros He (H1 & H2 & H3). split_and!; [done| |intros; apply H3; [lia|done]].
  intros [|j] e' Hj Ha; cbn in Hj; [congruence|]. rewrite <- Nat.add_succ_comm. by eapply H2.
Qed.

Lemma marked_push i c e es cF sup v x :
  lk_index x = i -> marked (S i) (x :: c) es cF sup v -> marked i c (e :: es) cF sup v.
Proof.
  intros Hx (H1 & H2 & H3). split_and!; [intros k Hk; apply H1; by apply list_elem_of_further| |].
  - intros [|j] e' Hj Ha; cbn in Hj; [|rewrite <- Nat.add_succ_comm; by eapply H2].
    rewrite Nat.add_0_r, <- Hx. apply H1. by apply list_elem_of_here.
  - intros j Hj Hnot. apply H3; [lia|]. cbn. apply not_elem_of_cons. split; [lia|done].
Qed.

Lemma kept_not_undone i u c k : chain_ok i (u ++ c) -> k ∈ c -> lk_index k ∉ indices u.
Proof.
  intros Hc Hk Hin. apply list_elem_of_fmap in Hin as (x & Ex & Hx).
  destruct (chain_parts _ _ _ x k Hc Hx Hk) as [_ ?]. lia.
Qed.

Lemma undone_before i u c j : chain_ok i (u ++ c) -> j ∈ indices u -> (j < i)%nat.
Proof.
  intros [_ Hi] Hj. apply list_elem_of_fmap in Hj as (x & -> & Hx). rewrite Forall_forall in Hi.
  apply Hi, elem_of_app. by left.
Qed.

Lemma fresh_rewind i u c n sup :
  chain_ok i (u ++ c) -> fresh i (u ++ c) (S n) sup -> fresh (S i) c n (mark_all (indices u) sup).
Proof.
  intros Hc (Hl & Ho & Hn). split_and!; [rewrite length_mark_all; lia| |].
  - intros k Hk. rewrite mark_all_other by (by eapply kept_not_undone). apply Ho, elem_of_app. by right.
  - intros j Hj. rewrite mark_all_other; [apply Hn; lia|]. intros Hin.
    pose proof (undone_before _ _ _ _ Hc Hin). lia.
Qed.

Lemma marked_rewind i u c e es cF sup v ts :
  chain_ok i (u ++ c) -> fresh i (u ++ c) (S (length es)) sup -> is_admit e = false ->
  history anchor (S i) c es = Some (cF, ts) -> marked (S i) c es cF (mark_all (indices u) sup) v ->
  marked i (u ++ c) (e :: es) cF sup v.
Proof.
  intros Hc (Hl & _ & _) He Hh (H1 & H2 & H3).
  assert (Hold : forall j, (j < S i)%nat -> j ∉ indices c -> v !! j = mark_all (indices u) sup !! j) by exact H3.
  split_and!.
  - intros k [Hk|Hk]%elem_of_app; [|by apply H1].
    assert (Hin : lk_index k ∈ indices u) by (apply list_elem_of_fmap; by exists k).
    pose proof (undone_before _ _ _ _ Hc Hin).
    rewrite Hold; [rewrite mark_all_in by (done || lia); f_equal; symmetry; apply bool_decide_eq_true|lia|].
    + destruct (history_suffix es (S i) c cF ts) as [_ [d Hd]];
        [eapply chain_ok_weaken; [|by eapply chain_ok_app]; lia|done|].
      eapply (abandoned (S i) (u ++ d)); [|apply elem_of_app; by left].
      rewrite <- app_assoc, <- Hd. eapply chain_ok_weaken; [|exact Hc]. lia.
    + intros Hin'. apply list_elem_of_fmap in Hin' as (y & Ey & Hy).
      apply (kept_not_undone _ _ _ _ Hc Hy). by rewrite <- Ey.
  - intros [|j] e' Hj Ha; cbn in Hj; [congruence|]. rewrite <- Nat.add_succ_comm. by eapply H2.
  - intros j Hj Hnot. unfold indices in Hnot. rewrite map_app, not_elem_of_app in Hnot. destruct Hnot as [Hn1 Hn2].
    rewrite Hold by (lia || done). by apply mark_all_other.
Qed.

(** The pre-pass marks the admitted blocks that are not on the final chain. *)
Lemma superseded_history es : forall i c sup cF ts,
  chain_ok i c -> history anchor i c es = Some (cF, ts) -> fresh i c (length es) sup ->
  exists v, superseded_loop i es (stack c) sup = Ok v /\ marked i c es cF sup v.
Proof.
  induction es as [|e es IH]; intros i c sup cF ts Hc Hh Hf; cbn [history superseded_loop] in *.
  { injection Hh as <- <-. exists sup. split; [done|]. split_and!; [|done|done].
    intros k Hk. destruct Hf as (_ & Hon & _). rewrite Hon by done. f_equal. symmetry.
    apply bool_decide_eq_false. intros H. apply H. apply list_elem_of_fmap. by exists k. }
  assert (Hskip : history anchor (S i) c es = Some (cF, ts) -> is_admit e = false ->
    exists v, superseded_loop (S i) es (stack c) sup = Ok v /\ marked i c (e :: es) cF sup v).
  { intros Hk He. destruct (IH (S i) c sup cF ts) as (v & Hv & Hm);
      [by eapply chain_ok_weaken; [|exact Hc]; lia|done|by apply fresh_step|].
    exists v. split; [done|]. by apply marked_step. }
  destruct e as [prior bh slot vd post|a s n|tp r pt st|act]; [|by apply Hskip| |by apply Hskip].
  - destruct (bool_decide _ && extends c slot) eqn:E; [|done]. apply andb_true_iff in E as [_ He].
    destruct (IH (S i) (mk_Link i slot bh post :: c) sup cF ts) as (v & Hv & Hm);
      [by apply chain_ok_push|done|by apply fresh_push|].
    exists v. split; [done|]. by eapply marked_push; [|exact Hm].
  - destruct (rewind c (rp_slot tp) (rp_hash tp)) as [|k rest] eqn:Er; [done|].
    destruct (history anchor (S i) (k :: rest) es) as [[cF' ts']|] eqn:Eh; [|done]. injection Hh as <- <-.
    apply rewind_suffix in Er as (Hs & _ & u & ->).
    rewrite (unwind_spec _ k rest u) by (done || (rewrite <- Hs; apply Forall_forall; intros k' Hk';
      eapply chain_parts; [exact Hc|done|by apply list_elem_of_here])).
    cbn [stack map]. rewrite Hs, Z.eqb_refl, <- Hs.
    destruct (IH (S i) (k :: rest) (mark_all (indices u) sup) cF' ts') as (v & Hv & Hm);
      [eapply chain_ok_weaken; [|by eapply chain_ok_app]; lia|done|by apply fresh_rewind|].
    exists v. split; [exact Hv|]. by eapply marked_rewind.
Qed.

(** ** The walk *)

(** The points the walk knows are those of the survivors. *)
Definition points_of (c : list Link) : PointMap :=
  foldr (fun k m => <[(lk_slot k, lk_hash k) := lk_fp k]> m) ∅ c.

Lemma points_of_none c slot hash :
  Forall (fun k => lk_slot k <> slot) c -> points_of c !! (slot, hash) = None.
Proof.
  induction 1 as [|k c Hk _ IH]; [done|]. cbn. rewrite lookup_insert_ne; [done|]. by intros [= ? _].
Qed.

(** A block that stays on the final chain stands on survivors only. *)
Lemma survivor_pushed i c cF x d :
  chain_ok i c -> lk_index x = i -> x :: c = d ++ older (S i) cF -> i ∈ indices cF ->
  older (S i) cF = x :: c /\ older i cF = c.
Proof.
  intros Hc Hx Hd Hin. destruct d as [|y d]; cbn in Hd.
  - split; [done|]. rewrite <- older_older, <- Hd. unfold older. cbn [List.filter]. rewrite Hx, Nat.ltb_irrefl.
    apply older_all, Hc.
  - injection Hd as <- Hd. exfalso. apply list_elem_of_fmap in Hin as (k & Hk & HkF).
    assert (Hold : k ∈ c) by (rewrite Hd; apply elem_of_app; right; apply elem_of_older; split; [done|lia]).
    destruct Hc as [_ Hi]. rewrite Forall_forall in Hi. specialize (Hi k Hold). lia.
Qed.

(** The walk looks the target of a rollback up among the survivors. *)
Lemma target_lookup i c k rest d cF u :
  chain_ok i c -> c = u ++ k :: rest -> k :: rest = d ++ older i cF ->
  if bool_decide (lk_index k ∈ indices cF)
  then points_of (older i cF) !! (lk_slot k, lk_hash k) = Some (lk_fp k) /\ older i cF = k :: rest
  else points_of (older i cF) !! (lk_slot k, lk_hash k) = None.
Proof.
  intros Hc -> Hd. pose proof (chain_ok_app _ _ _ Hc) as Hc'. case_bool_decide as Hin.
  - destruct d as [|y d]; cbn in Hd.
    + rewrite <- Hd. split; [|done]. cbn. by rewrite lookup_insert_eq.
    + injection Hd as -> Hd. exfalso.
      eapply (abandoned i (y :: d)); [rewrite <- app_comm_cons, <- Hd; exact Hc'|by apply list_elem_of_here|done].
  - apply points_of_none. apply Forall_forall. intros x Hx Es.
    destruct d as [|y d]; cbn in Hd.
    + apply Hin. apply list_elem_of_fmap. exists k. split; [done|].
      apply (elem_of_older i). rewrite <- Hd. by apply list_elem_of_here.
    + injection Hd as <- Hd. destruct Hc' as [Hs _]. apply StronglySorted_inv in Hs as [_ Hs].
      rewrite Forall_forall in Hs. destruct (Hs x) as [? _]; [|lia]. rewrite Hd. apply elem_of_app. by right.
Qed.

(** An entry that admits nothing puts no block on the final chain. *)
Lemma not_admitted i c es cF ts :
  chain_ok i c -> history anchor (S i) c es = Some (cF, ts) -> older (S i) cF = older i cF.
Proof.
  intros Hc Hh. apply older_same. intros k Hk E.
  destruct (history_suffix es (S i) c cF ts) as [_ [d Hd]];
    [eapply chain_ok_weaken; [|exact Hc]; lia|done|].
  destruct Hc as [_ Hi]. rewrite Hd, Forall_app in Hi. destruct Hi as [_ Hi]. rewrite Forall_forall in Hi.
  assert (Ho : k ∈ older (S i) cF) by (apply elem_of_older; split; [done|lia]). specialize (Hi k Ho). cbn in Hi. lia.
Qed.

(** The walk ends on the final chain when every rollback target is on it, and is refused at
    the first rollback whose target is not. *)
Lemma replay_history bb v es : forall i c cF ts prov p,
  chain_ok i c -> history anchor i c es = Some (cF, ts) ->
  (forall j e, es !! j = Some e -> is_admit e = true ->
     v !! (i + j)%nat = Some (bool_decide ((i + j)%nat ∉ indices cF))) ->
  Forall (fun k => is_Some (bb !! lk_hash k)) cF ->
  option_list p ++ imported es = option_list prov ->
  (forall x, prov = Some x -> prov_anchor_fp x = anchor) ->
  let out := replay_loop anchor bb v i es (tip_fp anchor (older i cF)) p (blen (older i cF)) (points_of (older i cF)) in
  if forallb (fun t => bool_decide (t ∈ indices cF)) ts
  then out = Ok (mk_ReplayOutcome (tip_fp anchor cF) prov (blen cF))
  else exists j s, out = Err (RollbackTargetNotInChain j s).
Proof.
  induction es as [|e es IH]; intros i c cF ts prov p Hc Hh Hv Hbb Hp Hprov; cbn [history] in Hh.
  { injection Hh as <- <-. cbn. rewrite older_all by apply Hc. rewrite app_nil_r in Hp.
    by destruct p, prov; cbn in Hp; try injection Hp as ->. }
  assert (Hv' : forall j e', es !! j = Some e' -> is_admit e' = true ->
     v !! (S i + j)%nat = Some (bool_decide ((S i + j)%nat ∉ indices cF))).
  { intros j e' Hj Ha. rewrite Nat.add_succ_comm. by apply (Hv (S j) e'). }
  assert (Hc' : chain_ok (S i) c) by (eapply chain_ok_weaken; [|exact Hc]; lia).
  assert (Hskip : is_admit e = false -> history anchor (S i) c es = Some (cF, ts) -> older (S i) cF = older i cF).
  { intros _ Hk. by eapply not_admitted. }
  destruct e as [prior bh slot vd post|a s n|tp r pt st|act]; cbn [replay_loop imported omap list_omap] in *.
  - destruct (bool_decide (prior = _) && extends c slot) eqn:E; [|done].
    apply andb_true_iff in E as [Hprior%bool_decide_eq_true He].
    set (x := mk_Link i slot bh post) in *.
    pose proof (chain_ok_push i c slot bh post Hc He) as Hx.
    destruct (history_suffix _ _ _ _ _ Hx Hh) as [_ [d Hd]].
    specialize (IH (S i) (x :: c) cF ts prov p Hx Hh Hv' Hbb Hp Hprov).
    unfold is_superseded. pose proof (Hv 0%nat _ eq_refl eq_refl) as Hi. rewrite Nat.add_0_r in Hi. rewrite Hi. cbn [default].
    destruct (decide (i ∈ indices cF)) as [Hin|Hin]; [rewrite bool_decide_eq_false_2 by (intros Hn; by apply Hn)|rewrite bool_decide_eq_true_2 by done]; cycle 1.
    + by rewrite (older_same i cF) in IH by (intros k Hk Ek; apply Hin; apply list_elem_of_fmap; by exists k).
    + destruct (survivor_pushed i c cF x d Hc eq_refl Hd Hin) as [E1 E2].
      rewrite E1 in IH. rewrite E2. rewrite bool_decide_eq_true_2 by done.
      assert (Hbx : is_Some (bb !! bh)).
      { rewrite Forall_forall in Hbb. apply (Hbb x). apply (elem_of_older (S i)). rewrite E1. by apply list_elem_of_here. }
      destruct Hbx as [b Hb]. cbn [negb]. rewrite Hb. cbn in IH. rewrite blen_cons, Z.add_comm in IH. exact IH.
  - rewrite <- (Hskip eq_refl Hh). destruct p as [p|].
    { exfalso. destruct prov; cbn in Hp; [|done]. by injection Hp. }
    cbn in Hp. destruct prov as [q|]; [|done]. injection Hp as Hq Hrest.
    rewrite bool_decide_eq_true_2 by (subst q; exact (Hprov _ eq_refl)). cbn [negb].
    apply (IH (S i) c); [done..| |done]. change (imported es = []) in Hrest. by rewrite Hrest, <- Hq.
  - destruct (rewind c (rp_slot tp) (rp_hash tp)) as [|k rest] eqn:Er; [done|].
    destruct (history anchor (S i) (k :: rest) es) as [[cF' ts']|] eqn:Eh; [|done]. injection Hh as <- <-.
    apply rewind_suffix in Er as (Es & Eha & u & Ec).
    assert (Hk : chain_ok i (k :: rest)) by (eapply (chain_ok_app i u); by rewrite <- Ec).
    assert (Hk' : chain_ok (S i) (k :: rest)) by (eapply chain_ok_weaken; [|exact Hk]; lia).
    pose proof (not_admitted i (k :: rest) es cF' ts' Hk Eh) as Eo.
    destruct (history_suffix _ _ _ _ _ Hk' Eh) as [_ [d Hd]]. rewrite Eo in Hd.
    pose proof (target_lookup i c k rest d cF' u Hc Ec Hd) as Hlook. rewrite Es, Eha in Hlook.
    specialize (IH (S i) (k :: rest) cF' ts' prov p Hk' Eh Hv' Hbb Hp Hprov). rewrite Eo in IH.
    cbn [forallb]. revert Hlook. destruct (bool_decide (lk_index k ∈ indices cF')); cbn [andb]; intros Hlook.
    + destruct Hlook as [-> Et]. rewrite Et in *. exact IH.
    + eexists _, _. by rewrite Hlook.
  - rewrite <- (Hskip eq_refl Hh). by apply (IH (S i) c).
Qed.
End Facts.

(** * The replay is exact *)

(** The rollbacks of the log went back to blocks that are still on its chain. *)
Definition targets_survive (c : list Link) (targets : list nat) : bool :=
  forallb (fun t => bool_decide (t ∈ indices c)) targets.

(** C39. For every log a node writes (each admitted block extends the chain it is on, each
    rollback goes back to a block of it), with the bytes of the blocks of its final chain at
    hand: if the target of every rollback is still on the final chain, the replay ends on
    that chain, with its fingerprint, its length and the recorded import.  If a later
    rollback undid the target of an earlier one, the replay refuses the log. *)
Theorem wal_replay_exact (anchor : Hash32) (entries : list WalEntry) (bb : BlockBytes)
    (prov : option RecoveredBootstrapProvenance) (c : list Link) (targets : list nat)
    (Hlog : history anchor 0 [] entries = Some (c, targets))
    (Hbytes : Forall (fun k => is_Some (bb !! lk_hash k)) c)
    (Himported : imported entries = option_list prov)
    (Hanchor : forall p, prov = Some p -> prov_anchor_fp p = anchor) :
  if targets_survive c targets
  then replay_from_anchor anchor entries bb = Ok (mk_ReplayOutcome (tip_fp anchor c) prov (blen c))
  else exists j s, replay_from_anchor anchor entries bb = Err (RollbackTargetNotInChain j s).
Proof.
  assert (Hok : chain_ok 0 []) by (split; constructor).
  destruct (superseded_history anchor entries 0 [] (replicate (length entries) false) c targets)
    as (v & Hv & _ & Hm & _); [done|done| |].
  { split_and!; [by rewrite length_replicate|by intros k ?%not_elem_of_nil|].
    intros j Hj. apply lookup_replicate_2. lia. }
  unfold replay_from_anchor, compute_superseded. change [] with (stack []). rewrite Hv. cbn [rbind].
  pose proof (replay_history anchor bb v entries 0 [] c targets prov None Hok Hlog Hm Hbytes Himported Hanchor) as R.
  assert (E : older 0 c = []).
  { destruct (history_suffix anchor entries 0 [] c targets Hok Hlog) as [_ [d Hd]].
    symmetry in Hd. by apply app_nil in Hd as [_ ?]. }
  rewrite E in R. exact R.
Qed.

Lemma verify_loop_replay anchor bb v es : forall i prev prov count points,
  (forall prior bh slot vd post, AdmitBlock prior bh slot vd post ∈ es -> is_Some (bb !! bh)) ->
  (exists p, option_list prov ++ imported es = option_list p /\ forall x, p = Some x -> prov_anchor_fp x = anchor) ->
  (let? _ := replay_loop anchor bb v i es prev prov count points in Ok tt) = verify_loop v i es prev points.
Proof.
  induction es as [|e es IH]; intros i prev prov count points Hbb (p & Hp & Ha); cbn [replay_loop verify_loop]; [done|].
  assert (Hbb' : forall prior bh slot vd post, AdmitBlock prior bh slot vd post ∈ es -> is_Some (bb !! bh)).
  { intros prior bh slot vd post Hin. eapply Hbb. apply list_elem_of_further. exact Hin. }
  destruct e as [prior bh slot vd post|a s n|tp r pt st|act]; cbn [imported omap list_omap] in Hp.
  - destruct (is_superseded v i); [apply IH; [done|by exists p]|].
    destruct (negb _); [done|]. destruct (Hbb prior bh slot vd post) as [b ->]; [by apply list_elem_of_here|].
    apply IH; [done|by exists p].
  - destruct prov as [q|]; [exfalso; destruct p; cbn in Hp; [by injection Hp|done]|].
    cbn in Hp. destruct p as [q|]; [|done]. injection Hp as Hq Hrest. change (imported es = []) in Hrest.
    assert (E : a = anchor) by (specialize (Ha _ eq_refl); by rewrite <- Hq in Ha).
    rewrite (bool_decide_eq_true_2 _ E). cbn [negb].
    apply IH; [done|]. exists (Some q). rewrite Hrest, <- Hq in *. by split.
  - destruct (points !! _); [|done]. apply IH; [done|by exists p].
  - apply IH; [done|by exists p].
Qed.

(** On every log, whatever it says: with the bytes of its blocks at hand and at most one
    import, of the right anchor, [verify_chain] accepts and refuses what the replay accepts
    and refuses, with the same errors. *)
Theorem verify_chain_is_replay (anchor : Hash32) (entries : list WalEntry) (bb : BlockBytes)
    (prov : option RecoveredBootstrapProvenance)
    (Hbytes : forall prior bh slot vd post, AdmitBlock prior bh slot vd post ∈ entries -> is_Some (bb !! bh))
    (Himported : imported entries = option_list prov)
    (Hanchor : forall p, prov = Some p -> prov_anchor_fp p = anchor) :
  (let? _ := replay_from_anchor anchor entries bb in Ok tt) = verify_chain anchor entries.
Proof.
  unfold replay_from_anchor, verify_chain. destruct (compute_superseded entries) as [v|e]; [|done].
  apply verify_loop_replay; [done|]. by exists prov.
Qed.

(** * Concrete logs *)

Definition fp (b : Z) : Hash32 := repeat b 32.
Definition admitted (prior post hash slot : Z) : WalEntry := AdmitBlock (fp prior) (fp hash) slot Valid (fp post).
Definition back_to (slot hash : Z) : WalEntry :=
  RollBack (mk_RollbackPoint slot (fp hash) 0) ForkChoiceWin (mk_RollbackPoint 0 [] 0) (mk_RollbackPoint 0 [] 0).

(** Blocks 1, 2 and 3; back to 1; block 4. *)
Definition one_rollback : list WalEntry :=
  [SeedEpochConsensusInputsImported (fp 100) (fp 7) 3;
   admitted 100 101 1 50; admitted 101 102 2 60; admitted 102 103 3 70; back_to 50 1; admitted 101 104 4 65].
(** The same with block 3 undone first, and then block 2. *)
Definition nested_rollbacks : list WalEntry :=
  [admitted 100 101 1 50; admitted 101 102 2 60; admitted 102 103 3 70; back_to 60 2; back_to 50 1; admitted 101 104 4 65].
Definition sample_bytes : BlockBytes := {[fp 1 := [0x80]; fp 2 := [0x80]; fp 3 := [0x80]; fp 4 := [0x80]]}.

Lemma wal_replay_exact_witness :
  replay_from_anchor (fp 100) one_rollback sample_bytes =
    Ok (mk_ReplayOutcome (fp 104) (Some (mk_Provenance (fp 100) (fp 7) 3)) 2) /\
  exists j s, replay_from_anchor (fp 100) nested_rollbacks sample_bytes = Err (RollbackTargetNotInChain j s).
Proof.
  split.
  - apply (wal_replay_exact (fp 100) one_rollback sample_bytes (Some (mk_Provenance (fp 100) (fp 7) 3))
      [mk_Link 5 65 (fp 4) (fp 104); mk_Link 1 50 (fp 1) (fp 101)] [1%nat]);
      [by vm_compute| |by vm_compute|by intros p [= <-]].
    repeat (apply Forall_cons; split; [vm_compute; by eexists|]). constructor.
  - apply (wal_replay_exact (fp 100) nested_rollbacks sample_bytes None
      [mk_Link 5 65 (fp 4) (fp 104); mk_Link 0 50 (fp 1) (fp 101)] [1%nat; 0%nat]);
      [by vm_compute| |by vm_compute|done].
    repeat (apply Forall_cons; split; [vm_compute; by eexists|]). constructor.
Defined.

Lemma verify_chain_is_replay_witness :
  verify_chain (fp 100) one_rollback = Ok tt.
Proof.
  rewrite <- (verify_chain_is_replay (fp 100) one_rollback sample_bytes (Some (mk_Provenance (fp 100) (fp 7) 3)));
    [by vm_compute| |by vm_compute|by intros p [= <-]].
  intros prior bh slot vd post Hin. repeat (apply elem_of_cons in Hin as [Hin|Hin];
    [try done; injection Hin as -> -> -> -> ->; vm_compute; by eexists|]). by apply not_elem_of_nil in Hin.
Defined.

(** The node rolled back twice, the second time further than the first: it is on a well-formed
    chain, but its log can no longer be replayed, nor verified. *)
Lemma nested_rollbacks_unreplayable :
  history (fp 100) 0 [] nested_rollbacks =
    Some ([mk_Link 5 65 (fp 4) (fp 104); mk_Link 0 50 (fp 1) (fp 101)], [1%nat; 0%nat]) /\
  replay_from_anchor (fp 100) nested_rollbacks sample_bytes = Err (RollbackTargetNotInChain 3 60) /\
  verify_chain (fp 100) nested_rollbacks = Err (RollbackTargetNotInChain 3 60).
Proof. split_and!; by vm_compute. Qed.
