(* ===== verification/WalFile.v ===== *)
(** The file-backed log of [ade_runtime/src/wal/file_wal_store.rs].  The directory is an
    ordered map from the number in a file's name to the file's bytes: the store writes no
    other names.  Reads and writes of a healthy disk do not fail; a crash leaves a prefix of
    the frame that was being written. *)

From S2P Require Import Prelude Cbor CborRoundtrip BTree Decoder Wal.

Definition ENTRIES_PER_FILE : Z := 10000.
Definition MAX_FILE_BYTES : Z := 100 * 1024 * 1024.

Abbreviation Directory := (BTreeMap Z (list Z)).

Record FileWalStore : Type := mk_FileWalStore {
  dir : Directory;
  current_file_index : Z;
  current_entry_count : Z;
  current_byte_count : Z;
}.

(** [fs::read] of a file that is there. *)
Definition file_at (d : Directory) (idx : Z) : list Z := default [] (bt_get d idx).

(** * Checksums *)

Definition crc_bit (s : Z * Z) : Z * Z :=
  let '(crc, byte) := s in
  let bit := Z.land (Z.lxor crc byte) 1 in
  let crc := Z.shiftr crc 1 in
  let crc := if negb (bit =? 0) then Z.lxor crc 0x82F63B78 else crc in
  (crc, Z.shiftr byte 1).
Definition crc_byte (crc b : Z) : Z := fst (Nat.iter 8 crc_bit (crc, b)).
Definition crc32c (bytes : list Z) : Z := Z.lxor (fold_left crc_byte bytes 0xFFFFFFFF) 0xFFFFFFFF.

(** The check value of CRC-32C: the checksum of the ASCII digits 1 to 9. *)
Example crc32c_check : crc32c [49; 50; 51; 52; 53; 54; 55; 56; 57] = 0xE3069283.
Proof. vm_compute. reflexivity. Qed.

Definition seal_with_crc (bytes : list Z) : list Z := bytes ++ to_be 4 (crc32c bytes).

Definition verify_sealed_crc (idx : Z) (bytes : list Z) : result unit WalError :=
  if blen bytes <? 4 then Err (CorruptCrc idx) else
  let body_len := blen bytes - 4 in
  let body := slice bytes 0 body_len in
  let stored_crc := from_be (slice bytes body_len (blen bytes)) in
  if negb (crc32c body =? stored_crc) then Err (CorruptCrc idx) else Ok tt.

(** * Opening *)

(** The walk over the frames of the open file: entries, bytes, and whether a partial frame is
    cut off.  Each turn passes at least the four bytes of a length. *)
Fixpoint recover_loop (fuel : nat) (bytes : list Z) (pos count : Z) : option (Z * Z * bool) :=
  match fuel with
  | O => None
  | S fuel =>
      if pos + 4 <=? blen bytes then
        let elen := from_be (slice bytes pos (pos + 4)) in
        if blen bytes <? pos + 4 + elen then Some (count, pos, true)
        else recover_loop fuel bytes (pos + 4 + elen) (count + 1)
      else Some (count, pos, false)
  end.

(** The counts and the bytes the file is left with. *)
Definition recover_open_file (bytes : list Z) : option (Z * Z * list Z) :=
  match recover_loop (S (length bytes)) bytes 0 0 with
  | Some (count, pos, cut) => Some (count, pos, if cut then slice bytes 0 pos else bytes)
  | None => None
  end.

Fixpoint verify_sealed (files : Directory) : result unit WalError :=
  match files with
  | (idx, bytes) :: files => let? _ := verify_sealed_crc idx bytes in verify_sealed files
  | [] => Ok tt
  end.

(** [FileWalStore::open].  The [None] of the walk is its fuel, which is enough
    ([recover_open_file_total]). *)
Definition open (d : Directory) : result FileWalStore WalError :=
  match bt_last d with
  | Some (max_idx, bytes) =>
      let? _ := verify_sealed (removelast d) in
      match recover_open_file bytes with
      | Some (count, pos, bytes) => Ok (mk_FileWalStore (bt_insert d max_idx bytes) max_idx count pos)
      | None => Err (Wal_Io Io_UnexpectedEof)
      end
  | None => Ok (mk_FileWalStore (bt_insert d 0 []) 0 0 0)
  end.

(** * Appending *)

Definition rotate (s : FileWalStore) : FileWalStore :=
  let d := bt_insert (dir s) (current_file_index s) (seal_with_crc (file_at (dir s) (current_file_index s))) in
  let idx := as_u32 (current_file_index s + 1) in
  mk_FileWalStore (bt_insert d idx []) idx 0 0.

Definition frame (bytes : list Z) : list Z := to_be 4 (as_u32 (blen bytes)) ++ bytes.

(** The rotation at the head of [append]. *)
Definition make_room (s : FileWalStore) (entry : WalEntry) : FileWalStore :=
  let frame_size := 4 + blen (encode_wal_entry entry) in
  if (ENTRIES_PER_FILE <=? current_entry_count s) || (MAX_FILE_BYTES <? current_byte_count s + frame_size)
  then rotate s else s.

(** [write_all] on the current file. *)
Definition write_all (s : FileWalStore) (bytes : list Z) : FileWalStore :=
  mk_FileWalStore (bt_insert (dir s) (current_file_index s) (file_at (dir s) (current_file_index s) ++ bytes))
    (current_file_index s) (current_entry_count s) (current_byte_count s).

Definition append (s : FileWalStore) (entry : WalEntry) : FileWalStore :=
  let bytes := encode_wal_entry entry in
  let s := make_room s entry in
  let s := write_all s (to_be 4 (as_u32 (blen bytes))) in
  let s := write_all s bytes in
  mk_FileWalStore (dir s) (current_file_index s) (current_entry_count s + 1)
    (current_byte_count s + (4 + blen bytes)).

(** * Reading *)

(** [read_exact] of the frames of a file up to [body_end]. *)
Fixpoint read_frames (fuel : nat) (bytes : list Z) (pos body_end : Z) (all : list WalEntry) :
    option (result (list WalEntry) WalError) :=
  match fuel with
  | O => None
  | S fuel =>
      if pos <? body_end then
        if blen bytes <? pos + 4 then Some (Err (Wal_Io Io_UnexpectedEof)) else
        let elen := from_be (slice bytes pos (pos + 4)) in
        if blen bytes <? pos + 4 + elen then Some (Err (Wal_Io Io_UnexpectedEof)) else
        match decode_wal_entry (slice bytes (pos + 4) (pos + 4 + elen)) with
        | Err e => Some (Err e)
        | Ok (decoded, _) => read_frames fuel bytes (pos + 4 + elen) body_end (all ++ [decoded])
        end
      else Some (Ok all)
  end.

Definition read_file (s : FileWalStore) (idx : Z) (bytes : list Z) (all : list WalEntry) :
    option (result (list WalEntry) WalError) :=
  let body_end := if idx =? current_file_index s then blen bytes else saturating_sub (blen bytes) 4 in
  read_frames (S (length bytes)) bytes 0 body_end all.

Fixpoint read_files (s : FileWalStore) (files : Directory) (all : list WalEntry) :
    option (result (list WalEntry) WalError) :=
  match files with
  | [] => Some (Ok all)
  | (idx, bytes) :: files =>
      match read_file s idx bytes all with
      | Some (Ok all) => read_files s files all
      | r => r
      end
  end.

(** [None] is the fuel of the walks ([read_all_total]). *)
Definition read_all (s : FileWalStore) : option (result (list WalEntry) WalError) := read_files s (dir s) [].

(** * The frames of a file *)

Definition frames (es : list WalEntry) : list Z := concat (map (fun e => frame (encode_wal_entry e)) es).

Lemma frames_app es e : frames (es ++ [e]) = frames es ++ frame (encode_wal_entry e).
Proof. unfold frames. by rewrite map_app, concat_app, <- (app_nil_r (frame _)). Qed.

Lemma entry_length e : entry_fits e -> 0 <= blen (encode_wal_entry e) <= MAX_ENTRY_BYTES.
Proof. intros H. split; [apply blen_nonneg|]. apply (encode_wal_entry_sized e H). Qed.

Lemma blen_frame e : blen (frame (encode_wal_entry e)) = 4 + blen (encode_wal_entry e).
Proof. unfold frame. by rewrite blen_app, blen_to_be. Qed.

Lemma frames_length es : Z.of_nat (length es) <= blen (frames es).
Proof.
  induction es as [|e es IH]; [by vm_compute|]. cbn [length frames map concat]. rewrite blen_app, blen_frame.
  pose proof (blen_nonneg (encode_wal_entry e)). fold (frames es). lia.
Qed.

Lemma to_be_u32 n : is_u32 (from_be (to_be 4 n)).
Proof.
  pose proof (from_be_bound (to_be 4 n) (to_be_ok 4 n)) as H. rewrite blen_to_be in H.
  change (256 ^ Z.of_nat 4) with 4294967296 in H. width. lia.
Qed.

(** The length and the payload of the frame at a position. *)
Lemma frame_head pre e rest :
  entry_fits e ->
  let data := pre ++ frame (encode_wal_entry e) ++ rest in
  let n := blen (encode_wal_entry e) in
  blen pre + 4 <= blen data /\ blen pre + 4 + n <= blen data /\
  from_be (slice data (blen pre) (blen pre + 4)) = n /\
  slice data (blen pre + 4) (blen pre + 4 + n) = encode_wal_entry e.
Proof.
  intros He data n. pose proof (entry_length e He) as Hn. fold n in Hn. unfold MAX_ENTRY_BYTES in Hn.
  assert (Hu : as_u32 n = n) by (apply Z.mod_small; lia).
  assert (Hd : data = pre ++ to_be 4 n ++ encode_wal_entry e ++ rest).
  { subst data. unfold frame. fold n. by rewrite Hu, <- app_assoc. }
  pose proof (blen_nonneg rest). assert (Hl : blen data = blen pre + (4 + (n + blen rest))).
  { rewrite Hd, !blen_app, blen_to_be. done. }
  split_and!; [lia|lia| |].
  - rewrite Hd, (slice_at pre (to_be 4 n)) by (rewrite ?blen_to_be; done). apply from_to_be_u32. width. lia.
  - rewrite Hd, app_assoc. apply slice_at; rewrite blen_app, blen_to_be; done.
Qed.

Lemma recover_frames es : forall pre tail count fuel,
  Forall entry_fits es ->
  recover_loop (length es + fuel) (pre ++ frames es ++ tail) (blen pre) count =
  recover_loop fuel (pre ++ frames es ++ tail) (blen pre + blen (frames es)) (count + blen es).
Proof.
  induction es as [|e es IH]; intros pre tail count fuel Hes; [cbn; by rewrite !Z.add_0_r|].
  apply Forall_cons in Hes as [He Hes]. cbn [length Nat.add recover_loop].
  change (frames (e :: es)) with (frame (encode_wal_entry e) ++ frames es). rewrite <- app_assoc.
  destruct (frame_head pre e (frames es ++ tail) He) as (H1 & H2 & -> & _).
  destruct (Z.leb_spec (blen pre + 4) (blen (pre ++ frame (encode_wal_entry e) ++ frames es ++ tail))); [|lia].
  destruct (Z.ltb_spec (blen (pre ++ frame (encode_wal_entry e) ++ frames es ++ tail))
    (blen pre + 4 + blen (encode_wal_entry e))); [lia|].
  rewrite blen_app, blen_frame, blen_cons.
  specialize (IH (pre ++ frame (encode_wal_entry e)) tail (count + 1) fuel Hes).
  rewrite <- !app_assoc, blen_app, blen_frame in IH.
  replace (blen pre + 4 + blen (encode_wal_entry e)) with (blen pre + (4 + blen (encode_wal_entry e))) by lia.
  rewrite IH. f_equal; lia.
Qed.

(** The walk over whole frames. *)
Lemma read_frames_walk es : forall pre tail all fuel body_end,
  Forall entry_fits es -> blen pre + blen (frames es) <= body_end ->
  read_frames (length es + fuel) (pre ++ frames es ++ tail) (blen pre) body_end all =
  read_frames fuel (pre ++ frames es ++ tail) (blen pre + blen (frames es)) body_end (all ++ es).
Proof.
  induction es as [|e es IH]; intros pre tail all fuel body_end Hes Hend.
  { change (blen (frames [])) with 0. by rewrite Z.add_0_r, app_nil_r. }
  apply Forall_cons in Hes as [He Hes]. cbn [length Nat.add read_frames].
  change (frames (e :: es)) with (frame (encode_wal_entry e) ++ frames es) in *. rewrite <- app_assoc.
  destruct (frame_head pre e (frames es ++ tail) He) as (H1 & H2 & -> & ->).
  set (data := pre ++ frame (encode_wal_entry e) ++ frames es ++ tail) in *.
  pose proof (blen_nonneg (frames es)). pose proof (entry_length e He) as [Hn _].
  rewrite blen_app, blen_frame in *.
  destruct (Z.ltb_spec (blen pre) body_end); [|lia].
  destruct (Z.ltb_spec (blen data) (blen pre + 4)); [lia|].
  destruct (Z.ltb_spec (blen data) (blen pre + 4 + blen (encode_wal_entry e))); [lia|].
  rewrite wal_entry_decodes by done.
  specialize (IH (pre ++ frame (encode_wal_entry e)) tail (all ++ [e]) fuel body_end Hes).
  rewrite <- !app_assoc, !blen_app, blen_frame in IH. fold data in IH.
  replace (blen pre + 4 + blen (encode_wal_entry e)) with (blen pre + (4 + blen (encode_wal_entry e))) by lia.
  rewrite IH by lia. f_equal. lia.
Qed.

Lemma read_frames_spec es pre tail all fuel :
  Forall entry_fits es ->
  read_frames (length es + S fuel) (pre ++ frames es ++ tail) (blen pre) (blen pre + blen (frames es)) all =
  Some (Ok (all ++ es)).
Proof. intros Hes. rewrite read_frames_walk by (done || lia). cbn [read_frames]. by rewrite Z.ltb_irrefl. Qed.

(** * The directory *)

(** Files numbered from [i]. *)
Fixpoint files_from (i : Z) (l : list (list Z)) : Directory :=
  match l with [] => [] | x :: l => (i, x) :: files_from (i + 1) l end.

Lemma files_from_app i l k : files_from i (l ++ k) = files_from i l ++ files_from (i + blen l) k.
Proof.
  revert i. induction l as [|x l IH]; intros i; cbn; [by rewrite Z.add_0_r|].
  rewrite IH, blen_cons. by rewrite <- Z.add_assoc.
Qed.

Lemma get_last i l x : bt_get (files_from i (l ++ [x])) (i + blen l) = Some x.
Proof.
  revert i. induction l as [|y l IH]; intros i; cbn [app files_from bt_get cmp Z_order].
  - rewrite blen_nil, Z.add_0_r, Z.compare_refl. done.
  - rewrite blen_cons. pose proof (blen_nonneg l). destruct (Z.compare_spec (i + (1 + blen l)) i); [lia..|].
    rewrite Z.add_assoc. apply IH.
Qed.

Lemma insert_last i l x y : bt_insert (files_from i (l ++ [x])) (i + blen l) y = files_from i (l ++ [y]).
Proof.
  revert i. induction l as [|z l IH]; intros i; cbn [app files_from bt_insert cmp Z_order].
  - rewrite blen_nil, Z.add_0_r, Z.compare_refl. done.
  - rewrite blen_cons. pose proof (blen_nonneg l). destruct (Z.compare_spec (i + (1 + blen l)) i); [lia..|].
    f_equal. rewrite Z.add_assoc. apply IH.
Qed.

Lemma insert_next i l y : bt_insert (files_from i l) (i + blen l) y = files_from i (l ++ [y]).
Proof.
  revert i. induction l as [|z l IH]; intros i; cbn [app files_from bt_insert cmp Z_order].
  - rewrite blen_nil, Z.add_0_r. done.
  - rewrite blen_cons. pose proof (blen_nonneg l). destruct (Z.compare_spec (i + (1 + blen l)) i); [lia..|].
    f_equal. rewrite Z.add_assoc. apply IH.
Qed.

(** * The store holds a log *)

(** The files of a log: the full ones, sealed, and the open one. *)
Definition contents (sealed : list (list WalEntry)) (last : list Z) : Directory :=
  files_from 0 (map (fun es => seal_with_crc (frames es)) sealed ++ [last]).

Definition store_of (sealed : list (list WalEntry)) (cur : list WalEntry) : FileWalStore :=
  mk_FileWalStore (contents sealed (frames cur)) (blen sealed) (blen cur) (blen (frames cur)).


Lemma contents_file sealed x : file_at (contents sealed x) (blen sealed) = x.
Proof.
  unfold file_at, contents. rewrite <- (blen_map (fun es => seal_with_crc (frames es))).
  by rewrite <- (Z.add_0_l (blen _)), get_last.
Qed.

Lemma contents_insert sealed x y : bt_insert (contents sealed x) (blen sealed) y = contents sealed y.
Proof.
  unfold contents. rewrite <- (blen_map (fun es => seal_with_crc (frames es)) sealed), <- (Z.add_0_l (blen _)).
  apply insert_last.
Qed.

Lemma contents_next sealed cur :
  bt_insert (contents sealed (seal_with_crc (frames cur))) (blen sealed + 1) [] = contents (sealed ++ [cur]) [].
Proof.
  unfold contents. rewrite map_app. cbn [map].
  rewrite <- (insert_next 0 (map (fun es => seal_with_crc (frames es)) sealed ++ [_])).
  by rewrite blen_app, blen_map, Z.add_0_l.
Qed.

Lemma rotate_store sealed cur :
  blen sealed < u32_max -> rotate (store_of sealed cur) = store_of (sealed ++ [cur]) [].
Proof.
  intros Hl. pose proof (blen_nonneg sealed). unfold rotate, store_of. cbn [dir current_file_index].
  rewrite contents_file, contents_insert. unfold as_u32. rewrite Z.mod_small by (width; lia).
  by rewrite contents_next, blen_app.
Qed.

(** The files after the rotation at the head of [append]. *)
Definition roomy (sealed : list (list WalEntry)) (cur : list WalEntry) (e : WalEntry) :
    list (list WalEntry) * list WalEntry :=
  if (ENTRIES_PER_FILE <=? blen cur) || (MAX_FILE_BYTES <? blen (frames cur) + (4 + blen (encode_wal_entry e)))
  then (sealed ++ [cur], []) else (sealed, cur).

Lemma make_room_store sealed cur e :
  blen sealed < u32_max ->
  make_room (store_of sealed cur) e = store_of (fst (roomy sealed cur e)) (snd (roomy sealed cur e)).
Proof.
  intros Hl. unfold make_room, roomy. cbn [current_entry_count current_byte_count store_of].
  destruct (_ || _); [by apply rotate_store|done].
Qed.

Lemma write_store sealed cur bytes :
  dir (write_all (store_of sealed cur) bytes) = contents sealed (frames cur ++ bytes).
Proof. unfold write_all, store_of. cbn [dir current_file_index]. by rewrite contents_file, contents_insert. Qed.

Lemma append_store sealed cur e :
  blen sealed < u32_max ->
  append (store_of sealed cur) e =
    store_of (fst (roomy sealed cur e)) (snd (roomy sealed cur e) ++ [e]).
Proof.
  intros Hl. unfold append. rewrite make_room_store by done.
  destruct (roomy sealed cur e) as [s c]. cbn [fst snd]. unfold write_all.
  cbn [dir current_file_index current_entry_count current_byte_count store_of].
  rewrite contents_file, contents_insert, contents_file, contents_insert.
  unfold store_of. rewrite frames_app, !blen_app, blen_frame. unfold frame. by rewrite <- app_assoc.
Qed.

(** ** Checksums *)

Lemma lxor_bound n a b : 0 <= n -> 0 <= a < 2 ^ n -> 0 <= b < 2 ^ n -> 0 <= Z.lxor a b < 2 ^ n.
Proof.
  intros Hn Ha Hb. assert (E : Z.lxor a b = Z.lxor a b mod 2 ^ n).
  { apply Z.bits_inj'. intros i Hi. destruct (Z.lt_ge_cases i n).
    - by rewrite Z.mod_pow2_bits_low.
    - rewrite Z.mod_pow2_bits_high, Z.lxor_spec by lia.
      rewrite <- (Z.mod_small a (2 ^ n)), <- (Z.mod_small b (2 ^ n)) by done.
      by rewrite !Z.mod_pow2_bits_high by lia. }
  rewrite E. apply Z.mod_pos_bound. lia.
Qed.

Definition is_crc (c : Z) : Prop := 0 <= c < 2 ^ 32.

Lemma crc_bit_ok s : is_crc (fst s) -> is_crc (fst (crc_bit s)).
Proof.
  destruct s as [crc byte]. unfold crc_bit, is_crc. cbn [fst]. intros Hc.
  assert (Hs : 0 <= Z.shiftr crc 1 < 2 ^ 32).
  { rewrite Z.shiftr_div_pow2 by lia. change (2 ^ 1) with 2. split; [apply Z.div_pos; lia|].
    apply Z.div_lt_upper_bound; lia. }
  destruct (negb _); cbn [fst]; [|done]. apply lxor_bound; [lia|done|lia].
Qed.

Lemma crc_byte_ok crc b : is_crc crc -> is_crc (crc_byte crc b).
Proof.
  intros Hc. unfold crc_byte. assert (H : forall n s, is_crc (fst s) -> is_crc (fst (Nat.iter n crc_bit s))).
  { induction n as [|n IH]; intros s Hs; [done|]. cbn [Nat.iter nat_rect]. by apply crc_bit_ok, IH. }
  by apply H.
Qed.

Lemma crc32c_u32 bytes : is_u32 (crc32c bytes).
Proof.
  assert (H : forall l c, is_crc c -> is_crc (fold_left crc_byte l c)).
  { induction l as [|b l IH]; intros c Hc; [done|]. cbn [fold_left]. by apply IH, crc_byte_ok. }
  assert (is_crc (crc32c bytes)) as [? ?]; [|width; lia].
  unfold crc32c. apply lxor_bound; [lia|apply H; unfold is_crc; lia|lia].
Qed.

Lemma slice_prefix (a b : list Z) : slice (a ++ b) 0 (blen a) = a.
Proof. by apply (slice_at []). Qed.

Lemma sealed_verifies idx body : verify_sealed_crc idx (seal_with_crc body) = Ok tt.
Proof.
  pose proof (blen_nonneg body). unfold verify_sealed_crc, seal_with_crc. rewrite blen_app, blen_to_be.
  change (Z.of_nat 4) with 4. destruct (Z.ltb_spec (blen body + 4) 4); [lia|]. rewrite Z.add_simpl_r.
  rewrite slice_prefix. rewrite <- (app_nil_r (to_be 4 (crc32c body))).
  rewrite (slice_at body (to_be 4 (crc32c body)) []) by (rewrite ?blen_to_be; done).
  rewrite from_to_be_u32 by apply crc32c_u32. by rewrite Z.eqb_refl.
Qed.

Lemma sealed_all_verify sealed : forall i,
  verify_sealed (files_from i (map (fun es => seal_with_crc (frames es)) sealed)) = Ok tt.
Proof. induction sealed as [|es sealed IH]; intros i; cbn; [done|]. by rewrite sealed_verifies, IH. Qed.

(** ** Opening and reading *)

(** What a crash leaves after the frames of the open file: nothing, or the beginning of a
    frame with its length whole. *)
Definition torn (tail : list Z) : Prop :=
  tail = [] \/
  exists e k, entry_fits e /\ 4 <= k < blen (frame (encode_wal_entry e)) /\
    tail = take (Z.to_nat k) (frame (encode_wal_entry e)).

Lemma torn_cut cur tail count fuel :
  torn tail ->
  exists cut, recover_loop (S fuel) (frames cur ++ tail) (blen (frames cur)) count =
    Some (count, blen (frames cur), cut) /\
    (if cut then slice (frames cur ++ tail) 0 (blen (frames cur)) else frames cur ++ tail) = frames cur.
Proof.
  intros [->|(e & k & He & Hk & ->)]; cbn [recover_loop].
  - exists false. rewrite app_nil_r. destruct (Z.leb_spec (blen (frames cur) + 4) (blen (frames cur))); [lia|done].
  - exists true. rewrite slice_prefix. split; [|done].
    pose proof (entry_length e He) as Hn. unfold MAX_ENTRY_BYTES in Hn. rewrite blen_frame in Hk.
    set (n := blen (encode_wal_entry e)) in *.
    assert (Hl : blen (take (Z.to_nat k) (frame (encode_wal_entry e))) = k).
    { unfold blen. rewrite length_take. pose proof (blen_frame e) as Hf. unfold blen in Hf. fold (blen (encode_wal_entry e)) in Hf.
      fold n in Hf. lia. }
    assert (Ht : exists rest, take (Z.to_nat k) (frame (encode_wal_entry e)) = to_be 4 n ++ rest).
    { exists (take (Z.to_nat (k - 4)) (encode_wal_entry e)). unfold frame. fold n.
      rewrite take_app, length_to_be, take_ge by (rewrite length_to_be; lia).
      unfold as_u32. rewrite Z.mod_small by lia. do 2 f_equal. lia. }
    rewrite blen_app, Hl. destruct (Z.leb_spec (blen (frames cur) + 4) (blen (frames cur) + k)); [|lia].
    destruct Ht as [rest ->]. rewrite (slice_at (frames cur) (to_be 4 n) rest) by (rewrite ?blen_to_be; done).
    rewrite from_to_be_u32 by (width; lia).
    destruct (Z.ltb_spec (blen (frames cur) + k) (blen (frames cur) + 4 + n)); [done|lia].
Qed.

Lemma recover_torn cur tail :
  Forall entry_fits cur -> torn tail ->
  recover_open_file (frames cur ++ tail) = Some (blen cur, blen (frames cur), frames cur).
Proof.
  intros Hc Ht. unfold recover_open_file.
  assert (Hf : exists m, S (length (frames cur ++ tail)) = (length cur + S m)%nat).
  { exists (length (frames cur ++ tail) - length cur)%nat. pose proof (frames_length cur) as Hl.
    unfold blen in Hl. rewrite length_app. lia. }
  destruct Hf as [m ->]. pose proof (recover_frames cur [] tail 0 (S m) Hc) as R. cbn [app] in R.
  change (blen []) with 0 in R. rewrite R, Z.add_0_l, Z.add_0_l.
  destruct (torn_cut cur tail (blen cur) m Ht) as (cut & -> & Hcut). by rewrite Hcut.
Qed.

Lemma last_contents sealed x :
  bt_last (contents sealed x) = Some (blen sealed, x) /\
  removelast (contents sealed x) = files_from 0 (map (fun es => seal_with_crc (frames es)) sealed).
Proof.
  unfold contents. rewrite files_from_app, blen_map. cbn [files_from]. split.
  - unfold bt_last. by rewrite last_snoc, Z.add_0_l.
  - by rewrite removelast_last.
Qed.

Lemma open_contents sealed cur tail :
  Forall entry_fits cur -> torn tail ->
  open (contents sealed (frames cur ++ tail)) = Ok (store_of sealed cur).
Proof.
  intros Hc Ht. unfold open. destruct (last_contents sealed (frames cur ++ tail)) as [-> ->].
  rewrite sealed_all_verify. cbn [rbind]. rewrite recover_torn by done. by rewrite contents_insert.
Qed.

Lemma read_file_body s idx es tail all :
  Forall entry_fits es ->
  (if idx =? current_file_index s then tail = [] else blen tail = 4) ->
  read_file s idx (frames es ++ tail) all = Some (Ok (all ++ es)).
Proof.
  intros Hes Ht. unfold read_file.
  assert (Hend : (if idx =? current_file_index s then blen (frames es ++ tail)
                  else saturating_sub (blen (frames es ++ tail)) 4) = blen (frames es)).
  { pose proof (blen_nonneg (frames es)). destruct (idx =? _).
    - by rewrite Ht, app_nil_r.
    - rewrite blen_app. unfold saturating_sub. lia. }
  rewrite Hend.
  assert (Hf : exists m, S (length (frames es ++ tail)) = (length es + S m)%nat).
  { exists (length (frames es ++ tail) - length es)%nat. pose proof (frames_length es) as Hl.
    unfold blen in Hl. rewrite length_app. lia. }
  destruct Hf as [m ->]. pose proof (read_frames_spec es [] tail all m Hes) as R. cbn [app] in R.
  change (blen []) with 0 in R. by rewrite Z.add_0_l in R.
Qed.

Lemma read_files_spec s cur sealed : forall i all,
  current_file_index s = i + blen sealed -> Forall (Forall entry_fits) sealed -> Forall entry_fits cur ->
  read_files s (files_from i (map (fun es => seal_with_crc (frames es)) sealed ++ [frames cur])) all =
    Some (Ok (all ++ concat sealed ++ cur)).
Proof.
  induction sealed as [|es sealed IH]; intros i all Hi Hs Hc; cbn [map app files_from read_files].
  - rewrite blen_nil, Z.add_0_r in Hi. rewrite <- (app_nil_r (frames cur)).
    rewrite read_file_body by (done || by rewrite Hi, Z.eqb_refl). by rewrite app_nil_l.
  - apply Forall_cons in Hs as [He Hs]. rewrite blen_cons in Hi. pose proof (blen_nonneg sealed).
    unfold seal_with_crc at 1. rewrite read_file_body; [|done|].
    + rewrite IH by (lia || done). cbn [concat]. by rewrite <- !app_assoc.
    + destruct (Z.eqb_spec i (current_file_index s)); [lia|]. by rewrite blen_to_be.
Qed.

Lemma read_all_store sealed cur :
  Forall (Forall entry_fits) sealed -> Forall entry_fits cur ->
  read_all (store_of sealed cur) = Some (Ok (concat sealed ++ cur)).
Proof. intros Hs Hc. unfold read_all, store_of at 2, contents. cbn [dir]. by apply (read_files_spec _ _ _ 0 []). Qed.

(** One to three bytes after the frames: too few for a length. *)
Definition stub (tail : list Z) : Prop := 1 <= blen tail <= 3.

Lemma open_stub sealed cur tail :
  Forall entry_fits cur -> stub tail ->
  open (contents sealed (frames cur ++ tail)) =
    Ok (mk_FileWalStore (contents sealed (frames cur ++ tail)) (blen sealed) (blen cur) (blen (frames cur))).
Proof.
  intros Hc Ht. unfold open. destruct (last_contents sealed (frames cur ++ tail)) as [-> ->].
  rewrite sealed_all_verify. cbn [rbind]. unfold recover_open_file.
  assert (Hf : exists m, S (length (frames cur ++ tail)) = (length cur + S m)%nat).
  { exists (length (frames cur ++ tail) - length cur)%nat. pose proof (frames_length cur) as Hl.
    unfold blen in Hl. rewrite length_app. lia. }
  destruct Hf as [m ->]. pose proof (recover_frames cur [] tail 0 (S m) Hc) as R. cbn [app] in R.
  change (blen []) with 0 in R. rewrite R, !Z.add_0_l. cbn [recover_loop]. unfold stub in Ht.
  rewrite blen_app. destruct (Z.leb_spec (blen (frames cur) + 4) (blen (frames cur) + blen tail)); [lia|].
  by rewrite contents_insert.
Qed.

Lemma read_all_stub sealed cur tail :
  Forall (Forall entry_fits) sealed -> Forall entry_fits cur -> stub tail ->
  read_all (mk_FileWalStore (contents sealed (frames cur ++ tail)) (blen sealed) (blen cur) (blen (frames cur))) =
    Some (Err (Wal_Io Io_UnexpectedEof)).
Proof.
  intros Hs Hc Ht. unfold read_all. cbn [dir]. set (s := mk_FileWalStore _ _ _ _).
  assert (H : forall sealed' i all, blen sealed = i + blen sealed' -> Forall (Forall entry_fits) sealed' ->
    read_files s (files_from i (map (fun es => seal_with_crc (frames es)) sealed' ++ [frames cur ++ tail])) all =
      Some (Err (Wal_Io Io_UnexpectedEof))); [|by apply (H sealed 0 [])].
  induction sealed' as [|es l IH]; intros i all Hi Hl; cbn [map app files_from read_files].
  - rewrite blen_nil, Z.add_0_r in Hi. unfold read_file. subst s. cbn [current_file_index]. rewrite Hi, Z.eqb_refl.
    assert (Hf : exists m, S (length (frames cur ++ tail)) = (length cur + S m)%nat).
    { exists (length (frames cur ++ tail) - length cur)%nat. pose proof (frames_length cur) as Hlen.
      unfold blen in Hlen. rewrite length_app. lia. }
    unfold stub in Ht. destruct Hf as [m ->]. rewrite blen_app.
    pose proof (read_frames_walk cur [] tail all (S m) (blen (frames cur) + blen tail) Hc) as R. cbn [app] in R.
    change (blen []) with 0 in R. rewrite R, Z.add_0_l by lia. cbn [read_frames]. rewrite blen_app.
    destruct (Z.ltb_spec (blen (frames cur)) (blen (frames cur) + blen tail)); [|lia].
    by destruct (Z.ltb_spec (blen (frames cur) + blen tail) (blen (frames cur) + 4)); [|lia].
  - apply Forall_cons in Hl as [He Hl]. rewrite blen_cons in Hi. pose proof (blen_nonneg l).
    unfold seal_with_crc at 1. rewrite read_file_body; [by apply IH; [lia|]|done|].
    subst s. cbn [current_file_index]. destruct (Z.eqb_spec i (blen sealed)); [lia|]. by rewrite blen_to_be.
Qed.

Lemma recover_open_file_total bytes : bytes_ok bytes -> recover_open_file bytes <> None.
Proof.
  intros Hb. unfold recover_open_file.
  assert (H : forall fuel pos count, 0 <= pos <= blen bytes -> blen bytes - pos < Z.of_nat fuel ->
    recover_loop fuel bytes pos count <> None).
  { induction fuel as [|fuel IH]; intros pos count Hp Hl; cbn [recover_loop].
    - cbn in Hl. lia.
    - destruct (Z.leb_spec (pos + 4) (blen bytes)); [|done].
      pose proof (from_be_bound (slice bytes pos (pos + 4)) (slice_ok _ _ _ Hb)).
      destruct (Z.ltb_spec (blen bytes) (pos + 4 + from_be (slice bytes pos (pos + 4)))); [done|].
      apply IH; lia. }
  specialize (H (S (length bytes)) 0 0 ltac:(unfold blen; lia) ltac:(unfold blen; lia)).
  by destruct (recover_loop _ _ _ _) as [[[count pos] cut]|].
Qed.

(** * Appends and crashes *)

(** An append that returns, or one that a crash cuts off after [written] bytes of its frame
    (all of it, when [written] is more); the store is opened again. *)
Inductive WalOp : Type := Append (entry : WalEntry) | Crash (entry : WalEntry) (written : Z).

Fixpoint wal_run (s : FileWalStore) (ops : list WalOp) : result FileWalStore WalError :=
  match ops with
  | [] => Ok s
  | Append e :: ops => wal_run (append s e) ops
  | Crash e written :: ops =>
      let? s := open (dir (write_all (make_room s e) (take (Z.to_nat written) (frame (encode_wal_entry e))))) in
      wal_run s ops
  end.

(** The entries whose frame was written whole: those whose append returned, and the one of a
    crash that came after the last byte of its frame. *)
Definition log_of (ops : list WalOp) : list WalEntry :=
  omap (fun op =>
    match op with
    | Append e => Some e
    | Crash e written => if blen (frame (encode_wal_entry e)) <=? written then Some e else None
    end) ops.

(** A crash before the frame, or after its length. *)
Definition op_fits (op : WalOp) : Prop :=
  match op with
  | Append e => entry_fits e
  | Crash e written => entry_fits e /\ (written = 0 \/ 4 <= written)
  end.

Lemma roomy_fits sealed cur e :
  Forall (Forall entry_fits) sealed -> Forall entry_fits cur ->
  let '(s, c) := roomy sealed cur e in
  Forall (Forall entry_fits) s /\ Forall entry_fits c /\ concat s ++ c = concat sealed ++ cur /\
  blen s <= blen sealed + 1.
Proof.
  intros Hs Hc. unfold roomy. destruct (_ || _); [|split_and!; [done..|lia]].
  split_and!; [|constructor| |by rewrite blen_app].
  - apply Forall_app. split; [done|]. by repeat constructor.
  - rewrite concat_app. cbn. by rewrite !app_nil_r.
Qed.

(** Opening the directory a crash left, and going on. *)
Lemma crash_store sealed cur e k :
  op_fits (Crash e k) -> Forall entry_fits cur ->
  open (contents sealed (frames cur ++ take (Z.to_nat k) (frame (encode_wal_entry e)))) =
    Ok (store_of sealed (cur ++ log_of [Crash e k])).
Proof.
  intros [He Hk] Hc. cbn [log_of omap list_omap].
  destruct (Z.leb_spec (blen (frame (encode_wal_entry e))) k) as [Hle|Hlt].
  - rewrite take_ge by (unfold blen in Hle; lia).
    replace (frames cur ++ frame (encode_wal_entry e)) with (frames (cur ++ [e]) ++ [])
      by (unfold frames; rewrite map_app, concat_app; cbn; by rewrite !app_nil_r).
    apply open_contents; [|by left]. apply Forall_app. split; [done|]. by repeat constructor.
  - rewrite app_nil_r. apply open_contents; [done|].
    destruct Hk as [->|Hk]; [by left|]. right. by exists e, k.
Qed.

Lemma wal_run_store ops : forall sealed cur,
  Forall op_fits ops -> blen sealed + blen ops <= u32_max ->
  Forall (Forall entry_fits) sealed -> Forall entry_fits cur ->
  exists sealed' cur', wal_run (store_of sealed cur) ops = Ok (store_of sealed' cur') /\
    concat sealed' ++ cur' = concat sealed ++ cur ++ log_of ops /\
    Forall (Forall entry_fits) sealed' /\ Forall entry_fits cur' /\ blen sealed' <= blen sealed + blen ops.
Proof.
  induction ops as [|op ops IH]; intros sealed cur Ho Hl Hs Hc.
  { exists sealed, cur. rewrite app_nil_r, blen_nil, Z.add_0_r. done. }
  apply Forall_cons in Ho as [Hop Ho]. rewrite blen_cons in Hl |- *. pose proof (blen_nonneg ops).
  assert (Hstep : forall s c more, Forall (Forall entry_fits) s -> Forall entry_fits c ->
    Forall entry_fits more -> concat s ++ c = concat sealed ++ cur -> blen s <= blen sealed + 1 ->
    log_of (op :: ops) = more ++ log_of ops ->
    exists sealed' cur', wal_run (store_of s (c ++ more)) ops = Ok (store_of sealed' cur') /\
      concat sealed' ++ cur' = concat sealed ++ cur ++ log_of (op :: ops) /\
      Forall (Forall entry_fits) sealed' /\ Forall entry_fits cur' /\ blen sealed' <= blen sealed + (1 + blen ops)).
  { intros s c more Hs' Hc' Hm Ec Hl' Hlog.
    destruct (IH s (c ++ more)) as (s' & c' & -> & E & Hs'' & Hc'' & Hle); [done|lia|done|by apply Forall_app|].
    exists s', c'. split_and!; [done| |done|done|lia]. by rewrite E, Hlog, !app_assoc, Ec. }
  destruct op as [e|e k]; cbn [wal_run];
    pose proof (roomy_fits sealed cur e Hs Hc) as Hr; destruct (roomy sealed cur e) as [s c] eqn:Er;
    destruct Hr as (Hs' & Hc' & Ec & Hl').
  - rewrite append_store, Er by lia. cbn [fst snd]. apply Hstep; try done. by repeat constructor.
  - rewrite make_room_store, Er by lia. cbn [fst snd]. rewrite write_store, crash_store by done. cbn [rbind].
    apply Hstep; try done; cbn [log_of omap list_omap]; destruct (_ <=? k); try done.
    repeat constructor. apply Hop.
Qed.

(** C40. What the log file keeps.  After any number of appends, rotations and crashes that cut an
    append off before its frame or anywhere after the four bytes of its length, opening the
    directory again succeeds, reading it gives back exactly the entries whose frame was
    written whole, in order, and opening changes nothing more.  The other crash inside an append is
    not survived: once one to three bytes of a length are written the log still opens but
    every reading of it fails with [UnexpectedEof].  The hypotheses: the entries fit their
    fields, there are fewer appends than a [u32] has file numbers, no write fails without
    a crash, and no crash falls into the sealing of a full file ([sealing_crash_forgets]
    says what is lost then). *)
Theorem wal_store_keeps_log (ops : list WalOp)
    (Hops : Forall op_fits ops) (Hlen : blen ops < u32_max) :
  exists s0 s, open [] = Ok s0 /\ wal_run s0 ops = Ok s /\
    read_all s = Some (Ok (log_of ops)) /\ open (dir s) = Ok s /\
    forall e written, entry_fits e -> 1 <= written <= 3 ->
      exists s', wal_run s [Crash e written] = Ok s' /\ read_all s' = Some (Err (Wal_Io Io_UnexpectedEof)).
Proof.
  destruct (wal_run_store ops [] []) as (sealed & cur & Hr & E & Hs & Hc & Hl); [done|rewrite blen_nil; lia|constructor..|].
  rewrite blen_nil in Hl. exists (store_of [] []), (store_of sealed cur). split_and!; [done|done| | |].
  - by rewrite read_all_store, E.
  - change (dir (store_of sealed cur)) with (contents sealed (frames cur)).
    rewrite <- (app_nil_r (frames cur)). apply open_contents; [done|by left].
  - intros e k He Hk. cbn [wal_run]. rewrite make_room_store by lia.
    pose proof (roomy_fits sealed cur e Hs Hc) as Hr'. destruct (roomy sealed cur e) as [s c].
    destruct Hr' as (Hs' & Hc' & _ & _). cbn [fst snd]. rewrite write_store.
    assert (Hstub : stub (take (Z.to_nat k) (frame (encode_wal_entry e)))).
    { pose proof (entry_length e He) as [Hn _]. pose proof (blen_frame e) as Hf. unfold stub, blen in *.
      rewrite length_take. lia. }
    rewrite open_stub by done. cbn [rbind]. eexists. split; [done|]. by apply read_all_stub.
Qed.

Definition sample_entry (b : Z) : WalEntry := AdmitBlock (repeat b 32) (repeat 9 32) b Valid (repeat (b + 1) 32).

Lemma sample_entry_fits b : 0 <= b <= 254 -> entry_fits (sample_entry b).
Proof.
  intros Hb. assert (H : forall x, is_u8 x -> hash_ok (repeat x 32)).
  { intros x Hx. split; [|done]. apply Forall_forall. intros y Hy. apply list_elem_of_In, repeat_spec in Hy. by subst. }
  split_and!; first [apply H | idtac]; width; lia.
Qed.

Lemma wal_store_keeps_log_witness :
  exists s0 s, open [] = Ok s0 /\ wal_run s0 [Append (sample_entry 1); Crash (sample_entry 2) 60; Append (sample_entry 2)] = Ok s /\
    read_all s = Some (Ok [sample_entry 1; sample_entry 2]) /\ open (dir s) = Ok s /\
    forall e written, entry_fits e -> 1 <= written <= 3 ->
      exists s', wal_run s [Crash e written] = Ok s' /\ read_all s' = Some (Err (Wal_Io Io_UnexpectedEof)).
Proof.
  apply (wal_store_keeps_log [Append (sample_entry 1); Crash (sample_entry 2) 60; Append (sample_entry 2)]);
    [|vm_compute; congruence].
  repeat (apply Forall_cons; split; [cbn [op_fits]|]); [by apply sample_entry_fits| |by apply sample_entry_fits|constructor].
  split; [by apply sample_entry_fits|]. right. by vm_compute.
Defined.

(** * What the store does not survive *)

(** A crash inside the length of a frame: the walk that opens the file stops before the one to
    three bytes of it but leaves them in the file, and the log can no longer be read. *)
Lemma torn_length_unreadable :
  let d := dir (write_all (store_of [] [sample_entry 1]) (take 2 (frame (encode_wal_entry (sample_entry 2))))) in
  exists s, open d = Ok s /\ read_all s = Some (Err (Wal_Io Io_UnexpectedEof)) /\
    current_byte_count s = blen (frames [sample_entry 1]) /\ dir s = d.
Proof. eexists. split; [by vm_compute|]. by vm_compute. Qed.

(** [seal_with_crc] rewrites the file it seals: a crash after the file was truncated and
    before it was written leaves no entry of it, and opening the log does not notice. *)
Lemma sealing_crash_forgets (sealed : list (list WalEntry)) (cur : list WalEntry) :
  open (contents sealed []) = Ok (store_of sealed []).
Proof. apply (open_contents sealed [] []); [constructor|by left]. Qed.
