(* ===== verification/Portable.v ===== *)
(** What a reader accepts depends only on the bytes it consumes: an item can be cut out of
    its buffer at both ends, and a reader that succeeded anywhere in a buffer reads the same
    value from just those bytes, wherever they are put. *)

From S2P Require Import Prelude Cbor CborSkip CborRoundtrip CborPrefix NetCodec Spelling Decoder.

(** * Cutting a buffer at its front *)

(** [m'] reads off [data] what [m] reads off a longer buffer that ends with it. *)
Definition cut {A} (m m' : Dec A) : Prop := forall pre data off a o, 0 <= off ->
  m (pre ++ data) (blen pre + off) = (Ok a, o) -> m' data off = (Ok a, o - blen pre).

Lemma byte_at_cut pre data off : 0 <= off -> byte_at (pre ++ data) (blen pre + off) = byte_at data off.
Proof.
  intros Ho. rewrite byte_at_app_r by (pose proof (blen_nonneg pre); lia).
  by replace (blen pre + off - blen pre) with off by lia.
Qed.

Lemma slice_cut pre data a b : 0 <= a -> slice (pre ++ data) (blen pre + a) (blen pre + b) = slice data a b.
Proof.
  intros Ha. unfold slice. replace (blen pre + b - (blen pre + a)) with (b - a) by lia.
  replace (Z.to_nat (blen pre + a)) with (length pre + Z.to_nat a)%nat by (unfold blen; lia).
  by rewrite <- drop_drop, drop_app_length.
Qed.

Lemma cut_ret {A} (a : A) : cut (dret a) (dret a).
Proof. by intros pre data off b o Ho [= <- <-]; unfold dret; replace (blen pre + off - blen pre) with off by lia. Qed.
Lemma cut_fail {A} e (m : Dec A) : cut (fail e) m.
Proof. by intros pre data off b o Ho [=]. Qed.
Lemma cut_bind {A B} (m m' : Dec A) (k k' : A -> Dec B) :
  mono m -> cut m m' -> (forall a, cut (k a) (k' a)) -> cut (dbind m k) (dbind m' k').
Proof.
  intros Hm Hc Hk pre data off b o Ho H. apply dbind_ok_inv in H as (a & o1 & Ha & Hb).
  pose proof (Hm _ _ _ _ Ha) as Hle. apply Hc in Ha; [|done].
  rewrite (dbind_step _ _ _ _ a (o1 - blen pre)) by done.
  replace o1 with (blen pre + (o1 - blen pre)) in Hb by lia. apply Hk in Hb; [done|lia].
Qed.
Lemma cut_here {B} (k k' : Z -> Dec B) : (forall s s', cut (k s) (k' s')) -> cut (dbind here k) (dbind here k').
Proof. intros Hk pre data off b o Ho H. unfold dbind, here in *. by eapply Hk. Qed.
Lemma cut_if {A} (b : bool) (m n m' n' : Dec A) : cut m m' -> cut n n' -> cut (if b then m else n) (if b then m' else n').
Proof. by destruct b. Qed.
Lemma cut_byte : cut read_byte read_byte.
Proof.
  intros pre data off b o Ho H. apply read_byte_ok in H as [H ->]. rewrite byte_at_cut in H by done.
  unfold read_byte, peek_byte. rewrite H. cbn. by replace (blen pre + off + 1 - blen pre) with (off + 1) by lia.
Qed.
Lemma cut_fixed n : cut (read_fixed n) (read_fixed n).
Proof.
  intros pre data off b o Ho H. apply read_fixed_ok in H as (-> & -> & Hle). unfold read_fixed.
  rewrite blen_app in Hle. destruct (Z.ltb_spec (blen data) (off + n)); [lia|].
  rewrite <- Z.add_assoc, slice_cut by done. by replace (blen pre + (off + n) - blen pre) with (off + n) by lia.
Qed.
Lemma cut_payload n : 0 <= n -> cut (read_payload n) (read_payload n).
Proof.
  intros Hn pre data off b o Ho H. pose proof (read_payload_ok _ _ _ _ _ H) as (-> & -> & Hle).
  unfold read_payload in *. destruct (checked_add (blen pre + off) n) as [e|] eqn:Hc; [|done].
  apply checked_add_some in Hc as [-> Hf]. rewrite blen_app in Hle. pose proof (blen_nonneg pre).
  rewrite checked_add_fits by (width; lia). destruct (Z.ltb_spec (blen data) (off + n)); [lia|].
  rewrite <- Z.add_assoc, slice_cut by done. by replace (blen pre + (off + n) - blen pre) with (off + n) by lia.
Qed.
#[export] Hint Resolve cut_ret cut_fail cut_bind cut_if cut_byte cut_fixed : local.
#[export] Hint Extern 2 (cut (let '(_, _) := ?p in _) _) => destruct p : local.

Lemma cut_argument ai s s' : cut (decode_argument ai s) (decode_argument ai s').
Proof. unfold decode_argument. auto 20 with local. Qed.
Lemma cut_simple s s' ai : cut (skip_simple s ai) (skip_simple s' ai).
Proof. unfold skip_simple. auto 20 with local. Qed.
Lemma cut_initial : cut decode_initial decode_initial.
Proof. unfold decode_initial. auto with local. Qed.
#[export] Hint Resolve cut_argument cut_simple : local.

Lemma read_head_cut pre data off h o :
  bytes_ok (pre ++ data) -> 0 <= off ->
  read_head (pre ++ data) (blen pre + off) = (Ok h, o) -> read_head data off = (Ok h, o - blen pre).
Proof.
  intros Hok Ho H. pose proof (blen_nonneg pre). unfold read_head in *.
  apply dbind_ok_inv in H as (st & o0 & [= <- <-] & H). rewrite (dbind_step here _ _ _ off off) by done.
  apply dbind_ok_inv in H as ([major ai] & o1 & Hi & H).
  pose proof (decode_initial_step _ _ _ _ Hi) as ->.
  pose proof (decode_initial_ok _ _ _ _ _ Hi) as (b & _ & _ & _ & Hai). pose proof (land_31_bound b).
  apply cut_initial in Hi; [|done]. rewrite (dbind_step _ _ _ _ _ _ Hi). cbn beta iota in *.
  replace (blen pre + off + 1) with (blen pre + (off + 1)) in * by lia.
  replace (blen pre + (off + 1) - blen pre) with (off + 1) by lia.
  assert (Hrest : forall m m' : Dec Head, cut m m' ->
            m (pre ++ data) (blen pre + (off + 1)) = (Ok h, o) -> m' data (off + 1) = (Ok h, o - blen pre))
    by (intros m m' Hm; apply Hm; lia).
  destruct (_ || _); [|destruct (_ || _)]; revert H.
  - apply Hrest. auto 20 with local.
  - destruct (_ =? _); [apply Hrest; auto with local|]. intros H.
    apply dbind_ok_inv in H as ([len w] & o2 & Ha & H). cbn beta iota in H.
    pose proof (decode_argument_ok ai _ (pre ++ data) (blen pre + (off + 1)) len w o2 Hok ltac:(lia) ltac:(lia) Ha)
      as (Hlen & ? & ?).
    assert (0 <= len) as Hlen0 by (width; lia).
    apply (cut_argument ai _ off) in Ha; [|lia]. rewrite (dbind_step _ _ _ _ _ _ Ha). cbn beta iota.
    replace o2 with (blen pre + (o2 - blen pre)) in H by lia.
    eapply (cut_bind _ _ _ _ (mono_payload len Hlen0) (cut_payload len Hlen0) (fun _ => cut_ret HLeaf)); [lia|exact H].
  - apply Hrest. auto 20 with local.
Qed.

Lemma grammar_cut pre data :
  bytes_ok (pre ++ data) ->
  (forall o o', item (pre ++ data) o o' -> blen pre <= o -> item data (o - blen pre) (o' - blen pre)) /\
  (forall h o o', contents (pre ++ data) h o o' -> blen pre <= o <= blen (pre ++ data) ->
     contents data h (o - blen pre) (o' - blen pre)) /\
  (forall n o o', items (pre ++ data) n o o' -> blen pre <= o <= blen (pre ++ data) ->
     items data n (o - blen pre) (o' - blen pre)) /\
  (forall o o', until_break (pre ++ data) o o' -> blen pre <= o <= blen (pre ++ data) ->
     until_break data (o - blen pre) (o' - blen pre)).
Proof.
  intros Hok. pose proof (blen_nonneg pre). destruct (grammar_end (pre ++ data) Hok) as (Ei & Ec & En & Eu).
  apply (grammar_ind (pre ++ data)
    (fun o o' _ => blen pre <= o -> item data (o - blen pre) (o' - blen pre))
    (fun h o o' _ => blen pre <= o <= blen (pre ++ data) -> contents data h (o - blen pre) (o' - blen pre))
    (fun n o o' _ => blen pre <= o <= blen (pre ++ data) -> items data n (o - blen pre) (o' - blen pre))
    (fun o o' _ => blen pre <= o <= blen (pre ++ data) -> until_break data (o - blen pre) (o' - blen pre)));
    try (eauto 4 with grammar; fail).
  - intros o h o1 o2 Hh Hc IH Ho. pose proof (read_head_bound (pre ++ data) o h o1 Hok ltac:(lia) Hh).
    apply (item_intro _ _ h (o1 - blen pre)); [|apply IH; lia].
    apply (read_head_cut pre); [done|lia|]. by replace (blen pre + (o - blen pre)) with o by lia.
  - intros n o o1 o2 Hn Hi IH1 Hr IH2 Ho. specialize (Ei _ _ Hi ltac:(lia)).
    apply (items_cons _ n _ (o1 - blen pre)); [done|apply IH1; lia|apply IH2; lia].
  - intros o Hb Ho. replace (o + 1 - blen pre) with (o - blen pre + 1) by lia. constructor.
    rewrite <- (byte_at_cut pre) by lia. by replace (blen pre + (o - blen pre)) with o by lia.
  - intros o b o1 o2 Hb Hn Hi IH1 Hr IH2 Ho. specialize (Ei _ _ Hi ltac:(lia)).
    apply (until_more _ _ b (o1 - blen pre)); [|done|apply IH1; lia|apply IH2; lia].
    rewrite <- (byte_at_cut pre) by lia. by replace (blen pre + (o - blen pre)) with o by lia.
Qed.

(** * Around a slice *)

Lemma around_slice data a b : 0 <= a <= b -> b <= blen data ->
  data = take (Z.to_nat a) data ++ slice data a b ++ drop (Z.to_nat b) data /\ blen (take (Z.to_nat a) data) = a.
Proof.
  intros Ha Hb. unfold slice, blen in *. split; [|rewrite length_take; lia].
  rewrite <- (take_drop (Z.to_nat a) data) at 1. f_equal.
  rewrite <- (take_drop (Z.to_nat (b - a)) (drop (Z.to_nat a) data)) at 1. f_equal.
  rewrite drop_drop. f_equal. lia.
Qed.

(** An item is an item on its own. *)
Lemma item_alone data o o' : bytes_ok data -> 0 <= o -> item data o o' -> one_item (slice data o o').
Proof.
  intros Hok Ho Hi. pose proof (item_end data o o' Hok Ho Hi).
  destruct (around_slice data o o') as [E Hl]; [lia|lia|].
  set (pre := take (Z.to_nat o) data) in *. set (mid := slice data o o') in *. set (post := drop (Z.to_nat o') data) in *.
  assert (Hm : blen mid = o' - o) by (unfold mid; rewrite blen_slice; lia).
  rewrite E in Hok, Hi. split; [by apply bytes_ok_app in Hok as [_ [? _]%bytes_ok_app]|].
  apply (proj1 (grammar_cut pre (mid ++ post) Hok)) in Hi; [|lia].
  rewrite Hl, Z.sub_diag, <- Hm in Hi. apply bytes_ok_app in Hok as [_ Hok].
  apply (item_restrict mid post); [done|lia|lia|done].
Qed.

(** * Readers that travel *)

(** What [m] read somewhere, it reads from the same bytes anywhere. *)
Definition portable {E A} (m : PDec E A) : Prop := forall data off a o,
  bytes_ok data -> 0 <= off <= blen data -> m data off = (Ok a, o) ->
  off <= o <= blen data /\ reads m (slice data off o) a.

Section Portable.
Context {E : Type}.

Lemma portable_ret {A} (a : A) : portable (pret (E := E) a).
Proof. intros data off b o _ Ho [= <- <-]. split; [lia|]. rewrite slice_nil. apply reads_pret. Qed.
Lemma portable_fail {A} (e : E) : portable (pfail (A := A) e).
Proof. by intros data off b o _ _ [=]. Qed.
Lemma portable_bind {A B} (m : PDec E A) (k : A -> PDec E B) :
  portable m -> (forall a, portable (k a)) -> portable (pbind m k).
Proof.
  intros Hm Hk data off b o Hd Ho H. unfold pbind in H.
  destruct (m data off) as [[a|e] o1] eqn:Ea; [|done].
  destruct (Hm _ _ _ _ Hd Ho Ea) as [Hb1 R1]. destruct (Hk a data o1 b o Hd ltac:(lia) H) as [Hb2 R2].
  split; [lia|]. rewrite <- (slice_join data off o1 o) by lia. by eapply reads_pbind.
Qed.
Lemma portable_plift {A} (f : CodecError -> E) (m : Dec A) : portable m -> portable (plift f m).
Proof.
  intros Hm data off a o Hd Ho. unfold plift at 1. destruct (m data off) as [[a'|e] o'] eqn:Em; [|done].
  intros [= <- <-]. destruct (Hm _ _ _ _ Hd Ho Em) as [Hb R]. split; [done|]. by apply reads_plift.
Qed.
Lemma portable_if {A} (b : bool) (m n : PDec E A) : portable m -> portable n -> portable (if b then m else n).
Proof. by destruct b. Qed.
End Portable.

Lemma portable_uint : portable read_uint.
Proof.
  intros data off [v w] o Hd Ho H. pose proof (read_uint_bound data off v w o Hd ltac:(lia) H) as [Hb _].
  split; [lia|]. destruct (read_uint_reencode data off v w o Hd ltac:(lia) H) as [Hw <-].
  apply (reads_written _ (fun buf => write_uint buf v w)).
  - intros buf. by apply write_argument_app.
  - intros buf post _. by apply read_uint_written.
Qed.

Lemma portable_bytes : portable read_bytes.
Proof.
  intros data off [s w] o Hd Ho H.
  destruct (read_bytes_reencode data off s w o Hd ltac:(lia) ltac:(lia) H) as (Hw & -> & Hb & Hle & _).
  pose proof (blen_nonneg s). split; [lia|].
  apply (reads_written _ (fun buf => write_bytes buf s w)).
  - intros buf. unfold write_bytes. rewrite (write_argument_app buf) by done. by rewrite <- app_assoc.
  - intros buf post Hl. apply read_bytes_written; [done|]. rewrite blen_app in Hl. pose proof (blen_nonneg post). lia.
Qed.

Lemma portable_array : portable read_array_header.
Proof.
  intros data off [n w|] o Hd Ho H.
  - pose proof (read_array_header_bound data off n w o Hd ltac:(lia) H) as Hb. split; [lia|].
    destruct (read_array_header_reencode data off n w o Hd ltac:(lia) H) as [Hw ->].
    apply (reads_written _ (fun buf => write_array_header buf (Definite n w))).
    + intros buf. by apply write_argument_app.
    + intros buf post _. by apply read_array_header_written.
  - unfold read_array_header in H. apply dbind_ok_inv in H as (st & o0 & [= <- <-] & H).
    apply dbind_ok_inv in H as ([major ai] & o1 & Hi & H).
    apply decode_initial_ok in Hi as (b & Hb & -> & Hm & Ha). cbn beta iota in H.
    destruct (Z.eqb_spec major MAJOR_ARRAY) as [Em|]; [|done]. cbn [negb] in H.
    destruct (Z.eqb_spec ai AI_INDEFINITE) as [Ea|]; [|by destruct (decode_argument ai off data (off + 1)) as [[[? ?]|?] ?] eqn:Er; unfold dbind in H; rewrite Er in H].
    injection H as <-. pose proof (byte_at_bound _ _ _ Hb). pose proof (byte_at_ok _ _ _ Hd Hb) as Hu.
    assert (b = 0x9f) as ->.
    { pose proof (Z.shiftr_div_pow2 b 5 ltac:(lia)) as E1. pose proof (Z.land_ones b 5 ltac:(lia)) as E2.
      change (2 ^ 5) with 32 in *. change (Z.ones 5) with 31 in *.
      pose proof (Z.div_mod b 32 ltac:(lia)). unfold MAJOR_ARRAY, AI_INDEFINITE in *. lia. }
    split; [lia|]. rewrite (slice_cons data off 0x9f) by (done || lia). rewrite slice_nil.
    exact reads_indefinite_array.
Qed.

Lemma portable_value {E} (f : CodecError -> E) : portable (read_value f).
Proof. apply portable_bind; [apply portable_plift, portable_uint|]. intros [v w]. apply portable_ret. Qed.
Lemma portable_string {E} (f : CodecError -> E) : portable (read_string f).
Proof. apply portable_bind; [apply portable_plift, portable_bytes|]. intros [v w]. apply portable_ret. Qed.
Create HintDb portable.
#[export] Hint Resolve portable_ret portable_fail portable_bind portable_plift portable_if portable_uint
  portable_bytes portable_array portable_value portable_string : portable.
