(* ===== verification/BlockCodec.v ===== *)
(** The post-Byron block codec: [ade_codec/src/shelley/block.rs], [shelley/opcert.rs], the
    hash reader of [byron/mod.rs] and the per-era chokepoints of [babbage/mod.rs] and
    [conway/mod.rs], over the types of [ade_types/src/shelley/block.rs].

    A decoder that takes [(data, &mut offset)] is a [PDec]; an encoder that pushes onto [buf]
    returns the extended buffer. *)

From S2P Require Import Prelude Cbor CborSkip CborRoundtrip CborPrefix NetCodec Spelling Decoder.
From S2P Require Import Envelope EraSchedule Header Wal.

(** * Data *)

Inductive PrevHash : Type := Prev_Genesis | Prev_Block (h : Hash32).
Definition prev_block_hash (p : PrevHash) : option Hash32 :=
  match p with Prev_Genesis => None | Prev_Block h => Some h end.

Inductive VrfData : Type :=
| Split (nonce_vrf leader_vrf : list Z)
| Combined (vrf_result : list Z).

Record ProtocolVersion : Type := mk_ProtocolVersion { pv_major : Z; pv_minor : Z }.

Record ShelleyHeaderBody : Type := mk_HeaderBody {
  hb_block_number : Z;
  hb_slot : Z;
  hb_prev_hash : PrevHash;
  hb_issuer_vkey : list Z;
  hb_vrf_vkey : list Z;
  hb_vrf : VrfData;
  hb_body_size : Z;
  hb_body_hash : Hash32;
  hb_operational_cert : OperationalCert;
  hb_protocol_version : ProtocolVersion;
}.

Record ShelleyHeader : Type := mk_ShelleyHeader { sh_body : ShelleyHeaderBody; sh_kes_signature : list Z }.

Record ShelleyBlock : Type := mk_ShelleyBlock {
  bk_header : ShelleyHeader;
  bk_tx_count : Z;
  bk_tx_bodies : list Z;
  bk_witness_sets : list Z;
  bk_metadata : list Z;
  bk_invalid_txs : option (list Z);
}.

(** [PreservedCbor<T>]: the bytes as received, and the value. *)
Record PreservedCbor (T : Type) : Type := mk_Preserved { wire_bytes : list Z; decoded : T }.
Arguments mk_Preserved {T} _ _.
Arguments wire_bytes {T} _.
Arguments decoded {T} _.

(** * Shared readers *)

(** [let (s, e) = skip_item(data, offset)?; data[s..e].to_vec()] *)
Definition raw_item : PDec CodecError (list Z) := fun data off =>
  match skip_item data off with
  | (Ok (s, e), o) => (Ok (slice data s e), o)
  | (Err e, o) => (Err e, o)
  end.

(** [Err(InvalidCborStructure { offset: *offset, detail })] *)
Definition bad_structure {A} (detail : string) : PDec CodecError A := fun _ off =>
  (Err (InvalidCborStructure off detail), off).

(** [reader(data, offset).map_err(|_| InvalidCborStructure { offset: *offset, detail })?] *)
Definition restructure {E A} (detail : string) (m : PDec E A) : PDec CodecError A := fun data off =>
  match m data off with
  | (Ok a, o) => (Ok a, o)
  | (Err _, o) => (Err (InvalidCborStructure o detail), o)
  end.

(** [for _ in 0..n { body? }] *)
Fixpoint ptimes {E A} (n : nat) (body : PDec E A) : PDec E unit :=
  match n with
  | O => pret tt
  | S n => dec! _ := body in ptimes n body
  end.

Definition read_u64v : PDec CodecError Z := read_value id.
Definition read_bytesv : PDec CodecError (list Z) := read_string id.

(** [byron::read_hash32] *)
Definition read_hash32 : PDec CodecError Hash32 :=
  dec! bytes := read_bytesv in
  if negb (blen bytes =? 32)
  then fun _ off => (Err (InvalidLength (off - blen bytes) "expected 32-byte hash"), off)
  else pret bytes.

(** * Operational certificates ([shelley/opcert.rs]) *)

Definition HOT_VKEY_LEN : Z := 32.
Definition SIGMA_LEN : Z := 64.

Inductive OpCertCodecError : Type :=
| BadArrayHeader (expected found : Z)
| BadFieldType (field detail : string)
| WrongHotVkeyLength (found expected : Z)
| WrongSigmaLength (found expected : Z)
| SequenceNumberOverflow
| KesPeriodOverflow
| OpCert_TrailingBytes (remaining : Z).

Definition write_opcert_fields_into (buf : list Z) (o : OperationalCert) : list Z :=
  let buf := write_bytes_canonical buf (oc_hot_vkey o) in
  let buf := write_uint_canonical buf (oc_sequence_number o) in
  let buf := write_uint_canonical buf (oc_kes_period o) in
  write_bytes_canonical buf (oc_sigma o).

Definition encode_opcert (o : OperationalCert) : list Z :=
  write_opcert_fields_into (write_array_header [] (Definite 4 Inline)) o.

Definition read_opcert_fields_from : PDec OpCertCodecError OperationalCert :=
  dec! hot_vkey := read_string (fun _ => BadFieldType "hot_vkey" "expected CBOR byte string") in
  if negb (blen hot_vkey =? HOT_VKEY_LEN) then pfail (WrongHotVkeyLength (blen hot_vkey) HOT_VKEY_LEN) else
  dec! sequence_number := read_value (fun _ => BadFieldType "sequence_number" "expected CBOR unsigned integer") in
  dec! kes_period := read_value (fun _ => BadFieldType "kes_period" "expected CBOR unsigned integer") in
  dec! sigma := read_string (fun _ => BadFieldType "sigma" "expected CBOR byte string") in
  if negb (blen sigma =? SIGMA_LEN) then pfail (WrongSigmaLength (blen sigma) SIGMA_LEN) else
  pret (mk_OperationalCert hot_vkey sequence_number kes_period sigma).

Definition decode_opcert (bytes : list Z) : result OperationalCert OpCertCodecError :=
  let found := default 0 (head bytes) in
  match read_array_header bytes 0 with
  | (Ok (Definite 4 Inline), off) =>
      match read_opcert_fields_from bytes off with
      | (Ok o, off) =>
          if negb (off =? blen bytes) then Err (OpCert_TrailingBytes (blen bytes - off)) else Ok o
      | (Err e, _) => Err e
      end
  | _ => Err (BadArrayHeader 0x84 found)
  end.

(** * Header and block ([shelley/block.rs]) *)

Definition decode_prev_hash : PDec CodecError PrevHash := fun data off =>
  if bool_decide (byte_at data off = Some 0xf6) then (Ok Prev_Genesis, off + 1)
  else (dec! h := read_hash32 in pret (Prev_Block h)) data off.

Definition decode_vrf (hdr_len : Z) : PDec CodecError VrfData :=
  if hdr_len =? 15 then
    dec! nonce_vrf := raw_item in
    dec! leader_vrf := raw_item in
    pret (Split nonce_vrf leader_vrf)
  else
    dec! vrf_result := raw_item in
    pret (Combined vrf_result).

Definition decode_operational_cert (hdr_len : Z) : PDec CodecError OperationalCert :=
  if hdr_len =? 15 then restructure "operational cert fields (inline)" read_opcert_fields_from
  else
    dec! enc := plift id read_array_header in
    match enc with
    | Definite 4 _ => restructure "operational cert fields (nested)" read_opcert_fields_from
    | _ => bad_structure "operational cert must be array(4)"
    end.

Definition read_version : PDec CodecError ProtocolVersion :=
  dec! major := read_u64v in
  dec! minor := read_u64v in
  pret (mk_ProtocolVersion major minor).

Definition decode_protocol_version (hdr_len : Z) : PDec CodecError ProtocolVersion :=
  if hdr_len =? 15 then read_version
  else
    dec! enc := plift id read_array_header in
    match enc with
    | Definite 2 _ => read_version
    | _ => bad_structure "protocol version must be array(2)"
    end.

Definition decode_header_fields (hdr_len : Z) : PDec CodecError ShelleyHeaderBody :=
  dec! block_number := read_u64v in
  dec! slot := read_u64v in
  dec! prev_hash := decode_prev_hash in
  dec! issuer_vkey := read_bytesv in
  dec! vrf_vkey := read_bytesv in
  dec! vrf := decode_vrf hdr_len in
  dec! body_size := read_u64v in
  dec! body_hash := read_hash32 in
  dec! operational_cert := decode_operational_cert hdr_len in
  dec! protocol_version := decode_protocol_version hdr_len in
  pret (mk_HeaderBody block_number slot prev_hash issuer_vkey vrf_vkey vrf body_size body_hash
          operational_cert protocol_version).

Definition decode_header_body : PDec CodecError ShelleyHeaderBody :=
  dec! enc := plift id read_array_header in
  match enc with
  | Definite n _ =>
      if (n =? 15) || (n =? 10) then decode_header_fields n
      else bad_structure "header body must be array(15) or array(10)"
  | Indefinite => bad_structure "header body must be array(15) or array(10)"
  end.

Definition decode_header : PDec CodecError ShelleyHeader :=
  dec! enc := plift id read_array_header in
  match enc with
  | Definite 2 _ =>
      dec! body := decode_header_body in
      dec! kes_signature := raw_item in
      pret (mk_ShelleyHeader body kes_signature)
  | _ => bad_structure "header must be array(2)"
  end.

(** [while !is_break(data, *offset)?], and the [*offset += 1] after the loop. *)
Definition tx_head : PDec CodecError bool := fun data off =>
  match is_break data off with
  | Ok true => (Ok true, off + 1)
  | Ok false => (Ok false, off)
  | Err e => (Err e, off)
  end.

(** The number of transactions; the bytes of each are passed over. *)
Definition decode_tx_items : PDec CodecError Z :=
  dec! enc := plift id read_array_header in
  match enc with
  | Definite n _ => dec! _ := ptimes (Z.to_nat n) raw_item in pret n
  | Indefinite => dec! items := nwhile tx_head raw_item in pret (blen items)
  end.

(** The transaction bodies with their array head, as one slice from [tx_start]. *)
Definition decode_tx_bodies : PDec CodecError (Z * list Z) := fun data tx_start =>
  match decode_tx_items data tx_start with
  | (Ok count, off) => (Ok (count, slice data tx_start off), off)
  | (Err e, off) => (Err e, off)
  end.

Definition decode_body (header : ShelleyHeader) (block_len : Z) : PDec CodecError ShelleyBlock :=
  dec! (tx_count, tx_bodies) := decode_tx_bodies in
  dec! witness_sets := raw_item in
  dec! metadata := raw_item in
  if block_len =? 5 then
    dec! it := raw_item in
    pret (mk_ShelleyBlock header tx_count tx_bodies witness_sets metadata (Some it))
  else pret (mk_ShelleyBlock header tx_count tx_bodies witness_sets metadata None).

Definition decode_shelley_block_inner : PDec CodecError ShelleyBlock :=
  dec! enc := plift id read_array_header in
  match enc with
  | Definite n _ =>
      if (n =? 4) || (n =? 5) then
        dec! header := decode_header in
        decode_body header n
      else bad_structure "post-Byron block must be array(4) or array(5)"
  | Indefinite => bad_structure "post-Byron block must be array(4) or array(5)"
  end.

(** [decode_babbage_block] and [decode_conway_block] are the same function of two names. *)
Definition decode_whole_block (data : list Z) : result (PreservedCbor ShelleyBlock) CodecError :=
  match decode_shelley_block_inner data 0 with
  | (Ok b, off) =>
      if negb (off =? blen data) then Err (TrailingBytes off (blen data)) else Ok (mk_Preserved data b)
  | (Err e, _) => Err e
  end.
Definition decode_babbage_block (data : list Z) : result (PreservedCbor ShelleyBlock) CodecError := decode_whole_block data.
Definition decode_conway_block (data : list Z) : result (PreservedCbor ShelleyBlock) CodecError := decode_whole_block data.

(** * Encoders *)

Definition is_split (v : VrfData) : bool := match v with Split _ _ => true | Combined _ => false end.

Definition encode_header_body (buf : list Z) (h : ShelleyHeaderBody) : list Z :=
  let split := is_split (hb_vrf h) in
  let buf := write_array_header buf (Definite (if split then 15 else 10) Inline) in
  let buf := write_uint_canonical buf (hb_block_number h) in
  let buf := write_uint_canonical buf (hb_slot h) in
  let buf := match hb_prev_hash h with
             | Prev_Genesis => buf ++ [0xf6]
             | Prev_Block hash => write_bytes_canonical buf hash
             end in
  let buf := write_bytes_canonical buf (hb_issuer_vkey h) in
  let buf := write_bytes_canonical buf (hb_vrf_vkey h) in
  let buf := match hb_vrf h with
             | Split nonce_vrf leader_vrf => (buf ++ nonce_vrf) ++ leader_vrf
             | Combined vrf_result => buf ++ vrf_result
             end in
  let buf := write_uint_canonical buf (hb_body_size h) in
  let buf := write_bytes_canonical buf (hb_body_hash h) in
  let buf := if split then buf else write_array_header buf (Definite 4 Inline) in
  let buf := write_opcert_fields_into buf (hb_operational_cert h) in
  let buf := if split then buf else write_array_header buf (Definite 2 Inline) in
  let buf := write_uint_canonical buf (pv_major (hb_protocol_version h)) in
  write_uint_canonical buf (pv_minor (hb_protocol_version h)).

Definition encode_header (buf : list Z) (h : ShelleyHeader) : list Z :=
  encode_header_body (write_array_header buf (Definite 2 Inline)) (sh_body h) ++ sh_kes_signature h.

Definition encode_block (buf : list Z) (b : ShelleyBlock) : list Z :=
  let block_len := match bk_invalid_txs b with Some _ => 5 | None => 4 end in
  let buf := write_array_header buf (Definite block_len Inline) in
  let buf := encode_header buf (bk_header b) in
  let buf := buf ++ bk_tx_bodies b in
  let buf := buf ++ bk_witness_sets b in
  let buf := buf ++ bk_metadata b in
  match bk_invalid_txs b with Some it => buf ++ it | None => buf end.
