(* ===== verification/BlockFacts.v ===== *)
(** The block codec against its encoders, and what a decoded block says about its bytes. *)

From S2P Require Import Prelude Cbor CborSkip CborRoundtrip CborPrefix NetCodec Spelling Decoder.
From S2P Require Import Envelope EraSchedule Header Wal BlockCodec.

(** * Blocks the encoders are for *)

Definition opcert_fits (o : OperationalCert) : Prop :=
  bytes_ok (oc_hot_vkey o) /\ blen (oc_hot_vkey o) = HOT_VKEY_LEN /\ is_u64 (oc_sequence_number o) /\
  is_u64 (oc_kes_period o) /\ bytes_ok (oc_sigma o) /\ blen (oc_sigma o) = SIGMA_LEN.

Definition bytes_fit (s : list Z) : Prop := bytes_ok s /\ is_u64 (blen s).

Definition vrf_fits (v : VrfData) : Prop :=
  match v with Split n l => one_item n /\ one_item l | Combined r => one_item r end.

Definition header_body_fits (h : ShelleyHeaderBody) : Prop :=
  (is_u64 (hb_block_number h) /\ is_u64 (hb_slot h) /\
   match hb_prev_hash h with Prev_Genesis => True | Prev_Block p => hash_ok p end) /\
  (bytes_fit (hb_issuer_vkey h) /\ bytes_fit (hb_vrf_vkey h) /\ vrf_fits (hb_vrf h)) /\
  (is_u64 (hb_body_size h) /\ hash_ok (hb_body_hash h)) /\
  opcert_fits (hb_operational_cert h) /\
  is_u64 (pv_major (hb_protocol_version h)) /\ is_u64 (pv_minor (hb_protocol_version h)).

(** An array of [n] items, its head in any of the forms CBOR has. *)
Definition tx_sequence (n : Z) (bytes : list Z) : Prop := exists l : list (list Z),
  Forall one_item l /\ n = blen l /\
  ((exists w, width_fits n w /\ bytes = write_array_header [] (Definite n w) ++ concat l) \/
   bytes = indefinite_head ++ concat l ++ [BREAK_BYTE]).

Definition block_fits (b : ShelleyBlock) : Prop :=
  header_body_fits (sh_body (bk_header b)) /\ one_item (sh_kes_signature (bk_header b)) /\
  (tx_sequence (bk_tx_count b) (bk_tx_bodies b) /\ is_u64 (bk_tx_count b)) /\
  one_item (bk_witness_sets b) /\ one_item (bk_metadata b) /\
  match bk_invalid_txs b with Some it => one_item it | None => True end.

(** * The bytes the encoders write *)

Definition opcert_bytes (o : OperationalCert) : list Z :=
  string_bytes (oc_hot_vkey o) ++ uint_bytes (oc_sequence_number o) ++ uint_bytes (oc_kes_period o) ++
  string_bytes (oc_sigma o).
Definition prev_bytes (p : PrevHash) : list Z :=
  match p with Prev_Genesis => [0xf6] | Prev_Block h => string_bytes h end.
Definition vrf_bytes (v : VrfData) : list Z :=
  match v with Split n l => n ++ l | Combined r => r end.
Definition version_bytes (v : ProtocolVersion) : list Z := uint_bytes (pv_major v) ++ uint_bytes (pv_minor v).
Definition nested (split : bool) (n : Z) : list Z := if split then [] else argument_bytes MAJOR_ARRAY n.

Definition header_body_bytes_of (h : ShelleyHeaderBody) : list Z :=
  let split := is_split (hb_vrf h) in
  argument_bytes MAJOR_ARRAY (if split then 15 else 10) ++
  uint_bytes (hb_block_number h) ++ uint_bytes (hb_slot h) ++ prev_bytes (hb_prev_hash h) ++
  string_bytes (hb_issuer_vkey h) ++ string_bytes (hb_vrf_vkey h) ++ vrf_bytes (hb_vrf h) ++
  uint_bytes (hb_body_size h) ++ string_bytes (hb_body_hash h) ++
  (nested split 4 ++ opcert_bytes (hb_operational_cert h)) ++
  (nested split 2 ++ version_bytes (hb_protocol_version h)).
Definition header_bytes_of (h : ShelleyHeader) : list Z :=
  argument_bytes MAJOR_ARRAY 2 ++ header_body_bytes_of (sh_body h) ++ sh_kes_signature h.
Definition block_bytes_of (b : ShelleyBlock) : list Z :=
  argument_bytes MAJOR_ARRAY (match bk_invalid_txs b with Some _ => 5 | None => 4 end) ++
  header_bytes_of (bk_header b) ++ bk_tx_bodies b ++ bk_witness_sets b ++ bk_metadata b ++
  default [] (bk_invalid_txs b).

Lemma write_small_array buf n : 0 <= n <= 23 -> write_array_header buf (Definite n Inline) = buf ++ argument_bytes MAJOR_ARRAY n.
Proof.
  intros Hn. rewrite <- write_array_app by (width; lia).
  assert (canonical_width n = Inline) as -> by (unfold canonical_width; bcase; [done|lia]). done.
Qed.

Lemma write_opcert_bytes buf o :
  opcert_fits o -> write_opcert_fields_into buf o = buf ++ opcert_bytes o.
Proof.
  intros (_ & Hh & Hs & Hp & _ & Hg). unfold write_opcert_fields_into, opcert_bytes.
  rewrite (write_bytes_app _ (oc_sigma o)) by (rewrite Hg; small). rewrite !write_uint_app by done.
  rewrite write_bytes_app by (rewrite Hh; small). by rewrite <- !app_assoc.
Qed.

Lemma encode_header_body_bytes buf h :
  header_body_fits h -> encode_header_body buf h = buf ++ header_body_bytes_of h.
Proof.
  intros ((Hn & Hs & Hp) & ((_ & Hi) & (_ & Hv) & Hvrf) & (Hb & Hh) & Ho & Hma & Hmi).
  unfold encode_header_body, header_body_bytes_of, version_bytes.
  rewrite write_small_array by (destruct (is_split _); lia).
  assert (Hprev : forall b, match hb_prev_hash h with
            | Prev_Genesis => b ++ [0xf6] | Prev_Block hash => write_bytes_canonical b hash end =
            b ++ prev_bytes (hb_prev_hash h)).
  { intros b. destruct (hb_prev_hash h); [done|]. by rewrite write_bytes_app by eauto with wire. }
  rewrite Hprev.
  destruct (hb_vrf h) as [nv lv|r]; cbn [is_split vrf_bytes nested];
    rewrite ?(write_small_array _ 4), ?(write_small_array _ 2) by lia;
    rewrite write_opcert_bytes by done; rewrite !write_uint_app by done;
    rewrite !write_bytes_app by eauto with wire; by rewrite <- ?app_assoc.
Qed.

Lemma encode_block_bytes b : block_fits b -> encode_block [] b = block_bytes_of b.
Proof.
  intros (Hb & _). unfold encode_block, encode_header, block_bytes_of, header_bytes_of.
  rewrite (write_small_array _ 2) by lia.
  rewrite write_small_array by (destruct (bk_invalid_txs b); lia). rewrite encode_header_body_bytes by done.
  destruct (bk_invalid_txs b); cbn [default]; rewrite <- ?app_assoc; cbn [app]; by rewrite ?app_nil_r.
Qed.

(** * Reading them back *)

Lemma reads_item bytes : one_item bytes -> reads raw_item bytes bytes.
Proof.
  intros [Hok Hi] pre post Hall Hl. unfold raw_item.
  apply (item_extend pre bytes post) in Hi; [|done..]. rewrite Z.add_0_r in Hi.
  rewrite (item_skip _ _ _ Hall (blen_nonneg pre) Hi). by rewrite slice_app.
Qed.
#[export] Hint Resolve reads_item : wire.

Lemma reads_restructure {E A} detail (m : PDec E A) bytes a :
  reads m bytes a -> reads (restructure detail m) bytes a.
Proof. intros Hm pre post Hok Hl. unfold restructure. by rewrite Hm. Qed.

Lemma reads_header_array n : is_u64 n ->
  reads (plift (E := CodecError) id read_array_header) (argument_bytes MAJOR_ARRAY n) (Definite n (canonical_width n)).
Proof. intros Hn. by apply reads_plift, reads_array_header. Qed.
#[export] Hint Resolve reads_header_array : wire.

Lemma reads_block_hash h : hash_ok h -> reads read_hash32 (string_bytes h) h.
Proof.
  intros Hh. unfold read_hash32, read_bytesv. eapply reads_pend; [eauto with wire|].
  destruct Hh as [_ ->]. apply reads_pret.
Qed.
#[export] Hint Resolve reads_block_hash : wire.

Lemma reads_opcert o : opcert_fits o -> reads read_opcert_fields_from (opcert_bytes o) o.
Proof.
  intros (_ & Hh & Hs & Hp & _ & Hg). unfold read_opcert_fields_from, opcert_bytes.
  assert (is_u64 (blen (oc_hot_vkey o))) by (rewrite Hh; small).
  assert (is_u64 (blen (oc_sigma o))) by (rewrite Hg; small).
  eapply reads_pbind; [eauto with wire|]. rewrite Hh, Z.eqb_refl. cbn [negb].
  do 2 (eapply reads_pbind; [eauto with wire|]; cbn beta).
  eapply reads_pend; [eauto with wire|]. rewrite Hg, Z.eqb_refl. cbn [negb]. destruct o. apply reads_pret.
Qed.

Lemma reads_prev p : match p with Prev_Genesis => True | Prev_Block h => hash_ok h end ->
  reads decode_prev_hash (prev_bytes p) p.
Proof.
  intros Hp. destruct p as [|h]; cbn [prev_bytes]; intros pre post Hok Hl; unfold decode_prev_hash.
  - cbn [app]. by rewrite (byte_at_here pre 0xf6 post).
  - assert (Hb : byte_at (pre ++ string_bytes h ++ post) (blen pre) <> Some 0xf6).
    { unfold string_bytes, argument_bytes. cbn [app]. rewrite byte_at_here.
      destruct Hp as [_ ->]. by vm_compute. }
    rewrite bool_decide_eq_false_2 by done.
    assert (R : reads (dec! h := read_hash32 in pret (Prev_Block h)) (string_bytes h) (Prev_Block h))
      by (eapply reads_pend; [by apply reads_block_hash|apply reads_pret]).
    by apply R.
Qed.

Lemma reads_protocol_version v : is_u64 (pv_major v) -> is_u64 (pv_minor v) -> reads read_version (version_bytes v) v.
Proof. intros Ha Hi. unfold read_version, read_u64v, version_bytes. decoding. destruct v. apply reads_pret. Qed.
#[export] Hint Resolve reads_opcert reads_prev reads_protocol_version reads_restructure : wire.

Lemma reads_header_body h : header_body_fits h -> reads decode_header_body (header_body_bytes_of h) h.
Proof.
  intros ((Hn & Hs & Hp) & ((_ & Hi) & (_ & Hv) & Hvrf) & (Hb & Hh) & Ho & Hma & Hmi).
  unfold decode_header_body, header_body_bytes_of.
  eapply reads_pbind; [apply reads_header_array; destruct (is_split _); small|]. cbn beta iota.
  assert (E : ((if is_split (hb_vrf h) then 15 else 10) =? 15) || ((if is_split (hb_vrf h) then 15 else 10) =? 10) = true)
    by by destruct (is_split _).
  rewrite E. unfold decode_header_fields, read_u64v, read_bytesv.
  do 5 (eapply reads_pbind; [solve [eauto with wire]|]; cbn beta).
  eapply reads_pbind.
  { unfold decode_vrf. instantiate (1 := hb_vrf h).
    destruct (hb_vrf h); cbn [is_split vrf_bytes vrf_fits] in *; cbn [Z.eqb Pos.eqb]; destruct_and?; decoding. }
  do 2 (eapply reads_pbind; [solve [eauto with wire]|]; cbn beta).
  eapply reads_pbind.
  { unfold decode_operational_cert, nested. instantiate (1 := hb_operational_cert h).
    destruct (is_split _); cbn [Z.eqb Pos.eqb app]; [by apply reads_restructure, reads_opcert|].
    eapply reads_pbind; [apply reads_header_array; small|]. cbn beta iota. by apply reads_restructure, reads_opcert. }
  eapply reads_pend.
  { unfold decode_protocol_version, nested. instantiate (1 := hb_protocol_version h).
    destruct (is_split _); cbn [Z.eqb Pos.eqb app]; [by apply reads_protocol_version|].
    eapply reads_pbind; [apply reads_header_array; small|]. cbn beta iota. by apply reads_protocol_version. }
  destruct h. apply reads_pret.
Qed.

Lemma reads_header h : header_body_fits (sh_body h) -> one_item (sh_kes_signature h) ->
  reads decode_header (header_bytes_of h) h.
Proof.
  intros Hb Hk. unfold decode_header, header_bytes_of.
  eapply reads_pbind; [apply reads_header_array; small|]. cbn beta iota.
  eapply reads_pbind; [by apply reads_header_body|].
  eapply reads_pend; [by apply reads_item|]. destruct h. apply reads_pret.
Qed.

Lemma reads_times l : Forall one_item l -> reads (ptimes (length l) raw_item) (concat l) tt.
Proof.
  induction 1 as [|x l Hx _ IH]; [apply reads_pret|]. cbn [ptimes length concat].
  eapply reads_pbind; [by apply reads_item|exact IH].
Qed.

Lemma tx_head_breaks : break_head tx_head.
Proof. intros data off b Hb. unfold tx_head, is_break, peek_byte. rewrite Hb. cbn. by destruct (b =? BREAK_BYTE). Qed.

Lemma reads_tx_items n bytes : tx_sequence n bytes -> is_u64 n -> reads decode_tx_items bytes n.
Proof.
  intros (l & Hl & -> & [(w & Hw & ->) | ->]) Hn; unfold decode_tx_items.
  - eapply reads_pbind.
    + apply reads_plift, (reads_written _ (fun buf => write_array_header buf (Definite (blen l) w))).
      * intros buf. by apply write_argument_app.
      * intros buf post _. by apply read_array_header_written.
    + cbn beta iota. unfold blen. rewrite Nat2Z.id. eapply reads_pend; [by apply reads_times|apply reads_pret].
  - eapply reads_pbind; [apply reads_plift, reads_indefinite_array|]. cbn beta iota.
    eapply reads_pend; [|apply reads_pret]. rewrite <- (map_id l) at 1.
    apply (reads_nwhile tx_head raw_item (fun x => x)); [exact tx_head_breaks|].
    eapply Forall_impl; [exact Hl|]. intros x Hx. split; [by apply reads_item|by apply spells_one_item].
Qed.

Lemma reads_tx_bodies n bytes : tx_sequence n bytes -> is_u64 n -> reads decode_tx_bodies bytes (n, bytes).
Proof.
  intros Hs Hn pre post Hok Hl. unfold decode_tx_bodies.
  rewrite (reads_tx_items n bytes) by done. by rewrite slice_app.
Qed.

Lemma reads_block b : block_fits b ->
  reads decode_shelley_block_inner (block_bytes_of b) b.
Proof.
  intros (Hh & Hk & (Ht & Hn) & Hw & Hm & Hi). unfold decode_shelley_block_inner, block_bytes_of.
  eapply reads_pbind; [apply reads_header_array; destruct (bk_invalid_txs b); small|]. cbn beta iota.
  assert (E : (match bk_invalid_txs b with Some _ => 5 | None => 4 end =? 4) ||
              (match bk_invalid_txs b with Some _ => 5 | None => 4 end =? 5) = true) by by destruct (bk_invalid_txs b).
  rewrite E. eapply reads_pbind; [by apply reads_header|]. unfold decode_body.
  eapply reads_pbind; [by apply reads_tx_bodies|]. cbn beta iota.
  eapply reads_pbind; [by apply reads_item|].
  destruct b as [h n t w m [it|]]; cbn [bk_invalid_txs bk_witness_sets bk_metadata default Z.eqb Pos.eqb] in *.
  - eapply reads_pbind; [by apply reads_item|]. eapply reads_pend; [by apply reads_item|apply reads_pret].
  - rewrite app_nil_r. eapply reads_pend; [by apply reads_item|apply reads_pret].
Qed.

(** * The round trip *)

Lemma string_bytes_ok s : bytes_fit s -> bytes_ok (string_bytes s).
Proof. intros [Hok Hl]. apply bytes_ok_app. split; [by apply argument_bytes_ok|done]. Qed.
Lemma uint_bytes_ok v : is_u64 v -> bytes_ok (uint_bytes v).
Proof. intros Hv. by apply argument_bytes_ok. Qed.
Lemma array_bytes_ok n : is_u64 n -> bytes_ok (argument_bytes MAJOR_ARRAY n).
Proof. intros Hv. by apply argument_bytes_ok. Qed.
Lemma item_bytes_ok b : one_item b -> bytes_ok b.
Proof. by intros [? _]. Qed.
Lemma hash_fits h : hash_ok h -> bytes_fit h.
Proof. intros Hh. split; [apply Hh|by apply hash_length]. Qed.
Lemma opcert_key_fits o : opcert_fits o -> bytes_fit (oc_hot_vkey o) /\ bytes_fit (oc_sigma o).
Proof. intros (? & Hh & _ & _ & ? & Hg). split; (split; [done|]); rewrite ?Hh, ?Hg; small. Qed.
#[export] Hint Resolve string_bytes_ok uint_bytes_ok array_bytes_ok item_bytes_ok hash_fits : wire.

(** [octets] shows that a concatenation of encoded fields is made of bytes. *)
Ltac octets := repeat first [solve [eauto with wire | by constructor] | apply bytes_ok_app; split].

Lemma opcert_bytes_ok o : opcert_fits o -> bytes_ok (opcert_bytes o).
Proof. intros H. destruct (opcert_key_fits o H). destruct H as (_ & _ & ? & ? & _). unfold opcert_bytes. octets. Qed.

Lemma header_body_bytes_ok h : header_body_fits h -> bytes_ok (header_body_bytes_of h).
Proof.
  intros ((Hn & Hs & Hp) & (Hi & Hv & Hvrf) & (Hb & Hh) & Ho & Hma & Hmi).
  pose proof (opcert_bytes_ok _ Ho). unfold header_body_bytes_of, version_bytes, nested. octets.
  - destruct (is_split _); octets.
  - destruct (hb_prev_hash h); cbn [prev_bytes]; [repeat constructor; vm_compute; congruence|octets].
  - destruct (hb_vrf h); cbn [vrf_bytes vrf_fits] in *; destruct_and?; octets.
  - destruct (is_split _); octets.
  - destruct (is_split _); octets.
Qed.

Lemma tx_bytes_ok n bytes : tx_sequence n bytes -> bytes_ok bytes.
Proof.
  intros (l & Hl & -> & Hb).
  assert (Hc : bytes_ok (concat l)).
  { apply Forall_concat. eapply Forall_impl; [exact Hl|]. by intros x [? _]. }
  destruct Hb as [(w & Hw & ->) | ->]; octets.
  unfold write_array_header. rewrite write_argument_bytes by done. constructor; [|apply to_be_ok].
  apply initial_byte_ok; [by unfold MAJOR_ARRAY|by apply width_ai_bound].
Qed.

Lemma block_bytes_ok b : block_fits b -> bytes_ok (block_bytes_of b).
Proof.
  intros (Hh & Hk & (Ht & _) & Hw & Hm & Hi). unfold block_bytes_of, header_bytes_of.
  pose proof (header_body_bytes_ok _ Hh). pose proof (tx_bytes_ok _ _ Ht). octets.
  - destruct (bk_invalid_txs b); octets.
  - destruct (bk_invalid_txs b); cbn [default]; octets.
Qed.

(** Decoding inverts encoding for every block: both block shapes, both header layouts, the
    genesis predecessor and any form of the transaction array; the chokepoints of the eras
    accept it and keep the bytes they were given. *)
Theorem block_codec_roundtrip (b : ShelleyBlock) (Hb : block_fits b)
    (Hl : blen (encode_block [] b) <= u64_max) :
  decode_babbage_block (encode_block [] b) = Ok (mk_Preserved (encode_block [] b) b) /\
  decode_conway_block (encode_block [] b) = Ok (mk_Preserved (encode_block [] b) b).
Proof.
  assert (E : decode_whole_block (encode_block [] b) = Ok (mk_Preserved (encode_block [] b) b)); [|done].
  unfold decode_whole_block. rewrite encode_block_bytes in * by done.
  rewrite (reads_whole_at _ _ b) by (first [by apply reads_block | by apply block_bytes_ok | done]).
  by rewrite Z.eqb_refl.
Qed.

(** A standalone certificate likewise. *)
Theorem opcert_roundtrip (o : OperationalCert) (Ho : opcert_fits o) (Hl : blen (encode_opcert o) <= u64_max) :
  decode_opcert (encode_opcert o) = Ok o.
Proof.
  unfold encode_opcert in *. rewrite (write_small_array _ 4), write_opcert_bytes in * by (try lia; done).
  cbn [app] in *. unfold decode_opcert.
  assert (Hok : bytes_ok (argument_bytes MAJOR_ARRAY 4 ++ opcert_bytes o)) by (pose proof (opcert_bytes_ok o Ho); octets).
  pose proof (reads_array_header 4 ltac:(small) [] (opcert_bytes o) Hok Hl) as Ha.
  cbn [app] in Ha. change (blen []) with 0 in Ha. rewrite Ha. cbn [canonical_width Z.leb Z.compare Pos.compare Pos.compare_cont].
  pose proof (reads_opcert o Ho (argument_bytes MAJOR_ARRAY 4) []) as R. rewrite app_nil_r in R.
  rewrite Z.add_0_l, R by done. by rewrite <- blen_app, Z.eqb_refl.
Qed.

(** * What a decoded block says about its bytes *)

(** [m] reads [n] items, one after the other. *)
Definition spans {E A} (n : Z) (m : PDec E A) : Prop := forall data off a o,
  bytes_ok data -> 0 <= off -> m data off = (Ok a, o) -> items data n off o.

Lemma items_one data o o' : item data o o' -> items data 1 o o'.
Proof. intros Hi. eapply items_cons; [done|exact Hi|constructor]. Qed.

Lemma one_of_items data o o' : items data 1 o o' -> item data o o'.
Proof.
  intros Hi. inversion Hi as [|? ? o1 ? _ H1 H2]; subst. inversion H2; subst; [done|lia].
Qed.

Lemma items_le data n o o' : bytes_ok data -> 0 <= o <= blen data -> items data n o o' -> o <= o' <= blen data.
Proof. intros Hd Ho Hi. exact (proj1 (proj2 (proj2 (grammar_end data Hd))) n o o' Hi Ho). Qed.

Lemma skip_item_inv data off s e o : bytes_ok data -> 0 <= off ->
  skip_item data off = (Ok (s, e), o) -> s = off /\ e = o /\ item data off o.
Proof. intros Hd Ho Hs. by apply skip_item_spec in Hs. Qed.

Lemma raw_item_inv data off b o : bytes_ok data -> 0 <= off ->
  raw_item data off = (Ok b, o) -> item data off o /\ b = slice data off o.
Proof.
  intros Hd Ho. unfold raw_item. destruct (skip_item data off) as [[[s e]|err] o'] eqn:E; [|done].
  intros [= <- <-]. by apply skip_item_inv in E as (-> & -> & ?).
Qed.

Lemma pbind_inv {E A B} (m : PDec E A) (k : A -> PDec E B) data off b o :
  pbind m k data off = (Ok b, o) -> exists a o1, m data off = (Ok a, o1) /\ k a data o1 = (Ok b, o).
Proof. unfold pbind. destruct (m data off) as [[a|e] o1]; [eauto|done]. Qed.

(** An array head is what [skip_item] takes it for. *)
Lemma array_head_inv data off enc o : read_array_header data off = (Ok enc, o) ->
  exists h, read_head data off = (Ok h, o) /\ h = match enc with Definite n _ => HItems n | Indefinite => HUntil end.
Proof.
  unfold read_array_header, read_head, dbind, here.
  destruct (decode_initial data off) as [[[major ai]|e] o1] eqn:Ei; [|done].
  destruct (Z.eqb_spec major MAJOR_ARRAY) as [->|]; cbn [negb]; [|done].
  cbn [Z.eqb Pos.eqb MAJOR_ARRAY MAJOR_UNSIGNED MAJOR_NEGATIVE MAJOR_BYTES MAJOR_TEXT orb].
  destruct (ai =? AI_INDEFINITE); [intros [= <- <-]; by eexists|].
  destruct (decode_argument ai off data o1) as [[[n w]|e] o2]; [|done]. intros [= <- <-]. by eexists.
Qed.

Section Spans.
Context {E : Type}.

Lemma spans_pret {A} (a : A) : spans 0 (pret (E := E) a).
Proof. intros data off a' o _ _ [= _ <-]. constructor. Qed.
Lemma spans_pfail {A} n (e : E) : spans n (pfail (A := A) e).
Proof. by intros data off a o _ _ [=]. Qed.
Lemma spans_bind {A B} m n (r : PDec E A) (k : A -> PDec E B) :
  spans m r -> (forall a, spans n (k a)) -> spans (m + n) (pbind r k).
Proof.
  intros Hr Hk data off b o Hd Ho H. apply pbind_inv in H as (a & o1 & H1 & H2).
  pose proof (Hr _ _ _ _ Hd Ho H1) as H3. apply (items_app data _ _ _ o1); [done|].
  apply (Hk a data o1 b o Hd); [|done].
  clear -H3 Hd Ho. induction H3; [done|]. apply IHitems. pose proof (item_end data o o1 Hd Ho ltac:(assumption)). lia.
Qed.
Lemma spans_last {A B} (r : PDec E A) (f : A -> B) : spans 1 r -> spans 1 (dec! a := r in pret (f a)).
Proof. intros Hr. change 1 with (1 + 0). apply spans_bind; [done|]. intros a. apply spans_pret. Qed.
Lemma spans_plift {A} n (f : CodecError -> E) (m : Dec A) : spans n m -> spans n (plift f m).
Proof.
  intros Hm data off a o Hd Ho. unfold plift. destruct (m data off) as [[a'|e] o'] eqn:Em; [|done].
  intros [= <- <-]. by eapply Hm.
Qed.
Lemma spans_if {A} (b : bool) n (m m' : PDec E A) : spans n m -> spans n m' -> spans n (if b then m else m').
Proof. by destruct b. Qed.

(** A definite array of [n] elements is one item. *)
Lemma spans_array {A} (f : CodecError -> E) (k : ContainerEncoding -> PDec E A) :
  (forall n w, 0 <= n -> spans n (k (Definite n w))) ->
  (forall data off o, bytes_ok data -> 0 <= off -> forall a, k Indefinite data off = (Ok a, o) -> until_break data off o) ->
  spans 1 (dec! enc := plift f read_array_header in k enc).
Proof.
  intros Hk Hu data off a o Hd Ho H. apply pbind_inv in H as (enc & o1 & H1 & H2).
  unfold plift in H1. destruct (read_array_header data off) as [[enc'|] o1'] eqn:Er; [|done]. injection H1 as -> ->.
  apply items_one. destruct (array_head_inv data off enc o1 Er) as (h & Hh & Hm).
  pose proof (read_head_bound _ _ _ _ Hd Ho Hh) as Hb. destruct (read_head_ok _ _ _ _ Hd Ho Hh) as (_ & Hc & _).
  destruct enc as [n w|]; subst h; (eapply item_intro; [exact Hh|]); constructor.
  - apply (Hk n w Hc data o1 a o); [done|lia|done].
  - apply (Hu data o1 o Hd ltac:(lia) a H2).
Qed.
End Spans.

Lemma spans_uint : spans (E := CodecError) 1 read_uint.
Proof.
  intros data off [v w] o Hd Ho H. apply items_one. refine (item_intro _ _ HLeaf _ _ _ (contents_leaf _ _)).
  revert H. unfold read_uint, read_head, dbind, here.
  destruct (decode_initial data off) as [[[major ai]|e] o1] eqn:Ei; [|done].
  destruct (Z.eqb_spec major MAJOR_UNSIGNED) as [->|]; cbn [negb]; [|done].
  cbn [Z.eqb MAJOR_UNSIGNED orb]. unfold decode_argument at 1.
  destruct (Z.leb_spec ai 23), (Z.ltb_spec ai AI_ONE_BYTE) as [|]; try (unfold AI_ONE_BYTE in *; lia).
  - by intros [= _ _ <-].
  - intros Ha. unfold decode_argument. destruct (Z.leb_spec ai 23); [lia|].
    by rewrite Ha.
Qed.

Lemma spans_bytes : spans (E := CodecError) 1 read_bytes.
Proof.
  intros data off [v w] o Hd Ho H. apply items_one. refine (item_intro _ _ HLeaf _ _ _ (contents_leaf _ _)).
  revert H. unfold read_bytes, read_head, dbind, here.
  destruct (decode_initial data off) as [[[major ai]|e] o1] eqn:Ei; [|done].
  destruct (Z.eqb_spec major MAJOR_BYTES) as [->|]; cbn [negb]; [|done].
  cbn [Z.eqb Pos.eqb MAJOR_BYTES MAJOR_UNSIGNED MAJOR_NEGATIVE orb].
  destruct (ai =? AI_INDEFINITE); [done|].
  destruct (decode_argument ai off data o1) as [[[n w']|e] o2]; [|done].
  destruct (read_payload n data o2) as [[p|e] o3]; [|done]. by intros [= _ _ <-].
Qed.

Lemma spans_value {E} (f : CodecError -> E) : spans 1 (read_value f).
Proof.
  change 1 with (1 + 0). apply spans_bind; [apply spans_plift, spans_uint|]. intros [v w]. apply spans_pret.
Qed.
Lemma spans_string {E} (f : CodecError -> E) : spans 1 (read_string f).
Proof.
  change 1 with (1 + 0). apply spans_bind; [apply spans_plift, spans_bytes|]. intros [v w]. apply spans_pret.
Qed.
Lemma spans_item : spans 1 raw_item.
Proof. intros data off a o Hd Ho H. apply items_one. by apply raw_item_inv in H as [? _]. Qed.
Lemma spans_bad {A} n detail : spans n (bad_structure (A := A) detail).
Proof. by intros data off a o _ _ [=]. Qed.
Lemma spans_restructure {E A} n detail (m : PDec E A) : spans n m -> spans n (restructure detail m).
Proof.
  intros Hm data off a o Hd Ho. unfold restructure. destruct (m data off) as [[a'|e] o'] eqn:Em; [|done].
  intros [= <- <-]. by eapply Hm.
Qed.

Lemma spans_hash : spans 1 read_hash32.
Proof.
  change 1 with (1 + 0). apply spans_bind; [apply spans_string|]. intros s.
  destruct (negb _); [by intros data off a o _ _ [=]|apply spans_pret].
Qed.

Lemma spans_prev : spans 1 decode_prev_hash.
Proof.
  intros data off a o Hd Ho. unfold decode_prev_hash. case_bool_decide as Hb.
  - intros [= <- <-]. apply items_one. refine (item_intro _ _ HLeaf _ _ _ (contents_leaf _ _)).
    unfold read_head, dbind, here, decode_initial, read_byte, peek_byte. cbn [dbind]. unfold dbind. by rewrite Hb.
  - by apply (spans_last read_hash32 Prev_Block spans_hash).
Qed.

Lemma spans_opcert : spans 4 read_opcert_fields_from.
Proof.
  unfold read_opcert_fields_from. change 4 with (1 + (1 + (1 + (1 + 0)))).
  apply spans_bind; [apply spans_string|intros vk]. apply spans_if; [apply spans_pfail|].
  apply spans_bind; [apply spans_value|intros n]. apply spans_bind; [apply spans_value|intros p].
  apply spans_bind; [apply spans_string|intros s]. apply spans_if; [apply spans_pfail|apply spans_pret].
Qed.

Lemma spans_version : spans 2 read_version.
Proof.
  unfold read_version. change 2 with (1 + (1 + 0)). apply spans_bind; [apply spans_value|intros a].
  apply spans_bind; [apply spans_value|intros b]. apply spans_pret.
Qed.

(** [match enc with Definite k _ => m | _ => error end] for a fixed [k]. *)
Ltac spans_fixed :=
  apply (spans_array _ (fun enc => match enc with Definite _ _ => _ | Indefinite => _ end));
  [intros ? ? _; repeat match goal with |- context [match ?x with _ => _ end] => is_var x; destruct x end;
   first [apply spans_bad | idtac] | by intros ? ? ? ? ? ? [=]].

Lemma spans_operational_cert n : spans (if n =? 15 then 4 else 1) (decode_operational_cert n).
Proof.
  unfold decode_operational_cert. destruct (n =? 15); [apply spans_restructure, spans_opcert|].
  spans_fixed. apply spans_restructure, spans_opcert.
Qed.
Lemma spans_protocol_version n : spans (if n =? 15 then 2 else 1) (decode_protocol_version n).
Proof.
  unfold decode_protocol_version. destruct (n =? 15); [apply spans_version|].
  spans_fixed. apply spans_version.
Qed.
Lemma spans_vrf n : spans (if n =? 15 then 2 else 1) (decode_vrf n).
Proof.
  unfold decode_vrf. destruct (n =? 15); [change 2 with (1 + (1 + 0))|change 1 with (1 + 0)];
    repeat (apply spans_bind; [apply spans_item|intros ?]); apply spans_pret.
Qed.

Lemma spans_header_fields n : n = 15 \/ n = 10 -> spans n (decode_header_fields n).
Proof.
  intros Hn. unfold decode_header_fields.
  assert (E : n = 1 + (1 + (1 + (1 + (1 + ((if n =? 15 then 2 else 1) + (1 + (1 + ((if n =? 15 then 4 else 1) +
    ((if n =? 15 then 2 else 1) + 0)))))))))) by by destruct Hn as [-> | ->].
  rewrite E at 1.
  do 2 (apply spans_bind; [apply spans_value|intros ?]). apply spans_bind; [apply spans_prev|intros ?].
  do 2 (apply spans_bind; [apply spans_string|intros ?]). apply spans_bind; [apply spans_vrf|intros ?].
  apply spans_bind; [apply spans_value|intros ?]. apply spans_bind; [apply spans_hash|intros ?].
  apply spans_bind; [apply spans_operational_cert|intros ?].
  apply spans_bind; [apply spans_protocol_version|intros ?]. apply spans_pret.
Qed.

Lemma spans_header_body : spans 1 decode_header_body.
Proof.
  unfold decode_header_body. apply spans_array; [|by intros ? ? ? ? ? ? [=]].
  intros n w _. destruct ((n =? 15) || (n =? 10)) eqn:E; [|apply spans_bad].
  apply spans_header_fields. lia.
Qed.

Lemma spans_header : spans 1 decode_header.
Proof.
  unfold decode_header. spans_fixed. change 2 with (1 + (1 + 0)).
  apply spans_bind; [apply spans_header_body|intros b]. apply spans_bind; [apply spans_item|intros k]. apply spans_pret.
Qed.

Lemma spans_times n : spans (Z.of_nat n) (ptimes n raw_item).
Proof.
  induction n as [|n IH]; [apply spans_pret|]. cbn [ptimes]. replace (Z.of_nat (S n)) with (1 + Z.of_nat n) by lia.
  apply spans_bind; [apply spans_item|intros _; exact IH].
Qed.

(** The loop over an indefinite array ends at its break. *)
Lemma tx_loop_until data fuel : forall off l o, bytes_ok data -> 0 <= off ->
  nloop fuel tx_head raw_item data off = Some (Ok l, o) -> until_break data off o.
Proof.
  induction fuel as [|fuel IH]; intros off l o Hd Ho H; cbn [nloop] in H; [done|].
  destruct (tx_head data off) as [[[]|e] o1] eqn:Eh; unfold tx_head, is_break, peek_byte in Eh;
    destruct (byte_at data off) as [b|] eqn:Eb; cbn [ok_or rbind] in Eh; try done;
    destruct (Z.eqb_spec b BREAK_BYTE) as [->|Hne]; try done.
  - injection Eh as <-. injection H as <- <-. by constructor.
  - injection Eh as <-. destruct (raw_item data off) as [[x|e] o1] eqn:Ex; [|done].
    destruct (nloop fuel tx_head raw_item data o1) as [[[xs|e] o2]|] eqn:En; try done. injection H as <- <-.
    apply raw_item_inv in Ex as [Hi _]; [|done..].
    eapply until_more; [done|done|exact Hi|]. eapply IH; [done| |done].
    pose proof (item_end data off o1 Hd Ho Hi). lia.
Qed.

Lemma raw_item_advances : advances raw_item.
Proof.
  intros data off a o Hd Ho H. apply raw_item_inv in H as [Hi _]; [|done..].
  pose proof (item_end data off o Hd Ho Hi). lia.
Qed.
Lemma tx_head_stops : stops_at_end tx_head.
Proof.
  intros data off o Ho. unfold tx_head, is_break, peek_byte. destruct (byte_at data off) as [b|] eqn:Eb; [|done].
  cbn. destruct (b =? BREAK_BYTE); [done|]. intros [= <-]. apply byte_at_bound in Eb. lia.
Qed.

Lemma spans_tx_items : spans 1 decode_tx_items.
Proof.
  unfold decode_tx_items. apply spans_array.
  - intros n w Hn.
    replace n with (Z.of_nat (Z.to_nat n) + 0) at 1 by lia. apply spans_bind; [apply spans_times|intros _; apply spans_pret].
  - intros data off o Hd Ho a H. apply pbind_inv in H as (l & o1 & H1 & [= _ <-]). unfold nwhile in H1.
    destruct (nloop_total tx_head raw_item data (S (Z.to_nat (blen data - off))) off) as [r Hr];
      [done|exact tx_head_stops|exact raw_item_advances|done|lia|lia|].
    rewrite Hr in H1. subst r. by eapply tx_loop_until.
Qed.
