(* ===== verification/BlockValidity.v ===== *)
(** Block validity: [ade_ledger/src/block_validity/] (decoding, the header-position rule, the
    verdict types and the composition of the header and body authorities) and
    [ade_ledger/src/block_body_hash.rs].

    The body authority [apply_block_with_verdicts] of [rules.rs], the ledger state it works on
    and the state's fingerprint are an interface ([LedgerRules]): nothing here depends on
    what they do, and the theorems hold for all of them. *)

From S2P Require Import Prelude Cbor Decoder Envelope EraSchedule Leader Kes ChainDep Header BlockCodec.

(** [apply_block_with_verdicts], [LedgerError::from(CodecError)] and [fingerprint(..).combined]. *)
Class LedgerRules : Type := {
  LedgerState : Type;
  LedgerError : Type;
  BlockVerdict : Type;
  ledger_error : CodecError -> LedgerError;
  apply_block_with_verdicts : LedgerState -> CardanoEra -> list Z -> EraSchedule ->
    result (BlockVerdict * LedgerState) LedgerError;
  ledger_fingerprint : LedgerState -> Hash32;
}.

(** [blake2b_224] *)
Class Blake224 : Type := { blake2b_224 : list Z -> Hash28 }.

(** * Verdicts ([verdict.rs]) *)

Module BV.
Inductive FieldKind : Type :=
| VkeyWitness | BootstrapKey | Ed25519Signature | VrfVkey | VrfProof | KesVkey | KesSignature
| OpCertSignature | BlockBodyHash.
Record FieldError : Type := mk_FieldError { field : FieldKind; expected : Z; actual : Z }.
End BV.

Inductive MissingInput : Type := EpochNonce | SetSnapshot | PoolVrfKeyhash (pool : Hash28) | Missing_ActiveSlotsCoeff.

Inductive BlockRejectClass : Type :=
| HeaderInvalid | BodyInvalid | Class_BodyHashMismatch | Class_MalformedField | Class_MissingConsensusInput.

Inductive BlockValidityError `{LedgerRules} : Type :=
| BV_Header (e : HeaderValidationError)
| BV_Body (e : LedgerError)
| BV_BodyHashMismatch (header actual : Hash32)
| BV_MalformedField (e : BV.FieldError)
| BV_MissingConsensusInput (m : MissingInput)
| BV_HeaderPositionInvalid (block_number : Z) (prev_is_genesis : bool).

Inductive BlockValidityVerdict `{LedgerRules} : Type :=
| Verdict_Valid (tip : Z * Hash32) (block_no : Z) (body : BlockVerdict)
| Verdict_Invalid (cls : BlockRejectClass) (error : BlockValidityError).

Section BlockValidity.
Context `{Crypto, Ed25519, !Blake224, LedgerRules}.

Definition class (e : BlockValidityError) : BlockRejectClass :=
  match e with
  | BV_Header _ => HeaderInvalid
  | BV_Body _ => BodyInvalid
  | BV_BodyHashMismatch _ _ => Class_BodyHashMismatch
  | BV_MalformedField _ => Class_MalformedField
  | BV_MissingConsensusInput _ => Class_MissingConsensusInput
  | BV_HeaderPositionInvalid _ _ => HeaderInvalid
  end.

(** * Decoding ([header_input.rs]) *)

Record DecodedBlock : Type := mk_DecodedBlock {
  dk_era : CardanoEra;
  dk_header_input : HeaderInput;
  dk_block_hash : Hash32;
  dk_prev_hash : PrevHash;
  dk_computed_body_hash : Hash32;
  dk_inner_start : Z;
  dk_inner_end : Z;
}.

Definition codec (e : CodecError) : BlockValidityError := BV_Body (ledger_error e).
Definition unsupported_era (_ : CardanoEra) : LedgerError :=
  ledger_error (InvalidCborStructure 0 "block_validity: unsupported pre-Babbage era").

Definition expect_array (n : Z) (b : list Z) (k : BV.FieldKind) : result (list Z) BlockValidityError :=
  if negb (blen b =? n) then Err (BV_MalformedField (BV.mk_FieldError k n (blen b))) else Ok b.

Definition unwrap_cbor_bytes (b : list Z) : result (list Z) BlockValidityError :=
  let? (bytes, _) := map_err codec (fst (read_bytes b 0)) in Ok bytes.

(** The walks that share [let mut o = 0] and the [codec] error: a reader run at the start. *)
Definition at_start {A} (m : PDec CodecError A) (bytes : list Z) : result A BlockValidityError :=
  map_err codec (fst (m bytes 0)).

Definition header_cbor_slice (inner : list Z) : result (list Z) BlockValidityError :=
  at_start (dec! _ := plift id read_array_header in raw_item) inner.

Definition header_body_slice (inner : list Z) : result (list Z) BlockValidityError :=
  at_start (dec! _ := plift id read_array_header in dec! _ := plift id read_array_header in raw_item) inner.

Definition block_kes_signature (inner : list Z) : result (list Z) BlockValidityError :=
  at_start (dec! _ := plift id read_array_header in dec! _ := plift id read_array_header in
            dec! _ := raw_item in raw_item) inner.

Definition block_header_bytes (block_cbor : list Z) : result (list Z) BlockValidityError :=
  let? env := map_err codec (decode_block_envelope block_cbor) in
  header_cbor_slice (slice block_cbor (block_start env) (block_end env)).

Definition parse_combined_vrf (b : list Z) : result (list Z * list Z) BlockValidityError :=
  match read_array_header b 0 with
  | (Err e, _) => Err (codec e)
  | (Ok (Definite 2 _), o) =>
      map_err codec (fst ((dec! output := read_bytesv in dec! proof := read_bytesv in pret (output, proof)) b o))
  | (Ok _, _) => Err (BV_MalformedField (BV.mk_FieldError BV.VrfProof 2 0))
  end.

Definition praos_header_input (inner : list Z) (hb : ShelleyHeaderBody) :
    result HeaderInput BlockValidityError :=
  let? vrf_result := match hb_vrf hb with
                     | Combined vrf_result => Ok vrf_result
                     | Split _ _ => Err (BV_MalformedField (BV.mk_FieldError BV.VrfProof 0 0))
                     end in
  let? (output_bytes, proof_bytes) := parse_combined_vrf vrf_result in
  let? vrf_vk := expect_array 32 (hb_vrf_vkey hb) BV.VrfVkey in
  let? out_arr := expect_array 64 output_bytes BV.VrfProof in
  let? proof_arr := expect_array 80 proof_bytes BV.VrfProof in
  let? body_bytes := header_body_slice inner in
  let? kes_item := block_kes_signature inner in
  let? kes_signature := unwrap_cbor_bytes kes_item in
  let kes := mk_HeaderKes (hb_issuer_vkey hb) (oc_hot_vkey (hb_operational_cert hb)) kes_signature
               (oc_sigma (hb_operational_cert hb)) body_bytes in
  Ok (mk_HeaderInput (hb_slot hb) (hb_block_number hb)
        (default (repeat 0 32) (prev_block_hash (hb_prev_hash hb))) (hb_body_hash hb)
        (blake2b_224 (hb_issuer_vkey hb)) (oc_kes_period (hb_operational_cert hb))
        (oc_sequence_number (hb_operational_cert hb)) vrf_vk (Praos proof_arr out_arr) (Some kes)).

(** [header_position.rs] *)
Definition check_header_position (block_number : Z) (prev : PrevHash) : result unit BlockValidityError :=
  let prev_is_genesis := match prev with Prev_Genesis => true | Prev_Block _ => false end in
  if Bool.eqb (block_number =? 0) prev_is_genesis then Ok tt
  else Err (BV_HeaderPositionInvalid block_number prev_is_genesis).

(** [block_body_hash.rs] *)
Definition block_body_hash_from_buckets (tx_bodies witness_sets metadata : list Z) (invalid_txs : option (list Z)) : Hash32 :=
  blake2b_256 (blake2b_256 tx_bodies ++ blake2b_256 witness_sets ++ blake2b_256 metadata ++
               blake2b_256 (default [] invalid_txs)).
Definition block_body_hash (b : ShelleyBlock) : Hash32 :=
  block_body_hash_from_buckets (bk_tx_bodies b) (bk_witness_sets b) (bk_metadata b) (bk_invalid_txs b).

Definition decode_inner (e : CardanoEra) (inner : list Z) : result (PreservedCbor ShelleyBlock) BlockValidityError :=
  match e with
  | Babbage => map_err codec (decode_babbage_block inner)
  | Conway => map_err codec (decode_conway_block inner)
  | other => Err (BV_Body (unsupported_era other))
  end.

Definition decode_block (block_cbor : list Z) : result DecodedBlock BlockValidityError :=
  let? env := map_err codec (decode_block_envelope block_cbor) in
  let inner := slice block_cbor (block_start env) (block_end env) in
  let? preserved := decode_inner (era env) inner in
  let block := decoded preserved in
  let hb := sh_body (bk_header block) in
  let? _ := check_header_position (hb_block_number hb) (hb_prev_hash hb) in
  let? header_cbor := header_cbor_slice inner in
  let? header_input := match era env with
                       | Babbage | Conway => praos_header_input inner hb
                       | other => Err (BV_Body (unsupported_era other))
                       end in
  Ok (mk_DecodedBlock (era env) header_input (blake2b_256 header_cbor) (hb_prev_hash hb)
        (block_body_hash block) (block_start env) (block_end env)).

(** * The verdict on a block ([transition.rs]) *)

Record BlockValidityOutcome : Type := mk_Outcome {
  bo_verdict : BlockValidityVerdict;
  bo_ledger : LedgerState;
  bo_chain_dep : PraosChainDepState;
}.

Definition invalid (ledger : LedgerState) (chain_dep : PraosChainDepState) (e : BlockValidityError) :
    BlockValidityOutcome := mk_Outcome (Verdict_Invalid (class e) e) ledger chain_dep.

Definition block_validity_with_eligibility `{LedgerView} (ledger : LedgerState) (chain_dep : PraosChainDepState)
    (sched : EraSchedule) (block_cbor : list Z) (mode : LeaderEligibility) : BlockValidityOutcome :=
  match decode_block block_cbor with
  | Err e => invalid ledger chain_dep e
  | Ok d =>
      match validate_and_apply_header chain_dep (dk_header_input d) sched mode with
      | Err e => invalid ledger chain_dep (BV_Header e)
      | Ok applied =>
          let header_body_hash := vs_body_hash (ha_summary applied) in
          if negb (bool_decide (dk_computed_body_hash d = header_body_hash))
          then invalid ledger chain_dep (BV_BodyHashMismatch header_body_hash (dk_computed_body_hash d))
          else
            let inner := slice block_cbor (dk_inner_start d) (dk_inner_end d) in
            match apply_block_with_verdicts ledger (dk_era d) inner sched with
            | Err e => invalid ledger chain_dep (BV_Body e)
            | Ok (verdict, new_state) =>
                mk_Outcome (Verdict_Valid (vs_slot (ha_summary applied), dk_block_hash d)
                              (vs_block_no (ha_summary applied)) verdict)
                  new_state (ha_new_state applied)
            end
      end
  end.

Definition block_validity `{LedgerView} (ledger : LedgerState) (chain_dep : PraosChainDepState)
    (sched : EraSchedule) (block_cbor : list Z) : BlockValidityOutcome :=
  block_validity_with_eligibility ledger chain_dep sched block_cbor Enforce.
Definition block_validity_trusted_replay `{LedgerView} (ledger : LedgerState) (chain_dep : PraosChainDepState)
    (sched : EraSchedule) (block_cbor : list Z) : BlockValidityOutcome :=
  block_validity_with_eligibility ledger chain_dep sched block_cbor TrustDurable.
End BlockValidity.
