(* ===== verification/BlockBinding.v ===== *)
(** What a block's hash commits to: the pieces of a decoded block are slices of its bytes, one
    after the other, the header among them is one CBOR item, and the header and body hashes
    together determine every byte of it. *)

From S2P Require Import Prelude Cbor CborSkip CborRoundtrip CborPrefix NetCodec Spelling Decoder Portable.
From S2P Require Import Envelope EraSchedule Leader Kes ChainDep Header BlockCodec BlockFacts BlockValidity.

(** * The header travels *)

Lemma portable_item : portable raw_item.
Proof.
  intros data off a o Hd Ho H. apply raw_item_inv in H as [Hi ->]; [|done|lia].
  pose proof (item_end data off o Hd ltac:(lia) Hi). split; [lia|].
  apply reads_item, item_alone; [done|lia|done].
Qed.
Lemma portable_bad {A} detail : portable (bad_structure (A := A) detail).
Proof. by intros data off b o _ _ [=]. Qed.
Lemma portable_restructure {E A} detail (m : PDec E A) : portable m -> portable (restructure detail m).
Proof.
  intros Hm data off a o Hd Ho. unfold restructure at 1. destruct (m data off) as [[a'|e] o'] eqn:Em; [|done].
  intros [= <- <-]. destruct (Hm _ _ _ _ Hd Ho Em) as [Hb R]. split; [done|]. by apply reads_restructure.
Qed.
Lemma portable_hash : portable read_hash32.
Proof.
  apply portable_bind; [apply portable_string|]. intros s. destruct (negb _); [by intros data off b o _ _ [=]|].
  apply portable_ret.
Qed.
#[export] Hint Resolve portable_item portable_bad portable_restructure portable_hash : portable.

Lemma portable_prev : portable decode_prev_hash.
Proof.
  intros data off a o Hd Ho H. unfold decode_prev_hash in H. case_bool_decide as Hb.
  - injection H as <- <-. pose proof (byte_at_bound _ _ _ Hb). split; [lia|].
    rewrite (slice_cons data off 0xf6) by (done || lia). rewrite slice_nil. by apply (reads_prev Prev_Genesis).
  - assert (P : portable (dec! h := read_hash32 in pret (Prev_Block h))) by eauto with portable.
    destruct (P _ _ _ _ Hd Ho H) as [Hle R]. split; [done|].
    intros pre post Hok Hl. unfold decode_prev_hash. rewrite bool_decide_eq_false_2; [by apply R|].
    intros Hb'. apply Hb. pose proof (spans_last read_hash32 Prev_Block spans_hash data off a o Hd ltac:(lia) H) as Hi.
    apply one_of_items in Hi. pose proof (item_end data off o Hd ltac:(lia) Hi).
    destruct (byte_at data off) as [b|] eqn:Eb; [|apply byte_at_none in Eb; lia].
    rewrite (slice_cons data off b) in Hb' by (done || lia). cbn [app] in Hb'. by rewrite byte_at_here in Hb'.
Qed.

Ltac travels := repeat first
  [ solve [eauto with portable] | apply portable_bind; [|intros ?] | apply portable_if
  | apply portable_restructure | apply portable_plift ].

Lemma portable_opcert : portable read_opcert_fields_from.
Proof. unfold read_opcert_fields_from. travels. Qed.
Lemma portable_version : portable read_version.
Proof. unfold read_version, read_u64v. travels. Qed.
#[export] Hint Resolve portable_prev portable_opcert portable_version : portable.

(** A match on the count of the array is a match on a number. *)
Ltac travels_array := apply portable_bind; [eauto with portable|intros [? ?|]; [|eauto with portable]];
  repeat match goal with |- context [match ?x with _ => _ end] => is_var x; destruct x end; travels.

Lemma portable_vrf n : portable (decode_vrf n).
Proof. unfold decode_vrf. travels. Qed.
Lemma portable_cert n : portable (decode_operational_cert n).
Proof. unfold decode_operational_cert. apply portable_if; [travels|travels_array]. Qed.
Lemma portable_protocol n : portable (decode_protocol_version n).
Proof. unfold decode_protocol_version. apply portable_if; [travels|travels_array]. Qed.
#[export] Hint Resolve portable_vrf portable_cert portable_protocol : portable.

Lemma portable_header_body : portable decode_header_body.
Proof.
  assert (Hf : forall n, portable (decode_header_fields n))
    by (intros n; unfold decode_header_fields, read_u64v, read_bytesv; travels).
  unfold decode_header_body. apply portable_bind; [eauto with portable|intros [? ?|]; eauto with portable].
Qed.
#[export] Hint Resolve portable_header_body : portable.
Lemma portable_header : portable decode_header.
Proof. unfold decode_header. travels_array. Qed.

(** * The pieces of a block *)

Lemma body_tiles h n data off b o :
  bytes_ok data -> 0 <= off <= blen data -> decode_body h n data off = (Ok b, o) ->
  off <= o <= blen data /\ bk_header b = h /\
  slice data off o = bk_tx_bodies b ++ bk_witness_sets b ++ bk_metadata b ++ default [] (bk_invalid_txs b).
Proof.
  intros Hd Ho H. unfold decode_body in H. apply pbind_inv in H as ([count tx] & o1 & H1 & H).
  unfold decode_tx_bodies in H1. destruct (decode_tx_items data off) as [[c|e] o1'] eqn:E1; [|done].
  injection H1 as -> <- ->. apply spans_tx_items in E1; [|done|lia].
  apply one_of_items, item_end in E1; [|done|lia].
  apply pbind_inv in H as (ws & o2 & H2 & H). apply raw_item_inv in H2 as [I2 ->]; [|done|lia].
  apply item_end in I2; [|done|lia].
  apply pbind_inv in H as (md & o3 & H3 & H). apply raw_item_inv in H3 as [I3 ->]; [|done|lia].
  apply item_end in I3; [|done|lia].
  destruct (n =? 5).
  - apply pbind_inv in H as (it & o4 & H4 & [= <- <-]). apply raw_item_inv in H4 as [I4 ->]; [|done|lia].
    apply item_end in I4; [|done|lia]. cbn. split_and!; [lia|lia|done|]. rewrite !slice_join by lia. done.
  - injection H as <- <-. cbn. split_and!; [lia|lia|done|]. rewrite app_nil_r, !slice_join by lia. done.
Qed.

(** A decoded block is an array head, the header and the body buckets; the header stands for
    itself. *)
Lemma inner_tiles inner b o :
  bytes_ok inner -> decode_shelley_block_inner inner 0 = (Ok b, o) ->
  exists enc o1 o2, read_array_header inner 0 = (Ok enc, o1) /\ item inner o1 o2 /\
    0 <= o1 < o2 /\ o2 <= o <= blen inner /\ reads decode_header (slice inner o1 o2) (bk_header b) /\
    slice inner o2 o = bk_tx_bodies b ++ bk_witness_sets b ++ bk_metadata b ++ default [] (bk_invalid_txs b).
Proof.
  intros Hd H. apply pbind_inv in H as (enc & o1 & H1 & H). unfold plift in H1.
  destruct (read_array_header inner 0) as [[enc'|e] o1'] eqn:Ea; [|done]. injection H1 as -> ->.
  destruct enc as [n w|]; [|done]. destruct (_ || _); [|done].
  pose proof (read_array_header_bound inner 0 n w o1 Hd ltac:(lia) Ea) as Hb.
  apply pbind_inv in H as (h & o2 & H2 & H).
  destruct (portable_header inner o1 h o2 Hd ltac:(lia) H2) as [Hb2 R].
  pose proof (one_of_items _ _ _ (spans_header inner o1 h o2 Hd ltac:(lia) H2)) as Hi.
  pose proof (item_end inner o1 o2 Hd ltac:(lia) Hi).
  destruct (body_tiles h n inner o2 b o Hd ltac:(lia) H) as (Hb3 & -> & Hs).
  exists (Definite n w), o1, o2. split_and!; (done || lia).
Qed.

Section Binding.
Context `{Crypto, Ed25519, !Blake224, LedgerRules}.

(** The header slice [block_header_bytes] takes is the one the decoder read. *)
Lemma header_slice_of inner enc o1 o2 :
  bytes_ok inner -> read_array_header inner 0 = (Ok enc, o1) -> 0 <= o1 -> item inner o1 o2 ->
  header_cbor_slice inner = Ok (slice inner o1 o2).
Proof.
  intros Hd Ha Ho Hi. unfold header_cbor_slice, at_start, pbind, plift, raw_item. rewrite Ha.
  by rewrite (item_skip _ _ _ Hd Ho Hi).
Qed.

(** The inner block after its array head. *)
Definition block_content (block_cbor : list Z) : option (list Z) :=
  match decode_block_envelope block_cbor with
  | Ok env =>
      let inner := slice block_cbor (block_start env) (block_end env) in
      match read_array_header inner 0 with
      | (Ok _, o) => Some (slice inner o (blen inner))
      | _ => None
      end
  | Err _ => None
  end.

(** The decoded block passes the body-hash binding of [block_validity]. *)
Definition authentic (d : DecodedBlock) : Prop := dk_computed_body_hash d = body_hash (dk_header_input d).

Lemma decode_inner_ok e inner p : decode_inner e inner = Ok p ->
  (e = Babbage \/ e = Conway) /\ decode_shelley_block_inner inner 0 = (Ok (decoded p), blen inner).
Proof.
  intros Hi. assert (Hw : (e = Babbage \/ e = Conway) /\ decode_whole_block inner = Ok p).
  { destruct e; try discriminate Hi; apply map_err_ok in Hi; auto. }
  destruct Hw as [He Hw]. split; [done|]. revert Hw. unfold decode_whole_block.
  destruct (decode_shelley_block_inner inner 0) as [[b|err] off]; [|done].
  destruct (Z.eqb_spec off (blen inner)) as [->|]; [|done]. by intros [= <-].
Qed.

Lemma praos_header_body_hash inner hb hi : praos_header_input inner hb = Ok hi -> body_hash hi = hb_body_hash hb.
Proof.
  unfold praos_header_input. intros Hi. apply rbind_ok_inv in Hi as (r & _ & Hi).
  apply rbind_ok_inv in Hi as ([output proof] & _ & Hi). binv Hi. by injection Hi as <-.
Qed.

Lemma envelope_slice_ok c env : bytes_ok c -> bytes_ok (slice c (block_start env) (block_end env)).
Proof. apply slice_ok. Qed.

Lemma reads_alone {A} (m : PDec CodecError A) s a :
  reads m s a -> bytes_ok s -> blen s <= u64_max -> m s 0 = (Ok a, blen s).
Proof. apply reads_whole_at. Qed.

(** What [decode_block] says about the bytes. *)
Lemma decode_block_content c d : bytes_ok c -> blen c <= u64_max -> decode_block c = Ok d ->
  exists header b, block_content c = Some (header ++ bk_tx_bodies b ++ bk_witness_sets b ++ bk_metadata b ++
      default [] (bk_invalid_txs b)) /\
    dk_block_hash d = blake2b_256 header /\ dk_computed_body_hash d = block_body_hash b /\
    decode_header header 0 = (Ok (bk_header b), blen header) /\
    body_hash (dk_header_input d) = hb_body_hash (sh_body (bk_header b)).
Proof.
  intros Hd Hl Hdec. unfold decode_block in Hdec.
  apply rbind_ok_inv in Hdec as (env & Henv & Hdec). apply map_err_ok in Henv.
  apply rbind_ok_inv in Hdec as (p & Hp & Hdec). apply rbind_ok_inv in Hdec as (u & _ & Hdec).
  apply rbind_ok_inv in Hdec as (hc & Hhc & Hdec). apply rbind_ok_inv in Hdec as (hi & Hhi & Hdec).
  injection Hdec as <-. cbn [dk_block_hash dk_computed_body_hash dk_header_input].
  pose proof (envelope_slice_ok c env Hd) as Hin. set (inner := slice c _ _) in *.
  apply decode_inner_ok in Hp as [He Hp].
  destruct (inner_tiles inner (decoded p) (blen inner) Hin Hp) as (enc & o1 & o2 & Ha & Hi & Ho & Hle & R & Hs).
  pose proof (header_slice_of inner enc o1 o2 Hin Ha ltac:(lia) Hi) as E. rewrite E in Hhc. injection Hhc as <-.
  exists (slice inner o1 o2), (decoded p). split_and!; [|done|done| |].
  - unfold block_content. rewrite Henv. fold inner. rewrite Ha, <- Hs, slice_join by lia. done.
  - apply reads_alone; [done|by apply slice_ok|].
    assert (blen inner <= blen c) by (unfold inner, slice, blen; rewrite length_take, length_drop; lia).
    rewrite blen_slice by lia. lia.
  - destruct He as [He|He]; rewrite He in Hhi; by eapply praos_header_body_hash.
Qed.

Lemma same_or_collision x y : blake2b_256 x = blake2b_256 y -> x = y \/ collision.
Proof. intros E. destruct (decide (x = y)) as [|Hne]; [by left|]. right. by exists x, y. Qed.

(** The four buckets are determined by the body hash. *)
Lemma body_hash_buckets `{!HashLaws} b1 b2 : block_body_hash b1 = block_body_hash b2 ->
  (bk_tx_bodies b1 = bk_tx_bodies b2 /\ bk_witness_sets b1 = bk_witness_sets b2 /\
   bk_metadata b1 = bk_metadata b2 /\ default [] (bk_invalid_txs b1) = default [] (bk_invalid_txs b2)) \/ collision.
Proof.
  intros E. apply same_or_collision in E as [E|]; [|by right].
  apply app_inj_1 in E as [E1 E]; [|by rewrite !hash_len]. apply app_inj_1 in E as [E2 E]; [|by rewrite !hash_len].
  apply app_inj_1 in E as [E3 E4]; [|by rewrite !hash_len].
  apply same_or_collision in E1 as [E1|]; [|by right]. apply same_or_collision in E2 as [E2|]; [|by right].
  apply same_or_collision in E3 as [E3|]; [|by right]. apply same_or_collision in E4 as [E4|]; [|by right].
  by left.
Qed.

(** C34. The block hash commits to the block: two blocks that decode and pass the body-hash
    binding, under one hash, are the same bytes after the era tag and the head of the outer
    array, or a collision of blake2b-256 is at hand. *)
Theorem block_hash_binds `{!HashLaws} (c1 c2 : list Z) (d1 d2 : DecodedBlock)
    (Hc1 : bytes_ok c1) (Hc2 : bytes_ok c2) (Hl1 : blen c1 <= u64_max) (Hl2 : blen c2 <= u64_max)
    (Hd1 : decode_block c1 = Ok d1) (Hd2 : decode_block c2 = Ok d2)
    (Ha1 : authentic d1) (Ha2 : authentic d2) (Hh : dk_block_hash d1 = dk_block_hash d2) :
  (exists content, block_content c1 = Some content /\ block_content c2 = Some content) \/ collision.
Proof.
  destruct (decode_block_content c1 d1 Hc1 Hl1 Hd1) as (h1 & b1 & C1 & Hh1 & Hb1 & R1 & E1).
  destruct (decode_block_content c2 d2 Hc2 Hl2 Hd2) as (h2 & b2 & C2 & Hh2 & Hb2 & R2 & E2).
  rewrite Hh1, Hh2 in Hh. apply same_or_collision in Hh as [->|]; [|by right].
  rewrite R1 in R2. injection R2 as Hhd.
  unfold authentic in *. rewrite E1, Hb1 in Ha1. rewrite E2, Hb2, <- Hhd, <- Ha1 in Ha2.
  apply body_hash_buckets in Ha2 as [(Et & Ew & Em & Ei)|]; [|by right].
  left. eexists. split; [exact C1|]. by rewrite C2, Et, Ew, Em, Ei.
Qed.
End Binding.

(** * The blocks the encoders write *)

Section Forged.
Context `{Crypto, Ed25519, !Blake224, LedgerRules}.

(** A Praos block: a combined VRF certificate of the right sizes and a KES signature that is a
    byte string, with the predecessor its position asks for. *)
Record praos_block (b : ShelleyBlock) (output proof sig : list Z) : Prop := mk_praos_block {
  pb_fits : block_fits b;
  pb_vrf : hb_vrf (sh_body (bk_header b)) = Combined (array_bytes 2 (string_bytes output ++ string_bytes proof));
  pb_output : bytes_ok output /\ blen output = 64;
  pb_proof : bytes_ok proof /\ blen proof = 80;
  pb_vrf_vkey : blen (hb_vrf_vkey (sh_body (bk_header b))) = 32;
  pb_kes : sh_kes_signature (bk_header b) = string_bytes sig /\ bytes_ok sig /\ is_u64 (blen sig);
  pb_position : (hb_block_number (sh_body (bk_header b)) =? 0) =
                match hb_prev_hash (sh_body (bk_header b)) with Prev_Genesis => true | Prev_Block _ => false end;
}.

(** The header input the authorities are given for it. *)
Definition header_input_of (b : ShelleyBlock) (output proof sig : list Z) : HeaderInput :=
  let hb := sh_body (bk_header b) in
  let oc := hb_operational_cert hb in
  mk_HeaderInput (hb_slot hb) (hb_block_number hb) (default (repeat 0 32) (prev_block_hash (hb_prev_hash hb)))
    (hb_body_hash hb) (blake2b_224 (hb_issuer_vkey hb)) (oc_kes_period oc) (oc_sequence_number oc)
    (hb_vrf_vkey hb) (Praos proof output)
    (Some (mk_HeaderKes (hb_issuer_vkey hb) (oc_hot_vkey oc) sig (oc_sigma oc) (encode_header_body [] hb))).

(** A reader of one item reads an item. *)
Lemma item_of_reads {A} (m : PDec CodecError A) s a :
  reads m s a -> spans 1 m -> bytes_ok s -> blen s <= u64_max -> one_item s.
Proof.
  intros R S Hok Hl. split; [done|]. apply one_of_items, (S s 0 a); [done|lia|]. by apply reads_alone.
Qed.

Lemma reads_front {A} (m : PDec CodecError A) s post a :
  reads m s a -> bytes_ok (s ++ post) -> blen (s ++ post) <= u64_max -> at_start m (s ++ post) = Ok a.
Proof. intros R Hok Hl. unfold at_start. specialize (R [] post Hok Hl).
  cbn [app] in R. change (blen []) with 0 in R. by rewrite R. Qed.

Lemma spans_block : spans 1 decode_shelley_block_inner.
Proof.
  assert (Hbody : forall h n, spans (if n =? 5 then 4 else 3) (decode_body h n)).
  { intros h n. unfold decode_body.
    replace (if n =? 5 then 4 else 3) with (1 + (1 + (1 + (if n =? 5 then 1 + 0 else 0)))) by by destruct (n =? 5).
    apply spans_bind; [|intros [c tx]].
    - intros data off [c tx] o Hd Ho. unfold decode_tx_bodies.
      destruct (decode_tx_items data off) as [[c'|e] o'] eqn:E1; [|done]. intros [= <- _ <-]. by eapply spans_tx_items.
    - do 2 (apply spans_bind; [apply spans_item|intros ?]).
      destruct (n =? 5); [apply spans_bind; [apply spans_item|intros ?]|]; apply spans_pret. }
  unfold decode_shelley_block_inner. apply spans_array; [|by intros ? ? ? ? ? ? [=]].
  intros n w _. destruct (Z.eqb_spec n 4) as [->|]; [|destruct (Z.eqb_spec n 5) as [->|]; [|apply spans_bad]]; cbn [orb].
  - change 4 with (1 + 3) at 1. apply spans_bind; [apply spans_header|intros h; apply (Hbody h 4)].
  - change 5 with (1 + 4) at 1. apply spans_bind; [apply spans_header|intros h; apply (Hbody h 5)].
Qed.

Lemma combined_vrf output proof : bytes_ok output /\ blen output = 64 -> bytes_ok proof /\ blen proof = 80 ->
  parse_combined_vrf (array_bytes 2 (string_bytes output ++ string_bytes proof)) = Ok (output, proof).
Proof.
  intros [Ho Hol] [Hp Hpl]. unfold parse_combined_vrf, array_bytes.
  set (s := string_bytes output ++ string_bytes proof).
  assert (Hs : bytes_ok s) by (apply bytes_ok_app; split; apply string_bytes_ok; (split; [done|]); rewrite ?Hol, ?Hpl; small).
  assert (Hl : blen (argument_bytes MAJOR_ARRAY 2 ++ s) = 149).
  { unfold s, string_bytes. rewrite !blen_app, Hol, Hpl. by vm_compute. }
  assert (Hok : bytes_ok (argument_bytes MAJOR_ARRAY 2 ++ s)) by (apply bytes_ok_app; split; [apply array_bytes_ok; small|done]).
  assert (Hm : blen (argument_bytes MAJOR_ARRAY 2 ++ s) <= u64_max) by (rewrite Hl; by vm_compute).
  pose proof (reads_array_header 2 ltac:(small) [] s Hok Hm) as Ha. cbn [app] in Ha. change (blen []) with 0 in Ha.
  rewrite Ha. rewrite Z.add_0_l.
  assert (R : reads (dec! output := read_bytesv in dec! proof := read_bytesv in pret (output, proof)) s (output, proof)).
  { unfold s, read_bytesv. eapply reads_pbind; [apply reads_string; rewrite Hol; small|].
    eapply reads_pend; [apply reads_string; rewrite Hpl; small|apply reads_pret]. }
  specialize (R (argument_bytes MAJOR_ARRAY 2) []). rewrite app_nil_r in R. by rewrite R.
Qed.

(** A part of a concatenation is no longer than the whole. *)
Ltac within := rewrite !blen_app;
  repeat match goal with |- context [blen ?x] =>
    lazymatch goal with H : 0 <= blen x |- _ => fail | _ => pose proof (blen_nonneg x) end end; lia.

Section Walks.
Variables (b : ShelleyBlock) (output proof sig : list Z).
Hypothesis (Hb : praos_block b output proof sig).
Let hb := sh_body (bk_header b).
Let len := match bk_invalid_txs b with Some _ => 5 | None => 4 end.
Let rest := bk_tx_bodies b ++ bk_witness_sets b ++ bk_metadata b ++ default [] (bk_invalid_txs b).
Hypothesis Hl : blen (block_bytes_of b) <= u64_max.

Lemma block_is_item : one_item (block_bytes_of b).
Proof.
  pose proof (pb_fits _ _ _ _ Hb) as Hf.
  apply (item_of_reads decode_shelley_block_inner _ b); [by apply reads_block|apply spans_block|by apply block_bytes_ok|done].
Qed.

Lemma body_is_item : one_item (header_body_bytes_of hb).
Proof.
  pose proof (pb_fits _ _ _ _ Hb) as (Hh & _).
  apply (item_of_reads decode_header_body _ hb); [by apply reads_header_body|apply spans_header_body|by apply header_body_bytes_ok|].
  eapply Z.le_trans; [|exact Hl]. unfold block_bytes_of, header_bytes_of. fold hb. within.
Qed.

Lemma header_is_item : one_item (header_bytes_of (bk_header b)).
Proof.
  pose proof (pb_fits _ _ _ _ Hb) as (Hh & Hk & _).
  apply (item_of_reads decode_header _ (bk_header b)); [by apply reads_header|apply spans_header| |].
  - unfold header_bytes_of. pose proof (header_body_bytes_ok _ Hh). octets.
  - eapply Z.le_trans; [|exact Hl]. unfold block_bytes_of. within.
Qed.

Lemma walks :
  header_cbor_slice (block_bytes_of b) = Ok (header_bytes_of (bk_header b)) /\
  header_body_slice (block_bytes_of b) = Ok (header_body_bytes_of hb) /\
  block_kes_signature (block_bytes_of b) = Ok (sh_kes_signature (bk_header b)).
Proof.
  pose proof (pb_fits _ _ _ _ Hb) as Hf. pose proof (block_bytes_ok b Hf) as Hok.
  assert (Hlen : is_u64 len) by (unfold len; destruct (bk_invalid_txs b); small).
  pose proof header_is_item. pose proof body_is_item. assert (Hk : one_item (sh_kes_signature (bk_header b))) by apply Hf.
  split_and!.
  - change (block_bytes_of b) with (argument_bytes MAJOR_ARRAY len ++ header_bytes_of (bk_header b) ++ rest) in *.
    rewrite app_assoc in *. apply reads_front; [|done|done].
    eapply reads_pbind; [by apply reads_header_array|by apply reads_item].
  - assert (E : block_bytes_of b = (argument_bytes MAJOR_ARRAY len ++ argument_bytes MAJOR_ARRAY 2 ++ header_body_bytes_of hb) ++
      sh_kes_signature (bk_header b) ++ rest) by (unfold block_bytes_of, header_bytes_of; by rewrite <- !app_assoc).
    rewrite E in *. apply reads_front; [|done|done].
    eapply reads_pbind; [by apply reads_header_array|]. eapply reads_pbind; [apply reads_header_array; small|by apply reads_item].
  - assert (E : block_bytes_of b = (argument_bytes MAJOR_ARRAY len ++ argument_bytes MAJOR_ARRAY 2 ++ header_body_bytes_of hb ++
      sh_kes_signature (bk_header b)) ++ rest) by (unfold block_bytes_of, header_bytes_of; by rewrite <- !app_assoc).
    rewrite E in *. apply reads_front; [|done|done].
    eapply reads_pbind; [by apply reads_header_array|]. eapply reads_pbind; [apply reads_header_array; small|].
    eapply reads_pbind; [by apply reads_item|by apply reads_item].
Qed.

Lemma praos_input : praos_header_input (block_bytes_of b) hb = Ok (header_input_of b output proof sig).
Proof.
  destruct walks as (_ & W2 & W3). unfold praos_header_input.
  pose proof (pb_vrf _ _ _ _ Hb) as Hv. fold hb in Hv. rewrite Hv. cbn [rbind].
  rewrite (combined_vrf output proof) by apply Hb. cbn [rbind].
  assert (Hx : forall n s k, blen s = n -> expect_array n s k = Ok s) by (intros n s k E; unfold expect_array; by rewrite E, Z.eqb_refl).
  rewrite (Hx 32) by apply Hb. rewrite (Hx 64) by apply Hb. rewrite (Hx 80) by apply Hb. cbn [rbind].
  rewrite W2, W3. cbn [rbind]. destruct (pb_kes _ _ _ _ Hb) as (-> & Hs & Hsl).
  assert (Hu : unwrap_cbor_bytes (string_bytes sig) = Ok sig).
  { unfold unwrap_cbor_bytes. pose proof (reads_bytes sig Hsl [] []) as R. rewrite app_nil_r in R. cbn [app] in R.
    change (blen []) with 0 in R. unfold string_bytes. rewrite R; [done| |].
    - by apply string_bytes_ok.
    - destruct (pb_kes _ _ _ _ Hb) as (Ek & _). eapply Z.le_trans; [|exact Hl].
      change (argument_bytes MAJOR_BYTES (blen sig) ++ sig) with (string_bytes sig). rewrite <- Ek.
      unfold block_bytes_of, header_bytes_of. within. }
  rewrite Hu. cbn [rbind]. unfold header_input_of. fold hb.
  destruct (pb_fits _ _ _ _ Hb) as (Hh & _). by rewrite encode_header_body_bytes by done.
Qed.
End Walks.

Lemma encode_header_bytes h : header_body_fits (sh_body h) -> encode_header [] h = header_bytes_of h.
Proof.
  intros Hh. unfold encode_header. rewrite (write_small_array _ 2) by lia.
  rewrite encode_header_body_bytes by done. cbn [app]. by rewrite <- app_assoc.
Qed.

(** C35. The block a producer encodes is the block a validator decodes: inside the envelope of
    either Praos era it yields the header's fields as header input, the bytes that were
    encoded as the KES-signed body, the hash of the encoded header as block hash and the hash
    of its buckets as body hash; the served header is the encoded header. *)
Theorem forged_block_decodes (e : CardanoEra) (b : ShelleyBlock) (output proof sig : list Z)
    (He : e = Babbage \/ e = Conway) (Hb : praos_block b output proof sig)
    (Hl : 2 + blen (encode_block [] b) <= u64_max) :
  let c := encode_block_envelope e (encode_block [] b) in
  let header := encode_header [] (bk_header b) in
  decode_block c =
    Ok (mk_DecodedBlock e (header_input_of b output proof sig) (blake2b_256 header)
          (hb_prev_hash (sh_body (bk_header b))) (block_body_hash b) 2 (2 + blen (encode_block [] b))) /\
  block_header_bytes c = Ok header.
Proof.
  pose proof (pb_fits _ _ _ _ Hb) as Hf. cbv zeta.
  rewrite encode_header_bytes by apply Hf. rewrite encode_block_bytes in * by done.
  pose proof (block_bytes_ok b Hf) as Hok.
  assert (Hm : blen (block_bytes_of b) <= u64_max) by lia.
  pose proof (block_is_item b output proof sig Hb Hm) as [_ Hi].
  pose proof (item_skip _ 0 _ Hok (Z.le_refl 0) Hi) as Hskip.
  destruct (block_envelope_roundtrip e (block_bytes_of b) Hok Hl Hskip) as [Henv Hsl].
  destruct (walks b output proof sig Hb Hm) as (W1 & _).
  unfold decode_block, block_header_bytes. rewrite Henv. cbn [map_err rbind block_start block_end era].
  rewrite Hsl, W1. split; [|done].
  assert (Hdi : decode_inner e (block_bytes_of b) = Ok (mk_Preserved (block_bytes_of b) b)).
  { assert (Hw : decode_whole_block (block_bytes_of b) = Ok (mk_Preserved (block_bytes_of b) b)).
    { unfold decode_whole_block. rewrite (reads_alone _ _ b) by (first [by apply reads_block|done]).
      by rewrite Z.eqb_refl. }
    unfold decode_inner, decode_babbage_block, decode_conway_block. by destruct He as [-> | ->]; rewrite Hw. }
  rewrite Hdi. cbn [rbind decoded]. unfold check_header_position.
  rewrite (pb_position _ _ _ _ Hb), Bool.eqb_reflx. cbn [rbind].
  destruct He as [-> | ->]; by rewrite (praos_input b output proof sig).
Qed.
End Forged.
