(* ===== verification/ToyBlocks.v ===== *)
(** Concrete blocks for the witnesses: a toy ledger whose state is the list of the blocks it
    applied, and blocks that pass every check under a stand-in for the cryptography. *)

From S2P Require Import Prelude Cbor CborSkip CborRoundtrip NetCodec Spelling Wal.
From S2P Require Import Envelope EraSchedule Timing Extension Leader Kes ChainDep Header HeaderFacts.
From S2P Require Import BlockCodec BlockFacts BlockValidity BlockBinding.

(** A checksum for a hash, the parent of two KES keys aside; signatures are accepted. *)
#[export] Instance block_crypto : Crypto := {|
  blake2b_256 := fun x =>
    if blen x =? 64 then repeat 0 32 else 1 :: to_be 4 (fold_left (fun a b => 3 * a + b + 1) x 0) ++ repeat 0 27;
  vrf_draft03_verify := fun vk proof alpha => Some (take 64 proof);
|}.
#[export] Instance block_ed25519 : Ed25519 := {|
  ed_public := fun seed => seed;
  ed_sign := fun seed msg => repeat 0 64;
  ed_verify := fun vk msg sig => Some true;
|}.
#[export] Instance block_hash_laws : HashLaws.
Proof.
  constructor. intros x. cbn [blake2b_256 block_crypto].
  destruct (blen x =? 64); [done|]. cbn [length]. by rewrite length_app, length_to_be.
Qed.

#[export] Instance toy_blake224 : Blake224 := {| blake2b_224 := fun x => take 28 (blake2b_256 x) |}.

(** The state lists the lengths of the blocks applied; the era and the schedule play no part. *)
#[export] Instance toy_rules : LedgerRules := {|
  LedgerState := list Z;
  LedgerError := CodecError;
  BlockVerdict := Z;
  ledger_error := fun e => e;
  apply_block_with_verdicts := fun s _ inner _ => Ok (blen s, fold_left Z.add inner 0 :: s);
  ledger_fingerprint := fun s => blake2b_256 (concat (map (to_be 8) s));
|}.

(** Every pool is known, with half of the stake. *)
Definition block_view : LedgerView := {|
  total_active_stake := fun _ => Some 2;
  pool_active_stake := fun _ _ => Some 1;
  pool_vrf_keyhash := fun _ _ => Some (blake2b_256 toy_vk);
  active_slots_coeff := fun _ => Some (mk_ActiveSlotsCoeff 1 20);
|}.

Definition toy_cold : list Z := repeat 4 32.
Definition toy_opcert : OperationalCert := mk_OperationalCert (repeat 0 32) 3 0 (repeat 0 64).

Definition toy_proof : list Z := repeat 3 80.
Definition toy_output : list Z := repeat 3 64.

Definition toy_header_body (slot bn : Z) (prev : PrevHash) (witnesses : list Z) : ShelleyHeaderBody :=
  mk_HeaderBody bn slot prev toy_cold toy_vk
    (Combined (array_bytes 2 (string_bytes toy_output ++ string_bytes toy_proof))) 4
    (block_body_hash_from_buckets [0x80] witnesses [0xa0] (Some [0x80]))
    toy_opcert (mk_ProtocolVersion 9 0).

Definition toy_sig : list Z := repeat 0 448.

Definition toy_block (slot bn : Z) (prev : PrevHash) (witnesses : list Z) : ShelleyBlock :=
  mk_ShelleyBlock (mk_ShelleyHeader (toy_header_body slot bn prev witnesses)
                     (string_bytes toy_sig))
    0 [0x80] witnesses [0xa0] (Some [0x80]).

Definition toy_cbor (slot bn : Z) (prev : PrevHash) (witnesses : list Z) : list Z :=
  encode_block_envelope Conway (encode_block [] (toy_block slot bn prev witnesses)).

(** The same block in a Babbage envelope, its outer array head in a longer form. *)
Definition reframed (c : list Z) : list Z := [0x82; 6; 0x98; 5] ++ drop 3 c.

(** The tip of a valid verdict. *)
Definition valid_tip (o : BlockValidityOutcome) : option (Z * Hash32) :=
  match bo_verdict o with Verdict_Valid tip _ _ => Some tip | Verdict_Invalid _ _ => None end.

Definition toy_header_hash (slot bn : Z) (prev : PrevHash) (witnesses : list Z) : Hash32 :=
  blake2b_256 (encode_header [] (bk_header (toy_block slot bn prev witnesses))).

Definition parent : PrevHash := Prev_Block (repeat 6 32).

Example toy_block_valid :
  valid_tip (@block_validity _ _ _ _ block_view [] epoch_start preview (toy_cbor 20 5 parent [0x80])) =
    Some (20, toy_header_hash 20 5 parent [0x80]).
Proof. vm_compute. reflexivity. Qed.

Example reframed_valid :
  valid_tip (@block_validity _ _ _ _ block_view [] epoch_start preview (reframed (toy_cbor 20 5 parent [0x80]))) =
    Some (20, toy_header_hash 20 5 parent [0x80]).
Proof. vm_compute. reflexivity. Qed.

(** Its witness set replaced, the body no longer matches the header. *)
Example swapped_body_refused :
  valid_tip (@block_validity _ _ _ _ block_view [] epoch_start preview
    (encode_block_envelope Conway (encode_block []
       (mk_ShelleyBlock (bk_header (toy_block 20 5 parent [0x80])) 0 [0x80] [0x81; 0] [0xa0] (Some [0x80]))))) = None.
Proof. vm_compute. reflexivity. Qed.

(** The block decodes, passes the body-hash binding and has this hash. *)
Definition decodes_to (c : list Z) (hash : Hash32) : bool :=
  match decode_block c with
  | Ok d => bool_decide (dk_computed_body_hash d = body_hash (dk_header_input d)) &&
            bool_decide (dk_block_hash d = hash)
  | Err _ => false
  end.

Lemma decodes_to_ok c hash : decodes_to c hash = true ->
  exists d, decode_block c = Ok d /\ authentic d /\ dk_block_hash d = hash.
Proof.
  unfold decodes_to. destruct (decode_block c) as [d|]; [|done].
  intros [Ha%bool_decide_eq_true Hh%bool_decide_eq_true]%andb_true_iff. by exists d.
Qed.

Lemma block_hash_binds_witness :
  (exists content, block_content (toy_cbor 20 5 parent [0x80]) = Some content /\
     block_content (reframed (toy_cbor 20 5 parent [0x80])) = Some content) \/ collision.
Proof.
  destruct (decodes_to_ok (toy_cbor 20 5 parent [0x80]) (toy_header_hash 20 5 parent [0x80])) as (d1 & E1 & A1 & H1);
    [by vm_compute|].
  destruct (decodes_to_ok (reframed (toy_cbor 20 5 parent [0x80])) (toy_header_hash 20 5 parent [0x80])) as (d2 & E2 & A2 & H2);
    [by vm_compute|].
  apply (block_hash_binds (toy_cbor 20 5 parent [0x80]) (reframed (toy_cbor 20 5 parent [0x80])) d1 d2);
    [apply all_bytes_ok; by vm_compute|apply all_bytes_ok; by vm_compute|by vm_compute|by vm_compute
    |exact E1|exact E2|exact A1|exact A2|by rewrite H1, H2].
Defined.

Definition toy : ShelleyBlock := toy_block 20 5 parent [0x80].

Lemma toy_fits : block_fits toy.
Proof.
  assert (Ht : one_item [0x80]) by (apply is_item_ok; by vm_compute).
  split; [|split; [apply is_item_ok; by vm_compute|]].
  - split; [|split; [|split; [|split]]].
    + split; [small|split; [small|]]. by apply (vector_ok 32); vm_compute.
    + split; [|split]; [split; [apply all_bytes_ok; by vm_compute|by vm_compute]..|].
      apply is_item_ok; by vm_compute.
    + split; [small|]. by apply (vector_ok 32); vm_compute.
    + destruct (vector_ok 32 (oc_hot_vkey toy_opcert)) as [? ?]; [by vm_compute|].
      destruct (vector_ok 64 (oc_sigma toy_opcert)) as [? ?]; [by vm_compute|].
      split_and!; try done; small.
    + split; small.
  - split; [|split; [done|split; [apply is_item_ok; by vm_compute|done]]].
    split; [|small]. exists []. split; [constructor|split; [done|]]. left. exists Inline. by split.
Qed.

Lemma block_codec_roundtrip_witness :
  decode_babbage_block (encode_block [] toy) = Ok (mk_Preserved (encode_block [] toy) toy) /\
  decode_conway_block (encode_block [] toy) = Ok (mk_Preserved (encode_block [] toy) toy).
Proof. apply (block_codec_roundtrip toy); [exact toy_fits|by vm_compute]. Defined.

Lemma toy_praos : praos_block toy toy_output toy_proof toy_sig.
Proof.
  constructor; [exact toy_fits|done| | |by vm_compute| |done].
  - by apply vector_ok; vm_compute.
  - by apply vector_ok; vm_compute.
  - destruct (vector_ok 448 toy_sig) as [Hs E]; [by vm_compute|].
    split; [exact eq_refl|]. split; [exact Hs|]. rewrite E. small.
Qed.

Lemma forged_block_decodes_witness :
  decode_block (toy_cbor 20 5 parent [0x80]) =
    Ok (mk_DecodedBlock Conway (header_input_of toy toy_output toy_proof toy_sig)
          (blake2b_256 (encode_header [] (bk_header toy))) parent (block_body_hash toy) 2
          (2 + blen (encode_block [] toy))) /\
  block_header_bytes (toy_cbor 20 5 parent [0x80]) = Ok (encode_header [] (bk_header toy)).
Proof.
  apply (forged_block_decodes Conway toy toy_output toy_proof toy_sig);
    [by right|exact toy_praos|by vm_compute].
Defined.
