(* ===== verification/Receive.v ===== *)
(** The receive reducer and the rollback driver: [ade_ledger/src/receive/]
    ([pending_header_cache.rs], [events.rs], [admitted.rs], [chain_write.rs], [reducer.rs]) and
    [ade_ledger/src/rollback/] ([traits.rs], [error.rs], [materialize.rs], [commit.rs],
    [admission.rs]).

    A function that takes [&mut ReceiveState] and [&mut W] returns its result with the state
    and the store it leaves behind.  The traits the two modules declare are an interface: the
    store as the class [ChainDbWrite], the readers as the fields of [RollbackContext]. *)

From S2P Require Import Prelude Cbor Decoder Envelope EraSchedule Leader Kes ChainDep Header BlockCodec BlockValidity.
From S2P Require Import BTree.

(** * Pending headers ([pending_header_cache.rs]) *)

Definition PendingHeaderCache : Type := BTreeMap (Z * Hash32) (list Z).

Inductive PendingHeaderCacheError : Type := ByteConflict (slot : Z) (hash : Hash32).

Definition phc_insert (c : PendingHeaderCache) (slot : Z) (hash : Hash32) (header_bytes : list Z) :
    result PendingHeaderCache PendingHeaderCacheError :=
  match bt_get c (slot, hash) with
  | Some existing => if bool_decide (existing = header_bytes) then Ok c else Err (ByteConflict slot hash)
  | None => Ok (bt_insert c (slot, hash) header_bytes)
  end.

Definition phc_get (c : PendingHeaderCache) (slot : Z) (hash : Hash32) : option (list Z) := bt_get c (slot, hash).
Definition phc_contains (c : PendingHeaderCache) (slot : Z) (hash : Hash32) : bool :=
  match bt_get c (slot, hash) with Some _ => true | None => false end.
Definition phc_remove (c : PendingHeaderCache) (slot : Z) (hash : Hash32) : PendingHeaderCache :=
  bt_remove c (slot, hash).
(** [split_off] keeps the entries at and above the key. *)
Definition phc_evict_below (c : PendingHeaderCache) (slot : Z) : PendingHeaderCache :=
  bt_from c (slot, repeat 0 32).

(** * Events, effects and errors ([events.rs], [chain_write.rs], [rollback/error.rs]) *)

Record TargetPoint : Type := mk_TargetPoint { tg_slot : Z; tg_hash : Hash32 }.
Record TipPoint : Type := mk_TipPoint { tp_slot : Z; tp_hash : Hash32; tp_block_no : Z }.

Inductive ReceiveEvent : Type :=
| Ev_RollForward (slot : Z) (hash : Hash32) (header_bytes : list Z) (tip : TipPoint)
| Ev_RollBackward (target_point : TargetPoint) (tip : TipPoint)
| Ev_BlockDelivered (block_bytes : list Z).

Inductive NoOpReason : Type := HeaderAlreadyCached.

Inductive ReceiveEffect : Type :=
| Eff_Admitted (slot : Z) (hash : Hash32)
| Eff_Cached (slot : Z) (hash : Hash32)
| Eff_RolledBack (to_slot : Z)
| Eff_NoOp (reason : NoOpReason).

Inductive ChainWriteErrorKind : Type := CW_Io | CW_InvalidOperation | CW_Other.
Inductive ChainWriteError : Type :=
| SlotConflict (slot : Z) (hash : Hash32)
| Underlying (kind : ChainWriteErrorKind).

(** [AdmittedBlock]: its constructor is private to [admit_via_block_validity]. *)
Record AdmittedBlock : Type := mk_AdmittedBlock { ab_bytes : list Z }.

(** [trait ChainDbWrite]. *)
Class ChainDbWrite (W : Type) : Type := {
  write_admitted : W -> AdmittedBlock -> result unit ChainWriteError * W;
  write_rollback_to_slot : W -> Z -> result unit ChainWriteError * W;
}.

Inductive CommitRollbackError : Type := Commit_ChainDb (e : ChainWriteError).

Section Receive.
Context `{Crypto, Ed25519, !Blake224, LedgerRules}.

Inductive ReceiveError : Type :=
| HeaderBodyMismatch (decoded_slot : Z) (decoded_hash : Hash32)
| Validity (e : BlockValidityError)
| RollbackOutOfScope (target_point : TargetPoint)
| Rcv_ChainDb (e : ChainWriteError).

Inductive MaterializeError : Type :=
| RollbackTooDeep (target_slot : Z) (oldest_snapshot : option Z)
| ReplayFailedAt (slot : Z) (error : BlockValidityError)
| EraNotSupported (e : CardanoEra) (slot : Z).

(** * Admission of a block ([admitted.rs]) *)

Record AdmittedOutcome : Type := mk_AdmittedOutcome {
  ao_admitted : AdmittedBlock; ao_ledger : LedgerState; ao_chain_dep : PraosChainDepState
}.

Definition admit_via_block_validity `{LedgerView} (block_bytes : list Z) (ledger : LedgerState)
    (chain_dep : PraosChainDepState) (era_schedule : EraSchedule) : result AdmittedOutcome BlockValidityError :=
  let o := block_validity ledger chain_dep era_schedule block_bytes in
  match bo_verdict o with
  | Verdict_Valid _ _ _ => Ok (mk_AdmittedOutcome (mk_AdmittedBlock block_bytes) (bo_ledger o) (bo_chain_dep o))
  | Verdict_Invalid _ error => Err error
  end.

(** * The receive state and the readers of a rollback ([reducer.rs], [rollback/traits.rs]) *)

Record ReceiveState : Type := mk_ReceiveState {
  rs_ledger : LedgerState;
  rs_chain_dep : PraosChainDepState;
  pending_headers : PendingHeaderCache;
}.
Definition receive_state_new (ledger : LedgerState) (chain_dep : PraosChainDepState) : ReceiveState :=
  mk_ReceiveState ledger chain_dep [].

Record RollbackContext : Type := mk_RollbackContext {
  nearest_le : Z -> option (Z * LedgerState * PraosChainDepState);
  blocks_in_range : Z -> Z -> list (Z * list Z);
  ctx_recovered_eta0 : option Nonce;
}.

(** * Materializing a rolled-back state ([materialize.rs]) *)

Definition is_supported_era (e : CardanoEra) : bool :=
  match e with Babbage | Conway => true | _ => false end.

Fixpoint replay_blocks `{LedgerView} (replay_schedule : EraSchedule) (ledger : LedgerState)
    (chain_dep : PraosChainDepState) (blocks : list (Z * list Z)) :
    result (LedgerState * PraosChainDepState) MaterializeError :=
  match blocks with
  | [] => Ok (ledger, chain_dep)
  | (slot, block_bytes) :: blocks =>
      match decode_block_envelope block_bytes with
      | Err e => Err (ReplayFailedAt slot (BV_Body (ledger_error e)))
      | Ok env =>
          if negb (is_supported_era (era env)) then Err (EraNotSupported (era env) slot) else
          let o := block_validity_trusted_replay ledger chain_dep replay_schedule block_bytes in
          match bo_verdict o with
          | Verdict_Valid _ _ _ => replay_blocks replay_schedule (bo_ledger o) (bo_chain_dep o) blocks
          | Verdict_Invalid _ error => Err (ReplayFailedAt slot error)
          end
      end
  end.

Definition materialize_rolled_back_state `{LedgerView} (target : TargetPoint) (ctx : RollbackContext)
    (era_schedule : EraSchedule) : result (LedgerState * PraosChainDepState) MaterializeError :=
  match nearest_le ctx (tg_slot target) with
  | None => Err (RollbackTooDeep (tg_slot target) None)
  | Some (snapshot_slot, ledger, chain_dep) =>
      let chain_dep := match ctx_recovered_eta0 ctx with
                       | Some eta0 => overlay_recovered_eta0 chain_dep eta0
                       | None => chain_dep
                       end in
      if snapshot_slot =? tg_slot target then Ok (ledger, chain_dep) else
      let replay_schedule := extend_to_slot era_schedule (tg_slot target) in
      replay_blocks replay_schedule ledger chain_dep (blocks_in_range ctx snapshot_slot (tg_slot target))
  end.

(** * Committing a rollback ([commit.rs]) *)

Definition commit_rollback {W} `{ChainDbWrite W} (state : ReceiveState) (target : TargetPoint)
    (new_ledger : LedgerState) (new_chain_dep : PraosChainDepState) (chain_write : W) :
    result unit CommitRollbackError * ReceiveState * W :=
  match write_rollback_to_slot chain_write (tg_slot target) with
  | (Err e, w) => (Err (Commit_ChainDb e), state, w)
  | (Ok _, w) => (Ok tt, mk_ReceiveState new_ledger new_chain_dep [], w)
  end.

(** * The reducer ([reducer.rs]) *)

Definition zero_hash : Hash32 := repeat 0 32.

Definition map_materialize_err (e : MaterializeError) : ReceiveError :=
  match e with
  | RollbackTooDeep target_slot _ => RollbackOutOfScope (mk_TargetPoint target_slot zero_hash)
  | ReplayFailedAt _ error => Validity error
  | EraNotSupported _ slot => RollbackOutOfScope (mk_TargetPoint slot zero_hash)
  end.

Definition map_commit_err (e : CommitRollbackError) : ReceiveError :=
  match e with Commit_ChainDb w => Rcv_ChainDb w end.

Section Reducer.
Context {W : Type} `{ChainDbWrite W}.

Definition roll_backward `{LedgerView} (state : ReceiveState) (target_point : TargetPoint) (chain_write : W)
    (era_schedule : EraSchedule) (ctx : RollbackContext) : result ReceiveEffect ReceiveError * ReceiveState * W :=
  match materialize_rolled_back_state target_point ctx era_schedule with
  | Err e => (Err (map_materialize_err e), state, chain_write)
  | Ok (new_ledger, new_chain_dep) =>
      match commit_rollback state target_point new_ledger new_chain_dep chain_write with
      | (Err e, state, w) => (Err (map_commit_err e), state, w)
      | (Ok _, state, w) => (Ok (Eff_RolledBack (tg_slot target_point)), state, w)
      end
  end.

Definition roll_forward (state : ReceiveState) (slot : Z) (hash : Hash32) (header_bytes : list Z) :
    result ReceiveEffect ReceiveError * ReceiveState :=
  let pre_len := blen (pending_headers state) in
  let already_present := phc_contains (pending_headers state) slot hash in
  match phc_insert (pending_headers state) slot hash header_bytes with
  | Ok c =>
      let state := mk_ReceiveState (rs_ledger state) (rs_chain_dep state) c in
      if already_present && (blen c =? pre_len) then (Ok (Eff_NoOp HeaderAlreadyCached), state)
      else (Ok (Eff_Cached slot hash), state)
  | Err (ByteConflict slot hash) => (Err (HeaderBodyMismatch slot hash), state)
  end.

Definition block_delivered `{LedgerView} (state : ReceiveState) (block_bytes : list Z) (chain_write : W)
    (era_schedule : EraSchedule) : result ReceiveEffect ReceiveError * ReceiveState * W :=
  match decode_block block_bytes with
  | Err e => (Err (Validity e), state, chain_write)
  | Ok decoded =>
      let slot := hi_slot (dk_header_input decoded) in
      let block_hash := dk_block_hash decoded in
      if negb (phc_contains (pending_headers state) slot block_hash)
      then (Err (HeaderBodyMismatch slot block_hash), state, chain_write)
      else
        match admit_via_block_validity block_bytes (rs_ledger state) (rs_chain_dep state) era_schedule with
        | Err e => (Err (Validity e), state, chain_write)
        | Ok outcome =>
            match write_admitted chain_write (ao_admitted outcome) with
            | (Err e, w) => (Err (Rcv_ChainDb e), state, w)
            | (Ok _, w) =>
                (Ok (Eff_Admitted slot block_hash),
                 mk_ReceiveState (ao_ledger outcome) (ao_chain_dep outcome)
                   (phc_remove (pending_headers state) slot block_hash), w)
            end
        end
  end.

Definition receive_apply `{LedgerView} (state : ReceiveState) (event : ReceiveEvent) (chain_write : W)
    (era_schedule : EraSchedule) (rollback_ctx : option RollbackContext) :
    result ReceiveEffect ReceiveError * ReceiveState * W :=
  match event with
  | Ev_RollForward slot hash header_bytes _ =>
      let '(r, state) := roll_forward state slot hash header_bytes in (r, state, chain_write)
  | Ev_BlockDelivered block_bytes => block_delivered state block_bytes chain_write era_schedule
  | Ev_RollBackward target_point _ =>
      match rollback_ctx with
      | Some ctx => roll_backward state target_point chain_write era_schedule ctx
      | None => (Err (RollbackOutOfScope target_point), state, chain_write)
      end
  end.

Fixpoint receive_apply_sequence `{LedgerView} (state : ReceiveState) (events : list ReceiveEvent)
    (chain_write : W) (era_schedule : EraSchedule) (effects : list ReceiveEffect) :
    result (list ReceiveEffect) ReceiveError * ReceiveState * W :=
  match events with
  | [] => (Ok effects, state, chain_write)
  | event :: events =>
      match receive_apply state event chain_write era_schedule None with
      | (Err e, state, w) => (Err e, state, w)
      | (Ok effect, state, w) => receive_apply_sequence state events w era_schedule (effects ++ [effect])
      end
  end.
End Reducer.
End Receive.

(** * Rollback admission ([admission.rs]) *)

Record RollbackPoint : Type := mk_RollbackPoint { rb_slot : Z; rb_block_no : Z; rb_hash : Hash32 }.

Inductive RollbackAdmissionError : Type :=
| BeforeBootstrapAnchor (target_block_no anchor_block_no : Z)
| Adm_ExceededRollback (depth k tip_block_no target_block_no : Z)
| LineageMismatch (slot : Z) (canonical target : Hash32)
| TargetNotOnCanonicalChain (slot : Z).

Definition admit_rollback (tip target anchor : RollbackPoint) (k : Z) (canonical_hash_at : Z -> option Hash32) :
    result unit RollbackAdmissionError :=
  if rb_block_no target <? rb_block_no anchor
  then Err (BeforeBootstrapAnchor (rb_block_no target) (rb_block_no anchor)) else
  let depth := saturating_sub (rb_block_no tip) (rb_block_no target) in
  if k <? depth then Err (Adm_ExceededRollback depth k (rb_block_no tip) (rb_block_no target)) else
  match canonical_hash_at (rb_slot target) with
  | Some h => if bool_decide (h = rb_hash target) then Ok tt
              else Err (LineageMismatch (rb_slot target) h (rb_hash target))
  | None => Err (TargetNotOnCanonicalChain (rb_slot target))
  end.

Inductive ResetReason : Type := AnchorAbsent | DurableTipBehindAnchor.
Inductive RecoveryAction : Type := ForwardFold | ResetAndRefold (reason : ResetReason).

Definition reconcile_recovery (anchor durable_at_anchor : option RollbackPoint) (tip seed : RollbackPoint)
    (k : Z) (canonical_hash_at : Z -> option Hash32) : result RecoveryAction RollbackAdmissionError :=
  match anchor with
  | None => Ok (ResetAndRefold AnchorAbsent)
  | Some anchor =>
      match durable_at_anchor with
      | Some dp =>
          if (rb_slot dp =? rb_slot anchor) && (rb_block_no dp =? rb_block_no anchor)
             && bool_decide (rb_hash dp = rb_hash anchor)
          then
            if rb_block_no anchor <=? rb_block_no tip then Ok ForwardFold
            else
              let? _ := admit_rollback anchor tip seed k canonical_hash_at in
              Ok (ResetAndRefold DurableTipBehindAnchor)
          else Err (LineageMismatch (rb_slot anchor) (rb_hash dp) (rb_hash anchor))
      | None => Err (TargetNotOnCanonicalChain (rb_slot anchor))
      end
  end.
