(* ===== verification/ReceiveStores.v ===== *)
(** What the receive reducer runs on: [ade_runtime/src/receive/] (the store adapter
    [in_memory_chain_write.rs], the lifting of network events [events_to_state.rs], the frame
    dispatch [orchestrator.rs]) and [ade_runtime/src/rollback/] (the snapshot cadence, the
    block source over the chain database, the two snapshot caches and their writers).

    The database is the in-memory one of [ChainDb.v].  The snapshot encoding
    ([ade_ledger/src/snapshot/]) is an interface. *)

From S2P Require Import Prelude Cbor NetCodec EraSchedule Leader Kes ChainDep Header BlockValidity BTree ChainDb.
From S2P Require Import ChainSync BlockFetch Receive.

(** [encode_snapshot] and [decode_snapshot] of [snapshot/framing.rs]. *)
Class SnapshotCodec `{LedgerRules} : Type := {
  SnapshotEncodeError : Type;
  encode_snapshot : LedgerState -> PraosChainDepState -> result (list Z) SnapshotEncodeError;
  decode_snapshot : list Z -> option (LedgerState * PraosChainDepState);
}.

(** What is captured is what is read back. *)
Class SnapshotCodecLaws `{SnapshotCodec} : Prop := {
  decode_encode_snapshot ledger chain_dep bytes :
    encode_snapshot ledger chain_dep = Ok bytes -> decode_snapshot bytes = Some (ledger, chain_dep);
}.

(** * Cadence ([cadence.rs]) *)

Definition SnapshotCadence : Type := Z. (* every_n_blocks *)
Definition SnapshotCadence_DEFAULT : SnapshotCadence := 100.

Definition should_snapshot_after_block (slot block_no : Z) (every_n_blocks : SnapshotCadence)
    (last_snapshot : option Z) : bool :=
  if every_n_blocks =? 0 then false
  else if negb (block_no mod every_n_blocks =? 0) then false
  else match last_snapshot with Some l => negb (slot <=? l) | None => true end.

Section Stores.
Context `{Crypto, Ed25519, !Blake224, LedgerRules}.

(** * The store adapter ([in_memory_chain_write.rs]) *)

Definition map_chaindb_err (e : ChainDbError) (slot : Z) (hash : Hash32) : ChainWriteError :=
  match e with InvalidOperation _ => SlotConflict slot hash end.

Definition writer_write_admitted (db : Inner) (block : AdmittedBlock) : result unit ChainWriteError * Inner :=
  let bytes := ab_bytes block in
  match BlockValidity.decode_block bytes with
  | Err _ => (Err (Underlying CW_Other), db)
  | Ok decoded =>
      let stored := mk_StoredBlock (dk_block_hash decoded) (hi_slot (dk_header_input decoded)) bytes in
      let '(r, db) := put_block db stored in
      (map_err (fun e => map_chaindb_err e (sb_slot stored) (sb_hash stored)) r, db)
  end.

#[export] Instance ChainDbWriter : ChainDbWrite Inner := {|
  write_admitted := writer_write_admitted;
  write_rollback_to_slot := fun db slot => (Ok tt, rollback_to_slot db slot);
|}.

(** * The block source ([chaindb_block_source.rs]): the loop stops at the first slot above. *)

Fixpoint take_up_to (to_inclusive : Z) (blocks : list StoredBlock) : list (Z * list Z) :=
  match blocks with
  | [] => []
  | stored :: blocks =>
      if to_inclusive <? sb_slot stored then []
      else (sb_slot stored, sb_bytes stored) :: take_up_to to_inclusive blocks
  end.

Definition chaindb_blocks_in_range (db : Inner) (from_exclusive to_inclusive : Z) : list (Z * list Z) :=
  take_up_to to_inclusive (mem_iter_from_slot db (saturating_add from_exclusive 1)).

(** * The in-memory snapshot cache ([in_memory_cache.rs]) and its writer ([snapshot_writer.rs]) *)

Definition InMemorySnapshotCache : Type := BTreeMap Z (LedgerState * PraosChainDepState).

Definition cache_admit (c : InMemorySnapshotCache) (slot : Z) (ledger : LedgerState)
    (chain_dep : PraosChainDepState) : InMemorySnapshotCache := bt_insert c slot (ledger, chain_dep).
Definition cache_oldest (c : InMemorySnapshotCache) : option Z := option_map fst (head c).
Definition cache_most_recent (c : InMemorySnapshotCache) : option Z := option_map fst (bt_last c).
Definition cache_slots (c : InMemorySnapshotCache) : list Z := map fst c.
Definition capture_from (c : InMemorySnapshotCache) (slot : Z) (state : ReceiveState) : InMemorySnapshotCache :=
  cache_admit c slot (rs_ledger state) (rs_chain_dep state).

(** [range(..=target)]; the loop keeps the last entry. *)
Definition cache_nearest_le (c : InMemorySnapshotCache) (target_slot : Z) :
    option (Z * LedgerState * PraosChainDepState) :=
  match last (List.filter (fun e => fst e <=? target_slot) c) with
  | Some (k, (l, cd)) => Some (k, l, cd)
  | None => None
  end.

Definition maybe_capture_snapshot (cache : InMemorySnapshotCache) (cadence : SnapshotCadence)
    (effect : ReceiveEffect) (state : ReceiveState) : bool * InMemorySnapshotCache :=
  match effect with
  | Eff_Admitted slot _ =>
      match last_block_no (rs_chain_dep state) with
      | Some block_no =>
          if should_snapshot_after_block slot block_no cadence (cache_most_recent cache)
          then (true, capture_from cache slot state) else (false, cache)
      | None => (false, cache)
      end
  | _ => (false, cache)
  end.

(** * The persistent snapshot cache ([persistent_cache.rs]) and its writer ([persistent_writer.rs]) *)

Section Persistent.
Context `{!SnapshotCodec}.

Inductive PersistentCacheError : Type :=
| Cache_Encode (e : SnapshotEncodeError)
| Cache_Store (e : ChainDbError).

Definition persistent_capture (db : Inner) (slot : Z) (ledger : LedgerState) (chain_dep : PraosChainDepState) :
    result unit PersistentCacheError * Inner :=
  match encode_snapshot ledger chain_dep with
  | Err e => (Err (Cache_Encode e), db)
  | Ok bytes => let '(r, db) := put_snapshot db slot bytes in (map_err Cache_Store r, db)
  end.

Definition persistent_nearest_le (db : Inner) (target_slot : Z) : option (Z * LedgerState * PraosChainDepState) :=
  match find (fun s => s <=? target_slot) (reverse (list_snapshot_slots db)) with
  | None => None
  | Some candidate =>
      match get_snapshot db candidate with
      | None => None
      | Some bytes =>
          match decode_snapshot bytes with
          | Some (ledger, chain_dep) => Some (candidate, ledger, chain_dep)
          | None => None
          end
      end
  end.

Record PersistentSnapshotWriter : Type := mk_PersistentSnapshotWriter {
  pw_cadence : SnapshotCadence; pw_last_capture : option Z
}.

Definition force_capture (w : PersistentSnapshotWriter) (db : Inner) (slot : Z) (ledger : LedgerState)
    (chain_dep : PraosChainDepState) : result unit PersistentCacheError * PersistentSnapshotWriter * Inner :=
  match persistent_capture db slot ledger chain_dep with
  | (Err e, db) => (Err e, w, db)
  | (Ok _, db) => (Ok tt, mk_PersistentSnapshotWriter (pw_cadence w) (Some slot), db)
  end.

Definition on_admitted (w : PersistentSnapshotWriter) (db : Inner) (slot block_no : Z) (ledger : LedgerState)
    (chain_dep : PraosChainDepState) : result bool PersistentCacheError * PersistentSnapshotWriter * Inner :=
  if negb (should_snapshot_after_block slot block_no (pw_cadence w) (pw_last_capture w))
  then (Ok false, w, db)
  else
    match persistent_capture db slot ledger chain_dep with
    | (Err e, db) => (Err e, w, db)
    | (Ok _, db) => (Ok true, mk_PersistentSnapshotWriter (pw_cadence w) (Some slot), db)
    end.

(** The readers a rollback of the live node uses. *)
Definition chaindb_context (db : Inner) (recovered_eta0 : option Nonce) : RollbackContext :=
  mk_RollbackContext (persistent_nearest_le db) (chaindb_blocks_in_range db) recovered_eta0.
End Persistent.
End Stores.

(** * Lifting network events ([events_to_state.rs]) *)

Definition point_to_slot_hash_cs (p : Point) : option (Z * Hash32) :=
  match p with Block slot hash => Some (slot, hash) | Origin => None end.

Definition tip_to_tip_point_cs (tip : Tip) : TipPoint :=
  let '(slot, hash) := match tip_point tip with Block slot hash => (slot, hash) | Origin => (0, zero_hash) end in
  mk_TipPoint slot hash (block_no tip).

Definition lift_chain_sync_signal (sig : ForkChoiceSignal) : option ReceiveEvent :=
  match sig with
  | Sig_RollForward header_bytes tip =>
      match point_to_slot_hash_cs (tip_point tip) with
      | None => None
      | Some (slot, hash) => Some (Ev_RollForward slot hash header_bytes (tip_to_tip_point_cs tip))
      end
  | Sig_RollBackward point tip =>
      let '(slot, hash) := default (0, zero_hash) (point_to_slot_hash_cs point) in
      Some (Ev_RollBackward (mk_TargetPoint slot hash) (tip_to_tip_point_cs tip))
  | Intersected _ _ | NoIntersection _ => None
  end.

Definition lift_block_fetch_event (ev : BatchDeliveryEvent) : option ReceiveEvent :=
  match ev with
  | BlockDelivered block_bytes => Some (Ev_BlockDelivered block_bytes)
  | BatchStarted | Ev_NoBlocks | BatchCompleted => None
  end.

(** * Frame dispatch ([orchestrator.rs]) *)

Definition message_to_fork_choice_signal (msg : ChainSyncMessage) : option ForkChoiceSignal :=
  match msg with
  | RollForward header tip => Some (Sig_RollForward header tip)
  | RollBackward point tip => Some (Sig_RollBackward point tip)
  | IntersectFound point tip => Some (Intersected point tip)
  | IntersectNotFound tip => Some (NoIntersection tip)
  | RequestNext | AwaitReply | FindIntersect _ | CS_Done => None
  end.

Definition message_to_batch_delivery_event (msg : BlockFetchMessage) : option BatchDeliveryEvent :=
  match msg with
  | StartBatch => Some BatchStarted
  | NoBlocks => Some Ev_NoBlocks
  | BF_Block bytes => Some (BlockDelivered bytes)
  | BatchDone => Some BatchCompleted
  | RequestRange _ | ClientDone => None
  end.

Section Dispatch.
Context `{Crypto, Ed25519, !Blake224, LedgerRules, LedgerView} {W : Type} `{ChainDbWrite W}.

Inductive ReceiveDispatchError : Type :=
| ChainSyncDecode (e : NetCodecError)
| BlockFetchDecode (e : NetCodecError)
| Dispatch_Receive (e : ReceiveError).

(** A decoder that panics takes the dispatch with it. *)
Definition fault_map {A B} (f : A -> B) (e : Fault A) : Fault B :=
  match e with Failed a => Failed (f a) | Panicked => Panicked end.

Definition apply_event (state : ReceiveState) (event : option ReceiveEvent) (chain_write : W)
    (era_schedule : EraSchedule) : result (option ReceiveEffect) (Fault ReceiveDispatchError) * ReceiveState * W :=
  match event with
  | Some e =>
      match receive_apply state e chain_write era_schedule None with
      | (Ok effect, state, w) => (Ok (Some effect), state, w)
      | (Err e, state, w) => (Err (Failed (Dispatch_Receive e)), state, w)
      end
  | None => (Ok None, state, chain_write)
  end.

Definition dispatch_chain_sync_inbound (state : ReceiveState) (frame : list Z) (chain_write : W)
    (era_schedule : EraSchedule) : result (option ReceiveEffect) (Fault ReceiveDispatchError) * ReceiveState * W :=
  match decode_chain_sync_message frame with
  | Err e => (Err (fault_map ChainSyncDecode e), state, chain_write)
  | Ok msg =>
      let event := match message_to_fork_choice_signal msg with
                   | Some s => lift_chain_sync_signal s | None => None end in
      apply_event state event chain_write era_schedule
  end.

Definition dispatch_block_fetch_inbound (state : ReceiveState) (frame : list Z) (chain_write : W)
    (era_schedule : EraSchedule) : result (option ReceiveEffect) (Fault ReceiveDispatchError) * ReceiveState * W :=
  match decode_block_fetch_message frame with
  | Err e => (Err (fault_map BlockFetchDecode e), state, chain_write)
  | Ok msg =>
      let event := match message_to_batch_delivery_event msg with
                   | Some e => lift_block_fetch_event e | None => None end in
      apply_event state event chain_write era_schedule
  end.
End Dispatch.
