(* ===== verification/StoredChain.v ===== *)
(** The chain database as a chain: its blocks, newest first, and what the operations the node
    uses do to that list. *)

From Stdlib Require Import Sorting.Sorted.
From S2P Require Import Prelude BTree ChainDb Receive ReceiveStores.

Lemma sorted_reverse {A} (R : A -> A -> Prop) l :
  StronglySorted R l -> StronglySorted (fun a b => R b a) (reverse l).
Proof.
  induction 1 as [|x l _ IH Hx]; [constructor|]. rewrite reverse_cons.
  assert (Ha : Forall (fun y => R x y) (reverse l)).
  { apply Forall_forall. intros y Hy. rewrite elem_of_reverse in Hy. rewrite Forall_forall in Hx. by apply Hx. }
  clear Hx. induction IH as [|y r Hr IHr Hy]; [repeat constructor|].
  apply Forall_cons in Ha as [H1 H2]. cbn [app]. constructor; [by apply IHr|].
  apply Forall_app. split; [done|]. by constructor.
Qed.

Definition stored_chain (i : Inner) : list StoredBlock := reverse (map snd (by_slot i)).

(** The part of a chain at or below a slot, and the part above one. *)
Definition up_to (slot : Z) (bs : list StoredBlock) : list StoredBlock :=
  List.filter (fun b => sb_slot b <=? slot) bs.
Definition above (slot : Z) (bs : list StoredBlock) : list StoredBlock :=
  List.filter (fun b => slot <? sb_slot b) bs.

(** Slots descend. *)
Definition descending (bs : list StoredBlock) : Prop := StronglySorted (fun a b => sb_slot b < sb_slot a) bs.

Lemma descending_cons b bs :
  descending (b :: bs) <-> descending bs /\ Forall (fun x => sb_slot x < sb_slot b) bs.
Proof. split; [by inversion 1|intros [? ?]; by constructor]. Qed.

Lemma descending_split slot bs : descending bs -> bs = above slot bs ++ up_to slot bs.
Proof.
  induction bs as [|b bs IH]; [done|]. intros [Hd Hb]%descending_cons. cbn.
  destruct (Z.ltb_spec slot (sb_slot b)), (Z.leb_spec (sb_slot b) slot); try lia.
  - cbn [app]. f_equal. by apply IH.
  - assert (E : above slot bs = []).
    { unfold above. rewrite Forall_forall in Hb. clear IH Hd. induction bs as [|c bs IH]; [done|]. cbn.
      destruct (Z.ltb_spec slot (sb_slot c)).
      - specialize (Hb c (list_elem_of_here _ _)). lia.
      - apply IH. intros x Hx. apply Hb. by apply list_elem_of_further. }
    change (b :: bs = above slot bs ++ b :: up_to slot bs). rewrite E. cbn [app]. f_equal.
    rewrite (IH Hd) at 1. by rewrite E.
Qed.

Lemma up_to_all slot bs : Forall (fun b => sb_slot b <= slot) bs -> up_to slot bs = bs.
Proof.
  induction 1 as [|b bs Hb _ IH]; [done|]. unfold up_to in *. cbn.
  destruct (Z.leb_spec (sb_slot b) slot); [by rewrite IH|lia].
Qed.

Lemma up_to_up_to slot slot' bs : slot <= slot' -> up_to slot (up_to slot' bs) = up_to slot bs.
Proof.
  intros Hs. unfold up_to. induction bs as [|b bs IH]; [done|]. cbn.
  destruct (Z.leb_spec (sb_slot b) slot'); cbn; [by rewrite IH|].
  destruct (Z.leb_spec (sb_slot b) slot); [lia|done].
Qed.

Lemma up_to_newer slot b bs : slot < sb_slot b -> up_to slot (b :: bs) = up_to slot bs.
Proof. intros H. unfold up_to. cbn. destruct (Z.leb_spec (sb_slot b) slot); [lia|done]. Qed.

Lemma filter_filter {A} (f g : A -> bool) l : List.filter f (List.filter g l) = List.filter (fun x => g x && f x) l.
Proof. induction l as [|x l IH]; [done|]. cbn. destruct (g x); cbn; by rewrite ?IH. Qed.

Lemma filter_reverse {A} (f : A -> bool) l : List.filter f (reverse l) = reverse (List.filter f l).
Proof.
  induction l as [|x l IH]; [done|]. rewrite reverse_cons, List.filter_app, IH. cbn [List.filter].
  destruct (f x); [by rewrite reverse_cons|by rewrite app_nil_r].
Qed.

Lemma map_snd_filter (f : Z -> bool) (m : BTreeMap Z StoredBlock) :
  (forall s b, (s, b) ∈ m -> sb_slot b = s) ->
  map snd (List.filter (fun e => f (fst e)) m) = List.filter (fun b => f (sb_slot b)) (map snd m).
Proof.
  induction m as [|[s b] m IH]; intros H; [done|]. cbn.
  rewrite (H s b) by apply list_elem_of_here.
  rewrite <- IH by (intros s' b' Hin; apply H; by apply list_elem_of_further). by destruct (f s).
Qed.

Lemma rollback_snapshots i slot : snapshots (rollback_to_slot i slot) = snapshots i.
Proof.
  unfold rollback_to_slot. generalize (map fst (bt_above (by_slot i) slot)) as l. intros l. revert i.
  induction l as [|s l IH]; intros j; [done|]. cbn [fold_left]. rewrite IH.
  unfold remove_slot. by destruct (bt_get _ _).
Qed.

Section Store.
Context (i : Inner) (Hi : db_ok i).

Lemma stored_slot s b : (s, b) ∈ by_slot i -> sb_slot b = s.
Proof. intros H. apply (get_elem _ _ _ (ok_slots _ Hi)) in H. by apply (ok_indexed _ Hi) in H as [? _]. Qed.

Lemma stored_u64 b : b ∈ stored_chain i -> is_u64 (sb_slot b).
Proof.
  unfold stored_chain. rewrite elem_of_reverse, list_elem_of_In, in_map_iff.
  intros ([s b'] & <- & H%list_elem_of_In). apply (get_elem _ _ _ (ok_slots _ Hi)) in H.
  apply (ok_indexed _ Hi) in H as (E & ? & _). cbn [snd]. by rewrite E.
Qed.

Lemma stored_by_slot b : b ∈ stored_chain i <-> bt_get (by_slot i) (sb_slot b) = Some b.
Proof.
  unfold stored_chain. rewrite elem_of_reverse, list_elem_of_In, in_map_iff, (get_elem _ _ _ (ok_slots _ Hi)). split.
  - intros ([s b'] & <- & H%list_elem_of_In). cbn [snd]. by rewrite (stored_slot _ _ H).
  - intros H. exists (sb_slot b, b). split; [done|]. by apply list_elem_of_In.
Qed.

Lemma stored_descending : descending (stored_chain i).
Proof.
  apply (sorted_reverse (fun a b => sb_slot a < sb_slot b)). pose proof (ok_slots _ Hi) as Ho. pose proof stored_slot as Hs.
  induction (by_slot i) as [|[s b] m IH]; [constructor|]. apply ordered_cons in Ho as [Hm Ha]. cbn [map snd].
  constructor.
  - apply IH; [done|]. intros s' b' Hin. apply Hs. by apply list_elem_of_further.
  - apply Forall_forall. intros x Hx. apply list_elem_of_In, in_map_iff in Hx as ([s' b'] & <- & Hx%list_elem_of_In).
    rewrite Forall_forall in Ha. specialize (Ha _ Hx). cbn in Ha. apply Z.compare_lt_iff in Ha. cbn [snd].
    rewrite (Hs s b), (Hs s' b'); [done|by apply list_elem_of_further|apply list_elem_of_here].
Qed.

(** A block above all others becomes the newest. *)
Lemma stored_put block : Forall (fun b => sb_slot b < sb_slot block) (stored_chain i) ->
  exists i', put_block i block = (Ok tt, i') /\ stored_chain i' = block :: stored_chain i /\ snapshots i' = snapshots i.
Proof.
  intros Hall.
  assert (Hkeys : Forall (fun x => cmp (fst x) (sb_slot block) = Lt) (by_slot i)).
  { apply Forall_forall. intros [s b] Hx. rewrite Forall_forall in Hall. pose proof (stored_slot _ _ Hx) as <-.
    apply Z.compare_lt_iff, Hall, stored_by_slot. by apply (get_elem _ _ _ (ok_slots _ Hi)). }
  assert (Hnone : bt_get (by_slot i) (sb_slot block) = None).
  { destruct (bt_get _ _) as [b|] eqn:E; [|done]. pose proof E as E'. apply (get_elem _ _ _ (ok_slots _ Hi)) in E'.
    rewrite Forall_forall in Hkeys. specialize (Hkeys _ E'). cbn in Hkeys. by rewrite Z.compare_refl in Hkeys. }
  unfold put_block. rewrite Hnone. eexists. split; [done|]. split; [|done].
  unfold stored_chain. cbn [by_slot with_blocks]. rewrite (bt_insert_last _ _ _ Hkeys), map_app, reverse_app. done.
Qed.

Lemma stored_tip : mem_tip i = option_map (fun b => mk_ChainTip (sb_hash b) (sb_slot b)) (head (stored_chain i)).
Proof.
  unfold mem_tip, stored_chain, bt_last. induction (by_slot i) as [|[s b] m IH] using rev_ind; [done|].
  by rewrite last_snoc, map_app, reverse_app.
Qed.

Lemma stored_rollback slot : stored_chain (rollback_to_slot i slot) = up_to slot (stored_chain i).
Proof.
  unfold stored_chain, up_to. rewrite filter_reverse. f_equal.
  rewrite <- (map_snd_filter (fun s => s <=? slot)) by apply stored_slot. f_equal.
  apply ordered_ext.
  - apply (ok_slots _ (fold_remove_ok _ _ Hi)).
  - apply ordered_filter, (ok_slots _ Hi).
  - intros k. pose proof (rollback_get i slot k Hi) as E. unfold mem_get_block_by_slot in E. rewrite E. clear E.
    pose proof (ok_slots _ Hi) as Ho. induction (by_slot i) as [|[s b] m IH]; [by destruct (k <=? slot)|].
    apply ordered_cons in Ho as [Hm Ha]. specialize (IH Hm). cbn [bt_get List.filter fst].
    destruct (cmp k s) eqn:E.
    + apply cmp_eq in E as ->. destruct (Z.leb_spec s slot); cbn [bt_get].
      * by rewrite cmp_refl.
      * exact IH.
    + destruct (s <=? slot); cbn [bt_get]; [by rewrite E|done].
    + destruct (s <=? slot); cbn [bt_get]; [by rewrite E|done].
Qed.

(** The block source walks the blocks between two slots, oldest first. *)
Definition wire (b : StoredBlock) : Z * list Z := (sb_slot b, sb_bytes b).

Lemma take_up_to_ascending slot (l : list StoredBlock) :
  StronglySorted (fun a b => sb_slot a < sb_slot b) l ->
  take_up_to slot l = map wire (List.filter (fun b => sb_slot b <=? slot) l).
Proof.
  induction 1 as [|b l _ IH Hb]; [done|]. cbn.
  destruct (Z.ltb_spec slot (sb_slot b)), (Z.leb_spec (sb_slot b) slot); try lia; [|cbn; by rewrite IH].
  clear IH. induction Hb as [|c l Hc _ IHl]; [done|]. cbn. destruct (Z.leb_spec (sb_slot c) slot); [lia|done].
Qed.

Lemma descending_filter f bs : descending bs -> descending (List.filter f bs).
Proof.
  induction bs as [|b bs IH]; [done|]. intros [Hd Hb]%descending_cons. cbn.
  destruct (f b); [|by apply IH]. apply descending_cons. split; [by apply IH|].
  rewrite Forall_forall in *. intros x Hx. apply Hb. apply list_elem_of_In in Hx.
  apply filter_In in Hx as [Hx _]. by apply list_elem_of_In.
Qed.

Lemma stored_range from to : from < u64_max ->
  chaindb_blocks_in_range i from to = map wire (reverse (up_to to (above from (stored_chain i)))).
Proof.
  intros Hf. unfold chaindb_blocks_in_range, mem_iter_from_slot, bt_from.
  assert (E : map snd (List.filter (fun '(k, _) => leb (saturating_add from 1) k) (by_slot i))
              = reverse (above from (stored_chain i))).
  { unfold above, stored_chain. rewrite filter_reverse, reverse_involutive.
    rewrite <- (map_snd_filter (fun s => from <? s)) by apply stored_slot. f_equal.
    apply List.filter_ext. intros [s b]. cbn [fst]. rewrite leb_ltb. unfold ltb. cbn [cmp Z_order].
    unfold saturating_add. rewrite Z.min_l by lia.
    destruct (Z.compare_spec s (from + 1)), (Z.ltb_spec from s); cbn; (done || lia). }
  rewrite E, take_up_to_ascending.
  - unfold up_to. by rewrite filter_reverse.
  - apply (sorted_reverse (fun a b => sb_slot b < sb_slot a)), descending_filter, stored_descending.
Qed.
End Store.
