(* ===== verification/ForwardSync.v ===== *)
(** The spine of the node: [ade_runtime/src/forward_sync/reducer.rs] (the plan of one admitted
    block), [ade_runtime/src/forward_sync/pump.rs] (applying it to the database, the log and
    the checkpoint sink) and [apply_chain_event] of [ade_node/src/node_lifecycle.rs] (applying
    one fork-choice event).

    A function returns its result with the state, the database and the log it leaves behind.
    The database is the in-memory one; the log is any [WalStore].  [UtxoFpCache] memoises one
    component of the ledger fingerprint, so the fingerprint taken after a block is
    [ledger_fingerprint] of the new ledger.  The checkpoint sink is a function of the slot. *)

From S2P Require Import Prelude Cbor EraSchedule Leader Kes ChainDep Header ForkChoice BlockCodec BlockValidity.
From S2P Require Import BTree ChainDb Wal WalReplay Receive ReceiveStores.

(** [append] and [read_all] of the trait [WalStore] ([ade_ledger/src/wal/store_trait.rs]). *)
Class WalStore (L : Type) : Type := {
  wal_append : L -> WalEntry -> result unit WalError * L;
  wal_read_all : L -> result (list WalEntry) WalError;
}.

(** * The forward-sync reducer ([reducer.rs]) *)

Inductive SyncEffect : Type :=
| StoreBlockBytes (stored : StoredBlock)
| AppendWal (entry : WalEntry)
| CommitCheckpoint (slot : Z)
| AdvanceTip (slot : Z) (hash : Hash32).

Definition AdmitPlan : Type := list SyncEffect.

(** [AdmitPlan::durable], the only constructor of a plan that advances the tip. *)
Definition durable (stored : StoredBlock) (wal : WalEntry) (checkpoint_slot : option Z) (tip_slot : Z)
    (tip_hash : Hash32) : AdmitPlan :=
  [StoreBlockBytes stored; AppendWal wal]
    ++ match checkpoint_slot with Some slot => [CommitCheckpoint slot] | None => [] end
    ++ [AdvanceTip tip_slot tip_hash].

Section Spine.
Context `{Crypto, Ed25519, !Blake224, LedgerRules, !SnapshotCodec}.

Record ForwardSyncState : Type := mk_ForwardSyncState {
  receive : ReceiveState;
  fs_prior_fp : Hash32;
  cadence : SnapshotCadence;
  last_checkpoint : option Z;
  recovered_anchor : option ChainTip;
  recovered_eta0 : option Nonce;
}.

Definition forward_sync_state_new (rs : ReceiveState) (anchor_fingerprint : Hash32) (c : SnapshotCadence) :
    ForwardSyncState := mk_ForwardSyncState rs anchor_fingerprint c None None None.

Definition with_receive (s : ForwardSyncState) (r : ReceiveState) : ForwardSyncState :=
  mk_ForwardSyncState r (fs_prior_fp s) (cadence s) (last_checkpoint s) (recovered_anchor s) (recovered_eta0 s).
Definition with_prior_fp (s : ForwardSyncState) (fp : Hash32) : ForwardSyncState :=
  mk_ForwardSyncState (receive s) fp (cadence s) (last_checkpoint s) (recovered_anchor s) (recovered_eta0 s).
Definition with_checkpoint (s : ForwardSyncState) (slot : Z) : ForwardSyncState :=
  mk_ForwardSyncState (receive s) (fs_prior_fp s) (cadence s) (Some slot) (recovered_anchor s) (recovered_eta0 s).

Definition forward_sync_step `{LedgerView} {W} `{ChainDbWrite W} (state : ForwardSyncState) (event : ReceiveEvent)
    (chain_write : W) (era_schedule : EraSchedule) : result AdmitPlan ReceiveError * ForwardSyncState * W :=
  let admitted_bytes := match event with Ev_BlockDelivered block_bytes => Some block_bytes | _ => None end in
  let prior_fp := fs_prior_fp state in
  match receive_apply (receive state) event chain_write era_schedule None with
  | (Err e, r, w) => (Err e, with_receive state r, w)
  | (Ok effect, r, w) =>
      let state := with_receive state r in
      match effect with
      | Eff_Admitted slot hash =>
          let stored := mk_StoredBlock hash slot (default [] admitted_bytes) in
          let post_fp := ledger_fingerprint (rs_ledger r) in
          let wal := AdmitBlock prior_fp hash slot Valid post_fp in
          let state := with_prior_fp state post_fp in
          match last_block_no (rs_chain_dep r) with
          | Some bn =>
              if should_snapshot_after_block slot bn (cadence state) (last_checkpoint state)
              then (Ok (durable stored wal (Some slot) slot hash), with_checkpoint state slot, w)
              else (Ok (durable stored wal None slot hash), state, w)
          | None => (Ok (durable stored wal None slot hash), state, w)
          end
      | Eff_Cached _ _ | Eff_RolledBack _ | Eff_NoOp _ => (Ok [], state, w)
      end
  end.

(** * The pump ([pump.rs]) *)

Inductive PumpError : Type :=
| Pump_Receive (e : ReceiveError)
| Pump_Wal (e : WalError)
| Pump_Store (e : ChainDbError)
| Pump_Checkpoint (e : ChainDbError)
| TipBeforeDurable.

Record PumpTip : Type := mk_PumpTip { pm_slot : Z; pm_hash : Hash32; pm_prev_hash : Hash32; pm_block_no : Z }.

Section Pump.
Context {L : Type} `{WalStore L} (put_checkpoint : Z -> result unit ChainDbError).

Fixpoint apply_plan_loop (db : Inner) (wal : L) (effects : list SyncEffect) (prev_hash : Hash32) (block_no : Z)
    (bytes_durable wal_durable : bool) (tip : option PumpTip) : result (option PumpTip) PumpError * Inner * L :=
  match effects with
  | [] => (Ok tip, db, wal)
  | effect :: effects =>
      match effect with
      | StoreBlockBytes stored =>
          match put_block db stored with
          | (Err e, db) => (Err (Pump_Store e), db, wal)
          | (Ok _, db) => apply_plan_loop db wal effects prev_hash block_no true wal_durable tip
          end
      | AppendWal entry =>
          match wal_append wal entry with
          | (Err e, wal) => (Err (Pump_Wal e), db, wal)
          | (Ok _, wal) => apply_plan_loop db wal effects prev_hash block_no bytes_durable true tip
          end
      | CommitCheckpoint slot =>
          match put_checkpoint slot with
          | Err e => (Err (Pump_Checkpoint e), db, wal)
          | Ok _ => apply_plan_loop db wal effects prev_hash block_no bytes_durable wal_durable tip
          end
      | AdvanceTip slot hash =>
          if negb (bytes_durable && wal_durable) then (Err TipBeforeDurable, db, wal)
          else apply_plan_loop db wal effects prev_hash block_no bytes_durable wal_durable
                 (Some (mk_PumpTip slot hash prev_hash block_no))
      end
  end.

Definition apply_plan (db : Inner) (wal : L) (effects : list SyncEffect) (prev_hash : Hash32) (block_no : Z) :
    result (option PumpTip) PumpError * Inner * L :=
  apply_plan_loop db wal effects prev_hash block_no false false None.

Definition pump_block `{LedgerView} (state : ForwardSyncState) (db : Inner) (wal : L) (block_bytes : list Z)
    (era_schedule : EraSchedule) : result (option PumpTip) PumpError * ForwardSyncState * Inner * L :=
  match decode_block block_bytes with
  | Err e => (Err (Pump_Receive (Validity e)), state, db, wal)
  | Ok decoded =>
      let slot := hi_slot (dk_header_input decoded) in
      let already := match mem_get_block_by_hash db (dk_block_hash decoded) with
                     | Some stored => sb_slot stored =? slot
                     | None => false
                     end in
      if already then (Ok None, state, db, wal) else
      let cache_ev := Ev_RollForward slot (dk_block_hash decoded) block_bytes (mk_TipPoint 0 zero_hash 0) in
      match forward_sync_step state cache_ev db era_schedule with
      | (Err e, state, db) => (Err (Pump_Receive e), state, db, wal)
      | (Ok _, state, db) =>
          match forward_sync_step state (Ev_BlockDelivered block_bytes) db era_schedule with
          | (Err e, state, db) => (Err (Pump_Receive e), state, db, wal)
          | (Ok plan, state, db) =>
              let prev_hash := default zero_hash (prev_block_hash (dk_prev_hash decoded)) in
              let '(r, db, wal) := apply_plan db wal plan prev_hash (hi_block_no (dk_header_input decoded)) in
              (r, state, db, wal)
          end
      end
  end.

(** * Applying a fork-choice event ([node_lifecycle.rs], [apply_chain_event]) *)

Record AppliedTip : Type := mk_AppliedTip { at_slot : Z; at_hash : Hash32 }.

Inductive ApplyError : Type :=
| Apply_Materialize (e : MaterializeError)
| Apply_CommitRollback (e : CommitRollbackError)
| Apply_Wal (e : WalError)
| Apply_Pump (e : PumpError)
| MissingRollForwardBlock
| ReconciliationMismatch (expected_slot : Z) (expected_hash : Hash32) (actual : option ChainTip).

Definition durable_tip_matches (tip : option ChainTip) (slot : Z) (hash : Hash32) : bool :=
  match tip with
  | Some t => (ct_slot t =? slot) && bool_decide (ct_hash t = hash)
  | None => false
  end.

(** The [RolledBack] arm: materialize, commit, re-anchor the fingerprint, log, reconcile. *)
Definition apply_rolled_back `{LedgerView} (fwd : ForwardSyncState) (db : Inner) (wal : L) (to_slot : Z)
    (to_hash : Hash32) (reason : RollbackReason) (era_schedule : EraSchedule) :
    result (option AppliedTip) ApplyError * ForwardSyncState * Inner * L :=
  let target := mk_TargetPoint to_slot to_hash in
  match materialize_rolled_back_state target (chaindb_context db (recovered_eta0 fwd)) era_schedule with
  | Err e => (Err (Apply_Materialize e), fwd, db, wal)
  | Ok (new_ledger, new_chain_dep) =>
      let prior_block_no := default 0 (last_block_no (rs_chain_dep (receive fwd))) in
      let prior_slot := default 0 (last_slot (rs_chain_dep (receive fwd))) in
      let prior_hash := match mem_tip db with Some t => ct_hash t | None => zero_hash end in
      let to_block_no := default 0 (last_block_no new_chain_dep) in
      match commit_rollback (receive fwd) target new_ledger new_chain_dep db with
      | (Err e, r, db) => (Err (Apply_CommitRollback e), with_receive fwd r, db, wal)
      | (Ok _, r, db) =>
          let fwd := with_prior_fp (with_receive fwd r) (ledger_fingerprint (rs_ledger r)) in
          let rb_point := Wal.mk_RollbackPoint to_slot to_hash to_block_no in
          let prior_tip := Wal.mk_RollbackPoint prior_slot prior_hash prior_block_no in
          match wal_append wal (RollBack rb_point reason prior_tip rb_point) with
          | (Err e, wal) => (Err (Apply_Wal e), fwd, db, wal)
          | (Ok _, wal) =>
              let tip := mem_tip db in
              if negb (durable_tip_matches tip to_slot to_hash)
              then (Err (ReconciliationMismatch to_slot to_hash tip), fwd, db, wal)
              else (Ok (Some (mk_AppliedTip to_slot to_hash)), fwd, db, wal)
          end
      end
  end.

(** The [ChainSelected] arm. *)
Definition apply_chain_selected `{LedgerView} (fwd : ForwardSyncState) (db : Inner) (wal : L) (tip_slot : Z)
    (tip_hash : Hash32) (roll_forward_block : option (list Z)) (era_schedule : EraSchedule) :
    result (option AppliedTip) ApplyError * ForwardSyncState * Inner * L :=
  match roll_forward_block with
  | None => (Err MissingRollForwardBlock, fwd, db, wal)
  | Some bytes =>
      match pump_block fwd db wal bytes era_schedule with
      | (Err e, fwd, db, wal) => (Err (Apply_Pump e), fwd, db, wal)
      | (Ok _, fwd, db, wal) =>
          let tip := mem_tip db in
          if negb (durable_tip_matches tip tip_slot tip_hash)
          then (Err (ReconciliationMismatch tip_slot tip_hash tip), fwd, db, wal)
          else (Ok (Some (mk_AppliedTip tip_slot tip_hash)), fwd, db, wal)
      end
  end.

Definition apply_chain_event `{LedgerView} (fwd : ForwardSyncState) (db : Inner) (wal : L) (event : ChainEvent)
    (reason : RollbackReason) (roll_forward_block : option (list Z)) (era_schedule : EraSchedule) :
    result (option AppliedTip) ApplyError * ForwardSyncState * Inner * L :=
  match event with
  | RolledBack to_point _ =>
      apply_rolled_back fwd db wal (pt_slot to_point) (pt_hash to_point) reason era_schedule
  | ChainSelected new_tip _ =>
      apply_chain_selected fwd db wal (pt_slot new_tip) (pt_hash new_tip) roll_forward_block era_schedule
  | Rejected _ | ChainExtended _ _ | RolledForward _ _ => (Ok None, fwd, db, wal)
  end.
(** What these operations work on: the state in memory, the database and the log. *)
Record Node : Type := mk_Node { nd_fwd : ForwardSyncState; nd_db : Inner; nd_wal : L }.
End Pump.
End Spine.
