(* ===== verification/Spine.v ===== *)
(** The spine is exact: whatever the node pumps, rolls back and captures, its ledger and its
    chain-dependent state are what validating the blocks of its database one after the other
    gives, its log tells the same chain, and a rollback rebuilds the state the node was in.

    Live validation and replay run under different schedules and stake snapshots; what they
    share is the seed era ([uniform]) and the pools' VRF keys of each epoch ([faithful]). *)

From Stdlib Require Import Sorting.Sorted.
From S2P Require Import Prelude Cbor Envelope EraSchedule Timing Extension Leader Kes ChainDep Header HeaderFacts.
From S2P Require Import ForkChoice BlockCodec BlockValidity BlockBinding BTree ChainDb Wal WalReplay.
From S2P Require Import Receive ReceiveStores StoredChain ForwardSync.

(** * Validating a block *)

(** A view may not know a pool, but it does not say another key, and it knows the key of a
    pool whose stake it knows. *)
Definition faithful (pools : Z -> Hash28 -> option Hash32) (view : LedgerView) : Prop :=
  forall e p, (forall k, @pool_vrf_keyhash view e p = Some k -> pools e p = Some k) /\
              (is_Some (@pool_active_stake view e p) -> is_Some (@pool_vrf_keyhash view e p)).

(** The ledger rules read the schedule only as a calendar, and the calendar of a schedule
    grown from the seed does not depend on how far it was grown. *)
Class GridRules `{LedgerRules} (seed : EraSummary) : Prop := {
  grid_rules l e inner s s' : uniform seed s -> uniform seed s' ->
    apply_block_with_verdicts l e inner s = apply_block_with_verdicts l e inner s';
}.

Section Validity.
Context `{HC : Crypto, HE : Ed25519, HB : !Blake224, HR : LedgerRules}.

Definition State : Type := LedgerState * PraosChainDepState.

Definition outcome (o : BlockValidityOutcome) : option State :=
  match bo_verdict o with Verdict_Valid _ _ _ => Some (bo_ledger o, bo_chain_dep o) | Verdict_Invalid _ _ => None end.

(** What a valid verdict says. *)
Definition validates `{LedgerView} (mode : LeaderEligibility) (sched : EraSchedule) (s : State) (bytes : list Z)
    (s' : State) : Prop :=
  exists d a v, decode_block bytes = Ok d /\
    validate_and_apply_header (snd s) (dk_header_input d) sched mode = Ok a /\
    dk_computed_body_hash d = vs_body_hash (ha_summary a) /\
    apply_block_with_verdicts (fst s) (dk_era d) (slice bytes (dk_inner_start d) (dk_inner_end d)) sched =
      Ok (v, fst s') /\
    snd s' = ha_new_state a.

Lemma outcome_validates `{LedgerView} mode sched s bytes s' :
  outcome (block_validity_with_eligibility (fst s) (snd s) sched bytes mode) = Some s' <->
  validates mode sched s bytes s'.
Proof.
  unfold outcome, block_validity_with_eligibility, validates. split.
  - destruct (decode_block bytes) as [d|e]; [|done].
    destruct (validate_and_apply_header _ _ _ _) as [a|e] eqn:Ea; [|done].
    destruct (bool_decide_reflect (dk_computed_body_hash d = vs_body_hash (ha_summary a))) as [Eb|]; [|done].
    destruct (apply_block_with_verdicts _ _ _ _) as [[v l']|e] eqn:El; [|done]. cbn. intros [= <-].
    exists d, a, v. by rewrite Ea.
  - intros (d & a & v & Ed & Ea & Eb & El & Es). rewrite Ed, Ea, Eb, bool_decide_eq_true_2 by done. cbn [negb].
    rewrite El. destruct s' as [l' c']. cbn in *. by rewrite Es.
Qed.

Lemma outcome_none `{LedgerView} l c sched bytes mode :
  outcome (block_validity_with_eligibility l c sched bytes mode) = None ->
  exists cls e, bo_verdict (block_validity_with_eligibility l c sched bytes mode) = Verdict_Invalid cls e.
Proof. unfold outcome. destruct (bo_verdict _) as [|cls e]; [done|]. by exists cls, e. Qed.

(** A decoded block comes in an envelope of a supported era. *)
Lemma decoded_envelope bytes d : decode_block bytes = Ok d ->
  exists env, decode_block_envelope bytes = Ok env /\ is_supported_era (era env) = true.
Proof.
  unfold decode_block. intros Hd. apply rbind_ok_inv in Hd as (env & He & Hd). apply map_err_ok in He.
  exists env. split; [done|]. apply rbind_ok_inv in Hd as (p & Hp & _).
  unfold decode_inner in Hp. by destruct (era env).
Qed.

(** The header checks read the schedule and the view through these only. *)
Lemma faithful_keyhash pools (live replay : LedgerView) h : faithful pools live -> faithful pools replay ->
  forall ep lv, @check_keyhash _ live ep h = Ok tt -> @check_leadership live Enforce ep h lv = Ok tt ->
  @check_keyhash _ replay ep h = Ok tt.
Proof.
  intros Hl Hr ep lv Hk Hs. unfold check_keyhash in *. cbn [check_leadership] in Hs. unfold check_threshold in Hs.
  destruct (Hl ep (issuer_pool h)) as [Hlk Hls]. destruct (Hr ep (issuer_pool h)) as [Hrk _].
  destruct (@pool_vrf_keyhash replay ep (issuer_pool h)) as [k|] eqn:Er; [|done].
  specialize (Hrk _ eq_refl).
  destruct (@pool_active_stake live ep (issuer_pool h)) as [st|] eqn:Es; [|done].
  destruct Hls as [k' Ek]; [by eexists|]. rewrite Ek in Hk. specialize (Hlk _ Ek).
  assert (k' = k) as -> by congruence. exact Hk.
Qed.

Section Accepted.
Context (seed : EraSummary) (pools : Z -> Hash28 -> option Hash32) `{!GridRules seed}.

(** [b] is the stored form of a block that live validation takes from [s] to [s']. *)
Definition accepted (s : State) (b : StoredBlock) (s' : State) : Prop :=
  (exists d, decode_block (sb_bytes b) = Ok d /\ sb_slot b = hi_slot (dk_header_input d) /\ sb_hash b = dk_block_hash d) /\
  exists sched view, uniform seed sched /\ faithful pools view /\
    @validates view Enforce sched s (sb_bytes b) s'.

Lemma accepted_state s b s' : accepted s b s' ->
  last_slot (snd s') = Some (sb_slot b) /\ (forall l, last_slot (snd s) = Some l -> l < sb_slot b) /\
  epoch_nonce (snd s') = epoch_nonce (snd s).
Proof.
  intros [(d & Ed & -> & _) (sched & view & _ & _ & d' & a & v & Ed' & Ea & _ & _ & ->)].
  rewrite Ed in Ed'. injection Ed' as <-. apply validate_iff in Ea.
  destruct Ea as (loc & lv & no & m & _ & Hs & _ & _ & _ & _ & _ & _ & _ & ->). done.
Qed.

(** Replaying an accepted block, under any schedule of the seed that reaches its slot and
    any faithful view, gives the same state. *)
Lemma accepted_replays s b s' sched (view : LedgerView) :
  accepted s b s' -> uniform seed sched -> faithful pools view ->
  check_forecast_horizon sched (sb_slot b) = Ok tt ->
  outcome (block_validity_trusted_replay (fst s) (snd s) sched (sb_bytes b)) = Some s'.
Proof.
  intros [(d & Ed & Es & _) (sl & vl & Hu & Hf & d' & a & v & Ed' & Ea & Eb & El & Eq)] Hu' Hf' Hh.
  rewrite Ed in Ed'. injection Ed' as <-.
  apply outcome_validates. exists d, a, v. split_and!; try done.
  - rewrite Es in Hh. apply (replay_header seed sl sched vl view); [done..| |done|done]. by apply (faithful_keyhash pools).
  - by rewrite <- (grid_rules (seed := seed) _ _ _ sl).
Qed.

Lemma accepted_horizon s b s' : accepted s b s' ->
  exists sched view, uniform seed sched /\ faithful pools view /\ check_forecast_horizon sched (sb_slot b) = Ok tt.
Proof.
  intros [(d & Ed & -> & _) (sl & vl & Hu & Hf & d' & a & v & Ed' & Ea & _)].
  rewrite Ed in Ed'. injection Ed' as <-. exists sl, vl. split_and!; [done..|].
  apply validate_iff in Ea. by destruct Ea as (? & ? & ? & ? & ? & _).
Qed.

Lemma accepted_det s b s1 s2 : accepted s b s1 -> accepted s b s2 -> s1 = s2.
Proof.
  intros A1 A2. destruct (accepted_horizon _ _ _ A1) as (sched & view & Hu & Hf & Hh).
  pose proof (accepted_replays _ _ _ _ _ A1 Hu Hf Hh) as E1.
  pose proof (accepted_replays _ _ _ _ _ A2 Hu Hf Hh) as E2. congruence.
Qed.

(** * Replaying a chain *)

(** [s'] is what live validation makes of [s] along the blocks [new], newest first. *)
Inductive leads (s : State) : list StoredBlock -> State -> Prop :=
| leads_nil : leads s [] s
| leads_cons new s1 b s2 : leads s new s1 -> accepted s1 b s2 -> leads s (b :: new) s2.

Lemma replay_blocks_app `{LedgerView} sched b1 : forall l c b2,
  replay_blocks sched l c (b1 ++ b2) =
    match replay_blocks sched l c b1 with
    | Ok (l', c') => replay_blocks sched l' c' b2
    | Err e => Err e
    end.
Proof.
  induction b1 as [|[slot bytes] b1 IH]; intros l c b2; [done|]. cbn [app replay_blocks].
  destruct (decode_block_envelope bytes); [|done]. destruct (negb _); [done|].
  destruct (bo_verdict _); [apply IH|done].
Qed.

Lemma replay_accepted s b s' sched (view : LedgerView) :
  accepted s b s' -> uniform seed sched -> faithful pools view ->
  check_forecast_horizon sched (sb_slot b) = Ok tt ->
  replay_blocks sched (fst s) (snd s) [wire b] = Ok s'.
Proof.
  intros Ha Hu Hf Hh. pose proof (accepted_replays _ _ _ _ _ Ha Hu Hf Hh) as Ho.
  destruct Ha as [(d & Ed & _) _]. destruct (decoded_envelope _ _ Ed) as (env & He & Hs).
  cbn [wire replay_blocks]. rewrite He, Hs. cbn [negb]. unfold outcome in Ho.
  destruct (bo_verdict _); [|done]. by injection Ho as <-.
Qed.

Lemma leads_replay s new s' sched (view : LedgerView) :
  leads s new s' -> uniform seed sched -> faithful pools view ->
  Forall (fun b => check_forecast_horizon sched (sb_slot b) = Ok tt) new ->
  replay_blocks sched (fst s) (snd s) (map wire (reverse new)) = Ok s'.
Proof.
  intros Hl Hu Hf. induction Hl as [|new s1 b s2 _ IH Ha]; intros Hh; [by destruct s|].
  apply Forall_cons in Hh as [Hb Hn]. rewrite reverse_cons, map_app, replay_blocks_app, (IH Hn).
  destruct s1 as [l1 c1]. by apply (replay_accepted (l1, c1)).
Qed.

Lemma horizon_mono sched slot slot' : slot <= slot' ->
  check_forecast_horizon sched slot' = Ok tt -> check_forecast_horizon sched slot = Ok tt.
Proof.
  intros Hs. unfold check_forecast_horizon. destruct (last (eras sched)) as [e|]; [|done].
  set (h := saturating_add _ _). destruct (Z.ltb_spec h slot'), (Z.ltb_spec h slot); (done || lia).
Qed.

(** * The chain of the node *)

(** Blocks, log entries and state of the moment the account starts from, with its slot. *)
Context (bs0 : list StoredBlock) (ks0 : list Link) (s0 : State) (slot0 : Z).

Inductive grown : list StoredBlock -> list Link -> State -> Prop :=
| grown_base : grown bs0 ks0 s0
| grown_block bs ks s b s' i : grown bs ks s -> accepted s b s' -> slot0 < sb_slot b ->
    grown (b :: bs) (mk_Link i (sb_slot b) (sb_hash b) (ledger_fingerprint (fst s')) :: ks) s'.

Definition linked (k : Link) (b : StoredBlock) : Prop := lk_slot k = sb_slot b /\ lk_hash k = sb_hash b.

Record base_ok (anchor : Hash32) : Prop := {
  base_slots : Forall (fun b => sb_slot b <= slot0) bs0;
  base_descending : descending bs0;
  base_linked : Forall2 linked ks0 bs0;
  base_last : forall l, last_slot (snd s0) = Some l -> l <= slot0;
  base_fp : tip_fp anchor ks0 = ledger_fingerprint (fst s0);
}.

Section Base.
Context (anchor : Hash32) (Hbase : base_ok anchor).

Lemma grown_linked bs ks s : grown bs ks s -> Forall2 linked ks bs.
Proof. induction 1; [apply Hbase|by constructor]. Qed.

Lemma grown_fp bs ks s : grown bs ks s -> tip_fp anchor ks = ledger_fingerprint (fst s).
Proof. destruct 1; [apply Hbase|done]. Qed.

Lemma grown_nonce bs ks s : grown bs ks s -> epoch_nonce (snd s) = epoch_nonce (snd s0).
Proof. induction 1 as [|? ? ? ? ? ? ? IH Ha]; [done|]. apply accepted_state in Ha as (_ & _ & ->). done. Qed.

(** The slot the chain stands at. *)
Definition tip_slot (bs : list StoredBlock) : Z :=
  if (length bs <=? length bs0)%nat then slot0 else match bs with b :: _ => sb_slot b | [] => slot0 end.

Lemma grown_length bs ks s : grown bs ks s -> (length bs0 <= length bs)%nat.
Proof. induction 1; cbn; lia. Qed.

Lemma grown_tip bs ks s : grown bs ks s ->
  slot0 <= tip_slot bs /\ Forall (fun b => sb_slot b <= tip_slot bs) bs /\
  (forall l, last_slot (snd s) = Some l -> l <= tip_slot bs) /\
  (tip_slot bs = slot0 \/ last_slot (snd s) = Some (tip_slot bs)).
Proof.
  induction 1 as [|bs ks s b s' i Hg (Hs & Hb & Hl & Ht) Ha H0].
  - unfold tip_slot. rewrite Nat.leb_refl. split; [lia|]. split; [apply Hbase|]. split; [apply Hbase|by left].
  - apply grown_length in Hg. assert (E : tip_slot (b :: bs) = sb_slot b).
    { unfold tip_slot. cbn [length]. by rewrite (proj2 (Nat.leb_gt _ _)) by lia. }
    apply accepted_state in Ha as (Hlast & Hlt & _). rewrite E.
    assert (tip_slot bs <= sb_slot b) by (destruct Ht as [->|Ht]; [lia|apply Hlt in Ht; lia]).
    split; [lia|]. split; [|split; [intros l Hl'; rewrite Hlast in Hl'; injection Hl'; lia|by right]].
    constructor; [lia|]. eapply Forall_impl; [exact Hb|]. cbn. lia.
Qed.

Lemma grown_newer bs ks s b s' : grown bs ks s -> accepted s b s' -> slot0 < sb_slot b -> tip_slot bs < sb_slot b.
Proof.
  intros Hg Ha H0. destruct (grown_tip _ _ _ Hg) as (_ & _ & _ & [->|Ht]); [done|].
  apply accepted_state in Ha as (_ & Hlt & _). by apply Hlt.
Qed.

Lemma grown_descending bs ks s : grown bs ks s -> descending bs.
Proof.
  induction 1 as [|bs ks s b s' i Hg IH Ha H0]; [apply Hbase|]. apply descending_cons. split; [done|].
  pose proof (grown_newer _ _ _ _ _ Hg Ha H0). destruct (grown_tip _ _ _ Hg) as (_ & Hb & _).
  eapply Forall_impl; [exact Hb|]. cbn. lia.
Qed.

Lemma grown_det bs ks s : grown bs ks s -> forall ks' s', grown bs ks' s' -> s = s'.
Proof.
  induction 1 as [|bs ks s b s' i Hg IH Ha H0]; intros ks2 s2 Hg2.
  - inversion Hg2 as [|bs2 ks' s1 b1 ? i1 Hg' Ha' ? E]; [done|]. apply grown_length in Hg'.
    apply (f_equal length) in E. cbn in E. lia.
  - inversion Hg2 as [E|bs2 ks' s1 b1 ? i1 Hg' Ha' ? E]; subst.
    + apply grown_length in Hg. apply (f_equal length) in E. cbn in E. lia.
    + specialize (IH _ _ Hg') as ->. by eapply accepted_det.
Qed.

(** Cutting the chain at a slot. *)
Lemma grown_cut slot bs ks s : grown bs ks s -> slot0 <= slot ->
  exists ks1 ks2 s2, ks = ks1 ++ ks2 /\ length ks1 = length (above slot bs) /\
    grown (up_to slot bs) ks2 s2 /\ leads s2 (above slot bs) s.
Proof.
  intros Hg H0. induction Hg as [|bs ks s b s' i Hg IH Ha Hb].
  - assert (Hall : Forall (fun b => sb_slot b <= slot) bs0) by (eapply Forall_impl; [apply Hbase|cbn; lia]).
    assert (E : above slot bs0 = []).
    { pose proof (descending_split slot bs0 (base_descending _ Hbase)) as E. rewrite (up_to_all slot bs0 Hall) in E.
      apply (f_equal length) in E. rewrite length_app in E. destruct (above slot bs0); [done|]. cbn in E. lia. }
    exists [], ks0, s0. rewrite E, (up_to_all slot bs0 Hall). split_and!; [done|done|constructor|constructor].
  - destruct (Z.le_gt_cases (sb_slot b) slot) as [Hle|Hgt].
    + assert (Hall : Forall (fun x => sb_slot x <= slot) (b :: bs)).
      { constructor; [done|]. destruct (grown_tip _ _ _ Hg) as (_ & Hx & _).
        pose proof (grown_newer _ _ _ _ _ Hg Ha Hb). eapply Forall_impl; [exact Hx|]. cbn. lia. }
      assert (E : above slot (b :: bs) = []).
      { pose proof (descending_split slot (b :: bs)) as E. rewrite (up_to_all _ _ Hall) in E.
        destruct (above slot (b :: bs)); [done|]. exfalso.
        assert (Hd : descending (b :: bs)) by (by eapply grown_descending, (grown_block _ _ _ _ _ i)).
        apply E in Hd. apply (f_equal length) in Hd. rewrite length_app in Hd. cbn in Hd. lia. }
      eexists [], _, s'. rewrite E, (up_to_all _ _ Hall).
      split_and!; [done|done|by apply grown_block with (s := s)|constructor].
    + destruct IH as (ks1 & ks2 & s2 & -> & Hl & Hg2 & Hle). eexists (_ :: ks1), ks2, s2.
      rewrite up_to_newer by lia.
      assert (E : above slot (b :: bs) = b :: above slot bs).
      { unfold above. cbn. by rewrite (proj2 (Z.ltb_lt _ _)) by lia. }
      rewrite E. split_and!; [done|cbn; by rewrite Hl|done|by apply leads_cons with (s1 := s)].
Qed.
End Base.
End Accepted.
End Validity.
