(* ===== verification/SpineFacts.v ===== *)
(** The node along its runs: one step of the pump, of a rollback, of a snapshot; the invariant
    that ties the database, the log, the snapshots and the state together; and the rollback
    that rebuilds the state the node was in. *)

From Stdlib Require Import Sorting.Sorted.
From S2P Require Import Prelude Cbor Envelope EraSchedule Timing Extension Leader Kes ChainDep Header HeaderFacts.
From S2P Require Import ForkChoice BlockCodec BlockValidity BTree ChainDb Wal WalReplay.
From S2P Require Import Receive ReceiveStores StoredChain ForwardSync Spine.

(** What a log that could be appended to holds. *)
Class WalStoreLaws (L : Type) `{WalStore L} : Type := {
  wal_entries : L -> list WalEntry;
  append_entries l e u l' : wal_append l e = (Ok u, l') -> wal_entries l' = wal_entries l ++ [e];
}.

Section Facts.
Context `{HC : Crypto, HE : Ed25519, HB : !Blake224, HR : LedgerRules, HS : !SnapshotCodec}.
Context {L : Type} `{HW : WalStore L} (put_checkpoint : Z -> result unit ChainDbError).

Definition state_of (r : ReceiveState) : State := (rs_ledger r, rs_chain_dep r).

(** * What one step of the pump can do *)

(** The errors after which the callers of the pump go on. *)
Definition survivable {A} (r : result A PumpError) : Prop :=
  match r with Ok _ | Err (Pump_Receive _) => True | Err _ => False end.

Definition same_but_pending (s s' : ForwardSyncState) : Prop :=
  exists c, s' = with_receive s (mk_ReceiveState (rs_ledger (receive s)) (rs_chain_dep (receive s)) c).

Definition stored_as (d : DecodedBlock) (bytes : list Z) : StoredBlock :=
  mk_StoredBlock (dk_block_hash d) (hi_slot (dk_header_input d)) bytes.

Lemma put_block_error db b e db' : put_block db b = (Err e, db') -> db' = db.
Proof. unfold put_block. destruct (bt_get _ _); [destruct (negb _)|]; congruence. Qed.

Lemma put_block_again db b u db' : put_block db b = (Ok u, db') -> put_block db' b = (Ok tt, db').
Proof.
  unfold put_block at 1. destruct (bt_get (by_slot db) (sb_slot b)) as [x|] eqn:E.
  - destruct (negb _) eqn:En; [done|]. intros [= <- <-]. unfold put_block. by rewrite E, En.
  - intros [= <- <-]. unfold put_block. cbn [by_slot with_blocks]. rewrite get_insert.
    by rewrite bool_decide_eq_true_2.
Qed.

(** The plan of an admitted block: stored, logged, then the tip. *)
Lemma apply_durable db wal stored entry ck slot hash prev bn r db' wal' :
  apply_plan put_checkpoint db wal (durable stored entry ck slot hash) prev bn = (r, db', wal') ->
  survivable r ->
  exists u db1 u', put_block db stored = (Ok u, db1) /\ db' = db1 /\
    wal_append wal entry = (Ok u', wal') /\ r = Ok (Some (mk_PumpTip slot hash prev bn)).
Proof.
  unfold apply_plan, durable. cbn [apply_plan_loop app].
  destruct (put_block db stored) as [[u|e] db1]; [|by intros [= <- <- <-]].
  destruct (wal_append wal entry) as [[u'|e] wal1]; [|by intros [= <- <- <-]].
  destruct ck as [sl|]; cbn [apply_plan_loop app].
  - destruct (put_checkpoint sl); cbn; intros [= <- <- <-]; [|done]. intros _. by exists u, db1, u'.
  - cbn. intros [= <- <- <-] _. by exists u, db1, u'.
Qed.

Lemma step_forward `{LedgerView} st slot hash bytes tip db sched r st' db' :
  forward_sync_step st (Ev_RollForward slot hash bytes tip) db sched = (r, st', db') ->
  db' = db /\ same_but_pending st st' /\ forall plan, r = Ok plan -> plan = [].
Proof.
  unfold forward_sync_step, receive_apply, roll_forward.
  destruct (phc_insert (pending_headers (receive st)) slot hash bytes) as [c|[s h]].
  - destruct (_ && _); cbn; intros [= <- <- <-]; (split; [done|]; split; [by exists c|by intros ? [= <-]]).
  - intros [= <- <- <-]. split; [done|]. split; [|done]. exists (pending_headers (receive st)).
    by destruct st as [[]].
Qed.

Lemma admitted_validates `{LedgerView} bytes l c sched out :
  admit_via_block_validity bytes l c sched = Ok out ->
  ab_bytes (ao_admitted out) = bytes /\ validates Enforce sched (l, c) bytes (ao_ledger out, ao_chain_dep out).
Proof.
  unfold admit_via_block_validity. destruct (bo_verdict _) eqn:E; [|done]. intros [= <-]. split; [done|].
  apply outcome_validates. unfold outcome. cbn [fst snd]. unfold block_validity in E. by rewrite E.
Qed.

Lemma write_stored db bytes d a :
  decode_block bytes = Ok d -> ab_bytes a = bytes ->
  write_admitted db a =
    let '(r, db') := put_block db (stored_as d bytes) in
    (map_err (fun e => map_chaindb_err e (hi_slot (dk_header_input d)) (dk_block_hash d)) r, db').
Proof. intros Ed <-. cbn. unfold writer_write_admitted. by rewrite Ed. Qed.

(** What a delivered block does: nothing but an error, or the block is valid and stored. *)
Lemma step_deliver `{LedgerView} st bytes d db sched r st' db' :
  decode_block bytes = Ok d ->
  forward_sync_step st (Ev_BlockDelivered bytes) db sched = (r, st', db') ->
  match r with
  | Err _ => same_but_pending st st' /\ db' = db
  | Ok plan => exists s' p ck u ckslot, validates Enforce sched (state_of (receive st)) bytes s' /\
      put_block db (stored_as d bytes) = (Ok u, db') /\
      st' = mk_ForwardSyncState (mk_ReceiveState (fst s') (snd s') p) (ledger_fingerprint (fst s')) (cadence st) ck
              (recovered_anchor st) (recovered_eta0 st) /\
      plan = durable (stored_as d bytes)
               (AdmitBlock (fs_prior_fp st) (dk_block_hash d) (hi_slot (dk_header_input d)) Valid
                  (ledger_fingerprint (fst s'))) ckslot (hi_slot (dk_header_input d)) (dk_block_hash d)
  end.
Proof.
  intros Ed. assert (Hsame : same_but_pending st (with_receive st (receive st))).
  { exists (pending_headers (receive st)). by destruct st as [[]]. }
  unfold forward_sync_step. cbn [receive_apply]. unfold block_delivered. rewrite Ed.
  destruct (negb (phc_contains _ _ _)); [by intros [= <- <- <-]|].
  destruct (admit_via_block_validity _ _ _ _) as [out|e] eqn:Ea; [|by intros [= <- <- <-]].
  apply admitted_validates in Ea as [Eb Hv]. rewrite (write_stored db bytes d _ Ed Eb).
  destruct (put_block db (stored_as d bytes)) as [[u|e] db1] eqn:Ep; cbn [map_err].
  2: { intros [= <- <- <-]. split; [done|by eapply put_block_error]. }
  change (ao_ledger out) with (fst (ao_ledger out, ao_chain_dep out)) at 1.
  destruct (last_block_no _) as [bn|].
  - destruct (should_snapshot_after_block _ _ _ _); intros [= <- <- <-]; by eexists _, _, _, u, _.
  - intros [= <- <- <-]. by eexists _, _, _, u, _.
Qed.

Lemma same_trans s1 s2 s3 : same_but_pending s1 s2 -> same_but_pending s2 s3 -> same_but_pending s1 s3.
Proof. intros [c ->] [c' ->]. by exists c'. Qed.

Lemma pump_inv `{LedgerView} st db wal bytes sched r st' db' wal' :
  pump_block put_checkpoint st db wal bytes sched = (r, st', db', wal') -> survivable r ->
  (same_but_pending st st' /\ db' = db /\ wal' = wal /\ (forall t, r <> Ok (Some t))) \/
  exists d s' p ck u u' t, decode_block bytes = Ok d /\
    validates Enforce sched (state_of (receive st)) bytes s' /\
    put_block db (stored_as d bytes) = (Ok u, db') /\
    wal_append wal (AdmitBlock (fs_prior_fp st) (dk_block_hash d) (hi_slot (dk_header_input d)) Valid
                      (ledger_fingerprint (fst s'))) = (Ok u', wal') /\
    st' = mk_ForwardSyncState (mk_ReceiveState (fst s') (snd s') p) (ledger_fingerprint (fst s')) (cadence st) ck
            (recovered_anchor st) (recovered_eta0 st) /\
    r = Ok (Some t) /\ pm_slot t = hi_slot (dk_header_input d) /\ pm_hash t = dk_block_hash d.
Proof.
  unfold pump_block. intros Hp Hs.
  destruct (decode_block bytes) as [d|e] eqn:Ed.
  2: { injection Hp as <- <- <- <-. left. split_and!; [|done..]. exists (pending_headers (receive st)). by destruct st as [[]]. }
  destruct (match mem_get_block_by_hash db (dk_block_hash d) with Some _ => _ | None => _ end).
  { injection Hp as <- <- <- <-. left. split_and!; [|done..]. exists (pending_headers (receive st)). by destruct st as [[]]. }
  destruct (forward_sync_step st _ db sched) as [[r1 st1] db1] eqn:E1.
  apply step_forward in E1 as (-> & H1 & _).
  destruct r1 as [plan1|e1]; [|by injection Hp as <- <- <- <-; left; split_and!].
  destruct (forward_sync_step st1 _ db sched) as [[r2 st2] db2] eqn:E2.
  apply (step_deliver _ _ d) in E2; [|done].
  destruct r2 as [plan2|e2].
  2: { injection Hp as <- <- <- <-. left. destruct E2 as [H2 ->]. split_and!; [by eapply same_trans|done..]. }
  destruct E2 as (s' & p & ck & u & ckslot & Hv & Hput & -> & ->).
  destruct (apply_plan put_checkpoint db2 wal _ _ _) as [[r3 db3] wal3] eqn:E3.
  injection Hp as <- <- <- <-. apply apply_durable in E3; [|done].
  destruct E3 as (u3 & db4 & u4 & Hput2 & -> & Hw & ->).
  rewrite (put_block_again _ _ _ _ Hput) in Hput2. injection Hput2 as <- <-.
  destruct H1 as [c ->]. right. by eexists d, s', p, ck, u, u4, _.
Qed.

(** * The snapshots *)

Lemma find_descending slot l : StronglySorted (fun a b => b < a) l ->
  match find (fun s => s <=? slot) l with
  | Some c => c <= slot /\ c ∈ l /\ forall k, k ∈ l -> k <= slot -> k <= c
  | None => forall k, k ∈ l -> slot < k
  end.
Proof.
  induction 1 as [|x l _ IH Hx]; cbn [find]; [by intros k ?%not_elem_of_nil|].
  rewrite Forall_forall in Hx. destruct (Z.leb_spec x slot) as [Hle|Hgt].
  - split; [done|]. split; [apply list_elem_of_here|]. intros k [->|Hk]%elem_of_cons _; [lia|]. apply Hx in Hk. lia.
  - destruct (find _ l) as [c|].
    + destruct IH as (Hc & Hin & Hmax). split; [done|]. split; [by apply list_elem_of_further|].
      intros k [->|Hk]%elem_of_cons Hks; [lia|by apply Hmax].
    + intros k [->|Hk]%elem_of_cons; [done|by apply IH].
Qed.

(** The reader finds the newest snapshot at or below the slot. *)
Lemma persistent_nearest db slot c bytes :
  ordered (snapshots db) -> bt_get (snapshots db) c = Some bytes -> c <= slot ->
  exists c' bytes', c <= c' <= slot /\ bt_get (snapshots db) c' = Some bytes' /\
    persistent_nearest_le db slot =
      match decode_snapshot bytes' with Some (l, cd) => Some (c', l, cd) | None => None end.
Proof.
  intros Ho Hc Hle. unfold persistent_nearest_le, list_snapshot_slots, get_snapshot.
  assert (Hk : forall k, k ∈ reverse (map fst (snapshots db)) <-> is_Some (bt_get (snapshots db) k)).
  { intros k. rewrite elem_of_reverse. split.
    - intros ([k' b] & -> & Hk)%list_elem_of_fmap. exists b. by apply get_elem.
    - intros [b Hk]. apply (get_elem _ _ _ Ho) in Hk. apply list_elem_of_fmap. by exists (k, b). }
  assert (Hd : StronglySorted (fun a b => b < a) (reverse (map fst (snapshots db)))).
  { apply (sorted_reverse (fun a b => a < b)). clear Hk Hc. induction (snapshots db) as [|[k b] m IH]; [constructor|].
    apply ordered_cons in Ho as [Ho Ha]. cbn [map fst]. constructor; [by apply IH|].
    apply Forall_forall. intros x ([x' b'] & -> & Hx)%list_elem_of_fmap.
    rewrite Forall_forall in Ha. by apply (Ha _ Hx). }
  pose proof (find_descending slot _ Hd) as Hf. destruct (find _ _) as [c'|].
  - destruct Hf as (Hle' & Hin & Hmax). apply Hk in Hin as [b' Hb']. exists c', b'. rewrite Hb'.
    split; [|done]. split; [apply Hmax; [apply Hk; by eexists|done]|done].
  - specialize (Hf c). rewrite Hk in Hf. specialize (Hf ltac:(by eexists)). lia.
Qed.

(** * The invariant *)

#[local] Abbreviation Node := (Node (L := L)).

Definition chain (n : Node) : list StoredBlock := stored_chain (nd_db n).
Definition node_state (n : Node) : State := state_of (receive (nd_fwd n)).

Section Invariant.
Context (seed : EraSummary) (pools : Z -> Hash28 -> option Hash32) `{HG : !GridRules seed, HL : !WalStoreLaws L}.
Context (bs0 : list StoredBlock) (ks0 : list Link) (s0 : State) (slot0 : Z) (anchor : Hash32)
  (eta0 : option Nonce) (slot_of : Hash32 -> Z).

#[local] Abbreviation grown := (grown seed pools bs0 ks0 s0 slot0).
#[local] Abbreviation tip_slot := (tip_slot bs0 slot0).

(** The state a snapshot stands for, once the recovered nonce is laid over it. *)
Definition overlaid (s : State) : State :=
  (fst s, match eta0 with Some e => overlay_recovered_eta0 (snd s) e | None => snd s end).

(** A snapshot at [slot] holds the state of the chain up to [slot]. *)
Definition snapshot_ok (bs : list StoredBlock) (slot : Z) (bytes : list Z) : Prop :=
  slot <= tip_slot bs /\
  exists s ks, decode_snapshot bytes = Some s /\ grown (up_to slot bs) ks (overlaid s).

Record spine_ok (n : Node) : Prop := mk_spine_ok {
  sp_db : db_ok (nd_db n);
  sp_chain : exists ks ts, grown (chain n) ks (node_state n) /\
    history anchor 0 [] (wal_entries (nd_wal n)) = Some (ks, ts);
  sp_fp : fs_prior_fp (nd_fwd n) = ledger_fingerprint (fst (node_state n));
  sp_hashes : forall b, b ∈ chain n -> slot_of (sb_hash b) = sb_slot b;
  sp_ordered : ordered (snapshots (nd_db n));
  sp_base : is_Some (bt_get (snapshots (nd_db n)) slot0);
  sp_snapshots slot bytes : bt_get (snapshots (nd_db n)) slot = Some bytes -> slot0 <= slot ->
    snapshot_ok (chain n) slot bytes;
  sp_eta0 : recovered_eta0 (nd_fwd n) = eta0;
}.

Context (Hbase : base_ok bs0 ks0 s0 slot0 anchor).

(** The slot is on the calendar of the seed. *)
Definition on_calendar (slot : Z) : Prop :=
  is_u64 slot /\ es_start_slot seed <= slot /\ grid_epoch seed slot <= u64_max.

(** * Rolling back rebuilds the state *)

Lemma replayed_blocks slot bs : Forall (fun b => sb_slot b <= slot) (up_to slot bs).
Proof.
  unfold up_to. apply Forall_forall. intros b Hb. apply list_elem_of_In, filter_In in Hb as [_ Hb]. lia.
Qed.

Lemma up_to_above slot slot' bs : up_to slot (above slot' bs) = above slot' (up_to slot bs).
Proof.
  unfold up_to, above. rewrite !filter_filter. apply List.filter_ext. intros b. apply andb_comm.
Qed.

(** From the state at a lower slot the replay reaches the state at a higher one. *)
Lemma replay_between n low high sched (view : LedgerView) ks s :
  spine_ok n -> slot0 <= low <= high -> low < u64_max -> uniform seed sched -> faithful pools view ->
  check_forecast_horizon sched high = Ok tt -> grown (up_to low (chain n)) ks s ->
  exists ks' s', grown (up_to high (chain n)) ks' s' /\
    replay_blocks sched (fst s) (snd s) (chaindb_blocks_in_range (nd_db n) low high) = Ok s'.
Proof.
  intros Hn Hlh Hmax Hu Hf Hh Hg. destruct (sp_chain _ Hn) as (ksn & ts & Hc & _).
  destruct (grown_cut _ _ _ _ _ _ _ Hbase high _ _ _ Hc ltac:(lia)) as (k1 & k2 & s2 & _ & _ & Hg2 & _).
  destruct (grown_cut _ _ _ _ _ _ _ Hbase low _ _ _ Hg2 ltac:(lia)) as (k3 & k4 & s4 & _ & _ & Hg4 & Hleads).
  rewrite up_to_up_to in Hg4 by lia. rewrite (grown_det _ _ _ _ _ _ _ _ _ Hg _ _ Hg4).
  exists k2, s2. split; [done|]. rewrite (stored_range _ (sp_db _ Hn)), up_to_above by done.
  apply (leads_replay seed pools _ _ _ _ view Hleads Hu Hf).
  apply Forall_forall. intros b Hb. apply (horizon_mono _ _ high); [|done].
  pose proof (replayed_blocks high (chain n)) as Hr. rewrite Forall_forall in Hr. apply Hr.
  unfold above in Hb. apply list_elem_of_In, filter_In in Hb as [Hb _]. by apply list_elem_of_In.
Qed.

Lemma materialize_exact n slot hash sched (view : LedgerView) :
  spine_ok n -> slot0 <= slot -> on_calendar slot -> uniform seed sched -> faithful pools view ->
  exists ks s, grown (up_to slot (chain n)) ks s /\
    materialize_rolled_back_state (mk_TargetPoint slot hash) (chaindb_context (nd_db n) (recovered_eta0 (nd_fwd n))) sched =
      Ok s.
Proof.
  intros Hn Hs (Hu64 & Hst & Hep) Hu Hf. destruct (sp_base _ Hn) as [b0 Hb0].
  destruct (persistent_nearest _ slot slot0 b0 (sp_ordered _ Hn) Hb0 Hs) as (c & bytes & Hc & Hget & Hnear).
  destruct (sp_snapshots _ Hn _ _ Hget ltac:(lia)) as (_ & s & ks & Hdec & Hg).
  unfold materialize_rolled_back_state. cbn [tg_slot chaindb_context nearest_le ctx_recovered_eta0 blocks_in_range].
  rewrite Hnear, Hdec. destruct s as [l cd]. rewrite (sp_eta0 _ Hn).
  destruct (Z.eqb_spec c slot) as [->|Hne]; [by exists ks, (overlaid (l, cd))|].
  apply (replay_between n c slot _ view ks (overlaid (l, cd)));
    [done|lia|unfold is_u64 in Hu64; lia|by apply extend_to_slot_uniform|done|by eapply extend_to_slot_covers|done].
Qed.

(** * One step keeps the invariant *)

Lemma keep_pending n fwd' : spine_ok n -> same_but_pending (nd_fwd n) fwd' ->
  spine_ok (mk_Node fwd' (nd_db n) (nd_wal n)).
Proof. intros [] [c ->]. by split. Qed.

Lemma tip_slot_cons b bs : (length bs0 <= length bs)%nat -> tip_slot (b :: bs) = sb_slot b.
Proof. intros Hl. unfold Spine.tip_slot. cbn [length]. by rewrite (proj2 (Nat.leb_gt _ _)) by lia. Qed.

(** The block's hash is the hash of one slot only, and the block comes after the start. *)
Definition in_order (d : DecodedBlock) : Prop :=
  let slot := hi_slot (dk_header_input d) in
  is_u64 slot /\ slot0 < slot /\ slot_of (dk_block_hash d) = slot.

Lemma extends_linked ks bs slot : Forall2 linked ks bs -> Forall (fun b => sb_slot b < slot) bs ->
  extends ks slot = true.
Proof. destruct 1 as [|k b ks bs [Hk _] _]; [done|]. intros [Hb _]%Forall_cons. cbn. rewrite Hk. lia. Qed.

Lemma admit_keeps n fwd' db' wal' d s' bytes p ck u u' sched (view : LedgerView) :
  spine_ok n -> uniform seed sched -> faithful pools view -> in_order d ->
  decode_block bytes = Ok d -> validates Enforce sched (node_state n) bytes s' ->
  put_block (nd_db n) (stored_as d bytes) = (Ok u, db') ->
  wal_append (nd_wal n) (AdmitBlock (fs_prior_fp (nd_fwd n)) (dk_block_hash d) (hi_slot (dk_header_input d)) Valid
                    (ledger_fingerprint (fst s'))) = (Ok u', wal') ->
  fwd' = mk_ForwardSyncState (mk_ReceiveState (fst s') (snd s') p) (ledger_fingerprint (fst s'))
           (cadence (nd_fwd n)) ck (recovered_anchor (nd_fwd n)) (recovered_eta0 (nd_fwd n)) ->
  spine_ok (mk_Node fwd' db' wal') /\ chain (mk_Node fwd' db' wal') = stored_as d bytes :: chain n.
Proof.
  intros Hn Hu Hf (Hu64 & Hs0 & Hsl) Ed Hv Hput Hw ->. pose proof Hn as [Hdb (ks & ts & Hg & Hh) Hfp Hhash Ho Hb Hsn He].
  set (b := stored_as d bytes) in *.
  assert (Ha : accepted seed pools (node_state n) b s').
  { split; [by exists d|]. by exists sched, view. }
  pose proof (grown_newer _ _ _ _ _ _ _ Hbase _ _ _ _ _ Hg Ha Hs0) as Hnew.
  destruct (grown_tip _ _ _ _ _ _ _ Hbase _ _ _ Hg) as (_ & Hall & _).
  assert (Hlt : Forall (fun x => sb_slot x < sb_slot b) (chain n)).
  { eapply Forall_impl; [exact Hall|]. cbv beta. intros x Hx. lia. }
  destruct (stored_put _ Hdb b Hlt) as (i' & Hput' & Hchain & Hsnap).
  rewrite Hput' in Hput. injection Hput as <- <-. split; [|exact Hchain].
  pose proof (grown_length _ _ _ _ _ _ _ _ _ Hg) as Hlen.
  split; cbn [nd_db nd_fwd nd_wal chain fs_prior_fp recovered_eta0]; unfold chain; cbn [nd_db].
  - replace i' with (snd (put_block (nd_db n) b)) by (by rewrite Hput').
    apply put_block_ok; [done|done|]. intros slot Hbh.
    destruct (ok_points _ Hdb _ _ Hbh) as (x & Hx & Hxh). destruct (ok_indexed _ Hdb _ _ Hx) as (Hxs & _).
    rewrite <- Hxs, <- (Hhash x), Hxh; [done|]. apply stored_by_slot; [done|]. by rewrite Hxs.
  - rewrite Hchain. eexists _, ts. split; [by apply grown_block with (s := node_state n)|].
    rewrite (append_entries _ _ _ _ Hw). apply history_admitted; [done| |].
    + rewrite Hfp. symmetry. by apply (grown_fp _ _ _ _ _ _ _ Hbase _ _ _ Hg).
    + apply (extends_linked _ (chain n)); [by apply (grown_linked _ _ _ _ _ _ _ Hbase _ _ _ Hg)|done].
  - done.
  - rewrite Hchain. intros x [->|Hx]%elem_of_cons; [done|by apply Hhash].
  - by rewrite Hsnap.
  - by rewrite Hsnap.
  - rewrite Hsnap, Hchain. intros slot by_ Hget Hge. destruct (Hsn _ _ Hget Hge) as (Hle & s & kss & Hd & Hgs).
    split; [rewrite tip_slot_cons by done; lia|]. exists s, kss. by rewrite up_to_newer by lia.
  - done.
Qed.

Lemma pump_keeps n bytes sched (view : LedgerView) r fwd' db' wal' :
  spine_ok n -> uniform seed sched -> faithful pools view ->
  (forall d, decode_block bytes = Ok d -> in_order d) ->
  pump_block put_checkpoint (nd_fwd n) (nd_db n) (nd_wal n) bytes sched = (r, fwd', db', wal') -> survivable r ->
  spine_ok (mk_Node fwd' db' wal') /\
  match r with
  | Ok (Some t) => mem_tip db' = Some (mk_ChainTip (pm_hash t) (pm_slot t)) /\
      exists b, chain (mk_Node fwd' db' wal') = b :: chain n /\ sb_bytes b = bytes
  | _ => db' = nd_db n /\ wal' = nd_wal n /\ node_state (mk_Node fwd' db' wal') = node_state n
  end.
Proof.
  intros Hn Hu Hf Hord Hp Hs. apply pump_inv in Hp; [|done].
  destruct Hp as [(Hsame & -> & -> & Hr)|(d & s' & p & ck & u & u' & t & Ed & Hv & Hput & Hw & Hst & -> & Hts & Hth)].
  - split; [by apply keep_pending|]. destruct Hsame as [c ->].
    destruct r as [[t|]|e]; [by destruct (Hr t)|done|done].
  - destruct (admit_keeps n fwd' db' wal' d s' bytes p ck u u' sched view) as [Hok Hc]; [by auto..|].
    split; [done|]. rewrite (stored_tip db'). unfold chain in Hc. cbn [nd_db] in Hc.
    split; [rewrite Hc; cbn [head option_map stored_as sb_hash sb_slot]; by rewrite Hts, Hth|]. eexists. split; [exact Hc|done].
Qed.

(** The chain stands at its newest block, once that is not below the start. *)
Lemma tip_slot_head bs ks s b rest : grown bs ks s -> bs = b :: rest -> slot0 <= sb_slot b -> tip_slot bs = sb_slot b.
Proof.
  intros Hg -> Hb. unfold Spine.tip_slot. destruct (Nat.leb_spec (length (b :: rest)) (length bs0)) as [Hl|]; [|done].
  assert (E : b :: rest = bs0).
  { inversion Hg as [E|bs' ks' s1 b1 s2 j Hg' Ha Hlt E]; [done|]. apply grown_length in Hg'. cbn in Hl. lia. }
  pose proof (base_slots _ _ _ _ _ Hbase) as Hs. rewrite <- E in Hs. apply Forall_cons in Hs as [Hs _]. lia.
Qed.

(** The log is rewound to the part of it that tells the lower chain. *)
Lemma rewind_linked ks1 bs1 ks2 b bs2 : Forall2 linked ks1 bs1 -> Forall2 linked ks2 (b :: bs2) ->
  Forall (fun x => sb_slot b < sb_slot x) bs1 ->
  exists k rest, ks2 = k :: rest /\ rewind (ks1 ++ ks2) (sb_slot b) (sb_hash b) = k :: rest.
Proof.
  intros H1 H2. inversion H2 as [|k ? rest ? [Hs Hh] _]; subst.
  induction H1 as [|k1 b1 ks1 bs1 [Hs1 _] _ IH]; intros Hb.
  - exists k, rest. split; [done|]. cbn [app rewind]. by rewrite bool_decide_eq_true_2.
  - apply Forall_cons in Hb as [Hb1 Hb]. destruct (IH Hb) as (k' & rest' & E & Hr). exists k', rest'. split; [done|].
    cbn [app rewind]. rewrite bool_decide_eq_false_2; [done|]. intros [E' _]. lia.
Qed.

Definition no_snapshot_above (n : Node) (slot : Z) : Prop :=
  forall s bytes, bt_get (snapshots (nd_db n)) s = Some bytes -> s <= slot.

(** The node after its database went back to [slot] and its state to [s]. *)
Definition gone_back (n : Node) (slot : Z) (s : State) (wal' : L) : Node :=
  mk_Node (mk_ForwardSyncState (mk_ReceiveState (fst s) (snd s) []) (ledger_fingerprint (fst s))
             (cadence (nd_fwd n)) (last_checkpoint (nd_fwd n)) (recovered_anchor (nd_fwd n)) (recovered_eta0 (nd_fwd n)))
    (rollback_to_slot (nd_db n) slot) wal'.

Lemma above_above slot bs : Forall (fun b => slot < sb_slot b) (above slot bs).
Proof. apply Forall_forall. intros b Hb. apply list_elem_of_In, filter_In in Hb as [_ Hb]. lia. Qed.

Lemma rollback_keeps n slot hash ks2 s b rest bn reason pt sel u wal' :
  spine_ok n -> slot0 <= slot -> no_snapshot_above n slot ->
  grown (up_to slot (chain n)) ks2 s -> up_to slot (chain n) = b :: rest -> sb_slot b = slot -> sb_hash b = hash ->
  wal_append (nd_wal n) (RollBack (Wal.mk_RollbackPoint slot hash bn) reason pt sel) = (Ok u, wal') ->
  spine_ok (gone_back n slot s wal').
Proof.
  intros Hn Hs Hno Hg Eb <- <- Hw. pose proof Hn as [Hdb (ks & ts & Hgn & Hh) Hfp Hhash Ho Hb Hsn He].
  destruct (grown_cut _ _ _ _ _ _ _ Hbase (sb_slot b) _ _ _ Hgn Hs) as (k1 & k2 & s2 & -> & Hl & Hg2 & _).
  rewrite (grown_det _ _ _ _ _ _ _ _ _ Hg _ _ Hg2). clear Hg s ks2.
  pose proof (grown_linked _ _ _ _ _ _ _ Hbase _ _ _ Hgn) as Hlk.
  rewrite (descending_split (sb_slot b) (chain n)) in Hlk by by apply stored_descending.
  apply Forall2_app_inv in Hlk as [Hlk1 Hlk2]; [|done]. rewrite Eb in Hlk2.
  destruct (rewind_linked _ _ _ _ _ Hlk1 Hlk2 (above_above _ _)) as (k & ks' & -> & Hr).
  assert (Hchain : chain (gone_back n (sb_slot b) s2 wal') = up_to (sb_slot b) (chain n)) by by apply stored_rollback.
  pose proof (tip_slot_head _ _ _ _ _ Hg2 Eb Hs) as Htip.
  split; rewrite ?Hchain; cbn [gone_back nd_db nd_fwd nd_wal fs_prior_fp recovered_eta0].
  - by apply fold_remove_ok.
  - eexists _, _. destruct s2. split; [exact Hg2|].
    rewrite (append_entries _ _ _ _ Hw). by eapply history_rolled_back.
  - done.
  - intros x Hx. apply Hhash. unfold up_to in Hx. apply list_elem_of_In, filter_In in Hx as [Hx _]. by apply list_elem_of_In.
  - by rewrite rollback_snapshots.
  - by rewrite rollback_snapshots.
  - rewrite rollback_snapshots. intros sl bytes Hget Hge. destruct (Hsn _ _ Hget Hge) as (_ & ss & kss & Hd & Hgs).
    pose proof (Hno _ _ Hget). split; [lia|]. exists ss, kss. by rewrite up_to_up_to.
  - done.
Qed.

(** * Applying a rollback *)

(** A rollback to a block of the chain above the start goes through, and leaves the chain up to
    that block and the state it had, unless the log refuses its entry. *)
Lemma rolled_back_cases n b reason sched (view : LedgerView) r fwd' db' wal' :
  spine_ok n -> b ∈ chain n -> slot0 <= sb_slot b -> on_calendar (sb_slot b) ->
  uniform seed sched -> faithful pools view -> no_snapshot_above n (sb_slot b) ->
  apply_rolled_back (nd_fwd n) (nd_db n) (nd_wal n) (sb_slot b) (sb_hash b) reason sched = (r, fwd', db', wal') ->
  (r = Ok (Some (mk_AppliedTip (sb_slot b) (sb_hash b))) /\ spine_ok (mk_Node fwd' db' wal') /\
   exists ks s, grown (up_to (sb_slot b) (chain n)) ks s /\ mk_Node fwd' db' wal' = gone_back n (sb_slot b) s wal') \/
  exists entry e, wal_append (nd_wal n) entry = (Err e, wal') /\ r = Err (Apply_Wal e).
Proof.
  intros Hn Hb H0 Hcal Hu Hf Hno Hr.
  destruct (materialize_exact n (sb_slot b) (sb_hash b) sched view) as (ks & s & Hg & Hm); [done..|].
  destruct s as [l c]. unfold apply_rolled_back in Hr. rewrite Hm in Hr.
  cbn [commit_rollback write_rollback_to_slot ChainDbWriter tg_slot] in Hr.
  match type of Hr with context [wal_append _ ?e] =>
    destruct (wal_append (nd_wal n) e) as [[u|err] w] eqn:Hw'; [|right; exists e, err; by injection Hr as <- _ _ <-] end.
  left.
  assert (Hhead : exists rest, up_to (sb_slot b) (chain n) = b :: rest).
  { pose proof (grown_descending _ _ _ _ _ _ _ Hbase _ _ _ Hg) as Hd.
    assert (Hin : b ∈ up_to (sb_slot b) (chain n)).
    { unfold up_to. apply list_elem_of_In, filter_In. split; [by apply list_elem_of_In|lia]. }
    pose proof (replayed_blocks (sb_slot b) (chain n)) as Hle.
    destruct (up_to (sb_slot b) (chain n)) as [|x rest]; [by apply not_elem_of_nil in Hin|].
    apply descending_cons in Hd as [_ Hx]. apply Forall_cons in Hle as [Hle _].
    apply elem_of_cons in Hin as [->|Hin]; [by eexists|]. rewrite Forall_forall in Hx. specialize (Hx _ Hin). lia. }
  destruct Hhead as [rest Hhead].
  assert (Htip : mem_tip (rollback_to_slot (nd_db n) (sb_slot b)) = Some (mk_ChainTip (sb_hash b) (sb_slot b))).
  { rewrite stored_tip, (stored_rollback _ (sp_db _ Hn)). unfold chain in Hhead. by rewrite Hhead. }
  rewrite Htip in Hr. cbn [durable_tip_matches ct_slot ct_hash] in Hr.
  rewrite Z.eqb_refl, bool_decide_eq_true_2 in Hr by done. injection Hr as <- <- <- <-.
  split; [done|]. split; [|by exists ks, (l, c)].
  by eapply (rollback_keeps n (sb_slot b) (sb_hash b) ks (l, c) b rest).
Qed.

Lemma rolled_back_exact n b reason sched (view : LedgerView) r fwd' db' wal' :
  spine_ok n -> b ∈ chain n -> slot0 <= sb_slot b -> on_calendar (sb_slot b) ->
  uniform seed sched -> faithful pools view -> no_snapshot_above n (sb_slot b) ->
  (forall e, exists u w, wal_append (nd_wal n) e = (Ok u, w)) ->
  apply_rolled_back (nd_fwd n) (nd_db n) (nd_wal n) (sb_slot b) (sb_hash b) reason sched = (r, fwd', db', wal') ->
  r = Ok (Some (mk_AppliedTip (sb_slot b) (sb_hash b))) /\ spine_ok (mk_Node fwd' db' wal') /\
  exists ks s, grown (up_to (sb_slot b) (chain n)) ks s /\ mk_Node fwd' db' wal' = gone_back n (sb_slot b) s wal'.
Proof.
  intros Hn Hb H0 Hcal Hu Hf Hno Hw Hr.
  destruct (rolled_back_cases n b reason sched view r fwd' db' wal') as [?|(entry & e & He & _)]; [done..|].
  destruct (Hw entry) as (u & w & Hok). congruence.
Qed.

(** The errors of an event after which the node's state is still consistent. *)
Definition event_survivable (r : result (option AppliedTip) ApplyError) : Prop :=
  match r with
  | Ok _ | Err (Apply_Materialize _) | Err MissingRollForwardBlock | Err (Apply_Pump (Pump_Receive _)) => True
  | Err _ => False
  end.

Lemma rolled_back_keeps n slot hash reason sched (view : LedgerView) r fwd' db' wal' :
  spine_ok n -> slot0 <= slot -> on_calendar slot -> uniform seed sched -> faithful pools view ->
  no_snapshot_above n slot ->
  apply_rolled_back (nd_fwd n) (nd_db n) (nd_wal n) slot hash reason sched = (r, fwd', db', wal') ->
  event_survivable r -> spine_ok (mk_Node fwd' db' wal').
Proof.
  intros Hn H0 Hcal Hu Hf Hno Hr Hsv.
  destruct (materialize_exact n slot hash sched view) as (ks & s & Hg & Hm); [done..|].
  destruct s as [l c]. unfold apply_rolled_back in Hr. rewrite Hm in Hr.
  cbn [commit_rollback write_rollback_to_slot ChainDbWriter tg_slot] in Hr.
  destruct (wal_append _ _) as [[u|e] w] eqn:Hw; [|by injection Hr as <- <- <- <-].
  destruct (durable_tip_matches _ _ _) eqn:Ht; cbn [negb] in Hr; [|by injection Hr as <- <- <- <-].
  injection Hr as <- <- <- <-. rewrite stored_tip, (stored_rollback _ (sp_db _ Hn)) in Ht. fold (chain n) in Ht.
  destruct (up_to slot (chain n)) as [|b rest] eqn:Eb; [done|]. cbn in Ht.
  apply andb_true_iff in Ht as [Hts%Z.eqb_eq Hth%bool_decide_eq_true].
  rewrite <- Eb in Hg. by eapply (rollback_keeps n slot hash ks (l, c) b rest).
Qed.

(** * Capturing a snapshot *)

Context `{HSL : !SnapshotCodecLaws}.
Context (Hnonce : eta0 = None \/ epoch_nonce (snd s0) <> nonce_ZERO).

Lemma overlaid_grown bs ks s : grown bs ks s -> overlaid s = s.
Proof.
  intros Hg. apply grown_nonce in Hg. unfold overlaid. destruct s as [l c]. cbn in *. f_equal.
  destruct Hnonce as [->|Hz]; [done|]. destruct eta0 as [e|]; [|done].
  unfold overlay_recovered_eta0. rewrite bool_decide_eq_false_2; [done|]. by rewrite Hg.
Qed.

Lemma capture_keeps n slot r db' :
  spine_ok n -> last_slot (snd (node_state n)) = Some slot ->
  persistent_capture (nd_db n) slot (fst (node_state n)) (snd (node_state n)) = (r, db') ->
  spine_ok (mk_Node (nd_fwd n) db' (nd_wal n)).
Proof.
  intros Hn Hlast Hc. pose proof Hn as [Hdb (ks & ts & Hg & Hh) Hfp Hhash Ho Hb Hsn He].
  assert (Hself : spine_ok (mk_Node (nd_fwd n) (nd_db n) (nd_wal n))) by by split; eauto.
  unfold persistent_capture in Hc. destruct (encode_snapshot _ _) as [bytes|e] eqn:Ee; [|by injection Hc as <- <-].
  unfold put_snapshot, put_once in Hc. destruct (bt_get (snapshots (nd_db n)) slot) as [ex|] eqn:Eg.
  { destruct (negb _); injection Hc as <- <-; [done|]. by destruct n as [? [] ?]. }
  injection Hc as <- <-. destruct (grown_tip _ _ _ _ _ _ _ Hbase _ _ _ Hg) as (Hs0 & Hall & Hle & Ht).
  specialize (Hle _ Hlast).
  split; unfold chain, stored_chain; cbn [nd_db nd_fwd nd_wal by_slot snapshots]; [|eauto|done|exact Hhash| | | |done].
  - destruct Hdb. by split.
  - by apply insert_ordered.
  - destruct (Z.eq_dec slot slot0) as [->|Hne]; [by rewrite get_insert|by rewrite get_insert_ne].
  - intros sl b Hget Hge. destruct (Z.eq_dec slot sl) as [->|Hne].
    + rewrite get_insert in Hget. injection Hget as <-.
      assert (Hslot : tip_slot (chain n) = sl) by (destruct Ht as [Ht|Ht]; [lia|congruence]).
      split; [exact Hle|]. exists (node_state n), ks. split; [by apply decode_encode_snapshot|].
      rewrite (overlaid_grown _ _ _ Hg). fold (stored_chain (nd_db n)). fold (chain n).
      rewrite up_to_all; [done|]. by rewrite Hslot in Hall.
    + rewrite get_insert_ne in Hget by done. by apply (Hsn sl b).
Qed.

(** * Runs *)

Inductive spine_step (n : Node) : Node -> Prop :=
| step_pump bytes sched view r fwd' db' wal' :
    uniform seed sched -> faithful pools view -> (forall d, decode_block bytes = Ok d -> in_order d) ->
    @pump_block _ _ _ _ _ _ put_checkpoint view (nd_fwd n) (nd_db n) (nd_wal n) bytes sched = (r, fwd', db', wal') ->
    survivable r -> spine_step n (mk_Node fwd' db' wal')
| step_event event reason block sched view r fwd' db' wal' :
    uniform seed sched -> faithful pools view ->
    (forall bytes d, block = Some bytes -> decode_block bytes = Ok d -> in_order d) ->
    (forall to depth, event = RolledBack to depth ->
       slot0 <= pt_slot to /\ on_calendar (pt_slot to) /\ no_snapshot_above n (pt_slot to)) ->
    @apply_chain_event _ _ _ _ _ _ _ put_checkpoint view (nd_fwd n) (nd_db n) (nd_wal n) event reason block sched = (r, fwd', db', wal') ->
    event_survivable r -> spine_step n (mk_Node fwd' db' wal')
| step_capture slot r db' :
    last_slot (snd (node_state n)) = Some slot ->
    persistent_capture (nd_db n) slot (fst (node_state n)) (snd (node_state n)) = (r, db') ->
    spine_step n (mk_Node (nd_fwd n) db' (nd_wal n)).

Lemma step_keeps n n' : spine_step n n' -> spine_ok n -> spine_ok n'.
Proof.
  destruct 1 as [bytes sched view r fwd' db' wal' Hu Hf Hord Hp Hs
                |event reason block sched view r fwd' db' wal' Hu Hf Hord Hrb Ha Hs|slot r db' Hl Hc]; intros Hn.
  - by eapply (pump_keeps n bytes sched view).
  - destruct event as [tip bn|to depth|from to|tip rep|why]; cbn [apply_chain_event] in Ha.
    + injection Ha as <- <- <- <-. by destruct n.
    + destruct (Hrb _ _ eq_refl) as (H0 & Hcal & Hno). by eapply rolled_back_keeps.
    + injection Ha as <- <- <- <-. by destruct n.
    + unfold apply_chain_selected in Ha. destruct block as [bytes|]; [|injection Ha as <- <- <- <-; by destruct n].
      destruct (pump_block _ _ _ _ _ _) as [[[r1 fwd1] db1] wal1] eqn:Hp.
      assert (Hs1 : survivable r1).
      { destruct r1 as [[t|]|e]; [done|done|]. injection Ha as <- <- <- <-. by destruct e. }
      assert (Hk : spine_ok (mk_Node fwd1 db1 wal1)).
      { eapply (pump_keeps n bytes sched view); [done..| |exact Hp|done]. intros d. by apply Hord. }
      destruct r1 as [t|e]; [|by injection Ha as <- <- <- <-]. destruct (negb _); by injection Ha as <- <- <- <-.
    + injection Ha as <- <- <- <-. by destruct n.
  - by eapply capture_keeps.
Qed.

Lemma run_keeps n n' : rtc spine_step n n' -> spine_ok n -> spine_ok n'.
Proof. induction 1 as [|n1 n2 n3 Hs _ IH]; [done|]. intros Hn. apply IH. by eapply step_keeps. Qed.


(** C16. From a block at the tip of a node whose parts agree, let the node run on as in [spine_exact]
    (stores and log that do not fail, rollbacks to slots with no snapshot above them), as long as the
    chain up to that block is still the one it was.  When no snapshot stands above the block and the
    log takes the entry, rolling back to it goes through and leaves the node with the chain, the
    ledger and the chain-dependent state it had then, although the replay trusts the leader claims,
    may know no stake and runs under another extension of the schedule.  With a snapshot of an
    abandoned fork above an earlier target it does not: [stale_snapshot_rebuilds_another_fork]. *)
Theorem rollback_rebuilds (n1 n : Node) b rest reason depth block sched (view : LedgerView) r fwd' db' wal'
    (Hn1 : spine_ok n1) (Hrun : rtc spine_step n1 n)
    (Htip : chain n1 = b :: rest) (Hstill : up_to (sb_slot b) (chain n) = chain n1)
    (Habove : slot0 <= sb_slot b) (Hcal : on_calendar (sb_slot b))
    (Hsched : uniform seed sched) (Hview : faithful pools view)
    (Hsnap : no_snapshot_above n (sb_slot b))
    (Hlog : forall e, exists u w, wal_append (nd_wal n) e = (Ok u, w))
    (Hroll : apply_chain_event put_checkpoint (nd_fwd n) (nd_db n) (nd_wal n)
               (RolledBack (ForkChoice.mk_Point (sb_slot b) (sb_hash b)) depth) reason block sched =
             (r, fwd', db', wal')) :
  r = Ok (Some (mk_AppliedTip (sb_slot b) (sb_hash b))) /\
  node_state (mk_Node fwd' db' wal') = node_state n1 /\ chain (mk_Node fwd' db' wal') = chain n1 /\
  spine_ok (mk_Node fwd' db' wal').
Proof.
  pose proof (run_keeps _ _ Hrun Hn1) as Hn. cbn [apply_chain_event pt_slot pt_hash] in Hroll.
  assert (Hin : b ∈ chain n).
  { assert (Hb : b ∈ up_to (sb_slot b) (chain n)) by (rewrite Hstill, Htip; apply list_elem_of_here).
    unfold up_to in Hb. apply list_elem_of_In, filter_In in Hb as [Hb _]. by apply list_elem_of_In. }
  destruct (rolled_back_exact n b reason sched view r fwd' db' wal') as (-> & Hok & ks & s & Hg & E); [done..|].
  destruct (sp_chain _ Hn1) as (ks1 & ts1 & Hg1 & _). rewrite <- Hstill in Hg1.
  split; [done|]. split; [|split; [|done]]; rewrite E.
  - rewrite (grown_det _ _ _ _ _ _ _ _ _ Hg1 _ _ Hg). by destruct s.
  - unfold chain at 1, gone_back. cbn [nd_db]. by rewrite (stored_rollback _ (sp_db _ Hn)).
Qed.

(** When the pump answers with a tip, the block is in the database and in the log: the chain is
    the old one with this block on top, the durable tip is the answer, and the log has one
    entry more, which admits the block.  When it answers anything else its callers survive,
    chain, log and state are untouched. *)
Theorem pumped_tip_is_durable n bytes sched (view : LedgerView) r fwd' db' wal'
    (Hn : spine_ok n) (Hsched : uniform seed sched) (Hview : faithful pools view)
    (Hord : forall d, decode_block bytes = Ok d -> in_order d)
    (Hpump : pump_block put_checkpoint (nd_fwd n) (nd_db n) (nd_wal n) bytes sched = (r, fwd', db', wal'))
    (Hsurvives : survivable r) :
  match r with
  | Ok (Some t) =>
      mem_tip db' = Some (mk_ChainTip (pm_hash t) (pm_slot t)) /\
      (exists b, chain (mk_Node fwd' db' wal') = b :: chain n /\ sb_bytes b = bytes) /\
      wal_entries wal' = wal_entries (nd_wal n) ++
        [AdmitBlock (fs_prior_fp (nd_fwd n)) (pm_hash t) (pm_slot t) Valid (ledger_fingerprint (rs_ledger (receive fwd')))]
  | _ => db' = nd_db n /\ wal' = nd_wal n /\ node_state (mk_Node fwd' db' wal') = node_state n
  end.
Proof.
  destruct (pump_keeps n bytes sched view r fwd' db' wal') as [_ Hp]; [done..|].
  apply pump_inv in Hpump; [|done].
  destruct r as [[t|]|e]; [|done..]. destruct Hp as [Ht Hc]. split; [done|]. split; [done|].
  destruct Hpump as [(_ & _ & _ & Hr)|(d & s' & p & ck & u & u' & t' & _ & _ & _ & Hw & -> & Et & Hts & Hth)].
  - by destruct (Hr t).
  - injection Et as <-. rewrite (append_entries _ _ _ _ Hw), Hts, Hth. done.
Qed.
End Invariant.
End Facts.
