(* ===== verification/SpineExamples.v ===== *)
(** A small node for the witnesses: three blocks, a log in a list, a snapshot encoding that
    knows the states of the example, and runs of the spine over them.  The last section shows where
    the spine does not do what it means to: a snapshot of an abandoned fork is materialized, a
    refused body keeps the true block out, a block need not extend the tip; and the frame dispatcher
    refuses every block a server serves. *)

From S2P Require Import Prelude Cbor CborRoundtrip Envelope EraSchedule Timing Extension Leader Kes ChainDep Header.
From S2P Require Import HeaderFacts ForkChoice NetCodec BTree ChainDb Spelling WireCodec ChainSync BlockFetch.
From S2P Require Import MiniProtocols Wal WalReplay BlockCodec BlockValidity ToyBlocks Receive ReceiveStores StoredChain.
From S2P Require Import ForwardSync Spine SpineFacts.

(** * Stores *)

#[export] Instance list_log : WalStore (list WalEntry) := {|
  wal_append l e := (Ok tt, l ++ [e]);
  wal_read_all l := Ok l;
|}.
#[export] Instance list_log_laws : WalStoreLaws (list WalEntry).
Proof. refine {| wal_entries := fun l => l |}. by intros l e u l' [= _ <-]. Defined.

#[export] Instance toy_grid : GridRules preview_seed.
Proof. by constructor. Qed.

Definition block_a : list Z := toy_cbor 20 5 parent [0x80].
Definition block_b : list Z := toy_cbor 30 6 parent [0x80].
Definition block_c : list Z := toy_cbor 25 6 parent [0x80].
Definition block_d : list Z := toy_cbor 40 7 parent [0x80].

Definition toy_start : State := ([], epoch_start).
Definition after (s : State) (bytes : list Z) : State :=
  default s (outcome (block_validity (H3 := block_view) (fst s) (snd s) preview bytes)).

(** The states a snapshot may hold, by their number. *)
Definition known_states : list State :=
  [toy_start; after toy_start block_a; after (after toy_start block_a) block_b].

#[export] Instance dep_eq_dec : EqDecision PraosChainDepState.
Proof. solve_decision. Defined.

Fixpoint position (k : Z) (l : list State) (s : State) : option Z :=
  match l with
  | [] => None
  | x :: l => if bool_decide (fst x = fst s) && bool_decide (snd x = snd s) then Some k else position (k + 1) l s
  end.

Lemma position_lookup s l : forall k i, 0 <= k -> position k l s = Some i ->
  k <= i /\ l !! Z.to_nat (i - k) = Some s.
Proof.
  induction l as [|x l IH]; intros k i Hk; [done|]. cbn [position].
  destruct (_ && _) eqn:E.
  - apply andb_true_iff in E as [E1%bool_decide_eq_true E2%bool_decide_eq_true].
    intros [= <-]. split; [lia|]. rewrite Z.sub_diag. destruct x, s. cbn in *. by subst.
  - intros H. apply IH in H as [Hle Hl]; [|lia]. split; [lia|].
    replace (Z.to_nat (i - k)) with (S (Z.to_nat (i - (k + 1)))) by lia. exact Hl.
Qed.

#[export] Instance toy_codec : SnapshotCodec := {|
  SnapshotEncodeError := unit;
  encode_snapshot := fun l c => match position 0 known_states (l, c) with Some i => Ok [i] | None => Err tt end;
  decode_snapshot := fun bytes => match bytes with [i] => known_states !! Z.to_nat i | _ => None end;
|}.
#[export] Instance toy_codec_laws : SnapshotCodecLaws.
Proof.
  constructor. intros l c bytes. cbn [encode_snapshot decode_snapshot toy_codec].
  destruct (position 0 known_states (l, c)) as [i|] eqn:E; [|done]. intros [= <-].
  apply position_lookup in E as [_ E]; [|lia]. by rewrite Z.sub_0_r in E.
Qed.

(** * Runs *)

Definition ToyNode : Type := Node (L := list WalEntry).

Definition no_checkpoint (_ : Z) : result unit ChainDbError := Ok tt.

(** The node at the start: nothing stored, and a snapshot of its state at slot 10. *)
Definition node_0 : ToyNode :=
  mk_Node (mk_ForwardSyncState (receive_state_new [] epoch_start) (ledger_fingerprint (fst toy_start)) 100 None None None)
    (mk_Inner [] [] [(10, [0])] [] [] []) [].

Definition pump (n : ToyNode) (bytes : list Z) : ToyNode :=
  let '(_, f, d, w) := @pump_block _ _ _ _ _ _ no_checkpoint block_view (nd_fwd n) (nd_db n) (nd_wal n) bytes preview in
  mk_Node f d w.

Inductive Answer : Type := Tip (slot : Z) (hash : Hash32) | Nothing | Refused | Halted.
#[export] Instance Answer_eq_dec : EqDecision Answer.
Proof. solve_decision. Defined.

Definition pump_answer (n : ToyNode) (bytes : list Z) : Answer :=
  match fst (fst (fst (@pump_block _ _ _ _ _ _ no_checkpoint block_view (nd_fwd n) (nd_db n) (nd_wal n) bytes preview))) with
  | Ok (Some t) => Tip (pm_slot t) (pm_hash t)
  | Ok None => Nothing
  | Err (Pump_Receive _) => Refused
  | Err _ => Halted
  end.

Definition back (n : ToyNode) (slot : Z) (hash : Hash32) : ToyNode :=
  let '(_, f, d, w) := @apply_chain_event _ _ _ _ _ _ _ no_checkpoint block_view (nd_fwd n) (nd_db n) (nd_wal n)
    (RolledBack (mk_Point slot hash) 1) ForkChoiceWin None preview in mk_Node f d w.

Definition back_answer (n : ToyNode) (slot : Z) (hash : Hash32) : Answer :=
  match fst (fst (fst (@apply_chain_event _ _ _ _ _ _ _ no_checkpoint block_view (nd_fwd n) (nd_db n) (nd_wal n)
    (RolledBack (mk_Point slot hash) 1) ForkChoiceWin None preview))) with
  | Ok (Some t) => Tip (at_slot t) (at_hash t)
  | Ok None => Nothing
  | Err (Apply_Materialize _) => Refused
  | Err _ => Halted
  end.

Definition capture (n : ToyNode) (slot : Z) : ToyNode :=
  let '(_, d) := persistent_capture (nd_db n) slot (fst (node_state n)) (snd (node_state n)) in
  mk_Node (nd_fwd n) d (nd_wal n).

Definition hash_a : Hash32 := toy_header_hash 20 5 parent [0x80].
Definition hash_b : Hash32 := toy_header_hash 30 6 parent [0x80].
Definition hash_c : Hash32 := toy_header_hash 25 6 parent [0x80].
Definition hash_d : Hash32 := toy_header_hash 40 7 parent [0x80].

Definition node_a : ToyNode := pump node_0 block_a.
Definition node_as : ToyNode := capture node_a 20.
Definition node_ab : ToyNode := pump node_a block_b.
Definition node_asb : ToyNode := pump node_as block_b.
Definition node_asba : ToyNode := back node_asb 20 hash_a.
Definition node_asbac : ToyNode := pump node_asba block_c.

(** * The invariant at the start *)

Definition toy_pools (_ : Z) (_ : Hash28) : option Hash32 := Some (blake2b_256 toy_vk).
Definition toy_slot_of (h : Hash32) : Z :=
  if bool_decide (h = hash_a) then 20 else if bool_decide (h = hash_b) then 30
  else if bool_decide (h = hash_c) then 25 else 40.
Definition toy_anchor : Hash32 := ledger_fingerprint (fst toy_start).

#[local] Abbreviation toy_ok := (spine_ok preview_seed toy_pools [] [] toy_start 10 toy_anchor None toy_slot_of).
#[local] Abbreviation toy_step :=
  (spine_step no_checkpoint preview_seed toy_pools 10 toy_slot_of).

Lemma block_view_faithful : faithful toy_pools block_view.
Proof. intros e p. split; [by intros k [= <-]|by eexists]. Qed.

Lemma toy_base : base_ok [] [] toy_start 10 toy_anchor.
Proof. split; try constructor. intros l [= <-]. done. Qed.

Lemma toy_ok_0 : toy_ok node_0.
Proof.
  split; [|exists [], []; split; [constructor|done]|done|by intros b ?%not_elem_of_nil| |by eexists| |done].
  - split; try constructor; done.
  - repeat constructor.
  - intros slot bytes Hget Hge. cbn in Hget. destruct (slot ?= 10) eqn:E; [|done..].
    apply Z.compare_eq in E as ->. injection Hget as <-. split; [done|]. exists toy_start, []. by split; [|constructor].
Qed.

(** * Steps, by evaluation *)

Definition goes_in (n : ToyNode) (bytes : list Z) (slot : Z) (hash : Hash32) : bool :=
  match decode_block bytes with
  | Ok d => (hi_slot (dk_header_input d) =? slot) && bool_decide (dk_block_hash d = hash) &&
            (10 <? slot) && (slot <=? 40) && (toy_slot_of hash =? slot)
  | Err _ => false
  end && bool_decide (pump_answer n bytes = Tip slot hash).

Lemma decodes_in_order n bytes slot hash : goes_in n bytes slot hash = true ->
  forall d, decode_block bytes = Ok d -> in_order 10 toy_slot_of d.
Proof.
  unfold goes_in. intros Hg d Ed. rewrite Ed in Hg. apply andb_true_iff in Hg as [Hg _].
  apply andb_true_iff in Hg as [[[[Hs%Z.eqb_eq Hh%bool_decide_eq_true]%andb_true_iff H1%Z.ltb_lt]%andb_true_iff
    H2%Z.leb_le]%andb_true_iff H3%Z.eqb_eq].
  unfold in_order. rewrite Hs, Hh, H3. split; [small|]. by split.
Qed.

Lemma goes_in_answer n bytes slot hash : goes_in n bytes slot hash = true -> pump_answer n bytes = Tip slot hash.
Proof. intros [_ Ha]%andb_true_iff. by apply bool_decide_eq_true in Ha. Qed.

Lemma toy_pump n bytes slot hash : goes_in n bytes slot hash = true -> toy_step n (pump n bytes).
Proof.
  intros Hg. pose proof (decodes_in_order _ _ _ _ Hg) as Hord. apply andb_true_iff in Hg as [_ Ha].
  apply bool_decide_eq_true in Ha. unfold pump, pump_answer in *.
  destruct (pump_block _ _ _ _ _ _) as [[[r f] d] w] eqn:E.
  eapply (step_pump _ _ _ _ _ _ _ _ block_view); [exact preview_uniform|exact block_view_faithful|exact Hord|exact E|].
  by destruct r as [|[]].
Qed.

Definition snapshot_slots (n : ToyNode) : list Z := map fst (snapshots (nd_db n)).

Definition goes_back (n : ToyNode) (slot : Z) (hash : Hash32) : bool :=
  (10 <=? slot) && (slot <=? 40) && forallb (fun s => s <=? slot) (snapshot_slots n) &&
  bool_decide (back_answer n slot hash = Tip slot hash).

Lemma snapshots_below (n : ToyNode) slot : ordered (snapshots (nd_db n)) ->
  forallb (fun s => s <=? slot) (snapshot_slots n) = true -> no_snapshot_above n slot.
Proof.
  intros Ho Hf s bytes Hget. apply (get_elem _ _ _ Ho) in Hget. rewrite forallb_forall in Hf.
  apply Z.leb_le, Hf, in_map_iff. exists (s, bytes). split; [done|]. by apply list_elem_of_In.
Qed.

Lemma toy_on_calendar slot : 10 <= slot <= 40 -> on_calendar preview_seed slot.
Proof.
  intros Hs. unfold on_calendar, grid_epoch. cbn [es_start_slot es_start_epoch es_epoch_length_slots preview_seed].
  rewrite Z.sub_0_r, Z.div_small by lia. split; [small|]. split; [lia|width; lia].
Qed.

Lemma toy_back n slot hash : toy_ok n -> goes_back n slot hash = true -> toy_step n (back n slot hash).
Proof.
  intros Hn Hg. apply andb_true_iff in Hg as [[[H1%Z.leb_le H2%Z.leb_le]%andb_true_iff Hs]%andb_true_iff Ha%bool_decide_eq_true].
  unfold back, back_answer in *. destruct (apply_chain_event _ _ _ _ _ _ _ _) as [[[r f] d] w] eqn:E.
  eapply step_event with (block := None) (view := block_view);
    [exact preview_uniform|exact block_view_faithful|by intros| |exact E|by destruct r as [|[]]].
  intros to depth [= <- _]. cbn [pt_slot]. split; [done|]. split; [by apply toy_on_calendar|].
  apply snapshots_below; [apply (sp_ordered _ _ _ _ _ _ _ _ _ _ Hn)|done].
Qed.

Definition stands_at (n : ToyNode) (slot : Z) : bool :=
  match last_slot (snd (node_state n)) with Some s => s =? slot | None => false end.

Lemma toy_capture n slot : stands_at n slot = true -> toy_step n (capture n slot).
Proof.
  intros Hl. assert (Hlast : last_slot (snd (node_state n)) = Some slot).
  { unfold stands_at in Hl. destruct (last_slot _) as [s|]; [|discriminate Hl]. by apply Z.eqb_eq in Hl as ->. }
  unfold capture.
  destruct (persistent_capture _ _ _ _) as [r d] eqn:E. by eapply step_capture.
Qed.

(** * A run: a block, a snapshot, another block, back to the first, a competing block *)

Lemma toy_checks :
  goes_in node_0 block_a 20 hash_a && stands_at node_a 20 &&
  goes_in node_as block_b 30 hash_b && goes_back node_asb 20 hash_a && goes_in node_asba block_c 25 hash_c &&
  goes_in node_a block_b 30 hash_b = true.
Proof. by vm_compute. Qed.

#[local] Opaque pump_block apply_chain_event persistent_capture.

Lemma toy_steps : toy_step node_0 node_a /\ toy_step node_a node_as /\ toy_step node_as node_asb /\
  (toy_ok node_asb -> toy_step node_asb node_asba) /\ toy_step node_asba node_asbac /\ toy_step node_a node_ab.
Proof.
  pose proof toy_checks as Hc. apply andb_true_iff in Hc as [[[[[Ha Hl]%andb_true_iff Hb]%andb_true_iff Hr]%andb_true_iff Hx]%andb_true_iff Hab].
  exact (conj (toy_pump _ _ _ _ Ha) (conj (toy_capture _ _ Hl) (conj (toy_pump _ _ _ _ Hb)
    (conj (fun Hok => toy_back _ _ _ Hok Hr) (conj (toy_pump _ _ _ _ Hx) (toy_pump _ _ _ _ Hab)))))).
Qed.

Lemma toy_run : rtc toy_step node_0 node_asbac /\ rtc toy_step node_0 node_a /\ rtc toy_step node_a node_ab.
Proof.
  destruct toy_steps as (Ha & Hl & Hb & Hr & Hx & Hab).
  assert (Hasb : rtc toy_step node_0 node_asb).
  { apply rtc_l with (y := node_a); [exact Ha|]. apply rtc_l with (y := node_as); [exact Hl|]. apply rtc_once; exact Hb. }
  split; [|split; apply rtc_once; [exact Ha|exact Hab]].
  transitivity node_asb; [exact Hasb|].
  apply rtc_l with (y := node_asba); [|apply rtc_once; exact Hx].
  apply Hr. exact (run_keeps no_checkpoint preview_seed toy_pools [] [] toy_start 10 toy_anchor None
    toy_slot_of toy_base (or_introl eq_refl) node_0 node_asb Hasb toy_ok_0).
Qed.


Definition stored_a : StoredBlock := mk_StoredBlock hash_a 20 block_a.

Lemma toy_chains : bool_decide (chain node_a = [stored_a]) && bool_decide (up_to 20 (chain node_ab) = [stored_a]) &&
  forallb (fun s => s <=? 20) (snapshot_slots node_ab) = true.
Proof. by vm_compute. Qed.

Lemma rollback_rebuilds_witness :
  back_answer node_ab 20 hash_a = Tip 20 hash_a /\
  node_state (back node_ab 20 hash_a) = node_state node_a /\ chain (back node_ab 20 hash_a) = chain node_a.
Proof.
  pose proof toy_chains as Hc. apply andb_true_iff in Hc as [[Ha%bool_decide_eq_true Hu%bool_decide_eq_true]%andb_true_iff Hs].
  destruct toy_run as (_ & Hra & Hrab).
  assert (Hok : toy_ok node_a) by (exact (run_keeps no_checkpoint preview_seed toy_pools [] [] toy_start 10 toy_anchor None toy_slot_of toy_base
    (or_introl eq_refl) _ _ Hra toy_ok_0)).
  assert (Hab : toy_ok node_ab) by (exact (run_keeps no_checkpoint preview_seed toy_pools [] [] toy_start 10 toy_anchor None toy_slot_of toy_base
    (or_introl eq_refl) _ _ Hrab Hok)).
  unfold back, back_answer. destruct (apply_chain_event _ _ _ _ _ _ _ _) as [[[r f] d] w] eqn:E.
  destruct (rollback_rebuilds no_checkpoint preview_seed toy_pools [] [] toy_start 10 toy_anchor
      None toy_slot_of toy_base (or_introl eq_refl) node_a node_ab stored_a [] ForkChoiceWin 1 None preview block_view r f d w)
    as (-> & Hst & Hch & _);
    [exact Hok|exact Hrab|exact Ha|exact (eq_trans Hu (eq_sym Ha))|discriminate|exact (toy_on_calendar 20 ltac:(lia))
    |exact preview_uniform|exact block_view_faithful
    |exact (snapshots_below node_ab 20 (sp_ordered _ _ _ _ _ _ _ _ _ _ Hab) Hs)
    |intros e; exists tt, (nd_wal node_ab ++ [e]); reflexivity|exact E|].
  split; [reflexivity|]. split; [exact Hst|exact Hch].
Defined.

Lemma answered_tip n bytes slot hash : pump_answer n bytes = Tip slot hash ->
  exists t, @pump_block _ _ _ _ _ _ no_checkpoint block_view (nd_fwd n) (nd_db n) (nd_wal n) bytes preview =
      (Ok (Some t), nd_fwd (pump n bytes), nd_db (pump n bytes), nd_wal (pump n bytes)) /\
    pm_slot t = slot /\ pm_hash t = hash.
Proof.
  unfold pump, pump_answer. destruct (pump_block _ _ _ _ _ _) as [[[r f] d] w]. cbn [fst].
  destruct r as [[t|]|[]]; intros Ha; try discriminate Ha. exists t. by injection Ha.
Qed.

Lemma pumped_tip_is_durable_witness :
  goes_in node_0 block_a 20 hash_a = true /\
  exists t, pm_slot t = 20 /\ pm_hash t = hash_a /\
    mem_tip (nd_db (pump node_0 block_a)) = Some (mk_ChainTip (pm_hash t) (pm_slot t)) /\
    wal_entries (nd_wal (pump node_0 block_a)) = wal_entries (nd_wal node_0) ++
      [AdmitBlock (fs_prior_fp (nd_fwd node_0)) (pm_hash t) (pm_slot t) Valid
         (ledger_fingerprint (rs_ledger (receive (nd_fwd (pump node_0 block_a)))))].
Proof.
  pose proof toy_checks as Hc.
  apply andb_true_iff in Hc as [[[[[Ha _]%andb_true_iff _]%andb_true_iff _]%andb_true_iff _]%andb_true_iff _].
  split; [exact Ha|]. pose proof (decodes_in_order _ _ _ _ Ha) as Hord.
  destruct (answered_tip _ _ _ _ (goes_in_answer _ _ _ _ Ha)) as (t & E & Hs & Hh).
  exists t. split; [exact Hs|]. split; [exact Hh|].
  destruct (pumped_tip_is_durable no_checkpoint preview_seed toy_pools [] [] toy_start 10 toy_anchor None toy_slot_of
      toy_base node_0 block_a preview block_view (Ok (Some t)) _ _ _ toy_ok_0 preview_uniform block_view_faithful Hord E I)
    as (Ht & _ & Hw).
  split; [exact Ht|exact Hw].
Defined.

(** * A snapshot of an abandoned fork

    The node captures a snapshot on block B, rolls back below it to A, adopts C and D, and then
    rolls back to D, the tip it is on.  Nothing removed the snapshot of B's fork, so the state
    it rebuilds is A, B, D: not the state of the chain in its database. *)

Definition same_bytes (l l' : list Z) : bool := bool_decide (l = l').

Definition on_b : ToyNode := capture node_ab 30.
Definition on_d : ToyNode := pump (pump (back on_b 20 hash_a) block_c) block_d.
Definition rebuilt : ToyNode := back on_d 40 hash_d.

Lemma stale_snapshot_rebuilds_another_fork :
  pump_answer (pump (back on_b 20 hash_a) block_c) block_d = Tip 40 hash_d /\
  back_answer on_d 40 hash_d = Tip 40 hash_d /\
  map sb_slot (chain rebuilt) = map sb_slot (chain on_d) /\
  same_bytes (fst (node_state rebuilt)) (fst (node_state on_d)) = false.
Proof. by vm_compute. Qed.

(** * A refused body keeps the true block out

    The pump caches the whole block under the header's slot and hash before it validates it,
    and leaves it there when validation fails.  The block with the same header and the true
    body then differs from the cached bytes and is refused, for good. *)

Definition forged_body : list Z :=
  encode_block_envelope Conway (encode_block []
    (mk_ShelleyBlock (bk_header (toy_block 20 5 parent [0x80])) 0 [0x80] [0x81; 0] [0xa0] (Some [0x80]))).

Lemma forged_body_blocks_true_block :
  pump_answer node_0 forged_body = Refused /\
  pump_answer node_0 block_a = Tip 20 hash_a /\
  pump_answer (pump node_0 forged_body) block_a = Refused.
Proof. by vm_compute. Qed.

(** * A block need not extend the tip

    The pump and the validation it calls compare slot and block number only: a block whose
    parent is not the tip, and whose number leaves a gap, becomes the tip. *)

Definition unlinked : list Z := toy_cbor 30 9 (Prev_Block (repeat 7 32)) [0x80].

Lemma pump_takes_unlinked_block :
  pump_answer node_a unlinked = Tip 30 (toy_header_hash 30 9 (Prev_Block (repeat 7 32)) [0x80]) /\
  same_bytes hash_a (repeat 7 32) = false.
Proof. by vm_compute. Qed.

(** * The dispatcher refuses the blocks a server serves

    A server wraps every block it serves in the tag-24 envelope; the dispatcher hands the
    payload of the frame to the block decoder with the envelope still on. *)

Section Dispatcher.
Context `{HC : Crypto, HE : !Ed25519, HB : !Blake224, HR : LedgerRules, HV : LedgerView} {W : Type} `{HW : !ChainDbWrite W}.

Lemma served_size block :
  blen (compose_blockfetch_block block) <= isize_max -> is_u64 (blen block).
Proof.
  unfold compose_blockfetch_block, wrap_tag24, write_bytes_canonical. intros Hl. rewrite !blen_app in Hl.
  pose proof (blen_nonneg block).
  pose proof (blen_nonneg (write_argument (write_tag [] 24 I8) MAJOR_BYTES (blen block) (canonical_width (blen block)))).
  unfold isize_max in *. width. lia.
Qed.

Lemma served_payload_item block :
  bytes_ok block -> blen (compose_blockfetch_block block) <= isize_max ->
  one_item (compose_blockfetch_block block).
Proof.
  intros Hok Hl. pose proof (served_size _ Hl) as Hu. unfold compose_blockfetch_block in *.
  apply one_item_spelled; [|unfold isize_max in *; width; lia]. rewrite wrap_tag24_bytes by done.
  apply spells_tag; [small|]. by apply spells_bytes.
Qed.

Lemma wrapped_block_undecodable block :
  is_u64 (blen block) -> exists e, BlockValidity.decode_block (compose_blockfetch_block block) = Err e.
Proof.
  intros Hu. unfold compose_blockfetch_block. rewrite wrap_tag24_bytes by done.
  unfold BlockValidity.decode_block, decode_block_envelope. change (argument_bytes MAJOR_TAG 24) with [0xd8; 0x18].
  cbn [app]. destruct (blen _ =? 0); by eexists.
Qed.

Lemma dispatcher_refuses_served_blocks (block : list Z) (state : ReceiveState) (w : W) (sched : EraSchedule) :
  bytes_ok block -> blen (encode_block_fetch_message (BF_Block (compose_blockfetch_block block))) <= isize_max ->
  exists e, dispatch_block_fetch_inbound state
      (encode_block_fetch_message (BF_Block (compose_blockfetch_block block))) w sched =
    (Err (Failed (Dispatch_Receive (Validity e))), state, w).
Proof.
  intros Hok Hl. assert (blen (compose_blockfetch_block block) <= isize_max) as Hp.
  { etransitivity; [|exact Hl]. unfold encode_block_fetch_message. rewrite blen_app.
    pose proof (blen_nonneg (encode_u64 (encode_array_header [] 2) 4)). lia. }
  destruct (wrapped_block_undecodable block (served_size _ Hp)) as [e He]. exists e.
  unfold dispatch_block_fetch_inbound.
  rewrite block_fetch_decodes; [|by apply served_payload_item|done].
  unfold apply_event, receive_apply, block_delivered. cbn [message_to_batch_delivery_event lift_block_fetch_event].
  by rewrite He.
Qed.
End Dispatcher.
