(* ===== verification/Candidates.v ===== *)
(** The walk to the last common ancestor ([lca_walk.rs]): from a competing tip back along the
    remembered parent links to a block of the database, at most [k] headers deep.  It ends on
    every cache, cyclic ones too, and finds exactly the branches that lead back. *)

From Stdlib Require Import Permutation.
From S2P Require Import Prelude Envelope EraSchedule Leader Kes ChainDep Header HeaderFacts ForkChoice BTree ChainDb.
From S2P Require Import BlockCodec Receive.

Record CachedHeader : Type := mk_CachedHeader {
  ch_header : HeaderInput;
  ch_prev_hash : PrevHash;
  ch_block_hash : Hash32;
}.

Inductive LcaError : Type :=
| NoDurableAncestorWithinK
| Lca_BranchGap
| Lca_ExceededK
| Lca_CacheSelfBindingViolation.

Record LcaResult : Type := mk_LcaResult {
  lca_anchor_slot : Z;
  lca_anchor_hash : Hash32;
  lca_headers : list HeaderInput;
}.

(** The headers remembered, under the hash of their block. *)
Definition HeaderCache : Type := BTreeMap Hash32 CachedHeader.

(** [cache.get(&h).or_else(|| retention.get(&h))] *)
Definition remembered (cache retention : HeaderCache) (h : Hash32) : option CachedHeader :=
  match bt_get cache h with Some e => Some e | None => bt_get retention h end.

Section Walk.
Context {D : Type} `{HD : ChainDb D} (cache retention : HeaderCache) (chaindb : D) (k : Z).

(** The [loop]; [None] when it is still going after that many turns. *)
Fixpoint walk_loop (fuel : nat) (headers : list HeaderInput) (cur_hash : Hash32) (depth : Z) :
    option (result LcaResult LcaError) :=
  match fuel with
  | O => None
  | S fuel =>
      match remembered cache retention cur_hash with
      | None => Some (Err Lca_BranchGap)
      | Some entry =>
          if negb (bool_decide (ch_block_hash entry = cur_hash)) then Some (Err Lca_CacheSelfBindingViolation)
          else if k <=? depth then Some (Err Lca_ExceededK)
          else
            let headers := headers ++ [ch_header entry] in
            match ch_prev_hash entry with
            | Prev_Genesis => Some (Err NoDurableAncestorWithinK)
            | Prev_Block prev =>
                match get_block_by_hash chaindb prev with
                | Ok (Some stored) => Some (Ok (mk_LcaResult (sb_slot stored) prev (reverse headers)))
                | Ok None => walk_loop fuel headers prev (depth + 1)
                | Err _ => Some (Err Lca_BranchGap)
                end
            end
      end
  end.

(** The depth grows with every turn that goes on and stops at [k]. *)
Definition walk_to_durable_lca (start_hash : Hash32) : option (result LcaResult LcaError) :=
  walk_loop (S (Z.to_nat k)) [] start_hash 0.

(** * What the walk looks for *)

(** [branch h hs anchor]: the headers [hs], oldest first, lead from the stored block [anchor],
    the only one of the database on the way, up to the block [h]. *)
Inductive branch : Hash32 -> list HeaderInput -> StoredBlock -> Hash32 -> Prop :=
| branch_first h e anchor stored :
    remembered cache retention h = Some e -> ch_block_hash e = h -> ch_prev_hash e = Prev_Block anchor ->
    get_block_by_hash chaindb anchor = Ok (Some stored) -> branch h [ch_header e] stored anchor
| branch_next h e prev hs stored anchor :
    remembered cache retention h = Some e -> ch_block_hash e = h -> ch_prev_hash e = Prev_Block prev ->
    get_block_by_hash chaindb prev = Ok None -> branch prev hs stored anchor ->
    branch h (hs ++ [ch_header e]) stored anchor.

Lemma branch_nonempty h hs stored anchor : branch h hs stored anchor -> 1 <= blen hs.
Proof. destruct 1; rewrite ?blen_app; [done|]. pose proof (blen_nonneg hs). change (blen [ch_header e]) with 1. lia. Qed.

(** The turns left are more than the headers left. *)
Lemma walk_ends fuel : forall headers cur depth, 0 <= depth -> (Z.to_nat (k - depth) < fuel)%nat ->
  exists r, walk_loop fuel headers cur depth = Some r.
Proof.
  induction fuel as [|fuel IH]; intros headers cur depth Hd Hf; [lia|]. cbn [walk_loop].
  destruct (remembered _ _ _) as [e|]; [|by eexists]. destruct (negb _); [by eexists|].
  destruct (Z.leb_spec k depth) as [|Hlt]; [by eexists|]. destruct (ch_prev_hash e) as [|prev]; [by eexists|].
  destruct (get_block_by_hash _ _) as [[stored|]|]; [by eexists| |by eexists]. apply IH; lia.
Qed.

Lemma walk_sound fuel : forall headers cur depth r, 0 <= depth ->
  walk_loop fuel headers cur depth = Some (Ok r) ->
  exists hs stored anchor, branch cur hs stored anchor /\ blen hs <= k - depth /\
    r = mk_LcaResult (sb_slot stored) anchor (hs ++ reverse headers).
Proof.
  induction fuel as [|fuel IH]; intros headers cur depth r Hd; [done|]. cbn [walk_loop].
  destruct (remembered _ _ _) as [e|] eqn:Ee; [|done].
  destruct (bool_decide_reflect (ch_block_hash e = cur)) as [Hb|]; cbn [negb]; [|done].
  destruct (Z.leb_spec k depth) as [|Hlt]; [done|]. destruct (ch_prev_hash e) as [|prev] eqn:Ep; [done|].
  destruct (get_block_by_hash _ _) as [[stored|]|] eqn:Es; [| |done].
  - intros [= <-]. exists [ch_header e], stored, prev. split; [by econstructor|]. split; [change (blen [ch_header e]) with 1; lia|].
    by rewrite reverse_app.
  - intros Hw. apply IH in Hw as (hs & stored & anchor & Hbr & Hl & ->); [|lia].
    exists (hs ++ [ch_header e]), stored, anchor. split; [by econstructor|].
    rewrite blen_app, reverse_app, <- app_assoc. change (blen [ch_header e]) with 1. split; [lia|done].
Qed.

Lemma walk_complete cur hs stored anchor : branch cur hs stored anchor ->
  forall fuel headers depth, 0 <= depth -> blen hs <= k - depth -> (Z.to_nat (k - depth) < fuel)%nat ->
  walk_loop fuel headers cur depth = Some (Ok (mk_LcaResult (sb_slot stored) anchor (hs ++ reverse headers))).
Proof.
  induction 1 as [h e anchor stored He Hb Hp Hs|h e prev hs stored anchor He Hb Hp Hs Hbr IH];
    intros [|fuel] headers depth Hd Hl Hf; try lia; cbn [walk_loop];
    rewrite He, bool_decide_eq_true_2 by done; cbn [negb].
  - change (blen [ch_header e]) with 1 in Hl. rewrite (proj2 (Z.leb_gt k depth)), Hp, Hs by lia. by rewrite reverse_app.
  - rewrite blen_app in Hl. change (blen [ch_header e]) with 1 in Hl. pose proof (branch_nonempty _ _ _ _ Hbr).
    rewrite (proj2 (Z.leb_gt k depth)), Hp, Hs by lia. rewrite IH by lia.
    by rewrite reverse_app, <- app_assoc.
Qed.

(** C22. The walk ends whatever the headers remembered say, within [k] of them; and it answers with
    a branch exactly when one of at most [k] headers leads back to the database, which then is
    the only one: its headers, oldest first, and the stored block they grow from. *)
Theorem lca_walk_exact (start_hash : Hash32) : 0 <= k ->
  (exists r, walk_to_durable_lca start_hash = Some r) /\
  forall r, walk_to_durable_lca start_hash = Some (Ok r) <->
    exists hs stored anchor, branch start_hash hs stored anchor /\ blen hs <= k /\
      r = mk_LcaResult (sb_slot stored) anchor hs.
Proof.
  intros Hk. split; [apply walk_ends; lia|]. intros r. split.
  - intros Hw. apply walk_sound in Hw as (hs & stored & anchor & Hb & Hl & ->); [|lia].
    exists hs, stored, anchor. rewrite app_nil_r. split; [done|]. split; [lia|done].
  - intros (hs & stored & anchor & Hb & Hl & ->).
    unfold walk_to_durable_lca. rewrite (walk_complete _ _ _ _ Hb) by lia. by rewrite app_nil_r.
Qed.
End Walk.

(** * A branch of two headers, and a cache that is a circle *)

Definition toy_header (slot block_no : Z) : HeaderInput :=
  mk_HeaderInput slot block_no [] [] [] 0 0 [] (Praos [] []) None.

Definition toy_stored : Inner := snd (put_block (mk_Inner [] [] [] [] [] []) (mk_StoredBlock [0x33] 669 [1])).

Definition toy_cache : HeaderCache :=
  [([0x34], mk_CachedHeader (toy_header 670 34) (Prev_Block [0x33]) [0x34]);
   ([0x35], mk_CachedHeader (toy_header 672 35) (Prev_Block [0x34]) [0x35])].

Definition circle : HeaderCache :=
  [([0x34], mk_CachedHeader (toy_header 670 34) (Prev_Block [0x35]) [0x34]);
   ([0x35], mk_CachedHeader (toy_header 672 35) (Prev_Block [0x34]) [0x35])].

Example walk_finds_lca :
  walk_to_durable_lca toy_cache [] toy_stored 2 [0x35] =
    Some (Ok (mk_LcaResult 669 [0x33] [toy_header 670 34; toy_header 672 35])).
Proof. by vm_compute. Qed.

Example walk_leaves_circle : walk_to_durable_lca circle [] toy_stored 5 [0x35] = Some (Err Lca_ExceededK).
Proof. by vm_compute. Qed.

Lemma lca_walk_exact_witness :
  (exists r, walk_to_durable_lca circle [] toy_stored 5 [0x35] = Some r) /\
  walk_to_durable_lca toy_cache [] toy_stored 2 [0x35] =
    Some (Ok (mk_LcaResult 669 [0x33] [toy_header 670 34; toy_header 672 35])).
Proof.
  split; [apply (lca_walk_exact circle [] toy_stored 5); lia|].
  apply (lca_walk_exact toy_cache [] toy_stored 2); [lia|].
  exists [toy_header 670 34; toy_header 672 35], (mk_StoredBlock [0x33] 669 [1]), [0x33].
  split; [|split; [by vm_compute|reflexivity]].
  apply (branch_next toy_cache [] toy_stored [0x35]
           (mk_CachedHeader (toy_header 672 35) (Prev_Block [0x34]) [0x35]) [0x34] [toy_header 670 34]); [done..|].
  by apply (branch_first toy_cache [] toy_stored [0x34]
           (mk_CachedHeader (toy_header 670 34) (Prev_Block [0x33]) [0x34])).
Defined.

(** A peer's address, as the bytes its [String] is ordered by. *)
Definition Peer : Type := list Z.

(** * What a received block is ([node_sync.rs]) *)

Inductive VenueRole : Type := Venue_Unknown | SingleProducer | Participant.

Record CandidateSummary : Type := mk_CandidateSummary {
  cs_slot : Z;
  cs_block_no : Z;
  cs_hash : Hash32;
  cs_prev_hash : PrevHash;
}.

Inductive ReceiveClass : Type := Class_AlreadyHave | Class_LinearExtend | Competing.

Inductive ReceiveDisposition : Type := AlreadyHave | LinearExtend | RefuseSingleProducer | NeedsForkChoice.

(** [durable_tip.block_no + 1] wraps at 64 bits. *)
Definition classify_receive (durable_tip : TipPoint) (candidate : CandidateSummary) (in_spine : bool) : ReceiveClass :=
  if in_spine then Class_AlreadyHave
  else
    let extends := match cs_prev_hash candidate with
                   | Prev_Block h => bool_decide (h = tp_hash durable_tip)
                   | Prev_Genesis => false
                   end && (cs_block_no candidate =? (tp_block_no durable_tip + 1) mod (u64_max + 1)) in
    if extends then Class_LinearExtend else Competing.

Definition resolve_disposition (class : ReceiveClass) (venue : VenueRole) : ReceiveDisposition :=
  match class with
  | Class_AlreadyHave => AlreadyHave
  | Class_LinearExtend => LinearExtend
  | Competing =>
      match venue with
      | Participant => NeedsForkChoice
      | SingleProducer => RefuseSingleProducer
      | Venue_Unknown => RefuseSingleProducer
      end
  end.

(** * The selector's view of a tip ([selector_state.rs]) *)

Inductive SelectorProjectError : Type := UnsupportedTpraosTip.

Section Project.
Context `{Crypto, Ed25519, !Blake224}.

Definition project_tiebreaker (header : HeaderInput) : result TiebreakerView SelectorProjectError :=
  match hi_vrf header with
  | Praos _ output =>
      Ok (mk_TiebreakerView (hi_slot header) (issuer_pool header) (op_cert_counter header)
            (take 8 (praos_leader_value output)))
  | Tpraos _ _ => Err UnsupportedTpraosTip
  end.

Record ForkAnchor : Type := mk_ForkAnchor { fa_slot : Z; fa_hash : Hash32; fa_block_no : Z }.

Record PendingForkSwitch : Type := mk_PendingForkSwitch {
  fork_anchor : ForkAnchor;
  winning_peer : Peer;
  winning_candidate : CandidateFragment;
  winner_tip : Point;
}.

(** * A peer's candidate ([candidate_aggregator.rs]) *)

Inductive CandidateBuildError : Type :=
| Cand_HeaderInvalid (index : nat) (error : HeaderValidationError)
| EmptyHeaders.

(** The validation loop: the headers in order, on a chain-dependent state of its own. *)
Fixpoint validate_headers `{LedgerView} (era_schedule : EraSchedule) (index : nat) (chain_dep : PraosChainDepState)
    (headers : list HeaderInput) : result (list ValidatedHeaderSummary) CandidateBuildError :=
  match headers with
  | [] => Ok []
  | header :: headers =>
      let? applied := map_err (Cand_HeaderInvalid index)
                        (validate_and_apply_header chain_dep header era_schedule Enforce) in
      let? summaries := validate_headers era_schedule (S index) (ha_new_state applied) headers in
      Ok (ha_summary applied :: summaries)
  end.

Definition build_candidate_fragment `{LedgerView} (anchor : Point) (anchor_block_no current_tip_block_no : Z)
    (anchor_chain_dep : PraosChainDepState) (headers : list HeaderInput) (era_schedule : EraSchedule) :
    result CandidateFragment CandidateBuildError :=
  match headers with
  | [] => Err EmptyHeaders
  | _ =>
      let? summaries := validate_headers era_schedule 0 anchor_chain_dep headers in
      match last summaries with
      | Some tip =>
          let select_view := mk_TiebreakerView (vs_slot tip) (vs_issuer_pool tip) (vs_op_cert_counter tip)
                               (take 8 (vs_vrf_leader_output tip)) in
          Ok (mk_CandidateFragment anchor anchor_block_no summaries select_view
                (saturating_sub current_tip_block_no anchor_block_no))
      | None => Err EmptyHeaders
      end
  end.

Definition then_with (c d : comparison) : comparison := match c with Eq => d | _ => c end.

Definition tiebreaker_sort_key (a b : TiebreakerView) : comparison :=
  then_with (Z.compare (tb_slot a) (tb_slot b))
    (then_with (bytes_cmp (issuer_hash a) (issuer_hash b))
       (then_with (Z.compare (tb_op_cert_counter a) (tb_op_cert_counter b))
          (bytes_cmp (leader_vrf_output_first_8 a) (leader_vrf_output_first_8 b)))).

(** [sort_by] is stable: an element goes before the first greater one. *)
Fixpoint insert_sorted_by {A} (order : A -> A -> comparison) (x : A) (l : list A) : list A :=
  match l with
  | [] => [x]
  | y :: l' => match order x y with Gt => y :: insert_sorted_by order x l' | _ => x :: l end
  end.
Definition sort_by {A} (order : A -> A -> comparison) (l : list A) : list A :=
  fold_right (insert_sorted_by order) [] l.

Definition candidate_order (a b : CandidateFragment) : comparison :=
  let a_tip := saturating_add (anchor_block_no a) (blen (headers a)) in
  let b_tip := saturating_add (anchor_block_no b) (blen (headers b)) in
  then_with (Z.compare a_tip b_tip) (tiebreaker_sort_key (select_view a) (select_view b)).

Definition assemble_candidate_set (fragments : list CandidateFragment) : list CandidateFragment :=
  sort_by candidate_order fragments.

(** * The decision ([node_lifecycle.rs], [decide_fork_switch]) *)

Inductive ForkSwitchDecision : Type := KeepCurrent | Switch (switch : PendingForkSwitch).

Definition CompetingSet : Type := BTreeMap Peer (CandidateFragment * Point).

(** Is this the candidate whose tip the selector named? *)
Definition is_winner (new_tip : Point) (e : Peer * (CandidateFragment * Point)) : bool :=
  match last (headers (fst (snd e))) with
  | Some h => (vs_slot h =? pt_slot new_tip) && bool_decide (vs_body_hash h = pt_hash new_tip)
  | None => false
  end.

Definition decide_fork_switch (selector_state : ChainSelectorState) (competing : CompetingSet) :
    result ForkSwitchDecision ForkChoiceError :=
  let candidates := assemble_candidate_set (map (fun e => fst (snd e)) competing) in
  let? (_, event) := select_best_chain selector_state candidates in
  match event with
  | ChainSelected new_tip _ =>
      match find (is_winner new_tip) competing with
      | Some (peer, (frag, cand_tip)) =>
          Ok (Switch (mk_PendingForkSwitch
                (mk_ForkAnchor (pt_slot (cf_anchor frag)) (pt_hash (cf_anchor frag)) (anchor_block_no frag))
                peer frag cand_tip))
      | None => Ok KeepCurrent
      end
  | _ => Ok KeepCurrent
  end.
End Project.

(** * The candidate set is the candidates *)

Lemma insert_sorted_perm {T} (order : T -> T -> comparison) x l : insert_sorted_by order x l ≡ₚ x :: l.
Proof.
  induction l as [|y l IH]; [done|]. cbn [insert_sorted_by]. destruct (order x y); [done|done|].
  rewrite IH. apply Permutation_swap.
Qed.

Lemma sort_by_perm {T} (order : T -> T -> comparison) l : sort_by order l ≡ₚ l.
Proof. induction l as [|x l IH]; [done|]. cbn. by rewrite insert_sorted_perm, IH. Qed.

Lemma in_candidate_set c l : c ∈ assemble_candidate_set l <-> c ∈ l.
Proof. unfold assemble_candidate_set. by rewrite sort_by_perm. Qed.

(** * The decision *)

Section Decision.
Context (s : ChainSelectorState) (competing : CompetingSet).

Definition candidate (e : Peer * (CandidateFragment * Point)) : CandidateFragment := fst (snd e).

Definition switch_to (e : Peer * (CandidateFragment * Point)) : PendingForkSwitch :=
  let c := candidate e in
  mk_PendingForkSwitch (mk_ForkAnchor (pt_slot (cf_anchor c)) (pt_hash (cf_anchor c)) (anchor_block_no c))
    (fst e) c (snd (snd e)).

Lemma is_winner_tip e tip : headers (candidate e) <> [] ->
  is_winner tip e = true <-> candidate_tip_point (candidate e) = tip.
Proof.
  intros Hne. unfold is_winner, candidate_tip_point, candidate in *.
  destruct (last (headers (fst (snd e)))) as [h|] eqn:El; [|by apply last_None in El].
  rewrite andb_true_iff, Z.eqb_eq, bool_decide_eq_true. destruct tip. cbn. split; [by intros [-> ->]|by intros [= -> ->]].
Qed.

Lemma in_competing c : c ∈ map candidate competing <-> exists e, e ∈ competing /\ candidate e = c.
Proof.
  rewrite list_elem_of_fmap. split; intros (e & H1 & H2); by exists e.
Qed.

(** C23. The decision to switch names a peer's candidate that is eligible, strictly preferred to the
    current tip and to which no other eligible candidate is preferred; the decision to keep the
    current chain is taken only when no eligible candidate is preferred to it.  This asks that
    no two peers' candidates end in the same slot on the same body hash: the tip the selector
    names is found again by these two. *)
Theorem decision_is_selection
    (Hne : forall e, e ∈ competing -> headers (candidate e) <> [])
    (Hdistinct : forall e e', e ∈ competing -> e' ∈ competing ->
       candidate_tip_point (candidate e) = candidate_tip_point (candidate e') -> e = e') :
  match decide_fork_switch s competing with
  | Ok (Switch switch) => exists e, e ∈ competing /\ switch = switch_to e /\ eligible s (candidate e) = true /\
      view_cmp (fragment_view (candidate e)) (state_view s) = Lt /\
      forall e', e' ∈ competing -> eligible s (candidate e') = true ->
        view_cmp (fragment_view (candidate e')) (fragment_view (candidate e)) <> Lt
  | Ok KeepCurrent => forall e, e ∈ competing -> eligible s (candidate e) = true ->
      view_cmp (fragment_view (candidate e)) (state_view s) <> Lt
  | Err NoCandidates => competing = []
  end.
Proof.
  unfold decide_fork_switch. change (map (fun e => fst (snd e)) competing) with (map candidate competing).
  destruct (decide (competing = [])) as [->|Hc]; [done|].
  destruct (select_spec s (assemble_candidate_set (map candidate competing))) as (s' & ev & -> & Hk).
  { intros E. destruct competing as [|e l]; [done|]. assert (candidate e ∈ assemble_candidate_set (map candidate (e :: l))) as H.
    - rewrite in_candidate_set. apply list_elem_of_here.
    - rewrite E in H. by apply not_elem_of_nil in H. }
  cbn [rbind]. destruct Hk as [(_ & [reason ->] & Hkeep)|(c & Hin & He & _ & -> & Hlt & Hbest)].
  { intros e Hin. apply Hkeep. apply in_candidate_set, in_competing. by exists e. }
  apply in_candidate_set, in_competing in Hin as (e & Hin & <-).
  assert (Hfind : find (is_winner (candidate_tip_point (candidate e))) competing = Some e).
  { destruct (find _ competing) as [e'|] eqn:Ef.
    - apply find_some in Ef as [Hin'%list_elem_of_In Hw]. apply is_winner_tip in Hw; [|by apply Hne].
      f_equal. by apply Hdistinct.
    - apply find_none with (x := e) in Ef; [|by apply list_elem_of_In]. exfalso. revert Ef.
      rewrite (proj2 (is_winner_tip e _ (Hne _ Hin)) eq_refl). discriminate. }
  rewrite Hfind. destruct e as [peer [frag tip]]. exists (peer, (frag, tip)). split_and!; [done..|].
  intros e' Hin'. apply Hbest, in_candidate_set, in_competing. by exists e'.
Qed.
End Decision.

(** Two producers of the same slot, both with the empty body: the selector prefers the second,
    the decision names the first. *)
Definition twin (issuer : Z) : CandidateFragment :=
  mk_CandidateFragment (mk_Point 10 [9]) 5 [mk_ValidatedHeaderSummary 20 6 [7] [issuer] 0 [issuer]]
    (mk_TiebreakerView 20 [issuer] 0 [issuer]) 1.
Definition twins : CompetingSet := [([1], (twin 2, mk_Point 20 [22])); ([2], (twin 1, mk_Point 20 [21]))].
Definition on_fork : ChainSelectorState :=
  mk_ChainSelectorState (mk_Point 30 [30]) 6 (mk_TiebreakerView 30 [3] 0 [3]) (mk_Point 0 []) 0 10.

Lemma decision_names_another_branch :
  view_cmp (fragment_view (twin 1)) (fragment_view (twin 2)) = Lt /\
  decide_fork_switch on_fork twins = Ok (Switch (switch_to ([1], (twin 2, mk_Point 20 [22])))).
Proof. by vm_compute. Qed.

Definition two_rivals : CompetingSet :=
  [([1], (twin 2, mk_Point 20 [22]));
   ([2], (mk_CandidateFragment (mk_Point 10 [9]) 5
            [mk_ValidatedHeaderSummary 20 6 [7] [1] 0 [1]; mk_ValidatedHeaderSummary 25 7 [8] [1] 0 [1]]
            (mk_TiebreakerView 25 [1] 0 [1]) 1, mk_Point 25 [25]))].

Lemma in_two {T} (x a b : T) : x ∈ [a; b] -> x = a \/ x = b.
Proof. rewrite !elem_of_cons. by intros [->|[->|H%not_elem_of_nil]]; [left|right|]. Qed.

Lemma decision_is_selection_witness :
  (exists switch, decide_fork_switch on_fork two_rivals = Ok (Switch switch) /\ winning_peer switch = [2]) /\
  exists e, e ∈ two_rivals /\ eligible on_fork (candidate e) = true /\
    forall e', e' ∈ two_rivals -> eligible on_fork (candidate e') = true ->
      view_cmp (fragment_view (candidate e')) (fragment_view (candidate e)) <> Lt.
Proof.
  assert (Hne : forall e, e ∈ two_rivals -> headers (candidate e) <> []).
  { intros e [->| ->]%in_two; discriminate. }
  assert (Hd : forall e e', e ∈ two_rivals -> e' ∈ two_rivals ->
    candidate_tip_point (candidate e) = candidate_tip_point (candidate e') -> e = e').
  { intros e e' [->| ->]%in_two [->| ->]%in_two; by vm_compute. }
  pose proof (decision_is_selection on_fork two_rivals Hne Hd) as H. vm_compute (decide_fork_switch _ _) in H.
  split; [by eexists; split; [by vm_compute|]|]. destruct H as (e & He & _ & Hel & _ & Hbest). by exists e.
Defined.

(** * The view of a candidate *)

Section View.
Context `{HC : Crypto, HE : Ed25519, HB : !Blake224, HV : LedgerView}.

Lemma validated_headers sched hs : forall i cd sums, validate_headers sched i cd hs = Ok sums ->
  (exists cd', follow sched Enforce cd hs = Ok cd') /\ length sums = length hs /\
  forall h, last hs = Some h -> exists a cd1, last sums = Some (ha_summary a) /\
    validate_and_apply_header cd1 h sched Enforce = Ok a.
Proof.
  induction hs as [|h hs IH]; intros i cd sums; cbn [validate_headers follow].
  { intros [= <-]. split; [by eexists|]. by split. }
  intros H. apply rbind_ok_inv in H as (a & Ha & H). apply map_err_ok in Ha. apply rbind_ok_inv in H as (ss & Hs & [= <-]).
  apply IH in Hs as (Hf & Hl & Hlast). rewrite Ha. cbn [rbind length]. split; [done|]. split; [by rewrite Hl|].
  intros h' Hh'. destruct hs as [|h2 hs].
  - injection Hh' as <-. destruct ss; [|done]. by exists a, cd.
  - destruct (Hlast h' Hh') as (a' & cd1 & Hs & Hv). exists a', cd1. split; [|done]. by destruct ss.
Qed.

(** A candidate that was built is made of headers the validation accepts one after the other, and
    its view is what [project_tiebreaker] makes of its last header, which is how the node sees
    its own tip. *)
Lemma candidate_view_is_projection anchor anchor_no tip_no cd hs sched frag h proof output
    (Hbuild : build_candidate_fragment anchor anchor_no tip_no cd hs sched = Ok frag)
    (Hlast : last hs = Some h) (Hpraos : hi_vrf h = Praos proof output) :
  (exists cd', follow sched Enforce cd hs = Ok cd') /\ project_tiebreaker h = Ok (select_view frag) /\
  candidate_tip_block_no frag = saturating_add anchor_no (blen hs).
Proof.
  unfold build_candidate_fragment in Hbuild. destruct hs as [|h0 hs]; [done|].
  apply rbind_ok_inv in Hbuild as (sums & Hsums & Hbuild).
  apply validated_headers in Hsums as (Hf & Hl & Hlasts). destruct (Hlasts h Hlast) as (a & cd1 & Es & Hv).
  rewrite Es in Hbuild. injection Hbuild as <-. split; [done|]. split.
  - unfold project_tiebreaker. rewrite Hpraos. apply validate_iff in Hv.
    destruct Hv as (loc & lv & no & m & _ & _ & _ & _ & _ & Hvrf & _ & _ & _ & ->). cbn [ha_summary select_view].
    unfold verify_vrfs in Hvrf. rewrite Hpraos in Hvrf. apply rbind_ok_inv in Hvrf as (rec & _ & Hvrf).
    destruct (bool_decide_reflect (rec = output)) as [Er|]; [|done].
    rewrite Er in Hvrf. by injection Hvrf as <- _.
  - unfold candidate_tip_block_no. cbn [anchor_block_no headers]. unfold blen. by rewrite Hl.
Qed.
End View.
