(* ===== verification/ForkSwitch.v ===== *)
(** Adopting another branch: the bodies of the winning peer and the proof of the complete branch
    ([fork_switch.rs]), the switch itself and the recovery of a missing range
    ([node_lifecycle.rs], [prove_fork_switch], [apply_fork_switch], [recover_missing_range]),
    and the epoch accumulator that follows a rollback in lockstep.

    A text a caller formats into an error is kept as the value it is formatted from; the
    evidence log the code writes on the way is left out. *)

From S2P Require Import Prelude Envelope EraSchedule Leader Kes ChainDep Header BTree ChainDb ChainSync ForkChoice Wal.
From S2P Require Import BlockCodec BlockValidity Receive ReceiveStores ForwardSync Candidates.

(** * Bodies and proofs ([fork_switch.rs]) *)

Inductive FetchError : Type := Fetch_Unavailable.

(** [fetch_body(peer, slot)] *)
Definition BranchBodySource : Type := Peer -> Z -> result (list Z) FetchError.

Definition null_branch_body_source : BranchBodySource := fun _ _ => Err Fetch_Unavailable.

Definition PrefetchedBranchBodies : Type := BTreeMap (Peer * Z) (list Z).
Definition prefetched_insert (b : PrefetchedBranchBodies) (peer : Peer) (slot : Z) (bytes : list Z) :
    PrefetchedBranchBodies := bt_insert b (peer, slot) bytes.
Definition ordered_for_peer (b : PrefetchedBranchBodies) (peer : Peer) : list (list Z) :=
  map snd (List.filter (fun e => bool_decide (fst (fst e) = peer)) b).
Definition prefetched_fetch_body (b : PrefetchedBranchBodies) : BranchBodySource :=
  fun peer slot => ok_or (bt_get b (peer, slot)) Fetch_Unavailable.

Inductive BranchProofError : Type :=
| EmptyBranch
| BodyUnavailable (slot : Z)
| BodyHeaderMismatch (index : nat)
| BrokenParentLink (index : nat)
| BodyInvalid (index : nat)
| AnchorUnreachable.

Record ProvenBlock : Type := mk_ProvenBlock { pb_bytes : list Z; pb_tip : Point }.

Inductive ForkSwitchOutcome : Type :=
| Adopted (new_tip : Point) (new_tip_prev : Hash32)
| ProofFailed (error : BranchProofError).

Inductive MissingBridgeReason : Type :=
| MB_BranchGap
| MB_NoDurableAncestorWithinK
| MB_ExceededK
| MB_CacheSelfBindingViolation
| MB_LcaUnreachable.

Definition map_lca_error (e : LcaError) : MissingBridgeReason :=
  match e with
  | Lca_BranchGap => MB_BranchGap
  | NoDurableAncestorWithinK => MB_NoDurableAncestorWithinK
  | Lca_ExceededK => MB_ExceededK
  | Lca_CacheSelfBindingViolation => MB_CacheSelfBindingViolation
  end.

(** [fork_switch_id] is an evidence label and left out of both records. *)
Record PostSwitchFollow : Type := mk_PostSwitchFollow { psf_winning_peer : Peer; psf_adopted_tip : Point }.
Record RangeRefetch : Type := mk_RangeRefetch {
  rr_peer : Peer;
  rr_from_tip : Point;
  rr_to_descendant : Point;
  rr_reason : MissingBridgeReason;
}.

Inductive RangeRefetchOutcome : Type :=
| Refetch_Admitted
| Refetch_Unavailable
| Refetch_ShortRange
| Refetch_BodyHeaderMismatch
| Refetch_ParentLinkMismatch
| Refetch_ValidationFailed.

Definition MAX_RANGE_REFETCH_ATTEMPTS : Z := 3.
Definition range_refetch_should_retry (attempts_made : Z) : bool := attempts_made <? MAX_RANGE_REFETCH_ATTEMPTS.

Definition fork_switch_fence_resolved (pending_fork_switch : option PendingForkSwitch)
    (pending_missing_bridge : option MissingBridgeReason) (caught_up : bool) : bool :=
  match pending_fork_switch with None => true | Some _ => false end
  && match pending_missing_bridge with None => true | Some _ => false end && caught_up.

Section Prove.
Context `{HC : Crypto, HE : Ed25519, HB : !Blake224, HR : LedgerRules, HS : !SnapshotCodec}.

Definition leader_output_matches (vrf : HeaderVrf) (expected : VrfOutput) : bool :=
  match vrf with
  | Praos _ output => bool_decide (praos_leader_value output = expected)
  | Tpraos _ _ => false
  end.

Definition header_matches_summary (decoded : DecodedBlock) (s : ValidatedHeaderSummary) : bool :=
  let h := dk_header_input decoded in
  (hi_slot h =? vs_slot s) && (hi_block_no h =? vs_block_no s) && bool_decide (body_hash h = vs_body_hash s)
  && bool_decide (issuer_pool h = vs_issuer_pool s) && (op_cert_counter h =? vs_op_cert_counter s)
  && bool_decide (dk_computed_body_hash decoded = vs_body_hash s)
  && leader_output_matches (hi_vrf h) (vs_vrf_leader_output s).

(** The loop of proofs 1 and 2: each body is the selected header's and continues the branch. *)
Fixpoint bind_branch (index : nat) (expected_prev : Hash32) (headers : list ValidatedHeaderSummary)
    (bodies : list (list Z)) : result unit BranchProofError :=
  match headers, bodies with
  | header :: headers, body :: bodies =>
      match decode_block body with
      | Err _ => Err (BodyHeaderMismatch index)
      | Ok decoded =>
          if negb (header_matches_summary decoded header) then Err (BodyHeaderMismatch index) else
          if negb (match dk_prev_hash decoded with Prev_Block h => bool_decide (h = expected_prev) | Prev_Genesis => false end)
          then Err (BrokenParentLink index)
          else bind_branch (S index) (dk_block_hash decoded) headers bodies
      end
  | _, _ => Ok tt
  end.

(** The loop of proof 3: the ledger rules along the branch. *)
Fixpoint validate_branch `{LedgerView} (era_schedule : EraSchedule) (index : nat) (ledger : LedgerState)
    (chain_dep : PraosChainDepState) (bodies : list (list Z)) : result (list ProvenBlock) BranchProofError :=
  match bodies with
  | [] => Ok []
  | body :: bodies =>
      let outcome := block_validity ledger chain_dep era_schedule body in
      match bo_verdict outcome with
      | Verdict_Valid tip _ _ =>
          let? blocks := validate_branch era_schedule (S index) (bo_ledger outcome) (bo_chain_dep outcome) bodies in
          Ok (mk_ProvenBlock body (mk_Point (fst tip) (snd tip)) :: blocks)
      | Verdict_Invalid _ _ => Err (BodyInvalid index)
      end
  end.

Definition prevalidate_branch `{LedgerView} (fork_anchor : ForkAnchor) (winning_candidate : CandidateFragment)
    (bodies : list (list Z)) (anchor_ledger : LedgerState) (anchor_chain_dep : PraosChainDepState)
    (era_schedule : EraSchedule) : result (list ProvenBlock) BranchProofError :=
  let hs := headers winning_candidate in
  match hs with
  | [] => Err EmptyBranch
  | first :: _ =>
      if negb (length bodies =? length hs)%nat
      then Err (BodyUnavailable (vs_slot (nth (Nat.min (length bodies) (length hs - 1)) hs first)))
      else
        let? _ := bind_branch 0 (fa_hash fork_anchor) hs bodies in
        validate_branch era_schedule 0 anchor_ledger anchor_chain_dep bodies
  end.

(** The bodies of the winning branch, from the winning peer. *)
Fixpoint fetch_bodies (body_source : BranchBodySource) (peer : Peer) (headers : list ValidatedHeaderSummary) :
    result (list (list Z)) BranchProofError :=
  match headers with
  | [] => Ok []
  | header :: headers =>
      let? body := map_err (fun _ => BodyUnavailable (vs_slot header)) (body_source peer (vs_slot header)) in
      let? bodies := fetch_bodies body_source peer headers in
      Ok (body :: bodies)
  end.

Definition prove_fork_switch `{LedgerView} (state : ForwardSyncState) (chaindb : Inner) (switch : PendingForkSwitch)
    (body_source : BranchBodySource) (era_schedule : EraSchedule) : result (list ProvenBlock) BranchProofError :=
  let? bodies := fetch_bodies body_source (winning_peer switch) (headers (winning_candidate switch)) in
  let? (anchor_ledger, anchor_chain_dep) :=
    map_err (fun _ => AnchorUnreachable)
      (materialize_rolled_back_state
         (mk_TargetPoint (fa_slot (fork_anchor switch)) (fa_hash (fork_anchor switch)))
         (chaindb_context chaindb (recovered_eta0 state)) era_schedule) in
  prevalidate_branch (fork_anchor switch) (winning_candidate switch) bodies anchor_ledger anchor_chain_dep
    era_schedule.
End Prove.

(** * Errors of the node's loops ([node_sync.rs], [node_lifecycle.rs]) *)

Inductive RecoveryAdmissionFault : Type :=
| Fault_LineageMismatch (slot : Z)
| Fault_ExceededRollback (depth k : Z)
| Fault_BeforeBootstrapAnchor (target_block_no anchor_block_no : Z)
| Fault_TargetNotOnCanonicalChain (slot : Z)
| CorruptLastAdvancedPoint
| MissingCanonicalSpan (slot : Z)
| NonContiguousCanonicalSpan (slot : Z)
| FingerprintMismatch (expected recovered : Hash32).

Definition from_admission (e : RollbackAdmissionError) : RecoveryAdmissionFault :=
  match e with
  | LineageMismatch slot _ _ => Fault_LineageMismatch slot
  | Adm_ExceededRollback depth k _ _ => Fault_ExceededRollback depth k
  | BeforeBootstrapAnchor target anchor => Fault_BeforeBootstrapAnchor target anchor
  | TargetNotOnCanonicalChain slot => Fault_TargetNotOnCanonicalChain slot
  end.

(** The two errors of [NodeLifecycleError] the functions here raise. *)
Inductive NodeLifecycleError : Type := RelaySync | Life_RecoveryAdmission (fault : RecoveryAdmissionFault).

Section Lockstep.
Context `{HC : Crypto, HE : Ed25519, HB : !Blake224, HR : LedgerRules}.

(** What [NodeSyncError::Pump] was formatted from. *)
Inductive SyncFault : Type :=
| Sync_Decode (e : BlockValidityError)
| Sync_Pump (e : PumpError)
| Sync_Event (e : ApplyError)
| Sync_SwitchRollback (e : ApplyError)
| Sync_SwitchRollForward (e : ApplyError)
| Sync_Accumulator.

Inductive NodeSyncError : Type :=
| Pump (fault : SyncFault)
| UnexpectedRollback
| RollbackPointSlotMismatch (peer_slot stored_slot : Z) (hash : Hash32)
| Sync_RecoveryAdmission (fault : RecoveryAdmissionFault).

Definition sync_error (e : NodeLifecycleError) : NodeSyncError :=
  match e with Life_RecoveryAdmission f => Sync_RecoveryAdmission f | RelaySync => Pump Sync_Accumulator end.

(** * The accumulator in lockstep with a rollback *)

(** What these functions use of [EpochAccumulatorStore], a file store. *)
Class AccumulatorStore (A : Type) : Type := {
  AccumulatorError : Type;
  acc_seed_slot : A -> result (option Z) AccumulatorError;
  acc_last_advanced_point : A -> result (option RollbackPoint) AccumulatorError;
  acc_settled_rewind_point : A -> result (option RollbackPoint) AccumulatorError;
  acc_reset_to_settled : A -> result bool AccumulatorError * A;
  acc_reset_to_bootstrap : A -> result unit AccumulatorError * A;
  acc_recertify_settled_anchor : A -> result (option RollbackPoint) AccumulatorError * A;
}.

Definition resolve_canonical_point (chaindb : Inner) (slot : Z) : result (option RollbackPoint) NodeLifecycleError :=
  match mem_get_block_by_slot chaindb slot with
  | None => Ok None
  | Some sb =>
      match decode_block (sb_bytes sb) with
      | Err _ => Err (Life_RecoveryAdmission (NonContiguousCanonicalSpan slot))
      | Ok decoded => Ok (Some (mk_RollbackPoint slot (hi_block_no (dk_header_input decoded)) (sb_hash sb)))
      end
  end.

Definition canonical_hash_at (chaindb : Inner) (slot : Z) : option Hash32 :=
  match resolve_canonical_point chaindb slot with Ok (Some p) => Some (rb_hash p) | _ => None end.

Context {A : Type} `{HA : !AccumulatorStore A}.

Definition settled_rewind_admissible (store : A) (chaindb : Inner) (target : Point) (security_param : Z) : bool :=
  match acc_settled_rewind_point store with
  | Ok (Some sp) =>
      match mem_tip chaindb with
      | Some tip =>
          match resolve_canonical_point chaindb (ct_slot tip) with
          | Ok (Some tip_pt) =>
              if rb_block_no tip_pt <? saturating_add (rb_block_no sp) security_param then false
              else if pt_slot target <? rb_slot sp then false
              else bool_decide (canonical_hash_at chaindb (rb_slot sp) = Some (rb_hash sp))
          | _ => false
          end
      | None => false
      end
  | _ => false
  end.

(** Is rolling the certified anchor back to the target admissible on the chain before it? *)
Definition admit_target (chaindb : Inner) (seed_slot : Z) (anchor : RollbackPoint) (target : Point)
    (security_param : Z) : result unit NodeLifecycleError :=
  let? seed_at := resolve_canonical_point chaindb seed_slot in
  let seed_pt := default (mk_RollbackPoint seed_slot 0 zero_hash) seed_at in
  let? at_target := resolve_canonical_point chaindb (pt_slot target) in
  let? target_at := ok_or at_target (Life_RecoveryAdmission (Fault_TargetNotOnCanonicalChain (pt_slot target))) in
  map_err (fun e => Life_RecoveryAdmission (from_admission e))
    (admit_rollback anchor (mk_RollbackPoint (pt_slot target) (rb_block_no target_at) (pt_hash target)) seed_pt
       security_param (canonical_hash_at chaindb)).

Definition reset_accumulator (store : A) : result unit NodeLifecycleError * option A :=
  match acc_reset_to_bootstrap store with
  | (Ok _, store) => (Ok tt, Some store)
  | (Err _, store) => (Err RelaySync, Some store)
  end.

Definition accumulator_admit_and_clear_for_rollback (epoch_accumulator : option A) (chaindb : Inner) (target : Point)
    (security_param : Z) : result unit NodeLifecycleError * option A :=
  match epoch_accumulator with
  | None => (Ok tt, None)
  | Some store =>
      match acc_seed_slot store with
      | Ok (Some seed_slot) =>
          match acc_last_advanced_point store with
          | Err _ => (Err (Life_RecoveryAdmission CorruptLastAdvancedPoint), Some store)
          | Ok None => (Ok tt, Some store)
          | Ok (Some anchor) =>
              match admit_target chaindb seed_slot anchor target security_param with
              | Err e => (Err e, Some store)
              | Ok _ =>
                  if settled_rewind_admissible store chaindb target security_param then
                    match acc_reset_to_settled store with
                    | (Ok true, store) => (Ok tt, Some store)
                    | (_, store) => reset_accumulator store
                    end
                  else reset_accumulator store
              end
          end
      | _ => (Ok tt, Some store)
      end
  end.

Definition accumulator_recertify_settled_after_rollback (epoch_accumulator : option A) (chaindb : Inner)
    (security_param : Z) : result unit NodeLifecycleError * option A :=
  match epoch_accumulator with
  | None => (Ok tt, None)
  | Some store =>
      match acc_settled_rewind_point store with
      | Ok (Some sp) =>
          match resolve_canonical_point chaindb (rb_slot sp) with
          | Err e => (Err e, Some store)
          | Ok None => (Ok tt, Some store)
          | Ok (Some cp) =>
              if negb (bool_decide (rb_hash cp = rb_hash sp)) then (Ok tt, Some store) else
              match mem_tip chaindb with
              | None => (Ok tt, Some store)
              | Some tip =>
                  match resolve_canonical_point chaindb (ct_slot tip) with
                  | Err e => (Err e, Some store)
                  | Ok None => (Ok tt, Some store)
                  | Ok (Some tip_pt) =>
                      if rb_block_no tip_pt <? saturating_add (rb_block_no cp) security_param
                      then (Ok tt, Some store)
                      else let '(_, store) := acc_recertify_settled_anchor store in (Ok tt, Some store)
                  end
              end
          end
      | _ => (Ok tt, Some store)
      end
  end.
End Lockstep.

(** * The switch *)

Section Switch.
Context `{HC : Crypto, HE : Ed25519, HB : !Blake224, HR : LedgerRules, HS : !SnapshotCodec}.
Context {L : Type} `{HW : WalStore L} {A : Type} `{HA : !AccumulatorStore A}.

(** The node and what its participant loop carries from turn to turn ([ForgeActivation]). *)
Record Participation : Type := mk_Participation {
  node : Node (L := L);
  epoch_accumulator : option A;
  pending_fork_switch : option PendingForkSwitch;
  pending_reselection : bool;
  pending_missing_bridge : option MissingBridgeReason;
  last_fork_switch_failure : option BranchProofError;
  rollback_retention : HeaderCache;
  post_switch_follow : option PostSwitchFollow;
  pending_range_refetch : option RangeRefetch;
}.

Definition with_node (p : Participation) (n : Node) : Participation :=
  mk_Participation n (epoch_accumulator p) (pending_fork_switch p) (pending_reselection p)
    (pending_missing_bridge p) (last_fork_switch_failure p) (rollback_retention p) (post_switch_follow p)
    (pending_range_refetch p).
Definition with_accumulator (p : Participation) (a : option A) : Participation :=
  mk_Participation (node p) a (pending_fork_switch p) (pending_reselection p) (pending_missing_bridge p)
    (last_fork_switch_failure p) (rollback_retention p) (post_switch_follow p) (pending_range_refetch p).
(** The decision, the forge fence and the last failure. *)
Definition with_fence (p : Participation) (s : option PendingForkSwitch) (fence : bool) (f : option BranchProofError) :
    Participation :=
  mk_Participation (node p) (epoch_accumulator p) s fence (pending_missing_bridge p) f (rollback_retention p)
    (post_switch_follow p) (pending_range_refetch p).
Definition with_bridge (p : Participation) (b : option MissingBridgeReason) : Participation :=
  mk_Participation (node p) (epoch_accumulator p) (pending_fork_switch p) (pending_reselection p) b
    (last_fork_switch_failure p) (rollback_retention p) (post_switch_follow p) (pending_range_refetch p).
Definition with_retention (p : Participation) (r : HeaderCache) : Participation :=
  mk_Participation (node p) (epoch_accumulator p) (pending_fork_switch p) (pending_reselection p)
    (pending_missing_bridge p) (last_fork_switch_failure p) r (post_switch_follow p) (pending_range_refetch p).
Definition with_refetch (p : Participation) (r : option RangeRefetch) : Participation :=
  mk_Participation (node p) (epoch_accumulator p) (pending_fork_switch p) (pending_reselection p)
    (pending_missing_bridge p) (last_fork_switch_failure p) (rollback_retention p) (post_switch_follow p) r.

(** [NoCheckpointSink] *)
Definition no_checkpoint_sink (_ : Z) : result unit ChainDbError := Ok tt.

Definition node_pump `{LedgerView} (n : Node (L := L)) (bytes : list Z) (era_schedule : EraSchedule) :
    result (option PumpTip) PumpError * Node :=
  let '(r, fwd, db, wal) := pump_block no_checkpoint_sink (nd_fwd n) (nd_db n) (nd_wal n) bytes era_schedule in
  (r, mk_Node fwd db wal).

Definition node_apply `{LedgerView} (n : Node (L := L)) (event : ChainEvent) (reason : RollbackReason)
    (roll_forward_block : option (list Z)) (era_schedule : EraSchedule) :
    result (option AppliedTip) ApplyError * Node :=
  let '(r, fwd, db, wal) := apply_chain_event no_checkpoint_sink (nd_fwd n) (nd_db n) (nd_wal n) event reason
                              roll_forward_block era_schedule in
  (r, mk_Node fwd db wal).

(** The blocks about to be rolled back, remembered: from the tip down to the anchor, [k + 1] at most. *)
Fixpoint retain_walk (fuel : nat) (chaindb : Inner) (anchor_hash cur : Hash32) (retention : HeaderCache) : HeaderCache :=
  match fuel with
  | O => retention
  | S fuel =>
      if bool_decide (cur = anchor_hash) then retention else
      match mem_get_block_by_hash chaindb cur with
      | None => retention
      | Some stored =>
          match decode_block (sb_bytes stored) with
          | Err _ => retention
          | Ok d =>
              match prev_block_hash (dk_prev_hash d) with
              | None => retention
              | Some next =>
                  retain_walk fuel chaindb anchor_hash next
                    (if bool_decide (dk_block_hash d = cur)
                     then bt_insert retention (dk_block_hash d)
                            (mk_CachedHeader (dk_header_input d) (dk_prev_hash d) (dk_block_hash d))
                     else retention)
              end
          end
      end
  end.

Definition cached_block_no (e : Hash32 * CachedHeader) : Z := hi_block_no (ch_header (snd e)).

(** Entries more than [k] below the highest one go. *)
Definition evict_retention (k : Z) (retention : HeaderCache) : HeaderCache :=
  match retention with
  | [] => []
  | e :: rest =>
      let cutoff := saturating_sub (fold_left Z.max (map cached_block_no rest) (cached_block_no e)) k in
      List.filter (fun e => cutoff <=? cached_block_no e) retention
  end.

Definition retain_rolled_back (chaindb : Inner) (anchor_hash : Hash32) (k : Z) (retention : HeaderCache) : HeaderCache :=
  match mem_tip chaindb with
  | None => retention
  | Some old_tip =>
      evict_retention k (retain_walk (S (Z.to_nat k)) chaindb anchor_hash (ct_hash old_tip) retention)
  end.

(** The roll-forward loop over the proven branch. *)
Fixpoint roll_branch_forward `{LedgerView} (n : Node (L := L)) (blocks : list ProvenBlock) (era_schedule : EraSchedule) :
    result unit ApplyError * Node :=
  match blocks with
  | [] => (Ok tt, n)
  | block :: blocks =>
      match node_apply n (ChainSelected (pb_tip block) None) ForkChoiceWin (Some (pb_bytes block)) era_schedule with
      | (Err e, n) => (Err e, n)
      | (Ok _, n) => roll_branch_forward n blocks era_schedule
      end
  end.

Definition apply_fork_switch `{LedgerView} (p : Participation) (switch : PendingForkSwitch)
    (body_source : BranchBodySource) (era_schedule : EraSchedule) (security_param : Z) :
    result ForkSwitchOutcome NodeSyncError * Participation :=
  match prove_fork_switch (nd_fwd (node p)) (nd_db (node p)) switch body_source era_schedule with
  | Err e => (Ok (ProofFailed e), with_fence p None (pending_reselection p) (Some e))
  | Ok blocks =>
      match last blocks with
      | None => (Ok (ProofFailed EmptyBranch), with_fence p None (pending_reselection p) (Some EmptyBranch))
      | Some final =>
          let anchor := mk_Point (fa_slot (fork_anchor switch)) (fa_hash (fork_anchor switch)) in
          let new_tip_prev := if (length blocks =? 1)%nat then pt_hash anchor
                              else pt_hash (pb_tip (nth (length blocks - 2) blocks final)) in
          let p := with_retention p (retain_rolled_back (nd_db (node p)) (pt_hash anchor) security_param
                                       (rollback_retention p)) in
          match accumulator_admit_and_clear_for_rollback (epoch_accumulator p) (nd_db (node p)) anchor security_param with
          | (Err e, a) => (Err (sync_error e), with_accumulator p a)
          | (Ok _, a) =>
              let p := with_accumulator p a in
              match node_apply (node p) (RolledBack anchor 0) ForkChoiceWin None era_schedule with
              | (Err e, n) => (Err (Pump (Sync_SwitchRollback e)), with_node p n)
              | (Ok _, n) =>
                  match roll_branch_forward n blocks era_schedule with
                  | (Err e, n) => (Err (Pump (Sync_SwitchRollForward e)), with_node p n)
                  | (Ok _, n) =>
                      (Ok (Adopted (pb_tip final) new_tip_prev), with_fence (with_node p n) None false None)
                  end
              end
          end
      end
  end.

(** * A missing range ([recover_missing_range]) *)

Fixpoint refetch_loop `{LedgerView} (n : Node (L := L)) (bodies : list (list Z)) (to_hash : Hash32)
    (era_schedule : EraSchedule) (reached : bool) : RangeRefetchOutcome * Node :=
  match bodies with
  | [] => (if reached then Refetch_Admitted else Refetch_ShortRange, n)
  | bytes :: bodies =>
      match node_pump n bytes era_schedule with
      | (Ok (Some tip), n) => refetch_loop n bodies to_hash era_schedule (reached || bool_decide (pm_hash tip = to_hash))
      | (Ok None, n) =>
          let stored := match mem_get_block_by_hash (nd_db n) to_hash with Some _ => true | None => false end in
          refetch_loop n bodies to_hash era_schedule (reached || stored)
      | (Err (Pump_Receive _), n) => (Refetch_ParentLinkMismatch, n)
      | (Err _, n) => (Refetch_ValidationFailed, n)
      end
  end.

Definition recover_missing_range `{LedgerView} (n : Node (L := L)) (prefetched : PrefetchedBranchBodies)
    (req : RangeRefetch) (era_schedule : EraSchedule) : RangeRefetchOutcome * Node :=
  match ordered_for_peer prefetched (rr_peer req) with
  | [] => (Refetch_Unavailable, n)
  | bodies => refetch_loop n bodies (pt_hash (rr_to_descendant req)) era_schedule false
  end.
End Switch.

Inductive NodeSyncItem : Type :=
| Item_Block (peer : Peer) (bytes : list Z)
| Item_RollBack (peer : Peer) (point : ChainSync.Point).

(** What the loop collects while it drains its source: each peer's latest candidate and the
    headers of its branch. *)
Record Rivals : Type := mk_Rivals {
  competing : CompetingSet;
  branch_caches : BTreeMap Peer HeaderCache;
}.

Section Loop.
Context `{HC : Crypto, HE : Ed25519, HB : !Blake224, HR : LedgerRules, HS : !SnapshotCodec}.
Context {L : Type} `{HW : WalStore L} {A : Type} `{HA : !AccumulatorStore A}.
#[local] Abbreviation Participation := (Participation (L := L) (A := A)).

Definition remember (decoded : DecodedBlock) : CachedHeader :=
  mk_CachedHeader (dk_header_input decoded) (dk_prev_hash decoded) (dk_block_hash decoded).

(** The branch cannot be connected: the fence is held, and a winning peer's descendant asked for. *)
Definition hold_bridge (p : Participation) (durable_tip : TipPoint) (peer : Peer) (decoded : DecodedBlock)
    (e : LcaError) : Participation :=
  let reason := map_lca_error e in
  let p := match post_switch_follow p with
           | Some psf =>
               if bool_decide (psf_winning_peer psf = peer)
                  && (tp_slot durable_tip <? hi_slot (dk_header_input decoded))
               then with_refetch p (Some (mk_RangeRefetch peer
                      (mk_Point (tp_slot durable_tip) (tp_hash durable_tip))
                      (mk_Point (hi_slot (dk_header_input decoded)) (dk_block_hash decoded)) reason))
               else p
           | None => p
           end in
  with_bridge p (Some reason).

(** The state the selector starts from: the durable tip, with the recovered anchor as the floor. *)
Definition selector_state (fwd : ForwardSyncState) (durable_tip : TipPoint) (current : TiebreakerView)
    (security_param : Z) : ChainSelectorState :=
  let floor_point := match recovered_anchor fwd with
                     | Some a => mk_Point (ct_slot a) (ct_hash a)
                     | None => mk_Point 0 zero_hash
                     end in
  mk_ChainSelectorState (mk_Point (tp_slot durable_tip) (tp_hash durable_tip)) (tp_block_no durable_tip) current
    floor_point 0 security_param.

Definition dispatch_competing_fork_choice `{LedgerView} (p : Participation) (rivals : Rivals) (durable_tip : TipPoint)
    (peer : Peer) (decoded : DecodedBlock) (era_schedule : EraSchedule) (security_param : Z) :
    result unit NodeSyncError * Participation * Rivals :=
  let fwd := nd_fwd (node p) in
  let chaindb := nd_db (node p) in
  let branch_cache := bt_insert (default [] (bt_get (branch_caches rivals) peer)) (dk_block_hash decoded)
                        (remember decoded) in
  let rivals := mk_Rivals (competing rivals) (bt_insert (branch_caches rivals) peer branch_cache) in
  match walk_to_durable_lca branch_cache (rollback_retention p) chaindb security_param (dk_block_hash decoded) with
  | None => (Ok tt, p, rivals) (* the walk ends: [lca_walk_exact] *)
  | Some (Err e) => (Ok tt, hold_bridge p durable_tip peer decoded e, rivals)
  | Some (Ok lca) =>
      let anchor := mk_Point (lca_anchor_slot lca) (lca_anchor_hash lca) in
      match materialize_rolled_back_state (mk_TargetPoint (pt_slot anchor) (pt_hash anchor))
              (chaindb_context chaindb (recovered_eta0 fwd)) era_schedule with
      | Err _ => (Ok tt, with_bridge p (Some MB_LcaUnreachable), rivals)
      | Ok (_, anchor_chain_dep) =>
          let anchor_block_no := default 0 (last_block_no anchor_chain_dep) in
          match build_candidate_fragment anchor anchor_block_no (tp_block_no durable_tip) anchor_chain_dep
                  (lca_headers lca) era_schedule with
          | Err _ => (Ok tt, p, rivals)
          | Ok frag =>
              let cand_tip := mk_Point (hi_slot (dk_header_input decoded)) (dk_block_hash decoded) in
              let rivals := mk_Rivals (bt_insert (competing rivals) peer (frag, cand_tip)) (branch_caches rivals) in
              match mem_get_block_by_hash chaindb (tp_hash durable_tip) with
              | None => (Ok tt, p, rivals)
              | Some tip_stored =>
                  match decode_block (sb_bytes tip_stored) with
                  | Err e => (Err (Pump (Sync_Decode e)), p, rivals)
                  | Ok tip_decoded =>
                      match project_tiebreaker (dk_header_input tip_decoded) with
                      | Err _ => (Ok tt, p, rivals)
                      | Ok current =>
                          match decide_fork_switch (selector_state fwd durable_tip current security_param)
                                  (competing rivals) with
                          | Ok (Switch switch) =>
                              (Ok tt, with_fence p (Some switch) true (last_fork_switch_failure p), rivals)
                          | Ok KeepCurrent | Err NoCandidates => (Ok tt, p, rivals)
                          end
                      end
                  end
              end
          end
      end
  end.

Definition resolve_and_apply_peer_rollback `{LedgerView} (p : Participation) (wire_point : ChainSync.Point)
    (era_schedule : EraSchedule) (security_param : Z) : result unit NodeSyncError * Participation :=
  match wire_point with
  | Origin => (Err UnexpectedRollback, p)
  | Block slot hash =>
      let at_anchor := match recovered_anchor (nd_fwd (node p)) with
                       | Some a => (slot =? ct_slot a) && bool_decide (hash = ct_hash a)
                       | None => false
                       end in
      if at_anchor then (Ok tt, p) else
      match mem_get_block_by_hash (nd_db (node p)) hash with
      | None => (Err UnexpectedRollback, p)
      | Some stored =>
          if negb (slot =? sb_slot stored) then (Err (RollbackPointSlotMismatch slot (sb_slot stored) hash), p) else
          let target := mk_Point (sb_slot stored) hash in
          match accumulator_admit_and_clear_for_rollback (epoch_accumulator p) (nd_db (node p)) target security_param with
          | (Err e, a) => (Err (sync_error e), with_accumulator p a)
          | (Ok _, a) =>
              let p := with_accumulator p a in
              let '(applied, n) := node_apply (node p) (RolledBack target 0) PeerRollBackward None era_schedule in
              let p := with_fence (with_node p n) (pending_fork_switch p) false (last_fork_switch_failure p) in
              match applied with
              | Err e => (Err (Pump (Sync_Event e)), p)
              | Ok _ =>
                  match accumulator_recertify_settled_after_rollback (epoch_accumulator p) (nd_db (node p))
                          security_param with
                  | (Err _, a) => (Err (Pump Sync_Accumulator), with_accumulator p a)
                  | (Ok _, a) => (Ok tt, with_accumulator p a)
                  end
              end
          end
      end
  end.

(** One block of the loop. *)
Definition sync_block `{LedgerView} (p : Participation) (rivals : Rivals) (peer : Peer) (bytes : list Z)
    (era_schedule : EraSchedule) (security_param : Z) : result unit NodeSyncError * Participation * Rivals :=
  match decode_block bytes with
  | Err e => (Err (Pump (Sync_Decode e)), p, rivals)
  | Ok decoded =>
      match mem_tip (nd_db (node p)) with
      | None =>
          match node_pump (node p) bytes era_schedule with
          | (Err e, n) => (Err (Pump (Sync_Pump e)), with_node p n, rivals)
          | (Ok _, n) => (Ok tt, with_node p n, rivals)
          end
      | Some t =>
          let durable_tip := mk_TipPoint (ct_slot t) (ct_hash t)
                               (default 0 (last_block_no (rs_chain_dep (receive (nd_fwd (node p)))))) in
          let candidate := mk_CandidateSummary (hi_slot (dk_header_input decoded)) (hi_block_no (dk_header_input decoded))
                             (dk_block_hash decoded) (dk_prev_hash decoded) in
          let in_spine := match mem_get_block_by_hash (nd_db (node p)) (cs_hash candidate) with
                          | Some _ => true | None => false end in
          match resolve_disposition (classify_receive durable_tip candidate in_spine) Participant with
          | AlreadyHave => (Ok tt, p, rivals)
          | LinearExtend =>
              match node_pump (node p) bytes era_schedule with
              | (Err e, n) => (Err (Pump (Sync_Pump e)), with_node p n, rivals)
              | (Ok pumped, n) =>
                  let p := with_node p n in
                  (Ok tt, match pumped with Some _ => with_bridge p None | None => p end, rivals)
              end
          | NeedsForkChoice =>
              dispatch_competing_fork_choice p rivals durable_tip peer decoded era_schedule security_param
          | RefuseSingleProducer => (Err UnexpectedRollback, p, rivals)
          end
      end
  end.

Fixpoint sync_items `{LedgerView} (p : Participation) (rivals : Rivals) (items : list NodeSyncItem)
    (era_schedule : EraSchedule) (security_param : Z) : result unit NodeSyncError * Participation * Rivals :=
  match items with
  | [] => (Ok tt, p, rivals)
  | item :: items =>
      let '(r, p, rivals) :=
        match item with
        | Item_Block peer bytes => sync_block p rivals peer bytes era_schedule security_param
        | Item_RollBack _ point =>
            let '(r, p) := resolve_and_apply_peer_rollback p point era_schedule security_param in (r, p, rivals)
        end in
      match r with
      | Err e => (Err e, p, rivals)
      | Ok _ => sync_items p rivals items era_schedule security_param
      end
  end.

Definition run_participant_sync `{LedgerView} (p : Participation) (items : list NodeSyncItem)
    (era_schedule : EraSchedule) (security_param : Z) : result unit NodeSyncError * Participation :=
  let '(r, p, _) := sync_items p (mk_Rivals [] []) items era_schedule security_param in (r, p).
End Loop.
