(* ===== verification/SwitchFacts.v ===== *)
(** What a fork switch and the participant's loop do to the node: a proven branch is adopted
    whole, a branch that is not proven moves nothing, and along any participation the node stays
    exact and its chain linked by parent hashes. *)

From Stdlib Require Import Sorting.Sorted.
From S2P Require Import Prelude Cbor Envelope EraSchedule Timing Extension Leader Kes ChainDep Header HeaderFacts.
From S2P Require Import BlockCodec BlockValidity BTree ChainDb ChainSync Wal WalReplay ForkChoice.
From S2P Require Import Receive ReceiveStores StoredChain ForwardSync Spine SpineFacts.
From S2P Require Import Candidates ForkSwitch.

Section Facts.
Context `{HC : Crypto, HE : Ed25519, HB : !Blake224, HR : LedgerRules, HS : !SnapshotCodec}.
Context {L : Type} `{HW : WalStore L} {A : Type} `{HA : !AccumulatorStore A}.
#[local] Abbreviation Node := (Node (L := L)).

(** * The pump takes a valid block *)

Lemma admitted_iff `{LedgerView} bytes s sched s' :
  validates Enforce sched s bytes s' ->
  exists out, admit_via_block_validity bytes (fst s) (snd s) sched = Ok out /\
    ab_bytes (ao_admitted out) = bytes /\ (ao_ledger out, ao_chain_dep out) = s'.
Proof.
  intros Hv. apply outcome_validates in Hv. unfold admit_via_block_validity, block_validity. unfold outcome in Hv.
  destruct (bo_verdict _); [|done]. injection Hv as <-. by eexists.
Qed.

Lemma remove_only {K V} `{TotalOrder K} (k : K) (v : V) : bt_remove [(k, v)] k = [].
Proof. unfold bt_remove. cbn [List.filter]. by rewrite cmp_refl. Qed.

Lemma deliver_valid `{LedgerView} st bytes d db sched s' u db' :
  decode_block bytes = Ok d -> validates Enforce sched (state_of (receive st)) bytes s' ->
  pending_headers (receive st) = [((hi_slot (dk_header_input d), dk_block_hash d), bytes)] ->
  put_block db (stored_as d bytes) = (Ok u, db') ->
  exists ck ckslot, forward_sync_step st (Ev_BlockDelivered bytes) db sched =
    (Ok (durable (stored_as d bytes)
           (AdmitBlock (fs_prior_fp st) (dk_block_hash d) (hi_slot (dk_header_input d)) Valid (ledger_fingerprint (fst s')))
           ckslot (hi_slot (dk_header_input d)) (dk_block_hash d)),
     mk_ForwardSyncState (mk_ReceiveState (fst s') (snd s') []) (ledger_fingerprint (fst s')) (cadence st) ck
       (recovered_anchor st) (recovered_eta0 st), db').
Proof.
  intros Ed Hv Hp Hput. destruct (admitted_iff _ _ _ _ Hv) as (out & Ha & Hb & <-).
  unfold state_of in Ha. cbn [fst snd] in Ha.
  unfold forward_sync_step. cbn [receive_apply]. unfold block_delivered. rewrite Ed, Hp.
  unfold phc_contains, phc_get, phc_remove. cbn [bt_get].
  rewrite cmp_refl, remove_only. cbn [negb]. rewrite Ha.
  rewrite (write_stored db bytes d _ Ed Hb), Hput. cbn [map_err].
  destruct (last_block_no _) as [bn|]; [destruct (should_snapshot_after_block _ _ _ _)|]; by eexists _, _.
Qed.

Lemma plan_goes_through db wal stored entry ck slot hash prev bn u db' u' wal' :
  put_block db stored = (Ok u, db') -> wal_append wal entry = (Ok u', wal') ->
  apply_plan no_checkpoint_sink db wal (durable stored entry ck slot hash) prev bn =
    (Ok (Some (mk_PumpTip slot hash prev bn)), db', wal').
Proof.
  intros Hp Hw. unfold apply_plan, durable. cbn [apply_plan_loop app]. rewrite Hp, Hw.
  by destruct ck; cbn [apply_plan_loop app no_checkpoint_sink].
Qed.

Lemma plan_stops db wal stored entry ck slot hash prev bn u db' e wal' :
  put_block db stored = (Ok u, db') -> wal_append wal entry = (Err e, wal') ->
  apply_plan no_checkpoint_sink db wal (durable stored entry ck slot hash) prev bn = (Err (Pump_Wal e), db', wal').
Proof. intros Hp Hw. unfold apply_plan, durable. cbn [apply_plan_loop app]. by rewrite Hp, Hw. Qed.

(** The pump takes a valid block of a new hash, if the log takes its entry. *)
Lemma pump_valid `{LedgerView} st db wal bytes d sched s' u db' w wal' :
  decode_block bytes = Ok d -> validates Enforce sched (state_of (receive st)) bytes s' ->
  pending_headers (receive st) = [] ->
  (forall x, mem_get_block_by_hash db (dk_block_hash d) = Some x -> sb_slot x <> hi_slot (dk_header_input d)) ->
  put_block db (stored_as d bytes) = (Ok u, db') ->
  wal_append wal (AdmitBlock (fs_prior_fp st) (dk_block_hash d) (hi_slot (dk_header_input d)) Valid
                    (ledger_fingerprint (fst s'))) = (w, wal') ->
  exists t ck, pump_block no_checkpoint_sink st db wal bytes sched =
    (match w with Ok _ => Ok (Some t) | Err e => Err (Pump_Wal e) end,
     mk_ForwardSyncState (mk_ReceiveState (fst s') (snd s') []) (ledger_fingerprint (fst s')) (cadence st) ck
       (recovered_anchor st) (recovered_eta0 st), db', wal').
Proof.
  intros Ed Hv Hp Hnew Hput Hw. unfold pump_block. rewrite Ed.
  assert (Hal : match mem_get_block_by_hash db (dk_block_hash d) with
                | Some stored => sb_slot stored =? hi_slot (dk_header_input d) | None => false end = false).
  { destruct (mem_get_block_by_hash _ _) as [x|]; [|done]. apply Z.eqb_neq. by apply Hnew. }
  rewrite Hal. unfold forward_sync_step at 1. cbn [receive_apply]. unfold roll_forward. rewrite Hp.
  unfold phc_insert, phc_contains, phc_get. cbn [bt_get bt_insert andb].
  set (st1 := with_receive st _).
  assert (Hput2 : put_block db' (stored_as d bytes) = (Ok tt, db')) by by eapply put_block_again.
  destruct (deliver_valid st1 bytes d db sched s' u db' Ed) as (ck & ckslot & E); [exact Hv|done|done|].
  rewrite E. destruct w as [u'|e];
    [rewrite (plan_goes_through _ _ _ _ _ _ _ _ _ _ _ _ _ Hput2 Hw)|rewrite (plan_stops _ _ _ _ _ _ _ _ _ _ _ _ _ Hput2 Hw)];
    [by eexists _, _|by exists (mk_PumpTip 0 [] [] 0), ck].
Qed.

(** * The node under a switch *)

Section Node.
Context (seed : EraSummary) (pools : Z -> Hash28 -> option Hash32) `{HG : !GridRules seed, HL : !WalStoreLaws L}.
Context (bs0 : list StoredBlock) (ks0 : list Link) (s0 : State) (slot0 : Z) (anchor : Hash32)
  (eta0 : option Nonce) (slot_of : Hash32 -> Z).
Context (Hbase : base_ok bs0 ks0 s0 slot0 anchor).
#[local] Abbreviation spine_ok := (spine_ok seed pools bs0 ks0 s0 slot0 anchor eta0 slot_of).
#[local] Abbreviation grown := (grown seed pools bs0 ks0 s0 slot0).
#[local] Abbreviation in_order := (in_order slot0 slot_of).

Context `{HV : LedgerView} (sched : EraSchedule) (Hu : uniform seed sched) (Hf : faithful pools HV).

Lemma hash_stored n h x : spine_ok n -> mem_get_block_by_hash (nd_db n) h = Some x -> x ∈ chain n /\ sb_hash x = h.
Proof.
  intros Hn. unfold mem_get_block_by_hash. destruct (bt_get (by_hash (nd_db n)) h) as [slot|] eqn:E; [|done].
  intros Hx. pose proof (sp_db _ _ _ _ _ _ _ _ _ _ Hn) as Hdb. destruct (ok_points _ Hdb _ _ E) as (b & Hb & Hh).
  assert (b = x) as -> by congruence. destruct (ok_indexed _ Hdb _ _ Hb) as (<- & _).
  split; [|done]. by apply stored_by_slot.
Qed.

(** The log answered an append with this error. *)
Definition log_refused (e : WalError) : Prop := exists (wal : L) entry wal', wal_append wal entry = (Err e, wal').

(** A valid block of a later slot becomes the tip, unless the log refuses its entry. *)
Lemma pump_adopts n bytes d s' :
  spine_ok n -> decode_block bytes = Ok d -> in_order d -> validates Enforce sched (node_state n) bytes s' ->
  pending_headers (receive (nd_fwd n)) = [] ->
  (exists t n', node_pump n bytes sched = (Ok (Some t), n') /\ spine_ok n' /\ chain n' = stored_as d bytes :: chain n /\
    node_state n' = s' /\ pending_headers (receive (nd_fwd n')) = []) \/
  exists e n', node_pump n bytes sched = (Err (Pump_Wal e), n') /\ log_refused e.
Proof.
  intros Hn Ed Hord Hv Hp. pose proof Hn as [Hdb (ks & ts & Hg & _) _ _ _ _ _ _].
  assert (Ha : accepted seed pools (node_state n) (stored_as d bytes) s').
  { split; [by exists d|]. by exists sched, HV. }
  pose proof Hord as (_ & Hs0 & _).
  pose proof (grown_newer _ _ _ _ _ _ _ Hbase _ _ _ _ _ Hg Ha Hs0) as Hnew.
  destruct (grown_tip _ _ _ _ _ _ _ Hbase _ _ _ Hg) as (_ & Hall & _).
  assert (Hlt : Forall (fun x => sb_slot x < sb_slot (stored_as d bytes)) (chain n)).
  { eapply Forall_impl; [exact Hall|]. cbv beta. intros x Hx. lia. }
  destruct (stored_put _ Hdb (stored_as d bytes) Hlt) as (db' & Hput & _).
  destruct (wal_append (nd_wal n) (AdmitBlock (fs_prior_fp (nd_fwd n)) (dk_block_hash d) (hi_slot (dk_header_input d)) Valid
                    (ledger_fingerprint (fst s')))) as [w wal'] eqn:Hw.
  destruct (pump_valid (nd_fwd n) (nd_db n) (nd_wal n) bytes d sched s' tt db' w wal') as (t & ck & E); [done..| |done|done|].
  { intros x Hx. apply hash_stored in Hx as [Hx _]; [|done]. rewrite Forall_forall in Hlt.
    specialize (Hlt _ Hx). cbn in Hlt. lia. }
  unfold node_pump. rewrite E. destruct w as [u'|e]; [left|right; eexists e, _; split; [done|by eexists _, _, _]].
  eexists t, _. split; [done|].
  destruct (admit_keeps seed pools bs0 ks0 s0 slot0 anchor eta0 slot_of Hbase n _ db' wal' d s' bytes [] ck tt u' sched HV
              Hn Hu Hf Hord Ed Hv Hput Hw eq_refl) as [Hok Hc].
  split; [exact Hok|]. split; [exact Hc|]. by destruct s'.
Qed.

(** A proven branch, oldest block first: each block decodes, names its tip and is valid on the
    state the blocks before it lead to. *)
Inductive proven : State -> list ProvenBlock -> State -> Prop :=
| proven_nil s : proven s [] s
| proven_cons s bytes d s1 blocks s2 : decode_block bytes = Ok d -> validates Enforce sched s bytes s1 ->
    proven s1 blocks s2 ->
    proven s (mk_ProvenBlock bytes (mk_Point (hi_slot (dk_header_input d)) (dk_block_hash d)) :: blocks) s2.

Lemma verdict_tip l c bytes tip bn v :
  bo_verdict (block_validity l c sched bytes) = Verdict_Valid tip bn v ->
  exists d, decode_block bytes = Ok d /\ tip = (hi_slot (dk_header_input d), dk_block_hash d) /\
    validates Enforce sched (l, c) bytes
      (bo_ledger (block_validity l c sched bytes), bo_chain_dep (block_validity l c sched bytes)).
Proof.
  intros Hv. assert (Hval : validates Enforce sched (l, c) bytes
      (bo_ledger (block_validity l c sched bytes), bo_chain_dep (block_validity l c sched bytes))).
  { apply outcome_validates. unfold outcome, block_validity in *. cbn [fst snd]. by rewrite Hv. }
  pose proof Hval as (d & a & v' & Ed & Ea & Eb & El & _). exists d. split; [done|]. split; [|done].
  unfold block_validity, block_validity_with_eligibility in Hv. rewrite Ed in Hv. cbn [fst snd] in *.
  rewrite Ea, Eb, bool_decide_eq_true_2 in Hv by done. cbn [negb] in Hv. rewrite El in Hv. cbn in Hv.
  injection Hv as <- _ _. apply validate_iff in Ea. by destruct Ea as (? & ? & ? & ? & _ & _ & _ & _ & _ & _ & _ & _ & _ & ->).
Qed.

Lemma validate_branch_proven bodies : forall i l c blocks,
  validate_branch sched i l c bodies = Ok blocks ->
  map pb_bytes blocks = bodies /\ exists s', proven (l, c) blocks s'.
Proof.
  induction bodies as [|body bodies IH]; intros i l c blocks; cbn [validate_branch].
  { intros [= <-]. split; [done|]. eexists. constructor. }
  destruct (bo_verdict _) as [tip bn v|] eqn:Ev; [|done].
  apply verdict_tip in Ev as (d & Ed & -> & Hval). intros Hb. apply rbind_ok_inv in Hb as (bs & Hbs & [= <-]).
  apply IH in Hbs as [<- [s' Hs']]. split; [done|]. exists s'. by eapply proven_cons.
Qed.

Definition stored_of (b : ProvenBlock) : StoredBlock :=
  mk_StoredBlock (pt_hash (pb_tip b)) (pt_slot (pb_tip b)) (pb_bytes b).

(** Rolling a proven branch forward goes through, block by block, or stops at an entry the log
    refuses. *)
Lemma branch_adopted blocks s s' : proven s blocks s' -> forall n,
  node_state n = s -> spine_ok n -> pending_headers (receive (nd_fwd n)) = [] ->
  (forall b d, b ∈ blocks -> decode_block (pb_bytes b) = Ok d -> in_order d) ->
  (exists n', roll_branch_forward n blocks sched = (Ok tt, n') /\ spine_ok n' /\
    chain n' = reverse (map stored_of blocks) ++ chain n /\ node_state n' = s') \/
  exists e n', roll_branch_forward n blocks sched = (Err (Apply_Pump (Pump_Wal e)), n') /\ log_refused e.
Proof.
  induction 1 as [s|s bytes d s1 blocks s2 Ed Hv _ IH]; intros n Hs Hn Hp Hord; cbn [roll_branch_forward].
  { left. by exists n. }
  subst s. destruct (pump_adopts n bytes d s1) as [(t & n1 & Epump & Hn1 & Hc1 & Hs1 & Hp1)|(e & n1 & Epump & He)]; [done..| |done|done| |].
  3: { right. exists e, n1. split; [|done]. unfold node_apply, apply_chain_event, apply_chain_selected. unfold node_pump in Epump.
       destruct (pump_block _ _ _ _ _ _) as [[[r fwd] db] wal]. by injection Epump as -> <-. }
  { by apply (Hord (mk_ProvenBlock bytes (mk_Point (hi_slot (dk_header_input d)) (dk_block_hash d)))); [apply list_elem_of_here|]. }
  assert (Hap : node_apply n (ChainSelected (mk_Point (hi_slot (dk_header_input d)) (dk_block_hash d)) None) ForkChoiceWin
                  (Some bytes) sched =
                (Ok (Some (mk_AppliedTip (hi_slot (dk_header_input d)) (dk_block_hash d))), n1)).
  { unfold node_apply, apply_chain_event, apply_chain_selected. unfold node_pump in Epump.
    destruct (pump_block _ _ _ _ _ _) as [[[r fwd] db] wal]. injection Epump as -> <-. cbn [pt_slot pt_hash].
    rewrite stored_tip. unfold chain in Hc1. cbn [nd_db] in Hc1. rewrite Hc1.
    cbn [head option_map stored_as sb_hash sb_slot durable_tip_matches ct_slot ct_hash].
    by rewrite Z.eqb_refl, bool_decide_eq_true_2. }
  cbn [pb_tip pb_bytes]. rewrite Hap.
  destruct (IH n1 Hs1 Hn1 Hp1) as [(n' & Er & Hn' & Hc' & Hs')|?]; [|left|by right].
  { intros b d' Hb. apply Hord. by apply list_elem_of_further. }
  exists n'. split; [done|]. split; [done|]. split; [|done]. rewrite Hc', Hc1. cbn [map]. rewrite reverse_cons, <- app_assoc. done.
Qed.

(** * Parent links *)

Definition extends_block (b b' : StoredBlock) : Prop :=
  exists d, decode_block (sb_bytes b) = Ok d /\ dk_prev_hash d = Prev_Block (sb_hash b').

(** Each block of the chain, newest first, names the one before it as its parent. *)
Fixpoint parent_linked (bs : list StoredBlock) : Prop :=
  match bs with
  | b :: rest => match rest with b' :: _ => extends_block b b' | [] => True end /\ parent_linked rest
  | [] => True
  end.

Lemma parent_linked_suffix l1 l2 : parent_linked (l1 ++ l2) -> parent_linked l2.
Proof. induction l1 as [|b l1 IH]; [done|]. cbn [app parent_linked]. intros [_ H]. by apply IH. Qed.

Lemma up_to_linked slot n : spine_ok n -> parent_linked (chain n) -> parent_linked (up_to slot (chain n)).
Proof.
  intros Hn. rewrite (descending_split slot (chain n)) at 1.
  - apply parent_linked_suffix.
  - apply stored_descending, (sp_db _ _ _ _ _ _ _ _ _ _ Hn).
Qed.

(** The selected headers, each with the block whose body was fetched for it. *)
Definition bound (h : ValidatedHeaderSummary) (b : ProvenBlock) : Prop :=
  exists d, decode_block (pb_bytes b) = Ok d /\ header_matches_summary d h = true.

Lemma bind_branch_links s blocks s' : proven s blocks s' -> forall i b rest hs,
  bind_branch i (sb_hash b) hs (map pb_bytes blocks) = Ok tt -> length hs = length blocks ->
  parent_linked (b :: rest) ->
  Forall2 bound hs blocks /\ parent_linked (reverse (map stored_of blocks) ++ b :: rest).
Proof.
  induction 1 as [s|s bytes d s1 blocks s2 Ed Hv _ IH]; intros i b rest [|h hs] Hb Hl Hp; try done.
  cbn [map bind_branch pb_bytes] in Hb. rewrite Ed in Hb.
  destruct (header_matches_summary d h) eqn:Eh; cbn [negb] in Hb; [|done].
  destruct (dk_prev_hash d) as [|ph] eqn:Epr; [done|].
  destruct (bool_decide_reflect (ph = sb_hash b)) as [->|]; cbn [negb] in Hb; [|done].
  injection Hl as Hl.
  set (b1 := stored_of (mk_ProvenBlock bytes (mk_Point (hi_slot (dk_header_input d)) (dk_block_hash d)))) in *.
  destruct (IH (S i) b1 (b :: rest) hs) as [Hbound Hlinked]; [exact Hb|done| |].
  { split; [by exists d|done]. }
  split; [constructor; [by exists d|done]|]. cbn [map]. rewrite reverse_cons, <- app_assoc. exact Hlinked.
Qed.

Lemma prevalidate_ok fa cand bodies l c blocks : prevalidate_branch fa cand bodies l c sched = Ok blocks ->
  map pb_bytes blocks = bodies /\ length (headers cand) = length blocks /\ (exists b, last blocks = Some b) /\
  bind_branch 0 (fa_hash fa) (headers cand) (map pb_bytes blocks) = Ok tt /\ exists s', proven (l, c) blocks s'.
Proof.
  unfold prevalidate_branch. destruct (headers cand) as [|h hs] eqn:Eh; [done|]. rewrite <- Eh.
  destruct (Nat.eqb_spec (length bodies) (length (headers cand))) as [El|]; cbn [negb]; [|done].
  intros Hp. apply rbind_ok_inv in Hp as ([] & Hbind & Hval).
  apply validate_branch_proven in Hval as [<- Hs]. rewrite length_map in El. split; [done|]. split; [done|]. split; [|done].
  destruct blocks as [|b blocks _] using rev_ind; [by rewrite Eh in El|]. exists b. apply last_snoc.
Qed.

Lemma last_reverse_head {T} (l : list T) x : last l = Some x -> exists l', reverse l = x :: l'.
Proof.
  destruct l as [|y l _] using rev_ind; [done|]. rewrite last_snoc, reverse_app. intros [= <-]. by eexists.
Qed.

(** What an adopted switch leaves. *)
Definition switched (p p' : Participation (L := L) (A := A)) (switch : PendingForkSwitch) (new_tip : Point) : Prop :=
  exists blocks, Forall2 bound (headers (winning_candidate switch)) blocks /\
    chain (node p') = reverse (map stored_of blocks) ++ up_to (fa_slot (fork_anchor switch)) (chain (node p)) /\
    (parent_linked (chain (node p)) -> parent_linked (chain (node p'))) /\
    mem_tip (nd_db (node p')) = Some (mk_ChainTip (pt_hash new_tip) (pt_slot new_tip)) /\
    pending_fork_switch p' = None /\ pending_reselection p' = false /\ last_fork_switch_failure p' = None.

(** From the state at the anchor the switch goes through to its end, the log permitting. *)
Lemma switch_goes_through (n n1 : Node) b rest blocks final s s' :
  spine_ok n1 -> chain n1 = b :: rest -> up_to (sb_slot b) (chain n) = b :: rest ->
  node_state n1 = s -> pending_headers (receive (nd_fwd n1)) = [] ->
  proven s blocks s' -> last blocks = Some final ->
  (forall b d, b ∈ blocks -> decode_block (pb_bytes b) = Ok d -> in_order d) ->
  (exists n2, roll_branch_forward n1 blocks sched = (Ok tt, n2) /\ spine_ok n2 /\
    chain n2 = reverse (map stored_of blocks) ++ up_to (sb_slot b) (chain n) /\
    mem_tip (nd_db n2) = Some (mk_ChainTip (pt_hash (pb_tip final)) (pt_slot (pb_tip final)))) \/
  exists e n2, roll_branch_forward n1 blocks sched = (Err (Apply_Pump (Pump_Wal e)), n2) /\ log_refused e.
Proof.
  intros Hn1 Hc1 Hup Hs1 Hp1 Hprov Hlast Hord.
  destruct (branch_adopted _ _ _ Hprov n1 Hs1 Hn1 Hp1 Hord) as [(n2 & Hr & Hn2 & Hc2 & _)|?]; [left|by right].
  exists n2. split; [done|]. split; [done|]. rewrite Hc2, Hc1, Hup. split; [done|].
  rewrite stored_tip. unfold chain in Hc2. rewrite Hc2.
  assert (Hl : last (map stored_of blocks) = Some (stored_of final)).
  { destruct blocks as [|x l _] using rev_ind; [done|]. rewrite last_snoc in Hlast. injection Hlast as ->.
    rewrite map_app. cbn [map]. by rewrite last_snoc. }
  destruct (last_reverse_head _ _ Hl) as [l' ->]. done.
Qed.

Lemma fetched_from source peer hs : forall bodies bytes,
  fetch_bodies source peer hs = Ok bodies -> bytes ∈ bodies -> exists slot, source peer slot = Ok bytes.
Proof.
  induction hs as [|h hs IH]; intros bodies bytes; cbn [fetch_bodies]; [by intros [= <-] ?%not_elem_of_nil|].
  intros H. apply rbind_ok_inv in H as (body & Hbody & H). apply rbind_ok_inv in H as (bs & Hbs & [= <-]).
  apply map_err_ok in Hbody. intros [->|Hin]%elem_of_cons; [by eexists|by eapply IH].
Qed.

(** The rollback to the anchor: it leaves the chain up to it and the state materialized there. *)
Lemma anchored (n : Node) b l c : spine_ok n -> b ∈ chain n -> slot0 <= sb_slot b -> on_calendar seed (sb_slot b) ->
  no_snapshot_above n (sb_slot b) ->
  materialize_rolled_back_state (mk_TargetPoint (sb_slot b) (sb_hash b))
    (chaindb_context (nd_db n) (recovered_eta0 (nd_fwd n))) sched = Ok (l, c) ->
  (exists n1 rest t, node_apply n (RolledBack (mk_Point (sb_slot b) (sb_hash b)) 0) ForkChoiceWin None sched = (Ok t, n1) /\
    spine_ok n1 /\ chain n1 = b :: rest /\ up_to (sb_slot b) (chain n) = b :: rest /\ node_state n1 = (l, c) /\
    pending_headers (receive (nd_fwd n1)) = []) \/
  exists e n1, node_apply n (RolledBack (mk_Point (sb_slot b) (sb_hash b)) 0) ForkChoiceWin None sched = (Err (Apply_Wal e), n1) /\
    log_refused e.
Proof.
  intros Hn Hb H0 Hcal Hsnap Hm. unfold node_apply. cbn [apply_chain_event pt_slot pt_hash].
  destruct (apply_rolled_back _ _ _ _ _ _ _) as [[[r fwd] db] wal] eqn:Er.
  destruct (rolled_back_cases seed pools bs0 ks0 s0 slot0 anchor eta0 slot_of Hbase n b ForkChoiceWin sched HV r fwd db wal)
    as [(-> & Hn1 & ks & s & Hg & En)|(entry & e & He & ->)]; [by auto..|left|right; eexists e, _; split; [done|by eexists _, _, _]].
  destruct (materialize_exact seed pools bs0 ks0 s0 slot0 anchor eta0 slot_of Hbase n (sb_slot b) (sb_hash b) sched HV)
    as (ks' & s' & Hg' & Hm'); [done..|].
  rewrite Hm in Hm'. injection Hm' as <-. rewrite (grown_det _ _ _ _ _ _ _ _ _ Hg _ _ Hg') in En.
  assert (Hc : chain (mk_Node fwd db wal) = up_to (sb_slot b) (chain n)).
  { rewrite En. unfold chain at 1, gone_back. cbn [nd_db]. apply stored_rollback, (sp_db _ _ _ _ _ _ _ _ _ _ Hn). }
  assert (Hh : exists rest, up_to (sb_slot b) (chain n) = b :: rest).
  { pose proof (grown_descending _ _ _ _ _ _ _ Hbase _ _ _ Hg) as Hd. pose proof (replayed_blocks (sb_slot b) (chain n)) as Hle.
    assert (Hin : b ∈ up_to (sb_slot b) (chain n)).
    { unfold up_to. apply list_elem_of_In, filter_In. split; [by apply list_elem_of_In|lia]. }
    destruct (up_to (sb_slot b) (chain n)) as [|x rest]; [by apply not_elem_of_nil in Hin|].
    apply descending_cons in Hd as [_ Hx]. apply Forall_cons in Hle as [Hle _].
    apply elem_of_cons in Hin as [->|Hin]; [by eexists|]. rewrite Forall_forall in Hx. specialize (Hx _ Hin). lia. }
  destruct Hh as [rest Hh]. eexists _, rest, _. split; [reflexivity|]. rewrite Hc. split; [done|].
  split; [done|]. split; [done|]. by rewrite En.
Qed.

(** The switch stopped at an entry the log refused. *)
Definition stopped_by_log (e : NodeSyncError) : Prop := exists w, log_refused w /\
  (e = Pump (Sync_SwitchRollback (Apply_Wal w)) \/ e = Pump (Sync_SwitchRollForward (Apply_Pump (Pump_Wal w)))).

(** A switch without a proof moves nothing but the record of it. *)
Lemma unproven_moves_nothing p switch body_source k e p' :
  apply_fork_switch p switch body_source sched k = (Ok (ProofFailed e), p') ->
  node p' = node p /\ epoch_accumulator p' = epoch_accumulator p /\ pending_fork_switch p' = None /\
  pending_reselection p' = pending_reselection p /\ last_fork_switch_failure p' = Some e.
Proof.
  unfold apply_fork_switch. destruct (prove_fork_switch _ _ _ _ _) as [blocks|e']; [|by intros [= -> <-]].
  destruct (last blocks); [|by intros [= <- <-]].
  destruct (accumulator_admit_and_clear_for_rollback _ _ _ _) as [[u|f] acc]; [|done].
  destruct (node_apply _ _ _ _ _) as [[t|f] n1]; [|done]. by destruct (roll_branch_forward _ _ _) as [[t2|f] n2].
Qed.

(** What a switch is asked to do: its anchor is a block of the chain, at or above the node's start,
    with no snapshot above it, and the bodies are of blocks whose hashes tell their slots. *)
Record switch_sound (p : Participation (L := L) (A := A)) (switch : PendingForkSwitch) (body_source : BranchBodySource)
    (b : StoredBlock) : Prop := mk_switch_sound {
  ss_spine : spine_ok (node p);
  ss_anchor_stored : b ∈ chain (node p);
  ss_anchor : fork_anchor switch = mk_ForkAnchor (sb_slot b) (sb_hash b) (fa_block_no (fork_anchor switch));
  ss_above : slot0 <= sb_slot b;
  ss_calendar : on_calendar seed (sb_slot b);
  ss_snapshots : no_snapshot_above (node p) (sb_slot b);
  ss_bodies : forall slot bytes d, body_source (winning_peer switch) slot = Ok bytes -> decode_block bytes = Ok d -> in_order d;
}.

Lemma fork_switch_cases p switch body_source k r p' b : switch_sound p switch body_source b ->
  apply_fork_switch p switch body_source sched k = (r, p') ->
  match r with
  | Ok (Adopted new_tip _) => spine_ok (node p') /\ switched p p' switch new_tip
  | Ok (ProofFailed _) => node p' = node p
  | Err e => (node p' = node p /\ exists f, e = sync_error f) \/ stopped_by_log e
  end.
Proof.
  intros [Hn Hb Hanchor Habove Hcal Hsnap Hord] Hswitch. pose proof Hswitch as Hfailed. unfold apply_fork_switch in Hswitch.
  destruct (prove_fork_switch _ _ switch body_source sched) as [blocks|e] eqn:Ep.
  2: { injection Hswitch as <- <-. by apply unproven_moves_nothing in Hfailed as (-> & _). }
  unfold prove_fork_switch in Ep. rewrite Hanchor in Ep. cbn [fa_slot fa_hash] in Ep.
  apply rbind_ok_inv in Ep as (bodies & Hbodies & Ep). apply rbind_ok_inv in Ep as ([l c] & Hm & Ep).
  apply map_err_ok in Hm.
  apply prevalidate_ok in Ep as (Hbytes & Hlen & [final Hlast] & Hbind & s' & Hprov).
  rewrite Hlast, Hanchor in Hswitch. cbn [fa_slot fa_hash pt_hash epoch_accumulator with_retention node] in Hswitch.
  destruct (accumulator_admit_and_clear_for_rollback _ _ _ _) as [[u|f] acc]; cbn [with_accumulator with_retention node] in Hswitch.
  2: { injection Hswitch as <- <-. left. split; [done|by eexists]. }
  destruct (anchored (node p) b l c) as [(n1 & rest & t & Hroll & Hn1 & Hc1 & Hup & Hs1 & Hp1)|(e & n1 & Hroll & He)]; [done..| |];
    rewrite Hroll in Hswitch; cbn [with_node node] in Hswitch.
  2: { injection Hswitch as <- <-. right. exists e. split; [done|by left]. }
  destruct (switch_goes_through (node p) n1 b rest blocks final (l, c) s') as [(n2 & Hfwd & Hn2 & Hc2 & Htip)|(e & n2 & Hfwd & He)]; [done..| | |].
  { intros x d Hx. assert (Hxb : pb_bytes x ∈ bodies) by (rewrite <- Hbytes; by apply (list_elem_of_fmap_2 pb_bytes)).
    destruct (fetched_from _ _ _ _ _ Hbodies Hxb) as [slot Hslot]. by apply (Hord slot). }
  2: { rewrite Hfwd in Hswitch. injection Hswitch as <- <-. right. exists e. split; [done|by right]. }
  rewrite Hfwd in Hswitch. injection Hswitch as <- <-. split; [exact Hn2|].
  exists blocks. rewrite Hanchor. cbn [fa_slot with_fence with_node node pending_fork_switch pending_reselection].
  rewrite Hanchor in Hbind. cbn [fa_hash] in Hbind.
  destruct (bind_branch_links _ _ _ Hprov 0 b [] _ Hbind Hlen) as [Hbound _]; [done|].
  split; [exact Hbound|]. split; [exact Hc2|]. split; [|done]. intros Hp. rewrite Hc2, Hup.
  apply (bind_branch_links _ _ _ Hprov 0 b rest _ Hbind Hlen). rewrite <- Hup. by apply up_to_linked.
Qed.

(** C17. What a fork switch moves.  Whatever the node and the switch, a branch that is not proven moves
    neither the database, the log, the state nor the accumulator, and keeps the forge fence.  And when
    the anchor is a block of the node's chain above its start with no snapshot above it (a snapshot
    of an abandoned fork would be replayed from), a proven branch is adopted to its last block: the
    chain is the old one up to the anchor with the bodies bound to the selected headers on top, and
    the parts of the node agree; or the accumulator refuses it before anything moved; or an append to
    the log fails, and then the switch answers with that error, the node having moved part of the way:
    the code does not undo it. *)
Theorem fork_switch_all_or_nothing p switch body_source k r p'
    (Hswitch : apply_fork_switch p switch body_source sched k = (r, p')) :
  (forall e, r = Ok (ProofFailed e) ->
     node p' = node p /\ epoch_accumulator p' = epoch_accumulator p /\ pending_fork_switch p' = None /\
     pending_reselection p' = pending_reselection p /\ last_fork_switch_failure p' = Some e) /\
  (forall b, switch_sound p switch body_source b ->
     (forall new_tip prev, r = Ok (Adopted new_tip prev) -> spine_ok (node p') /\ switched p p' switch new_tip) /\
     (forall e, r = Err e -> (node p' = node p /\ exists f, e = sync_error f) \/ stopped_by_log e)).
Proof.
  split; [intros e ->; by eapply unproven_moves_nothing|].
  intros b Hs. pose proof (fork_switch_cases _ _ _ _ _ _ _ Hs Hswitch) as Hc.
  split; [by intros new_tip prev ->|by intros e ->].
Qed.

(** * The participant's loop *)

(** No append fails. *)
Context (Hlog : forall wal e, exists u w, wal_append (WalStore := HW) wal e = (Ok u, w)).

Lemma put_snapshots db b u db' : put_block db b = (Ok u, db') -> snapshots db' = snapshots db.
Proof. unfold put_block. destruct (bt_get _ _); [destruct (negb _)|]; [done| |]; by intros [= _ <-]. Qed.

(** While no append fails, the pump refuses a block only for what the block is. *)
Lemma pump_survives st db wal bytes r st' db' wal' :
  pump_block no_checkpoint_sink st db wal bytes sched = (r, st', db', wal') -> survivable r.
Proof.
  unfold pump_block. destruct (decode_block bytes) as [d|e] eqn:Ed; [|by intros [= <- <- <- <-]].
  destruct (match mem_get_block_by_hash db (dk_block_hash d) with Some _ => _ | None => _ end); [by intros [= <- <- <- <-]|].
  destruct (forward_sync_step st _ db sched) as [[[plan1|e1] st1] db1]; [|by intros [= <- <- <- <-]].
  destruct (forward_sync_step st1 _ db1 sched) as [[r2 st2] db2] eqn:E2.
  apply (step_deliver _ _ d) in E2; [|done]. destruct r2 as [plan2|e2]; [|by intros [= <- <- <- <-]].
  destruct E2 as (s' & p & ck & u & ckslot & _ & Hput & _ & ->).
  match goal with |- context [AdmitBlock ?a ?b ?c ?d ?e] => destruct (Hlog wal (AdmitBlock a b c d e)) as (u' & w & Hw) end.
  rewrite (plan_goes_through _ _ _ _ _ _ _ _ _ _ _ _ _ (put_block_again _ _ _ _ Hput) Hw). by intros [= <- <- <- <-].
Qed.

Lemma pump_node_keeps (n : Node) bytes r n' :
  spine_ok n -> (forall d, decode_block bytes = Ok d -> in_order d) -> node_pump n bytes sched = (r, n') ->
  spine_ok n' /\ snapshots (nd_db n') = snapshots (nd_db n) /\ survivable r /\
  (chain n' = chain n \/ exists b, chain n' = b :: chain n /\ sb_bytes b = bytes).
Proof.
  intros Hn Hord Hp. unfold node_pump in Hp.
  destruct (pump_block _ _ _ _ _ _) as [[[r1 fwd] db] wal] eqn:E. injection Hp as -> <-.
  pose proof (pump_survives _ _ _ _ _ _ _ _ E) as Hsv.
  destruct (pump_keeps no_checkpoint_sink seed pools bs0 ks0 s0 slot0 anchor eta0 slot_of Hbase n bytes sched HV r fwd db wal)
    as [Hok Hc]; [done..|].
  split; [done|]. split; [|split; [done|]].
  - apply pump_inv in E; [|done]. destruct E as [(_ & -> & _)|(d & s' & q & ck & u & u' & t & _ & _ & Hput & _)]; [done|].
    by apply put_snapshots in Hput.
  - destruct r as [[t|]|e]; [right; by destruct Hc as [_ Hc]| |]; left; unfold chain; cbn [nd_db]; by destruct Hc as [-> _].
Qed.

Lemma dispatch_keeps_node p rivals tip peer d k r p' rivals' :
  dispatch_competing_fork_choice (L := L) (A := A) p rivals tip peer d sched k = (r, p', rivals') -> node p' = node p.
Proof.
  unfold dispatch_competing_fork_choice. destruct (walk_to_durable_lca _ _ _ _ _) as [[lca|e]|].
  - destruct (materialize_rolled_back_state _ _ _) as [[l c]|]; [|by intros [= _ <- _]].
    destruct (build_candidate_fragment _ _ _ _ _ _) as [frag|]; [|by intros [= _ <- _]].
    destruct (mem_get_block_by_hash _ _) as [t|]; [|by intros [= _ <- _]].
    destruct (decode_block _) as [dt|]; [|by intros [= _ <- _]].
    destruct (project_tiebreaker _) as [tb|]; [|by intros [= _ <- _]].
    destruct (decide_fork_switch _ _) as [[|sw]|[]]; by intros [= _ <- _].
  - intros [= _ <- _]. unfold hold_bridge. destruct (post_switch_follow p) as [psf|]; [|done]. by destruct (_ && _).
  - by intros [= _ <- _].
Qed.

Lemma dispatch_error p rivals tip peer d k r p' rivals' :
  dispatch_competing_fork_choice (L := L) (A := A) p rivals tip peer d sched k = (r, p', rivals') ->
  forall e, r = Err e -> exists e', e = Pump (Sync_Decode e').
Proof.
  unfold dispatch_competing_fork_choice. destruct (walk_to_durable_lca _ _ _ _ _) as [[lca|e]|]; [|by intros [= <- _ _]..].
  destruct (materialize_rolled_back_state _ _ _) as [[l c]|]; [|by intros [= <- _ _]].
  destruct (build_candidate_fragment _ _ _ _ _ _) as [frag|]; [|by intros [= <- _ _]].
  destruct (mem_get_block_by_hash _ _) as [t|]; [|by intros [= <- _ _]].
  destruct (decode_block _) as [dt|e]; [|intros [= <- _ _] e' [= <-]; by eexists].
  destruct (project_tiebreaker _) as [tb|]; [|by intros [= <- _ _]].
  destruct (decide_fork_switch _ _) as [[|sw]|[]]; by intros [= <- _ _].
Qed.

(** An error of the loop is about what a peer sent or about the accumulator, never about a store
    the node had begun to change. *)
Definition peer_error {T} (r : result T NodeSyncError) : Prop :=
  match r with
  | Err (Pump (Sync_Pump e)) => exists e', e = Pump_Receive e'
  | Err (Pump (Sync_Event _)) | Err (Pump (Sync_SwitchRollback _)) | Err (Pump (Sync_SwitchRollForward _)) => False
  | _ => True
  end.

Definition linked_ok (n n' : Node) : Prop :=
  spine_ok n' /\ parent_linked (chain n') /\ snapshots (nd_db n') = snapshots (nd_db n).

Lemma pump_decodes (n : Node) bytes r n' : node_pump n bytes sched = (r, n') ->
  (exists d, decode_block bytes = Ok d) \/ chain n' = chain n.
Proof.
  unfold node_pump, pump_block. destruct (decode_block bytes) as [d|e]; [by left; exists d|].
  intros [= <- <-]. by right.
Qed.

Lemma pump_extends (n n' : Node) bytes r :
  spine_ok n -> parent_linked (chain n) -> node_pump n bytes sched = (r, n') ->
  (forall d, decode_block bytes = Ok d -> in_order d /\
     match mem_tip (nd_db n) with Some t => dk_prev_hash d = Prev_Block (ct_hash t) | None => True end) ->
  linked_ok n n' /\ forall e, r = Err e -> exists e', e = Pump_Receive e'.
Proof.
  intros Hn Hl Hp Hord.
  destruct (pump_node_keeps n bytes r n' Hn) as (Hok & Hsnap & Hsv & Hc); [intros d Hd; by apply Hord|done|].
  split; [|intros e ->; destruct e as [e| | | |]; [by exists e|done..]]. split; [done|]. split; [|done].
  destruct Hc as [->|(b & Hc & Hbytes)]; [done|]. rewrite Hc. split; [|done].
  destruct (chain n) as [|b' rest] eqn:Ec; [done|].
  assert (Hd : exists d, decode_block bytes = Ok d).
  { apply pump_decodes in Hp. destruct Hp as [Hp|Hp]; [done|]. rewrite Hp, Ec in Hc. apply (f_equal length) in Hc. cbn in Hc. lia. }
  destruct Hd as [d Hd]. exists d. rewrite Hbytes. split; [done|]. destruct (Hord _ Hd) as [_ Ht].
  rewrite stored_tip in Ht. unfold chain in Ec. by rewrite Ec in Ht.
Qed.

Lemma linked_refl n : spine_ok n -> parent_linked (chain n) -> linked_ok n n.
Proof. intros Hn Hl. by split; [|split]. Qed.

Lemma sync_block_keeps p rivals peer bytes k r p' rivals' :
  spine_ok (node p) -> parent_linked (chain (node p)) -> (forall d, decode_block bytes = Ok d -> in_order d) ->
  sync_block (L := L) (A := A) p rivals peer bytes sched k = (r, p', rivals') ->
  linked_ok (node p) (node p') /\ peer_error r.
Proof.
  intros Hn Hl Hord. pose proof (linked_refl _ Hn Hl) as Hsame. unfold sync_block.
  destruct (decode_block bytes) as [d|e] eqn:Ed; [|by intros [= <- <- _]].
  specialize (Hord _ eq_refl). destruct (mem_tip (nd_db (node p))) as [t|] eqn:Et.
  - unfold classify_receive. cbn [cs_hash cs_prev_hash cs_block_no tp_hash tp_block_no].
    destruct (mem_get_block_by_hash _ _) as [x|]; cbn [resolve_disposition]; [by intros [= <- <- _]|].
    destruct (_ && _) eqn:Eext; cbn [resolve_disposition].
    2: { intros Hd. rewrite (dispatch_keeps_node _ _ _ _ _ _ _ _ _ Hd). split; [done|].
         destruct r as [|e]; [done|]. by destruct (dispatch_error _ _ _ _ _ _ _ _ _ Hd e eq_refl) as [e' ->]. }
    destruct (node_pump (node p) bytes sched) as [r1 n1] eqn:Ep.
    destruct (pump_extends (node p) n1 bytes r1) as [Hk He]; [done..| |].
    { intros d' Hd'. assert (d' = d) as -> by congruence. split; [done|]. rewrite Et.
      apply andb_true_iff in Eext as [Eext _]. destruct (dk_prev_hash d) as [|h]; [done|].
      by apply bool_decide_eq_true in Eext as ->. }
    destruct r1 as [[tip|]|e]; intros [= <- <- _]; (split; [exact Hk|]); [done|done|by apply He].
  - destruct (node_pump (node p) bytes sched) as [r1 n1] eqn:Ep.
    destruct (pump_extends (node p) n1 bytes r1) as [Hk He]; [done..| |].
    { intros d' Hd'. assert (d' = d) as -> by congruence. by rewrite Et. }
    destruct r1 as [tip|e]; intros [= <- <- _]; (split; [exact Hk|]); [done|by apply He].
Qed.

Definition rollback_target (snaps : BTreeMap Z (list Z)) (point : ChainSync.Point) : Prop :=
  match point with
  | Origin => True
  | Block slot _ => slot0 <= slot /\ on_calendar seed slot /\ forall s bytes, bt_get snaps s = Some bytes -> s <= slot
  end.

Lemma peer_rollback_keeps p point k r p' :
  spine_ok (node p) -> parent_linked (chain (node p)) -> rollback_target (snapshots (nd_db (node p))) point ->
  resolve_and_apply_peer_rollback (L := L) (A := A) p point sched k = (r, p') ->
  linked_ok (node p) (node p') /\ peer_error r.
Proof.
  intros Hn Hl Ht. pose proof (linked_refl _ Hn Hl) as Hsame. unfold resolve_and_apply_peer_rollback.
  destruct point as [|slot hash]; [by intros [= <- <-]|]. destruct (match recovered_anchor _ with Some _ => _ | None => _ end);
    [by intros [= <- <-]|].
  destruct (mem_get_block_by_hash (nd_db (node p)) hash) as [b|] eqn:Eb; [|by intros [= <- <-]].
  destruct (Z.eqb_spec slot (sb_slot b)) as [->|]; cbn [negb]; [|by intros [= <- <-]].
  apply hash_stored in Eb as [Hb <-]; [|done]. destruct Ht as (H0 & Hcal & Hsnap).
  destruct (accumulator_admit_and_clear_for_rollback _ _ _ _) as [[u|f] acc]; [|by intros [= <- <-]; destruct f].
  unfold node_apply at 1. cbn [with_accumulator node apply_chain_event pt_slot pt_hash].
  destruct (apply_rolled_back _ _ _ _ _ _ _) as [[[r1 fwd] db] wal] eqn:Er.
  destruct (rolled_back_exact seed pools bs0 ks0 s0 slot0 anchor eta0 slot_of Hbase (node p) b PeerRollBackward sched HV
              r1 fwd db wal) as (-> & Hn1 & ks & s & Hg & En); [by auto..|].
  assert (Hk : linked_ok (node p) (mk_Node fwd db wal)).
  { split; [done|]. rewrite En. cbn [gone_back nd_db]. split; [|apply rollback_snapshots].
    unfold chain, gone_back. cbn [nd_db]. rewrite stored_rollback; [by apply up_to_linked|].
    apply (sp_db _ _ _ _ _ _ _ _ _ _ Hn). }
  destruct (accumulator_recertify_settled_after_rollback _ _ _) as [[v|f] acc2]; by intros [= <- <-].
Qed.

(** What the items of a peer may be: blocks whose slot and hash are those of one block, and
    rollbacks to slots the snapshots do not go beyond. *)
Definition item_ok (snaps : BTreeMap Z (list Z)) (item : NodeSyncItem) : Prop :=
  match item with
  | Item_Block _ bytes => forall d, decode_block bytes = Ok d -> in_order d
  | Item_RollBack _ point => rollback_target snaps point
  end.

Lemma linked_trans n1 n2 n3 : linked_ok n1 n2 -> linked_ok n2 n3 -> linked_ok n1 n3.
Proof. intros (_ & _ & E1) (H1 & H2 & E2). split; [done|]. split; [done|congruence]. Qed.

Lemma sync_items_keep items : forall p rivals k r p' rivals',
  spine_ok (node p) -> parent_linked (chain (node p)) -> Forall (item_ok (snapshots (nd_db (node p)))) items ->
  sync_items (L := L) (A := A) p rivals items sched k = (r, p', rivals') ->
  linked_ok (node p) (node p') /\ peer_error r.
Proof.
  induction items as [|item items IH]; intros p rivals k r p' rivals' Hn Hl Hi; cbn [sync_items].
  { intros [= <- <- _]. by split; [apply linked_refl|]. }
  apply Forall_cons in Hi as [Hi Hitems].
  assert (Hstep : forall r1 p1 rivals1,
    match item with
    | Item_Block peer bytes => sync_block p rivals peer bytes sched k
    | Item_RollBack _ point =>
        let '(r, p) := resolve_and_apply_peer_rollback p point sched k in (r, p, rivals)
    end = (r1, p1, rivals1) -> linked_ok (node p) (node p1) /\ peer_error r1).
  { intros r1 p1 rivals1. destruct item as [peer bytes|peer point].
    - by apply sync_block_keeps.
    - destruct (resolve_and_apply_peer_rollback p point sched k) as [r0 p0] eqn:E. intros [= <- <- _].
      by eapply peer_rollback_keeps. }
  destruct (match item with Item_Block _ _ => _ | Item_RollBack _ _ => _ end) as [[r1 p1] rivals1].
  destruct (Hstep r1 p1 rivals1 eq_refl) as [Hk He]. destruct r1 as [u|e]; [|by intros [= <- <- _]].
  pose proof Hk as (Hn1 & Hl1 & Hs1). intros Hrest. apply IH in Hrest as [Hk' He']; [|done|done|by rewrite Hs1].
  split; [by eapply linked_trans|done].
Qed.

End Node.

(** * Participation *)

Section Participation.
Context (seed : EraSummary) (pools : Z -> Hash28 -> option Hash32) `{HG : !GridRules seed, HL : !WalStoreLaws L}.
Context (bs0 : list StoredBlock) (ks0 : list Link) (s0 : State) (slot0 : Z) (anchor : Hash32)
  (eta0 : option Nonce) (slot_of : Hash32 -> Z).
Context (Hbase : base_ok bs0 ks0 s0 slot0 anchor) `{HSL : !SnapshotCodecLaws}.
Context (Hnonce : eta0 = None \/ epoch_nonce (snd s0) <> nonce_ZERO).
Context (Hlog : forall wal e, exists u w, wal_append (WalStore := HW) wal e = (Ok u, w)).
#[local] Abbreviation spine_ok := (spine_ok seed pools bs0 ks0 s0 slot0 anchor eta0 slot_of).
#[local] Abbreviation Participation := (Participation (L := L) (A := A)).

(** One turn of the relay: the items of a peer, a fork switch the selector decided, a snapshot. *)
Inductive participation_step (p : Participation) : Participation -> Prop :=
| step_items sched view items k r p' :
    uniform seed sched -> faithful pools view ->
    Forall (item_ok seed slot0 slot_of (snapshots (nd_db (node p)))) items ->
    @run_participant_sync _ _ _ _ _ _ _ _ _ view p items sched k = (r, p') -> participation_step p p'
| step_switch sched view switch source k r p' b :
    uniform seed sched -> faithful pools view -> b ∈ chain (node p) ->
    fork_anchor switch = mk_ForkAnchor (sb_slot b) (sb_hash b) (fa_block_no (fork_anchor switch)) ->
    slot0 <= sb_slot b -> on_calendar seed (sb_slot b) -> no_snapshot_above (node p) (sb_slot b) ->
    (forall slot bytes d, source (winning_peer switch) slot = Ok bytes -> decode_block bytes = Ok d ->
       in_order slot0 slot_of d) ->
    @apply_fork_switch _ _ _ _ _ _ _ _ _ view p switch source sched k = (r, p') -> participation_step p p'
| step_snapshot slot r db' :
    last_slot (snd (node_state (node p))) = Some slot ->
    persistent_capture (nd_db (node p)) slot (fst (node_state (node p))) (snd (node_state (node p))) = (r, db') ->
    participation_step p (with_node p (mk_Node (nd_fwd (node p)) db' (nd_wal (node p)))).

Lemma participation_keeps p p' : participation_step p p' -> spine_ok (node p) -> parent_linked (chain (node p)) ->
  spine_ok (node p') /\ parent_linked (chain (node p')).
Proof.
  destruct 1 as [sched view items k r p' Hu Hf Hi Hr|sched view switch source k r p' b Hu Hf Hb Ha H0 Hcal Hs Ho Hr
                |slot r db' Hlast Hc]; intros Hn Hl.
  - unfold run_participant_sync in Hr. destruct (sync_items _ _ _ _ _) as [[r1 p1] rivals] eqn:E. injection Hr as <- <-.
    apply (sync_items_keep seed pools bs0 ks0 s0 slot0 anchor eta0 slot_of Hbase sched Hu Hf Hlog) in E as [(Hn' & Hl' & _) _]; by auto.
  - pose proof (fork_switch_cases seed pools bs0 ks0 s0 slot0 anchor eta0 slot_of Hbase sched Hu Hf p switch source k r p' b) as Hm.
    specialize (Hm ltac:(by split) Hr). destruct r as [[tip prev|e]|e]; [|by rewrite Hm|].
    + destruct Hm as (Hn' & blocks & _ & _ & Hlk & _). split; [done|]. by apply Hlk.
    + destruct Hm as [[-> _]|(w & (wal & entry & wal' & Hw) & _)]; [done|]. destruct (Hlog wal entry) as (u & l & Hok). congruence.
  - split; [by eapply capture_keeps|]. unfold persistent_capture, put_snapshot, put_once in Hc.
    destruct (encode_snapshot _ _); [|by injection Hc as <- <-].
    destruct (bt_get _ _); [destruct (negb _)|]; by injection Hc as <- <-.
Qed.

(** C18. Along any participation ([participation_step]: the items of a peer, fork switches proven or
    not, snapshots) in which no append to the log fails, the blocks come after the node's start with
    hashes that tell their slots, and every rollback and fork switch goes to a slot on the calendar, at
    or above the start, with no snapshot above it, a node whose parts agree stays so: state, database,
    log and snapshots; and its chain stays linked, every block the child of the block before it, though
    neither the pump nor block validation looks at the parent.  Without the condition on snapshots
    [stale_snapshot_rebuilds_another_fork] (SpineExamples) is a counterexample. *)
Theorem participation_exact p p' (Hn : spine_ok (node p)) (Hl : parent_linked (chain (node p)))
    (Hrun : rtc participation_step p p') :
  spine_ok (node p') /\ parent_linked (chain (node p')).
Proof.
  induction Hrun as [|p1 p2 p3 Hstep _ IH]; [done|].
  destruct (participation_keeps _ _ Hstep Hn Hl) as [Hn2 Hl2]. by apply IH.
Qed.
End Participation.
End Facts.
