(* ===== verification/SwitchExamples.v ===== *)
(** The participant of the examples: it takes a block, another on top, and a peer's competing
    branch of two, decides for the branch and switches to it.  The last section shows where a switch
    does not do what it means to: a branch whose header skips block numbers is adopted, and the node
    then turns down every other branch. *)

From S2P Require Import Prelude Cbor EraSchedule Timing Extension Leader Kes ChainDep Header HeaderFacts ForkChoice.
From S2P Require Import NetCodec BTree ChainDb Spelling ChainSync BlockFetch Wal WalReplay BlockCodec BlockValidity.
From S2P Require Import ToyBlocks Receive ReceiveStores StoredChain ForwardSync Spine SpineFacts SpineExamples Candidates.
From S2P Require Import ForkSwitch SwitchFacts.

#[export] Instance no_accumulator : AccumulatorStore unit := {|
  AccumulatorError := unit;
  acc_seed_slot _ := Ok None;
  acc_last_advanced_point _ := Ok None;
  acc_settled_rewind_point _ := Ok None;
  acc_reset_to_settled a := (Ok false, a);
  acc_reset_to_bootstrap a := (Ok tt, a);
  acc_recertify_settled_anchor a := (Ok None, a);
|}.

Definition child_b : list Z := toy_cbor 30 6 (Prev_Block hash_a) [0x80].
Definition rival_c : list Z := toy_cbor 25 6 (Prev_Block hash_a) [0x80].
Definition rival_hash_c : Hash32 := toy_header_hash 25 6 (Prev_Block hash_a) [0x80].
Definition rival_d : list Z := toy_cbor 40 7 (Prev_Block rival_hash_c) [0x80].
Definition rival_hash_d : Hash32 := toy_header_hash 40 7 (Prev_Block rival_hash_c) [0x80].

Definition friend : Peer := [1].
Definition rival : Peer := [2].

Definition relay_0 : Participation (L := list WalEntry) (A := unit) :=
  mk_Participation node_0 None None false None None [] None None.
Definition arrivals : list NodeSyncItem :=
  [Item_Block friend block_a; Item_Block friend child_b; Item_Block rival rival_c; Item_Block rival rival_d].
Definition relay_1 : Participation :=
  snd (run_participant_sync (H := block_view) relay_0 arrivals preview 5).

Definition no_switch : PendingForkSwitch :=
  mk_PendingForkSwitch (mk_ForkAnchor 0 [] 0) [] (mk_CandidateFragment (mk_Point 0 []) 0 [] (mk_TiebreakerView 0 [] 0 []) 0)
    (mk_Point 0 []).
Definition the_switch : PendingForkSwitch := default no_switch (pending_fork_switch relay_1).
Definition served : BranchBodySource :=
  prefetched_fetch_body (prefetched_insert (prefetched_insert [] rival 25 rival_c) rival 40 rival_d).
Definition adopted_tip (r : result ForkSwitchOutcome NodeSyncError) : option (Z * Hash32) :=
  match r with Ok (Adopted t _) => Some (pt_slot t, pt_hash t) | _ => None end.

Definition switch_answer (p : Participation (L := list WalEntry) (A := unit)) (switch : PendingForkSwitch)
    (source : BranchBodySource) : result ForkSwitchOutcome NodeSyncError :=
  fst (apply_fork_switch (H := block_view) p switch source preview 5).
Definition switch_over (p : Participation (L := list WalEntry) (A := unit)) (switch : PendingForkSwitch)
    (source : BranchBodySource) : Participation (L := list WalEntry) (A := unit) :=
  snd (apply_fork_switch (H := block_view) p switch source preview 5).
Lemma switch_runs p switch source : apply_fork_switch (H := block_view) p switch source preview 5 =
  (switch_answer p switch source, switch_over p switch source).
Proof. apply surjective_pairing. Qed.

Definition relay_2 : Participation (L := list WalEntry) (A := unit) := switch_over relay_1 the_switch served.

Definition same_hashes (l l' : list Hash32) : bool := bool_decide (l = l').
Definition same_tip (t t' : option (Z * Hash32)) : bool := bool_decide (t = t').

Definition same_blocks (l l' : list StoredBlock) : bool := bool_decide (l = l').

Lemma same_blocks_eq l l' : same_blocks l l' = true -> l = l'.
Proof. apply bool_decide_eq_true. Qed.
Lemma same_tip_eq t t' : same_tip t t' = true -> t = t'.
Proof. apply bool_decide_eq_true. Qed.
Lemma same_hash_eq h h' : same_hashes [h] [h'] = true -> h = h'.
Proof. intros H%bool_decide_eq_true. by injection H. Qed.
Lemma anchor_eq (a : ForkAnchor) slot hash : (fa_slot a =? slot) && same_hashes [fa_hash a] [hash] = true ->
  a = mk_ForkAnchor slot hash (fa_block_no a).
Proof. intros [Hs%Z.eqb_eq Hh%same_hash_eq]%andb_true_iff. destruct a. cbn in *. by subst. Qed.

Definition stored_b : StoredBlock := mk_StoredBlock (toy_header_hash 30 6 (Prev_Block hash_a) [0x80]) 30 child_b.

(** The slot of each block's hash. *)
Definition rival_slot_of (h : Hash32) : Z :=
  if bool_decide (h = hash_a) then 20 else if bool_decide (h = rival_hash_c) then 25
  else if bool_decide (h = rival_hash_d) then 40 else 30.

Definition in_place (bytes : list Z) : bool :=
  match decode_block bytes with
  | Ok d => let slot := hi_slot (dk_header_input d) in
            (10 <? slot) && (slot <=? 40) && (rival_slot_of (dk_block_hash d) =? slot)
  | Err _ => false
  end.

Definition placed (item : NodeSyncItem) : bool :=
  match item with Item_Block _ bytes => in_place bytes | Item_RollBack _ _ => false end.

Definition served_bodies : list (list Z) := [rival_c; rival_d].

Lemma toy_switch_checks :
  forallb placed arrivals && forallb in_place served_bodies &&
  same_blocks (chain (node relay_1)) [stored_b; stored_a] &&
  ((fa_slot (fork_anchor the_switch) =? 20) && same_hashes [fa_hash (fork_anchor the_switch)] [hash_a]) &&
  forallb (fun s => s <=? 20) (snapshot_slots (node relay_1)) && same_hashes [winning_peer the_switch] [rival] &&
  same_tip (adopted_tip (switch_answer relay_1 the_switch served)) (Some (40, rival_hash_d)) = true.
Proof. by vm_compute. Qed.

Lemma place_in_order bytes : in_place bytes = true -> forall d, decode_block bytes = Ok d -> in_order 10 rival_slot_of d.
Proof.
  unfold in_place. intros Hp d Ed. rewrite Ed in Hp.
  apply andb_true_iff in Hp as [[H1%Z.ltb_lt H2%Z.leb_le]%andb_true_iff H3%Z.eqb_eq].
  unfold in_order. rewrite H3. split; [small|]. by split.
Qed.

#[local] Opaque run_participant_sync apply_fork_switch.

#[local] Abbreviation relay_ok := (spine_ok preview_seed toy_pools [] [] toy_start 10 toy_anchor None rival_slot_of).

Lemma relay_ok_0 : relay_ok node_0.
Proof. destruct toy_ok_0 as [? ? ? _ ? ? ? ?]. split; try assumption. by intros b ?%not_elem_of_nil. Qed.

Lemma list_log_appends (wal : list WalEntry) e : exists u w, wal_append wal e = (Ok u, w).
Proof. by eexists _, _. Qed.

Lemma served_from slot bytes : served rival slot = Ok bytes -> bytes ∈ served_bodies.
Proof.
  unfold served, prefetched_fetch_body, prefetched_insert. intros H%ok_or_ok.
  destruct (decide (slot = 40)) as [->|Hne].
  - rewrite get_insert in H. injection H as <-. apply list_elem_of_further, list_elem_of_here.
  - rewrite get_insert_ne in H by congruence. destruct (decide (slot = 25)) as [->|Hne'].
    + rewrite get_insert in H. injection H as <-. apply list_elem_of_here.
    + by rewrite get_insert_ne in H by congruence.
Qed.

#[local] Abbreviation relay_step := (participation_step preview_seed toy_pools 10 rival_slot_of).

Lemma relay_items p items : forallb placed items = true ->
  relay_step p (snd (run_participant_sync (H := block_view) p items preview 5)).
Proof.
  intros Hi. destruct (run_participant_sync p items preview 5) as [r p'] eqn:E.
  apply (step_items _ _ _ _ _ preview block_view items 5 r p'); [exact preview_uniform|exact block_view_faithful| |exact E].
  clear E. induction items as [|[peer bytes|peer point] items IH]; [constructor| |discriminate Hi].
  apply andb_true_iff in Hi as [Hb Hi]. constructor; [exact (place_in_order _ Hb)|by apply IH].
Qed.

Lemma relay_arrivals : rtc relay_step relay_0 relay_1.
Proof.
  pose proof toy_switch_checks as Hc.
  apply andb_true_iff in Hc as [[[[[[Ha _]%andb_true_iff _]%andb_true_iff _]%andb_true_iff _]%andb_true_iff _]%andb_true_iff _].
  apply rtc_once. exact (relay_items relay_0 arrivals Ha).
Qed.

Lemma relay_exact : relay_ok (node relay_1) /\ parent_linked (chain (node relay_1)).
Proof.
  assert (Hp : forall p p', rtc (participation_step preview_seed toy_pools 10 rival_slot_of) p p' ->
    relay_ok (node p) -> parent_linked (chain (node p)) -> relay_ok (node p') /\ parent_linked (chain (node p'))).
  { induction 1 as [|p1 p2 p3 Hs _ IH]; [done|]. intros Hn Hl.
    destruct (participation_keeps preview_seed toy_pools [] [] toy_start 10 toy_anchor None rival_slot_of toy_base
      (or_introl eq_refl) list_log_appends _ _ Hs Hn Hl) as [Hn2 Hl2]. by apply IH. }
  exact (Hp relay_0 relay_1 relay_arrivals relay_ok_0 I).
Qed.

(** The facts about the switch that evaluation gives. *)
Lemma switch_facts :
  chain (node relay_1) = [stored_b; stored_a] /\
  fork_anchor the_switch = mk_ForkAnchor 20 hash_a (fa_block_no (fork_anchor the_switch)) /\
  winning_peer the_switch = rival /\ no_snapshot_above (node relay_1) 20 /\
  (forall bytes d, bytes ∈ served_bodies -> decode_block bytes = Ok d -> in_order 10 rival_slot_of d) /\
  adopted_tip (switch_answer relay_1 the_switch served) = Some (40, rival_hash_d).
Proof.
  pose proof toy_switch_checks as Hc.
  apply andb_true_iff in Hc as [[[[[[_ Hx]%andb_true_iff Hch]%andb_true_iff Hf]%andb_true_iff
    Hs]%andb_true_iff Hw]%andb_true_iff Ht].
  split; [exact (same_blocks_eq _ _ Hch)|]. split; [exact (anchor_eq _ _ _ Hf)|].
  split; [exact (same_hash_eq _ _ Hw)|]. split; [|split; [|exact (same_tip_eq _ _ Ht)]].
  - apply snapshots_below; [|exact Hs]. apply (sp_ordered _ _ _ _ _ _ _ _ _ _ (proj1 relay_exact)).
  - intros bytes d Hb. rewrite forallb_forall in Hx. exact (place_in_order _ (Hx _ (proj1 (list_elem_of_In _ _) Hb)) d).
Qed.

Lemma adopted_means r slot hash : adopted_tip r = Some (slot, hash) ->
  exists prev, r = Ok (Adopted (ForkChoice.mk_Point slot hash) prev).
Proof. destruct r as [[[s h] prev|e]|e]; [|discriminate..]. intros [= <- <-]. by exists prev. Qed.

Lemma stored_a_in : stored_a ∈ chain (node relay_1).
Proof. rewrite (proj1 switch_facts). apply list_elem_of_further, list_elem_of_here. Qed.

Lemma stored_a_slot : 10 <= sb_slot stored_a <= 40.
Proof. cbn. lia. Qed.

Lemma served_in_order slot bytes d :
  served (winning_peer the_switch) slot = Ok bytes -> decode_block bytes = Ok d -> in_order 10 rival_slot_of d.
Proof.
  destruct switch_facts as (_ & _ & -> & _ & Hord & _). intros Hs Hd. exact (Hord _ _ (served_from _ _ Hs) Hd).
Qed.

Lemma fork_switch_all_or_nothing_witness :
  adopted_tip (switch_answer relay_1 the_switch served) = Some (40, rival_hash_d) /\ relay_ok (node relay_2) /\
  switched relay_1 relay_2 the_switch (ForkChoice.mk_Point 40 rival_hash_d).
Proof.
  destruct switch_facts as (_ & Ha & _ & Hs & _ & Ht). split; [exact Ht|].
  destruct (adopted_means _ _ _ Ht) as [prev Hr].
  destruct (fork_switch_all_or_nothing preview_seed toy_pools [] [] toy_start 10 toy_anchor None rival_slot_of toy_base
    preview preview_uniform block_view_faithful relay_1 the_switch served 5
    (switch_answer relay_1 the_switch served) relay_2 (switch_runs relay_1 the_switch served)) as [_ Hm].
  destruct (Hm stored_a) as [Hadopted _]; [|exact (Hadopted _ _ Hr)].
  split; [exact (proj1 relay_exact)|exact stored_a_in|exact Ha|exact (proj1 stored_a_slot)
    |exact (toy_on_calendar 20 ltac:(lia))|exact Hs|exact served_in_order].
Defined.

Lemma relay_switched p switch source b : b ∈ chain (node p) ->
  fork_anchor switch = mk_ForkAnchor (sb_slot b) (sb_hash b) (fa_block_no (fork_anchor switch)) ->
  10 <= sb_slot b <= 40 -> no_snapshot_above (node p) (sb_slot b) ->
  (forall slot bytes d, source (winning_peer switch) slot = Ok bytes -> decode_block bytes = Ok d ->
     in_order 10 rival_slot_of d) ->
  relay_step p (switch_over p switch source).
Proof.
  intros Hb Ha Hs Hsnap Hord. unfold switch_over. destruct (apply_fork_switch _ _ _ _ _) as [r p'] eqn:E.
  apply (step_switch _ _ _ _ _ preview block_view switch source 5 r p' b); [exact preview_uniform|exact block_view_faithful
    |exact Hb|exact Ha|lia|by apply toy_on_calendar|exact Hsnap|exact Hord|exact E].
Qed.

Lemma relay_run : rtc relay_step relay_0 relay_2.
Proof.
  destruct switch_facts as (_ & Ha & _ & Hs & _).
  pose proof (relay_switched relay_1 the_switch served stored_a stored_a_in Ha stored_a_slot Hs
    served_in_order) as Hstep.
  transitivity relay_1; [exact relay_arrivals|]. apply rtc_once. exact Hstep.
Qed.

Lemma participation_exact_witness : relay_ok (node relay_2) /\ parent_linked (chain (node relay_2)).
Proof.
  exact (participation_exact preview_seed toy_pools [] [] toy_start 10 toy_anchor None rival_slot_of toy_base
    (or_introl eq_refl) list_log_appends relay_0 relay_2 relay_ok_0 I relay_run).
Defined.

(** * Skipped block numbers *)

(** Validation asks for a higher block number, not for the next one. *)
Definition jump : list Z := toy_cbor 25 1000 (Prev_Block hash_a) [0x80].
Definition jump_hash : Hash32 := toy_header_hash 25 1000 (Prev_Block hash_a) [0x80].

(** The honest chain on block A. *)
Definition honest_1 : list Z := toy_cbor 30 6 (Prev_Block hash_a) [0x80].
Definition honest_hash_1 : Hash32 := toy_header_hash 30 6 (Prev_Block hash_a) [0x80].
Definition honest_2 : list Z := toy_cbor 31 7 (Prev_Block honest_hash_1) [0x80].

Definition sync (p : Participation (L := list WalEntry) (A := unit)) (items : list NodeSyncItem) :
    Participation (L := list WalEntry) (A := unit) :=
  snd (run_participant_sync (H := block_view) p items preview 5).

Definition jumped_1 : Participation := sync relay_0 [Item_Block friend block_a; Item_Block rival jump].
Definition jumped_2 : Participation :=
  switch_over jumped_1 (default no_switch (pending_fork_switch jumped_1))
    (prefetched_fetch_body (prefetched_insert [] rival 25 jump)).
Definition jumped_3 : Participation := sync jumped_2 [Item_Block friend honest_1; Item_Block friend honest_2].

Definition decided (p : Participation (L := list WalEntry) (A := unit)) : bool :=
  match pending_fork_switch p with Some _ => true | None => false end.
Definition stands_on (p : Participation (L := list WalEntry) (A := unit)) (hashes : list Hash32) : bool :=
  same_hashes (map sb_hash (chain (node p))) hashes.

(** From block A the branch of one block wins; with its number as the tip's, the longer honest
    branch looks too deep a rollback and is not even decided for, while the same branch wins on
    a node that adopted no such block. *)
Lemma skipped_numbers_lock_the_node :
  decided jumped_1 && stands_on jumped_2 [jump_hash; hash_a] &&
  negb (decided jumped_3) && stands_on jumped_3 [jump_hash; hash_a] &&
  decided (sync (sync relay_0 [Item_Block friend block_a; Item_Block friend (toy_cbor 25 6 (Prev_Block hash_a) [0x80])])
             [Item_Block rival honest_1; Item_Block rival honest_2]) = true.
Proof. by vm_compute. Qed.
