(* ===== verification/ServedBlocks.v ===== *)
(** Serving what was validated: the served chain of [Served.v] on the block decoder of
    [BlockValidity.v] and on the database of the node of [SpineFacts.v].

    [Served.v] proves its theorems for every decoder and every database that keeps its laws; here
    the decoder is the node's own, and the database one that only validated blocks entered. *)

From S2P Require Import Prelude NetCodec Cbor Envelope EraSchedule Timing Extension Leader Kes ChainDep Header ForkChoice WireCodec ChainSync ChainSyncServer Spelling.
From S2P Require Import BTree ChainDb BlockCodec BlockValidity BlockBinding Wal WalReplay Receive ReceiveStores StoredChain.
From S2P Require Import ForwardSync Spine SpineFacts Served ToyBlocks SpineExamples.

(** * The decoder of the node *)

Section Decode.
Context `{HC : Crypto, HB : !Blake224, HR : LedgerRules}.

(** The servers drop the errors and keep these fields. *)
Definition served_fields (d : BlockValidity.DecodedBlock) : Served.DecodedBlock :=
  Served.mk_DecodedBlock (dk_era d) (hi_slot (dk_header_input d)) (hi_block_no (dk_header_input d))
    (dk_block_hash d) (prev_block_hash (dk_prev_hash d)).

Definition ok {A E} (r : result A E) : option A := match r with Ok a => Some a | Err _ => None end.

#[export] Instance block_decode : BlockDecode := {|
  Served.decode_block bytes := served_fields <$> ok (BlockValidity.decode_block bytes);
  Served.block_header_bytes bytes := ok (BlockValidity.block_header_bytes bytes);
|}.

(** A block that decodes has a header, and its hash is the header's. *)
Lemma decoded_header bytes d : BlockValidity.decode_block bytes = Ok d ->
  exists header, BlockValidity.block_header_bytes bytes = Ok header /\ blake2b_256 header = dk_block_hash d.
Proof.
  unfold BlockValidity.decode_block, BlockValidity.block_header_bytes.
  intros Hd. apply rbind_ok_inv in Hd as (env & -> & Hd). cbn [rbind] in *.
  apply rbind_ok_inv in Hd as (p & _ & Hd). apply rbind_ok_inv in Hd as (u & _ & Hd).
  apply rbind_ok_inv in Hd as (header & -> & Hd). apply rbind_ok_inv in Hd as (hi & _ & Hd).
  injection Hd as <-. by exists header.
Qed.

(** A stored block of the kind the node stores: its bytes decode, to the hash it is stored under. *)
Definition decodes (b : StoredBlock) : Prop :=
  exists d, BlockValidity.decode_block (sb_bytes b) = Ok d /\ sb_hash b = dk_block_hash d.

Definition sized (b : StoredBlock) : Prop := bytes_ok (sb_bytes b) /\ blen (sb_bytes b) <= isize_max.

Lemma decodes_servable slot b : decodes b -> sized b -> servable (slot, b).
Proof.
  intros (d & Ed & Eh) [Hb Hl]. destruct (decoded_header _ _ Ed) as (header & Hh & _).
  exists (served_fields d), header. unfold Served.decode_block, Served.block_header_bytes. cbn [block_decode snd].
  rewrite Ed, Hh. split_and!; done.
Qed.
End Decode.

(** * The node serves what it validated *)

Section Serving.
Context `{HC : Crypto, HE : Ed25519, HB : !Blake224, HR : LedgerRules, HS : !SnapshotCodec}.
Context {L : Type} `{HW : WalStore L}.
Context (seed : EraSummary) (pools : Z -> Hash28 -> option Hash32) `{HG : !GridRules seed, HL : !WalStoreLaws L}.
Context (bs0 : list StoredBlock) (ks0 : list Link) (s0 : State) (slot0 : Z) (anchor : Hash32)
  (eta0 : option Nonce) (slot_of : Hash32 -> Z).

#[local] Abbreviation Node := (Node (L := L)).
#[local] Abbreviation spine_ok := (spine_ok (L := L) seed pools bs0 ks0 s0 slot0 anchor eta0 slot_of).

(** What the servers of a node read. *)
Definition served_by (n : Node) : ChainDbServedSource Inner := mk_ServedSource (nd_db n).

(** The blocks of the node past a point, oldest first. *)
Definition block_key (b : StoredBlock) : Key := (sb_slot b, sb_hash b).
Definition blocks_after (n : Node) (p : Point) : list StoredBlock :=
  List.filter (fun b => ChainSyncServer.after (point_key p) (block_key b)) (reverse (chain n)).

Lemma grown_decodes bs ks s : grown seed pools bs0 ks0 s0 slot0 bs ks s -> Forall decodes bs0 -> Forall decodes bs.
Proof.
  induction 1 as [|bs ks s b s' i _ IH Hacc _]; [done|]. intros H0. constructor; [|by apply IH].
  destruct Hacc as [(d & Ed & _ & Eh) _]. by exists d.
Qed.

Context (n : Node) (Hn : spine_ok n) (H0 : Forall decodes bs0) (Hsized : Forall sized (chain n)).

Lemma chain_decodes : Forall decodes (chain n).
Proof. destruct (sp_chain _ _ _ _ _ _ _ _ _ _ Hn) as (ks & ts & Hg & _). by apply (grown_decodes _ _ _ Hg). Qed.

Lemma by_slot_chain e : e ∈ by_slot (nd_db n) -> snd e ∈ chain n /\ fst e = sb_slot (snd e).
Proof.
  destruct e as [s b]. intros He. split; [|symmetry; exact (stored_slot _ (sp_db _ _ _ _ _ _ _ _ _ _ Hn) _ _ He)].
  unfold chain, stored_chain. rewrite elem_of_reverse. by apply (list_elem_of_fmap_2 snd _ (s, b)).
Qed.

Lemma served_ok_node : served_ok (served_by n).
Proof.
  split; [exact (sp_db _ _ _ _ _ _ _ _ _ _ Hn)|]. apply Forall_forall. intros e He.
  destruct (by_slot_chain _ He) as [Hc _]. destruct e as [s b]. cbn [snd] in Hc.
  apply decodes_servable; [exact (proj1 (Forall_forall _ _) chain_decodes _ Hc)|exact (proj1 (Forall_forall _ _) Hsized _ Hc)].
Qed.

(** What is announced of a block. *)
Definition announces (b : StoredBlock) (p : HeaderProjection) : Prop :=
  hp_key p = block_key b /\ blake2b_256 (hp_header_bytes p) = sb_hash b /\
  BlockValidity.block_header_bytes (sb_bytes b) = Ok (hp_header_bytes p).

Lemma project_announces s b : decodes b -> s = sb_slot b -> exists p, project (s, b) = Some p /\ announces b p.
Proof.
  intros (d & Ed & Eh) ->. destruct (decoded_header _ _ Ed) as (header & Hh & Hx).
  unfold project. cbn [fst snd]. unfold Served.decode_block, Served.block_header_bytes. cbn [block_decode].
  rewrite Ed, Hh. cbn. eexists. split; [done|]. split_and!; cbn.
  - unfold hp_key, block_key. cbn. by rewrite Eh.
  - by rewrite Hx.
  - done.
Qed.

Lemma projected c (m : list (Z * StoredBlock)) :
  (forall e, e ∈ m -> decodes (snd e) /\ fst e = sb_slot (snd e)) ->
  Forall2 announces (List.filter (fun b => ChainSyncServer.after c (block_key b)) (map snd m))
    (List.filter (fun p => ChainSyncServer.after c (hp_key p)) (omap project m)).
Proof.
  induction m as [|[s b] m IH]; intros Hm; [constructor|]. cbn [map snd].
  destruct (Hm (s, b)) as [Hd Hs]; [apply list_elem_of_here|]. cbn [fst snd] in Hd, Hs.
  destruct (project_announces s b Hd Hs) as (p & Hp & Ha). cbn [omap list_omap]. rewrite Hp.
  cbn [List.filter]. rewrite (proj1 Ha).
  assert (IH' := IH (fun e He => Hm e (list_elem_of_further _ _ _ He))).
  destruct (ChainSyncServer.after c (block_key b)); [by constructor|done].
Qed.

Lemma served_announces p : Forall2 announces (blocks_after n p) (successors (served_by n) (point_key p)).
Proof.
  unfold blocks_after, chain, stored_chain. rewrite reverse_involutive. apply projected. intros e He.
  destruct (by_slot_chain _ He) as [Hc Hs]. split; [|done]. exact (proj1 (Forall_forall _ _) chain_decodes _ Hc).
Qed.
(** The announcement of one block, under the tip of the node. *)
Definition sends (b : StoredBlock) (r : ServerStep) : Prop := exists e header,
  BlockValidity.block_header_bytes (sb_bytes b) = Ok header /\ blake2b_256 header = sb_hash b /\
  r = Step_Reply (ChainSyncServer.roll_forward (compose_rollforward_header e header) (tip_from_lookup (served_by n))).

Lemma sends_rolled bs ps : Forall2 announces bs ps -> Forall2 sends bs (map (rolled (served_by n)) ps).
Proof.
  induction 1 as [|b p bs ps (_ & Hx & Hh) _ IH]; constructor; [|done].
  exists (hp_era p), (hp_header_bytes p). by split_and!.
Qed.

(** C30. A follower of the node is sent what the node validated.  Whatever the node pumped, rolled
    back and switched to, a client that agrees with it on a point and keeps asking receives, oldest
    first and once each, the header of every block of the node's chain past that point, as it
    stands in the block and hashing to the block's hash; then it is told to wait. *)
Theorem follower_gets_validated_chain version points p state
    (Hv : version <= MAX_VERSION) (Hidle : ps_state state = CS_Idle)
    (Hp : find_intersect (served_by n) points = Some p) :
  exists st st' replies,
    producer_chain_sync_serve state (FindIntersect points) (served_by n) version =
      Ok (st, Step_Reply (intersect_found p (tip_from_lookup (served_by n)))) /\
    request_n version (length (blocks_after n p)) st (served_by n) = Ok (st', replies) /\
    Forall2 sends (blocks_after n p) replies /\
    producer_chain_sync_serve st' RequestNext (served_by n) version =
      Ok (mk_ServerState MustReply (last_announced st'), Step_Reply await_reply).
Proof.
  destruct (serves_successors version Hv (served_by n) served_ok_node _ (point_key p) eq_refl) as [E1 E2].
  rewrite (Forall2_length _ _ _ (served_announces p)).
  eexists _, _, _. split_and!; [|exact E1|exact (sends_rolled _ _ (served_announces p))|exact E2].
  unfold producer_chain_sync_serve, chain_sync_transition. rewrite Hidle.
  destruct (Z.ltb_spec MAX_VERSION version); [lia|]. destruct points as [|q points]; [done|].
  cbn [map_err rbind last_announced]. rewrite Hp. by destruct p.
Qed.
End Serving.

(** * On the small node *)

Definition all_sized (bs : list StoredBlock) : bool :=
  forallb (fun b => all_bytes (sb_bytes b) && (blen (sb_bytes b) <=? isize_max)) bs.
Lemma all_sized_ok bs : all_sized bs = true -> Forall sized bs.
Proof.
  unfold all_sized. intros H. apply Forall_forall. intros b Hb%list_elem_of_In.
  pose proof (proj1 (forallb_forall _ _) H _ Hb) as Hx. clear H. apply andb_true_iff in Hx as [H1 H2].
  split; [by apply all_bytes_ok|by apply Z.leb_le].
Qed.

Definition is_point (slot : Z) (hash : list Z) (o : option Point) : bool :=
  match o with Some (Block s h) => (s =? slot) && bool_decide (h = hash) | _ => false end.
Lemma is_point_ok slot hash o : is_point slot hash o = true -> o = Some (Block slot hash).
Proof. destruct o as [[|s h]|]; cbn; [done| |done]. by intros [->%Z.eqb_eq ->%bool_decide_eq_true]%andb_true_iff. Qed.

Definition toy_served : ChainDbServedSource Inner := served_by (L := list WalEntry) node_asbac.
Lemma toy_served_checks : all_sized (chain node_asbac) && is_point 20 hash_a (find_intersect toy_served [Block 20 hash_a; Origin]) &&
  (length (blocks_after node_asbac (Block 20 hash_a)) =? 1)%nat = true.
Proof. by vm_compute. Qed.

#[local] Opaque node_asbac.

Lemma follower_gets_validated_chain_witness :
  exists st st' replies,
    producer_chain_sync_serve (mk_ServerState CS_Idle None) (FindIntersect [Block 20 hash_a; Origin]) toy_served 10 =
      Ok (st, Step_Reply (intersect_found (Block 20 hash_a) (tip_from_lookup toy_served))) /\
    request_n 10 (length (blocks_after node_asbac (Block 20 hash_a))) st toy_served = Ok (st', replies) /\
    Forall2 (sends node_asbac) (blocks_after node_asbac (Block 20 hash_a)) replies /\
    producer_chain_sync_serve st' RequestNext toy_served 10 =
      Ok (mk_ServerState MustReply (last_announced st'), Step_Reply await_reply).
Proof.
  pose proof toy_served_checks as Hc. apply andb_true_iff in Hc as [[Hsz%all_sized_ok Hp%is_point_ok]%andb_true_iff _].
  exact (follower_gets_validated_chain preview_seed toy_pools [] [] toy_start 10 toy_anchor None toy_slot_of node_asbac
    (run_keeps no_checkpoint preview_seed toy_pools [] [] toy_start 10 toy_anchor None toy_slot_of toy_base (or_introl eq_refl)
       node_0 node_asbac (proj1 toy_run) toy_ok_0)
    (Forall_nil_2 decodes) Hsz 10 [Block 20 hash_a; Origin] (Block 20 hash_a) (mk_ServerState CS_Idle None)
    ltac:(vm_compute; discriminate) eq_refl Hp).
Defined.
