(* ===== verification/NativeScript.v ===== *)
(** Native scripts: the flat post-order form of [ade_types/src/allegra/script.rs], the iterative
    decoder of [ade_codec/src/allegra/script.rs] and the evaluator of [ade_ledger/src/scripts.rs].

    A script is held as the nodes of one tree, root last, so that nothing in the code recurses on its
    depth.  The specification is the tree: the theorem says that whatever the decoder returns is the
    node sequence of exactly one tree, that evaluating the sequence on a stack is evaluating that
    tree, and that it passes exactly when the tree's conditions hold. *)

From S2P Require Import Prelude Cbor CborSkip CborRoundtrip CborPrefix NetCodec Spelling Decoder EraSchedule Leader BTree BlockCodec BlockFacts.

(** * The flat form *)

Inductive NativeScriptNode : Type :=
| Node_Sig (key_hash : Hash28)
| Node_All (arity : Z)
| Node_Any (arity : Z)
| Node_MOfN (threshold arity : Z)
| Node_InvalidBefore (slot : Z)
| Node_InvalidHereafter (slot : Z).

Definition node_arity (n : NativeScriptNode) : Z :=
  match n with
  | Node_All a | Node_Any a | Node_MOfN _ a => a
  | Node_Sig _ | Node_InvalidBefore _ | Node_InvalidHereafter _ => 0
  end.

Record NativeScript : Type := mk_NativeScript { nodes : list NativeScriptNode }.
Inductive MalformedPostOrder : Type := NotOneTree.

(** The scripts completed and not yet owned, after each node. *)
Fixpoint pending_after (pending : Z) (l : list NativeScriptNode) : option Z :=
  match l with
  | [] => Some pending
  | n :: l => if pending <? node_arity n then None else pending_after (pending - node_arity n + 1) l
  end.

Definition from_post_order (l : list NativeScriptNode) : result NativeScript MalformedPostOrder :=
  match pending_after 0 l with
  | Some pending => if pending =? 1 then Ok (mk_NativeScript l) else Err NotOneTree
  | None => Err NotOneTree
  end.

(** The constructors. *)
Definition leaf (n : NativeScriptNode) : NativeScript := mk_NativeScript [n].
Definition composite (subs : list NativeScript) (node : Z -> NativeScriptNode) : NativeScript :=
  mk_NativeScript (concat (map nodes subs) ++ [node (blen subs)]).

(** * The decoder *)

(** A composite whose list is still being read; [open_owed = None] until a break byte. *)
Record Open : Type := mk_Open {
  open_node : Z -> Z -> NativeScriptNode;
  open_threshold : Z;
  open_owed : option Z;
  open_arity : Z;
}.

Definition i64_max : Z := 9223372036854775807.

Definition read_threshold : PDec CodecError Z := fun data off =>
  match read_any_int data off with
  | (Err e, o) => (Err e, o)
  | (Ok (arg, negative, _), o) =>
      if i64_max <? arg then (Err (InvalidCborStructure off "native script MOfN threshold outside int64"), o)
      else (Ok (if negative then -1 - arg else arg), o)
  end.

Definition open_list (node : Z -> Z -> NativeScriptNode) (threshold : Z) : PDec CodecError Open :=
  dec! enc := plift id read_array_header in
  pret (mk_Open node threshold (match enc with Definite n _ => Some n | Indefinite => None end) 0).

(** A leaf is emitted; a composite opens its list. *)
Definition read_script_head : PDec CodecError (NativeScriptNode + Open) :=
  dec! enc := plift id read_array_header in
  match enc with
  | Indefinite => bad_structure "native script must be definite-length array"
  | Definite arr_len _ =>
      dec! tag := read_u64v in
      match tag with
      | 0 =>
          dec! hash_bytes := read_bytesv in
          if negb (blen hash_bytes =? 28)
          then fun _ off => (Err (InvalidLength (off - blen hash_bytes) "native script Sig key hash must be 28 bytes"), off)
          else pret (inl (Node_Sig hash_bytes))
      | 1 => dec! o := open_list (fun _ arity => Node_All arity) 0 in pret (inr o)
      | 2 => dec! o := open_list (fun _ arity => Node_Any arity) 0 in pret (inr o)
      | 3 =>
          if negb (arr_len =? 3) then bad_structure "native script MOfN must be array(3)" else
          dec! n := read_threshold in
          dec! o := open_list Node_MOfN n in
          pret (inr o)
      | 4 => dec! slot := read_u64v in pret (inl (Node_InvalidBefore slot))
      | 5 => dec! slot := read_u64v in pret (inl (Node_InvalidHereafter slot))
      | _ => bad_structure "unknown native script constructor tag"
      end
  end.

(** What the inner loop leaves: the finished script, or the state the next head is read in. *)
Inductive Closing : Type :=
| Finished (l : list NativeScriptNode)
| NextHead (l : list NativeScriptNode) (open : list Open)
| LostPosition.

Definition with_owed (o : Open) (n : Z) : Open := mk_Open (open_node o) (open_threshold o) (Some n) (open_arity o).
Definition one_more (o : Open) : Open := mk_Open (open_node o) (open_threshold o) (open_owed o) (open_arity o + 1).

(** The inner loop; the innermost open composite is the head of the list.  It ends because every
    turn that goes on pops one. *)
Fixpoint close_lists (completed : bool) (l : list NativeScriptNode) (open : list Open) : PDec CodecError Closing :=
  fun data off =>
    match open with
    | [] => (Ok (if completed then Finished l else LostPosition), off)
    | top :: rest =>
        let top := if completed then one_more top else top in
        let pop := close_lists true (l ++ [open_node top (open_threshold top) (open_arity top)]) rest in
        match open_owed top with
        | Some n => if n =? 0 then pop data off else (Ok (NextHead l (with_owed top (n - 1) :: rest)), off)
        | None =>
            match is_break data off with
            | Err e => (Err e, off)
            | Ok false => (Ok (NextHead l (top :: rest)), off)
            | Ok true => pop data (off + 1)
            end
        end
    end.

(** The outer loop: every turn reads a head, so a turn per byte is enough. *)
Fixpoint script_loop (fuel : nat) (start : Z) (l : list NativeScriptNode) (open : list Open) (data : list Z) (off : Z) :
    option (result NativeScript CodecError * Z) :=
  match fuel with
  | O => None
  | S fuel =>
      match read_script_head data off with
      | (Err e, o) => Some (Err e, o)
      | (Ok head, o) =>
          let '(completed, l, open) :=
            match head with inl n => (true, l ++ [n], open) | inr top => (false, l, top :: open) end in
          match close_lists completed l open data o with
          | (Err e, o) => Some (Err e, o)
          | (Ok LostPosition, o) => Some (Err (InvalidCborStructure o "native script decoder lost its position"), o)
          | (Ok (Finished l), o) =>
              Some (match from_post_order l with
                    | Ok s => Ok s
                    | Err _ => Err (InvalidCborStructure start "native script nodes do not form one tree")
                    end, o)
          | (Ok (NextHead l open), o) => script_loop fuel start l open data o
          end
      end
  end.

Definition decode_native_script : PDec CodecError NativeScript := fun data off =>
  match script_loop (S (Z.to_nat (blen data - off))) off [] [] data off with
  | Some r => r
  | None => (Err (InvalidCborStructure off "native script decoder lost its position"), off)
  end.

(** * Evaluation ([scripts.rs]) *)

Inductive NativeScriptFailure : Type :=
| MissingRequiredSignature (key_hash : Hash28)
| TimelockStartNotMet (lock_start : Z) (tx_start : option Z)
| TimelockExpiryNotMet (lock_expiry : Z) (tx_expiry : option Z)
| ThresholdNotMet (required provided : Z).

Inductive PlutusFailureReason : Type := ExecutionFailed | ContextBuildFailed | BudgetExhausted.

Inductive ScriptVerdict : Type :=
| NativeScriptPassed
| NativeScriptFailed (reason : NativeScriptFailure)
| PlutusPassed (cpu mem : Z)
| PlutusFailed (cpu_attempted mem_attempted : Z) (reason : PlutusFailureReason).

#[export] Instance failure_eq_dec : EqDecision NativeScriptFailure.
Proof. solve_decision. Defined.
#[export] Instance plutus_failure_eq_dec : EqDecision PlutusFailureReason.
Proof. solve_decision. Defined.
#[export] Instance verdict_eq_dec : EqDecision ScriptVerdict.
Proof. solve_decision. Defined.

Record ValidityInterval : Type := mk_ValidityInterval { invalid_before : option Z; invalid_hereafter : option Z }.

Definition passed (v : ScriptVerdict) : bool := bool_decide (v = NativeScriptPassed).

Fixpoint first_failure (subs : list ScriptVerdict) : ScriptVerdict :=
  match subs with
  | [] => NativeScriptPassed
  | NativeScriptFailed reason :: _ => NativeScriptFailed reason
  | _ :: subs => first_failure subs
  end.

Section Evaluate.
Variables (signers : BTreeMap Hash28 unit) (interval : ValidityInterval).

Definition evaluate_node (node : NativeScriptNode) (subs : list ScriptVerdict) : ScriptVerdict :=
  match node with
  | Node_Sig key_hash =>
      if bt_contains signers key_hash then NativeScriptPassed else NativeScriptFailed (MissingRequiredSignature key_hash)
  | Node_All _ => first_failure subs
  | Node_Any _ => if existsb passed subs then NativeScriptPassed else NativeScriptFailed (ThresholdNotMet 1 0)
  | Node_MOfN threshold _ =>
      if threshold <=? 0 then NativeScriptPassed else
      let provided := blen (List.filter passed subs) in
      if threshold <=? provided then NativeScriptPassed else NativeScriptFailed (ThresholdNotMet threshold provided)
  | Node_InvalidBefore lock =>
      match invalid_before interval with
      | Some start => if lock <=? start then NativeScriptPassed else NativeScriptFailed (TimelockStartNotMet lock (Some start))
      | None => NativeScriptFailed (TimelockStartNotMet lock None)
      end
  | Node_InvalidHereafter lock =>
      match invalid_hereafter interval with
      | Some expiry => if expiry <=? lock then NativeScriptPassed else NativeScriptFailed (TimelockExpiryNotMet lock (Some expiry))
      | None => NativeScriptFailed (TimelockExpiryNotMet lock None)
      end
  end.

(** The verdicts of the nodes so far, one for each script not yet owned. *)
Fixpoint evaluate_nodes (l : list NativeScriptNode) (verdicts : list ScriptVerdict) : list ScriptVerdict :=
  match l with
  | [] => verdicts
  | n :: l =>
      let arity := Z.to_nat (Z.min (node_arity n) (blen verdicts)) in
      let kept := (length verdicts - arity)%nat in
      evaluate_nodes l (take kept verdicts ++ [evaluate_node n (drop kept verdicts)])
  end.

Definition evaluate_native_script (script : NativeScript) : ScriptVerdict :=
  default NativeScriptPassed (last (evaluate_nodes (nodes script) [])).
End Evaluate.

(** * The specification: scripts as trees *)

Inductive Timelock : Type :=
| Signature_of (key_hash : Hash28)
| All_of (l : list Timelock)
| Any_of (l : list Timelock)
| M_of (threshold : Z) (l : list Timelock)
| Not_before (slot : Z)
| Not_after (slot : Z).

Definition subscripts (t : Timelock) : list Timelock :=
  match t with All_of l | Any_of l | M_of _ l => l | _ => [] end.

Definition root_node (t : Timelock) : NativeScriptNode :=
  match t with
  | Signature_of h => Node_Sig h
  | All_of l => Node_All (blen l)
  | Any_of l => Node_Any (blen l)
  | M_of n l => Node_MOfN n (blen l)
  | Not_before s => Node_InvalidBefore s
  | Not_after s => Node_InvalidHereafter s
  end.

Fixpoint post_order (t : Timelock) : list NativeScriptNode :=
  match t with
  | All_of l | Any_of l | M_of _ l => concat (map post_order l) ++ [root_node t]
  | _ => [root_node t]
  end.

Section Meaning.
Variables (signers : BTreeMap Hash28 unit) (interval : ValidityInterval).

(** The conditions, with a missing start for -oo and a missing expiry for +oo. *)
Fixpoint satisfied (t : Timelock) : bool :=
  match t with
  | Signature_of h => bt_contains signers h
  | All_of l => forallb satisfied l
  | Any_of l => existsb satisfied l
  | M_of n l => (n <=? 0) || (n <=? blen (List.filter satisfied l))
  | Not_before lock => match invalid_before interval with Some start => lock <=? start | None => false end
  | Not_after lock => match invalid_hereafter interval with Some expiry => expiry <=? lock | None => false end
  end.

(** The verdict with its reason, by recursion on the tree. *)
Fixpoint verdict_of (t : Timelock) : ScriptVerdict :=
  evaluate_node signers interval (root_node t)
    (match t with All_of l | Any_of l | M_of _ l => map verdict_of l | _ => [] end).
End Meaning.

Fixpoint timelock_rect' (P : Timelock -> Prop) (Hsig : forall h, P (Signature_of h))
    (Hall : forall l, Forall P l -> P (All_of l)) (Hany : forall l, Forall P l -> P (Any_of l))
    (Hm : forall n l, Forall P l -> P (M_of n l)) (Hb : forall s, P (Not_before s)) (Ha : forall s, P (Not_after s))
    (t : Timelock) : P t :=
  let each := fix each l : Forall P l :=
    match l with
    | [] => @List.Forall_nil _ P
    | t :: l => @List.Forall_cons _ P t l (timelock_rect' P Hsig Hall Hany Hm Hb Ha t) (each l)
    end in
  match t with
  | Signature_of h => Hsig h
  | All_of l => Hall l (each l)
  | Any_of l => Hany l (each l)
  | M_of n l => Hm n l (each l)
  | Not_before s => Hb s
  | Not_after s => Ha s
  end.

Lemma post_order_root t : post_order t = concat (map post_order (subscripts t)) ++ [root_node t].
Proof. by destruct t. Qed.

Lemma root_arity t : node_arity (root_node t) = blen (subscripts t).
Proof. by destruct t. Qed.

Lemma verdict_root signers interval t :
  verdict_of signers interval t = evaluate_node signers interval (root_node t) (map (verdict_of signers interval) (subscripts t)).
Proof. by destruct t. Qed.

(** * Sequences of nodes are forests *)

Definition tree_of (n : NativeScriptNode) (subs : list Timelock) : Timelock :=
  match n with
  | Node_Sig h => Signature_of h
  | Node_All _ => All_of subs
  | Node_Any _ => Any_of subs
  | Node_MOfN n _ => M_of n subs
  | Node_InvalidBefore s => Not_before s
  | Node_InvalidHereafter s => Not_after s
  end.

(** The trees of a sequence, oldest first, by a stack. *)
Fixpoint grow (l : list NativeScriptNode) (ts : list Timelock) : list Timelock :=
  match l with
  | [] => ts
  | n :: l =>
      let kept := (length ts - Z.to_nat (node_arity n))%nat in
      grow l (take kept ts ++ [tree_of n (drop kept ts)])
  end.

Lemma tree_of_root t : tree_of (root_node t) (subscripts t) = t.
Proof. by destruct t. Qed.

Lemma kept_front {A} (ts subs : list A) : (length (ts ++ subs) - Z.to_nat (blen subs))%nat = length ts.
Proof. rewrite length_app. unfold blen. lia. Qed.

(** The stack machines over the nodes of a list of trees: one entry per tree. *)
Lemma machine_forest {A} (step : NativeScriptNode -> list A -> A) (run : list NativeScriptNode -> list A -> list A)
    (value : Timelock -> A) :
  (forall vs, run [] vs = vs) ->
  (forall n l vs subs, node_arity n = blen subs -> run (n :: l) (vs ++ subs) = run l (vs ++ [step n subs])) ->
  (forall t, value t = step (root_node t) (map value (subscripts t))) ->
  forall t rest vs, run (post_order t ++ rest) vs = run rest (vs ++ [value t]).
Proof.
  intros Hnil Hstep Hval.
  assert (Hlist : forall l, Forall (fun t => forall rest vs, run (post_order t ++ rest) vs = run rest (vs ++ [value t])) l ->
    forall rest vs, run (concat (map post_order l) ++ rest) vs = run rest (vs ++ map value l)).
  { intros l Hl. induction Hl as [|t l Ht _ IH]; intros rest vs; cbn [map concat]; [by rewrite app_nil_r|].
    rewrite <- app_assoc, Ht, IH. by rewrite <- app_assoc. }
  assert (Hroot : forall t, Forall (fun t => forall rest vs, run (post_order t ++ rest) vs = run rest (vs ++ [value t])) (subscripts t) ->
    forall rest vs, run (post_order t ++ rest) vs = run rest (vs ++ [value t])).
  { intros t Hs rest vs. rewrite post_order_root, <- app_assoc, Hlist by done. cbn [app].
    rewrite Hstep by (by rewrite root_arity, blen_map). by rewrite <- Hval. }
  intros t. induction t using timelock_rect'; by apply Hroot; try constructor.
Qed.

Lemma grow_forest ts : grow (concat (map post_order ts)) [] = ts.
Proof.
  assert (H : forall t rest vs, grow (post_order t ++ rest) vs = grow rest (vs ++ [t])).
  { apply (machine_forest tree_of grow (fun t => t)); [done| |].
    - intros n l vs subs Ha. cbn [grow]. by rewrite Ha, kept_front, take_app_length, drop_app_length.
    - intros t. by rewrite map_id, tree_of_root. }
  assert (G : forall vs, grow (concat (map post_order ts)) vs = vs ++ ts).
  { induction ts as [|t ts IH]; intros vs; cbn [map concat]; [by rewrite app_nil_r|].
    by rewrite H, IH, <- app_assoc. }
  apply G.
Qed.

Lemma post_order_forest l : forall ts p, Forall (fun n => 0 <= node_arity n) l -> pending_after (blen ts) l = Some p ->
  exists ts', concat (map post_order ts) ++ l = concat (map post_order ts') /\ blen ts' = p.
Proof.
  induction l as [|n l IH]; intros ts p Hn H; cbn [pending_after] in H.
  - injection H as <-. exists ts. by rewrite app_nil_r.
  - apply Forall_cons in Hn as [Ha Hn]. destruct (Z.ltb_spec (blen ts) (node_arity n)); [done|].
    set (kept := (length ts - Z.to_nat (node_arity n))%nat).
    assert (blen (drop kept ts) = node_arity n) as Ek by (unfold blen in *; rewrite length_drop; lia).
    assert (root_node (tree_of n (drop kept ts)) = n) as Er by (destruct n; cbn in *; congruence).
    assert (subscripts (tree_of n (drop kept ts)) = drop kept ts) as Es.
    { destruct n; cbn [tree_of subscripts node_arity] in *; try done;
        symmetry; apply blen_zero; congruence. }
    destruct (IH (take kept ts ++ [tree_of n (drop kept ts)]) p) as (ts' & E & Hp); [done| |].
    + rewrite <- H. f_equal. rewrite blen_app. unfold blen in *. rewrite length_take in *. cbn [length]. lia.
    + exists ts'. split; [|done]. rewrite <- E, map_app, concat_app. cbn [map concat]. rewrite app_nil_r.
      rewrite post_order_root, Er, Es. rewrite <- (take_drop kept ts) at 1.
      by rewrite map_app, concat_app, <- !app_assoc.
Qed.

Lemma evaluate_tree signers interval t :
  evaluate_native_script signers interval (mk_NativeScript (post_order t)) = verdict_of signers interval t.
Proof.
  unfold evaluate_native_script. cbn [nodes].
  rewrite <- (app_nil_r (post_order t)).
  rewrite (machine_forest (evaluate_node signers interval) (evaluate_nodes signers interval) (verdict_of signers interval));
    [done|done| |apply verdict_root].
  intros n l vs subs Ha. cbn [evaluate_nodes]. rewrite Ha, blen_app.
  replace (Z.min (blen subs) (blen vs + blen subs)) with (blen subs) by (pose proof (blen_nonneg vs); lia).
  by rewrite kept_front, take_app_length, drop_app_length.
Qed.

(** * Evaluation of a tree *)

Definition native_verdict (v : ScriptVerdict) : Prop := v = NativeScriptPassed \/ exists r, v = NativeScriptFailed r.

Lemma evaluate_native signers interval n subs : Forall native_verdict subs -> native_verdict (evaluate_node signers interval n subs).
Proof.
  intros Hs. unfold native_verdict. destruct n; cbn [evaluate_node]; try (repeat case_match; eauto).
  induction Hs as [|v subs [->|[r ->]] _ IH]; cbn [first_failure]; eauto.
Qed.

Lemma verdict_native signers interval t : native_verdict (verdict_of signers interval t).
Proof.
  assert (H : forall t, Forall (fun t => native_verdict (verdict_of signers interval t)) (subscripts t) ->
    native_verdict (verdict_of signers interval t)).
  { intros t0 Hs. rewrite verdict_root. apply evaluate_native. by apply Forall_map. }
  induction t using timelock_rect'; by apply H; try constructor.
Qed.

Lemma first_failure_passed subs : Forall native_verdict subs -> passed (first_failure subs) = forallb passed subs.
Proof. induction 1 as [|v subs [->|[r ->]] _ IH]; cbn; [done|by rewrite IH|done]. Qed.

Lemma passed_map signers interval l :
  Forall (fun t => passed (verdict_of signers interval t) = satisfied signers interval t) l ->
  forallb passed (map (verdict_of signers interval) l) = forallb (satisfied signers interval) l /\
  existsb passed (map (verdict_of signers interval) l) = existsb (satisfied signers interval) l /\
  blen (List.filter passed (map (verdict_of signers interval) l)) = blen (List.filter (satisfied signers interval) l).
Proof.
  induction 1 as [|t l Ht _ (I1 & I2 & I3)]; [done|]. cbn. rewrite Ht, I1, I2. split_and!; [done..|].
  destruct (satisfied signers interval t); rewrite ?blen_cons, ?I3; done.
Qed.

Lemma verdict_satisfied signers interval t : passed (verdict_of signers interval t) = satisfied signers interval t.
Proof.
  induction t as [h|l IH|l IH|n l IH|s|s] using timelock_rect'; rewrite verdict_root; cbn [root_node subscripts evaluate_node satisfied];
    try (apply passed_map in IH as (I1 & I2 & I3)).
  - by destruct (bt_contains signers h).
  - rewrite first_failure_passed, I1; [done|]. apply Forall_map, Forall_forall. intros t _. apply verdict_native.
  - rewrite I2. by destruct (existsb _ l).
  - rewrite I3. destruct (n <=? 0); [done|]. cbn [orb]. by destruct (n <=? _).
  - destruct (invalid_before interval) as [b|]; [|done]. by destruct (s <=? b).
  - destruct (invalid_hereafter interval) as [b|]; [|done]. by destruct (b <=? s).
Qed.

(** * The decoder's stack *)

(** The composites left open own, together, every script completed so far. *)
Definition arities (open : list Open) : Z := foldr (fun o n => open_arity o + n) 0 open.
Definition open_ok (o : Open) : Prop := 0 <= open_arity o /\ forall threshold n, 0 <= n -> node_arity (open_node o threshold n) = n.
Definition decoder_ok (l : list NativeScriptNode) (pending : Z) : Prop :=
  pending_after 0 l = Some pending /\ Forall (fun n => 0 <= node_arity n) l.

Lemma arities_nonneg open : Forall open_ok open -> 0 <= arities open.
Proof. unfold arities. induction 1 as [|o open [Ho _] _ IH]; cbn [foldr]; lia. Qed.

Lemma pending_snoc l : forall p q n, pending_after p l = Some q -> node_arity n <= q ->
  pending_after p (l ++ [n]) = Some (q - node_arity n + 1).
Proof.
  induction l as [|m l IH]; intros p q n H Hq; cbn [pending_after app] in *.
  - injection H as ->. destruct (Z.ltb_spec q (node_arity n)); [lia|done].
  - destruct (p <? node_arity m); [done|]. by apply IH.
Qed.

Lemma decoder_snoc l p n : decoder_ok l p -> 0 <= node_arity n <= p -> decoder_ok (l ++ [n]) (p - node_arity n + 1).
Proof.
  intros [Hp Hn] Ha. split; [apply pending_snoc; [done|lia]|]. apply Forall_app. split; [done|]. repeat constructor. lia.
Qed.

(** What the inner loop may leave. *)
Definition closing_ok (c : Closing) : Prop :=
  match c with
  | Finished l => decoder_ok l 1
  | NextHead l open => open <> [] /\ Forall open_ok open /\ decoder_ok l (arities open)
  | LostPosition => False
  end.

Lemma close_lists_ok open data : forall completed l off c o,
  (completed = true \/ open <> []) -> Forall open_ok open ->
  decoder_ok l (arities open + if completed then 1 else 0) ->
  close_lists completed l open data off = (Ok c, o) -> closing_ok c /\ off <= o.
Proof.
  induction open as [|top rest IH]; intros completed l off c o Hc Ho Hl H; cbn [close_lists] in H.
  - destruct completed; [|by destruct Hc]. injection H as <- <-. cbn. by rewrite Z.add_0_l in Hl.
  - apply Forall_cons in Ho as [[Hn Ht] Hr]. set (top' := if completed then one_more top else top) in *.
    assert (open_ok top' /\ arities (top' :: rest) = arities (top :: rest) + if completed then 1 else 0) as [[Hn' Ht'] Ea].
    { unfold top'. destruct completed; cbn; (split; [split; [cbn; lia|done]|lia]). }
    rewrite <- Ea in Hl. pose proof (arities_nonneg _ Hr).
    assert (Hpop : forall off, close_lists true (l ++ [open_node top' (open_threshold top') (open_arity top')]) rest data off = (Ok c, o) ->
      closing_ok c /\ off <= o).
    { intros off' H'. apply IH in H'; [done|by left|done|].
      pose proof (Ht' (open_threshold top') (open_arity top') Hn') as En.
      apply (decoder_snoc _ _ (open_node top' (open_threshold top') (open_arity top'))) in Hl; rewrite En in *; cbn [arities foldr] in *.
      - replace (arities rest + 1) with (open_arity top' + arities rest - open_arity top' + 1) by lia. exact Hl.
      - fold (arities rest). lia. }
    clearbody top'. destruct (open_owed top') as [n|] eqn:Eo.
    + destruct (n =? 0); [by apply Hpop|]. injection H as <- <-. split; [|lia]. split_and!; [done|by constructor|exact Hl].
    + destruct (is_break data off) as [[]|e] eqn:Eb; [| |done].
      * apply Hpop in H as [? ?]. split; [done|lia].
      * injection H as <- <-. split; [|lia]. split_and!; [done|by constructor|exact Hl].
Qed.

(** * The decoder ends, with one tree *)

Definition forward {E A} (m : PDec E A) : Prop := forall data off a o,
  bytes_ok data -> 0 <= off -> m data off = (Ok a, o) -> off <= o.

Lemma forward_bind {E A B} (m : PDec E A) (k : A -> PDec E B) : forward m -> (forall a, forward (k a)) -> forward (pbind m k).
Proof.
  intros Hm Hk data off b o Hd Ho H. apply pbind_inv in H as (a & o1 & H1 & H2).
  apply Hm in H1; [|done..]. apply Hk in H2; [lia|done|lia].
Qed.
Lemma forward_pret {E A} (a : A) : forward (pret (E := E) a).
Proof. intros data off b o _ _ [= <-]. lia. Qed.
Lemma forward_bad {A} detail : forward (bad_structure (A := A) detail).
Proof. by intros data off b o. Qed.
Lemma forward_err {E A} (e : Z -> E) : forward (fun (_ : list Z) off => (@Err A E (e off), off)).
Proof. by intros data off b o. Qed.
Lemma forward_if {E A} (b : bool) (m m' : PDec E A) : forward m -> forward m' -> forward (if b then m else m').
Proof. by destruct b. Qed.
Lemma forward_spans {E A} (m : PDec E A) : spans 1 m -> forward m.
Proof.
  intros Hm data off a o Hd Ho H. apply Hm in H; [|done..]. apply one_of_items in H.
  pose proof (item_end data off o Hd Ho H). lia.
Qed.

Lemma forward_array : forward (plift (E := CodecError) id read_array_header).
Proof.
  intros data off enc o Hd Ho H. unfold plift in H. destruct (read_array_header data off) as [[a|e] o1] eqn:Er; [|done].
  injection H as -> ->. apply array_head_inv in Er as (h & Hh & _). pose proof (read_head_bound _ _ _ _ Hd Ho Hh). lia.
Qed.

Lemma forward_threshold : forward read_threshold.
Proof.
  intros data off v o Hd Ho H. unfold read_threshold in H.
  destruct (read_any_int data off) as [[[[arg negative] w]|e] o1] eqn:Er; [|done]. destruct (i64_max <? arg); [done|].
  injection H as _ <-. unfold read_any_int in Er. apply dbind_ok_inv in Er as (start & o2 & [= <- <-] & Er).
  apply dbind_ok_inv in Er as ([major ai] & o3 & Hi & Er). apply decode_initial_ok in Hi as (b & Hb & -> & -> & ->).
  apply byte_at_bound in Hb. pose proof (land_31_bound b).
  repeat match type of Er with (if ?c then _ else _) _ _ = _ => destruct c end; try done;
    apply dbind_ok_inv in Er as ([n w'] & o4 & Ha & [= _ _ _ <-]); apply decode_argument_ok in Ha as (? & ? & ?); (done || lia).
Qed.

Lemma forward_open_list node threshold : forward (open_list node threshold).
Proof. apply forward_bind; [apply forward_array|intros enc; apply forward_pret]. Qed.

Ltac going_forward :=
  repeat first
  [ apply forward_open_list | apply forward_err | apply forward_if | apply forward_pret | apply forward_bad | apply forward_array | apply forward_threshold
  | apply forward_spans, spans_value | apply forward_spans, spans_string
  | apply forward_bind; [|intros ?] ].

(** A head is a byte at least, and opens a list that owns nothing yet. *)
Definition head_ok (h : NativeScriptNode + Open) : Prop :=
  match h with inl n => node_arity n = 0 | inr o => open_ok o /\ open_arity o = 0 end.

Lemma open_list_ok node threshold data off top o : (forall t n, 0 <= n -> node_arity (node t n) = n) ->
  open_list node threshold data off = (Ok top, o) -> open_ok top /\ open_arity top = 0.
Proof.
  intros Hn H. apply pbind_inv in H as (enc & o1 & _ & [= <- _]). cbn. split; [|done]. split; [cbn; lia|done].
Qed.

Lemma script_head_ok data off h o : bytes_ok data -> 0 <= off -> read_script_head data off = (Ok h, o) ->
  head_ok h /\ off < o /\ off < blen data.
Proof.
  intros Hd Ho H. apply pbind_inv in H as (enc & o1 & H1 & H). unfold plift in H1.
  destruct (read_array_header data off) as [[enc'|e] o1'] eqn:Er; [|done]. injection H1 as -> ->.
  apply array_head_inv in Er as (hd & Hh & _). pose proof (read_head_bound _ _ _ _ Hd Ho Hh) as Hb.
  enough (head_ok h /\ o1 <= o) as [? ?] by (split; [done|lia]).
  destruct enc as [len w|]; [|done]. apply pbind_inv in H as (tag & o2 & H2 & H).
  apply (forward_spans _ (spans_value id)) in H2; [|done|lia].
  assert (forall h' (m : PDec CodecError (NativeScriptNode + Open)), forward m -> m data o2 = (Ok h', o) -> o1 <= o) as Hf.
  { intros h' m Hm E. apply Hm in E; [lia|done|lia]. }
  repeat match type of H with
  | (match ?x with _ => _ end) _ _ = _ => destruct x; try discriminate H
  end; (split; [|eapply Hf; [|exact H]; going_forward]).
  all: repeat match type of H with
  | pbind _ _ _ _ = _ => apply pbind_inv in H as (? & ? & ? & H)
  | (if ?b then _ else _) _ _ = _ => destruct b; try discriminate H
  end; injection H as <- _; try done;
    (eapply open_list_ok; [|eassumption]; done).
Qed.

Definition decoded_ok (r : result NativeScript CodecError) : Prop :=
  match r with Ok s => decoder_ok (nodes s) 1 | Err _ => True end.

Lemma script_loop_ends fuel start data : forall l open off, bytes_ok data -> 0 <= off -> (0 < fuel)%nat ->
  blen data - off < Z.of_nat fuel -> Forall open_ok open -> decoder_ok l (arities open) ->
  exists r o, script_loop fuel start l open data off = Some (r, o) /\ decoded_ok r /\ (is_ok r = true -> off <= o).
Proof.
  induction fuel as [|fuel IH]; intros l open off Hd Ho Hp Hf Hopen Hl; [lia|]. cbn [script_loop].
  destruct (read_script_head data off) as [[h|e] o] eqn:Eh; [|by do 2 eexists].
  apply script_head_ok in Eh as (Hh & Hlt & Hin); [|done..].
  assert (exists completed l' open', match h with inl n => (true, l ++ [n], open) | inr top => (false, l, top :: open) end =
    (completed, l', open') /\ (completed = true \/ open' <> []) /\ Forall open_ok open' /\
    decoder_ok l' (arities open' + if completed then 1 else 0)) as (completed & l' & open' & -> & Hc & Ho' & Hl').
  { destruct h as [n|top]; do 3 eexists; (split; [reflexivity|]).
    - split_and!; [by left|done|]. cbn in Hh. pose proof (arities_nonneg _ Hopen).
      apply (decoder_snoc _ _ n) in Hl; [|lia]. by rewrite Hh, Z.sub_0_r in Hl.
    - destruct Hh as [Ht Ha]. split_and!; [by right|by constructor|]. unfold arities in *. cbn [foldr]. by rewrite Ha, Z.add_0_r. }
  destruct (close_lists completed l' open' data o) as [[c|e] o'] eqn:Ec; [|by do 2 eexists].
  apply close_lists_ok in Ec as [Hok Hle]; [|done..]. destruct c as [l2|l2 open2|]; [| |done].
  - do 2 eexists. split; [reflexivity|]. split; [|lia]. cbn in Hok. destruct Hok as [Hpend Hn].
    unfold from_post_order. by rewrite Hpend.
  - destruct Hok as (_ & Ho2 & Hl2). destruct (IH l2 open2 o') as (r & o2 & E & Hr & Hle'); [done|lia|lia|lia|done|done|].
    exists r, o2. split_and!; [done..|]. intros Hr'. specialize (Hle' Hr'). lia.
Qed.

Lemma decode_is_loop data off : bytes_ok data -> 0 <= off ->
  exists r o, decode_native_script data off = (r, o) /\ decoded_ok r /\ (is_ok r = true -> off <= o).
Proof.
  intros Hd Ho. unfold decode_native_script.
  destruct (script_loop_ends (S (Z.to_nat (blen data - off))) off data [] [] off) as (r & o & -> & Hr);
    [done|done|lia|lia|done|by split|by do 2 eexists].
Qed.

Lemma one_tree l : decoder_ok l 1 -> exists t, l = post_order t /\ forall t', l = post_order t' -> t' = t.
Proof.
  intros [Hp Hn]. destruct (post_order_forest l [] 1 Hn) as (ts & E & Hlen); [done|]. cbn [map concat app] in E.
  destruct ts as [|t [|? ?]]; [done| |rewrite !blen_cons in Hlen; pose proof (blen_nonneg l0); lia].
  cbn [map concat] in E. rewrite app_nil_r in E. exists t. split; [done|]. intros t' ->.
  pose proof (grow_forest [t']) as G. cbn [map concat] in G. rewrite app_nil_r, E in G.
  pose proof (grow_forest [t]) as G'. cbn [map concat] in G'. rewrite app_nil_r in G'. congruence.
Qed.

Lemma decoded_tree data off s o signers interval : bytes_ok data -> 0 <= off -> decode_native_script data off = (Ok s, o) ->
  exists t, (forall t', nodes s = post_order t' <-> t' = t) /\
    evaluate_native_script signers interval s = verdict_of signers interval t /\
    (evaluate_native_script signers interval s = NativeScriptPassed <-> satisfied signers interval t = true).
Proof.
  intros Hd Ho Hs. destruct (decode_is_loop data off Hd Ho) as (r & o' & Er & Hr & _). rewrite Hs in Er. injection Er as <- _.
  destruct (one_tree _ Hr) as (t & Et & Hu). exists t.
  assert (evaluate_native_script signers interval s = verdict_of signers interval t) as Ev.
  { destruct s as [l]. cbn in Et. subst l. apply evaluate_tree. }
  split_and!; [|done|].
  - intros t'. split; [apply Hu|by intros ->].
  - rewrite Ev, <- verdict_satisfied. unfold passed. by rewrite bool_decide_eq_true.
Qed.

(** * Every spelling of a tree is read as that tree *)

(** The bytes of a script; a list may be of either length form, and so may the integers' widths: the
    heads are those the readers take. *)
Inductive written : Timelock -> list Z -> Prop :=
| written_sig h b1 b2 w : reads read_array_header b1 (Definite 2 w) -> reads read_u64v b2 0 -> blen h = 28 ->
    written (Signature_of h) (b1 ++ b2 ++ string_bytes h)
| written_before b1 b2 b3 s w : reads read_array_header b1 (Definite 2 w) -> reads read_u64v b2 4 -> reads read_u64v b3 s ->
    written (Not_before s) (b1 ++ b2 ++ b3)
| written_after b1 b2 b3 s w : reads read_array_header b1 (Definite 2 w) -> reads read_u64v b2 5 -> reads read_u64v b3 s ->
    written (Not_after s) (b1 ++ b2 ++ b3)
| written_all b1 b2 l b3 w : reads read_array_header b1 (Definite 2 w) -> reads read_u64v b2 1 -> written_list l b3 ->
    written (All_of l) (b1 ++ b2 ++ b3)
| written_any b1 b2 l b3 w : reads read_array_header b1 (Definite 2 w) -> reads read_u64v b2 2 -> written_list l b3 ->
    written (Any_of l) (b1 ++ b2 ++ b3)
| written_m_of b1 b2 b3 n l b4 w : reads read_array_header b1 (Definite 3 w) -> reads read_u64v b2 3 ->
    reads read_threshold b3 n -> written_list l b4 -> written (M_of n l) (b1 ++ b2 ++ b3 ++ b4)
with written_list : list Timelock -> list Z -> Prop :=
| written_definite b1 l b2 w : reads read_array_header b1 (Definite (blen l) w) -> written_each l b2 ->
    written_list l (b1 ++ b2)
| written_indefinite b1 l b2 : reads read_array_header b1 Indefinite -> written_each l b2 ->
    written_list l (b1 ++ b2 ++ [BREAK_BYTE])
with written_each : list Timelock -> list Z -> Prop :=
| written_none : written_each [] []
| written_some t b l bs : written t b -> spells 1 b -> written_each l bs -> written_each (t :: l) (b ++ bs).

Scheme written_mut := Minimality for written Sort Prop
  with written_list_mut := Minimality for written_list Sort Prop
  with written_each_mut := Minimality for written_each Sort Prop.
Combined Scheme written_mutind from written_mut, written_list_mut, written_each_mut.

(** The outer loop once a head has been dealt with. *)
Definition resume (fuel : nat) (start : Z) (completed : bool) (l : list NativeScriptNode) (open : list Open)
    (data : list Z) (off : Z) : option (result NativeScript CodecError * Z) :=
  match close_lists completed l open data off with
  | (Err e, o) => Some (Err e, o)
  | (Ok LostPosition, o) => Some (Err (InvalidCborStructure o "native script decoder lost its position"), o)
  | (Ok (Finished l), o) =>
      Some (match from_post_order l with
            | Ok s => Ok s
            | Err _ => Err (InvalidCborStructure start "native script nodes do not form one tree")
            end, o)
  | (Ok (NextHead l open), o) => script_loop fuel start l open data o
  end.

Lemma loop_leaf fuel start l open data off n o : read_script_head data off = (Ok (inl n), o) ->
  script_loop (S fuel) start l open data off = resume fuel start true (l ++ [n]) open data o.
Proof. intros H. cbn [script_loop]. by rewrite H. Qed.
Lemma loop_open fuel start l open data off top o : read_script_head data off = (Ok (inr top), o) ->
  script_loop (S fuel) start l open data off = resume fuel start false l (top :: open) data o.
Proof. intros H. cbn [script_loop]. by rewrite H. Qed.

Definition size (t : Timelock) : nat := length (post_order t).
Definition sizes (ts : list Timelock) : nat := length (concat (map post_order ts)).

Definition closed (top : Open) (n : Z) : NativeScriptNode := open_node top (open_threshold top) (open_arity top + n).

(** From any state, the bytes of a script leave the state with the script completed. *)
Definition loop_reads (t : Timelock) (b : list Z) : Prop := forall fuel start l open pre post,
  let data := pre ++ b ++ post in bytes_ok data -> blen data <= u64_max ->
  script_loop (size t + fuel) start l open data (blen pre) = resume fuel start true (l ++ post_order t) open data (blen pre + blen b).

(** With a list open that owes the scripts, the bytes of those scripts close it. *)
Definition loop_reads_each (ts : list Timelock) (bs : list Z) : Prop := forall fuel start l top open pre post,
  let data := pre ++ bs ++ post in bytes_ok data -> blen data <= u64_max ->
  (open_owed top = Some (blen ts) ->
   resume (sizes ts + fuel) start false l (top :: open) data (blen pre) =
   resume fuel start true (l ++ concat (map post_order ts) ++ [closed top (blen ts)]) open data (blen pre + blen bs)) /\
  (open_owed top = None -> head post = Some BREAK_BYTE ->
   resume (sizes ts + fuel) start false l (top :: open) data (blen pre) =
   resume fuel start true (l ++ concat (map post_order ts) ++ [closed top (blen ts)]) open data (blen pre + blen bs + 1)).

Definition loop_reads_list (ts : list Timelock) (b : list Z) : Prop := forall node threshold fuel start l open pre post,
  let data := pre ++ b ++ post in bytes_ok data -> blen data <= u64_max ->
  exists top o, open_list node threshold data (blen pre) = (Ok top, o) /\
    resume (sizes ts + fuel) start false l (top :: open) data o =
    resume fuel start true (l ++ concat (map post_order ts) ++ [node threshold (blen ts)]) open data (blen pre + blen b).

(** A completed script is counted by the list it stands in. *)
Lemma resume_counted fuel start l top open data off :
  resume fuel start true l (top :: open) data off = resume fuel start false l (one_more top :: open) data off.
Proof. done. Qed.

Lemma resume_owed fuel start l top open data off n : open_owed top = Some n -> n <> 0 ->
  resume fuel start false l (top :: open) data off = script_loop fuel start l (with_owed top (n - 1) :: open) data off.
Proof.
  intros Ho Hn. unfold resume. cbn [close_lists]. rewrite Ho. by destruct (Z.eqb_spec n 0).
Qed.

Lemma resume_closed fuel start l top open data off : open_owed top = Some 0 ->
  resume fuel start false l (top :: open) data off = resume fuel start true (l ++ [closed top 0]) open data off.
Proof. intros Ho. unfold resume, closed. cbn [close_lists]. by rewrite Ho, Z.add_0_r. Qed.

Lemma resume_break fuel start l top open pre post : open_owed top = None -> head post = Some BREAK_BYTE ->
  resume fuel start false l (top :: open) (pre ++ post) (blen pre) =
  resume fuel start true (l ++ [closed top 0]) open (pre ++ post) (blen pre + 1).
Proof.
  intros Ho Hp. destruct post as [|x post]; [done|]. injection Hp as ->.
  unfold resume, closed. cbn [close_lists]. rewrite Ho. unfold is_break, peek_byte.
  rewrite byte_at_here. cbn [ok_or rbind]. by rewrite Z.eqb_refl, Z.add_0_r.
Qed.

Lemma resume_more fuel start l top open pre x post : open_owed top = None -> x <> BREAK_BYTE ->
  resume fuel start false l (top :: open) (pre ++ x :: post) (blen pre) = script_loop fuel start l (top :: open) (pre ++ x :: post) (blen pre).
Proof.
  intros Ho Hp. unfold resume. cbn [close_lists]. rewrite Ho. unfold is_break, peek_byte.
  rewrite byte_at_here. cbn [ok_or rbind]. by destruct (Z.eqb_spec x BREAK_BYTE).
Qed.

Lemma closed_more top n : closed (one_more top) n = closed top (1 + n).
Proof. unfold closed, one_more. cbn. f_equal. lia. Qed.

Lemma each_step t b ts bs : loop_reads t b -> spells 1 b -> loop_reads_each ts bs -> loop_reads_each (t :: ts) (b ++ bs).
Proof.
  intros Ht Hs IH fuel start l top open pre post data Hd Hl. unfold data in *. rewrite <- !app_assoc in *.
  destruct (spells_first b Hs ltac:(eapply blen_mid; exact Hl)) as (x & rest & Ef & Hne).
  specialize (IH fuel start (l ++ post_order t)). replace (sizes (t :: ts) + fuel)%nat with (size t + (sizes ts + fuel))%nat
    by (unfold sizes, size; cbn [map concat]; rewrite length_app; lia).
  assert (Hgo : forall top', script_loop (size t + (sizes ts + fuel)) start l (top' :: open) (pre ++ b ++ bs ++ post) (blen pre) =
    resume (sizes ts + fuel) start false (l ++ post_order t) (one_more top' :: open) ((pre ++ b) ++ bs ++ post) (blen (pre ++ b))).
  { intros top'. rewrite (Ht _ start l (top' :: open) pre (bs ++ post)) by done. by rewrite resume_counted, <- app_assoc, blen_app. }
  specialize (fun top' => IH top' open (pre ++ b) post). cbv zeta in IH.
  split; intros Ho.
  - rewrite (resume_owed _ _ _ _ _ _ _ _ Ho), Hgo by (rewrite blen_cons; pose proof (blen_nonneg ts); lia).
    destruct (IH (one_more (with_owed top (blen (t :: ts) - 1)))) as [E _]; [by rewrite <- app_assoc..|]. rewrite E.
    + rewrite closed_more, blen_cons. cbn [map concat]. by rewrite <- !app_assoc, !blen_app, Z.add_assoc.
    + cbn. f_equal. rewrite blen_cons. lia.
  - intros Hb. assert (pre ++ b ++ bs ++ post = pre ++ x :: (rest ++ bs ++ post)) as Ex by by rewrite Ef.
    rewrite Ex, (resume_more _ _ _ _ _ _ _ _ Ho Hne), <- Ex, Hgo.
    destruct (IH (one_more top)) as [_ E]; [by rewrite <- app_assoc..|]. rewrite E; [|done..].
    rewrite closed_more, blen_cons. cbn [map concat]. by rewrite <- !app_assoc, !blen_app, Z.add_assoc.
Qed.

Lemma list_step ts b1 b2 enc : reads read_array_header b1 enc -> loop_reads_each ts b2 ->
  (exists w, enc = Definite (blen ts) w) -> loop_reads_list ts (b1 ++ b2).
Proof.
  intros H1 H2 [w ->] node threshold fuel start l open pre post data Hd Hl. unfold data in *. rewrite <- !app_assoc in *.
  exists (mk_Open node threshold (Some (blen ts)) 0), (blen (pre ++ b1)). split.
  - unfold open_list, pbind, plift. rewrite H1 by done. by rewrite blen_app.
  - rewrite !(app_assoc pre). destruct (H2 fuel start l (mk_Open node threshold (Some (blen ts)) 0) open (pre ++ b1) post) as [E _];
      [by rewrite <- app_assoc..|]. rewrite E by done. by rewrite !blen_app, Z.add_assoc.
Qed.

Lemma indefinite_step ts b1 b2 : reads read_array_header b1 Indefinite -> loop_reads_each ts b2 ->
  loop_reads_list ts (b1 ++ b2 ++ [BREAK_BYTE]).
Proof.
  intros H1 H2 node threshold fuel start l open pre post data Hd Hl. unfold data in *. rewrite <- !app_assoc in *.
  exists (mk_Open node threshold None 0), (blen (pre ++ b1)). split.
  - unfold open_list, pbind, plift. rewrite H1 by done. by rewrite blen_app.
  - rewrite !(app_assoc pre). destruct (H2 fuel start l (mk_Open node threshold None 0) open (pre ++ b1) ([BREAK_BYTE] ++ post)) as [_ E];
      [by rewrite <- app_assoc..|]. rewrite E by done. by rewrite !blen_app, !Z.add_assoc.
Qed.

(** The first two items of a script. *)
Lemma script_prefix b1 b2 n w tag pre post : reads read_array_header b1 (Definite n w) -> reads read_u64v b2 tag ->
  let data := pre ++ b1 ++ b2 ++ post in bytes_ok data -> blen data <= u64_max ->
  read_script_head data (blen pre) =
    match tag with
    | 0 =>
        dec! hash_bytes := read_bytesv in
        if negb (blen hash_bytes =? 28)
        then fun _ off => (Err (InvalidLength (off - blen hash_bytes) "native script Sig key hash must be 28 bytes"), off)
        else pret (inl (Node_Sig hash_bytes))
    | 1 => dec! o := open_list (fun _ arity => Node_All arity) 0 in pret (inr o)
    | 2 => dec! o := open_list (fun _ arity => Node_Any arity) 0 in pret (inr o)
    | 3 =>
        if negb (n =? 3) then bad_structure "native script MOfN must be array(3)" else
        dec! n := read_threshold in
        dec! o := open_list Node_MOfN n in
        pret (inr o)
    | 4 => dec! slot := read_u64v in pret (inl (Node_InvalidBefore slot))
    | 5 => dec! slot := read_u64v in pret (inl (Node_InvalidHereafter slot))
    | _ => bad_structure "unknown native script constructor tag"
    end data (blen (pre ++ b1 ++ b2)).
Proof.
  intros H1 H2 data Hd Hl. unfold data, read_script_head in *. unfold pbind at 1, plift. rewrite H1 by done. cbn beta iota.
  unfold pbind at 1. rewrite <- blen_app, (app_assoc pre). rewrite H2 by by rewrite <- app_assoc.
  by rewrite !blen_app, Z.add_assoc.
Qed.

Lemma leaf_step t n b1 b2 b3 w tag : post_order t = [n] -> reads read_array_header b1 (Definite 2 w) -> reads read_u64v b2 tag ->
  (forall pre post, let data := pre ++ b3 ++ post in bytes_ok data -> blen data <= u64_max ->
     match tag with
     | 0 =>
         dec! hash_bytes := read_bytesv in
         if negb (blen hash_bytes =? 28)
         then fun _ off => (Err (InvalidLength (off - blen hash_bytes) "native script Sig key hash must be 28 bytes"), off)
         else pret (inl (Node_Sig hash_bytes))
     | 4 => dec! slot := read_u64v in pret (inl (Node_InvalidBefore slot))
     | 5 => dec! slot := read_u64v in pret (inl (Node_InvalidHereafter slot))
     | _ => bad_structure (A := NativeScriptNode + Open) ""
     end data (blen pre) = (Ok (inl n), blen pre + blen b3)) -> loop_reads t (b1 ++ b2 ++ b3).
Proof.
  intros Ht H1 H2 H3 fuel start l open pre post data Hd Hl. unfold data in *. rewrite <- !app_assoc in *.
  unfold size. rewrite Ht. cbn [length Nat.add]. rewrite (loop_leaf _ _ _ _ _ _ n (blen pre + blen (b1 ++ b2 ++ b3))); [done|].
  rewrite (script_prefix b1 b2 2 w tag pre (b3 ++ post) H1 H2 Hd Hl).
  specialize (H3 (pre ++ b1 ++ b2) post). cbv zeta in H3. rewrite <- !app_assoc in H3. specialize (H3 Hd Hl).
  replace (blen pre + blen (b1 ++ b2 ++ b3)) with (blen (pre ++ b1 ++ b2) + blen b3) by (rewrite !blen_app; lia).
  destruct tag as [|[[[]|[]|]|[[]|[]|]|]|]; try discriminate H3; exact H3.
Qed.

Lemma composite_step t ts node threshold head b : post_order t = concat (map post_order ts) ++ [node threshold (blen ts)] ->
  (forall pre post, let data := pre ++ head ++ b ++ post in bytes_ok data -> blen data <= u64_max ->
     read_script_head data (blen pre) = (dec! o := open_list node threshold in pret (inr o)) data (blen (pre ++ head))) ->
  loop_reads_list ts b -> loop_reads t (head ++ b).
Proof.
  intros Ht Hh Hb fuel start l open pre post data Hd Hl. unfold data in *. rewrite <- !app_assoc in *.
  destruct (Hb node threshold fuel start l open (pre ++ head) post) as (top & o & Eo & E); [by rewrite <- app_assoc..|].
  rewrite <- !app_assoc in Eo, E.
  replace (size t + fuel)%nat with (S (sizes ts + fuel)) by (unfold size, sizes; rewrite Ht, length_app; cbn; lia).
  rewrite (loop_open _ _ _ _ _ _ top o), E.
  - by rewrite Ht, !blen_app, Z.add_assoc.
  - rewrite Hh by done. unfold pbind. by rewrite Eo.
Qed.

Lemma written_reads :
  (forall t b, written t b -> loop_reads t b) /\
  (forall ts b, written_list ts b -> loop_reads_list ts b) /\
  (forall ts b, written_each ts b -> loop_reads_each ts b).
Proof.
  apply written_mutind.
  - intros h b1 b2 w H1 H2 Hh. eapply leaf_step; [done|exact H1|exact H2|]. intros pre post data Hd Hl.
    assert (reads read_bytesv (string_bytes h) h) as R by (apply reads_string; by rewrite Hh).
    unfold pbind, data in *. rewrite R by done. by rewrite Hh.
  - intros b1 b2 b3 s w H1 H2 H3. eapply leaf_step; [done|exact H1|exact H2|]. intros pre post data Hd Hl.
    unfold pbind, data in *. by rewrite H3.
  - intros b1 b2 b3 s w H1 H2 H3. eapply leaf_step; [done|exact H1|exact H2|]. intros pre post data Hd Hl.
    unfold pbind, data in *. by rewrite H3.
  - intros b1 b2 l b3 w H1 H2 _ Hl. rewrite app_assoc. eapply (composite_step _ l (fun _ arity => Node_All arity) 0); [done| |done].
    intros pre post data Hd Hlen. unfold data in *. rewrite <- !app_assoc in *. by rewrite (script_prefix b1 b2 2 w 1).
  - intros b1 b2 l b3 w H1 H2 _ Hl. rewrite app_assoc. eapply (composite_step _ l (fun _ arity => Node_Any arity) 0); [done| |done].
    intros pre post data Hd Hlen. unfold data in *. rewrite <- !app_assoc in *. by rewrite (script_prefix b1 b2 2 w 2).
  - intros b1 b2 b3 n l b4 w H1 H2 H3 _ Hl.
    replace (b1 ++ b2 ++ b3 ++ b4) with ((b1 ++ b2 ++ b3) ++ b4) by by rewrite <- !app_assoc.
    eapply (composite_step _ l Node_MOfN n); [done| |done].
    intros pre post data Hd Hlen. unfold data in *. rewrite <- !app_assoc in *. rewrite (script_prefix b1 b2 3 w 3) by done.
    cbn [negb Z.eqb Pos.eqb]. unfold pbind at 1. specialize (H3 (pre ++ b1 ++ b2) (b4 ++ post)). cbv zeta in H3.
    rewrite <- !app_assoc in H3. rewrite H3 by done. by rewrite !blen_app, !Z.add_assoc.
  - intros b1 l b2 w H1 _ H2. eapply list_step; [done|done|by eexists].
  - intros b1 l b2 H1 _ H2. by apply indefinite_step.
  - intros fuel start l top open pre post data Hd Hl. unfold data, sizes in *. cbn [map concat length Nat.add app] in *.
    rewrite blen_nil, Z.add_0_r. split; intros Ho; [by apply resume_closed|intros Hp; by apply resume_break].
  - intros t b l bs _ Ht Hs _ Hl. by apply each_step.
Qed.

Lemma reads_nonempty {A} (m : Dec A) b a : reads m b a -> (forall a o, m [] 0 <> (Ok a, o)) -> 1 <= blen b.
Proof.
  intros H Hn. destruct b as [|x b]; [|rewrite blen_cons; pose proof (blen_nonneg b); lia].
  specialize (H [] []). cbn in H. exfalso. eapply Hn, H; [constructor|by vm_compute].
Qed.

Lemma header_nonempty b enc : reads read_array_header b enc -> 1 <= blen b.
Proof. intros H. eapply reads_nonempty; [exact H|]. by intros a o. Qed.

Lemma written_size :
  (forall t b, written t b -> Z.of_nat (size t) <= blen b) /\
  (forall ts b, written_list ts b -> Z.of_nat (sizes ts) <= blen b) /\
  (forall ts b, written_each ts b -> Z.of_nat (sizes ts) <= blen b).
Proof.
  assert (forall t, Z.of_nat (size t) = Z.of_nat (sizes (subscripts t)) + 1) as Hs
    by (intros t; unfold size, sizes; rewrite post_order_root, length_app; cbn; lia).
  apply written_mutind; intros; rewrite ?Hs; cbn [subscripts]; rewrite ?blen_app;
    repeat match goal with
    | H : reads read_array_header _ _ |- _ => apply header_nonempty in H
    | x : list Z |- _ => learn_hyp (blen_nonneg x)
    end; unfold sizes in *; cbn [map concat length] in *; rewrite ?length_app; unfold size in *;
    try pose proof (blen_nonneg (string_bytes h)); try pose proof (blen_nonneg [BREAK_BYTE]); (done || lia).
Qed.

Lemma pending_tree t : pending_after 0 (post_order t) = Some 1.
Proof.
  assert (H : forall t p, 0 <= p -> pending_after p (post_order t) = Some (p + 1)).
  { clear t. intros t. enough (forall p rest, 0 <= p -> pending_after p (post_order t ++ rest) = pending_after (p + 1) rest) as E
      by (intros p Hp; rewrite <- (app_nil_r (post_order t)), E by done; done).
    assert (Hroot : forall t, Forall (fun t => forall p rest, 0 <= p -> pending_after p (post_order t ++ rest) = pending_after (p + 1) rest)
        (subscripts t) -> forall p rest, 0 <= p -> pending_after p (post_order t ++ rest) = pending_after (p + 1) rest).
    { intros t0 Hs p rest Hp. rewrite post_order_root, <- app_assoc.
      assert (forall rest p, 0 <= p -> pending_after p (concat (map post_order (subscripts t0)) ++ rest) = pending_after (p + blen (subscripts t0)) rest) as ->.
      { induction Hs as [|t1 l H1 _ IH]; intros rest' p' Hp'; cbn [map concat]; [by rewrite Z.add_0_r|].
        rewrite <- app_assoc, H1, IH, blen_cons by lia. f_equal. lia. }
      - cbn [app pending_after]. rewrite root_arity. pose proof (blen_nonneg (subscripts t0)).
        destruct (Z.ltb_spec (p + blen (subscripts t0)) (blen (subscripts t0))); [lia|]. f_equal. lia.
      - done. }
    induction t using timelock_rect'; by apply Hroot; try constructor. }
  by apply H.
Qed.

Lemma decode_written t b : written t b -> reads decode_native_script b (mk_NativeScript (post_order t)).
Proof.
  intros H pre post Hd Hl. unfold decode_native_script. pose proof (proj1 written_size t b H) as Hsz.
  destruct (Nat.le_exists_sub (size t) (Z.to_nat (blen (pre ++ b ++ post) - blen pre))) as (k & Ek & _).
  { rewrite !blen_app in *. pose proof (blen_nonneg post). lia. }
  rewrite Ek, <- (Nat.add_comm (size t)), plus_n_Sm. rewrite (proj1 written_reads t b H) by done.
  unfold resume. cbn [close_lists app]. unfold from_post_order. by rewrite pending_tree.
Qed.

(** C9. Native scripts.  However a script is spelled, with lists of either length form, the decoder reads
    it as the node sequence of its tree.  Whatever the bytes, a script the decoder returns is the
    sequence of exactly one tree; the stack machine gives it the verdict of that tree, and it passes
    exactly when the tree's conditions hold of the signers and the validity interval. *)
Theorem native_scripts_exact :
  (forall t b, written t b -> reads decode_native_script b (mk_NativeScript (post_order t))) /\
  (forall data off s o signers interval, bytes_ok data -> 0 <= off -> decode_native_script data off = (Ok s, o) ->
    exists t, (forall t', nodes s = post_order t' <-> t' = t) /\
      evaluate_native_script signers interval s = verdict_of signers interval t /\
      (evaluate_native_script signers interval s = NativeScriptPassed <-> satisfied signers interval t = true)).
Proof. split; [exact decode_written|]. intros. by eapply decoded_tree. Qed.
