(* ===== verification/LedgerValue.v ===== *)
(** Ledger values: [Coin], [TxIn] and the asset bundles of [ade_types/src/tx.rs] and
    [ade_types/src/mary/value.rs], the arithmetic of [ade_ledger/src/value.rs], and the part of
    [ade_ledger/src/error.rs] the modelled rules raise.

    A [Coin] and an [OutputAssetQuantity] are their [u64].  A bundle is a [BTreeMap] of
    [BTreeMap]s.  The theorems: addition and subtraction are exact per asset, or refuse with the
    asset (or the coin) that does not fit, and their results are canonical. *)

From S2P Require Import Prelude Cbor Envelope NetCodec BTree EraSchedule Leader NativeScript.

Abbreviation Coin := Z (only parsing).
Definition TxIn : Type := (Hash32 * Z).
Definition tx_hash (i : TxIn) : Hash32 := fst i.
Definition tx_index (i : TxIn) : Z := snd i.

Definition AssetName : Type := list Z.
Definition MultiAsset : Type := BTreeMap Hash28 (BTreeMap AssetName Z).

Record Value : Type := mk_Value { coin : Coin; multi_asset : MultiAsset }.
Definition from_coin (c : Coin) : Value := mk_Value c [].

(** * Errors ([error.rs]) *)

Inductive WitnessAlgorithm : Type := Alg_Ed25519 | Alg_Ed25519Extended | Alg_Bootstrap.

Inductive DecodingFailureReason : Type := InvalidStructure | UnexpectedType | Reason_TrailingBytes.

Record ConservationError : Type := mk_ConservationError { consumed_coin : Coin; produced_coin : Coin }.
Record FeeError : Type := mk_FeeError { required : Coin; provided : Coin }.
Record WitnessError : Type := mk_WitnessError { key_hash : Hash28; algorithm : WitnessAlgorithm }.
Record AssetUnderflowError : Type := mk_AssetUnderflowError { underflow_policy : Hash28; underflow_name : AssetName }.
Record DecodingError : Type := mk_DecodingError { decoding_offset : Z; decoding_reason : DecodingFailureReason }.

Inductive CertFailureReason : Type :=
| StakeAlreadyRegistered | StakeNotRegistered | PoolAlreadyRegistered | PoolNotRegistered | InvalidPoolParams
| DRepNotRegistered.
Record CertificateError : Type := mk_CertificateError { cert_index : Z; cert_reason : CertFailureReason }.
Record EraInvalidCertificateError : Type := mk_EraInvalidCertificateError { era_cert_index : Z; removed_tag : Z }.
Inductive UnsupportedStateDependentDepositAccounting : Type := LegacyUnregistrationRefundUnresolved.
Inductive ValidationEnvironmentError : Type :=
| MissingConwayDepositParams | MissingDRepActivityParam | DRepActivityOverflow | ReducedCertStateNotValidatable.

Record InsufficientCollateralError : Type := mk_InsufficientCollateralError {
  collateral_balance_found : Z; collateral_required : Z; collateral_percent_used : Z; collateral_fee : Z }.
Record ExUnitsTooBigError : Type := mk_ExUnitsTooBigError {
  declared_mem : Z; declared_cpu : Z; max_mem : Z; max_cpu : Z }.

(** ** Of transaction validity ([tx_validity/required_signers.rs], [witness.rs],
    [script_witnesses.rs], [utxo_free.rs]) *)

Inductive SignerSource : Type :=
| InputPaymentKey | ExplicitRequiredSigner | WithdrawalKey | CertificateKey | GovernanceVoter | CollateralPaymentKey.
Inductive RequiredSignerField : Type := Field_Certificates | Field_Withdrawals | Field_VotingProcedures | Field_OutputAddress.
Inductive RequiredSignerError : Type :=
| UnresolvableInput (input : TxIn)
| MalformedField (field : RequiredSignerField) (offset : Z)
| UnsupportedEra (era : CardanoEra).

Inductive WitnessField : Type := Field_VerificationKey | Field_Signature.
Inductive WitnessClosureError : Type :=
| MissingRequiredSigner (key_hash : Hash28) (source : SignerSource)
| InvalidWitnessSignature (key_hash : Hash28)
| MalformedWitnessField (which : WitnessField) (key_hash : Hash28)
| InvalidSuppliedWitnessSignature (key_hash : Hash28)
| InvalidBootstrapWitnessSignature (key_hash : Hash28).

Record ScriptError : Type := mk_ScriptError { failed_script : Hash28; failed_reason : NativeScriptFailure }.
Record ScriptClosureFailures : Type := mk_ScriptClosureFailures {
  not_validating : BTreeMap Hash28 NativeScriptFailure;
  extraneous : BTreeMap Hash28 unit;
  missing_scripts : BTreeMap Hash28 unit;
}.
Inductive ScriptWitnessError : Type :=
| Script_MalformedField (e : RequiredSignerError)
| MalformedMint (offset : Z)
| MalformedResolvedOutput
| MalformedScriptRef.

Inductive OutputPosition : Type := Output_at (idx : Z) | Output_CollateralReturn.
Inductive UtxoFreeRejection : Type :=
| OutsideValidityInterval (invalid_before invalid_hereafter : option Z) (slot : Z)
| Free_WrongNetworkInOutput (output : OutputPosition) (network expected : Z)
| Free_WrongNetworkWithdrawal (network expected : Z)
| Free_WrongNetworkInTxBody (declared expected : Z)
| BootstrapAttributesTooBig (output : OutputPosition) (size : Z)
| MalformedBootstrapAddress (output : OutputPosition)
| EmptyOutputAddress (output : OutputPosition)
| MalformedWithdrawals
| WrongBlockBodySize (declared actual : Z).

Record PlutusExecutionError : Type := mk_PlutusExecutionError { redeemer_index : Z; budget_exhausted : bool }.

(** The variants the modelled rules construct. *)
Inductive LedgerError : Type :=
| InputNotFound (tx_in : TxIn)
| DuplicateInput (tx_in : TxIn)
| Conservation (e : ConservationError)
| InsufficientFee (e : FeeError)
| AssetUnderflow (e : AssetUnderflowError)
| MissingWitness (e : WitnessError)
| InvalidWitness (e : WitnessError)
| InvalidCertificate (e : CertificateError)
| EraInvalidCertificate (e : EraInvalidCertificateError)
| UnsupportedStateDependentDeposit (e : UnsupportedStateDependentDepositAccounting)
| BadInputs (missing : list TxIn)
| NoCollateralInputs
| InsufficientCollateral (e : InsufficientCollateralError)
| CollateralContainsNonADA
| IncorrectTotalCollateral (balance declared : Z)
| NonDisjointRefInputs (intersection : list TxIn)
| MissingRequiredSigners (missing : list Hash28)
| WrongNetworkInTxBody (declared current : Z)
| WrongNetworkInOutput (address_first_byte current : Z)
| ExUnitsTooBigUTxO (e : ExUnitsTooBigError)
| ValidationEnvironment (e : ValidationEnvironmentError)
| NativeScriptRejected (e : ScriptError)
| ScriptWitnessClosure (e : ScriptClosureFailures)
| ScriptWitnessDerivation (e : ScriptWitnessError)
| UtxoFreeObligation (e : UtxoFreeRejection)
| WitnessClosure (e : WitnessClosureError)
| RequiredSignerDerivation (e : RequiredSignerError)
| PlutusExecutionFailed (e : PlutusExecutionError)
| Decoding (e : DecodingError).

(** [From<CodecError>] *)
Definition codec_ledger_error (e : CodecError) : LedgerError :=
  let '(offset, reason) :=
    match e with
    | InvalidCborStructure offset _ => (offset, InvalidStructure)
    | UnexpectedCborType offset _ _ => (offset, UnexpectedType)
    | TrailingBytes consumed _ => (consumed, Reason_TrailingBytes)
    | UnexpectedEof offset _ => (offset, InvalidStructure)
    | UnknownEraTag _ => (0, UnexpectedType)
    | UnknownCertTag _ offset => (offset, UnexpectedType)
    | InvalidLength offset _ => (offset, InvalidStructure)
    | DuplicateMapKey offset => (offset, InvalidStructure)
    end in
  Decoding (mk_DecodingError offset reason).

(** * Merging one map into another *)

Section Merge.
Context {K V W E : Type} `{TotalOrder K}.
Variable f : K -> option V -> W -> result V E.

(** [for (k, w) in b { *m.entry(k) = f(..)? }] *)
Fixpoint merge_into (m : BTreeMap K V) (b : BTreeMap K W) : result (BTreeMap K V) E :=
  match b with
  | [] => Ok m
  | (k, w) :: b =>
      match f k (bt_get m k) w with
      | Ok v => merge_into (bt_insert m k v) b
      | Err e => Err e
      end
  end.

Lemma merge_ordered b : forall m m', ordered m -> merge_into m b = Ok m' -> ordered m'.
Proof.
  induction b as [|[k w] b IH]; cbn; intros m m' Hm Hr; [congruence|].
  destruct (f k _ w) as [v|e]; [|done]. exact (IH _ _ (insert_ordered _ _ _ Hm) Hr).
Qed.

Lemma ordered_head k (w : W) (b : BTreeMap K W) k' : ordered ((k, w) :: b) -> is_Some (bt_get b k') -> k <> k'.
Proof.
  intros [_ Hk]%ordered_cons [w' Hg] <-. by rewrite get_above in Hg.
Qed.

Lemma merge_get b : forall m m', ordered b -> merge_into m b = Ok m' -> forall k,
  match bt_get b k with
  | None => bt_get m' k = bt_get m k
  | Some w => exists v, f k (bt_get m k) w = Ok v /\ bt_get m' k = Some v
  end.
Proof.
  induction b as [|[k0 w0] b IH]; cbn [merge_into]; intros m m' Ho Hr k; [cbn; congruence|].
  destruct (f k0 _ w0) as [v0|e] eqn:Ef; [|done]. pose proof Ho as [Hb Hk]%ordered_cons.
  specialize (IH _ _ Hb Hr k). cbn [bt_get]. destruct (cmp k k0) eqn:Ec.
  - apply cmp_eq in Ec as ->. rewrite (get_above b k0 Hk) in IH. rewrite get_insert in IH. by exists v0.
  - assert (k0 <> k) by (intros <-; by rewrite cmp_refl in Ec). by rewrite get_insert_ne in IH.
  - assert (k0 <> k) by (intros <-; by rewrite cmp_refl in Ec). by rewrite get_insert_ne in IH.
Qed.

Lemma merge_total b : forall m, ordered b ->
  (forall k w, bt_get b k = Some w -> is_ok (f k (bt_get m k) w) = true) -> is_ok (merge_into m b) = true.
Proof.
  induction b as [|[k0 w0] b IH]; cbn [merge_into]; intros m Ho Hf; [done|].
  pose proof (Hf k0 w0) as H0. cbn [bt_get] in H0. rewrite cmp_refl in H0. specialize (H0 eq_refl).
  destruct (f k0 _ w0) as [v0|e]; [|done]. pose proof Ho as [Hb _]%ordered_cons. apply IH; [done|].
  intros k w Hg. pose proof (ordered_head _ _ _ k Ho ltac:(by eexists)) as Hne.
  rewrite get_insert_ne by done. apply Hf. cbn [bt_get].
  destruct (cmp k k0) eqn:Ec; [by apply cmp_eq in Ec as ->|done..].
Qed.

Lemma merge_error b : forall m e, ordered b -> merge_into m b = Err e ->
  exists k w, bt_get b k = Some w /\ f k (bt_get m k) w = Err e.
Proof.
  induction b as [|[k0 w0] b IH]; cbn [merge_into]; intros m e Ho Hr; [done|].
  destruct (f k0 _ w0) as [v0|e0] eqn:Ef.
  - pose proof Ho as [Hb _]%ordered_cons. destruct (IH _ _ Hb Hr) as (k & w & Hg & He).
    pose proof (ordered_head _ _ _ k Ho ltac:(by eexists)) as Hne. rewrite get_insert_ne in He by done.
    exists k, w. split; [|done]. cbn [bt_get]. destruct (cmp k k0) eqn:Ec; [by apply cmp_eq in Ec as ->|done..].
  - injection Hr as ->. exists k0, w0. cbn [bt_get]. by rewrite cmp_refl.
Qed.
End Merge.

(** * Asset bundles ([value.rs]) *)

Definition is_empty (ma : MultiAsset) : bool := match ma with [] => true | _ => false end.

(** [prune_zeros]: the two nested [retain]s. *)
Definition nonzero (e : AssetName * Z) : bool := negb (snd e =? 0).
Definition prune_policy (e : Hash28 * BTreeMap AssetName Z) : option (Hash28 * BTreeMap AssetName Z) :=
  match List.filter nonzero (snd e) with [] => None | assets => Some (fst e, assets) end.
Definition prune_zeros (ma : MultiAsset) : MultiAsset := omap prune_policy ma.

(** One asset of a bundle, against the entry already there. *)
Definition add_asset (name : AssetName) (current : option Z) (qty : Z) : result Z LedgerError :=
  ok_or (checked_add (default 0 current) qty) (Conservation (mk_ConservationError 0 0)).
Definition sub_asset (policy : Hash28) (name : AssetName) (current : option Z) (qty : Z) : result Z LedgerError :=
  ok_or (checked_sub (default 0 current) qty) (AssetUnderflow (mk_AssetUnderflowError policy name)).

Definition multi_asset_add (a b : MultiAsset) : result MultiAsset LedgerError :=
  let? r := merge_into (fun _ entry b_assets => merge_into add_asset (default [] entry) b_assets) a b in
  Ok (prune_zeros r).
Definition multi_asset_sub (a b : MultiAsset) : result MultiAsset LedgerError :=
  let? r := merge_into (fun policy entry b_assets => merge_into (sub_asset policy) (default [] entry) b_assets) a b in
  Ok (prune_zeros r).

Definition value_add (a b : Value) : result Value LedgerError :=
  let? c := ok_or (checked_add (coin a) (coin b)) (Conservation (mk_ConservationError (coin a) (coin b))) in
  let? ma := multi_asset_add (multi_asset a) (multi_asset b) in Ok (mk_Value c ma).
Definition value_sub (a b : Value) : result Value LedgerError :=
  let? c := ok_or (checked_sub (coin a) (coin b)) (Conservation (mk_ConservationError (coin a) (coin b))) in
  let? ma := multi_asset_sub (multi_asset a) (multi_asset b) in Ok (mk_Value c ma).

#[global] Instance MultiAsset_eq_dec : EqDecision MultiAsset := _.

Definition check_conservation (consumed produced : Value) (fee : Coin) : result unit LedgerError :=
  let? produced_plus_fee := ok_or (checked_add (coin produced) fee)
                              (Conservation (mk_ConservationError (coin consumed) (coin produced))) in
  if negb (coin consumed =? produced_plus_fee)
  then Err (Conservation (mk_ConservationError (coin consumed) produced_plus_fee)) else
  if negb (bool_decide (multi_asset consumed = multi_asset produced))
  then Err (Conservation (mk_ConservationError (coin consumed) produced_plus_fee)) else Ok tt.

(** * Quantities *)

Definition quantity (ma : MultiAsset) (policy : Hash28) (name : AssetName) : Z :=
  match bt_get ma policy with Some assets => default 0 (bt_get assets name) | None => 0 end.

Definition assets_ok (assets : BTreeMap AssetName Z) : Prop :=
  ordered assets /\ Forall (fun a => is_u64 (snd a)) assets.
Definition bundle_ok (ma : MultiAsset) : Prop :=
  ordered ma /\ Forall (fun e => assets_ok (snd e)) ma.

(** No zero and no empty policy is kept. *)
Definition canonical (ma : MultiAsset) : Prop :=
  bundle_ok ma /\ Forall (fun e => snd e <> [] /\ Forall (fun a => snd a <> 0) (snd e)) ma.

Lemma ordered_omap {K V W} `{TotalOrder K} (f : K * V -> option (K * W)) (m : BTreeMap K V) :
  (forall e e', f e = Some e' -> fst e' = fst e) -> ordered m -> ordered (omap f m).
Proof.
  intros Hf. induction m as [|[k v] m IH]; [constructor|]. intros [Ho Hk]%ordered_cons. cbn [omap list_omap].
  destruct (f (k, v)) as [[k' w]|] eqn:E; [|by apply IH]. apply Hf in E. cbn in E. subst k'.
  apply ordered_cons. split; [by apply IH|]. apply Forall_forall. intros x Hx.
  apply list_elem_of_omap in Hx as (y & Hy & Ey). rewrite (Hf _ _ Ey). rewrite Forall_forall in Hk. by apply Hk.
Qed.

Lemma get_value {K V} `{TotalOrder K} (m : BTreeMap K V) (P : K * V -> Prop) k v :
  Forall P m -> bt_get m k = Some v -> P (k, v).
Proof.
  induction 1 as [|[k' v'] m Hp _ IH]; [done|]. cbn. destruct (cmp k k') eqn:E; [|done..].
  apply cmp_eq in E as ->. by intros [= <-].
Qed.

Lemma get_nonzero (assets : BTreeMap AssetName Z) name : ordered assets ->
  default 0 (bt_get (List.filter nonzero assets) name) = default 0 (bt_get assets name).
Proof.
  induction assets as [|[n q] l IH]; [done|]. intros [Ho Hk]%ordered_cons. cbn [List.filter].
  unfold nonzero at 1. cbn [snd]. destruct (Z.eqb_spec q 0) as [->|Hq]; cbn [negb bt_get].
  - rewrite (IH Ho). destruct (cmp name n) eqn:E; [|done..]. apply cmp_eq in E as ->. by rewrite get_above.
  - destruct (cmp name n); [done|by apply IH..].
Qed.

Lemma get_pruned ma p : ordered ma ->
  bt_get (prune_zeros ma) p =
    match bt_get ma p with
    | Some assets => match List.filter nonzero assets with [] => None | l => Some l end
    | None => None
    end.
Proof.
  induction ma as [|[k assets] ma IH]; [done|]. intros [Ho Hk]%ordered_cons. cbn [prune_zeros omap list_omap bt_get].
  unfold prune_policy at 1. cbn [fst snd]. specialize (IH Ho). unfold prune_zeros in IH.
  destruct (cmp p k) eqn:E.
  - apply cmp_eq in E as ->. rewrite (get_above ma k Hk) in IH.
    destruct (List.filter nonzero assets) as [|a l]; [done|]. cbn [bt_get]. by rewrite cmp_refl.
  - destruct (List.filter nonzero assets) as [|a l]; [done|]. cbn [bt_get]. by rewrite E.
  - destruct (List.filter nonzero assets) as [|a l]; [done|]. cbn [bt_get]. by rewrite E.
Qed.

Lemma quantity_pruned ma p n : bundle_ok ma -> quantity (prune_zeros ma) p n = quantity ma p n.
Proof.
  intros [Ho Ha]. unfold quantity. rewrite get_pruned by done.
  destruct (bt_get ma p) as [assets|] eqn:E; [|done]. apply (get_value _ _ _ _ Ha) in E as [Hs _]. cbn in Hs.
  rewrite <- (get_nonzero _ n Hs). by destruct (List.filter nonzero assets).
Qed.

Lemma pruned_canonical ma : bundle_ok ma -> canonical (prune_zeros ma).
Proof.
  intros [Ho Ha]. assert (Hp : forall e e', prune_policy e = Some e' ->
    e' = (fst e, List.filter nonzero (snd e)) /\ List.filter nonzero (snd e) <> []).
  { intros [k l] e'. unfold prune_policy. cbn [fst snd]. by destruct (List.filter nonzero l); [|intros [= <-]]. }
  split; [split|].
  - apply ordered_omap; [|done]. intros e e' E. by apply Hp in E as [-> _].
  - apply Forall_forall. intros e' (e & He & E)%list_elem_of_omap. apply Hp in E as [-> _]. cbn [snd].
    rewrite Forall_forall in Ha. destruct (Ha _ He) as [Hs Hu]. split; [by apply ordered_filter|].
    apply Forall_forall. intros a [Hin _]%list_elem_of_In%filter_In. rewrite Forall_forall in Hu. by apply Hu, list_elem_of_In.
  - apply Forall_forall. intros e' (e & He & E)%list_elem_of_omap. apply Hp in E as [-> Hne]. cbn [snd].
    split; [done|]. apply Forall_forall. intros a [_ Hz]%list_elem_of_In%filter_In.
    unfold nonzero in Hz. by apply negb_true_iff, Z.eqb_neq in Hz.
Qed.

(** A canonical bundle is determined by its quantities. *)
Lemma canonical_entry ma p assets n q : canonical ma -> bt_get ma p = Some assets -> bt_get assets n = Some q -> q <> 0.
Proof. intros [_ Hc] Hp Hn. apply (get_value _ _ _ _ Hc) in Hp as [_ Hz]. by apply (get_value _ _ _ _ Hz) in Hn. Qed.

Lemma canonical_get a b p : canonical a -> canonical b -> (forall n, quantity a p n = quantity b p n) ->
  forall assets, bt_get a p = Some assets -> bt_get b p = Some assets.
Proof.
  intros Ha Hb Hq assets Ea. unfold quantity in Hq. rewrite Ea in Hq.
  destruct (bt_get b p) as [assets'|] eqn:Eb.
  - f_equal. symmetry. apply ordered_ext.
    + by apply (get_value _ _ _ _ (proj2 (proj1 Ha))) in Ea as [? _].
    + by apply (get_value _ _ _ _ (proj2 (proj1 Hb))) in Eb as [? _].
    + intros n. specialize (Hq n). destruct (bt_get assets n) as [q|] eqn:E1, (bt_get assets' n) as [q'|] eqn:E2; cbn in Hq;
        [by subst| | |done].
      * by apply (canonical_entry _ _ _ _ _ Ha Ea) in E1.
      * by apply (canonical_entry _ _ _ _ _ Hb Eb) in E2.
  - apply (get_value _ _ _ _ (proj2 Ha)) in Ea as Hn. destruct Hn as [Hne Hz]. cbn [snd] in *.
    destruct assets as [|[n q] l]; [done|]. specialize (Hq n). cbn [bt_get] in Hq. rewrite cmp_refl in Hq. cbn [default] in Hq.
    apply Forall_cons in Hz as [Hz _]. done.
Qed.

Lemma canonical_ext a b : canonical a -> canonical b -> (forall p n, quantity a p n = quantity b p n) -> a = b.
Proof.
  intros Ha Hb Hq. apply ordered_ext; [apply Ha|apply Hb|]. intros p.
  destruct (bt_get a p) as [assets|] eqn:Ea.
  - symmetry. exact (canonical_get a b p Ha Hb (Hq p) _ Ea).
  - destruct (bt_get b p) as [assets|] eqn:Eb; [|done].
    by rewrite (canonical_get b a p Hb Ha (fun n => eq_sym (Hq p n)) _ Eb) in Ea.
Qed.

(** * Addition and subtraction are exact *)

Section Combine.
Variables (op : Z -> Z -> option Z) (err : Hash28 -> AssetName -> LedgerError).

Definition combine_asset (p : Hash28) (n : AssetName) (current : option Z) (qty : Z) : result Z LedgerError :=
  ok_or (op (default 0 current) qty) (err p n).
Definition combine (a b : MultiAsset) : result MultiAsset LedgerError :=
  let? r := merge_into (fun p entry b_assets => merge_into (combine_asset p) (default [] entry) b_assets) a b in
  Ok (prune_zeros r).

Context (Hunit : forall x, is_u64 x -> op x 0 = Some x)
  (Hfits : forall x y z, is_u64 x -> is_u64 y -> op x y = Some z -> is_u64 z).

Lemma assets_default (l : option (BTreeMap AssetName Z)) : (forall x, l = Some x -> assets_ok x) -> assets_ok (default [] l).
Proof. intros Hl. destruct l as [x|]; [by apply Hl|]. split; constructor. Qed.

Lemma assets_value l n : assets_ok l -> is_u64 (default 0 (bt_get l n)).
Proof.
  intros [_ Hu]. destruct (bt_get l n) as [q|] eqn:E; [by apply (get_value _ _ _ _ Hu) in E|]. cbn. width. lia.
Qed.

Lemma combine_assets p l b l' : assets_ok l -> assets_ok b -> merge_into (combine_asset p) l b = Ok l' ->
  assets_ok l' /\ forall n, op (default 0 (bt_get l n)) (default 0 (bt_get b n)) = Some (default 0 (bt_get l' n)).
Proof.
  intros Hl Hb Hr. pose proof (merge_ordered _ _ _ _ (proj1 Hl) Hr) as Ho'.
  assert (Hn : forall n, op (default 0 (bt_get l n)) (default 0 (bt_get b n)) = Some (default 0 (bt_get l' n))).
  { intros n. pose proof (merge_get _ _ _ _ (proj1 Hb) Hr n) as Hg. destruct (bt_get b n) as [q|]; cbn [default].
    - destruct Hg as (v & Hv & ->). by apply ok_or_ok in Hv.
    - rewrite Hg. by apply Hunit, assets_value. }
  split; [|done]. split; [done|]. apply Forall_forall. intros [n q] Hin. cbn [snd].
  apply (get_elem _ _ _ Ho') in Hin. specialize (Hn n). rewrite Hin in Hn. cbn [default] in Hn.
  exact (Hfits _ _ _ (assets_value _ _ Hl) (assets_value _ _ Hb) Hn).
Qed.

Lemma bundle_assets ma p x : bundle_ok ma -> bt_get ma p = Some x -> assets_ok x.
Proof. intros [_ Ha] E. by apply (get_value _ _ _ _ Ha) in E. Qed.

Lemma quantity_default ma p n : quantity ma p n = default 0 (bt_get (default [] (bt_get ma p)) n).
Proof. unfold quantity. by destruct (bt_get ma p). Qed.

Lemma quantity_u64 ma p n : bundle_ok ma -> is_u64 (quantity ma p n).
Proof. intros Hm. rewrite quantity_default. apply assets_value, assets_default. intros x. by apply bundle_assets. Qed.

Lemma combine_exact a b : bundle_ok a -> bundle_ok b ->
  match combine a b with
  | Ok r => canonical r /\ forall p n, op (quantity a p n) (quantity b p n) = Some (quantity r p n)
  | Err e => exists p n, e = err p n /\ op (quantity a p n) (quantity b p n) = None
  end.
Proof.
  intros Ha Hb. unfold combine. set (f := fun p entry b_assets => _).
  destruct (merge_into f a b) as [r|e] eqn:Er; cbn [rbind].
  - pose proof (merge_ordered _ _ _ _ (proj1 Ha) Er) as Ho. pose proof (merge_get _ _ _ _ (proj1 Hb) Er) as Hg.
    assert (Hp : forall p, assets_ok (default [] (bt_get r p)) /\
      forall n, op (quantity a p n) (quantity b p n) = Some (default 0 (bt_get (default [] (bt_get r p)) n))).
    { intros p. specialize (Hg p). pose proof (fun x => bundle_assets a p x Ha) as Hap.
      destruct (bt_get b p) as [bs|] eqn:Eb.
      - destruct Hg as (l & Hl & ->). cbn [default].
        destruct (combine_assets p _ _ _ (assets_default _ Hap) (bundle_assets _ _ _ Hb Eb) Hl) as [Hok Hq].
        split; [done|]. intros n. rewrite !quantity_default, Eb. apply Hq.
      - rewrite Hg. split; [by apply assets_default|]. intros n. rewrite <- quantity_default.
        replace (quantity b p n) with 0 by (unfold quantity; by rewrite Eb). by apply Hunit, quantity_u64. }
    assert (Hr : bundle_ok r).
    { split; [done|]. apply Forall_forall. intros [p l] Hin. apply (get_elem _ _ _ Ho) in Hin.
      destruct (Hp p) as [Hok _]. by rewrite (f_equal (default []) Hin : default [] (bt_get r p) = l) in Hok. }
    split; [by apply pruned_canonical|]. intros p n. rewrite quantity_pruned, (quantity_default r) by done. apply Hp.
  - apply merge_error in Er as (p & bs & Eb & Er); [|apply Hb].
    apply merge_error in Er as (n & q & En & Er); [|by apply (bundle_assets b p)].
    exists p, n. unfold combine_asset, ok_or in Er. rewrite !quantity_default, Eb. cbn [default from_option id]. rewrite En. cbn [default from_option id].
    by destruct (op _ q); [|injection Er as <-].
Qed.
End Combine.

Definition value_ok (v : Value) : Prop := is_u64 (coin v) /\ bundle_ok (multi_asset v).

Lemma add_zero x : is_u64 x -> checked_add x 0 = Some x.
Proof. intros Hx. rewrite checked_add_fits by (width; lia). f_equal. lia. Qed.
Lemma add_fits x y z : is_u64 x -> is_u64 y -> checked_add x y = Some z -> is_u64 z.
Proof. intros Hx Hy [-> Hz]%checked_add_some. width. lia. Qed.
Lemma sub_zero x : is_u64 x -> checked_sub x 0 = Some x.
Proof. intros Hx. rewrite checked_sub_fits by (width; lia). f_equal. lia. Qed.
Lemma sub_fits x y z : is_u64 x -> is_u64 y -> checked_sub x y = Some z -> is_u64 z.
Proof. intros Hx Hy [-> Hz]%checked_sub_some. width. lia. Qed.
Lemma add_none x y : checked_add x y = None -> u64_max < x + y.
Proof. intros Hn. destruct (Z.le_gt_cases (x + y) u64_max) as [Hl|]; [by rewrite checked_add_fits in Hn|lia]. Qed.
Lemma sub_none x y : checked_sub x y = None -> x < y.
Proof. intros Hn. destruct (Z.le_gt_cases y x) as [Hl|]; [by rewrite checked_sub_fits in Hn|lia]. Qed.

(** [value_add] adds the coins and every asset, or reports that the coins or some asset do not
    fit 64 bits. *)
Lemma value_add_exact a b : value_ok a -> value_ok b ->
  match value_add a b with
  | Ok v => coin v = coin a + coin b /\ value_ok v /\ canonical (multi_asset v) /\
      forall p n, quantity (multi_asset v) p n = quantity (multi_asset a) p n + quantity (multi_asset b) p n
  | Err e =>
      (u64_max < coin a + coin b /\ e = Conservation (mk_ConservationError (coin a) (coin b))) \/
      exists p n, u64_max < quantity (multi_asset a) p n + quantity (multi_asset b) p n
  end.
Proof.
  intros [Hca Ha] [Hcb Hb]. unfold value_add. destruct (checked_add (coin a) (coin b)) as [c|] eqn:Ec; cbn [ok_or rbind].
  - pose proof (add_fits _ _ _ Hca Hcb Ec) as Hc. apply checked_add_some in Ec as [-> _].
    pose proof (combine_exact checked_add (fun _ _ => Conservation (mk_ConservationError 0 0)) add_zero add_fits _ _ Ha Hb) as Hx.
    change (combine _ _ _ _) with (multi_asset_add (multi_asset a) (multi_asset b)) in Hx.
    destruct (multi_asset_add _ _) as [r|e]; cbn [rbind coin multi_asset].
    + destruct Hx as [Hr Hq]. split_and!; [done|by split; [|apply Hr]|done|]. intros p n.
      specialize (Hq p n). by apply checked_add_some in Hq as [-> _].
    + destruct Hx as (p & n & _ & Hn). right. exists p, n. by apply add_none.
  - left. by apply add_none in Ec.
Qed.

(** [value_sub] subtracts the coins and every asset, or names what would go below zero. *)
Lemma value_sub_exact a b : value_ok a -> value_ok b ->
  match value_sub a b with
  | Ok v => coin v = coin a - coin b /\ value_ok v /\ canonical (multi_asset v) /\
      forall p n, quantity (multi_asset v) p n = quantity (multi_asset a) p n - quantity (multi_asset b) p n
  | Err e =>
      (coin a < coin b /\ e = Conservation (mk_ConservationError (coin a) (coin b))) \/
      exists p n, e = AssetUnderflow (mk_AssetUnderflowError p n) /\
        quantity (multi_asset a) p n < quantity (multi_asset b) p n
  end.
Proof.
  intros [Hca Ha] [Hcb Hb]. unfold value_sub. destruct (checked_sub (coin a) (coin b)) as [c|] eqn:Ec; cbn [ok_or rbind].
  - pose proof (sub_fits _ _ _ Hca Hcb Ec) as Hc. apply checked_sub_some in Ec as [-> _].
    pose proof (combine_exact checked_sub (fun p n => AssetUnderflow (mk_AssetUnderflowError p n)) sub_zero sub_fits _ _ Ha Hb) as Hx.
    change (combine _ _ _ _) with (multi_asset_sub (multi_asset a) (multi_asset b)) in Hx.
    destruct (multi_asset_sub _ _) as [r|e]; cbn [rbind coin multi_asset].
    + destruct Hx as [Hr Hq]. split_and!; [done|by split; [|apply Hr]|done|]. intros p n.
      specialize (Hq p n). by apply checked_sub_some in Hq as [-> _].
    + destruct Hx as (p & n & -> & Hn). right. exists p, n. split; [done|by apply sub_none].
  - left. by apply sub_none in Ec.
Qed.

(** Subtracting what was added gives the value back. *)
Lemma value_sub_add a b v : value_ok a -> value_ok b -> canonical (multi_asset a) ->
  value_add a b = Ok v -> value_sub v b = Ok a.
Proof.
  intros Ha Hb Hc Hv. pose proof (value_add_exact a b Ha Hb) as Hx. rewrite Hv in Hx.
  destruct Hx as (Ec & Hok & Hcv & Hq). pose proof (value_sub_exact v b Hok Hb) as Hy.
  destruct (value_sub v b) as [w|e].
  - destruct Hy as (Ew & _ & Hw & Hqw). f_equal. destruct w as [cw mw], a as [ca ma]. cbn in *. f_equal; [lia|].
    apply canonical_ext; [done..|]. intros p n. rewrite Hqw, Hq. lia.
  - destruct Hb as [Hbc Hbb]. destruct Ha as [Hac Hab]. exfalso. destruct Hy as [[Hl _]|(p & n & _ & Hl)].
    + width. lia.
    + rewrite Hq in Hl. pose proof (quantity_u64 _ p n Hab) as Hu. width. lia.
Qed.

Lemma check_conservation_ok consumed produced fee : is_u64 (coin consumed) ->
  check_conservation consumed produced fee = Ok tt <->
  coin consumed = coin produced + fee /\ multi_asset consumed = multi_asset produced.
Proof.
  intros Hc. unfold check_conservation. destruct (checked_add _ fee) as [s|] eqn:Es; cbn [ok_or rbind].
  - apply checked_add_some in Es as [-> _]. destruct (Z.eqb_spec (coin consumed) (coin produced + fee)) as [->|];
      cbn [negb]; [|split; [done|tauto]]. case_bool_decide; cbn [negb]; split; tauto || done.
  - apply add_none in Es. split; [done|]. intros [E _]. width. lia.
Qed.
