(* ===== verification/Utxo.v ===== *)
(** The UTxO set: the overlay store of [ade_ledger/src/utxo_overlay.rs], the operations of
    [utxo.rs] on it, and the fingerprint cache of [fingerprint.rs] ([UtxoFpCache]).

    The anchor behind its [Arc] is never written, so sharing it is sharing a value.  The theorems:
    the store refines the plain map it replaces, whatever is inserted, removed and compacted, and
    keeps its overlay bounded; and the cache answers as the full scan does along one lineage.

    The last part is the fingerprint itself: the entry encoding of [ade_ledger/src/fingerprint.rs],
    the set commitment of [ade_crypto/src/utxo_set_commitment.rs] and its incremental maintenance
    ([IncrementalUtxoFp]).  The Ristretto group is third-party code: the class [Ristretto], with the
    laws of a commutative group as [RistrettoLaws]. *)

From S2P Require Import Prelude Cbor EraSchedule Leader BTree LedgerValue.

(** * Outputs ([utxo.rs]) *)

Inductive Address : Type :=
| Address_Base (bytes : list Z)
| Address_Pointer (bytes : list Z)
| Address_Enterprise (bytes : list Z)
| Address_Byron (bytes : list Z)
| Address_Reward (bytes : list Z).

Definition as_bytes (a : Address) : list Z :=
  match a with
  | Address_Base b | Address_Pointer b | Address_Enterprise b | Address_Byron b | Address_Reward b => b
  end.

Inductive TxOut : Type :=
| Out_Byron (address : Address) (c : Coin)
| Out_ShelleyMary (address : list Z) (value : Value)
| Out_AlonzoPlus (raw address : list Z) (c : Coin).

Definition out_coin (o : TxOut) : Coin :=
  match o with
  | Out_Byron _ c => c
  | Out_ShelleyMary _ value => coin value
  | Out_AlonzoPlus _ _ c => c
  end.

Definition address_bytes (o : TxOut) : list Z :=
  match o with
  | Out_Byron address _ => as_bytes address
  | Out_ShelleyMary address _ => address
  | Out_AlonzoPlus _ address _ => address
  end.

Definition UtxoMap : Type := BTreeMap TxIn TxOut.

(** * The overlay store ([utxo_overlay.rs]) *)

Definition MAX_OVERLAY_ENTRIES : Z := 100000.

Record OverlayUtxo : Type := mk_OverlayUtxo {
  utxo_anchor : UtxoMap;
  overlay : BTreeMap TxIn (option TxOut);
  generation : Z;
}.

Definition overlay_new : OverlayUtxo := mk_OverlayUtxo [] [] 0.
Definition overlay_from_map (m : UtxoMap) : OverlayUtxo := mk_OverlayUtxo m [] 0.

Definition overlay_get (o : OverlayUtxo) (tx_in : TxIn) : option TxOut :=
  match bt_get (overlay o) tx_in with
  | Some (Some out) => Some out
  | Some None => None
  | None => bt_get (utxo_anchor o) tx_in
  end.

Definition overlay_contains (o : OverlayUtxo) (tx_in : TxIn) : bool :=
  match overlay_get o tx_in with Some _ => true | None => false end.

Definition apply_slot (m : UtxoMap) (e : TxIn * option TxOut) : UtxoMap :=
  match snd e with Some out => bt_insert m (fst e) out | None => bt_remove m (fst e) end.
Definition to_map (o : OverlayUtxo) : UtxoMap := fold_left apply_slot (overlay o) (utxo_anchor o).

(** The streaming merge. *)
Definition emit (k : TxIn) (slot : option TxOut) (rest : UtxoMap) : UtxoMap :=
  match slot with Some v => (k, v) :: rest | None => rest end.
Fixpoint merged (anchor : UtxoMap) : BTreeMap TxIn (option TxOut) -> UtxoMap :=
  fix go (overlay : BTreeMap TxIn (option TxOut)) : UtxoMap :=
    match anchor, overlay with
    | [], [] => []
    | (ak, av) :: anchor', [] => (ak, av) :: merged anchor' []
    | [], (ok, slot) :: overlay' => emit ok slot (go overlay')
    | (ak, av) :: anchor', (ok, slot) :: overlay' =>
        match cmp ak ok with
        | Lt => (ak, av) :: merged anchor' overlay
        | Gt => emit ok slot (go overlay')
        | Eq => emit ok slot (merged anchor' overlay')
        end
    end.
Definition overlay_iter (o : OverlayUtxo) : UtxoMap := merged (utxo_anchor o) (overlay o).

Definition count_slot (anchor : UtxoMap) (n : Z) (e : TxIn * option TxOut) : Z :=
  match snd e, bt_contains anchor (fst e) with
  | Some _, false => n + 1
  | None, true => n - 1
  | _, _ => n
  end.
Definition overlay_len (o : OverlayUtxo) : Z := fold_left (count_slot (utxo_anchor o)) (overlay o) (blen (utxo_anchor o)).

Definition compact (o : OverlayUtxo) : OverlayUtxo :=
  match overlay o with [] => o | _ => mk_OverlayUtxo (to_map o) [] (generation o) end.
Definition maybe_compact (o : OverlayUtxo) : OverlayUtxo :=
  if MAX_OVERLAY_ENTRIES <? blen (overlay o) then compact o else o.

(** An entry of the overlay with the new generation. *)
Definition record_slot (o : OverlayUtxo) (tx_in : TxIn) (slot : option TxOut) : OverlayUtxo :=
  maybe_compact (mk_OverlayUtxo (utxo_anchor o) (bt_insert (overlay o) tx_in slot) (as_u64 (generation o + 1))).

Definition overlay_insert (o : OverlayUtxo) (tx_in : TxIn) (out : TxOut) : OverlayUtxo := record_slot o tx_in (Some out).
Definition overlay_remove (o : OverlayUtxo) (tx_in : TxIn) : option TxOut * OverlayUtxo :=
  match overlay_get o tx_in with
  | Some current => (Some current, record_slot o tx_in None)
  | None => (None, o)
  end.

(** * Stores ([utxo.rs]) *)

(** The traits [UtxoMembership] and [UtxoStore]. *)
Class UtxoStore (S : Type) : Type := {
  contains_key : S -> TxIn -> bool;
  store_get : S -> TxIn -> option TxOut;
}.

(** Membership is answerable without the value, and agrees with it. *)
Class UtxoStoreLaws (S : Type) `{UtxoStore S} : Prop :=
  membership s k : contains_key s k = match store_get s k with Some _ => true | None => false end.

#[export] Instance map_store : UtxoStore UtxoMap := {| contains_key := bt_contains; store_get := bt_get |}.
#[export] Instance overlay_store : UtxoStore OverlayUtxo := {| contains_key := overlay_contains; store_get := overlay_get |}.
#[export] Instance map_store_laws : UtxoStoreLaws UtxoMap.
Proof. done. Qed.
#[export] Instance overlay_store_laws : UtxoStoreLaws OverlayUtxo.
Proof. done. Qed.

(** [UTxOState] wraps the overlay store. *)
Record UTxOState : Type := mk_UTxOState { utxos : OverlayUtxo }.

Definition utxo_insert (state : UTxOState) (tx_in : TxIn) (out : TxOut) : UTxOState :=
  mk_UTxOState (overlay_insert (utxos state) tx_in out).

Definition utxo_delete (state : UTxOState) (tx_in : TxIn) : result (UTxOState * TxOut) LedgerError :=
  match overlay_remove (utxos state) tx_in with
  | (Some out, store) => Ok (mk_UTxOState store, out)
  | (None, _) => Err (InputNotFound tx_in)
  end.

Definition utxo_lookup (state : UTxOState) (tx_in : TxIn) : option TxOut := overlay_get (utxos state) tx_in.

Definition seen (l : list TxIn) (i : TxIn) : bool := existsb (fun j => match cmp i j with Eq => true | _ => false end) l.
Fixpoint duplicate_inputs (found : list TxIn) (inputs : list TxIn) : result unit LedgerError :=
  match inputs with
  | [] => Ok tt
  | i :: inputs => if seen found i then Err (DuplicateInput i) else duplicate_inputs (i :: found) inputs
  end.
Definition check_duplicate_inputs (inputs : list TxIn) : result unit LedgerError := duplicate_inputs [] inputs.

(** * Counting the entries of a map *)

Section Length.
Context {K V : Type} `{TotalOrder K}.
Implicit Types m : BTreeMap K V.

Lemma contains_spec m k : bt_contains m k = match bt_get m k with Some _ => true | None => false end.
Proof. done. Qed.

Lemma blen_insert m k v : ordered m -> blen (bt_insert m k v) = blen m + (if bt_contains m k then 0 else 1).
Proof.
  induction m as [|[k' v'] m IH]; [done|]. intros [Ho Hk]%ordered_cons. rewrite contains_spec in *. cbn [bt_insert bt_get].
  destruct (cmp k k') eqn:E; rewrite ?blen_cons.
  - lia.
  - rewrite get_above; [lia|]. eapply Forall_impl; [exact Hk|]. intros x Hx. by eapply cmp_lt_trans.
  - rewrite IH by done. lia.
Qed.

Lemma remove_absent m k : bt_get m k = None -> bt_remove m k = m.
Proof.
  unfold bt_remove. induction m as [|[k' v'] m IH]; [done|]. cbn [bt_get List.filter].
  destruct (cmp k k'); [done|intros Hg; by rewrite IH..].
Qed.

Lemma blen_remove m k : ordered m -> blen (bt_remove m k) = blen m - (if bt_contains m k then 1 else 0).
Proof.
  unfold bt_remove. induction m as [|[k' v'] m IH]; [done|]. intros [Ho Hk]%ordered_cons.
  specialize (IH Ho). rewrite contains_spec in *. cbn [bt_get List.filter].
  destruct (cmp k k') eqn:E; rewrite ?blen_cons, ?IH; [|lia..].
  apply cmp_eq in E as ->. rewrite (get_above m k' Hk). lia.
Qed.
End Length.

(** * The effective set *)

Lemma apply_slot_ordered m e : ordered m -> ordered (apply_slot m e).
Proof. intros Ho. unfold apply_slot. destruct (snd e); [by apply insert_ordered|by apply remove_ordered]. Qed.

Lemma apply_slot_get m k slot k' :
  bt_get (apply_slot m (k, slot)) k' = if bool_decide (k = k') then slot else bt_get m k'.
Proof.
  unfold apply_slot. cbn [fst snd]. case_bool_decide as Hk; [subst k'|]; destruct slot as [v|];
    [apply get_insert|apply get_remove|by apply get_insert_ne|by apply get_remove_ne].
Qed.

Lemma slots_ordered l : forall m, ordered m -> ordered (fold_left apply_slot l m).
Proof. induction l as [|e l IH]; [done|]. intros m Ho. by apply IH, apply_slot_ordered. Qed.

Lemma slots_get l : forall m k, ordered l ->
  bt_get (fold_left apply_slot l m) k = match bt_get l k with Some slot => slot | None => bt_get m k end.
Proof.
  induction l as [|[k0 slot0] l IH]; [done|]. intros m k [Ho Hk]%ordered_cons. cbn [fold_left bt_get].
  rewrite IH, apply_slot_get by done. case_bool_decide as Hc.
  - subst k0. by rewrite get_above, cmp_refl.
  - destruct (cmp k k0) eqn:E; [|done..]. by apply cmp_eq in E as ->.
Qed.

Lemma slots_length l : forall m anchor, ordered m -> ordered l ->
  (forall k, is_Some (bt_get l k) -> bt_get m k = bt_get anchor k) ->
  blen (fold_left apply_slot l m) = fold_left (count_slot anchor) l (blen m).
Proof.
  induction l as [|[k slot] l IH]; [done|]. intros m anchor Hm Ho Ha. pose proof Ho as [Hl Hk]%ordered_cons.
  cbn [fold_left]. rewrite (IH _ anchor); [|by apply apply_slot_ordered|done|].
  - f_equal. specialize (Ha k). cbn [bt_get] in Ha. rewrite cmp_refl in Ha. specialize (Ha ltac:(by eexists)).
    unfold count_slot, apply_slot. cbn [fst snd]. rewrite (contains_spec anchor), <- Ha, <- contains_spec.
    destruct slot; [rewrite blen_insert by done|rewrite blen_remove by done]; destruct (bt_contains m k); lia.
  - intros k' Hk'. pose proof (ordered_head _ _ _ _ Ho Hk') as Hne. rewrite apply_slot_get, bool_decide_eq_false_2 by done.
    apply Ha. cbn [bt_get]. destruct (cmp k' k) eqn:E; [by apply cmp_eq in E as ->|done..].
Qed.

(** * The streaming merge *)

Lemma merged_keys m : forall l (P : TxIn -> Prop),
  Forall (fun e => P (fst e)) m -> Forall (fun e => P (fst e)) l -> Forall (fun e => P (fst e)) (merged m l).
Proof.
  induction m as [|[ak av] m IHm]; intros l P; induction l as [|[ok slot] l IHl]; intros Hm Hl; cbn [merged].
  - done.
  - apply Forall_cons in Hl as [Hk Hl]. destruct slot; cbn [emit]; [constructor; [done|]|]; by apply IHl.
  - done || (apply Forall_cons in Hm as [? ?]; constructor; [done|by apply IHm]).
  - pose proof Hm as [Ha Hm']%Forall_cons. pose proof Hl as [Hk Hl']%Forall_cons.
    destruct (cmp ak ok); [destruct slot; cbn [emit]; [constructor; [done|]|]; by apply IHm|constructor; [done|by apply IHm]|].
    destruct slot; cbn [emit]; [constructor; [done|]|]; by apply IHl.
Qed.

Lemma merged_ordered m : forall l, ordered m -> ordered l -> ordered (merged m l).
Proof.
  induction m as [|[ak av] m IHm]; intros l; induction l as [|[ok slot] l IHl]; intros Hm Hl; cbn [merged].
  - done.
  - apply ordered_cons in Hl as [Hl Hk]. destruct slot; cbn [emit]; [|by apply IHl].
    apply ordered_cons. split; [by apply IHl|]. by apply (merged_keys [] l (fun k => cmp ok k = Lt)).
  - apply ordered_cons in Hm as [Hm Hk]. apply ordered_cons. split; [by apply IHm|].
    by apply (merged_keys m [] (fun k => cmp ak k = Lt)).
  - pose proof Hm as [Hm' Ha]%ordered_cons. pose proof Hl as [Hl' Hk]%ordered_cons. destruct (cmp ak ok) eqn:E.
    + apply cmp_eq in E as <-. destruct slot; cbn [emit]; [|by apply IHm]. apply ordered_cons. split; [by apply IHm|].
      by apply (merged_keys m l (fun k => cmp ak k = Lt)).
    + apply ordered_cons. split; [by apply IHm|]. apply (merged_keys m _ (fun k => cmp ak k = Lt)); [done|].
      constructor; [done|]. eapply Forall_impl; [exact Hk|]. intros x Hx. by eapply cmp_lt_trans.
    + apply cmp_gt in E. destruct slot; cbn [emit]; [|by apply IHl]. apply ordered_cons. split; [by apply IHl|].
      apply (merged_keys ((ak, av) :: m) l (fun k => cmp ok k = Lt)); [|done].
      constructor; [done|]. eapply Forall_impl; [exact Ha|]. intros x Hx. by eapply cmp_lt_trans.
Qed.

Lemma emit_get k0 slot rest k : bt_get rest k0 = None ->
  bt_get (emit k0 slot rest) k = match cmp k k0 with Eq => slot | _ => bt_get rest k end.
Proof.
  intros Hn. destruct slot as [v|]; cbn [emit bt_get]; [done|].
  destruct (cmp k k0) eqn:E; [by apply cmp_eq in E as ->|done..].
Qed.

Lemma merged_above m l k : Forall (fun e => cmp k (fst e) = Lt) m -> Forall (fun e => cmp k (fst e) = Lt) l ->
  bt_get (merged m l) k = None.
Proof. intros Hm Hl. by apply get_above, (merged_keys m l (fun k' => cmp k k' = Lt)). Qed.

Lemma above_trans {V} (l : list (TxIn * V)) a b : cmp a b = Lt ->
  Forall (fun e => cmp b (fst e) = Lt) l -> Forall (fun e => cmp a (fst e) = Lt) l.
Proof. intros Hab Hl. eapply Forall_impl; [exact Hl|]. intros x Hx. by eapply cmp_lt_trans. Qed.

Lemma merged_get m : forall l k, ordered m -> ordered l ->
  bt_get (merged m l) k = match bt_get l k with Some slot => slot | None => bt_get m k end.
Proof.
  induction m as [|[ak av] m IHm]; intros l; induction l as [|[ok slot] l IHl]; intros k Hm Hl; cbn [merged].
  - done.
  - apply ordered_cons in Hl as [Hl Hk]. rewrite emit_get, IHl by (done || by apply (merged_above [])).
    cbn [bt_get]. by destruct (cmp k ok).
  - apply ordered_cons in Hm as [Hm _]. cbn [bt_get]. rewrite IHm by (done || constructor). by destruct (cmp k ak).
  - pose proof Hm as [Hm' Ha]%ordered_cons. pose proof Hl as [Hl' Hk]%ordered_cons. destruct (cmp ak ok) eqn:E.
    + apply cmp_eq in E as <-. rewrite emit_get, IHm by (done || by apply merged_above). cbn [bt_get].
      by destruct (cmp k ak).
    + cbn [bt_get]. rewrite IHm by done. destruct (cmp k ak) eqn:E'; [|done..].
      apply cmp_eq in E' as ->. cbn [bt_get]. rewrite E, get_above; [done|by eapply above_trans].
    + apply cmp_gt in E. change ((fix go (l : BTreeMap TxIn (option TxOut)) := _) l) with (merged ((ak, av) :: m) l).
      rewrite emit_get, IHl; [|done..|apply merged_above; [constructor; [done|by eapply above_trans]|done]].
      cbn [bt_get]. by destruct (cmp k ok).
Qed.

(** * The invariant, and every operation against the plain map *)

Record overlay_ok (o : OverlayUtxo) : Prop := mk_overlay_ok {
  anchor_ordered : ordered (utxo_anchor o);
  overlay_ordered : ordered (overlay o);
  overlay_bounded : blen (overlay o) <= MAX_OVERLAY_ENTRIES;
  generation_u64 : is_u64 (generation o);
}.

Lemma to_map_ordered o : overlay_ok o -> ordered (to_map o).
Proof. intros Ho. by apply slots_ordered, anchor_ordered. Qed.

Lemma to_map_get o k : overlay_ok o -> bt_get (to_map o) k = overlay_get o k.
Proof.
  intros Ho. unfold to_map, overlay_get. rewrite slots_get by by apply overlay_ordered.
  by destruct (bt_get (overlay o) k) as [[]|].
Qed.

Lemma iter_to_map o : overlay_ok o -> overlay_iter o = to_map o.
Proof.
  intros Ho. pose proof (anchor_ordered o Ho) as Ha. pose proof (overlay_ordered o Ho) as Hl.
  apply ordered_ext; [by apply merged_ordered|by apply to_map_ordered|]. intros k. unfold overlay_iter.
  rewrite merged_get by done. unfold to_map. by rewrite slots_get.
Qed.

Lemma len_to_map o : overlay_ok o -> overlay_len o = blen (to_map o).
Proof.
  intros Ho. symmetry. by apply slots_length; [apply anchor_ordered|apply overlay_ordered|].
Qed.

Lemma from_map_ok m : ordered m -> overlay_ok (overlay_from_map m) /\ to_map (overlay_from_map m) = m.
Proof. intros Hm. split; [|done]. split; [done|constructor|by vm_compute|by split]. Qed.

Lemma compact_map o : to_map (compact o) = to_map o.
Proof. unfold compact. by destruct (overlay o) eqn:E. Qed.

Lemma compact_ok o : overlay_ok o -> overlay_ok (compact o).
Proof.
  intros Ho. unfold compact. destruct (overlay o) eqn:E; [done|].
  split; cbn [utxo_anchor overlay generation]; [by apply to_map_ordered|constructor|by vm_compute|apply Ho].
Qed.

Lemma record_map o k slot : overlay_ok o -> to_map (record_slot o k slot) = apply_slot (to_map o) (k, slot).
Proof.
  intros Ho. pose proof (anchor_ordered o Ho) as Ha. pose proof (overlay_ordered o Ho) as Hl. unfold record_slot, maybe_compact.
  assert (E : to_map (mk_OverlayUtxo (utxo_anchor o) (bt_insert (overlay o) k slot) (as_u64 (generation o + 1))) =
    apply_slot (to_map o) (k, slot)).
  { apply ordered_ext; [by apply slots_ordered|by apply apply_slot_ordered, to_map_ordered|]. intros k'.
    unfold to_map. cbn [utxo_anchor overlay]. rewrite slots_get, apply_slot_get, slots_get by (done || by apply insert_ordered).
    case_bool_decide as Hc; [subst k'; by rewrite get_insert|by rewrite get_insert_ne]. }
  destruct (MAX_OVERLAY_ENTRIES <? _); [|done]. by rewrite compact_map.
Qed.

Lemma record_ok o k slot : overlay_ok o -> overlay_ok (record_slot o k slot).
Proof.
  intros Ho. pose proof (anchor_ordered o Ho) as Ha. pose proof (overlay_ordered o Ho) as Hl. unfold record_slot, maybe_compact.
  pose proof (insert_ordered _ k slot Hl) as Hi.
  assert (Hg : is_u64 (as_u64 (generation o + 1))).
  { unfold as_u64. pose proof (Z.mod_pos_bound (generation o + 1) 18446744073709551616 eq_refl). width. lia. }
  cbn [overlay]. destruct (Z.ltb_spec MAX_OVERLAY_ENTRIES (blen (bt_insert (overlay o) k slot))) as [Hb|Hb]; [|by split].
  unfold compact. cbn [overlay]. destruct (bt_insert (overlay o) k slot) eqn:E; [by split; [| |vm_compute|]|].
  split; [by apply slots_ordered|constructor|by vm_compute|done].
Qed.

(** * Sequences of operations *)

Inductive UtxoOp : Type := Op_Insert (tx_in : TxIn) (out : TxOut) | Op_Remove (tx_in : TxIn) | Op_Compact.

(** What an operation leaves, and what it hands back. *)
Definition overlay_op (o : OverlayUtxo) (op : UtxoOp) : option TxOut * OverlayUtxo :=
  match op with
  | Op_Insert tx_in out => (None, overlay_insert o tx_in out)
  | Op_Remove tx_in => overlay_remove o tx_in
  | Op_Compact => (None, compact o)
  end.

(** The same on the plain map. *)
Definition map_op (m : UtxoMap) (op : UtxoOp) : option TxOut * UtxoMap :=
  match op with
  | Op_Insert tx_in out => (None, bt_insert m tx_in out)
  | Op_Remove tx_in => (bt_get m tx_in, bt_remove m tx_in)
  | Op_Compact => (None, m)
  end.

Fixpoint run_ops {S} (op : S -> UtxoOp -> option TxOut * S) (s : S) (ops : list UtxoOp) : list (option TxOut) * S :=
  match ops with
  | [] => ([], s)
  | o :: ops => let '(r, s) := op s o in let '(rs, s) := run_ops op s ops in (r :: rs, s)
  end.

Lemma op_refines o op : overlay_ok o ->
  overlay_ok (snd (overlay_op o op)) /\ fst (overlay_op o op) = fst (map_op (to_map o) op) /\
  to_map (snd (overlay_op o op)) = snd (map_op (to_map o) op).
Proof.
  intros Ho. destruct op as [k out|k|]; cbn [overlay_op map_op fst snd].
  - split_and!; [by apply record_ok|done|by apply record_map].
  - unfold overlay_remove. rewrite (to_map_get o k Ho). destruct (overlay_get o k) as [out|] eqn:E; cbn [fst snd].
    + split_and!; [by apply record_ok|done|by apply record_map].
    + split_and!; [done..|]. symmetry. apply remove_absent. by rewrite to_map_get.
  - split_and!; [by apply compact_ok|done|apply compact_map].
Qed.

Lemma run_refines ops : forall o, overlay_ok o ->
  overlay_ok (snd (run_ops overlay_op o ops)) /\
  fst (run_ops overlay_op o ops) = fst (run_ops map_op (to_map o) ops) /\
  to_map (snd (run_ops overlay_op o ops)) = snd (run_ops map_op (to_map o) ops).
Proof.
  induction ops as [|op ops IH]; intros o Ho; [done|]. cbn [run_ops].
  pose proof (op_refines o op Ho) as Hr. destruct (overlay_op o op) as [r o1], (map_op (to_map o) op) as [r' m1].
  cbn [fst snd] in Hr. destruct Hr as (Ho1 & -> & <-). specialize (IH o1 Ho1).
  destruct (run_ops overlay_op o1 ops) as [rs o2], (run_ops map_op (to_map o1) ops) as [rs' m2]. cbn [fst snd] in *.
  destruct IH as (? & -> & ->). done.
Qed.

(** C37. The overlay store refines a plain map of outputs.  Whatever is inserted, removed and
    compacted, in whatever order, a removal hands back what the map holds, and every way of looking
    at the store (the lookup, the membership test, the number of entries, the streaming iteration
    and the materialized set) shows that map; the overlay never exceeds its bound. *)
Theorem overlay_refines_map (o : OverlayUtxo) (ops : list UtxoOp) (Ho : overlay_ok o) :
  let '(removed, o') := run_ops overlay_op o ops in
  let '(expected, m) := run_ops map_op (to_map o) ops in
  removed = expected /\ to_map o' = m /\ overlay_iter o' = m /\ overlay_len o' = blen m /\
  (forall k, overlay_get o' k = bt_get m k /\ overlay_contains o' k = bt_contains m k) /\
  ordered m /\ blen (overlay o') <= MAX_OVERLAY_ENTRIES.
Proof.
  pose proof (run_refines ops o Ho) as Hr.
  destruct (run_ops overlay_op o ops) as [removed o'], (run_ops map_op (to_map o) ops) as [expected m].
  destruct Hr as (Ho' & He & Hm). cbn [fst snd] in Ho', He, Hm. subst removed m.
  split_and!; [done|done|by apply iter_to_map|by apply len_to_map| |by apply to_map_ordered|by apply overlay_bounded].
  intros k. unfold overlay_contains, bt_contains. by rewrite to_map_get.
Qed.

(** * The fingerprint cache ([fingerprint.rs], [UtxoFpCache]) *)

Section Cache.
(** [fingerprint_utxo_v2] reads the entries of the set and nothing else. *)
Variable fingerprint_utxo : UtxoMap -> Hash32.

Definition UtxoFpCache : Type := option (Z * Hash32).

Definition utxo_fingerprint (cache : UtxoFpCache) (o : OverlayUtxo) : Hash32 * UtxoFpCache :=
  let refresh := let fp := fingerprint_utxo (overlay_iter o) in (fp, Some (generation o, fp)) in
  match cache with
  | Some (cached_gen, fp) => if cached_gen =? generation o then (fp, cache) else refresh
  | None => refresh
  end.

(** The loops that keep a cache: the set advances by an operation, its fingerprint is asked for,
    or a rollback replaces the set, after which the cache is emptied. *)
Inductive CacheEvent : Type := Ev_Advance (op : UtxoOp) | Ev_Fingerprint | Ev_Replace (o : OverlayUtxo).

Definition cache_step (s : OverlayUtxo * UtxoFpCache) (e : CacheEvent) : list Hash32 * (OverlayUtxo * UtxoFpCache) :=
  let '(o, cache) := s in
  match e with
  | Ev_Advance op => ([], (snd (overlay_op o op), cache))
  | Ev_Fingerprint => let '(fp, cache) := utxo_fingerprint cache o in ([fp], (o, cache))
  | Ev_Replace o => ([], (o, None))
  end.

Fixpoint cache_run (s : OverlayUtxo * UtxoFpCache) (es : list CacheEvent) : list Hash32 :=
  match es with
  | [] => []
  | e :: es => let '(fps, s) := cache_step s e in fps ++ cache_run s es
  end.

(** The full scan at every question. *)
Fixpoint scan_run (o : OverlayUtxo) (es : list CacheEvent) : list Hash32 :=
  match es with
  | [] => []
  | Ev_Advance op :: es => scan_run (snd (overlay_op o op)) es
  | Ev_Fingerprint :: es => fingerprint_utxo (to_map o) :: scan_run o es
  | Ev_Replace o :: es => scan_run o es
  end.

(** The cached generation lies [d] mutations back; with none since, the set is the cached one. *)
Definition cache_ok (n : Z) (o : OverlayUtxo) (cache : UtxoFpCache) : Prop :=
  match cache with
  | None => True
  | Some (g, fp) => is_u64 g /\ exists d, 0 <= d <= n /\ generation o = as_u64 (g + d) /\
      (d = 0 -> fp = fingerprint_utxo (to_map o))
  end.

Lemma record_generation o k slot : generation (record_slot o k slot) = as_u64 (generation o + 1).
Proof.
  unfold record_slot, maybe_compact, compact. cbn [overlay generation].
  destruct (_ <? _); [|done]. by destruct (bt_insert (overlay o) k slot).
Qed.

(** An operation is counted by the generation, or leaves the set as it is. *)
Lemma op_generation o op :
  generation (snd (overlay_op o op)) = as_u64 (generation o + 1) \/
  generation (snd (overlay_op o op)) = generation o /\ to_map (snd (overlay_op o op)) = to_map o.
Proof.
  destruct op as [k out|k|]; cbn [overlay_op snd].
  - left. apply record_generation.
  - unfold overlay_remove. destruct (overlay_get o k); cbn [snd]; [left; apply record_generation|by right].
  - right. split; [unfold compact; by destruct (overlay o)|apply compact_map].
Qed.

Lemma as_u64_id x : is_u64 x -> as_u64 x = x.
Proof. intros Hx. apply Z.mod_small. width. lia. Qed.
Lemma as_u64_succ x : as_u64 (as_u64 x + 1) = as_u64 (x + 1).
Proof. unfold as_u64. by rewrite Zplus_mod_idemp_l. Qed.

Lemma cache_advance n o cache op : cache_ok n o cache -> cache_ok (n + 1) (snd (overlay_op o op)) cache.
Proof.
  destruct cache as [[g fp]|]; [|done]. intros (Hg & d & Hd & Hgen & Hfp). split; [done|].
  destruct (op_generation o op) as [E|[E Em]]; rewrite E.
  - exists (d + 1). split_and!; [lia..| |lia]. rewrite Hgen, as_u64_succ. f_equal. lia.
  - exists d. split_and!; [lia..|done|]. by rewrite Em.
Qed.

Lemma same_generation g d : is_u64 g -> 0 <= d <= u64_max -> as_u64 (g + d) = g -> d = 0.
Proof.
  intros Hg Hd He. destruct (Z.le_gt_cases (g + d) u64_max) as [Hle|Hgt].
  - rewrite as_u64_id in He by (width; lia). lia.
  - assert (Hs : as_u64 (g + d) = g + d - 18446744073709551616); [|width; lia].
    symmetry. apply (Z.mod_unique _ _ 1); width; lia.
Qed.

Lemma cache_query n o cache : overlay_ok o -> n <= u64_max -> cache_ok n o cache -> 0 <= n ->
  fst (utxo_fingerprint cache o) = fingerprint_utxo (to_map o) /\
  cache_ok n o (snd (utxo_fingerprint cache o)).
Proof.
  intros Ho Hn Hc H0. pose proof (generation_u64 o Ho) as Hgu.
  assert (Hfresh : cache_ok n o (Some (generation o, fingerprint_utxo (overlay_iter o)))).
  { split; [done|]. exists 0. split_and!; [lia..| |by rewrite iter_to_map]. by rewrite Z.add_0_r, as_u64_id. }
  unfold utxo_fingerprint. destruct cache as [[g fp]|]; cbn [fst snd]; [|by rewrite iter_to_map at 1].
  destruct (Z.eqb_spec g (generation o)) as [Hg|Hg]; cbn [fst snd]; [|by rewrite iter_to_map at 1].
  split; [|done]. destruct Hc as (Hgg & d & Hd & Hgen & Hfp). apply Hfp.
  apply (same_generation g); [done|lia|congruence].
Qed.

Lemma cache_run_exact es : forall n o cache, overlay_ok o -> 0 <= n -> n + blen es <= u64_max -> cache_ok n o cache ->
  Forall (fun e => match e with Ev_Replace o' => overlay_ok o' | _ => True end) es ->
  cache_run (o, cache) es = scan_run o es.
Proof.
  induction es as [|e es IH]; intros n o cache Ho H0 Hn Hc He; [done|]. rewrite blen_cons in Hn.
  pose proof (blen_nonneg es). apply Forall_cons in He as [He Hes]. destruct e as [op| |o']; cbn [cache_run cache_step scan_run].
  - apply (IH (n + 1)); [by apply op_refines|lia|lia|by apply cache_advance|done].
  - destruct (cache_query n o cache Ho ltac:(lia) Hc H0) as [Hf Hc'].
    destruct (utxo_fingerprint cache o) as [fp cache']. cbn [fst snd] in Hf, Hc'. subst fp. cbn [app]. f_equal.
    apply (IH n); [done|lia|lia|done|done].
  - apply (IH n); [done|lia|lia|done|done].
Qed.

(** The cached fingerprint is the fingerprint of the set: however the set is advanced and
    replaced between two questions, the answer is the one a full scan would give, as long as the
    cache is emptied when the set is replaced and fewer than 2^64 events pass. *)
Theorem fingerprint_cache_exact o es (Ho : overlay_ok o) (Hn : blen es <= u64_max)
    (He : Forall (fun e => match e with Ev_Replace o' => overlay_ok o' | _ => True end) es) :
  cache_run (o, None) es = scan_run o es.
Proof. by apply (cache_run_exact es 0). Qed.
End Cache.

(** * The bytes of an entry *)

Definition write_array_canonical (buf : list Z) (count : Z) : list Z :=
  write_array_header buf (Definite count (canonical_width count)).
Definition write_map_canonical (buf : list Z) (count : Z) : list Z :=
  write_map_header buf (Definite count (canonical_width count)).

Definition write_tx_in (buf : list Z) (i : TxIn) : list Z :=
  write_uint_canonical (write_bytes_canonical (write_array_canonical buf 2) (tx_hash i)) (tx_index i).

Definition write_asset (buf : list Z) (a : AssetName * Z) : list Z :=
  write_uint_canonical (write_bytes_canonical buf (fst a)) (snd a).
Definition write_policy (buf : list Z) (p : Hash28 * BTreeMap AssetName Z) : list Z :=
  fold_left write_asset (snd p) (write_map_canonical (write_bytes_canonical buf (fst p)) (blen (snd p))).
Definition write_multi_asset (buf : list Z) (ma : MultiAsset) : list Z :=
  fold_left write_policy ma (write_map_canonical buf (blen ma)).
Definition write_value (buf : list Z) (v : Value) : list Z :=
  write_multi_asset (write_uint_canonical (write_array_canonical buf 2) (coin v)) (multi_asset v).

Definition write_tx_out (buf : list Z) (o : TxOut) : list Z :=
  match o with
  | Out_Byron address c =>
      let buf := write_uint_canonical (write_array_canonical buf 3) 0 in
      write_uint_canonical (write_bytes_canonical buf (as_bytes address)) c
  | Out_ShelleyMary address value =>
      let buf := write_uint_canonical (write_array_canonical buf 3) 1 in
      write_value (write_bytes_canonical buf address) value
  | Out_AlonzoPlus raw address c =>
      let buf := write_uint_canonical (write_array_canonical buf 5) 2 in
      write_uint_canonical (write_uint_canonical (write_bytes_canonical buf address) c) (blen raw) ++ raw
  end.

Definition v2_entry_bytes (i : TxIn) (o : TxOut) : list Z := write_tx_out (write_tx_in [] i) o.

(** * The set commitment *)

Class Ristretto : Type := {
  Point : Type;
  point_identity : Point;
  point_add : Point -> Point -> Point;
  point_sub : Point -> Point -> Point;
  from_uniform_bytes : list Z -> Point;
  compress : Point -> list Z;
  blake2b_512 : list Z -> list Z;
}.

Class RistrettoLaws `{Ristretto} : Prop := {
  point_add_comm a b : point_add a b = point_add b a;
  point_add_assoc a b c : point_add a (point_add b c) = point_add (point_add a b) c;
  point_sub_add a b : point_sub (point_add a b) b = a;
}.

Definition ascii_bytes (s : string) : list Z := map (fun a => Z.of_N (Ascii.N_of_ascii a)) (String.list_ascii_of_string s).
Definition DOMAIN_ENTRY : list Z := ascii_bytes "ade.utxo.fp.v2.entry".
Definition DOMAIN_DIGEST : list Z := ascii_bytes "ade/fp/utxo/v2".

Section Commitment.
Context `{Ristretto, Crypto}.

Definition entry_point (canonical_entry_bytes : list Z) : Point :=
  from_uniform_bytes (blake2b_512 (DOMAIN_ENTRY ++ canonical_entry_bytes)).

Definition UtxoSetCommitment : Type := Point.
Definition commitment_empty : UtxoSetCommitment := point_identity.
Definition commitment_add (c : UtxoSetCommitment) (bytes : list Z) : UtxoSetCommitment := point_add c (entry_point bytes).
Definition commitment_remove (c : UtxoSetCommitment) (bytes : list Z) : UtxoSetCommitment := point_sub c (entry_point bytes).
Definition commitment_digest (c : UtxoSetCommitment) : Hash32 := blake2b_256 (DOMAIN_DIGEST ++ compress c).

Definition commit_entry (c : UtxoSetCommitment) (e : TxIn * TxOut) : UtxoSetCommitment :=
  commitment_add c (v2_entry_bytes (fst e) (snd e)).
Definition fingerprint_utxo_v2 (entries : UtxoMap) : Hash32 :=
  commitment_digest (fold_left commit_entry entries commitment_empty).

(** * Incremental maintenance *)

Definition IncrementalUtxoFp : Type := UtxoSetCommitment.
Definition produce (c : IncrementalUtxoFp) (i : TxIn) (o : TxOut) : IncrementalUtxoFp := commitment_add c (v2_entry_bytes i o).
Definition spend (c : IncrementalUtxoFp) (i : TxIn) (o : TxOut) : IncrementalUtxoFp := commitment_remove c (v2_entry_bytes i o).

(** A validated change of the set: an output at a fresh input, or an output that is there. *)
Inductive UtxoDelta : Type := Produced (i : TxIn) (o : TxOut) | Spent (i : TxIn) (o : TxOut).
Definition delta_valid (m : UtxoMap) (d : UtxoDelta) : Prop :=
  match d with Produced i _ => bt_get m i = None | Spent i o => bt_get m i = Some o end.
Definition delta_map (m : UtxoMap) (d : UtxoDelta) : UtxoMap :=
  match d with Produced i o => bt_insert m i o | Spent i _ => bt_remove m i end.
Definition delta_commit (c : IncrementalUtxoFp) (d : UtxoDelta) : IncrementalUtxoFp :=
  match d with Produced i o => produce c i o | Spent i o => spend c i o end.

Fixpoint deltas_valid (m : UtxoMap) (ds : list UtxoDelta) : Prop :=
  match ds with [] => True | d :: ds => delta_valid m d /\ deltas_valid (delta_map m d) ds end.

Context `{!RistrettoLaws}.

Lemma entry_swap c e e' : commit_entry (commit_entry c e) e' = commit_entry (commit_entry c e') e.
Proof. unfold commit_entry, commitment_add. by rewrite <- !point_add_assoc, (point_add_comm (entry_point _)). Qed.

Lemma commit_swap m : forall c e, fold_left commit_entry m (commit_entry c e) = commit_entry (fold_left commit_entry m c) e.
Proof. induction m as [|e' m IH]; [done|]. intros c e. cbn [fold_left]. by rewrite entry_swap, IH. Qed.

Lemma commit_insert m k v : forall c, bt_get m k = None ->
  fold_left commit_entry (bt_insert m k v) c = produce (fold_left commit_entry m c) k v.
Proof.
  change (produce ?c k v) with (commit_entry c (k, v)).
  induction m as [|[k' v'] m IH]; [done|]. intros c. cbn [bt_get bt_insert]. destruct (cmp k k'); [done|..]; intros Hg.
  - cbn [fold_left]. by rewrite entry_swap, commit_swap.
  - cbn [fold_left]. by rewrite IH.
Qed.

Lemma commit_remove m k v : forall c, ordered m -> bt_get m k = Some v ->
  fold_left commit_entry (bt_remove m k) c = spend (fold_left commit_entry m c) k v.
Proof.
  induction m as [|[k' v'] m IH]; [done|]. intros c [Ho Hk]%ordered_cons. unfold bt_remove. cbn [bt_get List.filter].
  fold (bt_remove m k). destruct (cmp k k') eqn:E; intros Hg.
  - apply cmp_eq in E as <-. injection Hg as ->. rewrite (remove_absent m k) by by apply get_above. cbn [fold_left].
    rewrite commit_swap. symmetry. apply point_sub_add.
  - cbn [fold_left]. by apply IH.
  - cbn [fold_left]. by apply IH.
Qed.

Lemma delta_commits d m : ordered m -> delta_valid m d ->
  delta_commit (fold_left commit_entry m commitment_empty) d = fold_left commit_entry (delta_map m d) commitment_empty.
Proof.
  intros Ho Hd. destruct d as [k v|k v]; cbn [delta_commit delta_map delta_valid] in *; symmetry;
    [by apply commit_insert|by apply commit_remove].
Qed.

Lemma delta_ordered d m : ordered m -> ordered (delta_map m d).
Proof. intros Ho. destruct d; [by apply insert_ordered|by apply remove_ordered]. Qed.

(** The running commitment is the one of a full scan, after any sequence of validated changes. *)
Lemma incremental_fp_exact ds : forall m, ordered m -> deltas_valid m ds ->
  commitment_digest (fold_left delta_commit ds (fold_left commit_entry m commitment_empty)) =
  fingerprint_utxo_v2 (fold_left delta_map ds m).
Proof.
  induction ds as [|d ds IH]; intros m Ho Hd; [done|]. destruct Hd as [Hd Hds]. cbn [fold_left].
  rewrite delta_commits by done. apply IH; [by apply delta_ordered|done].
Qed.
End Commitment.
