(* ===== verification/LedgerMaps.v ===== *)
(** Ordered maps and sets as the ledger uses them: domains of maps after an update, removal of a list
    of keys, the sum of a measure over a map's entries; and Rust's [BTreeSet<K>] as the ordered map
    to [unit], whose [elements] is its iteration order. *)

From Stdlib Require Import Sorted.
From S2P Require Import Prelude BTree Utxo.

(** * Domains *)

Section Domains.
Context {K V : Type} `{TotalOrder K} `{EqDecision K}.
Implicit Types m : BTreeMap K V.

Lemma contains_insert m k v k' : bt_contains (bt_insert m k v) k' = bool_decide (k = k') || bt_contains m k'.
Proof.
  unfold bt_contains. case_bool_decide as Hk; [subst k'; by rewrite get_insert|by rewrite get_insert_ne].
Qed.

Lemma contains_remove m k k' : bt_contains (bt_remove m k) k' = negb (bool_decide (k = k')) && bt_contains m k'.
Proof.
  unfold bt_contains. case_bool_decide as Hk; [subst k'; by rewrite get_remove|by rewrite get_remove_ne].
Qed.

Lemma contains_get m k : bt_contains m k = true <-> exists v, bt_get m k = Some v.
Proof. unfold bt_contains. destruct (bt_get m k) as [v|]; split; try done; [by eexists|by intros [v ?]]. Qed.

Lemma get_filter m f k : ordered m ->
  bt_get (List.filter f m) k = match bt_get m k with Some v => if f (k, v) then Some v else None | None => None end.
Proof.
  induction m as [|[k' v'] m IH]; [done|]. intros [Ho Hk]%ordered_cons. specialize (IH Ho). cbn [List.filter bt_get].
  destruct (cmp k k') eqn:E.
  - apply cmp_eq in E as ->. rewrite (get_above m k' Hk) in IH. destruct (f (k', v')); cbn [bt_get]; [by rewrite cmp_refl|done].
  - destruct (f (k', v')); cbn [bt_get]; [by rewrite E|done].
  - destruct (f (k', v')); cbn [bt_get]; [by rewrite E|done].
Qed.

(** In an ordered map, the entries before one lie below it. *)
Lemma ordered_front m m' k v : ordered (m ++ (k, v) :: m') -> Forall (fun x => cmp (fst x) k = Lt) m.
Proof.
  induction m as [|[k' v'] m IH]; intros Ho; [by constructor|]. apply ordered_cons in Ho as [Ho Hk].
  constructor; [|by apply IH]. rewrite Forall_forall in Hk. apply (Hk (k, v)). apply elem_of_app. right. by left.
Qed.

Lemma contains_filter m f k : ordered m -> bt_contains (List.filter f m) k = true -> bt_contains m k = true.
Proof. intros Ho. unfold bt_contains. rewrite get_filter by done. by destruct (bt_get m k). Qed.
End Domains.

Definition dom_sub {K V W} `{TotalOrder K} (m : BTreeMap K V) (m' : BTreeMap K W) : Prop :=
  forall k, bt_contains m k = true -> bt_contains m' k = true.

(** * Removing a list of keys *)

Section RemoveAll.
Context {K V : Type} `{TotalOrder K} `{EqDecision K}.
Implicit Types m : BTreeMap K V.

Lemma remove_list_get ids : forall m k,
  bt_get (fold_left bt_remove ids m) k = if bool_decide (k ∈ ids) then None else bt_get m k.
Proof.
  induction ids as [|i ids IH]; intros m k; cbn [fold_left]; [by rewrite bool_decide_eq_false_2 by set_solver|].
  rewrite IH. destruct (decide (k = i)) as [->|Hne].
  - rewrite (bool_decide_eq_true_2 (i ∈ i :: ids)) by set_solver. rewrite get_remove. by destruct (bool_decide _).
  - rewrite get_remove_ne by done. erewrite bool_decide_ext; [done|]. rewrite elem_of_cons. by intuition.
Qed.

Lemma remove_list_ordered ids : forall m, ordered m -> ordered (fold_left bt_remove ids m).
Proof. induction ids as [|i ids IH]; intros m Hm; [done|]. cbn [fold_left]. apply IH. by apply remove_ordered. Qed.

Lemma contains_map m k : ordered m -> bt_contains m k = true <-> k ∈ map fst m.
Proof.
  intros Hm. rewrite contains_get, list_elem_of_fmap. split.
  - intros [v Hv%get_elem]; [|done]. by exists (k, v).
  - intros ([k' v] & -> & Hv). exists v. by apply get_elem.
Qed.
End RemoveAll.

(** * Sums over maps *)

Definition sum_Z (l : list Z) : Z := foldr Z.add 0 l.

Lemma sum_nil : sum_Z [] = 0.
Proof. done. Qed.
Lemma sum_cons x l : sum_Z (x :: l) = x + sum_Z l.
Proof. done. Qed.

Lemma sum_app l l' : sum_Z (l ++ l') = sum_Z l + sum_Z l'.
Proof. induction l as [|x l IH]; [done|]. cbn. fold (sum_Z (l ++ l')). rewrite IH. unfold sum_Z. lia. Qed.

Lemma sum_nonneg l : Forall (Z.le 0) l -> 0 <= sum_Z l.
Proof. induction 1; cbn; unfold sum_Z in *; lia. Qed.

Section Totals.
Context {K V : Type} `{TotalOrder K} `{EqDecision K} (f : V -> Z).
Implicit Types m : BTreeMap K V.

Definition total m : Z := sum_Z (map (fun e => f (snd e)) m).

Lemma total_cons k v m : total ((k, v) :: m) = f v + total m.
Proof. done. Qed.

Lemma total_insert m k v : ordered m -> total (bt_insert m k v) = total m - from_option f 0 (bt_get m k) + f v.
Proof.
  induction m as [|[k' v'] m IH]; intros Ho; [unfold total; cbn; lia|]. apply ordered_cons in Ho as [Ho Hk].
  cbn [bt_insert bt_get]. destruct (cmp k k') eqn:E; rewrite ?total_cons; cbn [from_option].
  - lia.
  - rewrite get_above; [cbn; lia|]. eapply Forall_impl; [exact Hk|]. intros x. by apply cmp_lt_trans.
  - rewrite (IH Ho). lia.
Qed.

Lemma total_remove m k : ordered m -> total (bt_remove m k) = total m - from_option f 0 (bt_get m k).
Proof.
  intros Ho. destruct (bt_get m k) as [v|] eqn:E; [|rewrite remove_absent by done; cbn; lia].
  pose proof (total_insert (bt_remove m k) k v (remove_ordered m k Ho)) as Hi. rewrite get_remove in Hi.
  enough (bt_insert (bt_remove m k) k v = m) as Hm by (rewrite Hm in Hi; cbn [from_option] in *; lia).
  apply ordered_ext; [by apply insert_ordered, remove_ordered|done|]. intros k'.
  destruct (decide (k = k')) as [<-|Hne]; [by rewrite get_insert|]. by rewrite get_insert_ne, get_remove_ne.
Qed.
End Totals.

(** * Ordered sets *)

Section Sets.
Context {K : Type} `{TotalOrder K}.

Definition BTreeSet : Type := BTreeMap K unit.

Definition set_insert (s : BTreeSet) (k : K) : BTreeSet := bt_insert s k tt.
Definition set_contains (s : BTreeSet) (k : K) : bool := bt_contains s k.
Definition elements (s : BTreeSet) : list K := map fst s.
Definition set_extend (s : BTreeSet) (l : list K) : BTreeSet := fold_left set_insert l s.
(** [collect()] *)
Definition set_of (l : list K) : BTreeSet := set_extend [] l.
Definition set_difference (a b : BTreeSet) : BTreeSet := List.filter (fun e => negb (set_contains b (fst e))) a.
Definition set_intersection (a b : BTreeSet) : BTreeSet := List.filter (fun e => set_contains b (fst e)) a.
Definition set_is_empty (s : BTreeSet) : bool := match s with [] => true | _ => false end.
End Sets.
Arguments BTreeSet : clear implicits.

Section Laws.
Context {K : Type} `{TotalOrder K} `{EqDecision K}.
Implicit Types s : BTreeSet K.

Lemma extend_cons s k l : set_extend s (k :: l) = set_extend (set_insert s k) l.
Proof. done. Qed.

Lemma set_ordered l : forall s, ordered s -> ordered (set_extend s l).
Proof. induction l as [|k l IH]; intros s Hs; [done|]. apply IH. by apply insert_ordered. Qed.

Lemma set_of_ordered l : ordered (set_of l).
Proof. apply set_ordered. constructor. Qed.

Lemma elements_contains s k : ordered s -> k ∈ elements s <-> set_contains s k = true.
Proof. intros Hs. symmetry. by apply contains_map. Qed.

Lemma extend_contains l : forall s k, set_contains (set_extend s l) k = bool_decide (k ∈ l) || set_contains s k.
Proof.
  induction l as [|x l IH]; intros s k.
  - by rewrite bool_decide_eq_false_2 by set_solver.
  - rewrite extend_cons, IH. unfold set_contains, set_insert. rewrite contains_insert.
    destruct (decide (x = k)) as [->|Hne].
    + by rewrite (bool_decide_eq_true_2 (k = k)), (bool_decide_eq_true_2 (k ∈ k :: l)), orb_true_r by set_solver.
    + rewrite (bool_decide_eq_false_2 (x = k)) by done. cbn [orb]. f_equal. apply bool_decide_ext. rewrite elem_of_cons. intuition congruence.
Qed.

(** Ascending elements are inserted at the end. *)
Lemma extend_ascending l : forall s, ordered (s ++ map (fun k => (k, tt)) l) -> set_extend s l = s ++ map (fun k => (k, tt)) l.
Proof.
  induction l as [|k l IH]; intros s Hs; [by rewrite app_nil_r|]. cbn [map] in *. rewrite extend_cons. unfold set_insert.
  rewrite bt_insert_last by by apply (ordered_front s (map (fun k => (k, tt)) l) k tt).
  replace (s ++ (k, tt) :: map _ l) with ((s ++ [(k, tt)]) ++ map (fun k => (k, tt)) l) in * by by rewrite <- app_assoc.
  by apply IH.
Qed.

Lemma set_of_elements s : ordered s -> set_of (elements s) = s.
Proof.
  intros Hs. assert (map (fun k => (k, tt)) (elements s) = s) as E.
  { unfold elements. rewrite map_map. rewrite <- (map_id s) at 2. apply map_ext. by intros [k []]. }
  unfold set_of. by rewrite extend_ascending; cbn [app]; rewrite E.
Qed.

Lemma difference_empty s t : ordered s -> set_difference s t = [] -> forall k, set_contains s k = true -> set_contains t k = true.
Proof.
  intros Hs Hd k Hk. apply contains_get in Hk as [v Hv]. destruct (set_contains t k) eqn:E; [done|].
  pose proof (get_filter s (fun e => negb (set_contains t (fst e))) k Hs) as Hg. rewrite Hv in Hg. cbn [fst] in Hg.
  rewrite E in Hg. unfold set_difference in Hd. by rewrite Hd in Hg.
Qed.

Lemma intersection_empty s t : ordered s -> set_intersection s t = [] -> forall k, set_contains s k = true -> set_contains t k = false.
Proof.
  intros Hs Hd k Hk. apply contains_get in Hk as [v Hv]. destruct (set_contains t k) eqn:E; [|done].
  pose proof (get_filter s (fun e => set_contains t (fst e)) k Hs) as Hg. rewrite Hv in Hg. cbn [fst] in Hg.
  rewrite E in Hg. unfold set_intersection in Hd. by rewrite Hd in Hg.
Qed.
End Laws.

Lemma elements_nodup {K} `{TotalOrder K} (s : BTreeSet K) : ordered s -> NoDup (elements s).
Proof.
  induction s as [|[k v] s IH]; intros Ho; [constructor|]. apply ordered_cons in Ho as [Ho Hk]. cbn. constructor; [|by apply IH].
  intros Hin. apply list_elem_of_fmap in Hin as ([k' v'] & E & Hin). cbn in E. subst k'.
  rewrite Forall_forall in Hk. specialize (Hk _ Hin). cbn in Hk. by rewrite cmp_refl in Hk.
Qed.
