(* ===== verification/ConwayCert.v ===== *)
(** Conway certificates and withdrawals: the types of [ade_types/src/conway/cert.rs] and
    [ade_types/src/shelley/cert.rs], the decoders [ade_codec/src/conway/cert.rs], the pool
    parameters of [ade_codec/src/shelley/cert.rs] and [ade_codec/src/conway/withdrawals.rs].

    A [PoolId] is its 28 bytes; [Vec::with_capacity] is bounded by the input here, so no decoder
    panics. *)

From S2P Require Import Prelude Cbor CborRoundtrip NetCodec Spelling Decoder EraSchedule Leader BTree BlockCodec LedgerValue.

(** * Types *)

Inductive StakeCredential : Type := KeyHash (h : Hash28) | ScriptHash (h : Hash28).

Definition credential_key (c : StakeCredential) : Z * Hash28 :=
  match c with KeyHash h => (0, h) | ScriptHash h => (1, h) end.

(** The derived order: the variant, then the hash. *)
Definition credential_cmp (a b : StakeCredential) : comparison := cmp (credential_key a) (credential_key b).
Lemma credential_cmp_eq a b : credential_cmp a b = Eq <-> a = b.
Proof.
  unfold credential_cmp. rewrite cmp_eq. destruct a, b; cbn; split; congruence.
Qed.
Lemma credential_cmp_antisym a b : credential_cmp b a = CompOpp (credential_cmp a b).
Proof. apply cmp_antisym. Qed.
Lemma credential_cmp_lt_trans a b c : credential_cmp a b = Lt -> credential_cmp b c = Lt -> credential_cmp a c = Lt.
Proof. apply cmp_lt_trans. Qed.
#[export] Instance credential_order : TotalOrder StakeCredential := {|
  cmp := credential_cmp;
  cmp_eq := credential_cmp_eq;
  cmp_antisym := credential_cmp_antisym;
  cmp_lt_trans := credential_cmp_lt_trans;
|}.

Definition PoolId : Type := Hash28.

Record PoolRegistrationCert : Type := mk_PoolRegistrationCert {
  reg_pool_id : PoolId;
  reg_vrf_hash : Hash32;
  reg_pledge : Coin;
  reg_cost : Coin;
  reg_margin : Z * Z;
  reg_reward_account : list Z;
  reg_owners : list Hash28;
}.

Inductive DRep : Type :=
| DRep_KeyHash (h : Hash28)
| DRep_ScriptHash (h : Hash28)
| AlwaysAbstain
| AlwaysNoConfidence.

Inductive ConwayCert : Type :=
| AccountRegistration (credential : StakeCredential)
| AccountUnregistration (credential : StakeCredential)
| StakeDelegation (credential : StakeCredential) (pool_id : PoolId)
| PoolRegistration (c : PoolRegistrationCert)
| PoolRetirement (pool_id : PoolId) (epoch : Z)
| RemovedInConway (tag : Z)
| AccountRegistrationDeposit (credential : StakeCredential) (deposit : Coin)
| AccountUnregistrationDeposit (credential : StakeCredential) (refund : Coin)
| VoteDelegation (credential : StakeCredential) (drep : DRep)
| StakeVoteDelegation (credential : StakeCredential) (pool_id : PoolId) (drep : DRep)
| StakeRegistrationDelegation (credential : StakeCredential) (pool_id : PoolId) (deposit : Coin)
| VoteRegistrationDelegation (credential : StakeCredential) (drep : DRep) (deposit : Coin)
| StakeVoteRegistrationDelegation (credential : StakeCredential) (pool_id : PoolId) (drep : DRep) (deposit : Coin)
| AuthCommitteeHot (cold_credential hot_credential : StakeCredential)
| ResignCommitteeCold (cold_credential : StakeCredential)
| DRepRegistration (drep_credential : StakeCredential) (deposit : Coin)
| DRepUnregistration (drep_credential : StakeCredential) (refund : Coin)
| DRepUpdate (drep_credential : StakeCredential).

Inductive CoinSource : Type := ExplicitInCert (c : Coin) | DepositParam (c : Coin) | RegistrationState (c : Coin).
Inductive DepositEffect : Type := NewDeposit (src : CoinSource) | Refund (src : CoinSource).
Inductive CertDisposition : Type := Accountable (e : DepositEffect) | Neutral | NotValidInConway.

(** * Readers ([shelley/cert.rs]) *)

Definition skip_one : PDec CodecError (Z * Z) := plift id skip_item.

Definition read_hash28 : PDec CodecError Hash28 :=
  dec! bytes := read_bytesv in
  if negb (blen bytes =? 28)
  then fun _ off => (Err (InvalidLength (off - blen bytes) "expected 28-byte hash"), off)
  else pret bytes.
Definition read_pool_id : PDec CodecError PoolId := read_hash28.
Definition read_coin : PDec CodecError Coin := read_u64v.

(** [read_array_header], required to announce [n] elements. *)
Definition array_of (n : Z) (detail : string) : PDec CodecError unit :=
  dec! enc := plift id read_array_header in
  match enc with Definite m _ => if m =? n then pret tt else bad_structure detail | Indefinite => bad_structure detail end.

(** [if peek_major(data, *offset)? == 6 { read_tag(data, offset)?; }] *)
Definition skip_set_tag : PDec CodecError unit := fun data off =>
  match peek_major data off with
  | Err e => (Err e, off)
  | Ok m => if m =? 6 then (dec! _ := plift id read_tag in pret tt) data off else (Ok tt, off)
  end.

(** [for _ in 0..n { v.push(body?); }] *)
Fixpoint pcollect {E A} (n : nat) (body : PDec E A) : PDec E (list A) :=
  match n with
  | O => pret []
  | S n => dec! x := body in dec! xs := pcollect n body in pret (x :: xs)
  end.

(** [is_break(data, offset)?] and [offset += 1] past the break. *)
Definition at_break : PDec CodecError bool := fun data off => (is_break data off, off).
Definition consume_break {E A} (a : A) : PDec E A := fun _ off => (Ok a, off + 1).

(** The elements of an array, of either form. *)
Definition read_elements {A} (body : PDec CodecError A) : PDec CodecError (list A) :=
  dec! enc := plift id read_array_header in
  match enc with
  | Definite n _ => pcollect (Z.to_nat n) body
  | Indefinite => dec! xs := nwhile at_break body in consume_break xs
  end.

Definition read_addr_keyhash_set : PDec CodecError (list Hash28) :=
  dec! _ := skip_set_tag in read_elements read_hash28.

Definition read_pool_registration_cert : PDec CodecError PoolRegistrationCert :=
  dec! pool_id := read_pool_id in
  dec! vrf_hash := read_hash32 in
  dec! pledge := read_u64v in
  dec! cost := read_u64v in
  dec! _ := plift id read_tag in
  dec! _ := array_of 2 "pool margin must be array(2)" in
  dec! margin_num := read_u64v in
  dec! margin_den := read_u64v in
  dec! reward_account := read_bytesv in
  dec! owners := read_addr_keyhash_set in
  pret (mk_PoolRegistrationCert pool_id vrf_hash pledge cost (margin_num, margin_den) reward_account owners).

(** * Certificates ([conway/cert.rs]) *)

(** An error at an offset read before. *)
Definition here : PDec CodecError Z := fun _ off => (Ok off, off).

Definition decode_stake_credential : PDec CodecError StakeCredential :=
  dec! _ := array_of 2 "stake credential must be array(2)" in
  dec! cred_type_offset := here in
  dec! cred_type := read_u64v in
  dec! hash := read_hash28 in
  if cred_type =? 0 then pret (KeyHash hash) else
  if cred_type =? 1 then pret (ScriptHash hash) else
  pfail (InvalidCborStructure cred_type_offset "unknown stake credential type").

(** A non-empty array of definite length. *)
Definition nonempty_array (detail : string) : PDec CodecError unit :=
  dec! enc := plift id read_array_header in
  match enc with Definite n _ => if 1 <=? n then pret tt else bad_structure detail | Indefinite => bad_structure detail end.

Definition decode_drep : PDec CodecError DRep :=
  dec! _ := nonempty_array "drep must be a non-empty definite-length array" in
  dec! variant_offset := here in
  dec! variant := read_u64v in
  if variant =? 0 then dec! h := read_hash28 in pret (DRep_KeyHash h) else
  if variant =? 1 then dec! h := read_hash28 in pret (DRep_ScriptHash h) else
  if variant =? 2 then pret AlwaysAbstain else
  if variant =? 3 then pret AlwaysNoConfidence else
  pfail (InvalidCborStructure variant_offset "unknown drep variant tag").

(** The fields of the certificate with this tag. *)
Definition decode_cert_fields (tag tag_offset : Z) : PDec CodecError ConwayCert :=
  match tag with
  | 0 => dec! c := decode_stake_credential in pret (AccountRegistration c)
  | 1 => dec! c := decode_stake_credential in pret (AccountUnregistration c)
  | 2 => dec! c := decode_stake_credential in dec! p := read_pool_id in pret (StakeDelegation c p)
  | 3 => dec! c := read_pool_registration_cert in pret (PoolRegistration c)
  | 4 => dec! p := read_pool_id in dec! epoch := read_u64v in pret (PoolRetirement p epoch)
  | 5 | 6 => pret (RemovedInConway tag)
  | 7 => dec! c := decode_stake_credential in dec! d := read_coin in pret (AccountRegistrationDeposit c d)
  | 8 => dec! c := decode_stake_credential in dec! r := read_coin in pret (AccountUnregistrationDeposit c r)
  | 9 => dec! c := decode_stake_credential in dec! d := decode_drep in pret (VoteDelegation c d)
  | 10 => dec! c := decode_stake_credential in dec! p := read_pool_id in dec! d := decode_drep in
          pret (StakeVoteDelegation c p d)
  | 11 => dec! c := decode_stake_credential in dec! p := read_pool_id in dec! d := read_coin in
          pret (StakeRegistrationDelegation c p d)
  | 12 => dec! c := decode_stake_credential in dec! r := decode_drep in dec! d := read_coin in
          pret (VoteRegistrationDelegation c r d)
  | 13 => dec! c := decode_stake_credential in dec! p := read_pool_id in dec! r := decode_drep in dec! d := read_coin in
          pret (StakeVoteRegistrationDelegation c p r d)
  | 14 => dec! cold := decode_stake_credential in dec! hot := decode_stake_credential in pret (AuthCommitteeHot cold hot)
  | 15 => dec! cold := decode_stake_credential in pret (ResignCommitteeCold cold)
  | 16 => dec! c := decode_stake_credential in dec! d := read_coin in pret (DRepRegistration c d)
  | 17 => dec! c := decode_stake_credential in dec! r := read_coin in pret (DRepUnregistration c r)
  | 18 => dec! c := decode_stake_credential in pret (DRepUpdate c)
  | _ => pfail (UnknownCertTag tag tag_offset)
  end.

(** The fields are read in place; then the offset moves past the whole array. *)
Definition decode_single_cert : PDec CodecError ConwayCert := fun data cert_start =>
  match (dec! _ := nonempty_array "certificate must be a non-empty definite-length array" in
         dec! tag_offset := here in
         dec! tag := read_u64v in
         decode_cert_fields tag tag_offset) data cert_start with
  | (Err e, off) => (Err e, off)
  | (Ok cert, _) => (dec! _ := skip_one in pret cert) data cert_start
  end.

Definition decode_conway_certs (data : list Z) : result (list ConwayCert) CodecError :=
  match ((if 0 <? blen data then skip_set_tag else pret tt) : PDec CodecError unit) data 0 with
  | (Err e, _) => Err e
  | (Ok _, off) =>
      match read_elements decode_single_cert data off with
      | (Err e, _) => Err e
      | (Ok certs, off) => if negb (off =? blen data) then Err (TrailingBytes off (blen data)) else Ok certs
      end
  end.

(** * Withdrawals ([conway/withdrawals.rs]) *)

Definition RewardAccount : Type := list Z.

Fixpoint decode_withdrawal_entries (n : nat) (map : BTreeMap RewardAccount Coin) :
    PDec CodecError (BTreeMap RewardAccount Coin) :=
  match n with
  | O => pret map
  | S n =>
      dec! key_offset := here in
      dec! key_bytes := read_bytesv in
      if negb (blen key_bytes =? 29) then pfail (InvalidLength key_offset "reward account must be 29 bytes") else
      dec! value := read_u64v in
      match bt_get map key_bytes with
      | Some _ => pfail (DuplicateMapKey key_offset)
      | None => decode_withdrawal_entries n (bt_insert map key_bytes value)
      end
  end.

Definition decode_withdrawals (data : list Z) : result (BTreeMap RewardAccount Coin) CodecError :=
  match read_map_header data 0 with
  | (Err e, _) => Err e
  | (Ok Indefinite, _) => Err (InvalidCborStructure 0 "withdrawals map must be definite-length")
  | (Ok (Definite count _), off) =>
      match decode_withdrawal_entries (Z.to_nat count) [] data off with
      | (Err e, _) => Err e
      | (Ok map, off) => if negb (off =? blen data) then Err (TrailingBytes off (blen data)) else Ok map
      end
  end.

Definition withdrawals_sum (map : BTreeMap RewardAccount Coin) : Z := fold_left (fun s e => s + snd e) map 0.
