(* ===== verification/Delegation.v ===== *)
(** The certificate state: [ade_ledger/src/delegation.rs], the deposit classification of
    [cert_classify.rs] and the governance half of the certificates, [gov_cert.rs].

    Of [ConwayGovState] the three maps the certificates read and write. *)

From S2P Require Import Prelude EraSchedule Leader BTree LedgerValue ConwayCert Utxo.

(** * State *)

Record DelegationState : Type := mk_DelegationState {
  registrations : BTreeMap StakeCredential Coin;
  delegations : BTreeMap StakeCredential PoolId;
  rewards : BTreeMap StakeCredential Coin;
}.

Record PoolParams : Type := mk_PoolParams {
  pool_id : PoolId;
  pool_vrf_hash : Hash32;
  pledge : Coin;
  pool_cost : Coin;
  pool_margin : Z * Z;
  pool_reward_account : list Z;
  owners : list Hash28;
}.

Record PoolState : Type := mk_PoolState {
  pools : BTreeMap PoolId PoolParams;
  future_pools : BTreeMap PoolId PoolParams;
  retiring : BTreeMap PoolId Z;
}.

Record CertState : Type := mk_CertState { delegation : DelegationState; pool : PoolState }.

Definition certificate_error {A} (idx : Z) (r : CertFailureReason) : result A LedgerError :=
  Err (InvalidCertificate (mk_CertificateError idx r)).

(** * One operation per kind of certificate *)

Definition apply_stake_registration (s : CertState) (cred : StakeCredential) (deposit : Coin) (idx : Z) :
    result CertState LedgerError :=
  let d := delegation s in
  if bt_contains (registrations d) cred then certificate_error idx StakeAlreadyRegistered else
  Ok (mk_CertState (mk_DelegationState (bt_insert (registrations d) cred deposit) (delegations d)
                      (bt_insert (rewards d) cred 0)) (pool s)).

Definition apply_stake_deregistration (s : CertState) (cred : StakeCredential) (idx : Z) : result CertState LedgerError :=
  let d := delegation s in
  if negb (bt_contains (registrations d) cred) then certificate_error idx StakeNotRegistered else
  Ok (mk_CertState (mk_DelegationState (bt_remove (registrations d) cred) (bt_remove (delegations d) cred)
                      (bt_remove (rewards d) cred)) (pool s)).

Definition apply_stake_delegation (s : CertState) (cred : StakeCredential) (target : PoolId) (idx : Z) :
    result CertState LedgerError :=
  let d := delegation s in
  if negb (bt_contains (registrations d) cred) then certificate_error idx StakeNotRegistered else
  if negb (bt_contains (pools (pool s)) target) then certificate_error idx PoolNotRegistered else
  Ok (mk_CertState (mk_DelegationState (registrations d) (bt_insert (delegations d) cred target) (rewards d)) (pool s)).

Definition params_of (c : PoolRegistrationCert) : PoolParams :=
  mk_PoolParams (reg_pool_id c) (reg_vrf_hash c) (reg_pledge c) (reg_cost c) (reg_margin c) (reg_reward_account c) (reg_owners c).

(** A first registration is active at once; a second one is staged; either cancels a retirement. *)
Definition apply_pool_registration (s : CertState) (c : PoolRegistrationCert) : CertState :=
  let p := pool s in
  let id := reg_pool_id c in
  if bt_contains (pools p) id
  then mk_CertState (delegation s) (mk_PoolState (pools p) (bt_insert (future_pools p) id (params_of c)) (bt_remove (retiring p) id))
  else mk_CertState (delegation s) (mk_PoolState (bt_insert (pools p) id (params_of c)) (future_pools p) (bt_remove (retiring p) id)).

Definition apply_pool_retirement (s : CertState) (id : PoolId) (epoch : Z) (idx : Z) : result CertState LedgerError :=
  let p := pool s in
  if negb (bt_contains (pools p) id) then certificate_error idx PoolNotRegistered else
  Ok (mk_CertState (delegation s) (mk_PoolState (pools p) (future_pools p) (bt_insert (retiring p) id epoch))).

(** * The epoch boundary *)

Definition adopt_pool (active : BTreeMap PoolId PoolParams) (e : PoolId * PoolParams) : BTreeMap PoolId PoolParams :=
  if bt_contains active (fst e) then bt_insert active (fst e) (snd e) else active.

Definition remove_all {V} (m : BTreeMap PoolId V) (ids : list PoolId) : BTreeMap PoolId V := fold_left bt_remove ids m.

Definition is_in (ids : list PoolId) (id : PoolId) : bool :=
  existsb (fun i => match cmp i id with Eq => true | _ => false end) ids.

Definition apply_pool_reap (s : CertState) (entered_epoch : Z) : CertState :=
  let p := pool s in
  let d := delegation s in
  let active := fold_left adopt_pool (future_pools p) (pools p) in
  let retired := map fst (List.filter (fun e => snd e =? entered_epoch) (retiring p)) in
  mk_CertState
    (mk_DelegationState (registrations d) (List.filter (fun e => negb (is_in retired (snd e))) (delegations d)) (rewards d))
    (mk_PoolState (remove_all active retired) [] (remove_all (retiring p) retired)).

(** * Conway certificates *)

Inductive GovernanceCertEffect : Type :=
| Effect_VoteDelegation | Effect_StakeVoteDelegation | CommitteeHotKeyAuthorization | CommitteeColdKeyResignation
| Effect_DRepRegistration | Effect_DRepUnregistration | Effect_DRepUpdate | AccountVoteDelegationRemoval.

Inductive ConwayCertAction : Type :=
| MutateCertState
| Governance (e : GovernanceCertEffect)
| CertStateAndGovernance (e : GovernanceCertEffect)
| NotValidInEra.

Definition conway_cert_action (cert : ConwayCert) : ConwayCertAction :=
  match cert with
  | AccountRegistration _ | StakeDelegation _ _ | PoolRegistration _ | PoolRetirement _ _
  | AccountRegistrationDeposit _ _ | StakeRegistrationDelegation _ _ _ => MutateCertState
  | AccountUnregistration _ | AccountUnregistrationDeposit _ _ => CertStateAndGovernance AccountVoteDelegationRemoval
  | VoteDelegation _ _ => Governance Effect_VoteDelegation
  | AuthCommitteeHot _ _ => Governance CommitteeHotKeyAuthorization
  | ResignCommitteeCold _ => Governance CommitteeColdKeyResignation
  | DRepRegistration _ _ => Governance Effect_DRepRegistration
  | DRepUnregistration _ _ => Governance Effect_DRepUnregistration
  | DRepUpdate _ => Governance Effect_DRepUpdate
  | StakeVoteDelegation _ _ _ => CertStateAndGovernance Effect_StakeVoteDelegation
  | VoteRegistrationDelegation _ _ _ => CertStateAndGovernance Effect_VoteDelegation
  | StakeVoteRegistrationDelegation _ _ _ _ => CertStateAndGovernance Effect_StakeVoteDelegation
  | RemovedInConway _ => NotValidInEra
  end.

(** The new state and the governance effects observed. *)
Definition ConwayCertOutcome : Type := CertState * list GovernanceCertEffect.

Definition apply_conway_cert (s : CertState) (cert : ConwayCert) (key_deposit : Coin) (idx : Z) :
    result ConwayCertOutcome LedgerError :=
  match cert with
  | AccountRegistration cred => let? s := apply_stake_registration s cred key_deposit idx in Ok (s, [])
  | AccountRegistrationDeposit cred deposit => let? s := apply_stake_registration s cred deposit idx in Ok (s, [])
  | AccountUnregistration cred | AccountUnregistrationDeposit cred _ =>
      let? s := apply_stake_deregistration s cred idx in Ok (s, [AccountVoteDelegationRemoval])
  | StakeDelegation cred target => let? s := apply_stake_delegation s cred target idx in Ok (s, [])
  | PoolRegistration c => Ok (apply_pool_registration s c, [])
  | PoolRetirement id epoch => let? s := apply_pool_retirement s id epoch idx in Ok (s, [])
  | StakeRegistrationDelegation cred target deposit =>
      let? s := apply_stake_registration s cred deposit idx in
      let? s := apply_stake_delegation s cred target idx in Ok (s, [])
  | StakeVoteDelegation cred target _ =>
      let? s := apply_stake_delegation s cred target idx in Ok (s, [Effect_StakeVoteDelegation])
  | VoteRegistrationDelegation cred _ deposit =>
      let? s := apply_stake_registration s cred deposit idx in Ok (s, [Effect_VoteDelegation])
  | StakeVoteRegistrationDelegation cred target _ deposit =>
      let? s := apply_stake_registration s cred deposit idx in
      let? s := apply_stake_delegation s cred target idx in Ok (s, [Effect_StakeVoteDelegation])
  | VoteDelegation _ _ => Ok (s, [Effect_VoteDelegation])
  | AuthCommitteeHot _ _ => Ok (s, [CommitteeHotKeyAuthorization])
  | ResignCommitteeCold _ => Ok (s, [CommitteeColdKeyResignation])
  | DRepRegistration _ _ => Ok (s, [Effect_DRepRegistration])
  | DRepUnregistration _ _ => Ok (s, [Effect_DRepUnregistration])
  | DRepUpdate _ => Ok (s, [Effect_DRepUpdate])
  | RemovedInConway tag => Err (EraInvalidCertificate (mk_EraInvalidCertificateError idx tag))
  end.

(** * The governance half ([gov_cert.rs]) *)

Record ConwayGovState : Type := mk_ConwayGovState {
  drep_expiry : BTreeMap StakeCredential Z;
  vote_delegations : BTreeMap StakeCredential DRep;
  committee_hot_keys : BTreeMap StakeCredential StakeCredential;
}.

Record GovCertEnv : Type := mk_GovCertEnv { current_epoch : Z; drep_activity : Z }.

Definition drep_credential (d : DRep) : option StakeCredential :=
  match d with
  | DRep_KeyHash h => Some (KeyHash h)
  | DRep_ScriptHash h => Some (ScriptHash h)
  | AlwaysAbstain | AlwaysNoConfidence => None
  end.

Definition same_credential (a b : StakeCredential) : bool := match cmp a b with Eq => true | _ => false end.
Definition targets (cred : StakeCredential) (d : DRep) : bool :=
  match drep_credential d with Some c => same_credential c cred | None => false end.

Definition gov_vote (g : ConwayGovState) (cred : StakeCredential) (drep : DRep) (idx : Z) : result ConwayGovState LedgerError :=
  let vote := Ok (mk_ConwayGovState (drep_expiry g) (bt_insert (vote_delegations g) cred drep) (committee_hot_keys g)) in
  match drep_credential drep with
  | Some target => if bt_contains (drep_expiry g) target then vote else certificate_error idx DRepNotRegistered
  | None => vote
  end.

Definition gov_drep (g : ConwayGovState) (cred : StakeCredential) (env : option GovCertEnv) : result ConwayGovState LedgerError :=
  let? env := ok_or env (ValidationEnvironment MissingDRepActivityParam) in
  let? expiry := ok_or (checked_add (current_epoch env) (drep_activity env)) (ValidationEnvironment DRepActivityOverflow) in
  Ok (mk_ConwayGovState (bt_insert (drep_expiry g) cred expiry) (vote_delegations g) (committee_hot_keys g)).

Definition apply_conway_gov_cert (g : ConwayGovState) (cert : ConwayCert) (env : option GovCertEnv) (idx : Z) :
    result ConwayGovState LedgerError :=
  match cert with
  | VoteDelegation cred drep | StakeVoteDelegation cred _ drep | VoteRegistrationDelegation cred drep _
  | StakeVoteRegistrationDelegation cred _ drep _ => gov_vote g cred drep idx
  | AuthCommitteeHot cold hot =>
      Ok (mk_ConwayGovState (drep_expiry g) (vote_delegations g) (bt_insert (committee_hot_keys g) hot cold))
  | ResignCommitteeCold cold =>
      Ok (mk_ConwayGovState (drep_expiry g) (vote_delegations g)
            (List.filter (fun e => negb (same_credential (snd e) cold)) (committee_hot_keys g)))
  | DRepRegistration cred _ | DRepUpdate cred => gov_drep g cred env
  | DRepUnregistration cred _ =>
      Ok (mk_ConwayGovState (bt_remove (drep_expiry g) cred)
            (List.filter (fun e => negb (targets cred (snd e))) (vote_delegations g)) (committee_hot_keys g))
  | AccountUnregistration cred | AccountUnregistrationDeposit cred _ =>
      Ok (mk_ConwayGovState (drep_expiry g) (bt_remove (vote_delegations g) cred) (committee_hot_keys g))
  | AccountRegistration _ | StakeDelegation _ _ | PoolRegistration _ | PoolRetirement _ _
  | AccountRegistrationDeposit _ _ | StakeRegistrationDelegation _ _ _ | RemovedInConway _ => Ok g
  end.

(** * One transaction's certificates ([rules.rs], [accumulate_tx_certs], Conway) *)

Fixpoint apply_conway_certs (s : CertState) (g : option ConwayGovState) (certs : list ConwayCert) (key_deposit : Coin)
    (env : option GovCertEnv) (idx : Z) : result (CertState * option ConwayGovState) LedgerError :=
  match certs with
  | [] => Ok (s, g)
  | cert :: certs =>
      let? (s, _) := apply_conway_cert s cert key_deposit (as_u16 idx) in
      let? g := match g with
                | Some g => let? g := apply_conway_gov_cert g cert env (as_u16 idx) in Ok (Some g)
                | None => Ok None
                end in
      apply_conway_certs s g certs key_deposit env (idx + 1)
  end.

Definition accumulate_conway_certs (cert_bytes : list Z) (s : CertState) (g : option ConwayGovState) (key_deposit : Coin)
    (env : option GovCertEnv) : result (CertState * option ConwayGovState) LedgerError :=
  let? certs := map_err codec_ledger_error (decode_conway_certs cert_bytes) in
  apply_conway_certs s g certs key_deposit env 0.

(** * Deposits ([cert_classify.rs]) *)

Record ConwayDepositParams : Type := mk_ConwayDepositParams {
  dp_key_deposit : Coin; dp_pool_deposit : Coin; dp_drep_deposit : Coin; dp_gov_action_deposit : Coin }.

Definition classify (cert : ConwayCert) (params : ConwayDepositParams) (s : CertState) : result CertDisposition LedgerError :=
  match cert with
  | AccountRegistration _ => Ok (Accountable (NewDeposit (DepositParam (dp_key_deposit params))))
  | AccountUnregistration cred =>
      match bt_get (registrations (delegation s)) cred with
      | Some recorded => Ok (Accountable (Refund (RegistrationState recorded)))
      | None => Err (UnsupportedStateDependentDeposit LegacyUnregistrationRefundUnresolved)
      end
  | PoolRegistration c =>
      if bt_contains (pools (pool s)) (reg_pool_id c) then Ok Neutral
      else Ok (Accountable (NewDeposit (DepositParam (dp_pool_deposit params))))
  | AccountRegistrationDeposit _ deposit | StakeRegistrationDelegation _ _ deposit
  | VoteRegistrationDelegation _ _ deposit | StakeVoteRegistrationDelegation _ _ _ deposit
  | DRepRegistration _ deposit => Ok (Accountable (NewDeposit (ExplicitInCert deposit)))
  | AccountUnregistrationDeposit _ refund | DRepUnregistration _ refund =>
      Ok (Accountable (Refund (ExplicitInCert refund)))
  | StakeDelegation _ _ | PoolRetirement _ _ | VoteDelegation _ _ | StakeVoteDelegation _ _ _
  | AuthCommitteeHot _ _ | ResignCommitteeCold _ | DRepUpdate _ => Ok Neutral
  | RemovedInConway _ => Ok NotValidInConway
  end.

Definition coin_of (src : CoinSource) : Coin :=
  match src with ExplicitInCert c | DepositParam c | RegistrationState c => c end.
