(* ===== verification/DelegationFacts.v ===== *)
(** Theorems on [Delegation]: the certificate and governance states keep their invariants, the
    epoch boundary adopts and reaps exactly what is due, and the deposits [classify] accounts for
    are the ones the state records. *)

From S2P Require Import Prelude EraSchedule Leader BTree LedgerValue Utxo LedgerMaps ConwayCert Delegation.

#[export] Instance StakeCredential_eq_dec : EqDecision StakeCredential.
Proof. solve_decision. Defined.

(** * The invariant of the certificate state *)

Record cert_ok (s : CertState) : Prop := mk_cert_ok {
  ok_registrations : ordered (registrations (delegation s));
  ok_delegations : ordered (delegations (delegation s));
  ok_rewards : ordered (rewards (delegation s));
  ok_pools : ordered (pools (pool s));
  ok_future : ordered (future_pools (pool s));
  ok_retiring : ordered (retiring (pool s));
  rewards_registered k : bt_contains (rewards (delegation s)) k = bt_contains (registrations (delegation s)) k;
  delegations_registered : dom_sub (delegations (delegation s)) (registrations (delegation s));
  delegated_to_active k p : bt_get (delegations (delegation s)) k = Some p -> bt_contains (pools (pool s)) p = true;
  future_active : dom_sub (future_pools (pool s)) (pools (pool s));
  retiring_active : dom_sub (retiring (pool s)) (pools (pool s));
}.

Create HintDb cert.
#[local] Hint Resolve ok_registrations ok_delegations ok_rewards ok_pools ok_future ok_retiring
  insert_ordered remove_ordered : cert.

Ltac cert_cases :=
  repeat match goal with
  | H : context [bt_contains (bt_insert _ _ _) _] |- _ => rewrite contains_insert in H
  | H : context [bt_contains (bt_remove _ _) _] |- _ => rewrite contains_remove in H
  | |- context [bt_contains (bt_insert _ _ _) _] => rewrite contains_insert
  | |- context [bt_contains (bt_remove _ _) _] => rewrite contains_remove
  | H : _ || _ = true |- _ => apply orb_true_iff in H
  | H : _ && _ = true |- _ => apply andb_true_iff in H as [? ?]
  | |- _ || _ = true => apply orb_true_iff
  | |- _ && _ = true => apply andb_true_iff; split
  end.

Lemma registration_ok s cred deposit idx s' : cert_ok s -> apply_stake_registration s cred deposit idx = Ok s' ->
  cert_ok s' /\ bt_contains (registrations (delegation s)) cred = false.
Proof.
  unfold apply_stake_registration. destruct (bt_contains _ cred) eqn:Ec; [done|]. intros Hs [= <-]. split; [|done].
  split; cbn [delegation pool registrations delegations rewards]; try apply Hs; auto with cert.
  - intros k. cert_cases. by rewrite (rewards_registered s Hs).
  - intros k Hk. cert_cases. right. by apply (delegations_registered s Hs).
Qed.

Lemma deregistration_ok s cred idx s' : cert_ok s -> apply_stake_deregistration s cred idx = Ok s' -> cert_ok s'.
Proof.
  unfold apply_stake_deregistration. destruct (bt_contains _ cred); cbn [negb]; [|done]. intros Hs [= <-].
  split; cbn [delegation pool registrations delegations rewards]; try apply Hs; auto with cert.
  - intros k. cert_cases. by rewrite (rewards_registered s Hs).
  - intros k Hk. cert_cases; [done|]. by apply (delegations_registered s Hs).
  - intros k p Hk. apply (delegated_to_active s Hs k). destruct (decide (cred = k)) as [->|Hne];
      [by rewrite get_remove in Hk|by rewrite get_remove_ne in Hk].
Qed.

Lemma delegation_ok s cred target idx s' : cert_ok s -> apply_stake_delegation s cred target idx = Ok s' -> cert_ok s'.
Proof.
  unfold apply_stake_delegation. destruct (bt_contains (registrations _) cred) eqn:Er; cbn [negb]; [|done].
  destruct (bt_contains (pools _) target) eqn:Ep; cbn [negb]; [|done]. intros Hs [= <-].
  split; cbn [delegation pool registrations delegations rewards]; try apply Hs; auto with cert.
  - intros k Hk. cert_cases. destruct Hk as [Hk|Hk]; [apply bool_decide_eq_true in Hk as <-; done|].
    by apply (delegations_registered s Hs).
  - intros k p Hk. destruct (decide (cred = k)) as [->|Hne]; [rewrite get_insert in Hk; by injection Hk as <-|].
    rewrite get_insert_ne in Hk by done. by apply (delegated_to_active s Hs k).
Qed.

Lemma pool_registration_ok s c : cert_ok s -> cert_ok (apply_pool_registration s c).
Proof.
  intros Hs. unfold apply_pool_registration. destruct (bt_contains _ (reg_pool_id c)) eqn:Ec;
    split; cbn [delegation pool pools future_pools retiring]; try apply Hs; auto with cert.
  - intros k Hk. cert_cases. destruct Hk as [Hk|Hk]; [apply bool_decide_eq_true in Hk as <-; done|].
    by apply (future_active s Hs).
  - intros k Hk. cert_cases. by apply (retiring_active s Hs).
  - intros k p Hk. cert_cases. right. by apply (delegated_to_active s Hs k).
  - intros k Hk. cert_cases. right. by apply (future_active s Hs).
  - intros k Hk. cert_cases. right. by apply (retiring_active s Hs).
Qed.

Lemma pool_retirement_ok s id epoch idx s' : cert_ok s -> apply_pool_retirement s id epoch idx = Ok s' -> cert_ok s'.
Proof.
  unfold apply_pool_retirement. destruct (bt_contains _ id) eqn:Ec; cbn [negb]; [|done]. intros Hs [= <-].
  split; cbn [delegation pool pools future_pools retiring]; try apply Hs; auto with cert.
  intros k Hk. cert_cases. destruct Hk as [Hk|Hk]; [apply bool_decide_eq_true in Hk as <-; done|].
  by apply (retiring_active s Hs).
Qed.

Lemma conway_cert_ok s cert key_deposit idx s' es : cert_ok s ->
  apply_conway_cert s cert key_deposit idx = Ok (s', es) -> cert_ok s'.
Proof.
  intros Hs. destruct cert; cbn [apply_conway_cert]; intros Ha;
    try (apply rbind_ok_inv in Ha as (s1 & H1 & Ha)); try (apply rbind_ok_inv in Ha as (s2 & H2 & Ha));
    try discriminate Ha; injection Ha as <- _;
    eauto using registration_ok, deregistration_ok, delegation_ok, pool_registration_ok, pool_retirement_ok;
    try (destruct (registration_ok _ _ _ _ _ Hs H1) as [H _]); eauto using delegation_ok.
Qed.

(** * The epoch boundary *)

Lemma is_in_elem ids (id : PoolId) : is_in ids id = bool_decide (id ∈ ids).
Proof.
  apply Bool.eq_iff_eq_true. rewrite bool_decide_eq_true. unfold is_in. rewrite existsb_exists. split.
  - intros (i & Hi & Hc). destruct (cmp i id) eqn:E; try done. apply cmp_eq in E as ->. by apply list_elem_of_In.
  - intros Hi. exists id. split; [by apply list_elem_of_In|]. by rewrite cmp_refl.
Qed.

Lemma adopt_one active i p k :
  bt_get (adopt_pool active (i, p)) k = if bool_decide (i = k) then (fun _ => p) <$> bt_get active k else bt_get active k.
Proof.
  unfold adopt_pool, bt_contains. cbn [fst snd]. case_bool_decide as Hk.
  - subst i. destruct (bt_get active k) eqn:E; [by rewrite get_insert|by rewrite E].
  - destruct (bt_get active i); [by rewrite get_insert_ne|done].
Qed.

Lemma adopt_get future : forall active k, ordered future ->
  bt_get (fold_left adopt_pool future active) k = (fun p => default p (bt_get future k)) <$> bt_get active k.
Proof.
  induction future as [|[i p] future IH]; intros active k Ho; cbn [fold_left]; [by destruct (bt_get active k)|].
  pose proof Ho as [Ho' Hk]%ordered_cons. rewrite IH, adopt_one by done. cbn [bt_get]. case_bool_decide as Hi.
  - subst i. rewrite (get_above future k Hk), cmp_refl. by destruct (bt_get active k).
  - destruct (cmp k i) eqn:E; [apply cmp_eq in E; congruence| |done]. rewrite (get_above future k); [done|].
    eapply Forall_impl; [exact Hk|]. intros x. by apply cmp_lt_trans.
Qed.

Lemma adopt_ordered future : forall active, ordered active -> ordered (fold_left adopt_pool future active).
Proof.
  induction future as [|e future IH]; intros active Ho; [done|]. cbn [fold_left]. apply IH.
  unfold adopt_pool. destruct (bt_contains _ _); [by apply insert_ordered|done].
Qed.

(** The pools whose retirement falls due on entering [e]. *)
Definition due (p : PoolState) (e : Z) (id : PoolId) : bool := bool_decide (bt_get (retiring p) id = Some e).

Lemma retired_due p e id : ordered (retiring p) ->
  bool_decide (id ∈ map fst (List.filter (fun x => snd x =? e) (retiring p))) = due p e id.
Proof.
  intros Ho. apply bool_decide_ext. rewrite <- contains_map by by apply ordered_filter. unfold bt_contains.
  rewrite get_filter by done. destruct (bt_get (retiring p) id) as [x|]; [|done]. cbn [snd].
  destruct (Z.eqb_spec x e); split; congruence.
Qed.

Lemma pool_reap_pools s e id : cert_ok s -> bt_get (pools (pool (apply_pool_reap s e))) id =
  if due (pool s) e id then None
  else (fun p => default p (bt_get (future_pools (pool s)) id)) <$> bt_get (pools (pool s)) id.
Proof.
  intros Hs. cbn [apply_pool_reap pool pools]. unfold remove_all. rewrite remove_list_get, retired_due by apply Hs.
  by rewrite adopt_get by apply Hs.
Qed.

Lemma pool_reap_retiring s e id : cert_ok s -> bt_get (retiring (pool (apply_pool_reap s e))) id =
  if due (pool s) e id then None else bt_get (retiring (pool s)) id.
Proof.
  intros Hs. cbn [apply_pool_reap pool retiring]. unfold remove_all. by rewrite remove_list_get, retired_due by apply Hs.
Qed.

Lemma pool_reap_delegations s e k : cert_ok s -> bt_get (delegations (delegation (apply_pool_reap s e))) k =
  match bt_get (delegations (delegation s)) k with
  | Some id => if due (pool s) e id then None else Some id
  | None => None
  end.
Proof.
  intros Hs. cbn [apply_pool_reap delegation delegations]. rewrite get_filter by apply Hs.
  destruct (bt_get _ k) as [id|]; [|done]. cbn [snd]. rewrite is_in_elem, retired_due by apply Hs. by destruct (due _ _ _).
Qed.

Lemma pool_reap_active s e id : cert_ok s -> bt_contains (pools (pool (apply_pool_reap s e))) id =
  negb (due (pool s) e id) && bt_contains (pools (pool s)) id.
Proof.
  intros Hs. unfold bt_contains at 1. rewrite pool_reap_pools by done. unfold bt_contains.
  destruct (due _ _ _); [done|]. by destruct (bt_get (pools (pool s)) id).
Qed.

Lemma pool_reap_ok s e : cert_ok s -> cert_ok (apply_pool_reap s e).
Proof.
  intros Hs. split; try (by apply Hs).
  - by apply ordered_filter, Hs.
  - by apply remove_list_ordered, adopt_ordered, Hs.
  - by constructor.
  - by apply remove_list_ordered, Hs.
  - intros k Hk. apply (delegations_registered s Hs). by apply contains_filter in Hk; [|apply Hs].
  - intros k p Hk. rewrite pool_reap_delegations in Hk by done. rewrite pool_reap_active by done.
    destruct (bt_get (delegations _) k) as [id|] eqn:E; [|done]. destruct (due _ _ id) eqn:Ed; [done|].
    injection Hk as ->. rewrite Ed. by apply (delegated_to_active s Hs k).
  - done.
  - intros k. unfold bt_contains at 1. rewrite pool_reap_retiring, pool_reap_active by done. destruct (due _ _ _); [done|].
    apply (retiring_active s Hs).
Qed.

(** * The governance state *)

Record gov_ok (g : ConwayGovState) : Prop := mk_gov_ok {
  ok_expiry : ordered (drep_expiry g);
  ok_votes : ordered (vote_delegations g);
  ok_hot : ordered (committee_hot_keys g);
  votes_registered k d c : bt_get (vote_delegations g) k = Some d -> drep_credential d = Some c ->
    bt_contains (drep_expiry g) c = true;
}.
#[local] Hint Resolve ok_expiry ok_votes ok_hot ordered_filter : cert.

Lemma gov_vote_ok g cred d idx g' : gov_ok g -> gov_vote g cred d idx = Ok g' -> gov_ok g'.
Proof.
  intros Hg Hv.
  assert (forall c, drep_credential d = Some c -> bt_contains (drep_expiry g) c = true) as Hd.
  { intros c Hc. unfold gov_vote in Hv. rewrite Hc in Hv. by destruct (bt_contains _ c). }
  assert (g' = mk_ConwayGovState (drep_expiry g) (bt_insert (vote_delegations g) cred d) (committee_hot_keys g)) as ->.
  { unfold gov_vote in Hv. destruct (drep_credential d) as [c|]; [rewrite Hd in Hv by done|]; by injection Hv. }
  split; cbn [drep_expiry vote_delegations committee_hot_keys]; auto with cert.
  intros k d' c Hk Hc. destruct (decide (cred = k)) as [->|Hne].
  - rewrite get_insert in Hk. injection Hk as <-. by apply Hd.
  - rewrite get_insert_ne in Hk by done. by apply (votes_registered g Hg k d').
Qed.

Lemma gov_drep_ok g cred env g' : gov_ok g -> gov_drep g cred env = Ok g' -> gov_ok g'.
Proof.
  intros Hg Hd. unfold gov_drep in Hd. apply rbind_ok_inv in Hd as (e & _ & Hd).
  apply rbind_ok_inv in Hd as (x & _ & [= <-]).
  split; cbn [drep_expiry vote_delegations committee_hot_keys]; auto with cert.
  intros k d c Hk Hc. rewrite contains_insert, (votes_registered g Hg k d c) by done. apply orb_true_r.
Qed.

Lemma targets_credential cred d c : drep_credential d = Some c -> targets cred d = bool_decide (c = cred).
Proof.
  intros Hc. unfold targets, same_credential. rewrite Hc. case_bool_decide as E; [subst; by rewrite cmp_refl|].
  destruct (cmp c cred) eqn:Ec; try done. by apply cmp_eq in Ec.
Qed.

Lemma gov_unregister_ok g cred : gov_ok g ->
  gov_ok (mk_ConwayGovState (bt_remove (drep_expiry g) cred)
            (List.filter (fun e => negb (targets cred (snd e))) (vote_delegations g)) (committee_hot_keys g)).
Proof.
  intros Hg. split; cbn [drep_expiry vote_delegations committee_hot_keys]; auto with cert.
  intros k d c Hk Hc. rewrite get_filter in Hk by auto with cert. destruct (bt_get _ k) as [d'|] eqn:E; [|done].
  cbn [snd] in Hk. destruct (targets cred d') eqn:Et; [done|]. injection Hk as ->.
  rewrite (targets_credential cred d c Hc) in Et. rewrite contains_remove, (votes_registered g Hg k d c) by done.
  apply bool_decide_eq_false in Et. by rewrite bool_decide_eq_false_2.
Qed.

Lemma gov_account_removed_ok g cred : gov_ok g ->
  gov_ok (mk_ConwayGovState (drep_expiry g) (bt_remove (vote_delegations g) cred) (committee_hot_keys g)).
Proof.
  intros Hg. split; cbn [drep_expiry vote_delegations committee_hot_keys]; auto with cert.
  intros k d c Hk. apply (votes_registered g Hg k).
  destruct (decide (cred = k)) as [->|Hne]; [by rewrite get_remove in Hk|by rewrite get_remove_ne in Hk].
Qed.

Lemma gov_committee_ok g hot : gov_ok g -> ordered hot ->
  gov_ok (mk_ConwayGovState (drep_expiry g) (vote_delegations g) hot).
Proof. intros Hg Hh. split; cbn; auto with cert. apply (votes_registered g Hg). Qed.

Lemma conway_gov_ok g cert env idx g' : gov_ok g -> apply_conway_gov_cert g cert env idx = Ok g' -> gov_ok g'.
Proof.
  intros Hg. destruct cert; cbn [apply_conway_gov_cert]; intros Ha;
    try (by apply (gov_vote_ok _ _ _ _ _ Hg Ha)); try (by apply (gov_drep_ok _ _ _ _ Hg Ha)); injection Ha as <-;
    auto using gov_unregister_ok, gov_account_removed_ok; apply gov_committee_ok; auto with cert.
Qed.

(** * The life of the two states *)

Inductive CertEvent : Type :=
| TxCerts (certs : list ConwayCert) (key_deposit : Coin) (env : option GovCertEnv)
| EpochBoundary (entered_epoch : Z).

Definition cert_event (s : CertState * option ConwayGovState) (e : CertEvent) : result (CertState * option ConwayGovState) LedgerError :=
  match e with
  | TxCerts certs key_deposit env => apply_conway_certs (fst s) (snd s) certs key_deposit env 0
  | EpochBoundary epoch => Ok (apply_pool_reap (fst s) epoch, snd s)
  end.

Fixpoint cert_events (s : CertState * option ConwayGovState) (es : list CertEvent) : result (CertState * option ConwayGovState) LedgerError :=
  match es with
  | [] => Ok s
  | e :: es => let? s := cert_event s e in cert_events s es
  end.

Definition states_ok (s : CertState * option ConwayGovState) : Prop :=
  cert_ok (fst s) /\ from_option gov_ok True (snd s).

Lemma conway_certs_ok certs : forall s g key_deposit env idx s', states_ok (s, g) ->
  apply_conway_certs s g certs key_deposit env idx = Ok s' -> states_ok s'.
Proof.
  induction certs as [|cert certs IH]; intros s g kd env idx s' [Hs Hg]; cbn [apply_conway_certs]; [by intros [= <-]|].
  intros ([s1 es] & H1 & Ha)%rbind_ok_inv. apply rbind_ok_inv in Ha as (g1 & H2 & Ha).
  apply (IH _ _ _ _ _ _) in Ha; [done|]. split; cbn [fst snd] in *; [by apply conway_cert_ok in H1|].
  destruct g as [g|]; [|by injection H2 as <-]. apply rbind_ok_inv in H2 as (g2 & H2 & [= <-]). by apply conway_gov_ok in H2.
Qed.

Lemma cert_events_ok es : forall s s', states_ok s -> cert_events s es = Ok s' -> states_ok s'.
Proof.
  induction es as [|e es IH]; intros s s' Hs; cbn [cert_events]; [by intros [= <-]|].
  intros (s1 & H1 & Ha)%rbind_ok_inv. apply (IH s1); [|done]. destruct s as [c g], e as [certs kd env|epoch]; cbn in H1.
  - by apply (conway_certs_ok certs c g kd env 0).
  - injection H1 as <-. split; [by apply pool_reap_ok, Hs|apply Hs].
Qed.

Lemma cert_events_app es es' s : cert_events s (es ++ es') = let? s' := cert_events s es in cert_events s' es'.
Proof. revert s. induction es as [|e es IH]; intros s; cbn [app cert_events]; [done|]. by destruct (cert_event s e); cbn. Qed.

(** C21. Along any run of transactions' certificates and epoch boundaries that goes through, the
    certificate state stays well formed: a reward account exists exactly for the registered
    credentials, only registered credentials delegate and only to active pools, and only active pools
    are staged or retiring; every DRep a vote delegation names is registered.  When the run then enters
    an epoch, the state changes so and not otherwise: a pool whose retirement is set for that epoch is
    gone, with its delegations and its entry in the retiring schedule; the other pools stay, with
    their staged parameters adopted, and so do the other delegations and the other retirements;
    nothing is left staged; registrations, rewards and the governance state are as they were. *)
Theorem epoch_boundary_exact s g es e s' g' s1 g1 (Hs : states_ok (s, g))
    (Hrun : cert_events (s, g) es = Ok (s1, g1)) (Hlast : cert_events (s, g) (es ++ [EpochBoundary e]) = Ok (s', g')) :
  states_ok (s', g') /\ g' = g1 /\
  (forall id, bt_get (pools (pool s')) id =
     if decide (bt_get (retiring (pool s1)) id = Some e) then None else
     match bt_get (pools (pool s1)) id, bt_get (future_pools (pool s1)) id with
     | Some _, Some staged => Some staged
     | active, _ => active
     end) /\
  (forall k, bt_get (delegations (delegation s')) k =
     match bt_get (delegations (delegation s1)) k with
     | Some id => if decide (bt_get (retiring (pool s1)) id = Some e) then None else Some id
     | None => None
     end) /\
  (forall id, bt_get (retiring (pool s')) id =
     if decide (bt_get (retiring (pool s1)) id = Some e) then None else bt_get (retiring (pool s1)) id) /\
  future_pools (pool s') = [] /\
  registrations (delegation s') = registrations (delegation s1) /\ rewards (delegation s') = rewards (delegation s1).
Proof.
  pose proof (cert_events_ok es (s, g) (s1, g1) Hs Hrun) as [H1 _]. cbn [fst] in H1.
  split; [by apply (cert_events_ok _ _ _ Hs Hlast)|]. rewrite cert_events_app, Hrun in Hlast. injection Hlast as <- <-.
  assert (forall id, due (pool s1) e id = bool_decide (bt_get (retiring (pool s1)) id = Some e)) as Hd by done.
  split_and!; try done; intros k.
  - rewrite pool_reap_pools, Hd by done. case_decide; [by rewrite bool_decide_eq_true_2|].
    rewrite bool_decide_eq_false_2 by done. by destruct (bt_get (pools _) k), (bt_get (future_pools _) k).
  - rewrite pool_reap_delegations by done. destruct (bt_get (delegations _) k) as [id|]; [|done]. rewrite Hd.
    case_decide; [by rewrite bool_decide_eq_true_2|by rewrite bool_decide_eq_false_2].
  - rewrite pool_reap_retiring, Hd by done. case_decide; [by rewrite bool_decide_eq_true_2|by rewrite bool_decide_eq_false_2].
Qed.

(** * What the state holds, and what a certificate moves *)

(** The key deposits recorded with the registrations, and one pool deposit for each active pool. *)
Definition deposits_held (pool_deposit : Coin) (s : CertState) : Z :=
  total (fun c : Coin => c) (registrations (delegation s)) + total (fun _ => pool_deposit) (pools (pool s)).

Definition effect_of (d : CertDisposition) : Z :=
  match d with
  | Accountable (NewDeposit src) => coin_of src
  | Accountable (Refund src) => - coin_of src
  | Neutral | NotValidInConway => 0
  end.

(** The deposits of DReps, which the certificate state does not record. *)
Definition drep_deposit (cert : ConwayCert) : Z :=
  match cert with
  | DRepRegistration _ deposit => deposit
  | DRepUnregistration _ refund => - refund
  | _ => 0
  end.

(** The entry of the state whose deposit a certificate opens or closes. *)
Definition subject (cert : ConwayCert) : option (StakeCredential + PoolId) :=
  match cert with
  | AccountRegistration cred | AccountUnregistration cred | AccountRegistrationDeposit cred _
  | AccountUnregistrationDeposit cred _ | StakeRegistrationDelegation cred _ _ | VoteRegistrationDelegation cred _ _
  | StakeVoteRegistrationDelegation cred _ _ _ => Some (inl cred)
  | PoolRegistration c => Some (inr (reg_pool_id c))
  | _ => None
  end.

(** A refund stated in a certificate is the deposit on record. *)
Definition refund_agrees (s : CertState) (cert : ConwayCert) : Prop :=
  match cert with
  | AccountUnregistrationDeposit cred refund =>
      forall recorded, bt_get (registrations (delegation s)) cred = Some recorded -> recorded = refund
  | _ => True
  end.

(** What [classify] reads of the state. *)
Definition entry (s : CertState) (x : StakeCredential + PoolId) : option Coin :=
  match x with
  | inl cred => bt_get (registrations (delegation s)) cred
  | inr id => (fun _ => 0) <$> bt_get (pools (pool s)) id
  end.

(** * One certificate *)

Lemma registered_total s cred deposit idx s' pd : cert_ok s -> apply_stake_registration s cred deposit idx = Ok s' ->
  deposits_held pd s' = deposits_held pd s + deposit.
Proof.
  intros Hs Ha. destruct (registration_ok _ _ _ _ _ Hs Ha) as [_ Hc]. unfold apply_stake_registration in Ha. rewrite Hc in Ha.
  injection Ha as <-. unfold deposits_held. cbn [delegation pool registrations]. rewrite total_insert by apply Hs.
  unfold bt_contains in Hc. destruct (bt_get _ cred); [done|]. cbn [from_option]. lia.
Qed.

Lemma deregistered_total s cred idx s' pd : cert_ok s -> apply_stake_deregistration s cred idx = Ok s' ->
  exists recorded, bt_get (registrations (delegation s)) cred = Some recorded /\
    deposits_held pd s' = deposits_held pd s - recorded.
Proof.
  intros Hs. unfold apply_stake_deregistration, bt_contains. destruct (bt_get _ cred) as [r|] eqn:E; [|done]. intros [= <-].
  exists r. split; [done|]. unfold deposits_held. cbn [delegation pool registrations]. rewrite total_remove by apply Hs.
  rewrite E. cbn [from_option]. lia.
Qed.

Lemma pool_registered_total s c pd : cert_ok s -> deposits_held pd (apply_pool_registration s c) =
  deposits_held pd s + (if bt_contains (pools (pool s)) (reg_pool_id c) then 0 else pd).
Proof.
  intros Hs. unfold apply_pool_registration, deposits_held, bt_contains. destruct (bt_get _ (reg_pool_id c)) eqn:E;
    cbn [delegation pool pools]; [lia|]. rewrite total_insert by apply Hs. rewrite E. cbn [from_option]. lia.
Qed.

Lemma delegated_total s cred target idx s' pd : apply_stake_delegation s cred target idx = Ok s' ->
  deposits_held pd s' = deposits_held pd s.
Proof.
  unfold apply_stake_delegation. destruct (negb (bt_contains (registrations _) cred)); [done|].
  destruct (negb (bt_contains (pools _) target)); [done|]. by intros [= <-].
Qed.

Lemma retirement_total s id epoch idx s' pd : apply_pool_retirement s id epoch idx = Ok s' ->
  deposits_held pd s' = deposits_held pd s.
Proof. unfold apply_pool_retirement. destruct (negb _); [done|]. by intros [= <-]. Qed.

Lemma cert_deposits params s cert idx s' es : cert_ok s -> refund_agrees s cert ->
  apply_conway_cert s cert (dp_key_deposit params) idx = Ok (s', es) ->
  exists d, classify cert params s = Ok d /\
    deposits_held (dp_pool_deposit params) s' + drep_deposit cert = deposits_held (dp_pool_deposit params) s + effect_of d.
Proof.
  intros Hs Hr. destruct cert; cbn [apply_conway_cert classify drep_deposit]; intros Ha;
    try (apply rbind_ok_inv in Ha as (s1 & H1 & Ha)); try (apply rbind_ok_inv in Ha as (s2 & H2 & Ha));
    try discriminate Ha; injection Ha as <- _;
    try (apply delegated_total with (pd := dp_pool_deposit params) in H2);
    try (apply registered_total with (pd := dp_pool_deposit params) in H1; [|done]);
    try (apply delegated_total with (pd := dp_pool_deposit params) in H1);
    try (apply retirement_total with (pd := dp_pool_deposit params) in H1);
    try (apply deregistered_total with (pd := dp_pool_deposit params) in H1 as (recorded & Hrec & H1); [|done]);
    try (eexists; split; [done|]; cbn [effect_of coin_of]; lia).
  - rewrite Hrec. eexists; split; [done|]. cbn [effect_of coin_of]. lia.
  - rewrite pool_registered_total by done. destruct (bt_contains _ _); (eexists; split; [done|]); cbn [effect_of coin_of]; lia.
  - rewrite (Hr recorded Hrec) in H1. eexists; split; [done|]. cbn [effect_of coin_of]. lia.
Qed.

(** * One transaction's certificates *)

#[local] Instance subject_eq_dec : EqDecision (StakeCredential + PoolId).
Proof. solve_decision. Defined.

Lemma registration_reads s cred deposit idx s' x : apply_stake_registration s cred deposit idx = Ok s' ->
  x <> inl cred -> entry s' x = entry s x.
Proof.
  unfold apply_stake_registration. destruct (bt_contains _ _); [done|]. intros [= <-] Hx. destruct x as [c|id]; [|done].
  cbn. apply get_insert_ne. congruence.
Qed.

Lemma deregistration_reads s cred idx s' x : apply_stake_deregistration s cred idx = Ok s' ->
  x <> inl cred -> entry s' x = entry s x.
Proof.
  unfold apply_stake_deregistration. destruct (negb _); [done|]. intros [= <-] Hx. destruct x as [c|id]; [|done].
  cbn. apply get_remove_ne. congruence.
Qed.

Lemma delegation_reads s cred target idx s' x : apply_stake_delegation s cred target idx = Ok s' -> entry s' x = entry s x.
Proof.
  unfold apply_stake_delegation. destruct (negb (bt_contains (registrations _) cred)); [done|].
  destruct (negb (bt_contains (pools _) target)); [done|]. by intros [= <-].
Qed.

Lemma retirement_reads s id epoch idx s' x : apply_pool_retirement s id epoch idx = Ok s' -> entry s' x = entry s x.
Proof. unfold apply_pool_retirement. destruct (negb _); [done|]. by intros [= <-]. Qed.

Lemma pool_registration_reads s c x : x <> inr (reg_pool_id c) -> entry (apply_pool_registration s c) x = entry s x.
Proof.
  unfold apply_pool_registration. destruct (bt_contains _ _); [done|]. intros Hx. destruct x as [c'|id]; [done|].
  cbn. rewrite get_insert_ne; [done|]. congruence.
Qed.

(** A certificate changes only the entry that is its subject. *)
Lemma cert_reads s cert kd idx s' es x : apply_conway_cert s cert kd idx = Ok (s', es) -> subject cert <> Some x ->
  entry s' x = entry s x.
Proof.
  destruct cert; cbn [apply_conway_cert subject]; intros Ha Hx;
    try (apply rbind_ok_inv in Ha as (s1 & H1 & Ha)); try (apply rbind_ok_inv in Ha as (s2 & H2 & Ha));
    try discriminate Ha; injection Ha as <- _; try done;
    try (apply delegation_reads with (x := x) in H2; rewrite H2);
    eauto using delegation_reads, retirement_reads;
    try (apply pool_registration_reads; congruence);
    first [eapply registration_reads; [done|congruence]|eapply deregistration_reads; [done|congruence]].
Qed.

Lemma reads_contains s s' id : entry s (inr id) = entry s' (inr id) ->
  bt_contains (pools (pool s)) id = bt_contains (pools (pool s')) id.
Proof. cbn [entry]. unfold bt_contains. by destruct (bt_get _ id), (bt_get _ id). Qed.

Lemma classify_reads cert params s s' : (forall x, subject cert = Some x -> entry s x = entry s' x) ->
  classify cert params s = classify cert params s'.
Proof.
  intros Hx. destruct cert; try done; cbn [classify subject] in *; specialize (Hx _ eq_refl).
  - cbn [entry] in Hx. by rewrite Hx.
  - by rewrite (reads_contains s s').
Qed.

Lemma refund_reads cert s s' : (forall x, subject cert = Some x -> entry s x = entry s' x) ->
  refund_agrees s cert -> refund_agrees s' cert.
Proof. intros Hx. destruct cert; try done; cbn [refund_agrees subject] in *. specialize (Hx _ eq_refl). cbn in Hx. by rewrite Hx. Qed.

Lemma certs_deposits params s0 certs : forall s g env idx s' g', cert_ok s ->
  apply_conway_certs s g certs (dp_key_deposit params) env idx = Ok (s', g') ->
  NoDup (omap subject certs) -> Forall (refund_agrees s0) certs ->
  (forall cert x, cert ∈ certs -> subject cert = Some x -> entry s0 x = entry s x) ->
  exists ds, Forall2 (fun cert d => classify cert params s0 = Ok d) certs ds /\
    deposits_held (dp_pool_deposit params) s' + sum_Z (map drep_deposit certs) =
    deposits_held (dp_pool_deposit params) s + sum_Z (map effect_of ds).
Proof.
  induction certs as [|cert certs IH]; intros s g env idx s' g' Hs; cbn [apply_conway_certs].
  { intros [= <- _] _ _ _. exists []. split; [done|]. cbn. lia. }
  intros ([s1 es] & H1 & Ha)%rbind_ok_inv Hnd Href Hx. apply rbind_ok_inv in Ha as (g1 & _ & Ha).
  apply Forall_cons in Href as [Hr Href].
  assert (forall x, subject cert = Some x -> entry s0 x = entry s x) as Hc by (intros x; apply Hx; set_solver).
  destruct (cert_deposits params s cert _ s1 es Hs (refund_reads _ _ _ Hc Hr) H1) as (d & Hd & Heq).
  destruct (IH _ _ _ _ _ _ (conway_cert_ok _ _ _ _ _ _ Hs H1) Ha) as (ds & Hds & Hsum); [|exact Href| |].
  - cbn in Hnd. destruct (subject cert); [by apply NoDup_cons in Hnd as [_ Hnd]|done].
  - intros cert' x Hin Hsub. rewrite (cert_reads _ _ _ _ _ _ x H1); [apply (Hx cert'); set_solver|].
    intros Hsame. cbn in Hnd. rewrite Hsame in Hnd. apply NoDup_cons in Hnd as [Hnd _]. apply Hnd.
    apply list_elem_of_omap. by exists cert'.
  - exists (d :: ds). split; [constructor; [by rewrite (classify_reads cert params s0 s)|done]|].
    cbn [map foldr sum_Z] in *. unfold sum_Z in *. cbn. lia.
Qed.
