(* ===== verification/Governance.v ===== *)
(** Governance proposals: the types of [ade_types/src/conway/governance.rs] and the closed codec
    [ade_codec/src/conway/governance.rs]. *)

From S2P Require Import Prelude Cbor CborRoundtrip NetCodec Spelling Decoder EraSchedule Leader BTree BlockCodec LedgerValue ConwayCert.
From S2P Require Import Utxo LedgerMaps.

(** * Types *)

Record GovActionId : Type := mk_GovActionId { action_tx_hash : Hash32; action_index : Z }.

Inductive GovAction : Type :=
| ParameterChange (prev_action : option GovActionId) (update : list Z) (policy_hash : option Hash28)
| HardForkInitiation (prev_action : option GovActionId) (protocol_version : Z * Z)
| TreasuryWithdrawals (withdrawals : list (list Z * Coin)) (policy_hash : option Hash28)
| NoConfidence (prev_action : option GovActionId)
| UpdateCommittee (prev_action : option GovActionId) (removed : BTreeSet StakeCredential)
    (added : BTreeMap StakeCredential Z) (threshold : Z * Z)
| NewConstitution (prev_action : option GovActionId) (raw : list Z)
| InfoAction.

Definition Anchor : Type := list Z.

Record ProposalProcedure : Type := mk_ProposalProcedure {
  deposit : Coin;
  return_addr : list Z;
  gov_action : GovAction;
  anchor : Anchor;
}.

(** * Decoding *)

Definition NULL_BYTE : Z := 0xf6.

(** [read_hash28], [read_hash32]: the error carries the offset before the string. *)
Definition read_hash_of (n : Z) (detail : string) : PDec CodecError (list Z) :=
  dec! off := here in
  dec! bytes := read_bytesv in
  if negb (blen bytes =? n) then pfail (InvalidLength off detail) else pret bytes.
Definition gov_read_hash28 : PDec CodecError Hash28 := read_hash_of 28 "hash28 must be 28 bytes".
Definition gov_read_hash32 : PDec CodecError Hash32 := read_hash_of 32 "hash32 must be 32 bytes".

Definition peek_null : PDec CodecError bool := fun data off =>
  match byte_at data off with
  | None => (Err (UnexpectedEof off 1), off)
  | Some b => (Ok (b =? NULL_BYTE), off)
  end.

(** [if peek_null(..)? { *offset += 1; return Ok(None); } Ok(Some(m?))] *)
Definition nullable {A} (m : PDec CodecError A) : PDec CodecError (option A) :=
  dec! null := peek_null in
  if null then consume_break None else dec! a := m in pret (Some a).

Definition decode_gov_action_id_opt : PDec CodecError (option GovActionId) :=
  nullable (
    dec! _ := array_of 2 "gov_action_id must be array(2) [tx_hash, index]" in
    dec! tx_hash := gov_read_hash32 in
    dec! index := read_u64v in
    pret (mk_GovActionId tx_hash (as_u32 index))).

Definition decode_hash28_opt : PDec CodecError (option Hash28) := nullable gov_read_hash28.

Definition gov_decode_stake_credential : PDec CodecError StakeCredential :=
  dec! _ := array_of 2 "stake credential must be array(2)" in
  dec! cred_type_offset := here in
  dec! cred_type := read_u64v in
  dec! hash := gov_read_hash28 in
  if cred_type =? 0 then pret (KeyHash hash) else
  if cred_type =? 1 then pret (ScriptHash hash) else
  pfail (InvalidCborStructure cred_type_offset "unknown stake credential type").

(** The number of elements of an array or entries of a map that must be of definite length. *)
Definition definite (head : Dec ContainerEncoding) (detail : string) : PDec CodecError Z :=
  dec! enc := plift id head in
  match enc with Definite n _ => pret n | Indefinite => bad_structure detail end.

(** [if offset < data.len() && peek_major(..)? == 6 { read_tag(..)?; }] *)
Definition skip_leading_tag : PDec CodecError unit := fun data off =>
  if off <? blen data then skip_set_tag data off else (Ok tt, off).

Definition decode_cold_credential_set : PDec CodecError (BTreeSet StakeCredential) :=
  dec! _ := skip_leading_tag in
  dec! count := definite read_array_header "committee removed set must be definite-length" in
  dec! creds := pcollect (Z.to_nat count) gov_decode_stake_credential in
  pret (set_of creds).

Definition decode_credential_epoch : PDec CodecError (StakeCredential * Z) :=
  dec! cred := gov_decode_stake_credential in
  dec! epoch := read_u64v in
  pret (cred, epoch).

(** A later entry for the same credential overwrites. *)
Definition map_of {K V} `{TotalOrder K} (l : list (K * V)) : BTreeMap K V :=
  fold_left (fun m e => bt_insert m (fst e) (snd e)) l [].

Definition decode_cold_credential_epoch_map : PDec CodecError (BTreeMap StakeCredential Z) :=
  dec! count := definite read_map_header "committee added map must be definite-length" in
  dec! entries := pcollect (Z.to_nat count) decode_credential_epoch in
  pret (map_of entries).

Definition decode_unit_interval : PDec CodecError (Z * Z) :=
  dec! _ := skip_set_tag in
  dec! _ := array_of 2 "unit_interval must be array(2) [numerator, denominator]" in
  dec! num := read_u64v in
  dec! den := read_u64v in
  pret (num, den).

Definition decode_treasury_entry : PDec CodecError (list Z * Coin) :=
  dec! addr := read_bytesv in
  dec! amount := read_u64v in
  pret (addr, amount).

Definition decode_gov_action : PDec CodecError GovAction :=
  dec! enc := plift id read_array_header in
  match enc with
  | Indefinite => bad_structure "gov_action must be non-empty definite-length array"
  | Definite arr_len _ =>
      if negb (1 <=? arr_len) then bad_structure "gov_action must be non-empty definite-length array" else
      dec! tag_offset := here in
      dec! tag := read_u64v in
      match (tag, arr_len) with
      | (0, 4) =>
          dec! prev := decode_gov_action_id_opt in
          dec! update := raw_item in
          dec! policy := decode_hash28_opt in
          pret (ParameterChange prev update policy)
      | (1, 3) =>
          dec! prev := decode_gov_action_id_opt in
          dec! _ := array_of 2 "protocol_version must be array(2) [major, minor]" in
          dec! major := read_u64v in
          dec! minor := read_u64v in
          pret (HardForkInitiation prev (major, minor))
      | (2, 3) =>
          dec! count := definite read_map_header "treasury withdrawals map must be definite-length" in
          dec! withdrawals := pcollect (Z.to_nat count) decode_treasury_entry in
          dec! policy := decode_hash28_opt in
          pret (TreasuryWithdrawals withdrawals policy)
      | (3, 2) =>
          dec! prev := decode_gov_action_id_opt in
          pret (NoConfidence prev)
      | (4, 5) =>
          dec! prev := decode_gov_action_id_opt in
          dec! removed := decode_cold_credential_set in
          dec! added := decode_cold_credential_epoch_map in
          dec! threshold := decode_unit_interval in
          pret (UpdateCommittee prev removed added threshold)
      | (5, 3) =>
          dec! prev := decode_gov_action_id_opt in
          dec! raw := raw_item in
          pret (NewConstitution prev raw)
      | (6, 1) => pret InfoAction
      | _ => pfail (UnknownCertTag tag tag_offset)
      end
  end.

Definition decode_proposal_procedure : PDec CodecError ProposalProcedure :=
  dec! _ := array_of 4 "proposal_procedure must be array(4) [deposit, return_addr, gov_action, anchor]" in
  dec! deposit := read_u64v in
  dec! return_addr := read_bytesv in
  dec! gov_action := decode_gov_action in
  dec! anchor := raw_item in
  pret (mk_ProposalProcedure deposit return_addr gov_action anchor).

(** A non-empty array of proposals, in either form. *)
Definition decode_proposals : PDec CodecError (list ProposalProcedure) :=
  dec! _ := skip_leading_tag in
  dec! enc := plift id read_array_header in
  match enc with
  | Definite n _ =>
      if n =? 0 then bad_structure "proposal_procedures set must be non-empty (CIP-1694)"
      else pcollect (Z.to_nat n) decode_proposal_procedure
  | Indefinite =>
      dec! procs := nwhile at_break decode_proposal_procedure in
      dec! _ := consume_break tt in
      match procs with
      | [] => bad_structure "proposal_procedures set must be non-empty (CIP-1694)"
      | _ => pret procs
      end
  end.

Definition decode_proposal_procedures (data : list Z) : result (list ProposalProcedure) CodecError :=
  match decode_proposals data 0 with
  | (Err e, _) => Err e
  | (Ok procs, off) => if negb (off =? blen data) then Err (TrailingBytes off (blen data)) else Ok procs
  end.

(** * Encoding *)

Definition write_null (buf : list Z) : list Z := buf ++ [NULL_BYTE].
Definition array_canonical (buf : list Z) (n : Z) : list Z := write_array_header buf (Definite n (canonical_width n)).
Definition map_canonical (buf : list Z) (n : Z) : list Z := write_map_header buf (Definite n (canonical_width n)).
Definition small_array (buf : list Z) (n : Z) : list Z := write_array_header buf (Definite n Inline).

Definition encode_gov_action_id_opt (buf : list Z) (opt : option GovActionId) : list Z :=
  match opt with
  | None => write_null buf
  | Some i => write_uint_canonical (write_bytes_canonical (small_array buf 2) (action_tx_hash i)) (action_index i)
  end.

Definition encode_hash28_opt (buf : list Z) (opt : option Hash28) : list Z :=
  match opt with None => write_null buf | Some h => write_bytes_canonical buf h end.

Definition encode_stake_credential (buf : list Z) (cred : StakeCredential) : list Z :=
  let buf := small_array buf 2 in
  match cred with
  | KeyHash h => write_bytes_canonical (write_uint_canonical buf 0) h
  | ScriptHash h => write_bytes_canonical (write_uint_canonical buf 1) h
  end.

Definition encode_cold_credential_set (buf : list Z) (set : BTreeSet StakeCredential) : list Z :=
  fold_left encode_stake_credential (elements set) (array_canonical (write_tag buf 258 (canonical_width 258)) (blen set)).

Definition encode_credential_epoch (buf : list Z) (e : StakeCredential * Z) : list Z :=
  write_uint_canonical (encode_stake_credential buf (fst e)) (snd e).
Definition encode_cold_credential_epoch_map (buf : list Z) (map : BTreeMap StakeCredential Z) : list Z :=
  fold_left encode_credential_epoch map (map_canonical buf (blen map)).

Definition encode_unit_interval (buf : list Z) (ui : Z * Z) : list Z :=
  write_uint_canonical (write_uint_canonical (small_array (write_tag buf 30 (canonical_width 30)) 2) (fst ui)) (snd ui).

Definition encode_treasury_entry (buf : list Z) (e : list Z * Coin) : list Z :=
  write_uint_canonical (write_bytes_canonical buf (fst e)) (snd e).

Definition encode_gov_action (buf : list Z) (action : GovAction) : list Z :=
  match action with
  | ParameterChange prev update policy =>
      let buf := write_uint_canonical (small_array buf 4) 0 in
      encode_hash28_opt (encode_gov_action_id_opt buf prev ++ update) policy
  | HardForkInitiation prev (major, minor) =>
      let buf := write_uint_canonical (small_array buf 3) 1 in
      let buf := small_array (encode_gov_action_id_opt buf prev) 2 in
      write_uint_canonical (write_uint_canonical buf major) minor
  | TreasuryWithdrawals withdrawals policy =>
      let buf := write_uint_canonical (small_array buf 3) 2 in
      let buf := map_canonical buf (blen withdrawals) in
      encode_hash28_opt (fold_left encode_treasury_entry withdrawals buf) policy
  | NoConfidence prev => encode_gov_action_id_opt (write_uint_canonical (small_array buf 2) 3) prev
  | UpdateCommittee prev removed added threshold =>
      let buf := write_uint_canonical (small_array buf 5) 4 in
      let buf := encode_gov_action_id_opt buf prev in
      let buf := encode_cold_credential_set buf removed in
      let buf := encode_cold_credential_epoch_map buf added in
      encode_unit_interval buf threshold
  | NewConstitution prev raw =>
      encode_gov_action_id_opt (write_uint_canonical (small_array buf 3) 5) prev ++ raw
  | InfoAction => write_uint_canonical (small_array buf 1) 6
  end.

Definition encode_proposal_procedure (buf : list Z) (p : ProposalProcedure) : list Z :=
  let buf := write_uint_canonical (small_array buf 4) (deposit p) in
  let buf := write_bytes_canonical buf (return_addr p) in
  encode_gov_action buf (gov_action p) ++ anchor p.

Definition encode_proposal_procedures (procs : list ProposalProcedure) : list Z :=
  fold_left encode_proposal_procedure procs (array_canonical [] (blen procs)).
