(* ===== verification/GovernanceFacts.v ===== *)
(** The proposal codec: decoding inverts encoding, and an encoding is one CBOR item. *)

From S2P Require Import Prelude Cbor CborSkip CborRoundtrip NetCodec Spelling Decoder EraSchedule Leader BTree Wal BlockCodec BlockFacts.
From S2P Require Import LedgerValue ConwayCert Utxo LedgerMaps DelegationFacts Governance.


(** * Heads *)

Lemma spells_map n body : is_u64 n -> spells (n + n) body -> spells 1 (argument_bytes MAJOR_MAP n ++ body).
Proof.
  intros Hn Hb. apply (spells_head (HPairs n) _ _ (n + n)); [by unfold MAJOR_MAP|done|done| |].
  - head_of Hn pre post. rewrite Hi. cbn.
    destruct (Z.eqb_spec (width_ai n (canonical_width n)) AI_INDEFINITE); [done|]. by rewrite Ha.
  - intros. constructor. by replace (n * 2) with (n + n) by lia.
Qed.

Lemma reads_map_head n : is_u64 n ->
  reads (plift (E := CodecError) id read_map_header) (argument_bytes MAJOR_MAP n) (Definite n (canonical_width n)).
Proof. intros Hn. by apply reads_plift, reads_map_header. Qed.

Lemma reads_small_array n detail : is_u64 n -> reads (array_of n detail) (argument_bytes MAJOR_ARRAY n) tt.
Proof. intros Hn. unfold array_of. eapply reads_pend; [by apply reads_header_array|]. cbn beta iota. rewrite Z.eqb_refl. apply reads_pret. Qed.

Lemma reads_definite_array n detail : is_u64 n -> reads (definite read_array_header detail) (argument_bytes MAJOR_ARRAY n) n.
Proof. intros Hn. unfold definite. eapply reads_pend; [by apply reads_header_array|apply reads_pret]. Qed.
Lemma reads_definite_map n detail : is_u64 n -> reads (definite read_map_header detail) (argument_bytes MAJOR_MAP n) n.
Proof. intros Hn. unfold definite. eapply reads_pend; [by apply reads_map_head|apply reads_pret]. Qed.

Lemma reads_tag v : is_u64 v -> reads (plift (E := CodecError) id read_tag) (argument_bytes MAJOR_TAG v) (v, canonical_width v).
Proof.
  intros Hv. apply reads_plift, (reads_written _ (fun buf => write_tag buf v (canonical_width v))).
  - intros buf. by apply write_canonical.
  - intros buf post _. by apply read_tag_written, canonical_width_fits.
Qed.

(** The first byte of a head is its major type. *)
Lemma head_byte major v : exists x rest, argument_bytes major v = x :: rest /\ x = Z.lor (as_u8 (Z.shiftl major 5)) (width_ai v (canonical_width v)).
Proof. rewrite argument_width. by eexists _, _. Qed.

Lemma peek_head pre major v post : 0 <= major < 8 -> is_u64 v ->
  peek_major (pre ++ argument_bytes major v ++ post) (blen pre) = Ok major.
Proof.
  intros Hm Hv. unfold peek_major, peek_byte. rewrite argument_width. cbn [app]. rewrite byte_at_here. cbn [ok_or rbind].
  pose proof (width_ai_bound _ _ (canonical_width_fits _ Hv)) as [Hb _]. f_equal. by apply initial_split.
Qed.
#[export] Hint Resolve reads_small_array reads_definite_array reads_definite_map reads_tag spells_u spells_bytes : wire.

Lemma write_map_app buf n : is_u64 n -> map_canonical buf n = buf ++ argument_bytes MAJOR_MAP n.
Proof. apply write_canonical. Qed.
Lemma write_tag_app buf n : is_u64 n -> write_tag buf n (canonical_width n) = buf ++ argument_bytes MAJOR_TAG n.
Proof. apply write_canonical. Qed.
Lemma small_array_app buf n : 0 <= n <= 23 -> small_array buf n = buf ++ argument_bytes MAJOR_ARRAY n.
Proof. apply write_small_array. Qed.
Lemma array_canonical_app buf n : is_u64 n -> array_canonical buf n = buf ++ argument_bytes MAJOR_ARRAY n.
Proof. apply write_array_app. Qed.

(** * A value and its encoding *)

(** The encoder appends [n] items, and the decoder reads them back. *)
Definition coded {A} (n : Z) (enc : list Z -> A -> list Z) (dec : PDec CodecError A) (x : A) : Prop :=
  exists bytes, (forall buf, enc buf x = buf ++ bytes) /\ reads dec bytes x /\ spells n bytes.

Lemma coded_all {A} n (enc : list Z -> A -> list Z) dec l : Forall (coded n enc dec) l ->
  exists bytes, (forall buf, fold_left enc l buf = buf ++ bytes) /\
    reads (pcollect (Z.to_nat (blen l)) dec) bytes l /\ spells (blen l * n) bytes.
Proof.
  unfold blen at 1. rewrite Nat2Z.id.
  induction 1 as [|x l (bx & Wx & Rx & Sx) _ (bl & Wl & Rl & Sl)].
  - exists []. split_and!; [intros buf; by rewrite app_nil_r|apply reads_pret|apply spells_nil].
  - exists (bx ++ bl). split_and!.
    + intros buf. cbn [fold_left]. by rewrite Wx, Wl, <- app_assoc.
    + cbn [length pcollect]. eapply reads_pbind; [done|]. eapply reads_pend; [exact Rl|apply reads_pret].
    + rewrite blen_cons. replace ((1 + blen l) * n) with (n + blen l * n) by lia. by apply spells_app.
Qed.

(** [writing] turns a chain of writers into the bytes they append. *)
Ltac writing := rewrite ?array_canonical_app, ?write_map_app, ?write_tag_app, ?small_array_app, ?write_uint_app, ?write_bytes_app
  by (first [small|eauto with wire]).

Lemma reads_peek_null pre major v post : 0 <= major < 7 -> is_u64 v ->
  peek_null (pre ++ argument_bytes major v ++ post) (blen pre) = (Ok false, blen pre).
Proof.
  intros Hm Hv. unfold peek_null. destruct (head_byte major v) as (x & rest & E & Hx). rewrite E. cbn [app].
  rewrite byte_at_here. f_equal. f_equal. apply Z.eqb_neq. intros ->.
  pose proof (width_ai_bound _ _ (canonical_width_fits _ Hv)) as [Hb _].
  destruct (initial_split major (width_ai v (canonical_width v))) as [Hs _]; [lia|done|]. rewrite <- Hx in Hs.
  change (Z.shiftr NULL_BYTE 5) with 7 in Hs. lia.
Qed.

Lemma reads_nullable_none {A} (m : PDec CodecError A) : reads (nullable m) [NULL_BYTE] None.
Proof.
  intros pre post _ _. unfold nullable, pbind, peek_null. cbn [app]. rewrite byte_at_here. by rewrite Z.eqb_refl.
Qed.

Lemma reads_nullable_some {A} (m : PDec CodecError A) major v rest a : 0 <= major < 7 -> is_u64 v ->
  reads m (argument_bytes major v ++ rest) a -> reads (nullable m) (argument_bytes major v ++ rest) (Some a).
Proof.
  intros Hm Hv Hr pre post Hok Hl. pose proof (Hr pre post Hok Hl) as E.
  pose proof (reads_peek_null pre major v (rest ++ post) Hm Hv) as P. rewrite <- app_assoc in E |- *.
  unfold nullable, pbind. rewrite P. by rewrite E.
Qed.

Lemma spells_null : spells 1 [NULL_BYTE].
Proof.
  apply spells_one_item. split; [repeat constructor; vm_compute; congruence|].
  eapply item_intro; [by vm_compute|constructor].
Qed.

(** * The codec *)

Definition hash28_fits (h : Hash28) : Prop := bytes_ok h /\ blen h = 28.
Definition action_id_fits (o : option GovActionId) : Prop :=
  match o with Some i => hash_ok (action_tx_hash i) /\ is_u32 (action_index i) | None => True end.
Definition policy_fits (o : option Hash28) : Prop := from_option hash28_fits True o.
Definition credential_fits (c : StakeCredential) : Prop := match c with KeyHash h | ScriptHash h => hash28_fits h end.
Definition interval_fits (p : Z * Z) : Prop := is_u64 (fst p) /\ is_u64 (snd p).

Definition action_fits (a : GovAction) : Prop :=
  match a with
  | ParameterChange prev update policy => action_id_fits prev /\ one_item update /\ policy_fits policy
  | HardForkInitiation prev version => action_id_fits prev /\ interval_fits version
  | TreasuryWithdrawals withdrawals policy =>
      is_u64 (blen withdrawals) /\ Forall (fun e => bytes_fit (fst e) /\ is_u64 (snd e)) withdrawals /\ policy_fits policy
  | NoConfidence prev => action_id_fits prev
  | UpdateCommittee prev removed added threshold =>
      action_id_fits prev /\
      (ordered removed /\ is_u64 (blen removed) /\ Forall credential_fits (elements removed)) /\
      (ordered added /\ is_u64 (blen added) /\ Forall (fun e => credential_fits (fst e) /\ is_u64 (snd e)) added) /\
      interval_fits threshold
  | NewConstitution prev raw => action_id_fits prev /\ one_item raw
  | InfoAction => True
  end.

Definition proposal_fits (p : ProposalProcedure) : Prop :=
  is_u64 (deposit p) /\ bytes_fit (return_addr p) /\ action_fits (gov_action p) /\ one_item (anchor p).

Lemma as_u32_id v : is_u32 v -> as_u32 v = v.
Proof. intros Hv. unfold as_u32. width. apply Z.mod_small. lia. Qed.
Lemma as_u16_id v : is_u16 v -> as_u16 v = v.
Proof. intros Hv. unfold as_u16. width. apply Z.mod_small. lia. Qed.
Lemma as_u8_id v : is_u8 v -> as_u8 v = v.
Proof. intros Hv. unfold as_u8. width. apply Z.mod_small. lia. Qed.

Lemma hash28_length h : hash28_fits h -> is_u64 (blen h).
Proof. intros [_ ->]. small. Qed.
Lemma hash28_bytes h : hash28_fits h -> bytes_ok h.
Proof. by intros [? _]. Qed.
Lemma hash_bytes h : hash_ok h -> bytes_ok h.
Proof. by intros [? _]. Qed.
#[export] Hint Resolve hash28_length hash28_bytes hash_bytes : wire.

Lemma reads_here_k {B} (k : Z -> PDec CodecError B) bytes b : (forall o, reads (k o) bytes b) -> reads (pbind here k) bytes b.
Proof. intros Hk pre post Hok Hl. unfold pbind, here. by apply Hk. Qed.

Lemma reads_hash_of n detail h : bytes_ok h -> blen h = n -> is_u64 n -> reads (read_hash_of n detail) (string_bytes h) h.
Proof.
  intros Hb <- Hn. unfold read_hash_of, read_bytesv. apply reads_here_k. intros o.
  eapply reads_pend; [by apply reads_string|]. rewrite Z.eqb_refl. apply reads_pret.
Qed.
Lemma reads_gov_hash28 h : hash28_fits h -> reads gov_read_hash28 (string_bytes h) h.
Proof. intros [Hb Hh]. apply reads_hash_of; [done|done|small]. Qed.
Lemma reads_gov_hash32 h : hash_ok h -> reads gov_read_hash32 (string_bytes h) h.
Proof. intros [Hb Hh]. apply reads_hash_of; [done|done|small]. Qed.
Lemma reads_u64v v : is_u64 v -> reads read_u64v (uint_bytes v) v.
Proof. apply reads_value. Qed.
Lemma reads_bytesv s : is_u64 (blen s) -> reads read_bytesv (string_bytes s) s.
Proof. apply reads_string. Qed.
#[export] Hint Resolve reads_gov_hash28 reads_gov_hash32 reads_u64v reads_bytesv spells_null reads_nullable_none : wire.

Lemma coded_action_id o : action_id_fits o -> coded 1 encode_gov_action_id_opt decode_gov_action_id_opt o.
Proof.
  destruct o as [[h i]|]; [|exists [NULL_BYTE]; split_and!; eauto with wire]. cbn [action_id_fits action_tx_hash action_index].
  intros [Hh Hi]. exists (argument_bytes MAJOR_ARRAY 2 ++ string_bytes h ++ uint_bytes i). split_and!.
  - intros buf. cbn [encode_gov_action_id_opt action_tx_hash action_index].
    rewrite write_uint_app, write_bytes_app, small_array_app by (first [lia|eauto with wire]). by rewrite <- !app_assoc.
  - apply (reads_nullable_some _ MAJOR_ARRAY 2); [done|small|]. decoding. rewrite as_u32_id by done. apply reads_pret.
  - apply spells_array; [small|]. spelling.
Qed.

Lemma coded_policy o : policy_fits o -> coded 1 encode_hash28_opt decode_hash28_opt o.
Proof.
  destruct o as [h|]; [|exists [NULL_BYTE]; split_and!; eauto with wire]. cbn [policy_fits from_option].
  intros Hh. exists (string_bytes h). split_and!; [|..].
  - intros buf. cbn [encode_hash28_opt]. by rewrite write_bytes_app by eauto with wire.
  - apply (reads_nullable_some _ MAJOR_BYTES (blen h)); [done|eauto with wire|]. by apply reads_gov_hash28.
  - eauto with wire.
Qed.

Lemma coded_credential c : credential_fits c -> coded 1 encode_stake_credential gov_decode_stake_credential c.
Proof.
  intros Hc. exists (argument_bytes MAJOR_ARRAY 2 ++ uint_bytes (match c with KeyHash _ => 0 | ScriptHash _ => 1 end) ++
    string_bytes (match c with KeyHash h | ScriptHash h => h end)). split_and!.
  - intros buf. unfold encode_stake_credential.
    destruct c; cbn in Hc; rewrite write_bytes_app, write_uint_app, small_array_app by (first [lia|eauto with wire]); by rewrite <- !app_assoc.
  - unfold gov_decode_stake_credential. eapply reads_pbind; [eauto with wire|]. apply reads_here_k. intros o.
    eapply reads_pbind; [apply reads_u64v; by destruct c|].
    eapply reads_pend; [apply reads_gov_hash28; by destruct c|]. destruct c; apply reads_pret.
  - apply spells_array; [small|]. apply (spells_more 1); [apply spells_u; by destruct c|apply spells_bytes; destruct c; eauto with wire].
Qed.

(** [n] items, each spelled once, are [n] items. *)
Lemma coded_credentials l : Forall credential_fits l ->
  exists bytes, (forall buf, fold_left encode_stake_credential l buf = buf ++ bytes) /\
    reads (pcollect (Z.to_nat (blen l)) gov_decode_stake_credential) bytes l /\ spells (blen l * 1) bytes.
Proof. intros Hl. apply coded_all. eapply Forall_impl; [exact Hl|apply coded_credential]. Qed.

Lemma reads_leading_tag v rest {B} (k : unit -> PDec CodecError B) b : is_u64 v -> reads (k tt) rest b ->
  reads (pbind skip_leading_tag k) (argument_bytes MAJOR_TAG v ++ rest) b.
Proof.
  intros Hv Hk. eapply reads_pbind; [|exact Hk]. intros pre post Hok Hl. unfold skip_leading_tag.
  destruct (Z.ltb_spec (blen pre) (blen (pre ++ argument_bytes MAJOR_TAG v ++ post))) as [_|Hge].
  - unfold skip_set_tag. rewrite peek_head by done. cbn [Z.eqb Pos.eqb MAJOR_TAG].
    unfold pbind. by rewrite (reads_tag v Hv pre post Hok Hl).
  - destruct (head_byte MAJOR_TAG v) as (x & r & E & _). rewrite E, !blen_app, blen_cons in Hge.
    pose proof (blen_nonneg r). pose proof (blen_nonneg post). lia.
Qed.

Lemma reads_no_tag {B} (m : PDec CodecError unit) (k : unit -> PDec CodecError B) major v rest b :
  m = skip_set_tag \/ m = skip_leading_tag -> 0 <= major < 6 -> is_u64 v ->
  reads (k tt) (argument_bytes major v ++ rest) b -> reads (pbind m k) (argument_bytes major v ++ rest) b.
Proof.
  intros Hm Hmaj Hv Hk pre post Hok Hl. specialize (Hk pre post Hok Hl). rewrite <- app_assoc in Hk |- *.
  assert (skip_set_tag (pre ++ argument_bytes major v ++ rest ++ post) (blen pre) = (Ok tt, blen pre)) as E.
  { unfold skip_set_tag. rewrite peek_head by (lia || done). by destruct (Z.eqb_spec major 6); [lia|]. }
  unfold pbind. destruct Hm as [-> | ->]; [by rewrite E|]. unfold skip_leading_tag. rewrite E. by destruct (_ <? _).
Qed.

Lemma coded_removed s : ordered s /\ is_u64 (blen s) /\ Forall credential_fits (elements s) ->
  coded 1 encode_cold_credential_set decode_cold_credential_set s.
Proof.
  intros (Ho & Hn & Hs). destruct (coded_credentials _ Hs) as (bytes & W & R & S).
  assert (blen (elements s) = blen s) as E by apply blen_map. rewrite E, ?Z.mul_1_r in *.
  exists (argument_bytes MAJOR_TAG 258 ++ argument_bytes MAJOR_ARRAY (blen s) ++ bytes). split_and!.
  - intros buf. unfold encode_cold_credential_set. rewrite W, array_canonical_app, write_tag_app by (done || small).
    by rewrite <- !app_assoc.
  - apply reads_leading_tag; [small|]. eapply reads_pbind; [by apply reads_definite_array|].
    eapply reads_pend; [exact R|]. rewrite set_of_elements by done. apply reads_pret.
  - apply spells_tag; [small|]. by apply spells_array.
Qed.

Lemma map_of_ordered {K V} `{TotalOrder K} `{EqDecision K} (m : BTreeMap K V) : ordered m -> map_of m = m.
Proof.
  assert (forall (l acc : BTreeMap K V), ordered (acc ++ l) ->
    fold_left (fun m e => bt_insert m (fst e) (snd e)) l acc = acc ++ l) as F; [|exact (F m [])].
  induction l as [|[k v] l IH]; intros acc Ho; [by rewrite app_nil_r|]. cbn [fold_left fst snd].
  rewrite bt_insert_last by by apply (ordered_front acc l k v).
  replace (acc ++ (k, v) :: l) with ((acc ++ [(k, v)]) ++ l) in * by by rewrite <- app_assoc. by apply IH.
Qed.

Lemma coded_added m : ordered m /\ is_u64 (blen m) /\ Forall (fun e => credential_fits (fst e) /\ is_u64 (snd e)) m ->
  coded 1 encode_cold_credential_epoch_map decode_cold_credential_epoch_map m.
Proof.
  intros (Ho & Hn & Hm). destruct (coded_all 2 encode_credential_epoch decode_credential_epoch m) as (bytes & W & R & S).
  { eapply Forall_impl; [exact Hm|]. intros [c e] [Hc He]. cbn [fst snd] in *.
    destruct (coded_credential c Hc) as (bytes & W & R & S). exists (bytes ++ uint_bytes e). split_and!.
    - intros buf. unfold encode_credential_epoch. cbn [fst snd]. rewrite W, write_uint_app by done. by rewrite <- app_assoc.
    - unfold decode_credential_epoch. eapply reads_pbind; [exact R|]. decoding.
    - apply (spells_more 1); [done|by apply spells_u]. }
  exists (argument_bytes MAJOR_MAP (blen m) ++ bytes). split_and!.
  - intros buf. unfold encode_cold_credential_epoch_map. rewrite W, write_map_app by done. by rewrite <- app_assoc.
  - eapply reads_pbind; [by apply reads_definite_map|]. eapply reads_pend; [exact R|].
    rewrite map_of_ordered by done. apply reads_pret.
  - apply spells_map; [done|]. by replace (blen m + blen m) with (blen m * 2) by lia.
Qed.

Lemma coded_interval p : interval_fits p -> coded 1 encode_unit_interval decode_unit_interval p.
Proof.
  destruct p as [a b]. intros [Ha Hb]. cbn [fst snd] in *.
  exists (argument_bytes MAJOR_TAG 30 ++ argument_bytes MAJOR_ARRAY 2 ++ uint_bytes a ++ uint_bytes b). split_and!.
  - intros buf. unfold encode_unit_interval. cbn [fst snd].
    rewrite !write_uint_app, small_array_app, write_tag_app by (first [done|lia|small]). by rewrite <- !app_assoc.
  - unfold decode_unit_interval. eapply reads_pbind.
    { intros pre post Hok Hl. unfold skip_set_tag. rewrite peek_head by (done || small). cbn [Z.eqb Pos.eqb MAJOR_TAG].
      unfold pbind. by rewrite (reads_tag 30 ltac:(small) pre post Hok Hl). }
    decoding.
  - apply spells_tag; [small|]. apply spells_array; [small|]. spelling.
Qed.

Lemma coded_treasury l : Forall (fun e => bytes_fit (fst e) /\ is_u64 (snd e)) l ->
  exists bytes, (forall buf, fold_left encode_treasury_entry l buf = buf ++ bytes) /\
    reads (pcollect (Z.to_nat (blen l)) decode_treasury_entry) bytes l /\ spells (blen l * 2) bytes.
Proof.
  intros Hl. apply coded_all. eapply Forall_impl; [exact Hl|]. intros [a c] [[Ha Hs] Hc]. cbn [fst snd] in *.
  exists (string_bytes a ++ uint_bytes c). split_and!.
  - intros buf. unfold encode_treasury_entry. cbn [fst snd]. rewrite write_uint_app, write_bytes_app by done. by rewrite <- app_assoc.
  - unfold decode_treasury_entry. decoding.
  - spelling.
Qed.

(** An array whose first item is a small tag. *)
Lemma action_writes n tag body buf : 0 <= n <= 23 -> is_u64 tag ->
  write_uint_canonical (small_array buf n) tag ++ body = buf ++ argument_bytes MAJOR_ARRAY n ++ uint_bytes tag ++ body.
Proof. intros Hn Ht. rewrite write_uint_app, small_array_app by done. by rewrite <- !app_assoc. Qed.

Ltac action_head := unfold decode_gov_action; eapply reads_pbind; [apply reads_header_array; small|];
  cbn beta iota; cbn [Z.leb Z.compare Pos.compare Pos.compare_cont negb]; apply reads_here_k; intros o;
  eapply reads_pbind; [apply reads_u64v; small|]; cbn beta iota.

Lemma coded_action a : action_fits a -> coded 1 encode_gov_action decode_gov_action a.
Proof.
  destruct a as [prev update policy|prev [ma mi]|ws policy|prev|prev removed added threshold|prev raw|]; cbn [action_fits].
  - intros (Hp & Hu & Hq). destruct (coded_action_id _ Hp) as (bp & Wp & Rp & Sp).
    destruct (coded_policy _ Hq) as (bq & Wq & Rq & Sq).
    exists (argument_bytes MAJOR_ARRAY 4 ++ uint_bytes 0 ++ bp ++ update ++ bq). split_and!.
    + intros buf. cbn [encode_gov_action]. rewrite Wq, Wp, <- !app_assoc. by rewrite action_writes by (lia || small).
    + action_head. eapply reads_pbind; [exact Rp|]. eapply reads_pbind; [by apply reads_item|].
      eapply reads_pend; [exact Rq|apply reads_pret].
    + apply spells_array; [small|]. spelling.
  - intros (Hp & Hma & Hmi). cbn [fst snd] in *. destruct (coded_action_id _ Hp) as (bp & Wp & Rp & Sp).
    exists (argument_bytes MAJOR_ARRAY 3 ++ uint_bytes 1 ++ bp ++ array_bytes 2 (uint_bytes ma ++ uint_bytes mi)). split_and!.
    + intros buf. cbn [encode_gov_action]. rewrite 2!write_uint_app, small_array_app, Wp by (done || lia).
      unfold array_bytes. rewrite <- !app_assoc. by rewrite action_writes by (lia || small).
    + action_head. eapply reads_pbind; [exact Rp|]. unfold array_bytes. decoding.
    + apply spells_array; [small|]. spelling.
  - intros (Hn & Hw & Hq). destruct (coded_treasury _ Hw) as (bw & Ww & Rw & Sw).
    destruct (coded_policy _ Hq) as (bq & Wq & Rq & Sq).
    exists (argument_bytes MAJOR_ARRAY 3 ++ uint_bytes 2 ++ (argument_bytes MAJOR_MAP (blen ws) ++ bw) ++ bq). split_and!.
    + intros buf. cbn [encode_gov_action]. rewrite Wq, Ww, write_map_app, <- !app_assoc by done.
      by rewrite action_writes by (lia || small).
    + action_head. rewrite <- app_assoc. eapply reads_pbind; [by apply reads_definite_map|].
      eapply reads_pbind; [exact Rw|]. eapply reads_pend; [exact Rq|apply reads_pret].
    + apply spells_array; [small|]. apply (spells_more 2); [spelling|]. apply (spells_more 1); [|done].
      apply spells_map; [done|]. by replace (blen ws + blen ws) with (blen ws * 2) by lia.
  - intros Hp. destruct (coded_action_id _ Hp) as (bp & Wp & Rp & Sp).
    exists (argument_bytes MAJOR_ARRAY 2 ++ uint_bytes 3 ++ bp). split_and!.
    + intros buf. cbn [encode_gov_action]. rewrite Wp. by rewrite action_writes by (lia || small).
    + action_head. eapply reads_pend; [exact Rp|apply reads_pret].
    + apply spells_array; [small|]. spelling.
  - intros (Hp & Hr & Ha & Ht). destruct (coded_action_id _ Hp) as (bp & Wp & Rp & Sp).
    destruct (coded_removed _ Hr) as (br & Wr & Rr & Sr). destruct (coded_added _ Ha) as (ba & Wa & Ra & Sa).
    destruct (coded_interval _ Ht) as (bt & Wt & Rt & St).
    exists (argument_bytes MAJOR_ARRAY 5 ++ uint_bytes 4 ++ bp ++ br ++ ba ++ bt). split_and!.
    + intros buf. cbn [encode_gov_action]. rewrite Wt, Wa, Wr, Wp, <- !app_assoc. by rewrite action_writes by (lia || small).
    + action_head. do 3 (eapply reads_pbind; [eassumption|]). eapply reads_pend; [exact Rt|apply reads_pret].
    + apply spells_array; [small|]. spelling.
  - intros (Hp & Hr). destruct (coded_action_id _ Hp) as (bp & Wp & Rp & Sp).
    exists (argument_bytes MAJOR_ARRAY 3 ++ uint_bytes 5 ++ bp ++ raw). split_and!.
    + intros buf. cbn [encode_gov_action]. rewrite Wp, <- !app_assoc. by rewrite action_writes by (lia || small).
    + action_head. eapply reads_pbind; [exact Rp|]. eapply reads_pend; [by apply reads_item|apply reads_pret].
    + apply spells_array; [small|]. spelling.
  - intros _. exists (argument_bytes MAJOR_ARRAY 1 ++ uint_bytes 6). split_and!.
    + intros buf. cbn [encode_gov_action]. rewrite write_uint_app, small_array_app by (lia || small). by rewrite <- app_assoc.
    + rewrite <- (app_nil_r (uint_bytes 6)). action_head. apply reads_pret.
    + apply spells_array; [small|]. spelling.
Qed.

Lemma coded_proposal p : proposal_fits p -> coded 1 encode_proposal_procedure decode_proposal_procedure p.
Proof.
  intros (Hd & [Hb Hl] & Ha & Hx). destruct (coded_action _ Ha) as (ba & Wa & Ra & Sa).
  exists (argument_bytes MAJOR_ARRAY 4 ++ uint_bytes (deposit p) ++ string_bytes (return_addr p) ++ ba ++ anchor p). split_and!.
  - intros buf. unfold encode_proposal_procedure. rewrite Wa, write_bytes_app, write_uint_app, small_array_app by (done || lia).
    by rewrite <- !app_assoc.
  - unfold decode_proposal_procedure. do 3 (eapply reads_pbind; [solve [eauto with wire]|]). eapply reads_pbind; [exact Ra|].
    eapply reads_pend; [by apply reads_item|]. destruct p. apply reads_pret.
  - apply spells_array; [small|]. spelling.
Qed.

Lemma coded_proposals l : l <> [] -> is_u64 (blen l) -> Forall proposal_fits l ->
  exists bytes, encode_proposal_procedures l = bytes /\ reads decode_proposals bytes l /\ spells 1 bytes.
Proof.
  intros Hne Hn Hl. destruct (coded_all 1 encode_proposal_procedure decode_proposal_procedure l) as (bytes & W & R & S).
  { eapply Forall_impl; [exact Hl|apply coded_proposal]. }
  exists (argument_bytes MAJOR_ARRAY (blen l) ++ bytes). split_and!.
  - unfold encode_proposal_procedures. by rewrite W, array_canonical_app by done.
  - unfold decode_proposals. apply reads_no_tag; [by right|by unfold MAJOR_ARRAY|done|].
    eapply reads_pbind; [by apply reads_header_array|]. cbn beta iota.
    destruct (Z.eqb_spec (blen l) 0) as [E|_]; [|done]. destruct l; [done|]. rewrite blen_cons in E. pose proof (blen_nonneg l). lia.
  - apply spells_array; [done|]. by rewrite Z.mul_1_r in S.
Qed.

Lemma proposals_roundtrip l : l <> [] -> is_u64 (blen l) -> Forall proposal_fits l ->
  blen (encode_proposal_procedures l) <= u64_max -> decode_proposal_procedures (encode_proposal_procedures l) = Ok l.
Proof.
  intros Hne Hn Hl Hb. destruct (coded_proposals l Hne Hn Hl) as (bytes & E & R & S). unfold decode_proposal_procedures.
  rewrite <- E in *. rewrite (reads_whole_at _ _ l R (proj1 S) Hb). by rewrite Z.eqb_refl.
Qed.
