(* ===== verification/ConwayTx.v ===== *)
(** Conway transaction bodies: the types of [ade_types/src/conway/tx.rs] and
    [ade_types/src/babbage/tx.rs], and the codecs [ade_codec/src/conway/tx.rs] and the output and
    input parts of [ade_codec/src/babbage/tx.rs] and [ade_codec/src/shelley/tx.rs].

    The decoder's twenty [let mut x = None] are the list of the fields read so far: [x] is the last
    field of its kind.  Allocation is not modelled: [decode_conway_outputs] reserves what the array
    head announces, unchecked.  The theorem: decoding inverts encoding for every body whose fields fit
    their wire form. *)

From S2P Require Import Prelude Cbor CborSkip CborRoundtrip EraSchedule Leader NetCodec BTree Spelling Decoder Wal.
From S2P Require Import BlockCodec BlockFacts LedgerValue Utxo LedgerMaps ConwayCert DelegationFacts Governance.
From S2P Require Import GovernanceFacts.

(** * Types *)

Record BabbageTxOut : Type := mk_BabbageTxOut {
  out_address : list Z;
  out_lovelace : Coin;
  out_multi_asset : option (list Z);
  out_datum_option : option (list Z);
  out_script_ref : option (list Z);
}.

Record ConwayTxBody : Type := mk_ConwayTxBody {
  inputs : BTreeSet TxIn;
  outputs : list BabbageTxOut;
  fee : Coin;
  ttl : option Z;
  certs : option (list Z);
  withdrawals : option (list Z);
  metadata_hash : option Hash32;
  validity_interval_start : option Z;
  mint : option (list Z);
  script_data_hash : option Hash32;
  collateral_inputs : option (BTreeSet TxIn);
  required_signers : option (BTreeSet Hash28);
  network_id : option Z;
  collateral_return : option BabbageTxOut;
  total_collateral : option Coin;
  reference_inputs : option (BTreeSet TxIn);
  voting_procedures : option (list Z);
  proposal_procedures : option (list ProposalProcedure);
  treasury_value : option Coin;
  donation : option Coin;
}.

(** * Decoding *)

(** [alonzo::tx::read_hash28] *)
Definition read_key_hash : PDec CodecError Hash28 :=
  dec! bytes := read_bytesv in
  if negb (blen bytes =? 28)
  then fun _ off => (Err (InvalidLength (off - blen bytes) "expected 28-byte key hash"), off)
  else pret bytes.

(** The index is truncated to a [u16]. *)
Definition decode_tx_in : PDec CodecError TxIn :=
  dec! _ := array_of 2 "tx input must be array(2)" in
  dec! tx_hash := BlockCodec.read_hash32 in
  dec! index := read_u64v in
  pret (tx_hash, as_u16 index).

Definition decode_tx_inputs : PDec CodecError (BTreeSet TxIn) :=
  dec! ins := read_elements decode_tx_in in pret (set_of ins).

Definition decode_required_signers : PDec CodecError (BTreeSet Hash28) :=
  dec! _ := skip_leading_tag in
  dec! signers := read_elements read_key_hash in pret (set_of signers).

Definition peek_type : PDec CodecError Z := fun data off => (peek_major data off, off).

(** The value of an output: a coin, or a pair of a coin and the assets' bytes. *)
Definition decode_out_value : PDec CodecError (Coin * option (list Z)) :=
  dec! off := here in
  dec! major := peek_type in
  if major =? MAJOR_UNSIGNED then dec! v := read_u64v in pret (v, None) else
  if major =? MAJOR_ARRAY then
    dec! _ := array_of 2 "Babbage value array must be array(2)" in
    dec! v := read_u64v in
    dec! ma := raw_item in
    pret (v, Some ma)
  else pfail (UnexpectedCborType off "uint or array for value" major).

Inductive OutField : Type :=
| Out_address (a : list Z) | Out_value (c : Coin) (ma : option (list Z)) | Out_datum (d : list Z) | Out_script (s : list Z) | Out_other.

Definition decode_out_field : PDec CodecError OutField :=
  dec! key := read_u64v in
  match key with
  | 0 => dec! a := read_bytesv in pret (Out_address a)
  | 1 => dec! (c, ma) := decode_out_value in pret (Out_value c ma)
  | 2 => dec! d := raw_item in pret (Out_datum d)
  | 3 => dec! s := raw_item in pret (Out_script s)
  | _ => dec! _ := skip_one in pret Out_other
  end.

(** The last value assigned to a variable. *)
Definition assigned {F A} (sel : F -> option A) (fields : list F) : option A := last (omap sel fields).

Definition decode_babbage_tx_out_map : PDec CodecError BabbageTxOut :=
  dec! n := definite read_map_header "Babbage tx output map must be definite-length" in
  dec! fields := pcollect (Z.to_nat n) decode_out_field in
  match assigned (fun f => match f with Out_address a => Some a | _ => None end) fields with
  | None => bad_structure "Babbage tx output missing address (key 0)"
  | Some address =>
      pret (mk_BabbageTxOut address
        (default 0 (assigned (fun f => match f with Out_value c _ => Some c | _ => None end) fields))
        (assigned (fun f => match f with Out_value _ (Some ma) => Some ma | _ => None end) fields)
        (assigned (fun f => match f with Out_datum d => Some d | _ => None end) fields)
        (assigned (fun f => match f with Out_script s => Some s | _ => None end) fields))
  end.

Definition when {A} (b : bool) (m : PDec CodecError A) : PDec CodecError (option A) :=
  if b then dec! a := m in pret (Some a) else pret None.

Definition decode_babbage_tx_out_array : PDec CodecError BabbageTxOut :=
  dec! enc := plift id read_array_header in
  match enc with
  | Indefinite => bad_structure "Babbage tx output array must have 2-4 elements"
  | Definite n _ =>
      if negb ((2 <=? n) && (n <=? 4)) then bad_structure "Babbage tx output array must have 2-4 elements" else
      dec! address := read_bytesv in
      dec! (c, ma) := decode_out_value in
      dec! datum := when (3 <=? n) raw_item in
      dec! script := when (4 <=? n) raw_item in
      pret (mk_BabbageTxOut address c ma datum script)
  end.

Definition decode_babbage_tx_out : PDec CodecError BabbageTxOut :=
  dec! off := here in
  dec! major := peek_type in
  if major =? MAJOR_MAP then decode_babbage_tx_out_map else
  if major =? MAJOR_ARRAY then decode_babbage_tx_out_array else
  pfail (UnexpectedCborType off "array or map for Babbage tx output" major).

Definition decode_conway_outputs : PDec CodecError (list BabbageTxOut) := read_elements decode_babbage_tx_out.

Inductive BodyField : Type :=
| F_inputs (v : BTreeSet TxIn) | F_outputs (v : list BabbageTxOut) | F_fee (v : Coin) | F_ttl (v : Z)
| F_certs (v : list Z) | F_withdrawals (v : list Z) | F_metadata_hash (v : Hash32) | F_validity_start (v : Z)
| F_mint (v : list Z) | F_script_data_hash (v : Hash32) | F_collateral_inputs (v : BTreeSet TxIn)
| F_required_signers (v : BTreeSet Hash28) | F_network_id (v : Z) | F_collateral_return (v : BabbageTxOut)
| F_total_collateral (v : Coin) | F_reference_inputs (v : BTreeSet TxIn) | F_voting_procedures (v : list Z)
| F_proposal_procedures (v : list ProposalProcedure) | F_treasury_value (v : Coin) | F_donation (v : Coin)
| F_other.

(** The proposals are decoded from the bytes of their item. *)
Definition decode_proposals_item : PDec CodecError (list ProposalProcedure) := fun data off =>
  match raw_item data off with
  | (Err e, o) => (Err e, o)
  | (Ok bytes, o) => (decode_proposal_procedures bytes, o)
  end.

(** The arm of [match key]. *)
Definition decode_body_value (key : Z) : PDec CodecError BodyField :=
  match key with
  | 0 => dec! _ := skip_leading_tag in dec! v := decode_tx_inputs in pret (F_inputs v)
  | 1 => dec! v := decode_conway_outputs in pret (F_outputs v)
  | 2 => dec! v := read_u64v in pret (F_fee v)
  | 3 => dec! v := read_u64v in pret (F_ttl v)
  | 4 => dec! v := raw_item in pret (F_certs v)
  | 5 => dec! v := raw_item in pret (F_withdrawals v)
  | 7 => dec! v := BlockCodec.read_hash32 in pret (F_metadata_hash v)
  | 8 => dec! v := read_u64v in pret (F_validity_start v)
  | 9 => dec! v := raw_item in pret (F_mint v)
  | 11 => dec! v := BlockCodec.read_hash32 in pret (F_script_data_hash v)
  | 13 => dec! _ := skip_leading_tag in dec! v := decode_tx_inputs in pret (F_collateral_inputs v)
  | 14 => dec! _ := skip_leading_tag in dec! v := decode_required_signers in pret (F_required_signers v)
  | 15 => dec! v := read_u64v in pret (F_network_id (as_u8 v))
  | 16 => dec! v := decode_babbage_tx_out in pret (F_collateral_return v)
  | 17 => dec! v := read_u64v in pret (F_total_collateral v)
  | 18 => dec! _ := skip_leading_tag in dec! v := decode_tx_inputs in pret (F_reference_inputs v)
  | 19 => dec! v := raw_item in pret (F_voting_procedures v)
  | 20 => dec! v := decode_proposals_item in pret (F_proposal_procedures v)
  | 21 => dec! v := read_u64v in pret (F_treasury_value v)
  | 22 => dec! v := read_u64v in pret (F_donation v)
  | _ => dec! _ := skip_one in pret F_other
  end.

Definition decode_body_field : PDec CodecError BodyField :=
  dec! key := read_u64v in decode_body_value key.

(** The body, once its inputs, outputs and fee are known. *)
Definition body_of (inputs : BTreeSet TxIn) (outputs : list BabbageTxOut) (fee : Coin) (fields : list BodyField) : ConwayTxBody := {|
  inputs := inputs;
  outputs := outputs;
  fee := fee;
  ttl := assigned (fun f => match f with F_ttl v => Some v | _ => None end) fields;
  certs := assigned (fun f => match f with F_certs v => Some v | _ => None end) fields;
  withdrawals := assigned (fun f => match f with F_withdrawals v => Some v | _ => None end) fields;
  metadata_hash := assigned (fun f => match f with F_metadata_hash v => Some v | _ => None end) fields;
  validity_interval_start := assigned (fun f => match f with F_validity_start v => Some v | _ => None end) fields;
  mint := assigned (fun f => match f with F_mint v => Some v | _ => None end) fields;
  script_data_hash := assigned (fun f => match f with F_script_data_hash v => Some v | _ => None end) fields;
  collateral_inputs := assigned (fun f => match f with F_collateral_inputs v => Some v | _ => None end) fields;
  required_signers := assigned (fun f => match f with F_required_signers v => Some v | _ => None end) fields;
  network_id := assigned (fun f => match f with F_network_id v => Some v | _ => None end) fields;
  collateral_return := assigned (fun f => match f with F_collateral_return v => Some v | _ => None end) fields;
  total_collateral := assigned (fun f => match f with F_total_collateral v => Some v | _ => None end) fields;
  reference_inputs := assigned (fun f => match f with F_reference_inputs v => Some v | _ => None end) fields;
  voting_procedures := assigned (fun f => match f with F_voting_procedures v => Some v | _ => None end) fields;
  proposal_procedures := assigned (fun f => match f with F_proposal_procedures v => Some v | _ => None end) fields;
  treasury_value := assigned (fun f => match f with F_treasury_value v => Some v | _ => None end) fields;
  donation := assigned (fun f => match f with F_donation v => Some v | _ => None end) fields;
|}.

(** [option.ok_or(InvalidCborStructure { offset: *offset, detail })?] *)
Definition present {A} (o : option A) (detail : string) : PDec CodecError A :=
  match o with Some a => pret a | None => bad_structure detail end.

Definition decode_conway_tx_body : PDec CodecError ConwayTxBody :=
  dec! n := definite read_map_header "Conway tx body must be definite-length map" in
  dec! fields := pcollect (Z.to_nat n) decode_body_field in
  dec! inputs := present (assigned (fun f => match f with F_inputs v => Some v | _ => None end) fields)
                   "Conway tx body missing inputs (key 0)" in
  dec! outputs := present (assigned (fun f => match f with F_outputs v => Some v | _ => None end) fields)
                    "Conway tx body missing outputs (key 1)" in
  dec! fee := present (assigned (fun f => match f with F_fee v => Some v | _ => None end) fields)
                "Conway tx body missing fee (key 2)" in
  pret (body_of inputs outputs fee fields).

(** * Encoding *)

Definition encode_tx_in (buf : list Z) (input : TxIn) : list Z :=
  write_uint_canonical (write_bytes_canonical (small_array buf 2) (tx_hash input)) (tx_index input).
Definition encode_tx_inputs (buf : list Z) (inputs : BTreeSet TxIn) : list Z :=
  fold_left encode_tx_in (elements inputs) (array_canonical buf (blen inputs)).

Definition some_count {A} (o : option A) : Z := match o with Some _ => 1 | None => 0 end.

(** [if let Some(v) = o { write_uint_canonical(buf, key); write(buf, v); }] *)
Definition put {A} (key : Z) (write : list Z -> A -> list Z) (o : option A) (buf : list Z) : list Z :=
  match o with Some v => write (write_uint_canonical buf key) v | None => buf end.
Definition append (buf bytes : list Z) : list Z := buf ++ bytes.

Definition encode_out_value (buf : list Z) (o : BabbageTxOut) : list Z :=
  match out_multi_asset o with
  | Some ma => write_uint_canonical (small_array buf 2) (out_lovelace o) ++ ma
  | None => write_uint_canonical buf (out_lovelace o)
  end.

Definition encode_babbage_tx_out_map (buf : list Z) (o : BabbageTxOut) : list Z :=
  let count := 2 + some_count (out_datum_option o) + some_count (out_script_ref o) in
  let buf := write_map_header buf (Definite count Inline) in
  let buf := write_bytes_canonical (write_uint_canonical buf 0) (out_address o) in
  let buf := encode_out_value (write_uint_canonical buf 1) o in
  put 3 append (out_script_ref o) (put 2 append (out_datum_option o) buf).

Definition encode_required_signers (buf : list Z) (signers : BTreeSet Hash28) : list Z :=
  fold_left write_bytes_canonical (elements signers) (array_canonical buf (blen signers)).

Definition encode_conway_tx_body (buf : list Z) (b : ConwayTxBody) : list Z :=
  let count := 3 + some_count (ttl b) + some_count (certs b) + some_count (withdrawals b) + some_count (metadata_hash b)
    + some_count (validity_interval_start b) + some_count (mint b) + some_count (script_data_hash b)
    + some_count (collateral_inputs b) + some_count (required_signers b) + some_count (network_id b)
    + some_count (collateral_return b) + some_count (total_collateral b) + some_count (reference_inputs b)
    + some_count (voting_procedures b) + some_count (proposal_procedures b) + some_count (treasury_value b)
    + some_count (donation b) in
  let buf := map_canonical buf count in
  let buf := encode_tx_inputs (write_uint_canonical buf 0) (inputs b) in
  let buf := array_canonical (write_uint_canonical buf 1) (blen (outputs b)) in
  let buf := fold_left encode_babbage_tx_out_map (outputs b) buf in
  let buf := write_uint_canonical (write_uint_canonical buf 2) (fee b) in
  let buf := put 3 write_uint_canonical (ttl b) buf in
  let buf := put 4 append (certs b) buf in
  let buf := put 5 append (withdrawals b) buf in
  let buf := put 7 write_bytes_canonical (metadata_hash b) buf in
  let buf := put 8 write_uint_canonical (validity_interval_start b) buf in
  let buf := put 9 append (mint b) buf in
  let buf := put 11 write_bytes_canonical (script_data_hash b) buf in
  let buf := put 13 encode_tx_inputs (collateral_inputs b) buf in
  let buf := put 14 encode_required_signers (required_signers b) buf in
  let buf := put 15 write_uint_canonical (network_id b) buf in
  let buf := put 16 encode_babbage_tx_out_map (collateral_return b) buf in
  let buf := put 17 write_uint_canonical (total_collateral b) buf in
  let buf := put 18 encode_tx_inputs (reference_inputs b) buf in
  let buf := put 19 append (voting_procedures b) buf in
  let buf := put 20 (fun buf procs => buf ++ encode_proposal_procedures procs) (proposal_procedures b) buf in
  let buf := put 21 write_uint_canonical (treasury_value b) buf in
  put 22 write_uint_canonical (donation b) buf.

(** * What fits *)

Definition set_fits {K} `{TotalOrder K} (P : K -> Prop) (s : BTreeSet K) : Prop :=
  ordered s /\ is_u64 (blen s) /\ Forall P (elements s).
Definition tx_in_fits (i : TxIn) : Prop := hash_ok (tx_hash i) /\ is_u16 (tx_index i).
Definition maybe {A} (P : A -> Prop) (o : option A) : Prop := match o with Some a => P a | None => True end.

Definition out_fits (o : BabbageTxOut) : Prop :=
  bytes_fit (out_address o) /\ is_u64 (out_lovelace o) /\ maybe one_item (out_multi_asset o) /\
  maybe one_item (out_datum_option o) /\ maybe one_item (out_script_ref o).

Definition proposals_fit (l : list ProposalProcedure) : Prop :=
  l <> [] /\ is_u64 (blen l) /\ Forall proposal_fits l /\ blen (encode_proposal_procedures l) <= u64_max.

Definition body_fits (b : ConwayTxBody) : Prop :=
  (set_fits tx_in_fits (inputs b) /\ is_u64 (blen (outputs b)) /\ Forall out_fits (outputs b) /\ is_u64 (fee b)) /\
  (maybe is_u64 (ttl b) /\ maybe one_item (certs b) /\ maybe one_item (withdrawals b) /\ maybe hash_ok (metadata_hash b)) /\
  (maybe is_u64 (validity_interval_start b) /\ maybe one_item (mint b) /\ maybe hash_ok (script_data_hash b)) /\
  (maybe (set_fits tx_in_fits) (collateral_inputs b) /\ maybe (set_fits hash28_fits) (required_signers b) /\
   maybe is_u8 (network_id b) /\ maybe out_fits (collateral_return b)) /\
  (maybe is_u64 (total_collateral b) /\ maybe (set_fits tx_in_fits) (reference_inputs b) /\
   maybe one_item (voting_procedures b) /\ maybe proposals_fit (proposal_procedures b)) /\
  (maybe is_u64 (treasury_value b) /\ maybe is_u64 (donation b)).

(** * Sets *)

(** A set of items is an array of them. *)
Lemma coded_elements {K} `{TotalOrder K} `{EqDecision K} (enc : list Z -> K -> list Z) (dec : PDec CodecError K) s :
  ordered s -> is_u64 (blen s) -> Forall (coded 1 enc dec) (elements s) ->
  exists bytes, (forall buf, fold_left enc (elements s) (array_canonical buf (blen s)) = buf ++ argument_bytes MAJOR_ARRAY (blen s) ++ bytes) /\
    reads (dec! l := read_elements dec in pret (set_of l)) (argument_bytes MAJOR_ARRAY (blen s) ++ bytes) s /\
    spells 1 (argument_bytes MAJOR_ARRAY (blen s) ++ bytes).
Proof.
  intros Ho Hn Hs. destruct (coded_all 1 enc dec _ Hs) as (bytes & W & R & S).
  assert (blen (elements s) = blen s) as E by apply blen_map. rewrite E, ?Z.mul_1_r in *.
  exists bytes. split_and!.
  - intros buf. by rewrite W, array_canonical_app, <- app_assoc by done.
  - unfold read_elements. eapply reads_pend.
    + eapply reads_pbind; [by apply reads_header_array|]. cbn beta iota. exact R.
    + rewrite set_of_elements by done. apply reads_pret.
  - by apply spells_array.
Qed.

Lemma coded_tx_in i : tx_in_fits i -> coded 1 encode_tx_in decode_tx_in i.
Proof.
  destruct i as [h n]. intros [Hh Hn]. cbn [tx_hash tx_index fst snd] in *.
  assert (is_u64 n) by (width; lia).
  exists (argument_bytes MAJOR_ARRAY 2 ++ string_bytes h ++ uint_bytes n). split_and!.
  - intros buf. unfold encode_tx_in. cbn [tx_hash tx_index fst snd].
    rewrite write_uint_app, write_bytes_app, small_array_app by (first [lia|eauto with wire]). by rewrite <- !app_assoc.
  - unfold decode_tx_in. decoding. rewrite as_u16_id by done. apply reads_pret.
  - apply spells_array; [small|]. spelling.
Qed.

Lemma coded_key_hash h : hash28_fits h -> coded 1 write_bytes_canonical read_key_hash h.
Proof.
  intros Hh. exists (string_bytes h). split_and!; [intros buf; apply write_bytes_app; eauto with wire| |eauto with wire].
  unfold read_key_hash. eapply reads_pend; [eauto with wire|]. destruct Hh as [_ ->]. apply reads_pret.
Qed.

(** * The fields of a body *)

Lemma pcollect_add {A} (m : PDec CodecError A) k n : forall data off l o, pcollect n m data off = (Ok l, o) ->
  pcollect (n + k) m data off =
    match pcollect k m data o with (Ok l', o') => (Ok (l ++ l'), o') | (Err e, o') => (Err e, o') end.
Proof.
  induction n as [|n IH]; intros data off l o; cbn [pcollect Nat.add].
  - intros [= <- <-]. by destruct (pcollect k m data off) as [[]].
  - unfold pbind. destruct (m data off) as [[x|] o1]; [|done]. destruct (pcollect n m data o1) as [[xs|] o2] eqn:E; [|done].
    intros [= <- <-]. rewrite (IH _ _ _ _ E). by destruct (pcollect k m data o2) as [[]].
Qed.

Lemma reads_pcollect_app {A} (m : PDec CodecError A) b1 b2 l1 l2 :
  reads (pcollect (length l1) m) b1 l1 -> reads (pcollect (length l2) m) b2 l2 ->
  reads (pcollect (length (l1 ++ l2)) m) (b1 ++ b2) (l1 ++ l2).
Proof.
  intros R1 R2 pre post Hok Hl. rewrite length_app, <- app_assoc in *. rewrite (pcollect_add _ _ _ _ _ _ _ (R1 _ _ Hok Hl)).
  rewrite blen_app, Z.add_assoc, <- blen_app. rewrite app_assoc in *. by rewrite (R2 _ _ Hok Hl).
Qed.

Section Segments.
Context {F : Type} (dec : PDec CodecError F).

(** [w] appends these fields, a key and a value each. *)
Definition segment (w : list Z -> list Z) (fields : list F) : Prop :=
  exists bytes, (forall buf, w buf = buf ++ bytes) /\ reads (pcollect (length fields) dec) bytes fields /\
    spells (blen fields * 2) bytes.

Lemma segment_app w1 w2 f1 f2 : segment w1 f1 -> segment w2 f2 -> segment (fun buf => w2 (w1 buf)) (f1 ++ f2).
Proof.
  intros (b1 & W1 & R1 & S1) (b2 & W2 & R2 & S2). exists (b1 ++ b2). split_and!.
  - intros buf. by rewrite W2, W1, <- app_assoc.
  - by apply reads_pcollect_app.
  - rewrite blen_app, Z.mul_add_distr_r. by apply spells_app.
Qed.

Definition opt_fields {A} (f : A -> F) (o : option A) : list F := match o with Some v => [f v] | None => [] end.

Lemma segment_one {A} key (write : list Z -> A -> list Z) f v bytes :
  is_u64 key -> (forall buf, write buf v = buf ++ bytes) -> reads dec (uint_bytes key ++ bytes) f -> spells 1 bytes ->
  segment (fun buf => write (write_uint_canonical buf key) v) [f].
Proof.
  intros Hk W R S. exists (uint_bytes key ++ bytes). split_and!.
  - intros buf. by rewrite W, write_uint_app, <- app_assoc by done.
  - cbn [length pcollect]. eapply reads_pend; [exact R|]. eapply reads_pnil; [apply reads_pret|apply reads_pret].
  - apply (spells_more 1); [by apply spells_u|done].
Qed.

Lemma segment_opt {A} key (write : list Z -> A -> list Z) (f : A -> F) (P : A -> Prop) o : maybe P o ->
  (forall v, P v -> segment (fun buf => write (write_uint_canonical buf key) v) [f v]) -> segment (put key write o) (opt_fields f o).
Proof.
  intros Ho HP. destruct o as [v|]; [by apply HP|].
  exists []. split_and!; [intros buf; by rewrite app_nil_r|apply reads_pret|apply spells_nil].
Qed.

Lemma count_fields {A} (f : A -> F) o l : blen (opt_fields f o ++ l) = some_count o + blen l.
Proof. by destruct o; rewrite blen_app. Qed.

Lemma assigned_skip {B} (sel : F -> option B) f l : sel f = None -> assigned sel (f :: l) = assigned sel l.
Proof. intros Hf. unfold assigned. cbn. by rewrite Hf. Qed.
Lemma assigned_miss {A B} (sel : F -> option B) (f : A -> F) o l : (forall v, sel (f v) = None) ->
  assigned sel (opt_fields f o ++ l) = assigned sel l.
Proof. intros Hf. destruct o as [v|]; [|done]. by apply assigned_skip. Qed.
Lemma assigned_hit {A} (sel : F -> option A) (f : A -> F) o l : (forall v, sel (f v) = Some v) -> omap sel l = [] ->
  assigned sel (opt_fields f o ++ l) = o.
Proof. intros Hf Hl. unfold assigned. destruct o as [v|]; cbn; [by rewrite Hf, Hl|by rewrite Hl]. Qed.
Lemma selects_none {A B} (sel : F -> option B) (f : A -> F) o l : (forall v, sel (f v) = None) -> omap sel l = [] ->
  omap sel (opt_fields f o ++ l) = [].
Proof. intros Hf Hl. destruct o as [v|]; cbn; [by rewrite Hf|done]. Qed.
Lemma selects_skip {B} (sel : F -> option B) f l : sel f = None -> omap sel l = [] -> omap sel (f :: l) = [].
Proof. intros Hf Hl. cbn. by rewrite Hf. Qed.
Lemma assigned_first {B} (sel : F -> option B) f v l : sel f = Some v -> omap sel l = [] -> assigned sel (f :: l) = Some v.
Proof. intros Hf Hl. unfold assigned. cbn. by rewrite Hf, Hl. Qed.
End Segments.

(** [assigning] finds the value a variable was last given. *)
Ltac assigning := repeat first [rewrite assigned_skip by done | rewrite assigned_miss by done];
  apply assigned_hit; [done|]; repeat (apply selects_none; [done|]); done.

(** The reader of a field, once its key is read. *)
Ltac field_read := unfold decode_body_field, decode_out_field; eapply reads_pbind; [apply reads_u64v; small|]; cbn beta iota; cbn beta iota delta [decode_body_value].
Ltac plain_field := field_read; eapply reads_pend; [solve [eauto with wire]|apply reads_pret].

(** * Outputs *)

Lemma reads_peek_k {B} (k : Z -> PDec CodecError B) major v rest b : 0 <= major < 8 -> is_u64 v ->
  reads (k major) (argument_bytes major v ++ rest) b -> reads (pbind peek_type k) (argument_bytes major v ++ rest) b.
Proof.
  intros Hm Hv Hk pre post Hok Hl. specialize (Hk pre post Hok Hl). rewrite <- app_assoc in Hk |- *.
  unfold pbind, peek_type. by rewrite peek_head by done.
Qed.

Lemma value_writes o : out_fits o -> exists bytes, (forall buf, encode_out_value buf o = buf ++ bytes) /\ spells 1 bytes /\
  reads decode_out_value bytes (out_lovelace o, out_multi_asset o).
Proof.
  intros (_ & Hc & Hm & _). unfold encode_out_value, decode_out_value. destruct (out_multi_asset o) as [ma|]; cbn [maybe] in Hm.
  - exists (argument_bytes MAJOR_ARRAY 2 ++ uint_bytes (out_lovelace o) ++ ma). split_and!.
    + intros buf. by rewrite action_writes by (done || lia).
    + apply spells_array; [small|]. spelling.
    + apply reads_here_k. intros off. apply reads_peek_k; [by unfold MAJOR_ARRAY|small|].
      cbn [Z.eqb Pos.eqb MAJOR_ARRAY MAJOR_UNSIGNED]. eapply reads_pbind; [by apply reads_small_array; small|].
      eapply reads_pbind; [by apply reads_u64v|]. eapply reads_pend; [by apply reads_item|apply reads_pret].
  - exists (uint_bytes (out_lovelace o)). split_and!; [intros buf; by apply write_uint_app|by apply spells_u|].
    apply reads_here_k. intros off. unfold uint_bytes. rewrite <- (app_nil_r (argument_bytes _ _)).
    apply reads_peek_k; [by unfold MAJOR_UNSIGNED|done|]. rewrite app_nil_r.
    cbn [Z.eqb MAJOR_UNSIGNED]. eapply reads_pend; [by apply reads_u64v|apply reads_pret].
Qed.

Lemma raw_segment key F (f : list Z -> F) (dec : PDec CodecError F) v : is_u64 key ->
  (forall bytes, one_item bytes -> reads dec (uint_bytes key ++ bytes) (f bytes)) -> one_item v ->
  segment dec (fun buf => append (write_uint_canonical buf key) v) [f v].
Proof. intros Hk Hr Hv. apply (segment_one _ _ _ _ _ v); [done|by intros buf|by apply Hr|by apply spells_one_item]. Qed.

Definition out_fields (o : BabbageTxOut) : list OutField :=
  [Out_address (out_address o)] ++ [Out_value (out_lovelace o) (out_multi_asset o)] ++
  opt_fields Out_datum (out_datum_option o) ++ opt_fields Out_script (out_script_ref o) ++ [].

Lemma out_segment o : out_fits o -> segment decode_out_field
  (fun buf => put 3 append (out_script_ref o) (put 2 append (out_datum_option o)
     (encode_out_value (write_uint_canonical (write_bytes_canonical (write_uint_canonical buf 0) (out_address o)) 1) o)))
  (out_fields o).
Proof.
  intros Ho. destruct (value_writes o Ho) as (bv & Wv & Sv & Rv). destruct Ho as ([Hb Hl] & Hc & Hm & Hd & Hs).
  unfold out_fields. rewrite app_nil_r, !app_assoc.
  apply (segment_app _ _ (put 3 append (out_script_ref o))); [|apply (segment_opt _ _ _ _ one_item); [done|]].
  apply (segment_app _ _ (put 2 append (out_datum_option o))); [|apply (segment_opt _ _ _ _ one_item); [done|]].
  apply (segment_app _ _ (fun buf => encode_out_value (write_uint_canonical buf 1) o)).
  - apply (segment_one _ _ _ _ _ (string_bytes (out_address o))); [small|intros buf; by apply write_bytes_app| |by apply spells_bytes].
    plain_field.
  - apply (segment_one _ _ encode_out_value _ _ bv); [small|done| |done]. field_read. eapply reads_pend; [exact Rv|apply reads_pret].
  - intros v Hv. apply raw_segment; [small| |done]. intros bytes Hi. plain_field.
  - intros v Hv. apply raw_segment; [small| |done]. intros bytes Hi. plain_field.
Qed.

Lemma coded_out o : out_fits o -> coded 1 encode_babbage_tx_out_map decode_babbage_tx_out o.
Proof.
  intros Ho. destruct (out_segment o Ho) as (bytes & W & R & S).
  assert (blen (out_fields o) = 2 + some_count (out_datum_option o) + some_count (out_script_ref o)) as Hn.
  { unfold out_fields. cbn [app]. rewrite !blen_cons, !count_fields. change (blen []) with 0. lia. }
  assert (0 <= blen (out_fields o) <= 23) as Hr by (rewrite Hn; destruct (out_datum_option o), (out_script_ref o); cbn; lia).
  assert (is_u64 (blen (out_fields o))) as Hu by (width; lia).
  exists (argument_bytes MAJOR_MAP (blen (out_fields o)) ++ bytes). split_and!.
  - intros buf. unfold encode_babbage_tx_out_map. rewrite W, <- Hn.
    assert (canonical_width (blen (out_fields o)) = Inline) as E by (unfold canonical_width; bcase; [done|lia]).
    rewrite <- E. pose proof (write_map_app buf (blen (out_fields o)) Hu) as Wm. unfold map_canonical in Wm.
    by rewrite Wm, <- app_assoc.
  - unfold decode_babbage_tx_out. apply reads_here_k. intros off. apply reads_peek_k; [by unfold MAJOR_MAP|done|].
    cbn [Z.eqb Pos.eqb MAJOR_MAP]. unfold decode_babbage_tx_out_map. eapply reads_pbind; [by apply reads_definite_map|].
    eapply reads_pend; [unfold blen; rewrite Nat2Z.id; exact R|].
    assert (assigned (fun f => match f with Out_address a => Some a | _ => None end) (out_fields o) = Some (out_address o)) as ->
      by (unfold out_fields; by destruct (out_datum_option o), (out_script_ref o)).
    destruct o as [a c [ma|] [d|] [s|]]; apply reads_pret.
  - apply spells_map; [done|]. by replace (blen (out_fields o) + blen (out_fields o)) with (blen (out_fields o) * 2) by lia.
Qed.

(** * The body *)

Lemma reads_inputs_at s : set_fits tx_in_fits s -> exists bytes, (forall buf, encode_tx_inputs buf s = buf ++ bytes) /\
  reads (dec! _ := skip_leading_tag in decode_tx_inputs) bytes s /\ spells 1 bytes.
Proof.
  intros (Ho & Hn & Hs). destruct (coded_elements encode_tx_in decode_tx_in s Ho Hn) as (bytes & W & R & S).
  { eapply Forall_impl; [exact Hs|apply coded_tx_in]. }
  eexists. split_and!; [exact W| |exact S]. apply reads_no_tag; [by right|by unfold MAJOR_ARRAY|done|exact R].
Qed.

Lemma reads_signers_at s : set_fits hash28_fits s -> exists bytes, (forall buf, encode_required_signers buf s = buf ++ bytes) /\
  reads (dec! _ := skip_leading_tag in decode_required_signers) bytes s /\ spells 1 bytes.
Proof.
  intros (Ho & Hn & Hs). destruct (coded_elements write_bytes_canonical read_key_hash s Ho Hn) as (bytes & W & R & S).
  { eapply Forall_impl; [exact Hs|apply coded_key_hash]. }
  eexists. split_and!; [exact W| |exact S]. apply reads_no_tag; [by right|by unfold MAJOR_ARRAY|done|].
  unfold decode_required_signers. apply reads_no_tag; [by right|by unfold MAJOR_ARRAY|done|exact R].
Qed.

(** The tag is skipped inside the arm that reads a set. *)
Lemma reads_assoc {A B C} (m : PDec CodecError A) (k : A -> PDec CodecError B) (k' : B -> PDec CodecError C) bytes c :
  reads (dec! b := (dec! a := m in k a) in k' b) bytes c -> reads (dec! a := m in dec! b := k a in k' b) bytes c.
Proof.
  intros Hr pre post Hok Hl. rewrite <- (Hr pre post Hok Hl). unfold pbind. by destruct (m _ _) as [[]].
Qed.

Lemma inputs_segment key (f : BTreeSet TxIn -> BodyField) s : is_u64 key ->
  (forall bytes, reads (dec! _ := skip_leading_tag in decode_tx_inputs) bytes s -> reads decode_body_field (uint_bytes key ++ bytes) (f s)) ->
  set_fits tx_in_fits s -> segment decode_body_field (fun buf => encode_tx_inputs (write_uint_canonical buf key) s) [f s].
Proof. intros Hk Hf Hs. destruct (reads_inputs_at s Hs) as (bytes & W & R & S). by apply (segment_one _ _ _ _ _ bytes); auto. Qed.

Ltac set_field := let H := fresh in intros bytes H; field_read; apply reads_assoc;
  eapply reads_pend; [exact H|apply reads_pret].

Lemma uint_segment key (f : Z -> BodyField) v : is_u64 key -> is_u64 v ->
  reads decode_body_field (uint_bytes key ++ uint_bytes v) (f v) ->
  segment decode_body_field (fun buf => write_uint_canonical (write_uint_canonical buf key) v) [f v].
Proof. intros Hk Hv Hr. apply (segment_one _ _ _ _ _ (uint_bytes v)); [done|intros buf; by apply write_uint_app|done|by apply spells_u]. Qed.

Lemma hash_segment key (f : Hash32 -> BodyField) h : is_u64 key -> hash_ok h ->
  reads decode_body_field (uint_bytes key ++ string_bytes h) (f h) ->
  segment decode_body_field (fun buf => write_bytes_canonical (write_uint_canonical buf key) h) [f h].
Proof.
  intros Hk Hh Hr. apply (segment_one _ _ _ _ _ (string_bytes h)); [done|intros buf; apply write_bytes_app; eauto with wire|done|eauto with wire].
Qed.

Lemma outputs_segment l : is_u64 (blen l) -> Forall out_fits l -> segment decode_body_field
  (fun buf => fold_left encode_babbage_tx_out_map l (array_canonical (write_uint_canonical buf 1) (blen l))) [F_outputs l].
Proof.
  intros Hn Hl. destruct (coded_all 1 encode_babbage_tx_out_map decode_babbage_tx_out l) as (bytes & W & R & S).
  { eapply Forall_impl; [exact Hl|apply coded_out]. }
  apply (segment_one _ _ (fun buf l => fold_left encode_babbage_tx_out_map l (array_canonical buf (blen l))) _ _
    (argument_bytes MAJOR_ARRAY (blen l) ++ bytes)); [small| | |].
  - intros buf. by rewrite W, array_canonical_app, <- app_assoc by done.
  - field_read. eapply reads_pend; [|apply reads_pret]. unfold decode_conway_outputs, read_elements.
    eapply reads_pbind; [by apply reads_header_array|]. exact R.
  - apply spells_array; [done|]. by rewrite Z.mul_1_r in S.
Qed.

Lemma network_segment v : is_u8 v ->
  segment decode_body_field (fun buf => write_uint_canonical (write_uint_canonical buf 15) v) [F_network_id v].
Proof.
  intros Hv. assert (is_u64 v) by (width; lia). apply uint_segment; [small|done|].
  field_read. eapply reads_pend; [by apply reads_u64v|]. rewrite as_u8_id by done. apply reads_pret.
Qed.

Lemma proposals_segment l : proposals_fit l -> segment decode_body_field
  (fun buf => write_uint_canonical buf 20 ++ encode_proposal_procedures l) [F_proposal_procedures l].
Proof.
  intros (Hne & Hn & Hl & Hb). destruct (coded_proposals l Hne Hn Hl) as (bytes & E & _ & S).
  apply (segment_one _ _ (fun buf l => buf ++ encode_proposal_procedures l) _ _ bytes); [small|intros buf; by rewrite E| |done].
  rewrite E in Hb. pose proof (one_item_spelled _ S Hb) as Hi. field_read. eapply reads_pend; [|apply reads_pret].
  intros pre post Hok Hlen. unfold decode_proposals_item. rewrite (reads_item _ Hi pre post Hok Hlen).
  rewrite <- E. by rewrite proposals_roundtrip by (done || by rewrite E).
Qed.

(** The fields in the order they are written. *)
Definition body_fields (b : ConwayTxBody) : list BodyField :=
  [F_inputs (inputs b)] ++ [F_outputs (outputs b)] ++ [F_fee (fee b)] ++
  opt_fields F_ttl (ttl b) ++ opt_fields F_certs (certs b) ++ opt_fields F_withdrawals (withdrawals b) ++
  opt_fields F_metadata_hash (metadata_hash b) ++ opt_fields F_validity_start (validity_interval_start b) ++
  opt_fields F_mint (mint b) ++ opt_fields F_script_data_hash (script_data_hash b) ++
  opt_fields F_collateral_inputs (collateral_inputs b) ++ opt_fields F_required_signers (required_signers b) ++
  opt_fields F_network_id (network_id b) ++ opt_fields F_collateral_return (collateral_return b) ++
  opt_fields F_total_collateral (total_collateral b) ++ opt_fields F_reference_inputs (reference_inputs b) ++
  opt_fields F_voting_procedures (voting_procedures b) ++ opt_fields F_proposal_procedures (proposal_procedures b) ++
  opt_fields F_treasury_value (treasury_value b) ++ opt_fields F_donation (donation b) ++ [].

Lemma body_of_fields b : body_of (inputs b) (outputs b) (fee b) (body_fields b) = b.
Proof.
  transitivity (mk_ConwayTxBody (inputs b) (outputs b) (fee b) (ttl b) (certs b) (withdrawals b) (metadata_hash b)
    (validity_interval_start b) (mint b) (script_data_hash b) (collateral_inputs b) (required_signers b) (network_id b)
    (collateral_return b) (total_collateral b) (reference_inputs b) (voting_procedures b) (proposal_procedures b)
    (treasury_value b) (donation b)); [|by destruct b].
  unfold body_of, body_fields. cbn [app]. f_equal; assigning.
Qed.

Definition body_writes (b : ConwayTxBody) (buf : list Z) : list Z :=
  put 22 write_uint_canonical (donation b) (put 21 write_uint_canonical (treasury_value b)
  (put 20 (fun buf procs => buf ++ encode_proposal_procedures procs) (proposal_procedures b)
  (put 19 append (voting_procedures b) (put 18 encode_tx_inputs (reference_inputs b)
  (put 17 write_uint_canonical (total_collateral b) (put 16 encode_babbage_tx_out_map (collateral_return b)
  (put 15 write_uint_canonical (network_id b) (put 14 encode_required_signers (required_signers b)
  (put 13 encode_tx_inputs (collateral_inputs b) (put 11 write_bytes_canonical (script_data_hash b)
  (put 9 append (mint b) (put 8 write_uint_canonical (validity_interval_start b)
  (put 7 write_bytes_canonical (metadata_hash b) (put 5 append (withdrawals b) (put 4 append (certs b)
  (put 3 write_uint_canonical (ttl b)
  (write_uint_canonical (write_uint_canonical
  (fold_left encode_babbage_tx_out_map (outputs b) (array_canonical (write_uint_canonical
  (encode_tx_inputs (write_uint_canonical buf 0) (inputs b)) 1) (blen (outputs b)))) 2) (fee b)))))))))))))))))).

Ltac next_field P := eapply (segment_app decode_body_field); [|apply (segment_opt decode_body_field _ _ _ P); [assumption|intros v Hv]].

Ltac body_field := first
  [ apply raw_segment; [small| |done]; let H := fresh in intros ? H; plain_field
  | apply uint_segment; [small|done|]; plain_field
  | apply hash_segment; [small|done|]; plain_field
  | apply inputs_segment; [small|set_field|done] ].

Lemma body_segment b : body_fits b -> segment decode_body_field (body_writes b) (body_fields b).
Proof.
  intros ((Hi & Hon & Ho & Hf) & (Htl & Hce & Hw & Hmd) & (Hvs & Hmi & Hsd) & (Hco & Hrs & Hni & Hcr) & (Htc & Hri & Hvp & Hpp) & (Htv & Hdo)).
  unfold body_fields, body_writes. rewrite app_nil_r, !app_assoc.
  do 2 (next_field is_u64; [|body_field]).
  next_field proposals_fit; [|by apply proposals_segment].
  next_field one_item; [|body_field]. next_field (set_fits tx_in_fits); [|body_field].
  next_field is_u64; [|body_field].
  next_field out_fits; [|destruct (coded_out v Hv) as (bytes & W & R & S); apply (segment_one _ _ _ _ _ bytes); [small|done| |done];
    field_read; eapply reads_pend; [exact R|apply reads_pret]].
  next_field is_u8; [|by apply network_segment].
  next_field (set_fits hash28_fits); [|destruct (reads_signers_at v Hv) as (bytes & W & R & S);
    apply (segment_one _ _ _ _ _ bytes); [small|done| |done]; field_read; apply reads_assoc; eapply reads_pend; [exact R|apply reads_pret]].
  next_field (set_fits tx_in_fits); [|body_field]. next_field hash_ok; [|body_field]. next_field one_item; [|body_field].
  next_field is_u64; [|body_field]. next_field hash_ok; [|body_field]. do 2 (next_field one_item; [|body_field]).
  next_field is_u64; [|body_field].
  apply (segment_app _ _ (fun buf => write_uint_canonical (write_uint_canonical buf 2) (fee b))); [|body_field].
  apply (segment_app _ _ (fun buf => fold_left encode_babbage_tx_out_map (outputs b) (array_canonical (write_uint_canonical buf 1) (blen (outputs b)))));
    [body_field|by apply outputs_segment].
Qed.

Definition field_count (b : ConwayTxBody) : Z := 3 + some_count (ttl b) + some_count (certs b) + some_count (withdrawals b)
    + some_count (metadata_hash b) + some_count (validity_interval_start b) + some_count (mint b)
    + some_count (script_data_hash b) + some_count (collateral_inputs b) + some_count (required_signers b)
    + some_count (network_id b) + some_count (collateral_return b) + some_count (total_collateral b)
    + some_count (reference_inputs b) + some_count (voting_procedures b) + some_count (proposal_procedures b)
    + some_count (treasury_value b) + some_count (donation b).

Lemma body_count b : blen (body_fields b) = field_count b.
Proof. unfold body_fields, field_count. cbn [app]. rewrite !blen_cons, !count_fields. change (blen []) with 0. lia. Qed.

Lemma body_encoding buf b : encode_conway_tx_body buf b = body_writes b (map_canonical buf (field_count b)).
Proof. unfold encode_conway_tx_body, body_writes, field_count. cbv zeta. reflexivity. Qed.

Lemma some_count_bound {A} (o : option A) : 0 <= some_count o <= 1.
Proof. destruct o; cbn; lia. Qed.

Lemma field_count_u64 b : is_u64 (field_count b).
Proof.
  unfold field_count. repeat match goal with |- context [some_count ?o] =>
    pose proof (some_count_bound o); generalize dependent (some_count o); intros end. width. lia.
Qed.

(** The required fields come first, and once. *)
Ltac first_field := unfold body_fields; cbn [app]; repeat rewrite assigned_skip by done;
  apply assigned_first; [done|];
  repeat match goal with
  | |- omap _ (_ :: _) = [] => apply selects_skip; [done|]
  | |- omap _ (opt_fields _ _ ++ _) = [] => apply selects_none; [done|]
  end; done.

Lemma coded_body b : body_fits b -> coded 1 encode_conway_tx_body decode_conway_tx_body b.
Proof.
  intros Hb. destruct (body_segment b Hb) as (bytes & W & R & S). pose proof (field_count_u64 b) as Hu.
  exists (argument_bytes MAJOR_MAP (field_count b) ++ bytes). split_and!.
  - intros buf. rewrite body_encoding. by rewrite W, write_map_app, <- app_assoc by done.
  - unfold decode_conway_tx_body. eapply reads_pbind; [by apply reads_definite_map|].
    eapply reads_pend; [rewrite <- body_count; unfold blen; rewrite Nat2Z.id; exact R|].
    assert (assigned (fun f => match f with F_inputs v => Some v | _ => None end) (body_fields b) = Some (inputs b)) as -> by first_field.
    assert (assigned (fun f => match f with F_outputs v => Some v | _ => None end) (body_fields b) = Some (outputs b)) as -> by first_field.
    assert (assigned (fun f => match f with F_fee v => Some v | _ => None end) (body_fields b) = Some (fee b)) as -> by first_field.
    cbn [present]. do 3 (eapply reads_pnil; [apply reads_pret|]). rewrite body_of_fields. apply reads_pret.
  - apply spells_map; [done|]. rewrite <- body_count.
    by replace (blen (body_fields b) + blen (body_fields b)) with (blen (body_fields b) * 2) by lia.
Qed.

(** C36. Decoding inverts encoding for Conway transaction bodies, with every optional field, the
    governance proposals included, wherever the body stands; and a body is one CBOR item. *)
Theorem conway_body_roundtrip (b : ConwayTxBody) (Hb : body_fits b) (pre post : list Z)
    (Hok : bytes_ok (pre ++ encode_conway_tx_body [] b ++ post))
    (Hl : blen (pre ++ encode_conway_tx_body [] b ++ post) <= u64_max) :
  decode_conway_tx_body (pre ++ encode_conway_tx_body [] b ++ post) (blen pre) =
    (Ok b, blen pre + blen (encode_conway_tx_body [] b)) /\
  one_item (encode_conway_tx_body [] b).
Proof.
  destruct (coded_body b Hb) as (bytes & W & R & S). rewrite W in *. cbn [app] in *.
  split; [by apply R|]. apply one_item_spelled; [done|]. by apply (blen_mid pre _ post).
Qed.
