(* ===== verification/Witness.v ===== *)
(** The witness set of a Conway transaction: what [ade_ledger/src/witness.rs] reads from it, the
    verification-key witnesses of [ade_ledger/src/shelley.rs], and the signature checks of
    [ade_ledger/src/tx_validity/witness.rs].

    The checks are characterised: the required keys are covered exactly when every witness has the
    size of a key and a signature and every key is the hash of one whose signature verifies; and the
    supplied witnesses pass exactly when every one of them verifies. *)

From S2P Require Import Prelude Cbor NetCodec Spelling Decoder EraSchedule Leader Kes BTree BlockCodec BlockValidity NativeScript.
From S2P Require Import LedgerValue Utxo LedgerMaps ConwayCert.

(** * Readers with the ledger's errors *)

Definition ledger_dec {A} (m : PDec CodecError A) : PDec LedgerError A := fun data off =>
  match m data off with (Ok a, o) => (Ok a, o) | (Err e, o) => (Err (codec_ledger_error e), o) end.
Definition ledger_result {A} (r : result A LedgerError) : PDec LedgerError A := fun _ off => (r, off).
Definition position : PDec LedgerError Z := fun _ off => (Ok off, off).
Definition bytes_between (start stop : Z) : PDec LedgerError (list Z) := fun data off => (Ok (slice data start stop), off).

Definition array_header : PDec LedgerError ContainerEncoding := ledger_dec (plift id read_array_header).
Definition map_header : PDec LedgerError ContainerEncoding := ledger_dec (plift id read_map_header).
Definition uint : PDec LedgerError Z := ledger_dec read_u64v.
Definition bytes : PDec LedgerError (list Z) := ledger_dec read_bytesv.
Definition skip : PDec LedgerError (Z * Z) := ledger_dec skip_one.
Definition invalid_structure {A} : PDec LedgerError A := fun _ off =>
  (Err (Decoding (mk_DecodingError off InvalidStructure)), off).

(** The elements of a container whose head has been read, past its break byte. *)
Definition items_of {A} (enc : ContainerEncoding) (body : PDec LedgerError A) : PDec LedgerError (list A) :=
  match enc with
  | Definite n _ => pcollect (Z.to_nat n) body
  | Indefinite => dec! xs := nwhile (ledger_dec at_break) body in consume_break xs
  end.

(** An array that must announce [n] elements. *)
Definition array_exactly (n : Z) : PDec LedgerError unit :=
  dec! enc := array_header in
  match enc with Definite m _ => if m =? n then pret tt else invalid_structure | Indefinite => invalid_structure end.

(** * [witness.rs] *)

(** [if *offset < data.len() && data[*offset] >> 5 == 6 { read_tag(..)?; }] *)
Definition skip_optional_tag : PDec LedgerError unit := fun data off =>
  match byte_at data off with
  | Some b => if Z.land (Z.shiftr b 5) 7 =? 6 then (dec! _ := ledger_dec (plift id read_tag) in pret tt) data off else (Ok tt, off)
  | None => (Ok tt, off)
  end.

Definition i64_clamp (v : Z) : Z := if i64_max <? v then i64_max else v.
Definition sat_i64 (v : Z) : Z := Z.min v i64_max.

Record TotalExUnits : Type := mk_TotalExUnits { mem : Z; cpu : Z }.

Definition read_ex_units : PDec LedgerError TotalExUnits :=
  dec! _ := array_exactly 2 in
  dec! m := uint in
  dec! c := uint in
  pret (mk_TotalExUnits (i64_clamp m) (i64_clamp c)).

Definition redeemer_of_array : PDec LedgerError TotalExUnits :=
  dec! _ := array_exactly 4 in
  dec! _ := skip in
  dec! _ := skip in
  dec! _ := skip in
  read_ex_units.

Definition redeemer_of_map : PDec LedgerError TotalExUnits :=
  dec! _ := skip in
  dec! _ := array_exactly 2 in
  dec! _ := skip in
  read_ex_units.

Definition sum_ex_units (l : list TotalExUnits) : TotalExUnits :=
  fold_left (fun t u => mk_TotalExUnits (sat_i64 (mem t + mem u)) (sat_i64 (cpu t + cpu u))) l (mk_TotalExUnits 0 0).

Definition peek_byte_type : PDec LedgerError Z := fun data off =>
  match byte_at data off with
  | Some b => (Ok (Z.shiftr b 5), off)
  | None => invalid_structure data off
  end.

Definition sum_redeemer_ex_units : PDec LedgerError TotalExUnits :=
  dec! _ := skip_optional_tag in
  dec! major := peek_byte_type in
  match major with
  | 4 => dec! enc := array_header in dec! us := items_of enc redeemer_of_array in pret (sum_ex_units us)
  | 5 => dec! enc := map_header in dec! us := items_of enc redeemer_of_map in pret (sum_ex_units us)
  | _ => dec! _ := skip in pret (mk_TotalExUnits 0 0)
  end.

Record WitnessNativeScript : Type := mk_WitnessNativeScript { native_hash : Hash28; native_script : NativeScript }.
Record BootstrapWitnessRef : Type := mk_BootstrapWitnessRef {
  boot_vkey : list Z; boot_signature : list Z; boot_chain_code : list Z; boot_attributes : list Z }.

Record WitnessInfo : Type := mk_WitnessInfo {
  available_key_hashes : BTreeSet Hash28;
  native_scripts : list WitnessNativeScript;
  plutus_script_hashes : BTreeSet Hash28;
  bootstrap_key_hashes : BTreeSet Hash28;
  bootstrap_witnesses : list BootstrapWitnessRef;
  has_plutus_v1 : bool;
  has_plutus_v2 : bool;
  has_plutus_v3 : bool;
  total_ex_units : TotalExUnits;
}.
Definition empty_witness_info : WitnessInfo := mk_WitnessInfo [] [] [] [] [] false false false (mk_TotalExUnits 0 0).
Definition has_plutus (w : WitnessInfo) : bool := has_plutus_v1 w || has_plutus_v2 w || has_plutus_v3 w.

Definition NATIVE_SCRIPT_PREFIX : Z := 0.
Definition PLUTUS_V1_PREFIX : Z := 1.
Definition PLUTUS_V2_PREFIX : Z := 2.
Definition PLUTUS_V3_PREFIX : Z := 3.
Definition BOOTSTRAP_ROOT_PREFIX : list Z := [0x83; 0x00; 0x82; 0x00; 0x58; 0x40].

(** [ade_crypto::sha3_256] *)
Class Sha3 : Type := { sha3_256 : list Z -> list Z }.

Section Hashes.
Context {HB : Blake224} {HS : Sha3}.

Definition prefixed_script_hash (prefix : Z) (script : list Z) : Hash28 := blake2b_224 (prefix :: script).
Definition bootstrap_key_hash (vkey chain_code attributes : list Z) : Hash28 :=
  blake2b_224 (sha3_256 (BOOTSTRAP_ROOT_PREFIX ++ vkey ++ chain_code ++ attributes)).
Definition boot_key_hash (w : BootstrapWitnessRef) : Hash28 :=
  bootstrap_key_hash (boot_vkey w) (boot_chain_code w) (boot_attributes w).

Definition vkey_hash_item : PDec LedgerError Hash28 :=
  dec! _ := array_exactly 2 in
  dec! vkey := bytes in
  dec! _ := skip in
  pret (blake2b_224 vkey).
Definition decode_vkey_hashes : PDec LedgerError (list Hash28) :=
  dec! enc := array_header in items_of enc vkey_hash_item.

(** [decode_native_scripts_preserved]: a script and the bytes it was read from. *)
Definition native_script_item : PDec LedgerError WitnessNativeScript :=
  dec! start := position in
  dec! script := ledger_dec decode_native_script in
  dec! stop := position in
  dec! wire := bytes_between start stop in
  pret (mk_WitnessNativeScript (prefixed_script_hash NATIVE_SCRIPT_PREFIX wire) script).
Definition decode_native_scripts_preserved : PDec LedgerError (list WitnessNativeScript) :=
  dec! enc := array_header in items_of enc native_script_item.

Definition bootstrap_item : PDec LedgerError BootstrapWitnessRef :=
  dec! _ := array_exactly 4 in
  dec! vkey := bytes in
  dec! signature := bytes in
  dec! chain_code := bytes in
  dec! attributes := bytes in
  pret (mk_BootstrapWitnessRef vkey signature chain_code attributes).
Definition decode_bootstrap_witnesses : PDec LedgerError (list BootstrapWitnessRef) :=
  dec! enc := array_header in items_of enc bootstrap_item.

Definition hash_plutus_scripts (prefix : Z) : PDec LedgerError (list Hash28) :=
  dec! _ := skip_optional_tag in
  dec! enc := array_header in
  items_of enc (dec! script := bytes in pret (prefixed_script_hash prefix script)).

(** What an entry does to the record: [with_*] are the assignments to its fields. *)
Definition with_key_hashes (hashes : list Hash28) (i : WitnessInfo) : WitnessInfo :=
  mk_WitnessInfo (set_of hashes) (native_scripts i) (plutus_script_hashes i) (bootstrap_key_hashes i) (bootstrap_witnesses i)
    (has_plutus_v1 i) (has_plutus_v2 i) (has_plutus_v3 i) (total_ex_units i).
Definition with_native_scripts (scripts : list WitnessNativeScript) (i : WitnessInfo) : WitnessInfo :=
  mk_WitnessInfo (available_key_hashes i) scripts (plutus_script_hashes i) (bootstrap_key_hashes i) (bootstrap_witnesses i)
    (has_plutus_v1 i) (has_plutus_v2 i) (has_plutus_v3 i) (total_ex_units i).
Definition with_bootstrap (ws : list BootstrapWitnessRef) (i : WitnessInfo) : WitnessInfo :=
  mk_WitnessInfo (available_key_hashes i) (native_scripts i) (plutus_script_hashes i) (set_of (map boot_key_hash ws)) ws
    (has_plutus_v1 i) (has_plutus_v2 i) (has_plutus_v3 i) (total_ex_units i).
Definition with_plutus (v1 v2 v3 : bool) (hashes : list Hash28) (i : WitnessInfo) : WitnessInfo :=
  mk_WitnessInfo (available_key_hashes i) (native_scripts i) (set_extend (plutus_script_hashes i) hashes) (bootstrap_key_hashes i)
    (bootstrap_witnesses i) (v1 || has_plutus_v1 i) (v2 || has_plutus_v2 i) (v3 || has_plutus_v3 i) (total_ex_units i).
Definition with_ex_units (u : TotalExUnits) (i : WitnessInfo) : WitnessInfo :=
  mk_WitnessInfo (available_key_hashes i) (native_scripts i) (plutus_script_hashes i) (bootstrap_key_hashes i) (bootstrap_witnesses i)
    (has_plutus_v1 i) (has_plutus_v2 i) (has_plutus_v3 i) u.

(** The closure [process_key]. *)
Definition witness_entry : PDec LedgerError (WitnessInfo -> WitnessInfo) :=
  dec! key := uint in
  match key with
  | 0 => dec! _ := skip_optional_tag in dec! hashes := decode_vkey_hashes in pret (with_key_hashes hashes)
  | 1 => dec! _ := skip_optional_tag in dec! scripts := decode_native_scripts_preserved in pret (with_native_scripts scripts)
  | 2 => dec! _ := skip_optional_tag in dec! ws := decode_bootstrap_witnesses in pret (with_bootstrap ws)
  | 3 => dec! hashes := hash_plutus_scripts PLUTUS_V1_PREFIX in pret (with_plutus true false false hashes)
  | 6 => dec! hashes := hash_plutus_scripts PLUTUS_V2_PREFIX in pret (with_plutus false true false hashes)
  | 7 => dec! hashes := hash_plutus_scripts PLUTUS_V3_PREFIX in pret (with_plutus false false true hashes)
  | 5 => dec! units := sum_redeemer_ex_units in pret (with_ex_units units)
  | _ => dec! _ := skip in pret (fun i => i)
  end.

Definition decode_single_witness_info : PDec LedgerError WitnessInfo :=
  dec! enc := map_header in
  dec! updates := items_of enc witness_entry in
  pret (fold_left (fun i update => update i) updates empty_witness_info).
Definition decode_witness_info_single (witness_set_cbor : list Z) : result WitnessInfo LedgerError :=
  fst (decode_single_witness_info witness_set_cbor 0).

(** The witness sets of a block. *)
Definition decode_witness_infos (witness_sets_cbor : list Z) : result (list WitnessInfo) LedgerError :=
  fst ((dec! enc := array_header in items_of enc decode_single_witness_info) witness_sets_cbor 0).

(** * Verification-key witnesses ([shelley.rs]) *)

Record VKeyWitnessRef : Type := mk_VKeyWitnessRef { vkey : list Z; signature : list Z }.

Definition decode_vkey_witness : PDec LedgerError VKeyWitnessRef :=
  dec! _ := array_exactly 2 in
  dec! vkey := bytes in
  dec! signature := bytes in
  pret (mk_VKeyWitnessRef vkey signature).
Definition decode_vkey_witnesses : PDec LedgerError (list VKeyWitnessRef) :=
  dec! enc := array_header in items_of enc decode_vkey_witness.

Definition vkey_entry : PDec LedgerError (option (list VKeyWitnessRef)) :=
  dec! key := uint in
  if key =? 0 then dec! _ := skip_optional_tag in dec! ws := decode_vkey_witnesses in pret (Some ws)
  else dec! _ := skip in pret None.

(** The last list under key 0. *)
Definition decode_conway_single_witness_set : PDec LedgerError (list VKeyWitnessRef) :=
  dec! enc := map_header in
  dec! entries := items_of enc vkey_entry in
  pret (default [] (last (omap id entries))).
Definition decode_conway_vkey_witness_set_single (witness_set_cbor : list Z) : result (list VKeyWitnessRef) LedgerError :=
  fst (decode_conway_single_witness_set witness_set_cbor 0).
Definition decode_conway_vkey_witness_sets (witness_sets_cbor : list Z) : result (list (list VKeyWitnessRef)) LedgerError :=
  fst ((dec! enc := array_header in items_of enc decode_conway_single_witness_set) witness_sets_cbor 0).

(** * Coverage of the required signers ([tx_validity/witness.rs]) *)

Definition source_rank (s : SignerSource) : Z :=
  match s with
  | InputPaymentKey => 0 | ExplicitRequiredSigner => 1 | WithdrawalKey => 2
  | CertificateKey => 3 | GovernanceVoter => 4 | CollateralPaymentKey => 5
  end.

(** The derived order: that of the declaration. *)
Definition source_cmp (a b : SignerSource) : comparison := cmp (source_rank a) (source_rank b).
Lemma source_cmp_eq a b : source_cmp a b = Eq <-> a = b.
Proof. unfold source_cmp. rewrite cmp_eq. destruct a, b; cbn; split; congruence. Qed.
Lemma source_cmp_antisym a b : source_cmp b a = CompOpp (source_cmp a b).
Proof. apply cmp_antisym. Qed.
Lemma source_cmp_lt_trans a b c : source_cmp a b = Lt -> source_cmp b c = Lt -> source_cmp a c = Lt.
Proof. apply cmp_lt_trans. Qed.
#[export] Instance source_order : TotalOrder SignerSource := {|
  cmp := source_cmp;
  cmp_eq := source_cmp_eq;
  cmp_antisym := source_cmp_antisym;
  cmp_lt_trans := source_cmp_lt_trans;
|}.

Record RequiredSigners : Type := mk_RequiredSigners { keys : BTreeSet Hash28; provenance : BTreeSet (SignerSource * Hash28) }.

Definition sources_for (required : RequiredSigners) (key : Hash28) : BTreeSet SignerSource :=
  set_of (map fst (List.filter (fun e => bool_decide (snd e = key)) (elements (provenance required)))).
Definition first_source (required : RequiredSigners) (key : Hash28) : SignerSource :=
  default ExplicitRequiredSigner (head (elements (sources_for required key))).

Section Verify.
Context {HE : Ed25519}.

Definition check_sizes (vk sig : list Z) (key_hash : Hash28) : result unit WitnessClosureError :=
  if negb (blen vk =? 32) then Err (MalformedWitnessField Field_VerificationKey key_hash) else
  if negb (blen sig =? 64) then Err (MalformedWitnessField Field_Signature key_hash) else Ok tt.

(** [matches!(verify_ed25519(..), Ok(true))] *)
Definition verifies (vk body_hash sig : list Z) : bool := bool_decide (ed_verify vk body_hash sig = Some true).

Fixpoint parse_witnesses (ws : list VKeyWitnessRef) : result (list (Hash28 * VKeyWitnessRef)) WitnessClosureError :=
  match ws with
  | [] => Ok []
  | w :: ws =>
      let key_hash := blake2b_224 (vkey w) in
      let? _ := check_sizes (vkey w) (signature w) key_hash in
      let? parsed := parse_witnesses ws in
      Ok ((key_hash, w) :: parsed)
  end.

Definition matching (parsed : list (Hash28 * VKeyWitnessRef)) (key : Hash28) : list (Hash28 * VKeyWitnessRef) :=
  List.filter (fun p => bool_decide (fst p = key)) parsed.

Fixpoint cover_keys (body_hash : Hash32) (required : RequiredSigners) (parsed : list (Hash28 * VKeyWitnessRef)) (l : list Hash28) :
    result unit WitnessClosureError :=
  match l with
  | [] => Ok tt
  | key :: l =>
      let matched := matching parsed key in
      if existsb (fun p => verifies (vkey (snd p)) body_hash (signature (snd p))) matched
      then cover_keys body_hash required parsed l
      else match matched with
           | _ :: _ => Err (InvalidWitnessSignature key)
           | [] => Err (MissingRequiredSigner key (first_source required key))
           end
  end.

Definition verify_required_witnesses (body_hash : Hash32) (required : RequiredSigners) (witnesses : list VKeyWitnessRef) :
    result unit WitnessClosureError :=
  let? parsed := parse_witnesses witnesses in
  cover_keys body_hash required parsed (elements (keys required)).

Fixpoint verify_vkeys (body_hash : Hash32) (ws : list VKeyWitnessRef) : result unit WitnessClosureError :=
  match ws with
  | [] => Ok tt
  | w :: ws =>
      let key_hash := blake2b_224 (vkey w) in
      let? _ := check_sizes (vkey w) (signature w) key_hash in
      if verifies (vkey w) body_hash (signature w) then verify_vkeys body_hash ws
      else Err (InvalidSuppliedWitnessSignature key_hash)
  end.
Fixpoint verify_bootstrap (body_hash : Hash32) (ws : list BootstrapWitnessRef) : result unit WitnessClosureError :=
  match ws with
  | [] => Ok tt
  | w :: ws =>
      let? _ := check_sizes (boot_vkey w) (boot_signature w) (boot_key_hash w) in
      if verifies (boot_vkey w) body_hash (boot_signature w) then verify_bootstrap body_hash ws
      else Err (InvalidBootstrapWitnessSignature (boot_key_hash w))
  end.

Definition verify_supplied_witnesses (body_hash : Hash32) (vkey_witnesses : list VKeyWitnessRef)
    (bootstrap : list BootstrapWitnessRef) : result unit WitnessClosureError :=
  let? _ := verify_vkeys body_hash vkey_witnesses in
  verify_bootstrap body_hash bootstrap.
End Verify.
End Hashes.

(** * What the signature checks establish *)

Section Facts.
Context {HB : Blake224} {HS : Sha3} {HE : Ed25519}.

Definition sized (w : VKeyWitnessRef) : Prop := blen (vkey w) = 32 /\ blen (signature w) = 64.
(** The witness signs for the key. *)
Definition signs (body_hash : Hash32) (key : Hash28) (w : VKeyWitnessRef) : Prop :=
  blake2b_224 (vkey w) = key /\ ed_verify (vkey w) body_hash (signature w) = Some true.

Lemma check_sizes_ok vk sig h : check_sizes vk sig h = Ok tt <-> blen vk = 32 /\ blen sig = 64.
Proof.
  unfold check_sizes. destruct (Z.eqb_spec (blen vk) 32), (Z.eqb_spec (blen sig) 64); cbn; split; intros; intuition congruence.
Qed.

Lemma parse_witnesses_ok ws : forall parsed, parse_witnesses ws = Ok parsed <->
  Forall sized ws /\ parsed = map (fun w => (blake2b_224 (vkey w), w)) ws.
Proof.
  induction ws as [|w ws IH]; intros parsed; cbn [parse_witnesses map].
  - split; [by intros [= <-]|by intros [_ ->]].
  - destruct (check_sizes _ _ _) as [[]|e] eqn:E; cbn [rbind].
    + apply check_sizes_ok in E. destruct (parse_witnesses ws) as [p|e]; cbn [rbind].
      * destruct (proj1 (IH p) eq_refl) as [Hs ->]. split; [intros [= <-]; split; [by constructor|done]|by intros [_ ->]].
      * split; [done|]. intros [Hs _]. apply Forall_cons in Hs as [_ Hs]. by pose proof (proj2 (IH _) (conj Hs eq_refl)).
    + split; [done|]. intros [Hs _]. apply Forall_cons in Hs as [Hs _]. by rewrite (proj2 (check_sizes_ok _ _ _) Hs) in E.
Qed.

Lemma covered_key body_hash ws key :
  existsb (fun p => verifies (vkey (snd p)) body_hash (signature (snd p)))
    (matching (map (fun w => (blake2b_224 (vkey w), w)) ws) key) = true <-> Exists (signs body_hash key) ws.
Proof.
  rewrite existsb_exists, Exists_exists. unfold matching, verifies, signs. split.
  - intros ([h w] & Hin & Hv). apply filter_In in Hin as [Hin Hk]. apply in_map_iff in Hin as (w' & [= <- <-] & Hin).
    apply bool_decide_eq_true in Hk, Hv. exists w'. split; [by apply list_elem_of_In|]. by split.
  - intros (w & Hin & Hk & Hv). exists (key, w). split; [|by apply bool_decide_eq_true].
    apply filter_In. split; [|by apply bool_decide_eq_true]. apply in_map_iff. exists w. split; [by rewrite Hk|by apply list_elem_of_In].
Qed.

Lemma cover_keys_ok body_hash required ws l :
  cover_keys body_hash required (map (fun w => (blake2b_224 (vkey w), w)) ws) l = Ok tt <->
  Forall (fun key => Exists (signs body_hash key) ws) l.
Proof.
  induction l as [|key l IH]; cbn [cover_keys]; [done|]. rewrite Forall_cons, <- covered_key, <- IH.
  destruct (existsb _ _); [intuition|]. split; [|by intros []].
  by destruct (matching _ key).
Qed.

Lemma verify_required_ok body_hash required ws : verify_required_witnesses body_hash required ws = Ok tt <->
  Forall sized ws /\ Forall (fun key => Exists (signs body_hash key) ws) (elements (keys required)).
Proof.
  unfold verify_required_witnesses. destruct (parse_witnesses ws) as [p|e] eqn:Ep; cbn [rbind].
  - apply parse_witnesses_ok in Ep as [Hs ->]. rewrite cover_keys_ok. intuition.
  - split; [done|]. intros [Hs _]. by rewrite (proj2 (parse_witnesses_ok ws _) (conj Hs eq_refl)) in Ep.
Qed.

Lemma verify_vkeys_ok body_hash ws : verify_vkeys body_hash ws = Ok tt <->
  Forall (fun w => sized w /\ ed_verify (vkey w) body_hash (signature w) = Some true) ws.
Proof.
  induction ws as [|w ws IH]; cbn [verify_vkeys]; [done|]. rewrite Forall_cons, <- IH. unfold sized.
  rewrite <- (check_sizes_ok _ _ (blake2b_224 (vkey w))). destruct (check_sizes _ _ _) as [[]|e]; cbn [rbind]; [|naive_solver].
  unfold verifies. case_bool_decide; naive_solver.
Qed.

Lemma verify_bootstrap_ok body_hash ws : verify_bootstrap body_hash ws = Ok tt <->
  Forall (fun w => (blen (boot_vkey w) = 32 /\ blen (boot_signature w) = 64) /\
    ed_verify (boot_vkey w) body_hash (boot_signature w) = Some true) ws.
Proof.
  induction ws as [|w ws IH]; cbn [verify_bootstrap]; [done|]. rewrite Forall_cons, <- IH.
  rewrite <- (check_sizes_ok _ _ (boot_key_hash w)). destruct (check_sizes _ _ _) as [[]|e]; cbn [rbind]; [|naive_solver].
  unfold verifies. case_bool_decide; naive_solver.
Qed.
End Facts.
