(* ===== verification/ConwayRules.v ===== *)
(** Conway transactions against the ledger state: the checks a body goes through, of
    [ade_ledger/src/late_era_validation.rs], the collateral sum of [alonzo.rs], the required inputs
    and the working set of [pre_resolve.rs], the networks of [tx_validity/utxo_free.rs]; and their
    composition in [ade_ledger/src/conway.rs] with the preservation of value.

    [i128] arithmetic saturates, as in the code. *)

From S2P Require Import Prelude Cbor EraSchedule Leader NetCodec BTree Spelling Decoder BlockCodec LedgerValue Utxo.
From S2P Require Import LedgerMaps ConwayCert Delegation Governance ConwayTx NativeScript Witness.

(** * i128 *)

Definition i128_max : Z := 170141183460469231731687303715884105727.
Definition i128_min : Z := -170141183460469231731687303715884105728.
Definition sat_i128 (v : Z) : Z := Z.max i128_min (Z.min v i128_max).
Definition as_i128 (v : Z) : Z := (v - i128_min) mod (2 * (i128_max + 1)) + i128_min.

(** * Inputs ([late_era_validation.rs]) *)

Section Inputs.
Context {S : Type} `{UtxoStore S}.

(** All the missing inputs are reported. *)
Definition check_inputs_present (inputs : BTreeSet TxIn) (utxo : S) : result unit LedgerError :=
  let missing := List.filter (fun e => negb (contains_key utxo (fst e))) inputs in
  if set_is_empty missing then Ok tt else Err (BadInputs (elements missing)).

(** The coins of the resolved collateral, in u128, and whether one carries assets; the raw bytes of
    an [AlonzoPlus] output are not looked into. *)
Definition collateral_step (utxo : S) (acc : Z * bool) (tx_in : TxIn) : Z * bool :=
  let '(sum, non_ada) := acc in
  match store_get utxo tx_in with
  | None => acc
  | Some out =>
      (Z.min (sum + out_coin out) u128_max,
       match out with
       | Out_ShelleyMary _ value => if is_empty (multi_asset value) then non_ada else true
       | _ => non_ada
       end)
  end.
Definition sum_collateral (collateral_inputs : BTreeSet TxIn) (utxo : S) : Z * bool :=
  fold_left (collateral_step utxo) (elements collateral_inputs) (0, false).
End Inputs.

(** * Collateral *)

Definition check_collateral_non_empty (collateral_inputs : BTreeSet TxIn) : result unit LedgerError :=
  if set_is_empty collateral_inputs then Err NoCollateralInputs else Ok tt.

Definition ceil_div_u128 (n d : Z) : Z := if d =? 0 then 0 else (n + d - 1) / d.
Definition u128_to_u64_clamped (v : Z) : Z := if u64_max <? v then u64_max else v.

Definition check_collateral_percent (balance percent : Z) (fee : Coin) : result unit LedgerError :=
  let lhs := sat_i128 (balance * 100) in
  let rhs := sat_i128 (percent * fee) in
  if rhs <=? lhs then Ok tt else
  Err (InsufficientCollateral (mk_InsufficientCollateralError balance
         (u128_to_u64_clamped (ceil_div_u128 (Z.min (percent * fee) u128_max) 100)) percent fee)).

Definition check_total_collateral (balance : Z) (declared : option Coin) : result unit LedgerError :=
  match declared with
  | None => Ok tt
  | Some d => if balance =? d then Ok tt else Err (IncorrectTotalCollateral balance d)
  end.

Definition check_collateral_contains_non_ada (any_non_ada has_return : bool) : result unit LedgerError :=
  if any_non_ada && negb has_return then Err CollateralContainsNonADA else Ok tt.

Definition compute_collateral_balance (inputs_coin_sum return_coin : Z) : Z := as_i128 inputs_coin_sum - return_coin.

(** * Reference inputs, signers, networks, budget *)

Definition REF_INPUT_DISJOINT_PV_LOWER_EXCLUSIVE : Z := 8.
Definition REF_INPUT_DISJOINT_PV_UPPER_EXCLUSIVE : Z := 11.

Definition check_reference_input_disjoint (inputs reference_inputs : BTreeSet TxIn) (pv_major : Z) : result unit LedgerError :=
  let gate_fires := (REF_INPUT_DISJOINT_PV_LOWER_EXCLUSIVE <? pv_major) && (pv_major <? REF_INPUT_DISJOINT_PV_UPPER_EXCLUSIVE) in
  if negb gate_fires then Ok tt else
  let both := set_intersection inputs reference_inputs in
  if set_is_empty both then Ok tt else Err (NonDisjointRefInputs (elements both)).

Definition check_required_signers (required available_key_hashes : BTreeSet Hash28) : result unit LedgerError :=
  let missing := set_difference required available_key_hashes in
  if set_is_empty missing then Ok tt else Err (MissingRequiredSigners (elements missing)).

Definition check_tx_network_id (declared : option Z) (current : Z) : result unit LedgerError :=
  match declared with
  | None => Ok tt
  | Some d => if d =? current then Ok tt else Err (WrongNetworkInTxBody d current)
  end.

Definition check_tx_ex_units_within_cap (declared_mem declared_cpu max_mem max_cpu : Z) : result unit LedgerError :=
  if (declared_mem <=? max_mem) && (declared_cpu <=? max_cpu) then Ok tt
  else Err (ExUnitsTooBigUTxO (mk_ExUnitsTooBigError declared_mem declared_cpu max_mem max_cpu)).

(** * Address networks ([utxo_free.rs]) *)

Record BootstrapAttributes : Type := mk_BootstrapAttributes {
  has_network_magic : bool;
  derivation_payload_len : Z;
  unknown_len : Z;
}.

Inductive AttrField : Type := Attr_derivation (len : Z) | Attr_magic | Attr_unknown (len : Z).

Definition decode_attr : PDec CodecError AttrField :=
  dec! key := read_u64v in
  dec! value := read_bytesv in
  match key with
  | 1 => match read_bytes value 0 with
         | (Ok (inner, _), _) => pret (Attr_derivation (blen inner))
         | (Err e, _) => pfail e
         end
  | 2 => pret Attr_magic
  | _ => pret (Attr_unknown (blen value))
  end.

(** A later derivation path overwrites; the unknown lengths add up. *)
Definition add_attr (a : BootstrapAttributes) (f : AttrField) : BootstrapAttributes :=
  match f with
  | Attr_derivation n => mk_BootstrapAttributes (has_network_magic a) n (unknown_len a)
  | Attr_magic => mk_BootstrapAttributes true (derivation_payload_len a) (unknown_len a)
  | Attr_unknown n => mk_BootstrapAttributes (has_network_magic a) (derivation_payload_len a) (unknown_len a + n)
  end.

Definition read_attributes : PDec CodecError BootstrapAttributes :=
  dec! _ := array_of 3 "" in
  dec! _ := skip_one in
  dec! enc := plift id read_map_header in
  dec! fields := match enc with
                 | Definite n _ => pcollect (Z.to_nat n) decode_attr
                 | Indefinite => dec! fs := nwhile at_break decode_attr in consume_break fs
                 end in
  dec! _ := skip_one in
  pret (fold_left add_attr fields (mk_BootstrapAttributes false 0 0)).

Definition read_bootstrap_payload : PDec CodecError (list Z) :=
  dec! _ := array_of 2 "" in
  dec! (tag, _) := plift id read_tag in
  if negb (tag =? 24) then bad_structure "" else
  dec! payload := read_bytesv in
  dec! _ := skip_one in
  pret payload.

Definition read_bootstrap_attributes (address : list Z) : option BootstrapAttributes :=
  match read_bootstrap_payload address 0 with
  | (Err _, _) => None
  | (Ok payload, o) =>
      if negb (o =? blen address) then None else
      match read_attributes payload 0 with (Ok attrs, _) => Some attrs | (Err _, _) => None end
  end.

Inductive AddressNetworkError : Type := Empty | MalformedBootstrap.

Definition address_network (address : list Z) : result Z AddressNetworkError :=
  match address with
  | [] => Err Empty
  | first :: _ =>
      if Z.shiftr first 4 =? 0x8 then
        match read_bootstrap_attributes address with
        | None => Err MalformedBootstrap
        | Some attrs => Ok (if has_network_magic attrs then 0 else 1)
        end
      else Ok (Z.land first 0x0f)
  end.

Definition check_address_network (address : list Z) (current : Z) : result unit LedgerError :=
  let wrong := Err (WrongNetworkInOutput (default 0 (head address)) current) in
  match address_network address with
  | Ok network => if network =? current then Ok tt else wrong
  | Err _ => wrong
  end.

(** * The inputs a transaction reads ([pre_resolve.rs]) *)

Definition collect_required_txins (body : ConwayTxBody) : BTreeSet TxIn :=
  let required := set_of (elements (inputs body)) in
  let required := match collateral_inputs body with Some c => set_extend required (elements c) | None => required end in
  match reference_inputs body with Some r => set_extend required (elements r) | None => required end.

Definition collect_required_txins_block (bodies : list ConwayTxBody) : BTreeSet TxIn :=
  fold_left (fun required body => set_extend required (elements (collect_required_txins body))) bodies [].

Record WorkingSet : Type := mk_WorkingSet { resolved : UtxoMap }.

Definition seed_required_from_anchor (resolved : UtxoMap) : WorkingSet := mk_WorkingSet resolved.

Definition apply_tx_acceptance (w : WorkingSet) (spent : list TxIn) (produced : list (TxIn * TxOut)) : WorkingSet :=
  mk_WorkingSet (fold_left (fun m e => bt_insert m (fst e) (snd e)) produced (fold_left bt_remove spent (resolved w))).

#[export] Instance working_set_store : UtxoStore WorkingSet :=
  {| contains_key w := bt_contains (resolved w); store_get w := bt_get (resolved w) |}.
#[export] Instance working_set_laws : UtxoStoreLaws WorkingSet.
Proof. done. Qed.

(** [saturating_add] of [i128] *)
Definition add_i128 (a b : Z) : Z := sat_i128 (a + b).

(** * Preservation of value *)

Definition removed_tag_of (cert : ConwayCert) : Z := match cert with RemovedInConway tag => tag | _ => 0 end.

(** The sweep that puts a removed certificate ahead of any accounting. *)
Fixpoint era_validity_sweep (certs : list ConwayCert) (params : ConwayDepositParams) (s : CertState) (idx : Z) :
    result unit LedgerError :=
  match certs with
  | [] => Ok tt
  | cert :: certs =>
      let? d := classify cert params s in
      match d with
      | NotValidInConway => Err (EraInvalidCertificate (mk_EraInvalidCertificateError (as_u16 idx) (removed_tag_of cert)))
      | _ => era_validity_sweep certs params s (idx + 1)
      end
  end.

(** New and refunded deposits. *)
Fixpoint accounting_fold (certs : list ConwayCert) (params : ConwayDepositParams) (s : CertState) (new refunded : Z) :
    result (Z * Z) LedgerError :=
  match certs with
  | [] => Ok (new, refunded)
  | cert :: certs =>
      let? d := classify cert params s in
      match d with
      | Accountable (NewDeposit src) => accounting_fold certs params s (add_i128 new (coin_of src)) refunded
      | Accountable (Refund src) => accounting_fold certs params s new (add_i128 refunded (coin_of src))
      | Neutral | NotValidInConway => accounting_fold certs params s new refunded
      end
  end.

Definition cert_deposits_of (certs_bytes : option (list Z)) (params : ConwayDepositParams) (s : CertState) :
    result (Z * Z) LedgerError :=
  match certs_bytes with
  | None => Ok (0, 0)
  | Some bytes =>
      let? certs := map_err codec_ledger_error (decode_conway_certs bytes) in
      let? _ := era_validity_sweep certs params s 0 in
      accounting_fold certs params s 0 0
  end.

Definition withdrawals_total (withdrawals_bytes : option (list Z)) : result Z LedgerError :=
  match withdrawals_bytes with
  | None => Ok 0
  | Some bytes =>
      let? map := map_err codec_ledger_error (decode_withdrawals bytes) in
      Ok (withdrawals_sum map)
  end.

Definition clamp_u64 (v : Z) : Z := Z.min (Z.max v 0) u64_max.

Section Rules.
Context {S : Type} `{UtxoStore S}.

Definition input_coin (utxo : S) (input : TxIn) : Z :=
  match store_get utxo input with Some out => out_coin out | None => 0 end.

Definition check_conway_coin_conservation (body : ConwayTxBody) (utxo : S) (params : ConwayDepositParams) (s : CertState) :
    result unit LedgerError :=
  let? withdrawn := withdrawals_total (withdrawals body) in
  let? (new_deposits, refunded_deposits) := cert_deposits_of (certs body) params s in
  let consumed := fold_left (fun acc input => add_i128 acc (input_coin utxo input)) (elements (inputs body)) 0 in
  let consumed := add_i128 (add_i128 consumed withdrawn) refunded_deposits in
  let produced := fold_left (fun acc out => add_i128 acc (out_lovelace out)) (outputs body) (fee body) in
  let produced := match donation body with Some d => add_i128 produced d | None => produced end in
  let produced := add_i128 produced new_deposits in
  if negb (consumed =? produced)
  then Err (Conservation (mk_ConservationError (clamp_u64 consumed) (clamp_u64 produced)))
  else Ok tt.

(** * The composer *)

Definition check_collateral (body : ConwayTxBody) (utxo : S) (collateral_percent : Z) : result unit LedgerError :=
  match collateral_inputs body with
  | None => Ok tt
  | Some col =>
      if set_is_empty col then Ok tt else
      let '(sum_coin, any_non_ada) := sum_collateral col utxo in
      let return_coin := match collateral_return body with Some o => out_lovelace o | None => 0 end in
      let balance := compute_collateral_balance sum_coin return_coin in
      let? _ := check_collateral_percent balance collateral_percent (fee body) in
      let? _ := check_collateral_contains_non_ada any_non_ada (bool_decide (is_Some (collateral_return body))) in
      check_total_collateral balance (total_collateral body)
  end.

Fixpoint check_output_networks (outs : list BabbageTxOut) (current : Z) : result unit LedgerError :=
  match outs with
  | [] => Ok tt
  | o :: outs => let? _ := check_address_network (out_address o) current in check_output_networks outs current
  end.

Definition validate_conway_state_backed (body : ConwayTxBody) (utxo : S) (witness_info : WitnessInfo)
    (collateral_percent current_network protocol_version_major : Z) (max_tx_ex_units : Z * Z)
    (deposit_params : ConwayDepositParams) (cert_state : CertState) : result unit LedgerError :=
  let ex := total_ex_units witness_info in
  let? _ := check_tx_ex_units_within_cap (mem ex) (cpu ex) (fst max_tx_ex_units) (snd max_tx_ex_units) in
  let? _ := check_inputs_present (collect_required_txins body) utxo in
  let? _ := check_reference_input_disjoint (inputs body) (default [] (reference_inputs body)) protocol_version_major in
  let? _ := if (0 <? mem ex) || (0 <? cpu ex)
            then check_collateral_non_empty (default [] (collateral_inputs body)) else Ok tt in
  let? _ := check_collateral body utxo collateral_percent in
  let? _ := match required_signers body with
            | Some req => check_required_signers req (available_key_hashes witness_info)
            | None => Ok tt
            end in
  let? _ := check_conway_coin_conservation body utxo deposit_params cert_state in
  let? _ := check_tx_network_id (network_id body) current_network in
  let? _ := check_output_networks (outputs body) current_network in
  match collateral_return body with
  | Some ret => check_address_network (out_address ret) current_network
  | None => Ok tt
  end.
End Rules.
