(* ===== verification/Rational.v ===== *)
(** Exact rationals: [ade_ledger/src/rational.rs].

    The numbers are big integers, so nothing overflows but the conversion to [i128], which clamps.
    The specification is the field [Q]: the theorem says that every operation is the field's, that a
    number is kept in lowest terms, so that equality of the records is equality of the numbers, and
    that floor, ceiling and comparison are exact. *)

From Stdlib Require Import QArith Qround Lqa.
From S2P Require Import Prelude ConwayRules.
Open Scope Z_scope.

Record Rational : Type := mk_Rational { num : Z; den : Z }.

Definition reduce (r : Rational) : Rational :=
  if num r =? 0 then mk_Rational (num r) 1 else
  let r := if den r <? 0 then mk_Rational (- num r) (- den r) else r in
  let g := Z.gcd (Z.abs (num r)) (den r) in
  if 1 <? g then mk_Rational (Z.quot (num r) g) (Z.quot (den r) g) else r.

Definition rational_new (n d : Z) : option Rational :=
  if d =? 0 then None else Some (reduce (mk_Rational n d)).
Definition from_integer (n : Z) : Rational := mk_Rational n 1.
Definition rational_zero : Rational := mk_Rational 0 1.
Definition rational_one : Rational := mk_Rational 1 1.

(** Clamped to the ends of [i128]. *)
Definition bigint_to_i128 (b : Z) : Z := sat_i128 b.
Definition numerator (r : Rational) : Z := bigint_to_i128 (num r).
Definition denominator (r : Rational) : Z := bigint_to_i128 (den r).

Definition floor (r : Rational) : Z :=
  let q := Z.quot (num r) (den r) in
  if Z.rem (num r) (den r) <? 0 then bigint_to_i128 (q - 1) else bigint_to_i128 q.
Definition ceiling (r : Rational) : Z :=
  let q := Z.quot (num r) (den r) in
  if 0 <? Z.rem (num r) (den r) then bigint_to_i128 (q + 1) else bigint_to_i128 q.

Definition rational_add (a b : Rational) : option Rational :=
  Some (reduce (mk_Rational (num a * den b + num b * den a) (den a * den b))).
Definition rational_sub (a b : Rational) : option Rational :=
  Some (reduce (mk_Rational (num a * den b - num b * den a) (den a * den b))).
Definition rational_mul (a b : Rational) : option Rational :=
  Some (reduce (mk_Rational (num a * num b) (den a * den b))).
Definition rational_div (a b : Rational) : option Rational :=
  if num b =? 0 then None else Some (reduce (mk_Rational (num a * den b) (den a * num b))).

Definition is_non_negative (r : Rational) : bool := negb (num r <? 0).
Definition rational_cmp (a b : Rational) : comparison := (num a * den b) ?= (num b * den a).

(** * The specification *)

(** The denominator is positive and the fraction is in lowest terms. *)
Definition rational_ok (r : Rational) : Prop := 0 < den r /\ Z.gcd (num r) (den r) = 1.
(** The number. *)
Definition frac (r : Rational) : Q := num r # Z.to_pos (den r).

Lemma frac_quotient n d : 0 < d -> (n # Z.to_pos d == inject_Z n / inject_Z d)%Q.
Proof. intros Hd. rewrite Qmake_Qdiv. by rewrite Z2Pos.id. Qed.

Lemma inject_nonzero z : z <> 0 -> ~ (inject_Z z == 0)%Q.
Proof. intros Hz E. unfold Qeq in E. cbn in E. lia. Qed.

Lemma gcd_divided n d : 0 < d -> Z.gcd (Z.quot n (Z.gcd n d)) (Z.quot d (Z.gcd n d)) = 1.
Proof.
  intros Hd. set (g := Z.gcd n d). assert (0 < g) by (subst g; pose proof (Z.gcd_nonneg n d); pose proof (Z.gcd_eq_0_r n d); lia).
  destruct (Z.gcd_divide_l n d) as [a Ha], (Z.gcd_divide_r n d) as [b Hb]. fold g in Ha, Hb.
  assert (Z.quot n g = a) as -> by (rewrite Ha; apply Z.quot_mul; lia).
  assert (Z.quot d g = b) as -> by (rewrite Hb; apply Z.quot_mul; lia).
  assert (g * Z.gcd a b = g) as Hg.
  { rewrite <- (Z.abs_eq g) at 1 by lia. rewrite <- Z.gcd_mul_mono_l. subst g.
    rewrite (Z.mul_comm _ a), (Z.mul_comm _ b), <- Ha, <- Hb. done. }
  nia.
Qed.

(** [reduce] keeps the number and puts it in lowest terms, with parts no larger. *)
Lemma reduce_ok r : den r <> 0 -> rational_ok (reduce r) /\ (frac (reduce r) == inject_Z (num r) / inject_Z (den r))%Q /\
  Z.abs (num (reduce r)) <= Z.abs (num r) /\ den (reduce r) <= Z.abs (den r).
Proof.
  destruct r as [n d]. cbn [num den]. intros Hd. unfold reduce. cbn [num den]. destruct (Z.eqb_spec n 0) as [->|Hn].
  { split_and!; [by split| |cbn; lia..]. unfold frac. cbn [num den]. rewrite frac_quotient by lia. field. by apply inject_nonzero. }
  set (s := if d <? 0 then mk_Rational (- n) (- d) else mk_Rational n d).
  assert (0 < den s /\ (inject_Z (num s) / inject_Z (den s) == inject_Z n / inject_Z d)%Q /\ Z.abs (num s) = Z.abs n /\
    den s = Z.abs d) as (Hp & Hs & Ha & Hds).
  { subst s. destruct (Z.ltb_spec d 0); cbn [num den]; split_and!; try lia; [|done].
    rewrite !inject_Z_opp. field. by apply inject_nonzero. }
  clearbody s. destruct s as [n' d']. cbn [num den] in *. rewrite Z.gcd_abs_l.
  pose proof (gcd_divided n' d' Hp) as Hg. set (g := Z.gcd n' d') in *.
  assert (0 < g) by (subst g; pose proof (Z.gcd_nonneg n' d'); pose proof (Z.gcd_eq_0_r n' d'); lia).
  destruct (Z.ltb_spec 1 g) as [H1|H1].
  - destruct (Z.gcd_divide_l n' d') as [a Hna], (Z.gcd_divide_r n' d') as [b Hdb]. fold g in Hna, Hdb.
    assert (Z.quot n' g = a) as Eq1 by (rewrite Hna; apply Z.quot_mul; lia).
    assert (Z.quot d' g = b) as Eq2 by (rewrite Hdb; apply Z.quot_mul; lia).
    rewrite Eq1, Eq2 in *. assert (0 < b) by nia. cbn [num den]. split_and!; [split; cbn; lia| |nia|nia].
    unfold frac. cbn [num den]. rewrite frac_quotient, <- Hs by lia. rewrite Hna, Hdb, !inject_Z_mult.
    field. split; apply inject_nonzero; lia.
  - split_and!; [split; cbn [num den]; [lia|]; fold g; lia| |cbn; lia..].
    unfold frac. cbn [num den]. by rewrite frac_quotient, <- Hs by lia.
Qed.

Lemma ok_positive r : rational_ok r -> 0 < den r.
Proof. by intros [? _]. Qed.

Lemma frac_parts r : rational_ok r -> (frac r == inject_Z (num r) / inject_Z (den r))%Q.
Proof. intros [? _]. by apply frac_quotient. Qed.

Lemma new_exact n d : d <> 0 -> exists r, rational_new n d = Some r /\ rational_ok r /\ (frac r == inject_Z n / inject_Z d)%Q /\
  Z.abs (num r) <= Z.abs n /\ den r <= Z.abs d.
Proof.
  intros Hd. unfold rational_new. rewrite (proj2 (Z.eqb_neq d 0) Hd). eexists. split; [done|]. by apply (reduce_ok (mk_Rational n d)).
Qed.

Lemma integer_exact n : rational_ok (from_integer n) /\ (frac (from_integer n) == inject_Z n)%Q.
Proof. split; [split; cbn; [lia|apply Z.gcd_1_r]|done]. Qed.

(** One operation of the field: [op] of two fractions in lowest terms. *)
Ltac field_operation Ha Hb :=
  pose proof (inject_nonzero _ (Z.neq_sym _ _ (Z.lt_neq _ _ (ok_positive _ Ha))));
  pose proof (inject_nonzero _ (Z.neq_sym _ _ (Z.lt_neq _ _ (ok_positive _ Hb))));
  eexists; split; [done|]; cbn [num den] in *;
  match goal with |- context [reduce ?r] =>
    let H1 := fresh in let H2 := fresh in
    destruct (reduce_ok r) as (H1 & H2 & _); [cbn [num den]; pose proof (ok_positive _ Ha); pose proof (ok_positive _ Hb); nia|];
    split; [exact H1|]; rewrite H2; cbn [num den]
  end; rewrite (frac_parts _ Ha), (frac_parts _ Hb), ?inject_Z_plus, ?inject_Z_mult.

Lemma add_exact a b : rational_ok a -> rational_ok b ->
  exists r, rational_add a b = Some r /\ rational_ok r /\ (frac r == frac a + frac b)%Q.
Proof. intros Ha Hb. field_operation Ha Hb. by field. Qed.

Lemma sub_exact a b : rational_ok a -> rational_ok b ->
  exists r, rational_sub a b = Some r /\ rational_ok r /\ (frac r == frac a - frac b)%Q.
Proof.
  intros Ha Hb. unfold rational_sub. rewrite <- Z.add_opp_r. field_operation Ha Hb. rewrite inject_Z_opp, inject_Z_mult. by field.
Qed.

Lemma mul_exact a b : rational_ok a -> rational_ok b ->
  exists r, rational_mul a b = Some r /\ rational_ok r /\ (frac r == frac a * frac b)%Q.
Proof. intros Ha Hb. field_operation Ha Hb. by field. Qed.

Lemma frac_nonzero a : rational_ok a -> num a <> 0 -> ~ (frac a == 0)%Q.
Proof. intros _ Hn E. unfold Qeq in E. cbn in E. lia. Qed.

Lemma div_exact a b : rational_ok a -> rational_ok b -> num b <> 0 ->
  exists r, rational_div a b = Some r /\ rational_ok r /\ (frac r == frac a / frac b)%Q.
Proof.
  intros Ha Hb Hn. unfold rational_div. rewrite (proj2 (Z.eqb_neq _ _) Hn). pose proof (inject_nonzero _ Hn). field_operation Ha Hb.
  by field.
Qed.

Lemma floor_exact r : 0 < den r -> floor r = sat_i128 (Qfloor (frac r)).
Proof.
  intros Hd. unfold floor, frac, Qfloor, bigint_to_i128. rewrite Z2Pos.id by done.
  pose proof (Z.quot_rem (num r) (den r)). pose proof (Z.rem_bound_abs (num r) (den r)).
  destruct (Z.ltb_spec (Z.rem (num r) (den r)) 0); f_equal; apply Z.div_unique with (r := Z.rem (num r) (den r) + (if Z.rem (num r) (den r) <? 0 then den r else 0)).
  all: destruct (Z.ltb_spec (Z.rem (num r) (den r)) 0); lia.
Qed.

Lemma ceiling_exact r : 0 < den r -> ceiling r = sat_i128 (Qceiling (frac r)).
Proof.
  intros Hd. unfold ceiling, frac, Qceiling, Qfloor, Qopp, bigint_to_i128. cbn [Qnum Qden]. rewrite Z2Pos.id by done.
  pose proof (Z.quot_rem (num r) (den r)). pose proof (Z.rem_bound_abs (num r) (den r)).
  assert (forall q r', 0 <= r' < den r -> - num r = den r * q + r' -> (- num r) / den r = q) as Hu
    by (intros q r' ? ?; symmetry; apply Z.div_unique with r'; lia).
  destruct (Z.ltb_spec 0 (Z.rem (num r) (den r))); f_equal.
  - rewrite (Hu (- (Z.quot (num r) (den r) + 1)) (den r - Z.rem (num r) (den r))); lia.
  - rewrite (Hu (- Z.quot (num r) (den r)) (- Z.rem (num r) (den r))); lia.
Qed.

Lemma cmp_exact a b : rational_ok a -> rational_ok b -> rational_cmp a b = Qcompare (frac a) (frac b).
Proof. intros [Ha _] [Hb _]. unfold rational_cmp, Qcompare, frac. cbn [Qnum Qden]. by rewrite !Z2Pos.id. Qed.

(** Lowest terms are unique. *)
Lemma frac_injective a b : rational_ok a -> rational_ok b -> (frac a == frac b)%Q -> a = b.
Proof.
  destruct a as [n d], b as [n' d']. intros [Hd Hg] [Hd' Hg'] E. unfold Qeq, frac in E. cbn [num den Qnum Qden] in *.
  rewrite !Z2Pos.id in E by done.
  assert (d = d') as ->.
  { apply Z.divide_antisym_nonneg; [lia..| |].
    - apply (Z.gauss _ n); [exists n'; lia|by rewrite Z.gcd_comm].
    - apply (Z.gauss _ n'); [exists n; lia|by rewrite Z.gcd_comm]. }
  f_equal. nia.
Qed.

(** C38. Exact arithmetic.  Every operation is that of the rational numbers and leaves its result in lowest
    terms; only a zero denominator or divisor is refused; two numbers are equal exactly when their
    records are; comparison is the order of the numbers; and floor and ceiling are the integers next to
    them, clamped to [i128]. *)
Theorem rational_exact :
  (forall n d, d <> 0 -> exists r, rational_new n d = Some r /\ rational_ok r /\ (frac r == inject_Z n / inject_Z d)%Q) /\
  (forall n, rational_new n 0 = None) /\
  (forall a b, rational_ok a -> rational_ok b ->
    (exists r, rational_add a b = Some r /\ rational_ok r /\ (frac r == frac a + frac b)%Q) /\
    (exists r, rational_sub a b = Some r /\ rational_ok r /\ (frac r == frac a - frac b)%Q) /\
    (exists r, rational_mul a b = Some r /\ rational_ok r /\ (frac r == frac a * frac b)%Q) /\
    (if num b =? 0 then rational_div a b = None
     else exists r, rational_div a b = Some r /\ rational_ok r /\ (frac r == frac a / frac b)%Q) /\
    rational_cmp a b = Qcompare (frac a) (frac b) /\ (a = b <-> (frac a == frac b)%Q)) /\
  (forall r, rational_ok r -> floor r = sat_i128 (Qfloor (frac r)) /\ ceiling r = sat_i128 (Qceiling (frac r)) /\
    is_non_negative r = Qle_bool 0 (frac r)).
Proof.
  split_and!; [| done | |].
  - intros n d Hd. destruct (new_exact n d Hd) as (r & E & Hr & Hf & _). by exists r.
  - intros a b Ha Hb. split_and!; [by apply add_exact|by apply sub_exact|by apply mul_exact| |by apply cmp_exact|].
    + destruct (Z.eqb_spec (num b) 0) as [E|E]; [unfold rational_div; by rewrite E|by apply div_exact].
    + split; [by intros ->|by apply frac_injective].
  - intros r Hr. pose proof (ok_positive _ Hr). split_and!; [by apply floor_exact|by apply ceiling_exact|].
    unfold is_non_negative, frac, Qle_bool. cbn [Qnum Qden]. rewrite Z.mul_1_r. cbn. destruct (Z.ltb_spec (num r) 0), (Z.leb_spec 0 (num r)); lia || done.
Qed.
