(* ===== verification/UtxoEffect.v ===== *)
(** The UTxO effect of Conway transactions ([ade_ledger/src/rules.rs]): [locate_alonzo_plus_slices],
    [apply_conway_tx_to_utxo], the Conway arms of [extract_inputs_outputs_from_tx] and
    [extract_tx_utxo_effect], [track_utxo]; and [decode_invalid_tx_indices] of [plutus_eval.rs]. *)

From S2P Require Import Prelude Cbor NetCodec Spelling Decoder EraSchedule Header Leader BTree BlockCodec LedgerValue ConwayCert.
From S2P Require Import Utxo LedgerMaps Delegation Governance ConwayTx NativeScript Witness ConwayRules.

(** * The bytes of the outputs ([rules.rs]) *)

Record AlonzoPlusSlices : Type := mk_AlonzoPlusSlices {
  slice_outputs : list (Z * Z);
  slice_collateral_return : option (Z * Z);
}.

(** [let start = offset; skip_item(..)?; (start, offset)] *)
Definition skip_slice : PDec CodecError (Z * Z) :=
  dec! start := here in
  dec! _ := skip_one in
  dec! stop := here in
  pret (start, stop).

Definition slice_entry (s : AlonzoPlusSlices) : PDec CodecError AlonzoPlusSlices :=
  dec! key := read_u64v in
  if key =? 1 then
    dec! outs := read_elements skip_slice in
    pret (mk_AlonzoPlusSlices (slice_outputs s ++ outs) (slice_collateral_return s))
  else if key =? 16 then
    dec! ret := skip_slice in
    pret (mk_AlonzoPlusSlices (slice_outputs s) (Some ret))
  else dec! _ := skip_one in pret s.

Fixpoint slice_entries (n : nat) (s : AlonzoPlusSlices) : PDec CodecError AlonzoPlusSlices :=
  match n with
  | O => pret s
  | Datatypes.S n => dec! s := slice_entry s in slice_entries n s
  end.

Definition locate_alonzo_plus_slices (body_bytes : list Z) : result AlonzoPlusSlices LedgerError :=
  match (dec! enc := plift id read_map_header in
         match enc with
         | Indefinite => pfail (InvalidCborStructure 0 "Alonzo+ tx body must be definite-length map")
         | Definite n _ => slice_entries (Z.to_nat n) (mk_AlonzoPlusSlices [] None)
         end) body_bytes 0 with
  | (Ok s, _) => Ok s
  | (Err e, _) => Err (codec_ledger_error e)
  end.

Definition locate_alonzo_plus_output_slices (body_bytes : list Z) : result (list (Z * Z)) LedgerError :=
  let? s := locate_alonzo_plus_slices body_bytes in Ok (slice_outputs s).

(** * The UTxO after a transaction *)

Definition out_of (body_bytes : list Z) (o : BabbageTxOut) (s : Z * Z) : TxOut :=
  Out_AlonzoPlus (slice body_bytes (fst s) (snd s)) (out_address o) (out_lovelace o).

Definition produce_output (body_bytes : list Z) (tx_id : Hash32) (acc : OverlayUtxo * Z) (e : BabbageTxOut * (Z * Z)) :
    OverlayUtxo * Z :=
  let '(utxo, idx) := acc in
  (overlay_insert utxo (tx_id, as_u16 idx) (out_of body_bytes (fst e) (snd e)), idx + 1).

Definition apply_conway_tx_to_utxo (utxo : UTxOState) (body : ConwayTxBody) (body_bytes : list Z) (tx_id : Hash32) :
    result UTxOState LedgerError :=
  let spent := fold_left (fun u input => snd (overlay_remove u input)) (elements (inputs body)) (utxos utxo) in
  let? slices := locate_alonzo_plus_output_slices body_bytes in
  Ok (mk_UTxOState (fst (fold_left (produce_output body_bytes tx_id) (List.combine (outputs body) slices) (spent, 0)))).

(** * One transaction of a block, by its phase-2 verdict *)

Record TxUtxoEffect : Type := mk_TxUtxoEffect {
  spends : list TxIn;
  produces : list (Z * TxOut);
  collateral_consumed : list TxIn;
}.

(** The Conway arm. *)
Definition extract_inputs_outputs_from_tx : PDec LedgerError (list TxIn * list TxOut) :=
  dec! body_start := position in
  dec! tx := ledger_dec decode_conway_tx_body in
  dec! body_end := position in
  dec! body_bytes := bytes_between body_start body_end in
  dec! slices := ledger_result (locate_alonzo_plus_output_slices body_bytes) in
  pret (elements (inputs tx), zip_with (out_of body_bytes) (outputs tx) slices).

Fixpoint indexed (idx : Z) (outs : list TxOut) : list (Z * TxOut) :=
  match outs with [] => [] | o :: outs => (as_u16 idx, o) :: indexed (idx + 1) outs end.

(** The collateral inputs, and the collateral return at the index after the ordinary outputs. *)
Definition invalid_effect : PDec LedgerError TxUtxoEffect :=
  dec! body_start := position in
  dec! tx := ledger_dec decode_conway_tx_body in
  dec! body_end := position in
  dec! body_bytes := bytes_between body_start body_end in
  dec! slices := ledger_result (locate_alonzo_plus_slices body_bytes) in
  let spent := elements (default [] (collateral_inputs tx)) in
  match collateral_return tx, slice_collateral_return slices with
  | Some out, Some s => pret (mk_TxUtxoEffect spent [(as_u16 (blen (outputs tx)), out_of body_bytes out s)] spent)
  | None, None => pret (mk_TxUtxoEffect spent [] spent)
  | _, _ => pfail (codec_ledger_error
              (InvalidCborStructure body_start "collateral return present in one view and absent in the other"))
  end.

Definition extract_tx_utxo_effect (phase2_invalid : bool) : PDec LedgerError TxUtxoEffect :=
  if negb phase2_invalid then
    dec! (ins, outs) := extract_inputs_outputs_from_tx in
    pret (mk_TxUtxoEffect ins (indexed 0 outs) [])
  else invalid_effect.

(** * The block's own verdicts ([plutus_eval.rs]) *)

(** An entry that is not an unsigned integer is passed over; the loop goes on where it stopped. *)
Fixpoint invalid_definite (n : nat) (bytes : list Z) (off : Z) (out : BTreeSet Z) : BTreeSet Z :=
  match n with
  | O => out
  | Datatypes.S n =>
      match read_uint bytes off with
      | (Ok (v, _), o) => invalid_definite n bytes o (set_insert out v)
      | (Err _, o) => invalid_definite n bytes o out
      end
  end.

(** Each turn consumes a byte, so the length of the input is fuel enough. *)
Fixpoint invalid_indefinite (fuel : nat) (bytes : list Z) (off : Z) (out : BTreeSet Z) : BTreeSet Z :=
  match fuel with
  | O => out
  | Datatypes.S fuel =>
      match is_break bytes off with
      | Ok false => match read_uint bytes off with
                    | (Ok (v, _), o) => invalid_indefinite fuel bytes o (set_insert out v)
                    | (Err _, _) => out
                    end
      | _ => out
      end
  end.

Definition decode_invalid_tx_indices (invalid_txs_cbor : option (list Z)) : BTreeSet Z :=
  match invalid_txs_cbor with
  | None | Some [] => []
  | Some bytes =>
      match read_array_header bytes 0 with
      | (Err _, _) => []
      | (Ok (Definite n _), o) => invalid_definite (Z.to_nat n) bytes o []
      | (Ok Indefinite, o) => invalid_indefinite (length bytes) bytes o []
      end
  end.

(** * A block *)

(** The two loops over the transactions of a block, for what is done with each by its index. *)
Section Loop.
Context {S : Type}.
Variable step : Z -> S -> PDec LedgerError S.

Fixpoint process_definite (n : nat) (tx_index : Z) (s : S) : PDec LedgerError S :=
  match n with
  | O => pret s
  | Datatypes.S n => dec! s := step tx_index s in process_definite n (tx_index + 1) s
  end.

(** Each transaction is at least a byte, so the length of the bodies is fuel enough. *)
Fixpoint process_indefinite (fuel : nat) (tx_index : Z) (s : S) : PDec LedgerError S :=
  match fuel with
  | O => pret s
  | Datatypes.S fuel => fun data off =>
      match is_break data off with
      | Err e => (Err (codec_ledger_error e), off)
      | Ok true => (Ok s, off)
      | Ok false => (dec! s := step tx_index s in process_indefinite fuel (tx_index + 1) s) data off
      end
  end.

Definition process_txs (s : S) (data : list Z) : result S LedgerError :=
  fst ((dec! enc := ledger_dec (plift id read_array_header) in
        match enc with
        | Definite n _ => process_definite (Z.to_nat n) 0 s
        | Indefinite => process_indefinite (length data) 0 s
        end) data 0).
End Loop.

Definition produce_at (tx_hash : Hash32) (utxo : OverlayUtxo) (e : Z * TxOut) : OverlayUtxo :=
  overlay_insert utxo (tx_hash, fst e) (snd e).

Section Track.
Context {HC : Crypto}.

Definition apply_effect (utxo : OverlayUtxo) (effect : TxUtxoEffect) (tx_hash : Hash32) : OverlayUtxo :=
  fold_left (produce_at tx_hash) (produces effect) (fold_left (fun u input => snd (overlay_remove u input)) (spends effect) utxo).

(** The closure [process_one], threading the store. *)
Definition process_one (invalid : BTreeSet Z) (tx_index : Z) (utxo : OverlayUtxo) : PDec LedgerError OverlayUtxo :=
  dec! body_start := position in
  dec! effect := extract_tx_utxo_effect (set_contains invalid tx_index) in
  dec! body_end := position in
  dec! wire_bytes := bytes_between body_start body_end in
  pret (apply_effect utxo effect (blake2b_256 wire_bytes)).

Definition track_utxo (block : ShelleyBlock) (current_utxo : UTxOState) : result UTxOState LedgerError :=
  if bk_tx_count block =? 0 then Ok current_utxo else
  let invalid := decode_invalid_tx_indices (bk_invalid_txs block) in
  let? store := process_txs (process_one invalid) (utxos current_utxo) (bk_tx_bodies block) in
  Ok (mk_UTxOState store).
End Track.
