(* ===== verification/ConwaySpans.v ===== *)
(** What a decoded Conway body says about its bytes: it is one item, and the walk that slices its
    outputs finds the bytes each output was decoded from. *)

From S2P Require Import Prelude Cbor CborSkip CborRoundtrip CborPrefix NetCodec Spelling Decoder EraSchedule Leader BTree Wal BlockCodec BlockFacts.
From S2P Require Import LedgerValue ConwayCert Utxo LedgerMaps Governance ConwayTx NativeScript Witness ConwayRules UtxoEffect.

(** * Readers of several items *)

Section Readers.
Context {E : Type}.

Lemma spans_ext {A} n (m m' : PDec E A) : (forall data off, m data off = m' data off) -> spans n m' -> spans n m.
Proof. intros He Hm data off a o Hd Ho H. rewrite He in H. by eapply Hm. Qed.

Lemma spans_pcollect {A} k n (m : PDec E A) : spans k m -> spans (Z.of_nat n * k) (pcollect n m).
Proof.
  intros Hm. induction n as [|n IH]; [apply spans_pret|]. cbn [pcollect].
  replace (Z.of_nat (S n) * k) with (k + (Z.of_nat n * k + 0)) by lia.
  apply spans_bind; [done|intros x]. apply spans_bind; [done|intros xs; apply spans_pret].
Qed.
End Readers.

Lemma spans_here {B} n (k : Z -> PDec CodecError B) : (forall o, spans n (k o)) -> spans n (pbind here k).
Proof. intros Hk data off b o Hd Ho H. unfold pbind, here in H. by eapply (Hk off). Qed.

Lemma spans_peek {B} n (k : Z -> PDec CodecError B) : (forall o, spans n (k o)) -> spans n (pbind peek_type k).
Proof.
  intros Hk data off b o Hd Ho H. unfold pbind, peek_type in H. destruct (peek_major data off) as [m|]; [|done].
  by eapply (Hk m).
Qed.

Lemma spans_skip : spans 1 skip_one.
Proof.
  apply spans_plift. intros data off [s e] o Hd Ho H. apply items_one. by apply skip_item_inv in H as (_ & _ & ?).
Qed.

Lemma spans_array_of {B} n detail (k : PDec CodecError B) : spans n k -> spans 1 (dec! _ := array_of n detail in k).
Proof.
  intros Hk.
  apply (spans_ext _ _ (dec! enc := plift id read_array_header in
    match enc with Definite m _ => if m =? n then k else bad_structure detail | Indefinite => bad_structure detail end)).
  - intros data off. unfold array_of, pbind. destruct (plift id read_array_header data off) as [[[m w|]|e] o]; try done.
    by destruct (m =? n).
  - apply spans_array; [|by intros ? ? ? ? ? ? [=]]. intros m w _. destruct (Z.eqb_spec m n) as [->|]; [done|apply spans_bad].
Qed.

(** A map of [n] entries is one item. *)
Lemma map_head_inv data off enc o : read_map_header data off = (Ok enc, o) ->
  exists h, read_head data off = (Ok h, o) /\ h = match enc with Definite n _ => HPairs n | Indefinite => HUntilPairs end.
Proof.
  unfold read_map_header, read_head, dbind, Cbor.here.
  destruct (decode_initial data off) as [[[major ai]|e] o1] eqn:Ei; [|done].
  destruct (Z.eqb_spec major MAJOR_MAP) as [->|]; cbn [negb]; [|done].
  cbn [Z.eqb Pos.eqb MAJOR_MAP MAJOR_ARRAY MAJOR_UNSIGNED MAJOR_NEGATIVE MAJOR_BYTES MAJOR_TEXT orb].
  destruct (ai =? AI_INDEFINITE); [intros [= <- <-]; by eexists|].
  destruct (decode_argument ai off data o1) as [[[n w]|e] o2]; [|done]. intros [= <- <-]. by eexists.
Qed.

Lemma definite_map_inv detail data off n o : bytes_ok data -> 0 <= off ->
  definite read_map_header detail data off = (Ok n, o) ->
  read_head data off = (Ok (HPairs n), o) /\ off < o /\ 0 <= n /\ exists w, read_map_header data off = (Ok (Definite n w), o).
Proof.
  intros Hd Ho H. apply pbind_inv in H as (enc & o1 & H1 & H2). unfold plift in H1.
  destruct (read_map_header data off) as [[enc'|] o1'] eqn:Er; [|done]. injection H1 as -> ->.
  destruct (map_head_inv data off enc o1 Er) as (h & Hh & ->). destruct enc as [m w|]; [|done]. injection H2 as -> ->.
  pose proof (read_head_bound _ _ _ _ Hd Ho Hh) as Hb. destruct (read_head_ok _ _ _ _ Hd Ho Hh) as (_ & Hc & _).
  split_and!; [done|lia|done|by exists w].
Qed.

Lemma spans_map {B} detail (k : Z -> PDec CodecError B) : (forall n, 0 <= n -> spans (n * 2) (k n)) ->
  spans 1 (dec! n := definite read_map_header detail in k n).
Proof.
  intros Hk data off b o Hd Ho H. apply pbind_inv in H as (n & o1 & H1 & H2).
  apply definite_map_inv in H1 as (Hh & Hlt & Hn & _); [|done..].
  apply items_one. eapply item_intro; [exact Hh|]. constructor. apply (Hk n Hn data o1 b o Hd ltac:(lia) H2).
Qed.

(** A tag belongs to the item it tags. *)
Lemma tag_head data off a o : read_tag data off = (Ok a, o) -> read_head data off = (Ok HTag, o).
Proof.
  unfold read_tag, read_head, dbind, Cbor.here.
  destruct (decode_initial data off) as [[[major ai]|e] o1] eqn:Ei; [|done].
  destruct (Z.eqb_spec major MAJOR_TAG) as [->|]; cbn [negb]; [|done].
  cbn [Z.eqb Pos.eqb MAJOR_TAG MAJOR_MAP MAJOR_ARRAY MAJOR_UNSIGNED MAJOR_NEGATIVE MAJOR_BYTES MAJOR_TEXT orb].
  destruct (decode_argument ai off data o1) as [[[n w]|e] o2]; [|done]. by intros [= _ <-].
Qed.

Lemma spans_tagged {B} (k : PDec CodecError B) : spans 1 k -> spans 1 (dec! _ := skip_leading_tag in k).
Proof.
  intros Hk data off b o Hd Ho H. apply pbind_inv in H as ([] & o1 & H1 & H2). unfold skip_leading_tag in H1.
  destruct (off <? blen data); [|injection H1 as <-; by eapply Hk]. unfold skip_set_tag in H1.
  destruct (peek_major data off) as [m|]; [|done]. destruct (m =? 6); [|injection H1 as <-; by eapply Hk].
  apply pbind_inv in H1 as (tag & o2 & H1 & [= <-]). unfold plift in H1.
  destruct (read_tag data off) as [[tag'|] o2'] eqn:Et; [|done]. injection H1 as -> ->.
  apply tag_head in Et. pose proof (read_head_bound _ _ _ _ Hd Ho Et).
  apply items_one. eapply item_intro; [exact Et|]. constructor. eapply Hk; [done| |exact H2]. lia.
Qed.

(** An array of either form, of elements of one item each. *)
Lemma loop_until {A} (m : PDec CodecError A) data fuel : spans 1 m -> forall off l o, bytes_ok data -> 0 <= off ->
  nloop fuel at_break m data off = Some (Ok l, o) -> until_break data off (o + 1).
Proof.
  intros Hm. induction fuel as [|fuel IH]; intros off l o Hd Ho H; cbn [nloop] in H; [done|].
  destruct (at_break data off) as [[[]|e] o1] eqn:Eh; unfold at_break, is_break, peek_byte in Eh;
    destruct (byte_at data off) as [b|] eqn:Eb; cbn [ok_or rbind] in Eh; try done;
    destruct (Z.eqb_spec b BREAK_BYTE) as [->|Hne]; try done.
  - injection Eh as <-. injection H as <- <-. by constructor.
  - injection Eh as <-. destruct (m data off) as [[x|e] o1] eqn:Ex; [|done].
    destruct (nloop fuel at_break m data o1) as [[[xs|e] o2]|] eqn:En; try done. injection H as <- <-.
    apply Hm in Ex; [|done..]. apply one_of_items in Ex.
    eapply until_more; [done|done|exact Ex|]. eapply IH; [done| |done].
    pose proof (item_end data off o1 Hd Ho Ex). lia.
Qed.

Lemma spans_advances {A} (m : PDec CodecError A) : spans 1 m -> advances m.
Proof.
  intros Hm data off a o Hd Ho H. apply Hm in H; [|done..]. apply one_of_items in H.
  pose proof (item_end data off o Hd Ho H). lia.
Qed.

Lemma at_break_stops : stops_at_end at_break.
Proof.
  intros data off o Ho. unfold at_break, is_break, peek_byte. destruct (byte_at data off) as [b|] eqn:Eb; [|done].
  cbn. destruct (b =? BREAK_BYTE); [done|]. intros [= <-]. apply byte_at_bound in Eb. lia.
Qed.

Lemma nwhile_inv {A} (m : PDec CodecError A) data off l o : spans 1 m -> bytes_ok data -> 0 <= off ->
  nwhile at_break m data off = (Ok l, o) -> exists fuel, nloop fuel at_break m data off = Some (Ok l, o).
Proof.
  intros Hm Hd Ho H. unfold nwhile in H.
  destruct (nloop_total at_break m data (S (Z.to_nat (blen data - off))) off) as [r Hr];
    [done|exact at_break_stops|by apply spans_advances|done|lia|lia|]. rewrite Hr in H. subst r. by eexists.
Qed.

Lemma spans_elements {A} (m : PDec CodecError A) : spans 1 m -> spans 1 (read_elements m).
Proof.
  intros Hm. unfold read_elements. apply spans_array.
  - intros n w Hn. pose proof (spans_pcollect 1 (Z.to_nat n) m Hm) as Hc. by replace (Z.of_nat (Z.to_nat n) * 1) with n in Hc by lia.
  - intros data off o Hd Ho a H. apply pbind_inv in H as (l & o1 & H1 & [= _ <-]).
    apply nwhile_inv in H1 as [fuel H1]; [|done..]. by eapply loop_until.
Qed.

(** * The body's readers *)

Lemma spans_read_hash n detail : spans 1 (dec! bytes := read_bytesv in
  if negb (blen bytes =? n) then fun _ off => (Err (InvalidLength (off - blen bytes) detail), off) else pret bytes).
Proof.
  change 1 with (1 + 0). apply spans_bind; [apply spans_string|]. intros s.
  destruct (negb _); [by intros data off a o _ _ [=]|apply spans_pret].
Qed.

Lemma spans_tx_in : spans 1 decode_tx_in.
Proof.
  unfold decode_tx_in. apply spans_array_of. change 2 with (1 + (1 + 0)).
  apply spans_bind; [apply spans_hash|intros h]. apply spans_bind; [apply spans_value|intros i]. apply spans_pret.
Qed.

Lemma spans_inputs : spans 1 decode_tx_inputs.
Proof. apply spans_last, spans_elements, spans_tx_in. Qed.

Lemma spans_signers : spans 1 decode_required_signers.
Proof. apply spans_tagged, spans_last, spans_elements, spans_read_hash. Qed.

Lemma spans_out_value : spans 1 decode_out_value.
Proof.
  unfold decode_out_value. apply spans_here; intros off. apply spans_peek; intros major. apply spans_if; [|apply spans_if].
  - apply (spans_last read_u64v). apply spans_value.
  - apply spans_array_of. change 2 with (1 + (1 + 0)).
    apply spans_bind; [apply spans_value|intros v]. apply spans_bind; [apply spans_item|intros ma]. apply spans_pret.
  - apply spans_pfail.
Qed.

Lemma spans_out_field : spans 2 decode_out_field.
Proof.
  unfold decode_out_field. change 2 with (1 + 1). apply spans_bind; [apply spans_value|intros key].
  assert (spans 1 (dec! (c, ma) := decode_out_value in pret (Out_value c ma))) as Hv.
  { change 1 with (1 + 0). apply spans_bind; [apply spans_out_value|]. intros [c ma]. apply spans_pret. }
  repeat match goal with |- spans 1 (match ?k with _ => _ end) => destruct k end; try exact Hv;
    apply spans_last; first [apply spans_string|apply spans_item|apply spans_skip].
Qed.

Lemma spans_when b : spans (if b : bool then 1 else 0) (when b raw_item).
Proof. destruct b; [apply spans_last, spans_item|apply spans_pret]. Qed.

Lemma spans_out_array : spans 1 decode_babbage_tx_out_array.
Proof.
  unfold decode_babbage_tx_out_array. apply spans_array; [|by intros ? ? ? ? ? ? [=]].
  intros n w _. destruct ((2 <=? n) && (n <=? 4)) eqn:En; cbn [negb]; [|apply spans_bad].
  assert (n = 1 + (1 + ((if 3 <=? n then 1 else 0) + ((if 4 <=? n then 1 else 0) + 0)))) as E.
  { destruct (Z.leb_spec 3 n), (Z.leb_spec 4 n); lia. }
  rewrite E at 1. apply spans_bind; [apply spans_string|intros a]. apply spans_bind; [apply spans_out_value|intros [c ma]].
  apply spans_bind; [apply spans_when|intros d]. apply spans_bind; [apply spans_when|intros s]. apply spans_pret.
Qed.

Lemma spans_out_map : spans 1 decode_babbage_tx_out_map.
Proof.
  unfold decode_babbage_tx_out_map. apply spans_map. intros n Hn. replace (n * 2) with (Z.of_nat (Z.to_nat n) * 2 + 0) by lia.
  apply spans_bind; [apply spans_pcollect, spans_out_field|]. intros fields.
  destruct (assigned _ fields); [apply spans_pret|apply spans_bad].
Qed.

Lemma spans_out : spans 1 decode_babbage_tx_out.
Proof.
  unfold decode_babbage_tx_out. apply spans_here; intros off. apply spans_peek; intros major.
  apply spans_if; [apply spans_out_map|]. apply spans_if; [apply spans_out_array|apply spans_pfail].
Qed.

Lemma spans_proposals : spans 1 decode_proposals_item.
Proof.
  intros data off a o Hd Ho. unfold decode_proposals_item. destruct (raw_item data off) as [[b|] o1] eqn:E; [|done].
  destruct (decode_proposal_procedures b); [|done]. intros [= _ <-]. by eapply spans_item.
Qed.

(** Every arm reads one item. *)
Lemma spans_body_value key : spans 1 (decode_body_value key).
Proof.
  unfold decode_body_value.
  repeat match goal with |- spans 1 (match ?k with _ => _ end) => destruct k end;
  first [ apply spans_last; first [ apply spans_value | apply spans_item | apply spans_hash | apply spans_skip | apply spans_out
                                  | apply spans_proposals | apply spans_elements, spans_out ]
        | apply spans_tagged; apply spans_last; first [apply spans_inputs|apply spans_signers] ].
Qed.

Lemma spans_body_field : spans 2 decode_body_field.
Proof. unfold decode_body_field. change 2 with (1 + 1). apply spans_bind; [apply spans_value|apply spans_body_value]. Qed.

Lemma spans_body : spans 1 decode_conway_tx_body.
Proof.
  unfold decode_conway_tx_body. apply spans_map. intros n Hn. replace (n * 2) with (Z.of_nat (Z.to_nat n) * 2 + 0) by lia.
  apply spans_bind; [apply spans_pcollect, spans_body_field|]. intros fields.
  assert (forall {A B} (o : option A) d (k : A -> PDec CodecError B), (forall a, spans 0 (k a)) -> spans 0 (dec! a := present o d in k a)) as Hp.
  { intros A B o d k Hk. change 0 with (0 + 0). apply spans_bind; [|done]. destruct o; [apply spans_pret|apply spans_bad]. }
  do 3 (apply Hp; intros ?). apply spans_pret.
Qed.

(** * The slices *)

(** [s] is where the output stands in the bytes. *)
Definition out_at (data : list Z) (out : BabbageTxOut) (s : Z * Z) : Prop :=
  decode_babbage_tx_out data (fst s) = (Ok out, snd s).

Lemma item_slice data o o' : bytes_ok data -> 0 <= o -> item data o o' -> skip_slice data o = (Ok (o, o'), o').
Proof.
  intros Hd Ho Hi. unfold skip_slice, pbind, here, skip_one, plift. by rewrite (item_skip _ _ _ Hd Ho Hi).
Qed.

Lemma out_slice data off out o : bytes_ok data -> 0 <= off -> decode_babbage_tx_out data off = (Ok out, o) ->
  skip_slice data off = (Ok (off, o), o) /\ off < o.
Proof.
  intros Hd Ho H. pose proof (one_of_items _ _ _ (spans_out _ _ _ _ Hd Ho H)) as Hi.
  split; [by apply item_slice|]. pose proof (item_end data off o Hd Ho Hi). lia.
Qed.

Lemma collect_slices data n : bytes_ok data -> forall off l o, 0 <= off ->
  pcollect n decode_babbage_tx_out data off = (Ok l, o) ->
  exists sl, pcollect n skip_slice data off = (Ok sl, o) /\ Forall2 (out_at data) l sl.
Proof.
  intros Hd. induction n as [|n IH]; intros off l o Ho H; cbn [pcollect] in *.
  - injection H as <- <-. by exists [].
  - apply pbind_inv in H as (x & o1 & H1 & H). apply pbind_inv in H as (xs & o2 & H2 & [= <- <-]).
    destruct (out_slice _ _ _ _ Hd Ho H1) as [Hs Hlt]. destruct (IH o1 xs o2 ltac:(lia) H2) as (sl & Hsl & Hall).
    exists ((off, o1) :: sl). split; [|by constructor]. unfold pbind. by rewrite Hs, Hsl.
Qed.

Lemma loop_slices data fuel : bytes_ok data -> forall off l o, 0 <= off ->
  nloop fuel at_break decode_babbage_tx_out data off = Some (Ok l, o) ->
  exists sl, nloop fuel at_break skip_slice data off = Some (Ok sl, o) /\ Forall2 (out_at data) l sl.
Proof.
  intros Hd. induction fuel as [|fuel IH]; intros off l o Ho H; cbn [nloop] in *; [done|].
  destruct (at_break data off) as [[[]|e] o1] eqn:Eh; try done.
  - injection H as <- <-. by exists [].
  - assert (o1 = off) as -> by (unfold at_break in Eh; congruence).
    destruct (decode_babbage_tx_out data off) as [[x|e] o2] eqn:Ex; [|done].
    destruct (nloop fuel at_break decode_babbage_tx_out data o2) as [[[xs|e] o3]|] eqn:En; try done. injection H as <- <-.
    destruct (out_slice _ _ _ _ Hd Ho Ex) as [Hs Hlt]. destruct (IH o2 xs o3 ltac:(lia) En) as (sl & Hsl & Hall).
    exists ((off, o2) :: sl). split; [|by constructor]. by rewrite Hs, Hsl.
Qed.

Lemma elements_slices data off l o : bytes_ok data -> 0 <= off -> decode_conway_outputs data off = (Ok l, o) ->
  exists sl, read_elements skip_slice data off = (Ok sl, o) /\ Forall2 (out_at data) l sl.
Proof.
  intros Hd Ho H. unfold decode_conway_outputs, read_elements in *. apply pbind_inv in H as (enc & o1 & H1 & H).
  unfold pbind at 1. rewrite H1.
  assert (off < o1) as Hlt.
  { unfold plift in H1. destruct (read_array_header data off) as [[enc'|] o1'] eqn:Er; [|done]. injection H1 as -> ->.
    destruct (array_head_inv _ _ _ _ Er) as (h & Hh & _). pose proof (read_head_bound _ _ _ _ Hd Ho Hh). lia. }
  destruct enc as [n w|]; [by apply collect_slices; [|lia|]|].
  apply pbind_inv in H as (xs & o2 & H2 & H). injection H as <- <-.
  destruct (nloop_total at_break decode_babbage_tx_out data (S (Z.to_nat (blen data - o1))) o1) as [r Hr];
    [done|exact at_break_stops|by apply spans_advances, spans_out|lia|lia|lia|].
  unfold nwhile in H2. rewrite Hr in H2. subst r. destruct (loop_slices data _ Hd o1 xs o2 ltac:(lia) Hr) as (sl & Hsl & Hall).
  exists sl. split; [|done]. unfold pbind, nwhile. by rewrite Hsl.
Qed.

(** What a field adds to the slices. *)
Definition field_slices (data : list Z) (f : BodyField) (s s' : AlonzoPlusSlices) : Prop :=
  match f with
  | F_outputs outs => exists sl, s' = mk_AlonzoPlusSlices (slice_outputs s ++ sl) (slice_collateral_return s) /\ Forall2 (out_at data) outs sl
  | F_collateral_return out => exists p, s' = mk_AlonzoPlusSlices (slice_outputs s) (Some p) /\ out_at data out p
  | _ => s' = s
  end.

Ltac arm_of H := first
  [ apply pbind_inv in H as (? & ? & _ & H); apply pbind_inv in H as (? & ? & _ & H); injection H as <- _
  | apply pbind_inv in H as (? & ? & _ & H); injection H as <- _ ].

Lemma other_field key data off f o s : key <> 1 -> key <> 16 -> decode_body_value key data off = (Ok f, o) -> field_slices data f s s.
Proof.
  intros H1 H16 H. unfold decode_body_value in H.
  repeat match type of H with (match ?k with _ => _ end) _ _ = _ => destruct k end; try done; arm_of H; done.
Qed.

Lemma field_walk data off f o s : bytes_ok data -> 0 <= off -> decode_body_field data off = (Ok f, o) ->
  exists s', slice_entry s data off = (Ok s', o) /\ field_slices data f s s' /\ off < o.
Proof.
  intros Hd Ho H. apply pbind_inv in H as (key & o1 & H1 & H).
  assert (off < o1) as Hlt by (by eapply (spans_advances read_u64v); [apply spans_value|..]).
  pose proof (one_of_items _ _ _ (spans_body_value key data o1 f o Hd ltac:(lia) H)) as Hi.
  pose proof (item_end data o1 o Hd ltac:(lia) Hi) as He.
  unfold slice_entry. unfold pbind at 1. rewrite H1. destruct (Z.eqb_spec key 1) as [->|N1]; [|destruct (Z.eqb_spec key 16) as [->|N16]].
  - cbn [decode_body_value] in H. apply pbind_inv in H as (outs & o2 & H2 & [= <- <-]).
    destruct (elements_slices data o1 outs o2 Hd ltac:(lia) H2) as (sl & Hsl & Hall).
    eexists. split_and!; [unfold pbind; by rewrite Hsl|by exists sl|lia].
  - cbn [decode_body_value] in H. apply pbind_inv in H as (out & o2 & H2 & [= <- <-]).
    destruct (out_slice data o1 out o2 Hd ltac:(lia) H2) as [Hs _].
    eexists. split_and!; [unfold pbind; by rewrite Hs|by exists (o1, o2)|lia].
  - exists s. split_and!; [|by eapply other_field|lia].
    assert (0 <= o1) as Ho1 by lia. unfold pbind, skip_one, plift. by rewrite (item_skip data o1 o Hd Ho1 Hi).
Qed.

Definition sel_outputs (f : BodyField) : option (list BabbageTxOut) := match f with F_outputs v => Some v | _ => None end.
Definition sel_return (f : BodyField) : option BabbageTxOut := match f with F_collateral_return v => Some v | _ => None end.

Lemma fields_walk data n : bytes_ok data -> forall off fields o s, 0 <= off ->
  pcollect n decode_body_field data off = (Ok fields, o) ->
  exists s', slice_entries n s data off = (Ok s', o) /\
    (exists sls, slice_outputs s' = slice_outputs s ++ concat sls /\ Forall2 (Forall2 (out_at data)) (omap sel_outputs fields) sls) /\
    match last (omap sel_return fields) with
    | Some r => exists p, slice_collateral_return s' = Some p /\ out_at data r p
    | None => slice_collateral_return s' = slice_collateral_return s
    end.
Proof.
  intros Hd. induction n as [|n IH]; intros off fields o s Ho H; cbn [pcollect slice_entries] in *.
  { injection H as <- <-. exists s. split_and!; [done| |done]. exists []. split; [by rewrite app_nil_r|constructor]. }
  apply pbind_inv in H as (f & o1 & H1 & H). apply pbind_inv in H as (fs & o2 & H2 & [= <- <-]).
  destruct (field_walk data off f o1 s Hd Ho H1) as (s1 & W1 & F1 & Hlt).
  destruct (IH o1 fs o2 s1 ltac:(lia) H2) as (s' & W2 & (sls & E & Hall) & Hr).
  exists s'. split; [unfold pbind; by rewrite W1|]. destruct f; cbn [field_slices] in F1; try subst s1;
    try (split; [by exists sls|exact Hr]).
  - destruct F1 as (sl & -> & Hsl). split; [|exact Hr]. exists (sl :: sls). cbn [concat slice_outputs] in *.
    split; [by rewrite E, <- app_assoc|by constructor].
  - destruct F1 as (p & -> & Hp). split; [by exists sls|].
    change (omap sel_return (F_collateral_return v :: fs)) with (v :: omap sel_return fs).
    destruct (omap sel_return fs) as [|r rs] eqn:Er; [by exists p|]. rewrite last_cons_cons. destruct (last (r :: rs)) eqn:El; [exact Hr|by apply last_None in El].
Qed.

Lemma slices_of_body bytes body o : bytes_ok bytes -> decode_conway_tx_body bytes 0 = (Ok body, o) ->
  exists s sls, locate_alonzo_plus_slices bytes = Ok s /\
    slice_outputs s = concat sls /\
    (exists front sl, sls = front ++ [sl] /\ Forall2 (out_at bytes) (outputs body) sl) /\
    match collateral_return body with
    | Some r => exists p, slice_collateral_return s = Some p /\ out_at bytes r p
    | None => slice_collateral_return s = None
    end.
Proof.
  intros Hd H. apply pbind_inv in H as (n & o1 & H1 & H). apply pbind_inv in H as (fields & o2 & H2 & H).
  apply pbind_inv in H as (ins & o3 & H3 & H). apply pbind_inv in H as (outs & o4 & H4 & H).
  apply pbind_inv in H as (fee & o5 & H5 & [= <- _]).
  apply definite_map_inv in H1 as (Hh & Hlt & Hn & w & Hm); [|done|lia].
  destruct (fields_walk bytes _ Hd o1 fields o2 (mk_AlonzoPlusSlices [] None) ltac:(lia) H2) as (s & W & (sls & E & Hall) & Hr).
  exists s, sls. split_and!.
  - unfold locate_alonzo_plus_slices, pbind, plift. by rewrite Hm, W.
  - exact E.
  - unfold present in H4. destruct (assigned (fun f => match f with F_outputs v => Some v | _ => None end) fields) as [outs'|] eqn:Ea; [|done]. injection H4 as <- <-.
    cbn [outputs body_of]. unfold assigned in Ea. apply last_Some in Ea as [front Ef].
    change (omap _ fields) with (omap sel_outputs fields) in Ef. rewrite Ef in Hall.
    apply Forall2_app_inv_l in Hall as (sf & sl & _ & Hl & ->). apply Forall2_cons_inv_l in Hl as (x & rest & Hx & Hn' & ->).
    apply Forall2_nil_inv_l in Hn' as ->. by exists sf, x.
  - exact Hr.
Qed.

Lemma slices_enough bytes body o : bytes_ok bytes -> decode_conway_tx_body bytes 0 = (Ok body, o) ->
  exists s, locate_alonzo_plus_slices bytes = Ok s /\ blen (outputs body) <= blen (slice_outputs s).
Proof.
  intros Hd H. destruct (slices_of_body bytes body o Hd H) as (s & sls & W & E & (front & sl & -> & Hsl) & _).
  exists s. split; [done|]. unfold blen.
  rewrite E, concat_app, length_app, (Forall2_length _ _ _ Hsl). cbn. rewrite app_nil_r. lia.
Qed.

(** The walk that slices a transaction body agrees with its decoder: whenever the body decodes, the
    walk succeeds, and, if the body lists its outputs once, the slices are, one for one and in order,
    where the outputs were decoded from; likewise the collateral return.  A body is one CBOR item. *)
Theorem conway_slices_exact bytes body o (Hd : bytes_ok bytes) (H : decode_conway_tx_body bytes 0 = (Ok body, o)) :
  item bytes 0 o /\
  exists s sls, locate_alonzo_plus_slices bytes = Ok s /\ slice_outputs s = concat sls /\
    (forall sl, sls = [sl] -> Forall2 (out_at bytes) (outputs body) (slice_outputs s)) /\
    blen (outputs body) <= blen (slice_outputs s) /\
    match collateral_return body with
    | Some r => exists p, slice_collateral_return s = Some p /\ out_at bytes r p
    | None => slice_collateral_return s = None
    end.
Proof.
  split; [apply one_of_items; by eapply spans_body|].
  destruct (slices_of_body bytes body o Hd H) as (s & sls & W & E & (front & sl & -> & Hsl) & Hr).
  destruct (slices_enough bytes body o Hd H) as (s' & W' & Hlen). rewrite W in W'. injection W' as <-.
  exists s, (front ++ [sl]). split_and!; [done..| |done|done].
  - intros x Hx. destruct front as [|y front]; [|by destruct front]. injection Hx as ->.
    by rewrite E; cbn; rewrite app_nil_r.
Qed.
