(* ===== verification/ConwayFacts.v ===== *)
(** Theorems on the Conway transaction rules: what an accepted transaction satisfies, and that no
    lovelace is created or destroyed by it, across the UTxO, the deposits and the withdrawals. *)

From S2P Require Import Prelude Cbor NetCodec Spelling Decoder EraSchedule Leader BTree BlockCodec LedgerValue ConwayCert Utxo.
From S2P Require Import LedgerMaps Delegation DelegationFacts Governance ConwayTx NativeScript Witness ConwayRules UtxoEffect ConwaySpans.

(** * The UTxO's lovelace *)

Definition lovelace (m : UtxoMap) : Z := total out_coin m.

Lemma remove_step o k : overlay_ok o -> overlay_ok (snd (overlay_remove o k)) /\ to_map (snd (overlay_remove o k)) = bt_remove (to_map o) k.
Proof. intros Ho. destruct (op_refines o (Op_Remove k) Ho) as (H1 & _ & H3). by split. Qed.

Lemma insert_step o k out : overlay_ok o -> overlay_ok (overlay_insert o k out) /\ to_map (overlay_insert o k out) = bt_insert (to_map o) k out.
Proof. intros Ho. destruct (op_refines o (Op_Insert k out) Ho) as (H1 & _ & H3). by split. Qed.

Lemma remove_steps l : forall o, overlay_ok o ->
  overlay_ok (fold_left (fun u i => snd (overlay_remove u i)) l o) /\
  to_map (fold_left (fun u i => snd (overlay_remove u i)) l o) = fold_left bt_remove l (to_map o).
Proof.
  induction l as [|k l IH]; intros o Ho; [done|]. destruct (remove_step o k Ho) as [H1 H2]. cbn [fold_left].
  destruct (IH _ H1) as [H3 H4]. split; [done|]. by rewrite H4, H2.
Qed.

(** What the inputs are worth in this UTxO. *)
Definition worth (m : UtxoMap) (k : TxIn) : Z := from_option (out_coin : TxOut -> Z) (0 : Z) (bt_get m k).

Lemma lovelace_spent l : forall m, ordered m -> NoDup l ->
  lovelace (fold_left bt_remove l m) = lovelace m - sum_Z (map (worth m) l).
Proof.
  induction l as [|k l IH]; intros m Hm Hl; cbn [fold_left map]; [rewrite sum_nil; lia|]. apply NoDup_cons in Hl as [Hk Hl].
  rewrite IH by (try apply remove_ordered; done). unfold lovelace. rewrite total_remove by done.
  assert (map (worth (bt_remove m k)) l = map (worth m) l) as ->.
  { apply map_ext_in. intros k' Hin%list_elem_of_In. unfold worth. rewrite get_remove_ne; [done|]. by intros ->. }
  rewrite sum_cons. unfold lovelace, worth. lia.
Qed.

(** * Producing the outputs *)

Definition produced_at (bytes : list Z) (tx_id : Hash32) (idx : Z) (e : BabbageTxOut * (Z * Z)) : TxIn * TxOut :=
  ((tx_id, as_u16 idx), out_of bytes (fst e) (snd e)).

Lemma produce_steps bytes tx_id l : forall o idx, overlay_ok o -> 0 <= idx -> idx + blen l <= 65536 ->
  (forall i, idx <= i < 65536 -> bt_get (to_map o) (tx_id, i) = None) ->
  let r := fold_left (produce_output bytes tx_id) l (o, idx) in
  overlay_ok (fst r) /\ lovelace (to_map (fst r)) = lovelace (to_map o) + sum_Z (map (fun e => out_lovelace (fst e) : Z) l) /\
  (forall k, fst k <> tx_id -> bt_get (to_map (fst r)) k = bt_get (to_map o) k) /\
  (forall i e, list_lookup i l = Some e ->
     bt_get (to_map (fst r)) (tx_id, idx + Z.of_nat i) = Some (out_of bytes (fst e) (snd e))) /\
  (forall i, 0 <= i < 65536 -> i < idx -> bt_get (to_map (fst r)) (tx_id, i) = bt_get (to_map o) (tx_id, i)).
Proof.
  induction l as [|e l IH]; intros o idx Ho Hi Hn Hf; cbn [fold_left fst].
  { split_and!; [done|cbn; lia|done|by intros i e|done]. }
  rewrite blen_cons in Hn. pose proof (blen_nonneg l) as Hl.
  assert (as_u16 idx = idx) as Ei by (apply Z.mod_small; lia).
  cbn [produce_output]. rewrite Ei.
  destruct (insert_step o (tx_id, idx) (out_of bytes (fst e) (snd e)) Ho) as [H1 H2].
  assert (forall i, idx + 1 <= i < 65536 -> bt_get (to_map (overlay_insert o (tx_id, idx) (out_of bytes (fst e) (snd e)))) (tx_id, i) = None) as Hf'.
  { intros i Hr. rewrite H2, get_insert_ne; [apply Hf; lia|]. intros [=]. lia. }
  destruct (IH _ (idx + 1) H1 ltac:(lia) ltac:(lia) Hf') as (R1 & R2 & R3 & R4 & R5). split_and!.
  - done.
  - rewrite R2, H2. unfold lovelace. rewrite total_insert by by apply to_map_ordered. rewrite Hf by lia.
    cbn [map]. rewrite sum_cons. cbn [from_option out_of out_coin]. lia.
  - intros k Hk. rewrite R3, H2, get_insert_ne by (try done; by intros <-). done.
  - intros [|i] e' Hlk.
    + cbn in Hlk. injection Hlk as <-. rewrite Z.add_0_r, R5 by lia. rewrite H2. apply get_insert.
    + cbn in Hlk. rewrite <- (R4 i e' Hlk). f_equal. f_equal. lia.
  - intros i Hr Hlt. rewrite R5 by lia. rewrite H2, get_insert_ne; [done|]. intros [=]. lia.
Qed.

(** * The value equation *)

Definition is_coin (c : Z) : Prop := is_u64 c.

(** Sums of [u64]s over lists that fit in memory do not reach the bounds of [i128]. *)
Definition memory : Z := 1152921504606846976.

Lemma add_i128_exact a b : 0 <= a -> 0 <= b -> a + b <= i128_max -> add_i128 a b = a + b.
Proof. intros Ha Hb Hm. unfold add_i128, sat_i128, i128_min, i128_max in *. lia. Qed.

Lemma sum_coins_bound {A} (f : A -> Z) l : Forall (fun x => is_coin (f x)) l -> 0 <= sum_Z (map f l) <= blen l * u64_max.
Proof.
  induction 1 as [|x l Hx _ IH]; [by split|]. rewrite blen_cons. cbn [map]. rewrite sum_cons. unfold is_coin in Hx. width. lia.
Qed.

Lemma fold_coins {A} (f : A -> Z) l : forall a, 0 <= a -> Forall (fun x => is_coin (f x)) l -> a + blen l * u64_max <= i128_max ->
  fold_left (fun acc x => add_i128 acc (f x)) l a = a + sum_Z (map f l).
Proof.
  induction l as [|x l IH]; intros a Ha Hl Hm; [cbn; lia|]. apply Forall_cons in Hl as [Hx Hl].
  rewrite blen_cons in Hm. pose proof (blen_nonneg l) as Hn. unfold is_coin in Hx. width.
  cbn [fold_left map]. rewrite add_i128_exact by lia. rewrite IH by (done || lia). rewrite sum_cons. lia.
Qed.

(** The coins of the types: all [u64]. *)
Definition coins_of_cert (cert : ConwayCert) : list Z :=
  match cert with
  | AccountRegistrationDeposit _ c | AccountUnregistrationDeposit _ c | StakeRegistrationDelegation _ _ c
  | VoteRegistrationDelegation _ _ c | StakeVoteRegistrationDelegation _ _ _ c | DRepRegistration _ c | DRepUnregistration _ c => [c]
  | _ => []
  end.

Record deposits_sized (params : ConwayDepositParams) (s : CertState) : Prop := mk_deposits_sized {
  key_deposit_sized : is_coin (dp_key_deposit params);
  pool_deposit_sized : is_coin (dp_pool_deposit params);
  recorded_sized k c : bt_get (registrations (delegation s)) k = Some c -> is_coin c;
}.

Lemma classify_sized cert params s d : deposits_sized params s -> Forall is_coin (coins_of_cert cert) ->
  classify cert params s = Ok d -> match d with Accountable (NewDeposit src) | Accountable (Refund src) => is_coin (coin_of src) | _ => True end.
Proof.
  intros Hp Hc. destruct cert; cbn [classify coins_of_cert] in *; try (intros [= <-]; cbn [coin_of];
    first [done|apply Hp|by apply Forall_cons in Hc as [? _]]).
  - destruct (bt_get (registrations _) credential) as [r|] eqn:E; [|done]. intros [= <-]. by apply (recorded_sized _ _ Hp credential).
  - destruct (bt_contains _ _); intros [= <-]; [done|apply Hp].
Qed.

Definition new_of (d : CertDisposition) : Z := match d with Accountable (NewDeposit src) => coin_of src | _ => 0 end.
Definition refund_of (d : CertDisposition) : Z := match d with Accountable (Refund src) => coin_of src | _ => 0 end.

Lemma effect_split d : effect_of d = new_of d - refund_of d.
Proof. destruct d as [[]| |]; cbn; lia. Qed.

Lemma effects_split ds : sum_Z (map effect_of ds) = sum_Z (map new_of ds) - sum_Z (map refund_of ds).
Proof.
  induction ds as [|d ds IH]; [done|]. cbn [map]. rewrite !sum_cons, effect_split. lia.
Qed.

Lemma accounting_exact params s certs : deposits_sized params s -> Forall (fun c => Forall is_coin (coins_of_cert c)) certs ->
  forall new refunded new' refunded', 0 <= new -> 0 <= refunded ->
  new + blen certs * u64_max <= i128_max -> refunded + blen certs * u64_max <= i128_max ->
  accounting_fold certs params s new refunded = Ok (new', refunded') ->
  exists ds, Forall2 (fun c d => classify c params s = Ok d) certs ds /\
    new' = new + sum_Z (map new_of ds) /\ refunded' = refunded + sum_Z (map refund_of ds).
Proof.
  intros Hp. induction 1 as [|cert certs Hc _ IH]; intros new refunded new' refunded' Hn Hr Bn Br H; cbn [accounting_fold] in H.
  { injection H as <- <-. exists []. split_and!; [constructor|cbn; lia|cbn; lia]. }
  rewrite blen_cons in Bn, Br. pose proof (blen_nonneg certs) as Hlen. apply rbind_ok_inv in H as (d & Hd & H).
  pose proof (classify_sized _ _ _ _ Hp Hc Hd) as Hs. unfold is_coin in Hs. width.
  destruct d as [[src|src]| |]; try (rewrite add_i128_exact in H by lia);
    (apply IH in H as (ds & Hds & -> & ->); [|lia..]); eexists (_ :: ds); (split_and!; [by constructor| |]);
    cbn [map]; rewrite sum_cons; cbn [new_of refund_of]; lia.
Qed.

(** The certificates of a body, decoded. *)
Definition certs_of (body : ConwayTxBody) : result (list ConwayCert) LedgerError :=
  match certs body with
  | None => Ok []
  | Some bytes => map_err codec_ledger_error (decode_conway_certs bytes)
  end.

(** What the types and the size of the memory give: coins are [u64]s, and no list has 2^60 elements. *)
Record body_sized (body : ConwayTxBody) : Prop := mk_body_sized {
  fee_sized : is_coin (fee body);
  outputs_sized : Forall (fun o => is_coin (out_lovelace o)) (outputs body);
  donation_sized : is_coin (default 0 (donation body));
  inputs_few : blen (elements (inputs body)) <= memory;
  outputs_few : blen (outputs body) <= memory;
  certs_sized cs : certs_of body = Ok cs -> blen cs <= memory /\ Forall (fun c => Forall is_coin (coins_of_cert c)) cs;
  withdrawn_sized bytes m : withdrawals body = Some bytes -> decode_withdrawals bytes = Ok m ->
    blen m <= memory /\ Forall (fun e => is_coin (snd e)) m;
}.

Lemma withdrawals_sum_exact (m : BTreeMap RewardAccount Coin) : withdrawals_sum m = sum_Z (map (fun e => snd e : Z) m).
Proof.
  unfold withdrawals_sum. assert (forall l a, fold_left (fun s (e : RewardAccount * Coin) => s + snd e) l a = a + sum_Z (map (fun e => snd e : Z) l)) as F.
  { induction l as [|e l IH]; intros a; [cbn; lia|]. cbn [fold_left map]. rewrite IH, sum_cons. lia. }
  rewrite F. lia.
Qed.

Lemma withdrawn_bound body w : body_sized body -> withdrawals_total (withdrawals body) = Ok w -> 0 <= w <= memory * u64_max.
Proof.
  intros Hb. unfold withdrawals_total. destruct (withdrawals body) as [bytes|] eqn:E; [|intros [= <-]; by split].
  intros H. apply rbind_ok_inv in H as (m & Hm & [= <-]). apply map_err_ok in Hm.
  destruct (withdrawn_sized _ Hb bytes m E Hm) as [Hl Hc]. rewrite withdrawals_sum_exact.
  pose proof (sum_coins_bound (fun e => snd e : Z) m Hc). width. nia.
Qed.

Section Conservation.
Context {S : Type} `{UtxoStore S}.

Definition store_sized (utxo : S) : Prop := forall k out, store_get utxo k = Some out -> is_coin (out_coin out).

Lemma input_coin_sized utxo k : store_sized utxo -> is_coin (input_coin utxo k).
Proof. intros Hu. unfold input_coin. destruct (store_get utxo k) eqn:E; [by eapply Hu|by split]. Qed.

Lemma conservation_exact body utxo params s : body_sized body -> store_sized utxo -> deposits_sized params s ->
  check_conway_coin_conservation body utxo params s = Ok tt ->
  exists withdrawn cs ds, withdrawals_total (withdrawals body) = Ok withdrawn /\ certs_of body = Ok cs /\
    Forall2 (fun c d => classify c params s = Ok d) cs ds /\
    sum_Z (map (input_coin utxo) (elements (inputs body))) + withdrawn + sum_Z (map refund_of ds) =
    sum_Z (map (fun o => out_lovelace o : Z) (outputs body)) + fee body + default 0 (donation body) + sum_Z (map new_of ds).
Proof.
  intros Hb Hu Hp Hc. unfold check_conway_coin_conservation in Hc.
  apply rbind_ok_inv in Hc as (w & Hw & Hc). apply rbind_ok_inv in Hc as ([new refunded] & Hd & Hc).
  assert (exists cs ds, certs_of body = Ok cs /\ blen cs <= memory /\ Forall2 (fun c d => classify c params s = Ok d) cs ds /\
    new = sum_Z (map new_of ds) /\ refunded = sum_Z (map refund_of ds) /\
    0 <= new <= memory * u64_max /\ 0 <= refunded <= memory * u64_max) as (cs & ds & Hcs & Hlen & Hds & -> & -> & Bn & Br).
  { unfold cert_deposits_of in Hd. pose proof (certs_sized _ Hb) as Hs. unfold certs_of in *.
    destruct (certs body) as [bytes|]; [|injection Hd as <- <-; by exists [], []].
    apply rbind_ok_inv in Hd as (cs & Hcs & Hd). apply rbind_ok_inv in Hd as (_ & _ & Hd).
    destruct (Hs cs Hcs) as [Hl Hcoins]. pose proof (blen_nonneg cs) as Hn.
    assert (blen cs * u64_max <= i128_max) as Hm by (unfold memory, i128_max in *; width; lia).
    destruct (accounting_exact params s cs Hp Hcoins 0 0 new refunded) as (ds & Hds & -> & ->); [lia..|done|].
    exists cs, ds. assert (blen ds = blen cs) as El by (unfold blen; by rewrite (Forall2_length _ _ _ Hds)).
    assert (Forall (fun d => is_coin (new_of d) /\ is_coin (refund_of d)) ds) as Hcd.
    { clear -Hds Hcoins Hp. induction Hds as [|c d cs ds Hd _ IH]; [constructor|]. apply Forall_cons in Hcoins as [Hc Hcoins].
      constructor; [|by apply IH]. pose proof (classify_sized _ _ _ _ Hp Hc Hd) as Hs. destruct d as [[]| |]; cbn; split; try done; by split. }
    pose proof (sum_coins_bound new_of ds ltac:(eapply Forall_impl; [exact Hcd|by intros ? [? _]])) as B1.
    pose proof (sum_coins_bound refund_of ds ltac:(eapply Forall_impl; [exact Hcd|by intros ? [_ ?]])) as B2.
    rewrite El in B1, B2. unfold memory in *. width. split_and!; [done..|lia|lia|lia|lia|lia|lia]. }
  exists w, cs, ds. split_and!; [done..|].
  pose proof (withdrawn_bound _ _ Hb Hw) as Bw.
  assert (Forall (fun k => is_coin (input_coin utxo k)) (elements (inputs body))) as Hi
    by (apply Forall_forall; intros; by apply input_coin_sized).
  pose proof (sum_coins_bound (input_coin utxo) _ Hi) as Bi. pose proof (inputs_few _ Hb) as Li.
  pose proof (sum_coins_bound out_lovelace _ (outputs_sized _ Hb)) as Bo. pose proof (outputs_few _ Hb) as Lo.
  pose proof (blen_nonneg (elements (inputs body))). pose proof (blen_nonneg (outputs body)).
  pose proof (fee_sized _ Hb) as Bf. pose proof (donation_sized _ Hb) as Bd. unfold is_coin in Bf, Bd.
  unfold memory, i128_max in *. width.
  rewrite (fold_coins (input_coin utxo)) in Hc by (try done; unfold i128_max; width; lia).
  rewrite (fold_coins out_lovelace) in Hc by (try apply Hb; unfold i128_max; width; lia).
  assert ((match donation body with Some d => add_i128 (fee body + sum_Z (map out_lovelace (outputs body))) d
    | None => fee body + sum_Z (map out_lovelace (outputs body)) end) =
    fee body + sum_Z (map out_lovelace (outputs body)) + default 0 (donation body)) as Ed.
  { destruct (donation body); cbn [default from_option id] in *; [|lia]. rewrite add_i128_exact; unfold i128_max; lia. }
  rewrite Ed, (add_i128_exact _ w), (add_i128_exact _ (sum_Z (map refund_of ds))), (add_i128_exact _ (sum_Z (map new_of ds))) in Hc
    by (unfold i128_max; lia).
  destruct (Z.eqb_spec (0 + sum_Z (map (input_coin utxo) (elements (inputs body))) + w + sum_Z (map refund_of ds))
    (fee body + sum_Z (map out_lovelace (outputs body)) + default 0 (donation body) + sum_Z (map new_of ds))) as [He|]; [|done].
  change (map (fun o => out_lovelace o) (outputs body)) with (map out_lovelace (outputs body)). lia.
Qed.
End Conservation.

(** * An accepted transaction *)

Lemma set_is_empty_nil {K} `{TotalOrder K} (s : BTreeSet K) : set_is_empty s = true <-> s = [].
Proof. by destruct s. Qed.

Lemma inputs_present {S} `{UtxoStore S} (ins : BTreeSet TxIn) (utxo : S) : ordered ins ->
  check_inputs_present ins utxo = Ok tt -> forall k, set_contains ins k = true -> contains_key utxo k = true.
Proof.
  intros Ho Hc k Hk. unfold check_inputs_present in Hc. destruct (set_is_empty _) eqn:E; [|done]. apply set_is_empty_nil in E.
  apply contains_get in Hk as [v Hv]. pose proof (get_filter ins (fun e => negb (contains_key utxo (fst e))) k Ho) as Hg.
  rewrite E, Hv in Hg. cbn [fst bt_get] in Hg. by destruct (contains_key utxo k).
Qed.

Lemma required_inputs body k : ordered (inputs body) -> set_contains (inputs body) k = true ->
  set_contains (collect_required_txins body) k = true.
Proof.
  intros Ho Hk. apply elements_contains in Hk; [|done]. unfold collect_required_txins, set_of.
  destruct (reference_inputs body), (collateral_inputs body); rewrite !extend_contains, ?(bool_decide_eq_true_2 (k ∈ elements (inputs body))) by done;
    by rewrite ?orb_true_r.
Qed.

Lemma required_ordered body : ordered (collect_required_txins body).
Proof.
  unfold collect_required_txins. destruct (reference_inputs body), (collateral_inputs body); repeat apply set_ordered; constructor.
Qed.

Lemma removed_get (l : list TxIn) : forall (m : UtxoMap) k, k ∈ l -> bt_get (fold_left bt_remove l m) k = None.
Proof. intros m k Hk. rewrite remove_list_get. by rewrite bool_decide_eq_true_2. Qed.

(** The UTxO after a transaction whose outputs are sliced. *)
Lemma applied_utxo u body bytes tx_id o : overlay_ok (utxos u) -> ordered (inputs body) -> bytes_ok bytes ->
  decode_conway_tx_body bytes 0 = (Ok body, o) -> (forall i, overlay_get (utxos u) (tx_id, i) = None) ->
  blen (outputs body) <= 65536 ->
  exists u', apply_conway_tx_to_utxo u body bytes tx_id = Ok u' /\ overlay_ok (utxos u') /\
    lovelace (to_map (utxos u')) = lovelace (to_map (utxos u)) - sum_Z (map (worth (to_map (utxos u))) (elements (inputs body)))
      + sum_Z (map out_lovelace (outputs body)) /\
    (forall k, fst k <> tx_id -> k ∈ elements (inputs body) -> overlay_get (utxos u') k = None) /\
    (forall k, fst k <> tx_id -> k ∉ elements (inputs body) -> overlay_get (utxos u') k = overlay_get (utxos u) k) /\
    (forall i out, list_lookup i (outputs body) = Some out ->
       exists raw, overlay_get (utxos u') (tx_id, Z.of_nat i) = Some (Out_AlonzoPlus raw (out_address out) (out_lovelace out))).
Proof.
  intros Ho Hi Hd Hdec Hf Hn. destruct (slices_enough _ _ _ Hd Hdec) as (s & Hs & Hlen).
  unfold apply_conway_tx_to_utxo, locate_alonzo_plus_output_slices. rewrite Hs. cbn [rbind].
  destruct (remove_steps (elements (inputs body)) (utxos u) Ho) as [R1 R2].
  set (spent := fold_left (fun u i => snd (overlay_remove u i)) (elements (inputs body)) (utxos u)) in *.
  assert (forall (k : TxIn), k ∉ elements (inputs body) -> bt_get (to_map spent) k = overlay_get (utxos u) k) as Hkeep.
  { intros k Hk. rewrite R2, remove_list_get, bool_decide_eq_false_2 by done. by apply to_map_get. }
  assert (forall i, bt_get (to_map spent) (tx_id, i) = None) as Hfresh.
  { intros i. rewrite R2, remove_list_get. case_bool_decide; [done|]. by rewrite to_map_get. }
  assert (map fst (List.combine (outputs body) (slice_outputs s)) = outputs body) as Ec.
  { apply fst_zip. unfold blen in Hlen. lia. }
  destruct (produce_steps bytes tx_id (List.combine (outputs body) (slice_outputs s)) spent 0 R1 ltac:(lia)) as (P1 & P2 & P3 & P4 & _).
  { rewrite <- Ec in Hn. unfold blen in *. rewrite length_map in Hn. lia. }
  { intros i _. apply Hfresh. }
  eexists. split; [done|]. cbn [utxos]. split_and!.
  - done.
  - rewrite P2, R2, lovelace_spent by (first [by apply to_map_ordered|by apply elements_nodup]).
    rewrite <- Ec at 2. by rewrite map_map.
  - intros k Hne Hk. rewrite <- to_map_get, P3 by done. rewrite R2. by apply removed_get.
  - intros k Hne Hk. rewrite <- to_map_get, P3 by done. by apply Hkeep.
  - intros i out Hlk. rewrite <- Ec in Hlk. apply (list_lookup_fmap_Some fst) in Hlk as ([out' sl] & -> & El).
    rewrite <- to_map_get by done. specialize (P4 i _ El). rewrite Z.add_0_l in P4. eexists. by rewrite P4.
Qed.

(** What the composer lets through. *)
Lemma validated {S} `{UtxoStore S} body (utxo : S) wi pct net pv ex params s :
  validate_conway_state_backed body utxo wi pct net pv ex params s = Ok tt ->
  check_inputs_present (collect_required_txins body) utxo = Ok tt /\
  check_collateral body utxo pct = Ok tt /\
  check_conway_coin_conservation body utxo params s = Ok tt.
Proof.
  unfold validate_conway_state_backed. intros Hv.
  do 5 (apply rbind_ok_inv in Hv as ([] & ? & Hv)). apply rbind_ok_inv in Hv as ([] & _ & Hv).
  apply rbind_ok_inv in Hv as ([] & ? & Hv). by split_and!.
Qed.

Lemma worth_input u k : overlay_ok u -> worth (to_map u) k = input_coin u k.
Proof. intros Ho. unfold worth, input_coin. rewrite to_map_get by done. cbn [store_get overlay_store]. by destruct (overlay_get u k). Qed.

