(* ===== verification/TxSigners.v ===== *)
(** The closed enumeration of the keys that must sign a Conway transaction
    ([ade_ledger/src/tx_validity/required_signers.rs]): the walks over the raw withdrawals,
    certificates and voting procedures, and the payment keys of the resolved inputs.

    A walk calls its [sink] on every credential; here it returns them in that order.  On an error the
    caller drops what was collected, so nothing is lost. *)

From S2P Require Import Prelude Cbor CborSkip CborPrefix Envelope NetCodec Spelling Decoder EraSchedule Leader BTree BlockCodec BlockFacts NativeScript.
From S2P Require Import LedgerValue Utxo LedgerMaps ConwayCert Governance ConwayTx Witness UtxoEffect ConwaySpans.

(** * Readers with the field in their error *)

Section Field.
Variable field : RequiredSignerField.

(** [reader(data, offset).map_err(|_| MalformedField { field, offset: *offset })?] *)
Definition in_field {A} (m : PDec CodecError A) : PDec RequiredSignerError A := fun data off =>
  match m data off with (Ok a, o) => (Ok a, o) | (Err _, o) => (Err (MalformedField field o), o) end.
Definition malformed {A} : PDec RequiredSignerError A := fun _ off => (Err (MalformedField field off), off).

Definition field_tag : PDec RequiredSignerError unit := in_field skip_leading_tag.
Definition field_array : PDec RequiredSignerError ContainerEncoding := in_field (plift id read_array_header).
Definition field_map : PDec RequiredSignerError ContainerEncoding := in_field (plift id read_map_header).
Definition field_uint : PDec RequiredSignerError Z := in_field read_u64v.
Definition field_bytes : PDec RequiredSignerError (list Z) := in_field read_bytesv.
Definition field_skip : PDec RequiredSignerError (Z * Z) := in_field skip_one.

Definition read_raw_hash28 : PDec RequiredSignerError Hash28 :=
  dec! h := field_bytes in
  if blen h =? 28 then pret h else malformed.

(** [iterate] *)
Definition iterate {A} (enc : ContainerEncoding) (process : PDec RequiredSignerError A) : PDec RequiredSignerError (list A) :=
  match enc with
  | Definite n _ => pcollect (Z.to_nat n) process
  | Indefinite => dec! xs := nwhile (in_field at_break) process in consume_break xs
  end.

(** The elements after the first [consumed]. *)
Definition drain_array_tail (enc : ContainerEncoding) (consumed : Z) : PDec RequiredSignerError unit :=
  match enc with
  | Definite n _ =>
      if n <? consumed then malformed else
      dec! _ := pcollect (Z.to_nat (n - consumed)) field_skip in pret tt
  | Indefinite => dec! _ := nwhile (in_field at_break) field_skip in consume_break tt
  end.
End Field.

(** * Credentials *)

Inductive Credential : Type := Cred_Key (h : Hash28) | Cred_Script (h : Hash28).

Definition read_credential : PDec RequiredSignerError Credential :=
  dec! enc := field_array Field_Certificates in
  dec! tag := field_uint Field_Certificates in
  dec! result := match tag with
                 | 0 => dec! h := read_raw_hash28 Field_Certificates in pret (Cred_Key h)
                 | 1 => dec! h := read_raw_hash28 Field_Certificates in pret (Cred_Script h)
                 | _ => malformed Field_Certificates
                 end in
  dec! _ := drain_array_tail Field_Certificates enc 2 in
  pret result.

(** * Certificates *)

(** Operator and owners; seven items. *)
Definition walk_pool_registration_keys : PDec RequiredSignerError (list Credential) :=
  dec! operator := read_raw_hash28 Field_Certificates in
  dec! _ := field_skip Field_Certificates in
  dec! _ := field_skip Field_Certificates in
  dec! _ := field_skip Field_Certificates in
  dec! _ := field_skip Field_Certificates in
  dec! _ := field_skip Field_Certificates in
  dec! _ := field_tag Field_Certificates in
  dec! enc := field_array Field_Certificates in
  dec! owners := iterate Field_Certificates enc (read_raw_hash28 Field_Certificates) in
  pret (map Cred_Key (operator :: owners)).

(** The credentials and the items read after the tag. *)
Definition walk_cert_fields (tag : Z) : PDec RequiredSignerError (list Credential * Z) :=
  match tag with
  | 0 | 5 | 6 => pret ([], 1)
  | 1 | 2 | 7 | 8 | 9 | 10 | 11 | 12 | 13 => dec! c := read_credential in pret ([c], 2)
  | 3 => dec! cs := walk_pool_registration_keys in pret (cs, 8)
  | 4 => dec! h := read_raw_hash28 Field_Certificates in pret ([Cred_Key h], 2)
  | 14 | 15 | 16 | 17 | 18 => dec! c := read_credential in pret ([c], 2)
  | _ => malformed Field_Certificates
  end.

Definition walk_one_certificate : PDec RequiredSignerError (list Credential) :=
  dec! enc := field_array Field_Certificates in
  dec! tag := field_uint Field_Certificates in
  dec! (cs, consumed) := walk_cert_fields tag in
  dec! _ := drain_array_tail Field_Certificates enc consumed in
  pret cs.

Definition walk_certificate_credentials (data : list Z) : result (list Credential) RequiredSignerError :=
  fst ((dec! _ := field_tag Field_Certificates in
        dec! enc := field_array Field_Certificates in
        dec! cs := iterate Field_Certificates enc walk_one_certificate in
        pret (concat cs)) data 0).

(** * Withdrawals *)

Definition walk_withdrawal_accounts (data : list Z) : result (list (list Z)) RequiredSignerError :=
  fst ((dec! _ := field_tag Field_Withdrawals in
        dec! enc := field_map Field_Withdrawals in
        iterate Field_Withdrawals enc
          (dec! account := field_bytes Field_Withdrawals in
           dec! _ := field_skip Field_Withdrawals in
           pret account)) data 0).

Definition credential_of (header : Z) (h : Hash28) : Credential :=
  if Z.land header 0x10 =? 0 then Cred_Key h else Cred_Script h.

Definition reward_account_credential (reward_account : list Z) : result Credential RequiredSignerError :=
  match reward_account with
  | [] => Err (MalformedField Field_Withdrawals 0)
  | header :: _ =>
      if blen reward_account <? 29 then Err (MalformedField Field_Withdrawals 1)
      else Ok (credential_of header (slice reward_account 1 29))
  end.

Fixpoint account_credentials (accounts : list (list Z)) : result (list Credential) RequiredSignerError :=
  match accounts with
  | [] => Ok []
  | a :: accounts =>
      let? c := reward_account_credential a in
      let? cs := account_credentials accounts in
      Ok (c :: cs)
  end.

Definition walk_withdrawal_credentials (data : list Z) : result (list Credential) RequiredSignerError :=
  let? accounts := walk_withdrawal_accounts data in account_credentials accounts.

(** * Voters *)

Definition walk_voter : PDec RequiredSignerError Credential :=
  dec! v_enc := field_array Field_VotingProcedures in
  dec! tag := field_uint Field_VotingProcedures in
  dec! hash := match tag with
               | 0 | 1 | 2 | 3 | 4 => read_raw_hash28 Field_VotingProcedures
               | _ => malformed Field_VotingProcedures
               end in
  dec! _ := drain_array_tail Field_VotingProcedures v_enc 2 in
  dec! _ := field_skip Field_VotingProcedures in
  pret (if (tag =? 1) || (tag =? 3) then Cred_Script hash else Cred_Key hash).

Definition walk_voter_credentials (data : list Z) : result (list Credential) RequiredSignerError :=
  fst ((dec! _ := field_tag Field_VotingProcedures in
        dec! enc := field_map Field_VotingProcedures in
        iterate Field_VotingProcedures enc walk_voter) data 0).

(** * Payment credentials *)

(** Only a key-hash credential of a Shelley address asks for a signature. *)
Definition payment_key_hash (address : list Z) : result (option Hash28) RequiredSignerError :=
  match address with
  | [] => Err (MalformedField Field_OutputAddress 0)
  | header :: _ =>
      if Z.shiftr header 4 <=? 7 then
        if negb (Z.land header 0x10 =? 0) then Ok None else
        if blen address <? 29 then Err (MalformedField Field_OutputAddress 1) else Ok (Some (slice address 1 29))
      else Ok None
  end.

(** * The enumeration *)

Record ResolvedOutput : Type := mk_ResolvedOutput { resolved_address : list Z }.
Definition ResolvedInputs : Type := BTreeMap TxIn ResolvedOutput.

Definition require (req : RequiredSigners) (source : SignerSource) (key : Hash28) : RequiredSigners :=
  mk_RequiredSigners (set_insert (keys req) key) (set_insert (provenance req) (source, key)).
Definition no_signers : RequiredSigners := mk_RequiredSigners [] [].

Fixpoint require_inputs (source : SignerSource) (resolved_inputs : ResolvedInputs) (l : list TxIn) (req : RequiredSigners) :
    result RequiredSigners RequiredSignerError :=
  match l with
  | [] => Ok req
  | input :: l =>
      let? out := ok_or (bt_get resolved_inputs input) (UnresolvableInput input) in
      let? kh := payment_key_hash (resolved_address out) in
      require_inputs source resolved_inputs l (match kh with Some kh => require req source kh | None => req end)
  end.

(** The sinks: a script credential asks for no signature. *)
Definition require_key (source : SignerSource) (req : RequiredSigners) (c : Credential) : RequiredSigners :=
  match c with Cred_Key h => require req source h | Cred_Script _ => req end.
Definition collect_keys (source : SignerSource) (walk : list Z -> result (list Credential) RequiredSignerError)
    (field : option (list Z)) (req : RequiredSigners) : result RequiredSigners RequiredSignerError :=
  match field with
  | None => Ok req
  | Some data => let? cs := walk data in Ok (fold_left (require_key source) cs req)
  end.

Definition require_explicit (body : ConwayTxBody) (req : RequiredSigners) : RequiredSigners :=
  match ConwayTx.required_signers body with
  | None => req
  | Some signers => fold_left (fun r h => require r ExplicitRequiredSigner h) (elements signers) req
  end.

(** The sources that need no UTxO. *)
Definition require_from_body (body : ConwayTxBody) (req : RequiredSigners) : result RequiredSigners RequiredSignerError :=
  let req := require_explicit body req in
  let? req := collect_keys WithdrawalKey walk_withdrawal_credentials (withdrawals body) req in
  let? req := collect_keys CertificateKey walk_certificate_credentials (certs body) req in
  collect_keys GovernanceVoter walk_voter_credentials (voting_procedures body) req.

Definition required_signers (body : ConwayTxBody) (resolved_inputs : ResolvedInputs) (era : CardanoEra) :
    result RequiredSigners RequiredSignerError :=
  if negb (bool_decide (era = Conway)) then Err (UnsupportedEra era) else
  let? req := require_inputs InputPaymentKey resolved_inputs (elements (inputs body)) no_signers in
  let? req := match collateral_inputs body with
              | None => Ok req
              | Some collateral => require_inputs CollateralPaymentKey resolved_inputs (elements collateral) req
              end in
  require_from_body body req.

Definition tx_derived_required_signers (body : ConwayTxBody) (era : CardanoEra) : result RequiredSigners RequiredSignerError :=
  if negb (bool_decide (era = Conway)) then Err (UnsupportedEra era) else
  require_from_body body no_signers.

(** * Who must sign, as a predicate *)

Definition demanded (req : RequiredSigners) (k : Hash28) : Prop := set_contains (keys req) k = true.

Lemma demanded_require req source k k' : demanded (require req source k) k' <-> k' = k \/ demanded req k'.
Proof.
  unfold demanded, require. cbn [keys]. unfold set_contains, set_insert. rewrite contains_insert, orb_true_iff, bool_decide_eq_true.
  intuition congruence.
Qed.

Lemma demanded_keys source cs : forall req k, demanded (fold_left (require_key source) cs req) k <-> Cred_Key k ∈ cs \/ demanded req k.
Proof.
  induction cs as [|c cs IH]; intros req k; cbn [fold_left].
  - split; [by right|by intros [?%elem_of_nil|]].
  - rewrite IH, elem_of_cons. destruct c as [h|h]; cbn [require_key]; [rewrite demanded_require|]; intuition congruence.
Qed.

Lemma demanded_collect source walk field req req' : collect_keys source walk field req = Ok req' -> forall k,
  demanded req' k <-> (exists data cs, field = Some data /\ walk data = Ok cs /\ Cred_Key k ∈ cs) \/ demanded req k.
Proof.
  unfold collect_keys. destruct field as [data|]; intros H k.
  - apply rbind_ok_inv in H as (cs & Hw & [= <-]). rewrite demanded_keys. split.
    + intros [?|?]; [left; by exists data, cs|by right].
    + intros [(d & cs' & [= <-] & Hw' & Hin)|?]; [|by right]. left. congruence.
  - injection H as <-. split; [by right|by intros [(? & ? & ? & _)|]].
Qed.

Lemma demanded_explicit body req k : demanded (require_explicit body req) k <->
  (exists signers, ConwayTx.required_signers body = Some signers /\ k ∈ elements signers) \/ demanded req k.
Proof.
  unfold require_explicit. destruct (ConwayTx.required_signers body) as [signers|]; [|split; [by right|by intros [(? & ? & _)|]]].
  assert (H : forall l req, demanded (fold_left (fun r h => require r ExplicitRequiredSigner h) l req) k <-> k ∈ l \/ demanded req k).
  { induction l as [|h l IH]; intros r; cbn [fold_left]; [split; [by right|by intros [?%elem_of_nil|]]|].
    rewrite IH, elem_of_cons, demanded_require. intuition. }
  rewrite H. split; [intros [?|?]; [left; by exists signers|by right]|intros [(s & [= <-] & ?)|?]; [by left|by right]].
Qed.

(** A key that the body alone demands. *)
Definition body_demands (body : ConwayTxBody) (k : Hash28) : Prop :=
  (exists signers, ConwayTx.required_signers body = Some signers /\ k ∈ elements signers) \/
  (exists data cs, withdrawals body = Some data /\ walk_withdrawal_credentials data = Ok cs /\ Cred_Key k ∈ cs) \/
  (exists data cs, certs body = Some data /\ walk_certificate_credentials data = Ok cs /\ Cred_Key k ∈ cs) \/
  (exists data cs, voting_procedures body = Some data /\ walk_voter_credentials data = Ok cs /\ Cred_Key k ∈ cs).

Lemma demanded_body body req req' : require_from_body body req = Ok req' -> forall k,
  demanded req' k <-> body_demands body k \/ demanded req k.
Proof.
  intros H k. unfold require_from_body in H. apply rbind_ok_inv in H as (r1 & H1 & H). apply rbind_ok_inv in H as (r2 & H2 & H3).
  rewrite (demanded_collect _ _ _ _ _ H3), (demanded_collect _ _ _ _ _ H2), (demanded_collect _ _ _ _ _ H1), demanded_explicit.
  unfold body_demands. tauto.
Qed.

(** A key that owns one of the outputs. *)
Definition owns (resolved_inputs : ResolvedInputs) (l : list TxIn) (k : Hash28) : Prop :=
  exists input out, input ∈ l /\ bt_get resolved_inputs input = Some out /\ payment_key_hash (resolved_address out) = Ok (Some k).

Lemma demanded_inputs source resolved_inputs l : forall req req', require_inputs source resolved_inputs l req = Ok req' -> forall k,
  demanded req' k <-> owns resolved_inputs l k \/ demanded req k.
Proof.
  induction l as [|i l IH]; intros req req' H k; cbn [require_inputs] in H.
  - injection H as <-. split; [by right|by intros [(? & ? & ?%elem_of_nil & _)|]].
  - apply rbind_ok_inv in H as (out & Ho & H). apply ok_or_ok in Ho. apply rbind_ok_inv in H as (kh & Hk & H).
    rewrite (IH _ _ H). assert (owns resolved_inputs (i :: l) k <-> kh = Some k \/ owns resolved_inputs l k) as ->.
    { unfold owns. split.
      - intros (j & o & [->|Hj]%elem_of_cons & Hg & Hp); [left; congruence|right; by exists j, o].
      - intros [->|(j & o & Hj & Hg & Hp)]; [exists i, out|exists j, o]; (split; [set_solver|done]). }
    destruct kh as [h|]; [rewrite demanded_require|]; intuition congruence.
Qed.

Lemma required_signers_exact body resolved_inputs req : required_signers body resolved_inputs Conway = Ok req -> forall k,
  demanded req k <-> owns resolved_inputs (elements (inputs body)) k \/
    owns resolved_inputs (elements (default [] (collateral_inputs body))) k \/ body_demands body k.
Proof.
  intros H k. unfold required_signers in H. rewrite bool_decide_eq_true_2 in H by done. cbn [negb] in H.
  apply rbind_ok_inv in H as (r1 & H1 & H). apply rbind_ok_inv in H as (r2 & H2 & H).
  rewrite (demanded_body _ _ _ H). assert (~ demanded no_signers k) as Hn by done.
  destruct (collateral_inputs body) as [col|]; cbn [default].
  - rewrite (demanded_inputs _ _ _ _ _ H2), (demanded_inputs _ _ _ _ _ H1). tauto.
  - injection H2 as <-. rewrite (demanded_inputs _ _ _ _ _ H1). assert (~ owns resolved_inputs (elements []) k) by (by intros (? & ? & ?%elem_of_nil & _)).
    tauto.
Qed.

(** * Two readings of the same bytes *)

(** Where both readers succeed they end together, with related values. *)
Definition agree {E1 E2 A B} (R : A -> B -> Prop) (m1 : PDec E1 A) (m2 : PDec E2 B) : Prop := forall data off a o1 b o2,
  bytes_ok data -> 0 <= off -> m1 data off = (Ok a, o1) -> m2 data off = (Ok b, o2) -> R a b /\ o1 = o2 /\ 0 <= o1.

Section Agree.
Context {E1 E2 A B : Type} (R : A -> B -> Prop) (m1 : PDec E1 A) (m2 : PDec E2 B).
Hypothesis Hm : agree R m1 m2.

Lemma agree_collect n : agree (Forall2 R) (pcollect n m1) (pcollect n m2).
Proof.
  induction n as [|n IH]; intros data off l o1 k o2 Hd Ho H1 H2; cbn [pcollect] in *.
  - injection H1 as <- <-. by injection H2 as <- <-.
  - apply pbind_inv in H1 as (a & p1 & Ha & H1). apply pbind_inv in H1 as (l' & q1 & Hl & [= <- <-]).
    apply pbind_inv in H2 as (b & p2 & Hb & H2). apply pbind_inv in H2 as (k' & q2 & Hk & [= <- <-]).
    destruct (Hm _ _ _ _ _ _ Hd Ho Ha Hb) as (Hr & <- & Hp). destruct (IH _ _ _ _ _ _ Hd Hp Hl Hk) as (Hrs & <- & Hq).
    split_and!; [by constructor|done|done].
Qed.

Context (h1 : PDec E1 bool) (h2 : PDec E2 bool).
Hypothesis H1 : forall data off b o, h1 data off = (Ok b, o) -> is_break data off = Ok b /\ o = off.
Hypothesis H2 : forall data off b o, h2 data off = (Ok b, o) -> is_break data off = Ok b /\ o = off.

Lemma agree_loop data fuel : bytes_ok data -> forall off, 0 <= off ->
  match nloop fuel h1 m1 data off, nloop fuel h2 m2 data off with
  | Some (Ok l, o1), Some (Ok k, o2) => Forall2 R l k /\ o1 = o2 /\ 0 <= o1
  | Some (Ok _, _), None | None, Some (Ok _, _) => False
  | _, _ => True
  end.
Proof.
  intros Hd. induction fuel as [|fuel IH]; intros off Ho; cbn [nloop]; [done|].
  destruct (h1 data off) as [[b1|e] p1] eqn:Eh1, (h2 data off) as [[b2|e'] p2] eqn:Eh2;
    try (by repeat case_match).
  apply H1 in Eh1 as [Eb1 ->]. apply H2 in Eh2 as [Eb2 ->]. rewrite Eb1 in Eb2. injection Eb2 as <-.
  destruct b1; [by split_and!|].
  destruct (m1 data off) as [[a|e] p1] eqn:Ea, (m2 data off) as [[b|e'] p2] eqn:Eb; try (by repeat case_match).
  destruct (Hm _ _ _ _ _ _ Hd Ho Ea Eb) as (Hr & <- & Hp). specialize (IH p1 Hp).
  destruct (nloop fuel h1 m1 data p1) as [[[l|e] o1]|], (nloop fuel h2 m2 data p1) as [[[k|e'] o2]|]; try done.
  destruct IH as (Hrs & <- & Hq). split_and!; [by constructor|done|done].
Qed.

Lemma agree_while : agree (Forall2 R) (nwhile h1 m1) (nwhile h2 m2).
Proof.
  intros data off l o1 k o2 Hd Ho E1' E2'. unfold nwhile in *.
  pose proof (agree_loop data (S (Z.to_nat (blen data - off))) Hd off Ho) as H.
  destruct (nloop _ h1 m1 data off) as [[[l'|e] p1]|], (nloop _ h2 m2 data off) as [[[k'|e'] p2]|]; try done.
  - injection E1' as -> ->. by injection E2' as -> ->.
  - injection E1' as <- <-. by injection E2' as <- <-.
Qed.
End Agree.

Lemma in_field_ok {A} f (m : PDec CodecError A) data off a o : in_field f m data off = (Ok a, o) <-> m data off = (Ok a, o).
Proof. unfold in_field. destruct (m data off) as [[a'|e] o']; split; congruence. Qed.

Lemma field_break f data off b o : in_field f at_break data off = (Ok b, o) -> is_break data off = Ok b /\ o = off.
Proof. rewrite in_field_ok. by intros [= -> ->]. Qed.
Lemma plain_break data off b o : at_break data off = (Ok b, o) -> is_break data off = Ok b /\ o = off.
Proof. by intros [= -> ->]. Qed.

(** A list of elements, through either layer. *)
Lemma agree_elements {A B} (R : A -> B -> Prop) f (m1 : PDec RequiredSignerError A) (m2 : PDec CodecError B) : agree R m1 m2 ->
  agree (Forall2 R) (dec! enc := field_array f in iterate f enc m1) (read_elements m2).
Proof.
  intros Hm data off l o1 k o2 Hd Ho H1 H2. apply pbind_inv in H1 as (enc & p1 & Hp1 & H1). apply in_field_ok in Hp1.
  apply pbind_inv in H2 as (enc' & p2 & Hp2 & H2). rewrite Hp1 in Hp2. injection Hp2 as <- <-.
  pose proof (forward_array data off enc p1 Hd Ho Hp1) as Hp. destruct enc as [n w|]; cbn [iterate] in H1.
  - apply (agree_collect R m1 m2 Hm (Z.to_nat n) data p1); [done|lia|done|done].
  - apply pbind_inv in H1 as (l' & q1 & H1 & [= <- <-]). apply pbind_inv in H2 as (k' & q2 & H2 & [= <- <-]).
    destruct (agree_while R m1 m2 Hm _ _ (field_break f) plain_break data p1 _ _ _ _ Hd ltac:(lia) H1 H2) as (Hr & <- & Hq).
    split_and!; [done|done|lia].
Qed.

(** Items skipped where the other reading decodes them. *)
Lemma agree_skip {B} f (m2 : PDec CodecError B) : spans 1 m2 -> agree (fun _ _ => True) (field_skip f) m2.
Proof.
  intros Hs data off a o1 b o2 Hd Ho H1 H2. apply in_field_ok in H1. apply spans_skip in H1; [|done..]. apply Hs in H2; [|done..].
  apply one_of_items in H1, H2. split; [done|]. pose proof (item_end _ _ _ Hd Ho H1).
  split; [by eapply item_det|lia].
Qed.

Lemma agree_hash f : agree eq (read_raw_hash28 f) read_hash28.
Proof.
  intros data off a o1 b o2 Hd Ho H1 H2. apply pbind_inv in H1 as (h & p1 & Hp & H1). apply in_field_ok in Hp.
  apply pbind_inv in H2 as (h' & p2 & Hp' & H2). rewrite Hp in Hp'. injection Hp' as <- <-.
  destruct (blen h =? 28); [|done]. injection H1 as <- <-. injection H2 as <- <-.
  split_and!; [done|done|]. pose proof (forward_spans _ (spans_string id) _ _ _ _ Hd Ho Hp). lia.
Qed.

Lemma agree_bind {E1 E2 A B A' B'} (R : A -> B -> Prop) (R' : A' -> B' -> Prop) (m1 : PDec E1 A) (m2 : PDec E2 B)
    (k1 : A -> PDec E1 A') (k2 : B -> PDec E2 B') :
  agree R m1 m2 -> (forall a b, R a b -> agree R' (k1 a) (k2 b)) -> agree R' (pbind m1 k1) (pbind m2 k2).
Proof.
  intros Hm Hk data off a o1 b o2 Hd Ho H1 H2. apply pbind_inv in H1 as (x & p1 & Hx & H1). apply pbind_inv in H2 as (y & p2 & Hy & H2).
  destruct (Hm _ _ _ _ _ _ Hd Ho Hx Hy) as (Hr & <- & Hp). by eapply Hk.
Qed.
Lemma agree_ret {E1 E2 A B} (R : A -> B -> Prop) (a : A) (b : B) : R a b -> agree R (pret (E := E1) a) (pret (E := E2) b).
Proof. intros Hr data off a' o1 b' o2 Hd Ho [= <- <-] [= <- <-]. by split_and!. Qed.

(** * Certificates: the walk names the keys of the decoded certificates *)

Definition stake_credential (c : StakeCredential) : Credential :=
  match c with KeyHash h => Cred_Key h | ScriptHash h => Cred_Script h end.

(** Whose witness a certificate needs. *)
Definition cert_credentials (cert : ConwayCert) : list Credential :=
  match cert with
  | AccountRegistration _ | RemovedInConway _ => []
  | PoolRegistration c => map Cred_Key (reg_pool_id c :: reg_owners c)
  | PoolRetirement p _ => [Cred_Key p]
  | AccountUnregistration c | StakeDelegation c _ | AccountRegistrationDeposit c _ | AccountUnregistrationDeposit c _
  | VoteDelegation c _ | StakeVoteDelegation c _ _ | StakeRegistrationDelegation c _ _ | VoteRegistrationDelegation c _ _
  | StakeVoteRegistrationDelegation c _ _ _ | AuthCommitteeHot c _ | ResignCommitteeCold c
  | DRepRegistration c _ | DRepUnregistration c _ | DRepUpdate c => [stake_credential c]
  end.

Lemma agree_credential : agree (fun c s => c = stake_credential s) read_credential decode_stake_credential.
Proof.
  intros data off c o1 s o2 Hd Ho H1 H2.
  apply pbind_inv in H2 as ([] & p1 & Hp & H2). apply pbind_inv in Hp as (enc' & p & Hp & He).
  apply pbind_inv in H1 as (enc & p' & Hp' & H1). apply in_field_ok in Hp'. rewrite Hp in Hp'. injection Hp' as <- <-.
  destruct enc' as [m w|]; [|done]. destruct (Z.eqb_spec m 2) as [->|]; [|done]. injection He as <-.
  pose proof (forward_array _ _ _ _ Hd Ho Hp) as Hle.
  apply pbind_inv in H2 as (co & q & [= <- <-] & H2). apply pbind_inv in H2 as (t & q & Hq & H2).
  apply pbind_inv in H1 as (t' & q' & Hq' & H1). apply in_field_ok in Hq'. rewrite Hq in Hq'. injection Hq' as <- <-.
  assert (0 <= p) as Hp0 by lia. pose proof (forward_spans _ (spans_value id) _ _ _ _ Hd Hp0 Hq) as Hle'.
  apply pbind_inv in H2 as (h & r & Hr & H2). apply pbind_inv in H1 as (c' & r' & Hc & H1).
  apply pbind_inv in H1 as ([] & r2 & Hdr & [= <- <-]).
  assert (Hh : forall h' r'', read_raw_hash28 Field_Certificates data q = (Ok h', r'') -> h' = h /\ r'' = r /\ 0 <= r).
  { intros h' r'' E. destruct (agree_hash Field_Certificates data q h' r'' h r Hd (Z.le_trans _ _ _ Hp0 Hle') E Hr) as (-> & -> & ?). done. }
  cbn [drain_array_tail Z.ltb Z.compare Pos.compare Pos.compare_cont] in Hdr. change (Z.to_nat (2 - 2)) with O in Hdr.
  injection Hdr as <-.
  destruct (Z.eqb_spec t 0) as [->|]; [|destruct (Z.eqb_spec t 1) as [->|]; [|done]];
    injection H2 as <- <-; apply pbind_inv in Hc as (h' & r2 & Hh' & [= <- <-]);
    destruct (Hh _ _ Hh') as (-> & -> & ?); by split_and!.
Qed.

Lemma agree_tag f : agree eq (field_tag f) skip_leading_tag.
Proof.
  intros data off [] o1 [] o2 Hd Ho H1 H2. apply in_field_ok in H1. rewrite H1 in H2. injection H2 as <-. split_and!; [done..|].
  unfold skip_leading_tag, skip_set_tag in H1. destruct (off <? blen data); [|by injection H1 as <-].
  destruct (peek_major data off) as [m|]; [|done]. destruct (m =? 6); [|by injection H1 as <-].
  apply pbind_inv in H1 as (tg & q & Hq & [= <-]). unfold plift in Hq.
  destruct (read_tag data off) as [[tg'|] q'] eqn:Et; [|done]. injection Hq as -> ->.
  apply tag_head in Et. pose proof (read_head_bound _ _ _ _ Hd Ho Et). lia.
Qed.

(** [read_addr_keyhash_set] peeks without the bounds check, which only matters at the end of the input. *)
Lemma skip_tags data off o : skip_set_tag data off = (Ok tt, o) -> skip_leading_tag data off = (Ok tt, o).
Proof.
  unfold skip_leading_tag. destruct (Z.ltb_spec off (blen data)); [done|]. unfold skip_set_tag, peek_major, peek_byte, byte_at.
  destruct (Z.ltb_spec off (blen data)); [lia|]. rewrite andb_false_r. done.
Qed.

Lemma agree_owners : agree eq
  (dec! _ := field_tag Field_Certificates in
   dec! enc := field_array Field_Certificates in
   iterate Field_Certificates enc (read_raw_hash28 Field_Certificates)) read_addr_keyhash_set.
Proof.
  intros data off l o1 k o2 Hd Ho H1 H2. unfold read_addr_keyhash_set in H2. apply pbind_inv in H2 as ([] & p & Hp & H2).
  apply skip_tags in Hp. apply pbind_inv in H1 as ([] & p' & Hp' & H1).
  destruct (agree_tag _ _ _ _ _ _ _ Hd Ho Hp' Hp) as (_ & -> & Hq).
  destruct (agree_elements eq _ _ _ (agree_hash Field_Certificates) _ _ _ _ _ _ Hd Hq H1 H2) as (Hr & <- & ?).
  split_and!; [|done|done]. clear -Hr. by induction Hr; subst.
Qed.

Lemma spans_margin : spans 1 (dec! _ := plift (E := CodecError) id read_tag in
  dec! _ := array_of 2 "pool margin must be array(2)" in
  dec! margin_num := read_u64v in
  dec! margin_den := read_u64v in
  pret (margin_num, margin_den)).
Proof.
  intros data off b o Hd Ho H. apply pbind_inv in H as (tg & o1 & H1 & H). unfold plift in H1.
  destruct (read_tag data off) as [[tg'|] q'] eqn:Et; [|done]. injection H1 as -> ->.
  apply tag_head in Et. pose proof (read_head_bound _ _ _ _ Hd Ho Et). apply items_one. eapply item_intro; [exact Et|].
  constructor. revert H. apply spans_array_of; [|done|lia]. change 2 with (1 + (1 + 0)).
  apply spans_bind; [apply spans_value|intros x]. apply spans_bind; [apply spans_value|intros y]. apply spans_pret.
Qed.

(** Reading a pair of fields is reading the first and then the second. *)
Lemma agree_ext {E1 E2 A B} (R : A -> B -> Prop) (m1 : PDec E1 A) (m2 m2' : PDec E2 B) :
  (forall data off, m2 data off = m2' data off) -> agree R m1 m2' -> agree R m1 m2.
Proof. intros He H data off a o1 b o2 Hd Ho H1 H2. rewrite He in H2. by eapply H. Qed.

Lemma pbind_assoc {E A B C} (m : PDec E A) (k : A -> PDec E B) (l : B -> PDec E C) data off :
  pbind (pbind m k) l data off = pbind m (fun a => pbind (k a) l) data off.
Proof. unfold pbind. by destruct (m data off) as [[a|e] o]. Qed.

Lemma pbind_ext {E A B} (m : PDec E A) (k k' : A -> PDec E B) data off :
  (forall a o, k a data o = k' a data o) -> pbind m k data off = pbind m k' data off.
Proof. intros H. unfold pbind. by destruct (m data off) as [[a|e] o]. Qed.

(** The margin as one field. *)
Lemma read_pool_fields data off : read_pool_registration_cert data off =
  (dec! pool_id := read_pool_id in
   dec! vrf_hash := read_hash32 in
   dec! pledge := read_u64v in
   dec! cost := read_u64v in
   dec! margin := (dec! _ := plift id read_tag in
     dec! _ := array_of 2 "pool margin must be array(2)" in
     dec! margin_num := read_u64v in
     dec! margin_den := read_u64v in
     pret (margin_num, margin_den)) in
   dec! reward_account := read_bytesv in
   dec! owners := read_addr_keyhash_set in
   pret (mk_PoolRegistrationCert pool_id vrf_hash pledge cost margin reward_account owners)) data off.
Proof.
  unfold read_pool_registration_cert. do 4 (apply pbind_ext; intros ? ?).
  rewrite !pbind_assoc. apply pbind_ext; intros ? ?. rewrite !pbind_assoc. apply pbind_ext; intros ? ?.
  rewrite !pbind_assoc. apply pbind_ext; intros ? ?. rewrite !pbind_assoc. by apply pbind_ext.
Qed.

Lemma agree_pool : agree (fun cs c => cs = map Cred_Key (reg_pool_id c :: reg_owners c))
  walk_pool_registration_keys read_pool_registration_cert.
Proof.
  apply (agree_ext _ _ _ (dec! pool_id := read_pool_id in
     dec! vrf_hash := read_hash32 in
     dec! pledge := read_u64v in
     dec! cost := read_u64v in
     dec! margin := (dec! _ := plift id read_tag in
       dec! _ := array_of 2 "pool margin must be array(2)" in
       dec! margin_num := read_u64v in
       dec! margin_den := read_u64v in
       pret (margin_num, margin_den)) in
     dec! reward_account := read_bytesv in
     dec! owners := read_addr_keyhash_set in
     pret (mk_PoolRegistrationCert pool_id vrf_hash pledge cost margin reward_account owners))).
  - exact read_pool_fields.
  - unfold walk_pool_registration_keys. eapply agree_bind; [apply agree_hash|intros op p <-].
    eapply agree_bind; [apply agree_skip, spans_hash|intros ? ? _]. eapply agree_bind; [apply agree_skip, spans_value|intros ? ? _].
    eapply agree_bind; [apply agree_skip, spans_value|intros ? ? _]. eapply agree_bind; [apply agree_skip, spans_margin|intros ? ? _].
    eapply agree_bind; [apply agree_skip, spans_string|intros ? ? _].
    intros data off cs o1 reg o2 Hd Ho H1 H2. apply pbind_inv in H2 as (ow & q & H2 & [= <- <-]).
    assert (exists l, cs = map Cred_Key (op :: l) /\ (dec! _ := field_tag Field_Certificates in
      dec! enc := field_array Field_Certificates in
      iterate Field_Certificates enc (read_raw_hash28 Field_Certificates)) data off = (Ok l, o1)) as (l & -> & H1').
    { apply pbind_inv in H1 as (u & q1 & Hu & H1). apply pbind_inv in H1 as (enc & q2 & He & H1).
      apply pbind_inv in H1 as (l & q3 & Hl & [= <- <-]). exists l. split; [done|]. unfold pbind. by rewrite Hu, He. }
    destruct (agree_owners _ _ _ _ _ _ Hd Ho H1' H2) as (-> & <- & ?). by split_and!.
Qed.

Lemma spans_hash28 : spans 1 read_hash28.
Proof. apply spans_read_hash. Qed.

Lemma spans_credential : spans 1 decode_stake_credential.
Proof.
  apply spans_array_of. apply spans_here. intros o. change 2 with (1 + (1 + 0)).
  apply spans_bind; [apply spans_value|intros t]. apply spans_bind; [apply spans_hash28|intros h].
  repeat apply spans_if; first [apply spans_pret | apply spans_pfail].
Qed.

Lemma spans_owners : spans 1 read_addr_keyhash_set.
Proof.
  intros data off l o Hd Ho H. apply pbind_inv in H as ([] & p & Hp & H). apply skip_tags in Hp.
  assert ((dec! _ := skip_leading_tag in read_elements read_hash28) data off = (Ok l, o)) as H'
    by (unfold pbind; by rewrite Hp).
  revert H'. apply spans_tagged; [apply spans_elements, spans_hash28|done|done].
Qed.

Lemma spans_pool : spans 7 read_pool_registration_cert.
Proof.
  apply (spans_ext _ _ (dec! pool_id := read_pool_id in
     dec! vrf_hash := read_hash32 in
     dec! pledge := read_u64v in
     dec! cost := read_u64v in
     dec! margin := (dec! _ := plift id read_tag in
       dec! _ := array_of 2 "pool margin must be array(2)" in
       dec! margin_num := read_u64v in
       dec! margin_den := read_u64v in
       pret (margin_num, margin_den)) in
     dec! reward_account := read_bytesv in
     dec! owners := read_addr_keyhash_set in
     pret (mk_PoolRegistrationCert pool_id vrf_hash pledge cost margin reward_account owners))).
  - exact read_pool_fields.
  - change 7 with (1 + (1 + (1 + (1 + (1 + (1 + (1 + 0))))))).
    repeat (apply spans_bind; [first [apply spans_hash28|apply spans_hash|apply spans_margin|apply spans_value|apply spans_string|apply spans_owners]|intros ?]).
    apply spans_pret.
Qed.

Lemma agree_fields tag off data q cs k r' cert r : bytes_ok data -> 0 <= q ->
  walk_cert_fields tag data q = (Ok (cs, k), r') -> decode_cert_fields tag off data q = (Ok cert, r) ->
  cs = cert_credentials cert /\ items data (k - 1) q r' /\ 1 <= k.
Proof.
  intros Hd Hq H1 H2. unfold walk_cert_fields, decode_cert_fields in *.
  repeat match type of H1 with (match ?x with _ => _ end) _ _ = _ => destruct x; try discriminate H1 end.
  all: try (injection H1 as <- <- <-; first [injection H2 as <- _|apply pbind_inv in H2 as (? & ? & _ & [= <- _])];
    (split_and!; [done|constructor|lia])).
  all: try (apply pbind_inv in H1 as (c & p & Hc & [= <- <- <-]);
    match type of H2 with
    | pbind decode_stake_credential _ _ _ = _ =>
        apply pbind_inv in H2 as (s & p2 & Hs & H2); destruct (agree_credential _ _ _ _ _ _ Hd Hq Hc Hs) as (-> & <- & _);
        repeat (apply pbind_inv in H2 as (? & ? & _ & H2)); injection H2 as <- _;
        (split_and!; [done|by apply (spans_credential data q s p)|lia])
    end).
  - apply pbind_inv in H1 as (c & p & Hc & [= <- <- <-]). apply pbind_inv in H2 as (s & p2 & Hs & [= <- _]).
    destruct (agree_pool _ _ _ _ _ _ Hd Hq Hc Hs) as (-> & <- & _). split_and!; [done|by apply (spans_pool data q s p)|lia].
  - apply pbind_inv in H1 as (h & p & Hh & [= <- <- <-]). apply pbind_inv in H2 as (h2 & p2 & Hs & H2).
    apply pbind_inv in H2 as (? & ? & _ & [= <- _]). destruct (agree_hash _ _ _ _ _ _ _ Hd Hq Hh Hs) as (-> & <- & _).
    split_and!; [done|by apply (spans_hash28 data q h2 p)|lia].
Qed.

Lemma agree_certificate : agree (fun cs cert => cs = cert_credentials cert) walk_one_certificate decode_single_cert.
Proof.
  intros data off cs o1 cert o2 Hd Ho H1 H2. unfold decode_single_cert in H2.
  match type of H2 with match ?m with _ => _ end = _ => destruct m as [[cert'|e] r] eqn:Hin end; [|done].
  apply pbind_inv in H2 as (sk & p2 & Hsk & [= <- <-]). apply spans_skip in Hsk; [|done..]. apply one_of_items in Hsk.
  apply pbind_inv in Hin as ([] & p & Hp & Hin). apply pbind_inv in Hp as (enc & p' & Hp & He).
  destruct enc as [n w|]; [|done]. destruct (Z.leb_spec 1 n) as [Hn|]; [|done]. injection He as Ep. subst p'.
  apply pbind_inv in Hin as (co & q & [= <- <-] & Hin). apply pbind_inv in Hin as (t & q & Ht & Hf).
  apply pbind_inv in H1 as (enc & p2' & Hp' & H1). apply in_field_ok in Hp'. rewrite Hp in Hp'. injection Hp' as <- <-.
  apply pbind_inv in H1 as (t' & q' & Ht' & H1). apply in_field_ok in Ht'. rewrite Ht in Ht'. injection Ht' as <- <-.
  apply pbind_inv in H1 as ([cs' k] & r1 & Hw & H1). apply pbind_inv in H1 as ([] & r2 & Hdr & [= <- <-]).
  unfold plift in Hp. destruct (read_array_header data off) as [[enc'|] p3] eqn:Er; [|done]. injection Hp as -> ->.
  apply array_head_inv in Er as (h & Hh & ->). pose proof (read_head_bound _ _ _ _ Hd Ho Hh) as Hb.
  assert (0 <= p) as Hp0 by lia. pose proof (spans_value id data p t q Hd Hp0 Ht) as Hq.
  pose proof (item_end _ _ _ Hd Hp0 (one_of_items _ _ _ Hq)) as Hqb. assert (0 <= q) as Hq0 by lia.
  destruct (agree_fields t p data q cs' k r1 cert' r Hd Hq0 Hw Hf) as (-> & Hi & Hk).
  pose proof (items_le data _ _ _ Hd (conj Hq0 (proj2 Hqb)) Hi) as Hr1.
  unfold drain_array_tail in Hdr. destruct (Z.ltb_spec n k); [done|]. apply pbind_inv in Hdr as (l & r3 & Hl & [= <-]).
  assert (Hskip : spans 1 (field_skip Field_Certificates)).
  { intros d o a o' Hd' Ho' E. apply in_field_ok in E. by eapply spans_skip. }
  apply (spans_pcollect 1 _ _ Hskip) in Hl; [|done|lia].
  assert (item data off r3) as Hitem.
  { eapply item_intro; [exact Hh|]. constructor. replace n with (1 + ((k - 1) + (Z.of_nat (Z.to_nat (n - k)) * 1))) by lia.
    eapply items_app; [exact Hq|]. by eapply items_app. }
  pose proof (item_end _ _ _ Hd Ho Hitem) as He. pose proof (item_det _ _ _ _ Hd Ho Hitem Hsk). split_and!; [done|done|lia].
Qed.

(** The credentials the walk finds are those of the certificates the decoder returns. *)
Lemma certificates_agree data cs certs : bytes_ok data -> walk_certificate_credentials data = Ok cs ->
  decode_conway_certs data = Ok certs -> cs = concat (map cert_credentials certs).
Proof.
  intros Hd H1 H2. unfold walk_certificate_credentials in H1.
  match type of H1 with fst ?m = _ => destruct m as [r o] eqn:Hw end. cbn [fst] in H1. subst r.
  apply pbind_inv in Hw as ([] & p & Hp & Hw). apply pbind_inv in Hw as (enc & p1 & He & Hw).
  apply pbind_inv in Hw as (l & p2 & Hl & [= <- _]).
  assert ((dec! enc := field_array Field_Certificates in iterate Field_Certificates enc walk_one_certificate) data p = (Ok l, p2)) as Hl'
    by (unfold pbind; by rewrite He). apply in_field_ok in Hp. unfold decode_conway_certs in H2.
  assert (((if 0 <? blen data then skip_set_tag else pret tt) : PDec CodecError unit) data 0 = (Ok tt, p)) as Ep.
  { rewrite <- Hp. unfold skip_leading_tag. by destruct (0 <? blen data). }
  rewrite Ep in H2. destruct (read_elements decode_single_cert data p) as [[ks|e] o2] eqn:Ek; [|done].
  destruct (negb (o2 =? blen data)); [done|]. injection H2 as <-.
  destruct (agree_tag Field_Certificates data 0 tt p tt p Hd ltac:(done)) as (_ & _ & Hp0); [by apply in_field_ok|done|].
  destruct (agree_elements _ Field_Certificates _ _ agree_certificate _ _ _ _ _ _ Hd Hp0 Hl' Ek) as (Hr & _).
  clear -Hr. f_equal. induction Hr as [|c k l ks -> _ IH]; [done|]. cbn. by rewrite IH.
Qed.
