(* ===== verification/ScriptClosure.v ===== *)
(** The witness-script closure of a Conway transaction
    ([ade_ledger/src/tx_validity/script_witnesses.rs]): the scripts a transaction needs, the scripts it
    is given, in its witness set or by reference, and the verdict on them.

    The specification is cardano-ledger's: every needed script that is not referenced is in the
    witness set, the witness set holds nothing else, and the needed native scripts validate.  With the
    resolved outputs the verdict is exactly that; without them only a failing script is a rejection. *)

From S2P Require Import Prelude Cbor CborSkip CborPrefix NetCodec Spelling Decoder EraSchedule Leader BTree BlockCodec BlockFacts BlockValidity NativeScript.
From S2P Require Import LedgerValue Utxo LedgerMaps ConwayCert Governance ConwayTx Witness ConwayRules ConwaySpans TxSigners.

Inductive ScriptPurpose : Type := Spending | Rewarding | Certifying | Minting | Voting | Proposing.

Definition purpose_rank (p : ScriptPurpose) : Z :=
  match p with Spending => 0 | Rewarding => 1 | Certifying => 2 | Minting => 3 | Voting => 4 | Proposing => 5 end.

(** The derived order: that of the declaration. *)
Definition purpose_cmp (a b : ScriptPurpose) : comparison := cmp (purpose_rank a) (purpose_rank b).
Lemma purpose_cmp_eq a b : purpose_cmp a b = Eq <-> a = b.
Proof. unfold purpose_cmp. rewrite cmp_eq. destruct a, b; cbn; split; congruence. Qed.
Lemma purpose_cmp_antisym a b : purpose_cmp b a = CompOpp (purpose_cmp a b).
Proof. apply cmp_antisym. Qed.
Lemma purpose_cmp_lt_trans a b c : purpose_cmp a b = Lt -> purpose_cmp b c = Lt -> purpose_cmp a c = Lt.
Proof. apply cmp_lt_trans. Qed.
#[export] Instance purpose_order : TotalOrder ScriptPurpose := {|
  cmp := purpose_cmp;
  cmp_eq := purpose_cmp_eq;
  cmp_antisym := purpose_cmp_antisym;
  cmp_lt_trans := purpose_cmp_lt_trans;
|}.

Record ScriptsNeeded : Type := mk_ScriptsNeeded { hashes : BTreeSet Hash28; purposes : BTreeSet (ScriptPurpose * Hash28) }.
Definition none_needed : ScriptsNeeded := mk_ScriptsNeeded [] [].
Definition need (purpose : ScriptPurpose) (needed : ScriptsNeeded) (hash : Hash28) : ScriptsNeeded :=
  mk_ScriptsNeeded (set_insert (hashes needed) hash) (set_insert (purposes needed) (purpose, hash)).

(** * The resolved outputs *)

Record ResolvedScriptOutput : Type := mk_ResolvedScriptOutput { script_address : list Z; script_ref : option (list Z) }.

Definition from_raw_output (raw : list Z) : result ResolvedScriptOutput ScriptWitnessError :=
  match decode_babbage_tx_out raw 0 with
  | (Ok out, _) => Ok (mk_ResolvedScriptOutput (out_address out) (out_script_ref out))
  | (Err _, _) => Err MalformedResolvedOutput
  end.
Definition from_txout (out : TxOut) : result ResolvedScriptOutput ScriptWitnessError :=
  match out with
  | Out_AlonzoPlus raw _ _ => from_raw_output raw
  | _ => Ok (mk_ResolvedScriptOutput (address_bytes out) None)
  end.

Record ResolvedScriptContext : Type := mk_ResolvedScriptContext { ctx_outputs : BTreeMap TxIn ResolvedScriptOutput }.

(** [body.inputs ∪ body.reference_inputs], in the order of the chained iterators. *)
Definition script_inputs (body : ConwayTxBody) : list TxIn :=
  elements (inputs body) ++ elements (default [] (reference_inputs body)).

(** The closure [lookup] may change the variables it captures: [St] is their state. *)
Section Resolve.
Context {St : Type}.
Variable lookup : TxIn -> St -> option ResolvedScriptOutput * St.

Fixpoint resolve_inputs (l : list TxIn) (outputs : BTreeMap TxIn ResolvedScriptOutput) (st : St) :
    option (BTreeMap TxIn ResolvedScriptOutput) * St :=
  match l with
  | [] => (Some outputs, st)
  | input :: l =>
      if bt_contains outputs input then resolve_inputs l outputs st else
      match lookup input st with
      | (Some out, st) => resolve_inputs l (bt_insert outputs input out) st
      | (None, st) => (None, st)
      end
  end.

Definition resolve (body : ConwayTxBody) (st : St) : option ResolvedScriptContext * St :=
  let '(r, st) := resolve_inputs (script_inputs body) [] st in (option_map mk_ResolvedScriptContext r, st).
End Resolve.

Definition resolve_from_utxo (body : ConwayTxBody) (lookup : TxIn -> option TxOut) :
    result (option ResolvedScriptContext) ScriptWitnessError :=
  let '(ctx, bad) :=
    resolve (fun t bad => match option_map from_txout (lookup t) with
                          | Some (Ok o) => (Some o, bad)
                          | Some (Err e) => (None, Some e)
                          | None => (None, bad)
                          end) body None in
  match bad with Some e => Err e | None => Ok ctx end.

(** * Verdicts *)

Definition failures_is_empty (f : ScriptClosureFailures) : bool :=
  match not_validating f with [] => set_is_empty (extraneous f) && set_is_empty (missing_scripts f) | _ => false end.

Inductive ReducedScriptVerdict : Type := DefiniteReject (e : ScriptError) | Undetermined.
Inductive ExactScriptVerdict : Type := Closure_Valid | Closure_Invalid (f : ScriptClosureFailures).
Inductive NativeScriptVerdict : Type := Reduced (v : ReducedScriptVerdict) | Exact (v : ExactScriptVerdict).

Definition validity_interval (body : ConwayTxBody) : ValidityInterval :=
  mk_ValidityInterval (validity_interval_start body) (ttl body).

Definition script_signers (witnesses : WitnessInfo) : BTreeSet Hash28 :=
  set_extend (available_key_hashes witnesses) (elements (bootstrap_key_hashes witnesses)).

(** A repeated script counts once. *)
Definition witness_native_scripts (witnesses : WitnessInfo) : BTreeMap Hash28 NativeScript :=
  fold_left (fun m w => bt_insert m (native_hash w) (native_script w)) (native_scripts witnesses) [].

Definition failure (script : NativeScript) (signers : BTreeSet Hash28) (iv : ValidityInterval) : option NativeScriptFailure :=
  match evaluate_native_script signers iv script with NativeScriptFailed reason => Some reason | _ => None end.

Fixpoint first_failing (scripts : BTreeMap Hash28 NativeScript) (signers : BTreeSet Hash28) (iv : ValidityInterval) :
    ReducedScriptVerdict :=
  match scripts with
  | [] => Undetermined
  | (hash, script) :: scripts =>
      match failure script signers iv with
      | Some reason => DefiniteReject (mk_ScriptError hash reason)
      | None => first_failing scripts signers iv
      end
  end.
Definition reduced_verdict (body : ConwayTxBody) (witnesses : WitnessInfo) : ReducedScriptVerdict :=
  first_failing (witness_native_scripts witnesses) (script_signers witnesses) (validity_interval body).

(** * The scripts needed *)

(** A Shelley address with a script payment credential. *)
Definition payment_script_hash (address : list Z) : option Hash28 :=
  match address with
  | [] => None
  | header :: _ =>
      if (0x7 <? Z.shiftr header 4) || (Z.land header 0x10 =? 0) || (blen address <? 29) then None
      else Some (slice address 1 29)
  end.

Definition in_mint {A} (m : PDec CodecError A) : PDec ScriptWitnessError A := fun data off =>
  match m data off with (Ok a, o) => (Ok a, o) | (Err _, o) => (Err (MalformedMint o), o) end.

Definition mint_policy : PDec ScriptWitnessError Hash28 :=
  dec! policy := in_mint read_bytesv in
  if negb (blen policy =? 28) then fun _ off => (Err (MalformedMint off), off) else
  dec! _ := in_mint skip_one in
  pret policy.

Definition mint_policies (data : list Z) : result (list Hash28) ScriptWitnessError :=
  fst ((dec! major := in_mint peek_type in
        dec! _ := if major =? MAJOR_TAG then dec! _ := in_mint (plift id read_tag) in pret tt else pret tt in
        dec! enc := in_mint (plift id read_map_header) in
        match enc with
        | Definite n _ => pcollect (Z.to_nat n) mint_policy
        | Indefinite => nwhile (in_mint at_break) mint_policy
        end) data 0).

Definition guardrail (p : ProposalProcedure) : option Hash28 :=
  match gov_action p with
  | ParameterChange _ _ policy_hash | TreasuryWithdrawals _ policy_hash => policy_hash
  | _ => None
  end.

(** The sink of a walk: a script credential is a need. *)
Definition need_script (purpose : ScriptPurpose) (needed : ScriptsNeeded) (c : Credential) : ScriptsNeeded :=
  match c with Cred_Script h => need purpose needed h | Cred_Key _ => needed end.
Definition walk_scripts (purpose : ScriptPurpose) (walk : list Z -> result (list Credential) RequiredSignerError)
    (field : option (list Z)) (needed : ScriptsNeeded) : result ScriptsNeeded ScriptWitnessError :=
  match field with
  | None => Ok needed
  | Some data => let? cs := map_err Script_MalformedField (walk data) in Ok (fold_left (need_script purpose) cs needed)
  end.

Definition tx_derived_scripts_needed (body : ConwayTxBody) (needed : ScriptsNeeded) : result ScriptsNeeded ScriptWitnessError :=
  let? needed := walk_scripts Rewarding walk_withdrawal_credentials (withdrawals body) needed in
  let? needed := walk_scripts Certifying walk_certificate_credentials (certs body) needed in
  let? needed := match mint body with
                 | None => Ok needed
                 | Some m => let? policies := mint_policies m in Ok (fold_left (need Minting) policies needed)
                 end in
  let? needed := walk_scripts Voting walk_voter_credentials (voting_procedures body) needed in
  Ok (fold_left (need Proposing) (omap guardrail (default [] (proposal_procedures body))) needed).

Definition spending_script (ctx : ResolvedScriptContext) (input : TxIn) : option Hash28 :=
  match bt_get (ctx_outputs ctx) input with Some out => payment_script_hash (script_address out) | None => None end.

Definition scripts_needed (body : ConwayTxBody) (ctx : ResolvedScriptContext) : result ScriptsNeeded ScriptWitnessError :=
  tx_derived_scripts_needed body (fold_left (need Spending) (omap (spending_script ctx) (elements (inputs body))) none_needed).

(** * The scripts given by reference *)

Inductive ReferenceScript : Type := Ref_Native (s : NativeScript) | Ref_Plutus.

Section Hashes.
Context {HB : Blake224}.

Definition decode_script : PDec CodecError (Hash28 * ReferenceScript) :=
  dec! _ := array_of 2 "" in
  dec! lang := read_u64v in
  match lang with
  | 0 =>
      dec! start := here in
      dec! script := decode_native_script in
      dec! stop := here in
      fun inner off => (Ok (prefixed_script_hash NATIVE_SCRIPT_PREFIX (slice inner start stop), Ref_Native script), off)
  | 1 => dec! bytes := read_bytesv in pret (prefixed_script_hash PLUTUS_V1_PREFIX bytes, Ref_Plutus)
  | 2 => dec! bytes := read_bytesv in pret (prefixed_script_hash PLUTUS_V2_PREFIX bytes, Ref_Plutus)
  | 3 => dec! bytes := read_bytesv in pret (prefixed_script_hash PLUTUS_V3_PREFIX bytes, Ref_Plutus)
  | _ => bad_structure ""
  end.

(** Every failure is [MalformedScriptRef]. *)
Definition decode_script_ref (raw : list Z) : result (Hash28 * ReferenceScript) ScriptWitnessError :=
  match (dec! (tag, _) := plift id read_tag in
         if negb (tag =? 24) then bad_structure "" else read_bytesv) raw 0 with
  | (Err _, _) => Err MalformedScriptRef
  | (Ok inner, _) => match decode_script inner 0 with (Ok r, _) => Ok r | (Err _, _) => Err MalformedScriptRef end
  end.

Fixpoint insert_references (ctx : ResolvedScriptContext) (l : list TxIn) (out : BTreeMap Hash28 ReferenceScript) :
    result (BTreeMap Hash28 ReferenceScript) ScriptWitnessError :=
  match l with
  | [] => Ok out
  | input :: l =>
      match mbind script_ref (bt_get (ctx_outputs ctx) input) with
      | None => insert_references ctx l out
      | Some raw => let? (hash, script) := decode_script_ref raw in insert_references ctx l (bt_insert out hash script)
      end
  end.
Definition reference_scripts (body : ConwayTxBody) (ctx : ResolvedScriptContext) :
    result (BTreeMap Hash28 ReferenceScript) ScriptWitnessError :=
  insert_references ctx (script_inputs body) [].

(** * The exact verdict *)

(** The native script a needed hash stands for: a reference script hides a witness script. *)
Definition needed_native (refs : BTreeMap Hash28 ReferenceScript) (wit_native : BTreeMap Hash28 NativeScript) (hash : Hash28) :
    option NativeScript :=
  match bt_get refs hash with
  | Some (Ref_Native s) => Some s
  | Some Ref_Plutus => None
  | None => bt_get wit_native hash
  end.

Definition record_failure (refs : BTreeMap Hash28 ReferenceScript) (wit_native : BTreeMap Hash28 NativeScript)
    (signers : BTreeSet Hash28) (iv : ValidityInterval) (m : BTreeMap Hash28 NativeScriptFailure) (hash : Hash28) :
    BTreeMap Hash28 NativeScriptFailure :=
  match mbind (fun s => failure s signers iv) (needed_native refs wit_native hash) with
  | Some reason => bt_insert m hash reason
  | None => m
  end.

(** The scripts of the witness set. *)
Definition received_scripts (witnesses : WitnessInfo) : BTreeSet Hash28 :=
  set_extend (set_of (map fst (witness_native_scripts witnesses))) (elements (plutus_script_hashes witnesses)).
Definition needed_non_refs (needed : ScriptsNeeded) (refs : BTreeMap Hash28 ReferenceScript) : BTreeSet Hash28 :=
  List.filter (fun e => negb (bt_contains refs (fst e))) (hashes needed).

Definition exact_verdict (body : ConwayTxBody) (witnesses : WitnessInfo) (ctx : ResolvedScriptContext) :
    result ExactScriptVerdict ScriptWitnessError :=
  let? needed := scripts_needed body ctx in
  let? refs := reference_scripts body ctx in
  let wit_native := witness_native_scripts witnesses in
  let received := received_scripts witnesses in
  let non_refs := needed_non_refs needed refs in
  let failures := mk_ScriptClosureFailures
    (fold_left (record_failure refs wit_native (script_signers witnesses) (validity_interval body)) (elements (hashes needed)) [])
    (set_difference received non_refs) (set_difference non_refs received) in
  Ok (if failures_is_empty failures then Closure_Valid else Closure_Invalid failures).

Definition native_script_verdict (body : ConwayTxBody) (witnesses : WitnessInfo) (context : option ResolvedScriptContext) :
    result NativeScriptVerdict ScriptWitnessError :=
  match context with
  | None => Ok (Reduced (reduced_verdict body witnesses))
  | Some ctx => let? v := exact_verdict body witnesses ctx in Ok (Exact v)
  end.

Definition check_script_witnesses (body : ConwayTxBody) (witnesses : WitnessInfo) (context : option ResolvedScriptContext) :
    result NativeScriptVerdict LedgerError :=
  let? verdict := map_err ScriptWitnessDerivation (native_script_verdict body witnesses context) in
  match verdict with
  | Reduced (DefiniteReject e) => Err (NativeScriptRejected e)
  | Exact (Closure_Invalid f) => Err (ScriptWitnessClosure f)
  | Reduced Undetermined | Exact Closure_Valid => Ok verdict
  end.
End Hashes.

(** * What a reader returns, and that it only moves forward *)

Definition yields {E A} (P : A -> Prop) (m : PDec E A) : Prop := forall data off a o,
  bytes_ok data -> 0 <= off -> m data off = (Ok a, o) -> P a /\ off <= o.
Abbreviation moves := (yields (fun _ => True)).

Section Yields.
Context {E : Type}.

Lemma yields_bind {A B} (P : A -> Prop) (Q : B -> Prop) (m : PDec E A) (k : A -> PDec E B) :
  yields P m -> (forall a, P a -> yields Q (k a)) -> yields Q (pbind m k).
Proof.
  intros Hm Hk data off b o Hd Ho H. apply pbind_inv in H as (a & o1 & H1 & H2).
  apply Hm in H1 as [Ha ?]; [|done..]. apply (Hk _ Ha) in H2 as [? ?]; [|done|lia]. split; [done|lia].
Qed.
Lemma yields_ret {A} (P : A -> Prop) (a : A) : P a -> yields P (pret (E := E) a).
Proof. intros Ha data off b o _ _ [= <- <-]. split; [done|lia]. Qed.
Lemma yields_fail {A} (P : A -> Prop) (e : Z -> E) : yields P (fun (_ : list Z) off => (@Err A E (e off), off)).
Proof. by intros data off b o. Qed.
Lemma yields_if {A} (P : A -> Prop) (b : bool) (m m' : PDec E A) : yields P m -> yields P m' -> yields P (if b then m else m').
Proof. by destruct b. Qed.
Lemma moves_forward {A} (m : PDec E A) : forward m -> moves m.
Proof. intros Hm data off a o Hd Ho H. split; [done|by eapply Hm]. Qed.

Lemma yields_pcollect {A} (P : A -> Prop) n (m : PDec E A) : yields P m -> yields (Forall P) (pcollect n m).
Proof.
  intros Hm. induction n as [|n IH]; [by apply yields_ret|].
  apply (yields_bind P); [done|intros a Ha]. apply (yields_bind (Forall P)); [done|intros l Hl]. apply yields_ret. by constructor.
Qed.

Lemma yields_nwhile {A} (P : A -> Prop) (head : PDec E bool) (m : PDec E A) :
  (forall data off b o, head data off = (Ok b, o) -> off <= o) -> yields P m -> yields (Forall P) (nwhile head m).
Proof.
  intros Hh Hm data off l o Hd Ho H. unfold nwhile in H.
  assert (G : forall fuel off r o, 0 <= off -> nloop fuel head m data off = Some (Ok r, o) -> Forall P r /\ off <= o).
  { induction fuel as [|fuel IH]; intros off' r o' Ho' H'; [done|]. cbn [nloop] in H'.
    destruct (head data off') as [[[]|e] o1] eqn:Eh; [|destruct (m data o1) as [[x|e] o2] eqn:Em; [|done]|done]; apply Hh in Eh.
    - injection H' as <- <-. split; [done|lia].
    - apply Hm in Em as [Hx ?]; [|done|lia]. destruct (nloop fuel head m data o2) as [[[xs|e] o3]|] eqn:En; [|done..].
      injection H' as <- <-. apply IH in En as [? ?]; [|lia]. split; [by constructor|lia]. }
  destruct (nloop _ head m data off) as [[[r|e] o']|] eqn:En; [|done|].
  - injection H as <- <-. by eapply G.
  - injection H as <- <-. split; [done|lia].
Qed.
End Yields.

Lemma yields_ledger {A} (P : A -> Prop) (m : PDec CodecError A) : yields P m -> yields P (ledger_dec m).
Proof.
  intros Hm data off a o Hd Ho H. unfold ledger_dec in H. destruct (m data off) as [[a'|e] o'] eqn:Em; [|done].
  injection H as <- <-. by apply (Hm _ _ _ _ Hd Ho Em).
Qed.

Lemma yields_items {A} (P : A -> Prop) enc (m : PDec LedgerError A) : yields P m -> yields (Forall P) (items_of enc m).
Proof.
  intros Hm. destruct enc as [n w|]; cbn [items_of]; [by apply yields_pcollect|].
  apply (yields_bind (Forall P)).
  - apply yields_nwhile; [|done]. intros data off b o H. unfold ledger_dec, at_break in H.
    destruct (is_break data off); [|done]. injection H as _ <-. lia.
  - intros l Hl data off a o _ _ [= <- <-]. split; [done|lia].
Qed.

(** A script is the node sequence of a tree. *)
Definition tree_script (s : NativeScript) : Prop := exists t, nodes s = post_order t.

Lemma yields_script : yields tree_script decode_native_script.
Proof.
  intros data off s o Hd Ho H. destruct (decode_is_loop data off Hd Ho) as (r & o' & Er & Hr & Hle).
  rewrite H in Er. injection Er as <- <-. split; [|by apply Hle]. destruct (one_tree _ Hr) as (t & Et & _). by exists t.
Qed.

Lemma forward_map : forward (plift (E := CodecError) id read_map_header).
Proof.
  intros data off enc o Hd Ho H. unfold plift in H. destruct (read_map_header data off) as [[enc'|e] o'] eqn:Er; [|done].
  injection H as -> ->. apply map_head_inv in Er as (h & Hh & _). pose proof (read_head_bound _ _ _ _ Hd Ho Hh). lia.
Qed.

(** ** The witness set's native scripts are trees *)

Section WitnessScripts.
Context {HB : Blake224} {HS : Sha3}.

Definition tree_scripts (w : WitnessInfo) : Prop := Forall (fun n => tree_script (native_script n)) (native_scripts w).

Lemma moves_array : moves array_header.
Proof. apply yields_ledger, moves_forward, forward_array. Qed.
Lemma moves_uint : moves uint.
Proof. apply yields_ledger, moves_forward, forward_spans, spans_value. Qed.
Lemma moves_bytes : moves bytes.
Proof. apply yields_ledger, moves_forward, forward_spans, spans_string. Qed.
Lemma moves_skip : moves skip.
Proof. apply yields_ledger, moves_forward, forward_spans, spans_skip. Qed.
Lemma moves_exactly n : moves (array_exactly n).
Proof.
  apply (yields_bind (fun _ => True)); [apply moves_array|intros [m w|] _]; [apply yields_if; [by apply yields_ret|]|]; apply yields_fail.
Qed.
Lemma moves_optional_tag : moves skip_optional_tag.
Proof.
  intros data off a o Hd Ho H. unfold skip_optional_tag in H. destruct (byte_at data off); [|injection H as _ <-; split; [done|lia]].
  destruct (_ =? 6); [|injection H as _ <-; split; [done|lia]]. apply pbind_inv in H as (t & o1 & H & [= _ <-]).
  unfold ledger_dec, plift in H. destruct (read_tag data off) as [[t'|e] o2] eqn:Et; [|done]. injection H as _ ->.
  apply tag_head in Et. pose proof (read_head_bound _ _ _ _ Hd Ho Et). split; [done|lia].
Qed.
End WitnessScripts.

Ltac moving := repeat first
  [ apply moves_array | apply moves_uint | apply moves_bytes | apply moves_skip | apply moves_exactly | apply moves_optional_tag
  | apply yields_fail | apply yields_if | (by apply yields_ret)
  | (apply (yields_bind (fun _ => True)); [|intros ? _]) ].

Section WitnessScriptsDecoded.
Context {HB : Blake224} {HS : Sha3}.

Lemma moves_items {A} enc (m : PDec LedgerError A) : moves m -> moves (items_of enc m).
Proof. intros Hm data off a o Hd Ho H. by apply (yields_items (fun _ => True) enc m Hm) in H as [_ ?]. Qed.

Lemma yields_script_item : yields (fun n => tree_script (native_script n)) native_script_item.
Proof.
  apply (yields_bind (fun _ => True)); [intros data off a o _ _ [= _ <-]; split; [done|lia]|intros start _].
  apply (yields_bind tree_script); [apply yields_ledger, yields_script|intros s Hs].
  apply (yields_bind (fun _ => True)); [intros data off a o _ _ [= _ <-]; split; [done|lia]|intros stop _].
  apply (yields_bind (fun _ => True)); [intros data off a o _ _ [= _ <-]; split; [done|lia]|intros wire _].
  by apply yields_ret.
Qed.

Lemma moves_redeemers : moves sum_redeemer_ex_units.
Proof.
  assert (moves read_ex_units) as Hu by (unfold read_ex_units; moving).
  assert (moves redeemer_of_array) as Ha by (unfold redeemer_of_array; moving; done).
  assert (moves redeemer_of_map) as Hm by (unfold redeemer_of_map; moving; done).
  assert (moves peek_byte_type) as Hp.
  { intros data off a o Hd Ho H. unfold peek_byte_type in H. destruct (byte_at data off); [|done]. injection H as _ <-. split; [done|lia]. }
  assert (moves map_header) as Hh by apply yields_ledger, moves_forward, forward_map.
  unfold sum_redeemer_ex_units. moving; [done|].
  repeat match goal with |- yields _ (match ?x with _ => _ end) => destruct x end; moving; first [done|by apply moves_items].
Qed.

Lemma yields_entry : yields (fun update => forall i, tree_scripts i -> tree_scripts (update i)) witness_entry.
Proof.
  assert (Hkeep : forall update : WitnessInfo -> WitnessInfo, (forall i, native_scripts (update i) = native_scripts i) ->
    yields (E := LedgerError) (fun update => forall i, tree_scripts i -> tree_scripts (update i)) (pret update)).
  { intros update Hu. apply yields_ret. intros i. unfold tree_scripts. by rewrite Hu. }
  assert (Hp : forall prefix, moves (hash_plutus_scripts prefix)).
  { intros prefix. unfold hash_plutus_scripts. moving. apply moves_items. moving. }
  apply (yields_bind (fun _ => True)); [apply moves_uint|intros key _].
  repeat match goal with |- yields _ (match ?x with _ => _ end) => destruct x end;
    try (apply (yields_bind (fun _ => True)); [first [apply moves_skip|apply Hp|apply moves_redeemers]|intros ? _; by apply Hkeep]).
  all: apply (yields_bind (fun _ => True)); [apply moves_optional_tag|intros _ _].
  - apply (yields_bind (fun _ => True)); [|intros ? _; by apply Hkeep]. unfold decode_vkey_hashes. moving. apply moves_items.
    unfold vkey_hash_item. moving.
  - apply (yields_bind (fun _ => True)); [|intros ? _; by apply Hkeep]. unfold decode_bootstrap_witnesses. moving. apply moves_items.
    unfold bootstrap_item. moving.
  - apply (yields_bind (Forall (fun n => tree_script (native_script n)))).
    + apply (yields_bind (fun _ => True)); [apply moves_array|intros enc _]. apply yields_items, yields_script_item.
    + intros scripts Hs. apply yields_ret. by intros i _.
Qed.

Lemma witness_scripts_trees data w : bytes_ok data -> decode_witness_info_single data = Ok w -> tree_scripts w.
Proof.
  intros Hd H. unfold decode_witness_info_single in H. destruct (decode_single_witness_info data 0) as [r o] eqn:E.
  cbn [fst] in H. subst r. assert (0 <= 0) as H0 by done.
  assert (yields tree_scripts decode_single_witness_info) as Hy.
  { apply (yields_bind (fun _ => True)); [apply yields_ledger, moves_forward, forward_map|intros enc _].
    eapply yields_bind; [apply yields_items, yields_entry|]. intros updates Hu. apply yields_ret.
    assert (G : forall i, tree_scripts i -> tree_scripts (fold_left (fun i update => update i) updates i)).
    { induction Hu as [|f l Hf _ IH]; intros i Hi; [done|]. cbn. by apply IH, Hf. }
    apply G. constructor. }
  by apply (Hy _ _ _ _ Hd H0) in E as [? _].
Qed.
End WitnessScriptsDecoded.

(** * The specification *)

(** The body, with the outputs it spends, needs the script. *)
Definition needs (body : ConwayTxBody) (ctx : ResolvedScriptContext) (h : Hash28) : Prop :=
  (exists input, input ∈ elements (inputs body) /\ spending_script ctx input = Some h) \/
  (exists data cs, withdrawals body = Some data /\ walk_withdrawal_credentials data = Ok cs /\ Cred_Script h ∈ cs) \/
  (exists data cs, certs body = Some data /\ walk_certificate_credentials data = Ok cs /\ Cred_Script h ∈ cs) \/
  (exists data policies, mint body = Some data /\ mint_policies data = Ok policies /\ h ∈ policies) \/
  (exists data cs, voting_procedures body = Some data /\ walk_voter_credentials data = Ok cs /\ Cred_Script h ∈ cs) \/
  (exists proposals p, proposal_procedures body = Some proposals /\ p ∈ proposals /\ guardrail p = Some h).

Definition needed (n : ScriptsNeeded) (h : Hash28) : Prop := set_contains (hashes n) h = true.

Lemma needed_need purpose n h h' : needed (need purpose n h) h' <-> h' = h \/ needed n h'.
Proof.
  unfold needed, need. cbn [hashes]. unfold set_contains, set_insert. rewrite contains_insert, orb_true_iff, bool_decide_eq_true.
  intuition congruence.
Qed.

Lemma needed_all purpose l : forall n h, needed (fold_left (need purpose) l n) h <-> h ∈ l \/ needed n h.
Proof.
  induction l as [|x l IH]; intros n h; cbn [fold_left]; [split; [by right|by intros [?%elem_of_nil|]]|].
  rewrite IH, elem_of_cons, needed_need. intuition.
Qed.

Lemma needed_scripts purpose cs : forall n h, needed (fold_left (need_script purpose) cs n) h <-> Cred_Script h ∈ cs \/ needed n h.
Proof.
  induction cs as [|c cs IH]; intros n h; cbn [fold_left]; [split; [by right|by intros [?%elem_of_nil|]]|].
  rewrite IH, elem_of_cons. destruct c as [k|k]; cbn [need_script]; [|rewrite needed_need]; intuition congruence.
Qed.

Lemma needed_walk purpose walk field n n' : walk_scripts purpose walk field n = Ok n' -> forall h,
  needed n' h <-> (exists data cs, field = Some data /\ walk data = Ok cs /\ Cred_Script h ∈ cs) \/ needed n h.
Proof.
  unfold walk_scripts. destruct field as [data|]; intros H h.
  - apply rbind_ok_inv in H as (cs & Hw & [= <-]). apply map_err_ok in Hw. rewrite needed_scripts. split.
    + intros [?|?]; [left; by exists data, cs|by right].
    + intros [(d & cs' & [= <-] & Hw' & Hin)|?]; [|by right]. left. congruence.
  - injection H as <-. split; [by right|by intros [(? & ? & ? & _)|]].
Qed.

Lemma scripts_needed_exact body ctx n : scripts_needed body ctx = Ok n -> forall h, needed n h <-> needs body ctx h.
Proof.
  intros H h. unfold scripts_needed, tx_derived_scripts_needed in H.
  apply rbind_ok_inv in H as (n1 & H1 & H). apply rbind_ok_inv in H as (n2 & H2 & H). apply rbind_ok_inv in H as (n3 & H3 & H).
  apply rbind_ok_inv in H as (n4 & H4 & [= <-]).
  assert (needed n3 h <-> (exists data policies, mint body = Some data /\ mint_policies data = Ok policies /\ h ∈ policies) \/ needed n2 h) as E3.
  { destruct (mint body) as [m|].
    - apply rbind_ok_inv in H3 as (ps & Hp & [= <-]). rewrite needed_all. split.
      + intros [?|?]; [left; by exists m, ps|by right].
      + intros [(d & ps' & [= <-] & Hp' & Hin)|?]; [|by right]. left. congruence.
    - injection H3 as <-. split; [by right|by intros [(? & ? & ? & _)|]]. }
  rewrite needed_all, (needed_walk _ _ _ _ _ H4), E3, (needed_walk _ _ _ _ _ H2), (needed_walk _ _ _ _ _ H1), needed_all, !list_elem_of_omap.
  assert (~ needed none_needed h) as Hn by done. unfold needs.
  assert ((exists p, p ∈ default [] (proposal_procedures body) /\ guardrail p = Some h) <->
    (exists proposals p, proposal_procedures body = Some proposals /\ p ∈ proposals /\ guardrail p = Some h)) as ->.
  { split.
    - intros (p & Hp & Hg). destruct (proposal_procedures body) as [ps|]; [by exists ps, p|by apply elem_of_nil in Hp].
    - intros (ps & p & -> & ? & ?). by exists p. }
  tauto.
Qed.

(** Sets of hashes are ordered. *)
Lemma need_ordered purpose l : forall n, ordered (hashes n) -> ordered (hashes (fold_left (need purpose) l n)).
Proof. induction l as [|h l IH]; intros n Hn; [done|]. apply IH. by apply insert_ordered. Qed.
Lemma walk_ordered purpose walk field n n' : walk_scripts purpose walk field n = Ok n' -> ordered (hashes n) -> ordered (hashes n').
Proof.
  unfold walk_scripts. destruct field as [data|]; [|by intros [= <-]]. intros H Hn. apply rbind_ok_inv in H as (cs & _ & [= <-]).
  revert n Hn. induction cs as [|[h|h] cs IH]; intros n Hn; [done|by apply IH|]. apply IH. by apply insert_ordered.
Qed.
Lemma needed_ordered body ctx n : scripts_needed body ctx = Ok n -> ordered (hashes n).
Proof.
  intros H. unfold scripts_needed, tx_derived_scripts_needed in H.
  apply rbind_ok_inv in H as (n1 & H1 & H). apply rbind_ok_inv in H as (n2 & H2 & H). apply rbind_ok_inv in H as (n3 & H3 & H).
  apply rbind_ok_inv in H as (n4 & H4 & [= <-]). apply need_ordered, (walk_ordered _ _ _ _ _ H4).
  assert (ordered (hashes n2)) as Ho2.
  { apply (walk_ordered _ _ _ _ _ H2), (walk_ordered _ _ _ _ _ H1), need_ordered. constructor. }
  destruct (mint body); [|by injection H3 as <-]. apply rbind_ok_inv in H3 as (ps & _ & [= <-]). by apply need_ordered.
Qed.

(** ** What is given *)

Section Given.
Context {HB : Blake224}.

Definition reference_of (ctx : ResolvedScriptContext) (input : TxIn) : option (list Z) := mbind script_ref (bt_get (ctx_outputs ctx) input).

(** An input or a reference input holds the script. *)
Definition referenced (body : ConwayTxBody) (ctx : ResolvedScriptContext) (h : Hash28) : Prop :=
  exists input raw s, input ∈ script_inputs body /\ reference_of ctx input = Some raw /\ decode_script_ref raw = Ok (h, s).

(** The witness set holds the script. *)
Definition provided (w : WitnessInfo) (h : Hash28) : Prop :=
  (exists n, n ∈ native_scripts w /\ native_hash n = h) \/ h ∈ elements (plutus_script_hashes w).

(** The native script that is evaluated for the hash. *)
Definition stands_for (body : ConwayTxBody) (w : WitnessInfo) (ctx : ResolvedScriptContext) (h : Hash28) (s : NativeScript) : Prop :=
  exists refs, reference_scripts body ctx = Ok refs /\ needed_native refs (witness_native_scripts w) h = Some s.

Definition references_ok (ctx : ResolvedScriptContext) : Prop := forall input raw, reference_of ctx input = Some raw -> bytes_ok raw.

Lemma inserted_references ctx l : forall out refs, insert_references ctx l out = Ok refs -> forall h,
  (bt_contains refs h = true <->
     (exists input raw s, input ∈ l /\ reference_of ctx input = Some raw /\ decode_script_ref raw = Ok (h, s)) \/ bt_contains out h = true) /\
  (forall s, bt_get refs h = Some s ->
     (exists input raw, input ∈ l /\ reference_of ctx input = Some raw /\ decode_script_ref raw = Ok (h, s)) \/ bt_get out h = Some s).
Proof.
  induction l as [|i l IH]; intros out refs H h; cbn [insert_references] in H.
  - injection H as <-. split; [|by right]. split; [by right|by intros [(? & ? & ? & ?%elem_of_nil & _)|]].
  - fold (reference_of ctx i) in H. destruct (reference_of ctx i) as [raw|] eqn:Er.
    + apply rbind_ok_inv in H as ([h0 s0] & Hs & H). destruct (IH _ _ H h) as [I1 I2]. split.
      * rewrite I1, contains_insert, orb_true_iff, bool_decide_eq_true. split.
        -- intros [(j & r & s & Hj & ?)|[->|?]]; [left; exists j, r, s; split; [by right|done]|left; exists i, raw, s0; split; [by left|done]|by right].
        -- intros [(j & r & s & [->|Hj]%elem_of_cons & Hr & Hd)|?]; [right; left; congruence|left; by exists j, r, s|by right; right].
      * intros s Hg. apply I2 in Hg as [(j & r & Hj & ?)|Hg]; [left; exists j, r; split; [by right|done]|].
        destruct (decide (h0 = h)) as [->|Hne]; [rewrite get_insert in Hg; injection Hg as ->; left; exists i, raw; split; [by left|done]|].
        rewrite get_insert_ne in Hg by done. by right.
    + destruct (IH _ _ H h) as [I1 I2]. split.
      * rewrite I1. split; [intros [(j & r & s & Hj & ?)|?]; [left; exists j, r, s; split; [by right|done]|by right]|].
        intros [(j & r & s & [->|Hj]%elem_of_cons & Hr & Hd)|?]; [congruence|left; by exists j, r, s|by right].
      * intros s Hg. apply I2 in Hg as [(j & r & Hj & ?)|Hg]; [left; exists j, r; split; [by right|done]|by right].
Qed.

Lemma references_exact body ctx refs : reference_scripts body ctx = Ok refs -> forall h,
  (bt_contains refs h = true <-> referenced body ctx h) /\
  (forall s, bt_get refs h = Some s -> exists input raw, reference_of ctx input = Some raw /\ decode_script_ref raw = Ok (h, s)).
Proof.
  intros H h. destruct (inserted_references _ _ _ _ H h) as [I1 I2]. split.
  - rewrite I1. unfold referenced. split; [by intros [?|?]|by left].
  - intros s Hg. apply I2 in Hg as [(j & r & _ & ? & ?)|?]; [by exists j, r|done].
Qed.

Lemma string_ok {E} (f : CodecError -> E) data off s o : bytes_ok data -> read_string f data off = (Ok s, o) -> bytes_ok s.
Proof.
  intros Hd H. apply pbind_inv in H as ([s' w] & o1 & H & [= <- _]). unfold plift in H.
  destruct (read_bytes data off) as [[[s2 w2]|e] o2] eqn:Er; [|done]. injection H as -> -> _. revert Er.
  unfold read_bytes, dbind, Cbor.here. destruct (decode_initial data off) as [[[major ai]|e] o3]; [|done].
  destruct (negb _); [done|]. destruct (ai =? AI_INDEFINITE); [done|].
  destruct (decode_argument ai off data o3) as [[[n w']|e] o4]; [|done]. unfold read_payload.
  destruct (checked_add o4 n); [|done]. destruct (blen data <? z); [done|]. intros [= <- _ _]. by apply slice_ok.
Qed.

Lemma script_ref_tree raw h s : bytes_ok raw -> decode_script_ref raw = Ok (h, Ref_Native s) -> tree_script s.
Proof.
  intros Hd H. unfold decode_script_ref in H.
  match type of H with match ?m with _ => _ end = _ => destruct m as [[inner|e] o] eqn:Ei end; [|done].
  apply pbind_inv in Ei as ([tag w] & o1 & _ & Ei). destruct (negb _); [done|]. apply string_ok in Ei; [|done].
  destruct (decode_script inner 0) as [[r|e] o2] eqn:Es; [|done]. injection H as ->.
  apply pbind_inv in Es as ([] & p & Hp & Es). apply pbind_inv in Hp as (enc & p' & Hp & Hn).
  assert (0 <= 0) as H0 by done. pose proof (forward_array _ _ _ _ Ei H0 Hp) as Hle.
  assert (p = p') as -> by (destruct enc; [|done]; destruct (_ =? _); [by injection Hn|done]).
  apply pbind_inv in Es as (lang & q & Hq & Es). apply (forward_spans _ (spans_value id)) in Hq; [|done|lia].
  repeat match type of Es with (match ?x with _ => _ end) _ _ = _ => destruct x; try discriminate Es end.
  all: try (apply pbind_inv in Es as (? & ? & _ & Es); discriminate Es).
  apply pbind_inv in Es as (start & p2 & [= <- <-] & Es). apply pbind_inv in Es as (sc & p3 & Hs & Es).
  apply pbind_inv in Es as (stop & p4 & [= <- <-] & [= _ <- _]). by apply yields_script in Hs as [? _]; [|done|lia].
Qed.

Lemma witness_map_contains l : forall (m : BTreeMap Hash28 NativeScript) h,
  bt_contains (fold_left (fun m w => bt_insert m (native_hash w) (native_script w)) l m) h = true <->
  (exists n, n ∈ l /\ native_hash n = h) \/ bt_contains m h = true.
Proof.
  induction l as [|n l IH]; intros m h; cbn [fold_left]; [split; [by right|by intros [(? & ?%elem_of_nil & _)|]]|].
  rewrite IH, contains_insert, orb_true_iff, bool_decide_eq_true. split.
  - intros [(k & Hk & E)|[E|E]]; [left; exists k; split; [by right|done]|left; exists n; split; [by left|done]|by right].
  - intros [(k & [->|Hk]%elem_of_cons & E)|E]; [by right; left|left; by exists k|by right; right].
Qed.

Lemma witness_map_get l : forall (m : BTreeMap Hash28 NativeScript) h s,
  bt_get (fold_left (fun m w => bt_insert m (native_hash w) (native_script w)) l m) h = Some s ->
  (exists n, n ∈ l /\ native_hash n = h /\ native_script n = s) \/ bt_get m h = Some s.
Proof.
  induction l as [|n l IH]; intros m h s H; cbn [fold_left] in H; [by right|].
  apply IH in H as [(k & Hk & E)|H]; [left; exists k; split; [by right|done]|].
  destruct (decide (native_hash n = h)) as [Eh|Hne]; [rewrite Eh, get_insert in H; injection H as <-; left; exists n; split; [by left|done]|].
  rewrite get_insert_ne in H by done. by right.
Qed.

Lemma witness_map_ordered w : ordered (witness_native_scripts w).
Proof.
  unfold witness_native_scripts. assert (H : forall l (m : BTreeMap Hash28 NativeScript), ordered m ->
    ordered (fold_left (fun m w => bt_insert m (native_hash w) (native_script w)) l m)).
  { induction l as [|n l IH]; intros m Hm; [done|]. cbn [fold_left]. by apply IH, insert_ordered. }
  apply H. constructor.
Qed.

Lemma received_provided w h : set_contains (received_scripts w) h = true <-> provided w h.
Proof.
  unfold received_scripts, provided. rewrite extend_contains, orb_true_iff, bool_decide_eq_true.
  unfold set_of. rewrite extend_contains. cbn [set_contains]. rewrite orb_true_iff, bool_decide_eq_true.
  rewrite <- (contains_map _ _ (witness_map_ordered w)). unfold witness_native_scripts. rewrite witness_map_contains.
  assert (bt_contains (@nil (Hash28 * NativeScript)) h <> true) by done.
  assert (set_contains (@nil (Hash28 * unit)) h <> true) by done. tauto.
Qed.

Lemma failures_get refs wn signers iv l : forall m h r, ordered m ->
  (forall x, x ∈ l -> bt_get m x = None) -> NoDup l ->
  bt_get (fold_left (record_failure refs wn signers iv) l m) h = Some r <->
  (h ∈ l /\ mbind (fun s => failure s signers iv) (needed_native refs wn h) = Some r) \/ bt_get m h = Some r.
Proof.
  induction l as [|x l IH]; intros m h r Hm Hn Hd; cbn [fold_left]; [split; [by right|by intros [[?%elem_of_nil _]|]]|].
  apply NoDup_cons in Hd as [Hx Hd].
  assert (ordered (record_failure refs wn signers iv m x)) as Hm'.
  { unfold record_failure. destruct (mbind _ _); [by apply insert_ordered|done]. }
  assert (forall y, y <> x -> bt_get (record_failure refs wn signers iv m x) y = bt_get m y) as Hne.
  { intros y Hy. unfold record_failure. destruct (mbind _ _); [by rewrite get_insert_ne|done]. }
  rewrite IH; [|done|intros y Hy; rewrite Hne by (by intros ->); apply Hn; by right|done].
  destruct (decide (h = x)) as [->|Hh].
  - assert (bt_get m x = None) as E by (apply Hn; by left). rewrite E. unfold record_failure.
    destruct (mbind _ _) as [r'|] eqn:Ef; [rewrite get_insert|rewrite E]; rewrite elem_of_cons; naive_solver.
  - rewrite Hne by done. rewrite elem_of_cons. naive_solver.
Qed.

(** ** The verdict is the specification's *)

(** Cardano's closure: nothing missing, nothing superfluous, and every needed native script holds. *)
Definition closed_scripts (body : ConwayTxBody) (w : WitnessInfo) (ctx : ResolvedScriptContext) : Prop :=
  (forall h, needs body ctx h -> ~ referenced body ctx h -> provided w h) /\
  (forall h, provided w h -> needs body ctx h /\ ~ referenced body ctx h) /\
  (forall h s t, needs body ctx h -> stands_for body w ctx h s -> nodes s = post_order t ->
     satisfied (script_signers w) (validity_interval body) t = true).

(** The failure sets, each by its own condition. *)
Definition describes (body : ConwayTxBody) (w : WitnessInfo) (ctx : ResolvedScriptContext) (f : ScriptClosureFailures) : Prop :=
  forall h,
    (set_contains (missing_scripts f) h = true <-> needs body ctx h /\ ~ referenced body ctx h /\ ~ provided w h) /\
    (set_contains (extraneous f) h = true <-> provided w h /\ ~ (needs body ctx h /\ ~ referenced body ctx h)) /\
    (forall r, bt_get (not_validating f) h = Some r <-> needs body ctx h /\ exists s, stands_for body w ctx h s /\
       evaluate_native_script (script_signers w) (validity_interval body) s = NativeScriptFailed r).

Lemma failure_some s signers iv r : failure s signers iv = Some r <-> evaluate_native_script signers iv s = NativeScriptFailed r.
Proof. unfold failure. destruct (evaluate_native_script signers iv s); naive_solver. Qed.

Lemma difference_contains (a b : BTreeSet Hash28) h : ordered a ->
  set_contains (set_difference a b) h = set_contains a h && negb (set_contains b h).
Proof.
  intros Ho. unfold set_difference, set_contains at 1. unfold bt_contains. rewrite get_filter by done.
  unfold set_contains, bt_contains. destruct (bt_get a h); [|done]. cbn [fst andb]. by destruct (bt_get b h).
Qed.

Lemma non_refs_contains n refs h : ordered (hashes n) ->
  set_contains (needed_non_refs n refs) h = set_contains (hashes n) h && negb (bt_contains refs h).
Proof.
  intros Ho. unfold needed_non_refs, set_contains at 1. unfold bt_contains at 1. rewrite get_filter by done.
  unfold set_contains, bt_contains. destruct (bt_get (hashes n) h); [|done]. cbn [fst andb]. by destruct (bt_get refs h).
Qed.

Lemma received_ordered w : ordered (received_scripts w).
Proof. unfold received_scripts. apply set_ordered, set_of_ordered. Qed.

Lemma exact_described body w ctx v : exact_verdict body w ctx = Ok v ->
  exists f, describes body w ctx f /\ v = if failures_is_empty f then Closure_Valid else Closure_Invalid f.
Proof.
  intros H. unfold exact_verdict in H. apply rbind_ok_inv in H as (n & Hn & H). apply rbind_ok_inv in H as (refs & Hr & [= <-]).
  eexists. split; [|reflexivity]. intros h. cbn [missing_scripts extraneous not_validating].
  pose proof (needed_ordered _ _ _ Hn) as Ho. pose proof (scripts_needed_exact _ _ _ Hn h) as Hneed. unfold needed in Hneed.
  destruct (references_exact _ _ _ Hr h) as [Href _]. pose proof (received_provided w h) as Hrec.
  assert (set_contains (needed_non_refs n refs) h = true <-> needs body ctx h /\ ~ referenced body ctx h) as Hnr.
  { rewrite non_refs_contains, andb_true_iff, negb_true_iff, <- not_true_iff_false by done. by rewrite Hneed, Href. }
  assert (ordered (needed_non_refs n refs)) as Ho' by (by apply ordered_filter). split_and!.
  - rewrite difference_contains, andb_true_iff, negb_true_iff, <- not_true_iff_false by done. rewrite Hnr, Hrec. tauto.
  - rewrite difference_contains, andb_true_iff, negb_true_iff, <- not_true_iff_false by apply received_ordered. by rewrite Hnr, Hrec.
  - intros r. assert (ordered (@nil (Hash28 * NativeScriptFailure))) as Hnil by constructor.
    rewrite failures_get; [|exact Hnil|done|by apply elements_nodup]. rewrite (elements_contains _ _ Ho), Hneed.
    assert (bt_get (@nil (Hash28 * NativeScriptFailure)) h <> Some r) as He by done. unfold stands_for. split.
    + intros [[Hh E]|?]; [|done]. split; [done|]. destruct (needed_native _ _ h) as [s|] eqn:Es; [|done]. cbn in E.
      exists s. split; [by exists refs|by apply failure_some].
    + intros (Hh & s & (refs' & Hr' & Es) & E). left. split; [done|]. rewrite Hr in Hr'. injection Hr' as <-.
      rewrite Es. cbn. by apply failure_some.
Qed.

Lemma empty_set (m : BTreeSet Hash28) : set_is_empty m = true <-> forall h, set_contains m h <> true.
Proof.
  destruct m as [|[k u] m]; cbn [set_is_empty]; [done|]. split; [done|]. intros H. destruct (H k). unfold set_contains, bt_contains.
  cbn [bt_get]. by rewrite cmp_refl.
Qed.

Lemma failures_empty f : failures_is_empty f = true <->
  (forall h, set_contains (missing_scripts f) h <> true) /\ (forall h, set_contains (extraneous f) h <> true) /\
  (forall h r, bt_get (not_validating f) h <> Some r).
Proof.
  unfold failures_is_empty. destruct (not_validating f) as [|[k r] m] eqn:E.
  - rewrite andb_true_iff, !empty_set. naive_solver.
  - split; [done|]. intros (_ & _ & H). destruct (H k r). cbn [bt_get]. by rewrite cmp_refl.
Qed.

(** A script that stands for a hash is a tree, so it is evaluated as one. *)
Lemma stands_for_tree body w ctx h s : tree_scripts w -> references_ok ctx -> stands_for body w ctx h s -> tree_script s.
Proof.
  intros Hw Hc (refs & Hr & Hs). unfold needed_native in Hs. destruct (bt_get refs h) as [[s'|]|] eqn:Eg; [|done|].
  - injection Hs as ->. destruct (references_exact _ _ _ Hr h) as [_ Hg]. apply Hg in Eg as (i & raw & Hi & Hd).
    by apply (script_ref_tree raw h); [eapply Hc|].
  - apply witness_map_get in Hs as [(n & Hn & _ & <-)|?]; [|done]. unfold tree_scripts in Hw. rewrite Forall_forall in Hw. by apply Hw.
Qed.

Lemma tree_failure signers iv s t : nodes s = post_order t ->
  (exists r, evaluate_native_script signers iv s = NativeScriptFailed r) <-> satisfied signers iv t = false.
Proof.
  intros E. destruct s as [l]. cbn in E. subst l. rewrite evaluate_tree, <- verdict_satisfied. unfold passed.
  destruct (verdict_native signers iv t) as [->|[r ->]]; case_bool_decide; naive_solver.
Qed.

(** What decides the failures is decidable. *)
Lemma closure_decided body w ctx v h : exact_verdict body w ctx = Ok v ->
  (provided w h \/ ~ provided w h) /\ (needs body ctx h /\ ~ referenced body ctx h \/ ~ (needs body ctx h /\ ~ referenced body ctx h)).
Proof.
  intros H. unfold exact_verdict in H. apply rbind_ok_inv in H as (n & Hn & H). apply rbind_ok_inv in H as (refs & Hr & _).
  pose proof (scripts_needed_exact _ _ _ Hn h) as Hneed. destruct (references_exact _ _ _ Hr h) as [Href _].
  unfold needed in Hneed. rewrite <- Hneed, <- Href, <- (received_provided w h).
  destruct (set_contains (received_scripts w) h), (set_contains (hashes n) h), (bt_contains refs h); naive_solver.
Qed.

(** With no tree assumed, a valid verdict still says everything of the scripts that are trees. *)
Lemma valid_closed body w ctx : exact_verdict body w ctx = Ok Closure_Valid -> closed_scripts body w ctx.
Proof.
  intros H. pose proof (fun h => closure_decided _ _ _ _ h H) as Hdec. destruct (exact_described _ _ _ _ H) as (f & Hf & E).
  destruct (failures_is_empty f) eqn:Ee; [|done]. apply failures_empty in Ee as (Hm & He & Hv). split_and!.
  - intros h Hn Hr. destruct (Hf h) as (Hf1 & _). specialize (Hm h). destruct (Hdec h) as [[?|?] _]; [done|]. tauto.
  - intros h Hp. destruct (Hf h) as (_ & Hf2 & _). specialize (He h). destruct (Hdec h) as [_ [?|?]]; [done|]. tauto.
  - intros h s t Hn Hs Et. destruct (satisfied _ _ t) eqn:Es; [done|]. apply (tree_failure _ _ _ _ Et) in Es as [r Es].
    destruct (Hv h r). apply (proj2 (proj2 (Hf h))). split; [done|]. by exists s.
Qed.

Lemma exact_closed body w ctx v : exact_verdict body w ctx = Ok v -> tree_scripts w -> references_ok ctx ->
  v = Closure_Valid <-> closed_scripts body w ctx.
Proof.
  intros H Hw Hc. pose proof (fun h => closure_decided _ _ _ _ h H) as Hdec. destruct (exact_described _ _ _ _ H) as (f & Hf & ->).
  assert ((if failures_is_empty f then Closure_Valid else Closure_Invalid f) = Closure_Valid <-> failures_is_empty f = true) as ->
    by (by destruct (failures_is_empty f)).
  split.
  - intros Ee. apply valid_closed. by rewrite Ee in H.
  - intros (Hm & He & Hv). apply failures_empty. split_and!.
    + intros h Hx%(proj1 (Hf h)). destruct Hx as (Hn & Hr & Hp). by apply Hp, Hm.
    + intros h Hx%(proj1 (proj2 (Hf h))). destruct Hx as (Hp & Hn). by apply Hn, He.
    + intros h r Hx%(proj2 (proj2 (Hf h))). destruct Hx as (Hn & s & Hs & E).
      destruct (stands_for_tree _ _ _ _ _ Hw Hc Hs) as [t Et]. specialize (Hv h s t Hn Hs Et).
      assert (satisfied (script_signers w) (validity_interval body) t = false) by (apply (tree_failure _ _ _ _ Et); by exists r). congruence.
Qed.

(** A script that fails without the outputs makes the exact verdict invalid. *)
Lemma first_failing_in scripts signers iv e : ordered scripts -> first_failing scripts signers iv = DefiniteReject e ->
  exists s, bt_get scripts (failed_script e) = Some s /\ failure s signers iv = Some (failed_reason e).
Proof.
  intros Ho H. assert (exists s, (failed_script e, s) ∈ scripts /\ failure s signers iv = Some (failed_reason e)) as (s & Hin & Hs).
  { clear Ho. induction scripts as [|[h s] l IH]; [done|]. cbn [first_failing] in H. destruct (failure s signers iv) as [r|] eqn:E.
    - injection H as <-. exists s. split; [by left|done].
    - destruct (IH H) as (s' & Hin & Hs). exists s'. split; [by right|done]. }
  exists s. split; [|done]. by apply get_elem.
Qed.

Lemma reduced_sound body w ctx v e : reduced_verdict body w = DefiniteReject e -> exact_verdict body w ctx = Ok v -> v <> Closure_Valid.
Proof.
  intros Hr H. apply first_failing_in in Hr as (s & Hg & Hs); [|apply witness_map_ordered].
  assert (provided w (failed_script e)) as Hp.
  { apply received_provided. unfold received_scripts. rewrite extend_contains. unfold set_of. rewrite extend_contains.
    rewrite (bool_decide_eq_true_2 (failed_script e ∈ map fst (witness_native_scripts w))); [by rewrite orb_true_r|].
    apply contains_map; [apply witness_map_ordered|]. apply contains_get. by exists s. }
  pose proof (closure_decided _ _ _ _ (failed_script e) H) as [_ Hd].
  assert (exists refs, reference_scripts body ctx = Ok refs) as [refs Hrefs].
  { unfold exact_verdict in H. apply rbind_ok_inv in H as (n & _ & H). apply rbind_ok_inv in H as (refs & Hr & _). by exists refs. }
  destruct (exact_described _ _ _ _ H) as (f & Hf & ->). destruct (failures_is_empty f) eqn:Ee; [|done].
  apply failures_empty in Ee as (_ & He & Hv). destruct (Hf (failed_script e)) as (_ & Hf2 & Hf3).
  destruct Hd as [[Hn Hnr]|Hd]; [|destruct (He (failed_script e)); tauto].
  destruct (Hv (failed_script e) (failed_reason e)). apply Hf3. split; [done|]. exists s. split; [|by apply failure_some].
  exists refs. split; [done|]. unfold needed_native. destruct (bt_get refs (failed_script e)) eqn:Eg; [|done].
  destruct Hnr. apply (proj1 (references_exact _ _ _ Hrefs _)). apply contains_get. by eexists.
Qed.
End Given.

(** ** The context *)

Lemma resolved_inputs_exact lookup l : forall outputs ctx bad,
  resolve_inputs (fun t bad => match option_map from_txout (lookup t) with
                               | Some (Ok o) => (Some o, bad)
                               | Some (Err e) => (None, Some e)
                               | None => (None, bad)
                               end) l outputs None = (ctx, bad) ->
  match bad with
  | Some _ => ctx = None
  | None => match ctx with
            | None => exists i, i ∈ l /\ lookup i = None
            | Some outputs' =>
                (forall i, i ∈ l -> bt_get outputs i <> None \/ exists out o, lookup i = Some out /\ from_txout out = Ok o /\ bt_get outputs' i = Some o) /\
                (forall i o, bt_get outputs i = Some o -> bt_get outputs' i = Some o)
            end
  end.
Proof.
  induction l as [|x l IH]; intros outputs ctx bad H; cbn [resolve_inputs] in H.
  { injection H as <- <-. split; [by intros i ?%elem_of_nil|done]. }
  destruct (bt_contains outputs x) eqn:Ec.
  - apply IH in H. destruct bad; [done|]. destruct ctx as [outputs'|]; [|destruct H as (i & Hi & Hn); exists i; split; [by right|done]].
    destruct H as [H1 H2]. split; [|done]. intros i [->|Hi]%elem_of_cons; [|by apply H1].
    left. apply contains_get in Ec as [v Hv]. by rewrite Hv.
  - destruct (lookup x) as [out|] eqn:Ex; cbn [option_map] in H; [|injection H as <- <-; exists x; split; [by left|done]].
    destruct (from_txout out) as [o|e] eqn:Ef; [|by injection H as <- <-].
    apply IH in H. destruct bad; [done|]. destruct ctx as [outputs'|]; [|destruct H as (i & Hi & Hn); exists i; split; [by right|done]].
    destruct H as [H1 H2].
    assert (forall i v, bt_get outputs i = Some v -> bt_get (bt_insert outputs x o) i = Some v) as Hk.
    { intros i v Hv. destruct (decide (x = i)) as [<-|Hne]; [|by rewrite get_insert_ne].
      assert (bt_contains outputs x = true) as Hc by (apply contains_get; by exists v). congruence. }
    split; [|intros i v Hv; by apply H2, Hk].
    intros i Hi. destruct (decide (i = x)) as [->|Hne].
    + right. exists out, o. split_and!; [done..|]. apply H2, get_insert.
    + apply elem_of_cons in Hi as [?|Hi]; [done|]. destruct (H1 i Hi) as [Hg|?]; [|by right].
      left. by rewrite get_insert_ne in Hg.
Qed.

Lemma context_exact body lookup ctx : resolve_from_utxo body lookup = Ok ctx ->
  match ctx with
  | None => exists i, i ∈ script_inputs body /\ lookup i = None
  | Some c => forall i, i ∈ script_inputs body ->
      exists out o, lookup i = Some out /\ from_txout out = Ok o /\ bt_get (ctx_outputs c) i = Some o
  end.
Proof.
  unfold resolve_from_utxo, resolve. destruct (resolve_inputs _ _ _ _) as [r bad] eqn:E. apply resolved_inputs_exact in E.
  destruct bad as [e|]; [done|]. intros [= <-]. destruct r as [outputs|]; [|done]. cbn [option_map ctx_outputs].
  destruct E as [E _]. intros i Hi. by destruct (E i Hi) as [?|?].
Qed.

(** C8. The script closure.  For a witness set the decoder returns and the resolved outputs, the exact
    verdict is cardano-ledger's: valid exactly when every needed script that is not referenced is in
    the witness set, the witness set holds no other, and every needed native script's conditions hold
    of the signers and the validity interval; otherwise it lists, each by its own condition, the missing
    scripts, the superfluous ones and the failing ones with their reasons.  And what the reduced verdict
    rejects without the outputs, the exact one rejects whatever the outputs are. *)
Theorem script_closure_exact {HB : Blake224} {HS : Sha3} ws w body ctx v (Hd : bytes_ok ws) (Hw : decode_witness_info_single ws = Ok w)
    (Hc : references_ok ctx) (Hv : exact_verdict body w ctx = Ok v) :
  (v = Closure_Valid <-> closed_scripts body w ctx) /\
  (forall f, v = Closure_Invalid f -> describes body w ctx f) /\
  (forall e, reduced_verdict body w = DefiniteReject e -> v <> Closure_Valid).
Proof.
  split_and!.
  - apply exact_closed; [done| |done]. by eapply witness_scripts_trees.
  - intros f ->. destruct (exact_described _ _ _ _ Hv) as (f' & Hf & E). destruct (failures_is_empty f'); [done|]. by injection E as ->.
  - intros e He. by eapply reduced_sound.
Qed.
