(* ===== verification/PhaseTwo.v ===== *)
(** Phase 2 of a Conway transaction: what [ade_ledger/src/plutus_eval.rs] hands to the evaluator and
    [ade_plutus/src/tx_eval.rs] makes of its answer.

    The evaluator itself ([aiken_uplc::tx::eval_phase_two_raw]) is a parameter: it returns the redeemers
    with the units they consumed, or refuses.  The messages of the errors are left out: nothing reads
    them.  The theorem says what a pass means: the evaluator accepted, and no script consumed more than
    its redeemer in the transaction declares. *)

From S2P Require Import Prelude Cbor CborSkip CborPrefix NetCodec Spelling Decoder EraSchedule Leader BTree BlockCodec NativeScript.
From S2P Require Import LedgerValue Utxo LedgerMaps ConwayCert Witness.

(** * The resolved outputs ([plutus_eval.rs]) *)

Inductive PlutusEvalOutcome : Type :=
| Ineligible
| Passed (total_cpu total_mem script_count : Z)
| Failed.

Definition assemble_full_tx_with (body_bytes witness_bytes : list Z) (is_valid : bool) (aux_data_cbor : option (list Z)) : list Z :=
  [0x84] ++ body_bytes ++ witness_bytes ++ [if is_valid then 0xf5 else 0xf4] ++ match aux_data_cbor with Some b => b | None => [0xf6] end.
Definition assemble_full_tx_cbor (body_bytes witness_bytes : list Z) : list Z :=
  assemble_full_tx_with body_bytes witness_bytes true None.

(** [AlonzoTxOut::ade_encode] with neither assets nor a datum hash. *)
Definition encode_alonzo_out (address : list Z) (c : Coin) : list Z :=
  let buf := write_array_header [] (Definite 2 Inline) in
  let buf := write_bytes_canonical buf address in
  write_uint_canonical buf c.

Definition encode_tx_in (tx_in : TxIn) : list Z :=
  write_uint_canonical ([0x82; 0x58; 32] ++ tx_hash tx_in) (tx_index tx_in).

(** The [era] only reaches a codec context that the encoder does not read. *)
Definition encode_resolved_pair (tx_in : TxIn) (tx_out : TxOut) : option (list Z * list Z) :=
  match tx_out with
  | Out_Byron _ _ => None
  | Out_ShelleyMary address value => Some (encode_tx_in tx_in, encode_alonzo_out address (coin value))
  | Out_AlonzoPlus raw _ _ => Some (encode_tx_in tx_in, raw)
  end.

Section Resolved.
Context {S : Type} `{UtxoStore S}.

Fixpoint resolved_pairs (l : list TxIn) (utxo : S) : option (list (list Z * list Z)) :=
  match l with
  | [] => Some []
  | tx_in :: l =>
      match store_get utxo tx_in with
      | None => None
      | Some tx_out =>
          match encode_resolved_pair tx_in tx_out with
          | None => None
          | Some p => match resolved_pairs l utxo with Some pairs => Some (p :: pairs) | None => None end
          end
      end
  end.

(** The inputs, the collateral and the reference inputs. *)
Definition plutus_inputs (inputs : BTreeSet TxIn) (collateral reference_inputs : option (BTreeSet TxIn)) : BTreeSet TxIn :=
  let all := set_of (elements inputs) in
  let all := match collateral with Some c => set_extend all (elements c) | None => all end in
  match reference_inputs with Some r => set_extend all (elements r) | None => all end.

Definition build_resolved_utxos (inputs : BTreeSet TxIn) (collateral reference_inputs : option (BTreeSet TxIn)) (utxo : S) :
    option (list (list Z * list Z)) :=
  resolved_pairs (elements (plutus_inputs inputs collateral reference_inputs)) utxo.
End Resolved.

(** * The units ([tx_eval.rs]) *)

Definition SlotConfig : Type := (Z * Z * Z)%type.
Definition MAINNET_SLOT_CONFIG : SlotConfig := (1506203091000, 0, 1000).

(** [aiken_uplc::tx::eval_phase_two_raw]: the transaction, the resolved outputs, the cost models, the
    budget [(cpu, mem)] and the slot configuration; the answer is a redeemer for every script. *)
Class Aiken : Type := {
  eval_phase_two_raw : list Z -> list (list Z * list Z) -> option (list Z) -> Z * Z -> SlotConfig -> option (list (list Z));
}.

Inductive PlutusError : Type := DecodeFailed | EncodeFailed.

Record PerScriptResult : Type := mk_PerScriptResult { redeemer_cbor : list Z; success : bool; script_cpu : Z; script_mem : Z }.
Record RedeemerFields : Type := mk_RedeemerFields { r_tag : Z; r_index : Z; r_mem : Z; r_cpu : Z }.

(** [.map_err(|_| ..)] and [.ok()?]: the codec's error is dropped. *)
Definition plutus_dec {A} (m : PDec CodecError A) : PDec PlutusError A := fun data off =>
  match m data off with (Ok a, o) => (Ok a, o) | (Err _, o) => (Err DecodeFailed, o) end.
Definition decode_failed {A} : PDec PlutusError A := fun _ off => (Err DecodeFailed, off).
Definition plutus_array (n : Z) : PDec PlutusError unit :=
  dec! enc := plutus_dec (plift id read_array_header) in
  match enc with Definite m _ => if m =? n then pret tt else decode_failed | Indefinite => decode_failed end.
Definition plutus_uint : PDec PlutusError Z := plutus_dec read_u64v.
Definition plutus_skip : PDec PlutusError (Z * Z) := plutus_dec skip_one.

(** [mem], then [cpu]. *)
Definition read_ex_units_pair : PDec PlutusError (Z * Z) :=
  dec! _ := plutus_array 2 in
  dec! mem := plutus_uint in
  dec! cpu := plutus_uint in
  pret (i64_clamp mem, i64_clamp cpu).

Definition redeemer_fields : PDec PlutusError RedeemerFields :=
  dec! _ := plutus_array 4 in
  dec! tag := plutus_uint in
  dec! index := plutus_uint in
  dec! _ := plutus_skip in
  dec! (mem, cpu) := read_ex_units_pair in
  pret (mk_RedeemerFields tag index mem cpu).
Definition extract_redeemer_fields (redeemer_cbor : list Z) : result RedeemerFields PlutusError := fst (redeemer_fields redeemer_cbor 0).

(** The pointer of a redeemer and the [(mem, cpu)] it declares. *)
Definition Declared : Type := ((Z * Z) * (Z * Z))%type.

Definition parse_one_array_redeemer : PDec PlutusError Declared :=
  dec! f := redeemer_fields in pret ((r_tag f, r_index f), (r_mem f, r_cpu f)).
Definition parse_one_map_redeemer : PDec PlutusError Declared :=
  dec! _ := plutus_array 2 in
  dec! tag := plutus_uint in
  dec! index := plutus_uint in
  dec! _ := plutus_array 2 in
  dec! _ := plutus_skip in
  dec! units := read_ex_units_pair in
  pret ((tag, index), units).

(** Past the break byte. *)
Definition each_redeemer (enc : ContainerEncoding) (one : PDec PlutusError Declared) : PDec PlutusError (list Declared) :=
  match enc with
  | Definite n _ => pcollect (Z.to_nat n) one
  | Indefinite => dec! xs := nwhile (plutus_dec at_break) one in consume_break xs
  end.

(** A tag head, skipped by its additional information. *)
Definition skip_tag_head : PDec PlutusError unit := fun data off =>
  match byte_at data off with
  | None => (Ok tt, off)
  | Some b =>
      if Z.shiftr b 5 =? 6 then
        let skip_to adv := if blen data <? off + adv then (Err DecodeFailed, off) else (Ok tt, off + adv) in
        let ai := Z.land b 0x1f in
        if ai <=? 23 then skip_to 1 else if ai =? 24 then skip_to 2 else if ai =? 25 then skip_to 3
        else if ai =? 26 then skip_to 5 else if ai =? 27 then skip_to 9 else (Err DecodeFailed, off)
      else (Ok tt, off)
  end.

Definition peek_redeemers : PDec PlutusError Z := fun data off =>
  match byte_at data off with Some b => (Ok (Z.shiftr b 5), off) | None => (Err DecodeFailed, off) end.

Definition parse_redeemer_block : PDec PlutusError (list Declared) :=
  dec! _ := skip_tag_head in
  dec! major := peek_redeemers in
  match major with
  | 4 => dec! enc := plutus_dec (plift id read_array_header) in each_redeemer enc parse_one_array_redeemer
  | 5 => dec! enc := plutus_dec (plift id read_map_header) in each_redeemer enc parse_one_map_redeemer
  | _ => decode_failed
  end.

Definition read_witness_entry : PDec PlutusError (list Declared) :=
  dec! key := plutus_uint in
  if key =? 5 then parse_redeemer_block else dec! _ := plutus_skip in pret [].

Definition parse_declared_ex_units : PDec PlutusError (list Declared) :=
  dec! _ := plutus_dec (plift id read_array_header) in
  dec! _ := plutus_skip in
  dec! ws := plutus_dec (plift id read_map_header) in
  dec! entries := match ws with
                  | Definite n _ => pcollect (Z.to_nat n) read_witness_entry
                  | Indefinite => nwhile (plutus_dec at_break) read_witness_entry
                  end in
  pret (concat entries).

(** A later redeemer of a pointer replaces an earlier one; a failure leaves no entry. *)
Definition declared_ex_units_by_pointer (tx_cbor : list Z) : BTreeMap (Z * Z) (Z * Z) :=
  match parse_declared_ex_units tx_cbor 0 with
  | (Ok l, _) => fold_left (fun m d => bt_insert m (fst d) (snd d)) l []
  | (Err _, _) => []
  end.

Definition within (declared : BTreeMap (Z * Z) (Z * Z)) (f : RedeemerFields) : bool :=
  match bt_get declared (r_tag f, r_index f) with
  | Some (declared_mem, declared_cpu) => (r_mem f <=? declared_mem) && (r_cpu f <=? declared_cpu)
  | None => false
  end.

Fixpoint script_results (declared : BTreeMap (Z * Z) (Z * Z)) (raw_results : list (list Z)) : result (list PerScriptResult) PlutusError :=
  match raw_results with
  | [] => Ok []
  | r :: raw_results =>
      let? f := extract_redeemer_fields r in
      let? scripts := script_results declared raw_results in
      Ok (mk_PerScriptResult r (within declared f) (r_cpu f) (r_mem f) :: scripts)
  end.

(** A signed 64-bit sum, wrapping. *)
Definition as_i64 (v : Z) : Z := (v + 9223372036854775808) mod 18446744073709551616 - 9223372036854775808.
Definition sum_i64 (l : list Z) : Z := fold_left (fun a b => as_i64 (a + b)) l 0.

Section Evaluate.
Context {HA : Aiken}.

Definition eval_tx_phase_two (tx_cbor : list Z) (resolved_utxos : list (list Z * list Z)) (cost_models_cbor : option (list Z))
    (initial_budget : Z * Z) (slot_config : SlotConfig) : result (list PerScriptResult) PlutusError :=
  match eval_phase_two_raw tx_cbor resolved_utxos cost_models_cbor initial_budget slot_config with
  | None => Err DecodeFailed
  | Some raw_results => script_results (declared_ex_units_by_pointer tx_cbor) raw_results
  end.

Definition try_evaluate_tx {S : Type} `{UtxoStore S} (body_bytes witness_bytes : list Z) (inputs : BTreeSet TxIn)
    (collateral reference_inputs : option (BTreeSet TxIn)) (utxo : S) (initial_budget : Z * Z) (cost_models_cbor : option (list Z)) :
    PlutusEvalOutcome :=
  match build_resolved_utxos inputs collateral reference_inputs utxo with
  | None => Ineligible
  | Some resolved =>
      match eval_tx_phase_two (assemble_full_tx_cbor body_bytes witness_bytes) resolved cost_models_cbor initial_budget MAINNET_SLOT_CONFIG with
      | Err _ => Failed
      | Ok scripts =>
          if existsb (fun s => negb (success s)) scripts then Failed
          else Passed (sum_i64 (map script_cpu scripts)) (sum_i64 (map script_mem scripts)) (blen scripts)
      end
  end.
End Evaluate.

(** * What a pass means *)

(** The transaction declares at least the units the redeemer's script consumed. *)
Definition within_declared (tx_cbor redeemer : list Z) : Prop := exists f declared_mem declared_cpu,
  extract_redeemer_fields redeemer = Ok f /\
  bt_get (declared_ex_units_by_pointer tx_cbor) (r_tag f, r_index f) = Some (declared_mem, declared_cpu) /\
  r_mem f <= declared_mem /\ r_cpu f <= declared_cpu.

Lemma within_ok declared f : within declared f = true <-> exists m c,
  bt_get declared (r_tag f, r_index f) = Some (m, c) /\ r_mem f <= m /\ r_cpu f <= c.
Proof.
  unfold within. destruct (bt_get declared _) as [[m c]|]; [|by split; [|intros (? & ? & ? & _)]].
  rewrite andb_true_iff, !Z.leb_le. split; [by exists m, c|]. by intros (? & ? & [= <- <-] & ?).
Qed.

Lemma script_results_ok declared raws : forall scripts, script_results declared raws = Ok scripts ->
  existsb (fun s => negb (success s)) scripts = false ->
  Forall (fun r => exists f, extract_redeemer_fields r = Ok f /\ within declared f = true) raws.
Proof.
  induction raws as [|r raws IH]; intros scripts H Hs; [constructor|]. cbn [script_results] in H.
  apply rbind_ok_inv in H as (f & Hf & H). apply rbind_ok_inv in H as (l & Hl & [= <-]). cbn [existsb success] in Hs.
  apply orb_false_iff in Hs as [Hw Hs]. constructor; [|by eapply IH]. exists f. split; [done|]. by destruct (within declared f).
Qed.

Lemma resolved_none {S : Type} `{UtxoStore S} (utxo : S) l : resolved_pairs l utxo = None <->
  exists k, k ∈ l /\ (store_get utxo k = None \/ exists a c, store_get utxo k = Some (Out_Byron a c)).
Proof.
  induction l as [|i l IH]; cbn [resolved_pairs]; [by split; [|intros (? & ?%elem_of_nil & _)]|].
  destruct (store_get utxo i) as [out|] eqn:Eg; [|split; [intros _; exists i; split; [by left|by left]|done]].
  destruct (encode_resolved_pair i out) as [p|] eqn:Ep.
  - assert (forall a c, store_get utxo i <> Some (Out_Byron a c)) as Hb by (intros a c E; rewrite Eg in E; injection E as ->; done).
    assert (match resolved_pairs l utxo with Some pairs => Some (p :: pairs) | None => None end = None <-> resolved_pairs l utxo = None) as ->
      by (by destruct (resolved_pairs l utxo)).
    rewrite IH. split; [intros (k & Hk & ?); exists k; split; [by right|done]|].
    intros (k & [->|Hk]%elem_of_cons & [E|(a & c & E)]); [congruence|by destruct (Hb a c)|exists k; split; [done|by left]|].
    exists k. split; [done|]. right. by exists a, c.
  - destruct out as [a c|a v|r a c]; [|done..]. split; [intros _|done]. exists i. split; [by left|]. right. by exists a, c.
Qed.

Section Passing.
Context {HA : Aiken} {S : Type} `{UtxoStore S}.

Lemma phase_two_passed body_bytes witness_bytes ins col refs (utxo : S) budget costs c m n :
  try_evaluate_tx body_bytes witness_bytes ins col refs utxo budget costs = Passed c m n ->
  let tx_cbor := assemble_full_tx_cbor body_bytes witness_bytes in
  exists resolved redeemers, build_resolved_utxos ins col refs utxo = Some resolved /\
    eval_phase_two_raw tx_cbor resolved costs budget MAINNET_SLOT_CONFIG = Some redeemers /\
    Forall (within_declared tx_cbor) redeemers.
Proof.
  unfold try_evaluate_tx. destruct (build_resolved_utxos ins col refs utxo) as [resolved|]; [|done]. unfold eval_tx_phase_two.
  destruct (eval_phase_two_raw _ resolved costs budget MAINNET_SLOT_CONFIG) as [raws|] eqn:Er; [|done].
  destruct (script_results _ raws) as [scripts|e] eqn:Es; [|done]. destruct (existsb _ scripts) eqn:Ex; [done|]. intros _.
  exists resolved, raws. split_and!; [done..|]. pose proof (script_results_ok _ _ _ Es Ex) as Hf.
  eapply Forall_impl; [exact Hf|]. intros r (f & Hr & (dm & dc & Hw)%within_ok). by exists f, dm, dc.
Qed.

(** The evaluator is not asked: an output is missing, or is a Byron output. *)
Lemma phase_two_ineligible body_bytes witness_bytes ins col refs (utxo : S) budget costs :
  try_evaluate_tx body_bytes witness_bytes ins col refs utxo budget costs = Ineligible <->
  exists k, k ∈ elements (plutus_inputs ins col refs) /\
    (store_get utxo k = None \/ exists a c, store_get utxo k = Some (Out_Byron a c)).
Proof.
  rewrite <- resolved_none. unfold try_evaluate_tx, build_resolved_utxos.
  destruct (resolved_pairs _ utxo) as [resolved|]; [|done]. split; [|done].
  destruct (eval_tx_phase_two _ _ _ _ _) as [scripts|e]; [|done]. by destruct (existsb _ scripts).
Qed.
End Passing.
