(* ===== verification/TxValidity.v ===== *)
(** The validity of one Conway transaction ([ade_ledger/src/tx_validity/]): the obligations that need
    no UTxO ([utxo_free.rs]), the decoder and phase 1 ([phase1.rs]), the composition with phase 2 and
    the UTxO effect ([transition.rs]) and the verdicts ([verdict.rs]).

    The ledger state keeps the fields these functions read; [Rest] stands for the others, which they
    copy.  The theorem says what an accepted transaction is: signed by every key it needs, with exactly
    the scripts it needs, on the right network, passed by phase 2 where it is asked, and applied. *)

From S2P Require Import Prelude Rational Cbor CborSkip CborPrefix Envelope NetCodec Spelling Decoder EraSchedule Header Leader Kes BTree BlockCodec BlockValidity NativeScript.
From S2P Require Import LedgerValue Utxo LedgerMaps ConwayCert Delegation Governance ConwayTx Witness ConwayRules UtxoEffect.
From S2P Require Import ConwaySpans ConwayFacts BlockFacts TxSigners ScriptClosure PhaseTwo.

(** * Obligations without the UTxO ([utxo_free.rs]) *)

Definition MAX_BOOTSTRAP_ATTRIBUTES_SIZE : Z := 64.

Definition check_validity_interval (body : ConwayTxBody) (slot : Z) : result unit UtxoFreeRejection :=
  let vi := validity_interval body in
  let after_start := match invalid_before vi with Some b => b <=? slot | None => true end in
  let before_end := match invalid_hereafter vi with Some h => slot <? h | None => true end in
  if after_start && before_end then Ok tt
  else Err (OutsideValidityInterval (invalid_before vi) (invalid_hereafter vi) slot).

(** The network, and the attributes of a bootstrap address. *)
Definition output_network (position : OutputPosition) (out : BabbageTxOut) : result (Z * option BootstrapAttributes) UtxoFreeRejection :=
  match out_address out with
  | [] => Err (EmptyOutputAddress position)
  | first :: _ =>
      if Z.shiftr first 4 =? 0x8 then
        match read_bootstrap_attributes (out_address out) with
        | None => Err (MalformedBootstrapAddress position)
        | Some attrs => Ok (if has_network_magic attrs then 0 else 1, Some attrs)
        end
      else Ok (Z.land first 0x0f, None)
  end.

(** The outputs and their positions: Cardano's [allOutputs]. *)
Definition positioned (body : ConwayTxBody) : list (OutputPosition * BabbageTxOut) :=
  imap (fun i o => (Output_at (Z.of_nat i), o)) (outputs body) ++
  match collateral_return body with Some o => [(Output_CollateralReturn, o)] | None => [] end.

(** What the loop pushes to [bootstrap]. *)
Fixpoint check_positioned (l : list (OutputPosition * BabbageTxOut)) (network_id : Z) :
    result (list (OutputPosition * BootstrapAttributes)) UtxoFreeRejection :=
  match l with
  | [] => Ok []
  | (position, out) :: l =>
      let? (network, attrs) := output_network position out in
      if negb (network =? network_id) then Err (Free_WrongNetworkInOutput position network network_id) else
      let? bootstrap := check_positioned l network_id in
      Ok (match attrs with Some a => (position, a) :: bootstrap | None => bootstrap end)
  end.

Definition account_network (account : list Z) : option Z := match account with h :: _ => Some (Z.land h 0x0f) | [] => None end.

Definition check_withdrawal_networks (w : list Z) (network_id : Z) : result unit UtxoFreeRejection :=
  let? accounts := map_err (fun _ => MalformedWithdrawals) (walk_withdrawal_accounts w) in
  if existsb (fun a => match account_network a with None => true | Some _ => false end) accounts then Err MalformedWithdrawals else
  match List.filter (fun n => negb (n =? network_id)) (omap account_network accounts) with
  | network :: _ => Err (Free_WrongNetworkWithdrawal network network_id)
  | [] => Ok tt
  end.

Fixpoint check_attributes (l : list (OutputPosition * BootstrapAttributes)) : result unit UtxoFreeRejection :=
  match l with
  | [] => Ok tt
  | (position, attrs) :: l =>
      let size := derivation_payload_len attrs + unknown_len attrs in
      if MAX_BOOTSTRAP_ATTRIBUTES_SIZE <? size then Err (BootstrapAttributesTooBig position size) else check_attributes l
  end.

Definition check_tx_networks (body : ConwayTxBody) (network_id : Z) : result unit UtxoFreeRejection :=
  let? bootstrap := check_positioned (positioned body) network_id in
  let? _ := match withdrawals body with Some w => check_withdrawal_networks w network_id | None => Ok tt end in
  let? _ := match ConwayTx.network_id body with
            | Some declared => if negb (declared =? network_id) then Err (Free_WrongNetworkInTxBody declared network_id) else Ok tt
            | None => Ok tt
            end in
  check_attributes bootstrap.

Definition check_utxo_free_tx (body : ConwayTxBody) (slot network_id : Z) : result unit UtxoFreeRejection :=
  let? _ := check_validity_interval body slot in
  check_tx_networks body network_id.

(** The header declares the length of the four segments. *)
Definition check_declared_body_size (block : ShelleyBlock) : result unit UtxoFreeRejection :=
  let actual := blen (bk_tx_bodies block) + blen (bk_witness_sets block) + blen (bk_metadata block) +
                match bk_invalid_txs block with Some b => blen b | None => 0 end in
  let declared := hb_body_size (sh_body (bk_header block)) in
  if declared =? actual then Ok tt else Err (WrongBlockBodySize declared actual).

(** * Verdicts ([verdict.rs]) *)

Inductive TxRejectClass : Type := Phase1Invalid | WitnessInvalid | Class_MissingRequiredSigner | Phase2Invalid | Class_MalformedField.

Inductive TxValidityError : Type :=
| Tx_Decode (e : LedgerError)
| Tx_Witness (e : WitnessClosureError)
| Tx_Phase1 (e : LedgerError)
| Tx_Phase2 (e : LedgerError)
| Tx_MalformedField (e : BV.FieldError).

Definition class (e : TxValidityError) : TxRejectClass :=
  match e with
  | Tx_Decode _ => Class_MalformedField
  | Tx_Witness (MissingRequiredSigner _ _) => Class_MissingRequiredSigner
  | Tx_Witness _ => WitnessInvalid
  | Tx_Phase1 _ => Phase1Invalid
  | Tx_Phase2 _ => Phase2Invalid
  | Tx_MalformedField _ => Class_MalformedField
  end.

(** * The ledger state ([state.rs], [pparams.rs]) *)

(** Shelley's absolute floor or Conway's coefficient per byte. *)
Inductive MinUtxoRule : Type := LegacyAbsoluteMin (c : Coin) | PerByte (c : Coin).

(** Unknown in a snapshot older than the field. *)
Inductive MaxBlockExUnits : Type := MaxBlock_Unversioned | MaxBlock_Bound (mem steps : Z).

Record ProtocolParameters : Type := mk_ProtocolParameters {
  min_fee_a : Coin;
  min_fee_b : Coin;
  max_block_body_size : Z;
  max_tx_size : Z;
  max_block_header_size : Z;
  key_deposit : Coin;
  pool_deposit : Coin;
  e_max : Z;
  n_opt : Z;
  pool_influence : Rational;
  monetary_expansion : Rational;
  treasury_growth : Rational;
  protocol_major : Z;
  protocol_minor : Z;
  min_utxo_rule : MinUtxoRule;
  min_pool_cost : Coin;
  decentralization : Rational;
  collateral_percent : Z;
  max_tx_ex_units_mem : Z;
  max_tx_ex_units_cpu : Z;
  pp_network_id : Z;
  cost_models_cbor : option (list Z);
  max_block_ex_units : MaxBlockExUnits;
}.
Record ConwayOnlyDepositParams : Type := mk_ConwayOnlyDepositParams {
  only_drep_deposit : Coin; only_gov_action_deposit : Coin; only_drep_activity : Z }.
Inductive CertStateProjection : Type := Authoritative (c : CertState) | ReducedUnavailable.
Definition as_authoritative (p : CertStateProjection) : option CertState :=
  match p with Authoritative c => Some c | ReducedUnavailable => None end.

Record LedgerState (Rest : Type) : Type := mk_LedgerState {
  utxo_state : UTxOState;
  protocol_params : ProtocolParameters;
  track_utxo_flag : bool;
  cert_state : CertStateProjection;
  conway_deposit_params : option ConwayOnlyDepositParams;
  rest : Rest;
}.
Arguments mk_LedgerState {Rest}.
Arguments utxo_state {Rest}.
Arguments protocol_params {Rest}.
Arguments track_utxo_flag {Rest}.
Arguments cert_state {Rest}.
Arguments conway_deposit_params {Rest}.
Arguments rest {Rest}.

(** * Decoding ([phase1.rs]) *)

Record DecodedTx : Type := mk_DecodedTx {
  tx_body : ConwayTxBody;
  body_bytes : list Z;
  tx_id : Hash32;
  witness_info : WitnessInfo;
  vkey_witnesses : list VKeyWitnessRef;
  witness_set_bytes : list Z;
}.

(** The two elements that are read, and the bytes they were read from. *)
Definition tx_elements : PDec LedgerError (ConwayTxBody * list Z * list Z) :=
  dec! enc := array_header in
  match enc with
  | Definite n _ =>
      if negb (2 <=? n) then invalid_structure else
      dec! body_start := position in
      dec! body := ledger_dec decode_conway_tx_body in
      dec! body_end := position in
      dec! body_bytes := bytes_between body_start body_end in
      dec! witness_start := position in
      dec! _ := skip in
      dec! witness_end := position in
      dec! witness_set_bytes := bytes_between witness_start witness_end in
      pret (body, body_bytes, witness_set_bytes)
  | Indefinite => invalid_structure
  end.

Section Validity.
Context {HC : Crypto} {HB : Blake224} {HS : Sha3} {HE : Ed25519} {HA : Aiken} {Rest : Type}.

Definition decode_tx (tx_cbor : list Z) : result DecodedTx TxValidityError :=
  let? (body, body_bytes, witness_set_bytes) := map_err Tx_Decode (fst (tx_elements tx_cbor 0)) in
  let? witness_info := map_err Tx_Decode (decode_witness_info_single witness_set_bytes) in
  let? vkey_witnesses := map_err Tx_Decode (decode_conway_vkey_witness_set_single witness_set_bytes) in
  Ok (mk_DecodedTx body body_bytes (blake2b_256 body_bytes) witness_info vkey_witnesses witness_set_bytes).

(** * Phase 1 ([phase1.rs]) *)

(** The outputs of the spend and collateral inputs, or nothing when one is missing. *)
Fixpoint resolve_spends (utxo : UTxOState) (l : list TxIn) (resolved : ResolvedInputs) : option ResolvedInputs :=
  match l with
  | [] => Some resolved
  | input :: l =>
      match utxo_lookup utxo input with
      | Some out => resolve_spends utxo l (bt_insert resolved input (mk_ResolvedOutput (address_bytes out)))
      | None => None
      end
  end.
Definition spends_and_collateral (body : ConwayTxBody) : list TxIn :=
  elements (inputs body) ++ elements (default [] (collateral_inputs body)).

Definition conway_deposit_view (ledger : LedgerState Rest) : result ConwayDepositParams ValidationEnvironmentError :=
  match conway_deposit_params ledger with
  | Some c => Ok (mk_ConwayDepositParams (key_deposit (protocol_params ledger)) (pool_deposit (protocol_params ledger))
                    (only_drep_deposit c) (only_gov_action_deposit c))
  | None => Err MissingConwayDepositParams
  end.

Definition required_of (ledger : LedgerState Rest) (body : ConwayTxBody) : result RequiredSigners RequiredSignerError :=
  if track_utxo_flag ledger then
    match resolve_spends (utxo_state ledger) (spends_and_collateral body) [] with
    | Some resolved => TxSigners.required_signers body resolved Conway
    | None => tx_derived_required_signers body Conway
    end
  else tx_derived_required_signers body Conway.

Definition script_context (ledger : LedgerState Rest) (body : ConwayTxBody) : result (option ResolvedScriptContext) ScriptWitnessError :=
  if track_utxo_flag ledger then resolve_from_utxo body (utxo_lookup (utxo_state ledger)) else Ok None.

Definition state_backed (ledger : LedgerState Rest) (decoded : DecodedTx) : result unit LedgerError :=
  if track_utxo_flag ledger then
    let pp := protocol_params ledger in
    let max_ex_units := (as_i64 (max_tx_ex_units_mem pp), as_i64 (max_tx_ex_units_cpu pp)) in
    let? deposit_params := map_err ValidationEnvironment (conway_deposit_view ledger) in
    let? cert := ok_or (as_authoritative (cert_state ledger)) (ValidationEnvironment ReducedCertStateNotValidatable) in
    validate_conway_state_backed (tx_body decoded) (utxos (utxo_state ledger)) (witness_info decoded) (collateral_percent pp)
      (pp_network_id pp) (as_u16 (protocol_major pp)) max_ex_units deposit_params cert
  else Ok tt.

Definition tx_phase_one (ledger : LedgerState Rest) (decoded : DecodedTx) : result unit TxValidityError :=
  let body := tx_body decoded in
  let? required := map_err (fun e => Tx_Phase1 (RequiredSignerDerivation e)) (required_of ledger body) in
  let? _ := map_err Tx_Witness (verify_required_witnesses (tx_id decoded) required (vkey_witnesses decoded)) in
  let? _ := map_err Tx_Witness (verify_supplied_witnesses (tx_id decoded) (vkey_witnesses decoded) (bootstrap_witnesses (witness_info decoded))) in
  let? _ := map_err (fun e => Tx_Phase1 (UtxoFreeObligation e)) (check_tx_networks body (pp_network_id (protocol_params ledger))) in
  let? context := map_err (fun e => Tx_Phase1 (ScriptWitnessDerivation e)) (script_context ledger body) in
  let? _ := map_err Tx_Phase1 (check_script_witnesses body (witness_info decoded) context) in
  map_err Tx_Phase1 (state_backed ledger decoded).

(** * The composition ([transition.rs]) *)

Inductive TxValidityVerdict : Type :=
| Tx_Valid (tx_id : Hash32) (applied : LedgerState Rest)
| Tx_Invalid (class : TxRejectClass) (error : TxValidityError).
Record TxValidityOutcome : Type := mk_TxValidityOutcome { verdict : TxValidityVerdict; applied : LedgerState Rest }.

Definition invalid (ledger : LedgerState Rest) (error : TxValidityError) : TxValidityOutcome :=
  mk_TxValidityOutcome (Tx_Invalid (class error) error) ledger.

Definition with_utxo (ledger : LedgerState Rest) (u : UTxOState) : LedgerState Rest :=
  mk_LedgerState u (protocol_params ledger) (track_utxo_flag ledger) (cert_state ledger) (conway_deposit_params ledger) (rest ledger).

Definition phase_two (ledger : LedgerState Rest) (decoded : DecodedTx) : PlutusEvalOutcome :=
  let pp := protocol_params ledger in
  try_evaluate_tx (body_bytes decoded) (witness_set_bytes decoded) (inputs (tx_body decoded)) (collateral_inputs (tx_body decoded))
    (reference_inputs (tx_body decoded)) (utxos (utxo_state ledger)) (max_tx_ex_units_cpu pp, max_tx_ex_units_mem pp) (cost_models_cbor pp).

Definition tx_validity (ledger : LedgerState Rest) (tx_cbor : list Z) : TxValidityOutcome :=
  match decode_tx tx_cbor with
  | Err error => invalid ledger error
  | Ok decoded =>
      match tx_phase_one ledger decoded with
      | Err error => invalid ledger error
      | Ok _ =>
          let evolve :=
            match apply_conway_tx_to_utxo (utxo_state ledger) (tx_body decoded) (body_bytes decoded) (tx_id decoded) with
            | Err e => invalid ledger (Tx_Phase1 e)
            | Ok u => mk_TxValidityOutcome (Tx_Valid (tx_id decoded) (with_utxo ledger u)) (with_utxo ledger u)
            end in
          if has_plutus (witness_info decoded) then
            match phase_two ledger decoded with
            | Passed _ _ _ | Ineligible => evolve
            | Failed => invalid ledger (Tx_Phase2 (PlutusExecutionFailed (mk_PlutusExecutionError 0 false)))
            end
          else evolve
      end
  end.
End Validity.
Arguments TxValidityVerdict : clear implicits.
Arguments TxValidityOutcome : clear implicits.

(** * What is read from the body *)

Lemma raw_moves : yields bytes_ok raw_item.
Proof.
  intros data off b o Hd Ho H. apply raw_item_inv in H as [Hi ->]; [|done..]. split; [by apply slice_ok|].
  pose proof (item_end _ _ _ Hd Ho Hi). lia.
Qed.

(** The certificates are kept as the bytes they were read from. *)
Definition certs_kept (f : BodyField) : Prop := match f with F_certs v => bytes_ok v | _ => True end.

Lemma field_certs : yields certs_kept decode_body_field.
Proof.
  intros data off f o Hd Ho H. split.
  - apply pbind_inv in H as (key & q & Hq & H). apply (forward_spans _ (spans_value id)) in Hq; [|done..].
    assert (0 <= q) as Hq0 by lia. unfold decode_body_value in H.
    repeat match type of H with (match ?x with _ => _ end) _ _ = _ => destruct x end;
      try (apply pbind_inv in H as (v & q2 & Hv & [= <- _]); first [done|by apply (raw_moves data q v q2 Hd)]);
      apply pbind_inv in H as (? & ? & _ & H); by apply pbind_inv in H as (v & q2 & _ & [= <- _]).
  - apply (spans_body_field data off f o Hd Ho) in H. assert (off < blen data) as Hlt by (inversion H as [|? ? ? ? ? Hi]; subst; pose proof (item_end _ _ _ Hd Ho Hi); lia).
    pose proof (items_le data 2 off o Hd ltac:(lia) H). lia.
Qed.

Lemma body_certs_ok data off body o c : bytes_ok data -> 0 <= off -> decode_conway_tx_body data off = (Ok body, o) ->
  certs body = Some c -> bytes_ok c.
Proof.
  intros Hd Ho H Hc. apply pbind_inv in H as (n & o1 & H1 & H).
  assert (off <= o1) as Ho1.
  { apply pbind_inv in H1 as (enc & o2 & H1 & H2). apply forward_map in H1; [|done..]. destruct enc; [|done]. by injection H2 as _ <-. }
  apply pbind_inv in H as (fields & o2 & H2 & H).
  apply (yields_pcollect certs_kept) in H2 as [Hf _]; [|apply field_certs|done|lia].
  apply pbind_inv in H as (ins & o3 & _ & H). apply pbind_inv in H as (outs & o4 & _ & H). apply pbind_inv in H as (fe & o5 & _ & [= <- _]).
  cbn [certs body_of] in Hc. unfold assigned in Hc. apply last_Some_elem_of, list_elem_of_omap in Hc as (f & Hin & Hsel).
  rewrite Forall_forall in Hf. specialize (Hf f Hin). destruct f; try done. by injection Hsel as ->.
Qed.

(** * What an accepted transaction is *)

Section Accepted.
Context {HC : Crypto} {HB : Blake224} {HS : Sha3} {HE : Ed25519} {HA : Aiken} {Rest : Type}.
Implicit Types (ledger : LedgerState Rest) (d : DecodedTx).

(** The key owns an output that the transaction spends or puts up as collateral. *)
Definition owner (utxo : UTxOState) (body : ConwayTxBody) (k : Hash28) : Prop := exists input out,
  input ∈ spends_and_collateral body /\ utxo_lookup utxo input = Some out /\ payment_key_hash (address_bytes out) = Ok (Some k).

Lemma accepted_inv ledger tx_cbor id ledger' : verdict (tx_validity ledger tx_cbor) = Tx_Valid id ledger' ->
  exists d u, decode_tx tx_cbor = Ok d /\ tx_phase_one ledger d = Ok tt /\ id = tx_id d /\
    apply_conway_tx_to_utxo (utxo_state ledger) (tx_body d) (body_bytes d) (tx_id d) = Ok u /\
    ledger' = with_utxo ledger u /\ applied (tx_validity ledger tx_cbor) = ledger' /\
    (has_plutus (witness_info d) = true -> phase_two ledger d <> Failed).
Proof.
  unfold tx_validity. destruct (decode_tx tx_cbor) as [d|e]; [|done]. destruct (tx_phase_one ledger d) as [[]|e] eqn:E1; [|done].
  destruct (apply_conway_tx_to_utxo _ _ _ _) as [u|e] eqn:Ea.
  - destruct (has_plutus (witness_info d)) eqn:Ep; [destruct (phase_two ledger d) eqn:E2; try done|];
      intros [= <- <-]; (exists d, u; split_and!; try done; intros ?; congruence).
  - destruct (has_plutus (witness_info d)); [destruct (phase_two ledger d)|]; done.
Qed.

Lemma decoded_inv tx_cbor d : bytes_ok tx_cbor -> decode_tx tx_cbor = Ok d ->
  tx_id d = blake2b_256 (body_bytes d) /\
  (exists from to, 0 <= from /\ decode_conway_tx_body tx_cbor from = (Ok (tx_body d), to) /\ body_bytes d = slice tx_cbor from to) /\
  bytes_ok (witness_set_bytes d) /\ decode_witness_info_single (witness_set_bytes d) = Ok (witness_info d) /\
  decode_conway_vkey_witness_set_single (witness_set_bytes d) = Ok (vkey_witnesses d).
Proof.
  intros Hd H. unfold decode_tx in H. apply rbind_ok_inv in H as ([[body bb] ws] & He & H). apply map_err_ok in He.
  apply rbind_ok_inv in H as (wi & Hw & H). apply map_err_ok in Hw. apply rbind_ok_inv in H as (vs & Hv & [= <-]). apply map_err_ok in Hv.
  cbn [tx_id body_bytes tx_body witness_set_bytes witness_info vkey_witnesses]. destruct (tx_elements tx_cbor 0) as [r o] eqn:Et. cbn [fst] in He. subst r.
  apply pbind_inv in Et as (enc & o1 & H1 & Et). destruct enc as [n w|]; [|done]. destruct (negb (2 <=? n)); [done|].
  apply pbind_inv in Et as (s1 & p1 & [= <- <-] & Et). apply pbind_inv in Et as (body' & o2 & H2 & Et).
  apply pbind_inv in Et as (s2 & p2 & [= <- <-] & Et). apply pbind_inv in Et as (bb' & p3 & [= <- <-] & Et).
  apply pbind_inv in Et as (s3 & p4 & [= <- <-] & Et). apply pbind_inv in Et as (sk & o3 & _ & Et).
  apply pbind_inv in Et as (s4 & p5 & [= <- <-] & Et). apply pbind_inv in Et as (ws' & p6 & [= <- <-] & [= <- <- <- _]).
  assert (0 <= 0) as H0 by done. apply moves_array in H1 as [_ Hle]; [|done..]. split_and!; [done| |by apply slice_ok|done|done].
  exists o1, o2. split; [lia|]. split; [|done]. unfold ledger_dec in H2. destruct (decode_conway_tx_body tx_cbor o1) as [[b|e] o4]; [|done].
  by injection H2 as -> ->.
Qed.

(** ** The signatures *)

Lemma resolved_spends utxo l : forall resolved r, resolve_spends utxo l resolved = Some r ->
  (forall i, i ∈ l -> is_Some (utxo_lookup utxo i)) /\
  (forall i, bt_get r i = if bool_decide (i ∈ l) then option_map (fun o => mk_ResolvedOutput (address_bytes o)) (utxo_lookup utxo i) else bt_get resolved i).
Proof.
  induction l as [|x l IH]; intros resolved r H; cbn [resolve_spends] in H.
  - injection H as <-. split; [by intros i ?%elem_of_nil|done].
  - destruct (utxo_lookup utxo x) as [out|] eqn:Ex; [|done]. destruct (IH _ _ H) as [I1 I2]. split.
    + intros i [->|Hi]%elem_of_cons; [by exists out|by apply I1].
    + intros i. rewrite I2. destruct (decide (i = x)) as [->|Hne].
      * rewrite (bool_decide_eq_true_2 (x ∈ x :: l)) by by left. rewrite Ex. case_bool_decide; [done|]. by rewrite get_insert.
      * rewrite get_insert_ne by (by intros ->). destruct (decide (i ∈ l)).
        -- by rewrite (bool_decide_eq_true_2 (i ∈ l)), (bool_decide_eq_true_2 (i ∈ x :: l)) by (try right; done).
        -- by rewrite (bool_decide_eq_false_2 (i ∈ l)), (bool_decide_eq_false_2 (i ∈ x :: l)) by (try intros [?|?]%elem_of_cons; done).
Qed.

Lemma required_demanded ledger body req k : required_of ledger body = Ok req -> body_demands body k -> demanded req k.
Proof.
  intros H Hk. unfold required_of in H.
  assert (forall r, tx_derived_required_signers body Conway = Ok r -> demanded r k) as Hd.
  { intros r Hr. unfold tx_derived_required_signers in Hr. rewrite bool_decide_eq_true_2 in Hr by done. apply (demanded_body _ _ _ Hr). by left. }
  destruct (track_utxo_flag ledger); [|by apply Hd]. destruct (resolve_spends _ _ _) as [r|]; [|by apply Hd].
  apply (required_signers_exact _ _ _ H). by right; right.
Qed.

Lemma required_owner ledger body req k : track_utxo_flag ledger = true ->
  (forall i, i ∈ spends_and_collateral body -> is_Some (utxo_lookup (utxo_state ledger) i)) ->
  required_of ledger body = Ok req -> owner (utxo_state ledger) body k -> demanded req k.
Proof.
  intros Ht Hall H (i & out & Hi & Hout & Hk). unfold required_of in H. rewrite Ht in H.
  assert (Hres : forall l resolved, (forall i, i ∈ l -> is_Some (utxo_lookup (utxo_state ledger) i)) ->
    is_Some (resolve_spends (utxo_state ledger) l resolved)).
  { induction l as [|x l IH]; intros resolved Hl; [by eexists|]. cbn [resolve_spends].
    destruct (Hl x ltac:(by left)) as [o ->]. apply IH. intros j Hj. apply Hl. by right. }
  destruct (Hres _ [] Hall) as [r Hr]. rewrite Hr in H. apply (required_signers_exact _ _ _ H).
  destruct (resolved_spends _ _ _ _ Hr) as [_ Hg].
  assert (bt_get r i = Some (mk_ResolvedOutput (address_bytes out))) as Hgi by (rewrite Hg, bool_decide_eq_true_2, Hout; done).
  unfold spends_and_collateral in Hi. apply elem_of_app in Hi as [Hi|Hi]; [left|right; left]; by exists i, (mk_ResolvedOutput (address_bytes out)).
Qed.

(** ** The checks of phase 1 *)

Lemma phase_one_inv ledger d : tx_phase_one ledger d = Ok tt ->
  (exists req, required_of ledger (tx_body d) = Ok req /\ verify_required_witnesses (tx_id d) req (vkey_witnesses d) = Ok tt) /\
  verify_supplied_witnesses (tx_id d) (vkey_witnesses d) (bootstrap_witnesses (witness_info d)) = Ok tt /\
  check_tx_networks (tx_body d) (pp_network_id (protocol_params ledger)) = Ok tt /\
  (exists context v, script_context ledger (tx_body d) = Ok context /\
     check_script_witnesses (tx_body d) (witness_info d) context = Ok v) /\
  state_backed ledger d = Ok tt.
Proof.
  intros H. unfold tx_phase_one in H. apply rbind_ok_inv in H as (req & H1 & H). apply map_err_ok in H1.
  apply rbind_ok_inv in H as ([] & H2 & H). apply map_err_ok in H2. apply rbind_ok_inv in H as ([] & H3 & H). apply map_err_ok in H3.
  apply rbind_ok_inv in H as ([] & H4 & H). apply map_err_ok in H4. apply rbind_ok_inv in H as (context & H5 & H). apply map_err_ok in H5.
  apply rbind_ok_inv in H as (v & H6 & H). apply map_err_ok in H6. apply map_err_ok in H.
  split_and!; [by exists req|done|done|by exists context, v|done].
Qed.

Lemma state_backed_inv ledger d : track_utxo_flag ledger = true -> state_backed ledger d = Ok tt ->
  exists params cert, conway_deposit_view ledger = Ok params /\ cert_state ledger = Authoritative cert /\
    validate_conway_state_backed (tx_body d) (utxos (utxo_state ledger)) (witness_info d) (collateral_percent (protocol_params ledger))
      (pp_network_id (protocol_params ledger)) (as_u16 (protocol_major (protocol_params ledger)))
      (as_i64 (max_tx_ex_units_mem (protocol_params ledger)), as_i64 (max_tx_ex_units_cpu (protocol_params ledger))) params cert = Ok tt.
Proof.
  unfold state_backed. intros -> H. apply rbind_ok_inv in H as (params & H1 & H). apply map_err_ok in H1.
  apply rbind_ok_inv in H as (cert & H2 & H). apply ok_or_ok in H2. exists params, cert. split_and!; [done| |done].
  destruct (cert_state ledger); [|done]. by injection H2 as ->.
Qed.

Lemma required_elements body k :
  k ∈ elements (inputs body) ++ elements (default [] (collateral_inputs body)) ++ elements (default [] (reference_inputs body)) ->
  set_contains (collect_required_txins body) k = true.
Proof.
  intros Hk. unfold collect_required_txins, set_of. rewrite !elem_of_app in Hk.
  destruct (reference_inputs body) as [r|], (collateral_inputs body) as [c|]; cbn [default] in Hk;
    rewrite !extend_contains, ?orb_true_iff, ?bool_decide_eq_true; cbn [elements map] in Hk; rewrite ?elem_of_nil in Hk; tauto.
Qed.

Lemma present_lookup utxo (l : BTreeSet TxIn) k : ordered l -> check_inputs_present l (utxos utxo) = Ok tt -> set_contains l k = true ->
  is_Some (utxo_lookup utxo k).
Proof.
  intros Hl Hc Hk. pose proof (inputs_present l (utxos utxo) Hl Hc k Hk) as H. cbn [contains_key overlay_store] in H.
  unfold utxo_lookup. pose proof (overlay_store_laws (utxos utxo) k) as Hm. cbn [contains_key store_get overlay_store] in Hm. rewrite H in Hm.
  by destruct (overlay_get (utxos utxo) k); [eexists|].
Qed.

Lemma all_present ledger d : track_utxo_flag ledger = true -> state_backed ledger d = Ok tt -> forall k,
  k ∈ elements (inputs (tx_body d)) ++ elements (default [] (collateral_inputs (tx_body d))) ++ elements (default [] (reference_inputs (tx_body d))) ->
  is_Some (utxo_lookup (utxo_state ledger) k).
Proof.
  intros Ht Hs k Hk. destruct (state_backed_inv _ _ Ht Hs) as (params & cert & _ & _ & Hv).
  destruct (validated _ _ _ _ _ _ _ _ _ Hv) as (Hin & _). eapply present_lookup; [apply required_ordered|done|]. by apply required_elements.
Qed.

(** The scripts are checked against the outputs, not by the failing ones alone. *)
Lemma scripts_checked ledger d : track_utxo_flag ledger = true -> tx_phase_one ledger d = Ok tt ->
  exists ctx, closed_scripts (tx_body d) (witness_info d) ctx /\
    forall i, i ∈ script_inputs (tx_body d) -> exists out o,
      utxo_lookup (utxo_state ledger) i = Some out /\ from_txout out = Ok o /\ bt_get (ctx_outputs ctx) i = Some o.
Proof.
  intros Ht H. apply phase_one_inv in H as (_ & _ & _ & (context & v & Hc & Hv) & Hs).
  unfold script_context in Hc. rewrite Ht in Hc. apply context_exact in Hc. destruct context as [ctx|].
  - exists ctx. split; [|done]. unfold check_script_witnesses, native_script_verdict in Hv.
    apply rbind_ok_inv in Hv as (v' & Hv' & Hv). apply map_err_ok in Hv'. apply rbind_ok_inv in Hv' as (e & He & [= <-]).
    apply valid_closed. by destruct e.
  - destruct Hc as (i & Hi & Hn). unfold script_inputs in Hi.
    destruct (all_present _ _ Ht Hs i) as [o Ho]; [|congruence]. rewrite !elem_of_app in *. tauto.
Qed.

(** ** The networks *)

Lemma output_network_ok position out n attrs : output_network position out = Ok (n, attrs) -> address_network (out_address out) = Ok n.
Proof.
  unfold output_network, address_network. destruct (out_address out) as [|first l]; [done|].
  destruct (Z.shiftr first 4 =? 8); [|by intros [= <- _]]. destruct (read_bootstrap_attributes _) as [a|]; [|done]. by intros [= <- _].
Qed.

Lemma positioned_networks l n : is_ok (check_positioned l n) = true -> Forall (fun e => address_network (out_address (snd e)) = Ok n) l.
Proof.
  induction l as [|[position out] l IH]; intros H; [constructor|]. cbn [check_positioned] in H.
  destruct (output_network position out) as [[m attrs]|e] eqn:Eo; [|done]. cbn [rbind] in H.
  destruct (Z.eqb_spec m n) as [->|]; [|done]. cbn [negb] in H. apply output_network_ok in Eo.
  destruct (check_positioned l n); [|done]. constructor; [done|]. by apply IH.
Qed.

Lemma networks_ok body n out : check_tx_networks body n = Ok tt -> out ∈ outputs body \/ collateral_return body = Some out ->
  address_network (out_address out) = Ok n.
Proof.
  intros H Hin. unfold check_tx_networks in H. apply rbind_ok_inv in H as (b & Hb & _).
  assert (is_ok (check_positioned (positioned body) n) = true) as Hp by by rewrite Hb.
  apply positioned_networks in Hp. rewrite Forall_forall in Hp.
  enough (exists p, (p, out) ∈ positioned body) as [p Hx] by exact (Hp _ Hx). unfold positioned. destruct Hin as [Hin|Hin].
  - apply list_elem_of_lookup in Hin as [i Hi]. exists (Output_at (Z.of_nat i)). apply elem_of_app. left.
    apply elem_of_lookup_imap. by exists i, out.
  - exists Output_CollateralReturn. rewrite Hin. apply elem_of_app. right. by left.
Qed.

(** ** The effect *)

Lemma produced_elsewhere bb id l : forall o idx, overlay_ok o ->
  let r := fst (fold_left (produce_output bb id) l (o, idx)) in
  overlay_ok r /\ forall k, tx_hash k <> id -> overlay_get r k = overlay_get o k.
Proof.
  induction l as [|e l IH]; intros o idx Ho; cbn [fold_left fst]; [done|]. cbn [produce_output].
  destruct (insert_step o (id, as_u16 idx) (out_of bb (fst e) (snd e)) Ho) as [H1 H2]. destruct (IH _ (idx + 1) H1) as [H3 H4].
  split; [done|]. intros k Hk. rewrite H4 by done. rewrite <- !to_map_get by done. rewrite H2, get_insert_ne; [done|]. by intros <-.
Qed.

Lemma spent_and_kept u body bb id u' : overlay_ok (utxos u) -> apply_conway_tx_to_utxo u body bb id = Ok u' ->
  overlay_ok (utxos u') /\ forall k, tx_hash k <> id ->
    utxo_lookup u' k = if bool_decide (k ∈ elements (inputs body)) then None else utxo_lookup u k.
Proof.
  intros Ho H. unfold apply_conway_tx_to_utxo in H. apply rbind_ok_inv in H as (sl & _ & [= <-]). cbn [utxos].
  destruct (remove_steps (elements (inputs body)) (utxos u) Ho) as [R1 R2].
  destruct (produced_elsewhere bb id (List.combine (outputs body) sl) _ 0 R1) as [P1 P2]. split; [done|].
  intros k Hk. unfold utxo_lookup. cbn [utxos]. rewrite P2 by done. rewrite <- !to_map_get by done. by rewrite R2, remove_list_get.
Qed.

(** The certificates' credentials are among those the body demands. *)
Lemma certificate_demanded body data cs k : bytes_ok data -> certs body = Some data -> decode_conway_certs data = Ok cs ->
  (exists r0 r1, require_from_body body r0 = Ok r1) -> Cred_Key k ∈ concat (map cert_credentials cs) -> body_demands body k.
Proof.
  intros Hd Hc Hcs (r0 & r3 & Hr) Hk. unfold require_from_body in Hr. apply rbind_ok_inv in Hr as (r1 & _ & Hr).
  apply rbind_ok_inv in Hr as (r2 & Hr & _). unfold collect_keys in Hr. rewrite Hc in Hr. apply rbind_ok_inv in Hr as (cs' & Hw & _).
  right; right; left. exists data, cs'. split_and!; [done..|]. by rewrite (certificates_agree _ _ _ Hd Hw Hcs).
Qed.

Lemma from_body_ok ledger body req : required_of ledger body = Ok req -> exists r0 r1, require_from_body body r0 = Ok r1.
Proof.
  unfold required_of, TxSigners.required_signers, tx_derived_required_signers. rewrite bool_decide_eq_true_2 by done. cbn [negb].
  destruct (track_utxo_flag ledger); [destruct (resolve_spends _ _ _)|]; [|by eexists _, _..].
  intros H. apply rbind_ok_inv in H as (q1 & _ & H). apply rbind_ok_inv in H as (q2 & _ & H). by eexists _, _.
Qed.

(** ** Acceptance *)

(** Every key that must sign has a witness whose signature of the transaction id verifies. *)
Definition signed (utxo : UTxOState) (d : DecodedTx) : Prop :=
  (forall k, owner utxo (tx_body d) k \/ body_demands (tx_body d) k -> Exists (signs (tx_id d) k) (vkey_witnesses d)) /\
  (forall data cs k, certs (tx_body d) = Some data -> decode_conway_certs data = Ok cs -> Cred_Key k ∈ concat (map cert_credentials cs) ->
     Exists (signs (tx_id d) k) (vkey_witnesses d)) /\
  Forall (fun w => ed_verify (vkey w) (tx_id d) (signature w) = Some true) (vkey_witnesses d) /\
  Forall (fun w => ed_verify (boot_vkey w) (tx_id d) (boot_signature w) = Some true) (bootstrap_witnesses (witness_info d)).

(** Exactly the needed scripts are given, judged against the outputs in the UTxO. *)
Definition scripts_hold (utxo : UTxOState) (d : DecodedTx) : Prop := exists ctx,
  closed_scripts (tx_body d) (witness_info d) ctx /\
  forall i, i ∈ script_inputs (tx_body d) -> exists out o,
    utxo_lookup utxo i = Some out /\ from_txout out = Ok o /\ bt_get (ctx_outputs ctx) i = Some o.

(** The Plutus scripts ran within their units, unless an output is missing or is a Byron output. *)
Definition scripts_ran ledger d : Prop :=
  let tx_cbor := assemble_full_tx_cbor (body_bytes d) (witness_set_bytes d) in
  let pp := protocol_params ledger in
  (exists k a c, k ∈ elements (plutus_inputs (inputs (tx_body d)) (collateral_inputs (tx_body d)) (reference_inputs (tx_body d))) /\
     utxo_lookup (utxo_state ledger) k = Some (Out_Byron a c)) \/
  exists resolved redeemers,
    eval_phase_two_raw tx_cbor resolved (cost_models_cbor pp) (max_tx_ex_units_cpu pp, max_tx_ex_units_mem pp) MAINNET_SLOT_CONFIG = Some redeemers /\
    Forall (within_declared tx_cbor) redeemers.

Lemma accepted_signed ledger tx_cbor d : bytes_ok tx_cbor -> track_utxo_flag ledger = true -> decode_tx tx_cbor = Ok d ->
  tx_phase_one ledger d = Ok tt -> signed (utxo_state ledger) d.
Proof.
  intros Hd Ht Hdec H. destruct (decoded_inv _ _ Hd Hdec) as (_ & (from & to & Hf & Hbody & _) & _).
  destruct (phase_one_inv _ _ H) as ((req & Hreq & Hcov) & Hsup & _ & _ & Hsb).
  apply verify_required_ok in Hcov as [_ Hcov]. unfold verify_supplied_witnesses in Hsup. apply rbind_ok_inv in Hsup as ([] & Hv & Hb).
  apply verify_vkeys_ok in Hv. apply verify_bootstrap_ok in Hb.
  assert (forall k, demanded req k -> Exists (signs (tx_id d) k) (vkey_witnesses d)) as Hsign.
  { intros k Hk. rewrite Forall_forall in Hcov. apply Hcov. unfold demanded in Hk. apply contains_get in Hk as [[] Hk].
    clear -Hk. induction (keys req) as [|[x []] l IH]; [done|]. cbn [elements map]. apply elem_of_cons. cbn [bt_get] in Hk.
    destruct (cmp k x) eqn:E; [apply cmp_eq in E; by left|right; by apply IH..]. }
  split_and!.
  - intros k [Hk|Hk]; apply Hsign; [|by eapply required_demanded]. eapply required_owner; [done| |done|done].
    intros i Hi. apply (all_present ledger d Ht Hsb). unfold spends_and_collateral in Hi. rewrite !elem_of_app in *. tauto.
  - intros data cs k Hc Hcs Hk. apply Hsign. eapply required_demanded; [done|].
    eapply certificate_demanded; [by eapply body_certs_ok|done|done| |done]. by eapply from_body_ok.
  - eapply Forall_impl; [exact Hv|]. by intros w [_ ?].
  - eapply Forall_impl; [exact Hb|]. by intros w [_ ?].
Qed.

Lemma accepted_ran ledger d : track_utxo_flag ledger = true -> tx_phase_one ledger d = Ok tt -> phase_two ledger d <> Failed -> scripts_ran ledger d.
Proof.
  intros Ht H Hp. apply phase_one_inv in H as (_ & _ & _ & _ & Hsb). unfold scripts_ran. destruct (phase_two ledger d) as [|c m n|] eqn:E; [left|right|done].
  - apply phase_two_ineligible in E as (k & Hk & Hb). assert (is_Some (utxo_lookup (utxo_state ledger) k)) as [out Ho].
    { apply (all_present _ _ Ht Hsb). clear -Hk. unfold plutus_inputs, set_of in Hk. rewrite !elem_of_app.
      assert (forall (s : BTreeSet TxIn) l, k ∈ elements (set_extend s l) -> k ∈ l \/ k ∈ elements s) as He.
      { intros s l. revert s. induction l as [|x l IH]; intros s Hin; [by right|]. cbn in Hin. apply IH in Hin as [?|Hin]; [left; by right|].
        apply list_elem_of_fmap in Hin as ([x' u] & -> & Hin). apply insert_keys in Hin as [[= -> _]|Hin]; [left; by left|right].
        apply list_elem_of_fmap. by exists (x', u). }
      destruct (reference_inputs _), (collateral_inputs _); cbn [default] in *; repeat (apply He in Hk as [Hk|Hk]); try tauto; by apply elem_of_nil in Hk. }
    destruct Hb as [Hn|(a & c & Hb)]; [|by exists k, a, c]. unfold utxo_lookup in Ho. cbn [store_get overlay_store] in Hn. congruence.
  - apply phase_two_passed in E as (resolved & redeemers & _ & He & Hw). by exists resolved, redeemers.
Qed.

End Accepted.
