(* ===== verification/Mempool.v ===== *)
(** The mempool ([ade_ledger/src/mempool/]): admission over the validity of a transaction
    ([admit.rs]), the entry from the wire ([ingress.rs]), the order in which the queues of several peers
    are drained ([canonicalize.rs]) and the order of the admitted ids ([policy.rs]).

    The theorems: whatever is offered, in any order, the admitted transactions are valid one after the
    other, each in the state the earlier ones leave, and none spends an output that an earlier one has
    spent; and the canonical order of the peers' queues keeps every transaction and every peer's order
    and does not depend on the order of the queues. *)

From Stdlib Require Import Sorting.Sorted.
From stdpp Require Import sorting.
From S2P Require Import Prelude Cbor NetCodec EraSchedule Header Leader Kes BTree BlockValidity Candidates.
From S2P Require Import LedgerValue Utxo LedgerMaps ConwayTx ConwayRules UtxoEffect ConwayFacts Witness PhaseTwo TxValidity.

(** * Admission ([admit.rs]) *)

Section Admission.
Context {HC : Crypto} {HB : Blake224} {HS : Sha3} {HE : Ed25519} {HA : Aiken} {Rest : Type}.

Record MempoolState : Type := mk_MempoolState { accepted : list Hash32; accumulating : LedgerState Rest }.
Definition mempool_new (base : LedgerState Rest) : MempoolState := mk_MempoolState [] base.

Inductive AdmitOutcome : Type := Outcome_Admitted (tx_id : Hash32) | Outcome_Rejected (class : TxRejectClass) (error : TxValidityError).

Definition mempool_admit (mempool : MempoolState) (tx_cbor : list Z) : MempoolState * AdmitOutcome :=
  match verdict (tx_validity (accumulating mempool) tx_cbor) with
  | Tx_Valid id applied => (mk_MempoolState (accepted mempool ++ [id]) applied, Outcome_Admitted id)
  | Tx_Invalid class error => (mempool, Outcome_Rejected class error)
  end.

(** * The entry from the wire ([ingress.rs]) *)

Inductive IngressSource : Type := N2N | N2C.
Record IngressEvent : Type := mk_IngressEvent { source : IngressSource; tx_bytes : list Z }.

Definition mempool_ingress (mempool : MempoolState) (event : IngressEvent) : MempoolState * AdmitOutcome :=
  mempool_admit mempool (tx_bytes event).

(** A run of the mempool over the events. *)
Definition ingest (mempool : MempoolState) (events : list IngressEvent) : MempoolState :=
  fold_left (fun m e => fst (mempool_ingress m e)) events mempool.

(** * The order of the admitted ids ([policy.rs]) *)

Inductive OrderPolicy : Type := ArrivalOrder | TxIdAscending.
Definition order (mempool : MempoolState) (policy : OrderPolicy) : list Hash32 :=
  match policy with
  | ArrivalOrder => accepted mempool
  | TxIdAscending => sort_by cmp (accepted mempool)
  end.
End Admission.

(** * The queues of the peers ([canonicalize.rs]) *)

Definition PeerId : Type := list Z.
Record PeerSubmissionQueue : Type := mk_PeerSubmissionQueue { q_peer : PeerId; q_source : IngressSource; q_txs : list (list Z) }.

Definition source_byte (s : IngressSource) : Z := match s with N2N => 0 | N2C => 1 end.

Definition queue_order (a b : PeerSubmissionQueue) : comparison :=
  match cmp (q_peer a) (q_peer b) with Eq => cmp (source_byte (q_source a)) (source_byte (q_source b)) | ord => ord end.

(** The round [i]: the [i]th transaction of every queue that has one. *)
Definition round (sorted : list PeerSubmissionQueue) (i : nat) : list IngressEvent :=
  omap (fun q => option_map (mk_IngressEvent (q_source q)) (list_lookup i (q_txs q))) sorted.

Definition longest (queues : list PeerSubmissionQueue) : nat := foldr (fun q n => Nat.max (length (q_txs q)) n) 0%nat queues.

Definition canonicalize_peer_streams (queues : list PeerSubmissionQueue) : list IngressEvent :=
  let sorted := sort_by queue_order queues in
  concat (map (round sorted) (seq 0 (longest sorted))).

(** * Runs of admissions *)

Section Runs.
Context {HC : Crypto} {HB : Blake224} {HS : Sha3} {HE : Ed25519} {HA : Aiken} {Rest : Type}.
Implicit Types (base s : LedgerState Rest) (d : DecodedTx).

(** The transactions, each valid in the state the earlier ones leave. *)
Inductive admitted_run base : list DecodedTx -> LedgerState Rest -> Prop :=
| run_none : admitted_run base [] base
| run_next ds s tx_cbor d s' : admitted_run base ds s -> bytes_ok tx_cbor -> decode_tx tx_cbor = Ok d ->
    verdict (tx_validity s tx_cbor) = Tx_Valid (tx_id d) s' -> admitted_run base (ds ++ [d]) s'.

(** What the offers come to, each judged in the state that the valid ones before it leave: [ds] are the
    valid ones, [s] the state they lead to, and an invalid one changes nothing. *)
Inductive offered base : list IngressEvent -> list DecodedTx -> LedgerState Rest -> Prop :=
| offered_none : offered base [] [] base
| offered_valid events ds s e d s' : offered base events ds s -> decode_tx (tx_bytes e) = Ok d ->
    verdict (tx_validity s (tx_bytes e)) = Tx_Valid (tx_id d) s' -> offered base (events ++ [e]) (ds ++ [d]) s'
| offered_invalid events ds s e class error : offered base events ds s ->
    verdict (tx_validity s (tx_bytes e)) = Tx_Invalid class error -> offered base (events ++ [e]) ds s.

Lemma ingest_offered base events : exists ds, let m := ingest (mempool_new base) events in
  offered base events ds (accumulating m) /\ accepted m = map tx_id ds.
Proof.
  induction events as [|e events (ds & Ho & Ha)] using rev_ind; [exists []; by split; [constructor|]|].
  cbv zeta in *. unfold ingest in *. rewrite fold_left_app. cbn [fold_left].
  set (m := fold_left _ events _) in *. unfold mempool_ingress, mempool_admit.
  destruct (verdict (tx_validity (accumulating m) (tx_bytes e))) as [id s|c err] eqn:Ev; cbn [fst accepted accumulating].
  - destruct (accepted_inv _ _ _ _ Ev) as (d & u & Hdec & _ & -> & _). exists (ds ++ [d]). rewrite Ha, map_app.
    split; [by eapply offered_valid|done].
  - exists ds. split; [by eapply offered_invalid|done].
Qed.

Lemma offered_run base events ds s : offered base events ds s -> Forall (fun e => bytes_ok (tx_bytes e)) events ->
  admitted_run base ds s.
Proof.
  induction 1 as [|events ds s e d s' Ho IH Hdec Hv|events ds s e c err Ho IH Hv]; intros Hb; [constructor| |];
    apply Forall_app in Hb as [Hb He]; [|by apply IH].
  rewrite Forall_singleton in He. eapply run_next; [by apply IH|exact He|exact Hdec|exact Hv].
Qed.

(** Each admitted transaction is one of the offers, valid in the state the offers before it left. *)
Lemma offered_prefix base events ds s : offered base events ds s -> forall i d, ds !! i = Some d -> exists j e s_i s',
  events !! j = Some e /\ offered base (take j events) (take i ds) s_i /\ decode_tx (tx_bytes e) = Ok d /\
  verdict (tx_validity s_i (tx_bytes e)) = Tx_Valid (tx_id d) s'.
Proof.
  assert (forall events e j (e' : IngressEvent), events !! j = Some e' ->
    (events ++ [e]) !! j = Some e' /\ take j (events ++ [e]) = take j events) as Hgrow.
  { intros evs e j e' Hj. pose proof (lookup_lt_Some _ _ _ Hj). split; [by rewrite lookup_app_l|by rewrite take_app_le by lia]. }
  induction 1 as [|events ds s e d' s' Ho IH Hdec Hv|events ds s e c err Ho IH Hv]; intros i d Hi; [done| |].
  - apply lookup_snoc_Some in Hi as [[Hlt Hi]|[-> <-]].
    + destruct (IH i d Hi) as (j & e' & s_i & s'' & Hj & Hp & Hr). destruct (Hgrow events e j e' Hj) as [Hj' Ht].
      exists j, e', s_i, s''. rewrite Ht, take_app_le by lia. by split.
    + exists (length events), e, s, s'. rewrite list_lookup_middle by done. by rewrite !take_app_length.
  - destruct (IH i d Hi) as (j & e' & s_i & s'' & Hj & Hp & Hr). destruct (Hgrow events e j e' Hj) as [Hj' Ht].
    exists j, e', s_i, s''. by rewrite Ht.
Qed.

(** One step: the inputs are there before, gone after, and nothing else is touched. *)
Lemma admitted_step s tx_cbor d s' : overlay_ok (utxos (utxo_state s)) -> track_utxo_flag s = true -> decode_tx tx_cbor = Ok d ->
  verdict (tx_validity s tx_cbor) = Tx_Valid (tx_id d) s' ->
  (exists u, s' = with_utxo s u) /\ overlay_ok (utxos (utxo_state s')) /\
  (forall k, k ∈ elements (inputs (tx_body d)) -> is_Some (utxo_lookup (utxo_state s) k)) /\
  (forall k, tx_hash k <> tx_id d ->
     utxo_lookup (utxo_state s') k = if bool_decide (k ∈ elements (inputs (tx_body d))) then None else utxo_lookup (utxo_state s) k).
Proof.
  intros Ho Ht Hdec Hv. destruct (accepted_inv _ _ _ _ Hv) as (d' & u & Hdec' & Hp & _ & Ha & -> & _ & _).
  rewrite Hdec in Hdec'. injection Hdec' as <-. destruct (spent_and_kept _ _ _ _ _ Ho Ha) as [Ho' He].
  split_and!; [by exists u|done| |done]. intros k Hk. apply phase_one_inv in Hp as (_ & _ & _ & _ & Hsb).
  apply (all_present _ _ Ht Hsb). apply elem_of_app. by left.
Qed.

Lemma run_state base ds s : admitted_run base ds s -> overlay_ok (utxos (utxo_state base)) -> track_utxo_flag base = true ->
  (exists u, s = with_utxo base u) /\ overlay_ok (utxos (utxo_state s)) /\ track_utxo_flag s = true.
Proof.
  intros Hr Ho Ht. induction Hr as [|ds s cbor d s' _ ([u ->] & Ho1 & Ht1) _ Hdec Hv].
  - split_and!; [|done..]. exists (utxo_state base). by destruct base.
  - destruct (admitted_step _ _ _ _ Ho1 Ht1 Hdec Hv) as ([u' ->] & Ho' & _). split_and!; [by exists u'|done|done].
Qed.

(** A spent output is gone for good, unless a later transaction has its id. *)
Lemma spent_gone base ds s : admitted_run base ds s -> overlay_ok (utxos (utxo_state base)) -> track_utxo_flag base = true ->
  forall i d x, ds !! i = Some d -> x ∈ elements (inputs (tx_body d)) ->
    Forall (fun e => tx_id e <> tx_hash x) (drop i ds) -> utxo_lookup (utxo_state s) x = None.
Proof.
  intros Hr Ho Ht. induction Hr as [|ds s cbor d' s' Hr IH Hb Hdec Hv]; intros i d x Hi Hx Hn; [done|].
  destruct (run_state _ _ _ Hr Ho Ht) as (_ & Ho1 & Ht1).
  destruct (admitted_step _ _ _ _ Ho1 Ht1 Hdec Hv) as (_ & _ & _ & He).
  assert (tx_hash x <> tx_id d') as Hne.
  { rewrite Forall_forall in Hn. specialize (Hn d'). intros E. apply Hn; [|done]. apply list_elem_of_lookup. exists (length ds - i)%nat.
    apply lookup_lt_Some in Hi. rewrite length_app in Hi. cbn in Hi. rewrite lookup_drop.
    replace (i + (length ds - i))%nat with (length ds) by lia. by rewrite list_lookup_middle. }
  rewrite He by done. apply lookup_snoc_Some in Hi as [[Hlt Hi]|[-> <-]].
  - rewrite (IH i d x Hi Hx); [by case_bool_decide|]. rewrite drop_app_le in Hn by lia. by apply Forall_app in Hn as [? _].
  - by rewrite bool_decide_eq_true_2.
Qed.

(** Two admitted transactions spend the same output only if the second spends an output of the first or
    of one between them. *)
Lemma no_double_spend base ds s : admitted_run base ds s -> overlay_ok (utxos (utxo_state base)) -> track_utxo_flag base = true ->
  forall i j d1 d2 x, (i < j)%nat -> ds !! i = Some d1 -> ds !! j = Some d2 ->
    x ∈ elements (inputs (tx_body d1)) -> x ∈ elements (inputs (tx_body d2)) ->
    exists k d, (i <= k < j)%nat /\ ds !! k = Some d /\ tx_id d = tx_hash x.
Proof.
  intros Hr Ho Ht. induction Hr as [|ds s cbor d' s' Hr IH Hb Hdec Hv]; intros i j d1 d2 x Hij Hi Hj H1 H2; [done|].
  assert ((i < length ds)%nat) as Hlt by (apply lookup_lt_Some in Hj; rewrite length_app in Hj; cbn in Hj; lia).
  rewrite (lookup_app_l ds [d'] i Hlt) in Hi. apply lookup_snoc_Some in Hj as [[Hlj Hj]|[-> <-]].
  - destruct (IH i j d1 d2 x Hij Hi Hj H1 H2) as (k & d & Hk & Hd & E). exists k, d. split_and!; [lia..| |done].
    by rewrite lookup_app_l by lia.
  - destruct (run_state _ _ _ Hr Ho Ht) as (_ & Ho1 & Ht1).
    destruct (admitted_step _ _ _ _ Ho1 Ht1 Hdec Hv) as (_ & _ & Hin & _). destruct (Hin x H2) as [out Hout].
    destruct (decide (Exists (fun e => tx_id e = tx_hash x) (drop i ds))) as [He|Hne].
    + apply Exists_exists in He as (d & Hd & E). apply list_elem_of_lookup in Hd as [k Hk]. rewrite lookup_drop in Hk.
      exists (i + k)%nat, d. pose proof (lookup_lt_Some _ _ _ Hk). split_and!; [lia..| |done]. by rewrite lookup_app_l by lia.
    + rewrite <- Forall_Exists_neg in Hne. by rewrite (spent_gone _ _ _ Hr Ho Ht i d1 x Hi H1 Hne) in Hout.
Qed.

(** C7. The mempool over any sequence of offers, on a ledger state whose UTxO is tracked: it holds exactly
    the ids of the transactions that are valid when their turn comes, each judged in the state the valid
    ones before it leave, in the order of the offers, and that state is the one it keeps; an invalid offer
    changes nothing.  Each of them was signed and carried its scripts in that state and found its inputs
    there; two of them spend the same output only if a transaction admitted in between (the first of them
    included) has the id of that output, so that it was created anew; and of the ledger state only the
    UTxO has changed. *)
Theorem mempool_admits_valid base events (Hd : Forall (fun e => bytes_ok (tx_bytes e)) events)
    (Ho : overlay_ok (utxos (utxo_state base))) (Ht : track_utxo_flag base = true) :
  exists ds, let m := ingest (mempool_new base) events in
    offered base events ds (accumulating m) /\ accepted m = map tx_id ds /\
    (forall i d, ds !! i = Some d -> exists j e s, events !! j = Some e /\ decode_tx (tx_bytes e) = Ok d /\
       offered base (take j events) (take i ds) s /\ signed (utxo_state s) d /\ scripts_hold (utxo_state s) d /\
       forall k, k ∈ elements (inputs (tx_body d)) -> is_Some (utxo_lookup (utxo_state s) k)) /\
    (forall i j d1 d2 x, (i < j)%nat -> ds !! i = Some d1 -> ds !! j = Some d2 ->
       x ∈ elements (inputs (tx_body d1)) -> x ∈ elements (inputs (tx_body d2)) ->
       exists k d, (i <= k < j)%nat /\ ds !! k = Some d /\ tx_id d = tx_hash x) /\
    exists u, accumulating m = with_utxo base u.
Proof.
  destruct (ingest_offered base events) as (ds & Hof & Ha). pose proof (offered_run _ _ _ _ Hof Hd) as Hr.
  exists ds. split_and!; [done|done| | |].
  - intros i d Hi. destruct (offered_prefix _ _ _ _ Hof i d Hi) as (j & e & s & s' & Hj & Hp & Hdec & Hv).
    assert (bytes_ok (tx_bytes e)) as Hb by (rewrite Forall_forall in Hd; apply Hd, list_elem_of_lookup; by exists j).
    assert (admitted_run base (take i ds) s) as Hp' by (eapply offered_run; [exact Hp|by apply Forall_take]).
    exists j, e, s. destruct (run_state _ _ _ Hp' Ho Ht) as (_ & Ho1 & Ht1).
    destruct (accepted_inv _ _ _ _ Hv) as (d' & u & Hdec' & Hone & _). rewrite Hdec in Hdec'. injection Hdec' as <-.
    destruct (admitted_step _ _ _ _ Ho1 Ht1 Hdec Hv) as (_ & _ & Hin & _).
    split_and!; [done..|by eapply accepted_signed|by apply scripts_checked|done].
  - intros i j d1 d2 x. by apply (no_double_spend base ds _ Hr Ho Ht).
  - by destruct (run_state _ _ _ Hr Ho Ht) as (? & _).
Qed.
End Runs.

(** * The canonical order of the queues *)

Definition events_of (q : PeerSubmissionQueue) : list IngressEvent := map (mk_IngressEvent (q_source q)) (q_txs q).

Definition nth_event (i : nat) (q : PeerSubmissionQueue) : option IngressEvent := events_of q !! i.

Lemma omap_step {A B} (f : A -> option B) x l : omap f (x :: l) = match f x with Some y => y :: omap f l | None => omap f l end.
Proof. done. Qed.

Lemma nth_event_lookup i q : nth_event i q = option_map (mk_IngressEvent (q_source q)) (list_lookup i (q_txs q)).
Proof. unfold nth_event, events_of. exact (list_lookup_fmap (mk_IngressEvent (q_source q)) (q_txs q) i). Qed.

Lemma round_nth sorted i : round sorted i = omap (nth_event i) sorted.
Proof.
  induction sorted as [|q l IH]; [done|]. unfold round in *. rewrite !omap_step, <- nth_event_lookup, IH. done.
Qed.

Lemma omap_map {A B C} (f : A -> B) (g : B -> option C) l : omap g (map f l) = omap (fun a => g (f a)) l.
Proof. induction l as [|a l IH]; [done|]. cbn. unfold omap in IH. destruct (g (f a)); [f_equal|]; exact IH. Qed.

Lemma omap_seq {A} (l : list A) : forall n, (length l <= n)%nat -> omap (fun i => l !! i) (seq 0 n) = l.
Proof.
  induction l as [|x l IH]; intros n Hn.
  - clear Hn. induction (seq 0 n) as [|i ix IHi]; [done|]. exact IHi.
  - destruct n as [|n]; [cbn in Hn; lia|]. cbn [seq]. rewrite omap_step. cbn [lookup list_lookup]. f_equal. rewrite <- seq_shift, omap_map. cbn in Hn. apply IH. lia.
Qed.

Lemma longest_bound queues q : q ∈ queues -> (length (q_txs q) <= longest queues)%nat.
Proof.
  unfold longest. induction queues as [|q' l IH]; [by intros ?%elem_of_nil|]. intros [->|Hq]%elem_of_cons; cbn [foldr]; [lia|].
  specialize (IH Hq). lia.
Qed.

Lemma omap_exchange {I Q E : Type} (f : I -> Q -> option E) (qs : list Q) (ix : list I) :
  concat (map (fun i => omap (f i) qs) ix) ≡ₚ concat (map (fun q => omap (fun i => f i q) ix) qs).
Proof.
  induction qs as [|q qs IH]; cbn [map concat].
  - induction ix as [|i ix IHi]; [done|]. exact IHi.
  - rewrite <- IH. clear IH. induction ix as [|i ix IHi]; [done|]. cbn [map concat]. rewrite !omap_step.
    destruct (f i q) as [e|]; cbn [app]; [constructor|]; rewrite IHi; apply Permutation_app_swap_app.
Qed.

(** Every queue's events, as read off the rounds. *)
Lemma events_rounds queues q : q ∈ queues -> omap (fun i => nth_event i q) (seq 0 (longest queues)) = events_of q.
Proof. intros Hq. apply omap_seq. unfold events_of. rewrite length_map. by apply longest_bound. Qed.

Lemma canonical_rounds queues : canonicalize_peer_streams queues =
  concat (map (fun i => omap (nth_event i) (sort_by queue_order queues)) (seq 0 (longest (sort_by queue_order queues)))).
Proof. unfold canonicalize_peer_streams. f_equal. apply map_ext. intros i. apply round_nth. Qed.

Lemma canonical_complete queues : canonicalize_peer_streams queues ≡ₚ concat (map events_of queues).
Proof.
  rewrite canonical_rounds, omap_exchange. rewrite (map_ext_in _ events_of).
  - by rewrite (sort_by_perm queue_order queues).
  - intros q Hq%list_elem_of_In. by apply events_rounds.
Qed.

Lemma omap_sublist {Q E : Type} (f : Q -> option E) q (qs : list Q) : q ∈ qs -> (match f q with Some e => [e] | None => [] end) `sublist_of` omap f qs.
Proof.
  intros (l1 & l2 & ->)%list_elem_of_split. rewrite omap_app. apply sublist_inserts_l. rewrite omap_step.
  destruct (f q); [apply sublist_skip|]; apply sublist_nil_l.
Qed.

Lemma canonical_in_order queues q : q ∈ queues -> events_of q `sublist_of` canonicalize_peer_streams queues.
Proof.
  intros Hq. rewrite canonical_rounds. rewrite <- (sort_by_perm queue_order queues) in Hq.
  rewrite <- (events_rounds _ _ Hq). generalize (seq 0 (longest (sort_by queue_order queues))) as ix. intros ix.
  induction ix as [|i ix IH]; [constructor|]. rewrite omap_step. cbn [map concat].
  pose proof (omap_sublist (nth_event i) q _ Hq) as Hs. destruct (nth_event i q) as [e|]; [exact (sublist_app _ _ _ _ Hs IH)|].
  by apply sublist_inserts_l.
Qed.

(** ** One order for each set of queues *)

Definition queue_key (q : PeerSubmissionQueue) : PeerId * Z := (q_peer q, source_byte (q_source q)).

Lemma queue_order_key a b : queue_order a b = cmp (queue_key a) (queue_key b).
Proof. done. Qed.

Lemma insert_ascending {T K} `{TotalOrder K} (key : T -> K) x l :
  StronglySorted (fun a b => cmp (key a) (key b) <> Gt) l ->
  StronglySorted (fun a b => cmp (key a) (key b) <> Gt) (insert_sorted_by (fun a b => cmp (key a) (key b)) x l).
Proof.
  induction 1 as [|y l Hl IH Hy]; [repeat constructor|]. cbn [insert_sorted_by]. destruct (cmp (key x) (key y)) eqn:E.
  - constructor; [by constructor|]. apply cmp_eq in E. constructor; [by rewrite E, cmp_refl|]. by rewrite E.
  - constructor; [by constructor|]. constructor; [congruence|]. eapply Forall_impl; [exact Hy|]. intros z Hz. cbn in Hz.
    destruct (cmp (key y) (key z)) eqn:Ez; [apply cmp_eq in Ez; by rewrite <- Ez, E| |done]. by rewrite (cmp_lt_trans _ _ _ E Ez).
  - constructor; [done|]. rewrite (insert_sorted_perm (fun a b => cmp (key a) (key b)) x l). constructor; [|done].
    rewrite cmp_antisym, E. done.
Qed.

Lemma sort_ascending {T K} `{TotalOrder K} (key : T -> K) l :
  StronglySorted (fun a b => cmp (key a) (key b) <> Gt) (sort_by (fun a b => cmp (key a) (key b)) l).
Proof. induction l as [|x l IH]; [constructor|]. cbn. by apply insert_ascending. Qed.

Lemma distinct_keys {T K} (key : T -> K) l a b : NoDup (map key l) -> a ∈ l -> b ∈ l -> key a = key b -> a = b.
Proof.
  intros Hn Ha Hb E. apply list_elem_of_lookup in Ha as [i Hi], Hb as [j Hj].
  assert (i = j) as ->; [|congruence]. eapply (NoDup_lookup (map key l)); [done| |];
    change (map key l) with (key <$> l); rewrite list_lookup_fmap; [by rewrite Hi|by rewrite Hj, E].
Qed.

Lemma sorts_agree l1 l2 : l1 ≡ₚ l2 -> NoDup (map queue_key l1) -> sort_by queue_order l1 = sort_by queue_order l2.
Proof.
  intros Hp Hn. apply (StronglySorted_unique_strong (fun a b => cmp (queue_key a) (queue_key b) <> Gt)).
  - intros a b Ha Hb H1 H2. rewrite sort_by_perm in Ha, Hb. rewrite <- Hp in Hb. apply (distinct_keys queue_key l1); [done..|].
    rewrite cmp_antisym in H2. destruct (cmp (queue_key a) (queue_key b)) eqn:E; [by apply cmp_eq in E|done..].
  - exact (sort_ascending queue_key l1).
  - exact (sort_ascending queue_key l2).
  - by rewrite !sort_by_perm.
Qed.

(** The canonical order keeps every transaction with its source, and each queue's own order; and when
    no two queues are of the same peer and source, it does not depend on the order of the queues. *)
Theorem canonical_order_exact queues : canonicalize_peer_streams queues ≡ₚ concat (map events_of queues) /\
  (forall q, q ∈ queues -> events_of q `sublist_of` canonicalize_peer_streams queues) /\
  (forall queues', NoDup (map queue_key queues) -> queues ≡ₚ queues' ->
     canonicalize_peer_streams queues' = canonicalize_peer_streams queues).
Proof.
  split_and!; [apply canonical_complete|intros q; apply canonical_in_order|].
  intros queues' Hn Hp. unfold canonicalize_peer_streams. by rewrite (sorts_agree queues queues').
Qed.
