(* ===== verification/Ratification.v ===== *)
(** Governance at the epoch boundary: [ade_ledger/src/governance.rs] and [governance/frozen.rs].

    Ratification is decided at the start of an epoch, from the stake, votes, committee and thresholds
    frozen then, and applied at its end to the proposals and registrations of that moment.  [GovState]
    is [ConwayGovState] of [state.rs]; its three maps that certificates write are the record of
    [Delegation]. *)

From S2P Require Import Prelude Rational Cbor CborRoundtrip NetCodec Spelling Decoder EraSchedule Leader BTree BlockCodec LedgerValue ConwayCert.
From S2P Require Import Utxo LedgerMaps Delegation Governance ConwayRules Candidates TxValidity.

(** * Orders *)

Definition action_id_key (i : GovActionId) : Hash32 * Z := (action_tx_hash i, action_index i).
Definition action_id_cmp (a b : GovActionId) : comparison := cmp (action_id_key a) (action_id_key b).
Lemma action_id_cmp_eq a b : action_id_cmp a b = Eq <-> a = b.
Proof. unfold action_id_cmp. rewrite cmp_eq. unfold action_id_key. destruct a, b; cbn. split; congruence. Qed.
Lemma action_id_cmp_antisym a b : action_id_cmp b a = CompOpp (action_id_cmp a b).
Proof. apply cmp_antisym. Qed.
Lemma action_id_cmp_lt_trans a b c : action_id_cmp a b = Lt -> action_id_cmp b c = Lt -> action_id_cmp a c = Lt.
Proof. apply cmp_lt_trans. Qed.
#[export] Instance action_id_order : TotalOrder GovActionId := {|
  cmp := action_id_cmp;
  cmp_eq := action_id_cmp_eq;
  cmp_antisym := action_id_cmp_antisym;
  cmp_lt_trans := action_id_cmp_lt_trans;
|}.

Definition drep_key (d : DRep) : Z * Hash28 :=
  match d with DRep_KeyHash h => (0, h) | DRep_ScriptHash h => (1, h) | AlwaysAbstain => (2, []) | AlwaysNoConfidence => (3, []) end.
Definition drep_cmp (a b : DRep) : comparison := cmp (drep_key a) (drep_key b).
Lemma drep_cmp_eq a b : drep_cmp a b = Eq <-> a = b.
Proof. unfold drep_cmp. rewrite cmp_eq. destruct a, b; cbn; split; congruence. Qed.
Lemma drep_cmp_antisym a b : drep_cmp b a = CompOpp (drep_cmp a b).
Proof. apply cmp_antisym. Qed.
Lemma drep_cmp_lt_trans a b c : drep_cmp a b = Lt -> drep_cmp b c = Lt -> drep_cmp a c = Lt.
Proof. apply cmp_lt_trans. Qed.
#[export] Instance drep_order : TotalOrder DRep := {|
  cmp := drep_cmp;
  cmp_eq := drep_cmp_eq;
  cmp_antisym := drep_cmp_antisym;
  cmp_lt_trans := drep_cmp_lt_trans;
|}.

#[export] Instance action_id_eq_dec : EqDecision GovActionId.
Proof. solve_decision. Defined.
#[export] Instance drep_eq_dec : EqDecision DRep.
Proof. solve_decision. Defined.

(** [==] on ids, as [Ord] decides it. *)
Definition same_id (a b : GovActionId) : bool := match cmp a b with Eq => true | _ => false end.

(** * Types ([ade_types/src/conway/governance.rs], [state.rs]) *)

Inductive Vote : Type := Vote_No | Vote_Yes | Vote_Abstain.
Definition is_yes (v : Vote) : bool := match v with Vote_Yes => true | _ => false end.
Definition is_no (v : Vote) : bool := match v with Vote_No => true | _ => false end.

Record GovActionState : Type := mk_GovActionState {
  action_id : GovActionId;
  committee_votes : list (StakeCredential * Vote);
  drep_votes : list (StakeCredential * Vote);
  spo_votes : list (Hash28 * Vote);
  gs_deposit : Coin;
  gs_return_addr : list Z;
  action : GovAction;
  proposed_in : Z;
  expires_after : Z;
}.

Inductive DormantEpochs : Type := Dormant_Unversioned | Dormant_Bound (n : Z).
Inductive PreviousPParamAction : Type := Prev_Unversioned | NoPreviousAction | Prev_Enacted (id : GovActionId).

Definition CanonicalFieldSet : Type := BTreeSet Z.

Inductive UnsupportedActionKind : Type :=
| NotParameterChange
| UnsupportedPParamField
| NoEnactableField
| ChangedSteps
| OversizedUpdate
| MalformedUpdate
| ChainedEnactment
| CompetingRatifiableActions.

(** One constructor, [ReturnAddrNotRewardAccount]. *)
Inductive MalformedGovDetail : Type := ReturnAddrNotRewardAccount.
Inductive DanglingVoteDelegationKind : Type := UnregisteredAccount | UnregisteredDRep.

Inductive GovernanceTerminal : Type :=
| UnsupportedRatifiedAction (id : GovActionId) (kind : UnsupportedActionKind) (unsupported_keys : CanonicalFieldSet)
| UnversionedStateOnEnactPath (id : GovActionId)
| DormantRequired
| Gov_Malformed (id : GovActionId) (detail : MalformedGovDetail)
| FullBoundaryStateRequired (boundary_point : Z)
| BoundaryBaseStakeRequired (boundary_point : Z)
| RewardPoolParamsMissing (pool : PoolId) (boundary_point : Z)
| TreasuryOverflow (boundary : Z)
| RatificationRecordEpochMismatch (frozen_at boundary : Z)
| RatificationRecordAbsent (boundary : Z)
| RatificationRecordProposalMissing (id : GovActionId)
| DanglingVoteDelegation (credential : StakeCredential) (kind : DanglingVoteDelegationKind).

(** A sum of [u64]s, wrapping. *)
Definition sum_u64 (l : list Z) : Z := as_u64 (sum_Z l).

(** * Voting *)

Definition DRepStakeDistribution : Type := BTreeMap DRep Z.

(** [let e = m.entry(k).or_insert(Coin(0)); e.0 = e.0.saturating_add(v)] *)
Definition credit {K} `{TotalOrder K} (m : BTreeMap K Coin) (k : K) (v : Coin) : BTreeMap K Coin :=
  bt_insert m k (saturating_add (from_option id 0 (bt_get m k)) v).

(** [e.saturating_add(dormant) >= current_epoch], for a representative whose term is known. *)
Definition term_active (drep_expiry : BTreeMap StakeCredential Z) (dormant current_epoch : Z) (cred : StakeCredential) : bool :=
  match bt_get drep_expiry cred with Some e => current_epoch <=? saturating_add e dormant | None => true end.
Definition drep_is_active (drep_expiry : BTreeMap StakeCredential Z) (dormant current_epoch : Z) (drep : DRep) : bool :=
  match drep with
  | AlwaysAbstain => false
  | DRep_KeyHash h => term_active drep_expiry dormant current_epoch (KeyHash h)
  | DRep_ScriptHash h => term_active drep_expiry dormant current_epoch (ScriptHash h)
  | AlwaysNoConfidence => true
  end.

(** [Err] is [DormantRequired]. *)
Definition active_drep_stake_filtered (drep_stake : DRepStakeDistribution) (drep_expiry : BTreeMap StakeCredential Z)
    (num_dormant : DormantEpochs) (current_epoch : Z) : result (DRepStakeDistribution * Z) unit :=
  let? dormant := match num_dormant with
                  | Dormant_Bound n => Ok n
                  | Dormant_Unversioned => if bool_decide (drep_expiry = []) then Ok 0 else Err tt
                  end in
  let active := List.filter (fun e => drep_is_active drep_expiry dormant current_epoch (fst e)) drep_stake in
  Ok (active, sum_u64 (map snd active)).

(** The pool's and the representatives' threshold. *)
Definition gov_action_threshold_index (a : GovAction) : option nat * option nat :=
  match a with
  | NoConfidence _ => (Some 0%nat, Some 0%nat)
  | UpdateCommittee _ _ _ _ => (Some 1%nat, Some 1%nat)
  | NewConstitution _ _ => (None, Some 3%nat)
  | HardForkInitiation _ _ => (Some 3%nat, Some 4%nat)
  | ParameterChange _ _ _ => (Some 4%nat, Some 5%nat)
  | TreasuryWithdrawals _ _ => (None, Some 9%nat)
  | InfoAction => (None, None)
  end.

(** [i128] products wrap. *)
Definition mul_i128 (a b : Z) : Z := as_i128 (a * b).
Definition rational_or (o : option Rational) (r : Rational) : Rational := match o with Some q => q | None => r end.

(** A vote of a hot credential counts when its cold one is an active member, or when it has none. *)
Definition committee_yes (committee_hot_keys : BTreeMap StakeCredential StakeCredential)
    (active_members : list (StakeCredential * Z)) (v : StakeCredential * Vote) : bool :=
  is_yes (snd v) &&
  match find (fun e => same_credential (fst e) (fst v)) committee_hot_keys with
  | Some (_, cold) => existsb (fun m => same_credential (fst m) cold) active_members
  | None => true
  end.

Definition committee_accepts (proposal : GovActionState) (committee_members : BTreeMap StakeCredential Z)
    (committee_quorum : Rational) (current_epoch : Z) (committee_hot_keys : BTreeMap StakeCredential StakeCredential) : bool :=
  let needs_committee := match action proposal with NoConfidence _ | UpdateCommittee _ _ _ _ => false | _ => true end in
  if needs_committee && negb (bool_decide (committee_members = [])) then
    let active_members := List.filter (fun m => current_epoch <=? snd m) committee_members in
    match active_members with
    | [] => true
    | _ =>
        let yes_votes := blen (List.filter (committee_yes committee_hot_keys active_members) (committee_votes proposal)) in
        let yes_rat := rational_or (rational_new yes_votes (blen active_members)) rational_zero in
        negb (mul_i128 (numerator yes_rat) (denominator committee_quorum) <?
              mul_i128 (numerator committee_quorum) (denominator yes_rat))
    end
  else true.

Definition voter_drep (cred : StakeCredential) : DRep :=
  match cred with KeyHash h => DRep_KeyHash h | ScriptHash h => DRep_ScriptHash h end.

(** The stake behind the voters who voted so. *)
Definition voted {V} (said : Vote -> bool) (stake_of : V -> Z) (votes : list (V * Vote)) : Z :=
  sum_u64 (map (fun v => stake_of (fst v)) (List.filter (fun v => said (snd v)) votes)).

(** The products are of [u64]s in [u128]. *)
Definition dreps_accept (proposal : GovActionState) (idx : option nat) (total_drep_active_stake : Z)
    (drep_stake : DRepStakeDistribution) (drep_thresholds : list (Z * Z)) : bool :=
  match idx with
  | None => true
  | Some i =>
      match nth_error drep_thresholds i with
      | Some (thresh_num, thresh_den) =>
          if (0 <? total_drep_active_stake) && (0 <? thresh_den) then
            let yes_stake := voted is_yes (fun cred => from_option id 0 (bt_get drep_stake (voter_drep cred))) (drep_votes proposal) in
            negb (yes_stake * thresh_den <? thresh_num * total_drep_active_stake)
          else true
      | None => true
      end
  end.

Definition pools_accept (proposal : GovActionState) (idx : option nat) (pool_stake : BTreeMap PoolId Coin)
    (pool_thresholds : list (Z * Z)) : bool :=
  match idx with
  | None => true
  | Some i =>
      match nth_error pool_thresholds i with
      | Some (thresh_num, thresh_den) =>
          if 0 <? thresh_den then
            let lookup_pool := fun hash => from_option id 0 (bt_get pool_stake hash) in
            let yes_stake := voted is_yes lookup_pool (spo_votes proposal) in
            let no_stake := voted is_no lookup_pool (spo_votes proposal) in
            let voted_stake := as_u64 (yes_stake + no_stake) in
            if 0 <? voted_stake then negb (yes_stake * thresh_den <? thresh_num * voted_stake) else true
          else true
      | None => true
      end
  end.

Definition check_ratification (proposal : GovActionState) (action_thresholds : option nat * option nat)
    (total_drep_active_stake : Z) (drep_stake : DRepStakeDistribution) (pool_stake : BTreeMap PoolId Coin)
    (committee_members : BTreeMap StakeCredential Z) (committee_quorum : Rational) (pool_thresholds drep_thresholds : list (Z * Z))
    (current_epoch : Z) (committee_hot_keys : BTreeMap StakeCredential StakeCredential) : bool :=
  let '(pool_idx, drep_idx) := action_thresholds in
  if negb (committee_accepts proposal committee_members committee_quorum current_epoch committee_hot_keys) then false else
  if negb (dreps_accept proposal drep_idx total_drep_active_stake drep_stake drep_thresholds) then false else
  pools_accept proposal pool_idx pool_stake pool_thresholds.

(** * The enactable update *)

Record ExUnits : Type := mk_ExUnits { eu_mem : Z; eu_steps : Z }.

Record EnactableParamUpdate : Type := mk_EnactableParamUpdate {
  up_max_tx_ex_units : option ExUnits;
  up_max_block_ex_units : option ExUnits;
  up_min_pool_cost : option Z;
  unsupported_fields : CanonicalFieldSet;
}.

Inductive EnactableUpdateError : Type :=
| Update_Malformed
| DuplicateKey (key : Z)
| MalformedExUnits (key : Z)
| MalformedCoin (key : Z).

Definition PPU_KEY_MAX_TX_EX_UNITS : Z := 20.
Definition PPU_KEY_MAX_BLOCK_EX_UNITS : Z := 21.
Definition PPU_KEY_MIN_POOL_COST : Z := 16.

Definition read_ex_units_value (key : Z) : PDec EnactableUpdateError ExUnits :=
  dec! enc := plift (fun _ => MalformedExUnits key) read_array_header in
  match enc with
  | Definite 2 _ =>
      dec! mem := read_value (fun _ => MalformedExUnits key) in
      dec! steps := read_value (fun _ => MalformedExUnits key) in
      pret (mk_ExUnits mem steps)
  | _ => pfail (MalformedExUnits key)
  end.

(** A recognized key that was seen before. *)
Definition refuse_twice {A} (key : Z) (seen : option A) : PDec EnactableUpdateError unit :=
  match seen with Some _ => pfail (DuplicateKey key) | None => pret tt end.

(** One entry of the map; the value of an unknown key is skipped and the key kept. *)
Definition enactable_entry (u : EnactableParamUpdate) : PDec EnactableUpdateError EnactableParamUpdate :=
  let 'mk_EnactableParamUpdate tx block cost unsupported := u in
  dec! key := read_value (fun _ => Update_Malformed) in
  if key =? PPU_KEY_MIN_POOL_COST then
    dec! _ := refuse_twice key cost in
    dec! v := read_value (fun _ => MalformedCoin key) in
    pret (mk_EnactableParamUpdate tx block (Some v) unsupported)
  else if key =? PPU_KEY_MAX_TX_EX_UNITS then
    dec! _ := refuse_twice key tx in
    dec! v := read_ex_units_value key in
    pret (mk_EnactableParamUpdate (Some v) block cost unsupported)
  else if key =? PPU_KEY_MAX_BLOCK_EX_UNITS then
    dec! _ := refuse_twice key block in
    dec! v := read_ex_units_value key in
    pret (mk_EnactableParamUpdate tx (Some v) cost unsupported)
  else
    dec! _ := plift (fun _ => Update_Malformed) skip_item in
    pret (mk_EnactableParamUpdate tx block cost (set_insert unsupported key)).

Fixpoint enactable_entries (n : nat) (u : EnactableParamUpdate) : PDec EnactableUpdateError EnactableParamUpdate :=
  match n with
  | O => pret u
  | S n => dec! u := enactable_entry u in enactable_entries n u
  end.

Definition decode_enactable_param_update (update : list Z) : result EnactableParamUpdate EnactableUpdateError :=
  let body :=
    dec! enc := plift (fun _ => Update_Malformed) read_map_header in
    match enc with
    | Definite n _ => enactable_entries (Z.to_nat n) (mk_EnactableParamUpdate None None None [])
    | Indefinite => pfail Update_Malformed
    end in
  match body update 0 with
  | (Err e, _) => Err e
  | (Ok u, o) => if negb (o =? blen update) then Err Update_Malformed else Ok u
  end.

(** ** The bound on the bytes, without recursion *)

Definition UPDATE_MAX_LEN : Z := 4096.
Definition UPDATE_MAX_DEPTH : Z := 16.

(** A level with nothing left is one item of the level above. *)
Fixpoint settle (top : Z) (below : list Z) : list Z :=
  if top =? 0 then match below with [] => [] | parent :: below => settle (parent - 1) below end
  else top :: below.

(** The argument of a head and the offset after it. *)
Definition head_argument (update : list Z) (o ai : Z) : option (Z * Z) :=
  if ai <=? 23 then Some (ai, o) else
  if (ai =? 24) && (o <? blen update) then Some (from_be (slice update o (o + 1)), o + 1) else
  if (ai =? 25) && (o + 2 <=? blen update) then Some (from_be (slice update o (o + 2)), o + 2) else
  if (ai =? 26) && (o + 4 <=? blen update) then Some (from_be (slice update o (o + 4)), o + 4) else
  if (ai =? 27) && (o + 8 <=? blen update) then Some (from_be (slice update o (o + 8)), o + 8) else
  None.

(** One head: the stack of items still to read and the offset after it. *)
Definition read_head (update : list Z) (top : Z) (below : list Z) (o : Z) : option (list Z * Z) :=
  match byte_at update o with
  | None => None
  | Some ib =>
      let major := Z.shiftr ib 5 in
      let ai := Z.land ib 0x1f in
      match head_argument update (o + 1) ai with
      | None => None
      | Some (arg, o) =>
          let leaf := top - 1 :: below in
          let push items := if UPDATE_MAX_DEPTH <=? blen (top :: below) then None else Some (items :: top :: below, o) in
          if (major =? 0) || (major =? 1) then Some (leaf, o) else
          if (major =? 2) || (major =? 3) then
            match checked_add o arg with
            | Some e => if blen update <? e then None else Some (leaf, o + arg)
            | None => None
            end else
          if major =? 4 then push arg else
          if major =? 5 then from_option push None (checked_mul arg 2) else
          if major =? 6 then push 1 else
          Some (leaf, o)
      end
  end.

(** A turn reads a byte, so a turn per byte and one more are enough. *)
Fixpoint walk_heads (fuel : nat) (update : list Z) (stack : list Z) (o : Z) : option bool :=
  match fuel with
  | O => None
  | S fuel =>
      match (match stack with [] => [] | top :: below => settle top below end) with
      | [] => Some (o =? blen update)
      | top :: below =>
          match read_head update top below o with
          | None => Some false
          | Some (stack, o) => walk_heads fuel update stack o
          end
      end
  end.

Definition enactable_update_within_bounds (update : list Z) : bool :=
  if (blen update =? 0) || (UPDATE_MAX_LEN <? blen update) then false
  else from_option id false (walk_heads (S (length update)) update [1] 0).

(** * The decision *)

Record EnactedParameterChange : Type := mk_EnactedParameterChange {
  enacted_id : GovActionId;
  superseded_root : option GovActionId;
  enacted_pparams : ProtocolParameters;
}.

Record RatificationDecision : Type := mk_RatificationDecision {
  enacted : option EnactedParameterChange;
  expired : BTreeSet GovActionId;
}.

(** The parameters with the supplied limits. *)
Definition build_enacted_pparams (current : ProtocolParameters) (decoded : EnactableParamUpdate) : ProtocolParameters := {|
  min_fee_a := min_fee_a current; min_fee_b := min_fee_b current;
  max_block_body_size := max_block_body_size current; max_tx_size := max_tx_size current;
  max_block_header_size := max_block_header_size current;
  key_deposit := key_deposit current; pool_deposit := pool_deposit current; e_max := e_max current; n_opt := n_opt current;
  pool_influence := pool_influence current; monetary_expansion := monetary_expansion current;
  treasury_growth := treasury_growth current;
  protocol_major := protocol_major current; protocol_minor := protocol_minor current; min_utxo_rule := min_utxo_rule current;
  min_pool_cost := from_option id (min_pool_cost current) (up_min_pool_cost decoded);
  decentralization := decentralization current; collateral_percent := collateral_percent current;
  max_tx_ex_units_mem := from_option eu_mem (max_tx_ex_units_mem current) (up_max_tx_ex_units decoded);
  max_tx_ex_units_cpu := max_tx_ex_units_cpu current;
  pp_network_id := pp_network_id current; cost_models_cbor := cost_models_cbor current;
  max_block_ex_units := from_option (fun b => MaxBlock_Bound (eu_mem b) (eu_steps b)) (max_block_ex_units current)
                          (up_max_block_ex_units decoded);
|}.

Definition unsupported (winner : GovActionState) (kind : UnsupportedActionKind) (keys : CanonicalFieldSet) : GovernanceTerminal :=
  UnsupportedRatifiedAction (action_id winner) kind keys.

Definition build_parameter_change_enactment (winner : GovActionState) (current : ProtocolParameters) :
    result EnactedParameterChange GovernanceTerminal :=
  match action winner with
  | ParameterChange prev_action update _ =>
      if negb (enactable_update_within_bounds update) then Err (unsupported winner OversizedUpdate []) else
      let? decoded := map_err (fun _ => unsupported winner MalformedUpdate []) (decode_enactable_param_update update) in
      if negb (set_is_empty (unsupported_fields decoded))
      then Err (unsupported winner UnsupportedPParamField (unsupported_fields decoded)) else
      let? _ := match up_max_tx_ex_units decoded, up_max_block_ex_units decoded with
                | None, None => Err (unsupported winner NoEnactableField [])
                | _, _ => Ok tt
                end in
      let? _ := match up_max_tx_ex_units decoded with
                | Some tx => if eu_steps tx =? max_tx_ex_units_cpu current then Ok tt else Err (unsupported winner ChangedSteps [])
                | None => Ok tt
                end in
      let? _ := match up_max_block_ex_units decoded with
                | Some blk =>
                    match max_block_ex_units current with
                    | MaxBlock_Bound _ steps => if eu_steps blk =? steps then Ok tt else Err (unsupported winner ChangedSteps [])
                    | MaxBlock_Unversioned => Err (UnversionedStateOnEnactPath (action_id winner))
                    end
                | None => Ok tt
                end in
      Ok (mk_EnactedParameterChange (action_id winner) prev_action (build_enacted_pparams current decoded))
  | _ => Err (unsupported winner NotParameterChange [])
  end.

Record ConwayGovernanceEpochInput : Type := mk_ConwayGovernanceEpochInput {
  in_proposals : list GovActionState;
  in_drep_stake : DRepStakeDistribution;
  in_pool_stake : BTreeMap PoolId Coin;
  in_committee_members : BTreeMap StakeCredential Z;
  in_committee_quorum : Rational;
  in_pool_thresholds : list (Z * Z);
  in_drep_thresholds : list (Z * Z);
  in_committee_hot_keys : BTreeMap StakeCredential StakeCredential;
  in_drep_expiry : BTreeMap StakeCredential Z;
  in_num_dormant : DormantEpochs;
  in_current_pparams : ProtocolParameters;
  in_current_prev_pparam_action : PreviousPParamAction;
  in_new_epoch : Z;
}.

Definition by_action_id (a b : GovActionState) : comparison := cmp (action_id a) (action_id b).

(** The thresholds of one proposal, from the input and the active stake. *)
Definition thresholds_accepted (input : ConwayGovernanceEpochInput) (active_drep_stake : DRepStakeDistribution)
    (total_drep_active_stake ratify_epoch : Z) (p : GovActionState) : bool :=
  check_ratification p (gov_action_threshold_index (action p)) total_drep_active_stake active_drep_stake
    (in_pool_stake input) (in_committee_members input) (in_committee_quorum input) (in_pool_thresholds input)
    (in_drep_thresholds input) ratify_epoch (in_committee_hot_keys input).

Definition same_root (a b : option GovActionId) : bool := bool_decide (a = b).

(** [lineage_ok]; the unversioned state never gets here. *)
Definition lineage_ok (root : PreviousPParamAction) (prev_action : option GovActionId) : bool :=
  match root with
  | NoPreviousAction => same_root prev_action None
  | Prev_Enacted id => same_root prev_action (Some id)
  | Prev_Unversioned => false
  end.

Definition unversioned (input : ConwayGovernanceEpochInput) : bool :=
  match in_current_prev_pparam_action input, max_block_ex_units (in_current_pparams input) with
  | Prev_Unversioned, _ | _, MaxBlock_Unversioned => true
  | _, _ => false
  end.

(** The scan: the ids of the accepted parameter changes and the candidates, in order. *)
Fixpoint scan_candidates (input : ConwayGovernanceEpochInput) (accepted : GovActionState -> bool) (sorted : list GovActionState)
    (passing : BTreeSet GovActionId) (candidates : list GovActionState) :
    result (BTreeSet GovActionId * list GovActionState) GovernanceTerminal :=
  match sorted with
  | [] => Ok (passing, candidates)
  | p :: sorted =>
      match action p with
      | InfoAction => scan_candidates input accepted sorted passing candidates
      | a =>
          if negb (accepted p) then scan_candidates input accepted sorted passing candidates else
          match a with
          | ParameterChange prev_action _ _ =>
              if unversioned input then Err (UnversionedStateOnEnactPath (action_id p)) else
              scan_candidates input accepted sorted (set_insert passing (action_id p))
                (if lineage_ok (in_current_prev_pparam_action input) prev_action then candidates ++ [p] else candidates)
          | _ => Err (unsupported p NotParameterChange [])
          end
      end
  end.

(** The first accepted parameter change that chains onto the winner. *)
Definition chains_onto (winner : GovActionId) (passing : BTreeSet GovActionId) (p : GovActionState) : bool :=
  match action p with
  | ParameterChange prev_action _ _ => same_root prev_action (Some winner) && set_contains passing (action_id p)
  | _ => false
  end.

Definition is_winner_id (e : option EnactedParameterChange) (id : GovActionId) : bool :=
  match e with Some e => same_id (enacted_id e) id | None => false end.

Definition decide_ratification (input : ConwayGovernanceEpochInput) (ratify_epoch : Z) :
    result RatificationDecision GovernanceTerminal :=
  let? (active_drep_stake, total_drep_active_stake) :=
    map_err (fun _ => DormantRequired)
      (active_drep_stake_filtered (in_drep_stake input) (in_drep_expiry input) (in_num_dormant input) ratify_epoch) in
  let sorted := sort_by by_action_id (in_proposals input) in
  let? (passing, candidates) :=
    scan_candidates input (thresholds_accepted input active_drep_stake total_drep_active_stake ratify_epoch) sorted [] [] in
  let? enacted :=
    match candidates with
    | [] => Ok None
    | [winner] => let? e := build_parameter_change_enactment winner (in_current_pparams input) in Ok (Some e)
    | first :: _ => Err (unsupported first CompetingRatifiableActions [])
    end in
  let? _ :=
    match enacted with
    | Some e =>
        match find (chains_onto (enacted_id e) passing) (in_proposals input) with
        | Some p => Err (unsupported p ChainedEnactment [])
        | None => Ok tt
        end
    | None => Ok tt
    end in
  let expired := List.filter (fun p => negb (is_winner_id enacted (action_id p)) && (expires_after p <? ratify_epoch)) sorted in
  Ok (mk_RatificationDecision enacted (set_of (map action_id expired))).

(** * The application *)

Inductive RemovalCause : Type := Cause_Enacted | PrunedByEnactment | Cause_Expired.
Record RemovedProposal : Type := mk_RemovedProposal { removed_id : GovActionId; cause : RemovalCause }.
Inductive DepositReturn : Type :=
| ToRewardAccount (id : GovActionId) (credential : StakeCredential) (amount : Coin)
| ToTreasury (id : GovActionId) (amount : Coin)
| NoDeposit (id : GovActionId).
Inductive PParamsDelta : Type := PParams_Unchanged | PParams_Set (pp : ProtocolParameters).
Inductive PrevPParamActionDelta : Type := Prev_Unchanged | Prev_Set (id : GovActionId).

Record ConwayGovernanceEpochPlan : Type := mk_ConwayGovernanceEpochPlan {
  plan_proposals : list GovActionState;
  removals : list RemovedProposal;
  deposit_returns : list DepositReturn;
  plan_pparams : PParamsDelta;
  plan_prev_pparam_action : PrevPParamActionDelta;
}.

(** [epoch_accumulator.rs]: the header's bit 4 says whether the credential is a script's. *)
Definition reward_account_credential (account : list Z) : option StakeCredential :=
  match account with
  | header :: cred =>
      if negb (blen account =? 29) then None else
      Some (if negb (Z.land header 0x10 =? 0) then ScriptHash cred else KeyHash cred)
  | [] => None
  end.

Definition gov_action_parent (a : GovAction) : option GovActionId :=
  match a with
  | ParameterChange prev _ _ | HardForkInitiation prev _ | NoConfidence prev | UpdateCommittee prev _ _ _ | NewConstitution prev _ => prev
  | TreasuryWithdrawals _ _ | InfoAction => None
  end.

Definition parent_in (removed : BTreeSet GovActionId) (p : GovActionState) : bool :=
  match gov_action_parent (action p) with Some pa => set_contains removed pa | None => false end.

(** One pass; the second component is [added]. *)
Definition close_step (acc : BTreeSet GovActionId * bool) (p : GovActionState) : BTreeSet GovActionId * bool :=
  let '(removed, added) := acc in
  if set_contains removed (action_id p) then acc else
  if parent_in removed p then (set_insert removed (action_id p), true) else acc.

(** Every pass but the last removes a proposal, so a turn per proposal and one more are enough. *)
Fixpoint close_over (fuel : nat) (proposals : list GovActionState) (removed : BTreeSet GovActionId) : option (BTreeSet GovActionId) :=
  match fuel with
  | O => None
  | S fuel =>
      let '(removed, added) := fold_left close_step proposals (removed, false) in
      if added then close_over fuel proposals removed else Some removed
  end.
Definition close_over_descendants (proposals : list GovActionState) (removed : BTreeSet GovActionId) : BTreeSet GovActionId :=
  from_option id [] (close_over (S (length proposals)) proposals removed).

(** Another change of the parameters under the superseded root. *)
Definition is_sibling (e : EnactedParameterChange) (expired : BTreeSet GovActionId) (p : GovActionState) : bool :=
  negb (same_id (action_id p) (enacted_id e)) && negb (set_contains expired (action_id p)) &&
  match action p with ParameterChange prev_action _ _ => same_root prev_action (superseded_root e) | _ => false end.

Definition pruned_by (e : EnactedParameterChange) (proposals : list GovActionState) (expired : BTreeSet GovActionId) :
    BTreeSet GovActionId :=
  let pruned := set_of (map action_id (List.filter (is_sibling e expired) proposals)) in
  let closed := close_over_descendants proposals (set_extend pruned (elements expired)) in
  List.filter (fun i => negb (set_contains expired (fst i))) closed.

Definition removal_cause (e : option EnactedParameterChange) (expired pruned : BTreeSet GovActionId) (id : GovActionId) :
    option RemovalCause :=
  if set_contains expired id then Some Cause_Expired else
  if is_winner_id e id then Some Cause_Enacted else
  if set_contains pruned id then Some PrunedByEnactment else None.

Section Apply.
Context (is_registered : StakeCredential -> bool).

Definition route_deposit (p : GovActionState) : result DepositReturn GovernanceTerminal :=
  if gs_deposit p =? 0 then Ok (NoDeposit (action_id p)) else
  match reward_account_credential (gs_return_addr p) with
  | Some cred =>
      Ok (if is_registered cred then ToRewardAccount (action_id p) cred (gs_deposit p) else ToTreasury (action_id p) (gs_deposit p))
  | None => Err (Gov_Malformed (action_id p) ReturnAddrNotRewardAccount)
  end.

(** The removals, the deposits and the removed ids, in the order of the list. *)
Fixpoint remove_proposals (why : GovActionId -> option RemovalCause) (sorted : list GovActionState) :
    result (list RemovedProposal * list DepositReturn * BTreeSet GovActionId) GovernanceTerminal :=
  match sorted with
  | [] => Ok ([], [], [])
  | p :: sorted =>
      match why (action_id p) with
      | None => remove_proposals why sorted
      | Some c =>
          let? ret := route_deposit p in
          let? (rs, ds, ids) := remove_proposals why sorted in
          Ok (mk_RemovedProposal (action_id p) c :: rs, ret :: ds, set_insert ids (action_id p))
      end
  end.

Definition apply_decision (decision : RatificationDecision) (current_proposals : list GovActionState) :
    result ConwayGovernanceEpochPlan GovernanceTerminal :=
  let present id := existsb (fun p => same_id (action_id p) id) current_proposals in
  let? _ :=
    match find (fun id => negb (present id)) (elements (expired decision) ++ from_option (fun e => [enacted_id e]) [] (enacted decision)) with
    | Some id => Err (RatificationRecordProposalMissing id)
    | None => Ok tt
    end in
  let expired := close_over_descendants current_proposals (expired decision) in
  let pruned := match enacted decision with Some e => pruned_by e current_proposals expired | None => [] end in
  let? (rs, ds, removed_ids) :=
    remove_proposals (removal_cause (enacted decision) expired pruned) (sort_by by_action_id current_proposals) in
  let proposals := List.filter (fun p => negb (set_contains removed_ids (action_id p))) current_proposals in
  let '(pp, prev) := match enacted decision with
                     | Some e => (PParams_Set (enacted_pparams e), Prev_Set (enacted_id e))
                     | None => (PParams_Unchanged, Prev_Unchanged)
                     end in
  Ok (mk_ConwayGovernanceEpochPlan proposals rs ds pp prev).

Definition plan_conway_governance_epoch (input : ConwayGovernanceEpochInput) : result ConwayGovernanceEpochPlan GovernanceTerminal :=
  let? decision := decide_ratification input (saturating_sub (in_new_epoch input) 1) in
  apply_decision decision (in_proposals input).
End Apply.

(** * The frozen ratification ([governance/frozen.rs]) *)

Inductive RatificationSource : Type := Frozen | ImportedFromSnapshot.

Inductive UnenactableReason : Type :=
| Un_UnsupportedRatifiedAction (id : GovActionId) (kind : UnsupportedActionKind) (unsupported_keys : CanonicalFieldSet)
| Un_UnversionedStateOnEnactPath (id : GovActionId)
| Un_DormantRequired.

Definition from_terminal (t : GovernanceTerminal) : result UnenactableReason GovernanceTerminal :=
  match t with
  | UnsupportedRatifiedAction id kind keys => Ok (Un_UnsupportedRatifiedAction id kind keys)
  | UnversionedStateOnEnactPath id => Ok (Un_UnversionedStateOnEnactPath id)
  | DormantRequired => Ok Un_DormantRequired
  | other => Err other
  end.

Definition terminal (r : UnenactableReason) : GovernanceTerminal :=
  match r with
  | Un_UnsupportedRatifiedAction id kind keys => UnsupportedRatifiedAction id kind keys
  | Un_UnversionedStateOnEnactPath id => UnversionedStateOnEnactPath id
  | Un_DormantRequired => DormantRequired
  end.

Inductive RatificationOutcome : Type := Decided (d : RatificationDecision) | Unenactable (r : UnenactableReason).

Record RatificationRecord : Type := mk_RatificationRecord {
  frozen_at : Z;
  source : RatificationSource;
  frozen_proposals : BTreeSet GovActionId;
  drep_distribution : BTreeMap DRep Coin;
  pool_distribution : BTreeMap PoolId Coin;
  outcome : RatificationOutcome;
}.

Inductive RatificationState : Type := Ratification_Unversioned | Recorded (r : RatificationRecord).

(** [ConwayGovState] of [state.rs]. *)
Record GovState : Type := mk_GovState {
  proposals : list GovActionState;
  committee : BTreeMap StakeCredential Z;
  committee_quorum : Z * Z;
  gov_action_lifetime : Z;
  cert_maps : ConwayGovState;
  pool_voting_thresholds : list (Z * Z);
  drep_voting_thresholds : list (Z * Z);
  num_dormant : DormantEpochs;
  prev_pparam_action : PreviousPParamAction;
  ratification : RatificationState;
}.

(** The stake distribution of an epoch and the frozen parameters of its pools ([epoch.rs]). *)
Record SnapshotPoolParams : Type := mk_SnapshotPoolParams {
  sp_pledge : Coin;
  sp_cost : Coin;
  sp_margin : Z * Z;
  sp_reward_account : StakeCredential;
  self_delegated_owners : BTreeSet Hash28;
}.
Record StakeSnapshot : Type := mk_StakeSnapshot {
  stake_delegations : BTreeMap StakeCredential (PoolId * Coin);
  pool_stakes : BTreeMap PoolId Coin;
  pool_params : BTreeMap PoolId SnapshotPoolParams;
}.

Record FrozenPoolStake : Type := mk_FrozenPoolStake { fp_mark : StakeSnapshot; delegated_at_snap : BTreeSet PoolId }.
Record PostBoundaryAccounts : Type := mk_PostBoundaryAccounts {
  utxo_stake : BTreeMap StakeCredential Coin; account_delegation : DelegationState }.
Record FrozenGovernanceView : Type := mk_FrozenGovernanceView { fg_gov : GovState; fg_pparams : ProtocolParameters; fg_epoch : Z }.
Record FrozenRatificationInput : Type := mk_FrozenRatificationInput {
  fr_pool : FrozenPoolStake; fr_accounts : PostBoundaryAccounts; fr_gov : FrozenGovernanceView }.

Definition add_deposit (acc : result (BTreeMap StakeCredential Coin) GovernanceTerminal) (p : GovActionState) :
    result (BTreeMap StakeCredential Coin) GovernanceTerminal :=
  let? out := acc in
  let? cred := ok_or (reward_account_credential (gs_return_addr p)) (Gov_Malformed (action_id p) ReturnAddrNotRewardAccount) in
  Ok (credit out cred (gs_deposit p)).
Definition deposits_by_return_credential (proposals : list GovActionState) :
    result (BTreeMap StakeCredential Coin) GovernanceTerminal :=
  fold_left add_deposit proposals (Ok []).

Definition coin_at (m : BTreeMap StakeCredential Coin) (cred : StakeCredential) : Z := from_option id 0 (bt_get m cred).

Definition drep_step (deposits : BTreeMap StakeCredential Coin) (accounts : PostBoundaryAccounts) (gov : FrozenGovernanceView)
    (acc : result (BTreeMap DRep Coin) GovernanceTerminal) (e : StakeCredential * DRep) : result (BTreeMap DRep Coin) GovernanceTerminal :=
  let? out := acc in
  let '(cred, drep) := e in
  if negb (bt_contains (registrations (account_delegation accounts)) cred)
  then Err (DanglingVoteDelegation cred UnregisteredAccount) else
  let? _ := match drep_credential drep with
            | Some target => if bt_contains (drep_expiry (cert_maps (fg_gov gov))) target then Ok tt
                             else Err (DanglingVoteDelegation cred UnregisteredDRep)
            | None => Ok tt
            end in
  let stake := saturating_add (saturating_add (coin_at (utxo_stake accounts) cred) (coin_at (rewards (account_delegation accounts)) cred))
                 (coin_at deposits cred) in
  Ok (credit out drep stake).

Definition derive_frozen_drep_distribution (accounts : PostBoundaryAccounts) (gov : FrozenGovernanceView) :
    result (BTreeMap DRep Coin) GovernanceTerminal :=
  let? deposits := deposits_by_return_credential (proposals (fg_gov gov)) in
  fold_left (drep_step deposits accounts gov) (vote_delegations (cert_maps (fg_gov gov))) (Ok []).

(** [out.entry(p).or_insert(Coin(0))] *)
Definition or_zero {K} `{TotalOrder K} (m : BTreeMap K Coin) (k : K) : BTreeMap K Coin :=
  if bt_contains m k then m else bt_insert m k 0.

Definition pool_deposit_step (accounts : PostBoundaryAccounts) (out : BTreeMap PoolId Coin) (e : StakeCredential * Coin) : BTreeMap PoolId Coin :=
  match bt_get (delegations (account_delegation accounts)) (fst e) with
  | Some p => if bt_contains out p then credit out p (snd e) else out
  | None => out
  end.

Definition derive_frozen_pool_distribution (pool : FrozenPoolStake) (accounts : PostBoundaryAccounts) (gov : FrozenGovernanceView) :
    result (BTreeMap PoolId Coin) GovernanceTerminal :=
  let out := fold_left or_zero (elements (delegated_at_snap pool)) (pool_stakes (fp_mark pool)) in
  let? deposits := deposits_by_return_credential (proposals (fg_gov gov)) in
  Ok (fold_left (pool_deposit_step accounts) deposits out).

Definition ratify_frozen (input : FrozenRatificationInput) : result RatificationRecord GovernanceTerminal :=
  let? drep_distribution := derive_frozen_drep_distribution (fr_accounts input) (fr_gov input) in
  let? pool_distribution := derive_frozen_pool_distribution (fr_pool input) (fr_accounts input) (fr_gov input) in
  let gov := fg_gov (fr_gov input) in
  let frozen_at := fg_epoch (fr_gov input) in
  let decide_input := {|
    in_proposals := proposals gov; in_drep_stake := drep_distribution; in_pool_stake := pool_distribution;
    in_committee_members := committee gov;
    in_committee_quorum := rational_or (rational_new (fst (committee_quorum gov)) (Z.max (snd (committee_quorum gov)) 1)) rational_one;
    in_pool_thresholds := pool_voting_thresholds gov; in_drep_thresholds := drep_voting_thresholds gov;
    in_committee_hot_keys := committee_hot_keys (cert_maps gov); in_drep_expiry := drep_expiry (cert_maps gov);
    in_num_dormant := num_dormant gov; in_current_pparams := fg_pparams (fr_gov input);
    in_current_prev_pparam_action := prev_pparam_action gov; in_new_epoch := saturating_add frozen_at 1 |} in
  let? outcome := match decide_ratification decide_input frozen_at with
                  | Ok decision => Ok (Decided decision)
                  | Err t => let? r := from_terminal t in Ok (Unenactable r)
                  end in
  Ok (mk_RatificationRecord frozen_at Frozen (set_of (map action_id (proposals gov))) drep_distribution pool_distribution outcome).

Definition apply_ratification_record (record : RatificationRecord) (new_epoch : Z) (current : list GovActionState)
    (is_registered_now : StakeCredential -> bool) : result ConwayGovernanceEpochPlan GovernanceTerminal :=
  if negb (bool_decide (checked_add (frozen_at record) 1 = Some new_epoch))
  then Err (RatificationRecordEpochMismatch (frozen_at record) new_epoch) else
  match outcome record with
  | Decided decision => apply_decision is_registered_now decision current
  | Unenactable reason => Err (terminal reason)
  end.

(** ** A bootstrap snapshot's finished ratification *)

#[local] Instance rational_eq_dec : EqDecision Rational.
Proof. solve_decision. Defined.
#[local] Instance min_utxo_rule_eq_dec : EqDecision MinUtxoRule.
Proof. solve_decision. Defined.
#[local] Instance max_block_eq_dec : EqDecision MaxBlockExUnits.
Proof. solve_decision. Defined.
#[local] Instance pparams_eq_dec : EqDecision ProtocolParameters.
Proof. solve_decision. Defined.

Record SnapshotRatification : Type := mk_SnapshotRatification {
  snap_proposals : BTreeSet GovActionId;
  snap_drep_distribution : BTreeMap DRep Coin;
  snap_pool_distribution : BTreeMap PoolId Coin;
  snap_enacted : list GovActionState;
  snap_expired : BTreeSet GovActionId;
  delayed : bool;
  snap_enacted_pparams : ProtocolParameters;
  enacted_pparam_root : option GovActionId;
}.

Inductive RatificationImportRefusal : Type :=
| DelayedWithoutUnenactableAction
| EnactedParametersMismatch
| EnactedRootMismatch (expected snapshot : option GovActionId).

Definition is_parameter_change (p : GovActionState) : bool := match action p with ParameterChange _ _ _ => true | _ => false end.

Definition import_outcome (snap : SnapshotRatification) (current : ProtocolParameters) : result RatificationOutcome RatificationImportRefusal :=
  match snap_enacted snap with
  | [] => Ok (Decided (mk_RatificationDecision None (snap_expired snap)))
  | [one] =>
      match build_parameter_change_enactment one current with
      | Ok e => Ok (Decided (mk_RatificationDecision (Some e) (snap_expired snap)))
      | Err t => let? r := map_err (fun _ => EnactedParametersMismatch) (from_terminal t) in Ok (Unenactable r)
      end
  | first :: second :: _ =>
      let '(id, kind) :=
        match find (fun p => negb (is_parameter_change p)) (sort_by by_action_id (snap_enacted snap)) with
        | Some p => (action_id p, NotParameterChange)
        | None => (action_id second, ChainedEnactment)
        end in
      Ok (Unenactable (Un_UnsupportedRatifiedAction id kind []))
  end.

Definition import_snapshot_ratification (frozen_at : Z) (snap : SnapshotRatification) (current : ProtocolParameters)
    (current_root : option GovActionId) : result RatificationRecord RatificationImportRefusal :=
  let? outcome := import_outcome snap current in
  let? _ :=
    match outcome with
    | Decided d =>
        if delayed snap then Err DelayedWithoutUnenactableAction else
        let '(built, root) := match enacted d with
                              | Some e => (enacted_pparams e, Some (enacted_id e))
                              | None => (current, current_root)
                              end in
        if negb (bool_decide (built = snap_enacted_pparams snap)) then Err EnactedParametersMismatch else
        if negb (same_root root (enacted_pparam_root snap)) then Err (EnactedRootMismatch root (enacted_pparam_root snap)) else Ok tt
    | Unenactable _ => Ok tt
    end in
  Ok (mk_RatificationRecord frozen_at ImportedFromSnapshot (snap_proposals snap) (snap_drep_distribution snap)
        (snap_pool_distribution snap) outcome).

(** * What is removed *)

(** A proposal that goes with [gone]: itself, or a descendant of one that goes. *)
Inductive Doomed (l : list GovActionState) (gone : GovActionId -> Prop) : GovActionId -> Prop :=
| doomed_gone id : gone id -> Doomed l gone id
| doomed_child p pa : p ∈ l -> gov_action_parent (action p) = Some pa -> Doomed l gone pa -> Doomed l gone (action_id p).

Lemma doomed_mono l (g g' : GovActionId -> Prop) id : (forall i, g i -> Doomed l g' i) -> Doomed l g id -> Doomed l g' id.
Proof. intros Hg. induction 1 as [i Hi|p pa Hp Hpa _ IH]; [by apply Hg|by apply (doomed_child _ _ p pa)]. Qed.

Definition holds (s : BTreeSet GovActionId) (id : GovActionId) : Prop := set_contains s id = true.

Lemma holds_insert s k id : holds (set_insert s k) id <-> id = k \/ holds s id.
Proof.
  unfold holds, set_contains, set_insert. rewrite contains_insert, orb_true_iff, bool_decide_eq_true. intuition congruence.
Qed.

Lemma same_id_eq a b : same_id a b = true <-> a = b.
Proof. unfold same_id. rewrite <- (cmp_eq a b). by destruct (cmp a b). Qed.

Lemma parent_in_holds s p : parent_in s p = true <-> exists pa, gov_action_parent (action p) = Some pa /\ holds s pa.
Proof. unfold parent_in. destruct (gov_action_parent (action p)) as [pa|]; split; [by exists pa|by intros (? & [= ->] & ?)|done|by intros (? & ? & ?)]. Qed.

(** Still in the list. *)
Definition left_in (l : list GovActionState) (s : BTreeSet GovActionId) : nat :=
  length (List.filter (fun p => negb (set_contains s (action_id p))) l).

Lemma filter_length_mono {A} (f g : A -> bool) l : (forall x, x ∈ l -> f x = true -> g x = true) ->
  (length (List.filter f l) <= length (List.filter g l))%nat /\
  ((exists x, x ∈ l /\ f x = false /\ g x = true) -> (length (List.filter f l) < length (List.filter g l))%nat).
Proof.
  induction l as [|x l IH]; intros Hs; [split; [done|by intros (? & ?%elem_of_nil & _)]|].
  destruct IH as [IH1 IH2]; [intros y Hy; apply Hs; by right|]. pose proof (Hs x ltac:(by left)) as Hx. cbn.
  split.
  - destruct (f x) eqn:Ef; [rewrite Hx by done; cbn; lia|]. destruct (g x); cbn; lia.
  - intros (y & [->|Hy]%elem_of_cons & Ey & Gy); [rewrite Ey, Gy; cbn; lia|].
    specialize (IH2 ltac:(by exists y)). destruct (f x) eqn:Ef; [rewrite Hx by done; cbn; lia|]. destruct (g x); cbn; lia.
Qed.

(** One pass: it grows the set inside the descendants, and when it adds nothing the set is closed. *)
Lemma close_pass l l' (s : BTreeSet GovActionId) b : l' ⊆ l -> ordered s ->
  let '(s', b') := fold_left close_step l' (s, b) in
  ordered s' /\ (forall id, holds s id -> holds s' id) /\ (forall id, holds s' id -> Doomed l (holds s) id) /\
  (b' = false -> b = false /\ s' = s /\ forall p, p ∈ l' -> parent_in s p = true -> holds s (action_id p)) /\
  (b' = true -> b = true \/ exists p, p ∈ l' /\ ~ holds s (action_id p) /\ holds s' (action_id p)).
Proof.
  revert s b. induction l' as [|p l' IH]; intros s b Hl Hs; cbn [fold_left].
  { split_and!; [done|done|by constructor|intros ->; split_and!; [done|done|by intros ? ?%elem_of_nil]|by left]. }
  assert (forall q, q ∈ l' -> q ∈ l) as Hl' by (intros q Hq; apply Hl; by right). assert (p ∈ l) as Hp by (apply Hl; by left).
  unfold close_step at 2. destruct (set_contains s (action_id p)) eqn:Ep.
  - specialize (IH s b Hl' Hs). destruct (fold_left close_step l' (s, b)) as [s' b']. destruct IH as (Ho & Hsub & Hd & Hf & Ht).
    split_and!; [done..| |].
    + intros Hb. destruct (Hf Hb) as (-> & -> & Hc). split_and!; [done|done|]. intros q [->|Hq]%elem_of_cons; [done|by apply Hc].
    + intros Hb. destruct (Ht Hb) as [?|(q & Hq & ? & ?)]; [by left|right]. exists q. split_and!; [by right|done|done].
  - destruct (parent_in s p) eqn:Epa.
    + specialize (IH (set_insert s (action_id p)) true Hl' (insert_ordered _ _ _ Hs)).
      destruct (fold_left close_step l' _) as [s' b']. destruct IH as (Ho & Hsub & Hd & Hf & Ht).
      apply parent_in_holds in Epa as (pa & Hpa & Hin). split_and!; [done| | | |].
      * intros id Hid. apply Hsub, holds_insert. by right.
      * intros id Hid. eapply doomed_mono; [|by apply Hd]. intros i [->|Hi]%holds_insert; [|by constructor].
        apply (doomed_child _ _ p pa); [done..|by constructor].
      * intros Hb. destruct (Hf Hb) as [? _]. done.
      * intros _. right. exists p. split_and!; [by left|unfold holds; by rewrite Ep|]. apply Hsub, holds_insert. by left.
    + specialize (IH s b Hl' Hs). destruct (fold_left close_step l' (s, b)) as [s' b']. destruct IH as (Ho & Hsub & Hd & Hf & Ht).
      split_and!; [done..| |].
      * intros Hb. destruct (Hf Hb) as (-> & -> & Hc). split_and!; [done|done|]. intros q [->|Hq]%elem_of_cons Hq'; [congruence|by apply Hc].
      * intros Hb. destruct (Ht Hb) as [?|(q & Hq & ? & ?)]; [by left|right]. exists q. split_and!; [by right|done|done].
Qed.

(** A turn per proposal still in the list, and one more, are enough. *)
Lemma close_over_ends l : forall fuel (s : BTreeSet GovActionId), ordered s -> (left_in l s < fuel)%nat ->
  exists s', close_over fuel l s = Some s' /\ ordered s' /\ forall id, holds s' id <-> Doomed l (holds s) id.
Proof.
  induction fuel as [|fuel IH]; intros s Hs Hf; [lia|]. cbn [close_over].
  pose proof (close_pass l l s false ltac:(done) Hs) as Hp. destruct (fold_left close_step l (s, false)) as [s1 b].
  destruct Hp as (Ho & Hsub & Hd & Hfalse & Htrue). destruct b.
  - destruct (Htrue eq_refl) as [?|(p & Hp & Hn & Hi)]; [done|].
    destruct (IH s1 Ho) as (s' & E & Hos & Hs').
    { unfold left_in in *.
      destruct (filter_length_mono (fun p => negb (set_contains s1 (action_id p))) (fun p => negb (set_contains s (action_id p))) l) as [_ Hlt].
      - intros q _ Hq. unfold holds in Hsub. destruct (set_contains s (action_id q)) eqn:E; [|done]. by rewrite (Hsub _ E) in Hq.
      - assert (length (List.filter (fun p => negb (set_contains s1 (action_id p))) l) <
          length (List.filter (fun p => negb (set_contains s (action_id p))) l))%nat; [|lia].
        apply Hlt. exists p. unfold holds in *. split_and!; [done|by rewrite Hi|by destruct (set_contains s (action_id p))]. }
    exists s'. split; [exact E|]. split; [done|]. intros id. rewrite Hs'. split; intros Hid.
    + eapply doomed_mono; [|done]. intros i Hi'. by apply Hd.
    + eapply doomed_mono; [|done]. intros i Hi'. constructor. by apply Hsub.
  - destruct (Hfalse eq_refl) as (_ & -> & Hc). exists s. split; [done|]. split; [done|]. intros id. split; [by constructor|].
    induction 1 as [i Hi|p pa Hp Hpa _ IH']; [done|]. apply Hc; [done|]. apply parent_in_holds. by exists pa.
Qed.

Lemma close_over_exact l (s : BTreeSet GovActionId) : ordered s ->
  ordered (close_over_descendants l s) /\ forall id, holds (close_over_descendants l s) id <-> Doomed l (holds s) id.
Proof.
  intros Hs. unfold close_over_descendants. destruct (close_over_ends l (S (length l)) s Hs) as (s' & -> & H).
  - unfold left_in. pose proof (filter_length_mono (fun p => negb (set_contains s (action_id p))) (fun _ => true) l ltac:(done)) as [Hle _].
    assert (List.filter (fun _ => true) l = l) as E by (clear; induction l as [|x l IH]; cbn; congruence). rewrite E in Hle. lia.
  - exact H.
Qed.

Lemma holds_set_of l id : holds (set_of l) id <-> id ∈ l.
Proof. unfold holds, set_of. rewrite extend_contains. cbn. rewrite orb_false_r. apply bool_decide_eq_true. Qed.

Lemma holds_filter (f : GovActionId -> bool) (s : BTreeSet GovActionId) id : ordered s ->
  holds (List.filter (fun i => f (fst i)) s) id <-> holds s id /\ f id = true.
Proof.
  intros Ho. unfold holds, set_contains, bt_contains. rewrite get_filter by done. cbn [fst].
  destruct (bt_get s id); [destruct (f id)|]; intuition congruence.
Qed.

Lemma filter_in {A} (f : A -> bool) l x : x ∈ List.filter f l <-> x ∈ l /\ f x = true.
Proof. rewrite !list_elem_of_In. apply filter_In. Qed.

(** A parameter change under the superseded root, other than the winner. *)
Definition sibling (e : EnactedParameterChange) (p : GovActionState) : Prop :=
  action_id p <> enacted_id e /\ exists prev update policy, action p = ParameterChange prev update policy /\ prev = superseded_root e.

Lemma is_sibling_spec e ex p : is_sibling e ex p = true <-> sibling e p /\ ~ holds ex (action_id p).
Proof.
  unfold is_sibling, sibling, same_root, holds. rewrite !andb_true_iff, !negb_true_iff. split.
  - intros [[H1 H2] H3]. split; [|congruence]. split; [intros E; apply same_id_eq in E; congruence|].
    destruct (action p) as [prev update policy| | | | | |]; try done. apply bool_decide_eq_true in H3. by exists prev, update, policy.
  - intros [[H1 (prev & update & policy & -> & E)] H2]. split_and!.
    + destruct (same_id _ _) eqn:Es; [by apply same_id_eq in Es|done].
    + by destruct (set_contains ex (action_id p)).
    + by apply bool_decide_eq_true.
Qed.

Lemma pruned_exact e l (ex : BTreeSet GovActionId) id : ordered ex ->
  holds (pruned_by e l ex) id <->
  Doomed l (fun i => holds ex i \/ exists p, p ∈ l /\ action_id p = i /\ sibling e p) id /\ ~ holds ex id.
Proof.
  intros Ho. unfold pruned_by. set (start := set_extend _ _).
  assert (ordered start) as Hst by apply set_ordered, set_of_ordered.
  destruct (close_over_exact l start Hst) as [Hc Hd].
  assert (forall i, holds start i <-> holds ex i \/ exists p, p ∈ l /\ action_id p = i /\ is_sibling e ex p = true) as Hs.
  { intros i. unfold start, holds. rewrite extend_contains, orb_true_iff, bool_decide_eq_true, (elements_contains ex i Ho).
    fold (holds (set_of (map action_id (List.filter (is_sibling e ex) l))) i). rewrite holds_set_of, list_elem_of_fmap.
    setoid_rewrite filter_in. split; (intros [?|(p & H1 & H2)]; [by left|right; exists p; intuition congruence]). }
  rewrite (holds_filter (fun i => negb (set_contains ex i))) by done. rewrite negb_true_iff, (Hd id).
  assert (set_contains ex id = false <-> ~ holds ex id) as -> by (unfold holds; destruct (set_contains ex id); split; congruence).
  apply and_iff_compat_r. split; apply doomed_mono; intros i Hi; constructor.
  - apply Hs in Hi as [Hi|(p & Hp & Ei & Hsib)]; [by left|right]. exists p. by apply is_sibling_spec in Hsib as [? _].
  - apply Hs. destruct (set_contains ex i) eqn:Exi; [by left|right]. destruct Hi as [Hi|(p & Hp & Ei & Hsib)]; [unfold holds in Hi; congruence|].
    exists p. split_and!; [done..|]. apply is_sibling_spec. split; [done|]. unfold holds. congruence.
Qed.

(** What a decision takes out of the current proposals: the winner, and with their descendants the
    expired and the winner's siblings. *)
Definition leaves (d : RatificationDecision) (l : list GovActionState) (id : GovActionId) : Prop :=
  (exists e, enacted d = Some e /\ id = enacted_id e) \/
  Doomed l (fun i => holds (expired d) i \/ exists e p, enacted d = Some e /\ p ∈ l /\ action_id p = i /\ sibling e p) id.

Definition why_removed (d : RatificationDecision) (l : list GovActionState) : GovActionId -> option RemovalCause :=
  let ex := close_over_descendants l (expired d) in
  removal_cause (enacted d) ex (match enacted d with Some e => pruned_by e l ex | None => [] end).

Lemma why_removed_exact d l id : ordered (expired d) -> is_Some (why_removed d l id) <-> leaves d l id.
Proof.
  intros Ho. destruct (close_over_exact l (expired d) Ho) as [Hc Hd]. unfold why_removed, removal_cause, leaves.
  specialize (Hd id) as Hdi. unfold holds at 1 in Hdi.
  assert (Doomed l (holds (expired d)) id -> Doomed l (fun i => holds (expired d) i \/ exists e p, enacted d = Some e /\ p ∈ l /\ action_id p = i /\ sibling e p) id) as Hweak.
  { apply doomed_mono. intros i Hi. constructor. by left. }
  destruct (set_contains (close_over_descendants l (expired d)) id) eqn:E.
  { split; [|by eexists]. intros _. right. apply Hweak. by apply Hdi. }
  unfold is_winner_id. destruct (enacted d) as [e|].
  - destruct (same_id (enacted_id e) id) eqn:Ew.
    { apply same_id_eq in Ew as <-. split; [|by eexists]. intros _. left. by exists e. }
    assert (enacted_id e <> id) by (intros Ei; apply same_id_eq in Ei; congruence).
    pose proof (pruned_exact e l _ id Hc) as Hp. unfold holds at 1 in Hp.
    assert (is_Some (if set_contains (pruned_by e l (close_over_descendants l (expired d))) id then Some PrunedByEnactment else None) <->
      set_contains (pruned_by e l (close_over_descendants l (expired d))) id = true) as ->
      by (case (set_contains _ id); split; [done|by eexists|by intros []|done]).
    rewrite Hp. split.
    + intros [Hx _]. right. eapply doomed_mono; [|exact Hx]. intros i [Hi|(p & Hpl & Ei & Hsib)].
      * apply Hd in Hi. eapply doomed_mono; [|exact Hi]. intros j Hj. constructor. by left.
      * constructor. right. by exists e, p.
    + intros [(e' & [= <-] & ?)|Hx]; [by subst|]. split; [|unfold holds; congruence]. eapply doomed_mono; [|exact Hx].
      intros i [Hi|(e' & p & [= <-] & Hpl & Ei & Hsib)]; constructor; [left; apply Hd; by constructor|right]. by exists p.
  - split; [by intros []|]. intros [(e & ? & _)|Hx]; [done|]. exfalso. enough (false = true) by done. apply Hdi.
    eapply doomed_mono; [|exact Hx]. intros i [Hi|(e & p & ? & _)]; [by constructor|done].
Qed.

(** Where a removed proposal's deposit goes. *)
Definition returned (reg : StakeCredential -> bool) (p : GovActionState) (ret : DepositReturn) : Prop :=
  if gs_deposit p =? 0 then ret = NoDeposit (action_id p) else
  exists cred, reward_account_credential (gs_return_addr p) = Some cred /\
    ret = if reg cred then ToRewardAccount (action_id p) cred (gs_deposit p) else ToTreasury (action_id p) (gs_deposit p).
Definition returned_amount (ret : DepositReturn) : Z :=
  match ret with ToRewardAccount _ _ amount | ToTreasury _ amount => amount | NoDeposit _ => 0 end.
Definition refundable (p : GovActionState) : Prop := gs_deposit p = 0 \/ is_Some (reward_account_credential (gs_return_addr p)).

Lemma route_deposit_ok reg p ret : route_deposit reg p = Ok ret <-> returned reg p ret.
Proof.
  unfold route_deposit, returned. destruct (gs_deposit p =? 0); [split; congruence|].
  destruct (reward_account_credential (gs_return_addr p)) as [cred|]; split; [intros [= <-]; by exists cred|by intros (? & [= <-] & ->)|done|by intros (? & ? & _)].
Qed.

Lemma route_deposit_total reg p : (exists ret, route_deposit reg p = Ok ret) <-> refundable p.
Proof.
  unfold route_deposit, refundable. destruct (Z.eqb_spec (gs_deposit p) 0) as [->|Hn]; [split; [by left|by eexists]|].
  destruct (reward_account_credential (gs_return_addr p)); split; [by right; eexists|by eexists|by intros []|by intros [?|[]]].
Qed.

Lemma returned_amount_exact reg p ret : returned reg p ret -> returned_amount ret = gs_deposit p.
Proof. unfold returned. destruct (Z.eqb_spec (gs_deposit p) 0) as [->|Hn]; [by intros ->|]. intros (cred & _ & ->). by destruct (reg cred). Qed.

Definition goes (why : GovActionId -> option RemovalCause) (p : GovActionState) : bool :=
  match why (action_id p) with Some _ => true | None => false end.

Lemma goes_some why p : goes why p = true <-> is_Some (why (action_id p)).
Proof. unfold goes. destruct (why (action_id p)); split; [by eexists|done|done|by intros []]. Qed.

(** Every proposal that goes is removed with its cause and its deposit is returned. *)
Lemma remove_proposals_exact reg why l rs ds ids : remove_proposals reg why l = Ok (rs, ds, ids) ->
  Forall2 (fun p r => removed_id r = action_id p /\ why (action_id p) = Some (cause r)) (List.filter (goes why) l) rs /\
  Forall2 (returned reg) (List.filter (goes why) l) ds /\
  (forall id, holds ids id <-> exists p, p ∈ l /\ goes why p = true /\ action_id p = id).
Proof.
  revert rs ds ids. induction l as [|p l IH]; intros rs ds ids; cbn [remove_proposals List.filter].
  { intros [= <- <- <-]. split; [constructor|]. split; [constructor|]. intros id. split; [done|by intros (? & ?%elem_of_nil & _)]. }
  destruct (why (action_id p)) as [c|] eqn:Ec;
    [assert (goes why p = true) as -> by (unfold goes; by rewrite Ec)|assert (goes why p = false) as -> by (unfold goes; by rewrite Ec)].
  - intros Hr. apply rbind_ok_inv in Hr as (ret & Hret & Hr). apply rbind_ok_inv in Hr as ([[rs' ds'] ids'] & Hrec & Hr).
    injection Hr as <- <- <-. destruct (IH _ _ _ Hrec) as (H1 & H2 & H3). split; [by constructor|].
    split; [constructor; [by apply route_deposit_ok|done]|]. intros id. rewrite holds_insert, H3. split.
    + intros [->|(q & Hq & Hg & E)]; [exists p; split; [by left|]; split; [apply goes_some; by eexists|done]|].
      exists q. split; [by right|done].
    + intros (q & [->|Hq]%elem_of_cons & Hg & E); [by left|right; by exists q].
  - intros Hrec. destruct (IH _ _ _ Hrec) as (H1 & H2 & H3). split; [done|]. split; [done|]. intros id. rewrite H3. split.
    + intros (q & Hq & Hg). exists q. split; [by right|done].
    + intros (q & [->|Hq]%elem_of_cons & Hg & E); [apply goes_some in Hg as [? ?]; congruence|by exists q].
Qed.

Lemma remove_proposals_total reg why l : (forall p, p ∈ l -> goes why p = true -> refundable p) <->
  exists rs ds ids, remove_proposals reg why l = Ok (rs, ds, ids).
Proof.
  induction l as [|p l IH]; cbn [remove_proposals]; [split; [intros _; by eexists _, _, _|by intros _ ? ?%elem_of_nil]|].
  unfold goes in *. destruct (why (action_id p)) as [c|] eqn:Ec.
  - split.
    + intros Hp. destruct (proj2 (route_deposit_total reg p)) as [ret Hret]; [apply Hp; [by left|by rewrite Ec]|].
      destruct (proj1 IH) as (rs & ds & ids & ->); [intros q Hq; apply Hp; by right|]. rewrite Hret. by eexists _, _, _.
    + intros (rs & ds & ids & Hr). apply rbind_ok_inv in Hr as (ret & Hret & Hr).
      apply rbind_ok_inv in Hr as ([[rs' ds'] ids'] & Hrec & _). intros q [->|Hq]%elem_of_cons Hg.
      * apply (route_deposit_total reg). by exists ret.
      * by apply (proj2 IH ltac:(by eexists _, _, _)).
  - rewrite <- IH. split; intros Hp q.
    + intros Hq. apply Hp. by right.
    + intros [->|Hq]%elem_of_cons; [by rewrite Ec|by apply Hp].
Qed.

Lemma total_split {A} (f : A -> bool) (g : A -> Z) l :
  sum_Z (map g l) = sum_Z (map g (List.filter (fun x => negb (f x)) l)) + sum_Z (map g (List.filter f l)).
Proof. induction l as [|x l IH]; [done|]. cbn [map List.filter]. destruct (f x); cbn [negb map]; rewrite !sum_cons; lia. Qed.

Lemma sum_perm l l' : l ≡ₚ l' -> sum_Z l = sum_Z l'.
Proof. induction 1; rewrite ?sum_cons; lia || congruence. Qed.

Lemma filter_perm {A} (f : A -> bool) l l' : l ≡ₚ l' -> List.filter f l ≡ₚ List.filter f l'.
Proof.
  induction 1 as [|x l l' _ IH|x y l|l1 l2 l3 _ IH1 _ IH2]; cbn; [done| | |by rewrite IH1].
  - destruct (f x); [by constructor|done].
  - destruct (f x), (f y); try done. constructor.
Qed.

Lemma returned_total reg l ds : Forall2 (returned reg) l ds -> sum_Z (map returned_amount ds) = sum_Z (map gs_deposit l).
Proof. induction 1 as [|p ret l ds Hr _ IH]; [done|]. cbn [map]. rewrite !sum_cons, IH, (returned_amount_exact reg p) by done. done. Qed.

(** Why it was removed, the first reason that holds. *)
Definition caused (d : RatificationDecision) (l : list GovActionState) (id : GovActionId) (c : RemovalCause) : Prop :=
  match c with
  | Cause_Expired => Doomed l (holds (expired d)) id
  | Cause_Enacted => ~ Doomed l (holds (expired d)) id /\ exists e, enacted d = Some e /\ enacted_id e = id
  | PrunedByEnactment => ~ Doomed l (holds (expired d)) id /\ forall e, enacted d = Some e -> enacted_id e <> id
  end.

Lemma why_caused d l id c : ordered (expired d) -> why_removed d l id = Some c -> caused d l id c.
Proof.
  intros Ho. destruct (close_over_exact l (expired d) Ho) as [_ Hd]. specialize (Hd id). unfold holds at 1 in Hd.
  unfold why_removed, removal_cause. destruct (set_contains (close_over_descendants l (expired d)) id) eqn:E.
  { intros [= <-]. by apply Hd. }
  assert (~ Doomed l (holds (expired d)) id) as Hn by (intros ?%Hd; congruence).
  unfold is_winner_id. destruct (enacted d) as [e|] eqn:Ee; [destruct (same_id (enacted_id e) id) eqn:Ew|].
  - intros [= <-]. apply same_id_eq in Ew. split; [done|]. by exists e.
  - destruct (set_contains (pruned_by _ _ _) id); intros E'; [|discriminate E']. injection E' as <-. split; [done|].
    intros e' E' Eid. rewrite Ee in E'. injection E' as <-. apply same_id_eq in Eid. congruence.
  - intros E'. discriminate E'.
Qed.

Definition is_present (l : list GovActionState) (id : GovActionId) : Prop := exists p, p ∈ l /\ action_id p = id.
Definition decided (d : RatificationDecision) (id : GovActionId) : Prop :=
  holds (expired d) id \/ exists e, enacted d = Some e /\ enacted_id e = id.

Definition decided_ids (d : RatificationDecision) : list GovActionId :=
  elements (expired d) ++ from_option (fun e => [enacted_id e]) [] (enacted d).

Lemma decided_ids_spec d id : ordered (expired d) -> id ∈ decided_ids d <-> decided d id.
Proof.
  intros Ho. unfold decided_ids, decided, holds. rewrite elem_of_app, (elements_contains _ _ Ho). apply or_iff_compat_l.
  destruct (enacted d) as [e|]; cbn.
  - rewrite list_elem_of_singleton. split; [intros ->; by exists e|by intros (? & [= <-] & ->)].
  - split; [by intros ?%elem_of_nil|by intros (? & ? & _)].
Qed.

Lemma present_spec l id : existsb (fun p => same_id (action_id p) id) l = true <-> is_present l id.
Proof.
  rewrite existsb_exists. unfold is_present. split; intros (p & Hp & E).
  - exists p. by apply list_elem_of_In in Hp; apply same_id_eq in E.
  - exists p. apply list_elem_of_In in Hp. by apply same_id_eq in E.
Qed.

Lemma find_none {A} (f : A -> bool) l : find f l = None <-> forall x, x ∈ l -> f x = false.
Proof.
  split; [intros Hf x Hx; by apply (find_none f l Hf), list_elem_of_In|]. intros Hf. destruct (find f l) as [x|] eqn:E; [|done].
  apply find_some in E as [Hx E]. apply list_elem_of_In in Hx. by rewrite (Hf x Hx) in E.
Qed.

Definition missing (d : RatificationDecision) (l : list GovActionState) : option GovActionId :=
  find (fun id => negb (existsb (fun p => same_id (action_id p) id) l)) (decided_ids d).

Lemma missing_none d l : ordered (expired d) -> missing d l = None <-> forall id, decided d id -> is_present l id.
Proof.
  intros Ho. unfold missing. rewrite find_none. split; intros Hp id Hid.
  - apply present_spec. specialize (Hp id). rewrite negb_false_iff in Hp. apply Hp. by apply decided_ids_spec.
  - apply negb_false_iff, present_spec, Hp. by apply decided_ids_spec.
Qed.

Lemma apply_decision_shape reg d l : apply_decision reg d l =
  match missing d l with
  | Some id => Err (RatificationRecordProposalMissing id)
  | None =>
      let? (rs, ds, ids) := remove_proposals reg (why_removed d l) (sort_by by_action_id l) in
      Ok (mk_ConwayGovernanceEpochPlan (List.filter (fun p => negb (set_contains ids (action_id p))) l) rs ds
            (match enacted d with Some e => PParams_Set (enacted_pparams e) | None => PParams_Unchanged end)
            (match enacted d with Some e => Prev_Set (enacted_id e) | None => Prev_Unchanged end))
  end.
Proof.
  unfold apply_decision. fold (decided_ids d). fold (missing d l). destruct (missing d l); [done|]. cbn [rbind].
  fold (why_removed d l). destruct (remove_proposals _ _ _) as [[[rs ds] ids]|]; [|done]. cbn [rbind]. by destruct (enacted d).
Qed.

(** The parts of a successful application: what goes, what stays, what is returned. *)
Lemma apply_decision_parts reg d l plan : apply_decision reg d l = Ok plan ->
  let gone := goes (why_removed d l) in
  plan_proposals plan = List.filter (fun p => negb (gone p)) l /\
  Forall2 (fun p r => removed_id r = action_id p /\ why_removed d l (action_id p) = Some (cause r))
    (List.filter gone (sort_by by_action_id l)) (removals plan) /\
  Forall2 (returned reg) (List.filter gone (sort_by by_action_id l)) (deposit_returns plan) /\
  plan_pparams plan = match enacted d with Some e => PParams_Set (enacted_pparams e) | None => PParams_Unchanged end /\
  plan_prev_pparam_action plan = match enacted d with Some e => Prev_Set (enacted_id e) | None => Prev_Unchanged end.
Proof.
  rewrite apply_decision_shape. destruct (missing d l); [done|]. intros Hp.
  apply rbind_ok_inv in Hp as ([[rs ds] ids] & Hr & Hp). injection Hp as <-.
  cbn [plan_proposals removals deposit_returns plan_pparams plan_prev_pparam_action].
  destruct (remove_proposals_exact _ _ _ _ _ _ Hr) as (Hrs & Hds & Hids). split; [|done].
  apply filter_ext_in. intros p Hp%list_elem_of_In. f_equal. apply eq_true_iff_eq. rewrite (Hids (action_id p)).
  setoid_rewrite (sort_by_perm by_action_id l).
  split; [intros (q & _ & Hq & E); unfold goes in *; by rewrite <- E|by exists p].
Qed.

(** No deposit is lost and none is returned that was not held. *)
Lemma apply_decision_deposits reg d l plan : apply_decision reg d l = Ok plan ->
  sum_Z (map gs_deposit l) = sum_Z (map gs_deposit (plan_proposals plan)) + sum_Z (map returned_amount (deposit_returns plan)) /\
  (Forall (fun p => 0 <= gs_deposit p) l ->
   Forall (fun p => 0 <= gs_deposit p) (plan_proposals plan) /\ Forall (fun r => 0 <= returned_amount r) (deposit_returns plan)).
Proof.
  intros Hp. destruct (apply_decision_parts _ _ _ _ Hp) as (-> & _ & Hds & _). split.
  - rewrite (returned_total _ _ _ Hds), (total_split (goes (why_removed d l)) gs_deposit l). f_equal.
    apply sum_perm. change (map gs_deposit ?x) with (gs_deposit <$> x). by rewrite (filter_perm _ _ _ (sort_by_perm by_action_id l)).
  - intros Hl. rewrite Forall_forall in Hl. split; apply Forall_forall.
    + intros p [Hin _]%filter_in. by apply Hl.
    + intros r Hin. apply list_elem_of_lookup in Hin as [i Hi]. destruct (Forall2_lookup_r _ _ _ _ _ Hds Hi) as (p & Hpi & Hr).
      rewrite (returned_amount_exact _ _ _ Hr). apply Hl. apply list_elem_of_lookup_2, filter_in in Hpi as [Hpi _]. by rewrite sort_by_perm in Hpi.
Qed.

(** C11. A decision applied.  It halts exactly when it names a proposal that is not there or a proposal that
    leaves holds a deposit its return address cannot receive.  Otherwise those that leave are the
    winner and, with all their descendants, the expired ones and the winner's siblings; the others stay
    in their order; every one that leaves is listed once with its cause and its deposit is returned to
    its account or to the treasury, so that no deposit is lost. *)
Theorem removals_exact reg d l : ordered (expired d) ->
  ((exists plan, apply_decision reg d l = Ok plan) <->
   (forall id, decided d id -> is_present l id) /\ (forall p, p ∈ l -> leaves d l (action_id p) -> refundable p)) /\
  (forall plan, apply_decision reg d l = Ok plan -> exists gone,
    (forall p, gone p = true <-> leaves d l (action_id p)) /\
    plan_proposals plan = List.filter (fun p => negb (gone p)) l /\
    Forall2 (fun p r => removed_id r = action_id p /\ caused d l (action_id p) (cause r))
      (List.filter gone (sort_by by_action_id l)) (removals plan) /\
    Forall2 (returned reg) (List.filter gone (sort_by by_action_id l)) (deposit_returns plan) /\
    sum_Z (map gs_deposit l) = sum_Z (map gs_deposit (plan_proposals plan)) + sum_Z (map returned_amount (deposit_returns plan)) /\
    plan_pparams plan = match enacted d with Some e => PParams_Set (enacted_pparams e) | None => PParams_Unchanged end /\
    plan_prev_pparam_action plan = match enacted d with Some e => Prev_Set (enacted_id e) | None => Prev_Unchanged end).
Proof.
  intros Ho. assert (forall p, goes (why_removed d l) p = true <-> leaves d l (action_id p)) as Hg
    by (intros p; by rewrite goes_some, why_removed_exact).
  split.
  - rewrite apply_decision_shape, <- (missing_none d l Ho). destruct (missing d l) as [id|]; [split; [by intros []|by intros []]|].
    transitivity (exists rs ds ids, remove_proposals reg (why_removed d l) (sort_by by_action_id l) = Ok (rs, ds, ids)).
    + destruct (remove_proposals _ _ _) as [[[rs ds] ids]|]; split; [intros _; by eexists _, _, _|intros _; by eexists|by intros []|by intros (? & ? & ? & ?)].
    + rewrite <- remove_proposals_total. setoid_rewrite Hg. setoid_rewrite (sort_by_perm by_action_id l). by intuition.
  - intros plan Hp. destruct (apply_decision_parts _ _ _ _ Hp) as (H1 & H2 & H3 & H4). exists (goes (why_removed d l)).
    split; [done|]. split; [done|]. split; [|split; [done|split; [by eapply apply_decision_deposits|done]]].
    eapply Forall2_impl; [exact H2|]. intros p r [? ?]. split; [done|]. by apply why_caused.
Qed.

(** * What is decided *)

Definition is_info (p : GovActionState) : bool := match action p with InfoAction => true | _ => false end.
Definition previous (p : GovActionState) : option GovActionId := match action p with ParameterChange prev _ _ => prev | _ => None end.

(** What continues the line of enacted changes. *)
Definition continues (root : PreviousPParamAction) (prev : option GovActionId) : Prop :=
  match root with NoPreviousAction => prev = None | Prev_Enacted id => prev = Some id | Prev_Unversioned => False end.
#[local] Instance continues_dec root prev : Decision (continues root prev).
Proof. destruct root; cbn; apply _. Defined.
Lemma lineage_exact root prev : lineage_ok root prev = bool_decide (continues root prev).
Proof. destruct root; cbn; unfold same_root; first [done|by apply bool_decide_ext]. Qed.

Section Decision.
Context (input : ConwayGovernanceEpochInput) (accepted : GovActionState -> bool).

Definition ratifies (p : GovActionState) : bool := negb (is_info p) && accepted p.
Definition candidate (p : GovActionState) : bool :=
  ratifies p && bool_decide (continues (in_current_prev_pparam_action input) (previous p)).

(** Everything that is accepted is a change of the parameters, in a state that knows what it replaces. *)
Definition all_enactable (l : list GovActionState) : Prop :=
  forall p, p ∈ l -> ratifies p = true -> is_parameter_change p = true /\ unversioned input = false.

Lemma scan_exact l : forall passing cands,
  match scan_candidates input accepted l passing cands with
  | Ok (passing', cands') => all_enactable l /\ cands' = cands ++ List.filter candidate l /\
      passing' = set_extend passing (map action_id (List.filter ratifies l))
  | Err _ => ~ all_enactable l
  end.
Proof.
  induction l as [|p l IH]; intros passing cands; cbn [scan_candidates List.filter].
  { split; [by intros ? ?%elem_of_nil|]. by rewrite app_nil_r. }
  assert (forall passing cands, ratifies p = false -> match scan_candidates input accepted l passing cands with
    | Ok (passing', cands') => all_enactable (p :: l) /\ cands' = cands ++ (if candidate p then p :: List.filter candidate l else List.filter candidate l) /\
        passing' = set_extend passing (map action_id (if ratifies p then p :: List.filter ratifies l else List.filter ratifies l))
    | Err _ => ~ all_enactable (p :: l) end) as Hskip.
  { intros ps cs Hr. unfold candidate at 1. rewrite Hr. cbn [andb]. specialize (IH ps cs).
    destruct (scan_candidates input accepted l ps cs) as [[ps' cs']|].
    - destruct IH as (Ha & Hc & Hp). split; [|done]. intros q [->|Hq]%elem_of_cons Hq'; [congruence|by apply Ha].
    - intros Ha. apply IH. intros q Hq. apply Ha. by right. }
  assert (is_parameter_change p = false -> ratifies p = true -> ~ all_enactable (p :: l)) as Hbad
    by (intros H1 H2 Ha; destruct (Ha p ltac:(by left) H2); congruence).
  destruct (accepted p) eqn:Ea; [|destruct (action p); cbn [negb]; apply Hskip; unfold ratifies; rewrite Ea; apply andb_false_r].
  destruct (is_info p) eqn:Ei.
  { unfold is_info in Ei. destruct (action p) eqn:Eact; try done. apply Hskip. unfold ratifies, is_info. by rewrite Eact. }
  assert (ratifies p = true) as Hr by (unfold ratifies; by rewrite Ei, Ea).
  unfold is_parameter_change in Hbad. unfold is_info in Ei.
  destruct (action p) as [prev update policy| | | | | |] eqn:Eact; try done; cbn [negb]; try by apply Hbad.
  destruct (unversioned input) eqn:Eu.
  - intros Ha. destruct (Ha p ltac:(by left) Hr). congruence.
  - unfold candidate at 1. rewrite Hr. cbn [andb]. replace (previous p) with prev by (unfold previous; by rewrite Eact). rewrite lineage_exact.
    set (cs := if bool_decide _ then _ else _). specialize (IH (set_insert passing (action_id p)) cs).
    destruct (scan_candidates input accepted l _ cs) as [[ps' cs']|].
    + destruct IH as (Ha & -> & ->). split_and!; [|subst cs; destruct (bool_decide _); by rewrite <- ?app_assoc|done].
      intros q [->|Hq]%elem_of_cons Hq'; [split; [unfold is_parameter_change; by rewrite Eact|done]|by apply Ha].
    + intros Ha. apply IH. intros q Hq. apply Ha. by right.
Qed.

(** A ratified change on top of the winner. *)
Definition chained (l : list GovActionState) (winner : GovActionId) : Prop :=
  exists p q, p ∈ l /\ q ∈ l /\ ratifies q = true /\ action_id p = action_id q /\ previous p = Some winner.

Lemma chains_onto_exact l winner : all_enactable l ->
  find (chains_onto winner (set_of (map action_id (List.filter ratifies l)))) l = None <-> ~ chained l winner.
Proof.
  intros _. rewrite find_none. unfold chains_onto, chained, same_root, previous. split.
  - intros Hn (p & q & Hp & Hq & Hr & E & Hprev). specialize (Hn p Hp). destruct (action p); try done. subst prev_action.
    rewrite bool_decide_eq_true_2 in Hn by done. cbn [andb] in Hn. enough (holds (set_of (map action_id (List.filter ratifies l))) (action_id p)) by (unfold holds in *; congruence).
    apply holds_set_of, list_elem_of_fmap. exists q. split; [done|]. by apply filter_in.
  - intros Hn p Hp. destruct (action p) eqn:Ea; try done. destruct (bool_decide_reflect (prev_action = Some winner)) as [->|]; [|done]. cbn [andb].
    destruct (set_contains _ _) eqn:Ec; [|done]. exfalso. apply Hn. apply holds_set_of, list_elem_of_fmap in Ec as (q & E & [Hq Hr]%filter_in).
    exists p, q. by rewrite Ea.
Qed.
End Decision.

(** Nothing but the memory limits and the minimum pool cost; the steps are those of before. *)
Definition with_limits (current : ProtocolParameters) (mem : Z) (block : MaxBlockExUnits) (cost : Coin) : ProtocolParameters :=
  build_enacted_pparams current (mk_EnactableParamUpdate (Some (mk_ExUnits mem 0))
    (match block with MaxBlock_Bound m s => Some (mk_ExUnits m s) | MaxBlock_Unversioned => None end) (Some cost) []).
Definition limits_only (current new : ProtocolParameters) : Prop :=
  new = with_limits current (max_tx_ex_units_mem new) (max_block_ex_units new) (min_pool_cost new) /\
  match max_block_ex_units current, max_block_ex_units new with
  | MaxBlock_Bound _ steps, MaxBlock_Bound _ steps' => steps' = steps
  | MaxBlock_Unversioned, MaxBlock_Unversioned => True
  | _, _ => False
  end.

Lemma enactment_exact p current e : build_parameter_change_enactment p current = Ok e ->
  exists prev update policy, action p = ParameterChange prev update policy /\
    enacted_id e = action_id p /\ superseded_root e = prev /\ limits_only current (enacted_pparams e).
Proof.
  unfold build_parameter_change_enactment. destruct (action p) as [prev update policy| | | | | |]; try done. intros He.
  destruct (negb _); [done|]. apply rbind_ok_inv in He as (u & _ & He). destruct (negb _); [done|].
  destruct u as [tx block cost keys]. cbn [up_max_tx_ex_units up_max_block_ex_units] in He. apply rbind_ok_inv in He as (_ & _ & He).
  apply rbind_ok_inv in He as (_ & _ & He). apply rbind_ok_inv in He as (u & Hb & He). injection He as <-.
  exists prev, update, policy. split; [done|]. split; [done|]. split; [done|].
  unfold limits_only, with_limits, build_enacted_pparams. cbn. destruct block as [b|]; cbn.
  - destruct (max_block_ex_units current) as [|m s]; [done|]. destruct (Z.eqb_spec (eu_steps b) s); [|done]. done.
  - destruct (max_block_ex_units current) eqn:Em; cbn; rewrite ?Em; done.
Qed.

Definition active_stake (input : ConwayGovernanceEpochInput) (epoch : Z) : result (DRepStakeDistribution * Z) unit :=
  active_drep_stake_filtered (in_drep_stake input) (in_drep_expiry input) (in_num_dormant input) epoch.

(** The thresholds, where the active stake is known. *)
Definition accepts (input : ConwayGovernanceEpochInput) (epoch : Z) (p : GovActionState) : bool :=
  match active_stake input epoch with
  | Ok (active, total) => thresholds_accepted input active total epoch p
  | Err _ => false
  end.

(** Past its life and not the winner. *)
Definition lapsed (e : option EnactedParameterChange) (epoch : Z) (p : GovActionState) : bool :=
  negb (is_winner_id e (action_id p)) && (expires_after p <? epoch).

(** The decision on a list of proposals, with no order in it. *)
Definition Decides (input : ConwayGovernanceEpochInput) (epoch : Z) (l : list GovActionState) (d : RatificationDecision) : Prop :=
  (exists r, active_stake input epoch = Ok r) /\
  all_enactable input (accepts input epoch) l /\
  expired d = set_of (map action_id (List.filter (lapsed (enacted d) epoch) l)) /\
  match enacted d with
  | None => List.filter (candidate input (accepts input epoch)) l = []
  | Some e => exists w, List.filter (candidate input (accepts input epoch)) l = [w] /\
      build_parameter_change_enactment w (in_current_pparams input) = Ok e /\
      ~ chained (accepts input epoch) l (enacted_id e)
  end.

Lemma set_of_perm (l l' : list GovActionId) : l ≡ₚ l' -> set_of l = set_of l'.
Proof.
  intros Hp. apply ordered_ext; [apply set_of_ordered..|]. intros k.
  pose proof (holds_set_of l k) as H1. pose proof (holds_set_of l' k) as H2.
  assert (k ∈ l <-> k ∈ l') as H3 by by rewrite Hp. unfold holds, set_contains, bt_contains in *.
  destruct (bt_get (set_of l) k) as [[]|], (bt_get (set_of l') k) as [[]|]; try done; intuition congruence.
Qed.

Lemma filter_single_perm {A} (f : A -> bool) l l' w : l ≡ₚ l' -> List.filter f l = [w] -> List.filter f l' = [w].
Proof. intros Hp E. pose proof (filter_perm f _ _ Hp) as Hf. rewrite E in Hf. by apply Permutation_singleton_l in Hf. Qed.

Lemma decides_perm input epoch l l' d : l ≡ₚ l' -> Decides input epoch l d -> Decides input epoch l' d.
Proof.
  intros Hp (H1 & H2 & H3 & H4). split_and!; [done| | |].
  - intros p Hin. rewrite <- Hp in Hin. by apply H2.
  - rewrite H3. apply set_of_perm. change (map action_id ?x) with (action_id <$> x). by rewrite (filter_perm _ _ _ Hp).
  - destruct (enacted d) as [e|].
    + destruct H4 as (w & Hw & Hb & Hc). exists w. split_and!; [by apply (filter_single_perm _ l)|done|].
      intros (p & q & Hin & Hq & H). apply Hc. exists p, q. by rewrite !Hp.
    + apply Permutation_nil. rewrite <- H4. by apply filter_perm.
Qed.

Lemma chained_perm accepted l l' w : l ≡ₚ l' -> chained accepted l w -> chained accepted l' w.
Proof. intros Hp (p & q & Hin & Hq & H). exists p, q. by rewrite <- !Hp. Qed.

Lemma decide_shape input epoch : decide_ratification input epoch =
  match active_stake input epoch with
  | Err _ => Err DormantRequired
  | Ok _ =>
      let sorted := sort_by by_action_id (in_proposals input) in
      let? (passing, candidates) := scan_candidates input (accepts input epoch) sorted [] [] in
      let? enacted :=
        match candidates with
        | [] => Ok None
        | [winner] => let? e := build_parameter_change_enactment winner (in_current_pparams input) in Ok (Some e)
        | first :: _ => Err (unsupported first CompetingRatifiableActions [])
        end in
      let? _ :=
        match enacted with
        | Some e => match find (chains_onto (enacted_id e) passing) (in_proposals input) with
                    | Some p => Err (unsupported p ChainedEnactment [])
                    | None => Ok tt
                    end
        | None => Ok tt
        end in
      Ok (mk_RatificationDecision enacted (set_of (map action_id (List.filter (lapsed enacted epoch) sorted))))
  end.
Proof.
  unfold decide_ratification, accepts. fold (active_stake input epoch). destruct (active_stake input epoch) as [[active total]|]; [|done].
  cbn [map_err rbind]. done.
Qed.

Lemma decide_exact_sorted input epoch d : decide_ratification input epoch = Ok d <->
  Decides input epoch (sort_by by_action_id (in_proposals input)) d.
Proof.
  rewrite decide_shape. unfold Decides. set (sorted := sort_by by_action_id (in_proposals input)).
  assert (sorted ≡ₚ in_proposals input) as Hp by apply sort_by_perm.
  destruct (active_stake input epoch) as [r|]; [|split; [done|by intros [[? ?] _]]]. cbn zeta.
  pose proof (scan_exact input (accepts input epoch) sorted [] []) as Hs.
  destruct (scan_candidates input (accepts input epoch) sorted [] []) as [[passing cands]|]; [|split; [done|by intros (_ & ? & _)]].
  destruct Hs as (Ha & Hc & Hpass). cbn [app] in Hc. fold (set_of (map action_id (List.filter (ratifies (accepts input epoch)) sorted))) in Hpass.
  cbn [rbind]. rewrite <- Hc.
  destruct cands as [|w [|w' cands]]; cbn [rbind].
  - split; [intros [= <-]; cbn; by split_and!; [by eexists|..]|]. intros (_ & _ & He & Hm). destruct d as [en ex]. cbn in *.
    destruct en; [by destruct Hm as (? & ? & _)|]. by rewrite He.
  - destruct (build_parameter_change_enactment w (in_current_pparams input)) as [e|] eqn:Eb; cbn [rbind].
    + assert (find (chains_onto (enacted_id e) passing) (in_proposals input) = None <-> ~ chained (accepts input epoch) sorted (enacted_id e)) as Hch.
      { assert (passing = set_of (map action_id (List.filter (ratifies (accepts input epoch)) (in_proposals input)))) as ->.
        { rewrite Hpass. apply set_of_perm. change (map action_id ?x) with (action_id <$> x). by rewrite (filter_perm _ _ _ Hp). }
        rewrite (chains_onto_exact input); [|intros q; rewrite <- Hp; apply Ha].
        split; intros Hn Hx; apply Hn; eapply chained_perm; [|exact Hx|by symmetry|exact Hx]; done. }
      destruct (find _ (in_proposals input)) as [p|]; cbn [rbind]; split; try done.
      * intros (_ & _ & _ & Hm). destruct d as [en ex]. cbn in Hm. destruct en as [e'|]; [|done]. destruct Hm as (w' & [= <-] & Hb & Hn).
        exfalso. rewrite Eb in Hb. injection Hb as ->. by apply Hch in Hn.
      * intros [= <-]. cbn. split_and!; [by eexists|done|done|]. exists w. split_and!; [done..|]. by apply Hch.
      * intros (_ & _ & He & Hm). destruct d as [en ex]. cbn in He, Hm. destruct en as [e'|]; [|done].
        destruct Hm as (w' & [= <-] & Hb & _). rewrite Eb in Hb. injection Hb as ->. by rewrite He.
    + split; [done|]. intros (_ & _ & _ & Hm). destruct (enacted d); [|done]. by destruct Hm as (w' & [= <-] & Hb & _); rewrite Eb in Hb.
  - split; [done|]. intros (_ & _ & _ & Hm). destruct (enacted d); [by destruct Hm as (? & ? & _)|done].
Qed.

(** C12. A ratification decided.  The decision exists exactly when the stake is known, everything the votes
    accept is a change of the parameters and at most one of them continues the enacted line, well
    formed and with no accepted change on top of it; it then enacts that one, and what expires is what
    is past its life.  The order of the proposals plays no part, and what is enacted changes the memory
    limits and the minimum pool cost only. *)
Theorem decision_exact input epoch d :
  (decide_ratification input epoch = Ok d <-> Decides input epoch (in_proposals input) d) /\
  (decide_ratification input epoch = Ok d -> forall e, enacted d = Some e ->
    limits_only (in_current_pparams input) (enacted_pparams e) /\
    exists p, p ∈ in_proposals input /\ action_id p = enacted_id e /\ accepts input epoch p = true /\ previous p = superseded_root e /\
      continues (in_current_prev_pparam_action input) (superseded_root e)).
Proof.
  pose proof (decide_exact_sorted input epoch d) as Hd. pose proof (sort_by_perm by_action_id (in_proposals input)) as Hp. split.
  - rewrite Hd. split; apply decides_perm; [done|by symmetry].
  - intros Hok e He. apply Hd in Hok as (_ & _ & _ & Hm). rewrite He in Hm. destruct Hm as (w & Hw & Hb & _).
    assert (w ∈ List.filter (candidate input (accepts input epoch)) (sort_by by_action_id (in_proposals input))) as Hin by (rewrite Hw; by left).
    apply filter_in in Hin as [Hin Hc]. rewrite Hp in Hin. unfold candidate, ratifies in Hc. apply andb_true_iff in Hc as [[_ Hacc]%andb_true_iff Hl%bool_decide_eq_true].
    apply enactment_exact in Hb as (prev & update & policy & Hact & Hid & Hroot & Hlim). split; [done|]. exists w.
    unfold previous in *. rewrite Hact in *. rewrite Hroot. by split_and!.
Qed.

(** * Votes that come late *)

Section Late.
Context (f : GovActionState -> GovActionState)
  (Hid : forall p, action_id (f p) = action_id p) (Hact : forall p, action (f p) = action p)
  (Hdep : forall p, gs_deposit (f p) = gs_deposit p) (Haddr : forall p, gs_return_addr (f p) = gs_return_addr p).

Lemma close_over_late l : forall fuel s, close_over fuel (map f l) s = close_over fuel l s.
Proof.
  induction fuel as [|fuel IH]; intros s; [done|]. cbn [close_over].
  assert (fold_left close_step (map f l) (s, false) = fold_left close_step l (s, false)) as ->.
  { clear IH. generalize (s, false). induction l as [|p l IHl]; intros acc; [done|]. cbn [map fold_left].
    assert (close_step acc (f p) = close_step acc p) as -> by (unfold close_step, parent_in; by rewrite Hid, Hact).
    apply IHl. }
  destruct (fold_left close_step l (s, false)) as [s' []]; [apply IH|done].
Qed.

Lemma close_over_descendants_late l s : close_over_descendants (map f l) s = close_over_descendants l s.
Proof. unfold close_over_descendants. by rewrite length_map, close_over_late. Qed.

Lemma filter_late (g : GovActionState -> bool) l : (forall p, g (f p) = g p) -> List.filter g (map f l) = map f (List.filter g l).
Proof. intros Hg. induction l as [|p l IH]; [done|]. cbn. rewrite Hg, IH. by destruct (g p). Qed.

Lemma ids_late l : map action_id (map f l) = map action_id l.
Proof. rewrite map_map. by apply map_ext. Qed.

Lemma why_late d l id : why_removed d (map f l) id = why_removed d l id.
Proof.
  unfold why_removed, pruned_by. rewrite !close_over_descendants_late. destruct (enacted d) as [e|]; [|done].
  rewrite (filter_late (is_sibling e _)) by (intros p; unfold is_sibling; by rewrite Hid, Hact). by rewrite ids_late, close_over_descendants_late.
Qed.

Lemma sort_late l : sort_by by_action_id (map f l) = map f (sort_by by_action_id l).
Proof.
  induction l as [|p l IH]; [done|].
  change (sort_by by_action_id (map f (p :: l))) with (insert_sorted_by by_action_id (f p) (sort_by by_action_id (map f l))). rewrite IH.
  change (sort_by by_action_id (p :: l)) with (insert_sorted_by by_action_id p (sort_by by_action_id l)).
  generalize (sort_by by_action_id l) as s. induction s as [|q s IHs]; [done|]. cbn [map insert_sorted_by].
  assert (by_action_id (f p) (f q) = by_action_id p q) as -> by (unfold by_action_id; by rewrite !Hid).
  destruct (by_action_id p q); [done|done|]. cbn [map]. by rewrite IHs.
Qed.

Lemma remove_late reg why l : remove_proposals reg why (map f l) = remove_proposals reg why l.
Proof.
  induction l as [|p l IH]; [done|]. cbn. rewrite Hid, IH. destruct (why (action_id p)); [|done].
  unfold route_deposit. by rewrite Hid, Hdep, Haddr.
Qed.

Lemma remove_why_ext reg why why' l : (forall id, why id = why' id) -> remove_proposals reg why l = remove_proposals reg why' l.
Proof. intros Hw. induction l as [|p l IH]; [done|]. cbn. by rewrite Hw, IH. Qed.

Definition late_plan (plan : ConwayGovernanceEpochPlan) : ConwayGovernanceEpochPlan :=
  mk_ConwayGovernanceEpochPlan (map f (plan_proposals plan)) (removals plan) (deposit_returns plan) (plan_pparams plan)
    (plan_prev_pparam_action plan).
Definition map_ok {A B E} (g : A -> B) (r : result A E) : result B E := match r with Ok a => Ok (g a) | Err e => Err e end.

Lemma apply_late reg d l : apply_decision reg d (map f l) = map_ok late_plan (apply_decision reg d l).
Proof.
  rewrite !apply_decision_shape.
  assert (missing d (map f l) = missing d l) as ->.
  { unfold missing. induction (decided_ids d) as [|i ids IH]; [done|]. cbn.
    assert (existsb (fun p => same_id (action_id p) i) (map f l) = existsb (fun p => same_id (action_id p) i) l) as ->;
      [|by destruct (negb _)].
    clear IH. induction l as [|p l IH]; [done|]. cbn. by rewrite Hid, IH. }
  destruct (missing d l); [done|]. rewrite sort_late, remove_late, (remove_why_ext _ _ _ _ (why_late d l)).
  destruct (remove_proposals _ _ _) as [[[rs ds] ids]|]; [|done]. cbn [rbind map_ok]. f_equal. unfold late_plan. cbn. f_equal.
  apply filter_late. intros p. by rewrite Hid.
Qed.
End Late.

(** What came after the freeze.  The record decides: whatever happens to the votes, the lives and the
    other fields of the proposals between the freeze and the boundary, [late], the same proposals are
    removed for the same reasons, the same deposits are returned, the same parameters enacted; the
    proposals that stay keep what came late. *)
Theorem late_votes_do_not_count (late : GovActionState -> GovActionState) record new_epoch l reg :
  (forall p, action_id (late p) = action_id p /\ action (late p) = action p /\ gs_deposit (late p) = gs_deposit p /\
    gs_return_addr (late p) = gs_return_addr p) ->
  apply_ratification_record record new_epoch (map late l) reg =
  map_ok (late_plan late) (apply_ratification_record record new_epoch l reg) /\
  (forall plan, apply_ratification_record record new_epoch l reg = Ok plan -> new_epoch = frozen_at record + 1 /\
    exists d, outcome record = Decided d).
Proof.
  intros Hl. unfold apply_ratification_record. destruct (bool_decide_reflect (checked_add (frozen_at record) 1 = Some new_epoch)) as [Hc|]; [|done].
  apply checked_add_some in Hc as [-> _]. cbn [negb]. destruct (outcome record) as [d|r]; [|done]. split; [|intros; split; [done|by exists d]].
  apply apply_late; intros p; apply (Hl p).
Qed.
