(* ===== verification/EpochBoundary.v ===== *)
(** The epoch boundary: [apply_epoch_boundary_with_registrations] of [ade_ledger/src/rules.rs], with
    the snapshots of [epoch.rs], the mark of [epoch_accumulator.rs] and the base stake of the UTxO.

    The order is the code's: the frozen ratification is applied to the governance state, the rewards of
    the epoch are computed from the go snapshot and credited, the mark is built from the balances after
    that, retiring pools are reaped and refunded, proposals' deposits are returned, the pots move, and
    the ratification of the new epoch is frozen.  A product or a sum of fixed width wraps; the numbers
    the code only prints are left out. *)

From S2P Require Import Prelude Rational Envelope EraSchedule Leader BTree LedgerValue ConwayCert Utxo LedgerMaps.
From S2P Require Import Delegation Governance ConwayRules TxValidity Ratification.

(** * Snapshots ([epoch.rs]) *)

Record SnapshotState : Type := mk_SnapshotState { mark : StakeSnapshot; set_snapshot : StakeSnapshot; go : StakeSnapshot }.

Inductive EpochStakeSnapshots : Type := Snapshots_Authoritative (s : SnapshotState) | Snapshots_ReducedUnavailable.
Definition snapshots_authoritative (s : EpochStakeSnapshots) : option SnapshotState :=
  match s with Snapshots_Authoritative s => Some s | Snapshots_ReducedUnavailable => None end.

Definition rotate_snapshots (current : SnapshotState) (new_mark : StakeSnapshot) : SnapshotState :=
  mk_SnapshotState new_mark (mark current) (set_snapshot current).

Definition total_active_stake (s : StakeSnapshot) : Z :=
  fold_left saturating_add (map (fun e => snd (snd e)) (stake_delegations s)) 0.

(** The stake of one owner, where it is delegated to this pool. *)
Definition owner_stake (s : StakeSnapshot) (id : PoolId) (owner : Hash28) : option Coin :=
  match bt_get (stake_delegations s) (KeyHash owner) with
  | Some (delegated_to, coin) => if bool_decide (delegated_to = id) then Some coin else None
  | None => None
  end.
Definition self_delegated_owner_stake (s : StakeSnapshot) (id : PoolId) (owners : list Hash28) : Z :=
  fold_left saturating_add (omap (owner_stake s id) (elements (set_of owners))) 0.

(** * The state ([state.rs]) *)

Record EpochState : Type := mk_EpochState {
  es_epoch : Z;
  es_slot : Z;
  snapshots : EpochStakeSnapshots;
  reserves : Coin;
  treasury : Coin;
  block_production : BTreeMap PoolId Z;
  epoch_fees : Coin;
  donation_pot : Coin;
}.

Inductive GovStateProjection : Type := Gov_Authoritative (g : option GovState) | Gov_ReducedUnavailable.

(** The fields of the ledger state that [TxValidity] leaves open. *)
Record EpochFields : Type := mk_EpochFields {
  epoch_state : EpochState;
  era : CardanoEra;
  max_lovelace_supply : Z;
  gov_state : GovStateProjection;
}.
Definition Ledger : Type := LedgerState EpochFields.

Definition require_cert (p : CertStateProjection) (boundary_point : Z) : result CertState GovernanceTerminal :=
  ok_or (as_authoritative p) (FullBoundaryStateRequired boundary_point).
Definition require_gov (p : GovStateProjection) (boundary_point : Z) : result (option GovState) GovernanceTerminal :=
  match p with Gov_Authoritative g => Ok g | Gov_ReducedUnavailable => Err (FullBoundaryStateRequired boundary_point) end.
Definition is_conway (e : CardanoEra) : bool := match e with Conway => true | _ => false end.

(** * The mark ([epoch_accumulator.rs]) *)

Record BoundaryBaseStake : Type := mk_BoundaryBaseStake {
  boundary_point : Z;
  canonical_credential_stake : BTreeMap StakeCredential Coin;
}.

Definition mark_step (base rewards : BTreeMap StakeCredential Coin)
    (acc : BTreeMap StakeCredential (PoolId * Coin) * BTreeMap PoolId Coin) (e : StakeCredential * PoolId) :
    BTreeMap StakeCredential (PoolId * Coin) * BTreeMap PoolId Coin :=
  let '(cred, pool) := e in
  let stake := saturating_add (coin_at base cred) (coin_at rewards cred) in
  if stake =? 0 then acc else (bt_insert (fst acc) cred (pool, stake), credit (snd acc) pool stake).

Definition frozen_params (delegations : BTreeMap StakeCredential PoolId) (e : PoolId * PoolParams) : option (PoolId * SnapshotPoolParams) :=
  let '(pool_id, params) := e in
  match reward_account_credential (pool_reward_account params) with
  | Some reward_account =>
      let owners := set_of (List.filter (fun owner => bool_decide (bt_get delegations (KeyHash owner) = Some pool_id)) (owners params)) in
      Some (pool_id, mk_SnapshotPoolParams (pledge params) (pool_cost params) (pool_margin params) reward_account owners)
  | None => None
  end.
Definition snapshot_pool_params (pools : BTreeMap PoolId PoolParams) (delegations : BTreeMap StakeCredential PoolId) :
    BTreeMap PoolId SnapshotPoolParams := map_of (omap (frozen_params delegations) pools).

(** [delegation] has the balances after the rewards are paid. *)
Definition build_boundary_mark_snapshot (base : BoundaryBaseStake) (delegation : DelegationState)
    (pools : BTreeMap PoolId PoolParams) : StakeSnapshot :=
  let '(ds, ps) := fold_left (mark_step (canonical_credential_stake base) (rewards delegation)) (delegations delegation) ([], []) in
  mk_StakeSnapshot ds ps (snapshot_pool_params pools (delegations delegation)).

(** The mark of the eras before Conway, from the rewards alone. *)
Definition legacy_mark (delegation : DelegationState) (pools : BTreeMap PoolId PoolParams) : StakeSnapshot :=
  mk_StakeSnapshot
    (map_of (map (fun e => (fst e, (snd e, coin_at (rewards delegation) (fst e)))) (delegations delegation)))
    (fold_left or_zero (map snd (delegations delegation)) [])
    (snapshot_pool_params pools (delegations delegation)).

(** * Rewards *)

(** [r.floor().max(0) as u64] *)
Definition floor_u64 (r : Rational) : Z := as_u64 (Z.max (floor r) 0).

(** The monetary expansion's share of the blocks that were due. *)
Definition boundary_eta (d : Rational) (total_blocks_produced active_slots_per_epoch : Z) : Rational :=
  let d_threshold := rational_or (rational_new 4 5) rational_one in
  if mul_i128 (numerator d_threshold) (denominator d) <=? mul_i128 (numerator d) (denominator d_threshold) then rational_one else
  let one_minus_d := rational_or (rational_sub rational_one d) rational_one in
  let expected_rat := rational_or (rational_mul one_minus_d (from_integer active_slots_per_epoch)) rational_one in
  let expected_blocks := as_u64 (Z.max (floor expected_rat) 1) in
  if expected_blocks <=? total_blocks_produced then rational_one else
  if 0 <? expected_blocks then rational_or (rational_new total_blocks_produced expected_blocks) rational_one else rational_one.

Definition boundary_delta_r1 (reserves : Coin) (rho eta : Rational) : Z :=
  from_option floor_u64 0 (r ← rational_mul (from_integer reserves) rho; rational_mul r eta).
Definition boundary_treasury_delta (total_reward : Coin) (tau : Rational) : Z :=
  from_option floor_u64 0 (rational_mul (from_integer total_reward) tau).

(** What one boundary's reward calculation reads. *)
Record RewardEnv : Type := mk_RewardEnv {
  re_params : ProtocolParameters;
  re_go : StakeSnapshot;
  re_blocks : BTreeMap PoolId Z;
  pool_reward_pot : Z;
  re_total_stake : Z;
  re_active_stake : Z;
  re_total_blocks : Z;
  is_cred_registered : StakeCredential -> bool;
  re_point : Z;
}.

Record RewardState : Type := mk_RewardState {
  reward_deltas : BTreeMap StakeCredential Coin;
  total_pool_rewards : Z;
  total_member_rewards : Z;
  rewarded_pool_count : Z;
}.

Definition capped (a cap : Rational) : Rational :=
  if mul_i128 (numerator cap) (denominator a) <? mul_i128 (numerator a) (denominator cap) then cap else a.

(** [u128] arithmetic: the path no rational of the code leads to. *)
Definition fallback_max_pool (env : RewardEnv) (pool_stake : Coin) : Z :=
  as_u64 (as_u128 (pool_reward_pot env * pool_stake / re_total_stake env * 10) / 13).

Definition pool_bracket (z sigma_prime s_prime a0 : Rational) : option Rational :=
  let factor4 := d ← rational_sub z sigma_prime; rational_div d z in
  let factor3 := f4 ← factor4; sf4 ← rational_mul s_prime f4; n ← rational_sub sigma_prime sf4; rational_div n z in
  let pledge_bonus := f3 ← factor3; r ← rational_mul s_prime a0; rational_mul r f3 in
  pb ← pledge_bonus; rational_add sigma_prime pb.

Definition max_pool_reward (env : RewardEnv) (pledge pool_stake : Coin) : Z :=
  let a0 := pool_influence (re_params env) in
  let z := rational_or (rational_new 1 (n_opt (re_params env))) rational_zero in
  let sigma := rational_or (rational_new pool_stake (re_total_stake env)) rational_zero in
  let sigma_prime := capped sigma z in
  let s := rational_or (rational_new pledge (re_total_stake env)) rational_zero in
  let s_prime := capped s z in
  let one_plus_a0 := rational_or (rational_add rational_one a0) rational_one in
  match pool_bracket z sigma_prime s_prime a0 with
  | Some br =>
      from_option floor_u64 (fallback_max_pool env pool_stake)
        (r ← rational_mul (from_integer (pool_reward_pot env)) br; rational_div r one_plus_a0)
  | None => fallback_max_pool env pool_stake
  end.

Definition pool_performance (env : RewardEnv) (blocks_produced pool_stake : Z) : Rational :=
  if (0 <? re_total_blocks env) && (0 <? pool_stake)
  then rational_or (rational_new (mul_i128 blocks_produced (re_active_stake env)) (mul_i128 (re_total_blocks env) pool_stake)) rational_one
  else rational_one.

Definition pool_reward (max_pool : Z) (performance : Rational) : Z :=
  from_option floor_u64 max_pool (rational_mul (from_integer max_pool) performance).

(** Not the owners, whose stake is in the leader's share; before Mary, not the reward account. *)
Definition is_owner (env : RewardEnv) (params : SnapshotPoolParams) (cred : StakeCredential) : bool :=
  if 4 <=? protocol_major (re_params env)
  then match cred with KeyHash h => set_contains (self_delegated_owners params) h | ScriptHash _ => false end
  else same_credential (sp_reward_account params) cred.

Definition member_reward (member_factor : Rational) (stake pool_stake : Coin) : Z :=
  let share := rational_or (rational_new stake pool_stake) rational_zero in
  from_option floor_u64 0 (rational_mul member_factor share).

(** [if !pv_prefilter || registered] *)
Definition may_be_paid (env : RewardEnv) (cred : StakeCredential) : bool :=
  negb ((protocol_major (re_params env) <=? 6) && negb (is_cred_registered env cred)).

Definition member_step (env : RewardEnv) (params : SnapshotPoolParams) (member_factor : Rational) (pool_stake : Coin)
    (acc : BTreeMap StakeCredential Coin * Z) (e : StakeCredential * Coin) : BTreeMap StakeCredential Coin * Z :=
  let '(cred, stake) := e in
  if is_owner env params cred then acc else
  if stake =? 0 then acc else
  if negb (may_be_paid env cred) then acc else
  let r := member_reward member_factor stake pool_stake in
  if 0 <? r then (credit (fst acc) cred r, as_u64 (snd acc + r)) else acc.

Definition leader_reward (env : RewardEnv) (params : SnapshotPoolParams) (f_minus_c own pool_stake : Z) (margin one_minus_m : Rational) : Z :=
  let owner_stake :=
    if 4 <=? protocol_major (re_params env) then own
    else from_option (fun e => snd e) 0 (bt_get (stake_delegations (re_go env)) (sp_reward_account params)) in
  let op_share := rational_or (rational_new owner_stake pool_stake) rational_zero in
  let leader_term := rational_or (rational_add margin (rational_or (rational_mul one_minus_m op_share) rational_zero)) margin in
  as_u64 (sp_cost params + from_option floor_u64 0 (rational_mul (from_integer f_minus_c) leader_term)).

(** The credentials of the go snapshot that are delegated to the pool. *)
Definition delegator_stakes (s : StakeSnapshot) (id : PoolId) : BTreeMap StakeCredential Coin :=
  map_of (map (fun e => (fst e, snd (snd e))) (List.filter (fun e => bool_decide (fst (snd e) = id)) (stake_delegations s))).

(** A pool's reward [pool_max] shared out. *)
Definition distribute (env : RewardEnv) (acc : RewardState) (id : PoolId) (params : SnapshotPoolParams) (pool_stake pool_max own : Z) : RewardState :=
  let 'mk_RewardState deltas pool_total member_total count := acc in
  let op := sp_reward_account params in
  if pool_max <=? sp_cost params then
    if may_be_paid env op
    then mk_RewardState (credit deltas op pool_max) (saturating_add pool_total pool_max) member_total (count + 1)
    else mk_RewardState deltas pool_total member_total (count + 1)
  else
    let margin := rational_or (rational_new (fst (sp_margin params)) (snd (sp_margin params))) rational_zero in
    let f_minus_c := pool_max - sp_cost params in
    let one_minus_m := rational_or (rational_sub rational_one margin) rational_one in
    let leader := leader_reward env params f_minus_c own pool_stake margin one_minus_m in
    let '(deltas, pool_total) :=
      if may_be_paid env op then (credit deltas op leader, saturating_add pool_total leader) else (deltas, pool_total) in
    let member_factor := rational_or (rational_mul (from_integer f_minus_c) one_minus_m) rational_zero in
    let '(deltas, member_distributed) :=
      if 0 <? pool_stake
      then fold_left (member_step env params member_factor pool_stake) (delegator_stakes (re_go env) id) (deltas, 0)
      else (deltas, 0) in
    mk_RewardState deltas pool_total (saturating_add member_total member_distributed) (count + 1).

Definition reward_step (env : RewardEnv) (acc : result RewardState GovernanceTerminal) (e : PoolId * Coin) : result RewardState GovernanceTerminal :=
  let? acc := acc in
  let '(id, pool_stake) := e in
  let blocks_produced := from_option (fun b => b) 0 (bt_get (re_blocks env) id) in
  if blocks_produced =? 0 then Ok acc else
  let? params := ok_or (bt_get (pool_params (re_go env)) id) (RewardPoolParamsMissing id (re_point env)) in
  let max_pool := max_pool_reward env (sp_pledge params) pool_stake in
  if max_pool =? 0 then Ok acc else
  let own := self_delegated_owner_stake (re_go env) id (elements (self_delegated_owners params)) in
  if (4 <=? protocol_major (re_params env)) && (0 <? sp_pledge params) && (own <? sp_pledge params) then Ok acc else
  let pool_max := pool_reward max_pool (pool_performance env blocks_produced pool_stake) in
  if pool_max =? 0 then Ok acc else
  Ok (distribute env acc id params pool_stake pool_max own).

Definition compute_rewards (env : RewardEnv) : result RewardState GovernanceTerminal :=
  let start := Ok (mk_RewardState [] 0 0 0) in
  if (0 <? re_total_stake env) && (0 <? re_active_stake env) && (0 <? pool_reward_pot env)
  then fold_left (reward_step env) (pool_stakes (re_go env)) start else start.

(** Every reward goes to its own credential, or to the treasury when that is not registered. *)
Definition pay_step (registered : StakeCredential -> bool) (acc : BTreeMap StakeCredential Coin * Z) (e : StakeCredential * Coin) :
    BTreeMap StakeCredential Coin * Z :=
  let '(balances, delta_t2) := acc in
  if registered (fst e) then (credit balances (fst e) (snd e), delta_t2) else (balances, saturating_add delta_t2 (snd e)).

(** * Retiring pools *)

Definition retired_pools (p : PoolState) (new_epoch : Z) : BTreeSet PoolId :=
  set_of (map fst (List.filter (fun e => snd e =? new_epoch) (retiring p))).

(** The deposit of one reaped pool, to its reward account or to the treasury. *)
Definition refund_step (d : DelegationState) (active : BTreeMap PoolId PoolParams) (pool_deposit : Coin)
    (acc : BTreeMap StakeCredential Coin * Z) (id : PoolId) : BTreeMap StakeCredential Coin * Z :=
  let '(balances, to_treasury) := acc in
  match bt_get active id with
  | Some params =>
      match reward_account_credential (pool_reward_account params) with
      | Some cred =>
          if bt_contains (registrations d) cred then (credit balances cred pool_deposit, to_treasury)
          else (balances, saturating_add to_treasury pool_deposit)
      | None => acc
      end
  | None => acc
  end.

(** The state of the pools, the delegations and the balances after, and what went to the treasury. *)
Definition boundary_pool_reap (d : DelegationState) (p : PoolState) (new_epoch : Z) (pool_deposit : Coin) : DelegationState * PoolState * Z :=
  let active := fold_left adopt_pool (future_pools p) (pools p) in
  let retired := retired_pools p new_epoch in
  let '(balances, to_treasury) := fold_left (refund_step d active pool_deposit) (elements retired) (rewards d, 0) in
  let kept := if set_is_empty retired then delegations d
              else List.filter (fun e => negb (set_contains retired (snd e))) (delegations d) in
  (mk_DelegationState (registrations d) kept balances,
   mk_PoolState (remove_all active (elements retired)) [] (remove_all (retiring p) (elements retired)), to_treasury).

(** * Returned deposits *)

Definition return_step (acc : BTreeMap StakeCredential Coin * Z) (ret : DepositReturn) : BTreeMap StakeCredential Coin * Z :=
  let '(balances, to_treasury) := acc in
  match ret with
  | ToRewardAccount _ cred amount => (credit balances cred amount, to_treasury)
  | ToTreasury _ amount => (balances, saturating_add to_treasury amount)
  | NoDeposit _ => acc
  end.

Definition governance_after (g : GovState) (plan : ConwayGovernanceEpochPlan) : GovState :=
  mk_GovState (plan_proposals plan) (committee g) (committee_quorum g) (gov_action_lifetime g) (cert_maps g)
    (pool_voting_thresholds g) (drep_voting_thresholds g) (num_dormant g)
    (match plan_prev_pparam_action plan with Prev_Set id => Prev_Enacted id | Prev_Unchanged => prev_pparam_action g end)
    (ratification g).

(** The governance state, the balances and what went to the treasury. *)
Definition apply_governance_plan (gov : option GovState) (plan : option ConwayGovernanceEpochPlan) (balances : BTreeMap StakeCredential Coin) :
    option GovState * BTreeMap StakeCredential Coin * Z :=
  match gov, plan with
  | Some g, Some plan =>
      let '(balances, to_treasury) := fold_left return_step (deposit_returns plan) (balances, 0) in
      (Some (governance_after g plan), balances, to_treasury)
  | _, _ => (gov, balances, 0)
  end.

(** * The boundary *)

Record EpochBoundaryAccounting : Type := mk_EpochBoundaryAccounting {
  delta_r1 : Z; delta_r2 : Z; delta_t1 : Z; delta_t2 : Z;
  ac_total_reward : Z; ac_pool_reward_pot : Z; sum_rewards : Z; ac_rewarded_pool_count : Z;
  eta_numerator : Z; eta_denominator : Z; ac_epoch_fees : Z;
  mir_reserves_to_treasury : Z; mir_reserves_to_accounts : Z; mir_treasury_to_accounts : Z;
}.

(** The ratification decided at the start of the epoch, applied to the proposals and registrations of now. *)
Definition consume_ratification (state : Ledger) (cert : CertState) (gov : option GovState) (new_epoch : Z) :
    result (option ConwayGovernanceEpochPlan) GovernanceTerminal :=
  if is_conway (era (rest state)) then
    match gov with
    | Some g =>
        let? record := match ratification g with
                       | Recorded r => Ok r
                       | Ratification_Unversioned => Err (RatificationRecordAbsent new_epoch)
                       end in
        let? plan := apply_ratification_record record new_epoch (proposals g) (bt_contains (registrations (delegation cert))) in
        Ok (Some plan)
    | None => Ok None
    end
  else Ok None.

Definition is_registered_at (registration_override : option (BTreeSet StakeCredential)) (cert : CertState) (cred : StakeCredential) : bool :=
  match registration_override with
  | Some regs => bt_contains regs cred
  | None => bt_contains (registrations (delegation cert)) cred
  end.

Definition boundary_reward_env (state : Ledger) (snaps : SnapshotState) (registered : StakeCredential -> bool) (pot : Z) : RewardEnv :=
  let es := epoch_state (rest state) in
  let total_active := fold_left saturating_add (map snd (pool_stakes (go snaps))) 0 in
  let total_stake := if protocol_major (protocol_params state) <? 4 then total_active
                     else saturating_sub (max_lovelace_supply (rest state)) (reserves es) in
  mk_RewardEnv (protocol_params state) (go snaps) (block_production es) pot total_stake total_active
    (sum_u64 (map snd (block_production es))) registered (es_slot es).

Definition boundary_mark (state : Ledger) (base : option BoundaryBaseStake) (delegation : DelegationState) (pools : BTreeMap PoolId PoolParams) :
    result StakeSnapshot GovernanceTerminal :=
  match base with
  | Some base => Ok (build_boundary_mark_snapshot base delegation pools)
  | None =>
      if is_conway (era (rest state)) then Err (BoundaryBaseStakeRequired (es_slot (epoch_state (rest state))))
      else Ok (legacy_mark delegation pools)
  end.

(** The ratification of the epoch just entered, over the state just built. *)
Definition frozen_input (next : Ledger) (base : BoundaryBaseStake) (delegated : BTreeSet PoolId) :
    result (option FrozenRatificationInput) GovernanceTerminal :=
  let point := es_slot (epoch_state (rest next)) in
  let? snaps := ok_or (snapshots_authoritative (snapshots (epoch_state (rest next)))) (FullBoundaryStateRequired point) in
  let? cert := require_cert (cert_state next) point in
  let? gov := require_gov (gov_state (rest next)) point in
  match gov with
  | None => Ok None
  | Some g =>
      Ok (Some (mk_FrozenRatificationInput (mk_FrozenPoolStake (mark snaps) delegated)
                  (mk_PostBoundaryAccounts (canonical_credential_stake base) (delegation cert))
                  (mk_FrozenGovernanceView g (protocol_params next) (es_epoch (epoch_state (rest next))))))
  end.

Definition with_gov (s : Ledger) (g : GovStateProjection) : Ledger :=
  mk_LedgerState (utxo_state s) (protocol_params s) (track_utxo_flag s) (cert_state s) (conway_deposit_params s)
    (mk_EpochFields (epoch_state (rest s)) (era (rest s)) (max_lovelace_supply (rest s)) g).
Definition with_record (g : GovState) (r : RatificationRecord) : GovState :=
  mk_GovState (proposals g) (committee g) (committee_quorum g) (gov_action_lifetime g) (cert_maps g) (pool_voting_thresholds g)
    (drep_voting_thresholds g) (num_dormant g) (prev_pparam_action g) (Recorded r).

Definition freeze_ratification (next : Ledger) (base : option BoundaryBaseStake) (delegated : BTreeSet PoolId) : result Ledger GovernanceTerminal :=
  if is_conway (era (rest next)) then
    let? base := ok_or base (BoundaryBaseStakeRequired (es_slot (epoch_state (rest next)))) in
    let? input := frozen_input next base delegated in
    match input with
    | Some input =>
        let? record := ratify_frozen input in
        match gov_state (rest next) with
        | Gov_Authoritative (Some g) => Ok (with_gov next (Gov_Authoritative (Some (with_record g record))))
        | _ => Ok next
        end
    | None => Ok next
    end
  else Ok next.

Definition apply_epoch_boundary_with_registrations (state : Ledger) (new_epoch : Z) (registration_override : option (BTreeSet StakeCredential))
    (boundary_base_stake : option BoundaryBaseStake) (active_slots_per_epoch : Z) :
    result (Ledger * EpochBoundaryAccounting) GovernanceTerminal :=
  let es := epoch_state (rest state) in
  let pp := protocol_params state in
  let? snaps := ok_or (snapshots_authoritative (snapshots es)) (FullBoundaryStateRequired (es_slot es)) in
  let? cert := require_cert (cert_state state) (es_slot es) in
  let? gov := require_gov (gov_state (rest state)) (es_slot es) in
  let? gov_plan := consume_ratification state cert gov new_epoch in
  let eta := boundary_eta (decentralization pp) (sum_u64 (map snd (block_production es))) active_slots_per_epoch in
  let delta_r1 := boundary_delta_r1 (reserves es) (monetary_expansion pp) eta in
  let total_reward := saturating_add delta_r1 (epoch_fees es) in
  let treasury_delta := boundary_treasury_delta total_reward (treasury_growth pp) in
  let pot := saturating_sub total_reward treasury_delta in
  let registered := is_registered_at registration_override cert in
  let? paid := compute_rewards (boundary_reward_env state snaps registered pot) in
  let '(balances, delta_t2) := fold_left (pay_step registered) (reward_deltas paid) (rewards (delegation cert), 0) in
  let d := mk_DelegationState (registrations (delegation cert)) (delegations (delegation cert)) balances in
  let? new_mark := boundary_mark state boundary_base_stake d (pools (pool cert)) in
  let delegated_at_snap := set_of (map snd (delegations d)) in
  let rotated := rotate_snapshots snaps new_mark in
  let '(d, pool_state, poolreap_to_treasury) := boundary_pool_reap d (pool cert) new_epoch (pool_deposit pp) in
  let '(new_gov, balances, gov_deposit_to_treasury) := apply_governance_plan gov gov_plan (rewards d) in
  let d := mk_DelegationState (registrations d) (delegations d) balances in
  let sum_rewards := saturating_add (total_pool_rewards paid) (total_member_rewards paid) in
  let delta_r2 := saturating_sub pot sum_rewards in
  let new_reserves := saturating_add (saturating_sub (reserves es) delta_r1) delta_r2 in
  let new_treasury := saturating_add (saturating_add (saturating_add (saturating_add (treasury es) treasury_delta) delta_t2)
                        poolreap_to_treasury) gov_deposit_to_treasury in
  let? new_treasury := ok_or (checked_add new_treasury (donation_pot es)) (TreasuryOverflow new_epoch) in
  let accounting := mk_EpochBoundaryAccounting delta_r1 delta_r2 treasury_delta delta_t2 total_reward pot sum_rewards
                      (rewarded_pool_count paid) (as_u64 (Z.abs (numerator eta))) (Z.max (as_u64 (Z.abs (denominator eta))) 1)
                      (epoch_fees es) 0 0 0 in
  let next := mk_LedgerState (utxo_state state)
                (match gov_plan with Some plan => match plan_pparams plan with PParams_Set new => new | PParams_Unchanged => pp end | None => pp end)
                (track_utxo_flag state) (Authoritative (mk_CertState d pool_state)) (conway_deposit_params state)
                (mk_EpochFields
                   (mk_EpochState new_epoch (es_slot es) (Snapshots_Authoritative rotated) new_reserves new_treasury [] 0 0)
                   (era (rest state)) (max_lovelace_supply (rest state)) (Gov_Authoritative new_gov)) in
  let? next := freeze_ratification next boundary_base_stake delegated_at_snap in
  Ok (next, accounting).

(** * The base stake of a full ledger ([address/mod.rs], [stake_ref.rs], [reduced_utxo.rs]) *)

(** [None] for no bytes, [Some None] for an unknown type. *)
Definition decode_address (data : list Z) : option (option Address) :=
  match data with
  | [] => None
  | header :: _ =>
      let addr_type := Z.shiftr header 4 in
      Some (if addr_type <=? 3 then Some (Address_Base data) else
            if (addr_type =? 4) || (addr_type =? 5) then Some (Address_Pointer data) else
            if (addr_type =? 6) || (addr_type =? 7) then Some (Address_Enterprise data) else
            if addr_type =? 8 then Some (Address_Byron data) else
            if (addr_type =? 14) || (addr_type =? 15) then Some (Address_Reward data) else None)
  end.

Record PointerRef : Type := mk_PointerRef { ptr_slot : Z; ptr_tx_index : Z; ptr_cert_index : Z }.
Inductive StakeRefReject : Type :=
| Reject_Empty | UnknownAddressType | MalformedBase | MalformedPointer | RewardAddressNotValidAsOutput.
Inductive StakeRefClass : Type :=
| Class_Base (cred : StakeCredential) | Class_Pointer (p : PointerRef) | Class_Null | Class_Reject (r : StakeRefReject).

(** The value and the bytes after it. *)
Fixpoint decode_varint (result : Z) (bytes : list Z) : option (Z * list Z) :=
  match bytes with
  | [] => None
  | byte :: bytes =>
      r ← checked_mul result 128; result ← checked_add r (Z.land byte 0x7f);
      if Z.land byte 0x80 =? 0 then Some (result, bytes) else decode_varint result bytes
  end.

Definition decode_pointer_coords (tail : list Z) : option PointerRef :=
  '(slot, tail) ← decode_varint 0 tail;
  '(tx_index, tail) ← decode_varint 0 tail;
  '(cert_index, tail) ← decode_varint 0 tail;
  match tail with [] => Some (mk_PointerRef slot tx_index cert_index) | _ => None end.

Definition classify_output_stake_ref (addr_bytes : list Z) (e : CardanoEra) : StakeRefClass :=
  match decode_address addr_bytes with
  | None => Class_Reject Reject_Empty
  | Some None => Class_Reject UnknownAddressType
  | Some (Some (Address_Base b)) =>
      if negb (blen b =? 57) then Class_Reject MalformedBase else
      let h := slice b 29 57 in
      Class_Base (if Z.land (Z.shiftr (from_option id 0 (byte_at b 0)) 5) 1 =? 1 then ScriptHash h else KeyHash h)
  | Some (Some (Address_Pointer b)) =>
      if as_u8_era Conway <=? as_u8_era e then Class_Null else
      if blen b <? 29 then Class_Reject MalformedPointer else
      match decode_pointer_coords (slice b 29 (blen b)) with Some p => Class_Pointer p | None => Class_Reject MalformedPointer end
  | Some (Some (Address_Enterprise _)) | Some (Some (Address_Byron _)) => Class_Null
  | Some (Some (Address_Reward _)) => Class_Reject RewardAddressNotValidAsOutput
  end.

Inductive ReducedStakeRef : Type := Ref_Base (cred : StakeCredential) | NonContributing.
Definition reduce_txout (out : TxOut) : Coin * ReducedStakeRef :=
  (out_coin out,
   match classify_output_stake_ref (address_bytes out) Conway with
   | Class_Base cred => Ref_Base cred
   | Class_Pointer _ | Class_Null | Class_Reject _ => NonContributing
   end).

Definition base_step (base : BTreeMap StakeCredential Coin) (out : TxOut) : BTreeMap StakeCredential Coin :=
  match reduce_txout out with
  | (coin, Ref_Base cred) => credit base cred coin
  | (_, NonContributing) => base
  end.

Definition derive_boundary_base_stake (state : Ledger) : option BoundaryBaseStake :=
  if negb (is_conway (era (rest state))) || negb (track_utxo_flag state) then None
  else Some (mk_BoundaryBaseStake (es_slot (epoch_state (rest state)))
               (fold_left base_step (map snd (overlay_iter (utxos (utxo_state state)))) [])).

Definition SHELLEY_EPOCH_LENGTH : Z := 432000.
Definition apply_epoch_boundary_full (state : Ledger) (new_epoch : Z) : result (Ledger * EpochBoundaryAccounting) GovernanceTerminal :=
  apply_epoch_boundary_with_registrations state new_epoch None (derive_boundary_base_stake state) (SHELLEY_EPOCH_LENGTH / 20).
