(* ===== verification/BoundaryFacts.v ===== *)
(** Theorems on [EpochBoundary] and [Ratification].

    The boundary creates and destroys no ADA: the rewards stay within the pot ([rewards_within_pot]:
    every share is a rational bound on what was due), what is paid, refunded and returned is in the
    accounts or the treasury, and freezing moves nothing.  Its mark is the stake of the moment, its
    reaping is [Delegation]'s, and the votes of a proposal are compared as exact ratios. *)

From Stdlib Require Import QArith Qround Lqa.
From S2P Require Import Prelude Rational Envelope EraSchedule Leader BTree LedgerValue ConwayCert Utxo LedgerMaps.
From S2P Require Import Delegation DelegationFacts Governance GovernanceFacts ConwayRules Candidates TxValidity Ratification EpochBoundary.
Open Scope Z_scope.

(** * Rationals within the machine's bounds *)

(** An integer as a rational number. *)
Local Notation "'qz'" := inject_Z (at level 0).

Lemma rational_or_new n d r : 0 < d -> exists q, rational_or (rational_new n d) r = q /\ rational_ok q /\ (frac q == (qz n) / (qz d))%Q /\
  Z.abs (num q) <= Z.abs n /\ den q <= d.
Proof. intros Hd. destruct (new_exact n d) as (q & -> & Hq & Hf & H1 & H2); [lia|]. exists q. by rewrite Z.abs_eq in H2 by lia. Qed.

Lemma frac_nonneg q : rational_ok q -> (0 <= frac q)%Q <-> 0 <= num q.
Proof. intros [Hd _]. unfold frac, Qle. cbn. lia. Qed.

(** [floor().max(0) as u64]: the largest integer below, where there is one. *)
Lemma floor_u64_bound q : rational_ok q -> (frac q <= qz u64_max)%Q ->
  0 <= floor_u64 q <= u64_max /\ ((0 <= frac q)%Q -> (qz (floor_u64 q) <= frac q)%Q) /\ ((frac q <= 0)%Q -> floor_u64 q = 0).
Proof.
  intros Hq Hu. pose proof (ok_positive _ Hq). unfold floor_u64. rewrite floor_exact by done.
  pose proof (Qfloor_le (frac q)) as Hle. set (z := Qfloor (frac q)) in *.
  assert (z <= u64_max) as Hz by (rewrite Zle_Qle; lra). assert ((0 <= frac q)%Q -> 0 <= z) as Hp.
  { intros Hx. subst z. change 0 with (Qfloor 0). by apply Qfloor_resp_le. }
  assert (as_u64 (Z.max (sat_i128 z) 0) = Z.max z 0) as ->.
  { unfold sat_i128, i128_min, i128_max, as_u64. width. rewrite Z.mod_small; lia. }
  split; [width; lia|]. split.
  - intros Hx. specialize (Hp Hx). by rewrite Z.max_l by lia.
  - intros Hx. assert (z <= 0); [|lia]. rewrite Zle_Qle. change (qz 0) with 0%Q. lra.
Qed.

Lemma Qle_div a b c : 0 < c -> (qz a <= b / qz c)%Q <-> (qz a * qz c <= b)%Q.
Proof.
  intros Hc. assert (0 < qz c)%Q by (change 0%Q with (qz 0); by rewrite <- Zlt_Qlt). split; intros H1.
  - apply (Qmult_le_compat_r _ _ (qz c)) in H1; [|lra]. assert (b / qz c * qz c == b)%Q by (field; lra). lra.
  - by apply Qle_shift_div_l.
Qed.

Lemma sat_i128_id v : - i128_max <= v <= i128_max -> sat_i128 v = v.
Proof. unfold sat_i128, i128_max, i128_min. lia. Qed.
Lemma mul_i128_id a b : - i128_max <= a * b <= i128_max -> mul_i128 a b = a * b.
Proof. unfold mul_i128, as_i128, i128_max, i128_min. intros H. rewrite Z.mod_small; lia. Qed.

(** The parts of a fraction are small enough to compare without overflow. *)
Definition small (q : Rational) (n d : Z) : Prop := rational_ok q /\ 0 <= num q <= n /\ den q <= d.

Lemma capped_min a cap n d n' d' : small a n d -> small cap n' d' -> n <= i128_max -> d <= i128_max -> n' <= i128_max -> d' <= i128_max ->
  n * d' <= i128_max -> n' * d <= i128_max ->
  rational_ok (capped a cap) /\ (0 <= frac (capped a cap))%Q /\ (frac (capped a cap) <= frac a)%Q /\ (frac (capped a cap) <= frac cap)%Q.
Proof.
  intros (Ha & Hna & Hda) (Hc & Hnc & Hdc) ? ? ? ? H1 H2. pose proof (ok_positive _ Ha). pose proof (ok_positive _ Hc).
  assert (Hlt : (mul_i128 (numerator cap) (denominator a) <? mul_i128 (numerator a) (denominator cap)) = (num cap * den a <? num a * den cap)).
  { unfold numerator, denominator, bigint_to_i128. rewrite !sat_i128_id, !mul_i128_id; [done|nia..|lia|lia|lia|lia]. }
  unfold capped. rewrite Hlt. destruct (Z.ltb_spec (num cap * den a) (num a * den cap)) as [Hx|Hx].
  - split; [done|]. split; [apply frac_nonneg; [done|lia]|]. split; [|apply Qle_refl]. unfold Qle, frac. cbn. rewrite !Z2Pos.id by done. lia.
  - split; [done|]. split; [apply frac_nonneg; [done|lia]|]. split; [apply Qle_refl|]. unfold Qle, frac. cbn. rewrite !Z2Pos.id by done. lia.
Qed.

Lemma new_small n d r : 0 < d -> 0 <= n -> exists q, rational_or (rational_new n d) r = q /\ small q n d /\ (frac q == (qz n) / (qz d))%Q.
Proof.
  intros Hd Hn. destruct (rational_or_new n d r Hd) as (q & E & Hq & Hf & Hn' & Hd'). exists q. split; [done|]. split; [|done].
  assert (0 <= num q) as Hp; [|unfold small; split; [exact Hq|]; lia]. apply frac_nonneg; [done|]. rewrite Hf. apply Qle_shift_div_l.
  - change 0%Q with (qz 0). by rewrite <- Zlt_Qlt.
  - rewrite Qmult_0_l. change 0%Q with (qz 0). by rewrite <- Zle_Qle.
Qed.

(** The bracket of the formula, as numbers: [z] the saturation, [s] the pledge, [p] the pool. *)
Lemma bracket_exact z p s a0 : rational_ok z -> rational_ok p -> rational_ok s -> rational_ok a0 -> num z <> 0 ->
  exists br, pool_bracket z p s a0 = Some br /\ rational_ok br /\
    (frac br == frac p + frac s * frac a0 * ((frac p - frac s * ((frac z - frac p) / frac z)) / frac z))%Q.
Proof.
  intros Hz Hp Hs Ha Hn. unfold pool_bracket.
  destruct (sub_exact z p Hz Hp) as (x1 & -> & O1 & F1). cbn [mbind option_bind].
  destruct (div_exact x1 z O1 Hz Hn) as (x2 & -> & O2 & F2). cbn [mbind option_bind].
  destruct (mul_exact s x2 Hs O2) as (x3 & -> & O3 & F3). cbn [mbind option_bind].
  destruct (sub_exact p x3 Hp O3) as (x4 & -> & O4 & F4). cbn [mbind option_bind].
  destruct (div_exact x4 z O4 Hz Hn) as (x5 & -> & O5 & F5). cbn [mbind option_bind].
  destruct (mul_exact s a0 Hs Ha) as (x6 & -> & O6 & F6). cbn [mbind option_bind].
  destruct (mul_exact x6 x5 O6 O5) as (x7 & -> & O7 & F7). cbn [mbind option_bind].
  destruct (add_exact p x7 Hp O7) as (x8 & -> & O8 & F8). exists x8. split; [done|]. split; [done|].
  rewrite F8, F7, F6, F5, F4, F3, F2, F1. reflexivity.
Qed.

(** It is at most the pool's share and the influence's share of it. *)
Lemma bracket_bound (z p s a0 : Q) : (0 < z -> 0 <= p -> p <= z -> 0 <= s -> s <= z -> 0 <= a0 ->
  p + s * a0 * ((p - s * ((z - p) / z)) / z) <= p * (1 + a0))%Q.
Proof.
  intros Hz Hp Hpz Hs Hsz Ha. set (u := (s / z)%Q).
  assert (0 <= u)%Q as Hu by (apply Qle_shift_div_l; [done|]; lra).
  assert (u <= 1)%Q as Hu1 by (apply Qle_shift_div_r; [done|]; lra).
  assert (p + s * a0 * ((p - s * ((z - p) / z)) / z) == p + (u * a0) * (p - u * (z - p)))%Q as -> by (subst u; field; lra).
  assert (0 <= u * a0)%Q as Hua by nra. assert (u * a0 <= a0)%Q as Hua1 by nra.
  assert (0 <= u * (z - p))%Q as Hv by nra.
  assert (0 <= (u * a0) * (u * (z - p)))%Q by (apply Qmult_le_0_compat; done).
  assert ((u * a0) * p <= a0 * p)%Q by (apply Qmult_le_compat_r; done). nra.
Qed.

Lemma Q_of_Z_le a b : a <= b -> (qz a <= qz b)%Q.
Proof. by rewrite <- Zle_Qle. Qed.
Lemma Q_of_Z_lt a b : a < b -> (qz a < qz b)%Q.
Proof. by rewrite <- Zlt_Qlt. Qed.

Lemma product_small a b : 0 <= a <= u64_max -> 0 <= b <= u32_max -> a * b <= i128_max.
Proof. unfold i128_max. width. intros Ha Hb. apply (Z.le_trans _ (18446744073709551615 * 4294967295)); [|lia]. apply Z.mul_le_mono_nonneg; lia. Qed.

Lemma frac_zero q : num q = 0 -> (frac q == 0)%Q.
Proof. intros E. unfold frac, Qeq. cbn. lia. Qed.

(** * What one pool can earn *)

(** The ranges of the reward calculation. *)
Record env_ok (env : RewardEnv) : Prop := mk_env_ok {
  eo_pot : 0 <= pool_reward_pot env <= u64_max;
  eo_stake : 0 < re_total_stake env <= u64_max;
  eo_active : 0 < re_active_stake env <= re_total_stake env;
  eo_blocks : 0 <= re_total_blocks env <= u32_max;
  eo_a0 : rational_ok (pool_influence (re_params env)) /\ 0 <= num (pool_influence (re_params env));
  eo_k : 0 <= n_opt (re_params env) <= u32_max;
}.

Lemma fallback_bound env stake : env_ok env -> 0 <= stake <= re_total_stake env ->
  0 <= fallback_max_pool env stake <= u64_max /\ fallback_max_pool env stake * re_total_stake env <= pool_reward_pot env * stake.
Proof.
  intros [Hpot Hts _ _ _ _] Hst. unfold fallback_max_pool. set (q := pool_reward_pot env * stake / re_total_stake env).
  assert (0 <= q) by (apply Z.div_pos; nia). assert (q * re_total_stake env <= pool_reward_pot env * stake) by (subst q; rewrite Z.mul_comm; apply Z.mul_div_le; lia).
  assert (q <= pool_reward_pot env) by (apply Z.div_le_upper_bound; nia).
  assert (as_u128 (q * 10) = q * 10) as -> by (unfold as_u128, two128; apply Z.mod_small; width; lia).
  pose proof (Z.mul_div_le (q * 10) 13 ltac:(lia)). assert (0 <= q * 10 / 13) by (apply Z.div_pos; lia).
  assert (as_u64 (q * 10 / 13) = q * 10 / 13) as -> by (unfold as_u64; apply Z.mod_small; width; lia).
  split; [width; lia|]. nia.
Qed.

Lemma max_pool_bound env pledge stake : env_ok env -> 0 <= pledge <= u64_max -> 0 <= stake <= re_total_stake env ->
  0 <= max_pool_reward env pledge stake <= u64_max /\
  max_pool_reward env pledge stake * re_total_stake env <= pool_reward_pot env * stake.
Proof.
  intros He Hpl Hst. pose proof (fallback_bound env stake He Hst) as Hfb. destruct He as [Hpot Hts Hact Hbl [Ha0 Ha0n] Hk].
  set (TS := re_total_stake env) in *. set (pot := pool_reward_pot env) in *. unfold max_pool_reward. fold TS. fold pot.
  destruct (new_small stake TS rational_zero ltac:(lia) ltac:(lia)) as (sigma & -> & Ssm & Sf).
  destruct (new_small pledge TS rational_zero ltac:(lia) ltac:(lia)) as (s & -> & Psm & _).
  destruct (Z.eqb_spec (n_opt (re_params env)) 0) as [Ek|Ek].
  { rewrite Ek. change (rational_or (rational_new 1 0) rational_zero) with rational_zero. unfold pool_bracket.
    destruct (rational_sub rational_zero _); cbn [mbind option_bind]; exact Hfb. }
  destruct (new_small 1 (n_opt (re_params env)) rational_zero ltac:(lia) ltac:(lia)) as (z & -> & Zsm & Zf).
  unfold u32_max in Hbl. width. pose proof Zsm as (Zok & Zn & Zd). pose proof (ok_positive _ Zok) as Zpos.
  destruct (capped_min sigma z stake TS 1 (n_opt (re_params env))) as (Cok & C0 & C1 & C2);
    [done|exact Zsm|unfold i128_max; width; lia..|apply product_small; width; lia|unfold i128_max; width; lia|].
  destruct (capped_min s z pledge TS 1 (n_opt (re_params env))) as (Dok & D0 & _ & D2);
    [done|exact Zsm|unfold i128_max; width; lia..|apply product_small; width; lia|unfold i128_max; width; lia|].
  assert (0 < frac z)%Q as Hz0.
  { rewrite Zf. apply Qlt_shift_div_l; [by apply (Q_of_Z_lt 0); lia|]. rewrite Qmult_0_l. by apply (Q_of_Z_lt 0). }
  assert (num z <> 0) as Hzn by (intros E; unfold frac, Qlt in Hz0; cbn in Hz0; lia).
  set (p := capped sigma z) in *. set (s' := capped s z) in *. set (a0 := pool_influence (re_params env)) in *.
  destruct (bracket_exact z p s' a0 Zok Cok Dok Ha0 Hzn) as (br & -> & Bok & Bf).
  pose proof (bracket_bound (frac z) (frac p) (frac s') (frac a0) Hz0 C0 C2 D0 D2 (proj2 (frac_nonneg _ Ha0) Ha0n)) as Hb. rewrite <- Bf in Hb.
  assert (0 <= frac a0)%Q as Ha0q by (by apply frac_nonneg).
  destruct (add_exact rational_one a0 ltac:(by split) Ha0) as (opa & -> & Ook & Of). cbn [rational_or].
  assert (frac rational_one == 1)%Q as E1 by done. rewrite E1 in Of.
  assert (num opa <> 0) as Hon by (intros E; pose proof (frac_zero _ E); lra).
  destruct (mul_exact (from_integer pot) br (proj1 (integer_exact pot)) Bok) as (m & -> & Mok & Mf). cbn [mbind option_bind].
  destruct (div_exact m opa Mok Ook Hon) as (f & -> & Fok & Ff). cbn [from_option].
  assert (frac f <= qz pot * (qz stake / qz TS))%Q as Hle.
  { rewrite Ff, Mf, Of, (proj2 (integer_exact pot)). apply Qle_shift_div_r; [lra|].
    assert (0 <= qz pot)%Q by (apply (Q_of_Z_le 0); lia). rewrite <- Sf.
    assert (frac br <= frac sigma * (1 + frac a0))%Q by (apply (Qle_trans _ _ _ Hb), Qmult_le_compat_r; lra).
    rewrite <- Qmult_assoc, (Qmult_comm (qz pot)), (Qmult_comm (qz pot)). by apply Qmult_le_compat_r. }
  assert (0 < qz TS)%Q as HTS by (apply (Q_of_Z_lt 0); lia).
  assert (qz stake / qz TS <= 1)%Q as Hs1 by (apply Qle_shift_div_r; [done|]; rewrite Qmult_1_l; apply Q_of_Z_le; lia).
  assert (0 <= qz stake / qz TS)%Q as Hs0 by (apply Qle_shift_div_l; [done|]; rewrite Qmult_0_l; apply (Q_of_Z_le 0); lia).
  destruct (floor_u64_bound f Fok) as (Hf1 & Hf2 & Hf3).
  { apply (Qle_trans _ _ _ Hle). apply (Qle_trans _ (qz pot * 1)); [|rewrite Qmult_1_r; apply Q_of_Z_le; width; lia].
    rewrite (Qmult_comm (qz pot)), (Qmult_comm (qz pot)). apply Qmult_le_compat_r; [done|]. apply (Q_of_Z_le 0); lia. }
  width. split; [exact Hf1|]. destruct (Qlt_le_dec (frac f) 0) as [Hneg|Hpos]; [rewrite Hf3 by lra; nia|].
  rewrite Zle_Qle, !inject_Z_mult. apply (Qle_trans _ ((qz pot * (qz stake / qz TS)) * qz TS)); [apply Qmult_le_compat_r; [lra|lra]|].
  assert (qz pot * (qz stake / qz TS) * qz TS == qz pot * qz stake)%Q as -> by (field; lra). apply Qle_refl.
Qed.

Lemma pool_reward_bound env max_pool blocks stake : env_ok env -> 0 < blocks <= re_total_blocks env -> 0 < stake <= re_total_stake env ->
  0 <= max_pool <= u64_max -> max_pool * re_total_stake env <= pool_reward_pot env * stake ->
  let f := pool_reward max_pool (pool_performance env blocks stake) in
  0 <= f <= u64_max /\ f * (re_total_stake env * re_total_blocks env) <= pool_reward_pot env * re_active_stake env * blocks.
Proof.
  intros [Hpot Hts Hact Hbl _ _] Hb Hst Hm Hmp. unfold pool_reward, pool_performance.
  set (TS := re_total_stake env) in *. set (TB := re_total_blocks env) in *. set (A := re_active_stake env) in *. set (P := pool_reward_pot env) in *.
  assert (0 < TB) as HTB by lia. rewrite (proj2 (Z.ltb_lt 0 TB)), (proj2 (Z.ltb_lt 0 stake)) by lia. cbn [andb].
  assert (blocks * A <= i128_max) by (rewrite Z.mul_comm; apply product_small; lia).
  assert (TB * stake <= i128_max) by (rewrite Z.mul_comm; apply product_small; lia).
  rewrite !mul_i128_id by (unfold i128_max in *; nia).
  destruct (new_small (blocks * A) (TB * stake) rational_one) as (perf & -> & (Pok & _ & _) & Pf); [nia..|].
  destruct (mul_exact (from_integer max_pool) perf (proj1 (integer_exact max_pool)) Pok) as (r & -> & Rok & Rf). cbn [from_option].
  rewrite (proj2 (integer_exact max_pool)), Pf in Rf.
  assert (frac r * qz (TB * stake) == qz (max_pool * (blocks * A)))%Q as Rz.
  { rewrite Rf, (inject_Z_mult max_pool). assert (0 < qz (TB * stake))%Q by (apply (Q_of_Z_lt 0); nia). field. lra. }
  assert (0 < qz (TB * stake))%Q as Hd by (apply (Q_of_Z_lt 0); nia).
  assert (0 <= frac r)%Q as R0 by (rewrite Rf; apply Qmult_le_0_compat; [apply (Q_of_Z_le 0); lia|]; apply Qle_shift_div_l; [done|]; rewrite Qmult_0_l; apply (Q_of_Z_le 0); nia).
  assert (max_pool * A <= P * stake) as HmA by nia.
  assert (frac r <= qz P)%Q as RP.
  { apply (Qmult_le_r _ _ (qz (TB * stake)) Hd). rewrite Rz, <- inject_Z_mult. apply Q_of_Z_le.
    transitivity (P * stake * blocks); nia. }
  destruct (floor_u64_bound r Rok) as (H1 & H2 & _); [apply (Qle_trans _ _ _ RP), Q_of_Z_le; lia|]. split; [exact H1|]. specialize (H2 R0).
  assert (floor_u64 r * (TB * stake) <= max_pool * (blocks * A)) as Hf.
  { rewrite Zle_Qle, <- Rz, inject_Z_mult. apply Qmult_le_compat_r; [done|]. lra. }
  apply (Z.mul_le_mono_pos_r _ _ stake); [lia|].
  transitivity (max_pool * TS * (blocks * A)); [nia|]. transitivity (P * stake * (blocks * A)); [|lia].
  apply Z.mul_le_mono_nonneg_r; nia.
Qed.

(** * What one pool pays *)


(** * Sums of coins *)

Definition sum_of {K} `{TotalOrder K} (m : BTreeMap K Coin) : Z := total (fun c : Coin => c) m.
(** In order, and nobody holds less than nothing. *)
Definition coins_ok {K} `{TotalOrder K} (m : BTreeMap K Coin) : Prop := ordered m /\ Forall (fun e => 0 <= snd e) m.

Section Coins.
Context {K : Type} `{TotalOrder K} `{EqDecision K}.
Implicit Types m : BTreeMap K Coin.

Lemma sum_of_map m : sum_of m = sum_Z (map snd m).
Proof. unfold sum_of, total. f_equal. Qed.

Lemma coins_nonneg m : coins_ok m -> 0 <= sum_of m.
Proof.
  intros [_ Hm]. rewrite sum_of_map. apply sum_nonneg. apply Forall_map. eapply Forall_impl; [exact Hm|]. by intros e ?.
Qed.

Lemma coins_get m k v : coins_ok m -> bt_get m k = Some v -> 0 <= v <= sum_of m.
Proof.
  intros Hm Hg. pose proof Hm as [Ho Hn]. apply get_elem in Hg as Hin; [|done].
  rewrite Forall_forall in Hn. split; [by apply (Hn (k, v))|].
  pose proof (total_remove (fun c : Coin => c) m k Ho) as Hr. rewrite Hg in Hr. cbn in Hr. fold (sum_of m) in Hr.
  assert (0 <= total (fun c : Coin => c) (bt_remove m k)); [|lia].
  apply coins_nonneg. split; [by apply remove_ordered|]. apply Forall_forall. intros e He. apply Hn.
  unfold bt_remove in He. by apply filter_in in He as [? _].
Qed.

Lemma insert_forall {V} (P : K * V -> Prop) (m : BTreeMap K V) k v : Forall P m -> P (k, v) -> Forall P (bt_insert m k v).
Proof.
  intros Hm Hv. induction Hm as [|[k' v'] m Hx Hm IH]; cbn; [by constructor|].
  destruct (cmp k k'); repeat constructor; done.
Qed.

(** A credit adds its amount, as long as everything fits. *)
Lemma credit_exact m k v : coins_ok m -> 0 <= v -> sum_of m + v <= u64_max ->
  coins_ok (credit m k v) /\ sum_of (credit m k v) = sum_of m + v.
Proof.
  intros Hm Hv Hu. pose proof Hm as [Ho Hn]. unfold credit, saturating_add.
  assert (0 <= from_option id 0 (bt_get m k) <= sum_of m) as Hg.
  { destruct (bt_get m k) as [c|] eqn:E; cbn; [by eapply coins_get|]. split; [done|by apply coins_nonneg]. }
  rewrite Z.min_l by lia. split.
  - split; [by apply insert_ordered|]. apply insert_forall; [done|]. cbn. lia.
  - unfold sum_of. rewrite total_insert by done. fold (sum_of m).
    assert (from_option (fun c : Coin => c) 0 (bt_get m k) = from_option id 0 (bt_get m k)) as -> by by destruct (bt_get m k). lia.
Qed.

Lemma keys_nodup {V} (m : BTreeMap K V) : ordered m -> NoDup (map fst m).
Proof.
  induction m as [|[k v] m IH]; [constructor|]. intros [Ho Hk]%ordered_cons. cbn. constructor; [|by apply IH].
  intros Hin. apply list_elem_of_fmap in Hin as ([k' v'] & E & Hin). cbn in E. subst k'.
  rewrite Forall_forall in Hk. specialize (Hk _ Hin). cbn in Hk. by rewrite cmp_refl in Hk.
Qed.

Lemma get_above_none m k : Forall (fun x => cmp k (fst x) = Lt) m -> bt_get m k = None.
Proof. intros Hk. by apply get_above. Qed.

(** The entries under distinct keys, and the others. *)
Lemma sum_lookup m ks : ordered m -> NoDup ks ->
  sum_Z (map (fun k => from_option id 0 (bt_get m k)) ks) +
  sum_Z (map snd (List.filter (fun e => negb (bool_decide (fst e ∈ ks))) m)) = sum_Z (map snd m).
Proof.
  intros Ho Hnd. induction m as [|[k0 v0] m IH].
  { cbn. assert (forall l : list K, sum_Z (map (fun k => from_option id 0 (bt_get (@nil (K * Coin)) k)) l) = 0) as ->; [|done].
    induction l as [|x l IHl]; [done|]. cbn [map]. rewrite sum_cons, IHl. done. }
  apply ordered_cons in Ho as [Ho Hk]. specialize (IH Ho). cbn [map List.filter fst snd]. rewrite sum_cons, <- IH.
  assert (sum_Z (map (fun k => from_option id 0 (bt_get ((k0, v0) :: m) k)) ks) =
    (if bool_decide (k0 ∈ ks) then v0 else 0) + sum_Z (map (fun k => from_option id 0 (bt_get m k)) ks)) as ->.
  { clear IH. induction ks as [|k ks IHk]; [done|]. apply NoDup_cons in Hnd as [Hnin Hnd]. cbn [map]. rewrite !sum_cons, (IHk Hnd). cbn [bt_get].
    destruct (decide (k = k0)) as [->|Hne].
    - rewrite cmp_refl, (bool_decide_eq_false_2 (k0 ∈ ks)), (bool_decide_eq_true_2 (k0 ∈ k0 :: ks)), get_above_none by (done || by left). cbn. lia.
    - assert (bool_decide (k0 ∈ k :: ks) = bool_decide (k0 ∈ ks)) as -> by (apply bool_decide_ext; rewrite elem_of_cons; intuition congruence).
      destruct (cmp k k0) eqn:E; [by apply cmp_eq in E|lia..]. }
  destruct (bool_decide (k0 ∈ ks)); cbn [negb map]; [|rewrite sum_cons; cbn [snd]]; lia.
Qed.

(** The coins under distinct keys are some of the coins. *)
Lemma lookup_le m ks : coins_ok m -> NoDup ks -> 0 <= sum_Z (map (fun k => from_option id 0 (bt_get m k)) ks) <= sum_of m.
Proof.
  intros Hm Hk. pose proof Hm as [Ho Hn]. split.
  - apply sum_nonneg, Forall_map, Forall_forall. intros k _. unfold compose. destruct (bt_get m k) eqn:E; [|done]. by apply (coins_get m k).
  - rewrite sum_of_map, <- (sum_lookup m ks Ho Hk). match goal with |- ?a <= _ => rewrite <- (Z.add_0_r a) at 1 end. apply Zplus_le_compat_l.
    apply sum_nonneg, Forall_map, Forall_forall. intros e [He _]%filter_in. rewrite Forall_forall in Hn. by apply Hn.
Qed.
End Coins.

Lemma sat_fold_le l : forall a, Forall (Z.le 0) l -> fold_left saturating_add l a <= a + sum_Z l.
Proof.
  induction l as [|x l IH]; intros a Hl; [cbn; lia|]. apply Forall_cons in Hl as [Hx Hl]. cbn [fold_left]. rewrite sum_cons.
  specialize (IH (saturating_add a x) Hl). unfold saturating_add in *. lia.
Qed.

Lemma sat_fold_nonneg l : forall a, 0 <= a -> Forall (Z.le 0) l -> 0 <= fold_left saturating_add l a.
Proof. induction l as [|x l IH]; intros a Ha Hl; [done|]. apply Forall_cons in Hl as [Hx Hl]. apply IH; [|done]. unfold saturating_add. width. lia. Qed.

Lemma sat_fold_exact l : forall a, Forall (Z.le 0) l -> a + sum_Z l <= u64_max -> fold_left saturating_add l a = a + sum_Z l.
Proof.
  induction l as [|x l IH]; intros a Hl Hu; [cbn; lia|]. apply Forall_cons in Hl as [Hx Hl]. cbn [fold_left]. rewrite sum_cons in *.
  pose proof (sum_nonneg l Hl). unfold saturating_add at 2. rewrite Z.min_l by lia. rewrite IH by (done || lia). lia.
Qed.

(** * The members' shares *)

(** The stake of those who are paid as members. *)
Definition others (env : RewardEnv) (params : SnapshotPoolParams) (l : list (StakeCredential * Coin)) : list (StakeCredential * Coin) :=
  List.filter (fun e => negb (is_owner env params (fst e))) l.

Lemma stakes_nonneg env params l : Forall (fun e : StakeCredential * Coin => 0 <= snd e) l -> 0 <= sum_Z (map snd (others env params l)).
Proof.
  intros Hl. apply sum_nonneg, Forall_map. unfold others. apply Forall_forall. intros e [He _]%filter_in.
  rewrite Forall_forall in Hl. by apply Hl.
Qed.

(** One member's reward is at most its part. *)
Lemma member_reward_bound mf stake S : rational_ok mf -> (0 <= frac mf)%Q -> 0 < S -> 0 <= stake ->
  (frac mf * qz stake <= qz u64_max * qz S)%Q ->
  0 <= member_reward mf stake S /\ (qz (member_reward mf stake S) * qz S <= frac mf * qz stake)%Q.
Proof.
  intros Hmf Hm0 HS Hst Hu. unfold member_reward.
  destruct (new_small stake S rational_zero HS Hst) as (share & -> & (Sok & _ & _) & Sf).
  destruct (mul_exact mf share Hmf Sok) as (r & -> & Rok & Rf). cbn [from_option]. rewrite Sf in Rf.
  assert (0 < qz S)%Q as HSq by by apply (Q_of_Z_lt 0).
  assert (frac r * qz S == frac mf * qz stake)%Q as Rz by (rewrite Rf; field; lra).
  assert (0 <= qz stake)%Q by by apply (Q_of_Z_le 0).
  assert (0 <= frac r)%Q as R0 by (apply (Qmult_le_r _ _ (qz S) HSq); rewrite Rz; nra).
  destruct (floor_u64_bound r Rok) as (H1 & H2 & _).
  - apply (Qmult_le_r _ _ (qz S) HSq). by rewrite Rz.
  - split; [lia|]. rewrite <- Rz. apply Qmult_le_compat_r; [by apply H2|lra].
Qed.

Lemma members_paid env params mf S : rational_ok mf -> (0 <= frac mf)%Q -> 0 < S -> forall l deltas d,
  coins_ok deltas -> 0 <= d <= sum_of deltas -> Forall (fun e => 0 <= snd e) l ->
  (qz (sum_of deltas) * qz S + frac mf * qz (sum_Z (map snd (others env params l))) <= qz u64_max * qz S)%Q ->
  exists paid, let '(deltas', d') := fold_left (member_step env params mf S) l (deltas, d) in
    coins_ok deltas' /\ sum_of deltas' = sum_of deltas + paid /\ d' = d + paid /\ 0 <= paid /\
    (qz paid * qz S <= frac mf * qz (sum_Z (map snd (others env params l))))%Q.
Proof.
  intros Hmf Hm0 HS. assert (0 < qz S)%Q as HSq by by apply (Q_of_Z_lt 0).
  induction l as [|[cred t] l IH]; intros deltas d Hd Hdd Hl Hu.
  { exists 0. cbn [fold_left]. split; [done|]. split; [lia|]. split; [lia|]. split; [lia|]. change (sum_Z _) with 0. change (qz 0) with 0%Q. lra. }
  apply Forall_cons in Hl as [Ht Hl]. cbn in Ht. pose proof (stakes_nonneg env params l Hl) as HW.
  pose proof (coins_nonneg deltas Hd) as Hs. cbn [fold_left]. unfold others in Hu |- *. cbn [List.filter fst map] in Hu |- *.
  unfold member_step at 2. fold (others env params l) in Hu |- *. set (W := sum_Z (map snd (others env params l))) in *.
  destruct (is_owner env params cred); cbn [negb] in Hu |- *; [by apply IH|]. cbn [map snd] in Hu |- *. rewrite sum_cons in Hu |- *. fold W in Hu |- *.
  assert (0 <= qz W)%Q as HWq by by apply (Q_of_Z_le 0). assert (0 <= qz t)%Q as Htq by by apply (Q_of_Z_le 0).
  assert (0 <= qz (sum_of deltas))%Q as Hsq by by apply (Q_of_Z_le 0).
  rewrite inject_Z_plus in Hu.
  assert (0 <= frac mf * qz t)%Q as Hmt by by apply Qmult_le_0_compat. assert (0 <= frac mf * qz W)%Q as HmW by by apply Qmult_le_0_compat.
  assert (0 <= qz (sum_of deltas) * qz S)%Q as HsS by (apply Qmult_le_0_compat; [done|lra]).
  assert (forall paid, (qz paid * qz S <= frac mf * qz W)%Q -> (qz paid * qz S <= frac mf * qz (t + W))%Q) as Hweak
    by (intros paid Hp; rewrite inject_Z_plus; lra).
  assert (Hskip : exists paid, let '(deltas', d') := fold_left (member_step env params mf S) l (deltas, d) in
    coins_ok deltas' /\ sum_of deltas' = sum_of deltas + paid /\ d' = d + paid /\ 0 <= paid /\ (qz paid * qz S <= frac mf * qz (t + W))%Q).
  { destruct (IH deltas d Hd Hdd Hl) as [paid Hp]; [fold W; lra|]. exists paid. destruct (fold_left _ l _). destruct Hp as (? & ? & ? & ? & ?).
    split; [done|]. split; [done|]. split; [done|]. split; [done|]. by apply Hweak. }
  destruct (Z.eqb_spec t 0); [exact Hskip|]. destruct (negb (may_be_paid env cred)); [exact Hskip|].
  destruct (member_reward_bound mf t S Hmf Hm0 HS Ht) as [Hr Hrt]; [lra|].
  set (r := member_reward mf t S) in *. destruct (Z.ltb_spec 0 r); [|exact Hskip]. clear Hskip. cbn [fst snd].
  assert (sum_of deltas + r <= u64_max) as Hfit.
  { rewrite Zle_Qle, inject_Z_plus. apply (Qmult_le_r _ _ (qz S) HSq). lra. }
  destruct (credit_exact deltas cred r Hd Hr Hfit) as [Hc1 Hc2].
  assert (as_u64 (d + r) = d + r) as -> by (unfold as_u64; width; apply Z.mod_small; lia).
  destruct (IH (credit deltas cred r) (d + r) Hc1) as [paid Hp]; [lia|done|fold W; rewrite Hc2, inject_Z_plus; lra|].
  exists (r + paid). destruct (fold_left _ l _). fold W in Hp. destruct Hp as (? & ? & ? & ? & ?).
  split; [done|]. split; [lia|]. split; [lia|]. split; [lia|]. rewrite !inject_Z_plus. lra.
Qed.

(** * A snapshot that adds up *)

(** The coins delegated to a pool. *)
Definition delegated (s : StakeSnapshot) (id : PoolId) : list (StakeCredential * Coin) :=
  map (fun e => (fst e, snd (snd e))) (List.filter (fun e => bool_decide (fst (snd e) = id)) (stake_delegations s)).

(** The parameters a pool was registered with: a margin between none and all. *)
Definition pool_params_ok (p : SnapshotPoolParams) : Prop :=
  0 <= sp_pledge p <= u64_max /\ 0 <= sp_cost p <= u64_max /\
  0 <= fst (sp_margin p) /\ 0 <= snd (sp_margin p) /\ (snd (sp_margin p) = 0 \/ fst (sp_margin p) <= snd (sp_margin p)) /\
  ordered (self_delegated_owners p).

Record snapshot_ok (s : StakeSnapshot) : Prop := mk_snapshot_ok {
  so_ordered : ordered (stake_delegations s);
  so_nonneg : Forall (fun e => 0 <= snd (snd e)) (stake_delegations s);
  so_pools : ordered (pool_stakes s);
  so_sums : forall id st, bt_get (pool_stakes s) id = Some st -> st = sum_Z (map snd (delegated s id));
  so_params : forall id p, bt_get (pool_params s) id = Some p -> pool_params_ok p;
}.

Lemma ordered_values {K V W} `{TotalOrder K} (g : V -> W) (m : BTreeMap K V) : ordered m -> ordered (map (fun e => (fst e, g (snd e))) m).
Proof.
  induction m as [|[k v] m IH]; [constructor|]. intros [Ho Hk]%ordered_cons. cbn. apply ordered_cons. split; [by apply IH|].
  apply Forall_map. eapply Forall_impl; [exact Hk|]. by intros [].
Qed.

Lemma delegated_ordered s id : ordered (stake_delegations s) -> ordered (delegated s id).
Proof. intros Ho. by apply (ordered_values snd), ordered_filter. Qed.

Lemma delegator_stakes_eq s id : ordered (stake_delegations s) -> delegator_stakes s id = delegated s id.
Proof. intros Ho. by apply map_of_ordered, delegated_ordered. Qed.

Lemma delegated_nonneg s id : snapshot_ok s -> Forall (fun e => 0 <= snd e) (delegated s id).
Proof.
  intros [_ Hn _ _ _]. apply Forall_map, Forall_forall. intros e [He _]%filter_in. rewrite Forall_forall in Hn. by apply (Hn e).
Qed.

Lemma get_values {K V W} `{TotalOrder K} (g : V -> W) (m : BTreeMap K V) k :
  bt_get (map (fun e => (fst e, g (snd e))) m) k = g <$> bt_get m k.
Proof. induction m as [|[k' v] m IH]; [done|]. cbn. by destruct (cmp k k'). Qed.

Lemma owner_stake_get s id owner : ordered (stake_delegations s) -> owner_stake s id owner = bt_get (delegated s id) (KeyHash owner).
Proof.
  intros Ho. unfold owner_stake, delegated. rewrite (get_values snd), get_filter by done. cbn [fst snd].
  destruct (bt_get (stake_delegations s) (KeyHash owner)) as [[p c]|]; [|done]. cbn [fst snd]. by destruct (bool_decide (p = id)).
Qed.

Lemma omap_sum {A} (f : A -> option Z) l : sum_Z (omap f l) = sum_Z (map (fun x => default 0 (f x)) l).
Proof. induction l as [|x l IH]; [done|]. cbn. destruct (f x); cbn [from_option]; rewrite ?sum_cons; fold (omap f l); cbn; unfold sum_Z in *; lia. Qed.

(** The owners' stake and the others' are the pool's. *)
Lemma own_and_others env params id : snapshot_ok (re_go env) -> pool_params_ok params -> 4 <= protocol_major (re_params env) ->
  let own := self_delegated_owner_stake (re_go env) id (elements (self_delegated_owners params)) in
  0 <= own /\ own + sum_Z (map snd (others env params (delegated (re_go env) id))) <= sum_Z (map snd (delegated (re_go env) id)).
Proof.
  intros Hs (_ & _ & _ & _ & _ & Hw) Hpv. pose proof (so_ordered _ Hs) as Ho. pose proof (delegated_nonneg _ id Hs) as Hn.
  unfold self_delegated_owner_stake. rewrite set_of_elements by done.
  set (l := elements (self_delegated_owners params)). set (D := delegated (re_go env) id) in *.
  assert (Forall (Z.le 0) (omap (owner_stake (re_go env) id) l)) as Hnn.
  { apply Forall_forall. intros c Hc. apply list_elem_of_omap in Hc as (o & _ & Hc). rewrite owner_stake_get in Hc by done. fold D in Hc.
    apply get_elem in Hc; [|by apply delegated_ordered]. rewrite Forall_forall in Hn. by apply (Hn (KeyHash o, c)). }
  split; [by apply sat_fold_nonneg|]. pose proof (sat_fold_le _ 0 Hnn) as Hle.
  assert (NoDup (map KeyHash l)) as Hnd by (apply NoDup_fmap_2; [by intros ? ? [=]|by apply elements_nodup]).
  pose proof (sum_lookup D (map KeyHash l) (delegated_ordered _ id Ho) Hnd) as Hsum. rewrite map_map in Hsum.
  rewrite omap_sum in Hle.
  assert (map (fun x => default 0 (owner_stake (re_go env) id x)) l = map (fun x => default 0 (bt_get D (KeyHash x))) l) as E
    by (apply map_ext; intros o; by rewrite owner_stake_get by done).
  rewrite E in Hle.
  assert (others env params D = List.filter (fun e => negb (bool_decide (fst e ∈ map KeyHash l))) D) as ->; [|lia].
  unfold others. apply filter_ext. intros [c t]. cbn [fst]. f_equal. unfold is_owner. rewrite (proj2 (Z.leb_le 4 _)) by done.
  apply eq_true_iff_eq. rewrite bool_decide_eq_true, list_elem_of_fmap. destruct c as [h|h].
  - rewrite <- (elements_contains _ _ Hw). split; [intros Hh; by exists h|by intros (? & [= ->] & ?)].
  - split; [done|by intros (? & ? & ?)].
Qed.

(** * A pool's reward is shared out, no more *)

(** The rewards computed so far: everything is in the two totals. *)
Record rewards_ok (r : RewardState) : Prop := mk_rewards_ok {
  ro_coins : coins_ok (reward_deltas r);
  ro_pool : 0 <= total_pool_rewards r;
  ro_member : 0 <= total_member_rewards r;
  ro_sum : sum_of (reward_deltas r) = total_pool_rewards r + total_member_rewards r;
}.

Ltac rstate := cbn [reward_deltas total_pool_rewards total_member_rewards rewarded_pool_count] in *.

(** [r'] has at most [f] more than [r]. *)
Definition grew (f : Z) (r r' : RewardState) : Prop :=
  rewards_ok r' /\ sum_of (reward_deltas r) <= sum_of (reward_deltas r') <= sum_of (reward_deltas r) + f.

Lemma margin_ok (m : Z * Z) : 0 <= fst m -> 0 <= snd m -> snd m = 0 \/ fst m <= snd m ->
  exists q q1, rational_or (rational_new (fst m) (snd m)) rational_zero = q /\ rational_ok q /\ (0 <= frac q)%Q /\ (frac q <= 1)%Q /\
    rational_or (rational_sub rational_one q) rational_one = q1 /\ rational_ok q1 /\ (frac q1 == 1 - frac q)%Q.
Proof.
  intros H1 H2 H3. assert (exists q, rational_or (rational_new (fst m) (snd m)) rational_zero = q /\ rational_ok q /\ (0 <= frac q)%Q /\ (frac q <= 1)%Q) as (q & Eq & Hq & H0 & Hle).
  { destruct (Z.eqb_spec (snd m) 0) as [E|E].
    - exists rational_zero. rewrite E. split; [done|]. split; [by split|]. split; done.
    - destruct (new_small (fst m) (snd m) rational_zero ltac:(lia) H1) as (q & E' & (Hq & Hn & _) & Hf). exists q. split; [done|]. split; [done|].
      split; [apply frac_nonneg; [done|lia]|]. rewrite Hf. apply Qle_shift_div_r; [apply (Q_of_Z_lt 0); lia|]. rewrite Qmult_1_l. apply Q_of_Z_le. lia. }
  destruct (sub_exact rational_one q ltac:(by split) Hq) as (q1 & E1 & Hq1 & Hf1). exists q, q1. rewrite E1. split_and!; try done.
Qed.

(** The leader's reward is at most the cost and its part of the rest. *)
Lemma leader_bound env params fc own S q q1 : 4 <= protocol_major (re_params env) -> 0 <= sp_cost params -> 0 <= fc ->
  sp_cost params + fc <= u64_max -> 0 <= own <= S -> 0 < S -> rational_ok q -> rational_ok q1 -> (0 <= frac q)%Q -> (0 <= frac q1)%Q ->
  (frac q + frac q1 == 1)%Q ->
  let l := leader_reward env params fc own S q q1 in
  0 <= l /\ ((qz l) * (qz S) <= (qz (sp_cost params)) * (qz S) + (qz fc) * (frac q * (qz S) + frac q1 * (qz own)))%Q.
Proof.
  intros Hpv Hc Hfc Hu Hown HS Hq Hq1 H0 H1 Hsum. unfold leader_reward. rewrite (proj2 (Z.leb_le 4 _)) by done.
  destruct (new_small own S rational_zero HS ltac:(lia)) as (op & -> & (Ook & _ & _) & Of).
  destruct (mul_exact q1 op Hq1 Ook) as (x & -> & Xok & Xf). cbn [rational_or].
  destruct (add_exact q x Hq Xok) as (lt & -> & Lok & Lf). cbn [rational_or].
  destruct (mul_exact (from_integer fc) lt (proj1 (integer_exact fc)) Lok) as (r & -> & Rok & Rf). cbn [from_option].
  rewrite (proj2 (integer_exact fc)), Lf, Xf, Of in Rf.
  assert (0 < qz S)%Q as HSq by by apply (Q_of_Z_lt 0). assert (0 <= qz fc)%Q as Hfq by by apply (Q_of_Z_le 0).
  assert (0 <= qz own)%Q as Hoq by (apply (Q_of_Z_le 0); lia). assert (qz own <= qz S)%Q as HoS by (apply Q_of_Z_le; lia).
  assert (frac r * qz S == qz fc * (frac q * qz S + frac q1 * qz own))%Q as Rz by (rewrite Rf; field; lra).
  assert (0 <= frac q * qz S + frac q1 * qz own)%Q as Hp by nra.
  assert (frac q * qz S + frac q1 * qz own <= qz S)%Q as Hp1 by nra.
  assert (0 <= frac r)%Q as R0 by (apply (Qmult_le_r _ _ (qz S) HSq); rewrite Rz, Qmult_0_l; by apply Qmult_le_0_compat).
  assert (frac r <= qz fc)%Q as R1 by (apply (Qmult_le_r _ _ (qz S) HSq); rewrite Rz, (Qmult_comm (qz fc)), (Qmult_comm (qz fc)); by apply Qmult_le_compat_r).
  destruct (floor_u64_bound r Rok) as (F1 & F2 & _); [apply (Qle_trans _ _ _ R1), Q_of_Z_le; lia|]. specialize (F2 R0).
  assert (floor_u64 r <= fc) as F3 by (rewrite Zle_Qle; lra).
  assert (as_u64 (sp_cost params + floor_u64 r) = sp_cost params + floor_u64 r) as -> by (unfold as_u64; apply Z.mod_small; width; lia).
  split; [lia|]. rewrite inject_Z_plus, <- Rz. assert (qz (floor_u64 r) * qz S <= frac r * qz S)%Q by (apply Qmult_le_compat_r; lra). lra.
Qed.

Lemma distribute_grows env acc id params f own :
  4 <= protocol_major (re_params env) -> snapshot_ok (re_go env) -> pool_params_ok params -> rewards_ok acc ->
  let S := sum_Z (map snd (delegated (re_go env) id)) in
  own = self_delegated_owner_stake (re_go env) id (elements (self_delegated_owners params)) ->
  0 < S -> 0 < f -> sum_of (reward_deltas acc) + f <= u64_max ->
  grew f acc (distribute env acc id params S f own).
Proof.
  intros Hpv Hs Hp [Hco Hpo Hme Hsum] S -> HS Hf Hu. destruct acc as [deltas pt mt cnt]. rstate.
  pose proof (own_and_others env params id Hs Hp Hpv) as [Hown0 Hown]. fold S in Hown.
  set (own := self_delegated_owner_stake _ _ _) in *. set (W := sum_Z (map snd (others env params (delegated (re_go env) id)))) in *.
  pose proof (stakes_nonneg env params _ (delegated_nonneg _ id Hs)) as HW. fold W in HW.
  destruct Hp as (_ & Hc & Hm1 & Hm2 & Hm3 & _). unfold distribute, grew. set (op := sp_reward_account params).
  pose proof (coins_nonneg _ Hco) as Hd0.
  destruct (Z.leb_spec f (sp_cost params)) as [Hle|Hgt].
  { destruct (may_be_paid env op); rstate; [|split; [by constructor|lia]]. destruct (credit_exact deltas op f Hco ltac:(lia) Hu) as [C1 C2].
    split; [|lia]. unfold saturating_add. rewrite Z.min_l by lia. constructor; rstate; [done|lia..]. }
  destruct (margin_ok _ Hm1 Hm2 Hm3) as (q & q1 & -> & Qok & Q0 & Q1 & -> & Q1ok & Qf).
  set (fc := f - sp_cost params) in *. assert (sp_cost params + fc = f) as Efc by (subst fc; lia).
  assert (0 <= frac q1)%Q as Hq1 by lra. assert (frac q + frac q1 == 1)%Q as Hq by lra.
  destruct (leader_bound env params fc own S q q1) as [L0 L1]; try done; try lia.
  set (leader := leader_reward env params fc own S q q1) in *.
  assert (0 < qz S)%Q as HSq by by apply (Q_of_Z_lt 0). assert (0 <= qz fc)%Q as Hfq by (apply (Q_of_Z_le 0); lia).
  assert (qz own + qz W <= qz S)%Q as HoW by (rewrite <- inject_Z_plus; by apply Q_of_Z_le).
  assert (qz f == qz (sp_cost params) + qz fc)%Q as Hfz by by rewrite <- inject_Z_plus, Efc.
  assert (0 <= qz W)%Q as HWq by by apply (Q_of_Z_le 0). assert (0 <= qz own)%Q as Hoq by by apply (Q_of_Z_le 0).
  assert (qz fc * frac q1 * qz W + qz leader * qz S <= qz f * qz S)%Q as Hall.
  { assert (frac q1 * (qz own + qz W) <= frac q1 * qz S)%Q by (rewrite !(Qmult_comm (frac q1)); apply Qmult_le_compat_r; lra).
    assert (qz fc * (frac q * qz S + frac q1 * (qz own + qz W)) <= qz fc * qz S)%Q.
    { rewrite !(Qmult_comm (qz fc)). apply Qmult_le_compat_r; [|done]. assert (frac q * qz S + frac q1 * qz S == qz S)%Q by (rewrite <- Qmult_plus_distr_l, Hq; ring). lra. }
    rewrite Hfz. nra. }
  assert (leader <= f) as HLf.
  { rewrite Zle_Qle. apply (Qmult_le_r _ _ (qz S) HSq). assert (0 <= qz fc * frac q1 * qz W)%Q by (repeat apply Qmult_le_0_compat; done). lra. }
  set (after := if may_be_paid env op then _ else _).
  assert (exists d1 t1, after = (d1, t1) /\ coins_ok d1 /\ 0 <= t1 /\ sum_of d1 = t1 + mt /\ sum_of deltas <= sum_of d1 <= sum_of deltas + leader) as (d1 & t1 & -> & D1 & T1 & S1 & G1).
  { subst after. destruct (may_be_paid env op); [|exists deltas, pt; split_and!; done || lia].
    destruct (credit_exact deltas op leader Hco L0 ltac:(lia)) as [C1 C2]. exists (credit deltas op leader), (saturating_add pt leader).
    unfold saturating_add. rewrite Z.min_l by lia. split_and!; done || lia. }
  destruct (mul_exact (from_integer fc) q1 (proj1 (integer_exact fc)) Q1ok) as (mf & -> & Mok & Mf). cbn [rational_or].
  rewrite (proj2 (integer_exact fc)) in Mf. assert (0 <= frac mf)%Q as M0 by (rewrite Mf; by apply Qmult_le_0_compat).
  rewrite (proj2 (Z.ltb_lt 0 S)) by done. rewrite delegator_stakes_eq by apply Hs.
  destruct (members_paid env params mf S Mok M0 HS (delegated (re_go env) id) d1 0 D1) as [paid Hpaid].
  { pose proof (coins_nonneg _ D1). lia. }
  { by apply delegated_nonneg. }
  { fold W. rewrite Mf. assert (qz (sum_of d1) * qz S <= (qz (sum_of deltas) + qz leader) * qz S)%Q by (rewrite <- inject_Z_plus; apply Qmult_le_compat_r; [apply Q_of_Z_le; lia|lra]).
    assert ((qz (sum_of deltas) + qz f) * qz S <= qz u64_max * qz S)%Q by (rewrite <- inject_Z_plus; apply Qmult_le_compat_r; [apply Q_of_Z_le; lia|lra]). nra. }
  destruct (fold_left (member_step env params mf S) _ _) as [d2 t2]. fold W in Hpaid. destruct Hpaid as (D2 & S2 & -> & P0 & P1).
  assert (paid <= f - leader) as HP.
  { rewrite Zle_Qle. apply (Qmult_le_r _ _ (qz S) HSq). unfold Z.sub. rewrite inject_Z_plus, inject_Z_opp. rewrite Mf in P1. nra. }
  rstate. unfold saturating_add. rewrite Z.min_l by lia. split; [constructor; rstate; [done|lia..]|lia].
Qed.

(** * All the rewards are within the pot *)

Definition blocks_of (env : RewardEnv) (id : PoolId) : Z := default 0 (bt_get (re_blocks env) id).

(** One pool: nothing is paid, or at most its part by blocks and stake. *)
Lemma reward_step_grows env acc id S acc' : env_ok env -> 4 <= protocol_major (re_params env) -> snapshot_ok (re_go env) ->
  bt_get (pool_stakes (re_go env)) id = Some S -> S <= re_total_stake env -> 0 <= blocks_of env id <= re_total_blocks env ->
  rewards_ok acc ->
  (forall f, 0 < blocks_of env id ->
    f * (re_total_stake env * re_total_blocks env) <= pool_reward_pot env * re_active_stake env * blocks_of env id ->
    sum_of (reward_deltas acc) + f <= u64_max) ->
  reward_step env (Ok acc) (id, S) = Ok acc' ->
  exists f, grew f acc acc' /\ 0 <= f /\ (blocks_of env id = 0 -> f = 0) /\
    f * (re_total_stake env * re_total_blocks env) <= pool_reward_pot env * re_active_stake env * blocks_of env id.
Proof.
  intros He Hpv Hs HS HST Hb Hacc Hfit. unfold reward_step. cbn [rbind].
  change (from_option (fun b => b) 0 (bt_get (re_blocks env) id)) with (blocks_of env id).
  assert (grew 0 acc acc) as Hsame by (split; [done|lia]).
  assert (0 <= pool_reward_pot env * re_active_stake env * blocks_of env id) as Hnn by (destruct He; nia).
  assert (Hskip : exists f, grew f acc acc /\ 0 <= f /\ (blocks_of env id = 0 -> f = 0) /\ f * (re_total_stake env * re_total_blocks env) <= pool_reward_pot env * re_active_stake env * blocks_of env id)
    by (exists 0; split; [done|split; [done|split; [done|lia]]]).
  destruct (Z.eqb_spec (blocks_of env id) 0) as [E|E]; [intros [= <-]; done|].
  destruct (bt_get (pool_params (re_go env)) id) as [p|] eqn:Ep; [|done]. cbn [ok_or rbind].
  pose proof (so_params _ Hs id p Ep) as Hp. pose proof (so_sums _ Hs id S HS) as HSd.
  assert (0 <= S) as HS0. { rewrite HSd. apply sum_nonneg, Forall_map. eapply Forall_impl; [by apply delegated_nonneg|]. by intros. }
  destruct (max_pool_bound env (sp_pledge p) S He (proj1 Hp) (conj HS0 HST)) as [M0 M1]. set (M := max_pool_reward env (sp_pledge p) S) in *.
  destruct (Z.eqb_spec M 0) as [EM|EM]; [intros [= <-]; done|].
  assert (0 < S) as HSpos by (destruct (Z.eq_dec S 0) as [E0|]; [destruct He; exfalso; rewrite E0 in M1; nia|lia]).
  destruct (_ && _); [intros [= <-]; done|].
  destruct (pool_reward_bound env M (blocks_of env id) S He ltac:(lia) ltac:(lia) M0 M1) as [F0 F1].
  set (f := pool_reward M _) in *. destruct (Z.eqb_spec f 0) as [Ef|Ef]; [intros [= <-]; done|]. intros [= <-].
  exists f. split; [|split; [lia|split; [lia|done]]]. rewrite HSd. apply distribute_grows; [done..|lia|lia|apply Hfit; [lia|done]].
Qed.

Lemma reward_error env l e : fold_left (reward_step env) l (Err e) = Err e.
Proof. induction l as [|x l IH]; [done|]. exact IH. Qed.

Lemma rewards_fold env : env_ok env -> 4 <= protocol_major (re_params env) -> snapshot_ok (re_go env) ->
  Forall (fun e => 0 <= snd e) (re_blocks env) -> ordered (re_blocks env) ->
  forall l acc past acc',
  Forall (fun e => bt_get (pool_stakes (re_go env)) (fst e) = Some (snd e) /\ snd e <= re_total_stake env) l ->
  rewards_ok acc -> 0 <= past -> (re_total_blocks env = 0 -> sum_of (reward_deltas acc) = 0) -> past + sum_Z (map (fun e => blocks_of env (fst e)) l) <= re_total_blocks env ->
  sum_of (reward_deltas acc) * (re_total_stake env * re_total_blocks env) <= pool_reward_pot env * re_active_stake env * past ->
  fold_left (reward_step env) l (Ok acc) = Ok acc' ->
  rewards_ok acc' /\ (re_total_blocks env = 0 -> sum_of (reward_deltas acc') = 0) /\ sum_of (reward_deltas acc') * (re_total_stake env * re_total_blocks env) <=
    pool_reward_pot env * re_active_stake env * (past + sum_Z (map (fun e => blocks_of env (fst e)) l)).
Proof.
  intros He Hpv Hs Hbn Hbo. set (TS := re_total_stake env). set (TB := re_total_blocks env). set (PA := pool_reward_pot env * re_active_stake env).
  assert (forall id, 0 <= blocks_of env id) as Hb0.
  { intros id. unfold blocks_of. destruct (bt_get (re_blocks env) id) as [b|] eqn:E; [|done]. cbn. apply get_elem in E; [|done].
    rewrite Forall_forall in Hbn. by apply (Hbn (id, b)). }
  assert (0 <= PA <= u64_max * TS) as HPA by (subst PA TS; destruct He; nia).
  induction l as [|[id S] l IH]; intros acc past acc' Hl Hacc Hp Hz Hsum Hinv Hr.
  { injection Hr as <-. split; [done|]. split; [done|]. change (sum_Z _) with 0. by rewrite Z.add_0_r. }
  apply Forall_cons in Hl as [[HS HST] Hl]. cbn [fst snd map] in *. rewrite sum_cons in *. cbn [fold_left] in Hr.
  destruct (reward_step env (Ok acc) (id, S)) as [acc1|e] eqn:E1; [|by rewrite reward_error in Hr].
  assert (0 <= sum_Z (map (fun e => blocks_of env (fst e)) l)) as Hrest by (apply sum_nonneg, Forall_map, Forall_true; intros; apply Hb0).
  pose proof (Hb0 id) as Hbid.
  destruct (reward_step_grows env acc id S acc1 He Hpv Hs HS HST ltac:(fold TB; lia) Hacc) as (f & [Hok Hg] & Hf0 & Hfz & Hf1); [|exact E1|].
  { intros f Hb Hf. fold TS TB PA in Hf. assert (0 < TS) as HTS by (subst TS; destruct He; lia).
    apply (Z.mul_le_mono_pos_r _ _ (TS * TB)); [nia|]. rewrite Z.mul_add_distr_r.
    transitivity (PA * (past + blocks_of env id)); [nia|]. transitivity (PA * TB); [apply Z.mul_le_mono_nonneg_l; lia|nia]. }
  fold TS TB PA in Hf1. destruct (IH acc1 (past + blocks_of env id) acc' Hl Hok ltac:(lia)) as (H1 & Hz' & H2); [|lia| |exact Hr|].
  - intros E0. fold TB in E0. specialize (Hz E0). assert (f = 0) by (apply Hfz; lia). lia.
  - assert (0 <= TS * TB) by (subst TS TB; destruct He; nia). nia.
  - split; [done|]. split; [done|]. by rewrite Z.add_assoc.
Qed.

(** What a boundary has to distribute is enough for what it distributes. *)
Lemma rewards_within_pot env r : (0 < re_total_stake env -> 0 < re_active_stake env -> 0 < pool_reward_pot env -> env_ok env) ->
  0 <= pool_reward_pot env ->
  4 <= protocol_major (re_params env) -> snapshot_ok (re_go env) ->
  Forall (fun e => 0 <= snd e) (re_blocks env) -> ordered (re_blocks env) -> sum_Z (map snd (re_blocks env)) = re_total_blocks env ->
  (forall id S, bt_get (pool_stakes (re_go env)) id = Some S -> S <= re_total_stake env) ->
  compute_rewards env = Ok r -> rewards_ok r /\ sum_of (reward_deltas r) <= pool_reward_pot env.
Proof.
  intros He Hpot0 Hpv Hs Hbn Hbo Hbt HST. assert (rewards_ok (mk_RewardState [] 0 0 0)) as Hstart by (constructor; [split; constructor|done..]).
  unfold compute_rewards. destruct (Z.ltb_spec 0 (re_total_stake env)); [|intros [= <-]; done].
  destruct (Z.ltb_spec 0 (re_active_stake env)); [|intros [= <-]; done]. destruct (Z.ltb_spec 0 (pool_reward_pot env)); [|intros [= <-]; done].
  cbn [andb]. intros Hr. specialize (He ltac:(done) ltac:(done) ltac:(done)). pose proof (so_pools _ Hs) as Hpo.
  assert (0 <= sum_Z (map (fun e => blocks_of env (fst e)) (pool_stakes (re_go env))) <= re_total_blocks env) as Hb.
  { pose proof (sum_lookup (re_blocks env) (map fst (pool_stakes (re_go env))) Hbo (keys_nodup _ Hpo)) as Hsl.
    rewrite map_map in Hsl. rewrite Hbt in Hsl. fold (blocks_of env) in Hsl. unfold blocks_of.
    assert (0 <= sum_Z (map snd (List.filter (fun e => negb (bool_decide (fst e ∈ map fst (pool_stakes (re_go env))))) (re_blocks env)))).
    { apply sum_nonneg, Forall_map, Forall_forall. intros e [Hin _]%filter_in. rewrite Forall_forall in Hbn. by apply Hbn. }
    split; [|lia]. apply sum_nonneg, Forall_map, Forall_forall. intros e _. unfold compose.
    destruct (bt_get (re_blocks env) (fst e)) as [b|] eqn:E; [|done]. apply get_elem in E; [|done]. rewrite Forall_forall in Hbn. by apply (Hbn (fst e, b)). }
  destruct (rewards_fold env He Hpv Hs Hbn Hbo (pool_stakes (re_go env)) (mk_RewardState [] 0 0 0) 0 r) as (HA & Hz & HB); [|done|done|done|lia|cbn; lia|exact Hr|].
  { apply Forall_forall. intros [id S] Hin. apply get_elem in Hin; [|done]. split; [done|]. by apply (HST id). }
  split; [done|]. rewrite Z.add_0_l in HB. destruct (Z.eq_dec (re_total_blocks env) 0) as [E0|E0].
  - rewrite Hz by done. done.
  - destruct He. apply (Z.mul_le_mono_pos_r _ _ (re_total_stake env * re_total_blocks env)); [nia|]. eapply Z.le_trans; [exact HB|].
    transitivity (pool_reward_pot env * re_active_stake env * re_total_blocks env); [apply Z.mul_le_mono_nonneg_l; nia|].
    rewrite Z.mul_assoc. apply Z.mul_le_mono_nonneg_r; nia.
Qed.

(** * Paying out *)

Section Payout.
Context {A : Type} (amount : A -> Z) (step : BTreeMap StakeCredential Coin * Z -> A -> BTreeMap StakeCredential Coin * Z).
Hypothesis step_pays : forall balances t x, coins_ok balances -> 0 <= t -> 0 <= amount x -> sum_of balances + t + amount x <= u64_max ->
  let '(balances', t') := step (balances, t) x in coins_ok balances' /\ 0 <= t' /\ sum_of balances' + t' = sum_of balances + t + amount x.

(** Accounts and treasury together receive exactly what is paid. *)
Lemma payout l : forall balances t, coins_ok balances -> 0 <= t -> Forall (fun x => 0 <= amount x) l ->
  sum_of balances + t + sum_Z (map amount l) <= u64_max ->
  let '(balances', t') := fold_left step l (balances, t) in
  coins_ok balances' /\ 0 <= t' /\ sum_of balances' + t' = sum_of balances + t + sum_Z (map amount l).
Proof.
  induction l as [|x l IH]; intros balances t Hb Ht Hl Hu; cbn [fold_left map]; [change (sum_Z []) with 0; split; [done|lia]|].
  apply Forall_cons in Hl as [Hx Hl]. cbn [map] in Hu. rewrite sum_cons in *.
  assert (0 <= sum_Z (map amount l)) by (apply sum_nonneg, Forall_map; exact Hl).
  pose proof (step_pays balances t x Hb Ht Hx ltac:(lia)) as Hs. destruct (step (balances, t) x) as [b1 t1]. destruct Hs as (H1 & H2 & H3).
  specialize (IH b1 t1 H1 H2 Hl ltac:(lia)). destruct (fold_left step l (b1, t1)) as [b2 t2]. destruct IH as (? & ? & ?). split; [done|lia].
Qed.
End Payout.

Lemma to_treasury t v : 0 <= t -> 0 <= v -> t + v <= u64_max -> saturating_add t v = t + v.
Proof. intros. unfold saturating_add. lia. Qed.

Lemma pay_pays registered balances t e : coins_ok balances -> 0 <= t -> 0 <= snd e -> sum_of balances + t + snd e <= u64_max ->
  let '(balances', t') := pay_step registered (balances, t) e in coins_ok balances' /\ 0 <= t' /\ sum_of balances' + t' = sum_of balances + t + snd e.
Proof.
  intros Hb Ht He Hu. unfold pay_step. pose proof (coins_nonneg _ Hb). destruct (registered (fst e)).
  - destruct (credit_exact balances (fst e) (snd e) Hb He ltac:(lia)). split; [done|lia].
  - rewrite to_treasury by lia. split; [done|lia].
Qed.

Lemma return_pays balances t r : coins_ok balances -> 0 <= t -> 0 <= returned_amount r -> sum_of balances + t + returned_amount r <= u64_max ->
  let '(balances', t') := return_step (balances, t) r in coins_ok balances' /\ 0 <= t' /\ sum_of balances' + t' = sum_of balances + t + returned_amount r.
Proof.
  intros Hb Ht He Hu. pose proof (coins_nonneg _ Hb). destruct r as [i cred v|i v|i]; cbn [return_step returned_amount] in *.
  - destruct (credit_exact balances cred v Hb He ltac:(lia)). split; [done|lia].
  - rewrite to_treasury by lia. split; [done|lia].
  - split; [done|lia].
Qed.

(** * The pools that retire *)

Definition account_ok (p : PoolParams) : Prop := is_Some (reward_account_credential (pool_reward_account p)).
Definition refund (active : BTreeMap PoolId PoolParams) (deposit : Coin) (id : PoolId) : Z := if bt_contains active id then deposit else 0.

Lemma refund_pays d active deposit balances t id : (forall i p, bt_get active i = Some p -> account_ok p) ->
  coins_ok balances -> 0 <= t -> 0 <= refund active deposit id -> sum_of balances + t + refund active deposit id <= u64_max ->
  let '(balances', t') := refund_step d active deposit (balances, t) id in
  coins_ok balances' /\ 0 <= t' /\ sum_of balances' + t' = sum_of balances + t + refund active deposit id.
Proof.
  intros Ha Hb Ht He Hu. pose proof (coins_nonneg _ Hb). unfold refund, bt_contains, refund_step in *. destruct (bt_get active id) as [p|] eqn:E; [|split; [done|lia]].
  pose proof (Ha id p E) as Hacc. unfold account_ok, is_Some in Hacc. destruct Hacc as [cred ->]. destruct (bt_contains (registrations d) cred).
  - destruct (credit_exact balances cred deposit Hb He ltac:(lia)). split; [done|lia].
  - rewrite to_treasury by lia. split; [done|lia].
Qed.

Section Lengths.
Context {V : Type}.
Implicit Types m : BTreeMap PoolId V.

Lemma length_insert m k v : ordered m -> bt_contains m k = true -> length (bt_insert m k v) = length m.
Proof.
  induction m as [|[k' v'] m IH]; [done|]. intros [Ho Hk]%ordered_cons. unfold bt_contains. cbn [bt_get bt_insert].
  destruct (cmp k k') eqn:E; [done| |].
  - rewrite get_above; [done|]. eapply Forall_impl; [exact Hk|]. intros x. by apply cmp_lt_trans.
  - intros Hc. cbn. f_equal. by apply IH.
Qed.

Lemma length_remove m k : ordered m -> length m = (length (bt_remove m k) + (if bt_contains m k then 1 else 0))%nat.
Proof.
  intros Ho. unfold bt_contains. destruct (bt_get m k) as [v|] eqn:E; [|rewrite remove_absent by done; lia].
  assert (length (bt_insert (bt_remove m k) k v) = S (length (bt_remove m k))) as Hi.
  { generalize (bt_remove m k) (get_remove m k). intros m' Hm'. induction m' as [|[k' v'] m' IH]; [done|]. cbn [bt_get bt_insert] in *.
    destruct (cmp k k') eqn:Ec; [done|done|]. cbn. f_equal. by apply IH. }
  enough (bt_insert (bt_remove m k) k v = m) as Hm by (rewrite Hm in Hi; lia).
  apply ordered_ext; [by apply insert_ordered, remove_ordered|done|]. intros k'.
  destruct (decide (k = k')) as [<-|Hne]; [by rewrite get_insert|]. by rewrite get_insert_ne, get_remove_ne.
Qed.

Lemma length_remove_all ids : forall m, ordered m -> NoDup ids ->
  length m = (length (fold_left bt_remove ids m) + length (List.filter (bt_contains m) ids))%nat.
Proof.
  induction ids as [|i ids IH]; intros m Ho Hnd; [cbn; lia|]. apply NoDup_cons in Hnd as [Hi Hnd]. cbn [fold_left List.filter].
  rewrite (length_remove m i Ho), (IH (bt_remove m i) (remove_ordered m i Ho) Hnd).
  assert (List.filter (bt_contains (bt_remove m i)) ids = List.filter (bt_contains m) ids) as ->.
  { apply filter_ext_in. intros j Hj%list_elem_of_In. rewrite contains_remove. case_bool_decide; [by subst|done]. }
  destruct (bt_contains m i); cbn [length]; lia.
Qed.
End Lengths.

Lemma adopt_keeps l : forall m, ordered m ->
  ordered (fold_left adopt_pool l m) /\ length (fold_left adopt_pool l m) = length m /\
  (forall id p, bt_get (fold_left adopt_pool l m) id = Some p -> bt_get m id = Some p \/ (id, p) ∈ l).
Proof.
  induction l as [|[i p] l IH]; intros m Hm; [split; [done|split; [done|by left]]|]. cbn [fold_left].
  unfold adopt_pool at 2 4 6. cbn [fst snd]. destruct (bt_contains m i) eqn:E.
  - destruct (IH (bt_insert m i p) (insert_ordered _ _ _ Hm)) as (H1 & H2 & H3). split; [done|]. split; [by rewrite H2, length_insert|].
    intros j q Hj. apply H3 in Hj as [Hj|Hj]; [|right; by right]. destruct (decide (i = j)) as [<-|Hne].
    + rewrite get_insert in Hj. injection Hj as <-. right. by left.
    + rewrite get_insert_ne in Hj by done. by left.
  - destruct (IH m Hm) as (H1 & H2 & H3). split; [done|]. split; [done|]. intros j q Hj. apply H3 in Hj as [?|?]; [by left|right; by right].
Qed.

(** * The pots *)

Definition unit_interval (q : Rational) : Prop := rational_ok q /\ (0 <= frac q)%Q /\ (frac q <= 1)%Q.

Lemma share_bound x q : 0 <= x <= u64_max -> unit_interval q -> 0 <= from_option floor_u64 0 (rational_mul (from_integer x) q) <= x.
Proof.
  intros Hx (Hq & H0 & H1). destruct (mul_exact (from_integer x) q (proj1 (integer_exact x)) Hq) as (r & -> & Rok & Rf). cbn [from_option].
  rewrite (proj2 (integer_exact x)) in Rf. assert (0 <= qz x)%Q by (apply (Q_of_Z_le 0); lia).
  assert (frac r <= qz x)%Q as Hle by (rewrite Rf; nra).
  assert (0 <= frac r)%Q as H2 by (rewrite Rf; by apply Qmult_le_0_compat).
  destruct (floor_u64_bound r Rok) as (F1 & F2 & _); [apply (Qle_trans _ _ _ Hle), Q_of_Z_le; lia|]. split; [lia|].
  rewrite Zle_Qle. apply (Qle_trans _ (frac r)); [by apply F2|done].
Qed.

Lemma treasury_bound x q : 0 <= x <= u64_max -> unit_interval q -> 0 <= boundary_treasury_delta x q <= x.
Proof. unfold boundary_treasury_delta. apply share_bound. Qed.

Lemma product_unit a b : unit_interval a -> unit_interval b -> exists r, rational_mul a b = Some r /\ unit_interval r.
Proof.
  intros (Ha & A0 & A1) (Hb & B0 & B1). destruct (mul_exact a b Ha Hb) as (r & -> & Hr & Hf). exists r. split; [done|]. split; [done|].
  rewrite Hf. split; [by apply Qmult_le_0_compat|]. apply (Qle_trans _ (1 * frac b)); [by apply Qmult_le_compat_r|lra].
Qed.

Lemma delta_r1_bound x rho eta : 0 <= x <= u64_max -> unit_interval rho -> unit_interval eta -> 0 <= boundary_delta_r1 x rho eta <= x.
Proof.
  intros Hx Hr He. unfold boundary_delta_r1. destruct Hr as (Rok & R0 & R1). destruct He as (Eok & E0 & E1).
  destruct (mul_exact (from_integer x) rho (proj1 (integer_exact x)) Rok) as (y & -> & Yok & Yf). cbn [mbind option_bind].
  destruct (mul_exact y eta Yok Eok) as (r & -> & Kok & Kf). cbn [from_option]. rewrite Yf, (proj2 (integer_exact x)) in Kf.
  assert (0 <= qz x)%Q by (apply (Q_of_Z_le 0); lia). assert (0 <= qz x * frac rho)%Q by by apply Qmult_le_0_compat.
  assert (qz x * frac rho <= qz x)%Q by nra. assert (qz x * frac rho * frac eta <= qz x * frac rho)%Q by nra.
  assert (0 <= qz x * frac rho * frac eta)%Q by by apply Qmult_le_0_compat.
  destruct (floor_u64_bound r Kok) as (F1 & F2 & _); [rewrite Kf; apply (Qle_trans _ (qz x)); [lra|apply Q_of_Z_le; lia]|]. split; [lia|].
  rewrite Zle_Qle. apply (Qle_trans _ (frac r)); [apply F2; by rewrite Kf|]. rewrite Kf. lra.
Qed.

Lemma one_unit : unit_interval rational_one.
Proof. split; [by split|]. split; done. Qed.

Lemma eta_unit d blocks slots : 0 <= blocks -> unit_interval (boundary_eta d blocks slots).
Proof.
  intros Hb. unfold boundary_eta. destruct (_ <=? _); [apply one_unit|]. set (e := as_u64 _).
  destruct (Z.leb_spec e blocks); [apply one_unit|]. destruct (Z.ltb_spec 0 e); [|apply one_unit].
  destruct (new_small blocks e rational_one ltac:(done) Hb) as (q & -> & (Hq & Hn & _) & Hf). split; [done|].
  split; [apply frac_nonneg; [done|lia]|]. rewrite Hf. apply Qle_shift_div_r; [by apply (Q_of_Z_lt 0)|]. rewrite Qmult_1_l. apply Q_of_Z_le. lia.
Qed.

(** * What is conserved *)

Definition pots (es : EpochState) : Z := reserves es + treasury es + epoch_fees es + donation_pot es.
Definition cert_ada (pool_deposit : Coin) (c : CertState) : Z := sum_of (rewards (delegation c)) + pool_deposit * blen (pools (pool c)).
Definition gov_ada (g : option GovState) : Z := match g with Some g => sum_Z (map gs_deposit (proposals g)) | None => 0 end.

(** All the ADA outside the UTxO that a boundary touches: the pots, the accounts, and the deposits of
    the pools and of the proposals.  The deposits of the accounts do not move. *)
Definition ada (s : Ledger) : Z :=
  pots (epoch_state (rest s)) +
  match cert_state s with Authoritative c => cert_ada (pool_deposit (protocol_params s)) c | ReducedUnavailable => 0 end +
  match gov_state (rest s) with Gov_Authoritative g => gov_ada g | Gov_ReducedUnavailable => 0 end.

(** A ratification's record that fits the state it was frozen over. *)
Definition record_ok (pp : ProtocolParameters) (r : RatificationRecord) : Prop :=
  forall d, outcome r = Decided d -> ordered (expired d) /\ forall e, enacted d = Some e -> limits_only pp (enacted_pparams e).

(** A ledger at the end of an epoch, from Mary on. *)
Record ledger_ok (s : Ledger) (snaps : SnapshotState) (c : CertState) (g : option GovState) : Prop := mk_ledger_ok {
  lk_major : 4 <= protocol_major (protocol_params s);
  lk_rho : unit_interval (monetary_expansion (protocol_params s));
  lk_tau : unit_interval (treasury_growth (protocol_params s));
  lk_a0 : rational_ok (pool_influence (protocol_params s)) /\ 0 <= num (pool_influence (protocol_params s));
  lk_k : 0 <= n_opt (protocol_params s) <= u32_max;
  lk_deposit : 0 <= pool_deposit (protocol_params s);
  lk_pots : 0 <= reserves (epoch_state (rest s)) /\ 0 <= treasury (epoch_state (rest s)) /\
            0 <= epoch_fees (epoch_state (rest s)) /\ 0 <= donation_pot (epoch_state (rest s));
  lk_rewards : coins_ok (rewards (delegation c));
  lk_pools : ordered (pools (pool c)) /\ forall e, e ∈ pools (pool c) \/ e ∈ future_pools (pool c) -> account_ok (snd e);
  lk_blocks : coins_ok (block_production (epoch_state (rest s))) /\ sum_of (block_production (epoch_state (rest s))) <= u32_max;
  lk_go : snapshot_ok (go snaps);
  lk_stake : sum_Z (map snd (pool_stakes (go snaps))) <= max_lovelace_supply (rest s) - reserves (epoch_state (rest s));
  lk_supply : 0 <= max_lovelace_supply (rest s) <= u64_max /\ ada s <= u64_max;
  lk_gov : forall g', g = Some g' -> Forall (fun p => 0 <= gs_deposit p) (proposals g') /\
             forall r, ratification g' = Recorded r -> record_ok (protocol_params s) r;
}.

Lemma with_record_gov g r : gov_ada (Some (with_record g r)) = gov_ada (Some g).
Proof. done. Qed.

(** Freezing the next ratification moves nothing. *)
Lemma freeze_ada next base del next' : freeze_ratification next base del = Ok next' -> ada next' = ada next.
Proof.
  unfold freeze_ratification. destruct (is_conway _); [|by intros [= <-]]. intros H. apply rbind_ok_inv in H as (b & _ & H).
  apply rbind_ok_inv in H as ([input|] & _ & H); [|by injection H as <-]. apply rbind_ok_inv in H as (r & _ & H).
  destruct (gov_state (rest next)) as [[g|]|] eqn:Eg; injection H as <-; try done. unfold ada, with_gov. cbn. by rewrite Eg.
Qed.

(** What the reaping refunds is what the reaped pools had paid. *)
Lemma reap_ada d p e deposit : coins_ok (rewards d) -> 0 <= deposit -> ordered (pools p) ->
  (forall x, x ∈ pools p \/ x ∈ future_pools p -> account_ok (snd x)) ->
  sum_of (rewards d) + deposit * blen (pools p) <= u64_max ->
  let '(d', p', t) := boundary_pool_reap d p e deposit in
  coins_ok (rewards d') /\ 0 <= t /\ sum_of (rewards d') + t + deposit * blen (pools p') = sum_of (rewards d) + deposit * blen (pools p).
Proof.
  intros Hr Hd Ho Ha Hu. unfold boundary_pool_reap. destruct (adopt_keeps (future_pools p) (pools p) Ho) as (O1 & L1 & G1).
  set (active := fold_left adopt_pool (future_pools p) (pools p)) in *. set (ids := elements (retired_pools p e)).
  assert (NoDup ids) as Hnd by apply elements_nodup, set_of_ordered.
  assert (forall i q, bt_get active i = Some q -> account_ok q) as Hacc.
  { intros i q Hq. apply (Ha (i, q)). apply G1 in Hq as [Hq|?]; [left; by apply get_elem|by right]. }
  pose proof (length_remove_all ids active O1 Hnd) as Hlen.
  assert (sum_Z (map (refund active deposit) ids) = deposit * Z.of_nat (length (List.filter (bt_contains active) ids))) as Hsum.
  { clear. induction ids as [|i ids IH]; [cbn; nia|]. cbn [map List.filter]. rewrite sum_cons, IH. unfold refund. destruct (bt_contains active i); cbn [length]; nia. }
  unfold blen in *. pose proof (payout (refund active deposit) (refund_step d active deposit)) as Hpay.
  specialize (Hpay ltac:(intros b t x H1 H2 H3 H4; by apply refund_pays) ids (rewards d) 0 Hr ltac:(lia)).
  destruct (fold_left (refund_step d active deposit) ids (rewards d, 0)) as [balances t].
  destruct Hpay as (H1 & H2 & H3).
  - apply Forall_forall. intros i _. unfold refund. by destruct (bt_contains active i).
  - rewrite Hsum. nia.
  - cbn [rewards pools]. split; [done|]. split; [done|]. unfold remove_all. rewrite Hsum in H3. rewrite L1 in Hlen. rewrite Hlen, Nat2Z.inj_add. lia.
Qed.

(** * The whole boundary *)

(** A plan comes from the record's decision. *)
Lemma consumed s c g e plan : consume_ratification s c g e = Ok (Some plan) ->
  exists g' r d reg, g = Some g' /\ ratification g' = Recorded r /\ outcome r = Decided d /\ apply_decision reg d (proposals g') = Ok plan.
Proof.
  unfold consume_ratification. destruct (is_conway _); [|done]. destruct g as [g'|]; [|done]. intros H. apply rbind_ok_inv in H as (r & Hr & H).
  apply rbind_ok_inv in H as (plan' & Hp & H). injection H as <-. destruct (ratification g') as [|r'] eqn:Er; [done|]. injection Hr as ->.
  unfold apply_ratification_record in Hp. destruct (negb _); [done|]. destruct (outcome r) as [d|] eqn:Ed; [|done]. by exists g', r, d, (bt_contains (registrations (delegation c))).
Qed.

Lemma governance_ada s c g e plan balances : consume_ratification s c g e = Ok plan -> coins_ok balances ->
  (forall g', g = Some g' -> Forall (fun p => 0 <= gs_deposit p) (proposals g')) -> sum_of balances + gov_ada g <= u64_max ->
  let '(g', balances', t) := apply_governance_plan g plan balances in
  coins_ok balances' /\ 0 <= t /\ 0 <= gov_ada g' /\ sum_of balances' + t + gov_ada g' = sum_of balances + gov_ada g.
Proof.
  intros Hc Hb Hg Hu.
  assert (0 <= gov_ada g) as H0 by (destruct g as [g'|]; [|done]; apply sum_nonneg, Forall_map; by apply Hg).
  unfold apply_governance_plan. destruct g as [g'|]; [|split; [done|lia]]. destruct plan as [plan|]; [|split; [done|lia]].
  apply consumed in Hc as (g1 & r & d & reg & [= <-] & _ & _ & Hp). destruct (apply_decision_deposits _ _ _ _ Hp) as [Hsum Hnn].
  destruct (Hnn (Hg g' eq_refl)) as [N1 N2]. cbn [gov_ada] in Hu.
  assert (0 <= sum_Z (map gs_deposit (plan_proposals plan))) as N3 by (apply sum_nonneg, Forall_map; exact N1).
  pose proof (payout returned_amount return_step ltac:(intros b t x H1 H2 H3 H4; by apply return_pays) (deposit_returns plan) balances 0 Hb ltac:(lia) N2 ltac:(lia)) as Hpay.
  destruct (fold_left return_step (deposit_returns plan) (balances, 0)) as [b t]. destruct Hpay as (P1 & P2 & P3).
  split; [done|]. split; [done|]. cbn [gov_ada governance_after proposals]. split; [done|lia].
Qed.

(** The parameters the boundary installs. *)
Definition next_params (pp : ProtocolParameters) (plan : option ConwayGovernanceEpochPlan) : ProtocolParameters :=
  match plan with Some plan => match plan_pparams plan with PParams_Set new => new | PParams_Unchanged => pp end | None => pp end.

Lemma next_params_deposit s c g e plan : consume_ratification s c g e = Ok plan ->
  (forall g' r, g = Some g' -> ratification g' = Recorded r -> record_ok (protocol_params s) r) ->
  pool_deposit (next_params (protocol_params s) plan) = pool_deposit (protocol_params s).
Proof.
  intros Hc Hr. destruct plan as [plan|]; [|done]. apply consumed in Hc as (g' & r & d & reg & -> & Er & Ed & Hp).
  destruct (apply_decision_parts _ _ _ _ Hp) as (_ & _ & _ & Hpp & _). unfold next_params. rewrite Hpp.
  destruct (enacted d) as [en|] eqn:Een; [|done]. destruct (Hr g' r eq_refl Er d Ed) as [_ Hlim]. by destruct (Hlim en Een) as [-> _].
Qed.

Lemma reward_env_ok s snaps c g reg pot : ledger_ok s snaps c g -> 0 <= pot <= u64_max ->
  let env := boundary_reward_env s snaps reg pot in
  (0 < re_total_stake env -> 0 < re_active_stake env -> 0 < pool_reward_pot env -> env_ok env) /\
  sum_Z (map snd (re_blocks env)) = re_total_blocks env /\
  (forall id S, bt_get (pool_stakes (re_go env)) id = Some S -> S <= re_total_stake env).
Proof.
  intros [Hpv _ _ Ha Hk _ (Hr & _) _ _ [[Hbo Hbn] Hbs] Hgo Hst [Hms _] _] Hpot. unfold boundary_reward_env. cbn.
  rewrite (proj2 (Z.ltb_ge _ 4)) by done. set (go := go snaps) in *. set (R := reserves (epoch_state (rest s))) in *.
  assert (Forall (Z.le 0) (map snd (pool_stakes go))) as Hnn.
  { apply Forall_map, Forall_forall. intros [id S] Hin. cbn. apply get_elem in Hin; [|by apply Hgo]. apply (so_sums _ Hgo) in Hin as ->.
    apply sum_nonneg, Forall_map. eapply Forall_impl; [by apply delegated_nonneg|]. by intros. }
  pose proof (sum_nonneg _ Hnn) as Hs0. assert (saturating_sub (max_lovelace_supply (rest s)) R = max_lovelace_supply (rest s) - R) as ->
    by (unfold saturating_sub; lia).
  assert (sum_u64 (map snd (block_production (epoch_state (rest s)))) = sum_of (block_production (epoch_state (rest s)))) as Eb.
  { unfold sum_u64. rewrite <- sum_of_map. unfold as_u64. apply Z.mod_small. pose proof (coins_nonneg _ (conj Hbo Hbn)). width. lia. }
  rewrite Eb. split; [|split].
  - intros HTS HA HP. constructor; cbn; [done|lia| | |done|done].
    + rewrite sat_fold_exact in HA |- * by (done || lia). lia.
    + split; [by apply coins_nonneg|done].
  - by rewrite sum_of_map.
  - intros id S Hin. etransitivity; [|exact Hst]. apply get_elem in Hin; [|by apply Hgo]. clear -Hin Hnn.
    induction (pool_stakes go) as [|x l IH]; [by apply elem_of_nil in Hin|]. cbn [map] in *. apply Forall_cons in Hnn as [Hx Hl]. rewrite sum_cons.
    apply elem_of_cons in Hin as [<-|Hin]; [pose proof (sum_nonneg _ Hl); cbn in *; lia|]. specialize (IH Hl Hin). cbn in *. lia.
Qed.

(** What the reserves give and what the treasury takes of it. *)
Definition expansion (s : Ledger) (slots : Z) : Z :=
  let es := epoch_state (rest s) in
  boundary_delta_r1 (reserves es) (monetary_expansion (protocol_params s))
    (boundary_eta (decentralization (protocol_params s)) (sum_u64 (map snd (block_production es))) slots).
Definition total_to_share (s : Ledger) (slots : Z) : Z := saturating_add (expansion s slots) (epoch_fees (epoch_state (rest s))).
Definition treasury_cut (s : Ledger) (slots : Z) : Z := boundary_treasury_delta (total_to_share s slots) (treasury_growth (protocol_params s)).
Definition pot_of (s : Ledger) (slots : Z) : Z := saturating_sub (total_to_share s slots) (treasury_cut s slots).

(** The parts of [ada] and their ranges. *)
Lemma ada_parts s snaps c g : ledger_ok s snaps c g -> cert_state s = Authoritative c -> gov_state (rest s) = Gov_Authoritative g ->
  ada s = pots (epoch_state (rest s)) + cert_ada (pool_deposit (protocol_params s)) c + gov_ada g /\
  0 <= sum_of (rewards (delegation c)) /\ 0 <= pool_deposit (protocol_params s) * blen (pools (pool c)) /\ 0 <= gov_ada g.
Proof.
  intros Hl Ec Eg. split; [unfold ada; by rewrite Ec, Eg|]. split; [apply coins_nonneg, Hl|]. split.
  - pose proof (lk_deposit _ _ _ _ Hl). unfold blen. nia.
  - destruct g as [g'|]; [|done]. apply sum_nonneg, Forall_map. by apply (lk_gov _ _ _ _ Hl).
Qed.

Lemma pot_exact s snaps c g slots : ledger_ok s snaps c g -> cert_state s = Authoritative c -> gov_state (rest s) = Gov_Authoritative g ->
  let es := epoch_state (rest s) in
  0 <= expansion s slots <= reserves es /\ total_to_share s slots = expansion s slots + epoch_fees es /\
  0 <= treasury_cut s slots /\ 0 <= pot_of s slots /\ pot_of s slots = expansion s slots + epoch_fees es - treasury_cut s slots /\
  sum_of (rewards (delegation c)) + pot_of s slots <= u64_max.
Proof.
  intros Hl Ec Eg es. destruct (ada_parts _ _ _ _ Hl Ec Eg) as (Ea & R0 & D0 & G0). pose proof (proj2 (lk_supply _ _ _ _ Hl)) as Hsup.
  destruct (lk_pots _ _ _ _ Hl) as (P1 & P2 & P3 & P4). rewrite Ea in Hsup. unfold pots, cert_ada in Hsup. fold es in P1, P2, P3, P4, Hsup.
  assert (0 <= sum_u64 (map snd (block_production es))) as Hsb by (unfold sum_u64, as_u64; apply Z.mod_pos_bound; lia).
  assert (0 <= expansion s slots <= reserves es) as HE
    by (apply delta_r1_bound; [subst es; lia|apply Hl|by apply eta_unit]).
  assert (total_to_share s slots = expansion s slots + epoch_fees es) as ET by (apply to_treasury; lia).
  assert (0 <= treasury_cut s slots <= total_to_share s slots) as HT
    by (unfold treasury_cut; apply treasury_bound; [lia|exact (lk_tau _ _ _ _ Hl)]).
  assert (pot_of s slots = total_to_share s slots - treasury_cut s slots) as EP by (unfold pot_of, saturating_sub; lia).
  split; [done|]. split; [done|]. lia.
Qed.

(** The accounts and the treasury receive the rewards, which the pot covers. *)
Lemma rewards_paid s snaps c g reg pot paid : ledger_ok s snaps c g -> 0 <= pot -> sum_of (rewards (delegation c)) + pot <= u64_max ->
  compute_rewards (boundary_reward_env s snaps reg pot) = Ok paid ->
  let D := sum_of (reward_deltas paid) in
  0 <= D <= pot /\ saturating_add (total_pool_rewards paid) (total_member_rewards paid) = D /\
  let '(balances, t) := fold_left (pay_step reg) (reward_deltas paid) (rewards (delegation c), 0) in
  coins_ok balances /\ 0 <= t /\ sum_of balances + t = sum_of (rewards (delegation c)) + D.
Proof.
  intros Hl Hpot Hsum Hpaid. pose proof (coins_nonneg _ (lk_rewards _ _ _ _ Hl)) as R0.
  destruct (reward_env_ok s snaps c g reg pot Hl ltac:(lia)) as (E1 & E2 & E3).
  destruct (rewards_within_pot _ paid E1) as [[W1 W2 W3 W4] W5]; try done; [apply Hl|apply Hl|apply Hl|apply Hl|].
  change (pool_reward_pot _) with pot in W5. pose proof (coins_nonneg _ W1) as W0.
  split; [done|]. split; [rewrite to_treasury; lia|]. rewrite sum_of_map in W4, W5, W0 |- *.
  pose proof (payout snd (pay_step reg) ltac:(intros b t x H1 H2 H3 H4; by apply pay_pays) (reward_deltas paid) (rewards (delegation c)) 0
    (lk_rewards _ _ _ _ Hl) ltac:(lia) (proj2 W1) ltac:(lia)) as Hpay.
  destruct (fold_left (pay_step reg) _ _). by rewrite Z.add_0_r in Hpay.
Qed.

(** One boundary, step by step. *)
Record boundary_run (s : Ledger) (e : Z) (override : option (BTreeSet StakeCredential)) (base : option BoundaryBaseStake) (slots : Z)
    (next : Ledger) (snaps : SnapshotState) (c : CertState) (g : option GovState) : Prop := mk_boundary_run {
  run_snaps : snapshots (epoch_state (rest s)) = Snapshots_Authoritative snaps;
  run_cert : cert_state s = Authoritative c;
  run_gov : gov_state (rest s) = Gov_Authoritative g;
  run_steps : exists plan paid balances t2 d p t3 g' balances' t4 rotated treasury',
    consume_ratification s c g e = Ok plan /\
    compute_rewards (boundary_reward_env s snaps (is_registered_at override c) (pot_of s slots)) = Ok paid /\
    fold_left (pay_step (is_registered_at override c)) (reward_deltas paid) (rewards (delegation c), 0) = (balances, t2) /\
    boundary_pool_reap (mk_DelegationState (registrations (delegation c)) (delegations (delegation c)) balances) (pool c) e
      (pool_deposit (protocol_params s)) = (d, p, t3) /\
    apply_governance_plan g plan (rewards d) = (g', balances', t4) /\
    let es := epoch_state (rest s) in
    checked_add (saturating_add (saturating_add (saturating_add (saturating_add (treasury es) (treasury_cut s slots)) t2) t3) t4)
      (donation_pot es) = Some treasury' /\
    epoch_state (rest next) = mk_EpochState e (es_slot es) rotated
      (saturating_add (saturating_sub (reserves es) (expansion s slots))
         (saturating_sub (pot_of s slots) (saturating_add (total_pool_rewards paid) (total_member_rewards paid)))) treasury' [] 0 0 /\
    cert_state next = Authoritative (mk_CertState (mk_DelegationState (registrations d) (delegations d) balances') p) /\
    gov_state (rest next) = Gov_Authoritative g' /\ protocol_params next = next_params (protocol_params s) plan;
}.

Lemma boundary_runs s e override base slots s' acc : apply_epoch_boundary_with_registrations s e override base slots = Ok (s', acc) ->
  exists next snaps c g delegated, boundary_run s e override base slots next snaps c g /\ freeze_ratification next base delegated = Ok s'.
Proof.
  intros H. unfold apply_epoch_boundary_with_registrations in H. cbv zeta in H.
  apply rbind_ok_inv in H as (snaps & Hsn & H). apply rbind_ok_inv in H as (c & Hc & H). apply rbind_ok_inv in H as (g & Hg & H).
  apply rbind_ok_inv in H as (plan & Hplan & H). apply rbind_ok_inv in H as (paid & Hpaid & H).
  destruct (fold_left (pay_step _) _ _) as [balances t2] eqn:Epay. apply rbind_ok_inv in H as (new_mark & _ & H).
  destruct (boundary_pool_reap _ _ _ _) as [[d p] t3] eqn:Ereap. destruct (apply_governance_plan _ _ _) as [[g' balances'] t4] eqn:Egov.
  apply rbind_ok_inv in H as (treasury' & Ht & H). apply rbind_ok_inv in H as (s1 & Hf & H). injection H as <- _.
  eexists _, snaps, c, g, _. split; [|exact Hf]. clear Hf. split.
  - destruct (snapshots _); [by injection Hsn as <-|done].
  - unfold require_cert in Hc. destruct (cert_state s); [by injection Hc as <-|done].
  - unfold require_gov in Hg. destruct (gov_state (rest s)); [by injection Hg as <-|done].
  - exists plan, paid, balances, t2, d, p, t3, g', balances', t4, (Snapshots_Authoritative (rotate_snapshots snaps new_mark)), treasury'.
    unfold pot_of, treasury_cut, total_to_share, expansion. cbv zeta. destruct (checked_add _ _); [injection Ht as ->|done].
    by repeat split.
Qed.

(** C10. A boundary that goes through neither creates nor destroys ADA: the reserves, the treasury, the
    fees, the donations, the balances of the accounts and the deposits of the pools and of the proposals
    add up to what they did before, through the expansion, the rewards, the pool reaping, the refunds and
    the treasury's share.  Hypotheses ([ledger_ok]): the protocol is Mary's or later, the expansion and
    treasury rates lie in the unit interval, the pledge influence is a non-negative ratio, the desired
    number of pools fits [u32], the amounts are not negative, every pool has a margin of at most one and
    the accounts of the registered pools are spelled right, the snapshot's stakes lie within the
    circulating supply, the blocks made fit [u32], all the ADA and the supply fit [u64], and a recorded
    decision changes only the limits and the minimum pool cost.  The margin is not checked by the code:
    in [margin_above_one_creates_ada] (EpochExamples) a larger one creates ADA. *)
Theorem boundary_conserves_ada s e override base slots s' acc :
  (forall snaps c g, snapshots (epoch_state (rest s)) = Snapshots_Authoritative snaps -> cert_state s = Authoritative c ->
     gov_state (rest s) = Gov_Authoritative g -> ledger_ok s snaps c g) ->
  apply_epoch_boundary_with_registrations s e override base slots = Ok (s', acc) -> ada s' = ada s.
Proof.
  intros Hok H. apply boundary_runs in H as (next & snaps & c & g & del & [Hsn Hc Hg (plan & paid & balances & t2 & d & p & t3 & g' & balances' & t4 & rot & tr' & Hplan & Hpaid & Epay & Ereap & Egov & Ht & Hes & Hc' & Hg' & Hpp)] & Hf).
  apply freeze_ada in Hf as ->. specialize (Hok snaps c g Hsn Hc Hg).
  destruct (pot_exact s snaps c g slots Hok Hc Hg) as (HE & ET & HT & HP & EP & UP). destruct (ada_parts _ _ _ _ Hok Hc Hg) as (Ea & R0 & D0 & G0).
  destruct (rewards_paid s snaps c g _ (pot_of s slots) paid Hok HP UP Hpaid) as (HD & ED & Hpay). rewrite Epay in Hpay. destruct Hpay as (B1 & B2 & B3).
  destruct (lk_pots _ _ _ _ Hok) as (P1 & P2 & P3 & P4). pose proof (proj2 (lk_supply _ _ _ _ Hok)) as Hsup. rewrite Ea in Hsup.
  unfold pots, cert_ada in Hsup, Ea. destruct (lk_pools _ _ _ _ Hok) as [Hord Hacc].
  pose proof (reap_ada (mk_DelegationState (registrations (delegation c)) (delegations (delegation c)) balances) _ e _ B1 (lk_deposit _ _ _ _ Hok) Hord Hacc) as Hreap. cbn [rewards] in Hreap. specialize (Hreap ltac:(lia)).
  rewrite Ereap in Hreap. destruct Hreap as (C1 & C2 & C3).
  assert (0 <= pool_deposit (protocol_params s) * blen (pools p)) as C4 by (pose proof (lk_deposit _ _ _ _ Hok); unfold blen; nia).
  pose proof (governance_ada s c g e plan (rewards d) Hplan C1 (fun g1 H1 => proj1 (lk_gov _ _ _ _ Hok g1 H1)) ltac:(lia)) as Hgov.
  rewrite Egov in Hgov. destruct Hgov as (G1 & G2 & G3 & G4).
  rewrite Ea. unfold ada. rewrite Hes, Hc', Hg', Hpp. rewrite (next_params_deposit s c g e plan Hplan) by (intros g1 r H1; by apply (lk_gov _ _ _ _ Hok g1 H1)).
  unfold pots, cert_ada. cbn [reserves treasury epoch_fees donation_pot rewards pools delegation pool].
  apply checked_add_some in Ht as [-> _]. rewrite ED. pose proof (coins_nonneg _ G1). pose proof (coins_nonneg _ C1). unfold saturating_add, saturating_sub. lia.
Qed.

(** * The mark *)

Section Entries.
Context {K V W : Type} `{TotalOrder K} (f : K * V -> option (K * W)).
Hypothesis f_key : forall e e', f e = Some e' -> fst e' = fst e.
Implicit Types m : BTreeMap K V.

Lemma omap_above m k : Forall (fun x => cmp k (fst x) = Lt) m -> Forall (fun x => cmp k (fst x) = Lt) (omap f m).
Proof.
  induction m as [|e m IH]; [constructor|]. intros [He Hm]%Forall_cons. cbn. destruct (f e) as [e'|] eqn:E; [|by apply IH].
  apply Forall_cons. split; [by rewrite (f_key _ _ E)|by apply IH].
Qed.

(** Entries kept under their keys. *)
Lemma omap_ordered m : ordered m -> ordered (omap f m).
Proof.
  induction m as [|[k v] m IH]; [constructor|]. intros [Ho Hk]%ordered_cons. cbn. destruct (f (k, v)) as [[k' w]|] eqn:E; [|by apply IH].
  apply f_key in E. cbn in E. subst k'. apply ordered_cons. split; [by apply IH|by apply omap_above].
Qed.

Lemma get_omap m k : ordered m -> bt_get (omap f m) k = v ← bt_get m k; snd <$> f (k, v).
Proof.
  induction m as [|[k' v] m IH]; [done|]. intros [Ho Hk]%ordered_cons. specialize (IH Ho). cbn.
  destruct (cmp k k') eqn:Ec; cbn.
  - apply cmp_eq in Ec as ->. destruct (f (k', v)) as [[k'' w]|] eqn:E; cbn.
    + apply f_key in E. cbn in E. subst k''. by rewrite cmp_refl.
    + by apply get_above, omap_above.
  - destruct (f (k', v)) as [[k'' w]|] eqn:E; cbn; [|exact IH]. apply f_key in E. cbn in E. subst k''. by rewrite Ec.
  - destruct (f (k', v)) as [[k'' w]|] eqn:E; cbn; [|exact IH]. apply f_key in E. cbn in E. subst k''. by rewrite Ec.
Qed.
End Entries.

(** The entry of one delegation: nothing where there is no stake. *)
Definition mark_entry (base rewards : BTreeMap StakeCredential Coin) (e : StakeCredential * PoolId) : option (StakeCredential * (PoolId * Coin)) :=
  let stake := saturating_add (coin_at base (fst e)) (coin_at rewards (fst e)) in
  if stake =? 0 then None else Some (fst e, (snd e, stake)).
Definition credit_entry (m : BTreeMap PoolId Coin) (e : StakeCredential * (PoolId * Coin)) : BTreeMap PoolId Coin :=
  credit m (fst (snd e)) (snd (snd e)).

Lemma omap_next {A B} (g : A -> option B) x l : omap g (x :: l) = match g x with Some y => y :: omap g l | None => omap g l end.
Proof. done. Qed.

Lemma mark_step_entry base rewards ds ps e : mark_step base rewards (ds, ps) e =
  match mark_entry base rewards e with Some e' => (bt_insert ds (fst e') (snd e'), credit_entry ps e') | None => (ds, ps) end.
Proof. destruct e as [cred id]. unfold mark_step, mark_entry. cbn [fst snd]. by destruct (_ =? 0). Qed.

Lemma mark_fold base rewards l : forall ds ps, fold_left (mark_step base rewards) l (ds, ps) =
  (fold_left (fun m e => bt_insert m (fst e) (snd e)) (omap (mark_entry base rewards) l) ds,
   fold_left credit_entry (omap (mark_entry base rewards) l) ps).
Proof.
  induction l as [|e l IH]; [done|]. intros ds ps. cbn [fold_left]. rewrite mark_step_entry, omap_next.
  destruct (mark_entry base rewards e); apply IH.
Qed.

Lemma mark_entry_key base rewards e e' : mark_entry base rewards e = Some e' -> fst e' = fst e.
Proof. unfold mark_entry. destruct (_ =? 0); [done|]. by intros [= <-]. Qed.

Definition stake_in (l : list (StakeCredential * (PoolId * Coin))) (id : PoolId) : list Z :=
  map (fun e => snd (snd e)) (List.filter (fun e => bool_decide (fst (snd e) = id)) l).

(** Coins credited one after another: every key has the sum of its own. *)
Lemma credits_exact l : forall ps, coins_ok ps -> Forall (fun e => 0 <= snd (snd e)) l ->
  sum_of ps + sum_Z (map (fun e => snd (snd e)) l) <= u64_max ->
  let ps' := fold_left credit_entry l ps in
  coins_ok ps' /\ sum_of ps' = sum_of ps + sum_Z (map (fun e => snd (snd e)) l) /\
  forall id, bt_get ps' id = match stake_in l id with [] => bt_get ps id | vs => Some (default 0 (bt_get ps id) + sum_Z vs) end.
Proof.
  induction l as [|[cred [id v]] l IH]; intros ps Hps Hl Hu; [split; [done|]; split; [cbn [fold_left map]; change (sum_Z []) with 0; lia|done]|].
  apply Forall_cons in Hl as [Hv Hl]. cbn [map fst snd] in *. rewrite sum_cons in *.
  assert (0 <= sum_Z (map (fun e : StakeCredential * (PoolId * Coin) => snd (snd e)) l)) as Hnn by (apply sum_nonneg, Forall_map; exact Hl).
  destruct (credit_exact ps id v Hps Hv ltac:(lia)) as [Hok Hsum]. cbn [fold_left]. change (credit_entry ps _) with (credit ps id v).
  destruct (IH (credit ps id v) Hok Hl ltac:(lia)) as (H1 & H2 & H3). split; [done|]. split; [lia|]. intros k. rewrite H3.
  unfold stake_in. cbn [List.filter map fst snd]. fold (stake_in l k).
  assert (default 0 (bt_get ps id) + v <= u64_max) as Hfit.
  { pose proof (coins_nonneg _ Hps). destruct (bt_get ps id) as [c|] eqn:E; cbn; [|lia]. destruct (coins_get ps id c Hps E). lia. }
  unfold credit. destruct (decide (id = k)) as [<-|Hne].
  - rewrite bool_decide_eq_true_2, get_insert by done. cbn [map snd fst]. rewrite sum_cons.
    assert (saturating_add (default 0 (bt_get ps id)) v = default 0 (bt_get ps id) + v) as -> by (unfold saturating_add; by rewrite Z.min_l).
    fold (stake_in l id). destruct (stake_in l id); cbn [from_option]; unfold Datatypes.id; f_equal; [change (sum_Z []) with 0|]; lia.
  - rewrite bool_decide_eq_false_2, get_insert_ne by done. fold (stake_in l k). by destruct (stake_in l k).
Qed.

Lemma coin_at_bound m cred : coins_ok m -> 0 <= coin_at m cred <= sum_of m.
Proof.
  intros Hm. unfold coin_at. destruct (bt_get m cred) eqn:E; cbn [from_option]; [by apply (coins_get m cred)|]. split; [done|by apply coins_nonneg].
Qed.

(** The stake of delegators is part of what they have in outputs and in accounts. *)
Lemma looked_up_le m ks : coins_ok m -> NoDup ks -> sum_Z (map (coin_at m) ks) <= sum_of m.
Proof. intros Hm Hk. exact (proj2 (lookup_le m ks Hm Hk)). Qed.

Lemma mark_total base rewards l : coins_ok base -> coins_ok rewards -> sum_of base + sum_of rewards <= u64_max ->
  Forall (fun e => 0 <= snd (snd e)) (omap (mark_entry base rewards) l) /\
  sum_Z (map (fun e => snd (snd e)) (omap (mark_entry base rewards) l)) =
    sum_Z (map (coin_at base) (map fst l)) + sum_Z (map (coin_at rewards) (map fst l)).
Proof.
  intros Hb Hr Hu. induction l as [|e l [IH1 IH2]]; [by split; [constructor|]|]. rewrite omap_next. cbn [map]. rewrite !sum_cons.
  pose proof (coin_at_bound base (fst e) Hb). pose proof (coin_at_bound rewards (fst e) Hr).
  destruct (mark_entry base rewards e) as [e'|] eqn:Em; unfold mark_entry in Em; rewrite to_treasury in Em by lia; revert Em;
    destruct (Z.eqb_spec (coin_at base (fst e) + coin_at rewards (fst e)) 0) as [E|E]; intros Em; try done; [|split; [done|lia]].
  injection Em as <-. cbn [map snd]. rewrite sum_cons. split; [apply Forall_cons; split; [cbn [snd]; lia|done]|lia].
Qed.

(** A pool as it is registered: a margin that is a fraction. *)
Definition registered_ok (p : PoolParams) : Prop :=
  0 <= pledge p <= u64_max /\ 0 <= pool_cost p <= u64_max /\
  0 <= fst (pool_margin p) /\ 0 <= snd (pool_margin p) /\ (snd (pool_margin p) = 0 \/ fst (pool_margin p) <= snd (pool_margin p)).

Lemma frozen_key delegations e e' : frozen_params delegations e = Some e' -> fst e' = fst e.
Proof. destruct e as [k p]. unfold frozen_params. destruct (reward_account_credential _); [|done]. by intros [= <-]. Qed.

Lemma frozen_params_exact pools delegations id : ordered pools ->
  bt_get (snapshot_pool_params pools delegations) id = p ← bt_get pools id; snd <$> frozen_params delegations (id, p).
Proof.
  intros Ho. unfold snapshot_pool_params. rewrite map_of_ordered by (apply omap_ordered; [apply frozen_key|done]).
  apply get_omap; [apply frozen_key|done].
Qed.

Lemma frozen_ok delegations id p q : registered_ok p -> frozen_params delegations (id, p) = Some (id, q) -> pool_params_ok q /\
  reward_account_credential (pool_reward_account p) = Some (sp_reward_account q) /\
  sp_pledge q = pledge p /\ sp_cost q = pool_cost p /\ sp_margin q = pool_margin p /\
  forall h, set_contains (self_delegated_owners q) h = true <-> h ∈ owners p /\ bt_get delegations (KeyHash h) = Some id.
Proof.
  intros (H1 & H2 & H3 & H4 & H5). unfold frozen_params. destruct (reward_account_credential _) as [acct|]; [|done]. intros [= <-]. cbn.
  split; [repeat (split; [done|]); apply set_of_ordered|]. repeat (split; [done|]). intros h.
  unfold set_of. rewrite extend_contains. cbn. rewrite orb_false_r, bool_decide_eq_true, filter_in, bool_decide_eq_true. done.
Qed.

Lemma stake_in_delegated s id : map snd (delegated s id) = stake_in (stake_delegations s) id.
Proof. unfold delegated, stake_in. by rewrite map_map. Qed.

Lemma mark_shape base d pools : ordered (delegations d) ->
  let m := build_boundary_mark_snapshot base d pools in
  stake_delegations m = omap (M:=list) (mark_entry (canonical_credential_stake base) (rewards d)) (delegations d) /\
  ordered (stake_delegations m) /\ pool_stakes m = fold_left credit_entry (stake_delegations m) [] /\
  pool_params m = snapshot_pool_params pools (delegations d).
Proof.
  intros Ho. unfold build_boundary_mark_snapshot. rewrite mark_fold.
  set (ds := omap (M:=list) _ (delegations d)). assert (ordered ds) as Hds by (apply omap_ordered; [apply mark_entry_key|done]).
  change (fold_left (fun m e => bt_insert m (fst e) (snd e)) ds []) with (map_of ds). rewrite map_of_ordered by done. done.
Qed.

(** C14. The mark.  Its entries are the delegators with stake, each with its pool and all it has in outputs
    and in its account; a pool's stake is the sum of its delegators', and only pools with stake are
    listed; the pools' parameters are those of every registered pool whose reward account is well
    formed, its owners those delegated to it.  What it says of the pools is consistent, which is what
    the rewards two epochs later rely on. *)
Theorem mark_exact base d pools :
  let B := canonical_credential_stake base in
  coins_ok B -> coins_ok (rewards d) -> sum_of B + sum_of (rewards d) <= u64_max -> ordered (delegations d) -> ordered pools ->
  (forall id p, bt_get pools id = Some p -> registered_ok p) ->
  let m := build_boundary_mark_snapshot base d pools in
  snapshot_ok m /\
  (forall cred, bt_get (stake_delegations m) cred =
     id ← bt_get (delegations d) cred;
     if coin_at B cred + coin_at (rewards d) cred =? 0 then None else Some (id, coin_at B cred + coin_at (rewards d) cred)) /\
  (forall id, bt_contains (pool_stakes m) id = true <-> exists cred stake, bt_get (stake_delegations m) cred = Some (id, stake)) /\
  sum_Z (map snd (pool_stakes m)) = sum_Z (map (fun e => snd (snd e)) (stake_delegations m)) /\
  sum_Z (map snd (pool_stakes m)) <= sum_of B + sum_of (rewards d) /\
  (forall id, match bt_get (pool_params m) id with
              | Some q => exists p, bt_get pools id = Some p /\
                  reward_account_credential (pool_reward_account p) = Some (sp_reward_account q) /\
                  sp_pledge q = pledge p /\ sp_cost q = pool_cost p /\ sp_margin q = pool_margin p /\
                  forall h, set_contains (self_delegated_owners q) h = true <-> h ∈ owners p /\ bt_get (delegations d) (KeyHash h) = Some id
              | None => forall p, bt_get pools id = Some p -> reward_account_credential (pool_reward_account p) = None
              end).
Proof.
  intros B HB HR Hu Hd Hp Hreg m. destruct (mark_shape base d pools Hd) as (Eds & Ho & Eps & Epp). fold m B in Eds, Ho, Eps, Epp.
  destruct (mark_total B (rewards d) (delegations d) HB HR Hu) as [Hnn Htot]. rewrite <- Eds in Hnn, Htot.
  pose proof (looked_up_le B _ HB (keys_nodup _ Hd)). pose proof (looked_up_le (rewards d) _ HR (keys_nodup _ Hd)).
  destruct (credits_exact (stake_delegations m) [] ltac:(split; constructor) Hnn ltac:(change (sum_of []) with 0; lia)) as ([Co Cn] & Cs & Cg).
  rewrite <- Eps in Co, Cn, Cs, Cg. rewrite sum_of_map in Cs. change (sum_of []) with 0 in Cs.
  assert (forall id, match bt_get (pool_params m) id with
      | Some q => exists p, bt_get pools id = Some p /\ frozen_params (delegations d) (id, p) = Some (id, q)
      | None => forall p, bt_get pools id = Some p -> frozen_params (delegations d) (id, p) = None end) as Hpp.
  { intros id. rewrite Epp, frozen_params_exact by done. destruct (bt_get pools id) as [p|]; [|done]. cbn [mbind option_bind].
    destruct (frozen_params (delegations d) (id, p)) as [[i q]|] eqn:E; cbn [fmap option_fmap option_map snd]; [|by intros ? [= <-]]. pose proof (frozen_key _ _ _ E) as Ei. cbn in Ei. subst i. by exists p. }
  split; [constructor; [done..| | ]|split; [|split; [|split; [by rewrite Cs|split; [rewrite Cs; lia|]]]]].
  - intros id st Hg. rewrite Cg in Hg. rewrite stake_in_delegated. cbn in Hg. destruct (stake_in _ id); [done|by injection Hg as <-].
  - intros id q Hq. specialize (Hpp id). rewrite Hq in Hpp. destruct Hpp as (p & Hid & Hf). exact (proj1 (frozen_ok _ _ _ _ (Hreg _ _ Hid) Hf)).
  - intros cred. rewrite Eds, get_omap by (done || apply mark_entry_key). destruct (bt_get (delegations d) cred) as [id|]; [|done]. cbn.
    unfold mark_entry. cbn [fst snd]. pose proof (coin_at_bound B cred HB). pose proof (coin_at_bound (rewards d) cred HR).
    rewrite to_treasury by lia. by destruct (_ =? 0).
  - intros id. unfold bt_contains. rewrite Cg. cbn. split.
    + unfold stake_in. destruct (List.filter _ _) as [|[cred [i st]] l] eqn:E; [done|]. intros _. exists cred, st. apply get_elem; [done|].
      assert ((cred, (i, st)) ∈ List.filter (fun e => bool_decide (fst (snd e) = id)) (stake_delegations m)) as Hin by (rewrite E; by left).
      apply filter_in in Hin as [Hin Hi]. by apply bool_decide_eq_true in Hi as <-.
    + intros (cred & st & Hg). apply get_elem in Hg; [|done]. destruct (stake_in _ id) eqn:E; [|done].
      assert (st ∈ stake_in (stake_delegations m) id) as Hin; [|rewrite E in Hin; by apply elem_of_nil in Hin].
      apply list_elem_of_fmap. exists (cred, (id, st)). split; [done|]. apply filter_in. split; [done|by apply bool_decide_eq_true].
  - intros id. specialize (Hpp id). destruct (bt_get (pool_params m) id) as [q|].
    + destruct Hpp as (p & Hid & Hf). exists p. split; [done|]. exact (proj2 (frozen_ok _ _ _ _ (Hreg _ _ Hid) Hf)).
    + intros p Hid. specialize (Hpp p Hid). unfold frozen_params in Hpp. by destruct (reward_account_credential _).
Qed.

(** * The reaping *)

(** The two reapings of the code agree: the boundary's, apart from the refunds it pays, is
    [apply_pool_reap]. *)
Lemma boundary_reap_refines d p e deposit : ordered (retiring p) ->
  let '(d', p', _) := boundary_pool_reap d p e deposit in
  apply_pool_reap (mk_CertState d p) e = mk_CertState (mk_DelegationState (registrations d') (delegations d') (rewards d)) p'.
Proof.
  intros Ho. unfold boundary_pool_reap, apply_pool_reap. cbn [delegation pool]. unfold retired_pools.
  set (due := List.filter (fun e0 => snd e0 =? e) (retiring p)). set (ids := map fst due).
  assert (elements (set_of ids) = ids) as ->.
  { assert (ordered (map (fun x => (fst x, tt)) due)) as Hs by apply (ordered_values (fun _ => tt)), ordered_filter, Ho.
    assert (elements (map (fun x => (fst x, tt)) due) = ids) as Hids by (unfold elements; by rewrite map_map).
    rewrite <- Hids at 1. by rewrite set_of_elements. }
  destruct (fold_left (refund_step _ _ _) ids _) as [balances t]. cbn [registrations delegations]. f_equal. f_equal.
  assert (forall id, set_contains (set_of ids) id = is_in ids id) as Hin
    by (intros id; unfold set_of; rewrite extend_contains, is_in_elem; apply orb_false_r).
  destruct (set_is_empty (set_of ids)) eqn:E.
  - assert (forall id, is_in ids id = false) as Hnone by (intros id; rewrite <- Hin; by destruct (set_of ids)).
    clear - Hnone. induction (delegations d) as [|x l IH]; [done|]. cbn. rewrite Hnone. cbn. by rewrite IH.
  - apply filter_ext. intros x. by rewrite Hin.
Qed.

(** * The votes *)

Lemma ratio_le n d y t : 0 < d -> 0 < t -> ((qz n) / (qz d) <= (qz y) / (qz t))%Q <-> n * t <= y * d.
Proof. intros Hd Ht. rewrite <- !frac_quotient by done. unfold Qle. cbn. by rewrite !Z2Pos.id. Qed.

(** The members in office, and how many of their hot keys said yes. *)
Definition in_office (members : BTreeMap StakeCredential Z) (epoch : Z) : list (StakeCredential * Z) :=
  List.filter (fun m => epoch <=? snd m) members.
Definition yes_votes (p : GovActionState) (members keys : _) (epoch : Z) : Z :=
  blen (List.filter (committee_yes keys (in_office members epoch)) (committee_votes p)).

(** The share of the committee is its quorum at least; with no member in office nothing is asked. *)
Definition committee_agrees (p : GovActionState) (members : BTreeMap StakeCredential Z) (quorum : Rational) (epoch : Z)
    (keys : BTreeMap StakeCredential StakeCredential) : Prop :=
  match action p with
  | NoConfidence _ | UpdateCommittee _ _ _ _ => True
  | _ => 0 < blen (in_office members epoch) -> (frac quorum <= (qz (yes_votes p members keys epoch)) / (qz (blen (in_office members epoch))))%Q
  end.

Lemma committee_exact p members quorum epoch keys : small quorum u64_max u64_max -> blen (committee_votes p) <= u32_max -> blen members <= u32_max ->
  committee_accepts p members quorum epoch keys = true <-> committee_agrees p members quorum epoch keys.
Proof.
  intros (Hq & Hn & Hd) Hv Hm. pose proof (ok_positive _ Hq). unfold committee_accepts, committee_agrees. fold (in_office members epoch).
  set (ask := 0 < blen (in_office members epoch) -> _).
  enough ((if true && negb (bool_decide (members = [])) then match in_office members epoch with [] => true | _ => _ end else true) = true <-> ask) as Hask
    by (destruct (action p); done || exact Hask).
  destruct (in_office members epoch) as [|m l] eqn:Eo.
  { subst ask. change (blen []) with 0. split; [lia|]. intros _. by destruct (_ && _). }
  rewrite bool_decide_eq_false_2 by (intros ->; done). cbn [andb negb]. subst ask.
  rewrite <- Eo. fold (yes_votes p members keys epoch).
  assert (0 < blen (in_office members epoch) <= blen members) as Ho.
  { unfold blen, in_office in *. rewrite Eo. split; [cbn; lia|]. rewrite <- Eo. pose proof (filter_length_le (fun m => epoch <=? snd m) members). lia. }
  assert (0 <= yes_votes p members keys epoch <= blen (committee_votes p)) as Hy.
  { unfold yes_votes, blen. pose proof (filter_length_le (committee_yes keys (in_office members epoch)) (committee_votes p)). lia. }
  destruct (new_small (yes_votes p members keys epoch) (blen (in_office members epoch)) rational_zero) as (q & -> & (Hq' & Hn' & Hd') & Hf); [lia..|].
  pose proof (ok_positive _ Hq'). assert (u32_max * u64_max <= i128_max) by (by vm_compute).
  assert (u32_max <= i128_max /\ u64_max <= i128_max /\ 0 <= u32_max) as (? & ? & ?) by (by vm_compute).
  assert (forall a b, 0 <= a <= u32_max -> 0 <= b <= u64_max -> - i128_max <= a * b <= i128_max) as Hprod by (intros; nia).
  unfold numerator, denominator, bigint_to_i128.
  rewrite !sat_i128_id, (mul_i128_id (num q)), (mul_i128_id (num quorum)) by first [lia|apply Hprod; lia|rewrite Z.mul_comm; apply Hprod; lia].
  rewrite negb_true_iff, Z.ltb_ge, <- Hf.
  unfold Qle, frac. cbn. rewrite !Z2Pos.id by done. split; [intros; lia|intros Hx; specialize (Hx ltac:(lia)); lia].
Qed.

(** The stake of those who voted so. *)
Definition stake_saying {V} (said : Vote -> bool) (stake_of : V -> Z) (votes : list (V * Vote)) : Z :=
  sum_Z (map (fun v => stake_of (fst v)) (List.filter (fun v => said (snd v)) votes)).

Lemma saying_bound {V} (said : Vote -> bool) (stake_of : V -> Z) votes : (forall v, 0 <= stake_of v) ->
  0 <= stake_saying said stake_of votes <= sum_Z (map stake_of (map fst votes)).
Proof.
  intros Hs. unfold stake_saying. induction votes as [|[v b] votes IH]; [done|]. cbn [map List.filter fst snd]. rewrite sum_cons.
  pose proof (Hs v). destruct (said b); cbn [map fst]; rewrite ?sum_cons; lia.
Qed.

Lemma saying_apart {V} (stake_of : V -> Z) votes : (forall v, 0 <= stake_of v) ->
  stake_saying is_yes stake_of votes + stake_saying is_no stake_of votes <= sum_Z (map stake_of (map fst votes)).
Proof.
  intros Hs. unfold stake_saying. induction votes as [|[v b] votes IH]; [done|]. cbn [map List.filter fst snd]. rewrite sum_cons.
  pose proof (Hs v). destruct b; cbn [is_yes is_no map fst]; rewrite ?sum_cons; lia.
Qed.

Definition drep_stake_of (active : DRepStakeDistribution) (cred : StakeCredential) : Z := from_option id 0 (bt_get active (voter_drep cred)).
Definition pool_stake_of (pools : BTreeMap PoolId Coin) (h : Hash28) : Z := from_option id 0 (bt_get pools h).

(** The yes stake is the threshold's share of the active stake. *)
Definition dreps_agree (p : GovActionState) (idx : option nat) (total : Z) (active : DRepStakeDistribution) (thresholds : list (Z * Z)) : Prop :=
  forall i n d, idx = Some i -> nth_error thresholds i = Some (n, d) -> 0 < d -> 0 < total ->
    ((qz n) / (qz d) <= (qz (stake_saying is_yes (drep_stake_of active) (drep_votes p))) / (qz total))%Q.

(** The yes stake is the threshold's share of the stake that said yes or no. *)
Definition pools_agree (p : GovActionState) (idx : option nat) (pools : BTreeMap PoolId Coin) (thresholds : list (Z * Z)) : Prop :=
  let yes := stake_saying is_yes (pool_stake_of pools) (spo_votes p) in
  let no := stake_saying is_no (pool_stake_of pools) (spo_votes p) in
  forall i n d, idx = Some i -> nth_error thresholds i = Some (n, d) -> 0 < d -> 0 < yes + no ->
    ((qz n) / (qz d) <= (qz yes) / (qz (yes + no)))%Q.

(** Everyone votes once and the stakes fit their width. *)
Record ballot_ok (p : GovActionState) (members : BTreeMap StakeCredential Z) (quorum : Rational) (active : DRepStakeDistribution)
    (pools : BTreeMap PoolId Coin) : Prop := mk_ballot_ok {
  bo_quorum : small quorum u64_max u64_max;
  bo_committee : blen (committee_votes p) <= u32_max /\ blen members <= u32_max;
  bo_dreps : NoDup (map fst (drep_votes p)) /\ coins_ok active /\ sum_of active <= u64_max;
  bo_pools : NoDup (map fst (spo_votes p)) /\ coins_ok pools /\ sum_of pools <= u64_max;
}.

Lemma lookup_nonneg {K} `{TotalOrder K} `{EqDecision K} (m : BTreeMap K Coin) k : coins_ok m -> 0 <= from_option id 0 (bt_get m k).
Proof. intros Hm. destruct (bt_get m k) eqn:E; [by apply (coins_get m k)|done]. Qed.

Lemma voted_exact {V} said (stake_of : V -> Z) votes : 0 <= stake_saying said stake_of votes <= u64_max -> voted said stake_of votes = stake_saying said stake_of votes.
Proof.
  intros H. change (as_u64 (stake_saying said stake_of votes) = stake_saying said stake_of votes).
  generalize dependent (stake_saying said stake_of votes). intros z Hz. unfold as_u64. apply Z.mod_small. revert Hz. width. lia.
Qed.

Lemma dreps_exact p idx total active thresholds : NoDup (map fst (drep_votes p)) -> coins_ok active -> sum_of active <= u64_max ->
  dreps_accept p idx total active thresholds = true <-> dreps_agree p idx total active thresholds.
Proof.
  intros Hnd Ha Hu. unfold dreps_accept, dreps_agree. destruct idx as [i|]; [|by split].
  destruct (nth_error thresholds i) as [[n d]|] eqn:E; [|by split; [intros _ j m e [= <-]; rewrite E|]].
  assert (0 <= stake_saying is_yes (drep_stake_of active) (drep_votes p) <= u64_max) as Hy.
  { pose proof (saying_bound is_yes (drep_stake_of active) (drep_votes p) (fun v => lookup_nonneg active (voter_drep v) Ha)) as Hb.
    pose proof (lookup_le active (map voter_drep (map fst (drep_votes p))) Ha) as Hl. rewrite (map_map voter_drep) in Hl. unfold drep_stake_of in *.
    enough (NoDup (map voter_drep (map fst (drep_votes p)))) as Hn by (specialize (Hl Hn); lia).
    apply NoDup_fmap_2; [|done]. intros [?|?] [?|?]; cbn; congruence. }
  change (voted is_yes _ (drep_votes p)) with (voted is_yes (drep_stake_of active) (drep_votes p)). rewrite voted_exact by done.
  destruct (Z.ltb_spec 0 total), (Z.ltb_spec 0 d); cbn [andb]; try (split; [intros _ j m e [= <-]; rewrite E; intros [= <- <-]; lia|done]).
  rewrite negb_true_iff, Z.ltb_ge, <- ratio_le by done. split.
  - intros Hle j m e [= <-]. rewrite E. by intros [= <- <-].
  - intros Hle. by apply (Hle i).
Qed.

Lemma pools_exact p idx pools thresholds : NoDup (map fst (spo_votes p)) -> coins_ok pools -> sum_of pools <= u64_max ->
  pools_accept p idx pools thresholds = true <-> pools_agree p idx pools thresholds.
Proof.
  intros Hnd Ha Hu. unfold pools_accept, pools_agree. destruct idx as [i|]; [|by split].
  destruct (nth_error thresholds i) as [[n d]|] eqn:E; [|by split; [intros _ j m e [= <-]; rewrite E|]].
  set (yes := stake_saying is_yes _ _). set (no := stake_saying is_no _ _).
  pose proof (fun v => lookup_nonneg pools v Ha) as Hnn.
  pose proof (saying_bound is_yes (pool_stake_of pools) (spo_votes p) Hnn) as Hy. pose proof (saying_bound is_no (pool_stake_of pools) (spo_votes p) Hnn) as Hn.
  pose proof (saying_apart (pool_stake_of pools) (spo_votes p) Hnn) as Hyn. pose proof (lookup_le pools (map fst (spo_votes p)) Ha Hnd) as Hl.
  change (fun k : PoolId => from_option id 0 (bt_get pools k)) with (pool_stake_of pools) in Hl. fold yes in Hy, Hyn. fold no in Hn, Hyn.
  change (voted is_yes _ (spo_votes p)) with (voted is_yes (pool_stake_of pools) (spo_votes p)).
  change (voted is_no _ (spo_votes p)) with (voted is_no (pool_stake_of pools) (spo_votes p)).
  assert (yes + no <= u64_max) as Hfit by exact (Z.le_trans _ _ _ Hyn (Z.le_trans _ _ _ (proj2 Hl) Hu)). clear Hl Hyn.
  destruct Hy as [Hy _], Hn as [Hn _].
  rewrite !voted_exact by (fold yes no; lia). fold yes no. assert (as_u64 (yes + no) = yes + no) as -> by (unfold as_u64; apply Z.mod_small; width; lia).
  destruct (Z.ltb_spec 0 d); [|split; [intros _ j m e [= <-]; rewrite E; intros [= <- <-]; lia|done]].
  destruct (Z.ltb_spec 0 (yes + no)); [|split; [intros _ j m e [= <-]; rewrite E; intros [= <- <-]; lia|done]].
  rewrite negb_true_iff, Z.ltb_ge, <- ratio_le by done. split.
  - intros Hle j m e [= <-]. rewrite E. by intros [= <- <-].
  - intros Hle. by apply (Hle i).
Qed.

(** The votes.  A proposal passes exactly when the committee, the representatives and the pools agree,
    each as a comparison of exact ratios: no product wraps and nothing is rounded.  The ratios are the
    code's; the comments of [governance.rs] on the representatives' and the pools' denominators describe others. *)
Theorem votes_exact p idx total active pools members quorum pool_thresholds drep_thresholds epoch keys :
  ballot_ok p members quorum active pools ->
  check_ratification p idx total active pools members quorum pool_thresholds drep_thresholds epoch keys = true <->
  committee_agrees p members quorum epoch keys /\ dreps_agree p (snd idx) total active drep_thresholds /\
  pools_agree p (fst idx) pools pool_thresholds.
Proof.
  intros [Hq [Hc Hm] (Hd & Hda & Hdu) (Hp & Hpa & Hpu)]. destruct idx as [pool_idx drep_idx]. unfold check_ratification. cbn [fst snd].
  rewrite <- committee_exact, <- dreps_exact, <- pools_exact by done.
  destruct (committee_accepts _ _ _ _ _), (dreps_accept _ _ _ _ _), (pools_accept _ _ _ _); cbn; intuition congruence.
Qed.
