(* ===== verification/BlockEffect.v ===== *)
(** The UTxO effect of a block: [track_utxo] refines a specification on a map from inputs to the
    address and the lovelace of their outputs, one transaction after another, each by its phase-2
    verdict. *)

From S2P Require Import Prelude Cbor CborSkip CborRoundtrip CborPrefix EraSchedule Leader Header NetCodec BTree.
From S2P Require Import Spelling Decoder BlockCodec BlockFacts NativeScript LedgerValue Utxo LedgerMaps.
From S2P Require Import ConwayCert Delegation DelegationFacts Governance GovernanceFacts ConwayTx Witness.
From S2P Require Import ConwayRules UtxoEffect ConwaySpans ConwayFacts.

(** * The specification *)

(** What an output is worth, and to whom. *)
Definition Holding : Type := (list Z * Coin).
Definition Holdings : Type := BTreeMap TxIn Holding.

Definition holding (o : TxOut) : Holding := (address_bytes o, out_coin o).
Definition holdings (m : UtxoMap) : Holdings := map (fun e => (fst e, holding (snd e))) m.

Definition promised (o : BabbageTxOut) : Holding := (out_address o, out_lovelace o).

Fixpoint hold_outputs (tx_id : Hash32) (idx : Z) (outs : list BabbageTxOut) (m : Holdings) : Holdings :=
  match outs with
  | [] => m
  | o :: outs => hold_outputs tx_id (idx + 1) outs (bt_insert m (tx_id, as_u16 idx) (promised o))
  end.

(** A transaction that passed its scripts exchanges its inputs for its outputs; one that did not
    forfeits its collateral, but for the collateral return. *)
Definition settle (phase2_invalid : bool) (tx_id : Hash32) (b : ConwayTxBody) (m : Holdings) : Holdings :=
  if phase2_invalid then
    let m := fold_left bt_remove (elements (default [] (collateral_inputs b))) m in
    match collateral_return b with
    | Some r => bt_insert m (tx_id, as_u16 (blen (outputs b))) (promised r)
    | None => m
    end
  else hold_outputs tx_id 0 (outputs b) (fold_left bt_remove (elements (inputs b)) m).

(** * Views of maps *)

Lemma view_insert {K V W} `{TotalOrder K} (f : V -> W) (m : BTreeMap K V) k v :
  map (fun e => (fst e, f (snd e))) (bt_insert m k v) = bt_insert (map (fun e => (fst e, f (snd e))) m) k (f v).
Proof.
  induction m as [|[k' v'] m IH]; [done|]. cbn [bt_insert map fst snd].
  destruct (cmp k k'); cbn [map fst snd]; [done..|by rewrite IH].
Qed.

Lemma view_remove {K V W} `{TotalOrder K} (f : V -> W) (m : BTreeMap K V) k :
  map (fun e => (fst e, f (snd e))) (bt_remove m k) = bt_remove (map (fun e => (fst e, f (snd e))) m) k.
Proof.
  unfold bt_remove. induction m as [|[k' v'] m IH]; [done|]. cbn [List.filter map fst snd].
  destruct (cmp k k'); cbn [map fst snd]; by rewrite IH.
Qed.

Lemma holdings_insert (m : UtxoMap) k o : holdings (bt_insert m k o) = bt_insert (holdings m) k (holding o).
Proof. apply view_insert. Qed.
Lemma holdings_remove (m : UtxoMap) k : holdings (bt_remove m k) = bt_remove (holdings m) k.
Proof. apply view_remove. Qed.
Lemma holdings_removed l : forall m, holdings (fold_left bt_remove l m) = fold_left bt_remove l (holdings m).
Proof. induction l as [|k l IH]; intros m; [done|]. cbn [fold_left]. by rewrite IH, holdings_remove. Qed.

(** * The loops *)

(** What a step makes of these bytes does not depend on where they stand. *)
Definition runs {A} (m : PDec LedgerError A) (w : list Z) (r : result A LedgerError) : Prop :=
  forall pre post, bytes_ok (pre ++ w ++ post) -> blen (pre ++ w ++ post) <= u64_max ->
  match r with
  | Ok a => m (pre ++ w ++ post) (blen pre) = (Ok a, blen pre + blen w)
  | Err e => fst (m (pre ++ w ++ post) (blen pre)) = Err e
  end.

Lemma runs_alone {A} (m : PDec LedgerError A) w r : runs m w r -> bytes_ok w -> blen w <= u64_max -> fst (m w 0) = r.
Proof.
  intros Hm Hok Hl. specialize (Hm [] []). cbn [app] in Hm. rewrite app_nil_r in Hm. specialize (Hm Hok Hl).
  change (blen (@nil Z)) with 0 in Hm. destruct r; [by rewrite Hm|done].
Qed.

(** The bytes of a transaction, which begin an item: not with the break. *)
Definition tx_bytes (w : list Z) : Prop := bytes_ok w /\ blen w <= u64_max /\ exists b rest, w = b :: rest /\ b <> BREAK_BYTE.

Section Loops.
Context {S : Type}.
Variable step : Z -> S -> PDec LedgerError S.

(** The step on each transaction's own bytes, one after another. *)
Fixpoint each (tx_index : Z) (ws : list (list Z)) (s : S) : result S LedgerError :=
  match ws with
  | [] => Ok s
  | w :: ws => let? s := fst (step tx_index s w 0) in each (tx_index + 1) ws s
  end.

Definition local_on (w : list Z) : Prop := forall idx s, runs (step idx s) w (fst (step idx s w 0)).

Lemma runs_local w : (forall idx s, exists r, runs (step idx s) w r) -> bytes_ok w -> blen w <= u64_max -> local_on w.
Proof. intros Hr Hok Hl idx s. destruct (Hr idx s) as [r Hm]. by rewrite (runs_alone _ _ _ Hm Hok Hl). Qed.

Lemma definite_each ws : Forall local_on ws -> forall idx s, runs (process_definite step (length ws) idx s) (concat ws) (each idx ws s).
Proof.
  induction 1 as [|w ws Hw _ IH]; intros idx s pre post Hok Hl; [cbn; by rewrite Z.add_0_r|].
  cbn [length process_definite concat each] in *. rewrite <- app_assoc in Hok, Hl |- *. unfold pbind.
  specialize (Hw idx s pre _ Hok Hl). destruct (fst (step idx s w 0)) as [s1|e]; cbn [rbind].
  - rewrite Hw. specialize (IH (idx + 1) s1 (pre ++ w) post). rewrite <- app_assoc in IH. specialize (IH Hok Hl).
    rewrite (blen_app pre w) in IH. destruct (each (idx + 1) ws s1); [|exact IH]. rewrite IH, blen_app. f_equal. lia.
  - destruct (step idx s _ (blen pre)) as [[] ?]; cbn in Hw; [done|]. injection Hw as ->. done.
Qed.

Lemma indefinite_each ws : Forall tx_bytes ws -> Forall local_on ws -> forall fuel idx s pre, (length ws < fuel)%nat ->
  let data := pre ++ concat ws ++ [BREAK_BYTE] in bytes_ok data -> blen data <= u64_max ->
  fst (process_indefinite step fuel idx s data (blen pre)) = each idx ws s.
Proof.
  intros Hb Hl. induction Hl as [|w ws Hw _ IH]; intros [|fuel] idx s pre Hf data Hd Hdl; cbn [length] in Hf; try lia.
  { subst data. cbn [concat app process_indefinite]. unfold is_break, peek_byte. by rewrite byte_at_here. }
  apply Forall_cons in Hb as [(_ & _ & b & rest & Ew & Hne) Hb]. subst data. cbn [concat each] in *.
  rewrite <- app_assoc in Hd, Hdl |- *. cbn [process_indefinite].
  assert (is_break (pre ++ w ++ concat ws ++ [BREAK_BYTE]) (blen pre) = Ok false) as ->.
  { unfold is_break, peek_byte. rewrite Ew. cbn [app]. rewrite byte_at_here. cbn. by destruct (Z.eqb_spec b BREAK_BYTE). }
  unfold pbind. specialize (Hw idx s pre _ Hd Hdl). destruct (fst (step idx s w 0)) as [s1|e]; cbn [rbind].
  - rewrite Hw, <- blen_app, app_assoc. apply (IH Hb); [lia|by rewrite <- app_assoc..].
  - destruct (step idx s _ (blen pre)) as [[] ?]; cbn in Hw; [done|]. injection Hw as ->. done.
Qed.

(** An array of the transactions, in either form. *)
Definition array_of_txs (ws : list (list Z)) (bytes : list Z) : Prop :=
  (exists w, width_fits (blen ws) w /\ bytes = write_array_header [] (Definite (blen ws) w) ++ concat ws) \/
  bytes = indefinite_head ++ concat ws ++ [BREAK_BYTE].

Lemma txs_length ws : Forall tx_bytes ws -> (length ws <= length (concat ws))%nat.
Proof.
  induction 1 as [|w ws (_ & _ & b & rest & -> & _) _ IH]; [done|]. cbn [concat length]. rewrite length_app. cbn [length]. lia.
Qed.

Lemma reads_definite_head n w : width_fits n w ->
  reads (ledger_dec (plift id read_array_header)) (write_array_header [] (Definite n w)) (Definite n w).
Proof.
  intros Hw pre post Hok Hl. unfold ledger_dec. rewrite (reads_plift id read_array_header _ (Definite n w)); [done| |done|done].
  apply (reads_written _ (fun buf => write_array_header buf (Definite n w))).
  - intros buf. by apply write_argument_app.
  - intros buf post' _. by apply read_array_header_written.
Qed.

(** Either loop is the step on each transaction's own bytes. *)
Lemma process_txs_each ws s bytes : Forall tx_bytes ws -> Forall local_on ws -> array_of_txs ws bytes -> bytes_ok bytes ->
  blen bytes <= u64_max -> process_txs step s bytes = each 0 ws s.
Proof.
  intros Hb Hs [(w & Hw & ->)| ->] Hok Hl; unfold process_txs, pbind.
  - pose proof (reads_definite_head (blen ws) w Hw [] (concat ws)) as Hh. cbn [app] in Hh. specialize (Hh Hok Hl).
    change (blen (@nil Z)) with 0 in Hh. rewrite Hh. cbn beta iota. unfold blen at 1. rewrite Nat2Z.id.
    pose proof (definite_each ws Hs 0 s (write_array_header [] (Definite (blen ws) w)) []) as Hd. rewrite app_nil_r in Hd.
    specialize (Hd Hok Hl). rewrite Z.add_0_l. destruct (each 0 ws s); by rewrite Hd.
  - pose proof (txs_length ws Hb) as Hn. change indefinite_head with [0x9f] in *. cbn [app] in *. unfold ledger_dec, plift.
    assert (read_array_header (0x9f :: concat ws ++ [BREAK_BYTE]) 0 = (Ok Indefinite, 1)) as -> by done. cbn beta iota.
    apply (indefinite_each ws Hb Hs _ 0 s [0x9f]); [|done|done]. cbn [length]. rewrite length_app. lia.
Qed.
End Loops.

(** * The effect of a transaction on the store *)

Section Effect.
Context {HC : Crypto}.

(** The bytes read as this body, wherever they stand. *)
Definition wire_of (t : ConwayTxBody * list Z) : Prop := reads decode_conway_tx_body (snd t) (fst t).
Definition tx_id_of (t : ConwayTxBody * list Z) : Hash32 := blake2b_256 (snd t).

Lemma encoded_wire b : body_fits b -> wire_of (b, encode_conway_tx_body [] b).
Proof. intros Hb. destruct (coded_body b Hb) as (bytes & W & R & _). unfold wire_of. cbn [fst snd]. by rewrite W. Qed.

(** The effect a body has, up to the bytes kept with its outputs. *)
Definition effect_is (phase2_invalid : bool) (b : ConwayTxBody) (e : TxUtxoEffect) : Prop :=
  if phase2_invalid then
    spends e = elements (default [] (collateral_inputs b)) /\ collateral_consumed e = spends e /\
    map (fun p => (fst p, holding (snd p))) (produces e) =
      match collateral_return b with Some r => [(as_u16 (blen (outputs b)), promised r)] | None => [] end
  else
    spends e = elements (inputs b) /\ collateral_consumed e = [] /\
    exists outs, produces e = indexed 0 outs /\ map holding outs = map promised (outputs b).

Lemma alone b w : wire_of (b, w) -> bytes_ok w -> blen w <= u64_max -> decode_conway_tx_body w 0 = (Ok b, blen w).
Proof. intros Hw Hok Hl. specialize (Hw [] []). cbn [app fst snd] in Hw. rewrite !app_nil_r in Hw. by apply Hw. Qed.

Lemma zipped_holdings w outs : forall sl, blen outs <= blen sl ->
  map holding (zip_with (out_of w) outs sl) = map promised outs.
Proof.
  induction outs as [|o outs IH]; intros [|s sl] Hl; [done..| |].
  - rewrite blen_cons in Hl. pose proof (blen_nonneg outs). change (blen []) with 0 in Hl. lia.
  - rewrite !blen_cons in Hl. cbn [zip_with map]. rewrite IH by lia. done.
Qed.

(** Both ways of reading a transaction give the effect of its body. *)
Lemma reads_effect (phase2_invalid : bool) b w : wire_of (b, w) -> bytes_ok w -> blen w <= u64_max ->
  exists e, reads (extract_tx_utxo_effect phase2_invalid) w e /\ effect_is phase2_invalid b e.
Proof.
  intros Hw Hok Hl. pose proof (alone b w Hw Hok Hl) as Ha.
  destruct (slices_of_body w b (blen w) Hok Ha) as (s & _ & Hs & _ & _ & Hr).
  destruct (slices_enough w b (blen w) Hok Ha) as (s' & Hs' & Hn). rewrite Hs in Hs'. injection Hs' as <-.
  destruct phase2_invalid.
  - exists (mk_TxUtxoEffect (elements (default [] (collateral_inputs b)))
      match collateral_return b, slice_collateral_return s with
      | Some r, Some p => [(as_u16 (blen (outputs b)), out_of w r p)] | _, _ => [] end
      (elements (default [] (collateral_inputs b)))). split.
    + intros pre post Hpp Hlp. specialize (Hw pre post Hpp Hlp). cbn [fst snd] in Hw.
      unfold extract_tx_utxo_effect, invalid_effect, pbind, position, ledger_dec, bytes_between, ledger_result.
      cbn [negb]. rewrite Hw, slice_app, Hs. destruct (collateral_return b); [destruct Hr as (p & -> & _)|rewrite Hr]; done.
    + split_and!; [done..|]. cbn [produces]. destruct (collateral_return b); [by destruct Hr as (p & -> & _)|done].
  - exists (mk_TxUtxoEffect (elements (inputs b)) (indexed 0 (zip_with (out_of w) (outputs b) (slice_outputs s))) []). split.
    + intros pre post Hpp Hlp. specialize (Hw pre post Hpp Hlp). cbn [fst snd] in Hw.
      unfold extract_tx_utxo_effect, extract_inputs_outputs_from_tx, pbind, position, ledger_dec, bytes_between, ledger_result.
      cbn [negb]. rewrite Hw, slice_app. unfold locate_alonzo_plus_output_slices. by rewrite Hs.
    + split_and!; [done..|]. eexists. split; [done|]. by apply zipped_holdings.
Qed.

Lemma indexed_holdings tx_id outs : forall bs idx o, overlay_ok o -> map holding outs = map promised bs ->
  let o' := fold_left (produce_at tx_id) (indexed idx outs) o in
  overlay_ok o' /\ holdings (to_map o') = hold_outputs tx_id idx bs (holdings (to_map o)).
Proof.
  induction outs as [|out outs IH]; intros [|b bs] idx o Ho E; try discriminate E; [done|]. cbn [map] in E.
  assert (holding out = promised b /\ map holding outs = map promised bs) as [E1 E2] by (split; congruence).
  cbn [indexed fold_left hold_outputs]. unfold produce_at at 2 4. cbn [fst snd].
  destruct (insert_step o (tx_id, as_u16 idx) out Ho) as [H1 H2].
  destruct (IH bs (idx + 1) _ H1 E2) as [H3 H4]. split; [done|]. rewrite H4, H2, holdings_insert. by rewrite E1.
Qed.

Lemma applied_effect (phase2_invalid : bool) b e o tx_id : overlay_ok o -> effect_is phase2_invalid b e ->
  overlay_ok (apply_effect o e tx_id) /\
  holdings (to_map (apply_effect o e tx_id)) = settle phase2_invalid tx_id b (holdings (to_map o)).
Proof.
  intros Ho He. unfold apply_effect. destruct (remove_steps (spends e) o Ho) as [R1 R2].
  destruct phase2_invalid; cbn [effect_is settle] in *.
  - destruct He as (Hs & _ & Hp). rewrite <- Hs, <- holdings_removed, <- R2. clear Hs.
    destruct (collateral_return b) as [r|], (produces e) as [|[i out] [|]]; try discriminate Hp; [|done].
    cbn [map fst snd] in Hp. assert (i = as_u16 (blen (outputs b)) /\ holding out = promised r) as [-> Hr] by (split; congruence).
    cbn [fold_left]. unfold produce_at. cbn [fst snd].
    destruct (insert_step _ (tx_id, as_u16 (blen (outputs b))) out R1) as [I1 I2]. split; [done|].
    by rewrite I2, holdings_insert, Hr.
  - destruct He as (Hs & _ & outs & Hp & Ho'). rewrite Hp, <- Hs, <- holdings_removed, <- R2. by apply indexed_holdings.
Qed.

Lemma process_one_local invalid b w : wire_of (b, w) -> tx_bytes w -> local_on (process_one invalid) w.
Proof.
  intros Hw (Hok & Hl & _). apply runs_local; [|done|done]. intros idx o.
  destruct (reads_effect (set_contains invalid idx) b w Hw Hok Hl) as (e & Hr & _).
  exists (Ok (apply_effect o e (blake2b_256 w))). intros pre post Hpp Hlp. unfold process_one, pbind, position, bytes_between.
  by rewrite (Hr pre post Hpp Hlp), slice_app.
Qed.

Lemma process_one_settles invalid idx b w o : wire_of (b, w) -> tx_bytes w -> overlay_ok o ->
  exists o', fst (process_one invalid idx o w 0) = Ok o' /\ overlay_ok o' /\
    holdings (to_map o') = settle (set_contains invalid idx) (blake2b_256 w) b (holdings (to_map o)).
Proof.
  intros Hw (Hok & Hl & _) Ho. destruct (reads_effect (set_contains invalid idx) b w Hw Hok Hl) as (e & Hr & He).
  destruct (applied_effect _ b e o (blake2b_256 w) Ho He) as [H1 H2].
  exists (apply_effect o e (blake2b_256 w)). split_and!; [|done..].
  specialize (Hr [] []). cbn [app] in Hr. rewrite app_nil_r in Hr. specialize (Hr Hok Hl). change (blen (@nil Z)) with 0 in Hr.
  pose proof (slice_app [] w []) as Hs. cbn [app] in Hs. rewrite app_nil_r in Hs. change (blen (@nil Z)) with 0 in Hs.
  unfold process_one, pbind, position, bytes_between. by rewrite Hr, Hs.
Qed.

(** * The transactions of a block *)

Fixpoint settle_all (invalid : BTreeSet Z) (idx : Z) (txs : list (ConwayTxBody * list Z)) (m : Holdings) : Holdings :=
  match txs with
  | [] => m
  | t :: txs => settle_all invalid (idx + 1) txs (settle (set_contains invalid idx) (tx_id_of t) (fst t) m)
  end.

Definition txs_ok (txs : list (ConwayTxBody * list Z)) : Prop :=
  Forall (fun t => wire_of t /\ bytes_ok (snd t) /\ blen (snd t) <= u64_max) txs.

(** The bytes of a transaction are one item. *)
Lemma wire_bytes_ok t : wire_of t -> bytes_ok (snd t) -> blen (snd t) <= u64_max -> tx_bytes (snd t).
Proof.
  destruct t as [b w]. cbn [snd]. intros Hw Hok Hl. split_and!; [done..|]. apply spells_first; [|done].
  apply spells_one_item. split; [done|]. apply one_of_items. by eapply spans_body, alone.
Qed.

Lemma txs_bytes txs : txs_ok txs -> Forall tx_bytes (map snd txs).
Proof. intros Ht. apply Forall_map. eapply Forall_impl; [exact Ht|]. intros t (Hw & Hok & Hl). by apply wire_bytes_ok. Qed.

Lemma each_settles invalid txs : txs_ok txs -> forall idx o, overlay_ok o ->
  exists o', each (process_one invalid) idx (map snd txs) o = Ok o' /\ overlay_ok o' /\
    holdings (to_map o') = settle_all invalid idx txs (holdings (to_map o)).
Proof.
  induction 1 as [|[b w] txs (Hw & Hok & Hl) _ IH]; intros idx o Ho; [by exists o|].
  destruct (process_one_settles invalid idx b w o Hw (wire_bytes_ok _ Hw Hok Hl) Ho) as (o1 & R1 & H1 & E1).
  destruct (IH (idx + 1) o1 H1) as (o2 & R2 & H2 & E2). exists o2. cbn [map snd each]. rewrite R1. cbn [rbind].
  split_and!; [exact R2|exact H2|]. by rewrite E2, E1.
Qed.

(** The transactions of a block, in an array of either form. *)
Definition block_txs (block : ShelleyBlock) (txs : list (ConwayTxBody * list Z)) : Prop :=
  txs_ok txs /\ bk_tx_count block = blen txs /\ array_of_txs (map snd txs) (bk_tx_bodies block) /\
  bytes_ok (bk_tx_bodies block) /\ blen (bk_tx_bodies block) <= u64_max.


(** C19. Applying a block to the UTxO refines the specification: whichever form the array of bodies
    takes and however its heads are spelled, the loop runs over every transaction, and the outputs
    the store then shows, with their addresses and lovelace, are those of settling the
    transactions one after another, each as its phase-2 verdict says. *)
Theorem track_utxo_refines (block : ShelleyBlock) (txs : list (ConwayTxBody * list Z)) (u : UTxOState)
    (Hb : block_txs block txs) (Ho : overlay_ok (utxos u)) :
  exists u', track_utxo block u = Ok u' /\ overlay_ok (utxos u') /\
    holdings (to_map (utxos u')) =
      settle_all (decode_invalid_tx_indices (bk_invalid_txs block)) 0 txs (holdings (to_map (utxos u))).
Proof.
  destruct Hb as (Htx & Hn & Hform & Hok & Hl). unfold track_utxo. rewrite Hn.
  destruct (Z.eqb_spec (blen txs) 0) as [E|E]; [apply blen_zero in E as ->; by exists u|].
  set (invalid := decode_invalid_tx_indices (bk_invalid_txs block)).
  destruct (each_settles invalid txs Htx 0 (utxos u) Ho) as (o & R & H1 & H2).
  rewrite (process_txs_each _ (map snd txs)); [|by apply txs_bytes| |done..].
  - rewrite R. by exists (mk_UTxOState o).
  - apply Forall_map. eapply Forall_impl; [exact Htx|]. intros [b w] (Hw & Hwo & Hwl).
    apply (process_one_local invalid b w Hw). by apply wire_bytes_ok in Hw.
Qed.
End Effect.

(** What certificates read and write. *)
Definition CertPlane : Type := (CertState * option ConwayGovState).

Section Walk.
Variables (key_deposit : Coin) (gov_env : option GovCertEnv).

Definition accumulate (cert_bytes : list Z) (s : CertPlane) : result CertPlane LedgerError :=
  accumulate_conway_certs cert_bytes (fst s) (snd s) key_deposit gov_env.

(** One entry of a body's map. *)
Definition cert_entry (skip_certs : bool) (s : CertPlane) : PDec LedgerError CertPlane :=
  dec! key := ledger_dec read_u64v in
  if (key =? 4) && negb skip_certs then
    dec! cert_bytes := ledger_dec raw_item in
    ledger_result (accumulate cert_bytes s)
  else dec! _ := ledger_dec skip_one in pret s.

Fixpoint cert_entries (skip_certs : bool) (n : nat) (s : CertPlane) : PDec LedgerError CertPlane :=
  match n with
  | O => pret s
  | Datatypes.S n => dec! s := cert_entry skip_certs s in cert_entries skip_certs n s
  end.

(** A body of indefinite length is passed over, certificates and all. *)
Definition certs_of_tx (invalid : BTreeSet Z) (tx_index : Z) (s : CertPlane) : PDec LedgerError CertPlane :=
  dec! map_enc := ledger_dec (plift id read_map_header) in
  match map_enc with
  | Definite n _ => cert_entries (set_contains invalid tx_index) (Z.to_nat n) s
  | Indefinite => dec! _ := ledger_dec (nwhile tx_head (dec! _ := skip_one in skip_one)) in pret s
  end.

Definition process_block_certificates (block : ShelleyBlock) (s : CertPlane) : result CertPlane LedgerError :=
  let invalid := decode_invalid_tx_indices (bk_invalid_txs block) in
  if bk_tx_count block =? 0 then Ok s else
  process_txs (certs_of_tx invalid) s (bk_tx_bodies block).

(** * The specification *)

(** One certificate, at its position in its transaction: the certificate state moves first, the
    governance state with it where one is kept, and either may refuse. *)
Inductive one_cert (position : Z) (cert : ConwayCert) : CertPlane -> result CertPlane LedgerError -> Prop :=
| one_refused c g e : apply_conway_cert c cert key_deposit position = Err e -> one_cert position cert (c, g) (Err e)
| one_alone c c' effects : apply_conway_cert c cert key_deposit position = Ok (c', effects) ->
    one_cert position cert (c, None) (Ok (c', None))
| one_ungoverned c c' effects g e : apply_conway_cert c cert key_deposit position = Ok (c', effects) ->
    apply_conway_gov_cert g cert gov_env position = Err e -> one_cert position cert (c, Some g) (Err e)
| one_governed c c' effects g g' : apply_conway_cert c cert key_deposit position = Ok (c', effects) ->
    apply_conway_gov_cert g cert gov_env position = Ok g' -> one_cert position cert (c, Some g) (Ok (c', Some g')).

(** A transaction's certificates, one after the other from the [n]th on, up to the first that is
    refused.  Positions are of 16 bits. *)
Inductive tx_certified : Z -> list ConwayCert -> CertPlane -> result CertPlane LedgerError -> Prop :=
| tx_done n s : tx_certified n [] s (Ok s)
| tx_stopped n cert certs s e : one_cert (n mod 65536) cert s (Err e) -> tx_certified n (cert :: certs) s (Err e)
| tx_step n cert certs s s' r : one_cert (n mod 65536) cert s (Ok s') -> tx_certified (n + 1) certs s' r ->
    tx_certified n (cert :: certs) s r.

(** A block's transactions from the [idx]th on: those that failed their scripts or list no
    certificates change nothing; the first list that is malformed and the first certificate that
    is refused stop the block. *)
Inductive block_certified (invalid : BTreeSet Z) : Z -> list ConwayTxBody -> CertPlane -> result CertPlane LedgerError -> Prop :=
| block_done idx s : block_certified invalid idx [] s (Ok s)
| block_passes idx b bodies s r : set_contains invalid idx = true \/ certs b = None ->
    block_certified invalid (idx + 1) bodies s r -> block_certified invalid idx (b :: bodies) s r
| block_malformed idx b bodies s bytes e : set_contains invalid idx = false -> certs b = Some bytes ->
    decode_conway_certs bytes = Err e -> block_certified invalid idx (b :: bodies) s (Err (codec_ledger_error e))
| block_stopped idx b bodies s bytes cs e : set_contains invalid idx = false -> certs b = Some bytes ->
    decode_conway_certs bytes = Ok cs -> tx_certified 0 cs s (Err e) -> block_certified invalid idx (b :: bodies) s (Err e)
| block_step idx b bodies s bytes cs s' r : set_contains invalid idx = false -> certs b = Some bytes ->
    decode_conway_certs bytes = Ok cs -> tx_certified 0 cs s (Ok s') ->
    block_certified invalid (idx + 1) bodies s' r -> block_certified invalid idx (b :: bodies) s r.

Lemma apply_certs_certified certs : forall n s,
  tx_certified n certs s (apply_conway_certs (fst s) (snd s) certs key_deposit gov_env n).
Proof.
  induction certs as [|cert certs IH]; intros n [c g]; [constructor|]. cbn [fst snd apply_conway_certs] in *.
  change (as_u16 n) with (n mod 65536).
  destruct (apply_conway_cert c cert key_deposit (n mod 65536)) as [[c' effects]|e] eqn:Ec; cbn [rbind];
    [|by apply tx_stopped, one_refused].
  destruct g as [g|]; cbn [rbind].
  - destruct (apply_conway_gov_cert g cert gov_env (n mod 65536)) as [g'|e] eqn:Eg; cbn [rbind];
      [|by eapply tx_stopped, one_ungoverned].
    eapply tx_step; [by eapply one_governed|exact (IH (n + 1) (c', Some g'))].
  - eapply tx_step; [by eapply one_alone|exact (IH (n + 1) (c', None))].
Qed.

(** The certificates of one body, if it lists any. *)
Definition certify (skip_certs : bool) (b : ConwayTxBody) (s : CertPlane) : result CertPlane LedgerError :=
  match certs b with
  | Some cert_bytes => if skip_certs then Ok s else accumulate cert_bytes s
  | None => Ok s
  end.

Fixpoint certify_all (invalid : BTreeSet Z) (idx : Z) (bodies : list ConwayTxBody) (s : CertPlane) : result CertPlane LedgerError :=
  match bodies with
  | [] => Ok s
  | b :: bodies => let? s := certify (set_contains invalid idx) b s in certify_all invalid (idx + 1) bodies s
  end.

Lemma certify_all_certified invalid bodies : forall idx s,
  block_certified invalid idx bodies s (certify_all invalid idx bodies s).
Proof.
  induction bodies as [|b bodies IH]; intros idx s; [constructor|]. cbn [certify_all]. unfold certify.
  destruct (certs b) as [bytes|] eqn:Eb; cbn [rbind]; [|apply block_passes; [by right|apply IH]].
  destruct (set_contains invalid idx) eqn:Ei; cbn [rbind]; [apply block_passes; [by left|apply IH]|].
  unfold accumulate, accumulate_conway_certs.
  destruct (decode_conway_certs bytes) as [cs|e] eqn:Ec; cbn [map_err rbind]; [|by eapply block_malformed].
  pose proof (apply_certs_certified cs 0 s) as Hc.
  destruct (apply_conway_certs _ _ cs _ _ 0) as [s'|e]; cbn [rbind];
    [by eapply block_step; [..|apply IH]|by eapply block_stopped].
Qed.

(** There is one answer. *)
Lemma one_cert_det position cert s r1 r2 : one_cert position cert s r1 -> one_cert position cert s r2 -> r1 = r2.
Proof. destruct 1; inversion 1; congruence. Qed.

Lemma tx_certified_det certs : forall n s r1 r2, tx_certified n certs s r1 -> tx_certified n certs s r2 -> r1 = r2.
Proof.
  induction certs as [|cert certs IH]; intros n s r1 r2 H1 H2; inversion H1; inversion H2; subst; [done|..];
    match goal with Ha : one_cert _ _ _ _, Hb : one_cert _ _ _ _ |- _ => pose proof (one_cert_det _ _ _ _ _ Ha Hb) end;
    simplify_eq; eauto.
Qed.

Lemma block_certified_det invalid bodies : forall idx s r1 r2,
  block_certified invalid idx bodies s r1 -> block_certified invalid idx bodies s r2 -> r1 = r2.
Proof.
  induction bodies as [|b bodies IH]; intros idx s r1 r2 H1 H2; inversion H1; inversion H2; subst; try done;
    repeat match goal with H : _ \/ _ |- _ => destruct H end; try congruence; eauto;
    repeat match goal with Ha : certs _ = Some ?x, Hb : certs _ = Some ?y |- _ => assert (x = y) as -> by congruence; clear Ha end;
    repeat match goal with Ha : decode_conway_certs _ = ?x, Hb : decode_conway_certs _ = ?y |- _ =>
      rewrite Ha in Hb; injection Hb as <- || discriminate Hb end; try done;
    match goal with Ha : tx_certified _ _ _ _, Hb : tx_certified _ _ _ _ |- _ => pose proof (tx_certified_det _ _ _ _ _ Ha Hb) end;
    simplify_eq; eauto.
Qed.

(** * One transaction *)

Definition sel_certs (f : BodyField) : option (list Z) := match f with F_certs v => Some v | _ => None end.

Fixpoint accumulate_each (skip_certs : bool) (l : list (list Z)) (s : CertPlane) : result CertPlane LedgerError :=
  match l with
  | [] => Ok s
  | c :: l => let? s := if skip_certs then Ok s else accumulate c s in accumulate_each skip_certs l s
  end.

Lemma other_than_certs key data off f o : key <> 4 -> decode_body_value key data off = (Ok f, o) -> sel_certs f = None.
Proof.
  intros H4 H. unfold decode_body_value in H.
  repeat match type of H with (match ?k with _ => _ end) _ _ = _ => destruct k end; try done; arm_of H; done.
Qed.

(** The walk over an entry, against the decoder's. *)
Lemma cert_entry_step skip_certs s data off f o : bytes_ok data -> 0 <= off -> decode_body_field data off = (Ok f, o) ->
  off < o /\ cert_entry skip_certs s data off = (accumulate_each skip_certs (option_list (sel_certs f)) s, o).
Proof.
  intros Hd Ho H. apply pbind_inv in H as (key & o1 & H1 & H).
  assert (off < o1) as Hlt by (by eapply (spans_advances read_u64v); [apply spans_value|..]).
  pose proof (one_of_items _ _ _ (spans_body_value key data o1 f o Hd ltac:(lia) H)) as Hi.
  pose proof (item_end data o1 o Hd ltac:(lia) Hi) as He. split; [lia|].
  assert (0 <= o1) as Ho1 by lia.
  assert (skip_one data o1 = (Ok (o1, o), o)) as Hskip by (unfold skip_one, plift; by rewrite (item_skip data o1 o Hd ltac:(lia) Hi)).
  unfold cert_entry, pbind at 1, ledger_dec at 1. rewrite H1.
  destruct (Z.eqb_spec key 4) as [->|N4].
  - cbn [decode_body_value] in H. apply pbind_inv in H as (v & o2 & H2 & [= <- <-]). cbn [sel_certs option_list accumulate_each].
    destruct skip_certs; cbn [andb negb rbind].
    + unfold pbind, ledger_dec. by rewrite Hskip.
    + unfold pbind, ledger_dec, ledger_result. rewrite H2. cbn. destruct (accumulate v s); reflexivity.
  - rewrite (other_than_certs key data o1 f o N4 H). cbn [option_list accumulate_each andb]. unfold pbind, ledger_dec. by rewrite Hskip.
Qed.

Lemma accumulate_app skip_certs l l' s :
  accumulate_each skip_certs (l ++ l') s = let? s := accumulate_each skip_certs l s in accumulate_each skip_certs l' s.
Proof.
  revert s. induction l as [|c l IH]; intros s; [done|]. cbn [app accumulate_each].
  destruct (if skip_certs then Ok s else accumulate c s) as [s1|e]; [apply IH|done].
Qed.

Lemma cert_entries_walk skip_certs data n : bytes_ok data -> forall off fields o s, 0 <= off ->
  pcollect n decode_body_field data off = (Ok fields, o) ->
  match accumulate_each skip_certs (omap sel_certs fields) s with
  | Ok s' => cert_entries skip_certs n s data off = (Ok s', o)
  | Err e => fst (cert_entries skip_certs n s data off) = Err e
  end.
Proof.
  intros Hd. induction n as [|n IH]; intros off fields o s Ho H; cbn [pcollect cert_entries] in *; [by injection H as <- <-|].
  apply pbind_inv in H as (f & o1 & H1 & H). apply pbind_inv in H as (fs & o2 & H2 & [= <- <-]).
  destruct (cert_entry_step skip_certs s data off f o1 Hd Ho H1) as [Hlt Hf].
  assert (omap sel_certs (f :: fs) = option_list (sel_certs f) ++ omap sel_certs fs) as -> by (cbn; by destruct (sel_certs f)).
  rewrite accumulate_app. unfold pbind. rewrite Hf.
  destruct (accumulate_each skip_certs (option_list (sel_certs f)) s) as [s1|e]; cbn [rbind]; [|done].
  exact (IH o1 fs o2 s1 ltac:(lia) H2).
Qed.

(** * An encoded body *)

Lemma none_selected {A} (f : A -> BodyField) o : (forall v, sel_certs (f v) = None) -> omap sel_certs (opt_fields f o) = [].
Proof. intros Hf. destruct o as [v|]; [|done]. cbn. by rewrite Hf. Qed.

Lemma body_certs b : omap sel_certs (body_fields b) = option_list (certs b).
Proof.
  unfold body_fields. rewrite !omap_app, (none_selected F_ttl), (none_selected F_withdrawals), (none_selected F_metadata_hash),
    (none_selected F_validity_start), (none_selected F_mint), (none_selected F_script_data_hash), (none_selected F_collateral_inputs),
    (none_selected F_required_signers), (none_selected F_network_id), (none_selected F_collateral_return),
    (none_selected F_total_collateral), (none_selected F_reference_inputs), (none_selected F_voting_procedures),
    (none_selected F_proposal_procedures), (none_selected F_treasury_value), (none_selected F_donation) by done.
  destruct (certs b); reflexivity.
Qed.

Lemma certify_each skip_certs b s : accumulate_each skip_certs (option_list (certs b)) s = certify skip_certs b s.
Proof. unfold certify. destruct (certs b); [|done]. cbn. destruct skip_certs; [done|]. by destruct (accumulate l s). Qed.

Lemma present_inv {A} (o : option A) detail data off a o1 : present o detail data off = (Ok a, o1) -> o = Some a /\ off = o1.
Proof. destruct o; [by intros [= -> ->]|done]. Qed.

(** The map of the body has one entry with key 4 at most: the walk applies every such entry, of
    which the body keeps the last. *)
Definition lists_certs_once (t : ConwayTxBody * list Z) : Prop := forall pre post n w o fields o',
  let data := pre ++ snd t ++ post in
  bytes_ok data -> blen data <= u64_max ->
  read_map_header data (blen pre) = (Ok (Definite n w), o) -> pcollect (Z.to_nat n) decode_body_field data o = (Ok fields, o') ->
  blen (omap sel_certs fields) <= 1.

Lemma once_option {A} (l : list A) : blen l <= 1 -> l = option_list (last l).
Proof. destruct l as [|x [|y l]]; [done..|]. rewrite !blen_cons. pose proof (blen_nonneg l). lia. Qed.

Lemma certs_of_tx_runs invalid idx b w s : wire_of (b, w) -> lists_certs_once (b, w) ->
  runs (certs_of_tx invalid idx s) w (certify (set_contains invalid idx) b s).
Proof.
  intros Hw Honce pre post Hok Hl. specialize (Hw pre post Hok Hl). specialize (Honce pre post). cbn [fst snd] in *. cbv zeta in Honce.
  set (data := pre ++ w ++ post) in *. unfold decode_conway_tx_body in Hw.
  apply pbind_inv in Hw as (n & o1 & H1 & Hw). apply pbind_inv in Hw as (fields & o2 & H2 & Hw).
  apply pbind_inv in Hw as (i & o3 & [_ <-]%present_inv & Hw). apply pbind_inv in Hw as (outs & o4 & [_ <-]%present_inv & Hw).
  apply pbind_inv in Hw as (f & o5 & [_ <-]%present_inv & [= Hb Ho]).
  apply definite_map_inv in H1 as (_ & Hlt & _ & wd & Hm); [|done|apply blen_nonneg].
  specialize (Honce _ _ _ _ _ Hok Hl Hm H2).
  assert (certs b = last (omap sel_certs fields)) as Hc by by rewrite <- Hb.
  pose proof (cert_entries_walk (set_contains invalid idx) data _ Hok _ _ _ s (Z.le_trans _ _ _ (blen_nonneg pre) (Z.lt_le_incl _ _ Hlt)) H2) as Hwalk.
  rewrite (once_option _ Honce), <- Hc, certify_each in Hwalk.
  unfold certs_of_tx, pbind, ledger_dec, plift. rewrite Hm, <- Ho. exact Hwalk.
Qed.

(** The encoder writes each key once. *)
Lemma encoded_once b : body_fits b -> lists_certs_once (b, encode_conway_tx_body [] b).
Proof.
  intros Hb pre post n w o fields o' data Hok Hl Hm Hf. subst data. cbn [snd] in *.
  destruct (body_segment b Hb) as (bytes & W & R & _). pose proof (field_count_u64 b) as Hu.
  rewrite body_encoding, W, write_map_app in * by done. cbn [app] in *. set (head := argument_bytes MAJOR_MAP (field_count b)) in *.
  rewrite <- app_assoc in *. pose proof (reads_map_header (field_count b) Hu pre (bytes ++ post) Hok Hl) as Hh. fold head in Hh.
  rewrite Hh in Hm. injection Hm as <- _ <-.
  specialize (R (pre ++ head) post). rewrite <- app_assoc in R. specialize (R Hok Hl). rewrite blen_app in R.
  assert (Z.to_nat (field_count b) = length (body_fields b)) as En by (rewrite <- body_count; unfold blen; lia).
  rewrite En, R in Hf. injection Hf as <- _. rewrite body_certs. by destruct (certs b).
Qed.

Lemma each_certifies invalid txs : txs_ok txs -> Forall lists_certs_once txs -> forall idx s,
  each (certs_of_tx invalid) idx (map snd txs) s = certify_all invalid idx (map fst txs) s.
Proof.
  intros Ht. induction Ht as [|[b w] txs (Hw & Hok & Hl) _ IH]; intros Ho idx s; [done|]. cbn [map snd fst each certify_all] in *.
  apply Forall_cons in Ho as [Ho Hos].
  rewrite (runs_alone _ _ _ (certs_of_tx_runs invalid idx b w s Hw Ho) Hok Hl).
  destruct (certify (set_contains invalid idx) b s); [|done]. by apply IH.
Qed.
End Walk.

(** C20. The certificates of a block, whichever form the array of bodies takes and however the decoder's
    bodies are spelled, as long as no body has two entries with key 4: those of the transactions that
    passed their scripts, and of no others, are applied one by one in the order of the block, each at
    its position in its transaction, to the certificate state and then to the governance state; the
    first one that either refuses, or the first list that is malformed, refuses the block with its
    error.  (A body in an indefinite map, which the body decoder refuses too, would pass without its
    certificates; of two entries with key 4 the walk applies both and the decoder keeps the last.) *)
Theorem block_certificates_exact `{Crypto} (key_deposit : Coin) (gov_env : option GovCertEnv) (block : ShelleyBlock)
    (txs : list (ConwayTxBody * list Z)) (s : CertPlane) (r : result CertPlane LedgerError)
    (Hb : block_txs block txs) (Honce : Forall lists_certs_once txs) :
  process_block_certificates key_deposit gov_env block s = r <->
  block_certified key_deposit gov_env (decode_invalid_tx_indices (bk_invalid_txs block)) 0 (map fst txs) s r.
Proof.
  enough (process_block_certificates key_deposit gov_env block s =
    certify_all key_deposit gov_env (decode_invalid_tx_indices (bk_invalid_txs block)) 0 (map fst txs) s) as ->.
  { pose proof (certify_all_certified key_deposit gov_env (decode_invalid_tx_indices (bk_invalid_txs block)) (map fst txs) 0 s) as Hc.
    split; [by intros <-|]. by eapply block_certified_det. }
  destruct Hb as (Htx & Hn & Hform & Hok & Hl). unfold process_block_certificates. rewrite Hn.
  destruct (Z.eqb_spec (blen txs) 0) as [E|E]; [by apply blen_zero in E as ->|].
  rewrite (process_txs_each _ (map snd txs)); [by apply each_certifies|by apply txs_bytes| |done..].
  apply Forall_map. eapply Forall_impl; [exact (List.Forall_and Htx Honce)|]. intros [b w] [(Hw & Hwo & Hwl) Ho].
  apply runs_local; [|done|done]. intros idx s'. eexists. by apply certs_of_tx_runs.
Qed.
