(* ===== verification/LedgerExamples.v ===== *)
(** A small Conway ledger, on which the theorems of the ledger files are applied: one output of 100
    lovelace, and a transaction that spends it, registers a credential, withdraws a reward and
    donates to the treasury.  The last section shows where the rules do not do what they mean to: a
    refund is paid as the certificate states it, a pool's deposit is charged twice, an output is
    stored with the bytes of another one, and a vote is delegated for an account that does not
    exist. *)

From S2P Require Import Prelude Cbor CborSkip CborRoundtrip EraSchedule Leader Header NetCodec BTree Spelling Decoder.
From S2P Require Import BlockCodec LedgerValue Utxo LedgerMaps ConwayCert Delegation DelegationFacts Governance.
From S2P Require Import GovernanceFacts ConwayTx NativeScript Witness ConwayRules UtxoEffect ConwaySpans ConwayFacts.
From S2P Require Import BlockEffect.

Definition toy_hash (n : Z) : Hash32 := repeat n 32.
Definition toy_key (n : Z) : Hash28 := repeat n 28.
Definition toy_address (n : Z) : list Z := 97 :: repeat n 28.
Definition toy_account (n : Z) : list Z := 225 :: repeat n 28.

Definition toy_in : TxIn := (toy_hash 1, 0).
Definition toy_utxo : UtxoMap := [(toy_in, Out_AlonzoPlus [] (toy_address 7) 100)].
Definition toy_store : OverlayUtxo := overlay_from_map toy_utxo.

Definition toy_out (n c : Z) : BabbageTxOut := mk_BabbageTxOut (toy_address n) c None None None.

(** A legacy registration and an explicit one, in a set of two certificates. *)
Definition toy_certs : list ConwayCert :=
  [AccountRegistrationDeposit (KeyHash (toy_key 3)) 12; AccountRegistration (ScriptHash (toy_key 4))].
Definition credential_bytes (tag n : Z) : list Z := [130; tag; 88; 28] ++ toy_key n.
Definition toy_cert_bytes : list Z := [130; 131; 7] ++ credential_bytes 0 3 ++ [12; 130; 0] ++ credential_bytes 1 4.
Definition toy_withdrawals : list Z := [161; 88; 29] ++ toy_account 5 ++ [3].

Definition toy_params : ConwayDepositParams := mk_ConwayDepositParams 8 50 40 30.
Definition toy_cert_state : CertState := mk_CertState (mk_DelegationState [] [] []) (mk_PoolState [] [] []).

Definition toy_body : ConwayTxBody := {|
  inputs := set_of [toy_in];
  outputs := [toy_out 8 60; toy_out 9 17];
  fee := 5;
  ttl := Some 1000;
  certs := Some toy_cert_bytes;
  withdrawals := Some toy_withdrawals;
  metadata_hash := None; validity_interval_start := Some 10; mint := None; script_data_hash := None;
  collateral_inputs := None; required_signers := Some (set_of [toy_key 3]); network_id := Some 1;
  collateral_return := Some (toy_out 7 40); total_collateral := None; reference_inputs := None;
  voting_procedures := None; proposal_procedures := None; treasury_value := None;
  donation := Some 1;
|}.

Definition toy_tx_bytes : list Z := Eval vm_compute in encode_conway_tx_body [] toy_body.

Lemma toy_certs_decode : decode_conway_certs toy_cert_bytes = Ok toy_certs.
Proof. by vm_compute. Qed.

(** * The store *)

Lemma toy_store_ok : overlay_ok toy_store.
Proof. split; [by vm_compute; repeat constructor|constructor|by vm_compute|by split]. Qed.

Definition toy_ops : list UtxoOp :=
  [Op_Insert (toy_hash 2, 1) (Out_AlonzoPlus [] (toy_address 1) 4); Op_Remove toy_in; Op_Compact; Op_Remove toy_in].

Lemma overlay_refines_map_witness :
  let '(removed, o') := run_ops overlay_op toy_store toy_ops in
  let '(expected, m) := run_ops map_op (to_map toy_store) toy_ops in
  removed = expected /\ to_map o' = m /\ overlay_iter o' = m /\ overlay_len o' = blen m /\
  (forall k, overlay_get o' k = bt_get m k /\ overlay_contains o' k = bt_contains m k) /\
  ordered m /\ blen (overlay o') <= MAX_OVERLAY_ENTRIES.
Proof. exact (overlay_refines_map toy_store toy_ops toy_store_ok). Defined.

(** A fingerprint that counts the entries. *)
Definition toy_fp (m : UtxoMap) : Hash32 := toy_hash (blen m).
Definition toy_events : list CacheEvent :=
  Ev_Fingerprint :: map Ev_Advance toy_ops ++ [Ev_Fingerprint; Ev_Fingerprint; Ev_Replace toy_store; Ev_Fingerprint].

Lemma toy_events_ok : Forall (fun e => match e with Ev_Replace o' => overlay_ok o' | _ => True end) toy_events.
Proof. repeat constructor; apply toy_store_ok. Qed.

Lemma toy_events_few : blen toy_events <= u64_max.
Proof. by vm_compute. Qed.

Lemma fingerprint_cache_exact_witness :
  cache_run toy_fp (toy_store, None) toy_events = scan_run toy_fp toy_store toy_events.
Proof. exact (fingerprint_cache_exact toy_fp toy_store toy_events toy_store_ok toy_events_few toy_events_ok). Defined.

(** * Certificates and an epoch boundary *)

Lemma toy_cert_state_ok : cert_ok toy_cert_state.
Proof. split; try constructor; done. Qed.

Definition toy_gov : ConwayGovState := mk_ConwayGovState [] [] [].
Lemma toy_states_ok : states_ok (toy_cert_state, Some toy_gov).
Proof. split; [apply toy_cert_state_ok|]. by split; try constructor. Qed.

Definition toy_pool (n pledge : Z) : PoolRegistrationCert :=
  mk_PoolRegistrationCert (toy_key n) (toy_hash n) pledge 1 (1, 2) (toy_account n) [].
Definition toy_life : list CertEvent :=
  [TxCerts [PoolRegistration (toy_pool 1 5); PoolRegistration (toy_pool 2 6); PoolRegistration (toy_pool 2 7);
            StakeVoteRegistrationDelegation (KeyHash (toy_key 3)) (toy_key 1) AlwaysAbstain 12;
            StakeRegistrationDelegation (KeyHash (toy_key 4)) (toy_key 2) 12] 8 (Some (mk_GovCertEnv 40 20));
   TxCerts [PoolRetirement (toy_key 1) 42] 8 None; EpochBoundary 41].

Definition toy_lived : CertState * option ConwayGovState := Eval vm_compute in
  match cert_events (toy_cert_state, Some toy_gov) toy_life with Ok s => s | Err _ => (toy_cert_state, None) end.
Definition toy_turned : CertState * option ConwayGovState := Eval vm_compute in
  match cert_events (toy_cert_state, Some toy_gov) (toy_life ++ [EpochBoundary 42]) with Ok s => s | Err _ => (toy_cert_state, None) end.

Lemma toy_lives : cert_events (toy_cert_state, Some toy_gov) toy_life = Ok (fst toy_lived, snd toy_lived).
Proof. by vm_compute. Qed.
Lemma toy_turns : cert_events (toy_cert_state, Some toy_gov) (toy_life ++ [EpochBoundary 42]) = Ok (fst toy_turned, snd toy_lived).
Proof. by vm_compute. Qed.

(** The pool that retires is gone, and its delegation; the other one stays with its staged pledge. *)
Lemma epoch_boundary_exact_witness :
  (bt_get (pools (pool (fst toy_turned))) (toy_key 1) = None /\
   pledge <$> bt_get (pools (pool (fst toy_turned))) (toy_key 2) = Some 7 /\
   bt_get (delegations (delegation (fst toy_turned))) (KeyHash (toy_key 3)) = None /\
   bt_get (delegations (delegation (fst toy_turned))) (KeyHash (toy_key 4)) = Some (toy_key 2)) /\
  states_ok (fst toy_turned, snd toy_lived).
Proof.
  split; [vm_compute; auto|].
  exact (proj1 (epoch_boundary_exact toy_cert_state (Some toy_gov) toy_life 42 (fst toy_turned) (snd toy_lived) (fst toy_lived)
    (snd toy_lived) toy_states_ok toy_lives toy_turns)).
Defined.

(** * The transaction *)

Definition toy_pre : list Z := [132].
Definition toy_post : list Z := [160; 245; 246].

Lemma toy_set_fits {K} `{TotalOrder K} (P : K -> Prop) (k : K) : P k -> set_fits P (set_of [k]).
Proof.
  intros Hk. split_and!; [by repeat constructor|by split|].
  change (elements (set_of [k])) with [k]. by repeat constructor.
Qed.

Lemma toy_body_fits : body_fits toy_body.
Proof.
  split_and!; cbn [inputs outputs fee ttl certs withdrawals metadata_hash validity_interval_start mint script_data_hash
    collateral_inputs required_signers network_id collateral_return total_collateral reference_inputs voting_procedures
    proposal_procedures treasury_value donation toy_body maybe]; try done; try (by split);
    try (apply is_item_ok; by vm_compute).
  - apply toy_set_fits. split; [apply vector_ok; by vm_compute|by split].
  - repeat constructor; try done; apply all_bytes_ok; by vm_compute.
  - apply toy_set_fits. apply vector_ok. by vm_compute.
  - repeat constructor; try done; apply all_bytes_ok; by vm_compute.
Qed.

Lemma toy_tx_ok : bytes_ok (toy_pre ++ encode_conway_tx_body [] toy_body ++ toy_post) /\
  blen (toy_pre ++ encode_conway_tx_body [] toy_body ++ toy_post) <= u64_max.
Proof. split; [apply all_bytes_ok; by vm_compute|by vm_compute]. Qed.

Lemma conway_body_roundtrip_witness :
  decode_conway_tx_body (toy_pre ++ encode_conway_tx_body [] toy_body ++ toy_post) (blen toy_pre) =
    (Ok toy_body, blen toy_pre + blen (encode_conway_tx_body [] toy_body)) /\
  one_item (encode_conway_tx_body [] toy_body).
Proof.
  exact (conway_body_roundtrip toy_body toy_body_fits toy_pre toy_post (proj1 toy_tx_ok) (proj2 toy_tx_ok)).
Defined.

Lemma toy_tx_bytes_ok : bytes_ok toy_tx_bytes.
Proof. apply all_bytes_ok. by vm_compute. Qed.
Lemma toy_tx_decodes : decode_conway_tx_body toy_tx_bytes 0 = (Ok toy_body, blen toy_tx_bytes).
Proof. by vm_compute. Qed.

Lemma conway_slices_exact_witness :
  item toy_tx_bytes 0 (blen toy_tx_bytes) /\
  exists s sls, locate_alonzo_plus_slices toy_tx_bytes = Ok s /\ slice_outputs s = concat sls /\
    (forall sl, sls = [sl] -> Forall2 (out_at toy_tx_bytes) (outputs toy_body) (slice_outputs s)) /\
    blen (outputs toy_body) <= blen (slice_outputs s) /\
    match collateral_return toy_body with
    | Some r => exists p, slice_collateral_return s = Some p /\ out_at toy_tx_bytes r p
    | None => slice_collateral_return s = None
    end.
Proof. exact (conway_slices_exact toy_tx_bytes toy_body (blen toy_tx_bytes) toy_tx_bytes_ok toy_tx_decodes). Defined.

(** * Preservation of lovelace *)

Definition toy_state : UTxOState := mk_UTxOState toy_store.
Definition toy_witnesses : WitnessInfo := mk_WitnessInfo (set_of [toy_key 3]) [] [] [] [] false false false (mk_TotalExUnits 0 0).

Lemma toy_certs_of cs : certs_of toy_body = Ok cs -> cs = toy_certs.
Proof.
  unfold certs_of. cbn [certs toy_body]. rewrite toy_certs_decode. cbn [map_err]. congruence.
Qed.

Lemma toy_withdrawals_decode : decode_withdrawals toy_withdrawals = Ok [(toy_account 5, 3)].
Proof. by vm_compute. Qed.

Lemma toy_withdrawn bytes m : withdrawals toy_body = Some bytes -> decode_withdrawals bytes = Ok m -> m = [(toy_account 5, 3)].
Proof. cbn [withdrawals toy_body]. intros [= <-]. rewrite toy_withdrawals_decode. congruence. Qed.

Lemma toy_body_sized : body_sized toy_body.
Proof.
  apply mk_body_sized.
  - by split.
  - cbn [outputs toy_body]. by repeat constructor.
  - by split.
  - by vm_compute.
  - by vm_compute.
  - intros cs ->%toy_certs_of. split; [by vm_compute|]. unfold toy_certs. by repeat constructor.
  - intros bytes m Hb Hm. rewrite (toy_withdrawn bytes m Hb Hm). split; [by vm_compute|by repeat constructor].
Qed.

Lemma toy_store_sized : store_sized toy_store.
Proof.
  intros k out. change (store_get toy_store k) with (bt_get toy_utxo k). unfold toy_utxo. cbn [bt_get].
  destruct (cmp k toy_in); [|done..]. by intros [= <-].
Qed.

Lemma toy_deposits_sized : deposits_sized toy_params toy_cert_state.
Proof. by split. Qed.

Lemma toy_fresh i : overlay_get toy_store (toy_hash 9, i) = None.
Proof. by vm_compute. Qed.

Lemma toy_tx_valid : validate_conway_state_backed toy_body toy_store toy_witnesses 150 1 10 (0, 0) toy_params toy_cert_state = Ok tt.
Proof. by vm_compute. Qed.

Lemma toy_inputs_ordered : ordered (inputs toy_body).
Proof. by repeat constructor. Qed.

Definition toy_certified : CertState := Eval vm_compute in
  match apply_conway_certs toy_cert_state None toy_certs 8 None 0 with Ok (s, _) => s | Err _ => toy_cert_state end.
Lemma toy_certified_eq : apply_conway_certs toy_cert_state None toy_certs (dp_key_deposit toy_params) None 0 = Ok (toy_certified, None).
Proof. by vm_compute. Qed.

Lemma toy_subjects : NoDup (omap subject toy_certs).
Proof.
  change (omap subject toy_certs) with [inl (KeyHash (toy_key 3)) : StakeCredential + PoolId; inl (ScriptHash (toy_key 4))].
  apply NoDup_cons. split; [|apply NoDup_singleton]. by rewrite list_elem_of_singleton.
Qed.
Lemma toy_refunds : Forall (refund_agrees toy_cert_state) toy_certs.
Proof. unfold toy_certs. by repeat constructor. Qed.


(** * A block of two transactions, the second one with failing scripts *)

#[local] Instance ledger_crypto : Crypto := {|
  blake2b_256 bytes := repeat (Z.modulo (blen bytes) 256) 32;
  vrf_draft03_verify _ _ _ := None;
|}.

Definition toy_id : Hash32 := Eval vm_compute in blake2b_256 toy_tx_bytes.

(** Its collateral is the first output of the first one; its certificates are those of the first one. *)
Definition toy_failing : ConwayTxBody := {|
  inputs := set_of [(toy_id, 1)];
  outputs := [toy_out 8 17];
  fee := 0;
  ttl := None; certs := Some toy_cert_bytes; withdrawals := None; metadata_hash := None; validity_interval_start := None; mint := None;
  script_data_hash := Some (toy_hash 6);
  collateral_inputs := Some (set_of [(toy_id, 0)]);
  required_signers := None; network_id := None;
  collateral_return := Some (toy_out 8 40);
  total_collateral := Some 20; reference_inputs := None; voting_procedures := None; proposal_procedures := None;
  treasury_value := None; donation := None;
|}.
Definition toy_failing_bytes : list Z := Eval vm_compute in encode_conway_tx_body [] toy_failing.

Lemma toy_failing_fits : body_fits toy_failing.
Proof.
  split_and!; cbn [inputs outputs fee ttl certs withdrawals metadata_hash validity_interval_start mint script_data_hash
    collateral_inputs required_signers network_id collateral_return total_collateral reference_inputs voting_procedures
    proposal_procedures treasury_value donation toy_failing maybe]; try done; try (by split);
    try (apply is_item_ok; by vm_compute).
  - apply toy_set_fits. split; [apply vector_ok; by vm_compute|by split].
  - repeat constructor; try done; apply all_bytes_ok; by vm_compute.
  - apply vector_ok. by vm_compute.
  - apply toy_set_fits. split; [apply vector_ok; by vm_compute|by split].
  - repeat constructor; try done; apply all_bytes_ok; by vm_compute.
Qed.

Definition toy_txs : list (ConwayTxBody * list Z) := [(toy_body, toy_tx_bytes); (toy_failing, toy_failing_bytes)].
Definition toy_bodies : list Z := Eval vm_compute in indefinite_head ++ concat (map snd toy_txs) ++ [BREAK_BYTE].
Definition toy_header : ShelleyHeader :=
  mk_ShelleyHeader (mk_HeaderBody 1 1 Prev_Genesis [] [] (Combined []) 0 [] (mk_OperationalCert [] 0 0 []) (mk_ProtocolVersion 10 0)) [].
Definition toy_block : ShelleyBlock := mk_ShelleyBlock toy_header 2 toy_bodies [0x82; 0xa0; 0xa0] [0xa0] (Some [0x81; 1]).

Lemma toy_wire b w : body_fits b -> encode_conway_tx_body [] b = w -> bytes_ok w -> blen w <= u64_max ->
  wire_of (b, w) /\ bytes_ok w /\ blen w <= u64_max.
Proof. intros Hb <- Hok Hl. split_and!; [by apply encoded_wire|done..]. Qed.

Lemma toy_block_txs : block_txs toy_block toy_txs.
Proof.
  split_and!.
  - unfold txs_ok, toy_txs. apply Forall_cons. split; [|apply Forall_cons; split; [|constructor]]; apply toy_wire;
      first [exact toy_body_fits|exact toy_failing_fits|by vm_compute|apply all_bytes_ok; by vm_compute].
  - by vm_compute.
  - right. by vm_compute.
  - apply all_bytes_ok. by vm_compute.
  - by vm_compute.
Qed.

(** The second transaction's input is still there; its collateral became the collateral return. *)
Lemma track_utxo_refines_witness :
  exists u', track_utxo toy_block toy_state = Ok u' /\
    holdings (to_map (utxos u')) =
      [((blake2b_256 toy_failing_bytes, 1), (toy_address 8, 40)); ((toy_id, 1), (toy_address 9, 17))].
Proof.
  destruct (track_utxo_refines toy_block toy_txs toy_state toy_block_txs toy_store_ok) as (u' & Hu & _ & Hh).
  exists u'. split; [exact Hu|]. rewrite Hh. by vm_compute.
Defined.

Lemma toy_once b w : body_fits b -> encode_conway_tx_body [] b = w -> lists_certs_once (b, w).
Proof. intros Hb <-. by apply encoded_once. Qed.

Lemma toy_lists_once : Forall lists_certs_once toy_txs.
Proof.
  unfold toy_txs. apply Forall_cons. split; [|apply Forall_cons; split; [|constructor]]; apply toy_once;
    first [exact toy_body_fits|exact toy_failing_fits|by vm_compute].
Qed.

(** The certificates of the failing transaction would not apply: their credentials are registered. *)
Lemma block_certificates_exact_witness :
  process_block_certificates 8 None toy_block (toy_cert_state, Some toy_gov) = Ok (toy_certified, Some toy_gov) /\
  block_certified 8 None (decode_invalid_tx_indices (Some [0x81; 1])) 0 [toy_body; toy_failing] (toy_cert_state, Some toy_gov)
    (Ok (toy_certified, Some toy_gov)).
Proof.
  split; [by vm_compute|].
  apply (block_certificates_exact 8 None toy_block toy_txs (toy_cert_state, Some toy_gov)
    (Ok (toy_certified, Some toy_gov)) toy_block_txs toy_lists_once).
  by vm_compute.
Defined.

(** * Where the rules fail *)

(** A body that spends the toy input, with these certificates. *)
Definition certified_body (cert_bytes : list Z) (lovelace_out : Z) : ConwayTxBody := {|
  inputs := set_of [toy_in];
  outputs := [toy_out 8 lovelace_out];
  fee := 5;
  ttl := None; certs := Some cert_bytes; withdrawals := None; metadata_hash := None; validity_interval_start := None;
  mint := None; script_data_hash := None; collateral_inputs := None; required_signers := None; network_id := None;
  collateral_return := None; total_collateral := None; reference_inputs := None; voting_procedures := None;
  proposal_procedures := None; treasury_value := None; donation := None;
|}.

(** The lovelace of the UTxO and the deposits after the transaction, if it is accepted and applied. *)
Definition supply (u : OverlayUtxo) (s : CertState) : Z :=
  lovelace (to_map u) + deposits_held (dp_pool_deposit toy_params) s.
Definition supply_after (s : CertState) (cert_bytes : list Z) (lovelace_out : Z) : option Z :=
  let body := certified_body cert_bytes lovelace_out in
  match validate_conway_state_backed body toy_store toy_witnesses 150 1 10 (0, 0) toy_params s,
        apply_conway_tx_to_utxo toy_state body (encode_conway_tx_body [] body) (toy_hash 9),
        accumulate_conway_certs cert_bytes s None (dp_key_deposit toy_params) None with
  | Ok tt, Ok u, Ok (s, _) => Some (supply (utxos u) s + fee body)
  | _, _, _ => None
  end.

(** An account registered with a deposit of 12. *)
Definition registered : CertState :=
  mk_CertState (mk_DelegationState [(KeyHash (toy_key 3), 12)] [] [(KeyHash (toy_key 3), 0)]) (mk_PoolState [] [] []).
Definition refund_of_50 : list Z := [129; 131; 8] ++ credential_bytes 0 3 ++ [24; 50].

(** The unregistration asks for 50 back, and gets it. *)
Lemma unchecked_refund_mints :
  supply toy_store registered = 112 /\ supply_after registered refund_of_50 145 = Some 150.
Proof. by vm_compute. Qed.

(** A new pool registered twice in one transaction is charged two deposits of 50, and holds one. *)
Definition pool_cert_bytes (n : Z) : list Z :=
  [138; 3; 88; 28] ++ toy_key n ++ [88; 32] ++ toy_hash n ++ [1; 1; 216; 30; 130; 1; 2; 88; 29] ++ toy_account n ++ [128; 128; 246].
Lemma double_pool_registration_burns :
  supply_after toy_cert_state ([129] ++ pool_cert_bytes 1) 45 = Some 100 /\
  let twice := [130] ++ pool_cert_bytes 1 ++ pool_cert_bytes 1 in
  cert_deposits_of (Some twice) toy_params toy_cert_state = Ok (100, 0) /\
  match accumulate_conway_certs twice toy_cert_state None 8 None with
  | Ok (s, _) => deposits_held (dp_pool_deposit toy_params) s = 50
  | Err _ => False
  end.
Proof. by vm_compute. Qed.

(** A body whose outputs are listed twice: the decoder keeps the second list, and the stored output
    carries the bytes of the first one. *)
Definition listed_twice : list Z :=
  [164; 0; 129; 130; 88; 32] ++ toy_hash 1 ++ [0] ++
  [1] ++ encode_babbage_tx_out_map [129] (toy_out 8 60) ++ [1] ++ encode_babbage_tx_out_map [129] (toy_out 9 17) ++ [2; 5].

Lemma outputs_listed_twice :
  match decode_conway_tx_body listed_twice 0 with
  | (Ok body, _) =>
      match apply_conway_tx_to_utxo toy_state body listed_twice (toy_hash 9) with
      | Ok u => overlay_get (utxos u) (toy_hash 9, 0) =
          Some (Out_AlonzoPlus (encode_babbage_tx_out_map [] (toy_out 8 60)) (toy_address 9) 17)
      | Err _ => False
      end
  | _ => False
  end.
Proof. by vm_compute. Qed.

(** The account behind a vote delegation need not be registered. *)
Lemma unregistered_account_votes :
  match apply_conway_certs toy_cert_state (Some toy_gov) [VoteDelegation (KeyHash (toy_key 3)) AlwaysAbstain] 8 None 0 with
  | Ok (s, Some g) => bt_contains (registrations (delegation s)) (KeyHash (toy_key 3)) = false /\
      bt_get (vote_delegations g) (KeyHash (toy_key 3)) = Some AlwaysAbstain
  | _ => False
  end.
Proof. by vm_compute. Qed.

(** The sweep for removed certificates stops at the first refund it cannot resolve. *)
Lemma removed_certificate_masked :
  era_validity_sweep [AccountUnregistration (KeyHash (toy_key 3)); RemovedInConway 5] toy_params toy_cert_state 0 =
    Err (UnsupportedStateDependentDeposit LegacyUnregistrationRefundUnresolved) /\
  era_validity_sweep [RemovedInConway 5; AccountUnregistration (KeyHash (toy_key 3))] toy_params toy_cert_state 0 =
    Err (EraInvalidCertificate (mk_EraInvalidCertificateError 0 5)).
Proof. by vm_compute. Qed.

(** Certificates listed twice in a body: the value equation sees the second list, the certificate
    walk applies both, and the deposit of the first is on record without having been paid. *)
Definition certs_listed_twice : list Z :=
  [165; 0; 129; 130; 88; 32] ++ toy_hash 1 ++ [0] ++ [1] ++ encode_babbage_tx_out_map [129] (toy_out 8 95) ++ [2; 5] ++
  [4; 129; 131; 7] ++ credential_bytes 0 3 ++ [24; 60] ++ [4; 128].

Lemma certificates_listed_twice :
  match decode_conway_tx_body certs_listed_twice 0 with
  | (Ok body, _) => validate_conway_state_backed body toy_store toy_witnesses 150 1 10 (0, 0) toy_params toy_cert_state = Ok tt
  | _ => False
  end /\
  match process_block_certificates 8 None (mk_ShelleyBlock toy_header 1 (129 :: certs_listed_twice) [129; 160] [160] (Some [128]))
          (toy_cert_state, None) with
  | Ok (s, _) => deposits_held (dp_pool_deposit toy_params) s = 60
  | Err _ => False
  end.
Proof. by vm_compute. Qed.
