(* ===== verification/TxExamples.v ===== *)
(** A transaction that mints under a native and a Plutus script, on the ledger of [LedgerExamples.v]:
    the theorems on the witness set, the scripts and the validity of transactions, and on the mempool,
    applied to it. *)

From S2P Require Import Prelude Rational Cbor CborSkip Envelope EraSchedule Header Leader Kes NetCodec BTree Spelling Decoder BlockCodec BlockValidity GovernanceFacts.
From S2P Require Import NativeScript LedgerValue Utxo LedgerMaps ConwayCert Delegation Governance ConwayTx Witness ConwayRules UtxoEffect.
From S2P Require Import TxSigners ScriptClosure PhaseTwo TxValidity Mempool LedgerExamples.

#[local] Instance tx_crypto : Crypto := {|
  blake2b_256 l := repeat (fold_left Z.add l 0 mod 256) 32;
  vrf_draft03_verify _ _ _ := None;
|}.
#[local] Instance tx_blake224 : Blake224 := {| blake2b_224 := take 28 |}.
#[local] Instance tx_sha3 : Sha3 := {| sha3_256 := take 32 |}.
(** A signature is the key and the message. *)
#[local] Instance tx_ed25519 : Ed25519 := {|
  ed_public seed := seed;
  ed_sign seed msg := seed ++ msg;
  ed_verify key msg sig := Some (bool_decide (sig = key ++ msg));
|}.
(** The script of the redeemer consumed 5 and 6 units. *)
#[local] Instance tx_aiken : Aiken := {| eval_phase_two_raw _ _ _ _ _ := Some [[132; 1; 0; 0; 130; 5; 6]] |}.

Definition sig_script : list Z := [130; 0; 88; 28] ++ toy_key 7.
Definition sig_policy : Hash28 := Eval vm_compute in prefixed_script_hash NATIVE_SCRIPT_PREFIX sig_script.
Definition plutus_script : list Z := repeat 9 30.
Definition plutus_policy : Hash28 := Eval vm_compute in prefixed_script_hash PLUTUS_V3_PREFIX plutus_script.

Definition mint_bytes : list Z := [162; 88; 28] ++ sig_policy ++ [161; 64; 1; 88; 28] ++ plutus_policy ++ [161; 64; 1].

Definition minting_body : ConwayTxBody := {|
  inputs := inputs toy_body; outputs := outputs toy_body; fee := fee toy_body; ttl := ttl toy_body; certs := certs toy_body;
  withdrawals := withdrawals toy_body; metadata_hash := None; validity_interval_start := Some 10; mint := Some mint_bytes;
  script_data_hash := None; collateral_inputs := Some (set_of [toy_in]); ConwayTx.required_signers := Some (set_of [toy_key 3]);
  network_id := Some 1; collateral_return := Some (toy_out 7 40); total_collateral := None; reference_inputs := None;
  voting_procedures := None; proposal_procedures := None; treasury_value := None; donation := Some 1;
|}.

Definition minting_bytes : list Z := Eval vm_compute in encode_conway_tx_body [] minting_body.
Definition minting_id : Hash32 := Eval vm_compute in blake2b_256 minting_bytes.

Definition vkey_witness (n : Z) : list Z := [130; 88; 32] ++ repeat n 32 ++ [88; 64] ++ repeat n 32 ++ minting_id.
Definition minting_witnesses : list Z := Eval vm_compute in
  [164; 0; 131] ++ vkey_witness 7 ++ vkey_witness 3 ++ vkey_witness 5 ++
  [1; 129] ++ sig_script ++ [7; 129; 88; 30] ++ plutus_script ++
  [5; 161; 130; 1; 0; 130; 0; 130; 5; 7].

Definition minting_tx : list Z := Eval vm_compute in [132] ++ minting_bytes ++ minting_witnesses ++ [245; 246].

Definition spent_out : TxOut := Out_AlonzoPlus ([130; 88; 29] ++ toy_address 7 ++ [24; 100]) (toy_address 7) 100.
Definition tx_store : OverlayUtxo := overlay_from_map [(toy_in, spent_out)].

Definition tx_ledger : LedgerState unit := {|
  utxo_state := mk_UTxOState tx_store;
  protocol_params := {|
    min_fee_a := 44; min_fee_b := 155381; max_block_body_size := 90112; max_tx_size := 16384; max_block_header_size := 1100;
    key_deposit := 8; pool_deposit := 50; e_max := 18; n_opt := 4;
    pool_influence := mk_Rational 3 10; monetary_expansion := mk_Rational 3 1000; treasury_growth := mk_Rational 1 5;
    protocol_major := 10; protocol_minor := 0; min_utxo_rule := PerByte 4310; min_pool_cost := 5;
    decentralization := rational_zero; collateral_percent := 150; max_tx_ex_units_mem := 100; max_tx_ex_units_cpu := 100;
    pp_network_id := 1; cost_models_cbor := None; max_block_ex_units := MaxBlock_Bound 1000 1000 |};
  track_utxo_flag := true;
  cert_state := Authoritative toy_cert_state;
  conway_deposit_params := Some (mk_ConwayOnlyDepositParams 40 30 20);
  rest := tt;
|}.

Definition minting_after : LedgerState unit := Eval vm_compute in applied (tx_validity tx_ledger minting_tx).
Definition minting_decoded : DecodedTx := Eval vm_compute in
  match decode_tx minting_tx with Ok d => d | Err _ => mk_DecodedTx toy_body [] [] empty_witness_info [] [] end.

(** * The theorems, at this transaction *)

Definition sig_tree : Timelock := All_of [Signature_of (toy_key 7); Not_before 10].
Definition tree_bytes : list Z := [130; 1; 159] ++ sig_script ++ [130; 4; 10; 255].

Lemma sig_written : written (Signature_of (toy_key 7)) sig_script.
Proof.
  apply (written_sig (toy_key 7) [130] [0] Inline); [| |done].
  - exact (reads_array_header 2 ltac:(by split)).
  - exact (reads_u64v 0 ltac:(by split)).
Qed.

Lemma native_scripts_exact_witness :
  reads decode_native_script sig_script (mk_NativeScript (post_order (Signature_of (toy_key 7)))) /\
  exists t, (forall t', [Node_Sig (toy_key 7); Node_InvalidBefore 10; Node_All 2] = post_order t' <-> t' = t).
Proof.
  split; [apply (proj1 native_scripts_exact), sig_written|].
  destruct (proj2 native_scripts_exact tree_bytes 0 (mk_NativeScript [Node_Sig (toy_key 7); Node_InvalidBefore 10; Node_All 2])
    (blen tree_bytes) [] (mk_ValidityInterval None None)) as (t & Ht & _); [by apply all_bytes_ok; vm_compute|done|by vm_compute|].
  by exists t.
Defined.

Definition minting_context : ResolvedScriptContext :=
  mk_ResolvedScriptContext [(toy_in, mk_ResolvedScriptOutput (toy_address 7) None)].

Lemma minting_bytes_ok : bytes_ok minting_tx /\ bytes_ok minting_witnesses.
Proof. split; apply all_bytes_ok; by vm_compute. Qed.

Lemma script_closure_exact_witness : closed_scripts minting_body (witness_info minting_decoded) minting_context.
Proof.
  apply (script_closure_exact minting_witnesses (witness_info minting_decoded) minting_body minting_context Closure_Valid);
    [apply minting_bytes_ok|by vm_compute| |by vm_compute|done].
  intros input raw H. unfold reference_of in H. cbn [ctx_outputs minting_context bt_get] in H. by destruct (cmp input toy_in).
Defined.

Lemma tx_store_ok : overlay_ok (utxos (utxo_state tx_ledger)).
Proof. split; [by vm_compute; repeat constructor|constructor|by vm_compute|by split]. Qed.


(** Offered twice, by different ways: admitted once. *)
Definition minting_events : list IngressEvent := [mk_IngressEvent N2N minting_tx; mk_IngressEvent N2C minting_tx].

Lemma mempool_admits_valid_witness : exists ds, [minting_id] = map tx_id ds /\
  forall i d, ds !! i = Some d -> exists j s, offered tx_ledger (take j minting_events) (take i ds) s /\ signed (utxo_state s) d.
Proof.
  destruct (mempool_admits_valid tx_ledger minting_events) as (ds & _ & Ha & Hs & _).
  - apply Forall_cons; split; [apply minting_bytes_ok|]. apply Forall_cons; split; [apply minting_bytes_ok|by apply Forall_nil].
  - exact tx_store_ok.
  - reflexivity.
  - exists ds. split; [transitivity (accepted (ingest (mempool_new tx_ledger) minting_events)); [vm_compute; reflexivity|exact Ha]|]. intros i d Hi. destruct (Hs i d Hi) as (j & e & s & _ & _ & Hr & Hsig & _). exists j, s. exact (conj Hr Hsig).
Defined.

Definition toy_queues : list PeerSubmissionQueue :=
  [mk_PeerSubmissionQueue [2] N2N [[20]; [21]]; mk_PeerSubmissionQueue [1] N2C [[10]]; mk_PeerSubmissionQueue [1] N2N [[11]; [12]]].

Lemma canonical_order_exact_witness :
  canonicalize_peer_streams toy_queues = map (fun e => mk_IngressEvent (fst e) (snd e)) [(N2N, [11]); (N2C, [10]); (N2N, [20]); (N2N, [12]); (N2N, [21])] /\
  canonicalize_peer_streams (reverse toy_queues) = canonicalize_peer_streams toy_queues.
Proof.
  split; [by vm_compute|]. apply (canonical_order_exact toy_queues).
  - repeat constructor; set_solver.
  - symmetry. apply reverse_Permutation.
Defined.

(** * Where the code does not do what it means to *)

(** An evaluator that refuses every transaction. *)
Definition refusing : Aiken := {| eval_phase_two_raw _ _ _ _ _ := None |}.
Definition byron_ledger : LedgerState unit := with_utxo tx_ledger
  (mk_UTxOState (overlay_from_map [(toy_in, Out_Byron (Address_Byron [130; 1; 2]) 100)])).

Definition rejected_class (v : TxValidityVerdict unit) : option TxRejectClass :=
  match v with Tx_Valid _ _ => None | Tx_Invalid c _ => Some c end.

(** A transaction whose scripts the evaluator refuses is rejected; let it spend a Byron output, and its
    scripts are not run. *)
Lemma byron_input_skips_scripts :
  rejected_class (verdict (tx_validity (HA := refusing) tx_ledger minting_tx)) = Some Phase2Invalid /\
  rejected_class (verdict (tx_validity (HA := refusing) byron_ledger minting_tx)) = None.
Proof. split; vm_compute; reflexivity. Qed.

(** Two queues of one peer and one source are drained in the order they are given. *)
Lemma same_peer_order :
  let a := mk_PeerSubmissionQueue [1] N2N [[10]] in
  let b := mk_PeerSubmissionQueue [1] N2N [[11]] in
  canonicalize_peer_streams [a; b] <> canonicalize_peer_streams [b; a].
Proof. vm_compute. discriminate. Qed.
