(* ===== verification/EpochExamples.v ===== *)
(** An epoch boundary of a small Conway ledger: two pools, one of which retires, an account that is not
    registered, a proposal that expires.  The theorems of [Ratification.v] and [BoundaryFacts.v] applied
    to it; a margin above one that creates ADA, and committee members who count twice, or after they resigned. *)

From Stdlib Require Import QArith.
From S2P Require Import Prelude Rational Envelope EraSchedule Leader BTree LedgerValue Utxo LedgerMaps ConwayCert.
From S2P Require Import Delegation Governance ConwayRules LedgerExamples TxValidity Ratification EpochBoundary BoundaryFacts.
Open Scope Z_scope.

(** * Proposals *)

Definition toy_action (n : Z) : GovActionId := mk_GovActionId (toy_hash n) 0.
Definition toy_proposal (n : Z) (a : GovAction) (last : Z) : GovActionState :=
  mk_GovActionState (toy_action n) [] [] [] 30 (toy_account n) a 5 last.
Definition toy_change (prev : option GovActionId) : GovAction := ParameterChange prev [161; 16; 24; 70] None.

(** 3 is enacted; 4 was its rival, and 5 builds on 4; 6 is past its life; 7 stays. *)
Definition toy_proposals : list GovActionState :=
  [toy_proposal 5 (toy_change (Some (toy_action 4))) 20; toy_proposal 3 (toy_change None) 20; toy_proposal 4 (toy_change None) 20;
   toy_proposal 6 InfoAction 9; toy_proposal 7 InfoAction 20].

Definition toy_pparams : ProtocolParameters := {|
  min_fee_a := 44; min_fee_b := 155381; max_block_body_size := 90112; max_tx_size := 16384; max_block_header_size := 1100;
  key_deposit := 8; pool_deposit := 50; e_max := 18; n_opt := 4;
  pool_influence := mk_Rational 3 10; monetary_expansion := mk_Rational 3 1000; treasury_growth := mk_Rational 1 5;
  protocol_major := 10; protocol_minor := 0; min_utxo_rule := PerByte 4310; min_pool_cost := 5;
  decentralization := rational_zero; collateral_percent := 150; max_tx_ex_units_mem := 100; max_tx_ex_units_cpu := 100;
  pp_network_id := 1; cost_models_cbor := None; max_block_ex_units := MaxBlock_Bound 1000 1000 |}.

Definition toy_decision : RatificationDecision :=
  mk_RatificationDecision (Some (mk_EnactedParameterChange (toy_action 3) None toy_pparams)) (set_of [toy_action 6]).
Definition registered_3 (c : StakeCredential) : bool := same_credential c (KeyHash (toy_key 3)).

Definition toy_plan : ConwayGovernanceEpochPlan := Eval vm_compute in
  match apply_decision registered_3 toy_decision toy_proposals with
  | Ok plan => plan | Err _ => mk_ConwayGovernanceEpochPlan [] [] [] PParams_Unchanged Prev_Unchanged end.
Lemma toy_planned : apply_decision registered_3 toy_decision toy_proposals = Ok toy_plan.
Proof. by vm_compute. Qed.

Lemma removals_exact_witness :
  (plan_proposals toy_plan = [toy_proposal 7 InfoAction 20] /\
   map (fun r => (removed_id r, cause r)) (removals toy_plan) =
     [(toy_action 3, Cause_Enacted); (toy_action 4, PrunedByEnactment); (toy_action 5, PrunedByEnactment); (toy_action 6, Cause_Expired)] /\
   deposit_returns toy_plan =
     [ToRewardAccount (toy_action 3) (KeyHash (toy_key 3)) 30; ToTreasury (toy_action 4) 30; ToTreasury (toy_action 5) 30;
      ToTreasury (toy_action 6) 30]) /\
  sum_Z (map gs_deposit toy_proposals) =
    sum_Z (map gs_deposit (plan_proposals toy_plan)) + sum_Z (map returned_amount (deposit_returns toy_plan)).
Proof.
  split; [by vm_compute|].
  destruct (proj2 (removals_exact registered_3 toy_decision toy_proposals (set_of_ordered _)) toy_plan toy_planned)
    as (gone & _ & _ & _ & _ & Hsum & _). exact Hsum.
Defined.

(** The votes of the last epoch. *)
Definition toy_late (p : GovActionState) : GovActionState :=
  mk_GovActionState (action_id p) (committee_votes p) ((KeyHash (toy_key 3), Vote_No) :: drep_votes p) (spo_votes p) (gs_deposit p)
    (gs_return_addr p) (action p) (proposed_in p) (expires_after p).
Definition toy_record : RatificationRecord :=
  mk_RatificationRecord 10 Frozen (set_of (map action_id toy_proposals)) [] [] (Decided toy_decision).

Lemma late_votes_do_not_count_witness :
  apply_ratification_record toy_record 11 (map toy_late toy_proposals) registered_3 = Ok (late_plan toy_late toy_plan) /\
  removals (late_plan toy_late toy_plan) = removals toy_plan.
Proof.
  split; [|done]. destruct (late_votes_do_not_count toy_late toy_record 11 toy_proposals registered_3) as [-> _]; [by intros|].
  vm_compute. reflexivity.
Defined.

(** * A boundary *)

Definition toy_cred (n : Z) : StakeCredential := KeyHash (toy_key n).
Definition toy_registered_pool (n : Z) : PoolParams :=
  mk_PoolParams (toy_key n) (toy_hash n) 200 10 (1, 10) (toy_account n) [toy_key 3].

(** Pool 1's owner is 3, its reward account 1, which is not registered; 4 delegates to it, and so does 5, who
    deregistered; 6 delegates to pool 2, which retires. *)
Definition toy_go (margin : Z * Z) : StakeSnapshot :=
  mk_StakeSnapshot
    [(toy_cred 3, (toy_key 1, 300)); (toy_cred 4, (toy_key 1, 200)); (toy_cred 5, (toy_key 1, 100)); (toy_cred 6, (toy_key 2, 400))]
    [(toy_key 1, 600); (toy_key 2, 400)]
    [(toy_key 1, mk_SnapshotPoolParams 200 10 margin (toy_cred 1) [(toy_key 3, tt)])].
Definition toy_snaps (margin : Z * Z) : SnapshotState := mk_SnapshotState (toy_go margin) (toy_go margin) (toy_go margin).

Definition toy_cert : CertState :=
  mk_CertState
    (mk_DelegationState [(toy_cred 3, 8); (toy_cred 4, 8); (toy_cred 6, 8)]
       [(toy_cred 3, toy_key 1); (toy_cred 4, toy_key 1); (toy_cred 6, toy_key 2)] [(toy_cred 3, 1); (toy_cred 4, 0); (toy_cred 6, 2)])
    (mk_PoolState [(toy_key 1, toy_registered_pool 1); (toy_key 2, toy_registered_pool 2)] [] [(toy_key 2, 11)]).

Definition toy_expiring : RatificationDecision := mk_RatificationDecision None [(toy_action 6, tt)].
Definition toy_frozen : RatificationRecord := mk_RatificationRecord 10 Frozen [] [] [] (Decided toy_expiring).
Definition toy_governance : GovState :=
  mk_GovState [toy_proposal 6 InfoAction 9; toy_proposal 7 InfoAction 20] [] (2, 3) 6
    (mk_ConwayGovState [(toy_cred 9, 30)] [(toy_cred 3, DRep_KeyHash (toy_key 9)); (toy_cred 6, AlwaysAbstain)] [])
    (repeat (1, 2) 5) (repeat (1, 2) 10) (Dormant_Bound 0) NoPreviousAction (Recorded toy_frozen).

Definition toy_ended (pp : ProtocolParameters) (margin : Z * Z) : Ledger := {|
  utxo_state := mk_UTxOState toy_store;
  protocol_params := pp;
  track_utxo_flag := true;
  cert_state := Authoritative toy_cert;
  conway_deposit_params := Some (mk_ConwayOnlyDepositParams 40 30 20);
  rest := mk_EpochFields
    (mk_EpochState 10 1000 (Snapshots_Authoritative (toy_snaps margin)) 1000000 5000 [(toy_key 1, 4)] 500 7)
    Conway 1001000 (Gov_Authoritative (Some toy_governance));
|}.
Definition toy_base : BoundaryBaseStake := mk_BoundaryBaseStake 1000 [(toy_cred 3, 300); (toy_cred 4, 200)].
Definition toy_turn (s : Ledger) : result (Ledger * EpochBoundaryAccounting) GovernanceTerminal :=
  apply_epoch_boundary_with_registrations s 11 None (Some toy_base) 4.
Definition toy_turned_to (s : Ledger) : Ledger * EpochBoundaryAccounting :=
  match toy_turn s with Ok r => r | Err _ => (s, mk_EpochBoundaryAccounting 0 0 0 0 0 0 0 0 0 0 0 0 0 0) end.
Definition toy_next : Ledger * EpochBoundaryAccounting := Eval vm_compute in toy_turned_to (toy_ended toy_pparams (1, 10)).
Lemma toy_turns_over : toy_turn (toy_ended toy_pparams (1, 10)) = Ok (fst toy_next, snd toy_next).
Proof. vm_compute. reflexivity. Qed.

Lemma toy_go_ok : snapshot_ok (toy_go (1, 10)).
Proof.
  constructor; [by repeat constructor..| |].
  - intros id st H. apply get_elem in H; [|by repeat constructor]. apply elem_of_cons in H as [[= -> ->]|H]; [by vm_compute|].
    apply list_elem_of_singleton in H as [= -> ->]. by vm_compute.
  - intros id p H. apply get_elem in H; [|by repeat constructor]. apply list_elem_of_singleton in H as [= -> ->].
    repeat split; cbn; first [lia|done|by repeat constructor].
Qed.

Lemma toy_ended_ok : ledger_ok (toy_ended toy_pparams (1, 10)) (toy_snaps (1, 10)) toy_cert (Some toy_governance).
Proof.
  constructor; cbn.
  - lia.
  - by repeat split.
  - by repeat split.
  - by repeat split.
  - by split.
  - lia.
  - lia.
  - split; [by repeat constructor|by repeat constructor].
  - split; [by repeat constructor|]. intros e [H|H]; [|by apply elem_of_nil in H]. apply elem_of_cons in H as [->|H]; [by eexists|].
    apply list_elem_of_singleton in H as ->. by eexists.
  - split; [split; by repeat constructor|by vm_compute].
  - exact toy_go_ok.
  - by vm_compute.
  - split; [by split|by vm_compute].
  - intros g [= <-]. split; [by repeat constructor|]. intros r [= <-] d [= <-]. split; [by repeat constructor|done].
Qed.

(** The accounts, the treasury and the reserves of the new epoch; the ADA is that of the old one. *)
Lemma boundary_conserves_ada_witness :
  (rewards (delegation (match cert_state (fst toy_next) with Authoritative c => c | _ => toy_cert end)) =
     [(toy_cred 3, 1); (toy_cred 4, 330); (toy_cred 6, 32)] /\
   sum_rewards (snd toy_next) = 1110 /\ delta_t2 (snd toy_next) = 780 /\ reserves (epoch_state (rest (fst toy_next))) = 998690) /\
  ada (fst toy_next) = ada (toy_ended toy_pparams (1, 10)).
Proof.
  split; [by vm_compute|].
  apply (boundary_conserves_ada (toy_ended toy_pparams (1, 10)) 11 None (Some toy_base) 4 (fst toy_next) (snd toy_next)); [|exact toy_turns_over].
  intros snaps c g [= <-] [= <-] [= <-]. exact toy_ended_ok.
Defined.

(** ** A margin above one

    Neither the certificate's decoder nor the registration of a pool bounds its margin.  The leader is
    then paid a multiple of the pool's reward, and what exceeds the pot comes from nowhere. *)
Lemma margin_above_one_creates_ada :
  let s := toy_ended toy_pparams (10, 1) in
  let '(s', acc) := toy_turned_to s in
  ac_pool_reward_pot acc = 2800 /\ sum_rewards acc = 6065 /\ delta_r2 acc = 0 /\ ada s' = ada s + 3265.
Proof. by vm_compute. Qed.

(** * The mark *)

Lemma toy_pools_ok id p : bt_get (pools (pool toy_cert)) id = Some p -> registered_ok p.
Proof.
  intros H. apply get_elem in H; [|by repeat constructor]. apply elem_of_cons in H as [[= -> ->]|H].
  - repeat split; cbn; first [lia|done].
  - apply list_elem_of_singleton in H as [= -> ->]. repeat split; cbn; first [lia|done].
Qed.

Definition toy_mark : StakeSnapshot := build_boundary_mark_snapshot toy_base (delegation toy_cert) (pools (pool toy_cert)).

(** Of the delegators 3 and 4 have stake in outputs, and 6 only what is in its account. *)
Lemma mark_exact_witness :
  (stake_delegations toy_mark =
     [(toy_cred 3, (toy_key 1, 301)); (toy_cred 4, (toy_key 1, 200)); (toy_cred 6, (toy_key 2, 2))] /\
   pool_stakes toy_mark = [(toy_key 1, 501); (toy_key 2, 2)]) /\
  snapshot_ok toy_mark /\ sum_Z (map snd (pool_stakes toy_mark)) <= 503.
Proof.
  split; [by vm_compute|].
  destruct (mark_exact toy_base (delegation toy_cert) (pools (pool toy_cert))) as (Hok & _ & _ & _ & Hle & _);
    [split; by repeat constructor|split; by repeat constructor|by vm_compute|by repeat constructor|by repeat constructor|exact toy_pools_ok|].
  split; [exact Hok|]. exact Hle.
Defined.

(** * The committee

    Votes are counted by hot key.  A member who authorizes a second hot key keeps the first, and both of
    them vote; and a key that stands for nobody counts, so that a member who resigned votes on. *)

Definition toy_hot_keys (l : list ConwayCert) : BTreeMap StakeCredential StakeCredential :=
  committee_hot_keys (fold_left (fun g c => match apply_conway_gov_cert g c None 0 with Ok g => g | Err _ => g end) l (mk_ConwayGovState [] [] [])).
Definition toy_voted_by (l : list Z) : GovActionState :=
  mk_GovActionState (toy_action 8) (map (fun n => (toy_cred n, Vote_Yes)) l) [] [] 30 (toy_account 3) (toy_change None) 5 20.
Definition toy_committee : BTreeMap StakeCredential Z := [(toy_cred 1, 50); (toy_cred 2, 50)].

Lemma one_member_votes_twice :
  let keys := toy_hot_keys [AuthCommitteeHot (toy_cred 1) (toy_cred 11); AuthCommitteeHot (toy_cred 1) (toy_cred 12)] in
  committee_accepts (toy_voted_by [11; 12]) toy_committee rational_one 10 keys = true /\
  committee_accepts (toy_voted_by [11]) toy_committee rational_one 10 keys = false.
Proof. by vm_compute. Qed.

Lemma resigned_member_votes :
  let keys := toy_hot_keys [AuthCommitteeHot (toy_cred 1) (toy_cred 11); AuthCommitteeHot (toy_cred 2) (toy_cred 12); ResignCommitteeCold (toy_cred 1)] in
  committee_accepts (toy_voted_by [11; 12]) toy_committee rational_one 10 keys = true /\
  committee_accepts (toy_voted_by [98; 99]) toy_committee rational_one 10 keys = true.
Proof. by vm_compute. Qed.

(** One of two members says yes, seven tenths of the representatives' stake and three fifths of the
    pools' that voted. *)
Definition toy_ballot : GovActionState :=
  mk_GovActionState (toy_action 8) [(toy_cred 11, Vote_Yes); (toy_cred 12, Vote_Abstain)]
    [(toy_cred 9, Vote_Yes); (toy_cred 10, Vote_No)] [(toy_key 1, Vote_Yes); (toy_key 2, Vote_No); (toy_key 3, Vote_Abstain)]
    30 (toy_account 3) (toy_change None) 5 20.
Definition toy_keys : BTreeMap StakeCredential StakeCredential := [(toy_cred 11, toy_cred 1); (toy_cred 12, toy_cred 2)].
Definition toy_dreps : DRepStakeDistribution := [(DRep_KeyHash (toy_key 9), 70); (DRep_KeyHash (toy_key 10), 30)].
Definition toy_pool_stakes : BTreeMap PoolId Coin := [(toy_key 1, 60); (toy_key 2, 40); (toy_key 3, 50)].

Ltac all_distinct :=
  cbn [map fst drep_votes spo_votes toy_ballot];
  repeat (apply NoDup_cons_2; [intros Hin; repeat (apply elem_of_cons in Hin as [Hin|Hin]; [by vm_compute in Hin|]); by apply elem_of_nil in Hin|]);
  apply NoDup_nil_2.

Lemma votes_exact_witness :
  check_ratification toy_ballot (Some 4%nat, Some 5%nat) 100 toy_dreps toy_pool_stakes toy_committee (mk_Rational 1 2)
    (repeat (3, 5) 5) (repeat (2, 3) 10) 10 toy_keys = true /\
  committee_agrees toy_ballot toy_committee (mk_Rational 1 2) 10 toy_keys /\
  dreps_agree toy_ballot (Some 5%nat) 100 toy_dreps (repeat (2, 3) 10) /\
  pools_agree toy_ballot (Some 4%nat) toy_pool_stakes (repeat (3, 5) 5).
Proof.
  split; [by vm_compute|].
  apply (votes_exact toy_ballot (Some 4%nat, Some 5%nat) 100 toy_dreps toy_pool_stakes toy_committee (mk_Rational 1 2)
    (repeat (3, 5) 5) (repeat (2, 3) 10) 10 toy_keys); [|by vm_compute].
  constructor.
  - by repeat split.
  - by vm_compute.
  - split; [|split; [split; by repeat constructor|by vm_compute]]. by all_distinct.
  - split; [|split; [split; by repeat constructor|by vm_compute]]. by all_distinct.
Defined.
